(* ===== verification/_CoqProject ===== *)
-Q . S2P
Prelude.v
Mlvalues.v
Bytes.v
KerN.v
KerNDiv.v
Bn.v
Freelist.v
Runtime.v
Memory.v
Fail.v
Heap.v
GlobRoots.v
Finalise.v
Roots.v
Alloc.v
Str.v
Trees.v
Compare.v
Hash.v
Minor.v
MinorHeap.v
Major.v
MarkPhase.v
MarkSlice.v
Sweep.v
Cycle.v
Stacks.v
Instruct.v
Interp.v
InterpArith.v
InterpFused.v
InterpCalls.v
Callback.v
FixCode.v
Md5.v
Lexing.v
Parsing.v
ParseSound.v
Warshall.v
Closure.v
Lr0.v
Digraph.v
Lalr.v
LalrSets.v
Pack.v
Output.v
Mkpar.v
Vectors.v
Generated.v
