(* ===== verification/Prelude.v ===== *)
(** * A verification development for the Objective Caml runtime system

    The repository is a distribution of Objective Caml with a compiler to
    Microsoft's intermediate language.  Its C code, the subject of this development,
    is the bytecode runtime system ([src/byterun]), the kernel of the
    arbitrary-precision library ([src/otherlibs/num/bignum]), a number of stubs, and
    the parser generator ocamlyacc ([src/yacc]).

    ** The program and its model

    The runtime system is one process with global variables: an interpreter loop
    works on a stack and on a heap made of a minor heap, where blocks are bumped, and
    of a major heap of chunks with a free list; a write barrier keeps a table of the
    fields of the major heap that point to the minor one; C code calls back into the
    interpreter, raises exceptions by a long jump, and registers roots.

    All files assume a 64-bit little-endian machine.  A machine word is a [Z] in
    [0, 2^64), with every conversion written out ([u64], [s64], [u32], ...); memory
    is a finite map from addresses to words ([mem], [ld], [st]).

    - [Prelude]: machine integers, bit operations, memory, tactics ([zlia], [wint],
      [splits], [zcases], [msimp]), facts on lists.
    - [Mlvalues]: the macros of [mlvalues.h], [gc.h] and [config.h] on values,
      headers, colours and sizes.
    - [KerN], [KerNDiv], [Bn]: the digits of natural numbers, [bignum/c/KerN.c] and
      [bignum/c/bn/*.c].  A number is a segment of a memory of digits; loops run on
      the length of the segment.
    - [Freelist]: [freelist.c], on the record of its static variables.
    - [Runtime]: the global variables of the other modules as records ([stacks],
      [minor_gc], [major_gc], [globals], [runtime]) and the monad [M] of the code
      that may raise an exception ([Exn]) or stop the program ([Fatal]).  The answers
      of [malloc] are a list in the state, [0] for a refusal.
    - [Memory]: the write barrier [Modify], [initialize], [darken] and the growth of
      their tables ([memory.h], [memory.c], [major_gc.c], [minor_gc.c]).
    - [Fail]: [fail.c], and [Alloc_small].  The collector the allocation macro calls
      is the type class [Collector], with its laws in [CollectorOk]: it may move
      blocks, returns the roots it was given updated, and empties the minor heap.
    - [Heap]: the chunks of the major heap, the page table and [alloc_shr]
      ([memory.c], [major_gc.c], [misc.c]).
    - [GlobRoots]: [globroots.c].  [Finalise]: the table of finalisers, [finalise.c].
      [Roots]: the scans of all the roots, [roots.c], with a rule for what a scan
      does ([scans]) the collectors share.
    - [Minor], [MinorHeap]: the minor collection, [minor_gc.c]; the allocation it
      copies with is the type class [MajorAlloc], of which [alloc_shr] is an instance.
    - [Major], [MarkPhase], [MarkSlice], [Sweep], [Cycle]: the major collector,
      [major_gc.c]: the marking of the heap from a gray stack that may lose its
      entries, the subphases of the weak arrays and of the values to finalise, the
      slices, the sweeping, and [finish_major_cycle], which puts them together.
    - [Stacks]: [stacks.c].
    - [Instruct], [Interp]: [instruct.h] and the whole of [interp.c], one definition
      per instruction on a record of the registers; [step] decodes and executes one
      instruction.  C primitives, the debugger and signal handlers are parameters
      ([externals]).
    - [InterpArith], [InterpFused], [InterpCalls]: theorems on the instructions.
    - [Callback]: [callback.c].  [FixCode]: [fix_code.c].
    - [Md5]: the algorithm of [md5.c].  [Lexing]: [lexing.c].
    - [Parsing], [ParseSound]: [parsing.c] and its driver, [stdlib/parsing.ml].
    - [Bytes]: the bytes of words.  [Alloc]: [alloc.c] and the exceptions with a
      message.  [Str]: [str.c].  [Trees]: what the polymorphic primitives see of a
      value, and the order of trees.  [Compare]: [compare.c].  [Hash]: [hash.c].
    - [Warshall], [Closure], [Lr0]: the construction of the LR(0) automaton by
      ocamlyacc, [src/yacc/warshall.c], [closure.c] and [lr0.c].  A grammar is the
      record of the arrays [reader.c] packs; sets of rules are rows of bits in memory.
    - [Digraph], [Lalr], [LalrSets]: [lalr.c], the traversal that unites the rows of a
      relation, the relations between gotos, and what the lookaheads are.
    - [Mkpar]: the rows of actions, the conflicts and the default reductions,
      [mkpar.c].  [Pack]: the sorting and packing of vectors in [output.c].  [Output]:
      its printing of the tables, and the escapes of OCaml strings that read them back.
      [Vectors]: the vectors made of the rows and gotos, and the other arrays printed,
      [output.c].  [Generated]: the phases in the order of [main.c], and the parsers made.

    ** What the theorems show

    - Calls ([InterpCalls]): applying a closure and returning from it restores the
      caller; partial applications give their arguments back; exceptions restore the
      handler's state; recursive closures reach each other.  [Callback] composes
      these for calls from C.  [InterpArith] relates the tagged arithmetic of every
      integer instruction to integers of 63 bits; [InterpFused] shows that the
      specialised and fused instructions are the general ones; [FixCode] that
      threading changes opcodes only, and agrees with the interpreter on operands.
    - Memory: the write barrier keeps the remembered set and hides no block from the
      marker ([Memory]); growing the stack relocates it ([Stacks]); the free list
      stays sorted, disjoint and counted through allocation, insertion and sweeping
      ([Freelist]); the chain of chunks and the page table agree, and [alloc_shr]
      returns a block that overlaps nothing in use, through all of these ([Heap]).
    - Collection: the minor collection copies what the roots reach, once, and leaves
      no pointer to the minor heap ([MinorHeap]); the table of finalisers keeps its
      three sets ([Finalise]); a cycle of the major collector ends, keeps the blocks
      reached from the roots and from the values to finalise as they were, and puts
      the words of all the others in the free list ([Cycle]).  The blocks of a heap
      are a finite set, and what is reached is an inductive predicate on the memory
      at the beginning of the cycle ([Major.reached]).
    - Refinements and equivalences: the skip list of roots is a set ([GlobRoots]); the
      lexer engine finds longest matches, and refills are transparent ([Lexing]); the
      parser engine with its driver is an LR automaton on a list of frames ([Parsing]),
      whose results are values of derivations of the tokens read ([ParseSound]); the
      streamed MD5 is that of the RFC ([Md5]).
    - Values: a string block denotes a sequence of bytes, on which the primitives
      compute ([Str]); a value denotes a finite tree ([Trees.tree_of]), on which
      comparison is an order and hashing a function ([Compare], [Hash]).
    - Big numbers: each routine computes the operation on the numbers denoted, with
      its carries, for all sizes and overlaps the code allows ([KerN] to [Bn]).
    - Parser generator: the bit matrices are closed ([Warshall]), [closure] computes the
      least set of items ([Closure]), and the states are those of the canonical
      automaton, unless there are too many ([Lr0]); [digraph] gives the union over what a
      relation reaches ([Digraph]), and the lookahead sets are those of the relations
      [reads], [includes] and [lookback] ([LalrSets]); the rows of actions are complete and
      their conflicts resolved by the documented rules ([Mkpar]); the engine finds in
      the overlapping, printed tables exactly the vectors packed ([Output]), hence the
      actions that are left and the gotos ([Vectors]).
    - Both ends: the engine, with the tables the generator prints for a grammar, returns
      values of derivations in that grammar ([Generated]).  The engine's soundness is
      proved for any tables that agree with a set of items ([ParseSound.tables_ok]),
      and the printed tables are shown to agree with those of the automaton.

    ** Fuel

    Loops over a segment of known length recurse on that length.  Loops over linked
    structures (the free list, the chunks, the skip list, the chain of traps) take a
    number of turns as argument; the theorems ask for more turns than the structure
    has elements, so that the result is always produced.  The lexer needs one turn
    per character left and one more; a call of the parser engine a turn per state of the
    stack and a constant number ([Parsing.turns]).  The level generator of [GlobRoots] ends within
    17 turns and the stack doubles at most 64 times, which is proved.  A minor
    collection needs a turn per block it copies; the marker one per block and per
    walk of the heap, at most one walk after each block marked ([Major.turns],
    [Cycle.mark_bound]); the sweeper one per block and per chunk; chains of
    forwarding blocks are as long as the [depth] a theorem assumes.  The passes of
    [set_nullable] are at most one per rule, the states of [Lr0] at most [MAXSHORT], the
    calls of [traverse] at most one per goto, and a place for a vector is found, or the
    table is too large, within [pack_fuel] turns.

    ** What is not modelled

    The interpreter is proved against the interface [Collector], to which the minor
    and major collections are not connected; the pacing of the slices computes
    with floating point.  Compaction, marshalling and channels are not modelled, nor is the
    text of the grammars that ocamlyacc reads: a grammar is the arrays that [reader.c]
    builds, with the properties it gives them as hypotheses ([Closure.grammar_ok],
    [LalrSets.laid_out], [Generated.entries_ok], [Vectors.symbols_ok]).  System calls,
    signal handlers, dynamic linking, the native runtime (assembly), the vendored regular
    expressions and the bindings to graphics and Tk are outside: what they do is defined
    by code that is not here.  The DEBUG build and big-endian or 32-bit variants are not modelled. *)
From stdpp Require Export base list gmap.
From Stdlib Require Export ZArith Lia.
From Stdlib Require Import Zpow_facts.

#[export] Set Default Goal Selector "!".

Declare Scope c_scope.
Delimit Scope c_scope with C.
Global Open Scope Z_scope.

(** ** Machine integers

    A [w]-bit machine word is a [Z]; an unsigned one lies in [0, 2^w), a signed
    one in [-2^(w-1), 2^(w-1)).  Every C operation that may wrap is written with
    the conversion that the C type of the result calls for. *)

Definition wrapU (w x : Z) : Z := x mod 2 ^ w.
Definition wrapS (w x : Z) : Z := (x + 2 ^ (w - 1)) mod 2 ^ w - 2 ^ (w - 1).

(** The constants are spelled out so that [lia] sees them. *)
Abbreviation B8 := 256.
Abbreviation B16 := 65536.
Abbreviation B31 := 2147483648.
Abbreviation B32 := 4294967296.
Abbreviation B63 := 9223372036854775808.
Abbreviation B64 := 18446744073709551616.

Definition u8 (x : Z) : Z := x mod B8.
Definition u16 (x : Z) : Z := x mod B16.
Definition u32 (x : Z) : Z := x mod B32.
Definition u64 (x : Z) : Z := x mod B64.
Definition s32 (x : Z) : Z := (x + B31) mod B32 - B31.
Definition s64 (x : Z) : Z := (x + B63) mod B64 - B63.

Definition isu32 (x : Z) : Prop := 0 <= x < B32.
Definition isu64 (x : Z) : Prop := 0 <= x < B64.
Definition iss32 (x : Z) : Prop := - B31 <= x < B31.
Definition iss64 (x : Z) : Prop := - B63 <= x < B63.

(** [zlia]: linear arithmetic with division and modulo by constants. *)
Ltac zlia := Z.to_euclidean_division_equations; lia.

(** Unfold every machine-integer conversion and solve. *)
Ltac wint :=
  unfold u8, u16, u32, u64, s32, s64, isu32, isu64, iss32, iss64 in *; zlia.

(** Split a conjunction without unfolding its parts. *)
Ltac splits := repeat match goal with |- _ /\ _ => split end.

(** Case analysis on the boolean comparisons of [Z] in the goal. *)
Ltac zcases :=
  repeat match goal with
  | |- context [Z.eqb ?a ?b] => destruct (Z.eqb_spec a b)
  | |- context [Z.ltb ?a ?b] => destruct (Z.ltb_spec a b)
  | |- context [Z.leb ?a ?b] => destruct (Z.leb_spec a b)
  end.

Ltac zcases_in H :=
  repeat match type of H with
  | context [Z.eqb ?a ?b] => destruct (Z.eqb_spec a b)
  | context [Z.ltb ?a ?b] => destruct (Z.ltb_spec a b)
  | context [Z.leb ?a ?b] => destruct (Z.leb_spec a b)
  end.

Lemma u8_range x : 0 <= u8 x < B8.
Proof. apply Z.mod_pos_bound; lia. Qed.
Lemma u32_range x : isu32 (u32 x).
Proof. apply Z.mod_pos_bound; lia. Qed.
Lemma u64_range x : isu64 (u64 x).
Proof. apply Z.mod_pos_bound; lia. Qed.
Lemma s32_range x : iss32 (s32 x).
Proof. wint. Qed.
Lemma s64_range x : iss64 (s64 x).
Proof. wint. Qed.

Lemma u32_id x : isu32 x -> u32 x = x.
Proof. apply Z.mod_small. Qed.
Lemma u64_id x : isu64 x -> u64 x = x.
Proof. apply Z.mod_small. Qed.
Lemma s32_id x : iss32 x -> s32 x = x.
Proof. intros; wint. Qed.
Lemma s64_id x : iss64 x -> s64 x = x.
Proof. intros; wint. Qed.

(** Remove the innermost [u64]s whose argument [lia] shows to be in range. *)
Ltac strip_u64 :=
  repeat match goal with
  | |- context [u64 ?x] =>
      lazymatch x with
      | context [u64 _] => fail
      | _ => rewrite (u64_id x) by (unfold isu64 in *; lia)
      end
  end.

Lemma u64_u64 x : u64 (u64 x) = u64 x.
Proof. apply Z.mod_mod; lia. Qed.
Lemma u64_add_l x y : u64 (u64 x + y) = u64 (x + y).
Proof. apply Z.add_mod_idemp_l. lia. Qed.
Lemma u64_add_r x y : u64 (x + u64 y) = u64 (x + y).
Proof. apply Z.add_mod_idemp_r. lia. Qed.
Lemma s64_u64 x : s64 (u64 x) = s64 x.
Proof. wint. Qed.
Lemma u64_s64 x : u64 (s64 x) = u64 x.
Proof. wint. Qed.

(** Words congruent modulo [2^64] have the same conversions. *)
Lemma u64_cong x y k : x = y + k * B64 -> u64 x = u64 y.
Proof. intros ->. unfold u64. apply Z.mod_add. lia. Qed.
Lemma s64_cong x y k : x = y + k * B64 -> s64 x = s64 y.
Proof.
  intros ->. unfold s64.
  replace (y + k * B64 + B63) with (y + B63 + k * B64) by lia.
  now rewrite Z.mod_add by lia.
Qed.

(** ** Bit operations as arithmetic *)

Lemma land_ones_mod x n : 0 <= n -> Z.land x (Z.ones n) = x mod 2 ^ n.
Proof. apply Z.land_ones. Qed.

Lemma lor_disjoint_add a b n :
  0 <= n -> 0 <= a < 2 ^ n -> Z.lor a (b * 2 ^ n) = a + b * 2 ^ n.
Proof.
  intros Hn Ha. symmetry. apply Z.add_nocarry_lor.
  apply Z.bits_inj'. intros k Hk.
  rewrite Z.land_spec, Z.bits_0.
  destruct (Z.ltb_spec k n).
  - rewrite (Z.mul_pow2_bits_low b) by lia. apply andb_false_r.
  - rewrite <- (Z.mod_small a (2 ^ n)) by lia.
    rewrite Z.mod_pow2_bits_high by lia. reflexivity.
Qed.

Lemma lor_shiftl_add a b n :
  0 <= n -> 0 <= a < 2 ^ n -> Z.lor a (Z.shiftl b n) = a + b * 2 ^ n.
Proof.
  intros. rewrite Z.shiftl_mul_pow2 by lia. now apply lor_disjoint_add.
Qed.

Lemma pow2_pos n : 0 <= n -> 0 < 2 ^ n.
Proof. intros. apply Z.pow_pos_nonneg; lia. Qed.
#[export] Hint Resolve pow2_pos : core.

Lemma lnot_u64 x : isu64 x -> u64 (Z.lnot x) = B64 - 1 - x.
Proof. unfold Z.lnot. wint. Qed.
Lemma lnot_u32 x : isu32 x -> u32 (Z.lnot x) = B32 - 1 - x.
Proof. unfold Z.lnot. wint. Qed.

Lemma lxor_ones_u64 x : isu64 x -> Z.lxor x (B64 - 1) = B64 - 1 - x.
Proof.
  intros Hx. change (B64 - 1) with (Z.ones 64).
  rewrite <- lnot_u64 by done. unfold u64.
  change B64 with (2 ^ 64).
  rewrite <- Z.land_ones by lia.
  apply Z.bits_inj'. intros k Hk.
  rewrite Z.land_spec, Z.lxor_spec, Z.lnot_spec by lia.
  destruct (Z.ltb_spec k 64).
  - rewrite Z.ones_spec_low by lia. now rewrite xorb_true_r, andb_true_r.
  - rewrite Z.ones_spec_high by lia. rewrite andb_false_r, xorb_false_r.
    rewrite <- (Z.mod_small x (2 ^ 64)) by (unfold isu64 in Hx; lia).
    apply Z.mod_pow2_bits_high. lia.
Qed.

(** Bitwise operations stay in the width. *)
Lemma isu64_shiftr x : 0 <= x -> Z.shiftr x 64 = 0 <-> isu64 x.
Proof. intros Hx. rewrite Z.shiftr_div_pow2 by lia. rewrite Z.div_small_iff by lia. change (2 ^ 64) with B64. unfold isu64. lia. Qed.
Lemma lor_range x y : isu64 x -> isu64 y -> isu64 (Z.lor x y).
Proof.
  intros Hx Hy. assert (0 <= Z.lor x y) by (apply Z.lor_nonneg; split; [apply Hx|apply Hy]). apply isu64_shiftr; [done|].
  rewrite Z.shiftr_lor, (proj2 (isu64_shiftr x (proj1 Hx)) Hx), (proj2 (isu64_shiftr y (proj1 Hy)) Hy). done.
Qed.
Lemma land_range x y : isu64 x -> isu64 (Z.land x y).
Proof.
  intros Hx. assert (0 <= Z.land x y) by (apply Z.land_nonneg; left; apply Hx). apply isu64_shiftr; [done|].
  now rewrite Z.shiftr_land, (proj2 (isu64_shiftr x (proj1 Hx)) Hx).
Qed.

(** ** Memory

    A memory maps addresses to words; a cell never written reads as [0].  The
    unit of an address is the component's own (bytes for the runtime heap,
    digits for big numbers). *)

Abbreviation mem := (gmap Z Z).

Definition ld (m : mem) (a : Z) : Z := default 0 (m !! a).
Definition st (m : mem) (a v : Z) : mem := <[a := v]> m.

Lemma ld_st m a v b : ld (st m a v) b = if a =? b then v else ld m b.
Proof.
  unfold ld, st. destruct (Z.eqb_spec a b) as [->|Hne].
  - now rewrite lookup_insert_eq.
  - now rewrite lookup_insert_ne.
Qed.
Lemma ld_st_eq m a v : ld (st m a v) a = v.
Proof. rewrite ld_st, Z.eqb_refl. done. Qed.
Lemma ld_st_ne m a v b : a <> b -> ld (st m a v) b = ld m b.
Proof. intros. rewrite ld_st. destruct (Z.eqb_spec a b); [lia|done]. Qed.
Lemma st_st_eq m a v w : st (st m a v) a w = st m a w.
Proof. apply insert_insert_eq. Qed.

Create HintDb mem.
Create Rewrite HintDb mem.
#[export] Hint Rewrite ld_st_eq : mem.
#[export] Hint Rewrite ld_st_ne using lia : mem.

(** Solve a goal about loads and stores at addresses [lia] can compare. *)
Ltac msimp := autorewrite with mem; try done.

(** [m'] differs from [m] only in the [n] cells from [p] on. *)
Definition frame (m m' : mem) (p n : Z) : Prop :=
  forall a, a < p \/ p + n <= a -> ld m' a = ld m a.

Lemma frame_refl m p n : frame m m p n.
Proof. done. Qed.
Lemma frame_trans m1 m2 m3 p n :
  frame m1 m2 p n -> frame m2 m3 p n -> frame m1 m3 p n.
Proof. intros H1 H2 a Ha. rewrite H2, H1; done. Qed.
Lemma frame_weaken m m' p n p' n' :
  frame m m' p n -> p' <= p -> p + n <= p' + n' -> frame m m' p' n'.
Proof. intros H Hp Hn a Ha. apply H. lia. Qed.
Lemma frame_st m a v p n : p <= a < p + n -> frame m (st m a v) p n.
Proof. intros Ha b Hb. apply ld_st_ne. lia. Qed.
#[export] Hint Resolve frame_refl : mem.

(** Every cell holds a 64-bit word. *)
Definition wfm (m : mem) : Prop := forall a, isu64 (ld m a).

Lemma wfm_ld m a : wfm m -> isu64 (ld m a).
Proof. auto. Qed.
Lemma wfm_st m a v : wfm m -> isu64 v -> wfm (st m a v).
Proof. intros Hm Hv b. rewrite ld_st. destruct (a =? b); auto. Qed.
Lemma wfm_empty : wfm ∅.
Proof. intros a. unfold ld. rewrite lookup_empty. simpl. wint. Qed.
#[export] Hint Resolve wfm_ld wfm_st wfm_empty u64_range : mem.

(** ** Lists around an element *)

Lemma elem_of_mid {A} (x : A) l1 l2 : x ∈ l1 ++ x :: l2.
Proof. apply elem_of_app. right. apply list_elem_of_here. Qed.
Lemma elem_of_skip_mid {A} (x y : A) l1 l2 : y ∈ l1 ++ l2 -> y ∈ l1 ++ x :: l2.
Proof. intros [H|H]%elem_of_app; apply elem_of_app; [now left|right; now apply list_elem_of_further]. Qed.
Lemma elem_of_drop_mid {A} (x y : A) l1 l2 : y ∈ l1 ++ x :: l2 -> y <> x -> y ∈ l1 ++ l2.
Proof.
  intros [H|H]%elem_of_app Hne; apply elem_of_app; [now left|right].
  now apply elem_of_cons in H as [?|?].
Qed.
