(* ===== verification/Mlvalues.v ===== *)
(** * Values and block headers

    Models [byterun/mlvalues.h], [byterun/gc.h] and the size constants of
    [byterun/config.h] on a 64-bit little-endian platform.  A [value] is a 64-bit
    word, kept unsigned; an immediate integer is the word [2n+1], a pointer an
    even word, the byte address of the first field of a block.  Addresses of the
    runtime heap are in bytes and a word lives at its (aligned) byte address. *)

From S2P Require Import Prelude.

Definition sizeof_value : Z := 8.

(** ** Immediate integers *)

Definition Is_long (x : Z) : bool := negb (Z.land x 1 =? 0).
Definition Is_block (x : Z) : bool := Z.land x 1 =? 0.

Definition Val_long (x : Z) : Z := u64 (Z.shiftl x 1 + 1).
Definition Long_val (x : Z) : Z := Z.shiftr (s64 x) 1.
Definition Max_long : Z := Z.shiftl 1 62 - 1.
Definition Min_long : Z := - Z.shiftl 1 62.
Definition Val_int (x : Z) : Z := Val_long x.
Definition Int_val (x : Z) : Z := s32 (Long_val x).

Definition Val_bool (x : Z) : Z := Val_int (if x =? 0 then 0 else 1).
Definition Val_false : Z := Val_int 0.
Definition Val_true : Z := Val_int 1.
Definition Val_not (x : Z) : Z := u64 (Val_false + Val_true - x).
Definition Val_unit : Z := Val_int 0.

(** ** Headers: 54 bits of size, 2 of colour, 8 of tag *)

Definition Caml_white : Z := Z.shiftl 0 8.
Definition Caml_gray : Z := Z.shiftl 1 8.
Definition Caml_blue : Z := Z.shiftl 2 8.
Definition Caml_black : Z := Z.shiftl 3 8.

Definition Tag_hd (hd : Z) : Z := Z.land hd 255.
Definition Wosize_hd (hd : Z) : Z := Z.shiftr hd 10.
Definition Color_hd (hd : Z) : Z := Z.land hd Caml_black.

Definition Is_white_hd (hd : Z) : bool := Color_hd hd =? Caml_white.
Definition Is_gray_hd (hd : Z) : bool := Color_hd hd =? Caml_gray.
Definition Is_blue_hd (hd : Z) : bool := Color_hd hd =? Caml_blue.
Definition Is_black_hd (hd : Z) : bool := Color_hd hd =? Caml_black.

Definition Whitehd_hd (hd : Z) : Z := Z.land hd (u64 (Z.lnot Caml_black)).
Definition Grayhd_hd (hd : Z) : Z := Z.lor (Z.land hd (u64 (Z.lnot Caml_black))) Caml_gray.
Definition Blackhd_hd (hd : Z) : Z := Z.lor hd Caml_black.
Definition Bluehd_hd (hd : Z) : Z := Z.lor (Z.land hd (u64 (Z.lnot Caml_black))) Caml_blue.

Definition Make_header (wosize tag color : Z) : Z :=
  u64 (Z.shiftl wosize 10 + color + u32 tag).

Definition Max_wosize : Z := Z.shiftl 1 54 - 1.

(** ** Sizes *)

Definition Whsize_wosize (sz : Z) : Z := sz + 1.
Definition Wosize_whsize (sz : Z) : Z := sz - 1.
Definition Wosize_bhsize (sz : Z) : Z := sz / sizeof_value - 1.
Definition Bsize_wsize (sz : Z) : Z := sz * sizeof_value.
Definition Wsize_bsize (sz : Z) : Z := sz / sizeof_value.
Definition Bhsize_wosize (sz : Z) : Z := Bsize_wsize (Whsize_wosize sz).
Definition Bhsize_bosize (sz : Z) : Z := sz + sizeof_value.
Definition Bosize_hd (hd : Z) : Z := Bsize_wsize (Wosize_hd hd).
Definition Whsize_hd (hd : Z) : Z := Whsize_wosize (Wosize_hd hd).
Definition Bhsize_hd (hd : Z) : Z := Bsize_wsize (Whsize_hd hd).

(** ** Blocks in memory *)

Definition Hp_val (v : Z) : Z := v - sizeof_value.
Definition Val_hp (hp : Z) : Z := hp + sizeof_value.
Definition Hd_val (m : mem) (v : Z) : Z := ld m (Hp_val v).
Definition Hd_hp (m : mem) (hp : Z) : Z := ld m hp.
Definition Field_addr (v i : Z) : Z := v + i * sizeof_value.
Definition Field (m : mem) (v i : Z) : Z := ld m (Field_addr v i).
Definition set_Field (m : mem) (v i x : Z) : mem := st m (Field_addr v i) x.

Definition Wosize_val (m : mem) (v : Z) : Z := Wosize_hd (Hd_val m v).
Definition Tag_val (m : mem) (v : Z) : Z := Tag_hd (Hd_val m v).
Definition Whsize_val (m : mem) (v : Z) : Z := Whsize_wosize (Wosize_val m v).
Definition Bosize_val (m : mem) (v : Z) : Z := Bsize_wsize (Wosize_val m v).
Definition Wosize_hp (m : mem) (hp : Z) : Z := Wosize_hd (Hd_hp m hp).
Definition Whsize_hp (m : mem) (hp : Z) : Z := Whsize_wosize (Wosize_hp m hp).
Definition Bhsize_hp (m : mem) (hp : Z) : Z := Bsize_wsize (Whsize_hp m hp).

(** Bytes of a block, little-endian: byte [i] of the word that holds it. *)
Definition byte_addr (a : Z) : Z := a - a mod sizeof_value.
Definition byte_shift (a : Z) : Z := 8 * (a mod sizeof_value).
Definition ldb (m : mem) (a : Z) : Z := Z.land (Z.shiftr (ld m (byte_addr a)) (byte_shift a)) 255.
Definition stb (m : mem) (a b : Z) : mem :=
  let w := ld m (byte_addr a) in
  st m (byte_addr a)
    (Z.lor (Z.ldiff w (Z.shiftl 255 (byte_shift a))) (Z.shiftl (u8 b) (byte_shift a))).
Definition Byte_u (m : mem) (v i : Z) : Z := ldb m (v + i).
Definition set_Byte (m : mem) (v i b : Z) : mem := stb m (v + i) b.

Definition Lazy_tag : Z := 246.
Definition Closure_tag : Z := 247.
Definition Object_tag : Z := 248.
Definition Infix_tag : Z := 249.
Definition Forward_tag : Z := 250.
Definition No_scan_tag : Z := 251.
Definition Abstract_tag : Z := 251.
Definition String_tag : Z := 252.
Definition Double_tag : Z := 253.
Definition Double_wosize : Z := 1.
Definition Double_array_tag : Z := 254.
Definition Custom_tag : Z := 255.

Definition Code_val (m : mem) (v : Z) : Z := Field m v 0.
Definition Forward_val (m : mem) (v : Z) : Z := Field m v 0.
Definition Infix_offset_hd (hd : Z) : Z := Bosize_hd hd.
Definition Infix_offset_val (m : mem) (v : Z) : Z := Infix_offset_hd (Hd_val m v).

Definition Page_log : Z := 12.
Definition Page_size : Z := Z.shiftl 1 Page_log.
Definition Max_young_wosize : Z := 256.
Definition Stack_size : Z := 4096 * sizeof_value.
Definition Stack_threshold : Z := 256 * sizeof_value.
Definition Heap_chunk_min : Z := 2 * Page_size / sizeof_value.

(** ** Immediate integers are OCaml's 63-bit integers *)

(** The 63-bit wrap-around of OCaml's [int]. *)
Definition wrap63 (x : Z) : Z := wrapS 63 x.
Definition is63 (x : Z) : Prop := Min_long <= x <= Max_long.

Lemma wrap63_eq x : wrap63 x = (x + 4611686018427387904) mod B63 - 4611686018427387904.
Proof. reflexivity. Qed.
Lemma is63_eq x : is63 x <-> - 4611686018427387904 <= x <= 4611686018427387903.
Proof. reflexivity. Qed.

Lemma land_1_mod x : Z.land x 1 = x mod 2.
Proof. apply (Z.land_ones x 1). lia. Qed.

Lemma Val_long_eq x : Val_long x = (2 * x + 1) mod B64.
Proof. unfold Val_long, u64. rewrite Z.shiftl_mul_pow2 by lia. f_equal. lia. Qed.
Lemma Long_val_eq x : Long_val x = s64 x / 2.
Proof. unfold Long_val. rewrite Z.shiftr_div_pow2 by lia. done. Qed.

Lemma Val_long_range x : isu64 (Val_long x).
Proof. apply u64_range. Qed.
Lemma Is_long_Val_long x : Is_long (Val_long x) = true.
Proof.
  unfold Is_long. rewrite land_1_mod, Val_long_eq.
  destruct (Z.eqb_spec ((2 * x + 1) mod B64 mod 2) 0); [zlia|done].
Qed.
Lemma Long_val_Val_long x : Long_val (Val_long x) = wrap63 x.
Proof. rewrite Long_val_eq, Val_long_eq, wrap63_eq. wint. Qed.
Lemma wrap63_id x : is63 x -> wrap63 x = x.
Proof. rewrite is63_eq, wrap63_eq. intros. zlia. Qed.
Lemma wrap63_is63 x : is63 (wrap63 x).
Proof. rewrite is63_eq, wrap63_eq. zlia. Qed.
Lemma Long_val_is63 x : is63 (Long_val x).
Proof. rewrite is63_eq, Long_val_eq. wint. Qed.

(** An odd word is the tagged form of its integer. *)
Lemma Val_long_Long_val x : isu64 x -> Is_long x = true -> Val_long (Long_val x) = x.
Proof.
  intros Hx Hl. unfold Is_long in Hl. rewrite land_1_mod in Hl.
  rewrite Val_long_eq, Long_val_eq.
  destruct (Z.eqb_spec (x mod 2) 0); [done|]. wint.
Qed.
Lemma Val_long_inj x y : Val_long x = Val_long y -> wrap63 x = wrap63 y.
Proof. rewrite !Val_long_eq, !wrap63_eq. intros. zlia. Qed.
Lemma Val_long_wrap63 x : Val_long (wrap63 x) = Val_long x.
Proof. rewrite !Val_long_eq, wrap63_eq. zlia. Qed.

(** ** Headers round-trip *)

Definition is_color (c : Z) : Prop :=
  c = Caml_white \/ c = Caml_gray \/ c = Caml_blue \/ c = Caml_black.

Lemma is_color_eq c : is_color c -> c = 0 \/ c = 256 \/ c = 512 \/ c = 768.
Proof. auto. Qed.

Lemma Make_header_eq wosize tag color :
  0 <= wosize <= Max_wosize -> 0 <= tag < 256 -> is_color color ->
  Make_header wosize tag color = wosize * 1024 + color + tag.
Proof.
  intros Hw Ht Hc. unfold Make_header, Max_wosize in *. change (Z.shiftl 1 54 - 1) with 18014398509481983 in Hw.
  rewrite Z.shiftl_mul_pow2, u32_id by (unfold isu32; lia). change (2 ^ 10) with 1024.
  apply is_color_eq in Hc. apply u64_id. unfold isu64. lia.
Qed.

Lemma Wosize_Make_header wosize tag color :
  0 <= wosize <= Max_wosize -> 0 <= tag < 256 -> is_color color ->
  Wosize_hd (Make_header wosize tag color) = wosize.
Proof.
  intros Hw Ht Hc. rewrite Make_header_eq by done. unfold Wosize_hd.
  rewrite Z.shiftr_div_pow2 by lia. change (2 ^ 10) with 1024.
  apply is_color_eq in Hc. zlia.
Qed.

Lemma Tag_Make_header wosize tag color :
  0 <= wosize <= Max_wosize -> 0 <= tag < 256 -> is_color color ->
  Tag_hd (Make_header wosize tag color) = tag.
Proof.
  intros Hw Ht Hc. rewrite Make_header_eq by done. unfold Tag_hd.
  change 255 with (Z.ones 8). rewrite Z.land_ones by lia. change (2 ^ 8) with 256.
  apply is_color_eq in Hc. zlia.
Qed.

(** The colour bits, as arithmetic. *)
Lemma Color_hd_eq hd : Color_hd hd = (hd / 256) mod 4 * 256.
Proof.
  unfold Color_hd. change Caml_black with (Z.shiftl (Z.ones 2) 8).
  change 256 with (2 ^ 8). change 4 with (2 ^ 2).
  rewrite <- Z.shiftr_div_pow2, <- Z.land_ones, <- Z.shiftl_mul_pow2 by lia.
  apply Z.bits_inj'. intros i Hi. rewrite Z.land_spec.
  destruct (Z.ltb_spec i 8).
  - rewrite !Z.shiftl_spec_low by lia. apply andb_false_r.
  - rewrite !Z.shiftl_spec, Z.land_spec, Z.shiftr_spec by lia. do 2 f_equal. lia.
Qed.

Lemma Color_Make_header wosize tag color :
  0 <= wosize <= Max_wosize -> 0 <= tag < 256 -> is_color color ->
  Color_hd (Make_header wosize tag color) = color.
Proof.
  intros Hw Ht Hc. rewrite Make_header_eq, Color_hd_eq by done.
  apply is_color_eq in Hc. zlia.
Qed.

Lemma Is_blue_Make_header wosize tag :
  0 <= wosize <= Max_wosize -> 0 <= tag < 256 -> Is_blue_hd (Make_header wosize tag Caml_blue) = true.
Proof.
  intros. unfold Is_blue_hd. rewrite Color_Make_header by (try done; unfold is_color; auto).
  apply Z.eqb_refl.
Qed.

(** Changing the colour keeps the size. *)
Lemma Wosize_Bluehd hd : isu64 hd -> Wosize_hd (Bluehd_hd hd) = Wosize_hd hd.
Proof.
  intros Hd. unfold Wosize_hd, Bluehd_hd. rewrite Z.shiftr_lor, Z.shiftr_land.
  change (Z.shiftr Caml_blue 10) with 0.
  change (Z.shiftr (u64 (Z.lnot Caml_black)) 10) with (Z.ones 54).
  rewrite Z.lor_0_r, Z.land_ones by lia. apply Z.mod_small.
  rewrite Z.shiftr_div_pow2 by lia. unfold isu64 in Hd.
  change (2 ^ 10) with 1024. change (2 ^ 54) with 18014398509481984. zlia.
Qed.
Lemma Is_blue_Bluehd hd : Is_blue_hd (Bluehd_hd hd) = true.
Proof.
  unfold Is_blue_hd, Color_hd, Bluehd_hd. apply Z.eqb_eq.
  rewrite Z.land_lor_distr_l, <- Z.land_assoc.
  change (Z.land (u64 (Z.lnot Caml_black)) Caml_black) with 0. now rewrite Z.land_0_r.
Qed.

(** ** Reading blocks *)

Lemma Field_ld m v i : Field m v i = ld m (v + 8 * i).
Proof. unfold Field, Field_addr, sizeof_value. f_equal. lia. Qed.
Lemma Field_addr_eq v i : Field_addr v i = v + 8 * i.
Proof. unfold Field_addr, sizeof_value. lia. Qed.
Lemma Hd_val_ld m v : Hd_val m v = ld m (v - 8).
Proof. done. Qed.

Lemma Tag_hd_range hd : 0 <= Tag_hd hd < 256.
Proof. unfold Tag_hd. change 255 with (Z.ones 8). rewrite Z.land_ones by lia. change (2 ^ 8) with 256. zlia. Qed.
