(* ===== verification/Bytes.v ===== *)
(** * Bytes of memory

    Reading and writing single bytes of the words of memory, little-endian, and
    segments of bytes: what the string primitives of the runtime share. *)

From S2P Require Import Prelude Mlvalues.

(** ** Single bytes *)

Lemma ldb_range m a : 0 <= ldb m a < 256.
Proof. unfold ldb. change 255 with (Z.ones 8). rewrite Z.land_ones by lia. change (2 ^ 8) with 256. zlia. Qed.

Lemma byte_shift_range a : 0 <= byte_shift a /\ byte_shift a <= 56 /\ byte_shift a mod 8 = 0.
Proof. unfold byte_shift, sizeof_value. zlia. Qed.

Lemma byte_addr_shift a b : byte_addr a = byte_addr b -> byte_shift a = byte_shift b -> a = b.
Proof. unfold byte_addr, byte_shift, sizeof_value. lia. Qed.

Lemma testbit_255 k : 0 <= k -> Z.testbit 255 k = (k <? 8).
Proof.
  intros Hk. change 255 with (Z.ones 8). destruct (Z.ltb_spec k 8); [now apply Z.ones_spec_low|now apply Z.ones_spec_high].
Qed.
Lemma testbit_u8 x k : 0 <= k -> Z.testbit (u8 x) k = (k <? 8) && Z.testbit x k.
Proof.
  intros Hk. unfold u8. change B8 with (2 ^ 8). destruct (Z.ltb_spec k 8).
  - now rewrite Z.mod_pow2_bits_low.
  - now rewrite Z.mod_pow2_bits_high by lia.
Qed.

Lemma ldb_stb_eq m a b : ldb (stb m a b) a = u8 b.
Proof.
  unfold ldb, stb. rewrite ld_st_eq. destruct (byte_shift_range a) as (H1 & H2 & _). set (s := byte_shift a) in *.
  apply Z.bits_inj'. intros k Hk. rewrite Z.land_spec, Z.shiftr_spec, Z.lor_spec, Z.ldiff_spec by lia.
  rewrite !Z.shiftl_spec by lia. replace (k + s - s) with k by lia. rewrite testbit_u8, testbit_255 by lia.
  destruct (k <? 8); cbn [negb andb orb]; [|now rewrite andb_false_r]. rewrite andb_false_r, andb_true_r. done.
Qed.

Lemma ldb_stb_ne m a b c : a <> c -> ldb (stb m a b) c = ldb m c.
Proof.
  intros Hne. unfold ldb, stb. destruct (decide (byte_addr a = byte_addr c)) as [E|E]; [|now rewrite ld_st_ne].
  rewrite <- E, ld_st_eq. destruct (byte_shift_range a) as (H1 & H2 & H3), (byte_shift_range c) as (H4 & H5 & H6).
  assert (Hs : byte_shift a <> byte_shift c) by (intros Es; now apply Hne, byte_addr_shift).
  set (s := byte_shift a) in *. set (t := byte_shift c) in *.
  apply Z.bits_inj'. intros k Hk. rewrite !Z.land_spec, !Z.shiftr_spec, Z.lor_spec, Z.ldiff_spec, testbit_255 by lia.
  destruct (Z.ltb_spec k 8) as [Hk8|]; [|now rewrite !andb_false_r]. rewrite !andb_true_r.
  assert (Hd : k + t < s \/ s + 8 <= k + t) by (destruct (Z.lt_ge_cases t s); [left|right]; zlia).
  destruct Hd as [Hd|Hd].
  - rewrite !Z.shiftl_spec_low by lia. cbn [negb]. now rewrite andb_true_r, orb_false_r.
  - rewrite !Z.shiftl_spec by lia. rewrite testbit_u8, testbit_255 by lia.
    rewrite (proj2 (Z.ltb_ge _ _)) by lia. cbn [negb andb]. now rewrite andb_true_r, orb_false_r.
Qed.

Lemma ld_stb_ne m a b w : byte_addr a <> w -> ld (stb m a b) w = ld m w.
Proof. intros Hne. unfold stb. now apply ld_st_ne. Qed.

Lemma wfm_stb m a b : wfm m -> wfm (stb m a b).
Proof.
  intros Hm. apply wfm_st; [done|]. destruct (byte_shift_range a) as (H1 & H2 & _).
  apply lor_range.
  - assert (Hn : 0 <= Z.ldiff (ld m (byte_addr a)) (Z.shiftl 255 (byte_shift a))) by (apply Z.ldiff_nonneg; left; apply Hm).
    apply isu64_shiftr; [done|]. rewrite Z.shiftr_ldiff, (proj2 (isu64_shiftr _ (proj1 (Hm _))) (Hm _)). done.
  - rewrite Z.shiftl_mul_pow2 by done. pose proof (u8_range b) as Hu. change B8 with 256 in Hu.
    assert (Hp : 1 <= 2 ^ byte_shift a <= 2 ^ 56) by (split; [change 1 with (2 ^ 0); apply Z.pow_le_mono_r; lia|apply Z.pow_le_mono_r; lia]).
    change (2 ^ 56) with 72057594037927936 in Hp. unfold isu64. change B64 with 18446744073709551616. nia.
Qed.

(** ** Segments *)

(** The [n] bytes from [a] on. *)
Fixpoint bytes (m : mem) (a : Z) (n : nat) : list Z :=
  match n with O => [] | S n => ldb m a :: bytes m (a + 1) n end.

(** [memmove] from a list of bytes. *)
Fixpoint put_bytes (a : Z) (l : list Z) (m : mem) : mem :=
  match l with [] => m | b :: l => put_bytes (a + 1) l (stb m a b) end.

Lemma length_bytes m n : forall a, length (bytes m a n) = n.
Proof. induction n as [|n IH]; intros a; cbn [bytes length]; [done|]. now rewrite IH. Qed.

Lemma bytes_lookup m n : forall a i, (i < n)%nat -> bytes m a n !! i = Some (ldb m (a + Z.of_nat i)).
Proof.
  induction n as [|n IH]; intros a i Hi; [lia|]. destruct i as [|i]; cbn [bytes lookup list_lookup].
  - do 2 f_equal. lia.
  - change (bytes m (a + 1) n !! i = Some (ldb m (a + Z.of_nat (S i)))). rewrite IH by lia. do 2 f_equal. lia.
Qed.

Lemma bytes_ext m m' n : forall a, (forall i, a <= i < a + Z.of_nat n -> ldb m' i = ldb m i) -> bytes m' a n = bytes m a n.
Proof.
  induction n as [|n IH]; intros a H; cbn [bytes]; [done|]. rewrite H by lia. f_equal. apply IH. intros i Hi. apply H. lia.
Qed.

Lemma bytes_app m n1 n2 : forall a, bytes m a (n1 + n2) = bytes m a n1 ++ bytes m (a + Z.of_nat n1) n2.
Proof.
  induction n1 as [|n1 IH]; intros a; cbn [Nat.add bytes app]; [f_equal; lia|]. rewrite IH. do 3 f_equal. lia.
Qed.

Lemma take_bytes m n : forall a k, take k (bytes m a n) = bytes m a (k `min` n).
Proof. induction n as [|n IH]; intros a [|k]; cbn [bytes take Nat.min]; try done. now rewrite IH. Qed.

Lemma put_bytes_out l : forall a m i, ~ a <= i < a + Z.of_nat (length l) -> ldb (put_bytes a l m) i = ldb m i.
Proof.
  induction l as [|b l IH]; intros a m i Hi; cbn [put_bytes length] in *; [done|].
  rewrite IH by lia. apply ldb_stb_ne. lia.
Qed.

Lemma bytes_put_bytes l : forall a m, bytes (put_bytes a l m) a (length l) = map u8 l.
Proof.
  induction l as [|b l IH]; intros a m; cbn [put_bytes length bytes map]; [done|].
  rewrite IH, put_bytes_out, ldb_stb_eq by lia. done.
Qed.

Lemma wfm_put_bytes l : forall a m, wfm m -> wfm (put_bytes a l m).
Proof. induction l as [|b l IH]; intros a m Hm; cbn [put_bytes]; [done|]. now apply IH, wfm_stb. Qed.

(** The words that hold none of the bytes do not change. *)
Lemma put_bytes_word l : forall a m w, (forall i, a <= i < a + Z.of_nat (length l) -> byte_addr i <> w) -> ld (put_bytes a l m) w = ld m w.
Proof.
  induction l as [|b l IH]; intros a m w Hw; cbn [put_bytes length] in *; [done|].
  rewrite IH by (intros i Hi; apply Hw; lia). apply ld_stb_ne. apply Hw. lia.
Qed.

(** Bytes of words written whole. *)
Lemma ldb_st_ne m w x a : byte_addr a <> w -> ldb (st m w x) a = ldb m a.
Proof. intros Hne. unfold ldb. now rewrite ld_st_ne. Qed.

(** Words are equal when their bytes are. *)
Lemma ldb_word m w j : w mod 8 = 0 -> 0 <= j < 8 -> ldb m (w + j) = Z.land (Z.shiftr (ld m w) (8 * j)) 255.
Proof.
  intros Hw Hj. unfold ldb, byte_addr, byte_shift, sizeof_value.
  replace ((w + j) mod 8) with j by zlia. now replace (w + j - j) with w by lia.
Qed.

Lemma isu64_testbit_high x k : isu64 x -> 64 <= k -> Z.testbit x k = false.
Proof.
  intros [H1 H2] Hk. destruct (Z.eq_dec x 0) as [->|Hx]; [apply Z.bits_0|]. apply Z.bits_above_log2; [done|].
  apply Z.log2_lt_pow2; [lia|]. change B64 with (2 ^ 64) in H2. apply (Z.lt_le_trans _ (2 ^ 64)); [done|]. apply Z.pow_le_mono_r; lia.
Qed.

Lemma word_ext m m' w w' :
  isu64 (ld m w) -> isu64 (ld m' w') -> w mod 8 = 0 -> w' mod 8 = 0 ->
  (forall j, 0 <= j < 8 -> ldb m (w + j) = ldb m' (w' + j)) -> ld m w = ld m' w'.
Proof.
  intros Hu Hu' Hw Hw' H. apply Z.bits_inj'. intros k Hk. destruct (Z.lt_ge_cases k 64) as [Hlt|Hge].
  - specialize (H (k / 8) ltac:(zlia)). rewrite !ldb_word in H by (done || zlia).
    assert (E : forall x, Z.testbit x k = Z.testbit (Z.land (Z.shiftr x (8 * (k / 8))) 255) (k mod 8)).
    { intros x. rewrite Z.land_spec, Z.shiftr_spec, testbit_255 by zlia. rewrite (proj2 (Z.ltb_lt (k mod 8) 8)) by zlia.
      rewrite andb_true_r. f_equal. zlia. }
    now rewrite !E, H.
  - now rewrite !isu64_testbit_high.
Qed.
