(* ===== verification/KerN.v ===== *)
(** * The big number kernel: digits and arrays of digits

    Models [otherlibs/num/bignum/c/KerN.c], the portable C kernel of the BigNum
    package behind the [Num] library, up to multiplication by one digit.  A
    digit is an [unsigned long] of 64 bits, a big number [(nn, nl)] the [nl]
    digits from address [nn] on, least significant first; addresses count
    digits.  Every routine takes the memory and returns the memory it leaves,
    paired with its result where it has one. *)

From S2P Require Import Prelude.

Definition BN_DIGIT_SIZE : Z := 64.
Definition BN_WORD_SIZE : Z := 62.
Definition BN_LT : Z := -1.
Definition BN_EQ : Z := 0.
Definition BN_GT : Z := 1.

(** ** Access to digits *)

(** [do *nn = 0; while (nn++ < nnlim);] *)
Fixpoint BnnSetToZero_loop (fuel : nat) (m : mem) (nn nnlim : Z) : mem :=
  match fuel with
  | O => m
  | S fuel =>
      let m := st m nn 0 in
      if nn <? nnlim then BnnSetToZero_loop fuel m (nn + 1) nnlim else m
  end.

Definition BnnSetToZero (m : mem) (nn nl : Z) : mem :=
  if nl <=? 0 then m
  else BnnSetToZero_loop (Z.to_nat nl) m nn (nn + nl - 1).

(** [do *mm++ = *nn++; while(nn < nnlim);] *)
Fixpoint BnnAssign_up (fuel : nat) (m : mem) (mm nn nnlim : Z) : mem :=
  match fuel with
  | O => m
  | S fuel =>
      let m := st m mm (ld m nn) in
      if nn + 1 <? nnlim then BnnAssign_up fuel m (mm + 1) (nn + 1) nnlim else m
  end.

(** [do *--mm = *--nnlim; while(nn < nnlim);] *)
Fixpoint BnnAssign_down (fuel : nat) (m : mem) (mm nn nnlim : Z) : mem :=
  match fuel with
  | O => m
  | S fuel =>
      let m := st m (mm - 1) (ld m (nnlim - 1)) in
      if nn <? nnlim - 1 then BnnAssign_down fuel m (mm - 1) nn (nnlim - 1) else m
  end.

Definition BnnAssign (m : mem) (mm nn nl : Z) : mem :=
  if nl <=? 0 then m
  else
    let nnlim := nn + nl in
    if (mm <? nn) || (nnlim <? mm) then BnnAssign_up (Z.to_nat nl) m mm nn nnlim
    else if nn <? mm then BnnAssign_down (Z.to_nat nl) m (mm + nl) nn nnlim
    else m.

Definition BnnSetDigit (m : mem) (nn d : Z) : mem := st m nn d.
Definition BnnGetDigit (m : mem) (nn : Z) : Z := ld m nn.

(** [while (nl != 0 && *--nn == 0) nl--;], with [nn] past the last digit. *)
Fixpoint BnnNumDigits_loop (m : mem) (nn : Z) (nl : nat) : nat :=
  match nl with
  | O => O
  | S nl' => if ld m (nn - 1) =? 0 then BnnNumDigits_loop m (nn - 1) nl' else nl
  end.

Definition BnnNumDigits (m : mem) (nn nl : Z) : Z :=
  let nl := Z.of_nat (BnnNumDigits_loop m (nn + nl) (Z.to_nat nl)) in
  if nl =? 0 then 1 else nl.

(** The 64-bit branch: the digit size is a compile-time constant. *)
Fixpoint BnnNumLeadingZeroBits_loop (fuel : nat) (d mask maskl p : Z) : Z :=
  match fuel with
  | O => p
  | S fuel =>
      if maskl =? 0 then p
      else
        let '(p, d) :=
          if Z.land d mask =? 0 then (p + maskl, u64 (Z.shiftl d maskl)) else (p, d) in
        let maskl := Z.shiftr maskl 1 in
        BnnNumLeadingZeroBits_loop fuel d (u64 (Z.shiftl mask maskl)) maskl p
  end.

Definition BnnNumLeadingZeroBitsInDigit (d : Z) : Z :=
  let mask := u64 (Z.shiftl (u64 (Z.lnot 0)) (BN_DIGIT_SIZE / 2)) in
  if d =? 0 then BN_DIGIT_SIZE
  else BnnNumLeadingZeroBits_loop 7 d mask (BN_DIGIT_SIZE / 2) 0.

(** ** Predicates on one digit *)

Definition BnnDoesDigitFitInWord (d : Z) : bool :=
  if BN_WORD_SIZE <? BN_DIGIT_SIZE
  then negb (u64 (Z.shiftl 1 BN_WORD_SIZE) <=? d)
  else true.

Definition BnnIsDigitZero (d : Z) : bool := d =? 0.

Definition BnnIsDigitNormalized (d : Z) : bool :=
  negb (Z.land d (u64 (Z.shiftl 1 (BN_DIGIT_SIZE - 1))) =? 0).

Definition BnnIsDigitOdd (d : Z) : bool := negb (Z.land d 1 =? 0).

Definition BnnCompareDigits (d1 d2 : Z) : Z :=
  if d2 <? d1 then BN_GT else if d1 =? d2 then BN_EQ else BN_LT.

(** ** Logical operations *)

Fixpoint BnnComplement_loop (fuel : nat) (m : mem) (nn nnlim : Z) : mem :=
  match fuel with
  | O => m
  | S fuel =>
      let nn := nn + 1 in
      let m := st m (nn - 1) (u64 (Z.lnot (ld m (nn - 1)))) in
      if nn <? nnlim then BnnComplement_loop fuel m nn nnlim else m
  end.

Definition BnnComplement (m : mem) (nn nl : Z) : mem :=
  if nl <=? 0 then m else BnnComplement_loop (Z.to_nat nl) m nn (nn + nl).

Definition BnnAndDigits (m : mem) (n d : Z) : mem := st m n (Z.land (ld m n) d).
Definition BnnOrDigits (m : mem) (n d : Z) : mem := st m n (Z.lor (ld m n) d).
Definition BnnXorDigits (m : mem) (n d : Z) : mem := st m n (Z.lxor (ld m n) d).

(** ** Shifts *)

Fixpoint BnnShiftLeft_loop (ml : nat) (m : mem) (mm nbits rnbits res : Z) : mem * Z :=
  match ml with
  | O => (m, res)
  | S ml =>
      let save := ld m mm in
      let m := st m mm (Z.lor (u64 (Z.shiftl save nbits)) res) in
      BnnShiftLeft_loop ml m (mm + 1) nbits rnbits (Z.shiftr save rnbits)
  end.

Definition BnnShiftLeft (m : mem) (mm ml nbits : Z) : mem * Z :=
  if nbits =? 0 then (m, 0)
  else BnnShiftLeft_loop (Z.to_nat ml) m mm nbits (BN_DIGIT_SIZE - nbits) 0.

(** [mm] points past the last digit still to shift. *)
Fixpoint BnnShiftRight_loop (ml : nat) (m : mem) (mm nbits lnbits res : Z) : mem * Z :=
  match ml with
  | O => (m, res)
  | S ml =>
      let mm := mm - 1 in
      let save := ld m mm in
      let m := st m mm (Z.lor (Z.shiftr save nbits) res) in
      BnnShiftRight_loop ml m mm nbits lnbits (u64 (Z.shiftl save lnbits))
  end.

Definition BnnShiftRight (m : mem) (mm ml nbits : Z) : mem * Z :=
  if nbits =? 0 then (m, 0)
  else BnnShiftRight_loop (Z.to_nat ml) m (mm + ml) nbits (BN_DIGIT_SIZE - nbits) 0.

(** ** Additions *)

(** [while (nl > 0 && !(++( *nn++))) nl--;]: the digits left when it stops. *)
Fixpoint BnnAddCarry_loop (nl : nat) (m : mem) (nn : Z) : mem * nat :=
  match nl with
  | O => (m, O)
  | S nl' =>
      let v := u64 (ld m nn + 1) in
      let m := st m nn v in
      if v =? 0 then BnnAddCarry_loop nl' m (nn + 1) else (m, nl)
  end.

Definition BnnAddCarry (m : mem) (nn nl carryin : Z) : mem * Z :=
  if carryin =? 0 then (m, 0)
  else if nl =? 0 then (m, 1)
  else
    let '(m, nl) := BnnAddCarry_loop (Z.to_nat nl) m nn in
    (m, match nl with O => 1 | S _ => 0 end).

(** The [while (nl > 0)] loop; the third result is the carry it leaves. *)
Fixpoint BnnAdd_loop (nl : nat) (m : mem) (mm nn c : Z) : mem * Z * Z :=
  match nl with
  | O => (m, mm, c)
  | S nl =>
      let save := ld m mm in
      let c := u64 (c + save) in
      if c <? save then
        BnnAdd_loop nl (st m mm (ld m nn)) (mm + 1) (nn + 1) 1
      else
        let save := ld m nn in
        let c := u64 (c + save) in
        BnnAdd_loop nl (st m mm c) (mm + 1) (nn + 1) (if c <? save then 1 else 0)
  end.

Definition BnnAdd (m : mem) (mm ml nn nl carryin : Z) : mem * Z :=
  let ml := u64 (ml - nl) in
  let '(m, mm, c) := BnnAdd_loop (Z.to_nat nl) m mm nn carryin in
  BnnAddCarry m mm ml c.

(** ** Subtractions *)

Fixpoint BnnSubtractBorrow_loop (nl : nat) (m : mem) (nn : Z) : mem * nat :=
  match nl with
  | O => (m, O)
  | S nl' =>
      let old := ld m nn in
      let m := st m nn (u64 (old - 1)) in
      if old =? 0 then BnnSubtractBorrow_loop nl' m (nn + 1) else (m, nl)
  end.

Definition BnnSubtractBorrow (m : mem) (nn nl carryin : Z) : mem * Z :=
  if carryin =? 1 then (m, 1)
  else if nl =? 0 then (m, 0)
  else
    let '(m, nl) := BnnSubtractBorrow_loop (Z.to_nat nl) m nn in
    (m, match nl with O => 0 | S _ => 1 end).

Fixpoint BnnSubtract_loop (nl : nat) (m : mem) (mm nn c : Z) : mem * Z * Z :=
  match nl with
  | O => (m, mm, c)
  | S nl =>
      let save := ld m mm in
      let invn := Z.lxor (ld m nn) (u64 (-1)) in
      let c := u64 (c + save) in
      if c <? save then
        BnnSubtract_loop nl (st m mm invn) (mm + 1) (nn + 1) 1
      else
        let c := u64 (c + invn) in
        BnnSubtract_loop nl (st m mm c) (mm + 1) (nn + 1) (if c <? invn then 1 else 0)
  end.

Definition BnnSubtract (m : mem) (mm ml nn nl carryin : Z) : mem * Z :=
  let ml := u64 (ml - nl) in
  let '(m, mm, c) := BnnSubtract_loop (Z.to_nat nl) m mm nn carryin in
  BnnSubtractBorrow m mm ml c.

(** ** Multiplication by a digit *)

Definition LOW (x : Z) : Z := Z.land x (u64 (Z.shiftl 1 (BN_DIGIT_SIZE / 2)) - 1).
Definition HIGH (x : Z) : Z := Z.shiftr x (BN_DIGIT_SIZE / 2).
Definition L2H (x : Z) : Z := u64 (Z.shiftl x (BN_DIGIT_SIZE / 2)).

(** One round of the inner loop: the new digit of [pp] and the new carry. *)
Definition mul_round (Ld Hd m_digit p c : Z) : Z * Z :=
  let Lm := LOW m_digit in
  let Hm := HIGH m_digit in
  let X0 := u64 (Ld * Lm) in
  let X2 := u64 (Hd * Lm) in
  let X3 := u64 (Hd * Hm) in
  let X1 := u64 (Ld * Hm) in
  let c := u64 (c + X0) in
  let X3 := if c <? X0 then u64 (X3 + 1) else X3 in
  let X1 := u64 (X1 + X2) in
  let X3 := if X1 <? X2 then u64 (X3 + u64 (Z.shiftl 1 (BN_DIGIT_SIZE / 2))) else X3 in
  let X3 := u64 (X3 + HIGH X1) in
  let X1 := L2H X1 in
  let c := u64 (c + X1) in
  let X3 := if c <? X1 then u64 (X3 + 1) else X3 in
  let p := u64 (p + c) in
  let X3 := if p <? c then u64 (X3 + 1) else X3 in
  (p, X3).

Fixpoint BnnMultiplyDigit_loop (ml : nat) (m : mem) (pp mm Ld Hd c : Z) : mem * Z * Z :=
  match ml with
  | O => (m, pp, c)
  | S ml =>
      let '(p, c) := mul_round Ld Hd (ld m mm) (ld m pp) c in
      BnnMultiplyDigit_loop ml (st m pp p) (pp + 1) (mm + 1) Ld Hd c
  end.

Definition BnnMultiplyDigit (m : mem) (pp pl mm ml d : Z) : mem * Z :=
  if d =? 0 then (m, 0)
  else if d =? 1 then BnnAdd m pp pl mm ml 0
  else
    let pl := u64 (pl - ml) in
    let '(m, pp, c) := BnnMultiplyDigit_loop (Z.to_nat ml) m pp mm (LOW d) (HIGH d) 0 in
    let X0 := ld m pp in
    let c := u64 (c + X0) in
    let m := st m pp c in
    if X0 <=? c then (m, 0)
    else
      let pl := u64 (pl - 1) in
      let '(m, pl) := BnnAddCarry_loop (Z.to_nat pl) m (pp + 1) in
      (m, match pl with O => 1 | S _ => 0 end).

(** ** The number a digit array denotes *)

Fixpoint bnval (m : mem) (p : Z) (n : nat) : Z :=
  match n with
  | O => 0
  | S n => ld m p + B64 * bnval m (p + 1) n
  end.

(** [B^n], the base of an [n]-digit number. *)
Definition BBase (n : nat) : Z := B64 ^ Z.of_nat n.

Lemma BBase_0 : BBase 0 = 1.
Proof. reflexivity. Qed.
Lemma BBase_S n : BBase (S n) = B64 * BBase n.
Proof. unfold BBase. rewrite Nat2Z.inj_succ, Z.pow_succ_r; lia. Qed.
Lemma BBase_pos n : 0 < BBase n.
Proof. apply Z.pow_pos_nonneg; lia. Qed.
Lemma BBase_add a b : BBase (a + b) = BBase a * BBase b.
Proof. unfold BBase. rewrite Nat2Z.inj_add, Z.pow_add_r; lia. Qed.
#[export] Hint Resolve BBase_pos : core.

Lemma bnval_ext m m' p n :
  (forall a, p <= a < p + Z.of_nat n -> ld m' a = ld m a) ->
  bnval m' p n = bnval m p n.
Proof.
  revert p. induction n as [|n IH]; intros p H; [done|].
  cbn [bnval]. rewrite H by lia. rewrite (IH (p + 1)); [done|].
  intros. apply H. lia.
Qed.

Lemma bnval_frame m m' q k p n :
  frame m m' q k -> p + Z.of_nat n <= q \/ q + k <= p ->
  bnval m' p n = bnval m p n.
Proof. intros Hf Hd. apply bnval_ext. intros a Ha. apply Hf. lia. Qed.

Lemma bnval_bounds m p n : wfm m -> 0 <= bnval m p n < BBase n.
Proof.
  intros Hm. revert p. induction n as [|n IH]; intros p; [rewrite BBase_0; simpl; lia|].
  rewrite BBase_S. cbn [bnval]. specialize (IH (p + 1)). pose proof (Hm p). wint.
Qed.

Lemma bnval_app m p a b :
  bnval m p (a + b) = bnval m p a + BBase a * bnval m (p + Z.of_nat a) b.
Proof.
  revert p. induction a as [|a IH]; intros p.
  - rewrite BBase_0. cbn [bnval plus]. rewrite Z.add_0_r. lia.
  - cbn [bnval plus]. rewrite IH, BBase_S, Nat2Z.inj_succ.
    replace (p + Z.succ (Z.of_nat a)) with (p + 1 + Z.of_nat a) by lia. lia.
Qed.

Lemma bnval_snoc m p n :
  bnval m p (S n) = bnval m p n + BBase n * ld m (p + Z.of_nat n).
Proof.
  replace (S n) with (n + 1)%nat by lia. rewrite bnval_app. cbn [bnval]. lia.
Qed.

Lemma bnval_1 m p : bnval m p 1 = ld m p.
Proof. cbn [bnval]. lia. Qed.

Lemma bnval_st_out m a v p n :
  a < p \/ p + Z.of_nat n <= a -> bnval (st m a v) p n = bnval m p n.
Proof. intros. apply bnval_ext. intros. apply ld_st_ne. lia. Qed.

Lemma bnval_st_hd m a v n :
  bnval (st m a v) a (S n) = v + B64 * bnval m (a + 1) n.
Proof. cbn [bnval]. rewrite ld_st_eq, bnval_st_out by lia. done. Qed.

(** ** Clearing and copying *)

Lemma BnnSetToZero_loop_ld f m nn nnlim a :
  nn <= nnlim -> nnlim - nn < Z.of_nat f ->
  ld (BnnSetToZero_loop f m nn nnlim) a =
  if (nn <=? a) && (a <=? nnlim) then 0 else ld m a.
Proof.
  revert m nn. induction f as [|f IH]; intros m nn H1 H2; [lia|].
  cbn [BnnSetToZero_loop]. destruct (Z.ltb_spec nn nnlim).
  - rewrite IH by lia. rewrite ld_st. zcases; simpl; try lia; done.
  - rewrite ld_st. zcases; simpl; try lia; done.
Qed.

Lemma BnnSetToZero_ld m nn nl a :
  ld (BnnSetToZero m nn nl) a =
  if (nn <=? a) && (a <? nn + nl) then 0 else ld m a.
Proof.
  unfold BnnSetToZero. destruct (Z.leb_spec nl 0).
  - zcases; simpl; try lia; done.
  - rewrite BnnSetToZero_loop_ld by lia. zcases; simpl; try lia; done.
Qed.

Lemma BnnAssign_up_ld f m mm nn nnlim a :
  nn < nnlim -> nnlim - nn <= Z.of_nat f -> mm < nn \/ nnlim <= mm ->
  ld (BnnAssign_up f m mm nn nnlim) a =
  if (mm <=? a) && (a <? mm + (nnlim - nn)) then ld m (nn + (a - mm)) else ld m a.
Proof.
  revert m mm nn. induction f as [|f IH]; intros m mm nn H1 H2 H3; [lia|].
  cbn [BnnAssign_up]. destruct (Z.ltb_spec (nn + 1) nnlim).
  - rewrite IH by lia. rewrite !ld_st.
    zcases; simpl; try lia; f_equal; lia.
  - rewrite ld_st. zcases; simpl; try lia; f_equal; lia.
Qed.

Lemma BnnAssign_down_ld f m mm nn nnlim a :
  nn < nnlim -> nnlim - nn <= Z.of_nat f -> nnlim <= mm ->
  ld (BnnAssign_down f m mm nn nnlim) a =
  if (mm - (nnlim - nn) <=? a) && (a <? mm) then ld m (nnlim + (a - mm)) else ld m a.
Proof.
  revert m mm nnlim. induction f as [|f IH]; intros m mm nnlim H1 H2 H3; [lia|].
  cbn [BnnAssign_down]. destruct (Z.ltb_spec nn (nnlim - 1)).
  - rewrite IH by lia. rewrite !ld_st.
    zcases; simpl; try lia; f_equal; lia.
  - rewrite ld_st. zcases; simpl; try lia; f_equal; lia.
Qed.

(** Copying is right whatever the overlap of the two arrays. *)
Lemma BnnAssign_ld m mm nn nl a :
  ld (BnnAssign m mm nn nl) a =
  if (mm <=? a) && (a <? mm + nl) then ld m (nn + (a - mm)) else ld m a.
Proof.
  unfold BnnAssign. destruct (Z.leb_spec nl 0).
  { zcases; simpl; try lia; done. }
  destruct (Z.ltb_spec mm nn), (Z.ltb_spec (nn + nl) mm); simpl; try lia.
  - rewrite BnnAssign_up_ld by lia. zcases; simpl; try lia; f_equal; lia.
  - rewrite BnnAssign_up_ld by lia. zcases; simpl; try lia; f_equal; lia.
  - destruct (Z.ltb_spec nn mm).
    + rewrite BnnAssign_down_ld by lia. zcases; simpl; try lia; f_equal; lia.
    + zcases; simpl; try lia; f_equal; lia.
Qed.

(** ** Significant digits and leading zero bits *)

Lemma BnnNumDigits_loop_le m nn nl : (BnnNumDigits_loop m nn nl <= nl)%nat.
Proof.
  revert nn. induction nl as [|nl IH]; intros nn; cbn [BnnNumDigits_loop]; [lia|].
  destruct (_ =? 0); [specialize (IH (nn - 1)); lia|lia].
Qed.

Lemma BnnNumDigits_loop_spec m p nl :
  let k := BnnNumDigits_loop m (p + Z.of_nat nl) nl in
  bnval m p nl = bnval m p k /\ (k <> O -> ld m (p + Z.of_nat k - 1) <> 0).
Proof.
  induction nl as [|nl IH]; [done|].
  cbn [BnnNumDigits_loop].
  replace (p + Z.of_nat (S nl) - 1) with (p + Z.of_nat nl) by lia.
  destruct (Z.eqb_spec (ld m (p + Z.of_nat nl)) 0) as [E|E].
  - destruct IH as [IH1 IH2]. split; [|done]. rewrite bnval_snoc, E. lia.
  - split; [done|]. intros _.
    replace (p + Z.of_nat (S nl) - 1) with (p + Z.of_nat nl) by lia. done.
Qed.

(** A mask of the [k] top bits tests whether a digit is below [2^(64-k)]. *)
Lemma land_top_mask d k :
  isu64 d -> 0 <= k <= 64 ->
  (Z.land d (2 ^ 64 - 2 ^ (64 - k)) =? 0) = (d <? 2 ^ (64 - k)).
Proof.
  intros Hd Hk.
  assert (E : Z.land d (2 ^ 64 - 2 ^ (64 - k)) = d / 2 ^ (64 - k) * 2 ^ (64 - k)).
  { replace (2 ^ 64 - 2 ^ (64 - k)) with (Z.shiftl (Z.ones k) (64 - k)).
    2:{ rewrite Z.shiftl_mul_pow2, Z.ones_equiv by lia.
        replace 64 with (k + (64 - k)) at 2 by lia. rewrite Z.pow_add_r by lia. lia. }
    rewrite <- Z.shiftr_div_pow2, <- Z.shiftl_mul_pow2 by lia.
    apply Z.bits_inj'. intros i Hi. rewrite Z.land_spec.
    destruct (Z.ltb_spec i (64 - k)).
    - rewrite !Z.shiftl_spec_low by lia. apply andb_false_r.
    - rewrite !Z.shiftl_spec, Z.shiftr_spec by lia.
      replace (i - (64 - k) + (64 - k)) with i by lia.
      destruct (Z.ltb_spec (i - (64 - k)) k).
      + rewrite Z.ones_spec_low by lia. apply andb_true_r.
      + rewrite Z.ones_spec_high by lia. rewrite andb_false_r.
        rewrite <- (Z.mod_small d (2 ^ 64)) by (unfold isu64 in Hd; lia).
        rewrite Z.mod_pow2_bits_high by lia. done. }
  rewrite E. pose proof (pow2_pos (64 - k) ltac:(lia)) as Hp.
  unfold isu64 in Hd.
  pose proof (Z.div_pos d (2 ^ (64 - k)) ltac:(lia) Hp).
  destruct (Z.eqb_spec (d / 2 ^ (64 - k) * 2 ^ (64 - k)) 0), (Z.ltb_spec d (2 ^ (64 - k)));
    try done; exfalso.
  - assert (d / 2 ^ (64 - k) = 0) as Hz by nia.
    apply Z.div_small_iff in Hz; lia.
  - apply n. rewrite Z.div_small; lia.
Qed.

(** One round: with the top bit of [d] among the top [2 * maskl] bits, the round
    brings it among the top [maskl] bits. *)
Lemma BnnNumLeadingZeroBits_round j d p :
  0 <= j <= 5 -> isu64 d -> 2 ^ (64 - 2 ^ (j + 1)) <= d ->
  exists s, (s = 0 \/ s = 2 ^ j) /\
    (if Z.land d (2 ^ 64 - 2 ^ (64 - 2 ^ j)) =? 0
     then (p + 2 ^ j, u64 (Z.shiftl d (2 ^ j))) else (p, d)) = (p + s, d * 2 ^ s) /\
    isu64 (d * 2 ^ s) /\ 2 ^ (64 - 2 ^ j) <= d * 2 ^ s.
Proof.
  intros Hj Hd Hlow.
  assert (H2 : 1 <= 2 ^ j <= 32).
  { split; [pose proof (pow2_pos j); lia|]. change 32 with (2 ^ 5). apply Z.pow_le_mono_r; lia. }
  rewrite land_top_mask by (try done; lia).
  assert (Hpow : 2 ^ 64 = 2 ^ (64 - 2 ^ j) * 2 ^ (2 ^ j)).
  { rewrite <- Z.pow_add_r by lia. f_equal. lia. }
  assert (Hpow2 : 2 ^ (64 - 2 ^ j) = 2 ^ (64 - 2 ^ (j + 1)) * 2 ^ (2 ^ j)).
  { assert (2 ^ (j + 1) = 2 * 2 ^ j) by (rewrite Z.pow_add_r by lia; lia).
    rewrite <- Z.pow_add_r by lia. f_equal. lia. }
  destruct (Z.ltb_spec d (2 ^ (64 - 2 ^ j))) as [Hlt|Hge].
  - exists (2 ^ j). rewrite Z.shiftl_mul_pow2 by lia.
    assert (isu64 (d * 2 ^ (2 ^ j))).
    { unfold isu64 in *. change B64 with (2 ^ 64). nia. }
    rewrite u64_id by done. repeat split; auto; unfold isu64 in *; try lia; nia.
  - exists 0. rewrite Z.add_0_r, Z.mul_1_r. auto 6.
Qed.

Lemma BnnNumLeadingZeroBits_loop_spec j d p :
  0 <= Z.of_nat j <= 5 -> isu64 d -> 2 ^ (64 - 2 ^ (Z.of_nat j + 1)) <= d ->
  exists k, 0 <= k < 2 ^ (Z.of_nat j + 1) /\
    BnnNumLeadingZeroBits_loop (S (S j)) d (2 ^ 64 - 2 ^ (64 - 2 ^ Z.of_nat j))
      (2 ^ Z.of_nat j) p = p + k /\
    2 ^ 63 <= d * 2 ^ k < 2 ^ 64.
Proof.
  revert d p. induction j as [|j IH]; intros d p Hj Hd Hlow.
  - destruct (BnnNumLeadingZeroBits_round 0 d p ltac:(lia) Hd Hlow)
      as (s & Hs & E & Hu & Hl).
    exists s. cbn [BnnNumLeadingZeroBits_loop]. change (2 ^ Z.of_nat 0 =? 0) with false.
    cbv iota. change (2 ^ Z.of_nat 0) with (2 ^ 0). rewrite E.
    change (2 ^ 0) with 1 in *. change (Z.shiftr 1 1 =? 0) with true. cbv iota.
    unfold isu64 in Hu. change (2 ^ (Z.of_nat 0 + 1)) with 2. repeat split; try lia.
    all: change (2 ^ (64 - 1)) with (2 ^ 63) in Hl; lia.
  - destruct (BnnNumLeadingZeroBits_round (Z.of_nat (S j)) d p ltac:(lia) Hd Hlow)
      as (s & Hs & E & Hu & Hl).
    assert (P : 2 ^ Z.of_nat (S j) = 2 * 2 ^ Z.of_nat j)
      by (rewrite Nat2Z.inj_succ, Z.pow_succ_r by lia; lia).
    assert (P1 : 2 ^ (Z.of_nat j + 1) = 2 * 2 ^ Z.of_nat j)
      by (rewrite Z.pow_add_r by lia; lia).
    assert (P2 : 2 ^ (Z.of_nat (S j) + 1) = 4 * 2 ^ Z.of_nat j)
      by (rewrite Z.pow_add_r, P by lia; lia).
    assert (0 < 2 ^ Z.of_nat j) by (apply pow2_pos; lia).
    assert (2 ^ Z.of_nat j <= 2 ^ 4) by (apply Z.pow_le_mono_r; lia).
    destruct (IH (d * 2 ^ s) (p + s)) as (k & Hk & Ek & Hkk); [lia|done|..].
    { rewrite P1, <- P. done. }
    assert (0 <= s) by (destruct Hs as [->| ->]; [lia|apply Z.pow_nonneg; lia]).
    exists (s + k). rewrite (Z.pow_add_r 2 s k), Z.mul_assoc by lia.
    split; [destruct Hs; lia|]. split; [|done].
    rewrite Z.add_assoc, <- Ek. remember (S (S j)) as f.
    cbn [BnnNumLeadingZeroBits_loop].
    replace (2 ^ Z.of_nat (S j) =? 0) with false by (symmetry; apply Z.eqb_neq; lia).
    rewrite E. replace (Z.shiftr (2 ^ Z.of_nat (S j)) 1) with (2 ^ Z.of_nat j)
      by (rewrite Z.shiftr_div_pow2, P by lia; zlia).
    f_equal. rewrite Z.shiftl_mul_pow2 by lia.
    rewrite Z.mul_sub_distr_r, <- !Z.pow_add_r by lia.
    replace (64 - 2 ^ Z.of_nat (S j) + 2 ^ Z.of_nat j) with (64 - 2 ^ Z.of_nat j) by lia.
    unfold u64. change B64 with (2 ^ 64).
    replace (2 ^ (64 + 2 ^ Z.of_nat j)) with (2 ^ 64 * 2 ^ (2 ^ Z.of_nat j))
      by (rewrite <- Z.pow_add_r by lia; done).
    symmetry. apply Z.mod_unique_pos with (q := 2 ^ (2 ^ Z.of_nat j) - 1); [|ring].
    pose proof (pow2_pos (64 - 2 ^ Z.of_nat j) ltac:(lia)).
    assert (2 ^ (64 - 2 ^ Z.of_nat j) <= 2 ^ 64) by (apply Z.pow_le_mono_r; lia).
    lia.
Qed.

(** [BnnNumLeadingZeroBitsInDigit] is the shift that normalizes the digit. *)
Lemma BnnNumLeadingZeroBitsInDigit_spec d :
  0 < d < B64 ->
  let k := BnnNumLeadingZeroBitsInDigit d in
  0 <= k < 64 /\ B63 <= d * 2 ^ k < B64.
Proof.
  intros Hd. unfold BnnNumLeadingZeroBitsInDigit.
  destruct (Z.eqb_spec d 0); [lia|].
  destruct (BnnNumLeadingZeroBits_loop_spec 5 d 0) as (k & Hk & E & Hkk).
  - lia.
  - unfold isu64; lia.
  - change (2 ^ (64 - 2 ^ (Z.of_nat 5 + 1))) with 1. lia.
  - change (u64 (Z.shiftl (u64 (Z.lnot 0)) (BN_DIGIT_SIZE / 2)))
      with (2 ^ 64 - 2 ^ (64 - 2 ^ Z.of_nat 5)).
    change (BN_DIGIT_SIZE / 2) with (2 ^ Z.of_nat 5).
    change (2 ^ (Z.of_nat 5 + 1)) with 64 in Hk. rewrite E. cbn zeta.
    change (2 ^ 63) with B63 in Hkk. change (2 ^ 64) with B64 in Hkk.
    rewrite Z.add_0_l. done.
Qed.

(** ** Shifts *)

Lemma shift_split x k : isu64 x -> 0 < k < 64 ->
  u64 (Z.shiftl x k) = x * 2 ^ k - B64 * (x / 2 ^ (64 - k)) /\
  Z.shiftr x (64 - k) = x / 2 ^ (64 - k) /\ 0 <= x / 2 ^ (64 - k) < 2 ^ k.
Proof.
  intros Hx Hk. unfold isu64, u64 in *.
  rewrite Z.shiftl_mul_pow2, Z.shiftr_div_pow2 by lia.
  assert (E : B64 = 2 ^ k * 2 ^ (64 - k)).
  { rewrite <- Z.pow_add_r by lia. replace (k + (64 - k)) with 64 by lia. done. }
  pose proof (pow2_pos k ltac:(lia)). pose proof (pow2_pos (64 - k) ltac:(lia)).
  repeat split.
  - symmetry. apply Z.mod_unique_pos with (q := x / 2 ^ (64 - k)); [|lia].
    pose proof (Z.div_mod x (2 ^ (64 - k)) ltac:(lia)).
    pose proof (Z.mod_pos_bound x (2 ^ (64 - k)) ltac:(lia)). nia.
  - apply Z.div_pos; lia.
  - apply Z.div_lt_upper_bound; lia.
Qed.

(** [(a << k) | r] adds when [r] fits in the [k] freed bits. *)
Lemma lor_shift_u64 x k r :
  isu64 x -> 0 < k < 64 -> 0 <= r < 2 ^ k ->
  Z.lor (u64 (Z.shiftl x k)) r = u64 (Z.shiftl x k) + r /\
  isu64 (u64 (Z.shiftl x k) + r).
Proof.
  intros Hx Hk Hr.
  destruct (shift_split x k Hx Hk) as (E & _ & Hb).
  assert (E64 : B64 = 2 ^ (64 - k) * 2 ^ k).
  { rewrite <- Z.pow_add_r by lia. replace (64 - k + k) with 64 by lia. done. }
  assert (M : u64 (Z.shiftl x k) = (x - 2 ^ (64 - k) * (x / 2 ^ (64 - k))) * 2 ^ k)
    by (rewrite E, E64; ring).
  rewrite M. rewrite Z.lor_comm, lor_disjoint_add by lia. split; [lia|].
  pose proof (Z.mod_pos_bound x (2 ^ (64 - k)) ltac:(apply pow2_pos; lia)).
  pose proof (Z.div_mod x (2 ^ (64 - k)) ltac:(pose proof (pow2_pos (64 - k)); lia)).
  unfold isu64 in *. nia.
Qed.

Lemma BnnShiftLeft_loop_spec n m mm k res :
  wfm m -> 0 < k < 64 -> 0 <= res < 2 ^ k ->
  let '(m', r) := BnnShiftLeft_loop n m mm k (64 - k) res in
  wfm m' /\ frame m m' mm (Z.of_nat n) /\ 0 <= r < 2 ^ k /\
  bnval m' mm n + r * BBase n = bnval m mm n * 2 ^ k + res.
Proof.
  revert m mm res. induction n as [|n IH]; intros m mm res Hm Hk Hr.
  - rewrite BBase_0. simpl. splits; auto with mem; lia.
  - cbn [BnnShiftLeft_loop].
    destruct (shift_split (ld m mm) k) as (E1 & E2 & Hb); [auto with mem|lia|].
    destruct (lor_shift_u64 (ld m mm) k res) as (E3 & Hu); [auto with mem|lia|lia|].
    rewrite E3, E2.
    specialize (IH (st m mm (u64 (Z.shiftl (ld m mm) k) + res)) (mm + 1)
                  (ld m mm / 2 ^ (64 - k))).
    destruct (BnnShiftLeft_loop n _ _ k (64 - k) _) as [m' r].
    destruct IH as (Hm' & Hf & Hr' & E); [auto with mem|lia|lia|].
    rewrite BBase_S. splits; [done| |lia|lia|].
    + apply frame_trans with (st m mm (u64 (Z.shiftl (ld m mm) k) + res)).
      * apply frame_st. lia.
      * eapply frame_weaken; [done|lia|lia].
    + cbn [bnval]. rewrite bnval_st_out in E by lia.
      rewrite (Hf mm) by lia. rewrite ld_st_eq, E1. lia.
Qed.

(** Shifting left multiplies: the digits left in place and the bits returned. *)
Lemma BnnShiftLeft_spec m mm n k :
  wfm m -> 0 <= k < 64 ->
  let '(m', r) := BnnShiftLeft m mm (Z.of_nat n) k in
  wfm m' /\ frame m m' mm (Z.of_nat n) /\ 0 <= r < 2 ^ k /\
  bnval m' mm n + r * BBase n = bnval m mm n * 2 ^ k.
Proof.
  intros Hm Hk. unfold BnnShiftLeft. destruct (Z.eqb_spec k 0) as [->|Hk0].
  - splits; auto with mem; lia.
  - rewrite Nat2Z.id. pose proof (BnnShiftLeft_loop_spec n m mm k 0) as H.
    unfold BN_DIGIT_SIZE. destruct (BnnShiftLeft_loop _ _ _ _ _ _).
    rewrite Z.add_0_r in H. apply H; [done|lia|]. pose proof (pow2_pos k). lia.
Qed.

Lemma shiftr_split x k : isu64 x -> 0 < k < 64 ->
  Z.shiftr x k = x / 2 ^ k /\ u64 (Z.shiftl x (64 - k)) = (x mod 2 ^ k) * 2 ^ (64 - k).
Proof.
  intros Hx Hk. destruct (shift_split x (64 - k)) as (E & _ & _); [done|lia|].
  replace (64 - (64 - k)) with k in E by lia.
  split; [apply Z.shiftr_div_pow2; lia|]. rewrite E, Z.mod_eq by (pose proof (pow2_pos k); lia).
  replace B64 with (2 ^ k * 2 ^ (64 - k)); [ring|].
  rewrite <- Z.pow_add_r by lia. replace (k + (64 - k)) with 64 by lia. done.
Qed.

(** The residue [res] is a multiple of [2^(64-k)], so [|] adds. *)
Lemma lor_shiftr_u64 x k q :
  isu64 x -> 0 < k < 64 -> 0 <= q < 2 ^ k ->
  Z.lor (Z.shiftr x k) (q * 2 ^ (64 - k)) = x / 2 ^ k + q * 2 ^ (64 - k) /\
  isu64 (x / 2 ^ k + q * 2 ^ (64 - k)).
Proof.
  intros Hx Hk Hq. rewrite Z.shiftr_div_pow2 by lia.
  assert (E64 : B64 = 2 ^ k * 2 ^ (64 - k)).
  { rewrite <- Z.pow_add_r by lia. replace (k + (64 - k)) with 64 by lia. done. }
  unfold isu64 in *. pose proof (pow2_pos k ltac:(lia)).
  assert (0 <= x / 2 ^ k < 2 ^ (64 - k)).
  { split; [apply Z.div_pos; lia|apply Z.div_lt_upper_bound; lia]. }
  rewrite lor_disjoint_add by lia. split; [done|]. nia.
Qed.

Lemma BnnShiftRight_loop_spec n m mm k q :
  wfm m -> 0 < k < 64 -> 0 <= q < 2 ^ k ->
  let '(m', r) :=
    BnnShiftRight_loop n m (mm + Z.of_nat n) k (64 - k) (q * 2 ^ (64 - k)) in
  wfm m' /\ frame m m' mm (Z.of_nat n) /\ isu64 r /\
  bnval m' mm n * B64 + r = (bnval m mm n + q * BBase n) * 2 ^ (64 - k).
Proof.
  revert m q. induction n as [|n IH]; intros m q Hm Hk Hq.
  - rewrite BBase_0. cbn [bnval BnnShiftRight_loop].
    assert (E64 : B64 = 2 ^ k * 2 ^ (64 - k)).
    { rewrite <- Z.pow_add_r by lia. replace (k + (64 - k)) with 64 by lia. done. }
    pose proof (pow2_pos (64 - k) ltac:(lia)). unfold isu64.
    splits; auto with mem; nia.
  - cbn [BnnShiftRight_loop].
    replace (mm + Z.of_nat (S n) - 1) with (mm + Z.of_nat n) by lia.
    set (a := mm + Z.of_nat n). set (x := ld m a).
    destruct (shiftr_split x k) as (_ & E2); [unfold x; auto with mem|lia|].
    destruct (lor_shiftr_u64 x k q) as (E3 & Hu); [unfold x; auto with mem|lia|lia|].
    rewrite E3, E2. set (v := x / 2 ^ k + q * 2 ^ (64 - k)) in *.
    specialize (IH (st m a v) (x mod 2 ^ k)).
    destruct (BnnShiftRight_loop n _ _ k (64 - k) _) as [m' r].
    pose proof (pow2_pos k ltac:(lia)) as Hp.
    pose proof (Z.mod_pos_bound x (2 ^ k) Hp).
    destruct IH as (Hm' & Hf & Hr' & E); [auto with mem|lia|lia|].
    rewrite bnval_st_out in E by lia.
    splits; [done| |done|].
    + apply frame_trans with (st m a v); [apply frame_st; lia|].
      eapply frame_weaken; [done|lia|lia].
    + rewrite !bnval_snoc. fold a. rewrite (Hf a) by lia. rewrite ld_st_eq. fold x.
      assert (E64 : B64 = 2 ^ k * 2 ^ (64 - k)).
      { rewrite <- Z.pow_add_r by lia. replace (k + (64 - k)) with 64 by lia. done. }
      rewrite BBase_S. unfold v.
      transitivity ((bnval m' mm n * B64 + r) + BBase n * B64 * (x / 2 ^ k + q * 2 ^ (64 - k)));
        [ring|]. rewrite E.
      rewrite (Z.div_mod x (2 ^ k)) at 3 by lia. rewrite E64. ring.
Qed.

(** Shifting right divides: the bits returned, left-justified, are the
    fraction part. *)
Lemma BnnShiftRight_spec m mm n k :
  wfm m -> 0 < k < 64 ->
  let '(m', r) := BnnShiftRight m mm (Z.of_nat n) k in
  wfm m' /\ frame m m' mm (Z.of_nat n) /\ isu64 r /\
  bnval m' mm n * B64 + r = bnval m mm n * 2 ^ (64 - k).
Proof.
  intros Hm Hk. unfold BnnShiftRight. destruct (Z.eqb_spec k 0); [lia|].
  rewrite Nat2Z.id. pose proof (BnnShiftRight_loop_spec n m mm k 0) as H.
  rewrite Z.mul_0_l in H. unfold BN_DIGIT_SIZE. destruct (BnnShiftRight_loop _ _ _ _ _ _).
  rewrite Z.mul_0_l, Z.add_0_r in H.
  apply H; [done|lia|]. pose proof (pow2_pos k). lia.
Qed.

(** The two shifts, digit by digit. *)

Lemma BnnShiftLeft_loop_ld n m mm k res a :
  wfm m -> 0 < k < 64 -> 0 <= res < 2 ^ k ->
  ld (fst (BnnShiftLeft_loop n m mm k (64 - k) res)) a =
  if (mm <=? a) && (a <? mm + Z.of_nat n)
  then u64 (Z.shiftl (ld m a) k) + (if a =? mm then res else ld m (a - 1) / 2 ^ (64 - k))
  else ld m a.
Proof.
  revert m mm res. induction n as [|n IH]; intros m mm res Hm Hk Hr.
  - simpl. zcases; simpl; done || lia.
  - cbn [BnnShiftLeft_loop].
    destruct (shift_split (ld m mm) k) as (E1 & E2 & Hb); [auto with mem|lia|].
    destruct (lor_shift_u64 (ld m mm) k res) as (E3 & Hu); [auto with mem|lia|lia|].
    rewrite E3, E2, IH by auto with mem. rewrite !ld_st.
    zcases; simpl; try lia; subst; try done.
    replace (mm + 1 - 1) with mm by lia. done.
Qed.

Lemma BnnShiftLeft_ld m mm n k a :
  wfm m -> 0 < k < 64 ->
  ld (fst (BnnShiftLeft m mm (Z.of_nat n) k)) a =
  if (mm <=? a) && (a <? mm + Z.of_nat n)
  then u64 (Z.shiftl (ld m a) k) + (if a =? mm then 0 else ld m (a - 1) / 2 ^ (64 - k))
  else ld m a.
Proof.
  intros Hm Hk. unfold BnnShiftLeft. destruct (Z.eqb_spec k 0); [lia|].
  rewrite Nat2Z.id. apply BnnShiftLeft_loop_ld; [done|lia|]. pose proof (pow2_pos k). lia.
Qed.

Lemma BnnShiftRight_loop_ld n m mm k q a :
  wfm m -> 0 < k < 64 -> 0 <= q < 2 ^ k ->
  ld (fst (BnnShiftRight_loop n m (mm + Z.of_nat n) k (64 - k) (q * 2 ^ (64 - k)))) a =
  if (mm <=? a) && (a <? mm + Z.of_nat n)
  then ld m a / 2 ^ k +
       (if a =? mm + Z.of_nat n - 1 then q else ld m (a + 1) mod 2 ^ k) * 2 ^ (64 - k)
  else ld m a.
Proof.
  revert m q. induction n as [|n IH]; intros m q Hm Hk Hq.
  - simpl. zcases; simpl; done || lia.
  - cbn [BnnShiftRight_loop].
    replace (mm + Z.of_nat (S n) - 1) with (mm + Z.of_nat n) by lia.
    set (b := mm + Z.of_nat n).
    destruct (shiftr_split (ld m b) k) as (_ & E2); [auto with mem|lia|].
    destruct (lor_shiftr_u64 (ld m b) k q) as (E3 & Hu); [auto with mem|lia|lia|].
    pose proof (pow2_pos k ltac:(lia)) as Hp. pose proof (Z.mod_pos_bound (ld m b) (2 ^ k) Hp).
    rewrite E3, E2. unfold b at 3. rewrite IH by auto with mem. fold b. rewrite !ld_st.
    zcases; simpl; try lia; subst; try done.
    replace (b - 1 + 1) with b by lia. done.
Qed.

Lemma BnnShiftRight_ld m mm n k a :
  wfm m -> 0 < k < 64 ->
  ld (fst (BnnShiftRight m mm (Z.of_nat n) k)) a =
  if (mm <=? a) && (a <? mm + Z.of_nat n)
  then ld m a / 2 ^ k +
       (if a =? mm + Z.of_nat n - 1 then 0 else ld m (a + 1) mod 2 ^ k) * 2 ^ (64 - k)
  else ld m a.
Proof.
  intros Hm Hk. unfold BnnShiftRight. destruct (Z.eqb_spec k 0); [lia|].
  rewrite Nat2Z.id. pose proof (BnnShiftRight_loop_ld n m mm k 0 a) as H.
  rewrite Z.mul_0_l in H. apply H; [done|lia|]. pose proof (pow2_pos k). lia.
Qed.

(** ** Additions *)

(** The carry a [0]/[1] count loop returns: [1] when it ran off the end. *)
Definition ran_out (k : nat) : Z := match k with O => 1 | S _ => 0 end.

(** Extend a frame by one digit at the front. *)
Lemma frame_cons m m' p n v :
  frame (st m p v) m' (p + 1) (Z.of_nat n) -> frame m m' p (Z.of_nat (S n)).
Proof.
  intros Hf a Ha. rewrite (Hf a) by lia. apply ld_st_ne. lia.
Qed.

Lemma BnnAddCarry_loop_spec n m nn :
  wfm m ->
  let '(m', k) := BnnAddCarry_loop n m nn in
  wfm m' /\ frame m m' nn (Z.of_nat n) /\
  bnval m' nn n + ran_out k * BBase n = bnval m nn n + 1.
Proof.
  revert m nn. induction n as [|n IH]; intros m nn Hm.
  - splits; auto with mem; done.
  - cbn [BnnAddCarry_loop]. pose proof (Hm nn) as Hd.
    destruct (Z.eqb_spec (u64 (ld m nn + 1)) 0) as [E|E].
    + specialize (IH (st m nn (u64 (ld m nn + 1))) (nn + 1)).
      destruct (BnnAddCarry_loop n _ _) as [m' k].
      destruct IH as (Hm' & Hf & Ev); [auto with mem|].
      rewrite bnval_st_out in Ev by lia.
      splits; [done|by eapply frame_cons|].
      rewrite BBase_S. cbn [bnval]. rewrite (Hf nn), ld_st_eq by lia.
      wint.
    + splits; auto with mem.
      * apply frame_st. lia.
      * rewrite bnval_st_hd. cbn [bnval ran_out]. wint.
Qed.

Lemma BnnAddCarry_spec m nn n c :
  wfm m -> 0 <= c <= 1 ->
  let '(m', c') := BnnAddCarry m nn (Z.of_nat n) c in
  wfm m' /\ frame m m' nn (Z.of_nat n) /\ 0 <= c' <= 1 /\
  bnval m' nn n + c' * BBase n = bnval m nn n + c.
Proof.
  intros Hm Hc. unfold BnnAddCarry.
  destruct (Z.eqb_spec c 0); [splits; auto with mem; lia|].
  destruct (Z.eqb_spec (Z.of_nat n) 0).
  - replace n with O by lia. rewrite BBase_0. simpl. splits; auto with mem; lia.
  - rewrite Nat2Z.id. pose proof (BnnAddCarry_loop_spec n m nn Hm) as H.
    destruct (BnnAddCarry_loop n m nn) as [m' k]. destruct H as (? & ? & E).
    change (match k with O => 1 | S _ => 0 end) with (ran_out k).
    splits; auto; destruct k; simpl in *; lia.
Qed.

(** Reading [nn] while writing [mm] upwards is safe when [nn] is not written
    before it is read. *)
Definition reads_ahead (mm nn : Z) (n : nat) : Prop :=
  nn + Z.of_nat n <= mm \/ mm <= nn.

(** One digit of an addition, as the code computes it. *)
Lemma add_digit c x y :
  0 <= c <= 1 -> isu64 x -> isu64 y ->
  if u64 (c + x) <? x then c + x + y = y + 1 * B64
  else c + x + y = u64 (u64 (c + x) + y) + (if u64 (u64 (c + x) + y) <? y then 1 else 0) * B64.
Proof.
  intros. destruct (Z.ltb_spec (u64 (c + x)) x); [wint|].
  destruct (Z.ltb_spec (u64 (u64 (c + x) + y)) y); wint.
Qed.

Lemma BnnAdd_loop_spec n m mm nn c :
  wfm m -> 0 <= c <= 1 -> reads_ahead mm nn n ->
  let '(m', mm', c') := BnnAdd_loop n m mm nn c in
  wfm m' /\ frame m m' mm (Z.of_nat n) /\ mm' = mm + Z.of_nat n /\ 0 <= c' <= 1 /\
  bnval m' mm n + c' * BBase n = bnval m mm n + bnval m nn n + c.
Proof.
  revert m mm nn c. induction n as [|n IH]; intros m mm nn c Hm Hc Ha.
  - rewrite BBase_0. simpl. splits; auto with mem; lia.
  - cbn [BnnAdd_loop]. unfold reads_ahead in Ha.
    pose proof (add_digit c (ld m mm) (ld m nn) Hc (Hm _) (Hm _)) as Hd.
    assert (Hstep : forall v c1, isu64 v -> 0 <= c1 <= 1 ->
      c + ld m mm + ld m nn = v + c1 * B64 ->
      let '(m', mm', c') := BnnAdd_loop n (st m mm v) (mm + 1) (nn + 1) c1 in
      wfm m' /\ frame m m' mm (Z.of_nat (S n)) /\ mm' = mm + Z.of_nat (S n) /\
      0 <= c' <= 1 /\
      bnval m' mm (S n) + c' * BBase (S n) = bnval m mm (S n) + bnval m nn (S n) + c).
    { intros v c1 Hv Hc1 Ev. specialize (IH (st m mm v) (mm + 1) (nn + 1) c1).
      destruct (BnnAdd_loop n _ _ _ _) as [[m' mm'] c'].
      destruct IH as (Hm' & Hf & -> & Hc' & E); [auto with mem|lia|unfold reads_ahead; lia|].
      rewrite !bnval_st_out in E by lia.
      splits; [done|by eapply frame_cons|lia|lia|lia|].
      rewrite BBase_S. cbn [bnval]. rewrite (Hf mm), ld_st_eq by lia. lia. }
    destruct (u64 (c + ld m mm) <? ld m mm).
    + apply Hstep; [apply Hm|lia|done].
    + apply Hstep; [apply u64_range|destruct (_ <? ld m nn); lia|done].
Qed.

Lemma BnnAdd_spec m mm ml nn nl c :
  wfm m -> (nl <= ml)%nat -> Z.of_nat ml < B64 -> 0 <= c <= 1 -> reads_ahead mm nn nl ->
  let '(m', c') := BnnAdd m mm (Z.of_nat ml) nn (Z.of_nat nl) c in
  wfm m' /\ frame m m' mm (Z.of_nat ml) /\ 0 <= c' <= 1 /\
  bnval m' mm ml + c' * BBase ml = bnval m mm ml + bnval m nn nl + c.
Proof.
  intros Hm Hl Hb Hc Ha. unfold BnnAdd. rewrite u64_id by (unfold isu64; lia).
  rewrite Nat2Z.id. pose proof (BnnAdd_loop_spec nl m mm nn c Hm Hc Ha) as H.
  destruct (BnnAdd_loop nl m mm nn c) as [[m1 mm1] c1].
  destruct H as (Hm1 & Hf1 & -> & Hc1 & E1).
  rewrite <- Nat2Z.inj_sub by done.
  pose proof (BnnAddCarry_spec m1 (mm + Z.of_nat nl) (ml - nl) c1 Hm1 Hc1) as H.
  destruct (BnnAddCarry _ _ _ _) as [m2 c2]. destruct H as (Hm2 & Hf2 & Hc2 & E2).
  replace ml with (nl + (ml - nl))%nat by lia.
  splits; [done| |lia|lia|].
  - eapply frame_trans; eapply frame_weaken; eauto; lia.
  - rewrite !bnval_app, BBase_add.
    rewrite (bnval_frame m1 m2 _ _ mm nl Hf2) by lia.
    rewrite (bnval_frame m m1 _ _ (mm + Z.of_nat nl) _ Hf1) in E2 by lia.
    nia.
Qed.

(** ** Subtractions *)

Lemma BnnSubtractBorrow_loop_spec n m nn :
  wfm m ->
  let '(m', k) := BnnSubtractBorrow_loop n m nn in
  wfm m' /\ frame m m' nn (Z.of_nat n) /\
  bnval m' nn n + (1 - ran_out k) * BBase n = bnval m nn n - 1 + BBase n.
Proof.
  revert m nn. induction n as [|n IH]; intros m nn Hm.
  - splits; auto with mem; done.
  - cbn [BnnSubtractBorrow_loop]. pose proof (Hm nn) as Hd.
    destruct (Z.eqb_spec (ld m nn) 0) as [E|E].
    + specialize (IH (st m nn (u64 (ld m nn - 1))) (nn + 1)).
      destruct (BnnSubtractBorrow_loop n _ _) as [m' k].
      destruct IH as (Hm' & Hf & Ev); [auto with mem|].
      rewrite bnval_st_out in Ev by lia.
      splits; [done|by eapply frame_cons|].
      rewrite BBase_S. cbn [bnval]. rewrite (Hf nn), ld_st_eq, E by lia.
      change (u64 (0 - 1)) with (B64 - 1). lia.
    + splits; auto with mem.
      * apply frame_st. lia.
      * rewrite bnval_st_hd. cbn [bnval ran_out]. rewrite u64_id by wint. lia.
Qed.

(** The borrow is the complement of the carry: [N + c - 1]. *)
Lemma BnnSubtractBorrow_spec m nn n c :
  wfm m -> 0 <= c <= 1 ->
  let '(m', c') := BnnSubtractBorrow m nn (Z.of_nat n) c in
  wfm m' /\ frame m m' nn (Z.of_nat n) /\ 0 <= c' <= 1 /\
  bnval m' nn n + c' * BBase n = bnval m nn n + c - 1 + BBase n.
Proof.
  intros Hm Hc. unfold BnnSubtractBorrow.
  destruct (Z.eqb_spec c 1); [splits; auto with mem; lia|].
  destruct (Z.eqb_spec (Z.of_nat n) 0).
  - replace n with O by lia. rewrite BBase_0. simpl. splits; auto with mem; lia.
  - rewrite Nat2Z.id. pose proof (BnnSubtractBorrow_loop_spec n m nn Hm) as H.
    destruct (BnnSubtractBorrow_loop n m nn) as [m' k]. destruct H as (? & ? & E).
    splits; auto; destruct k; simpl in *; lia.
Qed.

Lemma BnnSubtract_loop_spec n m mm nn c :
  wfm m -> 0 <= c <= 1 -> reads_ahead mm nn n ->
  let '(m', mm', c') := BnnSubtract_loop n m mm nn c in
  wfm m' /\ frame m m' mm (Z.of_nat n) /\ mm' = mm + Z.of_nat n /\ 0 <= c' <= 1 /\
  bnval m' mm n + c' * BBase n = bnval m mm n - bnval m nn n + c - 1 + BBase n.
Proof.
  revert m mm nn c. induction n as [|n IH]; intros m mm nn c Hm Hc Ha.
  - rewrite BBase_0. simpl. splits; auto with mem; lia.
  - cbn [BnnSubtract_loop]. unfold reads_ahead in Ha.
    change (u64 (-1)) with (B64 - 1). rewrite lxor_ones_u64 by apply Hm.
    assert (Hi : isu64 (B64 - 1 - ld m nn)) by (pose proof (Hm nn); wint).
    pose proof (add_digit c (ld m mm) (B64 - 1 - ld m nn) Hc (Hm _) Hi) as Hd.
    assert (Hstep : forall v c1, isu64 v -> 0 <= c1 <= 1 ->
      c + ld m mm + (B64 - 1 - ld m nn) = v + c1 * B64 ->
      let '(m', mm', c') := BnnSubtract_loop n (st m mm v) (mm + 1) (nn + 1) c1 in
      wfm m' /\ frame m m' mm (Z.of_nat (S n)) /\ mm' = mm + Z.of_nat (S n) /\
      0 <= c' <= 1 /\
      bnval m' mm (S n) + c' * BBase (S n) =
      bnval m mm (S n) - bnval m nn (S n) + c - 1 + BBase (S n)).
    { intros v c1 Hv Hc1 Ev. specialize (IH (st m mm v) (mm + 1) (nn + 1) c1).
      destruct (BnnSubtract_loop n _ _ _ _) as [[m' mm'] c'].
      destruct IH as (Hm' & Hf & -> & Hc' & E); [auto with mem|lia|unfold reads_ahead; lia|].
      rewrite !bnval_st_out in E by lia.
      splits; [done|by eapply frame_cons|lia|lia|lia|].
      rewrite BBase_S. cbn [bnval]. rewrite (Hf mm), ld_st_eq by lia. lia. }
    destruct (u64 (c + ld m mm) <? ld m mm).
    + apply Hstep; [done|lia|done].
    + apply Hstep; [apply u64_range|destruct (_ <? B64 - 1 - ld m nn); lia|done].
Qed.

Lemma BnnSubtract_spec m mm ml nn nl c :
  wfm m -> (nl <= ml)%nat -> Z.of_nat ml < B64 -> 0 <= c <= 1 -> reads_ahead mm nn nl ->
  let '(m', c') := BnnSubtract m mm (Z.of_nat ml) nn (Z.of_nat nl) c in
  wfm m' /\ frame m m' mm (Z.of_nat ml) /\ 0 <= c' <= 1 /\
  bnval m' mm ml + c' * BBase ml = bnval m mm ml - bnval m nn nl + c - 1 + BBase ml.
Proof.
  intros Hm Hl Hb Hc Ha. unfold BnnSubtract. rewrite u64_id by (unfold isu64; lia).
  rewrite Nat2Z.id. pose proof (BnnSubtract_loop_spec nl m mm nn c Hm Hc Ha) as H.
  destruct (BnnSubtract_loop nl m mm nn c) as [[m1 mm1] c1].
  destruct H as (Hm1 & Hf1 & -> & Hc1 & E1).
  rewrite <- Nat2Z.inj_sub by done.
  pose proof (BnnSubtractBorrow_spec m1 (mm + Z.of_nat nl) (ml - nl) c1 Hm1 Hc1) as H.
  destruct (BnnSubtractBorrow _ _ _ _) as [m2 c2]. destruct H as (Hm2 & Hf2 & Hc2 & E2).
  replace ml with (nl + (ml - nl))%nat by lia.
  splits; [done| |lia|lia|].
  - eapply frame_trans; eapply frame_weaken; eauto; lia.
  - rewrite !bnval_app, BBase_add.
    rewrite (bnval_frame m1 m2 _ _ mm nl Hf2) by lia.
    rewrite (bnval_frame m m1 _ _ (mm + Z.of_nat nl) _ Hf1) in E2 by lia.
    nia.
Qed.

(** ** Multiplication by a digit *)

Lemma LOW_mod x : LOW x = x mod B32.
Proof. unfold LOW. apply (Z.land_ones x 32). lia. Qed.
Lemma HIGH_div x : HIGH x = x / B32.
Proof. unfold HIGH. apply (Z.shiftr_div_pow2 x 32). lia. Qed.
Lemma L2H_mod x : isu64 x -> L2H x = (x mod B32) * B32.
Proof.
  intros. unfold L2H. change (BN_DIGIT_SIZE / 2) with 32.
  rewrite Z.shiftl_mul_pow2 by lia. change (2 ^ 32) with B32. wint.
Qed.
Lemma LOW_HIGH x : x = HIGH x * B32 + LOW x.
Proof. rewrite LOW_mod, HIGH_div. zlia. Qed.
Lemma LOW_range x : 0 <= LOW x < B32.
Proof. rewrite LOW_mod. apply Z.mod_pos_bound. lia. Qed.
Lemma HIGH_range x : isu64 x -> 0 <= HIGH x < B32.
Proof. rewrite HIGH_div. wint. Qed.

Lemma half_product a b : 0 <= a < B32 -> 0 <= b < B32 -> 0 <= a * b <= (B32 - 1) * (B32 - 1).
Proof. intros. nia. Qed.

(** [if ((c += x) < x) carry]: an addition with its carry bit. *)
Lemma add_carry c x : isu64 c -> isu64 x ->
  u64 (c + x) + (if u64 (c + x) <? x then 1 else 0) * B64 = c + x.
Proof. intros. destruct (Z.ltb_spec (u64 (c + x)) x); wint. Qed.

Lemma mul_round_spec d md p c :
  isu64 d -> isu64 md -> isu64 p -> isu64 c ->
  let '(p', c') := mul_round (LOW d) (HIGH d) md p c in
  isu64 p' /\ isu64 c' /\ p' + c' * B64 = p + c + md * d.
Proof.
  intros Hd Hmd Hp Hc. unfold mul_round.
  pose proof (LOW_range d) as L1. pose proof (HIGH_range d Hd) as L2.
  pose proof (LOW_range md) as L3. pose proof (HIGH_range md Hmd) as L4.
  assert (E : md * d = HIGH d * HIGH md * B64 + (LOW d * HIGH md + HIGH d * LOW md) * B32
                       + LOW d * LOW md).
  { rewrite (LOW_HIGH md) at 1. rewrite (LOW_HIGH d) at 1. ring. }
  assert (EB : md * d <= (B64 - 1) * (B64 - 1)) by (unfold isu64 in *; nia).
  rewrite E in EB |- *. clear E.
  set (x0 := LOW d * LOW md) in *. set (x2 := HIGH d * LOW md) in *.
  set (x3 := HIGH d * HIGH md) in *. set (x1 := LOW d * HIGH md) in *.
  assert (B0 : 0 <= x0 <= (B32 - 1) * (B32 - 1)) by (apply half_product; lia).
  assert (B1 : 0 <= x1 <= (B32 - 1) * (B32 - 1)) by (apply half_product; lia).
  assert (B2 : 0 <= x2 <= (B32 - 1) * (B32 - 1)) by (apply half_product; lia).
  assert (B3 : 0 <= x3 <= (B32 - 1) * (B32 - 1)) by (apply half_product; lia).
  clearbody x0 x1 x2 x3. clear L1 L2 L3 L4.
  rewrite !(u64_id x0), !(u64_id x1), !(u64_id x2), !(u64_id x3) by (unfold isu64; lia).
  change (u64 (Z.shiftl 1 (BN_DIGIT_SIZE / 2))) with B32.
  pose proof (add_carry c x0 Hc ltac:(unfold isu64; lia)) as A1.
  pose proof (u64_range (c + x0)) as R1.
  set (c1 := u64 (c + x0)) in *. set (b1 := c1 <? x0) in *. clearbody b1 c1.
  pose proof (add_carry x1 x2 ltac:(unfold isu64; lia) ltac:(unfold isu64; lia)) as A2.
  pose proof (u64_range (x1 + x2)) as R2.
  set (y := u64 (x1 + x2)) in *. set (b2 := y <? x2) in *. clearbody b2 y.
  rewrite HIGH_div, L2H_mod by done.
  set (yl := y mod B32 * B32). assert (isu64 yl) as R3 by (unfold yl; wint).
  pose proof (add_carry c1 yl R1 R3) as A3. pose proof (u64_range (c1 + yl)) as R4.
  set (c2 := u64 (c1 + yl)) in *. set (b3 := c2 <? yl) in *. clearbody b3 c2.
  pose proof (add_carry p c2 Hp R4) as A4. pose proof (u64_range (p + c2)) as R5.
  set (p' := u64 (p + c2)) in *. set (b4 := p' <? c2) in *. clearbody b4 p'.
  assert (Hy : y = y / B32 * B32 + y mod B32) by zlia.
  assert (Hyh : 0 <= y / B32 < B32) by wint.
  unfold yl in *. set (yh := y / B32) in *. set (ym := y mod B32) in *. clearbody yh ym.
  unfold isu64 in *.
  assert (T : p' + (x3 + (if b1 then 1 else 0) + (if b2 then 1 else 0) * B32 + yh
                    + (if b3 then 1 else 0) + (if b4 then 1 else 0)) * B64
              = p + c + (x3 * B64 + (x1 + x2) * B32 + x0)) by lia.
  assert (Hbound : x3 + (if b1 then 1 else 0) + (if b2 then 1 else 0) * B32 + yh
                    + (if b3 then 1 else 0) + (if b4 then 1 else 0) < B64) by lia.
  splits; try lia.
  all: destruct b1, b2, b3, b4; cbv iota in *;
    strip_u64; lia.
Qed.

Lemma BnnMultiplyDigit_loop_spec n m pp mm d c :
  wfm m -> isu64 d -> isu64 c -> reads_ahead pp mm n ->
  let '(m', pp', c') := BnnMultiplyDigit_loop n m pp mm (LOW d) (HIGH d) c in
  wfm m' /\ frame m m' pp (Z.of_nat n) /\ pp' = pp + Z.of_nat n /\ isu64 c' /\
  bnval m' pp n + c' * BBase n = bnval m pp n + bnval m mm n * d + c.
Proof.
  revert m pp mm c. induction n as [|n IH]; intros m pp mm c Hm Hd Hc Ha.
  - rewrite BBase_0. simpl. splits; auto with mem; lia.
  - cbn [BnnMultiplyDigit_loop]. unfold reads_ahead in Ha.
    pose proof (mul_round_spec d (ld m mm) (ld m pp) c Hd (Hm _) (Hm _) Hc) as Hr.
    destruct (mul_round _ _ _ _ _) as [p1 c1]. destruct Hr as (Hp1 & Hc1 & E1).
    specialize (IH (st m pp p1) (pp + 1) (mm + 1) c1).
    destruct (BnnMultiplyDigit_loop n _ _ _ _ _ _) as [[m' pp'] c'].
    destruct IH as (Hm' & Hf & -> & Hc' & E); auto with mem; [unfold reads_ahead; lia|].
    rewrite !bnval_st_out in E by lia.
    splits; [done|by eapply frame_cons|lia|done|].
    rewrite BBase_S. cbn [bnval]. rewrite (Hf pp), ld_st_eq by lia. lia.
Qed.

Lemma BnnMultiplyDigit_spec m pp pl mm ml d :
  wfm m -> (ml < pl)%nat -> Z.of_nat pl < B64 -> isu64 d -> reads_ahead pp mm ml ->
  let '(m', c') := BnnMultiplyDigit m pp (Z.of_nat pl) mm (Z.of_nat ml) d in
  wfm m' /\ frame m m' pp (Z.of_nat pl) /\ 0 <= c' <= 1 /\
  bnval m' pp pl + c' * BBase pl = bnval m pp pl + bnval m mm ml * d.
Proof.
  intros Hm Hl Hb Hd Ha. unfold BnnMultiplyDigit.
  destruct (Z.eqb_spec d 0) as [->|]; [splits; auto with mem; lia|].
  destruct (Z.eqb_spec d 1) as [->|].
  { pose proof (BnnAdd_spec m pp pl mm ml 0 Hm ltac:(lia) Hb ltac:(lia) Ha) as H.
    destruct (BnnAdd _ _ _ _ _ _). rewrite Z.mul_1_r. rewrite Z.add_0_r in H. done. }
  rewrite (u64_id (Z.of_nat pl - Z.of_nat ml)) by (unfold isu64; lia). rewrite Nat2Z.id.
  pose proof (BnnMultiplyDigit_loop_spec ml m pp mm d 0 Hm Hd ltac:(unfold isu64; lia) Ha) as H.
  destruct (BnnMultiplyDigit_loop _ _ _ _ _ _ _) as [[m1 pp1] c1].
  destruct H as (Hm1 & Hf1 & -> & Hc1 & E1).
  set (q := pp + Z.of_nat ml). pose proof (add_carry c1 (ld m1 q) Hc1 (Hm1 q)) as A.
  set (v := u64 (c1 + ld m1 q)) in *.
  assert (Hv : isu64 v) by apply u64_range.
  assert (exists r, r = (pl - ml - 1)%nat) as [r Hr] by eauto.
  replace (Z.of_nat pl - Z.of_nat ml - 1) with (Z.of_nat r) by lia.
  rewrite (u64_id (Z.of_nat r)) by (unfold isu64; lia). rewrite Nat2Z.id.
  assert (Hm2 : wfm (st m1 q v)) by auto with mem.
  assert (Hpl : pl = (ml + S r)%nat) by lia.
  assert (Hf2 : frame m (st m1 q v) pp (Z.of_nat pl)).
  { eapply frame_trans; [|apply frame_st; lia]. eapply frame_weaken; eauto; lia. }
  assert (Eq : bnval m (pp + Z.of_nat ml) (S r) = ld m1 q + B64 * bnval m1 (q + 1) r).
  { rewrite <- (bnval_frame m m1 _ _ (pp + Z.of_nat ml) _ Hf1) by lia. done. }
  destruct (Z.leb_spec (ld m1 q) v) as [Hle|Hgt].
  - replace (v <? ld m1 q) with false in A by (symmetry; apply Z.ltb_ge; lia).
    splits; [done|done|lia|lia|].
    rewrite Hpl, !bnval_app, Eq. fold q. rewrite bnval_st_hd, bnval_st_out by lia. nia.
  - replace (v <? ld m1 q) with true in A by (symmetry; apply Z.ltb_lt; lia).
    pose proof (BnnAddCarry_loop_spec r (st m1 q v) (q + 1) Hm2) as H.
    destruct (BnnAddCarry_loop r _ _) as [m3 k]. destruct H as (Hm3 & Hf3 & E3).
    change (match k with O => 1 | S _ => 0 end) with (ran_out k).
    rewrite bnval_st_out in E3 by lia.
    splits; [done| |destruct k; simpl; lia|destruct k; simpl; lia|].
    + eapply frame_trans; [exact Hf2|]. eapply frame_weaken; eauto; lia.
    + rewrite Hpl, !bnval_app, Eq, BBase_add, BBase_S. fold q. cbn [bnval].
      rewrite (Hf3 q), ld_st_eq by lia.
      rewrite (bnval_frame _ m3 _ _ pp ml Hf3) by lia.
      rewrite bnval_st_out by lia. nia.
Qed.

(** ** Complement *)

Lemma BnnComplement_loop_ld f m nn nnlim a :
  wfm m -> nn < nnlim -> nnlim - nn <= Z.of_nat f ->
  ld (BnnComplement_loop f m nn nnlim) a =
  if (nn <=? a) && (a <? nnlim) then B64 - 1 - ld m a else ld m a.
Proof.
  revert m nn. induction f as [|f IH]; intros m nn Hm H1 H2; [lia|].
  cbn [BnnComplement_loop]. replace (nn + 1 - 1) with nn by lia.
  rewrite lnot_u64 by apply Hm. pose proof (Hm nn) as Hd. unfold isu64 in Hd.
  destruct (Z.ltb_spec (nn + 1) nnlim).
  - rewrite IH; [|apply wfm_st; [done|unfold isu64; lia]|lia|lia].
    rewrite ld_st. zcases; simpl; try lia; subst; done.
  - rewrite ld_st. zcases; simpl; try lia; subst; done.
Qed.

Lemma BnnComplement_ld m nn nl a :
  wfm m ->
  ld (BnnComplement m nn nl) a =
  if (nn <=? a) && (a <? nn + nl) then B64 - 1 - ld m a else ld m a.
Proof.
  intros Hm. unfold BnnComplement. destruct (Z.leb_spec nl 0).
  - zcases; simpl; done || lia.
  - apply BnnComplement_loop_ld; auto; lia.
Qed.

Lemma BnnComplement_spec m nn n :
  wfm m ->
  let m' := BnnComplement m nn (Z.of_nat n) in
  wfm m' /\ frame m m' nn (Z.of_nat n) /\ bnval m' nn n = BBase n - 1 - bnval m nn n.
Proof.
  intros Hm m'. assert (Hld : forall a, ld m' a =
    if (nn <=? a) && (a <? nn + Z.of_nat n) then B64 - 1 - ld m a else ld m a)
    by (intros; by apply BnnComplement_ld).
  clearbody m'. splits.
  - intros a. rewrite Hld. pose proof (Hm a). unfold isu64 in *. destruct (_ && _); lia.
  - intros a Ha. rewrite Hld. zcases; simpl; done || lia.
  - assert (H : forall k p, nn <= p -> p + Z.of_nat k <= nn + Z.of_nat n ->
      bnval m' p k = BBase k - 1 - bnval m p k).
    { induction k as [|k IH]; intros p H1 H2; [done|].
      cbn [bnval]. rewrite IH, BBase_S, Hld by lia.
      rewrite (proj2 (Z.leb_le _ _)), (proj2 (Z.ltb_lt _ _)) by lia. simpl. lia. }
    apply H; lia.
Qed.

(** Digit arrays with the same value have the same digits. *)
Lemma bnval_inj m m' p n a :
  wfm m -> wfm m' -> bnval m' p n = bnval m p n -> p <= a < p + Z.of_nat n -> ld m' a = ld m a.
Proof.
  intros Hm Hm'. revert p. induction n as [|n IH]; intros p E Ha; [lia|].
  cbn [bnval] in E. pose proof (Hm p). pose proof (Hm' p). unfold isu64 in *.
  assert (ld m' p = ld m p /\ bnval m' (p + 1) n = bnval m (p + 1) n) as [E1 E2] by lia.
  destruct (Z.eq_dec a p) as [->|]; [done|]. apply (IH (p + 1)); [done|lia].
Qed.

(** ** Example memories *)

(** A dividend of four digits at [0] and a divisor of two digits at [10]. *)
Definition division_example : mem :=
  st (st (st (st (st (st ∅ 0 7) 1 5) 2 1) 3 0) 10 1) 11 3.

Lemma division_example_wf : wfm division_example.
Proof. repeat apply wfm_st; try (unfold isu64; lia). apply wfm_empty. Qed.

Fixpoint fill (m : mem) (p : Z) (n : nat) (v : Z) : mem :=
  match n with
  | O => m
  | S n => st (fill m (p + 1) n v) p v
  end.

Lemma fill_wf m p n v : wfm m -> isu64 v -> wfm (fill m p n v).
Proof. intros Hm Hv. revert p. induction n as [|n IH]; intros p; simpl; auto with mem. Qed.

(** Adding a number and subtracting it again gives every digit back, and the
    two carries are complementary. *)
Theorem BnnAdd_BnnSubtract_roundtrip m mm ml nn nl :
  wfm m -> (nl <= ml)%nat -> Z.of_nat ml < B64 ->
  mm + Z.of_nat ml <= nn \/ nn + Z.of_nat nl <= mm ->
  let '(m1, c1) := BnnAdd m mm (Z.of_nat ml) nn (Z.of_nat nl) 0 in
  let '(m2, c2) := BnnSubtract m1 mm (Z.of_nat ml) nn (Z.of_nat nl) 1 in
  (forall a, ld m2 a = ld m a) /\ c2 = 1 - c1.
Proof.
  intros Hm Hl Hb Hd.
  pose proof (BnnAdd_spec m mm ml nn nl 0 Hm Hl Hb ltac:(lia) ltac:(unfold reads_ahead; lia)) as H.
  destruct (BnnAdd _ _ _ _ _ _) as [m1 c1]. destruct H as (Hm1 & Hf1 & Hc1 & E1).
  pose proof (BnnSubtract_spec m1 mm ml nn nl 1 Hm1 Hl Hb ltac:(lia)
                ltac:(unfold reads_ahead; lia)) as H.
  destruct (BnnSubtract _ _ _ _ _ _) as [m2 c2]. destruct H as (Hm2 & Hf2 & Hc2 & E2).
  rewrite (bnval_frame _ _ _ _ nn nl Hf1) in E2 by lia.
  pose proof (bnval_bounds m2 mm ml Hm2). pose proof (bnval_bounds m mm ml Hm).
  assert (Hv : bnval m2 mm ml = bnval m mm ml /\ c2 = 1 - c1).
  { assert (c1 = 0 \/ c1 = 1) as [->| ->] by lia; assert (c2 = 0 \/ c2 = 1) as [->| ->] by lia; lia. }
  destruct Hv as [Ev ->]. split; [|done]. intros a.
  assert (mm <= a < mm + Z.of_nat ml \/ (a < mm \/ mm + Z.of_nat ml <= a)) as [Ha|Ha] by lia.
  - by apply (bnval_inj m m2 mm ml a).
  - rewrite Hf2, Hf1 by lia. done.
Qed.

Lemma BnnAdd_BnnSubtract_roundtrip_witness :
  let m := fill division_example 0 4 (B64 - 1) in
  let '(m1, c1) := BnnAdd m 0 (Z.of_nat 4) 10 (Z.of_nat 2) 0 in
  let '(m2, c2) := BnnSubtract m1 0 (Z.of_nat 4) 10 (Z.of_nat 2) 1 in
  (forall a, ld m2 a = ld m a) /\ c2 = 1 - c1.
Proof.
  apply (BnnAdd_BnnSubtract_roundtrip (fill division_example 0 4 (B64 - 1)) 0 4 10 2).
  - apply fill_wf; [apply division_example_wf|]. unfold isu64. lia.
  - lia.
  - lia.
  - lia.
Defined.
