(* ===== verification/KerNDiv.v ===== *)
(** * The big number kernel: division by one digit

    Models [BnnDivideDigit] of [otherlibs/num/bignum/c/KerN.c] and proves that it
    divides, for quotients stored apart from the dividend or over it.  The two
    correction loops run at most twice because the divisor has been normalized;
    the model gives them three rounds. *)

From S2P Require Import Prelude KerN.

(** [SUB (xh, xl, yh, yl)]: [xh:xl -= yh:yl]. *)
Definition SUB (xh xl yh yl : Z) : Z * Z :=
  if xl <? yl then (u64 (xh - u64 (yh + 1)), u64 (xl - yl))
  else (u64 (xh - yh), u64 (xl - yl)).

(** [while (ph > rh || ph == rh && pl > rl) { qa--; SUB (ph, pl, yh, yl); }] *)
Fixpoint div_adjust (fuel : nat) (qa ph pl rh rl yh yl : Z) : Z * Z * Z :=
  match fuel with
  | O => (qa, ph, pl)
  | S fuel =>
      if (rh <? ph) || ((ph =? rh) && (rl <? pl)) then
        let '(ph, pl) := SUB ph pl yh yl in
        div_adjust fuel (u64 (qa - 1)) ph pl rh rl yh yl
      else (qa, ph, pl)
  end.

(** The body of the [while (nl != 0)] loop: one digit of the quotient at
    [qq - 1], and the new partial remainder. *)
Definition BnnDivideDigit_body (m : mem) (qq d ch cl rh rl : Z) : mem * Z :=
  let qa := rh / ch in
  let pl := u64 (cl * qa) in
  let ph := u64 (ch * qa) in
  let ph := u64 (ph + HIGH pl) in
  let pl := L2H pl in
  let '(qa, ph, pl) := div_adjust 3 qa ph pl rh rl ch (L2H cl) in
  let '(rh, rl) := SUB rh rl ph pl in
  let m := st m (qq - 1) (L2H qa) in
  let qa := Z.lor (L2H rh) (HIGH rl) / ch in
  let pl := u64 (cl * qa) in
  let ph := u64 (ch * qa) in
  let ph := u64 (ph + HIGH pl) in
  let pl := Z.lor (LOW pl) (L2H (LOW ph)) in
  let ph := HIGH ph in
  let '(qa, ph, pl) := div_adjust 3 qa ph pl rh rl 0 d in
  let rl := u64 (rl - pl) in
  (st m (qq - 1) (Z.lor (ld m (qq - 1)) qa), rl).

Fixpoint BnnDivideDigit_loop (nl : nat) (m : mem) (nn qq d ch cl rl : Z) : mem * Z :=
  match nl with
  | O => (m, rl)
  | S nl =>
      let '(m, rl) := BnnDivideDigit_body m qq d ch cl rl (ld m (nn - 1)) in
      BnnDivideDigit_loop nl m (nn - 1) (qq - 1) d ch cl rl
  end.

(** The [Denormalize dividend] step, [qq] and [nn] back where they started. *)
Definition BnnDivideDigit_denormalize (m : mem) (qq nn orig_nl k prev_qq : Z) : mem :=
  if k =? 0 then m
  else if (nn <? qq) && (qq <? nn + orig_nl) then
    let orig_nl := qq - nn in
    let m := fst (BnnShiftRight m nn orig_nl k) in
    st m (nn + orig_nl - 1) prev_qq
  else if qq =? nn then fst (BnnShiftRight m (nn + orig_nl - 1) 1 k)
  else fst (BnnShiftRight m nn orig_nl k).

Definition BnnDivideDigit (m : mem) (qq nn nl d : Z) : mem * Z :=
  let k := BnnNumLeadingZeroBitsInDigit d in
  let prev_qq := ld m (qq - 1) in
  let orig_nl := nl in
  let '(m, d) :=
    if k =? 0 then (m, d) else (fst (BnnShiftLeft m nn nl k), u64 (Z.shiftl d k)) in
  let ch := HIGH d in
  let cl := LOW d in
  (* [nn] and [qq] now point past the dividend and the quotient *)
  let rl := ld m (nn + nl - 1) in
  let '(m, rl) :=
    BnnDivideDigit_loop (Z.to_nat (nl - 1)) m (nn + nl - 1) (qq + (nl - 1)) d ch cl rl in
  (BnnDivideDigit_denormalize m qq nn orig_nl k prev_qq, Z.shiftr rl k).

(** ** The correction loop *)

Lemma SUB_spec xh xl yh yl :
  isu64 xh -> isu64 xl -> isu64 yh -> isu64 yl ->
  yh * B64 + yl <= xh * B64 + xl ->
  let '(zh, zl) := SUB xh xl yh yl in
  isu64 zh /\ isu64 zl /\ zh * B64 + zl = xh * B64 + xl - (yh * B64 + yl).
Proof.
  intros H1 H2 H3 H4 Hle. unfold SUB. destruct (Z.ltb_spec xl yl).
  - rewrite (u64_id (yh + 1)) by wint. splits; try apply u64_range. wint.
  - splits; try apply u64_range. wint.
Qed.

Lemma div_adjust_spec f qa ph pl rh rl yh yl :
  let D := yh * B64 + yl in
  let N := rh * B64 + rl in
  isu64 ph -> isu64 pl -> isu64 rh -> isu64 rl -> isu64 yh -> isu64 yl -> isu64 qa ->
  0 < D -> ph * B64 + pl = qa * D -> (qa - Z.of_nat f) * D <= N -> N < (qa + 1) * D ->
  let '(qa', ph', pl') := div_adjust f qa ph pl rh rl yh yl in
  isu64 ph' /\ isu64 pl' /\ isu64 qa' /\ ph' * B64 + pl' = qa' * D /\
  qa' * D <= N < (qa' + 1) * D.
Proof.
  intros D N. revert qa ph pl.
  induction f as [|f IH]; intros qa ph pl H1 H2 H3 H4 H5 H6 H7 HD E Hlo Hhi.
  - cbn [div_adjust]. splits; auto; lia.
  - cbn [div_adjust].
    destruct ((rh <? ph) || ((ph =? rh) && (rl <? pl))) eqn:C.
    + assert (N < qa * D).
      { rewrite <- E. unfold N. zcases_in C; simpl in C; try discriminate; unfold isu64 in *; nia. }
      assert (0 < qa) by (unfold N, isu64 in *; nia).
      pose proof (SUB_spec ph pl yh yl H1 H2 H5 H6) as HS. fold D in HS.
      destruct (SUB ph pl yh yl) as [zh zl]. destruct HS as (Z1 & Z2 & Z3); [nia|].
      rewrite u64_id by (unfold isu64 in *; lia).
      apply IH; auto; unfold isu64 in *; try lia; nia.
    + splits; auto; try lia. rewrite <- E. unfold N.
      zcases_in C; simpl in C; try discriminate; unfold isu64 in *; nia.
Qed.

(** ** One digit of the quotient *)

Section one_digit.
Variables d : Z.
Hypothesis Hd : B63 <= d < B64.

Let ch := HIGH d.
Let cl := LOW d.

Lemma ch_range : B31 <= ch < B32.
Proof. unfold ch. rewrite HIGH_div. wint. Qed.
Lemma cl_range : 0 <= cl < B32.
Proof. apply LOW_range. Qed.
Lemma d_split : d = ch * B32 + cl.
Proof. apply LOW_HIGH. Qed.

(** The trial quotient of [x < d] by the high half of [d]. *)
Lemma trial_quotient x :
  0 <= x < d ->
  let qa := x / ch in
  0 <= qa <= B32 + 1 /\ isu64 (ch * qa) /\ isu64 (cl * qa) /\
  isu64 (ch * qa + HIGH (cl * qa)) /\
  (qa - 2) * d <= x * B32 /\ (x + 1) * B32 <= (qa + 1) * d.
Proof.
  intros Hx qa. pose proof ch_range as Hc. pose proof cl_range as Hl.
  pose proof d_split as E.
  assert (Hq1 : ch * qa <= x) by (apply Z.mul_div_le; lia).
  assert (Hq2 : x < ch * (qa + 1)) by (apply Z.mul_succ_div_gt; lia).
  assert (Hq0 : 0 <= qa) by (apply Z.div_pos; lia).
  clearbody qa.
  assert (Hq3 : qa <= B32 + 1) by nia.
  assert (Hcl : 0 <= cl * qa < B64) by nia.
  assert (Hh : HIGH (cl * qa) * B32 <= cl * qa < HIGH (cl * qa) * B32 + B32)
    by (rewrite HIGH_div; zlia).
  set (h := HIGH (cl * qa)) in *. clearbody h.
  assert (Hqa : (qa + 1) * d = ch * (qa + 1) * B32 + (qa + 1) * cl) by (rewrite E; ring).
  assert (Hqb : (qa - 2) * d = ch * qa * B32 - 2 * ch * B32 + (qa - 2) * cl)
    by (rewrite E; ring).
  assert (Hhc : h <= cl) by (assert (qa <= B32 \/ qa = B32 + 1) as [?| ->] by lia; nia).
  assert (Hn : (qa - 2) * cl <= (B32 - 1) * (B32 - 1)) by nia.
  assert (0 <= (qa + 1) * cl) by (apply Z.mul_nonneg_nonneg; lia).
  assert (0 <= ch * qa) by (apply Z.mul_nonneg_nonneg; lia).
  assert (0 <= h) by lia.
  unfold isu64. splits; try lia.
  assert (qa <= B32 \/ qa = B32 + 1) as [?| ->] by lia; [|lia].
  assert (ch * qa <= ch * B32) by (apply Z.mul_le_mono_nonneg_l; lia). lia.
Qed.

(** The upper half: [ph:pl] starts as [qa * d * 2^32]. *)
Lemma upper_half rh rl :
  0 <= rh < d -> isu64 rl ->
  let qa := rh / ch in
  let pl := u64 (cl * qa) in
  let '(qa', ph', pl') :=
    div_adjust 3 qa (u64 (u64 (ch * qa) + HIGH pl)) (L2H pl) rh rl ch (L2H cl) in
  isu64 ph' /\ isu64 pl' /\ ph' * B64 + pl' = qa' * d * B32 /\ 0 <= qa' < B32 /\
  qa' * d * B32 <= rh * B64 + rl < (qa' + 1) * d * B32.
Proof.
  intros Hr Hl qa pl. pose proof ch_range. pose proof cl_range. pose proof d_split as E.
  destruct (trial_quotient rh Hr) as (Q1 & Q2 & Q3 & Q4 & Q5 & Q6). fold qa in Q1, Q2, Q3, Q4, Q5, Q6.
  unfold pl. rewrite (u64_id (cl * qa)), (u64_id (ch * qa)), (u64_id (_ + _)) by done.
  rewrite (L2H_mod (cl * qa)), (L2H_mod cl), (Z.mod_small cl) by (try done; unfold isu64; lia).
  assert (ED : ch * B64 + cl * B32 = d * B32) by lia.
  assert (EP : (ch * qa + HIGH (cl * qa)) * B64 + (cl * qa) mod B32 * B32 = qa * (d * B32)).
  { pose proof (LOW_HIGH (cl * qa)) as LH. rewrite LOW_mod in LH.
    replace (qa * (d * B32)) with (ch * qa * B64 + (cl * qa) * B32) by (rewrite E; ring). lia. }
  pose proof (div_adjust_spec 3 qa (ch * qa + HIGH (cl * qa)) ((cl * qa) mod B32 * B32)
                rh rl ch (cl * B32)) as A. cbn zeta in A. rewrite ED in A.
  destruct (div_adjust _ _ _ _ _ _ _ _) as [[qa' ph'] pl'].
  assert (isu64 ((cl * qa) mod B32 * B32)) by wint.
  change (Z.of_nat 3) with 3 in A.
  destruct A as (A1 & A2 & A3 & A4 & A5); try done; try (unfold isu64 in *; lia).
  assert (qa' < B32) by (apply (Z.mul_lt_mono_pos_r d); unfold isu64 in *; lia).
  splits; try done; unfold isu64 in *; lia.
Qed.

(** The lower half: [ph:pl] starts as [qa * d]. *)
Lemma lower_half rh rl :
  isu64 rh -> isu64 rl -> rh * B64 + rl < d * B32 ->
  let qa := Z.lor (L2H rh) (HIGH rl) / ch in
  let pl := u64 (cl * qa) in
  let ph := u64 (u64 (ch * qa) + HIGH pl) in
  let '(qa', ph', pl') :=
    div_adjust 3 qa (HIGH ph) (Z.lor (LOW pl) (L2H (LOW ph))) rh rl 0 d in
  isu64 pl' /\ ph' * B64 + pl' = qa' * d /\ 0 <= qa' < B32 /\
  qa' * d <= rh * B64 + rl < (qa' + 1) * d.
Proof.
  intros Hr Hl Hlt qa pl ph. pose proof ch_range. pose proof cl_range. pose proof d_split as E.
  assert (Hrs : rh < B32) by (unfold isu64 in *; lia).
  assert (Ex : Z.lor (L2H rh) (HIGH rl) = rh * B32 + HIGH rl).
  { rewrite L2H_mod, Z.mod_small by (try done; unfold isu64 in *; lia).
    rewrite Z.lor_comm. rewrite (lor_disjoint_add _ _ 32); [lia|lia|].
    apply HIGH_range. done. }
  pose proof (LOW_HIGH rl) as LHr. pose proof (LOW_range rl) as LRr.
  set (x := rh * B32 + HIGH rl) in *.
  assert (Hx : 0 <= x < d) by (pose proof (HIGH_range rl Hl); unfold isu64 in *; lia).
  destruct (trial_quotient x Hx) as (Q1 & Q2 & Q3 & Q4 & Q5 & Q6).
  assert (Eq : qa = x / ch) by (unfold qa; rewrite Ex; done).
  rewrite <- Eq in Q1, Q2, Q3, Q4, Q5, Q6.
  unfold ph, pl. rewrite (u64_id (cl * qa)), (u64_id (ch * qa)), (u64_id (_ + _)) by done.
  set (p1 := ch * qa + HIGH (cl * qa)) in *.
  rewrite (L2H_mod (LOW p1)) by (pose proof (LOW_range p1); unfold isu64; lia).
  rewrite (Z.mod_small (LOW p1)) by apply LOW_range.
  rewrite (lor_disjoint_add _ _ 32) by (try lia; apply LOW_range). change (2 ^ 32) with B32.
  pose proof (LOW_range p1) as R1. pose proof (HIGH_range p1 Q4) as R2.
  pose proof (LOW_HIGH p1) as LH1.
  pose proof (LOW_range (cl * qa)) as R3. pose proof (LOW_HIGH (cl * qa)) as LH2.
  assert (EP : HIGH p1 * B64 + (LOW (cl * qa) + LOW p1 * B32) = qa * d).
  { replace (qa * d) with (ch * qa * B32 + cl * qa) by (rewrite E; ring). unfold p1 in *. lia. }
  clearbody p1.
  pose proof (div_adjust_spec 3 qa (HIGH p1) (LOW (cl * qa) + LOW p1 * B32) rh rl 0 d) as A.
  cbn zeta in A. rewrite Z.mul_0_l, Z.add_0_l in A.
  destruct (div_adjust _ _ _ _ _ _ _ _) as [[qa' ph'] pl'].
  change (Z.of_nat 3) with 3 in A.
  destruct A as (A1 & A2 & A3 & A4 & A5); try done; try (unfold isu64 in *; lia).
  assert (qa' < B32) by (apply (Z.mul_lt_mono_pos_r d); unfold isu64 in *; lia).
  splits; try done; unfold isu64 in *; lia.
Qed.

Lemma BnnDivideDigit_body_spec m qq rh rl :
  wfm m -> 0 <= rh < d -> isu64 rl ->
  let '(m', r) := BnnDivideDigit_body m qq d ch cl rh rl in
  wfm m' /\ frame m m' (qq - 1) 1 /\ 0 <= r < d /\
  ld m' (qq - 1) * d + r = rh * B64 + rl.
Proof.
  intros Hm Hr Hl. unfold BnnDivideDigit_body.
  pose proof (upper_half rh rl Hr Hl) as U. cbn zeta in U.
  destruct (div_adjust 3 (rh / ch) _ _ _ _ _ _) as [[q1 ph] pl].
  destruct U as (U1 & U2 & U3 & U4 & U5).
  pose proof (SUB_spec rh rl ph pl) as HS. destruct (SUB rh rl ph pl) as [rh1 rl1].
  destruct HS as (S1 & S2 & S3); try done; [unfold isu64; lia|lia|].
  pose proof (lower_half rh1 rl1 S1 S2 ltac:(lia)) as L. cbn zeta in L.
  destruct (div_adjust 3 _ _ _ rh1 rl1 0 d) as [[q2 ph2] pl2].
  destruct L as (L2 & L3 & L4 & L5).
  assert (EL : L2H q1 = q1 * B32) by (rewrite L2H_mod, Z.mod_small; unfold isu64; lia).
  rewrite EL, ld_st_eq, st_st_eq, Z.lor_comm, (lor_disjoint_add _ _ 32) by lia.
  change (2 ^ 32) with B32.
  assert (Er : u64 (rl1 - pl2) = rh1 * B64 + rl1 - q2 * d).
  { unfold isu64 in *. unfold u64.
    symmetry. apply Z.mod_unique_pos with (q := ph2 - rh1); lia. }
  rewrite Er. splits; [|apply frame_st; lia|lia|lia|].
  - apply wfm_st; [done|]. unfold isu64. lia.
  - rewrite ld_st_eq. lia.
Qed.

Lemma BnnDivideDigit_loop_spec n m nn qq rl :
  wfm m -> 0 <= rl < d ->
  qq <= nn - Z.of_nat n \/ nn <= qq ->
  let '(m', r) := BnnDivideDigit_loop n m nn qq d ch cl rl in
  wfm m' /\ frame m m' (qq - Z.of_nat n) (Z.of_nat n) /\ 0 <= r < d /\
  bnval m' (qq - Z.of_nat n) n * d + r = rl * BBase n + bnval m (nn - Z.of_nat n) n.
Proof.
  revert m nn qq rl. induction n as [|n IH]; intros m nn qq rl Hm Hr Ho.
  - rewrite BBase_0. cbn [BnnDivideDigit_loop bnval]. splits; auto with mem; lia.
  - cbn [BnnDivideDigit_loop].
    pose proof (BnnDivideDigit_body_spec m qq rl (ld m (nn - 1)) Hm Hr (Hm _)) as Hb.
    destruct (BnnDivideDigit_body _ _ _ _ _ _ _) as [m1 r1].
    destruct Hb as (Hm1 & Hf1 & Hr1 & E1).
    specialize (IH m1 (nn - 1) (qq - 1) r1 Hm1 Hr1 ltac:(lia)).
    destruct (BnnDivideDigit_loop _ _ _ _ _ _ _ _) as [m2 r2].
    destruct IH as (Hm2 & Hf2 & Hr2 & E2).
    splits; [done| |lia|lia|].
    + eapply frame_trans; [eapply frame_weaken; [exact Hf1|lia|lia]|].
      eapply frame_weaken; [exact Hf2|lia|lia].
    + rewrite !bnval_snoc, BBase_S.
      replace (qq - Z.of_nat (S n)) with (qq - 1 - Z.of_nat n) by lia.
      replace (nn - Z.of_nat (S n)) with (nn - 1 - Z.of_nat n) by lia.
      replace (qq - 1 - Z.of_nat n + Z.of_nat n) with (qq - 1) by lia.
      replace (nn - 1 - Z.of_nat n + Z.of_nat n) with (nn - 1) by lia.
      rewrite (Hf2 (qq - 1)) by lia.
      rewrite (bnval_frame m m1 _ _ (nn - 1 - Z.of_nat n) n Hf1) in E2 by lia.
      nia.
Qed.
End one_digit.

(** ** Normalizing the dividend and undoing it *)

(** A digit shifted left and its successor determine it. *)
Lemma unshift_digit x y w k :
  isu64 x -> 0 < k < 64 -> 0 <= w < 2 ^ k ->
  y mod 2 ^ k = x / 2 ^ (64 - k) ->
  (u64 (Z.shiftl x k) + w) / 2 ^ k + y mod 2 ^ k * 2 ^ (64 - k) = x.
Proof.
  intros Hx Hk Hw Ey. destruct (shift_split x k Hx Hk) as (E & _ & Hb).
  rewrite Ey. pose proof (pow2_pos k ltac:(lia)). pose proof (pow2_pos (64 - k) ltac:(lia)).
  assert (E64 : B64 = 2 ^ (64 - k) * 2 ^ k).
  { rewrite <- Z.pow_add_r by lia. replace (64 - k + k) with 64 by lia. done. }
  rewrite E, E64.
  replace (x * 2 ^ k - 2 ^ (64 - k) * 2 ^ k * (x / 2 ^ (64 - k)) + w)
    with (w + (x - 2 ^ (64 - k) * (x / 2 ^ (64 - k))) * 2 ^ k) by ring.
  rewrite Z.div_add, (Z.div_small w) by lia. lia.
Qed.

(** The low bits of a shifted digit are the bits carried in. *)
Lemma shifted_low x w k :
  isu64 x -> 0 < k < 64 -> 0 <= w < 2 ^ k -> (u64 (Z.shiftl x k) + w) mod 2 ^ k = w.
Proof.
  intros Hx Hk Hw. destruct (shift_split x k Hx Hk) as (E & _ & _).
  assert (E64 : B64 = 2 ^ (64 - k) * 2 ^ k).
  { rewrite <- Z.pow_add_r by lia. replace (64 - k + k) with 64 by lia. done. }
  rewrite E, E64.
  replace (x * 2 ^ k - 2 ^ (64 - k) * 2 ^ k * (x / 2 ^ (64 - k)) + w)
    with (w + (x - 2 ^ (64 - k) * (x / 2 ^ (64 - k))) * 2 ^ k) by ring.
  pose proof (pow2_pos k ltac:(lia)). rewrite Z.mod_add by lia. apply Z.mod_small. lia.
Qed.

(** Where the memory [m2] still has the shifted digits of [m] at [a] and, unless
    [a] is the top digit, at [a + 1], shifting right restores the digit. *)
Lemma unshift_at m nn n k a (last : bool) y :
  wfm m -> 0 < k < 64 -> nn <= a < nn + Z.of_nat n ->
  (if last then ld m a / 2 ^ (64 - k) = 0
   else a + 1 < nn + Z.of_nat n /\ y = ld (fst (BnnShiftLeft m nn (Z.of_nat n) k)) (a + 1)) ->
  ld (fst (BnnShiftLeft m nn (Z.of_nat n) k)) a / 2 ^ k
    + (if last then 0 else y mod 2 ^ k) * 2 ^ (64 - k) = ld m a.
Proof.
  intros Hm Hk Ha Hlast. rewrite BnnShiftLeft_ld by done.
  replace ((nn <=? a) && (a <? nn + Z.of_nat n)) with true by (zcases; simpl; lia || done).
  assert (Hw : forall b, 0 <= (if b =? nn then 0 else ld m (b - 1) / 2 ^ (64 - k)) < 2 ^ k).
  { intros b. pose proof (pow2_pos k ltac:(lia)). destruct (b =? nn); [lia|].
    apply (shift_split (ld m (b - 1)) k); auto with mem. }
  destruct last.
  - pose proof (unshift_digit (ld m a) 0 _ k (Hm a) Hk (Hw a)) as H.
    rewrite Z.mod_0_l in H by (pose proof (pow2_pos k); lia). apply H. done.
  - destruct Hlast as [Ha1 ->]. apply unshift_digit; auto.
    rewrite BnnShiftLeft_ld by done.
    replace ((nn <=? a + 1) && (a + 1 <? nn + Z.of_nat n)) with true by (zcases; simpl; lia || done).
    replace (a + 1 =? nn) with false by (symmetry; apply Z.eqb_neq; lia).
    replace (a + 1 - 1) with a by lia. apply shifted_low; auto.
    apply (shift_split (ld m a) k); auto.
Qed.

(** Facts about the normalized dividend, for a leading digit below [d]. *)
Lemma normalized_dividend m nn n d k :
  wfm m -> 0 < k < 64 -> 0 < d -> d * 2 ^ k < B64 -> ld m (nn + Z.of_nat n) < d ->
  let m1 := fst (BnnShiftLeft m nn (Z.of_nat (S n)) k) in
  wfm m1 /\ frame m m1 nn (Z.of_nat (S n)) /\
  ld m1 (nn + Z.of_nat n) < d * 2 ^ k /\
  bnval m1 nn (S n) = bnval m nn (S n) * 2 ^ k /\
  ld m (nn + Z.of_nat n) / 2 ^ (64 - k) = 0.
Proof.
  intros Hm Hk Hd Hdk Ht m1.
  pose proof (pow2_pos k ltac:(lia)) as Hp. pose proof (pow2_pos (64 - k) ltac:(lia)) as Hp'.
  assert (E64 : B64 = 2 ^ (64 - k) * 2 ^ k).
  { rewrite <- Z.pow_add_r by lia. replace (64 - k + k) with 64 by lia. done. }
  pose proof (BnnShiftLeft_spec m nn (S n) k Hm ltac:(lia)) as H. unfold m1.
  destruct (BnnShiftLeft m nn (Z.of_nat (S n)) k) as [m' r] eqn:Es.
  destruct H as (Hm' & Hf & Hr & E). cbn [fst].
  assert (Hx : isu64 (ld m (nn + Z.of_nat n))) by apply Hm. unfold isu64 in Hx.
  assert (Hz : ld m (nn + Z.of_nat n) / 2 ^ (64 - k) = 0) by (apply Z.div_small; nia).
  pose proof (bnval_bounds m nn n Hm). pose proof (bnval_bounds m' nn (S n) Hm').
  pose proof (BBase_pos n). rewrite BBase_S in *.
  assert (Hlt : bnval m nn (S n) * 2 ^ k < BBase n * (d * 2 ^ k)).
  { rewrite bnval_snoc. assert (bnval m nn n + BBase n * ld m (nn + Z.of_nat n) < BBase n * d) by nia.
    nia. }
  assert (r = 0) by nia. subst r. splits; auto; [|lia].
  assert (bnval m' nn (S n) < BBase n * (d * 2 ^ k)) as Hb by lia.
  rewrite bnval_snoc in Hb. pose proof (bnval_bounds m' nn n Hm'). nia.
Qed.

(** The right shift restores the digits it covers while [m2] still has their
    shifted form; the last one only if it is the top digit of the dividend. *)
Lemma unshift_range m m2 nn n k p j a :
  let m1 := fst (BnnShiftLeft m nn (Z.of_nat (S n)) k) in
  wfm m -> wfm m2 -> 0 < k < 64 -> ld m (nn + Z.of_nat n) / 2 ^ (64 - k) = 0 ->
  nn <= p -> p + Z.of_nat j <= nn + Z.of_nat (S n) ->
  (forall b, p <= b < p + Z.of_nat j -> ld m2 b = ld m1 b) ->
  p <= a < p + Z.of_nat j -> a <> p + Z.of_nat j - 1 \/ a = nn + Z.of_nat n ->
  ld (fst (BnnShiftRight m2 p (Z.of_nat j) k)) a = ld m a.
Proof.
  intros m1 Hm Hm2 Hk Hz Hp1 Hp2 Hb Ha Hlast. rewrite BnnShiftRight_ld by done.
  replace ((p <=? a) && (a <? p + Z.of_nat j)) with true by (zcases; simpl; lia || done).
  rewrite (Hb a Ha).
  destruct (Z.eqb_spec a (p + Z.of_nat j - 1)) as [Ea|Ea].
  - apply (unshift_at m nn (S n) k a true 0); auto; try lia.
    replace a with (nn + Z.of_nat n) by lia. done.
  - apply (unshift_at m nn (S n) k a false (ld m2 (a + 1))); auto; try lia.
    split; [lia|]. apply Hb. lia.
Qed.

Lemma BnnShiftRight_out m p j k a :
  wfm m -> 0 < k < 64 -> a < p \/ p + Z.of_nat j <= a ->
  ld (fst (BnnShiftRight m p (Z.of_nat j) k)) a = ld m a.
Proof. intros. rewrite BnnShiftRight_ld by done. zcases; simpl; lia || done. Qed.

Lemma BnnShiftRight_wfm m p j k :
  wfm m -> 0 < k < 64 -> wfm (fst (BnnShiftRight m p (Z.of_nat j) k)).
Proof.
  intros Hm Hk. pose proof (BnnShiftRight_spec m p j k Hm Hk) as H.
  destruct (BnnShiftRight m p _ k). apply H.
Qed.

(** The dividend is as it was outside the quotient, whatever the overlap. *)
Lemma denormalize_spec m m2 qq nn n k :
  let m1 := fst (BnnShiftLeft m nn (Z.of_nat (S n)) k) in
  let m' := BnnDivideDigit_denormalize m2 qq nn (Z.of_nat (S n)) k (ld m (qq - 1)) in
  wfm m -> wfm m2 -> 0 < k < 64 -> ld m (nn + Z.of_nat n) / 2 ^ (64 - k) = 0 ->
  frame m m1 nn (Z.of_nat (S n)) -> frame m1 m2 qq (Z.of_nat n) ->
  qq + Z.of_nat n <= nn \/ nn <= qq ->
  wfm m' /\ frame m m' qq (Z.of_nat n) /\
  forall a, qq <= a < qq + Z.of_nat n -> ld m' a = ld m2 a.
Proof.
  intros m1 m' Hm Hm2 Hk Hz Hf1 Hf2 Ho. unfold m', BnnDivideDigit_denormalize.
  destruct (Z.eqb_spec k 0); [lia|].
  assert (Hin : forall p j a, nn <= p -> p + Z.of_nat j <= nn + Z.of_nat (S n) ->
    p + Z.of_nat j <= qq \/ qq + Z.of_nat n <= p ->
    p <= a < p + Z.of_nat j -> a <> p + Z.of_nat j - 1 \/ a = nn + Z.of_nat n ->
    ld (fst (BnnShiftRight m2 p (Z.of_nat j) k)) a = ld m a).
  { intros. apply (unshift_range m m2 nn n k p j a); auto. intros. apply Hf2. lia. }
  assert (Hout : forall p j a, a < p \/ p + Z.of_nat j <= a ->
    a < nn \/ nn + Z.of_nat (S n) <= a -> a < qq \/ qq + Z.of_nat n <= a ->
    ld (fst (BnnShiftRight m2 p (Z.of_nat j) k)) a = ld m a).
  { intros. rewrite BnnShiftRight_out by done. rewrite Hf2, Hf1 by lia. done. }
  assert (Hq : forall p j a, p + Z.of_nat j <= qq \/ qq + Z.of_nat n <= p ->
    qq <= a < qq + Z.of_nat n -> ld (fst (BnnShiftRight m2 p (Z.of_nat j) k)) a = ld m2 a).
  { intros. apply BnnShiftRight_out; auto; lia. }
  destruct (Z.ltb_spec nn qq), (Z.ltb_spec qq (nn + Z.of_nat (S n))); cbn [andb].
  - (* the quotient overlaps the dividend from above *)
    set (j := Z.to_nat (qq - nn)). replace (qq - nn) with (Z.of_nat j) by lia.
    replace (nn + Z.of_nat j - 1) with (qq - 1) by lia. splits.
    + apply wfm_st; [by apply BnnShiftRight_wfm|apply Hm].
    + intros a Ha. rewrite ld_st. destruct (Z.eqb_spec (qq - 1) a) as [<-|]; [done|].
      assert (a < nn \/ nn <= a < qq - 1 \/ nn + Z.of_nat n <= a) as [|[|]] by lia;
        [apply Hout; lia|apply Hin; lia|].
      assert (a = nn + Z.of_nat n \/ nn + Z.of_nat (S n) <= a) as [->|] by lia; [lia|].
      apply Hout; lia.
    + intros a Ha. rewrite ld_st_ne by lia. apply Hq; lia.
  - destruct (Z.eqb_spec qq nn); [lia|]. splits; [by apply BnnShiftRight_wfm| |].
    + intros a Ha. assert (a < nn \/ nn <= a < nn + Z.of_nat (S n) \/ nn + Z.of_nat (S n) <= a)
        as [|[|]] by lia; [apply Hout; lia|apply Hin; lia|apply Hout; lia].
    + intros a Ha. apply Hq; lia.
  - destruct (Z.eqb_spec qq nn) as [->|].
    + change 1 with (Z.of_nat 1). splits; [by apply BnnShiftRight_wfm| |].
      * intros a Ha. assert (a = nn + Z.of_nat (S n) - 1 \/ a <> nn + Z.of_nat (S n) - 1)
          as [->|] by lia; [apply Hin; lia|apply Hout; lia].
      * intros a Ha. apply Hq; lia.
    + splits; [by apply BnnShiftRight_wfm| |].
      * intros a Ha. assert (a < nn \/ nn <= a < nn + Z.of_nat (S n) \/ nn + Z.of_nat (S n) <= a)
          as [|[|]] by lia; [apply Hout; lia|apply Hin; lia|apply Hout; lia].
      * intros a Ha. apply Hq; lia.
  - lia.
Qed.

Lemma BnnDivideDigit_spec m qq nn n d :
  wfm m -> 0 < d < B64 -> ld m (nn + Z.of_nat n) < d ->
  qq + Z.of_nat n <= nn \/ nn <= qq ->
  let '(m', r) := BnnDivideDigit m qq nn (Z.of_nat (S n)) d in
  wfm m' /\ frame m m' qq (Z.of_nat n) /\ 0 <= r < d /\
  bnval m' qq n * d + r = bnval m nn (S n).
Proof.
  intros Hm Hd Ht Ho. unfold BnnDivideDigit.
  destruct (BnnNumLeadingZeroBitsInDigit_spec d Hd) as [Hk Hn].
  set (k := BnnNumLeadingZeroBitsInDigit d) in *. clearbody k.
  replace (Z.of_nat (S n) - 1) with (Z.of_nat n) by lia.
  replace (nn + Z.of_nat (S n) - 1) with (nn + Z.of_nat n) by lia. rewrite Nat2Z.id.
  pose proof (Hm (nn + Z.of_nat n)) as Hx. unfold isu64 in Hx.
  destruct (Z.eqb_spec k 0) as [->|Hk0].
  - rewrite Z.mul_1_r in Hn.
    pose proof (BnnDivideDigit_loop_spec d Hn n m (nn + Z.of_nat n) (qq + Z.of_nat n)
                  (ld m (nn + Z.of_nat n)) Hm ltac:(lia) ltac:(lia)) as H.
    destruct (BnnDivideDigit_loop _ _ _ _ _ _ _ _) as [m2 r].
    destruct H as (Hm2 & Hf & Hr & E). cbn [BnnDivideDigit_denormalize Z.eqb].
    rewrite Z.shiftr_0_r, bnval_snoc.
    replace (qq + Z.of_nat n - Z.of_nat n) with qq in * by lia.
    replace (nn + Z.of_nat n - Z.of_nat n) with nn in * by lia.
    splits; auto; lia.
  - destruct (normalized_dividend m nn n d k Hm ltac:(lia) ltac:(lia) ltac:(lia) Ht)
      as (Hm1 & Hf1 & Ht1 & E1 & Hz).
    set (m1 := fst (BnnShiftLeft m nn (Z.of_nat (S n)) k)) in *.
    rewrite Z.shiftl_mul_pow2, u64_id by (unfold isu64; lia).
    pose proof (Hm1 (nn + Z.of_nat n)) as Hx1. unfold isu64 in Hx1.
    pose proof (BnnDivideDigit_loop_spec (d * 2 ^ k) ltac:(lia) n m1 (nn + Z.of_nat n)
                  (qq + Z.of_nat n) (ld m1 (nn + Z.of_nat n)) Hm1 ltac:(lia) ltac:(lia)) as H.
    destruct (BnnDivideDigit_loop _ _ _ _ _ _ _ _) as [m2 r].
    destruct H as (Hm2 & Hf2 & Hr & E2).
    replace (qq + Z.of_nat n - Z.of_nat n) with qq in * by lia.
    replace (nn + Z.of_nat n - Z.of_nat n) with nn in * by lia.
    rewrite bnval_snoc in E1.
    destruct (denormalize_spec m m2 qq nn n k) as (F1 & F2 & F3); auto; [lia|].
    pose proof (pow2_pos k ltac:(lia)) as Hp.
    assert (Er : r = (bnval m nn (S n) - bnval m2 qq n * d) * 2 ^ k) by lia.
    rewrite (bnval_ext m2 _ qq n) by done.
    rewrite Z.shiftr_div_pow2, Er, Z.div_mul by lia. splits; auto; nia.
Qed.

(** Division by one digit, with the quotient apart from the dividend or over
    it (from its own address or above): quotient and remainder are exact, and
    the dividend is restored wherever the quotient does not cover it, although
    the code shifts it in place. *)
Theorem BnnDivideDigit_correct m qq nn n d :
  wfm m -> 0 < d < B64 -> ld m (nn + Z.of_nat n) < d ->
  qq + Z.of_nat n <= nn \/ nn <= qq ->
  let '(m', r) := BnnDivideDigit m qq nn (Z.of_nat (S n)) d in
  bnval m' qq n = bnval m nn (S n) / d /\ r = bnval m nn (S n) mod d /\
  frame m m' qq (Z.of_nat n).
Proof.
  intros Hm Hd Ht Ho. pose proof (BnnDivideDigit_spec m qq nn n d Hm Hd Ht Ho) as H.
  destruct (BnnDivideDigit _ _ _ _ _) as [m' r]. destruct H as (_ & Hf & Hr & E). splits; [| |done].
  - apply Z.div_unique_pos with (r := r); lia.
  - apply Z.mod_unique_pos with (q := bnval m' qq n); lia.
Qed.

Lemma BnnDivideDigit_correct_witness :
  let '(m', r) := BnnDivideDigit division_example 1 0 (Z.of_nat 3) 10 in
  bnval m' 1 2 = bnval division_example 0 3 / 10 /\ r = bnval division_example 0 3 mod 10 /\
  frame division_example m' 1 (Z.of_nat 2).
Proof.
  apply (BnnDivideDigit_correct division_example 1 0 2 10).
  - apply division_example_wf.
  - lia.
  - vm_compute. reflexivity.
  - lia.
Defined.

