(* ===== verification/Bn.v ===== *)
(** * Big numbers: comparison, multiplication and long division

    Models [otherlibs/num/bignum/c/bn/bnCmp.c], [bnMult.c] and [bnDivide.c],
    written on top of the kernel.  Multiplication includes the special squaring
    loop.  Long division works in place, on the complement of the divisor, and
    corrects a trial quotient digit at most twice; its correction loop is given
    three rounds.  The locals of [divide] whose address is taken live at [fp]. *)

From S2P Require Import Prelude KerN KerNDiv.

(** ** Comparison *)

Definition BnnIsZero (m : mem) (nn nl : Z) : bool :=
  (BnnNumDigits m nn nl =? 1) && ((nl =? 0) || BnnIsDigitZero (ld m nn)).

(** [while (result == BN_EQ && ml-- > 0) result = ...] *)
Fixpoint BnnCompare_loop (ml : nat) (m : mem) (mm nn : Z) : Z :=
  match ml with
  | O => BN_EQ
  | S ml =>
      let result := BnnCompareDigits (ld m (mm + Z.of_nat ml)) (ld m (nn + Z.of_nat ml)) in
      if result =? BN_EQ then BnnCompare_loop ml m mm nn else result
  end.

Definition BnnCompare (m : mem) (mm ml nn nl : Z) : Z :=
  let ml := BnnNumDigits m mm ml in
  let nl := BnnNumDigits m nn nl in
  if negb (ml =? nl) then (if nl <? ml then BN_GT else BN_LT)
  else BnnCompare_loop (Z.to_nat ml) m mm nn.

(** ** Multiplication *)

Fixpoint BnnMultiply_loop (nl : nat) (m : mem) (pp pl mm ml nn c : Z) : mem * Z :=
  match nl with
  | O => (m, c)
  | S nl =>
      let '(m, c1) := BnnMultiplyDigit m pp pl mm ml (ld m nn) in
      BnnMultiply_loop nl m (pp + 1) (u64 (pl - 1)) mm ml (nn + 1) (u64 (c + c1))
  end.

(** The squaring loop: [n_prev] is the bit doubling the previous digit lost. *)
Fixpoint BnnSquare_loop (nl : nat) (m : mem) (pp pl nn n_prev c : Z) : mem * Z :=
  match nl with
  | O => (m, c)
  | S nl =>
      let n := ld m nn in
      let '(m, c1) := BnnMultiplyDigit m pp pl nn 1 n in
      let c := u64 (c + c1) in
      let '(m, c) :=
        if n_prev =? 0 then (m, c)
        else let '(m, c2) := BnnAdd m pp pl nn 1 0 in (m, u64 (c + c2)) in
      let nn := nn + 1 in
      let pp := pp + 2 in
      let pl := u64 (pl - 2) in
      let '(m, c3) :=
        BnnMultiplyDigit m (pp - 1) (u64 (pl + 1)) nn (Z.of_nat nl) (u64 (n + n + n_prev)) in
      BnnSquare_loop nl m pp pl nn (if s64 n <? 0 then 1 else 0) (u64 (c + c3))
  end.

Definition BnnMultiply (m : mem) (pp pl mm ml nn nl : Z) : mem * Z :=
  if (mm =? nn) && (ml =? nl) && (6 <? nl)
  then BnnSquare_loop (Z.to_nat nl) m pp pl nn 0 0
  else BnnMultiply_loop (Z.to_nat nl) m pp pl mm ml nn 0.

(** ** Division *)

(** The addresses of [divide]'s locals. *)
Definition DDigit (fp : Z) : Z := fp.
Definition BaseMinus1 (fp : Z) : Z := fp + 1.
Definition QApp (fp : Z) : Z := fp + 2.

(** [while (BnnCompareDigits ( *(nn+nl), QApp) != BN_EQ) { ... }] *)
Fixpoint divide_correct (fuel : nat) (m : mem) (fp nn nl ni dd dl : Z) : mem :=
  match fuel with
  | O => m
  | S fuel =>
      if BnnCompareDigits (ld m (nn + nl)) (ld m (QApp fp)) =? BN_EQ then m
      else
        let m := fst (BnnSubtract m (nn + ni) (u64 (dl + 1)) dd dl 1) in
        let m := fst (BnnSubtractBorrow m (QApp fp) 1 0) in
        divide_correct fuel m fp nn nl ni dd dl
  end.

(** [Compute the approximate quotient] *)
Definition divide_trial (m : mem) (fp nn nl : Z) : mem :=
  if BnnCompareDigits (ld m (nn + nl)) (ld m (DDigit fp)) =? BN_EQ
  then BnnAssign m (QApp fp) (BaseMinus1 fp) 1
  else fst (BnnDivideDigit m (QApp fp) (nn + nl - 1) 2 (ld m (DDigit fp))).

(** The body of [while (--ni >= 0)], with [ni] and [nl] already decremented. *)
Definition divide_body (m : mem) (fp nn nl ni dd dl : Z) : mem :=
  let m := divide_trial m fp nn nl in
  let m := fst (BnnMultiplyDigit m (nn + ni) (u64 (dl + 1)) dd dl (ld m (QApp fp))) in
  divide_correct 3 m fp nn nl ni dd dl.

Fixpoint divide_loop (ni : nat) (m : mem) (fp nn nl dd dl : Z) : mem :=
  match ni with
  | O => m
  | S ni =>
      let nl := nl - 1 in
      let m := divide_body m fp nn nl (Z.of_nat ni) dd dl in
      divide_loop ni m fp nn nl dd dl
  end.

Definition divide (m : mem) (fp nn nl dd dl : Z) : mem :=
  let m := BnnSetDigit m (BaseMinus1 fp) 0 in
  let m := BnnComplement m (BaseMinus1 fp) 1 in
  let m := BnnAssign m (DDigit fp) (dd + dl - 1) 1 in
  let m := BnnComplement m dd dl in
  let m := fst (BnnAddCarry m dd dl 1) in
  let nl := u64 (nl + 1) in
  let ni := s32 (u64 (nl - dl)) in
  let m := divide_loop (Z.to_nat ni) m fp nn nl dd dl in
  let m := BnnComplement m dd dl in
  fst (BnnAddCarry m dd dl 1).

Definition BnnDivide (m : mem) (fp nn nl dd dl : Z) : mem :=
  let cmp := BnnCompare m nn nl dd dl in
  if cmp =? BN_LT then BnnSetToZero m (nn + dl) (u64 (nl - dl))
  else if cmp =? BN_EQ then
    let m := BnnSetToZero m nn nl in
    BnnSetDigit m (nn + dl) 1
  else if dl =? 1 then
    let '(m, r) := BnnDivideDigit m (nn + 1) nn nl (ld m dd) in
    st m nn r
  else
    let nshift := BnnNumLeadingZeroBitsInDigit (ld m (dd + dl - 1)) in
    let m := fst (BnnShiftLeft m dd dl nshift) in
    let m := fst (BnnShiftLeft m nn nl nshift) in
    let m := divide m fp nn (u64 (nl - 1)) dd dl in
    let m := fst (BnnShiftRight m dd dl nshift) in
    fst (BnnShiftRight m nn dl nshift).

(** A run: [0x1_0000000000000005 * 2^64 + 7] divided by [3 * 2^64 + 1]. *)
Example divide_run :
  let m := st (st (st (st ∅ 0 7) 1 5) 2 1) 3 0 in
  let m := st (st m 10 1) 11 3 in
  let m' := BnnDivide m 20 0 4 10 2 in
  (bnval m' 2 2, bnval m' 0 2) =
  (bnval m 0 4 / bnval m 10 2, bnval m 0 4 mod bnval m 10 2).
Proof. vm_compute. reflexivity. Qed.

(** ** Comparison decides the order of the values *)

Definition cmp_of (a b : Z) : Z := if b <? a then BN_GT else if a =? b then BN_EQ else BN_LT.

Lemma BnnNumDigits_spec m p n :
  wfm m -> (0 < n)%nat ->
  exists k, BnnNumDigits m p (Z.of_nat n) = Z.of_nat k /\ (0 < k <= n)%nat /\
    bnval m p n = bnval m p k /\ (k = 1%nat \/ BBase (k - 1) <= bnval m p k).
Proof.
  intros Hm Hn. unfold BnnNumDigits. rewrite Nat2Z.id.
  destruct (BnnNumDigits_loop_spec m p n) as [E Hnz].
  pose proof (BnnNumDigits_loop_le m (p + Z.of_nat n) n) as Hle.
  set (k := BnnNumDigits_loop m (p + Z.of_nat n) n) in *. clearbody k.
  destruct (Z.eqb_spec (Z.of_nat k) 0).
  - exists 1%nat. replace k with O in * by lia. splits; try lia; auto.
    rewrite E. rewrite bnval_1. destruct n; [lia|].
    cbn [bnval] in E. pose proof (Hm p). pose proof (bnval_bounds m (p + 1) n Hm).
    unfold isu64 in *. simpl. lia.
  - exists k. splits; try lia. right.
    destruct k as [|k]; [lia|]. rewrite bnval_snoc. replace (S k - 1)%nat with k by lia.
    specialize (Hnz ltac:(lia)). replace (p + Z.of_nat (S k) - 1) with (p + Z.of_nat k) in Hnz by lia.
    pose proof (Hm (p + Z.of_nat k)). pose proof (bnval_bounds m p k Hm). pose proof (BBase_pos k).
    unfold isu64 in *. nia.
Qed.

Lemma BnnCompare_loop_spec n m mm nn :
  wfm m -> BnnCompare_loop n m mm nn = cmp_of (bnval m mm n) (bnval m nn n).
Proof.
  intros Hm. induction n as [|n IH]; [done|].
  cbn [BnnCompare_loop]. rewrite !bnval_snoc.
  pose proof (bnval_bounds m mm n Hm). pose proof (bnval_bounds m nn n Hm).
  pose proof (Hm (mm + Z.of_nat n)). pose proof (Hm (nn + Z.of_nat n)).
  unfold BnnCompareDigits, cmp_of, isu64 in *.
  set (a := ld m (mm + Z.of_nat n)) in *. set (b := ld m (nn + Z.of_nat n)) in *.
  destruct (Z.ltb_spec b a); [|destruct (Z.eqb_spec a b) as [->|]]; cbn [Z.eqb BN_GT BN_EQ BN_LT].
  - zcases; try done; nia.
  - rewrite IH. zcases; try done; lia.
  - zcases; try done; nia.
Qed.

Lemma BBase_le a b : (a <= b)%nat -> BBase a <= BBase b.
Proof. intros. apply Z.pow_le_mono_r; lia. Qed.

Lemma BnnCompare_spec m mm ml nn nl :
  wfm m -> (0 < ml)%nat -> (0 < nl)%nat ->
  BnnCompare m mm (Z.of_nat ml) nn (Z.of_nat nl) = cmp_of (bnval m mm ml) (bnval m nn nl).
Proof.
  intros Hm Hml Hnl. unfold BnnCompare.
  destruct (BnnNumDigits_spec m mm ml Hm Hml) as (k & -> & Hk & -> & Hk').
  destruct (BnnNumDigits_spec m nn nl Hm Hnl) as (j & -> & Hj & -> & Hj').
  pose proof (bnval_bounds m mm k Hm). pose proof (bnval_bounds m nn j Hm).
  destruct (Z.eqb_spec (Z.of_nat k) (Z.of_nat j)) as [E|E]; cbn [negb].
  - replace j with k by lia. rewrite Nat2Z.id. by apply BnnCompare_loop_spec.
  - unfold cmp_of. destruct (Z.ltb_spec (Z.of_nat j) (Z.of_nat k)).
    + pose proof (BBase_le j (k - 1) ltac:(lia)). destruct Hk'; [lia|]. zcases; try done; lia.
    + pose proof (BBase_le k (j - 1) ltac:(lia)). destruct Hj'; [lia|]. zcases; try done; lia.
Qed.

(** ** Multiplication *)

Lemma BnnMultiply_loop_spec n m pp pl mm ml nn c :
  wfm m -> (ml + n <= pl)%nat -> Z.of_nat pl < B64 -> 0 <= c -> c + Z.of_nat n < B64 ->
  pp + Z.of_nat pl <= mm \/ mm + Z.of_nat ml <= pp ->
  pp + Z.of_nat pl <= nn \/ nn + Z.of_nat n <= pp ->
  let '(m', c') := BnnMultiply_loop n m pp (Z.of_nat pl) mm (Z.of_nat ml) nn c in
  wfm m' /\ frame m m' pp (Z.of_nat pl) /\ 
  bnval m' pp pl + c' * BBase pl = bnval m pp pl + bnval m mm ml * bnval m nn n + c * BBase pl.
Proof.
  revert m pp pl nn c. induction n as [|n IH]; intros m pp pl nn c Hm Hl Hb Hc0 Hc Hd1 Hd2.
  - cbn [BnnMultiply_loop bnval]. splits; auto with mem. lia.
  - cbn [BnnMultiply_loop].
    pose proof (BnnMultiplyDigit_spec m pp pl mm ml (ld m nn) Hm ltac:(lia) Hb (Hm _)) as H.
    destruct (BnnMultiplyDigit _ _ _ _ _ _) as [m1 c1].
    destruct H as (Hm1 & Hf1 & Hc1 & E1); [unfold reads_ahead; lia|].
    destruct pl as [|pl]; [lia|].
    replace (Z.of_nat (S pl) - 1) with (Z.of_nat pl) by lia.
    rewrite (u64_id (Z.of_nat pl)), (u64_id (c + c1)) by (unfold isu64; lia).
    specialize (IH m1 (pp + 1) pl (nn + 1) (c + c1) Hm1 ltac:(lia) ltac:(lia) ltac:(lia)
                  ltac:(lia) ltac:(lia) ltac:(lia)).
    destruct (BnnMultiply_loop _ _ _ _ _ _ _ _) as [m2 c2]. destruct IH as (Hm2 & Hf2 & E2).
    splits; [done| |].
    + eapply frame_trans; [exact Hf1|]. eapply frame_weaken; [exact Hf2|lia|lia].
    + rewrite (bnval_frame m m1 _ _ mm ml Hf1), (bnval_frame m m1 _ _ (nn + 1) n Hf1) in E2 by lia.
      rewrite BBase_S in *. cbn [bnval] in E1 |- *. rewrite (Hf2 pp) by lia.
      transitivity (ld m1 pp + B64 * (bnval m2 (pp + 1) pl + c2 * BBase pl)); [ring|].
      rewrite E2.
      transitivity (ld m1 pp + B64 * bnval m1 (pp + 1) pl + c1 * (B64 * BBase pl)
                    + B64 * (bnval m mm ml * bnval m (nn + 1) n) + c * (B64 * BBase pl)); [ring|].
      rewrite E1. ring.
Qed.

(** Doubling a digit and adding the lost bit of the previous one. *)
Lemma double_digit n prev :
  isu64 n -> 0 <= prev <= 1 ->
  2 * n + prev = u64 (n + n + prev) + (if s64 n <? 0 then 1 else 0) * B64.
Proof. intros. destruct (Z.ltb_spec (s64 n) 0); wint. Qed.

Lemma BnnSquare_loop_spec n m pp pl nn prev c :
  wfm m -> (2 * n <= pl)%nat -> Z.of_nat pl < B64 -> 0 <= prev <= 1 ->
  0 <= c -> c + 3 * Z.of_nat n < B64 ->
  pp + Z.of_nat pl <= nn \/ nn + Z.of_nat n <= pp ->
  let '(m', c') := BnnSquare_loop n m pp (Z.of_nat pl) nn prev c in
  wfm m' /\ frame m m' pp (Z.of_nat pl) /\
  bnval m' pp pl + c' * BBase pl =
  bnval m pp pl + bnval m nn n * bnval m nn n + prev * bnval m nn n + c * BBase pl.
Proof.
  revert m pp pl nn prev c.
  induction n as [|n IH]; intros m pp pl nn prev c Hm Hl Hb Hpr Hc0 Hc Hd.
  { cbn [BnnSquare_loop bnval]. splits; auto with mem. lia. }
  cbn [BnnSquare_loop]. set (d := ld m nn).
  pose proof (BnnMultiplyDigit_spec m pp pl nn 1 d Hm ltac:(lia) Hb (Hm _)) as H.
  change (Z.of_nat 1) with 1 in H.
  destruct (BnnMultiplyDigit m pp _ nn 1 d) as [m1 c1].
  destruct H as (Hm1 & Hf1 & Hc1 & E1); [unfold reads_ahead; lia|].
  rewrite (u64_id (c + c1)) by (unfold isu64; lia).
  destruct (if prev =? 0 then (m1, c + c1) else _) as [m2 c2] eqn:Es.
  assert (H2 : wfm m2 /\ frame m m2 pp (Z.of_nat pl) /\ 0 <= c2 <= c + 2 /\
    bnval m2 pp pl + c2 * BBase pl = bnval m pp pl + d * d + prev * d + c * BBase pl).
  { rewrite bnval_1 in E1. fold d in E1.
    destruct (Z.eqb_spec prev 0) as [->|].
    - simplify_eq. splits; auto; lia.
    - pose proof (BnnAdd_spec m1 pp pl nn 1 0 Hm1 ltac:(lia) Hb ltac:(lia)) as HA.
      change (Z.of_nat 1) with 1 in HA. destruct (BnnAdd m1 pp _ nn 1 0) as [m3 c3].
      rewrite (u64_id (c + c1 + c3)) in Es.
      2:{ destruct HA as (_ & _ & ? & _); [unfold reads_ahead; lia|]. unfold isu64; lia. }
      simplify_eq. destruct HA as (Hm3 & Hf3 & Hc3 & E3); [unfold reads_ahead; lia|].
      rewrite bnval_1, (Hf1 nn) in E3 by lia. fold d in E3.
      replace prev with 1 by lia.
      splits; auto; try lia. eapply frame_trans; eauto. }
  clear Es E1 Hm1 Hf1 m1 Hc1. destruct H2 as (Hm2 & Hf2 & Hc2 & E2).
  destruct pl as [|[|pl]]; [lia|lia|].
  replace (Z.of_nat (S (S pl)) - 2) with (Z.of_nat pl) by lia.
  rewrite (u64_id (Z.of_nat pl)) by (unfold isu64; lia).
  replace (Z.of_nat pl + 1) with (Z.of_nat (S pl)) by lia.
  rewrite (u64_id (Z.of_nat (S pl))) by (unfold isu64; lia).
  replace (pp + 2 - 1) with (pp + 1) by lia.
  pose proof (double_digit d prev (Hm _) Hpr) as Ed.
  set (dd := u64 (d + d + prev)) in *. set (h := if s64 d <? 0 then 1 else 0) in *.
  assert (Hh : 0 <= h <= 1) by (unfold h; destruct (_ <? _); lia).
  pose proof (BnnMultiplyDigit_spec m2 (pp + 1) (S pl) (nn + 1) n dd Hm2 ltac:(lia) ltac:(lia)
                (u64_range _)) as HM.
  destruct (BnnMultiplyDigit m2 _ _ _ _ _) as [m3 c3].
  destruct HM as (Hm3 & Hf3 & Hc3 & E3); [unfold reads_ahead; lia|].
  rewrite (u64_id (c2 + c3)) by (unfold isu64; lia).
  specialize (IH m3 (pp + 2) pl (nn + 1) h (c2 + c3) Hm3 ltac:(lia) ltac:(lia) Hh
                ltac:(lia) ltac:(lia) ltac:(lia)).
  destruct (BnnSquare_loop _ _ _ _ _ _ _) as [m4 c4]. destruct IH as (Hm4 & Hf4 & E4).
  splits; [done| |].
  - eapply frame_trans; [exact Hf2|].
    eapply frame_trans; eapply frame_weaken; eauto; lia.
  - rewrite (bnval_frame m2 m3 _ _ (nn + 1) n Hf3), (bnval_frame m m2 _ _ (nn + 1) n Hf2) in E4 by lia.
    rewrite (bnval_frame m m2 _ _ (nn + 1) n Hf2) in E3 by lia.
    cbn [bnval] in E2, E3 |- *. fold d.
    replace (pp + 1 + 1) with (pp + 2) in * by lia.
    rewrite !BBase_S in *.
    rewrite (Hf4 pp), (Hf4 (pp + 1)) by lia. rewrite (Hf3 pp) by lia.
    set (r := bnval m (nn + 1) n) in *. set (V2 := bnval m2 (pp + 2) pl) in *.
    set (V4 := bnval m4 (pp + 2) pl) in *. set (V3 := bnval m3 (pp + 2) pl) in *.
    set (BB := BBase pl) in *.
    assert (E34 : ld m3 (pp + 1) + B64 * (V4 + c4 * BB)
            = ld m2 (pp + 1) + B64 * V2 + r * dd + B64 * (r * r + h * r) + B64 * (c2 * BB)) by lia.
    assert (Edd : dd = 2 * d + prev - h * B64) by lia.
    transitivity (ld m2 pp + B64 * (ld m3 (pp + 1) + B64 * (V4 + c4 * BB))); [ring|].
    rewrite E34, Edd.
    transitivity (ld m2 pp + B64 * (ld m2 (pp + 1) + B64 * V2) + c2 * (B64 * (B64 * BB))
       + B64 * r * (2 * d + prev) + B64 * B64 * r * r); [ring|].
    rewrite E2. ring.
Qed.

Lemma BnnMultiply_spec m pp pl mm ml nn nl :
  wfm m -> (ml + nl <= pl)%nat -> 3 * Z.of_nat pl < B64 ->
  pp + Z.of_nat pl <= mm \/ mm + Z.of_nat ml <= pp ->
  pp + Z.of_nat pl <= nn \/ nn + Z.of_nat nl <= pp ->
  let '(m', c) := BnnMultiply m pp (Z.of_nat pl) mm (Z.of_nat ml) nn (Z.of_nat nl) in
  wfm m' /\ frame m m' pp (Z.of_nat pl) /\
  bnval m' pp pl + c * BBase pl = bnval m pp pl + bnval m mm ml * bnval m nn nl.
Proof.
  intros Hm Hl Hb Hd1 Hd2. unfold BnnMultiply. rewrite Nat2Z.id.
  destruct ((mm =? nn) && (Z.of_nat ml =? Z.of_nat nl) && (6 <? Z.of_nat nl)) eqn:C.
  - zcases_in C; try discriminate. subst nn. replace ml with nl by lia.
    pose proof (BnnSquare_loop_spec nl m pp pl mm 0 0 Hm ltac:(lia) ltac:(lia) ltac:(lia)
                  ltac:(lia) ltac:(lia) Hd2) as HS.
    destruct (BnnSquare_loop _ _ _ _ _ _ _) as [m' c]. destruct HS as (? & ? & E).
    splits; auto; lia.
  - pose proof (BnnMultiply_loop_spec nl m pp pl mm ml nn 0 Hm Hl ltac:(lia) ltac:(lia)
                  ltac:(lia) Hd1 Hd2) as H.
    destruct (BnnMultiply_loop _ _ _ _ _ _ _ _) as [m' c]. destruct H as (? & ? & E).
    splits; auto; lia.
Qed.

(** ** Long division: one digit of the quotient *)

(** Memory changes only in the [n] cells from [p] on and in the cell [q]. *)
Definition frame2 (m m' : mem) (p n q : Z) : Prop :=
  forall a, a < p \/ p + n <= a -> a <> q -> ld m' a = ld m a.

Lemma frame2_trans m1 m2 m3 p n q :
  frame2 m1 m2 p n q -> frame2 m2 m3 p n q -> frame2 m1 m3 p n q.
Proof. intros H1 H2 a Ha Hq. rewrite H2, H1; done. Qed.
Lemma frame2_weaken m m' p n p' n' q :
  frame2 m m' p n q -> p' <= p -> p + n <= p' + n' -> frame2 m m' p' n' q.
Proof. intros H ? ? a Ha Hq. apply H; [lia|done]. Qed.
Lemma frame_frame2_l m m' p n q : frame m m' p n -> frame2 m m' p n q.
Proof. intros H a Ha _. by apply H. Qed.
Lemma frame_frame2_r m m' p n q : frame m m' q 1 -> frame2 m m' p n q.
Proof. intros H a _ Hq. apply H. lia. Qed.
Lemma bnval_frame2 m m' p n q r k :
  frame2 m m' p n q -> r + Z.of_nat k <= p \/ p + n <= r -> q < r \/ r + Z.of_nat k <= q ->
  bnval m' r k = bnval m r k.
Proof. intros H ? ?. apply bnval_ext. intros a Ha. apply H; lia. Qed.

(** A sum [lo + BBase n * hi] with [lo] and [lo'] below [BBase n] is unique. *)
Lemma digits_unique n lo hi lo' hi' :
  0 <= lo < BBase n -> 0 <= lo' < BBase n ->
  lo + BBase n * hi = lo' + BBase n * hi' -> lo = lo' /\ hi = hi'.
Proof.
  intros H1 H2 E. pose proof (BBase_pos n).
  assert (hi = hi').
  { destruct (Z.lt_total hi hi') as [|[|]]; [nia|done|nia]. }
  subst. lia.
Qed.

Lemma BnnCompareDigits_eq a b : (BnnCompareDigits a b =? BN_EQ) = (a =? b).
Proof.
  unfold BnnCompareDigits. destruct (Z.ltb_spec b a), (Z.eqb_spec a b); lia || done.
Qed.

Lemma divide_correct_S f m fp nn nl ni dd dl :
  divide_correct (S f) m fp nn nl ni dd dl =
  if ld m (nn + nl) =? ld m (QApp fp) then m
  else
    let m := fst (BnnSubtract m (nn + ni) (u64 (dl + 1)) dd dl 1) in
    let m := fst (BnnSubtractBorrow m (QApp fp) 1 0) in
    divide_correct f m fp nn nl ni dd dl.
Proof. cbn [divide_correct]. by rewrite BnnCompareDigits_eq. Qed.

(** [Replace D by Base - D], the two calls that also undo it. *)
Lemma negate_spec m dd n :
  wfm m -> 0 < bnval m dd n ->
  let m' := fst (BnnAddCarry (BnnComplement m dd (Z.of_nat n)) dd (Z.of_nat n) 1) in
  wfm m' /\ frame m m' dd (Z.of_nat n) /\ bnval m' dd n = BBase n - bnval m dd n.
Proof.
  intros Hm Hp. destruct (BnnComplement_spec m dd n Hm) as (Hm1 & Hf1 & E1).
  set (m1 := BnnComplement m dd (Z.of_nat n)) in *. clearbody m1.
  pose proof (BnnAddCarry_spec m1 dd n 1 Hm1 ltac:(lia)) as H.
  destruct (BnnAddCarry m1 dd _ 1) as [m2 c]. destruct H as (Hm2 & Hf2 & Hc & E2).
  cbn [fst]. pose proof (bnval_bounds m2 dd n Hm2). splits; auto.
  - eapply frame_trans; eauto.
  - assert (c = 0 \/ c = 1) as [->| ->] by lia; lia.
Qed.

Section divide_proof.
Variables (fp nn dd : Z) (dl : nat) (D : Z).
Hypothesis Hdl : (0 < dl)%nat.
Hypothesis Hdlb : Z.of_nat dl + 1 < B64.
Hypothesis HD : 0 < D < BBase dl.

Lemma divide_correct_spec f m ni W :
  let Q := ld m (QApp fp) in
  let w := nn + ni in
  wfm m -> bnval m dd dl = BBase dl - D -> 0 <= W ->
  w + Z.of_nat dl < dd \/ dd + Z.of_nat dl <= w ->
  QApp fp < w \/ w + Z.of_nat dl < QApp fp ->
  QApp fp < dd \/ dd + Z.of_nat dl <= QApp fp ->
  bnval m w (S dl) = W - D * Q + Q * BBase dl ->
  W / D <= Q <= W / D + Z.of_nat f ->
  let m' := divide_correct (S f) m fp nn (ni + Z.of_nat dl) ni dd (Z.of_nat dl) in
  wfm m' /\ frame2 m m' w (Z.of_nat dl + 1) (QApp fp) /\
  ld m' (w + Z.of_nat dl) = W / D /\ bnval m' w dl = W mod D.
Proof.
  cbn zeta. revert m. induction f as [|f IH]; intros m Hm Edd HW Hd1 Hd2 Hd3 EV HQ.
  all: set (Q := ld m (QApp fp)) in *; set (w := nn + ni) in *.
  all: pose proof (Z.div_mod W D ltac:(lia)) as Edm; pose proof (Z.mod_pos_bound W D ltac:(lia)) as Hmb.
  all: pose proof EV as EV0; rewrite bnval_snoc in EV; pose proof (bnval_bounds m w dl Hm) as Hlo.
  all: rewrite divide_correct_S; fold w Q; cbn zeta;
    replace (nn + (ni + Z.of_nat dl)) with (w + Z.of_nat dl) by lia.
  all: destruct (Z.eq_dec Q (W / D)) as [EQ|NQ].
  2:{ lia. }
  1,2: destruct (digits_unique dl (bnval m w dl) (ld m (w + Z.of_nat dl)) (W mod D) Q)
         as [E1 E2]; [lia|lia|rewrite EQ in *; lia|];
       replace (ld m (w + Z.of_nat dl) =? Q) with true by (symmetry; apply Z.eqb_eq; done);
       splits; auto; [intros ? ? ?; done|congruence].
  replace (ld m (w + Z.of_nat dl) =? Q) with false.
  2:{ symmetry. apply Z.eqb_neq. intros E. rewrite E in EV.
      assert (D * (W / D + 1) <= D * Q) by (apply Z.mul_le_mono_nonneg_l; lia). lia. }
  pose proof (Hm (QApp fp)) as HQr. fold Q in HQr. unfold isu64 in HQr.
  assert (Hq0 : 0 <= W / D) by (apply Z.div_pos; lia).
  replace (u64 (Z.of_nat dl + 1)) with (Z.of_nat (S dl))
    by (rewrite u64_id by (unfold isu64; lia); lia).
  pose proof (BnnSubtract_spec m w (S dl) dd dl 1 Hm ltac:(lia) ltac:(lia) ltac:(lia)
                ltac:(unfold reads_ahead; lia)) as HS.
  destruct (BnnSubtract m w _ dd _ 1) as [m1 c1]. destruct HS as (Hm1 & Hf1 & Hc1 & E1).
  cbn [fst]. pose proof (BnnSubtractBorrow_spec m1 (QApp fp) 1 0 Hm1 ltac:(lia)) as HB.
  change (Z.of_nat 1) with 1 in HB.
  destruct (BnnSubtractBorrow m1 (QApp fp) 1 0) as [m2 c2]. cbn [fst].
  destruct HB as (Hm2 & Hf2 & Hc2 & E2).
  rewrite !bnval_1, (Hf1 (QApp fp)) in E2 by lia. fold Q in E2.
  change (BBase 1) with B64 in E2. pose proof (Hm2 (QApp fp)) as Hr2. unfold isu64 in Hr2.
  assert (EQ2 : ld m2 (QApp fp) = Q - 1) by lia.
  pose proof (bnval_bounds m1 w (S dl) Hm1) as Hb1. rewrite BBase_S in *.
  rewrite EV0, Edd in E1.
  assert (EV1 : bnval m1 w (S dl) = W - D * (Q - 1) + (Q - 1) * BBase dl).
  { assert (0 <= (Q - 1) * (BBase dl - D)) by (apply Z.mul_nonneg_nonneg; lia).
    assert (c1 = 0 \/ c1 = 1) as [->| ->] by lia; lia. }
  destruct (IH m2) as (R1 & R2 & R3 & R4); auto.
  - rewrite (bnval_frame m1 m2 _ _ dd dl Hf2), (bnval_frame m m1 _ _ dd dl Hf1) by lia. done.
  - rewrite EQ2, (bnval_frame m1 m2 _ _ w (S dl) Hf2) by lia. done.
  - rewrite EQ2. lia.
  - splits; auto. eapply frame2_trans; [|exact R2].
    eapply frame2_trans; [apply frame_frame2_l; replace (Z.of_nat dl + 1) with (Z.of_nat (S dl)) by lia; exact Hf1|apply frame_frame2_r; exact Hf2].
Qed.

(** From here on the divisor is normalized: [d1] is its leading digit. *)
Variables (d1 dlo : Z).
Hypothesis Hd1 : B63 <= d1 < B64.
Hypothesis Hdlo : 0 <= dlo < BBase (dl - 1).
Hypothesis EDd : D = dlo + BBase (dl - 1) * d1.

(** Knuth's bound: a trial quotient from the two leading digits is at most two
    too large, and never too small. *)
Lemma trial_quotient_bound T wlo Q :
  let W := wlo + BBase (dl - 1) * T in
  0 <= wlo < BBase (dl - 1) -> 0 <= W < D * B64 ->
  (Q = B64 - 1 /\ T >= d1 * B64) \/ (Q = T / d1 /\ 0 <= T < d1 * B64) ->
  W / D <= Q <= W / D + 2 /\ 0 <= Q < B64.
Proof.
  intros W Hw HW HQ. pose proof (BBase_pos (dl - 1)) as Hb. set (b := BBase (dl - 1)) in *.
  assert (HQr : 0 <= Q < B64).
  { destruct HQ as [[-> _]|[-> HT]]; [lia|]. split; [apply Z.div_pos; lia|].
    apply Z.div_lt_upper_bound; lia. }
  enough (W < (Q + 1) * D /\ (Q - 2) * D <= W) as [H1 H2].
  { splits; try lia.
    - apply Z.lt_succ_r. apply Z.div_lt_upper_bound; lia.
    - enough (Q - 2 <= W / D) by lia. apply Z.div_le_lower_bound; lia. }
  assert (HD2 : D <= b * (d1 + 1)) by lia.
  assert (HD1 : b * d1 <= D) by lia.
  destruct HQ as [[-> HT]|[EQ HT]].
  - split; [lia|].
    assert ((B64 - 1 - 2) * D <= (B64 - 3) * (b * (d1 + 1))) by lia.
    assert (b * (d1 * B64) <= b * T) by (apply Z.mul_le_mono_nonneg_l; lia).
    assert (b * ((B64 - 3) * (d1 + 1)) <= b * (d1 * B64)) by (apply Z.mul_le_mono_nonneg_l; lia).
    lia.
  - pose proof (Z.mul_succ_div_gt T d1 ltac:(lia)) as U1. pose proof (Z.mul_div_le T d1 ltac:(lia)) as U2.
    rewrite <- EQ in U1, U2. split.
    + assert (b * (T + 1) <= b * (d1 * (Q + 1))) by (apply Z.mul_le_mono_nonneg_l; lia).
      assert ((Q + 1) * (b * d1) <= (Q + 1) * D) by (apply Z.mul_le_mono_nonneg_l; lia). lia.
    + destruct (Z.le_gt_cases Q 2).
      * assert ((Q - 2) * D <= 0) by (apply Z.mul_nonpos_nonneg; lia). lia.
      * assert ((Q - 2) * D <= (Q - 2) * (b * (d1 + 1))) by (apply Z.mul_le_mono_nonneg_l; lia).
        assert (b * ((Q - 2) * (d1 + 1)) <= b * T) by (apply Z.mul_le_mono_nonneg_l; lia).
        lia.
Qed.

Definition layout (n : Z) : Prop :=
  (nn + n <= dd \/ dd + Z.of_nat dl <= nn) /\
  (fp + 3 <= nn \/ nn + n <= fp) /\ (fp + 3 <= dd \/ dd + Z.of_nat dl <= fp).

(** What the locals and the (complemented) divisor hold during the loop. *)
Definition divide_inv (m : mem) : Prop :=
  wfm m /\ bnval m dd dl = BBase dl - D /\ ld m (DDigit fp) = d1 /\
  ld m (BaseMinus1 fp) = B64 - 1.

Lemma divide_inv_frame2 m m' w n k :
  layout k -> nn <= w -> w + n <= nn + k -> wfm m' ->
  frame2 m m' w n (QApp fp) -> divide_inv m -> divide_inv m'.
Proof.
  intros (L1 & L2 & L3) Hw1 Hw2 Hm' Hf (Hm & E1 & E2 & E3). unfold divide_inv.
  unfold DDigit, BaseMinus1, QApp in *. splits; auto.
  - rewrite (bnval_frame2 m m' w n (fp + 2) dd dl Hf) by lia. done.
  - rewrite Hf by lia. done.
  - rewrite Hf by lia. done.
Qed.

(** The window of [dl + 1] digits by its two leading digits. *)
Lemma window_split m w :
  bnval m w (S dl) = bnval m w (dl - 1)
    + BBase (dl - 1) * (ld m (w + Z.of_nat dl) * B64 + ld m (w + Z.of_nat dl - 1)).
Proof.
  rewrite bnval_snoc. replace dl with (S (dl - 1)) at 1 2 by lia.
  rewrite bnval_snoc, BBase_S.
  replace (w + Z.of_nat (dl - 1)) with (w + Z.of_nat dl - 1) by lia. ring.
Qed.

Lemma divide_trial_spec m w nl :
  nn + nl = w + Z.of_nat dl -> divide_inv m ->
  let T := ld m (w + Z.of_nat dl) * B64 + ld m (w + Z.of_nat dl - 1) in
  ld m (w + Z.of_nat dl) <= d1 ->
  let m' := divide_trial m fp nn nl in
  wfm m' /\ frame m m' (QApp fp) 1 /\
  ((ld m' (QApp fp) = B64 - 1 /\ T >= d1 * B64) \/
   (ld m' (QApp fp) = T / d1 /\ 0 <= T < d1 * B64)).
Proof.
  intros Enl (Hm & _ & Ed1 & Ebm) T Htd m'. unfold m', divide_trial.
  rewrite BnnCompareDigits_eq, Ed1, Enl.
  pose proof (Hm (w + Z.of_nat dl)) as Ht. pose proof (Hm (w + Z.of_nat dl - 1)) as Ht0.
  unfold isu64 in Ht, Ht0. unfold DDigit, BaseMinus1, QApp in *.
  destruct (Z.eqb_spec (ld m (w + Z.of_nat dl)) d1) as [Et|Hne].
  - pose proof (BnnAssign_ld m (fp + 2) (fp + 1) 1) as Hld. splits.
    + intros a. rewrite Hld. destruct (_ && _); apply Hm.
    + intros a Ha. rewrite Hld. zcases; simpl; lia || done.
    + left. rewrite Hld. rewrite (proj2 (Z.leb_le _ _)), (proj2 (Z.ltb_lt _ _)) by lia. simpl.
      replace (fp + 1 + (fp + 2 - (fp + 2))) with (fp + 1) by lia. rewrite Ebm. lia.
  - pose proof (BnnDivideDigit_spec m (fp + 2) (w + Z.of_nat dl - 1) 1 d1 Hm ltac:(lia)) as Hdiv.
    change (Z.of_nat 2) with 2 in Hdiv. change (Z.of_nat 1) with 1 in Hdiv.
    destruct (BnnDivideDigit m (fp + 2) _ 2 d1) as [m2 r]. cbn [fst].
    replace (w + Z.of_nat dl - 1 + 1) with (w + Z.of_nat dl) in Hdiv by lia.
    destruct Hdiv as (Hm2 & Hf2 & Hr & E2); [lia|lia|].
    splits; auto. right. rewrite bnval_1 in E2. cbn [bnval] in E2.
    replace (w + Z.of_nat dl - 1 + 1) with (w + Z.of_nat dl) in E2 by lia.
    split; [|lia]. apply Z.div_unique_pos with (r := r); lia.
Qed.

Lemma divide_body_spec m n :
  layout (Z.of_nat (S n + dl)) -> divide_inv m ->
  let w := nn + Z.of_nat n in
  let W := bnval m w (S dl) in
  W < D * B64 ->
  let m' := divide_body m fp nn (Z.of_nat n + Z.of_nat dl) (Z.of_nat n) dd (Z.of_nat dl) in
  divide_inv m' /\ frame2 m m' w (Z.of_nat dl + 1) (QApp fp) /\
  ld m' (w + Z.of_nat dl) = W / D /\ bnval m' w dl = W mod D.
Proof.
  intros HL Hi w W HW. pose proof HL as (L1 & L2 & L3).
  pose proof Hi as (Hm & Edd & _). unfold divide_body.
  assert (HW0 : 0 <= W) by (apply bnval_bounds; done).
  pose proof (window_split m w) as EW. fold W in EW.
  pose proof (bnval_bounds m w (dl - 1) Hm) as Hwlo.
  pose proof (Hm (w + Z.of_nat dl - 1)) as Ht0. unfold isu64 in Ht0.
  assert (Htd : ld m (w + Z.of_nat dl) <= d1).
  { pose proof (BBase_pos (dl - 1)). apply Z.lt_succ_r. apply Z.nle_gt. intros C.
    assert (BBase (dl - 1) * ((d1 + 1) * B64) <= W) by
      (rewrite EW; assert (BBase (dl - 1) * ((d1 + 1) * B64) <= BBase (dl - 1) *
         (ld m (w + Z.of_nat dl) * B64 + ld m (w + Z.of_nat dl - 1)))
         by (apply Z.mul_le_mono_nonneg_l; lia); lia). lia. }
  destruct (divide_trial_spec m w (Z.of_nat n + Z.of_nat dl) ltac:(lia) Hi Htd)
    as (Hm1 & Hf1 & HQ).
  set (m1 := divide_trial m fp nn (Z.of_nat n + Z.of_nat dl)) in *. clearbody m1.
  pose proof (trial_quotient_bound _ (bnval m w (dl - 1)) _ Hwlo ltac:(rewrite <- EW; lia) HQ) as HT.
  rewrite <- EW in HT. destruct HT as [HQb HQr]. clear HQ Htd Ht0 Hwlo EW.
  unfold DDigit, BaseMinus1, QApp in *. set (Q := ld m1 (fp + 2)) in *.
  replace (u64 (Z.of_nat dl + 1)) with (Z.of_nat (S dl))
    by (rewrite u64_id by (unfold isu64; lia); lia).
  fold w. pose proof (BnnMultiplyDigit_spec m1 w (S dl) dd dl Q Hm1 ltac:(lia) ltac:(lia)
    ltac:(unfold isu64; lia) ltac:(unfold reads_ahead; lia)) as HM.
  destruct (BnnMultiplyDigit m1 w _ dd _ Q) as [m2 c2]. cbn [fst].
  destruct HM as (Hm2 & Hf2 & Hc2 & E2).
  rewrite (bnval_frame m m1 _ _ w (S dl) Hf1), (bnval_frame m m1 _ _ dd dl Hf1), Edd in E2 by lia.
  fold W in E2. pose proof (bnval_bounds m2 w (S dl) Hm2) as Hb2. rewrite BBase_S in E2, Hb2.
  pose proof (Z.div_mod W D ltac:(lia)) as Edm. pose proof (Z.mod_pos_bound W D ltac:(lia)) as Hmb.
  assert (EV : bnval m2 w (S dl) = W - D * Q + Q * BBase dl).
  { assert (D * (W / D) <= D * Q) by (apply Z.mul_le_mono_nonneg_l; lia).
    assert (Q * BBase dl <= (B64 - 1) * BBase dl) by (apply Z.mul_le_mono_nonneg_r; lia).
    assert (c2 = 0 \/ c2 = 1) as [->| ->] by lia; lia. }
  assert (Hf12 : frame2 m m2 w (Z.of_nat dl + 1) (fp + 2)).
  { eapply frame2_trans; [apply frame_frame2_r; exact Hf1|apply frame_frame2_l].
    replace (Z.of_nat dl + 1) with (Z.of_nat (S dl)) by lia. exact Hf2. }
  pose proof (divide_correct_spec 2 m2 (Z.of_nat n) W) as HC. cbn zeta in HC.
  unfold QApp in HC. fold w in HC. change (Z.of_nat 2) with 2 in HC.
  assert (EQ2 : ld m2 (fp + 2) = Q) by (apply Hf2; lia). rewrite EQ2 in HC.
  destruct HC as (R1 & R2 & R3 & R4); auto; try lia.
  - rewrite (bnval_frame2 _ _ _ _ _ dd dl Hf12) by lia. done.
  - splits; auto.
    + eapply (divide_inv_frame2 m _ w (Z.of_nat dl + 1) _ HL); try lia; auto.
      eapply frame2_trans; eauto.
    + eapply frame2_trans; eauto.
Qed.

Lemma divide_loop_spec n m :
  layout (Z.of_nat (n + dl)) -> divide_inv m ->
  let N := bnval m nn (n + dl) in
  N < D * BBase n ->
  let m' := divide_loop n m fp nn (Z.of_nat (n + dl)) dd (Z.of_nat dl) in
  divide_inv m' /\ frame2 m m' nn (Z.of_nat (n + dl)) (QApp fp) /\
  bnval m' (nn + Z.of_nat dl) n = N / D /\ bnval m' nn dl = N mod D.
Proof.
  revert m. induction n as [|n IH]; intros m HL Hi N HN.
  - pose proof Hi as (Hm & _). rewrite BBase_0 in HN. pose proof (bnval_bounds m nn dl Hm).
    cbn [divide_loop bnval]. cbn [Nat.add] in N. fold N in H.
    rewrite Z.div_small, Z.mod_small by lia. splits; auto. intros ? ? ?. done.
  - pose proof Hi as (Hm & _). cbn [divide_loop].
    replace (Z.of_nat (S n + dl) - 1) with (Z.of_nat n + Z.of_nat dl) by lia.
    assert (EN : N = bnval m nn n + BBase n * bnval m (nn + Z.of_nat n) (S dl)).
    { unfold N. rewrite <- bnval_app. f_equal. lia. }
    pose proof (bnval_bounds m nn n Hm) as Hlo. pose proof (BBase_pos n) as Hb.
    set (W := bnval m (nn + Z.of_nat n) (S dl)) in *. rewrite BBase_S in HN.
    assert (HW : W < D * B64).
    { apply Z.nle_gt. intros C.
      assert (BBase n * (D * B64) <= BBase n * W) by (apply Z.mul_le_mono_nonneg_l; lia). lia. }
    destruct (divide_body_spec m n HL Hi HW) as (Hi1 & Hf1 & E1 & E2). fold W in E1, E2.
    set (m1 := divide_body _ _ _ _ _ _ _) in *. clearbody m1. pose proof HL as (L1 & L2 & L3).
    pose proof (Z.div_mod W D ltac:(lia)) as Edm. pose proof (Z.mod_pos_bound W D ltac:(lia)) as Hmb.
    assert (EN1 : bnval m1 nn (n + dl) = bnval m nn n + BBase n * (W mod D)).
    { rewrite bnval_app, E2. f_equal. unfold QApp in *. apply (bnval_frame2 _ _ _ _ _ nn n Hf1); lia. }
    assert (HL1 : layout (Z.of_nat (n + dl))) by (unfold layout in *; lia).
    assert (BBase n * (W mod D) <= BBase n * (D - 1)) by (apply Z.mul_le_mono_nonneg_l; lia).
    replace (Z.of_nat n + Z.of_nat dl) with (Z.of_nat (n + dl)) by lia.
    destruct (IH m1 HL1 Hi1 ltac:(lia)) as (Hi2 & Hf2 & E3 & E4).
    assert (EN' : N = bnval m1 nn (n + dl) + BBase n * (W / D) * D).
    { rewrite EN, EN1. rewrite Edm at 1. ring. }
    rewrite EN', Z.div_add, Z.mod_add by lia. unfold QApp in *. splits; auto.
    + eapply frame2_trans; eapply frame2_weaken; eauto; lia.
    + rewrite bnval_snoc, E3.
      replace (nn + Z.of_nat dl + Z.of_nat n) with (nn + Z.of_nat n + Z.of_nat dl) by lia.
      rewrite (Hf2 (nn + Z.of_nat n + Z.of_nat dl)), E1 by lia. done.
Qed.

(** The locals once [divide] has initialized them. *)
Lemma divide_locals m :
  wfm m -> layout 0 ->
  let m' := BnnAssign (BnnComplement (BnnSetDigit m (BaseMinus1 fp) 0) (BaseMinus1 fp) 1)
              (DDigit fp) (dd + Z.of_nat dl - 1) 1 in
  wfm m' /\ frame m m' fp 2 /\ ld m' (BaseMinus1 fp) = B64 - 1 /\
  ld m' (DDigit fp) = ld m (dd + Z.of_nat dl - 1).
Proof.
  intros Hm (_ & _ & L3) m'. unfold DDigit, BaseMinus1, BnnSetDigit in *.
  assert (H0 : wfm (st m (fp + 1) 0)) by (apply wfm_st; [done|unfold isu64; lia]).
  assert (Hld : forall a, ld m' a = if a =? fp then ld m (dd + Z.of_nat dl - 1)
                               else if a =? fp + 1 then B64 - 1 else ld m a).
  { intros a. unfold m'. rewrite BnnAssign_ld, !BnnComplement_ld, !ld_st by done.
    zcases; simpl; try lia; subst; try done; f_equal; lia. }
  clearbody m'. splits.
  - intros a. rewrite Hld. zcases; [apply Hm|unfold isu64; lia|apply Hm].
  - intros a Ha. rewrite Hld. zcases; done || lia.
  - rewrite Hld. zcases; done || lia.
  - rewrite Hld. zcases; done || lia.
Qed.

(** [divide] replaces the normalized dividend by remainder and quotient and
    leaves the divisor as it was. *)
Lemma divide_spec m n :
  let N := bnval m nn (n + dl) in
  layout (Z.of_nat (n + dl)) -> Z.of_nat (n + dl) < B31 -> wfm m -> (0 < n)%nat ->
  bnval m dd dl = D -> ld m (dd + Z.of_nat dl - 1) = d1 -> N < D * BBase n ->
  let m' := divide m fp nn (Z.of_nat (n + dl) - 1) dd (Z.of_nat dl) in
  wfm m' /\
  (forall a, a < nn \/ nn + Z.of_nat (n + dl) <= a -> a < fp \/ fp + 3 <= a ->
             ld m' a = ld m a) /\
  bnval m' (nn + Z.of_nat dl) n = N / D /\ bnval m' nn dl = N mod D.
Proof.
  intros N HL Hb Hm Hn EDm Ed1 HN m'. unfold m', divide. pose proof HL as (L1 & L2 & L3).
  replace (Z.of_nat (n + dl) - 1 + 1) with (Z.of_nat (n + dl)) by lia.
  rewrite (u64_id (Z.of_nat (n + dl))) by (unfold isu64; lia).
  replace (Z.of_nat (n + dl) - Z.of_nat dl) with (Z.of_nat n) by lia.
  rewrite u64_id by (unfold isu64; lia). rewrite s32_id by (unfold iss32; lia). rewrite Nat2Z.id.
  destruct (divide_locals m Hm) as (Hm1 & Hf1 & E1 & E2); [unfold layout in *; lia|].
  set (m1 := BnnAssign _ _ _ _) in *. clearbody m1. rewrite Ed1 in E2.
  pose proof (bnval_frame m m1 _ _ dd dl Hf1 ltac:(lia)) as EDm1. rewrite EDm in EDm1.
  destruct (negate_spec m1 dd dl Hm1 ltac:(lia)) as (Hm2 & Hf2 & E3).
  set (m2 := fst (BnnAddCarry (BnnComplement m1 _ _) _ _ _)) in *. clearbody m2.
  rewrite EDm1 in E3. unfold DDigit, BaseMinus1 in *.
  assert (Hi : divide_inv m2).
  { unfold divide_inv, DDigit, BaseMinus1. rewrite !Hf2 by lia. done. }
  assert (EN : bnval m2 nn (n + dl) = N).
  { rewrite (bnval_frame _ _ _ _ nn _ Hf2), (bnval_frame _ _ _ _ nn _ Hf1) by lia. done. }
  destruct (divide_loop_spec n m2 HL Hi ltac:(lia)) as (Hi3 & Hf3 & E4 & E5). rewrite EN in E4, E5.
  set (m3 := divide_loop _ _ _ _ _ _ _) in *. clearbody m3. destruct Hi3 as (Hm3 & E6 & _).
  destruct (negate_spec m3 dd dl Hm3 ltac:(lia)) as (Hm4 & Hf4 & E7). rewrite E6 in E7.
  set (m4 := fst (BnnAddCarry (BnnComplement m3 _ _) _ _ _)) in *. clearbody m4.
  unfold QApp in *. splits; auto.
  - intros a Ha1 Ha2. assert (a < dd \/ dd + Z.of_nat dl <= a \/ dd <= a < dd + Z.of_nat dl)
      as [Hd|[Hd|Hd]] by lia; [| |apply (bnval_inj m m4 dd dl a); auto; lia];
      rewrite Hf4, Hf3, Hf2, Hf1 by lia; done.
  - rewrite (bnval_frame _ _ _ _ _ n Hf4) by lia. done.
  - rewrite (bnval_frame _ _ _ _ _ dl Hf4) by lia. done.
Qed.
End divide_proof.

(** ** Normalization *)

Lemma shl_exact m p n k :
  wfm m -> 0 <= k < 64 -> bnval m p n * 2 ^ k < BBase n ->
  let m' := fst (BnnShiftLeft m p (Z.of_nat n) k) in
  wfm m' /\ frame m m' p (Z.of_nat n) /\ bnval m' p n = bnval m p n * 2 ^ k.
Proof.
  intros Hm Hk Hlt. pose proof (BnnShiftLeft_spec m p n k Hm Hk) as H.
  destruct (BnnShiftLeft m p _ k) as [m' r]. destruct H as (Hm' & Hf & Hr & E). cbn [fst].
  pose proof (bnval_bounds m' p n Hm'). pose proof (BBase_pos n).
  assert (r = 0) by (destruct (Z.eq_dec r 0); [done|];
    assert (1 * BBase n <= r * BBase n) by (apply Z.mul_le_mono_nonneg_r; lia); lia).
  subst r. splits; auto. lia.
Qed.

Lemma shr_exact m p n k V :
  wfm m -> 0 <= k < 64 -> bnval m p n = V * 2 ^ k ->
  let m' := fst (BnnShiftRight m p (Z.of_nat n) k) in
  wfm m' /\ frame m m' p (Z.of_nat n) /\ bnval m' p n = V.
Proof.
  intros Hm Hk E. destruct (Z.eq_dec k 0) as [->|].
  - cbn. splits; auto with mem. lia.
  - pose proof (BnnShiftRight_spec m p n k Hm ltac:(lia)) as H.
    destruct (BnnShiftRight m p _ k) as [m' r]. destruct H as (Hm' & Hf & Hr & E'). cbn [fst].
    rewrite E, <- Z.mul_assoc, <- Z.pow_add_r in E' by lia.
    replace (k + (64 - k)) with 64 in E' by lia. change (2 ^ 64) with B64 in E'.
    unfold isu64 in Hr. splits; auto. lia.
Qed.

(** ** Division *)

(** The arrays and the locals are apart. *)
Definition apart (fp nn nl dd dl : Z) : Prop :=
  (nn + nl <= dd \/ dd + dl <= nn) /\
  (fp + 3 <= nn \/ nn + nl <= fp) /\ (fp + 3 <= dd \/ dd + dl <= fp).

(** A number by its leading digit. *)
Lemma bnval_lead m p n :
  wfm m -> (0 < n)%nat ->
  bnval m p n = bnval m p (n - 1) + BBase (n - 1) * ld m (p + Z.of_nat n - 1) /\
  0 <= bnval m p (n - 1) < BBase (n - 1) /\ BBase n = B64 * BBase (n - 1).
Proof.
  intros Hm Hn. splits; try by apply bnval_bounds.
  - replace n with (S (n - 1)) at 1 by lia. rewrite bnval_snoc. do 3 f_equal. lia.
  - replace n with (S (n - 1)) at 1 by lia. apply BBase_S.
Qed.

(** A leading digit that shifts without loss leaves room for the digits below. *)
Lemma lead_shift_fits lo b td k :
  0 <= k < 64 -> td * 2 ^ k < B64 -> 0 <= lo < b -> (lo + b * td) * 2 ^ k < B64 * b.
Proof.
  intros Hk Ht Hlo. pose proof (pow2_pos k ltac:(lia)) as Hp.
  assert (HB : (td + 1) * 2 ^ k <= B64).
  { assert (E64 : B64 = 2 ^ (64 - k) * 2 ^ k)
      by (rewrite <- Z.pow_add_r by lia; replace (64 - k + k) with 64 by lia; done).
    rewrite E64 in Ht |- *. apply Z.mul_le_mono_nonneg_r; [lia|].
    enough (td < 2 ^ (64 - k)) by lia. apply (Z.mul_lt_mono_pos_r (2 ^ k)); lia. }
  assert (b * ((td + 1) * 2 ^ k) <= b * B64) by (apply Z.mul_le_mono_nonneg_l; lia).
  assert ((lo + b * td) * 2 ^ k < b * (td + 1) * 2 ^ k) by (apply Z.mul_lt_mono_pos_r; lia). lia.
Qed.

(** A smaller leading digit bounds the quotient by the digits in excess. *)
Lemma lead_lt m nn dd n dl :
  wfm m -> (0 < n)%nat -> (0 < dl)%nat ->
  ld m (nn + Z.of_nat (n + dl) - 1) < ld m (dd + Z.of_nat dl - 1) ->
  bnval m nn (n + dl) < bnval m dd dl * BBase n.
Proof.
  intros Hm Hn Hdl Ht.
  destruct (bnval_lead m dd dl Hm Hdl) as (ED & HbD & _).
  destruct (bnval_lead m nn (n + dl) Hm ltac:(lia)) as (EN & HbN & _).
  assert (HBnd : BBase (n + dl - 1) = BBase n * BBase (dl - 1))
    by (rewrite <- BBase_add; f_equal; lia).
  rewrite HBnd in *. rewrite ED, EN. pose proof (BBase_pos n). pose proof (BBase_pos (dl - 1)).
  set (tn := ld m (nn + _ - 1)) in *. set (td := ld m (dd + _ - 1)) in *.
  assert (BBase n * BBase (dl - 1) * (tn + 1) <= BBase n * BBase (dl - 1) * td)
    by (apply Z.mul_le_mono_nonneg_l; lia).
  assert (0 <= bnval m dd (dl - 1) * BBase n) by (apply Z.mul_nonneg_nonneg; lia). lia.
Qed.

(** The branch of [BnnDivide] that normalizes. *)
Lemma BnnDivide_normalized m fp nn n dd dl :
  let N := bnval m nn (n + dl) in
  let D := bnval m dd dl in
  let k := BnnNumLeadingZeroBitsInDigit (ld m (dd + Z.of_nat dl - 1)) in
  let m1 := fst (BnnShiftLeft m dd (Z.of_nat dl) k) in
  let m2 := fst (BnnShiftLeft m1 nn (Z.of_nat (n + dl)) k) in
  let m3 := divide m2 fp nn (Z.of_nat (n + dl) - 1) dd (Z.of_nat dl) in
  let m4 := fst (BnnShiftRight m3 dd (Z.of_nat dl) k) in
  let m' := fst (BnnShiftRight m4 nn (Z.of_nat dl) k) in
  wfm m -> (0 < n)%nat -> (0 < dl)%nat -> Z.of_nat (n + dl) < B31 ->
  apart fp nn (Z.of_nat (n + dl)) dd (Z.of_nat dl) ->
  ld m (nn + Z.of_nat (n + dl) - 1) < ld m (dd + Z.of_nat dl - 1) ->
  (forall a, a < nn \/ nn + Z.of_nat (n + dl) <= a -> a < fp \/ fp + 3 <= a ->
             ld m' a = ld m a) /\
  bnval m' (nn + Z.of_nat dl) n = N / D /\ bnval m' nn dl = N mod D.
Proof.
  intros N D k m1 m2 m3 m4 m' Hm Hn Hdl Hb (L1 & L2 & L3) Htop.
  pose proof (lead_lt m nn dd n dl Hm Hn Hdl Htop) as HND. fold N D in HND.
  destruct (bnval_lead m dd dl Hm Hdl) as (ED & HbD & HBdl). fold D in ED.
  pose proof (Hm (nn + Z.of_nat (n + dl) - 1)) as Ht1. pose proof (Hm (dd + Z.of_nat dl - 1)) as Ht2.
  set (td := ld m (dd + Z.of_nat dl - 1)) in *. unfold isu64 in Ht1, Ht2.
  destruct (BnnNumLeadingZeroBitsInDigit_spec td ltac:(lia)) as [Hk Htk]. fold k in Hk, Htk.
  pose proof (pow2_pos k ltac:(lia)) as Hp.
  pose proof (BBase_pos n) as HBn. pose proof (BBase_pos (dl - 1)) as HBd.
  pose proof (lead_shift_fits (bnval m dd (dl - 1)) (BBase (dl - 1)) td k Hk ltac:(lia) HbD) as HD2.
  rewrite <- ED, <- HBdl in HD2.
  assert (HD0 : 0 < D) by (assert (BBase (dl - 1) * 1 <= BBase (dl - 1) * td)
                             by (apply Z.mul_le_mono_nonneg_l; lia); lia).
  assert (HN2 : N * 2 ^ k < D * 2 ^ k * BBase n).
  { assert (N * 2 ^ k < D * BBase n * 2 ^ k) by (apply Z.mul_lt_mono_pos_r; lia). lia. }
  destruct (shl_exact m dd dl k Hm Hk HD2) as (Hm1 & Hf1 & E1). fold m1 D in Hm1, Hf1, E1.
  assert (EN1 : bnval m1 nn (n + dl) = N) by (apply (bnval_frame _ _ _ _ nn _ Hf1); lia).
  destruct (shl_exact m1 nn (n + dl) k Hm1 Hk) as (Hm2 & Hf2 & E2).
  { rewrite EN1, BBase_add.
    assert (D * 2 ^ k * BBase n < BBase dl * BBase n) by (apply Z.mul_lt_mono_pos_r; lia). lia. }
  fold m2 in Hm2, Hf2, E2. rewrite EN1 in E2.
  assert (E1' : bnval m2 dd dl = D * 2 ^ k)
    by (rewrite (bnval_frame _ _ _ _ dd _ Hf2) by lia; done).
  destruct (bnval_lead m2 dd dl Hm2 Hdl) as (Ed1 & HbD2 & _). rewrite E1' in Ed1.
  pose proof (Hm2 (dd + Z.of_nat dl - 1)) as Hd1. unfold isu64 in Hd1.
  set (d1 := ld m2 (dd + Z.of_nat dl - 1)) in *.
  assert (Hd1n : B63 <= d1).
  { apply Z.nlt_ge. intros C.
    assert (BBase (dl - 1) * (d1 + 1) <= BBase (dl - 1) * (td * 2 ^ k))
      by (apply Z.mul_le_mono_nonneg_l; lia).
    assert (BBase (dl - 1) * td * 2 ^ k <= D * 2 ^ k) by (apply Z.mul_le_mono_nonneg_r; lia). lia. }
  destruct (divide_spec fp nn dd dl (D * 2 ^ k) Hdl ltac:(lia) ltac:(lia) d1
              (bnval m2 dd (dl - 1)) ltac:(lia) HbD2 Ed1 m2 n) as (Hm3 & Hf3 & E3 & E4);
    auto; try (unfold layout; lia).
  fold m3 in Hm3, Hf3, E3, E4. rewrite E2 in E3, E4.
  rewrite Z.div_mul_cancel_r in E3 by lia. rewrite Z.mul_mod_distr_r in E4 by lia.
  assert (E3d : bnval m3 dd dl = D * 2 ^ k).
  { rewrite <- E1'. apply bnval_ext. intros a Ha. apply Hf3; lia. }
  destruct (shr_exact m3 dd dl k D Hm3 Hk E3d) as (Hm4 & Hf4 & E5). fold m4 in Hm4, Hf4, E5.
  destruct (shr_exact m4 nn dl k (N mod D) Hm4 Hk) as (Hm5 & Hf5 & E6).
  { rewrite (bnval_frame _ _ _ _ nn _ Hf4) by lia. done. }
  fold m' in Hm5, Hf5, E6. splits; auto.
  - intros a Ha1 Ha2. rewrite Hf5 by lia.
    assert (dd <= a < dd + Z.of_nat dl \/ (a < dd \/ dd + Z.of_nat dl <= a)) as [Hd|Hd] by lia.
    + apply (bnval_inj m m4 dd dl a); auto.
    + rewrite Hf4, Hf3, Hf2, Hf1 by lia. done.
  - rewrite (bnval_frame _ _ _ _ _ n Hf5), (bnval_frame _ _ _ _ _ n Hf4) by lia. done.
Qed.

Lemma BnnSetToZero_val m nn nl p n :
  nn <= p -> p + Z.of_nat n <= nn + nl -> bnval (BnnSetToZero m nn nl) p n = 0.
Proof.
  revert p. induction n as [|n IH]; intros p H1 H2; [done|].
  cbn [bnval]. rewrite IH, BnnSetToZero_ld by lia.
  rewrite (proj2 (Z.leb_le _ _)), (proj2 (Z.ltb_lt _ _)) by lia. done.
Qed.

Lemma BnnSetToZero_frame m nn nl : frame m (BnnSetToZero m nn nl) nn nl.
Proof. intros a Ha. rewrite BnnSetToZero_ld. zcases; simpl; done || lia. Qed.

(** The three easy cases, and the general one. *)
Lemma BnnDivide_spec m fp nn n dd dl :
  let N := bnval m nn (n + dl) in
  let D := bnval m dd dl in
  let m' := BnnDivide m fp nn (Z.of_nat (n + dl)) dd (Z.of_nat dl) in
  wfm m -> (0 < n)%nat -> (0 < dl)%nat -> Z.of_nat (n + dl) < B31 ->
  apart fp nn (Z.of_nat (n + dl)) dd (Z.of_nat dl) -> 0 < D ->
  (D < N -> ld m (nn + Z.of_nat (n + dl) - 1) < ld m (dd + Z.of_nat dl - 1)) ->
  (forall a, a < nn \/ nn + Z.of_nat (n + dl) <= a -> a < fp \/ fp + 3 <= a ->
             ld m' a = ld m a) /\
  bnval m' (nn + Z.of_nat dl) n = N / D /\ bnval m' nn dl = N mod D.
Proof.
  intros N D m' Hm Hn Hdl Hb HA HD Htop. pose proof HA as (L1 & L2 & L3).
  unfold m', BnnDivide. rewrite BnnCompare_spec by (try done; lia). fold N D. unfold cmp_of.
  assert (HN : 0 <= N) by (apply bnval_bounds; done).
  assert (EN : N = bnval m nn dl + BBase dl * bnval m (nn + Z.of_nat dl) n).
  { unfold N. rewrite <- bnval_app. f_equal. lia. }
  pose proof (bnval_bounds m nn dl Hm). pose proof (bnval_bounds m (nn + Z.of_nat dl) n Hm).
  pose proof (bnval_bounds m dd dl Hm) as HbD. fold D in HbD.
  destruct (Z.ltb_spec D N); [|destruct (Z.eqb_spec N D) as [E|]]; cbn [Z.eqb BN_GT BN_EQ BN_LT].
  - destruct (Z.eqb_spec (Z.of_nat dl) 1) as [E|E].
    + assert (dl = 1%nat) as -> by lia. clear E.
      specialize (Htop ltac:(lia)). unfold D in *. rewrite bnval_1 in *.
      replace (dd + Z.of_nat 1 - 1) with dd in Htop by lia.
      replace (nn + Z.of_nat (n + 1) - 1) with (nn + Z.of_nat n) in Htop by lia.
      replace (Z.of_nat (n + 1)) with (Z.of_nat (S n)) by lia.
      pose proof (BnnDivideDigit_spec m (nn + 1) nn n (ld m dd) Hm ltac:(pose proof (Hm dd); wint)
                    Htop ltac:(lia)) as HS.
      destruct (BnnDivideDigit _ _ _ _ _) as [m1 r]. destruct HS as (Hm1 & Hf1 & Hr & E1).
      assert (E2 : N = ld m dd * bnval m1 (nn + 1) n + r)
        by (unfold N; replace (n + 1)%nat with (S n) by lia; lia). splits.
      * intros a Ha _. rewrite ld_st_ne, Hf1 by lia. done.
      * change (Z.of_nat 1) with 1. rewrite bnval_st_out by lia. apply Z.div_unique_pos with (r := r); [lia|done].
      * rewrite bnval_1, ld_st_eq. apply Z.mod_unique_pos with (q := bnval m1 (nn + 1) n); [lia|done].
    + rewrite (u64_id (Z.of_nat (n + dl) - 1)) by (unfold isu64; lia).
      apply BnnDivide_normalized; auto.
  - rewrite E, Z.div_same, Z.mod_same by lia. unfold BnnSetDigit.
    pose proof (BnnSetToZero_frame m nn (Z.of_nat (n + dl))) as Hf. splits.
    + intros a Ha _. rewrite ld_st_ne, Hf by lia. done.
    + destruct n as [|n]; [lia|]. rewrite bnval_st_hd, BnnSetToZero_val by lia. done.
    + rewrite bnval_st_out, BnnSetToZero_val by lia. done.
  - assert (bnval m (nn + Z.of_nat dl) n = 0) as Ez.
    { destruct (Z.eq_dec (bnval m (nn + Z.of_nat dl) n) 0); [done|].
      assert (BBase dl * 1 <= BBase dl * bnval m (nn + Z.of_nat dl) n)
        by (apply Z.mul_le_mono_nonneg_l; lia). lia. }
    rewrite Z.div_small, Z.mod_small by lia.
    replace (Z.of_nat (n + dl) - Z.of_nat dl) with (Z.of_nat n) by lia.
    rewrite u64_id by (unfold isu64; lia).
    pose proof (BnnSetToZero_frame m (nn + Z.of_nat dl) (Z.of_nat n)) as Hf. splits.
    + intros a Ha _. apply Hf. lia.
    + apply BnnSetToZero_val; lia.
    + etransitivity; [apply (bnval_frame _ _ _ _ nn dl Hf); lia|lia].
Qed.

(** ** The properties of the big number package *)

(** C38: long division in place.  For a divisor [D > 0] of [dl] digits and a
    dividend of more digits whose leading digit is below the divisor's when it
    is the larger number, [BnnDivide] leaves the remainder in the low [dl] digits
    and the quotient in the others, and changes nothing but the dividend and its
    own locals; in particular it restores the divisor it complemented. *)
Theorem BnnDivide_correct m fp nn n dd dl :
  let N := bnval m nn (n + dl) in
  let D := bnval m dd dl in
  let m' := BnnDivide m fp nn (Z.of_nat (n + dl)) dd (Z.of_nat dl) in
  wfm m -> (0 < n)%nat -> (0 < dl)%nat -> Z.of_nat (n + dl) < B31 ->
  apart fp nn (Z.of_nat (n + dl)) dd (Z.of_nat dl) -> 0 < D ->
  (D < N -> ld m (nn + Z.of_nat (n + dl) - 1) < ld m (dd + Z.of_nat dl - 1)) ->
  (forall a, a < nn \/ nn + Z.of_nat (n + dl) <= a -> a < fp \/ fp + 3 <= a ->
             ld m' a = ld m a) /\
  bnval m' (nn + Z.of_nat dl) n = N / D /\ bnval m' nn dl = N mod D.
Proof. apply BnnDivide_spec. Qed.

Lemma BnnDivide_correct_witness :
  let m' := BnnDivide division_example 20 0 (Z.of_nat (2 + 2)) 10 (Z.of_nat 2) in
  bnval m' 2 2 = bnval division_example 0 4 / bnval division_example 10 2 /\
  bnval m' 0 2 = bnval division_example 0 4 mod bnval division_example 10 2.
Proof.
  apply (BnnDivide_correct division_example 20 0 2 10 2).
  - apply division_example_wf.
  - lia.
  - lia.
  - vm_compute. reflexivity.
  - unfold apart. lia.
  - vm_compute. reflexivity.
  - intros _. vm_compute. reflexivity.
Defined.

(** C39: multiplication adds the exact product, whichever loop it takes (the
    digit by digit one or the squaring one): the digits left in [P] are
    [P + M * N] modulo the base of [P], and the result is the carry out. *)
Theorem BnnMultiply_correct m pp pl mm ml nn nl :
  wfm m -> (ml + nl <= pl)%nat -> 3 * Z.of_nat pl < B64 ->
  pp + Z.of_nat pl <= mm \/ mm + Z.of_nat ml <= pp ->
  pp + Z.of_nat pl <= nn \/ nn + Z.of_nat nl <= pp ->
  let S := bnval m pp pl + bnval m mm ml * bnval m nn nl in
  let '(m', c) := BnnMultiply m pp (Z.of_nat pl) mm (Z.of_nat ml) nn (Z.of_nat nl) in
  bnval m' pp pl = S mod BBase pl /\ c = S / BBase pl /\ frame m m' pp (Z.of_nat pl).
Proof.
  intros Hm Hl Hb Hd1 Hd2 S.
  pose proof (BnnMultiply_spec m pp pl mm ml nn nl Hm Hl Hb Hd1 Hd2) as H.
  destruct (BnnMultiply _ _ _ _ _ _ _) as [m' c]. destruct H as (Hm' & Hf & E).
  pose proof (bnval_bounds m' pp pl Hm'). splits; [| |done].
  - apply Z.mod_unique_pos with (q := c); unfold S; lia.
  - apply Z.div_unique_pos with (r := bnval m' pp pl); unfold S; lia.
Qed.

(** Squaring [2^448 - 1], seven digits of ones, into fourteen. *)
Lemma BnnMultiply_correct_witness :
  let m := fill ∅ 0 7 (B64 - 1) in
  let '(m', c) := BnnMultiply m 20 (Z.of_nat 14) 0 (Z.of_nat 7) 0 (Z.of_nat 7) in
  bnval m' 20 14 = (bnval m 20 14 + bnval m 0 7 * bnval m 0 7) mod BBase 14 /\
  c = (bnval m 20 14 + bnval m 0 7 * bnval m 0 7) / BBase 14 /\ frame m m' 20 (Z.of_nat 14).
Proof.
  apply (BnnMultiply_correct (fill ∅ 0 7 (B64 - 1)) 20 14 0 7 0 7).
  - apply fill_wf; [apply wfm_empty|]. unfold isu64. lia.
  - lia.
  - lia.
  - lia.
  - lia.
Defined.

(** Comparison is the order of the values, leading zeros notwithstanding. *)
Theorem BnnCompare_correct m mm ml nn nl :
  wfm m -> (0 < ml)%nat -> (0 < nl)%nat ->
  BnnCompare m mm (Z.of_nat ml) nn (Z.of_nat nl) =
  match bnval m mm ml ?= bnval m nn nl with Lt => BN_LT | Eq => BN_EQ | Gt => BN_GT end.
Proof.
  intros Hm H1 H2. rewrite BnnCompare_spec by done. unfold cmp_of.
  destruct (Z.compare_spec (bnval m mm ml) (bnval m nn nl)); zcases; lia || done.
Qed.

Lemma BnnCompare_correct_witness :
  BnnCompare division_example 0 (Z.of_nat 4) 10 (Z.of_nat 2) = BN_GT.
Proof.
  rewrite (BnnCompare_correct division_example 0 4 10 2 division_example_wf ltac:(lia) ltac:(lia)).
  vm_compute. reflexivity.
Defined.
