(* ===== verification/Freelist.v ===== *)
(** * The free list

    Models [byterun/freelist.c] (without the checks of the [DEBUG] build).  The
    free blocks of the major heap are linked through their first field, by
    increasing addresses, from a static sentinel [Fl_head]; allocation is next-fit
    from [fl_prev], and the sweeper inserts and merges at [fl_merge]. *)

From S2P Require Import Prelude Mlvalues.

#[local] Set Primitive Projections.

(** The static variables of the module, with the memory. *)
Record freelist := MkFl {
  fmem : mem;
  fl_prev : Z;
  fl_last : Z;
  fl_merge : Z;
  fl_cur_size : Z;
  last_fragment : Z
}.

Definition Next (m : mem) (b : Z) : Z := ld m b.

Section Freelist.
Context (Fl_head : Z).

(** ** Allocation *)

Definition allocate_block (wh_sz prev cur : Z) (s : freelist) : Z * freelist :=
  let m := fmem s in
  let h := Hd_val m cur in
  let hp := cur + Bosize_hd h - Bsize_wsize wh_sz in
  if Wosize_hd h <? wh_sz + 1 then
    let m := st m prev (Next m cur) in
    let m := st m (Hp_val cur) (Make_header 0 0 Caml_white) in
    (hp, MkFl m prev (fl_last s) (if fl_merge s =? cur then prev else fl_merge s)
           (u64 (fl_cur_size s - Whsize_hd h)) (last_fragment s))
  else
    let m := st m (Hp_val cur) (Make_header (Wosize_hd h - wh_sz) 0 Caml_blue) in
    (hp, MkFl m prev (fl_last s) (fl_merge s) (u64 (fl_cur_size s - wh_sz)) (last_fragment s)).

(** What a search of the list finds. *)
Inductive search := Found (prev cur : Z) | NotFound (last : Z) | OutOfFuel.

(** The first loop of [fl_allocate]: from [prev] to the end of the list. *)
Fixpoint search_end (fuel : nat) (m : mem) (wo_sz prev : Z) : search :=
  match fuel with
  | O => OutOfFuel
  | S fuel =>
      let cur := Next m prev in
      if cur =? 0 then NotFound prev
      else if wo_sz <=? Wosize_val m cur then Found prev cur
      else search_end fuel m wo_sz cur
  end.

(** The second loop: from [prev] to [stop]. *)
Fixpoint search_upto (fuel : nat) (m : mem) (wo_sz prev stop : Z) : search :=
  match fuel with
  | O => OutOfFuel
  | S fuel =>
      if prev =? stop then NotFound prev
      else
        let cur := Next m prev in
        if wo_sz <=? Wosize_val m cur then Found prev cur
        else search_upto fuel m wo_sz cur stop
  end.

(** [None]: out of fuel; the address [0] is [NULL]. *)
Definition fl_allocate (fuel : nat) (wo_sz : Z) (s : freelist) : option (Z * freelist) :=
  match search_end fuel (fmem s) wo_sz (fl_prev s) with
  | OutOfFuel => None
  | Found prev cur => Some (allocate_block (Whsize_wosize wo_sz) prev cur s)
  | NotFound last =>
      let s := MkFl (fmem s) (fl_prev s) last (fl_merge s) (fl_cur_size s) (last_fragment s) in
      match search_upto fuel (fmem s) wo_sz Fl_head (fl_prev s) with
      | OutOfFuel => None
      | Found prev cur => Some (allocate_block (Whsize_wosize wo_sz) prev cur s)
      | NotFound _ => Some (0, s)
      end
  end.

(** ** Insertion *)

Definition fl_init_merge (s : freelist) : freelist :=
  MkFl (fmem s) (fl_prev s) (fl_last s) Fl_head (fl_cur_size s) 0.

Definition fl_reset (s : freelist) : freelist :=
  fl_init_merge (MkFl (st (fmem s) Fl_head 0) Fl_head (fl_last s) (fl_merge s) 0 (last_fragment s)).

(** The three stages of [fl_merge_block]: the block absorbs the fragment before
    it, then the free block after it, then it is merged into the free block before
    it, linked, or kept as a fragment. *)
Definition merge_fragment (bp hd : Z) (s : freelist) : Z * Z * freelist :=
  if last_fragment s =? Hp_val bp then
    let hd := Make_header (Whsize_val (fmem s) bp) 0 Caml_white in
    let bp := last_fragment s in
    (bp, hd, MkFl (st (fmem s) (Hp_val bp) hd) (fl_prev s) (fl_last s) (fl_merge s)
               (u64 (fl_cur_size s + Whsize_wosize 0)) (last_fragment s))
  else (bp, hd, s).

Definition merge_next (bp hd prev cur : Z) (s : freelist) : Z * Z * freelist :=
  if bp + Bosize_hd hd =? Hp_val cur then
    let m := fmem s in
    let next_cur := Next m cur in
    let cur_whsz := Whsize_val m cur in
    let m := st m prev next_cur in
    let hd := Make_header (Wosize_hd hd + cur_whsz) 0 Caml_blue in
    let m := st m (Hp_val bp) hd in
    (hd, next_cur, MkFl m (if fl_prev s =? cur then prev else fl_prev s) (fl_last s) (fl_merge s)
                     (fl_cur_size s) (last_fragment s))
  else (hd, cur, s).

Definition merge_prev (bp hd prev cur : Z) (s : freelist) : freelist :=
  let m := fmem s in
  if prev + Bosize_val m prev =? Hp_val bp then
    MkFl (st m (Hp_val prev) (Make_header (Wosize_val m prev + Whsize_hd hd) 0 Caml_blue))
      (fl_prev s) (fl_last s) (fl_merge s) (fl_cur_size s) (last_fragment s)
  else if negb (Wosize_hd hd =? 0) then
    let m := st m (Hp_val bp) (Bluehd_hd hd) in
    let m := st m bp cur in
    let m := st m prev bp in
    MkFl m (fl_prev s) (fl_last s) bp (fl_cur_size s) (last_fragment s)
  else MkFl m (fl_prev s) (fl_last s) (fl_merge s) (u64 (fl_cur_size s - Whsize_wosize 0)) bp.

Definition fl_merge_block (bp : Z) (s : freelist) : Z * freelist :=
  let hd := Hd_val (fmem s) bp in
  let s := MkFl (fmem s) (fl_prev s) (fl_last s) (fl_merge s)
             (u64 (fl_cur_size s + Whsize_hd hd)) (last_fragment s) in
  let prev := fl_merge s in
  let cur := Next (fmem s) prev in
  let '(bp, hd, s) := merge_fragment bp hd s in
  let '(hd, cur, s) := merge_next bp hd prev cur s in
  (bp + Bosize_hd hd, merge_prev bp hd prev cur s).

(** The place of [bp] in the list, from [prev]. *)
Fixpoint find_place (fuel : nat) (m : mem) (bp prev : Z) : option (Z * Z) :=
  match fuel with
  | O => None
  | S fuel =>
      let cur := Next m prev in
      if negb (cur =? 0) && (cur <? bp) then find_place fuel m bp cur else Some (prev, cur)
  end.

Definition fl_add_block (fuel : nat) (bp gc_sweep_hp : Z) (s : freelist) : option freelist :=
  let size := u64 (fl_cur_size s + Whsize_val (fmem s) bp) in
  let m := fmem s in
  if fl_last s <? bp then
    Some (MkFl (st (st m (fl_last s) bp) bp 0) (fl_prev s) (fl_last s) (fl_merge s) size (last_fragment s))
  else
    match find_place fuel m bp Fl_head with
    | None => None
    | Some (prev, cur) =>
        Some (MkFl (st (st m bp cur) prev bp) (fl_prev s) (fl_last s)
                (if (prev =? fl_merge s) && (bp <=? gc_sweep_hp) then bp else fl_merge s)
                size (last_fragment s))
    end.

(** ** The list *)

(** Following the links from [p] visits [l] and then reaches [q]. *)
Fixpoint path (m : mem) (p : Z) (l : list Z) (q : Z) : Prop :=
  match l with
  | [] => Next m p = q
  | b :: l => Next m p = b /\ path m b l q
  end.

Fixpoint last_of (p : Z) (l : list Z) : Z :=
  match l with [] => p | b :: l => last_of b l end.

(** A free block: blue, large enough to be linked. *)
Definition free_block (m : mem) (b : Z) : Prop :=
  1 <= Wosize_val m b <= Max_wosize /\ Is_blue_hd (Hd_val m b) = true.

(** The end of a block, and the first address of its header. *)
Definition block_end (m : mem) (b : Z) : Z := b + 8 * Wosize_val m b.

(** The blocks of [l] are free, at [lo] or above, in increasing order and disjoint. *)
Fixpoint blocks (m : mem) (lo : Z) (l : list Z) : Prop :=
  match l with
  | [] => True
  | b :: l => lo <= b - 8 /\ free_block m b /\ blocks m (block_end m b) l
  end.

(** The sentinel, with its fillers, is away from the block at [b]. *)
Definition head_apart (m : mem) (b : Z) : Prop :=
  Fl_head + 16 <= b - 8 \/ block_end m b <= Fl_head - 16.

(** The words in the list. *)
Definition words_in (m : mem) (l : list Z) : Z := foldr (fun b n => Whsize_val m b + n) 0 l.

Definition fl_list (m : mem) (l : list Z) : Prop :=
  path m Fl_head l 0 /\ blocks m 8 l /\ Forall (head_apart m) l /\ 16 <= Fl_head.

(** The invariant of the module. *)
Definition fl_inv (s : freelist) (l : list Z) : Prop :=
  fl_list (fmem s) l /\ fl_prev s ∈ Fl_head :: l /\ fl_merge s ∈ Fl_head :: l /\
  fl_cur_size s = words_in (fmem s) l /\ words_in (fmem s) l < B64.

(** ** Paths *)

Lemma path_app m p l1 l2 q :
  path m p (l1 ++ l2) q <-> path m p l1 (Next m (last_of p l1)) /\ path m (last_of p l1) l2 q.
Proof.
  revert p. induction l1 as [|b l1 IH]; intros p; cbn [app path last_of].
  - split; [auto|now intros [_ ?]].
  - rewrite IH. tauto.
Qed.

Lemma last_of_elem p l : last_of p l ∈ p :: l.
Proof.
  revert p. induction l as [|b l IH]; intros p; cbn [last_of]; [apply list_elem_of_here|].
  apply list_elem_of_further, IH.
Qed.

(** A path depends on the links of its nodes only. *)
Lemma path_ext m m' p p' l q :
  path m p l q -> Next m' p' = Next m p -> (forall b, b ∈ l -> Next m' b = Next m b) ->
  path m' p' l q.
Proof.
  revert p p'. induction l as [|b l IH]; intros p p' H Hp Hl; cbn [path] in *; [congruence|].
  destruct H as [H1 H2]. split; [congruence|].
  apply (IH b); [done| |].
  - apply Hl, list_elem_of_here.
  - intros. now apply Hl, list_elem_of_further.
Qed.

(** Setting the last link of a path. *)
Lemma path_relink m p l q q' m' :
  path m p l q -> NoDup (p :: l) ->
  Next m' (last_of p l) = q' -> (forall b, b ∈ p :: l -> b <> last_of p l -> Next m' b = Next m b) ->
  path m' p l q'.
Proof.
  revert p. induction l as [|b l IH]; intros p H Hd Hq Hm; cbn [path last_of] in *; [done|].
  destruct H as [H1 H2]. apply NoDup_cons in Hd as [Hp Hd]. split.
  - rewrite Hm; [done|apply list_elem_of_here|]. intros ->. apply Hp, last_of_elem.
  - apply IH; try done. intros c Hc Hne. apply Hm; [|done]. now apply list_elem_of_further.
Qed.

(** ** Blocks *)

Lemma Make_header_blue w :
  1 <= w <= Max_wosize -> Wosize_hd (Make_header w 0 Caml_blue) = w.
Proof. intros. apply Wosize_Make_header; [lia|lia|unfold is_color; auto]. Qed.

Lemma blocks_ext m m' lo l :
  blocks m lo l -> (forall b, b ∈ l -> Hd_val m' b = Hd_val m b) -> blocks m' lo l.
Proof.
  revert lo. induction l as [|b l IH]; intros lo H Hm; cbn [blocks] in *; [done|].
  destruct H as (H1 & H2 & H3).
  assert (E : Hd_val m' b = Hd_val m b) by (apply Hm, list_elem_of_here).
  assert (Ew : Wosize_val m' b = Wosize_val m b) by (unfold Wosize_val; now rewrite E).
  splits; [done| |].
  - unfold free_block in *. now rewrite Ew, E.
  - unfold block_end in *. rewrite Ew. apply IH; [done|]. intros. now apply Hm, list_elem_of_further.
Qed.

Lemma blocks_weaken m lo lo' l : blocks m lo l -> lo' <= lo -> blocks m lo' l.
Proof. destruct l; cbn [blocks]; intuition lia. Qed.

Lemma blocks_elem m lo l b :
  blocks m lo l -> b ∈ l -> lo <= b - 8 /\ free_block m b.
Proof.
  revert lo. induction l as [|c l IH]; intros lo H Hb; [now apply elem_of_nil in Hb|].
  destruct H as (H1 & H2 & H3). apply elem_of_cons in Hb as [->|Hb]; [done|].
  destruct (IH _ H3 Hb) as [H4 H5]. split; [|done].
  unfold block_end in H4. destruct H2 as [Hw _]. lia.
Qed.

(** The parts of a list around a block. *)
Lemma blocks_app m lo l1 l2 :
  blocks m lo (l1 ++ l2) <->
  blocks m lo l1 /\ blocks m (match l1 with [] => lo | _ => block_end m (last_of 0 l1) end) l2.
Proof.
  revert lo. induction l1 as [|b l1 IH]; intros lo; cbn [app blocks last_of]; [tauto|].
  rewrite IH. destruct l1 as [|c l1]; cbn [last_of blocks]; tauto.
Qed.

Lemma blocks_before m lo l1 b l2 c :
  blocks m lo (l1 ++ b :: l2) -> c ∈ l1 -> block_end m c <= b - 8.
Proof.
  revert lo. induction l1 as [|d l1 IH]; intros lo H Hc; [now apply elem_of_nil in Hc|].
  destruct H as (H1 & H2 & H3). apply elem_of_cons in Hc as [->|Hc]; [|eauto].
  apply (blocks_elem m _ (l1 ++ b :: l2) b H3). apply elem_of_app. right. apply list_elem_of_here.
Qed.
Lemma blocks_after m lo l1 b l2 c :
  blocks m lo (l1 ++ b :: l2) -> c ∈ l2 -> block_end m b <= c - 8.
Proof.
  intros H Hc. apply blocks_app in H as [_ H]. cbn [blocks] in H.
  destruct H as (_ & _ & H). now destruct (blocks_elem _ _ _ _ H Hc).
Qed.

Lemma free_block_end m b : free_block m b -> b + 8 <= block_end m b.
Proof. unfold free_block, block_end. lia. Qed.

(** Two blocks of the list: the header of one is neither a link nor a header of the
    other. *)
Lemma blocks_distinct m lo l b c :
  blocks m lo l -> b ∈ l -> c ∈ l -> c <> b - 8.
Proof.
  intros H Hb Hc. apply list_elem_of_split in Hb as (l1 & l2 & ->).
  apply elem_of_app in Hc as [Hc|Hc].
  - pose proof (blocks_before _ _ _ _ _ _ H Hc).
    assert (free_block m c) as Hf%free_block_end
      by (eapply blocks_elem; [exact H|]; apply elem_of_app; now left). lia.
  - apply elem_of_cons in Hc as [->|Hc]; [lia|].
    pose proof (blocks_after _ _ _ _ _ _ H Hc).
    assert (free_block m b) as Hf%free_block_end.
    { eapply blocks_elem; [exact H|]. apply elem_of_app. right. apply list_elem_of_here. }
    lia.
Qed.

Lemma blocks_NoDup m lo l : blocks m lo l -> NoDup l.
Proof.
  revert lo. induction l as [|b l IH]; intros lo H; [constructor|].
  pose proof H as (_ & Hf & H'). constructor; [|eauto].
  intros Hb. pose proof (blocks_after m lo [] b l b H Hb). apply free_block_end in Hf. lia.
Qed.

Lemma fl_list_NoDup m l : fl_list m l -> NoDup (Fl_head :: l).
Proof.
  intros (_ & Hb & Ha & _). constructor; [|eapply blocks_NoDup; eauto].
  intros Hi. rewrite Forall_forall in Ha. specialize (Ha _ Hi).
  destruct (blocks_elem _ _ _ _ Hb Hi) as [_ Hf%free_block_end]. unfold head_apart in Ha. lia.
Qed.

(** The header of a block of the list is no link, the sentinel's included. *)
Lemma header_not_link m l b c : fl_list m l -> b ∈ l -> c ∈ Fl_head :: l -> c <> b - 8.
Proof.
  intros (_ & Hb & Ha & _) Hi Hc. apply elem_of_cons in Hc as [->|Hc].
  - rewrite Forall_forall in Ha. specialize (Ha _ Hi).
    destruct (blocks_elem _ _ _ _ Hb Hi) as [_ Hf%free_block_end]. unfold head_apart in Ha. lia.
  - now apply (blocks_distinct m 8 l).
Qed.

Lemma words_in_ext m m' l :
  (forall b, b ∈ l -> Hd_val m' b = Hd_val m b) -> words_in m' l = words_in m l.
Proof.
  induction l as [|b l IH]; intros H; cbn [words_in foldr]; [done|].
  unfold words_in in IH. rewrite IH by (intros; now apply H, list_elem_of_further).
  unfold Whsize_val, Wosize_val. rewrite H by apply list_elem_of_here. done.
Qed.
Lemma words_in_app m l1 l2 : words_in m (l1 ++ l2) = words_in m l1 + words_in m l2.
Proof. unfold words_in. induction l1 as [|b l1 IH]; cbn [app foldr]; [lia|]. rewrite IH. lia. Qed.
Lemma words_in_nonneg m lo l : blocks m lo l -> 0 <= words_in m l.
Proof.
  revert lo. induction l as [|b l IH]; intros lo H; cbn [words_in foldr]; [lia|].
  destruct H as (_ & [Hw _] & H). specialize (IH _ H). unfold words_in, Whsize_val, Whsize_wosize in *. lia.
Qed.
Lemma head_apart_ext m m' b : Hd_val m' b = Hd_val m b -> head_apart m b -> head_apart m' b.
Proof. unfold head_apart, block_end, Wosize_val. now intros ->. Qed.

(** ** Allocation *)

(** Taking [cur] out of the list. *)
Lemma unlink_list m l1 l2 cur m' prev :
  fl_list m (l1 ++ cur :: l2) -> prev = last_of Fl_head l1 ->
  Next m' prev = Next m cur ->
  (forall b, b ∈ Fl_head :: l1 ++ cur :: l2 -> b <> prev -> Next m' b = Next m b) ->
  (forall b, b ∈ l1 ++ l2 -> Hd_val m' b = Hd_val m b) ->
  fl_list m' (l1 ++ l2) /\ words_in m' (l1 ++ l2) = words_in m (l1 ++ cur :: l2) - (Wosize_val m cur + 1).
Proof.
  intros Hlist -> Hp Hl Hh.
  pose proof (fl_list_NoDup _ _ Hlist) as Hnd. destruct Hlist as (Hpath & Hb & Ha & Hhead).
  apply path_app in Hpath as [Hp1 [_ Hp2]]. unfold fl_list. splits.
  - apply path_app. split.
    + apply (path_relink m Fl_head l1 (Next m (last_of Fl_head l1))); try done.
      * rewrite app_comm_cons in Hnd. now apply NoDup_app in Hnd.
      * intros b Hb' Hne. apply Hl; [|done]. apply elem_of_cons in Hb' as [->|Hb'];
          [apply list_elem_of_here|apply list_elem_of_further, elem_of_app; now left].
    + apply (path_ext m _ cur); try done.
      intros b Hb'. apply Hl; [apply list_elem_of_further, elem_of_app; right; now apply list_elem_of_further|].
      intros ->. apply NoDup_cons in Hnd as [Hh0 Hnd]. apply NoDup_app in Hnd as (_ & Hd & _).
      pose proof (last_of_elem Fl_head l1) as He. apply elem_of_cons in He as [He|He].
      * rewrite He in Hb'. apply Hh0, elem_of_app. right. now apply list_elem_of_further.
      * apply (Hd _ He). now apply list_elem_of_further.
  - apply (blocks_ext m); [|done]. pose proof (blocks_app m 8 l1 (cur :: l2)) as [E _].
    apply E in Hb as [Hb1 Hb2]. apply blocks_app. split; [done|].
    destruct Hb2 as (Hlo & Hf & Hb2). eapply blocks_weaken; [exact Hb2|].
    apply free_block_end in Hf. lia.
  - apply Forall_app in Ha as [Ha1 Ha2]. apply Forall_cons in Ha2 as [_ Ha2].
    apply Forall_app. split; apply Forall_forall; intros b Hi.
    + rewrite Forall_forall in Ha1. apply (head_apart_ext m); [|now apply Ha1].
      apply Hh, elem_of_app. now left.
    + rewrite Forall_forall in Ha2. apply (head_apart_ext m); [|now apply Ha2].
      apply Hh, elem_of_app. now right.
  - done.
  - rewrite (words_in_ext m m') by done. rewrite !words_in_app.
    change (words_in m (cur :: l2)) with (Whsize_val m cur + words_in m l2).
    unfold Whsize_val, Whsize_wosize. lia.
Qed.

(** The region [hp, hp + 8n) meets no block of [l] and not the sentinel. *)
Definition region_free (m : mem) (l : list Z) (hp n : Z) : Prop :=
  (forall b, b ∈ l -> block_end m b <= hp \/ hp + 8 * n <= b - 8) /\
  (Fl_head + 16 <= hp \/ hp + 8 * n <= Fl_head - 16).

Section Allocate.
Context (s : freelist) (l1 l2 : list Z) (cur wh : Z).
Context (Hinv : fl_inv s (l1 ++ cur :: l2)).
Let m := fmem s.
Let w := Wosize_val m cur.

Lemma cur_in : cur ∈ l1 ++ cur :: l2.
Proof. apply elem_of_mid. Qed.

Lemma cur_free : free_block m cur.
Proof. destruct Hinv as ((_ & Hb & _) & _). now destruct (blocks_elem _ _ _ _ Hb cur_in). Qed.

Lemma cur_apart : head_apart m cur.
Proof. destruct Hinv as ((_ & _ & Ha & _) & _). rewrite Forall_forall in Ha. apply Ha, cur_in. Qed.

(** What allocation guarantees. *)
Definition allocated (hp : Z) (s' : freelist) (l' : list Z) : Prop :=
  fl_inv s' l' /\ region_free (fmem s') l' hp wh /\
  cur - 8 <= hp /\ hp + 8 * wh = block_end m cur /\ l' ⊆ l1 ++ cur :: l2 /\
  (forall a, a ∉ Fl_head :: l1 -> a <> cur - 8 -> ld (fmem s') a = ld m a).

Lemma prev_elem : last_of Fl_head l1 ∈ Fl_head :: l1.
Proof. apply last_of_elem. Qed.

Lemma Hp_val_eq b : Hp_val b = b - 8.
Proof. done. Qed.

Lemma others_end b : b ∈ l1 ++ l2 -> block_end m b <= cur - 8 \/ block_end m cur <= b - 8.
Proof.
  destruct Hinv as ((_ & Hb & _) & _). intros [Hi|Hi]%elem_of_app.
  - left. now apply (blocks_before m 8 l1 cur l2).
  - right. now apply (blocks_after m 8 l1 cur l2).
Qed.

(** Cases 0 and 1: the whole block leaves the list. *)
Lemma allocate_whole :
  1 <= wh -> wh - 1 <= w < wh + 1 ->
  let '(hp, s') := allocate_block wh (last_of Fl_head l1) cur s in
  allocated hp s' (l1 ++ l2).
Proof.
  intros Hwh Hw. destruct Hinv as (Hlist & Hprev & Hmerge & Hsize & Hbound). fold m in Hlist, Hsize, Hbound.
  unfold allocate_block. fold m. change (Wosize_hd (Hd_val m cur)) with w.
  destruct (Z.ltb_spec w (wh + 1)); [|lia].
  set (prev := last_of Fl_head l1).
  assert (Hpl : prev ∈ Fl_head :: l1 ++ cur :: l2).
  { pose proof prev_elem as E. apply elem_of_cons in E as [E|E]; unfold prev; rewrite ?E.
    - apply list_elem_of_here.
    - apply list_elem_of_further, elem_of_app. now left. }
  assert (Hpc : prev <> cur - 8) by (now apply (header_not_link m _ cur _ Hlist cur_in)).
  rewrite Hp_val_eq. set (m' := st (st m prev (Next m cur)) (cur - 8) _).
  pose proof (fl_list_NoDup _ _ Hlist) as [_ Hnd]%NoDup_cons.
  apply NoDup_app in Hnd as (_ & Hnd1 & [Hnd2 _]%NoDup_cons).
  assert (Hne : forall b, b ∈ l1 ++ l2 -> b <> cur).
  { intros b [Hb|Hb]%elem_of_app ->; [apply (Hnd1 _ Hb), list_elem_of_here|done]. }
  assert (Hsub : forall b, b ∈ l1 ++ l2 -> b ∈ l1 ++ cur :: l2) by (intros; now apply elem_of_skip_mid).
  destruct (unlink_list m l1 l2 cur m' prev Hlist) as [Hl' Hwords]; try done.
  { unfold m', Next. now rewrite ld_st_ne, ld_st_eq by congruence. }
  { intros b Hb Hbp. unfold m', Next. rewrite ld_st_ne; [now rewrite ld_st_ne by congruence|].
    pose proof (header_not_link m _ cur b Hlist cur_in Hb). congruence. }
  { intros b Hb. unfold Hd_val, m'. rewrite Hp_val_eq.
    pose proof (Hne b Hb). pose proof (header_not_link m _ b prev Hlist (Hsub b Hb) Hpl).
    now rewrite !ld_st_ne by lia. }
  fold w in Hwords. unfold allocated. cbn [fmem].
  assert (Hbe : block_end m cur = cur + 8 * w) by done.
  assert (Ebs : Bosize_hd (Hd_val m cur) = 8 * w) by (unfold Bosize_hd, Bsize_wsize, sizeof_value; fold w; change (Wosize_hd (Hd_val m cur)) with w; lia).
  assert (Ebw : Bsize_wsize wh = 8 * wh) by (unfold Bsize_wsize, sizeof_value; lia).
  rewrite Ebs, Ebw.
  assert (Hends : forall b, b ∈ l1 ++ l2 -> block_end m' b = block_end m b).
  { intros b Hb. unfold block_end, Wosize_val, Hd_val, m'. rewrite Hp_val_eq.
    pose proof (Hne b Hb). pose proof (header_not_link m _ b prev Hlist (Hsub b Hb) Hpl).
    now rewrite !ld_st_ne by lia. }
  splits.
  - unfold fl_inv. cbn [fmem fl_prev fl_merge fl_cur_size].
    assert (Hp' : prev ∈ Fl_head :: l1 ++ l2).
    { pose proof prev_elem as E. apply elem_of_cons in E as [E|E]; unfold prev; rewrite ?E.
      - apply list_elem_of_here.
      - apply list_elem_of_further, elem_of_app. now left. }
    splits; try done.
    + destruct (Z.eqb_spec (fl_merge s) cur) as [_|Hmc]; [done|].
      apply elem_of_cons in Hmerge as [->|Hm]; [apply list_elem_of_here|].
      apply list_elem_of_further, elem_of_app. apply elem_of_app in Hm as [Hm|Hm]; [now left|].
      apply elem_of_cons in Hm as [Hm|Hm]; [done|now right].
    + rewrite Hwords, Hsize. change (Whsize_hd (Hd_val m cur)) with (w + 1). apply u64_id.
      pose proof (words_in_nonneg m' 8 (l1 ++ l2) (proj1 (proj2 Hl'))). unfold isu64. lia.
    + rewrite Hwords. lia.
  - split.
    + intros b Hb. rewrite Hends by done. destruct (others_end b Hb); lia.
    + destruct cur_apart as [Hc|Hc]; lia.
  - lia.
  - lia.
  - intros b Hb. now apply Hsub.
  - intros a Ha1 Ha2. unfold m'. rewrite ld_st_ne by congruence. apply ld_st_ne.
    intros <-. apply Ha1, prev_elem.
Qed.

(** Case 2: the block keeps its place with its low words. *)
Lemma allocate_split :
  1 <= wh -> wh + 1 <= w ->
  let '(hp, s') := allocate_block wh (last_of Fl_head l1) cur s in
  allocated hp s' (l1 ++ cur :: l2).
Proof.
  intros Hwh Hw. destruct Hinv as (Hlist & Hprev & Hmerge & Hsize & Hbound). fold m in Hlist, Hsize, Hbound.
  pose proof cur_free as [Hcw _]. fold w in Hcw.
  unfold allocate_block. fold m. change (Wosize_hd (Hd_val m cur)) with w.
  destruct (Z.ltb_spec w (wh + 1)); [lia|].
  rewrite Hp_val_eq. set (m' := st m (cur - 8) _).
  assert (Ebs : Bosize_hd (Hd_val m cur) = 8 * w) by (unfold Bosize_hd, Bsize_wsize, sizeof_value; change (Wosize_hd (Hd_val m cur)) with w; lia).
  assert (Ebw : Bsize_wsize wh = 8 * wh) by (unfold Bsize_wsize, sizeof_value; lia).
  rewrite Ebs, Ebw.
  assert (Hbe : block_end m cur = cur + 8 * w) by done.
  assert (Ehd : Hd_val m' cur = Make_header (w - wh) 0 Caml_blue).
  { unfold Hd_val, m'. rewrite Hp_val_eq. apply ld_st_eq. }
  assert (Ew : Wosize_val m' cur = w - wh).
  { unfold Wosize_val. rewrite Ehd. apply Make_header_blue. lia. }
  assert (Hbe' : block_end m' cur = cur + 8 * (w - wh)) by (unfold block_end; now rewrite Ew).
  destruct Hlist as (Hpath & Hb & Ha & Hhead).
  pose proof (blocks_NoDup _ _ _ Hb) as Hnd. apply NoDup_app in Hnd as (_ & Hnd1 & [Hnd2 _]%NoDup_cons).
  assert (Hne : forall b, b ∈ l1 ++ l2 -> b <> cur).
  { intros b [Hi|Hi]%elem_of_app ->; [apply (Hnd1 _ Hi), list_elem_of_here|done]. }
  assert (Hhd : forall b, b ∈ l1 ++ l2 -> Hd_val m' b = Hd_val m b).
  { intros b Hi. unfold Hd_val, m'. rewrite Hp_val_eq. apply ld_st_ne. specialize (Hne b Hi). lia. }
  assert (Hb' : blocks m' 8 (l1 ++ cur :: l2)).
  { pose proof (blocks_app m 8 l1 (cur :: l2)) as [E _]. apply E in Hb as [Hb1 Hb2].
    apply blocks_app. split.
    - apply (blocks_ext m); [done|]. intros b Hi. apply Hhd, elem_of_app. now left.
    - destruct Hb2 as (Hlo & Hf & Hb2). cbn [blocks]. splits.
      + destruct l1 as [|c l1']; [done|]. cbn [last_of] in *.
        assert (Hlc : last_of c l1' ∈ (c :: l1') ++ l2) by (apply elem_of_app; left; apply last_of_elem).
        unfold block_end, Wosize_val in *. now rewrite Hhd.
      + unfold free_block. rewrite Ew, Ehd. split; [lia|apply Is_blue_Make_header; lia].
      + eapply blocks_weaken; [apply (blocks_ext m); [exact Hb2|]|lia].
        intros b Hi. apply Hhd, elem_of_app. now right. }
  unfold allocated. cbn [fmem]. splits.
  - unfold fl_inv. cbn [fmem fl_prev fl_merge fl_cur_size].
    assert (Hwords : words_in m' (l1 ++ cur :: l2) = words_in m (l1 ++ cur :: l2) - wh).
    { rewrite !words_in_app. change (words_in ?n (cur :: l2)) with (Wosize_val n cur + 1 + words_in n l2).
      rewrite Ew. fold w. rewrite (words_in_ext m m' l1), (words_in_ext m m' l2); [lia| |].
      - intros b Hi. apply Hhd, elem_of_app. now right.
      - intros b Hi. apply Hhd, elem_of_app. now left. }
    splits.
    + unfold fl_list. splits; try done.
      * apply (path_ext m _ Fl_head); [done| |].
        -- unfold Next, m'. apply ld_st_ne.
           pose proof (header_not_link m _ cur Fl_head (conj Hpath (conj Hb (conj Ha Hhead))) cur_in (list_elem_of_here _ _)). congruence.
        -- intros b Hi. unfold Next, m'. apply ld_st_ne.
           pose proof (blocks_distinct m 8 _ cur b Hb cur_in Hi). congruence.
      * apply Forall_forall. intros b Hi. rewrite Forall_forall in Ha. pose proof (Ha b Hi) as Hab.
        destruct (decide (b = cur)) as [->|Hbc].
        -- unfold head_apart in *. rewrite Hbe'. rewrite Hbe in Hab. lia.
        -- apply (head_apart_ext m); [|done]. apply Hhd. now apply (elem_of_drop_mid cur).
    + pose proof prev_elem as E. apply elem_of_cons in E as [E|E]; rewrite ?E.
      * apply list_elem_of_here.
      * apply list_elem_of_further, elem_of_app. now left.
    + done.
    + rewrite Hwords, Hsize. apply u64_id. pose proof (words_in_nonneg m' 8 _ Hb'). unfold isu64. lia.
    + lia.
  - split.
    + intros b Hi. destruct (decide (b = cur)) as [->|Hbc]; [lia|].
      assert (Hi' : b ∈ l1 ++ l2) by now apply (elem_of_drop_mid cur).
      replace (block_end m' b) with (block_end m b) by (unfold block_end, Wosize_val; now rewrite Hhd).
      destruct (others_end b Hi'); lia.
    + destruct cur_apart as [Hc|Hc]; lia.
  - lia.
  - lia.
  - done.
  - intros a Ha1 Ha2. unfold m'. apply ld_st_ne. congruence.
Qed.
End Allocate.

(** ** Searching *)

Lemma search_end_spec m wo p l : forall fuel,
  path m p l 0 -> Forall (fun b => b <> 0) l -> (length l < fuel)%nat ->
  match search_end fuel m wo p with
  | Found prev cur => exists l1 l2, l = l1 ++ cur :: l2 /\ prev = last_of p l1 /\ wo <= Wosize_val m cur
  | NotFound q => q = last_of p l /\ Forall (fun b => Wosize_val m b < wo) l
  | OutOfFuel => False
  end.
Proof.
  revert p. induction l as [|b l IH]; intros p fuel Hp Hnz Hf; destruct fuel as [|fuel]; cbn [length] in Hf; try lia;
    cbn [search_end path last_of] in *.
  - rewrite Hp. cbn [Z.eqb]. auto.
  - destruct Hp as [-> Hp]. apply Forall_cons in Hnz as [Hb Hnz].
    destruct (Z.eqb_spec b 0); [done|]. destruct (Z.leb_spec wo (Wosize_val m b)).
    + exists [], l. auto.
    + specialize (IH b fuel Hp Hnz ltac:(lia)).
      destruct (search_end fuel m wo b) as [prev cur|q|]; try done.
      * destruct IH as (l1 & l2 & -> & -> & Hw). exists (b :: l1), l2. auto.
      * destruct IH as [-> Hall]. split; [done|]. constructor; [lia|done].
Qed.

Lemma search_upto_spec m wo p l q : forall fuel,
  path m p l q -> NoDup (p :: l) -> (length l < fuel)%nat ->
  match search_upto fuel m wo p (last_of p l) with
  | Found prev cur => exists l1 l2, l = l1 ++ cur :: l2 /\ prev = last_of p l1 /\ wo <= Wosize_val m cur
  | NotFound _ => Forall (fun b => Wosize_val m b < wo) l
  | OutOfFuel => False
  end.
Proof.
  revert p. induction l as [|b l IH]; intros p fuel Hp Hnd Hf; destruct fuel as [|fuel]; cbn [length] in Hf; try lia;
    cbn [search_upto path last_of] in *.
  - rewrite Z.eqb_refl. constructor.
  - destruct Hp as [-> Hp]. apply NoDup_cons in Hnd as [Hpn Hnd].
    destruct (Z.eqb_spec p (last_of b l)) as [->|_]; [exfalso; apply Hpn, last_of_elem|].
    destruct (Z.leb_spec wo (Wosize_val m b)).
    + exists [], l. auto.
    + specialize (IH b fuel Hp Hnd ltac:(lia)).
      destruct (search_upto fuel m wo b (last_of b l)) as [prev cur|x|]; try done.
      * destruct IH as (l1 & l2 & -> & -> & Hw). exists (b :: l1), l2. auto.
      * constructor; [lia|done].
Qed.

(** A node of the list is the last one of a prefix. *)
Lemma prefix_of_node p l x : x ∈ p :: l -> exists l1 l2, l = l1 ++ l2 /\ x = last_of p l1.
Proof.
  revert p. induction l as [|b l IH]; intros p [->|Hx]%elem_of_cons.
  - exists [], []. done.
  - now apply elem_of_nil in Hx.
  - exists [], (b :: l). done.
  - destruct (IH b Hx) as (l1 & l2 & -> & ->). exists (b :: l1), l2. done.
Qed.
Lemma last_of_app p l1 l2 : last_of p (l1 ++ l2) = last_of (last_of p l1) l2.
Proof. revert p. induction l1 as [|b l1 IH]; intros p; cbn [app last_of]; auto. Qed.

Lemma allocate_block_spec s l1 l2 cur wh :
  fl_inv s (l1 ++ cur :: l2) -> 1 <= wh -> wh - 1 <= Wosize_val (fmem s) cur ->
  let '(hp, s') := allocate_block wh (last_of Fl_head l1) cur s in
  exists l', allocated s l1 l2 cur wh hp s' l'.
Proof.
  intros Hinv Hwh Hw. destruct (Z_lt_le_dec (Wosize_val (fmem s) cur) (wh + 1)).
  - pose proof (allocate_whole s l1 l2 cur wh Hinv Hwh ltac:(lia)) as H.
    destruct (allocate_block _ _ _ _) as [hp s']. eauto.
  - pose proof (allocate_split s l1 l2 cur wh Hinv Hwh ltac:(lia)) as H.
    destruct (allocate_block _ _ _ _) as [hp s']. eauto.
Qed.

(** The result of a request for [wo] words on the list [l]. *)
Definition fl_result (wo : Z) (s : freelist) (l : list Z) (hp : Z) (s' : freelist) : Prop :=
  (hp <> 0 /\ exists l1 cur l2 l', l = l1 ++ cur :: l2 /\ wo <= Wosize_val (fmem s) cur /\
     allocated s l1 l2 cur (wo + 1) hp s' l') \/
  (hp = 0 /\ Forall (fun b => Wosize_val (fmem s) b < wo) l /\ fl_inv s' l /\ fmem s' = fmem s /\
     fl_last s' = last_of Fl_head l).

Lemma found_result wo s l l1 l2 cur :
  fl_inv s l -> 1 <= wo -> l = l1 ++ cur :: l2 -> wo <= Wosize_val (fmem s) cur ->
  let '(hp, s') := allocate_block (Whsize_wosize wo) (last_of Fl_head l1) cur s in
  fl_result wo s l hp s'.
Proof.
  intros Hinv Hwo -> Hw. unfold Whsize_wosize.
  pose proof (allocate_block_spec s l1 l2 cur (wo + 1) Hinv ltac:(lia) ltac:(lia)) as H.
  destruct (allocate_block _ _ _ _) as [hp s']. destruct H as (l' & Hal). left. split.
  - destruct Hal as (_ & _ & Hhp & _). destruct Hinv as ((_ & Hb & _) & _).
    destruct (blocks_elem _ _ _ cur Hb (elem_of_mid _ _ _)). lia.
  - exists l1, cur, l2, l'. auto.
Qed.

Lemma fl_allocate_spec fuel wo s l :
  fl_inv s l -> 1 <= wo -> (length l < fuel)%nat ->
  exists hp s', fl_allocate fuel wo s = Some (hp, s') /\ fl_result wo s l hp s'.
Proof.
  intros Hinv Hwo Hf. pose proof Hinv as (Hlist & Hprev & Hmerge & Hsize & Hbound).
  pose proof (fl_list_NoDup _ _ Hlist) as Hnd. pose proof Hlist as (Hpath & Hb & _).
  destruct (prefix_of_node _ _ _ Hprev) as (la & lb & -> & Hp).
  pose proof (proj1 (path_app _ _ _ _ _) Hpath) as [Hpa Hpb]. rewrite <- Hp in Hpb.
  assert (Hnz : Forall (fun b => b <> 0) lb).
  { apply Forall_forall. intros b Hi. destruct (blocks_elem _ _ _ b Hb); [|lia]. apply elem_of_app. now right. }
  rewrite length_app in Hf. unfold fl_allocate.
  pose proof (search_end_spec (fmem s) wo (fl_prev s) lb fuel Hpb Hnz ltac:(lia)) as HE.
  destruct (search_end fuel (fmem s) wo (fl_prev s)) as [prev cur|q|]; [| |done].
  - destruct HE as (l1 & l2 & -> & -> & Hw). rewrite Hp, <- last_of_app.
    pose proof (found_result wo s _ (la ++ l1) l2 cur Hinv Hwo ltac:(now rewrite <- app_assoc) Hw) as H.
    destruct (allocate_block _ _ _ _) as [hp s']. eauto.
  - destruct HE as [-> HallB]. cbn [fmem fl_prev].
    set (s1 := MkFl (fmem s) (fl_prev s) _ _ _ _).
    assert (Hinv1 : fl_inv s1 (la ++ lb)) by exact Hinv.
    rewrite app_comm_cons in Hnd. apply NoDup_app in Hnd as [Hnda _].
    pose proof (search_upto_spec (fmem s) wo Fl_head la _ fuel Hpa Hnda ltac:(lia)) as HU.
    rewrite <- Hp in HU.
    destruct (search_upto fuel (fmem s) wo Fl_head (fl_prev s)) as [prev cur|q|]; [| |done].
    + destruct HU as (l1 & l2 & -> & -> & Hw).
      pose proof (found_result wo s1 _ l1 (l2 ++ lb) cur Hinv1 Hwo ltac:(now rewrite <- app_assoc) Hw) as H.
      destruct (allocate_block _ _ _ _) as [hp s']. exists hp, s'. split; [done|]. exact H.
    + exists 0, s1. split; [done|]. right. splits; try done.
      * apply Forall_app. done.
      * rewrite last_of_app, <- Hp. reflexivity.
Qed.

(** ** Insertion *)

(** The block [bp] fits between [l1] and [l2]. *)
Definition fits (m : mem) (l1 l2 : list Z) (bp : Z) : Prop :=
  (forall c, c ∈ l1 -> block_end m c <= bp - 8) /\
  (forall c, c ∈ l2 -> block_end m bp <= c - 8) /\ head_apart m bp /\ 16 <= bp.

(** Linking a free block in. *)
Lemma insert_list m m' l1 l2 bp :
  fl_list m (l1 ++ l2) -> fits m l1 l2 bp -> free_block m bp ->
  Next m' (last_of Fl_head l1) = bp -> Next m' bp = Next m (last_of Fl_head l1) ->
  (forall b, b ∈ Fl_head :: l1 ++ l2 -> b <> last_of Fl_head l1 -> Next m' b = Next m b) ->
  (forall b, b ∈ l1 ++ bp :: l2 -> Hd_val m' b = Hd_val m b) ->
  fl_list m' (l1 ++ bp :: l2) /\ words_in m' (l1 ++ bp :: l2) = words_in m (l1 ++ l2) + Whsize_val m bp.
Proof.
  intros Hlist (F1 & F2 & F3 & F4) Hfree Hp Hbp Hl Hh.
  pose proof (fl_list_NoDup _ _ Hlist) as Hnd. destruct Hlist as (Hpath & Hb & Ha & Hhead).
  apply path_app in Hpath as [Hp1 Hp2]. unfold fl_list. splits.
  - apply path_app. split.
    + apply (path_relink m Fl_head l1 (Next m (last_of Fl_head l1))); try done.
      * rewrite app_comm_cons in Hnd. now apply NoDup_app in Hnd.
      * intros b Hi Hne. apply Hl; [|done]. apply elem_of_cons in Hi as [->|Hi];
          [apply list_elem_of_here|apply list_elem_of_further, elem_of_app; now left].
    + cbn [path]. split; [done|]. apply (path_ext m _ (last_of Fl_head l1)); try done.
      intros b Hi. apply Hl; [apply list_elem_of_further, elem_of_app; now right|].
      intros ->. apply NoDup_cons in Hnd as [Hh0 Hnd]. apply NoDup_app in Hnd as (_ & Hd & _).
      pose proof (last_of_elem Fl_head l1) as He. apply elem_of_cons in He as [He|He].
      * rewrite He in Hi. apply Hh0, elem_of_app. now right.
      * now apply (Hd _ He).
  - apply (blocks_ext m); [|done]. apply blocks_app in Hb as [Hb1 Hb2]. apply blocks_app. split; [done|].
    cbn [blocks]. splits; [|done|].
    + destruct l1 as [|c l1]; [lia|]. apply F1. cbn [last_of]. apply last_of_elem.
    + destruct l2 as [|c l2]; [done|]. cbn [blocks] in *. destruct Hb2 as (_ & Hf2 & Hb2).
      splits; try done. apply F2, list_elem_of_here.
  - apply Forall_forall. intros b Hi. apply (head_apart_ext m); [now apply Hh|].
    destruct (decide (b = bp)) as [->|Hne]; [done|].
    rewrite Forall_forall in Ha. apply Ha. now apply (elem_of_drop_mid bp).
  - done.
  - rewrite (words_in_ext m m') by done. rewrite !words_in_app.
    change (words_in m (bp :: l2)) with (Whsize_val m bp + words_in m l2). lia.
Qed.

(** The block is none of the list's, and its words are none of its links. *)
Lemma fits_link m l1 l2 bp c :
  fl_list m (l1 ++ l2) -> fits m l1 l2 bp -> bp <= block_end m bp -> c ∈ Fl_head :: l1 ++ l2 ->
  c <> bp /\ c <> bp - 8.
Proof.
  intros (_ & Hb & _) (F1 & F2 & F3 & F4) Hbp Hc. apply elem_of_cons in Hc as [->|Hc].
  - unfold head_apart in F3. lia.
  - destruct (blocks_elem _ _ _ _ Hb Hc) as [_ Hf%free_block_end].
    apply elem_of_app in Hc as [Hc|Hc]; [specialize (F1 _ Hc)|specialize (F2 _ Hc)]; lia.
Qed.
Lemma fits_header m l1 l2 bp c :
  fl_list m (l1 ++ l2) -> fits m l1 l2 bp -> bp + 8 <= block_end m bp -> c ∈ l1 ++ l2 ->
  c - 8 <> bp /\ c <> bp.
Proof.
  intros (_ & Hb & _) (F1 & F2 & F3 & F4) Hbp Hc.
  destruct (blocks_elem _ _ _ _ Hb Hc) as [_ Hf%free_block_end].
  apply elem_of_app in Hc as [Hc|Hc]; [specialize (F1 _ Hc)|specialize (F2 _ Hc)]; lia.
Qed.

Lemma last_of_in_app l1 l2 : last_of Fl_head l1 ∈ Fl_head :: l1 ++ l2.
Proof.
  pose proof (last_of_elem Fl_head l1) as E. apply elem_of_cons in E as [->|E]; [apply list_elem_of_here|].
  apply list_elem_of_further, elem_of_app. now left.
Qed.

(** [Next(bp) = cur; Next(prev) = bp;], in either order. *)
Lemma link_in m l1 l2 bp m' :
  fl_list m (l1 ++ l2) -> fits m l1 l2 bp -> free_block m bp ->
  ld m' (last_of Fl_head l1) = bp -> ld m' bp = Next m (last_of Fl_head l1) ->
  (forall a, a <> bp -> a <> last_of Fl_head l1 -> ld m' a = ld m a) ->
  fl_list m' (l1 ++ bp :: l2) /\ words_in m' (l1 ++ bp :: l2) = words_in m (l1 ++ l2) + Whsize_val m bp.
Proof.
  intros Hl Hfits Hfree H1 H2 H3. pose proof (free_block_end _ _ Hfree) as Hbe.
  apply insert_list; try done.
  - intros b Hb Hne. apply H3; [|done]. now destruct (fits_link m l1 l2 bp b Hl Hfits ltac:(lia) Hb).
  - intros b Hb. unfold Hd_val. change (Hp_val b) with (b - 8).
    destruct (fits_link m l1 l2 bp (last_of Fl_head l1) Hl Hfits ltac:(lia) (last_of_in_app l1 l2)).
    destruct (decide (b = bp)) as [->|Hne]; [apply H3; lia|].
    apply (elem_of_drop_mid bp) in Hb; [|done].
    destruct (fits_header m l1 l2 bp b Hl Hfits ltac:(lia) Hb).
    pose proof (header_not_link m _ b _ Hl Hb (last_of_in_app l1 l2)). apply H3; lia.
Qed.

Lemma find_place_spec m bp l p : forall fuel,
  path m p l 0 -> Forall (fun b => b <> 0) l -> (length l < fuel)%nat ->
  exists l1 l2, l = l1 ++ l2 /\ find_place fuel m bp p = Some (last_of p l1, Next m (last_of p l1)) /\
    Forall (fun c => c < bp) l1 /\ match l2 with [] => True | c :: _ => bp <= c end.
Proof.
  revert p. induction l as [|b l IH]; intros p fuel Hp Hnz Hf; destruct fuel as [|fuel]; cbn [length] in Hf; try lia;
    cbn [find_place path] in *.
  - exists [], []. cbn [last_of]. rewrite Hp. auto.
  - destruct Hp as [E Hp]. apply Forall_cons in Hnz as [Hb Hnz]. rewrite E.
    destruct (Z.eqb_spec b 0); [done|]. cbn [negb andb]. destruct (Z.ltb_spec b bp).
    + destruct (IH b fuel Hp Hnz ltac:(lia)) as (l1 & l2 & -> & E' & H1 & H2).
      exists (b :: l1), l2. splits; try done. now constructor.
    + exists [], (b :: l). cbn [last_of]. rewrite E. splits; try done.
Qed.

(** A block that overlaps none of the list fits where its address puts it. *)
Lemma fits_place m l1 l2 bp :
  blocks m 8 (l1 ++ l2) -> free_block m bp -> head_apart m bp -> 16 <= bp ->
  (forall c, c ∈ l1 ++ l2 -> block_end m c <= bp - 8 \/ block_end m bp <= c - 8) ->
  Forall (fun c => c < bp) l1 -> match l2 with [] => True | c :: _ => bp <= c end ->
  fits m l1 l2 bp.
Proof.
  intros Hb Hf Ha H16 Hd H1 H2. apply free_block_end in Hf. unfold fits. splits; try done.
  - intros c Hc. rewrite Forall_forall in H1. specialize (H1 _ Hc).
    destruct (Hd c); [apply elem_of_app; now left|done|lia].
  - intros c Hc. destruct l2 as [|d l2]; [now apply elem_of_nil in Hc|].
    assert (bp <= c).
    { apply elem_of_cons in Hc as [->|Hc]; [done|].
      pose proof (blocks_after m 8 l1 d l2 c Hb Hc).
      destruct (blocks_elem _ _ _ d Hb (elem_of_mid _ _ _)) as [_ Hfd%free_block_end]. lia. }
    destruct (Hd c) as [Hx|Hx]; [apply elem_of_app; now right| |done].
    destruct (blocks_elem m 8 (l1 ++ d :: l2) c Hb) as [_ Hfc%free_block_end];
      [apply elem_of_app; now right|]. lia.
Qed.

Lemma fl_inv_insert s s' l1 l2 bp :
  fl_inv s (l1 ++ l2) -> fl_list (fmem s') (l1 ++ bp :: l2) ->
  words_in (fmem s') (l1 ++ bp :: l2) = words_in (fmem s) (l1 ++ l2) + Whsize_val (fmem s) bp ->
  0 <= Whsize_val (fmem s) bp -> words_in (fmem s) (l1 ++ l2) + Whsize_val (fmem s) bp < B64 ->
  fl_prev s' = fl_prev s -> (fl_merge s' = fl_merge s \/ fl_merge s' = bp) ->
  fl_cur_size s' = u64 (fl_cur_size s + Whsize_val (fmem s) bp) ->
  fl_inv s' (l1 ++ bp :: l2).
Proof.
  intros (Hl & Hp & Hm & Hs & Hb) Hl' Hw Hw0 Hw1 Ep Em Es.
  assert (Hsub : forall c, c ∈ Fl_head :: l1 ++ l2 -> c ∈ Fl_head :: l1 ++ bp :: l2).
  { intros c [->|Hc]%elem_of_cons; [apply list_elem_of_here|].
    apply list_elem_of_further. now apply elem_of_skip_mid. }
  pose proof (words_in_nonneg _ _ _ (proj1 (proj2 Hl))) as Hnn.
  unfold fl_inv. splits; try done.
  - rewrite Ep. auto.
  - destruct Em as [->| ->]; [auto|]. apply list_elem_of_further, elem_of_mid.
  - rewrite Es, Hw, Hs. apply u64_id. unfold isu64. lia.
  - lia.
Qed.

Lemma fl_add_block_spec fuel bp gc_sweep_hp s l :
  fl_inv s l -> fl_last s = last_of Fl_head l -> (length l < fuel)%nat ->
  free_block (fmem s) bp -> head_apart (fmem s) bp -> 16 <= bp ->
  (forall c, c ∈ l -> block_end (fmem s) c <= bp - 8 \/ block_end (fmem s) bp <= c - 8) ->
  words_in (fmem s) l + Whsize_val (fmem s) bp < B64 ->
  exists s' l1 l2, fl_add_block fuel bp gc_sweep_hp s = Some s' /\ l = l1 ++ l2 /\
    fits (fmem s) l1 l2 bp /\ fl_inv s' (l1 ++ bp :: l2) /\
    (forall a, a ∉ Fl_head :: l1 -> a <> bp -> ld (fmem s') a = ld (fmem s) a).
Proof.
  intros Hinv Hlast Hf Hfree Ha H16 Hd Hw. pose proof Hinv as (Hl & _). pose proof Hl as (Hpath & Hb & _).
  assert (Hw0 : 0 <= Whsize_val (fmem s) bp) by (destruct Hfree as [[? ?] _]; unfold Whsize_val, Whsize_wosize; lia).
  assert (Hbe : bp <= block_end (fmem s) bp) by (pose proof (free_block_end _ _ Hfree); lia).
  unfold fl_add_block. destruct (Z.ltb_spec (fl_last s) bp) as [Hlt|Hge].
  - assert (Hfits : fits (fmem s) l [] bp).
    { apply fits_place; rewrite ?app_nil_r; try done. apply Forall_forall. intros c Hc.
      destruct l as [|b l] using rev_ind; [now apply elem_of_nil in Hc|].
      rewrite Hlast, last_of_app in Hlt. cbn [last_of] in Hlt.
      apply elem_of_app in Hc as [Hc|Hc]; [|apply list_elem_of_singleton in Hc as ->; done].
      pose proof (blocks_before _ _ _ _ _ _ Hb Hc).
      destruct (blocks_elem _ _ _ c Hb) as [_ Hfc%free_block_end]; [apply elem_of_app; now left|]. lia. }
    eexists _, l, []. split; [reflexivity|]. rewrite app_nil_r. splits; try done.
    2: { intros a Ha1 Ha2. cbn [fmem]. rewrite Hlast, !ld_st_ne; try done. intros <-. apply Ha1, last_of_elem. }
    rewrite <- (app_nil_r l) in Hl.
    destruct (fits_link _ _ _ _ _ Hl Hfits Hbe (last_of_in_app l [])) as [Hne _].
    destruct (link_in _ l [] bp (st (st (fmem s) (fl_last s) bp) bp 0) Hl Hfits Hfree) as [L1 L2].
    + rewrite Hlast, ld_st_ne by congruence. apply ld_st_eq.
    + rewrite ld_st_eq. rewrite app_nil_r in Hl. clear -Hpath. revert Hpath. generalize Fl_head.
      induction l as [|b l IH]; intros p H; cbn [path last_of] in *; [done|]. now apply IH.
    + intros a Ha1 Ha2. rewrite Hlast. now rewrite !ld_st_ne by congruence.
    + apply (fl_inv_insert s); rewrite ?app_nil_r in *; try done. now left.
  - assert (Hnz : Forall (fun b => b <> 0) l).
    { apply Forall_forall. intros b Hi. destruct (blocks_elem _ _ _ b Hb Hi). lia. }
    destruct (find_place_spec (fmem s) bp l Fl_head fuel Hpath Hnz Hf) as (l1 & l2 & -> & -> & H1 & H2).
    assert (Hfits : fits (fmem s) l1 l2 bp) by (now apply fits_place).
    eexists _, l1, l2. split; [reflexivity|]. splits; try done.
    2: { intros a Ha1 Ha2. cbn [fmem]. rewrite !ld_st_ne; try done. intros <-. apply Ha1, last_of_elem. }
    destruct (fits_link _ _ _ _ _ Hl Hfits Hbe (last_of_in_app l1 l2)) as [Hne _].
    destruct (link_in _ l1 l2 bp (st (st (fmem s) bp (Next (fmem s) (last_of Fl_head l1))) (last_of Fl_head l1) bp) Hl Hfits Hfree) as [L1 L2].
    + apply ld_st_eq.
    + rewrite ld_st_ne by congruence. apply ld_st_eq.
    + intros a Ha1 Ha2. now rewrite !ld_st_ne by congruence.
    + apply (fl_inv_insert s); try done. cbn [fl_merge]. destruct (_ && _); auto.
Qed.

(** ** Merging *)

(** The block at [bp] that ends at [e] lies between the blocks of [l1] and those of
    [l2], in the lower 2^56 bytes of the address space, away from the sentinel. *)
Definition gap (m : mem) (l1 l2 : list Z) (bp e : Z) : Prop :=
  (forall c, c ∈ l1 -> block_end m c <= bp - 8) /\ (forall c, c ∈ l2 -> e <= c - 8) /\
  (Fl_head + 16 <= bp - 8 \/ e <= Fl_head - 16) /\ 16 <= bp <= e /\ e <= 2 ^ 56.

(** Links and headers of the list are outside the gap. *)
Lemma gap_out m l1 l2 bp e c :
  fl_list m (l1 ++ l2) -> gap m l1 l2 bp e -> c ∈ Fl_head :: l1 ++ l2 ->
  c + 8 <= bp - 8 \/ e <= c - 8.
Proof.
  intros (_ & Hb & _) (G1 & G2 & G3 & G4) [->|Hc]%elem_of_cons; [lia|].
  destruct (blocks_elem _ _ _ _ Hb Hc) as [_ Hf%free_block_end].
  apply elem_of_app in Hc as [Hc|Hc]; [specialize (G1 _ Hc)|specialize (G2 _ Hc)]; lia.
Qed.

(** The list and the gap depend on links and headers only. *)
Lemma fl_list_ext m m' l :
  fl_list m l -> (forall b, b ∈ Fl_head :: l -> Next m' b = Next m b) ->
  (forall b, b ∈ l -> Hd_val m' b = Hd_val m b) -> fl_list m' l.
Proof.
  intros (Hp & Hb & Ha & Hh) Hl Hd. unfold fl_list. splits; try done.
  - apply (path_ext m _ Fl_head); [done|apply Hl, list_elem_of_here|].
    intros b Hi. apply Hl. now apply list_elem_of_further.
  - now apply (blocks_ext m).
  - apply Forall_forall. intros b Hi. rewrite Forall_forall in Ha.
    apply (head_apart_ext m); auto.
Qed.
Lemma gap_ext m m' l1 l2 bp e :
  gap m l1 l2 bp e -> (forall b, b ∈ l1 -> Hd_val m' b = Hd_val m b) -> gap m' l1 l2 bp e.
Proof.
  intros (G1 & G) Hd. split; [|done]. intros c Hc. specialize (G1 c Hc).
  unfold block_end, Wosize_val in *. now rewrite Hd.
Qed.

(** A write inside the gap. *)
Lemma gap_st m l1 l2 bp e a v :
  fl_list m (l1 ++ l2) -> gap m l1 l2 bp e -> bp - 8 <= a < e ->
  fl_list (st m a v) (l1 ++ l2) /\ gap (st m a v) l1 l2 bp e /\
  words_in (st m a v) (l1 ++ l2) = words_in m (l1 ++ l2) /\
  (forall b, b ∈ Fl_head :: l1 ++ l2 -> Next (st m a v) b = Next m b /\ Hd_val (st m a v) b = Hd_val m b).
Proof.
  intros Hl Hg Ha.
  assert (Hout : forall b, b ∈ Fl_head :: l1 ++ l2 ->
    Next (st m a v) b = Next m b /\ Hd_val (st m a v) b = Hd_val m b).
  { intros b Hb. pose proof (gap_out _ _ _ _ _ _ Hl Hg Hb).
    unfold Next, Hd_val, Hp_val, sizeof_value. rewrite !ld_st_ne by lia. done. }
  assert (Hd : forall b, b ∈ l1 ++ l2 -> Hd_val (st m a v) b = Hd_val m b).
  { intros b Hb. apply Hout. now apply list_elem_of_further. }
  splits; try done.
  - apply (fl_list_ext m); try done. intros b Hb. now apply Hout.
  - apply (gap_ext m); [done|]. intros b Hb. apply Hd, elem_of_app. now left.
  - now apply words_in_ext.
Qed.

(** The state between the stages: the list without the block, the size with it. *)
Definition merging (s : freelist) (l1 l2 : list Z) (bp hd e : Z) : Prop :=
  fl_list (fmem s) (l1 ++ l2) /\ gap (fmem s) l1 l2 bp e /\
  bp + 8 * Wosize_hd hd = e /\ Hd_val (fmem s) bp = hd /\
  fl_prev s ∈ Fl_head :: l1 ++ l2 /\ fl_merge s = last_of Fl_head l1 /\
  fl_cur_size s = words_in (fmem s) (l1 ++ l2) + (Wosize_hd hd + 1) /\
  fl_cur_size s < B64 /\ Wosize_val (fmem s) Fl_head = 0 /\
  (forall c, c ∈ l2 -> block_end (fmem s) c <= 2 ^ 56).

Lemma Max_wosize_eq : Max_wosize = 18014398509481983.
Proof. reflexivity. Qed.
Lemma pow2_56 : 2 ^ 56 = 72057594037927936.
Proof. reflexivity. Qed.

Lemma Wosize_header w c : 0 <= w -> 8 * w <= 2 ^ 56 -> is_color c -> Wosize_hd (Make_header w 0 c) = w.
Proof. rewrite pow2_56. intros. apply Wosize_Make_header; [rewrite Max_wosize_eq; lia|lia|done]. Qed.

Lemma merge_fragment_spec s l1 l2 bp hd e :
  merging s l1 l2 bp hd e -> fl_cur_size s < B64 - 1 ->
  (last_fragment s = bp - 8 -> gap (fmem s) l1 l2 (bp - 8) e) ->
  let '(bp1, hd1, s1) := merge_fragment bp hd s in
  merging s1 l1 l2 bp1 hd1 e /\ bp - 8 <= bp1 <= bp /\
  Next (fmem s1) (last_of Fl_head l1) = Next (fmem s) (last_of Fl_head l1).
Proof.
  intros Hm Hb1 Hfrag. pose proof Hm as (Hl & Hg & He & Hh & Hp & Hmg & Hc & Hb & Hs & H56).
  unfold merge_fragment. change (Hp_val bp) with (bp - 8).
  destruct (Z.eqb_spec (last_fragment s) (bp - 8)) as [E|Hne]; [|splits; [done|lia|lia|done]].
  rewrite E. specialize (Hfrag E). pose proof Hg as (_ & _ & _ & G4 & G5). rewrite pow2_56 in G5.
  assert (Ew : Whsize_val (fmem s) bp = Wosize_hd hd + 1) by (unfold Whsize_val, Wosize_val; now rewrite Hh).
  rewrite Ew. set (hd1 := Make_header _ 0 Caml_white).
  assert (Ew1 : Wosize_hd hd1 = Wosize_hd hd + 1).
  { apply Wosize_header; [lia|rewrite pow2_56|now left]. destruct Hfrag as (_ & _ & _ & ? & _). lia. }
  change (Hp_val (bp - 8)) with (bp - 8 - 8).
  destruct (gap_st (fmem s) l1 l2 (bp - 8) e (bp - 8 - 8) hd1 Hl Hfrag ltac:(lia)) as (Hl' & Hg' & Hw' & Hout).
  splits; try lia.
  - unfold merging. cbn [fmem fl_prev fl_merge fl_cur_size]. splits; try done; try lia.
    + unfold Hd_val. apply ld_st_eq.
    + rewrite Hw', Ew1, Hc. unfold Whsize_wosize. rewrite u64_id; [lia|].
      pose proof (words_in_nonneg _ _ _ (proj1 (proj2 Hl))). unfold isu64. lia.
    + unfold Whsize_wosize. rewrite u64_id; [lia|].
      pose proof (words_in_nonneg _ _ _ (proj1 (proj2 Hl))). unfold isu64. lia.
    + unfold Wosize_val. rewrite (proj2 (Hout _ (list_elem_of_here _ _))). exact Hs.
    + intros c Hi. unfold block_end, Wosize_val. rewrite (proj2 (Hout c ltac:(apply list_elem_of_further, elem_of_app; now right))).
      now apply H56.
  - cbn [fmem]. apply Hout. apply last_of_in_app.
Qed.

Lemma head_link_apart m l c : fl_list m l -> c ∈ Fl_head :: l -> c <> Fl_head - 8.
Proof.
  intros (_ & Hb & Ha & _) [->|Hc]%elem_of_cons; [lia|]. rewrite Forall_forall in Ha.
  specialize (Ha _ Hc). destruct (blocks_elem _ _ _ _ Hb Hc) as [_ Hf%free_block_end].
  unfold head_apart in Ha. lia.
Qed.

Lemma next_of_last m l1 l2 :
  path m Fl_head (l1 ++ l2) 0 ->
  match l2 with [] => Next m (last_of Fl_head l1) = 0 | c :: _ => Next m (last_of Fl_head l1) = c end.
Proof. intros H. apply path_app in H as [_ H]. destruct l2; cbn [path] in H; [done|now destruct H]. Qed.

Lemma merge_next_spec s l1 l2 bp hd e :
  merging s l1 l2 bp hd e ->
  let prev := last_of Fl_head l1 in
  let '(hd2, cur2, s2) := merge_next bp hd prev (Next (fmem s) prev) s in
  exists l2' e2, merging s2 l1 l2' bp hd2 e2 /\ cur2 = Next (fmem s2) prev /\ e <= e2 /\
    ((l2' = l2 /\ e2 = e /\ forall cur k, l2 = cur :: k -> cur - 8 <> e) \/
     exists cur, l2 = cur :: l2' /\ e = cur - 8 /\ e2 = block_end (fmem s) cur).
Proof.
  intros Hm prev. pose proof Hm as (Hl & Hg & He & Hh & Hp & Hmg & Hc & Hb & Hs & H56).
  pose proof Hl as (Hpath & Hblk & Hapart & _). pose proof Hg as (G1 & G2 & G3 & G4 & G5).
  pose proof (next_of_last _ _ _ Hpath) as Hnext. fold prev in Hnext.
  assert (Ebo : Bosize_hd hd = 8 * Wosize_hd hd) by (unfold Bosize_hd, Bsize_wsize, sizeof_value; lia).
  unfold merge_next. rewrite Ebo, He.
  change (Hp_val (Next (fmem s) prev)) with (Next (fmem s) prev - 8).
  destruct (Z.eqb_spec e (Next (fmem s) prev - 8)) as [Hadj|Hnadj].
  2: { exists l2, e. splits; try done. left. splits; try done. intros cur k ->. now rewrite Hnext in Hnadj. }
  destruct l2 as [|cur l2]; [lia|]. rewrite Hnext in *.
  set (m := fmem s) in *. set (wc := Wosize_val m cur).
  assert (Ewc : Whsize_val m cur = wc + 1) by done. rewrite Ewc.
  assert (Hcb : block_end m cur = cur + 8 * wc) by done.
  pose proof (H56 cur (list_elem_of_here _ _)) as Hc56. rewrite pow2_56 in Hc56, G5.
  destruct (blocks_elem _ _ _ cur Hblk (elem_of_mid _ _ _)) as [_ Hcf].
  pose proof Hcf as [Hwc _]. fold wc in Hwc.
  set (hd2 := Make_header _ 0 Caml_blue).
  assert (Ew2 : Wosize_hd hd2 = Wosize_hd hd + (wc + 1)).
  { apply Wosize_header; [lia|rewrite pow2_56; lia|unfold is_color; auto]. }
  assert (Hpin : prev ∈ Fl_head :: l1 ++ cur :: l2) by apply last_of_in_app.
  assert (Hout : forall c, c ∈ Fl_head :: l1 ++ cur :: l2 -> c + 8 <= bp - 8 \/ e <= c - 8)
    by (intros c Hi; now apply (gap_out m l1 (cur :: l2))).
  change (Hp_val bp) with (bp - 8). set (m2 := st (st m prev (Next m cur)) (bp - 8) hd2).
  pose proof (Hout prev Hpin) as Hprev.
  assert (Hsub : forall b, b ∈ l1 ++ l2 -> b ∈ l1 ++ cur :: l2) by (intros; now apply elem_of_skip_mid).
  assert (Hd2 : forall b, b ∈ l1 ++ l2 -> Hd_val m2 b = Hd_val m b).
  { intros b Hi. unfold Hd_val, m2, Hp_val, sizeof_value.
    pose proof (Hout b (list_elem_of_further _ _ _ (Hsub b Hi))).
    pose proof (header_not_link m _ b prev Hl (Hsub b Hi) Hpin). now rewrite !ld_st_ne by lia. }
  assert (Hn2 : Next m2 prev = Next m cur).
  { unfold Next, m2. rewrite ld_st_ne by lia. apply ld_st_eq. }
  destruct (unlink_list m l1 l2 cur m2 prev Hl eq_refl Hn2) as [Hl2 Hw2]; [|done|].
  { intros b Hi Hne. unfold Next, m2. pose proof (Hout b Hi). now rewrite !ld_st_ne by lia. }
  exists l2, (block_end m cur). splits; [|done|lia|right; now exists cur].
  unfold merging. cbn [fmem fl_prev fl_merge fl_cur_size]. splits; try done; try lia.
  - unfold gap. rewrite pow2_56. rewrite Forall_forall in Hapart.
    pose proof (Hapart cur (elem_of_mid _ _ _)) as Hac. unfold head_apart in Hac. splits; try lia.
    + intros c Hi. unfold block_end, Wosize_val. rewrite Hd2 by (apply elem_of_app; now left). now apply G1.
    + intros c Hi. now apply (blocks_after m 8 l1 cur l2).
  - unfold Hd_val, m2. apply ld_st_eq.
  - destruct (Z.eqb_spec (fl_prev s) cur) as [_|Hne]; [apply last_of_in_app|].
    apply elem_of_cons in Hp as [->|Hp]; [apply list_elem_of_here|].
    apply list_elem_of_further. now apply (elem_of_drop_mid cur).
  - unfold Wosize_val, Hd_val, m2, Hp_val, sizeof_value.
    pose proof (head_link_apart m _ prev Hl Hpin). rewrite !ld_st_ne by lia. exact Hs.
  - intros c Hi. unfold block_end, Wosize_val. rewrite Hd2 by (apply elem_of_app; now right).
    now apply H56, list_elem_of_further.
Qed.

Lemma blocks_raise m lo lo' l : blocks m lo l -> (forall c, c ∈ l -> lo' <= c - 8) -> blocks m lo' l.
Proof.
  destruct l as [|b l]; cbn [blocks]; [done|]. intros (_ & H2 & H3) H. splits; try done.
  apply H, list_elem_of_here.
Qed.

(** Growing a block of the list into the gap after it. *)
Lemma grow_list m l1 prev l2 e w' :
  fl_list m (l1 ++ prev :: l2) -> gap m (l1 ++ [prev]) l2 (block_end m prev + 8) e ->
  e = prev + 8 * w' ->
  let m' := st m (Hp_val prev) (Make_header w' 0 Caml_blue) in
  fl_list m' (l1 ++ prev :: l2) /\ block_end m' prev = e /\
  (forall b, b ∈ l1 ++ l2 -> Hd_val m' b = Hd_val m b) /\
  words_in m' (l1 ++ prev :: l2) = words_in m (l1 ++ prev :: l2) + (w' - Wosize_val m prev).
Proof.
  intros Hl Hg He m'. pose proof Hl as (Hpath & Hb & Ha & Hh). pose proof Hg as (G1 & G2 & G3 & G4 & G5).
  rewrite pow2_56 in G5.
  destruct (blocks_elem _ _ _ prev Hb (elem_of_mid _ _ _)) as [Hlo Hpf].
  pose proof (free_block_end _ _ Hpf) as Hpe. destruct Hpf as [Hwp _].
  assert (Ew : Wosize_val m' prev = w').
  { unfold Wosize_val, Hd_val, m'. rewrite ld_st_eq.
    apply Wosize_header; [|rewrite pow2_56|unfold is_color; auto]; lia. }
  assert (Hend : block_end m' prev = e) by (unfold block_end; rewrite Ew; lia).
  pose proof (blocks_NoDup _ _ _ Hb) as Hnd. apply NoDup_app in Hnd as (_ & Hnd1 & [Hnd2 _]%NoDup_cons).
  assert (Hne : forall b, b ∈ l1 ++ l2 -> b <> prev).
  { intros b [Hi|Hi]%elem_of_app ->; [apply (Hnd1 _ Hi), list_elem_of_here|done]. }
  assert (Hd : forall b, b ∈ l1 ++ l2 -> Hd_val m' b = Hd_val m b).
  { intros b Hi. unfold Hd_val, m', Hp_val, sizeof_value. apply ld_st_ne. specialize (Hne b Hi). lia. }
  splits; try done.
  - unfold fl_list. splits; try done.
    + apply (path_ext m _ Fl_head); [done| |].
      * unfold Next, m', Hp_val, sizeof_value. apply ld_st_ne.
        pose proof (header_not_link m _ prev Fl_head Hl (elem_of_mid _ _ _) (list_elem_of_here _ _)). congruence.
      * intros b Hi. unfold Next, m', Hp_val, sizeof_value. apply ld_st_ne.
        pose proof (blocks_distinct m 8 _ prev b Hb (elem_of_mid _ _ _) Hi). congruence.
    + apply blocks_app in Hb as [Hb1 Hb2]. apply blocks_app. split.
      * apply (blocks_ext m); [done|]. intros b Hi. apply Hd, elem_of_app. now left.
      * destruct Hb2 as (Hlo' & _ & Hb2). cbn [blocks]. splits.
        -- destruct l1 as [|c l1']; [done|]. cbn [last_of] in *.
           unfold block_end, Wosize_val in *. rewrite Hd; [done|]. apply elem_of_app. left. apply last_of_elem.
        -- split; [rewrite Ew, Max_wosize_eq; lia|].
           unfold Hd_val, m'. rewrite ld_st_eq. apply Is_blue_Make_header; [rewrite Max_wosize_eq; lia|lia].
        -- rewrite Hend. apply (blocks_ext m).
           ++ eapply blocks_raise; [exact Hb2|exact G2].
           ++ intros b Hi. apply Hd, elem_of_app. now right.
    + apply Forall_forall. intros b Hi. rewrite Forall_forall in Ha. pose proof (Ha b Hi) as Hab.
      destruct (decide (b = prev)) as [->|Hbp].
      * unfold head_apart in *. rewrite Hend. lia.
      * apply (head_apart_ext m); [|done]. apply Hd. now apply (elem_of_drop_mid prev).
  - rewrite !words_in_app. change (words_in ?n (prev :: l2)) with (Wosize_val n prev + 1 + words_in n l2).
    rewrite Ew, (words_in_ext m m' l1), (words_in_ext m m' l2); [lia| |].
    + intros b Hi. apply Hd, elem_of_app. now right.
    + intros b Hi. apply Hd, elem_of_app. now left.
Qed.

(** The blocks of [l1'] hold the words of [l1] and those from [lo] to [e]. *)
Definition cover (m m' : mem) (l1 l1' : list Z) (lo e : Z) : Prop :=
  forall c a, c ∈ l1' -> c - 8 <= a < block_end m' c -> lo <= a < e \/ exists d, d ∈ l1 /\ d - 8 <= a < block_end m d.

(** Conversely, but for the header of a block of no words. *)
Definition filled (m m' : mem) (l1 l1' : list Z) (lo e : Z) : Prop :=
  (forall d a, d ∈ l1 -> d - 8 <= a < block_end m d -> exists c, c ∈ l1' /\ c - 8 <= a < block_end m' c) /\
  (e = lo + 8 \/ forall a, lo <= a < e -> exists c, c ∈ l1' /\ c - 8 <= a < block_end m' c).

(** Where the block that takes the words from [lo] to [e] goes: it enlarges the last
    block of [l1] when that block ends at [lo]; else, a single word is remembered as
    the last fragment and a larger block is added after [l1].  The other blocks keep
    their ends. *)
Definition placed (s s' : freelist) (l1 l1' : list Z) (lo e : Z) : Prop :=
  (exists l0 p, l1 = l0 ++ [p] /\ block_end (fmem s) p = lo /\ l1' = l1 /\ block_end (fmem s') p = e /\
     last_fragment s' = last_fragment s /\ forall c, c ∈ l0 -> block_end (fmem s') c = block_end (fmem s) c) \/
  ((forall l0 p, l1 = l0 ++ [p] -> block_end (fmem s) p <> lo) /\
   (forall c, c ∈ l1 -> block_end (fmem s') c = block_end (fmem s) c) /\
   ((e = lo + 8 /\ l1' = l1 /\ last_fragment s' = e) \/
    (lo + 8 < e /\ l1' = l1 ++ [lo + 8] /\ block_end (fmem s') (lo + 8) = e /\ last_fragment s' = last_fragment s))).

(** What the last stage leaves: the list around the sweep position [e], with the
    block merged, linked or kept as a fragment. *)
Definition merged (s s' : freelist) (l1 l1' l2 : list Z) (bp e : Z) : Prop :=
  fl_inv s' (l1' ++ l2) /\ fl_merge s' = last_of Fl_head l1' /\
  (forall c, c ∈ l1' -> block_end (fmem s') c <= e) /\
  (last_fragment s' = last_fragment s \/
   (last_fragment s' = bp /\ bp = e /\ (forall c, c ∈ l1' -> block_end (fmem s') c <= e - 8))) /\
  Wosize_val (fmem s') Fl_head = 0 /\ (forall c, c ∈ l2 -> block_end (fmem s') c <= 2 ^ 56) /\
  cover (fmem s) (fmem s') l1 l1' (bp - 8) e /\ filled (fmem s) (fmem s') l1 l1' (bp - 8) e /\
  placed s s' l1 l1' (bp - 8) e.

Lemma not_adjacent m l1 lo :
  last_of Fl_head l1 + Bosize_val m (last_of Fl_head l1) <> lo -> forall l0 p, l1 = l0 ++ [p] -> block_end m p <> lo.
Proof.
  intros Hn l0 p -> E. apply Hn. rewrite last_of_app. cbn [last_of]. unfold block_end in E. unfold Bosize_val, Bsize_wsize, sizeof_value. lia.
Qed.

Lemma merge_prev_grow s l1 p l2 bp hd e :
  merging s (l1 ++ [p]) l2 bp hd e -> block_end (fmem s) p = bp - 8 ->
  merged s (merge_prev bp hd p (Next (fmem s) p) s) (l1 ++ [p]) (l1 ++ [p]) l2 bp e.
Proof.
  intros Hm Hadj. pose proof Hm as (Hl & Hg & He & Hh & Hp & Hmg & Hc & Hb & Hs & H56).
  assert (Eb : Bosize_val (fmem s) p = 8 * Wosize_val (fmem s) p)
    by (unfold Bosize_val, Bsize_wsize, sizeof_value; lia).
  unfold merge_prev. rewrite Eb. change (Hp_val bp) with (bp - 8).
  change (p + 8 * Wosize_val (fmem s) p) with (block_end (fmem s) p). rewrite Hadj, Z.eqb_refl.
  unfold merging in *. rewrite <- app_assoc in *. cbn [app] in *.
  set (w' := Wosize_val (fmem s) p + Whsize_hd hd).
  assert (Ew' : w' = Wosize_val (fmem s) p + Wosize_hd hd + 1) by (unfold w', Whsize_hd, Whsize_wosize; lia).
  assert (Ebe : block_end (fmem s) p = p + 8 * Wosize_val (fmem s) p) by done.
  destruct (grow_list (fmem s) l1 p l2 e w' Hl) as (Hl' & Hend & Hd & Hw').
  { replace (block_end (fmem s) p + 8) with bp by lia. done. }
  { lia. }
  destruct Hg as (G1 & G2 & G3 & G4 & G5).
  assert (Hends : forall c, c ∈ l1 -> block_end (st (fmem s) (Hp_val p) (Make_header w' 0 Caml_blue)) c <= bp - 8).
  { intros c Hi. unfold block_end, Wosize_val. rewrite Hd by (apply elem_of_app; now left).
    apply G1, elem_of_app. now left. }
  unfold merged, fl_inv. rewrite <- app_assoc. cbn [app fmem fl_prev fl_merge fl_cur_size last_fragment].
  splits; try done.
  - rewrite Hmg. pose proof (last_of_in_app (l1 ++ [p]) l2) as E. now rewrite <- app_assoc in E.
  - rewrite Hw', Hc. lia.
  - lia.
  - intros c [Hi|Hi]%elem_of_app; [specialize (Hends c Hi); lia|].
    apply list_elem_of_singleton in Hi as ->. lia.
  - now left.
  - unfold Wosize_val, Hd_val, Hp_val, sizeof_value.
    destruct Hl as (_ & Hblk & Ha & _). rewrite Forall_forall in Ha.
    pose proof (Ha p (elem_of_mid _ _ _)) as Hap.
    destruct (blocks_elem _ _ _ p Hblk (elem_of_mid _ _ _)) as [_ Hpf%free_block_end].
    unfold head_apart in Hap. rewrite ld_st_ne by lia. exact Hs.
  - intros c Hi. unfold block_end, Wosize_val. rewrite Hd by (apply elem_of_app; now right). now apply H56.
  - intros c a [Hi|Hi]%elem_of_app Ha.
    + right. exists c. split; [apply elem_of_app; now left|]. unfold block_end, Wosize_val in *. now rewrite Hd in Ha by (apply elem_of_app; now left).
    + apply list_elem_of_singleton in Hi as ->. destruct (decide (a < bp - 8)); [right; exists p|left; lia].
      split; [apply elem_of_app; right; left|lia].
  - assert (Hpin : p ∈ l1 ++ [p]) by (apply elem_of_app; right; left). split.
    + intros d a [Hi|Hi]%elem_of_app Ha.
      * exists d. split; [apply elem_of_app; now left|]. unfold block_end, Wosize_val in *. now rewrite Hd by (apply elem_of_app; now left).
      * apply list_elem_of_singleton in Hi as ->. exists p. split; [done|lia].
    + right. intros a Ha. exists p. split; [done|]. destruct (blocks_elem _ _ _ p (proj1 (proj2 Hl)) (elem_of_mid _ _ _)) as [_ Hpf%free_block_end]. lia.
  - left. exists l1, p. splits; try done. intros c Hi. unfold block_end, Wosize_val. now rewrite Hd by (apply elem_of_app; now left).
Qed.

Lemma merge_prev_link s l1 l2 bp hd e :
  merging s l1 l2 bp hd e -> isu64 hd -> Wosize_hd hd <> 0 ->
  let prev := last_of Fl_head l1 in
  prev + Bosize_val (fmem s) prev <> bp - 8 ->
  merged s (merge_prev bp hd prev (Next (fmem s) prev) s) l1 (l1 ++ [bp]) l2 bp e.
Proof.
  intros Hm Hhd Hw0 prev Hnadj. pose proof Hm as (Hl & Hg & He & Hh & Hp & Hmg & Hc & Hb & Hs & H56).
  pose proof Hg as (G1 & G2 & G3 & G4 & G5). rewrite pow2_56 in G5.
  unfold merge_prev. change (Hp_val bp) with (bp - 8).
  destruct (Z.eqb_spec (prev + Bosize_val (fmem s) prev) (bp - 8)) as [?|_]; [done|].
  destruct (Z.eqb_spec (Wosize_hd hd) 0) as [?|_]; [done|]. cbn [negb].
  destruct (gap_st (fmem s) l1 l2 bp e (bp - 8) (Bluehd_hd hd) Hl Hg ltac:(lia)) as (Hl1 & Hg1 & Hw1 & Hout1).
  set (m1 := st (fmem s) (bp - 8) (Bluehd_hd hd)) in *.
  assert (Hhd1 : Hd_val m1 bp = Bluehd_hd hd) by (unfold Hd_val, m1; apply ld_st_eq).
  assert (Hwo1 : Wosize_val m1 bp = Wosize_hd hd) by (unfold Wosize_val; now rewrite Hhd1, Wosize_Bluehd).
  assert (Hbe1 : block_end m1 bp = e) by (unfold block_end; rewrite Hwo1; lia).
  assert (Hfree : free_block m1 bp).
  { split; [rewrite Hwo1, Max_wosize_eq; lia|]. rewrite Hhd1. apply Is_blue_Bluehd. }
  assert (Hfits : fits m1 l1 l2 bp).
  { unfold fits, head_apart. rewrite Hbe1. destruct Hg1 as (G1' & _). splits; try done; lia. }
  assert (Hpin : prev ∈ Fl_head :: l1 ++ l2) by apply last_of_in_app.
  pose proof (gap_out _ _ _ _ _ _ Hl Hg Hpin) as Hpo.
  set (m3 := st (st m1 bp (Next (fmem s) prev)) prev bp).
  destruct (link_in m1 l1 l2 bp m3 Hl1 Hfits Hfree) as [Hl3 Hw3].
  { apply ld_st_eq. }
  { unfold m3. rewrite ld_st_ne by lia. rewrite ld_st_eq. symmetry. now apply Hout1. }
  { intros a Ha1 Ha2. unfold m3. fold prev in Ha2. now rewrite !ld_st_ne by congruence. }
  assert (Hd3 : forall b, b ∈ l1 ++ l2 -> Hd_val m3 b = Hd_val (fmem s) b).
  { intros b Hi. pose proof (gap_out _ _ _ _ _ _ Hl Hg (list_elem_of_further _ _ _ Hi)).
    pose proof (header_not_link _ _ b prev Hl Hi Hpin).
    unfold Hd_val, m3, m1, Hp_val, sizeof_value. now rewrite !ld_st_ne by lia. }
  assert (Hend3 : block_end m3 bp = e).
  { rewrite <- Hbe1. unfold block_end, Wosize_val, Hd_val, m3, Hp_val, sizeof_value.
    now rewrite !ld_st_ne by lia. }
  unfold merged, fl_inv. rewrite <- app_assoc.
  cbn [app fmem fl_prev fl_merge fl_cur_size last_fragment]. fold m1 m3.
  assert (Ewh : Whsize_val m1 bp = Wosize_hd hd + 1) by (unfold Whsize_val, Whsize_wosize; now rewrite Hwo1).
  splits; try done.
  - apply elem_of_cons in Hp as [->|Hp]; [apply list_elem_of_here|].
    apply list_elem_of_further. now apply elem_of_skip_mid.
  - apply list_elem_of_further, elem_of_mid.
  - rewrite Hw3, Hw1, Ewh. done.
  - rewrite Hw3, Hw1, Ewh, <- Hc. done.
  - now rewrite last_of_app.
  - intros c [Hi|Hi]%elem_of_app.
    + unfold block_end, Wosize_val. rewrite Hd3 by (apply elem_of_app; now left).
      specialize (G1 c Hi). unfold block_end, Wosize_val in G1. lia.
    + apply list_elem_of_singleton in Hi as ->. lia.
  - now left.
  - pose proof (head_link_apart _ _ prev Hl Hpin).
    unfold Wosize_val, Hd_val, m3, m1, Hp_val, sizeof_value. rewrite !ld_st_ne by lia. exact Hs.
  - intros c Hi. unfold block_end, Wosize_val. rewrite Hd3 by (apply elem_of_app; now right). now apply H56.
  - intros c a [Hi|Hi]%elem_of_app Ha.
    + right. exists c. split; [done|]. unfold block_end, Wosize_val in *. now rewrite Hd3 in Ha by (apply elem_of_app; now left).
    + apply list_elem_of_singleton in Hi as ->. left. lia.
  - split.
    + intros d a Hi Ha. exists d. split; [apply elem_of_app; now left|]. unfold block_end, Wosize_val in *.
      now rewrite Hd3 by (apply elem_of_app; now left).
    + right. intros a Ha. exists bp. split; [apply elem_of_app; right; left|lia].
  - right. split; [now apply not_adjacent|]. split.
    + intros c Hi. unfold block_end, Wosize_val. now rewrite Hd3 by (apply elem_of_app; now left).
    + right. replace (bp - 8 + 8) with bp by lia. splits; try done. lia.
Qed.

Lemma merge_prev_keep s l1 l2 bp hd e :
  merging s l1 l2 bp hd e -> Wosize_hd hd = 0 ->
  let prev := last_of Fl_head l1 in
  prev + Bosize_val (fmem s) prev <> bp - 8 ->
  merged s (merge_prev bp hd prev (Next (fmem s) prev) s) l1 l1 l2 bp e.
Proof.
  intros Hm Hw0 prev Hnadj. pose proof Hm as (Hl & Hg & He & Hh & Hp & Hmg & Hc & Hb & Hs & H56).
  pose proof Hg as (G1 & G2 & G3 & G4 & G5).
  unfold merge_prev. change (Hp_val bp) with (bp - 8).
  destruct (Z.eqb_spec (prev + Bosize_val (fmem s) prev) (bp - 8)) as [?|_]; [done|].
  rewrite Hw0. cbn [negb Z.eqb].
  pose proof (words_in_nonneg _ _ _ (proj1 (proj2 Hl))) as Hnn.
  unfold merged, fl_inv. cbn [fmem fl_prev fl_merge fl_cur_size last_fragment]. splits; try done.
  - rewrite Hmg. apply last_of_in_app.
  - rewrite Hc, Hw0. unfold Whsize_wosize. rewrite u64_id; [lia|]. unfold isu64. lia.
  - lia.
  - intros c Hi. specialize (G1 c Hi). lia.
  - right. splits; try lia. intros c Hi. specialize (G1 c Hi). lia.
  - intros c a Hi Ha. right. now exists c.
  - split; [intros d a Hi Ha; now exists d|]. left. lia.
  - right. split; [now apply not_adjacent|]. split; [done|]. left. cbn [last_fragment]. splits; (done || lia).
Qed.

Lemma merge_prev_spec s l1 l2 bp hd e :
  merging s l1 l2 bp hd e -> isu64 hd ->
  let prev := last_of Fl_head l1 in
  exists l1', merged s (merge_prev bp hd prev (Next (fmem s) prev) s) l1 l1' l2 bp e.
Proof.
  intros Hm Hhd prev. pose proof Hm as (Hl & Hg & _ & _ & _ & _ & _ & _ & Hs & _).
  destruct (Z.eq_dec (prev + Bosize_val (fmem s) prev) (bp - 8)) as [Hadj|Hadj].
  - destruct l1 as [|p l1 _] using rev_ind.
    + exfalso. cbn [last_of] in prev. unfold prev, Bosize_val in Hadj. rewrite Hs in Hadj.
      unfold Bsize_wsize in Hadj. destruct Hg as (_ & _ & G3 & G4 & _). lia.
    + assert (E : prev = p) by (unfold prev; now rewrite last_of_app). rewrite E in *.
      exists (l1 ++ [p]). apply merge_prev_grow; [done|].
      unfold block_end. unfold Bosize_val, Bsize_wsize, sizeof_value in Hadj. lia.
  - destruct (Z.eq_dec (Wosize_hd hd) 0).
    + exists l1. now apply merge_prev_keep.
    + exists (l1 ++ [bp]). now apply merge_prev_link.
Qed.

(** ** The invariant of sweeping *)

(** The sweeper has dealt with everything below [e]: the blocks before [fl_merge]
    end at [e] at most, the others start after it, and a fragment that ends at [e]
    is remembered and free. *)
Definition sweep_inv (s : freelist) (l1 l2 : list Z) (e : Z) : Prop :=
  fl_inv s (l1 ++ l2) /\ fl_merge s = last_of Fl_head l1 /\
  (forall c, c ∈ l1 -> block_end (fmem s) c <= e) /\ (forall c, c ∈ l2 -> e <= c - 8) /\
  (forall c, c ∈ l2 -> block_end (fmem s) c <= 2 ^ 56) /\
  (last_fragment s = e -> 16 <= e /\ (Fl_head + 16 <= e - 8 \/ e <= Fl_head - 16) /\
     forall c, c ∈ l1 -> block_end (fmem s) c <= e - 8) /\
  last_fragment s <= e /\ Wosize_val (fmem s) Fl_head = 0.

(** The block the sweeper gives to [fl_merge_block]: it lies at or after [e0],
    before the free blocks of [l2]. *)
Definition swept_block (s : freelist) (l1 l2 : list Z) (e0 bp : Z) : Prop :=
  let e := block_end (fmem s) bp in
  e0 <= bp - 8 /\ 16 <= bp <= e /\ e <= 2 ^ 56 /\ isu64 (Hd_val (fmem s) bp) /\
  (Fl_head + 16 <= bp - 8 \/ e <= Fl_head - 16) /\ (forall c, c ∈ l2 -> e <= c - 8) /\
  fl_cur_size s + Wosize_val (fmem s) bp < B64 - 3.

Lemma swept_merging s l1 l2 e0 bp :
  sweep_inv s l1 l2 e0 -> swept_block s l1 l2 e0 bp ->
  let hd := Hd_val (fmem s) bp in
  let s1 := MkFl (fmem s) (fl_prev s) (fl_last s) (fl_merge s)
              (u64 (fl_cur_size s + Whsize_hd hd)) (last_fragment s) in
  merging s1 l1 l2 bp hd (block_end (fmem s) bp) /\ fl_cur_size s1 < B64 - 1 /\
  (last_fragment s1 = bp - 8 -> gap (fmem s1) l1 l2 (bp - 8) (block_end (fmem s) bp)).
Proof.
  intros (Hinv & Hmg & S1 & S2 & S3 & S4 & S5 & S6) (B1 & B2 & B3 & B4 & B5 & B6 & B7) hd s1.
  pose proof Hinv as (Hl & Hp & _ & Hsz & Hbd).
  pose proof (words_in_nonneg _ _ _ (proj1 (proj2 Hl))) as Hnn.
  assert (Ewh : Whsize_hd hd = Wosize_val (fmem s) bp + 1) by done.
  assert (Hw : 0 <= Wosize_val (fmem s) bp) by (unfold block_end in *; lia).
  assert (Esz : u64 (fl_cur_size s + Whsize_hd hd) = fl_cur_size s + (Wosize_val (fmem s) bp + 1)).
  { rewrite Ewh. apply u64_id. unfold isu64. lia. }
  assert (Hgap : gap (fmem s) l1 l2 bp (block_end (fmem s) bp)).
  { unfold gap. splits; try done; try lia. intros c Hi. specialize (S1 c Hi). lia. }
  splits.
  - unfold merging, s1. cbn [fmem fl_prev fl_merge fl_cur_size]. rewrite Esz. splits; try done.
    + unfold hd. fold (Wosize_val (fmem s) bp). lia.
    + lia.
  - unfold s1. cbn [fl_cur_size]. lia.
  - unfold s1. cbn [fmem last_fragment]. intros Hf. rewrite Hf in *.
    assert (E : e0 = bp - 8) by lia. subst e0. destruct (S4 eq_refl) as (F1 & F2 & F3).
    unfold gap. splits; try done; lia.
Qed.

Lemma merge_next_fragment bp hd prev cur s :
  last_fragment (merge_next bp hd prev cur s).2 = last_fragment s.
Proof. unfold merge_next. now destruct (_ =? _). Qed.
Lemma merge_fragment_fragment bp hd s :
  last_fragment (merge_fragment bp hd s).2 = last_fragment s.
Proof. unfold merge_fragment. now destruct (_ =? _). Qed.

Lemma isu64_Make_header w t c : isu64 (Make_header w t c).
Proof. apply u64_range. Qed.
Lemma merge_next_hd bp hd prev cur s : isu64 hd -> isu64 (merge_next bp hd prev cur s).1.1.
Proof. unfold merge_next. destruct (_ =? _); [intros; apply isu64_Make_header|done]. Qed.
Lemma merge_fragment_hd bp hd s : isu64 hd -> isu64 (merge_fragment bp hd s).1.2.
Proof. unfold merge_fragment. destruct (_ =? _); [intros; apply isu64_Make_header|done]. Qed.

(** Headers after the first stage: those of the free blocks are untouched. *)
Lemma merge_fragment_block_end s l1 l2 bp hd e c :
  merging s l1 l2 bp hd e -> (last_fragment s = bp - 8 -> gap (fmem s) l1 l2 (bp - 8) e) -> c ∈ l1 ++ l2 ->
  block_end (fmem (merge_fragment bp hd s).2) c = block_end (fmem s) c.
Proof.
  intros (Hl & Hg & _) Hfrag Hc. unfold merge_fragment. change (Hp_val bp) with (bp - 8).
  destruct (Z.eqb_spec (last_fragment s) (bp - 8)) as [E|_]; [|done]. rewrite E. cbn [snd fmem].
  specialize (Hfrag E). pose proof Hg as (_ & _ & _ & G4 & _).
  change (Hp_val (bp - 8)) with (bp - 8 - 8).
  destruct (gap_st (fmem s) l1 l2 (bp - 8) e (bp - 8 - 8)
    (Make_header (Whsize_val (fmem s) bp) 0 Caml_white) Hl Hfrag ltac:(lia)) as (_ & _ & _ & Hout).
  unfold block_end, Wosize_val. rewrite (proj2 (Hout c ltac:(now apply list_elem_of_further))).
  done.
Qed.

(** And after the second. *)
Lemma merge_next_block_end s l1 l2 bp hd e c :
  merging s l1 l2 bp hd e -> c ∈ l1 ->
  let prev := last_of Fl_head l1 in
  block_end (fmem (merge_next bp hd prev (Next (fmem s) prev) s).2) c = block_end (fmem s) c.
Proof.
  intros (Hl & Hg & _) Hc prev. unfold merge_next. destruct (_ =? _); [|done]. cbn [snd fmem].
  assert (Hcl : c ∈ l1 ++ l2) by (apply elem_of_app; now left).
  pose proof (gap_out _ _ _ _ _ _ Hl Hg (list_elem_of_further _ _ _ Hcl)). pose proof Hg as (G1 & _). specialize (G1 c Hc).
  assert (Hpin : prev ∈ Fl_head :: l1 ++ l2) by apply last_of_in_app.
  pose proof (header_not_link _ _ c prev Hl Hcl Hpin). destruct (blocks_elem _ _ _ c (proj1 (proj2 Hl)) Hcl) as [_ Hf%free_block_end].
  unfold block_end, Wosize_val, Hd_val, Hp_val, sizeof_value in *. now rewrite !ld_st_ne by lia.
Qed.

(** The placement depends on the ends of the blocks and on the last fragment. *)
Lemma placed_ext s0 s s' l1 l1' lo e :
  last_fragment s0 = last_fragment s -> (forall c, c ∈ l1 -> block_end (fmem s0) c = block_end (fmem s) c) ->
  placed s0 s' l1 l1' lo e -> placed s s' l1 l1' lo e.
Proof.
  intros Hl Hb [(l0 & p & -> & P1 & P2 & P3 & P4 & P5)|(P1 & P2 & P3)]; [left|right].
  - exists l0, p. rewrite Hb in P1 by (apply elem_of_app; right; left). splits; try done; [congruence|].
    intros c Hc. rewrite P5 by done. apply Hb, elem_of_app. now left.
  - rewrite Hl in P3. splits; try done.
    + intros l0 p ->. rewrite <- Hb by (apply elem_of_app; right; left). now apply (P1 l0).
    + intros c Hc. rewrite P2 by done. now apply Hb.
Qed.

(** The three stages together. *)
Lemma merge_stages s l1 l2 bp hd e :
  merging s l1 l2 bp hd e -> fl_cur_size s < B64 - 1 -> isu64 hd -> last_fragment s <= bp - 8 ->
  (last_fragment s = bp - 8 -> gap (fmem s) l1 l2 (bp - 8) e) ->
  let prev := last_of Fl_head l1 in
  let '(bp1, hd1, s1) := merge_fragment bp hd s in
  let '(hd2, cur2, s2) := merge_next bp1 hd1 prev (Next (fmem s) prev) s1 in
  let s' := merge_prev bp1 hd2 prev cur2 s2 in
  exists l1' l2' e', e' = bp1 + Bosize_hd hd2 /\ sweep_inv s' l1' l2' e' /\
    (bp1 = bp \/ (bp1 = bp - 8 /\ last_fragment s = bp - 8)) /\ cover (fmem s) (fmem s') l1 l1' (bp1 - 8) e' /\ filled (fmem s) (fmem s') l1 l1' (bp1 - 8) e' /\
    (last_fragment s' = last_fragment s \/ (last_fragment s' = bp1 /\ bp1 = e')) /\
    placed s s' l1 l1' (bp1 - 8) e' /\
    ((l2' = l2 /\ e' = e /\ forall cur k, l2 = cur :: k -> cur - 8 <> e) \/
     exists cur, l2 = cur :: l2' /\ cur - 8 = e /\ e' = block_end (fmem s1) cur).
Proof.
  intros Hm Hb Hhd Hlf Hfrag prev.
  pose proof (merge_fragment_spec s l1 l2 bp hd e Hm Hb Hfrag) as H1.
  pose proof (merge_fragment_fragment bp hd s) as Hlf1. pose proof (merge_fragment_hd bp hd s Hhd) as Hhd1.
  pose proof (fun c => merge_fragment_block_end s l1 l2 bp hd e c Hm Hfrag) as Hbe1.
  assert (Hb1 : (merge_fragment bp hd s).1.1 = bp \/ ((merge_fragment bp hd s).1.1 = bp - 8 /\ last_fragment s = bp - 8)).
  { unfold merge_fragment. change (Hp_val bp) with (bp - 8). destruct (Z.eqb_spec (last_fragment s) (bp - 8)); cbn [fst]; [now right|now left]. }
  destruct (merge_fragment bp hd s) as [[bp1 hd1] s1]. cbn [fst snd] in Hlf1, Hhd1, Hbe1, Hb1.
  destruct H1 as (Hm1 & Hbp1 & Hn1). fold prev in Hn1. rewrite <- Hn1.
  pose proof (merge_next_spec s1 l1 l2 bp1 hd1 e Hm1) as H2. cbv zeta in H2. fold prev in H2.
  pose proof (merge_next_fragment bp1 hd1 prev (Next (fmem s1) prev) s1) as Hlf2.
  pose proof (merge_next_hd bp1 hd1 prev (Next (fmem s1) prev) s1 Hhd1) as Hhd2.
  pose proof (fun c => merge_next_block_end s1 l1 l2 bp1 hd1 e c Hm1) as Hbe2. cbv zeta in Hbe2. fold prev in Hbe2.
  destruct (merge_next bp1 hd1 prev (Next (fmem s1) prev) s1) as [[hd2 cur2] s2]. cbn [fst snd] in Hlf2, Hhd2, Hbe2.
  destruct H2 as (l2' & e2 & Hm2 & -> & Hee2 & Hcase).
  pose proof Hm as (_ & (_ & _ & _ & G0 & _) & _).
  destruct (merge_prev_spec s2 l1 l2' bp1 hd2 e2 Hm2 Hhd2) as (l1' & M1 & M2 & M3 & M4 & M5 & M6 & M7' & M8' & M9'). fold prev in M1, M2, M3, M4, M5, M6, M7', M8', M9'.
  pose proof Hm2 as (_ & (_ & G2 & G3 & G4 & G5) & He2 & _).
  exists l1', l2', e2. splits.
  - unfold Bosize_hd, Bsize_wsize, sizeof_value. lia.
  - unfold sweep_inv. splits; try done.
    + intros E. destruct M4 as [M4|(M4 & M7 & M8)]; [lia|]. splits; try done; lia.
    + destruct M4 as [M4|(M4 & M7 & M8)]; lia.
  - done.
  - intros c a Hc Ha. destruct (M7' c a Hc Ha) as [|(d & Hd & Hda)]; [now left|]. right. exists d. split; [done|].
    rewrite <- Hbe1, <- Hbe2; [done|done|]. apply elem_of_app. now left.
  - split; [|apply M8']. intros d a Hd Ha. apply (proj1 M8' d a Hd). rewrite Hbe2, Hbe1; [done| |done]. apply elem_of_app. now left.
  - destruct M4 as [M4|(M4 & M7 & _)]; [left; congruence|now right].
  - apply (placed_ext s2); [congruence| |done]. intros c Hc. rewrite Hbe2, Hbe1; [done| |done]. apply elem_of_app. now left.
  - destruct Hcase as [(-> & -> & ?)|(cur & -> & -> & ->)]; [now left|]. right. exists cur. splits; try done.
Qed.

(** The words before the block that may be merged with it. *)
Definition merge_start (s : freelist) (bp : Z) : Z := if last_fragment s =? bp - 8 then bp - 16 else bp - 8.

Lemma fl_merge_block_full s l1 l2 e0 bp :
  sweep_inv s l1 l2 e0 -> swept_block s l1 l2 e0 bp ->
  exists adj s' l1' l2', fl_merge_block bp s = (adj, s') /\ sweep_inv s' l1' l2' adj /\
    cover (fmem s) (fmem s') l1 l1' (merge_start s bp) adj /\ filled (fmem s) (fmem s') l1 l1' (merge_start s bp) adj /\
    (last_fragment s' = last_fragment s \/ last_fragment s' - 8 = merge_start s bp) /\
    placed s s' l1 l1' (merge_start s bp) adj /\
    ((l2' = l2 /\ adj = block_end (fmem s) bp /\ forall cur k, l2 = cur :: k -> cur - 8 <> adj) \/
     exists cur, l2 = cur :: l2' /\ cur - 8 = block_end (fmem s) bp /\ adj = block_end (fmem s) cur).
Proof.
  intros Hsw Hblk. destruct (swept_merging s l1 l2 e0 bp Hsw Hblk) as (Hm1 & Hb1 & Hf1).
  destruct Hsw as (_ & Hmg & _ & _ & _ & _ & S5 & _). destruct Hblk as (B1 & B2 & _ & B4 & _).
  pose proof (merge_stages _ l1 l2 bp _ _ Hm1 Hb1 B4 ltac:(cbn [last_fragment]; lia) Hf1) as H.
  unfold fl_merge_block. cbn [fmem fl_merge]. rewrite <- Hmg in H. cbn [fmem] in H.
  set (s1 := MkFl _ _ _ _ _ _) in *.
  pose proof (fun c => merge_fragment_block_end s1 l1 l2 bp _ _ c Hm1 Hf1) as Hbe.
  assert (Hbp1 : (merge_fragment bp (Hd_val (fmem s) bp) s1).1.1 - 8 = merge_start s bp).
  { unfold merge_fragment, merge_start. change (Hp_val bp) with (bp - 8). change (last_fragment s1) with (last_fragment s).
    destruct (Z.eqb_spec (last_fragment s) (bp - 8)) as [->|]; cbn [fst]; lia. }
  destruct (merge_fragment bp (Hd_val (fmem s) bp) s1) as [[bp1 hd1] s2]. cbn [fst snd] in Hbe, Hbp1.
  destruct (merge_next bp1 hd1 (fl_merge s) (Next (fmem s) (fl_merge s)) s2) as [[hd2 cur2] s3].
  destruct H as (l1' & l2' & e' & -> & Hsw' & _ & Hcov & Hfill & Hlf & Hpl & Hc). rewrite Hbp1 in Hcov, Hfill, Hpl.
  eexists _, _, l1', l2'. split; [reflexivity|]. split; [exact Hsw'|]. split; [exact Hcov|]. split; [exact Hfill|]. split.
  { destruct Hlf as [Hlf|[Hlf _]]; [left; exact Hlf|right; lia]. }
  split; [now apply (placed_ext s1)|].
  destruct Hc as [(-> & -> & Hc)|(cur & -> & E1 & E2)]; [left; splits; done|]. right. exists cur. splits; try done.
  rewrite E2. apply Hbe, elem_of_app. right. left.
Qed.

Lemma fl_merge_block_detail s l1 l2 e0 bp :
  sweep_inv s l1 l2 e0 -> swept_block s l1 l2 e0 bp ->
  exists adj s' l1' l2', fl_merge_block bp s = (adj, s') /\ sweep_inv s' l1' l2' adj /\
    cover (fmem s) (fmem s') l1 l1' (merge_start s bp) adj /\ filled (fmem s) (fmem s') l1 l1' (merge_start s bp) adj /\
    (last_fragment s' = last_fragment s \/ last_fragment s' - 8 = merge_start s bp) /\
    ((l2' = l2 /\ adj = block_end (fmem s) bp) \/
     exists cur, l2 = cur :: l2' /\ cur - 8 = block_end (fmem s) bp /\ adj = block_end (fmem s) cur).
Proof.
  intros Hsw Hblk. destruct (fl_merge_block_full s l1 l2 e0 bp Hsw Hblk) as (adj & s' & l1' & l2' & H1 & H2 & H3 & H4 & H5 & _ & H6).
  exists adj, s', l1', l2'. splits; try done. destruct H6 as [(? & ? & _)|H6]; [now left|now right].
Qed.

(** The words [fl_merge_block] may write: those of the merged block, and the link and
    the header of the free block before it. *)
Lemma Wosize_nonneg_u64 hd : isu64 hd -> 0 <= Wosize_hd hd.
Proof. intros [H _]. now apply Z.shiftr_nonneg. Qed.

Lemma merge_prev_frame bp hd prev cur s a :
  0 <= Wosize_hd hd -> ~ bp - 8 <= a < bp + Bosize_hd hd -> a <> prev -> a <> prev - 8 ->
  ld (fmem (merge_prev bp hd prev cur s)) a = ld (fmem s) a.
Proof.
  intros Hw H1 H2 H3. unfold merge_prev. unfold Bosize_hd, Bsize_wsize, sizeof_value in H1.
  destruct (_ =? _); cbn [fmem]; unfold Hp_val, sizeof_value; [now rewrite ld_st_ne by lia|].
  destruct (Z.eqb_spec (Wosize_hd hd) 0); cbn [negb fmem]; [done|]. now rewrite !ld_st_ne by lia.
Qed.

Lemma fl_merge_block_frame bp s a : isu64 (Hd_val (fmem s) bp) ->
  ~ merge_start s bp <= a < (fl_merge_block bp s).1 -> a <> fl_merge s -> a <> fl_merge s - 8 ->
  ld (fmem (fl_merge_block bp s).2) a = ld (fmem s) a.
Proof.
  intros Hhd. unfold fl_merge_block. set (s1 := MkFl _ _ _ _ _ _). set (prev := fl_merge s).
  change (fl_merge s1) with prev. change (fmem s1) with (fmem s).
  pose proof (merge_fragment_hd bp (Hd_val (fmem s) bp) s1 Hhd) as Hhd1.
  assert (Hbp1 : (merge_fragment bp (Hd_val (fmem s) bp) s1).1.1 - 8 = merge_start s bp /\
    forall a, a <> merge_start s bp -> ld (fmem (merge_fragment bp (Hd_val (fmem s) bp) s1).2) a = ld (fmem s) a).
  { unfold merge_fragment, merge_start. change (Hp_val bp) with (bp - 8). change (last_fragment s1) with (last_fragment s).
    destruct (Z.eqb_spec (last_fragment s) (bp - 8)) as [->|]; cbn [fst snd fmem]; (split; [lia|]); [|done].
    intros b Hb. unfold Hp_val, sizeof_value. now rewrite ld_st_ne by lia. }
  destruct (merge_fragment bp (Hd_val (fmem s) bp) s1) as [[bp1 hd1] s2]. cbn [fst snd] in Hbp1, Hhd1. destruct Hbp1 as [Eb1 Hfr1].
  pose proof (merge_next_hd bp1 hd1 prev (Next (fmem s) prev) s2 Hhd1) as Hhd2.
  assert (Hfr2 : forall a, a <> prev -> a <> bp1 - 8 -> ld (fmem (merge_next bp1 hd1 prev (Next (fmem s) prev) s2).2) a = ld (fmem s2) a).
  { intros b H1 H2. unfold merge_next. destruct (_ =? _); cbn [fst snd fmem]; [|done]. unfold Hp_val, sizeof_value. now rewrite !ld_st_ne by lia. }
  destruct (merge_next bp1 hd1 prev (Next (fmem s) prev) s2) as [[hd2 cur2] s3]. cbn [fst snd] in *.
  intros H1 H2 H3. cbn [fst snd] in H1 |- *. pose proof (Wosize_nonneg_u64 hd2 Hhd2) as Hw.
  assert (Hms : a <> merge_start s bp). { intros ->; apply H1; unfold Bosize_hd, Bsize_wsize, sizeof_value. lia. }
  rewrite merge_prev_frame, Hfr2, Hfr1 by (lia || done). done.
Qed.

Lemma fl_merge_block_spec s l1 l2 e0 bp :
  sweep_inv s l1 l2 e0 -> swept_block s l1 l2 e0 bp ->
  let lo := merge_start s bp in
  exists adj s' l1' l2', fl_merge_block bp s = (adj, s') /\ sweep_inv s' l1' l2' adj /\
    ((l2' = l2 /\ adj = block_end (fmem s) bp /\ forall cur k, l2 = cur :: k -> cur - 8 <> adj) \/
     exists cur, l2 = cur :: l2' /\ cur - 8 = block_end (fmem s) bp /\ adj = block_end (fmem s) cur) /\
    placed s s' l1 l1' lo adj /\
    cover (fmem s) (fmem s') l1 l1' lo adj /\ filled (fmem s) (fmem s') l1 l1' lo adj /\
    (forall a, ~ lo <= a < adj -> a <> fl_merge s -> a <> fl_merge s - 8 -> ld (fmem s') a = ld (fmem s) a).
Proof.
  intros Hsw Hblk lo. destruct (fl_merge_block_full s l1 l2 e0 bp Hsw Hblk) as (adj & s' & l1' & l2' & E & H2 & H3 & H4 & H5 & H6 & H7).
  exists adj, s', l1', l2'. splits; try done. intros a.
  pose proof (fl_merge_block_frame bp s a ltac:(apply Hblk)) as Hf. now rewrite E in Hf.
Qed.

Lemma isu64_Bluehd hd : isu64 hd -> isu64 (Bluehd_hd hd).
Proof. intros Hd. apply lor_range; [now apply land_range|]. split; vm_compute; [discriminate|reflexivity]. Qed.

Lemma fl_merge_block_wfm bp s : wfm (fmem s) -> 8 <= bp < B64 -> wfm (fmem (fl_merge_block bp s).2).
Proof.
  intros Hm Hbp. unfold fl_merge_block. set (s1 := MkFl _ _ _ _ _ _).
  change (fl_merge s1) with (fl_merge s). change (fmem s1) with (fmem s).
  pose proof (merge_fragment_hd bp (Hd_val (fmem s) bp) s1 (Hm _)) as Hhd1.
  assert (H1 : isu64 (merge_fragment bp (Hd_val (fmem s) bp) s1).1.1 /\ wfm (fmem (merge_fragment bp (Hd_val (fmem s) bp) s1).2)).
  { unfold merge_fragment. destruct (Z.eqb_spec (last_fragment s1) (Hp_val bp)) as [->|]; cbn [fst snd fmem].
    - split; [unfold Hp_val, sizeof_value, isu64; lia|]. apply wfm_st; [done|apply isu64_Make_header].
    - split; [unfold isu64; lia|done]. }
  destruct (merge_fragment bp (Hd_val (fmem s) bp) s1) as [[bp1 hd1] s2]. cbn [fst snd] in *. destruct H1 as [Hb1 Hm2].
  pose proof (merge_next_hd bp1 hd1 (fl_merge s) (Next (fmem s) (fl_merge s)) s2 Hhd1) as Hhd2.
  assert (H2 : isu64 (merge_next bp1 hd1 (fl_merge s) (Next (fmem s) (fl_merge s)) s2).1.2 /\
    wfm (fmem (merge_next bp1 hd1 (fl_merge s) (Next (fmem s) (fl_merge s)) s2).2)).
  { unfold merge_next. destruct (_ =? _); cbn [fst snd fmem]; [|split; [apply Hm|done]]. split; [apply Hm2|].
    apply wfm_st; [|apply isu64_Make_header]. apply wfm_st; [done|apply Hm2]. }
  destruct (merge_next bp1 hd1 _ _ s2) as [[hd2 cur2] s3]. cbn [fst snd] in *. destruct H2 as [Hc2 Hm3].
  unfold merge_prev. destruct (_ =? _); cbn [fmem]; [apply wfm_st; [done|apply isu64_Make_header]|].
  destruct (negb _); cbn [fmem]; [|done].
  apply wfm_st; [|done]. apply wfm_st; [|done]. apply wfm_st; [done|now apply isu64_Bluehd].
Qed.
End Freelist.

(** ** The claims *)

(** C12: [fl_allocate] always ends, and keeps the free list well formed.  When some
    free block is large enough it returns the high words of one: a region of the
    size asked for inside that block, away from every block left in the list and
    from the sentinel, and nothing but links and that block's header is written.
    It returns [NULL] only when no block is large enough. *)
Theorem fl_allocate_correct Fl_head fuel wo s l :
  fl_inv Fl_head s l -> 1 <= wo -> (length l < fuel)%nat ->
  exists hp s', fl_allocate Fl_head fuel wo s = Some (hp, s') /\ fl_result Fl_head wo s l hp s'.
Proof. apply fl_allocate_spec. Qed.

(** [fl_add_block] puts a new heap chunk's block at its place in the list, at the
    end or in the middle, keeps the list sorted and its size right, and writes nothing
    but the two links. *)
Theorem fl_add_block_correct Fl_head fuel bp gc_sweep_hp s l :
  fl_inv Fl_head s l -> fl_last s = last_of Fl_head l -> (length l < fuel)%nat ->
  free_block (fmem s) bp -> head_apart Fl_head (fmem s) bp -> 16 <= bp ->
  (forall c, c ∈ l -> block_end (fmem s) c <= bp - 8 \/ block_end (fmem s) bp <= c - 8) ->
  words_in (fmem s) l + Whsize_val (fmem s) bp < B64 ->
  exists s' l1 l2, fl_add_block Fl_head fuel bp gc_sweep_hp s = Some s' /\ l = l1 ++ l2 /\
    fits Fl_head (fmem s) l1 l2 bp /\ fl_inv Fl_head s' (l1 ++ bp :: l2) /\
    (forall a, a ∉ Fl_head :: l1 -> a <> bp -> ld (fmem s') a = ld (fmem s) a).
Proof. apply fl_add_block_spec. Qed.

(** C11: [fl_merge_block] keeps the sweep invariant (the list sorted, the block sizes
    right, the free words counted), and merges the dead block with its neighbours:
    the merged block starts at the fragment before the block when there is one, and
    ends at the end of the next free block exactly when that block is adjacent; the
    sweeper resumes there.  The words between are added to the free block before when
    it is adjacent; else they make a new free block of the list, or the last fragment
    when they are a header only.  The blocks before then cover exactly the words they
    covered and those of the merged block, and no other word is written but the link
    and the header of the free block before. *)
Theorem fl_merge_block_correct Fl_head s l1 l2 e0 bp :
  sweep_inv Fl_head s l1 l2 e0 -> swept_block Fl_head s l1 l2 e0 bp ->
  let lo := merge_start s bp in
  exists adj s' l1' l2', fl_merge_block bp s = (adj, s') /\ sweep_inv Fl_head s' l1' l2' adj /\
    ((l2' = l2 /\ adj = block_end (fmem s) bp /\ forall cur k, l2 = cur :: k -> cur - 8 <> adj) \/
     exists cur, l2 = cur :: l2' /\ cur - 8 = block_end (fmem s) bp /\ adj = block_end (fmem s) cur) /\
    placed s s' l1 l1' lo adj /\
    cover (fmem s) (fmem s') l1 l1' lo adj /\ filled (fmem s) (fmem s') l1 l1' lo adj /\
    (forall a, ~ lo <= a < adj -> a <> fl_merge s -> a <> fl_merge s - 8 -> ld (fmem s') a = ld (fmem s) a).
Proof. apply fl_merge_block_spec. Qed.

(** A list of two blocks, of 2 and 5 words, with the sweeper between them. *)
Definition fl_demo : freelist :=
  let m := st (st ∅ 1000 10008) 992 (Make_header 0 0 Caml_blue) in
  let m := st (st m 10000 (Make_header 2 0 Caml_blue)) 10008 20008 in
  let m := st (st m 20000 (Make_header 5 3 Caml_blue)) 20008 0 in
  let m := st m 19960 (Make_header 4 7 Caml_white) in
  let m := st m 30000 (Make_header 9 0 Caml_blue) in
  MkFl m 1000 20008 10008 9 0.

Lemma fl_demo_inv : fl_inv 1000 fl_demo [10008; 20008].
Proof.
  unfold fl_inv, fl_list, head_apart, free_block. vm_compute. splits; auto; try discriminate.
  all: try (repeat constructor; try (now left); discriminate).
Qed.

Lemma fl_allocate_correct_witness :
  exists hp s', fl_allocate 1000 3 4 fl_demo = Some (hp, s') /\ fl_result 1000 4 fl_demo [10008; 20008] hp s'.
Proof. apply fl_allocate_correct; [exact fl_demo_inv|lia|cbn; lia]. Defined.

Lemma fl_add_block_correct_witness :
  exists s' l1 l2, fl_add_block 1000 3 30008 15000 fl_demo = Some s' /\ [10008; 20008] = l1 ++ l2 /\
    fits 1000 (fmem fl_demo) l1 l2 30008 /\ fl_inv 1000 s' (l1 ++ 30008 :: l2) /\
    (forall a, a ∉ 1000 :: l1 -> a <> 30008 -> ld (fmem s') a = ld (fmem fl_demo) a).
Proof.
  apply fl_add_block_correct; [exact fl_demo_inv|reflexivity|cbn; lia|vm_compute; splits; auto; discriminate
    |left; vm_compute; discriminate|lia| |vm_compute; reflexivity].
  intros c Hc. left. apply elem_of_cons in Hc as [->|Hc]; [vm_compute; discriminate|].
  apply list_elem_of_singleton in Hc as ->. vm_compute. discriminate.
Defined.

Lemma fl_demo_sweep : sweep_inv 1000 fl_demo [10008] [20008] 15000.
Proof.
  unfold sweep_inv. splits; [exact fl_demo_inv|reflexivity| | | |discriminate|vm_compute; discriminate|reflexivity].
  all: intros c Hc; apply list_elem_of_singleton in Hc as ->; vm_compute; discriminate.
Qed.
Lemma fl_demo_swept : swept_block 1000 fl_demo [10008] [20008] 15000 19968.
Proof.
  unfold swept_block. vm_compute. splits; try discriminate; try reflexivity; try (left; discriminate).
  intros c Hc. apply list_elem_of_singleton in Hc as ->. discriminate.
Qed.

(** The dead block of 4 words at 19968 ends at the free block at 20008, which it absorbs. *)
Lemma fl_merge_block_correct_witness :
  exists adj s' l1' l2', fl_merge_block 19968 fl_demo = (adj, s') /\ sweep_inv 1000 s' l1' l2' adj /\
    ((l2' = [20008] /\ adj = block_end (fmem fl_demo) 19968 /\ forall cur k, [20008] = cur :: k -> cur - 8 <> adj) \/
     exists cur, [20008] = cur :: l2' /\ cur - 8 = block_end (fmem fl_demo) 19968 /\ adj = block_end (fmem fl_demo) cur) /\
    placed fl_demo s' [10008] l1' (merge_start fl_demo 19968) adj /\
    cover (fmem fl_demo) (fmem s') [10008] l1' (merge_start fl_demo 19968) adj /\
    filled (fmem fl_demo) (fmem s') [10008] l1' (merge_start fl_demo 19968) adj /\
    (forall a, ~ merge_start fl_demo 19968 <= a < adj -> a <> fl_merge fl_demo -> a <> fl_merge fl_demo - 8 ->
       ld (fmem s') a = ld (fmem fl_demo) a).
Proof. exact (fl_merge_block_correct 1000 fl_demo [10008] [20008] 15000 19968 fl_demo_sweep fl_demo_swept). Defined.

(** ** A heap extension below the sweep pointer

    [fl_add_block] advances [fl_merge] only when it inserts in the middle of the
    list; when the new block goes to the end of the list but is below the sweep
    pointer, [fl_merge] stays before it.  The block that is swept next is then
    linked in front of the new one: the list is no longer sorted. *)

Definition behind_sweep : freelist :=
  let m := st (st ∅ 1000 10008) 992 (Make_header 0 0 Caml_blue) in
  let m := st (st m 10000 (Make_header 2 0 Caml_blue)) 10008 0 in
  let m := st m 20000 (Make_header 10 0 Caml_blue) in
  let m := st m 40000 (Make_header 3 0 Caml_white) in
  MkFl m 1000 10008 10008 3 0.

(** With one free block at 10008 and the sweeper at 40000, adding a heap extension
    at 20008 and sweeping the block at 40008 leaves the list 10008, 40008, 20008:
    the order the free list is supposed to keep is lost. *)
Theorem fl_add_block_behind_sweep :
  sweep_inv 1000 behind_sweep [10008] [] 40000 /\
  exists s1 s2 adj, fl_add_block 1000 2 20008 40000 behind_sweep = Some s1 /\
    fl_merge_block 40008 s1 = (adj, s2) /\ path (fmem s2) 1000 [10008; 40008; 20008] 0.
Proof.
  split.
  - unfold sweep_inv. splits.
    + unfold fl_inv, fl_list, head_apart, free_block. vm_compute. splits; auto; try discriminate.
      all: try (repeat constructor; try (now left); discriminate).
    + reflexivity.
    + intros c Hc. apply list_elem_of_singleton in Hc as ->. vm_compute. discriminate.
    + intros c Hc. now apply elem_of_nil in Hc.
    + intros c Hc. now apply elem_of_nil in Hc.
    + discriminate.
    + vm_compute. discriminate.
    + reflexivity.
  - eexists _, _, _. split; [vm_compute; reflexivity|]. split; [vm_compute; reflexivity|].
    vm_compute. auto.
Qed.
