(* ===== verification/Runtime.v ===== *)
(** * The state of the runtime system

    The C globals the modules of [byterun/] share, one record per module that
    owns them, with the result type of C code that may raise a Caml exception
    ([siglongjmp] to [external_raise]) or stop the process ([fatal_error]). *)

From stdpp Require Export strings.
From S2P Require Export Prelude Mlvalues.
From S2P Require Import Freelist.

#[export] Set Primitive Projections.

(** The globals of [stacks.c]. *)
Record stacks := MkStacks {
  stack_low : Z;
  stack_high : Z;
  stack_threshold : Z;
  extern_sp : Z;
  trapsp : Z;
  trap_barrier : Z;
  max_stack_size : Z
}.

(** The globals of [minor_gc.c].  [ref_table] holds the entries below
    [ref_table_ptr]; the other pointers into the table are offsets from its base. *)
Record minor_gc := MkMinor {
  minor_heap_size : Z;
  young_start : Z;
  young_end : Z;
  young_ptr : Z;
  young_limit : Z;
  ref_table : list Z;
  ref_table_threshold : Z;
  ref_table_limit : Z;
  ref_table_end : Z;
  ref_table_size : Z;
  ref_table_reserve : Z;
  in_minor_collection : bool;
  oldify_todo_list : Z
}.

(** The globals of [major_gc.c] and the heap statistics.  [gray_vals] holds the
    entries below [gray_vals_cur]. *)
Record major_gc := MkMajor {
  heap_start : Z;
  heap_end : Z;
  page_low : Z;
  page_high : Z;
  page_table : gmap Z Z;
  gc_sweep_hp : Z;
  gc_phase : Z;
  gray_vals : list Z;
  gray_vals_size : Z;
  heap_is_pure : bool;
  allocated_words : Z;
  stat_heap_size : Z;
  stat_top_heap_size : Z;
  stat_heap_chunks : Z;
  percent_free : Z;
  major_heap_increment : Z;
  gc_subphase : Z;
  markhp : Z;
  chunk : Z;
  limit : Z;
  weak_prev : Z;
  fl_size_at_phase_change : Z
}.

(** The globals of [fail.c], [signals.c], [callback.c], [backtrace.c],
    [debugger.c] and [stacks.c] the interpreter shares. *)
Record globals := MkGlobals {
  global_data : Z;
  exn_bucket : Z;
  external_raise : Z;
  local_roots : Z;
  callback_depth : Z;
  something_to_do : bool;
  force_major_slice : bool;
  backtrace_active : bool;
  event_count : Z;
  atom_table : Z;
  out_of_memory_bucket : Z;
  pending_signal : Z;
  async_signal_mode : bool
}.

(** The state of the runtime system: the memory, the globals of the modules, the
    bytecode (32-bit words at 4-byte addresses) with the copy kept for the
    debugger, and the answers [malloc] and [realloc] are going to give ([0] is
    [NULL], also once the list is used up), and the static variables of the free
    list (whose memory is [rmem]). *)
Record runtime := MkRuntime {
  rmem : mem;
  stk : stacks;
  mnr : minor_gc;
  mjr : major_gc;
  glb : globals;
  code : gmap Z Z;
  start_code : Z;
  saved_code : gmap Z Z;
  malloc_answers : list Z;
  frl : freelist
}.

Definition set_rmem (x : mem) (r : runtime) : runtime :=
  MkRuntime x (r.(stk)) (r.(mnr)) (r.(mjr)) (r.(glb)) (r.(code)) (r.(start_code))
    (r.(saved_code)) (r.(malloc_answers)) (r.(frl)).
Definition set_stk (x : stacks) (r : runtime) : runtime :=
  MkRuntime (r.(rmem)) x (r.(mnr)) (r.(mjr)) (r.(glb)) (r.(code)) (r.(start_code))
    (r.(saved_code)) (r.(malloc_answers)) (r.(frl)).
Definition set_mnr (x : minor_gc) (r : runtime) : runtime :=
  MkRuntime (r.(rmem)) (r.(stk)) x (r.(mjr)) (r.(glb)) (r.(code)) (r.(start_code))
    (r.(saved_code)) (r.(malloc_answers)) (r.(frl)).
Definition set_mjr (x : major_gc) (r : runtime) : runtime :=
  MkRuntime (r.(rmem)) (r.(stk)) (r.(mnr)) x (r.(glb)) (r.(code)) (r.(start_code))
    (r.(saved_code)) (r.(malloc_answers)) (r.(frl)).
Definition set_glb (x : globals) (r : runtime) : runtime :=
  MkRuntime (r.(rmem)) (r.(stk)) (r.(mnr)) (r.(mjr)) x (r.(code)) (r.(start_code))
    (r.(saved_code)) (r.(malloc_answers)) (r.(frl)).
Definition set_code (x : gmap Z Z) (r : runtime) : runtime :=
  MkRuntime (r.(rmem)) (r.(stk)) (r.(mnr)) (r.(mjr)) (r.(glb)) x (r.(start_code))
    (r.(saved_code)) (r.(malloc_answers)) (r.(frl)).
Definition set_start_code (x : Z) (r : runtime) : runtime :=
  MkRuntime (r.(rmem)) (r.(stk)) (r.(mnr)) (r.(mjr)) (r.(glb)) (r.(code)) x
    (r.(saved_code)) (r.(malloc_answers)) (r.(frl)).
Definition set_saved_code (x : gmap Z Z) (r : runtime) : runtime :=
  MkRuntime (r.(rmem)) (r.(stk)) (r.(mnr)) (r.(mjr)) (r.(glb)) (r.(code))
    (r.(start_code)) x (r.(malloc_answers)) (r.(frl)).
Definition set_malloc_answers (x : list Z) (r : runtime) : runtime :=
  MkRuntime (r.(rmem)) (r.(stk)) (r.(mnr)) (r.(mjr)) (r.(glb)) (r.(code))
    (r.(start_code)) (r.(saved_code)) x (r.(frl)).
Definition set_frl (x : freelist) (r : runtime) : runtime :=
  MkRuntime (r.(rmem)) (r.(stk)) (r.(mnr)) (r.(mjr)) (r.(glb)) (r.(code))
    (r.(start_code)) (r.(saved_code)) (r.(malloc_answers)) x.
Definition set_stack_low (x : Z) (r : runtime) : runtime :=
  set_stk (MkStacks x (r.(stk).(stack_high)) (r.(stk).(stack_threshold))
    (r.(stk).(extern_sp)) (r.(stk).(trapsp)) (r.(stk).(trap_barrier))
    (r.(stk).(max_stack_size))) r.
Definition set_stack_high (x : Z) (r : runtime) : runtime :=
  set_stk (MkStacks (r.(stk).(stack_low)) x (r.(stk).(stack_threshold))
    (r.(stk).(extern_sp)) (r.(stk).(trapsp)) (r.(stk).(trap_barrier))
    (r.(stk).(max_stack_size))) r.
Definition set_stack_threshold (x : Z) (r : runtime) : runtime :=
  set_stk (MkStacks (r.(stk).(stack_low)) (r.(stk).(stack_high)) x
    (r.(stk).(extern_sp)) (r.(stk).(trapsp)) (r.(stk).(trap_barrier))
    (r.(stk).(max_stack_size))) r.
Definition set_extern_sp (x : Z) (r : runtime) : runtime :=
  set_stk (MkStacks (r.(stk).(stack_low)) (r.(stk).(stack_high))
    (r.(stk).(stack_threshold)) x (r.(stk).(trapsp)) (r.(stk).(trap_barrier))
    (r.(stk).(max_stack_size))) r.
Definition set_trapsp (x : Z) (r : runtime) : runtime :=
  set_stk (MkStacks (r.(stk).(stack_low)) (r.(stk).(stack_high))
    (r.(stk).(stack_threshold)) (r.(stk).(extern_sp)) x (r.(stk).(trap_barrier))
    (r.(stk).(max_stack_size))) r.
Definition set_trap_barrier (x : Z) (r : runtime) : runtime :=
  set_stk (MkStacks (r.(stk).(stack_low)) (r.(stk).(stack_high))
    (r.(stk).(stack_threshold)) (r.(stk).(extern_sp)) (r.(stk).(trapsp)) x
    (r.(stk).(max_stack_size))) r.
Definition set_max_stack_size (x : Z) (r : runtime) : runtime :=
  set_stk (MkStacks (r.(stk).(stack_low)) (r.(stk).(stack_high))
    (r.(stk).(stack_threshold)) (r.(stk).(extern_sp)) (r.(stk).(trapsp))
    (r.(stk).(trap_barrier)) x) r.
Definition set_minor_heap_size (x : Z) (r : runtime) : runtime :=
  set_mnr (MkMinor x (r.(mnr).(young_start)) (r.(mnr).(young_end))
    (r.(mnr).(young_ptr)) (r.(mnr).(young_limit)) (r.(mnr).(ref_table))
    (r.(mnr).(ref_table_threshold)) (r.(mnr).(ref_table_limit))
    (r.(mnr).(ref_table_end)) (r.(mnr).(ref_table_size)) (r.(mnr).(ref_table_reserve))
    (r.(mnr).(in_minor_collection)) (r.(mnr).(oldify_todo_list))) r.
Definition set_young_start (x : Z) (r : runtime) : runtime :=
  set_mnr (MkMinor (r.(mnr).(minor_heap_size)) x (r.(mnr).(young_end))
    (r.(mnr).(young_ptr)) (r.(mnr).(young_limit)) (r.(mnr).(ref_table))
    (r.(mnr).(ref_table_threshold)) (r.(mnr).(ref_table_limit))
    (r.(mnr).(ref_table_end)) (r.(mnr).(ref_table_size)) (r.(mnr).(ref_table_reserve))
    (r.(mnr).(in_minor_collection)) (r.(mnr).(oldify_todo_list))) r.
Definition set_young_end (x : Z) (r : runtime) : runtime :=
  set_mnr (MkMinor (r.(mnr).(minor_heap_size)) (r.(mnr).(young_start)) x
    (r.(mnr).(young_ptr)) (r.(mnr).(young_limit)) (r.(mnr).(ref_table))
    (r.(mnr).(ref_table_threshold)) (r.(mnr).(ref_table_limit))
    (r.(mnr).(ref_table_end)) (r.(mnr).(ref_table_size)) (r.(mnr).(ref_table_reserve))
    (r.(mnr).(in_minor_collection)) (r.(mnr).(oldify_todo_list))) r.
Definition set_young_ptr (x : Z) (r : runtime) : runtime :=
  set_mnr (MkMinor (r.(mnr).(minor_heap_size)) (r.(mnr).(young_start))
    (r.(mnr).(young_end)) x (r.(mnr).(young_limit)) (r.(mnr).(ref_table))
    (r.(mnr).(ref_table_threshold)) (r.(mnr).(ref_table_limit))
    (r.(mnr).(ref_table_end)) (r.(mnr).(ref_table_size)) (r.(mnr).(ref_table_reserve))
    (r.(mnr).(in_minor_collection)) (r.(mnr).(oldify_todo_list))) r.
Definition set_young_limit (x : Z) (r : runtime) : runtime :=
  set_mnr (MkMinor (r.(mnr).(minor_heap_size)) (r.(mnr).(young_start))
    (r.(mnr).(young_end)) (r.(mnr).(young_ptr)) x (r.(mnr).(ref_table))
    (r.(mnr).(ref_table_threshold)) (r.(mnr).(ref_table_limit))
    (r.(mnr).(ref_table_end)) (r.(mnr).(ref_table_size)) (r.(mnr).(ref_table_reserve))
    (r.(mnr).(in_minor_collection)) (r.(mnr).(oldify_todo_list))) r.
Definition set_ref_table (x : list Z) (r : runtime) : runtime :=
  set_mnr (MkMinor (r.(mnr).(minor_heap_size)) (r.(mnr).(young_start))
    (r.(mnr).(young_end)) (r.(mnr).(young_ptr)) (r.(mnr).(young_limit)) x
    (r.(mnr).(ref_table_threshold)) (r.(mnr).(ref_table_limit))
    (r.(mnr).(ref_table_end)) (r.(mnr).(ref_table_size)) (r.(mnr).(ref_table_reserve))
    (r.(mnr).(in_minor_collection)) (r.(mnr).(oldify_todo_list))) r.
Definition set_ref_table_threshold (x : Z) (r : runtime) : runtime :=
  set_mnr (MkMinor (r.(mnr).(minor_heap_size)) (r.(mnr).(young_start))
    (r.(mnr).(young_end)) (r.(mnr).(young_ptr)) (r.(mnr).(young_limit))
    (r.(mnr).(ref_table)) x (r.(mnr).(ref_table_limit)) (r.(mnr).(ref_table_end))
    (r.(mnr).(ref_table_size)) (r.(mnr).(ref_table_reserve))
    (r.(mnr).(in_minor_collection)) (r.(mnr).(oldify_todo_list))) r.
Definition set_ref_table_limit (x : Z) (r : runtime) : runtime :=
  set_mnr (MkMinor (r.(mnr).(minor_heap_size)) (r.(mnr).(young_start))
    (r.(mnr).(young_end)) (r.(mnr).(young_ptr)) (r.(mnr).(young_limit))
    (r.(mnr).(ref_table)) (r.(mnr).(ref_table_threshold)) x (r.(mnr).(ref_table_end))
    (r.(mnr).(ref_table_size)) (r.(mnr).(ref_table_reserve))
    (r.(mnr).(in_minor_collection)) (r.(mnr).(oldify_todo_list))) r.
Definition set_ref_table_end (x : Z) (r : runtime) : runtime :=
  set_mnr (MkMinor (r.(mnr).(minor_heap_size)) (r.(mnr).(young_start))
    (r.(mnr).(young_end)) (r.(mnr).(young_ptr)) (r.(mnr).(young_limit))
    (r.(mnr).(ref_table)) (r.(mnr).(ref_table_threshold)) (r.(mnr).(ref_table_limit)) x
    (r.(mnr).(ref_table_size)) (r.(mnr).(ref_table_reserve))
    (r.(mnr).(in_minor_collection)) (r.(mnr).(oldify_todo_list))) r.
Definition set_ref_table_size (x : Z) (r : runtime) : runtime :=
  set_mnr (MkMinor (r.(mnr).(minor_heap_size)) (r.(mnr).(young_start))
    (r.(mnr).(young_end)) (r.(mnr).(young_ptr)) (r.(mnr).(young_limit))
    (r.(mnr).(ref_table)) (r.(mnr).(ref_table_threshold)) (r.(mnr).(ref_table_limit))
    (r.(mnr).(ref_table_end)) x (r.(mnr).(ref_table_reserve))
    (r.(mnr).(in_minor_collection)) (r.(mnr).(oldify_todo_list))) r.
Definition set_ref_table_reserve (x : Z) (r : runtime) : runtime :=
  set_mnr (MkMinor (r.(mnr).(minor_heap_size)) (r.(mnr).(young_start))
    (r.(mnr).(young_end)) (r.(mnr).(young_ptr)) (r.(mnr).(young_limit))
    (r.(mnr).(ref_table)) (r.(mnr).(ref_table_threshold)) (r.(mnr).(ref_table_limit))
    (r.(mnr).(ref_table_end)) (r.(mnr).(ref_table_size)) x
    (r.(mnr).(in_minor_collection)) (r.(mnr).(oldify_todo_list))) r.
Definition set_in_minor_collection (x : bool) (r : runtime) : runtime :=
  set_mnr (MkMinor (r.(mnr).(minor_heap_size)) (r.(mnr).(young_start))
    (r.(mnr).(young_end)) (r.(mnr).(young_ptr)) (r.(mnr).(young_limit))
    (r.(mnr).(ref_table)) (r.(mnr).(ref_table_threshold)) (r.(mnr).(ref_table_limit))
    (r.(mnr).(ref_table_end)) (r.(mnr).(ref_table_size)) (r.(mnr).(ref_table_reserve)) x
    (r.(mnr).(oldify_todo_list))) r.
Definition set_oldify_todo_list (x : Z) (r : runtime) : runtime :=
  set_mnr (MkMinor (r.(mnr).(minor_heap_size)) (r.(mnr).(young_start))
    (r.(mnr).(young_end)) (r.(mnr).(young_ptr)) (r.(mnr).(young_limit))
    (r.(mnr).(ref_table)) (r.(mnr).(ref_table_threshold)) (r.(mnr).(ref_table_limit))
    (r.(mnr).(ref_table_end)) (r.(mnr).(ref_table_size)) (r.(mnr).(ref_table_reserve))
    (r.(mnr).(in_minor_collection)) x) r.
Definition set_heap_start (x : Z) (r : runtime) : runtime :=
  set_mjr (MkMajor x (r.(mjr).(heap_end)) (r.(mjr).(page_low)) (r.(mjr).(page_high))
    (r.(mjr).(page_table)) (r.(mjr).(gc_sweep_hp)) (r.(mjr).(gc_phase))
    (r.(mjr).(gray_vals)) (r.(mjr).(gray_vals_size)) (r.(mjr).(heap_is_pure))
    (r.(mjr).(allocated_words)) (r.(mjr).(stat_heap_size))
    (r.(mjr).(stat_top_heap_size)) (r.(mjr).(stat_heap_chunks)) (r.(mjr).(percent_free))
    (r.(mjr).(major_heap_increment)) (r.(mjr).(gc_subphase)) (r.(mjr).(markhp))
    (r.(mjr).(chunk)) (r.(mjr).(limit)) (r.(mjr).(weak_prev))
    (r.(mjr).(fl_size_at_phase_change))) r.
Definition set_heap_end (x : Z) (r : runtime) : runtime :=
  set_mjr (MkMajor (r.(mjr).(heap_start)) x (r.(mjr).(page_low)) (r.(mjr).(page_high))
    (r.(mjr).(page_table)) (r.(mjr).(gc_sweep_hp)) (r.(mjr).(gc_phase))
    (r.(mjr).(gray_vals)) (r.(mjr).(gray_vals_size)) (r.(mjr).(heap_is_pure))
    (r.(mjr).(allocated_words)) (r.(mjr).(stat_heap_size))
    (r.(mjr).(stat_top_heap_size)) (r.(mjr).(stat_heap_chunks)) (r.(mjr).(percent_free))
    (r.(mjr).(major_heap_increment)) (r.(mjr).(gc_subphase)) (r.(mjr).(markhp))
    (r.(mjr).(chunk)) (r.(mjr).(limit)) (r.(mjr).(weak_prev))
    (r.(mjr).(fl_size_at_phase_change))) r.
Definition set_page_low (x : Z) (r : runtime) : runtime :=
  set_mjr (MkMajor (r.(mjr).(heap_start)) (r.(mjr).(heap_end)) x (r.(mjr).(page_high))
    (r.(mjr).(page_table)) (r.(mjr).(gc_sweep_hp)) (r.(mjr).(gc_phase))
    (r.(mjr).(gray_vals)) (r.(mjr).(gray_vals_size)) (r.(mjr).(heap_is_pure))
    (r.(mjr).(allocated_words)) (r.(mjr).(stat_heap_size))
    (r.(mjr).(stat_top_heap_size)) (r.(mjr).(stat_heap_chunks)) (r.(mjr).(percent_free))
    (r.(mjr).(major_heap_increment)) (r.(mjr).(gc_subphase)) (r.(mjr).(markhp))
    (r.(mjr).(chunk)) (r.(mjr).(limit)) (r.(mjr).(weak_prev))
    (r.(mjr).(fl_size_at_phase_change))) r.
Definition set_page_high (x : Z) (r : runtime) : runtime :=
  set_mjr (MkMajor (r.(mjr).(heap_start)) (r.(mjr).(heap_end)) (r.(mjr).(page_low)) x
    (r.(mjr).(page_table)) (r.(mjr).(gc_sweep_hp)) (r.(mjr).(gc_phase))
    (r.(mjr).(gray_vals)) (r.(mjr).(gray_vals_size)) (r.(mjr).(heap_is_pure))
    (r.(mjr).(allocated_words)) (r.(mjr).(stat_heap_size))
    (r.(mjr).(stat_top_heap_size)) (r.(mjr).(stat_heap_chunks)) (r.(mjr).(percent_free))
    (r.(mjr).(major_heap_increment)) (r.(mjr).(gc_subphase)) (r.(mjr).(markhp))
    (r.(mjr).(chunk)) (r.(mjr).(limit)) (r.(mjr).(weak_prev))
    (r.(mjr).(fl_size_at_phase_change))) r.
Definition set_page_table (x : gmap Z Z) (r : runtime) : runtime :=
  set_mjr (MkMajor (r.(mjr).(heap_start)) (r.(mjr).(heap_end)) (r.(mjr).(page_low))
    (r.(mjr).(page_high)) x (r.(mjr).(gc_sweep_hp)) (r.(mjr).(gc_phase))
    (r.(mjr).(gray_vals)) (r.(mjr).(gray_vals_size)) (r.(mjr).(heap_is_pure))
    (r.(mjr).(allocated_words)) (r.(mjr).(stat_heap_size))
    (r.(mjr).(stat_top_heap_size)) (r.(mjr).(stat_heap_chunks)) (r.(mjr).(percent_free))
    (r.(mjr).(major_heap_increment)) (r.(mjr).(gc_subphase)) (r.(mjr).(markhp))
    (r.(mjr).(chunk)) (r.(mjr).(limit)) (r.(mjr).(weak_prev))
    (r.(mjr).(fl_size_at_phase_change))) r.
Definition set_gc_sweep_hp (x : Z) (r : runtime) : runtime :=
  set_mjr (MkMajor (r.(mjr).(heap_start)) (r.(mjr).(heap_end)) (r.(mjr).(page_low))
    (r.(mjr).(page_high)) (r.(mjr).(page_table)) x (r.(mjr).(gc_phase))
    (r.(mjr).(gray_vals)) (r.(mjr).(gray_vals_size)) (r.(mjr).(heap_is_pure))
    (r.(mjr).(allocated_words)) (r.(mjr).(stat_heap_size))
    (r.(mjr).(stat_top_heap_size)) (r.(mjr).(stat_heap_chunks)) (r.(mjr).(percent_free))
    (r.(mjr).(major_heap_increment)) (r.(mjr).(gc_subphase)) (r.(mjr).(markhp))
    (r.(mjr).(chunk)) (r.(mjr).(limit)) (r.(mjr).(weak_prev))
    (r.(mjr).(fl_size_at_phase_change))) r.
Definition set_gc_phase (x : Z) (r : runtime) : runtime :=
  set_mjr (MkMajor (r.(mjr).(heap_start)) (r.(mjr).(heap_end)) (r.(mjr).(page_low))
    (r.(mjr).(page_high)) (r.(mjr).(page_table)) (r.(mjr).(gc_sweep_hp)) x
    (r.(mjr).(gray_vals)) (r.(mjr).(gray_vals_size)) (r.(mjr).(heap_is_pure))
    (r.(mjr).(allocated_words)) (r.(mjr).(stat_heap_size))
    (r.(mjr).(stat_top_heap_size)) (r.(mjr).(stat_heap_chunks)) (r.(mjr).(percent_free))
    (r.(mjr).(major_heap_increment)) (r.(mjr).(gc_subphase)) (r.(mjr).(markhp))
    (r.(mjr).(chunk)) (r.(mjr).(limit)) (r.(mjr).(weak_prev))
    (r.(mjr).(fl_size_at_phase_change))) r.
Definition set_gray_vals (x : list Z) (r : runtime) : runtime :=
  set_mjr (MkMajor (r.(mjr).(heap_start)) (r.(mjr).(heap_end)) (r.(mjr).(page_low))
    (r.(mjr).(page_high)) (r.(mjr).(page_table)) (r.(mjr).(gc_sweep_hp))
    (r.(mjr).(gc_phase)) x (r.(mjr).(gray_vals_size)) (r.(mjr).(heap_is_pure))
    (r.(mjr).(allocated_words)) (r.(mjr).(stat_heap_size))
    (r.(mjr).(stat_top_heap_size)) (r.(mjr).(stat_heap_chunks)) (r.(mjr).(percent_free))
    (r.(mjr).(major_heap_increment)) (r.(mjr).(gc_subphase)) (r.(mjr).(markhp))
    (r.(mjr).(chunk)) (r.(mjr).(limit)) (r.(mjr).(weak_prev))
    (r.(mjr).(fl_size_at_phase_change))) r.
Definition set_gray_vals_size (x : Z) (r : runtime) : runtime :=
  set_mjr (MkMajor (r.(mjr).(heap_start)) (r.(mjr).(heap_end)) (r.(mjr).(page_low))
    (r.(mjr).(page_high)) (r.(mjr).(page_table)) (r.(mjr).(gc_sweep_hp))
    (r.(mjr).(gc_phase)) (r.(mjr).(gray_vals)) x (r.(mjr).(heap_is_pure))
    (r.(mjr).(allocated_words)) (r.(mjr).(stat_heap_size))
    (r.(mjr).(stat_top_heap_size)) (r.(mjr).(stat_heap_chunks)) (r.(mjr).(percent_free))
    (r.(mjr).(major_heap_increment)) (r.(mjr).(gc_subphase)) (r.(mjr).(markhp))
    (r.(mjr).(chunk)) (r.(mjr).(limit)) (r.(mjr).(weak_prev))
    (r.(mjr).(fl_size_at_phase_change))) r.
Definition set_heap_is_pure (x : bool) (r : runtime) : runtime :=
  set_mjr (MkMajor (r.(mjr).(heap_start)) (r.(mjr).(heap_end)) (r.(mjr).(page_low))
    (r.(mjr).(page_high)) (r.(mjr).(page_table)) (r.(mjr).(gc_sweep_hp))
    (r.(mjr).(gc_phase)) (r.(mjr).(gray_vals)) (r.(mjr).(gray_vals_size)) x
    (r.(mjr).(allocated_words)) (r.(mjr).(stat_heap_size))
    (r.(mjr).(stat_top_heap_size)) (r.(mjr).(stat_heap_chunks)) (r.(mjr).(percent_free))
    (r.(mjr).(major_heap_increment)) (r.(mjr).(gc_subphase)) (r.(mjr).(markhp))
    (r.(mjr).(chunk)) (r.(mjr).(limit)) (r.(mjr).(weak_prev))
    (r.(mjr).(fl_size_at_phase_change))) r.
Definition set_allocated_words (x : Z) (r : runtime) : runtime :=
  set_mjr (MkMajor (r.(mjr).(heap_start)) (r.(mjr).(heap_end)) (r.(mjr).(page_low))
    (r.(mjr).(page_high)) (r.(mjr).(page_table)) (r.(mjr).(gc_sweep_hp))
    (r.(mjr).(gc_phase)) (r.(mjr).(gray_vals)) (r.(mjr).(gray_vals_size))
    (r.(mjr).(heap_is_pure)) x (r.(mjr).(stat_heap_size)) (r.(mjr).(stat_top_heap_size))
    (r.(mjr).(stat_heap_chunks)) (r.(mjr).(percent_free))
    (r.(mjr).(major_heap_increment)) (r.(mjr).(gc_subphase)) (r.(mjr).(markhp))
    (r.(mjr).(chunk)) (r.(mjr).(limit)) (r.(mjr).(weak_prev))
    (r.(mjr).(fl_size_at_phase_change))) r.
Definition set_stat_heap_size (x : Z) (r : runtime) : runtime :=
  set_mjr (MkMajor (r.(mjr).(heap_start)) (r.(mjr).(heap_end)) (r.(mjr).(page_low))
    (r.(mjr).(page_high)) (r.(mjr).(page_table)) (r.(mjr).(gc_sweep_hp))
    (r.(mjr).(gc_phase)) (r.(mjr).(gray_vals)) (r.(mjr).(gray_vals_size))
    (r.(mjr).(heap_is_pure)) (r.(mjr).(allocated_words)) x
    (r.(mjr).(stat_top_heap_size)) (r.(mjr).(stat_heap_chunks)) (r.(mjr).(percent_free))
    (r.(mjr).(major_heap_increment)) (r.(mjr).(gc_subphase)) (r.(mjr).(markhp))
    (r.(mjr).(chunk)) (r.(mjr).(limit)) (r.(mjr).(weak_prev))
    (r.(mjr).(fl_size_at_phase_change))) r.
Definition set_stat_top_heap_size (x : Z) (r : runtime) : runtime :=
  set_mjr (MkMajor (r.(mjr).(heap_start)) (r.(mjr).(heap_end)) (r.(mjr).(page_low))
    (r.(mjr).(page_high)) (r.(mjr).(page_table)) (r.(mjr).(gc_sweep_hp))
    (r.(mjr).(gc_phase)) (r.(mjr).(gray_vals)) (r.(mjr).(gray_vals_size))
    (r.(mjr).(heap_is_pure)) (r.(mjr).(allocated_words)) (r.(mjr).(stat_heap_size)) x
    (r.(mjr).(stat_heap_chunks)) (r.(mjr).(percent_free))
    (r.(mjr).(major_heap_increment)) (r.(mjr).(gc_subphase)) (r.(mjr).(markhp))
    (r.(mjr).(chunk)) (r.(mjr).(limit)) (r.(mjr).(weak_prev))
    (r.(mjr).(fl_size_at_phase_change))) r.
Definition set_stat_heap_chunks (x : Z) (r : runtime) : runtime :=
  set_mjr (MkMajor (r.(mjr).(heap_start)) (r.(mjr).(heap_end)) (r.(mjr).(page_low))
    (r.(mjr).(page_high)) (r.(mjr).(page_table)) (r.(mjr).(gc_sweep_hp))
    (r.(mjr).(gc_phase)) (r.(mjr).(gray_vals)) (r.(mjr).(gray_vals_size))
    (r.(mjr).(heap_is_pure)) (r.(mjr).(allocated_words)) (r.(mjr).(stat_heap_size))
    (r.(mjr).(stat_top_heap_size)) x (r.(mjr).(percent_free))
    (r.(mjr).(major_heap_increment)) (r.(mjr).(gc_subphase)) (r.(mjr).(markhp))
    (r.(mjr).(chunk)) (r.(mjr).(limit)) (r.(mjr).(weak_prev))
    (r.(mjr).(fl_size_at_phase_change))) r.
Definition set_percent_free (x : Z) (r : runtime) : runtime :=
  set_mjr (MkMajor (r.(mjr).(heap_start)) (r.(mjr).(heap_end)) (r.(mjr).(page_low))
    (r.(mjr).(page_high)) (r.(mjr).(page_table)) (r.(mjr).(gc_sweep_hp))
    (r.(mjr).(gc_phase)) (r.(mjr).(gray_vals)) (r.(mjr).(gray_vals_size))
    (r.(mjr).(heap_is_pure)) (r.(mjr).(allocated_words)) (r.(mjr).(stat_heap_size))
    (r.(mjr).(stat_top_heap_size)) (r.(mjr).(stat_heap_chunks)) x
    (r.(mjr).(major_heap_increment)) (r.(mjr).(gc_subphase)) (r.(mjr).(markhp))
    (r.(mjr).(chunk)) (r.(mjr).(limit)) (r.(mjr).(weak_prev))
    (r.(mjr).(fl_size_at_phase_change))) r.
Definition set_major_heap_increment (x : Z) (r : runtime) : runtime :=
  set_mjr (MkMajor (r.(mjr).(heap_start)) (r.(mjr).(heap_end)) (r.(mjr).(page_low))
    (r.(mjr).(page_high)) (r.(mjr).(page_table)) (r.(mjr).(gc_sweep_hp))
    (r.(mjr).(gc_phase)) (r.(mjr).(gray_vals)) (r.(mjr).(gray_vals_size))
    (r.(mjr).(heap_is_pure)) (r.(mjr).(allocated_words)) (r.(mjr).(stat_heap_size))
    (r.(mjr).(stat_top_heap_size)) (r.(mjr).(stat_heap_chunks)) (r.(mjr).(percent_free))
    x (r.(mjr).(gc_subphase)) (r.(mjr).(markhp)) (r.(mjr).(chunk)) (r.(mjr).(limit))
    (r.(mjr).(weak_prev)) (r.(mjr).(fl_size_at_phase_change))) r.
Definition set_gc_subphase (x : Z) (r : runtime) : runtime :=
  set_mjr (MkMajor (r.(mjr).(heap_start)) (r.(mjr).(heap_end)) (r.(mjr).(page_low))
    (r.(mjr).(page_high)) (r.(mjr).(page_table)) (r.(mjr).(gc_sweep_hp))
    (r.(mjr).(gc_phase)) (r.(mjr).(gray_vals)) (r.(mjr).(gray_vals_size))
    (r.(mjr).(heap_is_pure)) (r.(mjr).(allocated_words)) (r.(mjr).(stat_heap_size))
    (r.(mjr).(stat_top_heap_size)) (r.(mjr).(stat_heap_chunks)) (r.(mjr).(percent_free))
    (r.(mjr).(major_heap_increment)) x (r.(mjr).(markhp)) (r.(mjr).(chunk))
    (r.(mjr).(limit)) (r.(mjr).(weak_prev)) (r.(mjr).(fl_size_at_phase_change))) r.
Definition set_markhp (x : Z) (r : runtime) : runtime :=
  set_mjr (MkMajor (r.(mjr).(heap_start)) (r.(mjr).(heap_end)) (r.(mjr).(page_low))
    (r.(mjr).(page_high)) (r.(mjr).(page_table)) (r.(mjr).(gc_sweep_hp))
    (r.(mjr).(gc_phase)) (r.(mjr).(gray_vals)) (r.(mjr).(gray_vals_size))
    (r.(mjr).(heap_is_pure)) (r.(mjr).(allocated_words)) (r.(mjr).(stat_heap_size))
    (r.(mjr).(stat_top_heap_size)) (r.(mjr).(stat_heap_chunks)) (r.(mjr).(percent_free))
    (r.(mjr).(major_heap_increment)) (r.(mjr).(gc_subphase)) x (r.(mjr).(chunk))
    (r.(mjr).(limit)) (r.(mjr).(weak_prev)) (r.(mjr).(fl_size_at_phase_change))) r.
Definition set_chunk (x : Z) (r : runtime) : runtime :=
  set_mjr (MkMajor (r.(mjr).(heap_start)) (r.(mjr).(heap_end)) (r.(mjr).(page_low))
    (r.(mjr).(page_high)) (r.(mjr).(page_table)) (r.(mjr).(gc_sweep_hp))
    (r.(mjr).(gc_phase)) (r.(mjr).(gray_vals)) (r.(mjr).(gray_vals_size))
    (r.(mjr).(heap_is_pure)) (r.(mjr).(allocated_words)) (r.(mjr).(stat_heap_size))
    (r.(mjr).(stat_top_heap_size)) (r.(mjr).(stat_heap_chunks)) (r.(mjr).(percent_free))
    (r.(mjr).(major_heap_increment)) (r.(mjr).(gc_subphase)) (r.(mjr).(markhp)) x
    (r.(mjr).(limit)) (r.(mjr).(weak_prev)) (r.(mjr).(fl_size_at_phase_change))) r.
Definition set_limit (x : Z) (r : runtime) : runtime :=
  set_mjr (MkMajor (r.(mjr).(heap_start)) (r.(mjr).(heap_end)) (r.(mjr).(page_low))
    (r.(mjr).(page_high)) (r.(mjr).(page_table)) (r.(mjr).(gc_sweep_hp))
    (r.(mjr).(gc_phase)) (r.(mjr).(gray_vals)) (r.(mjr).(gray_vals_size))
    (r.(mjr).(heap_is_pure)) (r.(mjr).(allocated_words)) (r.(mjr).(stat_heap_size))
    (r.(mjr).(stat_top_heap_size)) (r.(mjr).(stat_heap_chunks)) (r.(mjr).(percent_free))
    (r.(mjr).(major_heap_increment)) (r.(mjr).(gc_subphase)) (r.(mjr).(markhp))
    (r.(mjr).(chunk)) x (r.(mjr).(weak_prev)) (r.(mjr).(fl_size_at_phase_change))) r.
Definition set_weak_prev (x : Z) (r : runtime) : runtime :=
  set_mjr (MkMajor (r.(mjr).(heap_start)) (r.(mjr).(heap_end)) (r.(mjr).(page_low))
    (r.(mjr).(page_high)) (r.(mjr).(page_table)) (r.(mjr).(gc_sweep_hp))
    (r.(mjr).(gc_phase)) (r.(mjr).(gray_vals)) (r.(mjr).(gray_vals_size))
    (r.(mjr).(heap_is_pure)) (r.(mjr).(allocated_words)) (r.(mjr).(stat_heap_size))
    (r.(mjr).(stat_top_heap_size)) (r.(mjr).(stat_heap_chunks)) (r.(mjr).(percent_free))
    (r.(mjr).(major_heap_increment)) (r.(mjr).(gc_subphase)) (r.(mjr).(markhp))
    (r.(mjr).(chunk)) (r.(mjr).(limit)) x (r.(mjr).(fl_size_at_phase_change))) r.
Definition set_fl_size_at_phase_change (x : Z) (r : runtime) : runtime :=
  set_mjr (MkMajor (r.(mjr).(heap_start)) (r.(mjr).(heap_end)) (r.(mjr).(page_low))
    (r.(mjr).(page_high)) (r.(mjr).(page_table)) (r.(mjr).(gc_sweep_hp))
    (r.(mjr).(gc_phase)) (r.(mjr).(gray_vals)) (r.(mjr).(gray_vals_size))
    (r.(mjr).(heap_is_pure)) (r.(mjr).(allocated_words)) (r.(mjr).(stat_heap_size))
    (r.(mjr).(stat_top_heap_size)) (r.(mjr).(stat_heap_chunks)) (r.(mjr).(percent_free))
    (r.(mjr).(major_heap_increment)) (r.(mjr).(gc_subphase)) (r.(mjr).(markhp))
    (r.(mjr).(chunk)) (r.(mjr).(limit)) (r.(mjr).(weak_prev)) x) r.
Definition set_global_data (x : Z) (r : runtime) : runtime :=
  set_glb (MkGlobals x (r.(glb).(exn_bucket)) (r.(glb).(external_raise))
    (r.(glb).(local_roots)) (r.(glb).(callback_depth)) (r.(glb).(something_to_do))
    (r.(glb).(force_major_slice)) (r.(glb).(backtrace_active)) (r.(glb).(event_count))
    (r.(glb).(atom_table)) (r.(glb).(out_of_memory_bucket)) (r.(glb).(pending_signal))
    (r.(glb).(async_signal_mode))) r.
Definition set_exn_bucket (x : Z) (r : runtime) : runtime :=
  set_glb (MkGlobals (r.(glb).(global_data)) x (r.(glb).(external_raise))
    (r.(glb).(local_roots)) (r.(glb).(callback_depth)) (r.(glb).(something_to_do))
    (r.(glb).(force_major_slice)) (r.(glb).(backtrace_active)) (r.(glb).(event_count))
    (r.(glb).(atom_table)) (r.(glb).(out_of_memory_bucket)) (r.(glb).(pending_signal))
    (r.(glb).(async_signal_mode))) r.
Definition set_external_raise (x : Z) (r : runtime) : runtime :=
  set_glb (MkGlobals (r.(glb).(global_data)) (r.(glb).(exn_bucket)) x
    (r.(glb).(local_roots)) (r.(glb).(callback_depth)) (r.(glb).(something_to_do))
    (r.(glb).(force_major_slice)) (r.(glb).(backtrace_active)) (r.(glb).(event_count))
    (r.(glb).(atom_table)) (r.(glb).(out_of_memory_bucket)) (r.(glb).(pending_signal))
    (r.(glb).(async_signal_mode))) r.
Definition set_local_roots (x : Z) (r : runtime) : runtime :=
  set_glb (MkGlobals (r.(glb).(global_data)) (r.(glb).(exn_bucket))
    (r.(glb).(external_raise)) x (r.(glb).(callback_depth)) (r.(glb).(something_to_do))
    (r.(glb).(force_major_slice)) (r.(glb).(backtrace_active)) (r.(glb).(event_count))
    (r.(glb).(atom_table)) (r.(glb).(out_of_memory_bucket)) (r.(glb).(pending_signal))
    (r.(glb).(async_signal_mode))) r.
Definition set_callback_depth (x : Z) (r : runtime) : runtime :=
  set_glb (MkGlobals (r.(glb).(global_data)) (r.(glb).(exn_bucket))
    (r.(glb).(external_raise)) (r.(glb).(local_roots)) x (r.(glb).(something_to_do))
    (r.(glb).(force_major_slice)) (r.(glb).(backtrace_active)) (r.(glb).(event_count))
    (r.(glb).(atom_table)) (r.(glb).(out_of_memory_bucket)) (r.(glb).(pending_signal))
    (r.(glb).(async_signal_mode))) r.
Definition set_something_to_do (x : bool) (r : runtime) : runtime :=
  set_glb (MkGlobals (r.(glb).(global_data)) (r.(glb).(exn_bucket))
    (r.(glb).(external_raise)) (r.(glb).(local_roots)) (r.(glb).(callback_depth)) x
    (r.(glb).(force_major_slice)) (r.(glb).(backtrace_active)) (r.(glb).(event_count))
    (r.(glb).(atom_table)) (r.(glb).(out_of_memory_bucket)) (r.(glb).(pending_signal))
    (r.(glb).(async_signal_mode))) r.
Definition set_force_major_slice (x : bool) (r : runtime) : runtime :=
  set_glb (MkGlobals (r.(glb).(global_data)) (r.(glb).(exn_bucket))
    (r.(glb).(external_raise)) (r.(glb).(local_roots)) (r.(glb).(callback_depth))
    (r.(glb).(something_to_do)) x (r.(glb).(backtrace_active)) (r.(glb).(event_count))
    (r.(glb).(atom_table)) (r.(glb).(out_of_memory_bucket)) (r.(glb).(pending_signal))
    (r.(glb).(async_signal_mode))) r.
Definition set_backtrace_active (x : bool) (r : runtime) : runtime :=
  set_glb (MkGlobals (r.(glb).(global_data)) (r.(glb).(exn_bucket))
    (r.(glb).(external_raise)) (r.(glb).(local_roots)) (r.(glb).(callback_depth))
    (r.(glb).(something_to_do)) (r.(glb).(force_major_slice)) x (r.(glb).(event_count))
    (r.(glb).(atom_table)) (r.(glb).(out_of_memory_bucket)) (r.(glb).(pending_signal))
    (r.(glb).(async_signal_mode))) r.
Definition set_event_count (x : Z) (r : runtime) : runtime :=
  set_glb (MkGlobals (r.(glb).(global_data)) (r.(glb).(exn_bucket))
    (r.(glb).(external_raise)) (r.(glb).(local_roots)) (r.(glb).(callback_depth))
    (r.(glb).(something_to_do)) (r.(glb).(force_major_slice))
    (r.(glb).(backtrace_active)) x (r.(glb).(atom_table))
    (r.(glb).(out_of_memory_bucket)) (r.(glb).(pending_signal))
    (r.(glb).(async_signal_mode))) r.
Definition set_atom_table (x : Z) (r : runtime) : runtime :=
  set_glb (MkGlobals (r.(glb).(global_data)) (r.(glb).(exn_bucket))
    (r.(glb).(external_raise)) (r.(glb).(local_roots)) (r.(glb).(callback_depth))
    (r.(glb).(something_to_do)) (r.(glb).(force_major_slice))
    (r.(glb).(backtrace_active)) (r.(glb).(event_count)) x
    (r.(glb).(out_of_memory_bucket)) (r.(glb).(pending_signal))
    (r.(glb).(async_signal_mode))) r.
Definition set_out_of_memory_bucket (x : Z) (r : runtime) : runtime :=
  set_glb (MkGlobals (r.(glb).(global_data)) (r.(glb).(exn_bucket))
    (r.(glb).(external_raise)) (r.(glb).(local_roots)) (r.(glb).(callback_depth))
    (r.(glb).(something_to_do)) (r.(glb).(force_major_slice))
    (r.(glb).(backtrace_active)) (r.(glb).(event_count)) (r.(glb).(atom_table)) x
    (r.(glb).(pending_signal)) (r.(glb).(async_signal_mode))) r.
Definition set_pending_signal (x : Z) (r : runtime) : runtime :=
  set_glb (MkGlobals (r.(glb).(global_data)) (r.(glb).(exn_bucket))
    (r.(glb).(external_raise)) (r.(glb).(local_roots)) (r.(glb).(callback_depth))
    (r.(glb).(something_to_do)) (r.(glb).(force_major_slice))
    (r.(glb).(backtrace_active)) (r.(glb).(event_count)) (r.(glb).(atom_table))
    (r.(glb).(out_of_memory_bucket)) x (r.(glb).(async_signal_mode))) r.
Definition set_async_signal_mode (x : bool) (r : runtime) : runtime :=
  set_glb (MkGlobals (r.(glb).(global_data)) (r.(glb).(exn_bucket))
    (r.(glb).(external_raise)) (r.(glb).(local_roots)) (r.(glb).(callback_depth))
    (r.(glb).(something_to_do)) (r.(glb).(force_major_slice))
    (r.(glb).(backtrace_active)) (r.(glb).(event_count)) (r.(glb).(atom_table))
    (r.(glb).(out_of_memory_bucket)) (r.(glb).(pending_signal)) x) r.

(** ** Effects *)

(** [Ok]: the call returns; [Exn]: it raises, with [exn_bucket] set; [Fatal]:
    [fatal_error] ends the process. *)
Inductive res (A : Type) : Type :=
| Ok (a : A) (r : runtime)
| Exn (r : runtime)
| Fatal (msg : string).
Arguments Ok {A} a r.
Arguments Exn {A} r.
Arguments Fatal {A} msg.

Definition M (A : Type) : Type := runtime -> res A.

Definition ret {A} (a : A) : M A := Ok a.
Definition bind {A B} (m : M A) (k : A -> M B) : M B := fun r =>
  match m r with
  | Ok a r' => k a r'
  | Exn r' => Exn r'
  | Fatal msg => Fatal msg
  end.
Definition get {A} (f : runtime -> A) : M A := fun r => Ok (f r) r.
Definition upd (f : runtime -> runtime) : M unit := fun r => Ok tt (f r).
Definition fatal {A} (msg : string) : M A := fun _ => Fatal msg.

Notation "'let!' x := e 'in' k" := (bind e (fun x => k))
  (at level 10, x pattern, e at level 100, k at level 200) : c_scope.
Notation "e ;; k" := (bind e (fun _ => k)) (at level 100, right associativity) : c_scope.
Global Open Scope c_scope.

Lemma bind_Ok {A B} (m : M A) (k : A -> M B) r a r' :
  m r = Ok a r' -> bind m k r = k a r'.
Proof. intros H. unfold bind. now rewrite H. Qed.
Lemma bind_inv {A B} (m : M A) (k : A -> M B) r b r' :
  bind m k r = Ok b r' -> exists a r1, m r = Ok a r1 /\ k a r1 = Ok b r'.
Proof. unfold bind. destruct (m r) eqn:E; intros; simplify_eq. eauto. Qed.

(** Every state a computation can end in satisfies [P]. *)
Definition ensures {A} (P : A -> runtime -> Prop) (E : runtime -> Prop) (x : res A) : Prop :=
  match x with Ok a r => P a r | Exn r => E r | Fatal _ => True end.

(** The C library's allocator: the next answer, [0] when there is none. *)
Definition libc_malloc : M Z := fun r =>
  match malloc_answers r with
  | [] => Ok 0 r
  | a :: l => Ok a (set_malloc_answers l r)
  end.

(** Run an operation of the free list on the memory of the runtime. *)
Definition on_freelist {A} (f : freelist -> A * freelist) (r : runtime) : A * runtime :=
  let s := frl r in
  let (a, s) := f (MkFl (rmem r) (fl_prev s) (fl_last s) (fl_merge s) (fl_cur_size s) (last_fragment s)) in
  (a, set_frl s (set_rmem (fmem s) r)).
(** The static variables of an empty list with the sentinel at [Fl_head]. *)
Definition fl_static (Fl_head : Z) : freelist := MkFl ∅ Fl_head 0 Fl_head 0 0.

(** ** Predicates of the headers [minor_gc.h] and [major_gc.h] *)

Definition Is_young (g : minor_gc) (v : Z) : bool :=
  (v <? young_end g) && (young_start g <? v).

Definition Phase_mark : Z := 0.
Definition Phase_sweep : Z := 1.
Definition Phase_idle : Z := 2.
Definition In_heap : Z := 1.
Definition Not_in_heap : Z := 0.
Definition Page (p : Z) : Z := Z.shiftr p Page_log.
Definition Is_in_heap (g : major_gc) (p : Z) : bool :=
  (heap_start g <=? p) && (p <? heap_end g) && negb (default 0 (page_table g !! Page p) =? 0).

(** [mlvalues.h]: the address of the atom of a tag. *)
Definition Atom (r : runtime) (tag : Z) : Z := Val_hp (atom_table (glb r) + tag * sizeof_value).

(** [signals.c] *)
Definition urge_major_slice (r : runtime) : runtime :=
  set_something_to_do true (set_force_major_slice true r).

(** Reduce projections of updated states. *)
Ltac rsimp := cbn [
  stack_low stack_high stack_threshold extern_sp trapsp trap_barrier max_stack_size
  minor_heap_size young_start young_end young_ptr young_limit ref_table
  ref_table_threshold ref_table_limit ref_table_end ref_table_size ref_table_reserve
  in_minor_collection oldify_todo_list heap_start heap_end page_low page_high page_table
  gc_sweep_hp gc_phase gray_vals gray_vals_size heap_is_pure allocated_words
  stat_heap_size stat_top_heap_size stat_heap_chunks percent_free major_heap_increment
  gc_subphase markhp chunk limit weak_prev fl_size_at_phase_change global_data
  exn_bucket external_raise local_roots callback_depth something_to_do force_major_slice
  backtrace_active event_count atom_table out_of_memory_bucket pending_signal
  async_signal_mode rmem stk mnr mjr glb code start_code saved_code malloc_answers frl
  set_rmem set_stk set_mnr set_mjr set_glb set_code set_start_code set_saved_code
  set_malloc_answers set_frl set_stack_low set_stack_high set_stack_threshold
  set_extern_sp set_trapsp set_trap_barrier set_max_stack_size set_minor_heap_size
  set_young_start set_young_end set_young_ptr set_young_limit set_ref_table
  set_ref_table_threshold set_ref_table_limit set_ref_table_end set_ref_table_size
  set_ref_table_reserve set_in_minor_collection set_oldify_todo_list set_heap_start
  set_heap_end set_page_low set_page_high set_page_table set_gc_sweep_hp set_gc_phase
  set_gray_vals set_gray_vals_size set_heap_is_pure set_allocated_words
  set_stat_heap_size set_stat_top_heap_size set_stat_heap_chunks set_percent_free
  set_major_heap_increment set_gc_subphase set_markhp set_chunk set_limit set_weak_prev
  set_fl_size_at_phase_change set_global_data set_exn_bucket set_external_raise
  set_local_roots set_callback_depth set_something_to_do set_force_major_slice
  set_backtrace_active set_event_count set_atom_table set_out_of_memory_bucket
  set_pending_signal set_async_signal_mode ].
Tactic Notation "rsimp" "in" "*" := cbn [
  stack_low stack_high stack_threshold extern_sp trapsp trap_barrier max_stack_size
  minor_heap_size young_start young_end young_ptr young_limit ref_table
  ref_table_threshold ref_table_limit ref_table_end ref_table_size ref_table_reserve
  in_minor_collection oldify_todo_list heap_start heap_end page_low page_high page_table
  gc_sweep_hp gc_phase gray_vals gray_vals_size heap_is_pure allocated_words
  stat_heap_size stat_top_heap_size stat_heap_chunks percent_free major_heap_increment
  gc_subphase markhp chunk limit weak_prev fl_size_at_phase_change global_data
  exn_bucket external_raise local_roots callback_depth something_to_do force_major_slice
  backtrace_active event_count atom_table out_of_memory_bucket pending_signal
  async_signal_mode rmem stk mnr mjr glb code start_code saved_code malloc_answers frl
  set_rmem set_stk set_mnr set_mjr set_glb set_code set_start_code set_saved_code
  set_malloc_answers set_frl set_stack_low set_stack_high set_stack_threshold
  set_extern_sp set_trapsp set_trap_barrier set_max_stack_size set_minor_heap_size
  set_young_start set_young_end set_young_ptr set_young_limit set_ref_table
  set_ref_table_threshold set_ref_table_limit set_ref_table_end set_ref_table_size
  set_ref_table_reserve set_in_minor_collection set_oldify_todo_list set_heap_start
  set_heap_end set_page_low set_page_high set_page_table set_gc_sweep_hp set_gc_phase
  set_gray_vals set_gray_vals_size set_heap_is_pure set_allocated_words
  set_stat_heap_size set_stat_top_heap_size set_stat_heap_chunks set_percent_free
  set_major_heap_increment set_gc_subphase set_markhp set_chunk set_limit set_weak_prev
  set_fl_size_at_phase_change set_global_data set_exn_bucket set_external_raise
  set_local_roots set_callback_depth set_something_to_do set_force_major_slice
  set_backtrace_active set_event_count set_atom_table set_out_of_memory_bucket
  set_pending_signal set_async_signal_mode ] in *.
