(* ===== verification/Memory.v ===== *)
(** * The write barrier and the tables it feeds

    Models [Modify], [initialize] and [allocation_color] of [byterun/memory.h]
    and [byterun/memory.c], [realloc_ref_table] of [byterun/minor_gc.c], and
    [realloc_gray_vals] and [darken] of [byterun/major_gc.c].

    The barrier has two duties: the minor collector must find every field of the
    major heap that holds a young block in [ref_table], and a block the marker
    could have reached when the cycle began must not be hidden from it by an
    assignment.  Both are proved for an arbitrary set [F] of field addresses, so
    they hold whatever the blocks of the heap are. *)

From S2P Require Import Runtime.

(** ** Operations *)

Definition realloc_ref_table : M unit := fun r =>
  let g := mnr r in
  if ref_table_limit g =? ref_table_threshold g then
    Ok tt (urge_major_slice (set_ref_table_limit (ref_table_end g) r))
  else
    let size := u64 (ref_table_size g * 2) in
    (let! p := libc_malloc in
     if p =? 0 then fatal "Fatal error: ref_table overflow" else
     upd (fun r' =>
       set_ref_table_limit (size + ref_table_reserve g)
         (set_ref_table_threshold size
           (set_ref_table_end (size + ref_table_reserve g)
             (set_ref_table_size size r'))))) r.

(** [*ref_table_ptr++ = fp] and the check that follows it. *)
Definition add_to_ref_table (fp : Z) : M unit := fun r =>
  let r1 := set_ref_table (ref_table (mnr r) ++ [fp]) r in
  if ref_table_limit (mnr r1) <=? Z.of_nat (length (ref_table (mnr r1)))
  then realloc_ref_table r1 else Ok tt r1.

Definition realloc_gray_vals : M unit := fun r =>
  let g := mjr r in
  if gray_vals_size g <? stat_heap_size g / 128 then
    (let! p := libc_malloc in
     if p =? 0 then upd (fun r' => set_heap_is_pure false (set_gray_vals [] r'))
     else upd (fun r' => set_gray_vals_size (u64 (gray_vals_size g * 2)) r')) r
  else
    Ok tt (set_heap_is_pure false
             (set_gray_vals (take (Z.to_nat (gray_vals_size g / 2)) (gray_vals g)) r)).

(** The block [darken] marks: an infix pointer stands for its closure. *)
Definition darken_target (m : mem) (v : Z) : Z :=
  if Tag_val m v =? Infix_tag then v - Infix_offset_val m v else v.

Definition Is_white_val (m : mem) (v : Z) : bool := Is_white_hd (Hd_val m v).

Definition darken (v : Z) : M unit := fun r =>
  if Is_block v && Is_in_heap (mjr r) v then
    let v := darken_target (rmem r) v in
    if Is_white_val (rmem r) v then
      let r1 := set_rmem (st (rmem r) (Hp_val v) (Grayhd_hd (Hd_val (rmem r) v))) r in
      let r2 := set_gray_vals (gray_vals (mjr r1) ++ [v]) r1 in
      if gray_vals_size (mjr r2) <=? Z.of_nat (length (gray_vals (mjr r2)))
      then realloc_gray_vals r2 else Ok tt r2
    else Ok tt r
  else Ok tt r.

Definition is_young_block (g : minor_gc) (v : Z) : bool := Is_block v && Is_young g v.

Definition Modify (fp val : Z) : M unit := fun r =>
  let old := ld (rmem r) fp in
  let r1 := set_rmem (st (rmem r) fp val) r in
  if Is_in_heap (mjr r1) fp then
    ((if gc_phase (mjr r1) =? Phase_mark then darken old else ret tt) ;;
     (fun r2 =>
        if is_young_block (mnr r2) val && negb (is_young_block (mnr r2) old)
        then add_to_ref_table fp r2 else Ok tt r2)) r1
  else Ok tt r1.

Definition initialize (fp val : Z) : M unit := fun r =>
  let r1 := set_rmem (st (rmem r) fp val) r in
  if is_young_block (mnr r1) val && Is_in_heap (mjr r1) fp
  then add_to_ref_table fp r1 else Ok tt r1.

Definition allocation_color (g : major_gc) (hp : Z) : Z :=
  if (gc_phase g =? Phase_mark) || ((gc_phase g =? Phase_sweep) && (gc_sweep_hp g <=? hp))
  then Caml_black else Caml_white.

(** ** The remembered set *)

(** Every field of [F] in the major heap that holds a young block is in the
    table. *)
Definition remembered (F : Z -> Prop) (r : runtime) : Prop :=
  forall a, F a -> Is_in_heap (mjr r) a = true ->
    is_young_block (mnr r) (ld (rmem r) a) = true -> a ∈ ref_table (mnr r).

(** The table never overflows: there is room for the next entry. *)
Definition ref_table_ok (r : runtime) : Prop :=
  let g := mnr r in
  Z.of_nat (length (ref_table g)) < ref_table_limit g /\
  (ref_table_limit g = ref_table_threshold g \/ ref_table_limit g = ref_table_end g) /\
  ref_table_threshold g = ref_table_size g /\
  ref_table_end g = ref_table_size g + ref_table_reserve g /\
  0 < ref_table_reserve g /\ 0 < ref_table_size g.

(** The gray stack has room for the next entry. *)
Definition gray_vals_ok (r : runtime) : Prop :=
  let g := mjr r in
  Z.of_nat (length (gray_vals g)) < gray_vals_size g /\ 0 <= stat_heap_size g < B64.

(** What [add_to_ref_table] does to the rest of the state. *)
Lemma add_to_ref_table_spec fp r :
  ref_table_ok r -> ref_table_size (mnr r) < B63 ->
  match add_to_ref_table fp r with
  | Ok _ r' =>
      ref_table_ok r' /\ ref_table (mnr r') = ref_table (mnr r) ++ [fp] /\
      rmem r' = rmem r /\ mjr r' = mjr r /\ stk r' = stk r /\
      young_start (mnr r') = young_start (mnr r) /\ young_end (mnr r') = young_end (mnr r)
  | Exn _ => False
  | Fatal _ => ref_table_limit (mnr r) = ref_table_end (mnr r)
  end.
Proof.
  intros (H1 & H2 & H3 & H4 & H5 & H6) Hb.
  unfold add_to_ref_table, realloc_ref_table, bind, libc_malloc, upd, fatal, urge_major_slice.
  rsimp. rewrite length_app. cbn [length].
  destruct (Z.leb_spec (ref_table_limit (mnr r)) (Z.of_nat (length (ref_table (mnr r)) + 1))).
  1: destruct (Z.eqb_spec (ref_table_limit (mnr r)) (ref_table_threshold (mnr r))).
  - unfold ref_table_ok; rsimp. rewrite length_app. cbn [length]. splits; try done; lia.
  - destruct (malloc_answers r) as [|a l]; [cbn; lia|]. cbn -[u64].
    destruct (a =? 0); [lia|].
    unfold ref_table_ok; rsimp. rewrite length_app. cbn [length].
    rewrite u64_id by (unfold isu64; lia). splits; try done; lia.
  - unfold ref_table_ok; rsimp. rewrite length_app. cbn [length]. splits; try done; lia.
Qed.

Lemma is_young_block_ext g g' v :
  young_start g' = young_start g -> young_end g' = young_end g ->
  is_young_block g' v = is_young_block g v.
Proof. intros E1 E2. unfold is_young_block, Is_young. now rewrite E1, E2. Qed.

(** The header [darken] leaves is not white. *)
Lemma Grayhd_not_white hd : isu64 hd -> Is_white_hd (Grayhd_hd hd) = false.
Proof.
  intros Hd. unfold Is_white_hd, Grayhd_hd, Color_hd, Caml_white.
  apply Z.eqb_neq. intros E.
  apply (f_equal (fun x => Z.testbit x 8)) in E.
  rewrite Z.land_spec, Z.lor_spec in E.
  change (Z.testbit Caml_gray 8) with true in E.
  change (Z.testbit Caml_black 8) with true in E.
  rewrite orb_true_r in E. discriminate.
Qed.

Lemma elem_of_snoc (l : list Z) x : x ∈ l ++ [x].
Proof. apply elem_of_app. right. now apply list_elem_of_singleton. Qed.
Lemma subseteq_snoc (l : list Z) x : l ⊆ l ++ [x].
Proof. intros y Hy. apply elem_of_app. now left. Qed.

(** ** Darkening *)

(** What [darken] promises of the block it is given: it is no longer white, it is
    on the gray stack unless the heap was declared impure, and as long as the heap
    is pure no entry of the stack is lost. *)
Definition darkened (r r' : runtime) (v : Z) : Prop :=
  let t := darken_target (rmem r) v in
  Is_white_val (rmem r') t = false /\
  (Is_white_val (rmem r) t = true -> heap_is_pure (mjr r') = true -> t ∈ gray_vals (mjr r')) /\
  (heap_is_pure (mjr r') = true -> gray_vals (mjr r) ⊆ gray_vals (mjr r')).

(** Everything but one header, the gray stack and [malloc]'s answers is kept. *)
Definition darken_frame (r r' : runtime) (v : Z) : Prop :=
  (forall a, a <> Hp_val (darken_target (rmem r) v) -> ld (rmem r') a = ld (rmem r) a) /\
  mnr r' = mnr r /\ stk r' = stk r /\ glb r' = glb r /\
  (forall p, Is_in_heap (mjr r') p = Is_in_heap (mjr r) p) /\
  gc_phase (mjr r') = gc_phase (mjr r).

Lemma realloc_gray_vals_spec r :
  Z.of_nat (length (gray_vals (mjr r))) = gray_vals_size (mjr r) ->
  0 < gray_vals_size (mjr r) -> 0 <= stat_heap_size (mjr r) < B64 ->
  exists r', realloc_gray_vals r = Ok tt r' /\ gray_vals_ok r' /\
    rmem r' = rmem r /\ mnr r' = mnr r /\ stk r' = stk r /\ glb r' = glb r /\
    (forall p, Is_in_heap (mjr r') p = Is_in_heap (mjr r) p) /\
    gc_phase (mjr r') = gc_phase (mjr r) /\
    (heap_is_pure (mjr r') = true -> gray_vals (mjr r') = gray_vals (mjr r)).
Proof.
  intros Hl Hs Hh. unfold realloc_gray_vals, bind, libc_malloc, upd.
  destruct (Z.ltb_spec (gray_vals_size (mjr r)) (stat_heap_size (mjr r) / 128)).
  - destruct (malloc_answers r) as [|a l]; [|destruct (Z.eqb_spec a 0)]; cbn -[u64];
      (eexists; split; [reflexivity|]; unfold gray_vals_ok; rsimp; splits; try done; cbn [length]; try lia).
    rewrite u64_id by (unfold isu64; zlia). lia.
  - eexists; split; [reflexivity|]. unfold gray_vals_ok; rsimp. splits; try done; try lia.
    rewrite length_take. zlia.
Qed.

Lemma darken_spec v r :
  wfm (rmem r) -> gray_vals_ok r ->
  exists r', darken v r = Ok tt r' /\ darken_frame r r' v /\ gray_vals_ok r' /\
    (Is_block v = true -> Is_in_heap (mjr r) v = true -> darkened r r' v).
Proof.
  intros Hm [Hg Hsz]. unfold darken.
  destruct (Is_block v && Is_in_heap (mjr r) v) eqn:E.
  2: { exists r. splits; try done. intros E1 E2. now rewrite E1, E2 in E. }
  destruct (Is_white_val _ _) eqn:Ew.
  2: { exists r. splits; try done. intros _ _. unfold darkened. rewrite Ew. done. }
  set (t := darken_target (rmem r) v) in *. rsimp. rewrite length_app. cbn [length].
  assert (Hnw : Is_white_val (st (rmem r) (Hp_val t) (Grayhd_hd (Hd_val (rmem r) t))) t = false).
  { unfold Is_white_val, Hd_val. rewrite ld_st_eq. apply Grayhd_not_white, Hm. }
  assert (Hfr : forall a, a <> Hp_val t ->
    ld (st (rmem r) (Hp_val t) (Grayhd_hd (Hd_val (rmem r) t))) a = ld (rmem r) a).
  { intros. now apply ld_st_ne. }
  destruct (Z.leb_spec (gray_vals_size (mjr r)) (Z.of_nat (length (gray_vals (mjr r)) + 1))).
  - match goal with |- context [realloc_gray_vals ?s] =>
      destruct (realloc_gray_vals_spec s) as (r' & -> & Hok & Em & En & Ek & Eg & Eh & Ep & Epure) end;
      rsimp; [rewrite length_app; cbn [length]; lia | lia | lia |].
    rsimp in *. exists r'. unfold darken_frame, darkened. fold t. rewrite Em. splits; try done.
    intros _ _. split; [done|]. split.
    + intros _ Hp. rewrite Epure by done. apply elem_of_snoc.
    + intros Hp. rewrite Epure by done. apply subseteq_snoc.
  - eexists. split; [reflexivity|]. unfold darken_frame, darkened, gray_vals_ok; rsimp. fold t.
    rewrite length_app. cbn [length]. splits; try done; try lia.
    intros _ _. split; [done|]. split; auto using elem_of_snoc, subseteq_snoc.
Qed.

(** ** The barrier *)

(** The effect an assignment through the barrier has. *)
Definition barrier_post (F : Z -> Prop) (fp val : Z) (r r' : runtime) : Prop :=
  ld (rmem r') fp = val /\
  (forall a, F a -> a <> fp -> ld (rmem r') a = ld (rmem r) a) /\
  remembered F r' /\ ref_table_ok r' /\
  (forall p, Is_in_heap (mjr r') p = Is_in_heap (mjr r) p).

Lemma remembered_st F fp val r r1 :
  remembered F r ->
  (forall a, F a -> a <> fp -> ld (rmem r1) a = ld (rmem r) a) ->
  (forall p, Is_in_heap (mjr r1) p = Is_in_heap (mjr r) p) ->
  young_start (mnr r1) = young_start (mnr r) -> young_end (mnr r1) = young_end (mnr r) ->
  (forall a, a ∈ ref_table (mnr r) -> a ∈ ref_table (mnr r1)) ->
  ld (rmem r1) fp = val ->
  (F fp -> Is_in_heap (mjr r) fp = true -> is_young_block (mnr r) val = true ->
     fp ∈ ref_table (mnr r1)) ->
  remembered F r1.
Proof.
  intros Hr Hm Hh Hs He Ht Hv Hfp a Fa Ha Hy.
  rewrite Hh in Ha. rewrite (is_young_block_ext (mnr r)) in Hy by done.
  destruct (Z.eq_dec a fp) as [->|Hne].
  - rewrite Hv in Hy. auto.
  - rewrite Hm in Hy by done. auto.
Qed.

(** Adding [fp] to the table, when its old content was not young, completes the
    remembered set. *)
Lemma record_fp_spec (F : Z -> Prop) fp val r r1 :
  remembered F r ->
  ref_table_ok r1 -> ref_table_size (mnr r1) < B63 -> mnr r1 = mnr r ->
  (forall a, F a -> a <> fp -> ld (rmem r1) a = ld (rmem r) a) ->
  (forall p, Is_in_heap (mjr r1) p = Is_in_heap (mjr r) p) ->
  ld (rmem r1) fp = val ->
  match add_to_ref_table fp r1 with
  | Ok _ r' => barrier_post F fp val r r' /\ rmem r' = rmem r1 /\ mjr r' = mjr r1
  | Exn _ => False
  | Fatal _ => ref_table_limit (mnr r) = ref_table_end (mnr r)
  end.
Proof.
  intros Hr Hok Hb En Hm Hh Hv.
  pose proof (add_to_ref_table_spec fp r1 Hok Hb) as H.
  destruct (add_to_ref_table fp r1) as [u r'| |]; [|done|now rewrite <- En].
  destruct H as (Hok' & Et & Em & Ej & _ & Es & Ee). rewrite En in *.
  unfold barrier_post. rewrite Em, Ej. splits; try done.
  apply (remembered_st F fp val r); rewrite ?Em, ?Ej, ?Et; try done.
  - intros x Hx. now apply subseteq_snoc.
  - intros _ _ _. apply elem_of_snoc.
Qed.

(** The assignment alone keeps the remembered set when the new value needs no
    entry, or the field already has one. *)
Lemma no_record_spec (F : Z -> Prop) fp val r r1 :
  remembered F r -> ref_table_ok r1 -> mnr r1 = mnr r ->
  (forall a, F a -> a <> fp -> ld (rmem r1) a = ld (rmem r) a) ->
  (forall p, Is_in_heap (mjr r1) p = Is_in_heap (mjr r) p) ->
  ld (rmem r1) fp = val ->
  (F fp -> Is_in_heap (mjr r) fp = true -> is_young_block (mnr r) val = true ->
   is_young_block (mnr r) (ld (rmem r) fp) = true) ->
  barrier_post F fp val r r1.
Proof.
  intros Hr Hok En Hm Hh Hv Hfp. unfold barrier_post. splits; try done.
  apply (remembered_st F fp val r); rewrite ?En; auto.
Qed.

(** What [Modify] guarantees; [snapshot] is the marker's half. *)
Definition snapshot (r r' : runtime) (fp : Z) : Prop :=
  let old := ld (rmem r) fp in
  gc_phase (mjr r) = Phase_mark -> Is_in_heap (mjr r) fp = true ->
  Is_block old = true -> Is_in_heap (mjr r) old = true ->
  Is_white_val (rmem r') (darken_target (rmem r) old) = false.

Section Barrier.
Context (F : Z -> Prop) (fp val : Z) (r : runtime).
Context (Hwf : wfm (rmem r)) (Hval : isu64 val).
Context (Hrem : remembered F r) (Hok : ref_table_ok r) (Hgray : gray_vals_ok r).
Context (Hbound : ref_table_size (mnr r) < B63).

(** [fp] is a field, and the headers of the block it holds are not. *)
Definition headers_apart (v : Z) : Prop :=
  F fp /\ ~ F (Hp_val v) /\ ~ F (Hp_val (darken_target (rmem r) v)).

Lemma darken_target_st v :
  headers_apart v -> darken_target (st (rmem r) fp val) v = darken_target (rmem r) v.
Proof.
  intros (H1 & H2 & _).
  unfold darken_target, Infix_offset_val, Tag_val, Hd_val.
  rewrite ld_st_ne; [done|]. intros E. now rewrite E in H1.
Qed.

Lemma Modify_spec :
  headers_apart (ld (rmem r) fp) ->
  match Modify fp val r with
  | Ok _ r' => barrier_post F fp val r r' /\ snapshot r r' fp /\ gray_vals_ok r'
  | Exn _ => False
  | Fatal _ => ref_table_limit (mnr r) = ref_table_end (mnr r)
  end.
Proof.
  intros Ha. unfold Modify. set (r1 := set_rmem (st (rmem r) fp val) r). rsimp.
  assert (Hm1 : forall a, a <> fp -> ld (rmem r1) a = ld (rmem r) a).
  { intros. unfold r1; rsimp. apply ld_st_ne. congruence. }
  assert (Hv1 : ld (rmem r1) fp = val) by apply ld_st_eq.
  change (mjr r1) with (mjr r). change (mnr r1) with (mnr r).
  destruct (Is_in_heap (mjr r) fp) eqn:Eh.
  2: { splits; [|intros ? E; congruence|done].
       apply no_record_spec; try done; [auto|]. intros _ E. congruence. }
  set (old := ld (rmem r) fp) in *.
  pose proof (darken_target_st old Ha) as Ht. change (st (rmem r) fp val) with (rmem r1) in Ht.
  destruct Ha as (Ffp & _ & HF). rewrite <- Ht in HF.
  assert (Hfp : fp <> Hp_val (darken_target (rmem r1) old)) by (intros E; now rewrite E in Ffp).
  assert (exists r2, (if gc_phase (mjr r) =? Phase_mark then darken old else ret tt) r1 = Ok tt r2 /\
    darken_frame r1 r2 old /\ gray_vals_ok r2 /\ snapshot r r2 fp) as (r2 & E2 & Hfr & Hg2 & Hs).
  { destruct (Z.eqb_spec (gc_phase (mjr r)) Phase_mark) as [Ep|Ep].
    - destruct (darken_spec old r1) as (r2 & -> & Hfr & Hg2 & Hd).
      + unfold r1; rsimp. now apply wfm_st.
      + done.
      + exists r2. splits; try done. intros _ _ Hb Hi.
        destruct (Hd Hb Hi) as (Hw & _). now rewrite Ht in Hw.
    - exists r1. splits; try done. now intros E. }
  rewrite (bind_Ok _ _ _ _ _ E2).
  destruct Hfr as (Hm2 & En & _ & _ & Hh2 & _). change (mnr r1) with (mnr r) in En.
  change (mjr r1) with (mjr r) in Hh2. rewrite En.
  assert (Hm : forall a, F a -> a <> fp -> ld (rmem r2) a = ld (rmem r) a).
  { intros a Fa Hne. rewrite Hm2; [auto|]. intros ->. now apply HF. }
  assert (Hv2 : ld (rmem r2) fp = val) by (now rewrite Hm2).
  assert (Hok2 : ref_table_ok r2) by (unfold ref_table_ok in *; now rewrite En).
  destruct (is_young_block (mnr r) val && negb (is_young_block (mnr r) old)) eqn:Ey.
  - pose proof (record_fp_spec F fp val r r2 Hrem Hok2) as H.
    rewrite En in H. specialize (H Hbound eq_refl Hm Hh2 Hv2).
    destruct (add_to_ref_table fp r2) as [u r3| |]; try done.
    destruct H as (Hb & Em3 & Ej3). unfold snapshot, gray_vals_ok in *. rewrite Em3, Ej3. done.
  - splits; try done. apply no_record_spec; try done.
    intros _ _ Hy. fold old. rewrite Hy in Ey. now apply negb_false_iff in Ey.
Qed.

Lemma initialize_spec :
  match initialize fp val r with
  | Ok _ r' =>
      barrier_post F fp val r r' /\ gc_phase (mjr r') = gc_phase (mjr r) /\ gray_vals (mjr r') = gray_vals (mjr r)
  | Exn _ => False
  | Fatal _ => ref_table_limit (mnr r) = ref_table_end (mnr r)
  end.
Proof.
  unfold initialize. set (r1 := set_rmem (st (rmem r) fp val) r). rsimp.
  change (mnr r1) with (mnr r). change (mjr r1) with (mjr r).
  assert (Hm1 : forall a, F a -> a <> fp -> ld (rmem r1) a = ld (rmem r) a).
  { intros. unfold r1; rsimp. apply ld_st_ne. congruence. }
  assert (Hv1 : ld (rmem r1) fp = val) by apply ld_st_eq.
  destruct (is_young_block (mnr r) val && Is_in_heap (mjr r) fp) eqn:E.
  - pose proof (record_fp_spec F fp val r r1 Hrem Hok Hbound eq_refl Hm1 (fun _ => eq_refl) Hv1) as H.
    destruct (add_to_ref_table fp r1) as [u r2| |]; try done.
    destruct H as (Hb & Em & Ej). rewrite Ej. done.
  - splits; try done. apply no_record_spec; try done.
    intros _ Eh Ey. now rewrite Ey, Eh in E.
Qed.

End Barrier.

(** ** The claims *)

(** C8: assignment through [Modify] stores the value, keeps every other field, and
    keeps the remembered set complete: a field of the major heap that holds a young
    block is in [ref_table], which never overflows.  In the mark phase the block
    the field held before is not white afterwards, so the marker cannot miss it.
    The only failure is the fatal error when the exhausted table cannot grow. *)
Theorem Modify_barrier (F : Z -> Prop) fp val r :
  wfm (rmem r) -> isu64 val -> remembered F r -> ref_table_ok r -> gray_vals_ok r ->
  ref_table_size (mnr r) < B63 -> headers_apart F fp r (ld (rmem r) fp) ->
  match Modify fp val r with
  | Ok _ r' => barrier_post F fp val r r' /\ snapshot r r' fp /\ gray_vals_ok r'
  | Exn _ => False
  | Fatal _ => ref_table_limit (mnr r) = ref_table_end (mnr r)
  end.
Proof. intros. now apply Modify_spec. Qed.

(** Storing the initial value of a field with [initialize] keeps the remembered
    set complete and does not disturb the marker. *)
Theorem initialize_remembers (F : Z -> Prop) fp val r :
  remembered F r -> ref_table_ok r -> ref_table_size (mnr r) < B63 ->
  match initialize fp val r with
  | Ok _ r' => barrier_post F fp val r r' /\ gc_phase (mjr r') = gc_phase (mjr r) /\
               gray_vals (mjr r') = gray_vals (mjr r)
  | Exn _ => False
  | Fatal _ => ref_table_limit (mnr r) = ref_table_end (mnr r)
  end.
Proof. intros. now apply initialize_spec. Qed.

(** [darken] on a block of the heap leaves it non-white, and while the heap is
    declared pure every block it grays is on the gray stack and no entry of the
    stack is lost; the stack always has room for the next entry. *)
Theorem darken_grays v r :
  wfm (rmem r) -> gray_vals_ok r ->
  exists r', darken v r = Ok tt r' /\ darken_frame r r' v /\ gray_vals_ok r' /\
    (Is_block v = true -> Is_in_heap (mjr r) v = true -> darkened r r' v).
Proof. apply darken_spec. Qed.

(** A small heap: one page at 4096 with two blocks, a minor heap of 2 pages. *)
Definition tiny : runtime :=
  MkRuntime
    (st (st (st ∅ 4096 (Make_header 2 0 Caml_black)) 4104 4128)
        4120 (Make_header 1 0 Caml_white))
    (MkStacks 0 0 0 0 0 0 0)
    (MkMinor 8192 16384 24576 20000 16384 [] 1 1 3 1 2 false 0)
    (MkMajor 4096 8192 1 2 {[ 1 := In_heap ]} 0 Phase_mark [] 1 true 0 4096 4096 1 80 4096 0 0 0 0 0 0)
    (MkGlobals 0 0 0 0 0 false false false 0 0 0 0 false)
    ∅ 0 ∅ [] (fl_static 1000).

Lemma tiny_wf : wfm (rmem tiny).
Proof. repeat (apply wfm_st; [|vm_compute; split; [discriminate|reflexivity]]). apply wfm_empty. Qed.

Definition tiny_fields (a : Z) : Prop := a = 4104 \/ a = 4112 \/ a = 4128.

Lemma tiny_remembered : remembered tiny_fields tiny.
Proof. intros a [->|[->| ->]] _ H; vm_compute in H; discriminate. Qed.
Lemma tiny_ref_table_ok : ref_table_ok tiny.
Proof. vm_compute. splits; auto. Qed.
Lemma tiny_gray_ok : gray_vals_ok tiny.
Proof. vm_compute. splits; auto; discriminate. Qed.

Lemma Modify_barrier_witness :
  headers_apart tiny_fields 4104 tiny (ld (rmem tiny) 4104) /\
  match Modify 4104 20008 tiny with
  | Ok _ r' => barrier_post tiny_fields 4104 20008 tiny r' /\ snapshot tiny r' 4104 /\ gray_vals_ok r'
  | Exn _ => False
  | Fatal _ => ref_table_limit (mnr tiny) = ref_table_end (mnr tiny)
  end.
Proof.
  assert (H : headers_apart tiny_fields 4104 tiny (ld (rmem tiny) 4104)).
  { unfold headers_apart, tiny_fields. vm_compute. lia. }
  split; [exact H|].
  apply Modify_barrier; [apply tiny_wf|unfold isu64; lia|apply tiny_remembered
    |apply tiny_ref_table_ok|apply tiny_gray_ok|vm_compute; reflexivity|exact H].
Defined.

Lemma initialize_remembers_witness :
  match initialize 4112 20008 tiny with
  | Ok _ r' => barrier_post tiny_fields 4112 20008 tiny r' /\ gc_phase (mjr r') = gc_phase (mjr tiny) /\
               gray_vals (mjr r') = gray_vals (mjr tiny)
  | Exn _ => False
  | Fatal _ => ref_table_limit (mnr tiny) = ref_table_end (mnr tiny)
  end.
Proof.
  apply initialize_remembers; [apply tiny_remembered|apply tiny_ref_table_ok|vm_compute; reflexivity].
Defined.

Lemma darken_grays_witness :
  exists r', darken 4128 tiny = Ok tt r' /\ darken_frame tiny r' 4128 /\ gray_vals_ok r' /\
    (Is_block 4128 = true -> Is_in_heap (mjr tiny) 4128 = true -> darkened tiny r' 4128).
Proof. apply darken_grays; [apply tiny_wf|apply tiny_gray_ok]. Defined.
