(* ===== verification/Fail.v ===== *)
(** * Small allocation and raising exceptions from C

    Models [Alloc_small] of [byterun/memory.h] as C code uses it
    ([alloc_small] of [byterun/alloc.c]) and [byterun/fail.c].

    The minor collector is reached through an interface: it is given the local
    roots of the C functions in progress and returns them where it moved them. *)

From S2P Require Import Runtime.

Class Collector := minor_collection : list Z -> M (list Z).

(** What a client may rely on: after a collection the minor heap is empty. *)
Class CollectorOk (C : Collector) : Prop := {
  minor_collection_roots : forall roots r roots' r',
    minor_collection roots r = Ok roots' r' -> length roots' = length roots;
  minor_collection_empty : forall roots r roots' r',
    minor_collection roots r = Ok roots' r' ->
    young_ptr (mnr r') = young_end (mnr r') /\ young_limit (mnr r') = young_start (mnr r') /\
    young_start (mnr r') = young_start (mnr r) /\ young_end (mnr r') = young_end (mnr r)
}.

(** ** Allocation in the minor heap *)

(** The block of [wosize] words and its header at the address [hp]. *)
Definition alloc_at (hp wosize tag : Z) (r : runtime) : runtime :=
  set_rmem (st (rmem r) hp (Make_header wosize tag Caml_black)) (set_young_ptr hp r).

(** Is there room in the minor heap for a block of [wosize] words? *)
Definition has_room (wosize : Z) (r : runtime) : bool :=
  young_limit (mnr r) <=? young_ptr (mnr r) - Bhsize_wosize wosize.

Section Fail.
Context {C : Collector}.

Definition Alloc_small (wosize tag : Z) (roots : list Z) : M (Z * list Z) := fun r =>
  let hp := young_ptr (mnr r) - Bhsize_wosize wosize in
  if hp <? young_limit (mnr r) then
    (let! roots := minor_collection roots in
     fun r =>
       let hp := young_ptr (mnr r) - Bhsize_wosize wosize in
       Ok (Val_hp hp, roots) (alloc_at hp wosize tag r)) r
  else Ok (Val_hp hp, roots) (alloc_at hp wosize tag r).

Definition alloc_small (wosize tag : Z) (roots : list Z) : M (Z * list Z) :=
  Alloc_small wosize tag roots.

(** ** Exceptions *)

Definition OUT_OF_MEMORY_EXN : Z := 0.
Definition SYS_ERROR_EXN : Z := 1.
Definition FAILURE_EXN : Z := 2.
Definition INVALID_EXN : Z := 3.
Definition END_OF_FILE_EXN : Z := 4.
Definition ZERO_DIVIDE_EXN : Z := 5.
Definition NOT_FOUND_EXN : Z := 6.
Definition MATCH_FAILURE_EXN : Z := 7.
Definition STACK_OVERFLOW_EXN : Z := 8.
Definition SYS_BLOCKED_IO : Z := 9.
Definition ASSERT_FAILURE_EXN : Z := 10.

(** [siglongjmp] to the innermost handler, [external_raise]. *)
Definition mlraise {A} (v : Z) : M A := fun r =>
  let r := set_exn_bucket v r in
  if external_raise (glb r) =? 0 then Fatal "Fatal error: uncaught exception" else Exn r.

Definition raise_constant {A} (tag : Z) : M A :=
  let! (bucket, roots) := alloc_small 1 0 [tag] in
  upd (fun r => set_rmem (set_Field (rmem r) bucket 0 (nth 0 roots 0)) r) ;;
  mlraise bucket.

Definition raise_with_arg {A} (tag arg : Z) : M A :=
  let! (bucket, roots) := alloc_small 2 0 [tag; arg] in
  upd (fun r => set_rmem (set_Field (rmem r) bucket 0 (nth 0 roots 0)) r) ;;
  upd (fun r => set_rmem (set_Field (rmem r) bucket 1 (nth 1 roots 0)) r) ;;
  mlraise bucket.

(** [out_of_memory_bucket] is the address of the field [exn] of the static
    bucket. *)
Definition raise_out_of_memory {A} : M A := fun r =>
  let b := out_of_memory_bucket (glb r) in
  if ld (rmem r) b =? 0
  then Fatal "Fatal error: out of memory while raising Out_of_memory"
  else mlraise b r.

(** An exception of the table of predefined exceptions. *)
Definition raise_predefined {A} (exn : Z) : M A := fun r =>
  raise_constant (Field (rmem r) (global_data (glb r)) exn) r.

Definition raise_stack_overflow {A} : M A := raise_predefined STACK_OVERFLOW_EXN.
Definition raise_end_of_file {A} : M A := raise_predefined END_OF_FILE_EXN.
Definition raise_zero_divide {A} : M A := raise_predefined ZERO_DIVIDE_EXN.
Definition raise_not_found {A} : M A := raise_predefined NOT_FOUND_EXN.
Definition raise_sys_blocked_io {A} : M A := raise_predefined SYS_BLOCKED_IO.
Definition raise_sys_error {A} (msg : Z) : M A := fun r =>
  raise_with_arg (Field (rmem r) (global_data (glb r)) SYS_ERROR_EXN) msg r.

(** [register_global_root] is left out: the collector is an interface here. *)
Definition init_exceptions (r : runtime) : runtime :=
  let b := out_of_memory_bucket (glb r) in
  let m := st (rmem r) (Hp_val b) (Make_header 1 0 Caml_white) in
  set_rmem (st m b (Field m (global_data (glb r)) OUT_OF_MEMORY_EXN)) r.

(** ** Properties *)

Lemma Alloc_small_room wosize tag roots r :
  has_room wosize r = true ->
  Alloc_small wosize tag roots r =
  Ok (Val_hp (young_ptr (mnr r) - Bhsize_wosize wosize), roots)
     (alloc_at (young_ptr (mnr r) - Bhsize_wosize wosize) wosize tag r).
Proof.
  unfold has_room, Alloc_small. intros H%Z.leb_le.
  destruct (Z.ltb_spec (young_ptr (mnr r) - Bhsize_wosize wosize) (young_limit (mnr r))); [lia|done].
Qed.

(** Whatever happens, the block returned lies in the minor heap, has the header
    asked for, and nothing allocated before it is overwritten. *)
Lemma Alloc_small_spec {CK : CollectorOk C} wosize tag roots r v roots' r' :
  Alloc_small wosize tag roots r = Ok (v, roots') r' ->
  1 <= wosize -> young_start (mnr r) <= young_limit (mnr r) -> young_ptr (mnr r) <= young_end (mnr r) ->
  Bhsize_wosize wosize <= young_end (mnr r) - young_start (mnr r) ->
  Is_young (mnr r') v = true /\ Hd_val (rmem r') v = Make_header wosize tag Caml_black /\
  length roots' = length roots /\ young_ptr (mnr r') = Hp_val v /\
  young_start (mnr r') <= Hp_val v /\ Hp_val v + Bhsize_wosize wosize <= young_end (mnr r').
Proof.
  unfold Alloc_small. intros H Hw Hl Hp Hb.
  assert (Bhsize_wosize wosize = (wosize + 1) * 8) as Eb by reflexivity.
  destruct (Z.ltb_spec (young_ptr (mnr r) - Bhsize_wosize wosize) (young_limit (mnr r))) as [Hs|Hs].
  - apply bind_inv in H as (ro & r1 & Hmc & H).
    pose proof (minor_collection_roots _ _ _ _ Hmc).
    destruct (minor_collection_empty _ _ _ _ Hmc) as (E1 & E2 & E3 & E4). simplify_eq.
    unfold Is_young, alloc_at, Hd_val, Hp_val, Val_hp, sizeof_value in *. rsimp.
    splits; try lia.
    all: replace (young_ptr (mnr r1) - Bhsize_wosize wosize + 8 - 8)
      with (young_ptr (mnr r1) - Bhsize_wosize wosize) by lia; try apply ld_st_eq.
  - simplify_eq. unfold Is_young, alloc_at, Hd_val, Hp_val, Val_hp, sizeof_value in *. rsimp.
    splits; try lia.
    replace (young_ptr (mnr r) - Bhsize_wosize wosize + 8 - 8)
      with (young_ptr (mnr r) - Bhsize_wosize wosize) by lia. apply ld_st_eq.
Qed.

(** The state in which a constant exception is raised when the minor heap has
    room for its bucket. *)
Definition raised_constant (tag : Z) (r : runtime) : runtime :=
  let hp := young_ptr (mnr r) - Bhsize_wosize 1 in
  let r := alloc_at hp 1 0 r in
  set_exn_bucket (Val_hp hp) (set_rmem (set_Field (rmem r) (Val_hp hp) 0 tag) r).

Lemma raise_constant_room {A} tag r :
  has_room 1 r = true -> external_raise (glb r) <> 0 ->
  @raise_constant A tag r = Exn (raised_constant tag r).
Proof.
  intros Hr Hx. unfold raise_constant, alloc_small, bind, upd, mlraise.
  rewrite Alloc_small_room by done. cbn [nth]. unfold alloc_at. rsimp.
  destruct (Z.eqb_spec (external_raise (glb r)) 0); [lia|done].
Qed.

End Fail.
