(* ===== verification/Heap.v ===== *)
(** * The major heap as a list of chunks

    Models the heap management of [byterun/memory.c] ([alloc_for_heap],
    [add_to_heap], [expand_heap], [shrink_heap], [alloc_shr]), the size rounding of
    [byterun/major_gc.c] and [aligned_malloc] of [byterun/misc.c].  A chunk is
    preceded by a four-word head; the chunks are linked by increasing addresses
    from [heap_start], and the page table tells which pages belong to one. *)

From S2P Require Import Runtime Freelist Memory Fail.

(** ** Chunk heads: the words [block], [alloc], [size] and [next] before the chunk *)

Definition sizeof_heap_chunk_head : Z := 32.
Definition Chunk_block_addr (c : Z) : Z := c - 32.
Definition Chunk_size (m : mem) (c : Z) : Z := ld m (c - 16).
Definition Chunk_next (m : mem) (c : Z) : Z := ld m (c - 8).
Definition set_Chunk_size (m : mem) (c v : Z) : mem := st m (c - 16) v.
Definition set_Chunk_next (m : mem) (c v : Z) : mem := st m (c - 8) v.
Definition set_Chunk_block (m : mem) (c v : Z) : mem := st m (Chunk_block_addr c) v.

(** ** Sizes *)

Definition Heap_chunk_max : Z := Bhsize_wosize Max_wosize.

(** [((request + Page_size - 1) >> Page_log) << Page_log] *)
Definition round_pages (request : Z) : Z :=
  u64 (Z.shiftl (Z.shiftr (u64 (request + Page_size - 1)) Page_log) Page_log).

Definition clip_heap_chunk_size (request : Z) : Z :=
  let request := if request <? Heap_chunk_min then Heap_chunk_min else request in
  let request := if Heap_chunk_max <? request then Heap_chunk_max else request in
  round_pages request.

Definition round_heap_chunk_size (request : Z) : M Z := fun r =>
  let result := if request <? major_heap_increment (mjr r) then major_heap_increment (mjr r) else request in
  let result := clip_heap_chunk_size result in
  if result <? request then raise_out_of_memory r else Ok result r.

(** ** Allocation of chunks *)

(** The block returned, and the one [malloc] gave. *)
Definition aligned_malloc (modulo : Z) : M (Z * Z) :=
  let! raw := libc_malloc in
  if raw =? 0 then ret (0, 0)
  else ret ((u64 (raw + modulo) / Page_size + 1) * Page_size - modulo, raw).

Definition alloc_for_heap (request : Z) : M Z :=
  let! (m, block) := aligned_malloc sizeof_heap_chunk_head in
  if m =? 0 then ret 0
  else
    let c := m + sizeof_heap_chunk_head in
    upd (fun r => set_rmem (set_Chunk_block (set_Chunk_size (rmem r) c request) c block) r) ;;
    ret c.

(** ** The page table *)

(** [for (i = lo; i < lo + n; i++) page_table [i] = v;] *)
Fixpoint set_pages (n : nat) (lo v : Z) (t : gmap Z Z) : gmap Z Z :=
  match n with
  | O => t
  | S n => set_pages n (lo + 1) v (<[lo := v]> t)
  end.

(** The pages from [Page lo] to [Page hi] (excluded). *)
Definition mark_pages (lo hi v : Z) (t : gmap Z Z) : gmap Z Z :=
  set_pages (Z.to_nat (Page hi - Page lo)) (Page lo) v t.

(** Extending the table downwards: [false] when [malloc] fails. *)
Definition grow_page_low (m : Z) : M bool := fun r =>
  let g := mjr r in
  if Page m <? page_low g then
    (let! p := libc_malloc in
     if p =? 0 then ret false
     else upd (fun r =>
            set_page_low (Page m)
              (set_page_table (set_pages (Z.to_nat (page_low g - Page m)) (Page m) Not_in_heap (page_table g)) r)) ;;
          ret true) r
  else Ok true r.

(** Extending the table upwards, to the page of [e]. *)
Definition grow_page_high (e : Z) : M bool := fun r =>
  let g := mjr r in
  if page_high g <? Page e then
    (let! p := libc_malloc in
     if p =? 0 then ret false
     else upd (fun r =>
            set_page_high (Page e)
              (set_page_table (set_pages (Z.to_nat (Page e - page_high g)) (page_high g) Not_in_heap (page_table g)) r)) ;;
          ret true) r
  else Ok true r.

(** ** The list of chunks *)

(** The loop that looks for the place of the chunk [c]: [prev] is the chunk whose
    link is [*last], or [0] for [heap_start]. *)
Fixpoint find_chunk (fuel : nat) (m : mem) (c prev cur : Z) : option (Z * Z) :=
  match fuel with
  | O => None
  | S fuel =>
      if negb (cur =? 0) && (cur <? c) then find_chunk fuel m c cur (Chunk_next m cur)
      else Some (prev, cur)
  end.

(** [*last = c] *)
Definition set_chunk_link (prev c : Z) (r : runtime) : runtime :=
  if prev =? 0 then set_heap_start c r else set_rmem (set_Chunk_next (rmem r) prev c) r.

(** The pages of the chunk are marked, it is put in the chain, and the bounds and
    the statistics are updated. [fuel] bounds the number of chunks. *)
Definition chain_chunk (fuel : nat) (c : Z) : M Z := fun r =>
  let size := Chunk_size (rmem r) c in
  let r := set_page_table (mark_pages c (c + size) In_heap (page_table (mjr r))) r in
  match find_chunk fuel (rmem r) c 0 (heap_start (mjr r)) with
  | None => Fatal "the list of chunks is longer than the bound"
  | Some (prev, cur) =>
      let r := set_rmem (set_Chunk_next (rmem r) c cur) r in
      let r := set_chunk_link prev c r in
      let r := set_stat_heap_chunks (stat_heap_chunks (mjr r) + 1) r in
      let r := if heap_end (mjr r) <? c + size then set_heap_end (c + size) r else r in
      let r := set_stat_heap_size (stat_heap_size (mjr r) + size) r in
      let r := if stat_top_heap_size (mjr r) <? stat_heap_size (mjr r)
               then set_stat_top_heap_size (stat_heap_size (mjr r)) r else r in
      Ok 0 r
  end.

(** The result is [0], or [-1] on error. *)
Definition add_to_heap (fuel : nat) (c : Z) : M Z :=
  let! size := get (fun r => Chunk_size (rmem r) c) in
  let! ok := grow_page_low c in
  if negb ok then ret (-1) else
  let! ok := grow_page_high (c + size) in
  if negb ok then ret (-1) else chain_chunk fuel c.

(** [while ( *cp != chunk) cp = &(Chunk_next ( *cp));] *)
Fixpoint find_chunk_link (fuel : nat) (m : mem) (chunk prev cur : Z) : option Z :=
  match fuel with
  | O => None
  | S fuel => if cur =? chunk then Some prev else find_chunk_link fuel m chunk cur (Chunk_next m cur)
  end.

Definition shrink_heap (fuel : nat) (chunk : Z) : M unit := fun r =>
  if chunk =? heap_start (mjr r) then Ok tt r
  else
    let size := Chunk_size (rmem r) chunk in
    let r := set_stat_heap_size (stat_heap_size (mjr r) - size) r in
    let r := set_stat_heap_chunks (stat_heap_chunks (mjr r) - 1) r in
    match find_chunk_link fuel (rmem r) chunk 0 (heap_start (mjr r)) with
    | None => Fatal "the chunk is not in the list"
    | Some prev =>
        let r := set_chunk_link prev (Chunk_next (rmem r) chunk) r in
        Ok tt (set_page_table (mark_pages chunk (chunk + size) Not_in_heap (page_table (mjr r))) r)
    end.

(** The value returned is the block of the new chunk, or [0]. *)
Definition expand_heap (fuel : nat) (request : Z) : M Z :=
  let! malloc_request := round_heap_chunk_size (Bhsize_wosize request) in
  let! c := alloc_for_heap malloc_request in
  if c =? 0 then ret 0
  else
    upd (fun r => set_rmem (st (rmem r) c (Make_header (Wosize_bhsize malloc_request) 0 Caml_blue)) r) ;;
    let! err := add_to_heap fuel c in
    if negb (err =? 0) then ret 0 else ret (Val_hp c).

(** ** Allocation in the major heap *)

Section AllocShr.
Context (Fl_head : Z).

Definition fl_allocate_M (fuel : nat) (wosize : Z) : M Z := fun r =>
  match on_freelist (fun s => match fl_allocate Fl_head fuel wosize s with
                              | Some (hp, s) => (Some hp, s)
                              | None => (None, s)
                              end) r with
  | (Some hp, r) => Ok hp r
  | (None, _) => Fatal "the free list is longer than the bound"
  end.

Definition fl_add_block_M (fuel : nat) (bp : Z) : M unit := fun r =>
  match on_freelist (fun s => match fl_add_block Fl_head fuel bp (gc_sweep_hp (mjr r)) s with
                              | Some s => (true, s)
                              | None => (false, s)
                              end) r with
  | (true, r) => Ok tt r
  | (false, _) => Fatal "the free list is longer than the bound"
  end.

(** The end of [alloc_shr]: the header and the accounting. *)
Definition finish_alloc_shr (hp wosize tag : Z) (r : runtime) : runtime :=
  let r := set_rmem (st (rmem r) hp (Make_header wosize tag (allocation_color (mjr r) hp))) r in
  let r := set_allocated_words (u64 (allocated_words (mjr r) + Whsize_wosize wosize)) r in
  if Wsize_bsize (minor_heap_size (mnr r)) <? allocated_words (mjr r) then urge_major_slice r else r.

Definition alloc_shr (fuel : nat) (wosize tag : Z) : M Z := fun r =>
  if Max_wosize <? wosize then raise_out_of_memory r
  else
    (let! hp := fl_allocate_M fuel wosize in
     let! hp :=
       if negb (hp =? 0) then ret hp
       else
         let! new_block := expand_heap fuel wosize in
         if new_block =? 0 then
           fun r => if in_minor_collection (mnr r) then Fatal "Fatal error: out of memory."
                    else raise_out_of_memory r
         else fl_add_block_M fuel new_block ;; fl_allocate_M fuel wosize in
     fun r => Ok (Val_hp hp) (finish_alloc_shr hp wosize tag r)) r.
End AllocShr.

(** ** What the allocator does not touch *)

(** The globals of the other modules are kept; [malloc] may have been called. *)
Definition ctl (r r' : runtime) : Prop :=
  mnr r' = mnr r /\ stk r' = stk r /\ local_roots (glb r') = local_roots (glb r) /\
  major_heap_increment (mjr r') = major_heap_increment (mjr r) /\ malloc_answers r' `suffix_of` malloc_answers r.
Definition keeps {A} (m : M A) : Prop := forall r a r', m r = Ok a r' -> ctl r r'.

Lemma ctl_trans r1 r2 r3 : ctl r1 r2 -> ctl r2 r3 -> ctl r1 r3.
Proof.
  intros (A1 & A2 & A3 & A4 & A5) (B1 & B2 & B3 & B4 & B5). unfold ctl. rewrite B1, B2, B3, B4.
  splits; try done. now trans (malloc_answers r2).
Qed.
Lemma keeps_bind {A B} (m : M A) (k : A -> M B) : keeps m -> (forall a, keeps (k a)) -> keeps (bind m k).
Proof. intros Hm Hk r b r' (a & r1 & H1 & H2)%bind_inv. apply (ctl_trans r r1); [now apply (Hm _ a)|now apply (Hk a _ b)]. Qed.
Lemma keeps_upd f : (forall r, ctl r (f r)) -> keeps (upd f).
Proof. intros Hf r a r' [= _ <-]. apply Hf. Qed.
Lemma keeps_ret {A} (a : A) : keeps (ret a).
Proof. intros r b r' [= _ <-]. unfold ctl. splits; done. Qed.
Lemma keeps_get {A} (f : runtime -> A) : keeps (get f).
Proof. intros r b r' [= _ <-]. unfold ctl. splits; done. Qed.
Lemma keeps_malloc : keeps libc_malloc.
Proof.
  intros r b r'. unfold libc_malloc. destruct (malloc_answers r) as [|x l] eqn:E; intros [= _ <-]; unfold ctl; rsimp; splits; try done.
  rewrite E. now apply suffix_cons_r.
Qed.
Lemma keeps_if {A} (b : bool) (m1 m2 : M A) : keeps m1 -> keeps m2 -> keeps (if b then m1 else m2).
Proof. now destruct b. Qed.
Lemma keeps_raise {A} : keeps (@raise_out_of_memory A).
Proof.
  intros r a r'. unfold raise_out_of_memory, mlraise. destruct (_ =? 0); [done|]. now destruct (external_raise _ =? 0).
Qed.
Create HintDb keeps.
#[export] Hint Resolve keeps_ret keeps_get keeps_malloc keeps_raise keeps_if : keeps.

Lemma keeps_grow_low m : keeps (grow_page_low m).
Proof.
  intros r a r'. unfold grow_page_low. destruct (_ <? _); [|intros [= _ <-]; unfold ctl; splits; done].
  apply keeps_bind; [apply keeps_malloc|]. intros p. apply keeps_if; [apply keeps_ret|].
  apply keeps_bind; [|intros; apply keeps_ret]. apply keeps_upd. intros r1. unfold ctl; rsimp; splits; done.
Qed.
Lemma keeps_grow_high m : keeps (grow_page_high m).
Proof.
  intros r a r'. unfold grow_page_high. destruct (_ <? _); [|intros [= _ <-]; unfold ctl; splits; done].
  apply keeps_bind; [apply keeps_malloc|]. intros p. apply keeps_if; [apply keeps_ret|].
  apply keeps_bind; [|intros; apply keeps_ret]. apply keeps_upd. intros r1. unfold ctl; rsimp; splits; done.
Qed.
Lemma keeps_chain fuel c : keeps (chain_chunk fuel c).
Proof.
  intros r a r'. unfold chain_chunk. destruct (find_chunk _ _ _ _ _) as [[prev cur]|]; [|done].
  unfold set_chunk_link. intros [= _ <-]. unfold ctl. rsimp.
  repeat match goal with |- context [if ?b then _ else _] => destruct b; rsimp end; splits; done.
Qed.
Lemma keeps_add_to_heap fuel c : keeps (add_to_heap fuel c).
Proof.
  unfold add_to_heap. apply keeps_bind; [apply keeps_get|]. intros size.
  apply keeps_bind; [apply keeps_grow_low|]. intros ok. apply keeps_if; [apply keeps_ret|].
  apply keeps_bind; [apply keeps_grow_high|]. intros ok'. apply keeps_if; [apply keeps_ret|apply keeps_chain].
Qed.
Lemma keeps_expand fuel wo : keeps (expand_heap fuel wo).
Proof.
  unfold expand_heap. apply keeps_bind.
  { intros r a r'. unfold round_heap_chunk_size. destruct (_ <? Bhsize_wosize wo); [apply keeps_raise|apply (keeps_ret (clip_heap_chunk_size _))]. }
  intros n. apply keeps_bind.
  { unfold alloc_for_heap, aligned_malloc. apply keeps_bind.
    - apply keeps_bind; [apply keeps_malloc|]. intros raw. auto with keeps.
    - intros [m blk]. apply keeps_if; [apply keeps_ret|]. apply keeps_bind; [|intros; apply keeps_ret].
      apply keeps_upd. intros r. unfold ctl; rsimp; splits; done. }
  intros c. apply keeps_if; [apply keeps_ret|]. apply keeps_bind.
  { apply keeps_upd. intros r. unfold ctl; rsimp; splits; done. }
  intros _. apply keeps_bind; [apply keeps_add_to_heap|]. auto with keeps.
Qed.
Lemma keeps_fl_allocate Fl_head fuel wo : keeps (fl_allocate_M Fl_head fuel wo).
Proof.
  intros r a r'. unfold fl_allocate_M, on_freelist. destruct (fl_allocate _ _ _ _) as [[hp s]|]; [|done].
  intros [= _ <-]. unfold ctl; rsimp; splits; done.
Qed.
Lemma keeps_fl_add_block Fl_head fuel bp : keeps (fl_add_block_M Fl_head fuel bp).
Proof.
  intros r a r'. unfold fl_add_block_M, on_freelist. destruct (fl_add_block _ _ _ _ _) as [s|]; [|done].
  intros [= _ <-]. unfold ctl; rsimp; splits; done.
Qed.
Lemma keeps_alloc_shr Fl_head fuel wo tag : keeps (alloc_shr Fl_head fuel wo tag).
Proof.
  intros r a r'. unfold alloc_shr. destruct (_ <? wo); [apply keeps_raise|].
  apply keeps_bind; [apply keeps_fl_allocate|]. intros hp. apply keeps_bind.
  - apply keeps_if; [apply keeps_ret|]. apply keeps_bind; [apply keeps_expand|]. intros b. apply keeps_if.
    + intros r1 a1 r1'. destruct (in_minor_collection _); [done|apply keeps_raise].
    + apply keeps_bind; [apply keeps_fl_add_block|]. intros _. apply keeps_fl_allocate.
  - intros hp' r1 v r1' [= _ <-]. unfold ctl, finish_alloc_shr, urge_major_slice. destruct (_ <? _); rsimp; splits; done.
Qed.

(** ** How often [malloc] is asked *)

(** At most [n] answers of [malloc] were used between [r] and [r']. *)
Definition spent (n : nat) (r r' : runtime) : Prop :=
  exists u, malloc_answers r = u ++ malloc_answers r' /\ (length u <= n)%nat.
Definition spends {A} (n : nat) (m : M A) : Prop := forall r a r', m r = Ok a r' -> spent n r r'.

Lemma spent_same n r r' : malloc_answers r' = malloc_answers r -> spent n r r'.
Proof. intros E. exists []. rewrite E. split; [done|]. cbn. lia. Qed.
Lemma spent_trans n k j r1 r2 r3 : spent n r1 r2 -> spent k r2 r3 -> (n + k <= j)%nat -> spent j r1 r3.
Proof.
  intros (u & E & Hu) (w & E' & Hw) Hj. exists (u ++ w). rewrite E, E', app_assoc. split; [done|].
  rewrite length_app. lia.
Qed.
Lemma spends_bind {A B} n k j (m : M A) (f : A -> M B) :
  spends n m -> (forall a, spends k (f a)) -> (n + k <= j)%nat -> spends j (bind m f).
Proof.
  intros Hm Hf Hj r b r' (a & r1 & H1 & H2)%bind_inv.
  apply (spent_trans n k j r r1 r'); [now apply (Hm _ a)|now apply (Hf a _ b)|done].
Qed.
Lemma spends_upd n f : (forall r, malloc_answers (f r) = malloc_answers r) -> spends n (upd f).
Proof. intros Hf r a r' [= _ <-]. now apply spent_same. Qed.
Lemma spends_ret {A} n (a : A) : spends n (ret a).
Proof. intros r b r' [= _ <-]. now apply spent_same. Qed.
Lemma spends_malloc : spends 1 libc_malloc.
Proof.
  intros r b r'. unfold libc_malloc. destruct (malloc_answers r) as [|x l] eqn:E; intros [= _ <-]; [now apply spent_same|].
  exists [x]. rewrite E. split; [done|]. cbn. lia.
Qed.
Lemma spends_if {A} n (b : bool) (m1 m2 : M A) : spends n m1 -> spends n m2 -> spends n (if b then m1 else m2).
Proof. now destruct b. Qed.
Lemma spends_raise {A} n : spends n (@raise_out_of_memory A).
Proof.
  intros r a r'. unfold raise_out_of_memory, mlraise. destruct (_ =? 0); [done|]. now destruct (external_raise _ =? 0).
Qed.
Lemma spends_grow_low m : spends 1 (grow_page_low m).
Proof.
  intros r a r'. unfold grow_page_low. destruct (_ <? _); [|intros [= _ <-]; now apply spent_same].
  apply (spends_bind 1 0); [apply spends_malloc| |lia]. intros p. apply spends_if; [apply spends_ret|].
  apply (spends_bind 0 0); [now apply spends_upd|intros; apply spends_ret|lia].
Qed.
Lemma spends_grow_high m : spends 1 (grow_page_high m).
Proof.
  intros r a r'. unfold grow_page_high. destruct (_ <? _); [|intros [= _ <-]; now apply spent_same].
  apply (spends_bind 1 0); [apply spends_malloc| |lia]. intros p. apply spends_if; [apply spends_ret|].
  apply (spends_bind 0 0); [now apply spends_upd|intros; apply spends_ret|lia].
Qed.
Lemma spends_chain fuel c : spends 0 (chain_chunk fuel c).
Proof.
  intros r a r'. unfold chain_chunk. destruct (find_chunk _ _ _ _ _) as [[prev cur]|]; [|done].
  unfold set_chunk_link. intros [= _ <-]. apply spent_same. rsimp.
  repeat match goal with |- context [if ?b then _ else _] => destruct b; rsimp end; done.
Qed.
Lemma spends_add_to_heap fuel c : spends 2 (add_to_heap fuel c).
Proof.
  unfold add_to_heap. apply (spends_bind 0 2); [intros r a r' [= _ <-]; now apply spent_same| |lia]. intros size.
  apply (spends_bind 1 1); [apply spends_grow_low| |lia]. intros ok. apply spends_if; [apply spends_ret|].
  apply (spends_bind 1 0); [apply spends_grow_high| |lia]. intros ok'. apply spends_if; [apply spends_ret|apply spends_chain].
Qed.
Lemma spends_expand fuel wo : spends 3 (expand_heap fuel wo).
Proof.
  unfold expand_heap. apply (spends_bind 0 3); [| |lia].
  { intros r a r'. unfold round_heap_chunk_size. destruct (_ <? Bhsize_wosize wo); [apply spends_raise|apply (spends_ret 0 (clip_heap_chunk_size _))]. }
  intros n. apply (spends_bind 1 2); [| |lia].
  { unfold alloc_for_heap, aligned_malloc. apply (spends_bind 1 0); [| |lia].
    - apply (spends_bind 1 0); [apply spends_malloc| |lia]. intros raw. apply spends_if; apply spends_ret.
    - intros [m blk]. apply spends_if; [apply spends_ret|]. apply (spends_bind 0 0); [now apply spends_upd|intros; apply spends_ret|lia]. }
  intros c. apply spends_if; [apply spends_ret|]. apply (spends_bind 0 2); [now apply spends_upd| |lia].
  intros _. apply (spends_bind 2 0); [apply spends_add_to_heap| |lia]. intros ok. apply spends_if; apply spends_ret.
Qed.
Lemma spends_fl_allocate Fl_head fuel wo : spends 0 (fl_allocate_M Fl_head fuel wo).
Proof.
  intros r a r'. unfold fl_allocate_M, on_freelist. destruct (fl_allocate _ _ _ _) as [[hp s]|]; [|done].
  intros [= _ <-]. now apply spent_same.
Qed.
Lemma spends_fl_add_block Fl_head fuel bp : spends 0 (fl_add_block_M Fl_head fuel bp).
Proof.
  intros r a r'. unfold fl_add_block_M, on_freelist. destruct (fl_add_block _ _ _ _ _) as [s|]; [|done].
  intros [= _ <-]. now apply spent_same.
Qed.
Lemma spends_alloc_shr Fl_head fuel wo tag : spends 3 (alloc_shr Fl_head fuel wo tag).
Proof.
  intros r a r'. unfold alloc_shr. destruct (_ <? wo); [apply spends_raise|].
  apply (spends_bind 0 3); [apply spends_fl_allocate| |lia]. intros hp. apply (spends_bind 3 0); [| |lia].
  - apply spends_if; [apply spends_ret|]. apply (spends_bind 3 0); [apply spends_expand| |lia]. intros b. apply spends_if.
    + intros r1 a1 r1'. destruct (in_minor_collection _); [done|apply spends_raise].
    + apply (spends_bind 0 0); [apply spends_fl_add_block| |lia]. intros _. apply spends_fl_allocate.
  - intros hp' r1 v r1' [= _ <-]. apply spent_same. unfold finish_alloc_shr, urge_major_slice. now destruct (_ <? _).
Qed.

(** ** Sizes and alignment *)

Lemma Page_size_eq : Page_size = 4096.
Proof. reflexivity. Qed.
Lemma Page_eq p : Page p = p / 4096.
Proof. unfold Page. now rewrite Z.shiftr_div_pow2. Qed.
Lemma Heap_chunk_max_eq : Heap_chunk_max = 144115188075855872.
Proof. reflexivity. Qed.

Lemma round_pages_eq x : 0 <= x <= Heap_chunk_max -> round_pages x = (x + 4095) / 4096 * 4096.
Proof.
  rewrite Heap_chunk_max_eq. intros Hx. unfold round_pages. rewrite Page_size_eq.
  rewrite (u64_id (x + 4096 - 1)) by (unfold isu64; lia).
  rewrite Z.shiftl_mul_pow2, Z.shiftr_div_pow2 by (unfold Page_log; lia).
  change (2 ^ Page_log) with 4096. replace (x + 4096 - 1) with (x + 4095) by lia.
  apply u64_id. unfold isu64. zlia.
Qed.

(** A chunk is a whole number of pages, at least one, at most the largest block. *)
Lemma clip_heap_chunk_size_spec x :
  0 <= x ->
  clip_heap_chunk_size x mod 4096 = 0 /\ 4096 <= clip_heap_chunk_size x <= Heap_chunk_max /\
  (x <= Heap_chunk_max -> x <= clip_heap_chunk_size x).
Proof.
  intros Hx. unfold clip_heap_chunk_size. change Heap_chunk_min with 1024.
  set (y := if x <? 1024 then 1024 else x).
  assert (Hy : 1024 <= y /\ x <= y) by (unfold y; destruct (Z.ltb_spec x 1024); lia).
  rewrite Heap_chunk_max_eq in *.
  destruct (Z.ltb_spec 144115188075855872 y).
  - rewrite round_pages_eq by (rewrite Heap_chunk_max_eq; lia).
    change ((144115188075855872 + 4095) / 4096 * 4096) with 144115188075855872. splits; try done; lia.
  - rewrite round_pages_eq by (rewrite Heap_chunk_max_eq; lia). zlia.
Qed.

(** The size of a new chunk. *)
Lemma round_heap_chunk_size_spec request r :
  0 <= request -> 0 <= major_heap_increment (mjr r) <= Heap_chunk_max ->
  (request <= Heap_chunk_max ->
   exists size, round_heap_chunk_size request r = Ok size r /\ size mod 4096 = 0 /\
     request <= size /\ 4096 <= size <= Heap_chunk_max) /\
  (Heap_chunk_max < request -> round_heap_chunk_size request r = raise_out_of_memory r).
Proof.
  intros Hr Hi. unfold round_heap_chunk_size.
  set (x := if request <? major_heap_increment (mjr r) then major_heap_increment (mjr r) else request).
  assert (Hx : request <= x /\ (request <= Heap_chunk_max -> x <= Heap_chunk_max) /\ 0 <= x)
    by (unfold x; destruct (Z.ltb_spec request (major_heap_increment (mjr r))); lia).
  destruct (clip_heap_chunk_size_spec x) as (H1 & H2 & H3); [lia|]. split; intros Hq.
  - exists (clip_heap_chunk_size x). destruct (Z.ltb_spec (clip_heap_chunk_size x) request); [lia|].
    splits; try done; lia.
  - destruct (Z.ltb_spec (clip_heap_chunk_size x) request); [done|lia].
Qed.

(** The block [aligned_malloc] returns is inside the one [malloc] gave, and aligned
    so that the page starts [modulo] bytes into it. *)
Lemma aligned_malloc_spec modulo r raw l :
  malloc_answers r = raw :: l -> 0 < raw -> 0 <= modulo < 4096 -> raw + modulo < B64 ->
  exists a, aligned_malloc modulo r = Ok (a, raw) (set_malloc_answers l r) /\
    (a + modulo) mod 4096 = 0 /\ raw < a <= raw + 4096.
Proof.
  intros Hm Hraw Hmod Hb. unfold aligned_malloc, bind, libc_malloc, ret. rewrite Hm.
  destruct (Z.eqb_spec raw 0); [lia|]. rewrite u64_id by (unfold isu64; lia). rewrite Page_size_eq.
  eexists. split; [reflexivity|]. split; [|zlia].
  replace (((raw + modulo) / 4096 + 1) * 4096 - modulo + modulo) with (((raw + modulo) / 4096 + 1) * 4096) by lia.
  apply Z.mod_mul. lia.
Qed.

(** ** The page table *)

Definition marked (t : gmap Z Z) (i : Z) : bool := negb (default 0 (t !! i) =? 0).

Lemma lookup_set_pages n v : forall lo t i,
  set_pages n lo v t !! i = if (lo <=? i) && (i <? lo + Z.of_nat n) then Some v else t !! i.
Proof.
  induction n as [|n IH]; intros lo t i; cbn [set_pages].
  - destruct (Z.leb_spec lo i), (Z.ltb_spec i (lo + Z.of_nat 0)); try lia; done.
  - rewrite IH. destruct (decide (lo = i)) as [->|Hne].
    + destruct (Z.leb_spec (i + 1) i), (Z.leb_spec i i), (Z.ltb_spec i (i + Z.of_nat (S n))); try lia.
      cbn [andb]. now rewrite lookup_insert_eq.
    + rewrite lookup_insert_ne by done.
      destruct (Z.leb_spec (lo + 1) i), (Z.leb_spec lo i), (Z.ltb_spec i (lo + 1 + Z.of_nat n)),
        (Z.ltb_spec i (lo + Z.of_nat (S n))); try lia; done.
Qed.

Lemma marked_set_pages n v lo t i :
  marked (set_pages n lo v t) i =
  if (lo <=? i) && (i <? lo + Z.of_nat n) then negb (v =? 0) else marked t i.
Proof. unfold marked. rewrite lookup_set_pages. now destruct (_ && _). Qed.

Lemma marked_mark_pages lo hi v t i :
  Page lo <= Page hi ->
  marked (mark_pages lo hi v t) i = if (Page lo <=? i) && (i <? Page hi) then negb (v =? 0) else marked t i.
Proof.
  intros H. unfold mark_pages. rewrite marked_set_pages.
  replace (Page lo + Z.of_nat (Z.to_nat (Page hi - Page lo))) with (Page hi) by lia. done.
Qed.

Lemma Is_in_heap_marked g p :
  Is_in_heap g p = (heap_start g <=? p) && (p <? heap_end g) && marked (page_table g) (Page p).
Proof. done. Qed.

(** ** The list of chunks *)

Fixpoint chunks (m : mem) (p : Z) (l : list Z) : Prop :=
  match l with
  | [] => p = 0
  | c :: l => p = c /\ chunks m (Chunk_next m c) l
  end.

Definition chunk_end (m : mem) (c : Z) : Z := c + Chunk_size m c.

(** A chunk is aligned and a whole number of pages. *)
Definition chunk_ok (m : mem) (c : Z) : Prop :=
  c mod 4096 = 0 /\ Chunk_size m c mod 4096 = 0 /\ 0 < Chunk_size m c.

(** By increasing addresses, heads included, from [lo]. *)
Fixpoint chunks_sorted (m : mem) (lo : Z) (l : list Z) : Prop :=
  match l with
  | [] => True
  | c :: l => lo <= c - 32 /\ chunk_ok m c /\ chunks_sorted m (chunk_end m c) l
  end.

(** The invariant of the heap: the chain of chunks, the bounds, and a page table
    that marks exactly the pages of the chunks. *)
Definition heap_ok (r : runtime) (l : list Z) : Prop :=
  let g := mjr r in
  chunks (rmem r) (heap_start g) l /\ chunks_sorted (rmem r) 1 l /\
  (forall c, c ∈ l -> chunk_end (rmem r) c <= heap_end g) /\
  (forall i, marked (page_table g) i = true <->
     exists c, c ∈ l /\ Page c <= i < Page (chunk_end (rmem r) c)) /\
  (forall i, marked (page_table g) i = true -> page_low g <= i < page_high g).

Lemma chunks_sorted_elem m lo l c :
  chunks_sorted m lo l -> c ∈ l -> lo <= c - 32 /\ chunk_ok m c.
Proof.
  revert lo. induction l as [|d l IH]; intros lo H Hc; [now apply elem_of_nil in Hc|].
  destruct H as (H1 & H2 & H3). apply elem_of_cons in Hc as [->|Hc]; [done|].
  destruct (IH _ H3 Hc) as [H4 H5]. split; [|done]. destruct H2 as (_ & _ & Hs). unfold chunk_end in H4. lia.
Qed.

Lemma chunks_head_le m lo l p c : chunks m p l -> chunks_sorted m lo l -> c ∈ l -> p <= c.
Proof.
  destruct l as [|d l]; intros Hp Hs Hc; [now apply elem_of_nil in Hc|].
  destruct Hp as [-> _]. apply elem_of_cons in Hc as [->|Hc]; [lia|].
  destruct Hs as (_ & (_ & _ & Hd) & Hs). destruct (chunks_sorted_elem _ _ _ _ Hs Hc).
  unfold chunk_end in *. lia.
Qed.

Lemma Page_chunk m c p : chunk_ok m c -> Page c <= Page p < Page (chunk_end m c) <-> c <= p < chunk_end m c.
Proof. intros (H1 & H2 & H3). unfold chunk_end in *. rewrite !Page_eq. zlia. Qed.

(** An address is in the heap exactly when it is in a chunk. *)
Lemma heap_ok_Is_in_heap r l p :
  heap_ok r l ->
  Is_in_heap (mjr r) p = true <-> exists c, c ∈ l /\ c <= p < chunk_end (rmem r) c.
Proof.
  intros (H1 & H2 & H3 & H4 & H5). rewrite Is_in_heap_marked, !andb_true_iff, Z.leb_le, Z.ltb_lt, H4.
  split.
  - intros (_ & c & Hc & Hp). exists c. split; [done|].
    apply (Page_chunk (rmem r)); [|done]. now destruct (chunks_sorted_elem _ _ _ _ H2 Hc).
  - intros (c & Hc & Hp). destruct (chunks_sorted_elem _ _ _ _ H2 Hc) as [_ Hok].
    pose proof (chunks_head_le _ _ _ _ _ H1 H2 Hc). pose proof (H3 c Hc).
    splits; try lia. exists c. split; [done|]. now apply Page_chunk.
Qed.

(** ** Links and sizes do not interfere: the chunks are aligned *)

Lemma Chunk_size_set_next m c d v :
  c mod 4096 = 0 -> d mod 4096 = 0 -> Chunk_size (set_Chunk_next m d v) c = Chunk_size m c.
Proof. intros Hc Hd. unfold Chunk_size, set_Chunk_next. apply ld_st_ne. zlia. Qed.
Lemma Chunk_next_set_ne m c d v : c <> d -> Chunk_next (set_Chunk_next m d v) c = Chunk_next m c.
Proof. intros H. unfold Chunk_next, set_Chunk_next. apply ld_st_ne. lia. Qed.
Lemma Chunk_next_set_eq m c v : Chunk_next (set_Chunk_next m c v) c = v.
Proof. apply ld_st_eq. Qed.

Lemma chunks_ext m m' p l :
  (forall d, d ∈ l -> Chunk_next m' d = Chunk_next m d) -> chunks m p l -> chunks m' p l.
Proof.
  revert p. induction l as [|c l IH]; intros p H Hc; [done|]. destruct Hc as [-> Hc]. split; [done|].
  rewrite H by apply list_elem_of_here. apply IH; [|done]. intros d Hd. apply H. now apply list_elem_of_further.
Qed.

Lemma chunks_sorted_ext m m' lo l :
  (forall d, d ∈ l -> Chunk_size m' d = Chunk_size m d) -> chunks_sorted m lo l -> chunks_sorted m' lo l.
Proof.
  revert lo. induction l as [|c l IH]; intros lo H Hc; [done|]. destruct Hc as (H1 & H2 & H3).
  assert (E : Chunk_size m' c = Chunk_size m c) by (apply H, list_elem_of_here).
  cbn [chunks_sorted]. unfold chunk_ok, chunk_end in *. rewrite E. splits; try tauto; try done.
  apply IH; [|done]. intros d Hd. apply H. now apply list_elem_of_further.
Qed.

Lemma chunks_set_out m p l d v : d ∉ l -> chunks m p l -> chunks (set_Chunk_next m d v) p l.
Proof. intros Hd. apply chunks_ext. intros e He. apply Chunk_next_set_ne. now intros ->. Qed.

Lemma chunks_sorted_later m c l d : chunks_sorted m (chunk_end m c) l -> chunk_ok m c -> d ∈ l -> c < d.
Proof.
  intros H (_ & _ & Hc) Hd. destruct (chunks_sorted_elem _ _ _ _ H Hd) as [H1 _]. unfold chunk_end in H1. lia.
Qed.

Lemma chunks_sorted_set m d v lo l :
  d mod 4096 = 0 -> chunks_sorted m lo l -> chunks_sorted (set_Chunk_next m d v) lo l.
Proof.
  intros Hd H. apply (chunks_sorted_ext m); [|done]. intros e He. apply Chunk_size_set_next; [|done].
  now destruct (chunks_sorted_elem _ _ _ _ H He) as (_ & ? & _).
Qed.

(** The search of [add_to_heap] and the two links it writes. *)
Lemma find_chunk_spec m c l : forall fuel prev p lo,
  chunks m p l -> chunks_sorted m lo l -> 0 <= lo -> c ∉ l -> (length l < fuel)%nat ->
  exists l1 l2 q cur, l = l1 ++ l2 /\ find_chunk fuel m c prev p = Some (q, cur) /\
    (forall d, d ∈ l1 -> d < c) /\ (forall d, d ∈ l2 -> c < d) /\
    match l1 with
    | [] => q = prev /\ chunks (set_Chunk_next m c cur) c (c :: l2)
    | _ => q ∈ l1 /\ chunks (set_Chunk_next (set_Chunk_next m c cur) q c) p (l1 ++ c :: l2)
    end.
Proof.
  induction l as [|d l IH]; intros [|fuel] prev p lo Hp Hs Hlo Hc Hf; cbn [length] in Hf; try lia.
  - cbn in Hp. subst p. exists [], [], prev, 0. cbn. splits; try done; try (intros d Hd; now apply elem_of_nil in Hd).
    apply Chunk_next_set_eq.
  - destruct Hp as [-> Hp]. destruct Hs as (H1 & H2 & H3).
    apply not_elem_of_cons in Hc as [Hne Hc]. cbn [find_chunk].
    destruct (Z.eqb_spec d 0); [lia|]. cbn [negb andb]. destruct (Z.ltb_spec d c).
    + destruct (IH fuel d (Chunk_next m d) (chunk_end m d)) as (l1 & l2 & q & cur & -> & Hfind & Hl1 & Hl2 & Hlink); try done; try lia.
      { destruct H2 as (_ & _ & ?). unfold chunk_end. lia. }
      exists (d :: l1), l2, q, cur. split; [done|]. split; [done|]. split; [|split; [done|]].
      { intros e [->|He]%elem_of_cons; [lia|now apply Hl1]. }
      assert (Hd : forall e, e ∈ l1 ++ l2 -> d < e) by (intros e; now apply (chunks_sorted_later m)).
      destruct l1 as [|e l1].
      * destruct Hlink as [-> Hch]. split; [apply list_elem_of_here|]. cbn [app chunks]. split; [done|].
        rewrite Chunk_next_set_eq. change (chunks (set_Chunk_next (set_Chunk_next m c cur) d c) c (c :: l2)).
        apply chunks_set_out; [|done].
        intros [->|Hin]%elem_of_cons; [done|]. specialize (Hd d Hin). lia.
      * destruct Hlink as [Hq Hch]. split; [now apply list_elem_of_further|].
        cbn [app chunks]. split; [done|].
        assert (d < q) by (apply Hd, elem_of_app; now left).
        rewrite !Chunk_next_set_ne by lia. done.
    + exists [], (d :: l), prev, d. split; [done|]. split; [done|]. split; [|split; [|split; [done|]]].
      { intros e He. now apply elem_of_nil in He. }
      { intros e [->|He]%elem_of_cons; [lia|]. pose proof (chunks_sorted_later m d l e H3 H2 He). lia. }
      change (c = c /\ chunks (set_Chunk_next m c d) (Chunk_next (set_Chunk_next m c d) c) (d :: l)).
      split; [done|]. rewrite Chunk_next_set_eq. apply (chunks_set_out _ _ (d :: l)); [|now split].
      intros Hin%elem_of_cons. now destruct Hin.
Qed.

(** The search of [shrink_heap] and the link it writes. *)
Lemma find_chunk_link_spec m c l1 l2 : forall fuel prev p lo,
  chunks m p (l1 ++ c :: l2) -> chunks_sorted m lo (l1 ++ c :: l2) -> (length l1 < fuel)%nat ->
  exists q, find_chunk_link fuel m c prev p = Some q /\
    match l1 with
    | [] => q = prev
    | _ => q ∈ l1 /\ chunks (set_Chunk_next m q (Chunk_next m c)) p (l1 ++ l2)
    end.
Proof.
  induction l1 as [|d l1 IH]; intros [|fuel] prev p lo Hp Hs Hf; cbn [length] in Hf; try lia.
  - destruct Hp as [-> Hp]. cbn [find_chunk_link]. rewrite Z.eqb_refl. now exists prev.
  - destruct Hp as [-> Hp]. destruct Hs as (H1 & H2 & H3). change (chunks m (Chunk_next m d) (l1 ++ c :: l2)) in Hp.
    assert (Hd : forall e, e ∈ l1 ++ c :: l2 -> d < e) by (intros e; now apply (chunks_sorted_later m)).
    cbn [find_chunk_link]. destruct (Z.eqb_spec d c); [specialize (Hd c (elem_of_mid _ _ _)); lia|].
    destruct (IH fuel d _ _ Hp H3) as (q & Hfind & Hq); [lia|]. exists q. split; [done|].
    destruct l1 as [|e l1].
    + subst q. split; [apply list_elem_of_here|]. cbn [app chunks]. split; [done|]. rewrite Chunk_next_set_eq.
      apply chunks_set_out; [|now destruct Hp]. intros Hin.
      specialize (Hd d (elem_of_skip_mid c d [] l2 Hin)). lia.
    + destruct Hq as [Hq Hch]. split; [now apply list_elem_of_further|].
      assert (d < q) by (apply Hd, elem_of_app; now left).
      cbn [app chunks]. split; [done|]. rewrite Chunk_next_set_ne by lia. done.
Qed.

(** A new chunk, or one to remove, in the order of the addresses. *)
Lemma chunks_sorted_insert m c l1 l2 : forall lo,
  chunks_sorted m lo (l1 ++ l2) -> chunk_ok m c -> lo <= c - 32 ->
  (forall d, d ∈ l1 -> chunk_end m d <= c - 32) -> (forall d, d ∈ l2 -> chunk_end m c <= d - 32) ->
  chunks_sorted m lo (l1 ++ c :: l2).
Proof.
  induction l1 as [|d l1 IH]; intros lo Hs Hc Hlo H1 H2.
  - split; [done|]. split; [done|]. destruct l2 as [|e l2]; [done|]. destruct Hs as (? & ? & ?).
    split; [apply H2, list_elem_of_here|done].
  - destruct Hs as (? & ? & ?). split; [done|]. split; [done|]. apply IH; try done.
    + apply H1, list_elem_of_here.
    + intros e He. now apply H1, list_elem_of_further.
Qed.

Lemma chunks_sorted_weaken m lo lo' l : chunks_sorted m lo l -> lo' <= lo -> chunks_sorted m lo' l.
Proof. destruct l; [done|]. intros (? & ?) ?. split; [lia|done]. Qed.

Lemma chunks_sorted_remove m c l1 l2 : forall lo,
  chunks_sorted m lo (l1 ++ c :: l2) -> chunks_sorted m lo (l1 ++ l2).
Proof.
  induction l1 as [|d l1 IH]; intros lo Hs; destruct Hs as (H1 & H2 & H3).
  - apply (chunks_sorted_weaken _ _ lo) in H3; [done|]. destruct H2 as (_ & _ & ?). unfold chunk_end. lia.
  - split; [done|]. split; [done|]. now apply IH.
Qed.

(** ** Growing the page table *)

(** [r'] has the heap of [r], perhaps with a larger page table. *)
Definition same_heap (r r' : runtime) : Prop :=
  rmem r' = rmem r /\ heap_start (mjr r') = heap_start (mjr r) /\ heap_end (mjr r') = heap_end (mjr r) /\
  stat_heap_size (mjr r') = stat_heap_size (mjr r) /\ stat_heap_chunks (mjr r') = stat_heap_chunks (mjr r) /\
  frl r' = frl r /\ gc_sweep_hp (mjr r') = gc_sweep_hp (mjr r) /\
  (forall i, marked (page_table (mjr r')) i = marked (page_table (mjr r)) i).

Lemma same_heap_refl r : same_heap r r.
Proof. unfold same_heap. splits; done. Qed.

Lemma same_heap_trans r1 r2 r3 : same_heap r1 r2 -> same_heap r2 r3 -> same_heap r1 r3.
Proof. unfold same_heap. intros (?&?&?&?&?&?&?&H) (?&?&?&?&?&?&?&H'). splits; try congruence. Qed.

Lemma heap_ok_same r r' l :
  same_heap r r' -> page_low (mjr r') <= page_low (mjr r) -> page_high (mjr r) <= page_high (mjr r') ->
  heap_ok r l -> heap_ok r' l.
Proof.
  intros (Hm & Hs & He & _ & _ & _ & _ & Ht) Hl Hh (H1 & H2 & H3 & H4 & H5). unfold heap_ok.
  rewrite Hm, Hs, He. splits; try done.
  - intros i. now rewrite Ht.
  - intros i. rewrite Ht. intros Hi. specialize (H5 i Hi). lia.
Qed.

(** A page table that covers the pages from [lo] to [hi]. *)
Definition grown (r r' : runtime) (ok : bool) : Prop :=
  same_heap r r' /\ page_low (mjr r') <= page_low (mjr r) /\ page_high (mjr r) <= page_high (mjr r') /\
  match malloc_answers r with
  | [] => malloc_answers r' = []
  | a :: l => (malloc_answers r' = a :: l /\ ok = true) \/ (malloc_answers r' = l /\ ok = negb (a =? 0))
  end.

(** A stretch of the table outside its bounds holds no mark, so clearing it changes none. *)
Lemma marked_clear n lo t i :
  (forall i, lo <= i < lo + Z.of_nat n -> marked t i = false) ->
  marked (set_pages n lo Not_in_heap t) i = marked t i.
Proof.
  intros H. rewrite marked_set_pages. destruct (Z.leb_spec lo i), (Z.ltb_spec i (lo + Z.of_nat n)); cbn [andb]; try done.
  now rewrite H.
Qed.

Lemma unmarked r l i :
  heap_ok r l -> i < page_low (mjr r) \/ page_high (mjr r) <= i -> marked (page_table (mjr r)) i = false.
Proof.
  intros (_ & _ & _ & _ & H) Hi. destruct (marked _ i) eqn:E; [|done]. specialize (H i E). lia.
Qed.

Lemma grown_refl r : grown r r true.
Proof. unfold grown. splits; try lia; [apply same_heap_refl|]. destruct (malloc_answers r); auto. Qed.

(** The table is copied into a new block, when [malloc] gives one. *)
Lemma grow_spec r f :
  (forall la, same_heap r (f (set_malloc_answers la r)) /\ malloc_answers (f (set_malloc_answers la r)) = la /\
     page_low (mjr (f (set_malloc_answers la r))) <= page_low (mjr r) /\
     page_high (mjr r) <= page_high (mjr (f (set_malloc_answers la r)))) ->
  exists ok r', (let! p := libc_malloc in if p =? 0 then ret false else upd f ;; ret true) r = Ok ok r' /\
    grown r r' ok /\ if ok then exists la, r' = f (set_malloc_answers la r) else page_low (mjr r') = page_low (mjr r).
Proof.
  intros Hf. unfold bind, libc_malloc, ret, upd. destruct (malloc_answers r) as [|a la] eqn:Em.
  - exists false, r. splits; try done. unfold grown. rewrite Em. splits; done.
  - destruct (Hf la) as (H1 & H2 & H3 & H4). destruct (Z.eqb_spec a 0) as [Ea|Ea].
    + exists false, (set_malloc_answers la r). splits; try done. unfold grown. rewrite Em. rsimp. splits; try lia.
      * unfold same_heap. rsimp. splits; done.
      * right. rewrite Ea. done.
    + exists true, (f (set_malloc_answers la r)). splits; try eauto. unfold grown. rewrite Em. splits; try done.
      right. split; [done|]. destruct (Z.eqb_spec a 0); done.
Qed.

Lemma grow_page_low_spec r l c :
  heap_ok r l ->
  exists ok r', grow_page_low c r = Ok ok r' /\ grown r r' ok /\ (ok = true -> page_low (mjr r') <= Page c).
Proof.
  intros Hok. unfold grow_page_low. destruct (Z.ltb_spec (Page c) (page_low (mjr r))) as [Hlt|Hge].
  2: { exists true, r. splits; try done; try lia. apply grown_refl. }
  edestruct grow_spec as (ok & r' & He & Hg & Hr); cycle 1.
  - exists ok, r'. split; [exact He|]. split; [done|]. intros ->. destruct Hr as [la ->]. rsimp. lia.
  - intros la. unfold same_heap. rsimp. splits; try done; try lia.
    intros i. apply marked_clear. intros j Hj. apply (unmarked r l); [done|lia].
Qed.

Lemma grow_page_high_spec r l e :
  heap_ok r l ->
  exists ok r', grow_page_high e r = Ok ok r' /\ grown r r' ok /\ page_low (mjr r') = page_low (mjr r) /\
    (ok = true -> Page e <= page_high (mjr r')).
Proof.
  intros Hok. unfold grow_page_high. destruct (Z.ltb_spec (page_high (mjr r)) (Page e)) as [Hlt|Hge].
  2: { exists true, r. splits; try done; try lia. apply grown_refl. }
  edestruct grow_spec as (ok & r' & He & Hg & Hr); cycle 1.
  - exists ok, r'. split; [exact He|]. split; [done|].
    destruct ok; [destruct Hr as [la ->]; rsimp; split; [done|lia]|done].
  - intros la. unfold same_heap. rsimp. splits; try done; try lia.
    intros i. apply marked_clear. intros j Hj. apply (unmarked r l); [done|lia].
Qed.

(** ** Chaining a chunk *)

(** What is left alone when the chain changes: all but the links of [c :: l]. *)
Definition links_only (l : list Z) (m m' : mem) : Prop :=
  forall a, (forall d, d ∈ l -> a <> d - 8) -> ld m' a = ld m a.

Definition fresh_chunk (m : mem) (l : list Z) (c : Z) : Prop :=
  chunk_ok m c /\ 33 <= c /\ forall d, d ∈ l -> chunk_end m d <= c - 32 \/ chunk_end m c <= d - 32.

Lemma fresh_not_in m l c : fresh_chunk m l c -> c ∉ l.
Proof. intros ((_ & _ & Hc) & _ & H) Hin. destruct (H c Hin); unfold chunk_end in *; lia. Qed.

(** The pages of the chunks of [l1 ++ c :: l2] are those of [l1 ++ l2] and those of [c]. *)
Lemma pages_mid (P : Z -> Prop) c l1 l2 :
  (exists d, d ∈ l1 ++ c :: l2 /\ P d) <-> P c \/ exists d, d ∈ l1 ++ l2 /\ P d.
Proof.
  split.
  - intros (d & Hd & HP). destruct (decide (d = c)) as [->|Hne]; [now left|].
    right. exists d. split; [now apply elem_of_drop_mid in Hd|done].
  - intros [HP|(d & Hd & HP)]; [exists c|exists d]; (split; [|done]); [apply elem_of_mid|now apply elem_of_skip_mid].
Qed.

(** The addresses of the chunks depend on their sizes only. *)
Lemma chunks_cover_ext m m' lo l p :
  chunks_sorted m lo l -> (forall d, chunk_ok m d -> chunk_end m' d = chunk_end m d) ->
  (exists d, d ∈ l /\ d <= p < chunk_end m' d) <-> (exists d, d ∈ l /\ d <= p < chunk_end m d).
Proof.
  intros Hs Hsz. split; intros (d & Hd & Hp); exists d; (split; [done|]);
    destruct (chunks_sorted_elem _ _ _ _ Hs Hd) as [_ Hd']; [rewrite Hsz in Hp by done|rewrite Hsz by done]; done.
Qed.

(** Every chunk keeps its size when only links are written. *)
Lemma links_only_size l m m' lo d :
  chunks_sorted m lo l -> links_only l m m' -> d mod 4096 = 0 -> Chunk_size m' d = Chunk_size m d.
Proof.
  intros Hs Hl Hd. apply Hl. intros e He.
  destruct (chunks_sorted_elem _ _ _ _ Hs He) as (_ & Hm & _). zlia.
Qed.

(** A chain of chunks, a bound and a page table that fit give the invariant. *)
Lemma heap_ok_insert r r' l1 l2 c :
  heap_ok r (l1 ++ l2) -> fresh_chunk (rmem r) (l1 ++ l2) c ->
  page_low (mjr r) <= Page c -> Page (chunk_end (rmem r) c) <= page_high (mjr r) ->
  (forall d, d ∈ l1 -> d < c) -> (forall d, d ∈ l2 -> c < d) ->
  chunks (rmem r') (heap_start (mjr r')) (l1 ++ c :: l2) ->
  links_only (l1 ++ c :: l2) (rmem r) (rmem r') ->
  heap_end (mjr r) <= heap_end (mjr r') -> chunk_end (rmem r) c <= heap_end (mjr r') ->
  page_table (mjr r') = mark_pages c (chunk_end (rmem r) c) In_heap (page_table (mjr r)) ->
  page_low (mjr r') = page_low (mjr r) -> page_high (mjr r') = page_high (mjr r) ->
  heap_ok r' (l1 ++ c :: l2).
Proof.
  intros (H1 & H2 & H3 & H4 & H5) (Hok & Hc & Hdis) Hlo Hhi Hl1 Hl2 Hch Hlinks He1 He2 Ht Epl Eph.
  assert (Hs : chunks_sorted (rmem r) 1 (l1 ++ c :: l2)).
  { apply chunks_sorted_insert; try done; try lia; intros d Hd.
    - destruct (Hdis d) as [|Hx]; [apply elem_of_app; now left|done|].
      specialize (Hl1 d Hd). destruct Hok as (_ & _ & ?). unfold chunk_end in *. lia.
    - destruct (Hdis d) as [Hx|]; [apply elem_of_app; now right| |done].
      specialize (Hl2 d Hd). destruct (chunks_sorted_elem _ _ _ d H2) as (_ & _ & _ & ?); [apply elem_of_app; now right|].
      unfold chunk_end in *. lia. }
  assert (Hsz : forall d, d ∈ l1 ++ c :: l2 -> chunk_end (rmem r') d = chunk_end (rmem r) d).
  { intros d Hd. unfold chunk_end. destruct (chunks_sorted_elem _ _ _ _ Hs Hd) as (_ & Hm & _).
    now rewrite (links_only_size _ _ _ _ _ Hs Hlinks Hm). }
  assert (Hpg : Page c <= Page (chunk_end (rmem r) c)).
  { rewrite !Page_eq. destruct Hok as (_ & _ & ?). unfold chunk_end. apply Z.div_le_mono; lia. }
  unfold heap_ok. rewrite Ht, Epl, Eph. split; [done|]. split; [|split; [|split]].
  - apply (chunks_sorted_ext (rmem r)); [|done]. intros d Hd. specialize (Hsz d Hd). unfold chunk_end in Hsz. lia.
  - intros d Hd. rewrite Hsz by done. destruct (decide (d = c)) as [->|]; [done|].
    apply elem_of_drop_mid in Hd; [|done]. specialize (H3 d Hd). lia.
  - intros i. rewrite marked_mark_pages by done.
    transitivity (exists d, d ∈ l1 ++ c :: l2 /\ Page d <= i < Page (chunk_end (rmem r) d)).
    + rewrite (pages_mid (fun d => Page d <= i < Page (chunk_end (rmem r) d))), <- H4.
      destruct (Z.leb_spec (Page c) i), (Z.ltb_spec i (Page (chunk_end (rmem r) c))); cbn [andb];
        (split; [try (intros; left; lia); now right | first [intros [?|?]; [lia|done] | done]]).
    + split; intros (d & Hd & Hi); exists d; (split; [done|]); [rewrite Hsz by done|rewrite Hsz in Hi by done]; done.
  - intros i. rewrite marked_mark_pages by done.
    destruct (Z.leb_spec (Page c) i), (Z.ltb_spec i (Page (chunk_end (rmem r) c))); cbn [andb]; try (intros; apply H5; done); lia.
Qed.

(** The other parts of the state. *)
Definition chained (r r' : runtime) (size : Z) : Prop :=
  stat_heap_chunks (mjr r') = stat_heap_chunks (mjr r) + 1 /\
  stat_heap_size (mjr r') = stat_heap_size (mjr r) + size /\
  frl r' = frl r /\ gc_sweep_hp (mjr r') = gc_sweep_hp (mjr r).

Lemma chain_chunk_spec fuel r l c :
  heap_ok r l -> fresh_chunk (rmem r) l c -> page_low (mjr r) <= Page c ->
  Page (chunk_end (rmem r) c) <= page_high (mjr r) -> (length l < fuel)%nat ->
  exists r' l1 l2, chain_chunk fuel c r = Ok 0 r' /\ l = l1 ++ l2 /\ heap_ok r' (l1 ++ c :: l2) /\
    links_only (l1 ++ c :: l2) (rmem r) (rmem r') /\ chained r r' (Chunk_size (rmem r) c).
Proof.
  intros Hok Hfr Hlo Hhi Hf. pose proof Hok as (H1 & H2 & _).
  destruct (find_chunk_spec (rmem r) c l fuel 0 _ _ H1 H2) as (l1 & l2 & q & cur & -> & Hfind & Hl1 & Hl2 & Hlink);
    try done; [now apply (fresh_not_in (rmem r))|].
  unfold chain_chunk. rsimp. rewrite Hfind. rsimp. eexists _, l1, l2. split; [reflexivity|]. split; [done|].
  set (m1 := set_Chunk_next (rmem r) c cur) in *.
  set (r1 := set_chunk_link q c (set_rmem m1 (set_page_table (mark_pages c (c + Chunk_size (rmem r) c) In_heap (page_table (mjr r))) r))).
  assert (Hr1 : chunks (rmem r1) (heap_start (mjr r1)) (l1 ++ c :: l2) /\
    links_only (l1 ++ c :: l2) (rmem r) (rmem r1) /\ heap_end (mjr r1) = heap_end (mjr r) /\
    page_table (mjr r1) = mark_pages c (chunk_end (rmem r) c) In_heap (page_table (mjr r)) /\
    page_low (mjr r1) = page_low (mjr r) /\ page_high (mjr r1) = page_high (mjr r) /\
    stat_heap_chunks (mjr r1) = stat_heap_chunks (mjr r) /\ stat_heap_size (mjr r1) = stat_heap_size (mjr r) /\
    frl r1 = frl r /\ gc_sweep_hp (mjr r1) = gc_sweep_hp (mjr r)).
  { unfold r1, set_chunk_link. destruct l1 as [|e l1].
    - destruct Hlink as [-> Hch]. rsimp. cbn [Z.eqb]. rsimp. splits; try done.
      intros a Ha. apply ld_st_ne. specialize (Ha c (list_elem_of_here _ _)). lia.
    - destruct Hlink as [Hq Hch].
      destruct (chunks_sorted_elem _ _ _ q H2) as [Hq1 _]; [apply elem_of_app; now left|].
      destruct (Z.eqb_spec q 0); [lia|]. rsimp. splits; try done.
      intros a Ha. unfold m1, set_Chunk_next. rewrite !ld_st_ne; [done|..].
      + specialize (Ha c (elem_of_mid _ _ _)). lia.
      + specialize (Ha q). specialize (Ha ltac:(apply elem_of_app; now left)). lia. }
  clearbody r1. destruct Hr1 as (A1 & A2 & A3 & A4 & A5 & A6 & A7 & A8 & A9 & A10).
  unfold chained.
  destruct (Z.ltb_spec (heap_end (mjr r1)) (c + Chunk_size (rmem r) c)); rsimp;
    (destruct (Z.ltb_spec (stat_top_heap_size (mjr r1)) (stat_heap_size (mjr r1) + Chunk_size (rmem r) c)); rsimp;
     splits; try done; try lia;
     apply (heap_ok_insert r); rsimp; try done; unfold chunk_end in *; try lia).
Qed.

(** What [add_to_heap] leaves: on success the chunk is in the chain and its pages in
    the table, on error the heap is what it was. *)
Lemma add_to_heap_spec fuel r l c :
  heap_ok r l -> fresh_chunk (rmem r) l c -> (length l < fuel)%nat ->
  exists v r', add_to_heap fuel c r = Ok v r' /\
    ((v = 0 /\ exists l1 l2, l = l1 ++ l2 /\ heap_ok r' (l1 ++ c :: l2) /\
        links_only (l1 ++ c :: l2) (rmem r) (rmem r') /\ chained r r' (Chunk_size (rmem r) c)) \/
     (v = -1 /\ heap_ok r' l /\ same_heap r r' /\
        forall a b la, malloc_answers r = a :: b :: la -> a = 0 \/ b = 0)).
Proof.
  intros Hok Hfr Hf. unfold add_to_heap, get. unfold bind at 1.
  destruct (grow_page_low_spec r l c Hok) as (ok & r1 & E1 & (G1 & G2 & G3 & G4) & Hlo).
  unfold bind at 1. rewrite E1. assert (Hok1 : heap_ok r1 l) by now apply (heap_ok_same r).
  destruct ok; cbn [negb].
  2: { exists (-1), r1. split; [done|]. right. splits; try done. intros a b la Ha. rewrite Ha in G4.
       destruct G4 as [[_ G4]|[_ G4]]; [done|]. destruct (Z.eqb_spec a 0); [now left|done]. }
  destruct (grow_page_high_spec r1 l (c + Chunk_size (rmem r) c) Hok1) as (ok & r2 & E2 & (F1 & F2 & F3 & F4) & F5 & Hhi).
  unfold bind. rewrite E2. assert (Hok2 : heap_ok r2 l) by now apply (heap_ok_same r1).
  pose proof (same_heap_trans _ _ _ G1 F1) as Hsame. destruct ok; cbn [negb].
  2: { exists (-1), r2. split; [done|]. right. splits; try done. intros a b la Ha. rewrite Ha in G4.
       destruct G4 as [[G4 _]|[G4 G5]]; rewrite G4 in F4; destruct F4 as [[_ F4]|[_ F4]]; try done.
       - destruct (Z.eqb_spec a 0); [now left|done].
       - destruct (Z.eqb_spec b 0); [now right|done]. }
  pose proof Hsame as (Hm & _ & _ & Hz & Hk & Hfrl & Hsw & _).
  destruct (chain_chunk_spec fuel r2 l c) as (r' & l1 & l2 & E3 & -> & Hok' & Hl & Hc1 & Hc2 & Hc3 & Hc4); try done.
  - now rewrite Hm.
  - specialize (Hlo eq_refl). lia.
  - rewrite Hm. now apply Hhi.
  - exists 0, r'. split; [done|]. left. split; [done|]. exists l1, l2. rewrite Hm in Hl, Hc2.
    unfold chained. splits; try done; try congruence.
Qed.

(** C13: [add_to_heap] puts a new chunk in the heap.  On success the chunk is chained
    at its place, the bounds and the page table describe exactly the chunks of the
    chain, so that [Is_in_heap] holds of the old addresses and of the chunk's, and
    only link words are written; the result is an error only when [malloc] refuses
    the memory for a larger page table, and then the heap is what it was. *)
Theorem add_to_heap_correct fuel r l c :
  heap_ok r l -> fresh_chunk (rmem r) l c -> (length l < fuel)%nat ->
  exists v r', add_to_heap fuel c r = Ok v r' /\
    ((v = 0 /\ (exists l1 l2, l = l1 ++ l2 /\ heap_ok r' (l1 ++ c :: l2) /\
        links_only (l1 ++ c :: l2) (rmem r) (rmem r')) /\
        stat_heap_size (mjr r') = stat_heap_size (mjr r) + Chunk_size (rmem r) c /\
        forall p, Is_in_heap (mjr r') p = true <->
          Is_in_heap (mjr r) p = true \/ c <= p < chunk_end (rmem r) c) \/
     (v = -1 /\ heap_ok r' l /\ rmem r' = rmem r /\
        (forall p, Is_in_heap (mjr r') p = true <-> Is_in_heap (mjr r) p = true) /\
        forall a b la, malloc_answers r = a :: b :: la -> a = 0 \/ b = 0)).
Proof.
  intros Hok Hfr Hf.
  destruct (add_to_heap_spec fuel r l c Hok Hfr Hf) as (v & r' & E & [(-> & l1 & l2 & -> & Hok' & Hl & Hc)|(-> & Hok' & Hs & Hm)]);
    eexists _, r'; (split; [exact E|]).
  - left. split; [done|]. split; [now exists l1, l2|]. split; [apply Hc|]. intros p.
    rewrite (heap_ok_Is_in_heap _ _ _ Hok'), (heap_ok_Is_in_heap _ _ _ Hok).
    rewrite (pages_mid (fun d => d <= p < chunk_end (rmem r') d)).
    pose proof Hok as (_ & Hs & _).
    assert (Hsz : forall d, chunk_ok (rmem r) d -> chunk_end (rmem r') d = chunk_end (rmem r) d).
    { intros d Hd. unfold chunk_end, Chunk_size. rewrite (Hl (d - 16)); [done|]. intros e He.
      destruct Hok' as (_ & Hs' & _). destruct (chunks_sorted_elem _ _ _ _ Hs' He) as (_ & He' & _). destruct Hd. zlia. }
    rewrite (Hsz c) by apply Hfr. rewrite (chunks_cover_ext (rmem r) (rmem r') 1 (l1 ++ l2)) by done. tauto.
  - right. pose proof Hs as (Hmem & Hs1 & Hs2 & _ & _ & _ & _ & Ht). splits; try done. intros p.
    rewrite !Is_in_heap_marked. now rewrite Hs1, Hs2, Ht.
Qed.

Lemma chunks_sorted_disjoint m c l1 l2 d : forall lo,
  chunks_sorted m lo (l1 ++ c :: l2) -> d ∈ l1 ++ l2 -> chunk_end m d <= c - 32 \/ chunk_end m c <= d - 32.
Proof.
  induction l1 as [|e l1 IH]; intros lo (H1 & H2 & H3) Hd.
  - right. now destruct (chunks_sorted_elem _ _ _ _ H3 Hd).
  - apply elem_of_cons in Hd as [->|Hd]; [left|now apply (IH _ H3)].
    now destruct (chunks_sorted_elem _ _ _ c H3 (elem_of_mid _ _ _)).
Qed.

Lemma pages_disjoint m d c i :
  chunk_ok m d -> chunk_ok m c -> chunk_end m d <= c - 32 \/ chunk_end m c <= d - 32 ->
  Page c <= i < Page (chunk_end m c) -> ~ Page d <= i < Page (chunk_end m d).
Proof. unfold chunk_ok, chunk_end. rewrite !Page_eq. zlia. Qed.

(** The chain without a chunk, and the table without its pages. *)
Lemma heap_ok_remove r r' l1 l2 c :
  heap_ok r (l1 ++ c :: l2) ->
  chunks (rmem r') (heap_start (mjr r')) (l1 ++ l2) -> links_only l1 (rmem r) (rmem r') ->
  heap_end (mjr r') = heap_end (mjr r) ->
  page_table (mjr r') = mark_pages c (chunk_end (rmem r) c) Not_in_heap (page_table (mjr r)) ->
  page_low (mjr r') = page_low (mjr r) -> page_high (mjr r') = page_high (mjr r) ->
  heap_ok r' (l1 ++ l2).
Proof.
  intros (H1 & H2 & H3 & H4 & H5) Hch Hlinks He Ht Epl Eph.
  pose proof (chunks_sorted_remove _ _ _ _ _ H2) as Hs.
  destruct (chunks_sorted_elem _ _ _ c H2 (elem_of_mid _ _ _)) as [_ Hcok].
  assert (Hsz : forall d, d ∈ l1 ++ l2 -> Chunk_size (rmem r') d = Chunk_size (rmem r) d).
  { intros d Hd. apply Hlinks. intros e Hin. destruct (chunks_sorted_elem _ _ _ _ Hs Hd) as (_ & Hm & _).
    destruct (chunks_sorted_elem _ _ _ e Hs) as (_ & Hm' & _); [apply elem_of_app; now left|zlia]. }
  assert (Hpg : Page c <= Page (chunk_end (rmem r) c)).
  { rewrite !Page_eq. destruct Hcok as (_ & _ & ?). unfold chunk_end. apply Z.div_le_mono; lia. }
  unfold heap_ok. rewrite Ht, Epl, Eph, He. split; [done|]. split; [|split; [|split]].
  - now apply (chunks_sorted_ext (rmem r)).
  - intros d Hd. unfold chunk_end. rewrite Hsz by done. now apply H3, elem_of_skip_mid.
  - intros i. rewrite marked_mark_pages by done.
    transitivity (exists d, d ∈ l1 ++ l2 /\ Page d <= i < Page (chunk_end (rmem r) d)).
    2: { split; intros (d & Hd & Hi); exists d; (split; [done|]); unfold chunk_end in *; [rewrite Hsz by done|rewrite Hsz in Hi by done]; done. }
    pose proof (pages_mid (fun d => Page d <= i < Page (chunk_end (rmem r) d)) c l1 l2) as Hmid.
    rewrite <- H4 in Hmid.
    destruct (Z.leb_spec (Page c) i), (Z.ltb_spec i (Page (chunk_end (rmem r) c))); cbn [andb];
      try (rewrite Hmid; split; [intros [?|?]; [lia|done]|now right]).
    split; [done|]. intros (d & Hd & Hi). exfalso. destruct (chunks_sorted_elem _ _ _ _ Hs Hd) as [_ Hd'].
    apply (pages_disjoint (rmem r) d c i); try done. now apply (chunks_sorted_disjoint _ _ l1 l2 _ 1).
  - intros i. rewrite marked_mark_pages by done.
    destruct (Z.leb_spec (Page c) i), (Z.ltb_spec i (Page (chunk_end (rmem r) c))); cbn [andb]; try (intros; apply H5; done); done.
Qed.

(** [shrink_heap] takes a chunk other than the first out of the heap: the chain
    without it and the page table without its pages still describe the heap, whose
    addresses are the old ones less those of the chunk, and only links are written.
    The first chunk is never removed. *)
Theorem shrink_heap_correct fuel r l1 c l2 :
  heap_ok r (l1 ++ c :: l2) -> (length l1 < fuel)%nat ->
  match l1 with
  | [] => shrink_heap fuel c r = Ok tt r
  | _ => exists r', shrink_heap fuel c r = Ok tt r' /\ heap_ok r' (l1 ++ l2) /\
      links_only l1 (rmem r) (rmem r') /\
      stat_heap_size (mjr r') = stat_heap_size (mjr r) - Chunk_size (rmem r) c /\
      forall p, Is_in_heap (mjr r') p = true <-> Is_in_heap (mjr r) p = true /\ ~ c <= p < chunk_end (rmem r) c
  end.
Proof.
  intros Hok Hf. pose proof Hok as (H1 & H2 & _).
  destruct (find_chunk_link_spec (rmem r) c l1 l2 fuel 0 _ _ H1 H2 Hf) as (q & Hfind & Hq).
  unfold shrink_heap. destruct l1 as [|d0 l1'] eqn:El1; [destruct H1 as [-> _]; now rewrite Z.eqb_refl|].
  rewrite <- El1 in *. destruct Hq as [Hq Hch].
  destruct (chunks_sorted_elem _ _ _ q H2) as [Hq1 (Hqm & _)]; [apply elem_of_app; now left|].
  destruct (Z.eqb_spec c (heap_start (mjr r))) as [Ec|_].
  { exfalso. rewrite El1 in H1, H2. destruct H1 as [Hd0 _]. destruct H2 as (_ & Hd & Hs).
    pose proof (chunks_sorted_later _ _ _ c Hs Hd (elem_of_mid _ _ _)). lia. }
  rsimp. rewrite Hfind. unfold set_chunk_link. destruct (Z.eqb_spec q 0); [lia|]. rsimp.
  eexists. split; [reflexivity|].
  set (r' := set_page_table _ _).
  assert (Hlk : links_only l1 (rmem r) (rmem r')) by (intros a Ha; apply ld_st_ne; specialize (Ha q Hq); lia).
  assert (Hok' : heap_ok r' (l1 ++ l2)) by (apply (heap_ok_remove r r' l1 l2 c); done).
  splits; try done. intros p.
  rewrite (heap_ok_Is_in_heap _ _ _ Hok'), (heap_ok_Is_in_heap _ _ _ Hok).
  rewrite (pages_mid (fun d => d <= p < chunk_end (rmem r) d)).
  pose proof (chunks_sorted_remove _ _ _ _ _ H2) as Hs.
  rewrite (chunks_cover_ext (rmem r) (rmem r') 1 (l1 ++ l2)); [|done|].
  - split; [|tauto]. intros (d & Hd & Hp). split; [right; now exists d|].
    pose proof (chunks_sorted_disjoint _ _ l1 l2 _ 1 H2 Hd). lia.
  - intros d (Hd & _). unfold chunk_end. f_equal. now apply Chunk_size_set_next.
Qed.

(** ** The heap with its free list *)

Section Arena.
Context (Fl_head : Z).

(** The free list as [freelist.c] sees it. *)
Definition fl_state (r : runtime) : freelist :=
  MkFl (rmem r) (fl_prev (frl r)) (fl_last (frl r)) (fl_merge (frl r)) (fl_cur_size (frl r)) (last_fragment (frl r)).

(** The invariant: the chunks, the free list, every free block inside a chunk, and
    the sentinel away from the chunks. *)
Definition arena (r : runtime) (cl l : list Z) : Prop :=
  heap_ok r cl /\ fl_inv Fl_head (fl_state r) l /\
  (forall b, b ∈ l -> exists c, c ∈ cl /\ c <= b - 8 /\ block_end (rmem r) b <= chunk_end (rmem r) c) /\
  (forall c, c ∈ cl -> chunk_end (rmem r) c <= B64 /\
     (Fl_head + 16 <= c - 32 \/ chunk_end (rmem r) c <= Fl_head - 16)).

(** The words the invariant depends on. *)
Definition arena_words (cl l : list Z) (a : Z) : Prop :=
  (exists c, c ∈ cl /\ (a = c - 8 \/ a = c - 16)) \/ a ∈ Fl_head :: l \/ (exists b, b ∈ l /\ a = b - 8).

Lemma block_end_ext m m' b : Hd_val m' b = Hd_val m b -> block_end m' b = block_end m b.
Proof. unfold block_end, Wosize_val. now intros ->. Qed.

Lemma heap_ok_ext r r' cl :
  heap_ok r cl -> mjr r' = mjr r ->
  (forall c, c ∈ cl -> ld (rmem r') (c - 8) = ld (rmem r) (c - 8) /\ ld (rmem r') (c - 16) = ld (rmem r) (c - 16)) ->
  heap_ok r' cl.
Proof.
  intros (H1 & H2 & H3 & H4 & H5) Hj Hm. unfold heap_ok. rewrite Hj.
  assert (Hsz : forall c, c ∈ cl -> Chunk_size (rmem r') c = Chunk_size (rmem r) c) by (intros c Hc; apply Hm, Hc).
  split; [apply (chunks_ext (rmem r)); [intros c Hc; apply Hm, Hc|done]|].
  split; [now apply (chunks_sorted_ext (rmem r))|]. split; [|split; [|done]].
  - intros c Hc. unfold chunk_end. rewrite Hsz by done. now apply H3.
  - intros i. rewrite H4. split; intros (c & Hc & Hi); exists c; (split; [done|]); unfold chunk_end in *;
      [rewrite Hsz by done|rewrite Hsz in Hi by done]; done.
Qed.

Lemma fl_inv_ext r r' l :
  fl_inv Fl_head (fl_state r) l -> frl r' = frl r ->
  (forall b, b ∈ Fl_head :: l -> ld (rmem r') b = ld (rmem r) b) ->
  (forall b, b ∈ l -> ld (rmem r') (b - 8) = ld (rmem r) (b - 8)) ->
  fl_inv Fl_head (fl_state r') l.
Proof.
  intros (H1 & H2 & H3 & H4 & H5) Hf Hl Hh. unfold fl_inv, fl_state in *. rewrite Hf. cbn [fmem fl_prev fl_merge fl_cur_size] in *.
  assert (E : words_in (rmem r') l = words_in (rmem r) l) by (apply words_in_ext; intros b Hb; now apply Hh).
  rewrite E. splits; try done. now apply (fl_list_ext Fl_head (rmem r)).
Qed.

Lemma arena_ext r r' cl l :
  arena r cl l -> mjr r' = mjr r -> frl r' = frl r ->
  (forall a, arena_words cl l a -> ld (rmem r') a = ld (rmem r) a) -> arena r' cl l.
Proof.
  intros (H1 & H2 & H3 & H4) Hj Hf Hm.
  assert (Hce : forall c, c ∈ cl -> chunk_end (rmem r') c = chunk_end (rmem r) c).
  { intros c Hc. unfold chunk_end, Chunk_size. rewrite Hm; [done|]. left. eauto. }
  split; [|split; [|split]].
  - apply (heap_ok_ext r); try done. intros c Hc. split; apply Hm; left; eauto.
  - apply (fl_inv_ext r); try done; intros b Hb; apply Hm; right; [now left|right; eauto].
  - intros b Hb. destruct (H3 b Hb) as (c & Hc & Hcb & Hbe). exists c.
    rewrite Hce by done. rewrite (block_end_ext (rmem r)); [done|]. apply Hm. right. right. eauto.
  - intros c Hc. rewrite Hce by done. now apply H4.
Qed.

(** The words of the blocks of the free list, and the sentinel, are no chunk head's. *)
Lemma arena_head_apart r cl l c a :
  arena r cl l -> c ∈ cl -> c - 32 <= a < c ->
  (a ∉ Fl_head :: l) /\ forall b, b ∈ l -> ~ b - 8 <= a < block_end (rmem r) b.
Proof.
  intros ((_ & Hs & _) & ((_ & Hb & _ & _) & _) & H3 & H4) Hc Ha.
  destruct (chunks_sorted_elem _ _ _ _ Hs Hc) as [_ (_ & _ & Hcs)].
  assert (Hblk : forall b, b ∈ l -> ~ b - 8 <= a < block_end (rmem r) b).
  { intros b Hb' Hx. destruct (H3 b Hb') as (d & Hd & Hd1 & Hd2).
    destruct (decide (d = c)) as [->|Hne]; [lia|]. apply list_elem_of_split in Hc as (l1 & l2 & ->).
    apply elem_of_drop_mid in Hd; [|done]. pose proof (chunks_sorted_disjoint _ _ _ _ _ _ Hs Hd).
    unfold chunk_end in *. lia. }
  split; [|done]. intros [->|Hin]%elem_of_cons.
  - destruct (H4 c Hc) as [_ Hh]. unfold chunk_end in Hh. lia.
  - destruct (blocks_elem _ _ _ a Hb Hin) as [_ Hf%free_block_end]. apply (Hblk a Hin). cbn [fmem fl_state] in Hf. lia.
Qed.

(** A region of [n] words at [hp]: in a chunk, and away from what is free. *)
Definition granted (r : runtime) (cl l : list Z) (hp n : Z) : Prop :=
  region_free Fl_head (rmem r) l hp n /\
  exists c, c ∈ cl /\ c <= hp /\ hp + 8 * n <= chunk_end (rmem r) c.

Lemma fl_allocate_M_spec fuel wo r cl l :
  arena r cl l -> 1 <= wo -> (length l < fuel)%nat ->
  exists hp r', fl_allocate_M Fl_head fuel wo r = Ok hp r' /\ mjr r' = mjr r /\ mnr r' = mnr r /\
    glb r' = glb r /\ malloc_answers r' = malloc_answers r /\
    ((hp <> 0 /\ exists l', l' ⊆ l /\ arena r' cl l' /\ granted r' cl l' hp (wo + 1) /\
        (exists b, b ∈ l /\ b - 8 <= hp /\ hp + 8 * (wo + 1) = block_end (rmem r) b) /\
        (forall b, b ∈ l' -> block_end (rmem r') b <= block_end (rmem r) b) /\
        forall a, a ∉ Fl_head :: l -> (forall b, b ∈ l -> a <> b - 8) -> ld (rmem r') a = ld (rmem r) a) \/
     (hp = 0 /\ Forall (fun b => Wosize_val (rmem r) b < wo) l /\ arena r' cl l /\ rmem r' = rmem r /\
        fl_last (frl r') = last_of Fl_head l)).
Proof.
  intros Har Hwo Hf. pose proof Har as (H1 & H2 & H3 & H4).
  destruct (fl_allocate_spec Fl_head fuel wo _ _ H2 Hwo Hf) as (hp & s' & E & Hres).
  unfold fl_allocate_M, on_freelist. unfold fl_state in E. rewrite E.
  set (r' := set_frl s' (set_rmem (fmem s') r)).
  assert (Es : fl_state r' = s') by now destruct s'.
  exists hp, r'. split; [done|]. split; [done|]. split; [done|]. split; [done|]. split; [done|].
  destruct Hres as [(Hhp & l1 & cur & l2 & l' & -> & Hw & Hinv' & Hreg & Hlo & Hhi & Hsub & Hfr)|(-> & Hsmall & Hinv' & Hm & Hlast)].
  2: { right. split; [done|]. split; [done|]. split; [|done]. assert (rmem r' = rmem r) as Em by done.
       unfold arena. rewrite Em, Es. split; [|done]. apply (heap_ok_ext r); try done. intros. now rewrite Em. }
  left. split; [done|]. exists l'. split; [done|].
  assert (Em : fmem s' = rmem r') by done. assert (Hj : mjr r' = mjr r) by done. clearbody r'.
  cbn [fmem fl_state] in Hfr, Hw, Hhi. rewrite Em in Hreg, Hfr.
  destruct (H3 cur (elem_of_mid _ _ _)) as (c & Hc & Hc1 & Hc2).
  destruct H2 as (Hlist & _). cbn [fmem fl_state] in Hlist. pose proof Hlist as (_ & Hbl & _).
  assert (Hout : forall a, a ∉ Fl_head :: l1 ++ cur :: l2 -> a <> cur - 8 -> ld (rmem r') a = ld (rmem r) a).
  { intros a Ha Hne. apply Hfr; [|done]. intros [->|Hin]%elem_of_cons; apply Ha; [apply list_elem_of_here|].
    apply list_elem_of_further, elem_of_app. now left. }
  assert (Hchunks : forall d, d ∈ cl -> forall a, d - 32 <= a < d -> ld (rmem r') a = ld (rmem r) a).
  { intros d Hd a Ha. destruct (arena_head_apart _ _ _ _ _ Har Hd Ha) as [Ha1 Ha2]. apply Hout; [done|].
    intros ->. apply (Ha2 cur (elem_of_mid _ _ _)). lia. }
  assert (Hce : forall d, d ∈ cl -> chunk_end (rmem r') d = chunk_end (rmem r) d).
  { intros d Hd. unfold chunk_end, Chunk_size. rewrite (Hchunks d Hd); [done|lia]. }
  assert (Hends : forall b, b ∈ l' -> block_end (rmem r') b <= block_end (rmem r) b).
  { intros b Hb. destruct (decide (b = cur)) as [->|Hne].
    - destruct Hreg as [Hreg _]. destruct (Hreg cur Hb); lia.
    - apply Hsub in Hb. rewrite (block_end_ext (rmem r)); [lia|]. unfold Hd_val, Hp_val, sizeof_value. apply Hout; [|lia].
      intros Hin. now apply (header_not_link Fl_head (rmem r) _ b _ Hlist Hb Hin). }
  assert (Harena : arena r' cl l').
  { unfold arena. rewrite Es. split; [|split; [done|split]].
    - apply (heap_ok_ext r); try done. intros d Hd. split; apply (Hchunks d Hd); lia.
    - intros b Hb. destruct (H3 b (Hsub b Hb)) as (d & Hd & Hd1 & Hd2). exists d.
      rewrite Hce by done. specialize (Hends b Hb). splits; try done; lia.
    - intros d Hd. rewrite Hce by done. now apply H4. }
  split; [done|]. split; [|split].
  - split; [done|]. exists c. rewrite Hce by done. splits; try done; lia.
  - exists cur. splits; try done. apply elem_of_mid.
  - split; [done|]. intros a Ha Hb. apply Hout; [done|]. apply Hb, elem_of_mid.
Qed.

(** Disjoint blocks have no more words than there is room for them. *)
Lemma words_in_bound m hi l : forall lo,
  blocks m lo l -> (forall b, b ∈ l -> block_end m b <= hi) -> lo <= hi -> 8 * words_in m l <= hi - lo.
Proof.
  induction l as [|b l IH]; intros lo Hb He Hlo; [cbn; lia|]. destruct Hb as (H1 & H2 & H3).
  change (words_in m (b :: l)) with (Whsize_val m b + words_in m l).
  specialize (IH _ H3 (fun c Hc => He c (list_elem_of_further _ _ _ Hc)) (He b (list_elem_of_here _ _))).
  unfold block_end, Whsize_val, Whsize_wosize in *. lia.
Qed.

Lemma fl_add_block_M_spec fuel bp c r cl l :
  arena r cl l -> fl_last (frl r) = last_of Fl_head l -> (length l < fuel)%nat ->
  free_block (rmem r) bp -> c ∈ cl -> c <= bp - 8 -> block_end (rmem r) bp <= chunk_end (rmem r) c ->
  (forall b, b ∈ l -> block_end (rmem r) b <= bp - 8 \/ block_end (rmem r) bp <= b - 8) ->
  exists r' l1 l2, fl_add_block_M Fl_head fuel bp r = Ok tt r' /\ mjr r' = mjr r /\ mnr r' = mnr r /\
    l = l1 ++ l2 /\ arena r' cl (l1 ++ bp :: l2) /\ Hd_val (rmem r') bp = Hd_val (rmem r) bp /\
    (forall b, b ∈ l -> Hd_val (rmem r') b = Hd_val (rmem r) b) /\
    (forall a, a ∉ Fl_head :: l -> a <> bp -> ld (rmem r') a = ld (rmem r) a).
Proof.
  intros Har Hlast Hf Hfree Hc Hcb Hcbe Hdis. pose proof Har as (H1 & H2 & H3 & H4).
  pose proof H1 as (_ & Hs & _). destruct (chunks_sorted_elem _ _ _ _ Hs Hc) as [Hc33 _].
  destruct (H4 c Hc) as [Hc64 Hapart]. pose proof (free_block_end _ _ Hfree) as Hbe.
  assert (Hha : head_apart Fl_head (rmem r) bp) by (unfold head_apart; lia).
  assert (Hw : words_in (rmem r) l + Whsize_val (rmem r) bp < B64).
  { pose proof H2 as ((_ & Hb & _) & _). cbn [fmem fl_state] in Hb.
    assert (8 * words_in (rmem r) l <= B64 - 8).
    { apply (words_in_bound _ _ _ 8 Hb); [|lia]. intros b Hbl. destruct (H3 b Hbl) as (d & Hd & _ & ?).
      destruct (H4 d Hd). lia. }
    destruct Hfree as [[? Hmax] _]. rewrite Max_wosize_eq in Hmax. unfold Whsize_val, Whsize_wosize in *. lia. }
  destruct (fl_add_block_spec Fl_head fuel bp (gc_sweep_hp (mjr r)) (fl_state r) l H2 Hlast Hf Hfree Hha ltac:(lia) Hdis Hw)
    as (s' & l1 & l2 & E & -> & Hfits & Hinv & Hfr).
  unfold fl_add_block_M, on_freelist. unfold fl_state in E. rewrite E.
  set (r' := set_frl s' (set_rmem (fmem s') r)). assert (Es : fl_state r' = s') by now destruct s'.
  exists r', l1, l2. split; [done|]. split; [done|]. split; [done|]. split; [done|].
  assert (Em : fmem s' = rmem r') by done. assert (Hj : mjr r' = mjr r) by done. clearbody r'.
  cbn [fmem fl_state] in *. rewrite Em in Hfr. destruct H2 as (Hlist & _). cbn [fmem fl_state] in Hlist.
  assert (Hout : forall a, a ∉ Fl_head :: l1 ++ l2 -> a <> bp -> ld (rmem r') a = ld (rmem r) a).
  { intros a Ha Hne. apply Hfr; [|done]. intros [->|Hin]%elem_of_cons; apply Ha; [apply list_elem_of_here|].
    apply list_elem_of_further, elem_of_app. now left. }
  assert (Hhd : Hd_val (rmem r') bp = Hd_val (rmem r) bp).
  { apply Hout; [|unfold Hp_val, sizeof_value; lia]. intros Hin.
    now destruct (fits_link Fl_head _ _ _ _ _ Hlist Hfits ltac:(lia) Hin). }
  assert (Hchunks : forall d, d ∈ cl -> forall a, d - 32 <= a < d -> ld (rmem r') a = ld (rmem r) a).
  { intros d Hd a Ha. destruct (arena_head_apart _ _ _ _ _ Har Hd Ha) as [Ha1 Ha2]. apply Hout; [done|].
    intros ->. destruct (decide (d = c)) as [->|Hne]; [lia|].
    destruct (chunks_sorted_elem _ _ _ _ Hs Hd) as [_ (_ & _ & ?)].
    apply list_elem_of_split in Hd as (k1 & k2 & ->).
    apply (elem_of_drop_mid d) in Hc; [|done]. pose proof (chunks_sorted_disjoint _ _ _ _ _ _ Hs Hc).
    unfold chunk_end in *. lia. }
  assert (Hce : forall d, d ∈ cl -> chunk_end (rmem r') d = chunk_end (rmem r) d).
  { intros d Hd. unfold chunk_end, Chunk_size. rewrite (Hchunks d Hd); [done|lia]. }
  assert (Hhds : forall b, b ∈ l1 ++ l2 -> Hd_val (rmem r') b = Hd_val (rmem r) b).
  { intros b Hb. apply Hout; unfold Hp_val, sizeof_value.
    - intros Hin. now apply (header_not_link Fl_head (rmem r) _ b _ Hlist Hb Hin).
    - destruct Hlist as (_ & Hbl & _). destruct (blocks_elem _ _ _ b Hbl Hb) as [_ ?%free_block_end]. destruct (Hdis b Hb); lia. }
  split; [|done]. unfold arena. rewrite Es. split; [|split; [done|split]].
  - apply (heap_ok_ext r); try done. intros d Hd. split; apply (Hchunks d Hd); lia.
  - intros b Hb. destruct (decide (b = bp)) as [->|Hne].
    + exists c. rewrite Hce by done. now rewrite (block_end_ext (rmem r)).
    + apply elem_of_drop_mid in Hb; [|done]. destruct (H3 b Hb) as (d & Hd & ? & ?). exists d. rewrite Hce by done.
      now rewrite (block_end_ext (rmem r)) by now apply Hhds.
  - intros d Hd. rewrite Hce by done. now apply H4.
Qed.

(** The size of the chunk for a block of [wo] words. *)
Definition chunk_request (r : runtime) (wo : Z) : Z :=
  match round_heap_chunk_size (Bhsize_wosize wo) r with Ok size _ => size | _ => 0 end.

Lemma chunk_request_spec r wo :
  1 <= wo <= Max_wosize -> 0 <= major_heap_increment (mjr r) <= Heap_chunk_max ->
  round_heap_chunk_size (Bhsize_wosize wo) r = Ok (chunk_request r wo) r /\ chunk_request r wo mod 4096 = 0 /\
  Bhsize_wosize wo <= chunk_request r wo /\ 4096 <= chunk_request r wo <= Heap_chunk_max.
Proof.
  rewrite Max_wosize_eq. intros Hwo Hinc.
  assert (Hbh : Bhsize_wosize wo = 8 * wo + 8) by (unfold Bhsize_wosize, Bsize_wsize, Whsize_wosize, sizeof_value; lia).
  destruct (round_heap_chunk_size_spec (Bhsize_wosize wo) r) as [Hround _]; [lia|done|].
  destruct Hround as (size & Er & H); [rewrite Heap_chunk_max_eq; lia|].
  unfold chunk_request. rewrite Er. done.
Qed.

(** What [malloc] promises for a request of [n] bytes: a block of that many bytes
    that overlaps neither the chunks nor the static data. *)
Definition malloc_fresh (r : runtime) (cl : list Z) (n : Z) : Prop :=
  match malloc_answers r with
  | [] => True
  | raw :: _ => raw = 0 \/
      (0 < raw /\ raw + n <= B64 /\
       (forall d, d ∈ cl -> chunk_end (rmem r) d <= raw \/ raw + n <= d - 32) /\
       (Fl_head + 16 <= raw \/ raw + n <= Fl_head - 16))
  end.

(** [malloc] refused one of the three requests of an expansion of the heap. *)
Definition malloc_refuses (r : runtime) : Prop :=
  forall a b c la, malloc_answers r = a :: b :: c :: la -> a = 0 \/ b = 0 \/ c = 0.

(** No word of the invariant is in memory that meets no chunk and not the sentinel. *)
Lemma arena_words_out r cl l lo hi a :
  arena r cl l -> arena_words cl l a ->
  (forall d, d ∈ cl -> chunk_end (rmem r) d <= lo \/ hi <= d - 32) ->
  Fl_head + 16 <= lo \/ hi <= Fl_head - 16 -> ~ lo <= a < hi.
Proof.
  intros ((_ & Hs & _) & ((_ & Hb & _ & _) & _) & H3 & H4) Ha Hcl Hfl.
  assert (Hblk : forall b, b ∈ l -> forall a, b - 8 <= a <= b -> ~ lo <= a < hi).
  { intros b Hbl x Hx. destruct (H3 b Hbl) as (d & Hd & ? & ?). specialize (Hcl d Hd).
    destruct (blocks_elem _ _ _ b Hb Hbl) as [_ Hf%free_block_end]. cbn [fmem fl_state] in Hf. lia. }
  destruct Ha as [(c & Hc & Ha)|[Ha|(b & Hbl & ->)]].
  - specialize (Hcl c Hc). destruct (chunks_sorted_elem _ _ _ _ Hs Hc) as [_ (_ & _ & ?)]. unfold chunk_end in *. lia.
  - apply elem_of_cons in Ha as [->|Ha]; [lia|]. apply (Hblk a Ha). lia.
  - apply (Hblk b Hbl). lia.
Qed.

(** The chunk [alloc_for_heap] makes and the header [expand_heap] gives its block. *)
Lemma alloc_chunk_spec r cl l size raw la :
  arena r cl l -> malloc_answers r = raw :: la -> raw <> 0 -> malloc_fresh r cl (size + 4128) ->
  size mod 4096 = 0 -> 4096 <= size ->
  exists c r1, alloc_for_heap size r = Ok c r1 /\ malloc_answers r1 = la /\ mnr r1 = mnr r /\ frl r1 = frl r /\
    c <> 0 /\ forall hd r2, r2 = set_rmem (st (rmem r1) c hd) r1 ->
      arena r2 cl l /\ fresh_chunk (rmem r2) cl c /\ Chunk_size (rmem r2) c = size /\ ld (rmem r2) c = hd /\
      c + size <= B64 /\ (Fl_head + 16 <= c - 32 \/ c + size <= Fl_head - 16) /\
      raw <= c - 32 /\ c + size <= raw + (size + 4128) /\
      (forall d, d ∈ cl -> chunk_end (rmem r) d <= c - 32 \/ c + size <= d - 32) /\
      (forall a, a < c - 32 \/ c + size <= a -> ld (rmem r2) a = ld (rmem r) a).
Proof.
  intros Har Em Hraw Hfresh Hmod Hsize. unfold malloc_fresh in Hfresh. rewrite Em in Hfresh.
  destruct Hfresh as [?|(Hpos & H64 & Hcl & Hfl)]; [done|].
  destruct (aligned_malloc_spec sizeof_heap_chunk_head r raw la Em) as (a & Ea & Ha1 & Ha2); unfold sizeof_heap_chunk_head in *; try lia.
  unfold alloc_for_heap, bind, sizeof_heap_chunk_head. rewrite Ea. destruct (Z.eqb_spec a 0); [lia|].
  unfold upd, ret. eexists (a + 32), _. split; [reflexivity|]. rsimp. splits; try done; try lia.
  intros hd r2 E2. set (c := a + 32) in *.
  assert (Hout : forall x, x < c - 32 \/ c + size <= x -> ld (rmem r2) x = ld (rmem r) x).
  { intros x Hx. rewrite E2. rsimp. unfold set_Chunk_block, set_Chunk_size, Chunk_block_addr. rewrite !ld_st_ne by lia. done. }
  assert (Hsz : Chunk_size (rmem r2) c = size).
  { rewrite E2. rsimp. unfold Chunk_size, set_Chunk_block, set_Chunk_size, Chunk_block_addr.
    rewrite !ld_st_ne by lia. apply ld_st_eq. }
  assert (Hdis : forall d, d ∈ cl -> chunk_end (rmem r) d <= c - 32 \/ c + size <= d - 32).
  { intros d Hd. destruct (Hcl d Hd); lia. }
  assert (Hflc : Fl_head + 16 <= c - 32 \/ c + size <= Fl_head - 16) by lia.
  pose proof Har as ((_ & Hs & _) & _). splits; try done; try lia.
  - apply (arena_ext r); [done|rewrite E2; done|rewrite E2; done|]. intros x Hx. apply Hout.
    pose proof (arena_words_out r cl l (c - 32) (c + size) x Har Hx Hdis Hflc). lia.
  - unfold fresh_chunk, chunk_ok, chunk_end. rewrite Hsz. splits; try done; try lia.
    intros d Hd. specialize (Hdis d Hd). unfold Chunk_size. rewrite Hout; [done|].
    destruct (chunks_sorted_elem _ _ _ _ Hs Hd) as [_ (_ & _ & ?)]. unfold chunk_end in *. lia.
  - rewrite E2. apply ld_st_eq.
Qed.

(** A new chunk in the chain leaves the free list as it is. *)
Lemma arena_insert r r' c1 c2 c l :
  arena r (c1 ++ c2) l -> fresh_chunk (rmem r) (c1 ++ c2) c -> heap_ok r' (c1 ++ c :: c2) -> frl r' = frl r ->
  links_only (c1 ++ c :: c2) (rmem r) (rmem r') -> chunk_end (rmem r) c <= B64 ->
  (Fl_head + 16 <= c - 32 \/ chunk_end (rmem r) c <= Fl_head - 16) ->
  arena r' (c1 ++ c :: c2) l /\
  (forall d, d ∈ c1 ++ c :: c2 -> chunk_end (rmem r') d = chunk_end (rmem r) d) /\
  (forall b, b ∈ l -> Hd_val (rmem r') b = Hd_val (rmem r) b).
Proof.
  intros Har (Hok & H33 & Hdis) Hh Hf Hl H64 Hfl. pose proof Har as (H1 & H2 & H3 & H4). pose proof Hh as (_ & Hs' & _).
  assert (Hdis' : forall d, d ∈ c1 ++ c2 -> chunk_end (rmem r) d <= c - 32 \/ chunk_end (rmem r) c <= d - 32) by done.
  assert (Hce : forall d, d ∈ c1 ++ c :: c2 -> chunk_end (rmem r') d = chunk_end (rmem r) d).
  { intros d Hd. unfold chunk_end, Chunk_size. rewrite Hl; [done|]. intros e He.
    destruct (chunks_sorted_elem _ _ _ _ Hs' He) as (_ & ? & _), (chunks_sorted_elem _ _ _ _ Hs' Hd) as (_ & ? & _). zlia. }
  assert (Hw : forall a, a ∈ Fl_head :: l \/ (exists b, b ∈ l /\ a = b - 8) -> ld (rmem r') a = ld (rmem r) a).
  { intros a Ha. apply Hl. intros e He ->. destruct (decide (e = c)) as [->|Hne].
    - assert (c <= chunk_end (rmem r) c) by (destruct Hok as (_ & _ & ?); unfold chunk_end; lia).
      apply (arena_words_out r (c1 ++ c2) l (c - 32) (chunk_end (rmem r) c) (c - 8) Har); try done; [|lia].
      right. destruct Ha; auto.
    - apply (elem_of_drop_mid c) in He; [|done].
      destruct (arena_head_apart r _ l e (e - 8) Har He ltac:(lia)) as [Hn1 Hn2].
      destruct Ha as [Ha|(b & Hb & Ha)]; [done|]. apply (Hn2 b Hb).
      destruct H2 as ((_ & Hbl & _) & _). destruct (blocks_elem _ _ _ b Hbl Hb) as [_ Hfb%free_block_end]. cbn [fmem fl_state] in Hfb. lia. }
  assert (Hhd : forall b, b ∈ l -> Hd_val (rmem r') b = Hd_val (rmem r) b).
  { intros b Hb. apply Hw. right. exists b. split; [done|]. reflexivity. }
  split; [|done]. split; [done|]. split; [|split].
  - apply (fl_inv_ext r); [done|done|intros b Hb; apply Hw; now left|intros b Hb; apply Hw; right; eauto].
  - intros b Hb. destruct (H3 b Hb) as (d & Hd & ? & ?). exists d.
    assert (Hd' : d ∈ c1 ++ c :: c2) by now apply elem_of_skip_mid.
    rewrite Hce by done. rewrite (block_end_ext (rmem r)) by now apply Hhd. done.
  - intros d Hd. rewrite Hce by done. destruct (decide (d = c)) as [->|Hne]; [done|].
    apply elem_of_drop_mid in Hd; [|done]. now apply H4.
Qed.

Lemma expand_heap_spec fuel wo r cl l :
  arena r cl l -> 1 <= wo <= Max_wosize -> 0 <= major_heap_increment (mjr r) <= Heap_chunk_max ->
  (length cl < fuel)%nat ->
  malloc_fresh r cl (chunk_request r wo + 4128) ->
  exists v r', expand_heap fuel wo r = Ok v r' /\ frl r' = frl r /\
    ((v = 0 /\ arena r' cl l /\ malloc_refuses r) \/
     exists c c1 c2, v = c + 8 /\ c <> 0 /\ cl = c1 ++ c2 /\ arena r' (c1 ++ c :: c2) l /\
       free_block (rmem r') v /\ wo <= Wosize_val (rmem r') v /\ block_end (rmem r') v = chunk_end (rmem r') c /\
       (forall b, b ∈ l -> block_end (rmem r') b <= c \/ chunk_end (rmem r') c <= b - 8) /\
       (forall b, b ∈ l -> Hd_val (rmem r') b = Hd_val (rmem r) b) /\
       (forall d, d ∈ cl -> chunk_end (rmem r) d <= c - 32 \/ chunk_end (rmem r') c <= d - 32) /\
       (exists raw la, malloc_answers r = raw :: la /\ malloc_answers r' `suffix_of` la /\ raw <> 0 /\ raw <= c - 32 /\
          chunk_end (rmem r') c <= raw + (chunk_request r wo + 4128)) /\
       (forall d, d ∈ cl -> chunk_end (rmem r') d = chunk_end (rmem r) d) /\
       (forall a, a < c - 32 \/ chunk_end (rmem r') c <= a -> (forall d, d ∈ cl -> a <> d - 8) ->
          ld (rmem r') a = ld (rmem r) a)).
Proof.
  intros Har Hwo Hinc Hf Hfresh. rewrite Max_wosize_eq in Hwo.
  assert (Hbh : Bhsize_wosize wo = 8 * wo + 8) by (unfold Bhsize_wosize, Bsize_wsize, Whsize_wosize, sizeof_value; lia).
  destruct (chunk_request_spec r wo) as (Er & Hmod & Hge & Hsize); [rewrite Max_wosize_eq; lia|done|].
  set (size := chunk_request r wo) in *. clearbody size. unfold expand_heap, bind at 1. rewrite Er. rewrite Heap_chunk_max_eq in Hsize.
  destruct (malloc_answers r) as [|raw la] eqn:Em; [|destruct (Z.eq_dec raw 0) as [Eraw|Eraw]].
  - unfold alloc_for_heap, aligned_malloc, libc_malloc, bind. rewrite Em. cbn. exists 0, r. splits; try done.
    left. splits; try done. intros a b c la. now rewrite Em.
  - unfold alloc_for_heap, aligned_malloc, libc_malloc, bind. rewrite Em, Eraw. cbn. eexists 0, _. splits; try done.
    left. splits; try done. intros a b c l' Ha. rewrite Em in Ha. left. congruence.
  - destruct (alloc_chunk_spec r cl l size raw la) as (c & r1 & E1 & Em1 & _ & Hf1 & Hc0 & H2); try done; [lia|].
    unfold bind at 1. rewrite E1. destruct (Z.eqb_spec c 0); [done|].
    unfold bind at 1, upd. set (hd := Make_header (Wosize_bhsize size) 0 Caml_blue) in *.
    destruct (H2 hd _ eq_refl) as (Har2 & Hfc & Hsz & Hhd & H64 & Hfl & Hraw1 & Hraw2 & Holds & Hout). set (r2 := set_rmem _ r1) in *.
    assert (Em2 : malloc_answers r2 = la) by done. assert (Hf2 : frl r2 = frl r) by done. clearbody r2. clear H2.
    pose proof Har2 as (Hok2 & _).
    destruct (add_to_heap_spec fuel r2 cl c Hok2 Hfc Hf) as (v & r3 & E3 & [(-> & c1 & c2 & -> & Hok3 & Hl3 & _ & _ & Hf3 & _)|(-> & Hok3 & Hs3 & Href)]);
      unfold bind; rewrite E3; cbn [Z.eqb negb].
    2: { exists 0, r3. pose proof Hs3 as (Hm3 & Hst & He & _ & _ & Hf3 & _). splits; try done; [congruence|].
         left. splits; try done.
         - destruct Har2 as (_ & K2 & K3 & K4). split; [done|]. rewrite Hm3. split; [|done].
           apply (fl_inv_ext r2); try done; intros; now rewrite Hm3.
         - intros a b k l' Ha. rewrite Em in Ha. injection Ha as -> ->. right. now apply (Href b k l'). }
    assert (Hcend : chunk_end (rmem r2) c = c + size) by (unfold chunk_end; lia).
    destruct (arena_insert r2 r3 c1 c2 c l) as (Har3 & Hce & Hhds); try done; try lia.
    assert (Hmid : c ∈ c1 ++ c :: c2) by apply elem_of_mid.
    assert (Hbv : Hd_val (rmem r3) (c + 8) = hd).
    { unfold Hd_val, Hp_val, sizeof_value. replace (c + 8 - 8) with c by lia. rewrite Hl3; [done|].
      intros d Hd. destruct Hok3 as (_ & Hs3 & _).
      destruct (chunks_sorted_elem _ _ _ _ Hs3 Hd) as (_ & ? & _), (chunks_sorted_elem _ _ _ _ Hs3 Hmid) as (_ & ? & _). zlia. }
    assert (Hwv : Wosize_val (rmem r3) (c + 8) = size / 8 - 1).
    { unfold Wosize_val. rewrite Hbv. apply Wosize_Make_header; [|lia|unfold is_color; auto].
      rewrite Max_wosize_eq. unfold Wosize_bhsize, sizeof_value. zlia. }
    exists (c + 8), r3. splits; try done; [congruence|]. right. exists c, c1, c2.
    assert (Hend : block_end (rmem r3) (c + 8) = chunk_end (rmem r3) c).
    { unfold block_end. rewrite Hwv, (Hce c Hmid), Hcend. zlia. }
    assert (Hfree : free_block (rmem r3) (c + 8)).
    { unfold free_block. rewrite Hwv, Hbv, Max_wosize_eq. split; [zlia|].
      apply Is_blue_Make_header; [|lia]. rewrite Max_wosize_eq. unfold Wosize_bhsize, sizeof_value. zlia. }
    splits; try done; try (rewrite Hwv; zlia).
    + rewrite (Hce c Hmid), Hcend. intros b Hb. rewrite (block_end_ext (rmem r2)) by now apply Hhds.
      destruct Har2 as (_ & K2 & K3 & _). destruct (K3 b Hb) as (d & Hd & ? & ?).
      destruct Hfc as (_ & _ & Hdis). destruct (Hdis d Hd); lia.
    + intros b Hb. rewrite Hhds by done. apply Hout. destruct Har as (_ & ((_ & Hbl & _) & _) & K3 & _).
      destruct (K3 b Hb) as (d & Hd & ? & ?). specialize (Holds d Hd).
      destruct (blocks_elem _ _ _ b Hbl Hb) as [_ Hfb%free_block_end]. cbn [fmem fl_state] in Hfb.
      unfold Hp_val, sizeof_value. lia.
    + rewrite (Hce c Hmid), Hcend. done.
    + exists raw, la. rewrite (Hce c Hmid), Hcend. splits; try done.
      rewrite <- Em2. now apply (keeps_add_to_heap fuel c r2 0 r3).
    + intros d Hd. rewrite Hce by now apply elem_of_skip_mid. unfold chunk_end, Chunk_size. rewrite Hout; [done|].
      specialize (Holds d Hd). pose proof Har as ((_ & Hs & _) & _).
      destruct (chunks_sorted_elem _ _ _ _ Hs Hd) as [_ (_ & _ & ?)]. unfold chunk_end in *. lia.
    + intros a Ha Hd. rewrite (Hce c Hmid), Hcend in Ha. rewrite Hl3; [apply Hout; lia|].
      intros d Hin ->. destruct (decide (d = c)) as [->|Hne]; [lia|].
      apply elem_of_drop_mid in Hin; [|done]. now apply (Hd d Hin).
Qed.

Lemma arena_mem_eq r r' cl l :
  arena r cl l -> rmem r' = rmem r -> frl r' = frl r -> heap_start (mjr r') = heap_start (mjr r) ->
  heap_end (mjr r') = heap_end (mjr r) -> page_table (mjr r') = page_table (mjr r) ->
  page_low (mjr r') = page_low (mjr r) -> page_high (mjr r') = page_high (mjr r) -> arena r' cl l.
Proof.
  intros (H1 & H2 & H3 & H4) Hm Hf E1 E2 E3 E4 E5. unfold arena, heap_ok, fl_state in *.
  rewrite Hm, Hf, E1, E2, E3, E4, E5. done.
Qed.

(** A block granted is in no word of the invariant. *)
Lemma granted_not_word r cl l hp n a :
  arena r cl l -> granted r cl l hp n -> hp <= a < hp + 8 * n -> ~ arena_words cl l a.
Proof.
  intros Har ((Hreg & Hfl) & c & Hc & Hlo & Hhi) Ha Hw. pose proof Har as ((_ & Hs & _) & ((_ & Hb & _) & _) & _).
  destruct Hw as [(d & Hd & Hda)|[Hin|(b & Hbl & ->)]].
  - destruct (decide (d = c)) as [->|Hne]; [lia|]. destruct (chunks_sorted_elem _ _ _ _ Hs Hd) as [_ (_ & _ & ?)].
    apply list_elem_of_split in Hd as (k1 & k2 & ->).
    apply (elem_of_drop_mid d) in Hc; [|done]. pose proof (chunks_sorted_disjoint _ _ _ _ _ _ Hs Hc).
    unfold chunk_end in *. lia.
  - apply elem_of_cons in Hin as [->|Hin]; [lia|]. destruct (blocks_elem _ _ _ a Hb Hin) as [_ Hf%free_block_end].
    cbn [fmem fl_state] in Hf. destruct (Hreg a Hin); lia.
  - destruct (blocks_elem _ _ _ b Hb Hbl) as [_ Hf%free_block_end]. cbn [fmem fl_state] in Hf. destruct (Hreg b Hbl); lia.
Qed.

(** A block granted meets no head of a chunk. *)
Lemma granted_head r cl l hp n c a :
  arena r cl l -> granted r cl l hp n -> c ∈ cl -> c - 32 <= a < c -> ~ hp <= a < hp + 8 * n.
Proof.
  intros Har (_ & d & Hd & Hlo & Hhi) Hc Ha Hin. pose proof Har as ((_ & Hs & _) & _).
  destruct (decide (d = c)) as [->|Hne]; [lia|]. destruct (chunks_sorted_elem _ _ _ _ Hs Hc) as [_ (_ & _ & ?)].
  apply list_elem_of_split in Hc as (k1 & k2 & ->).
  apply (elem_of_drop_mid c) in Hd; [|done]. pose proof (chunks_sorted_disjoint _ _ _ _ _ _ Hs Hd).
  unfold chunk_end in *. lia.
Qed.

Lemma granted_ext r r' cl l hp n :
  (forall a, arena_words cl l a -> ld (rmem r') a = ld (rmem r) a) -> granted r cl l hp n -> granted r' cl l hp n.
Proof.
  intros Hm ((Hreg & Hfl) & c & Hc & Hlo & Hhi). split; [split; [|done]|].
  - intros b Hb. rewrite (block_end_ext (rmem r)); [now apply Hreg|]. apply Hm. right. right. eauto.
  - exists c. unfold chunk_end, Chunk_size in *. rewrite Hm; [done|]. left. eauto.
Qed.

(** The heap on the way out of [alloc_shr]. *)
Lemma finish_alloc_shr_spec hp wo tag r cl l :
  arena r cl l -> granted r cl l hp (wo + 1) -> 1 <= wo ->
  let r' := finish_alloc_shr hp wo tag r in
  arena r' cl l /\ granted r' cl l hp (wo + 1) /\
  ld (rmem r') hp = Make_header wo tag (allocation_color (mjr r') hp) /\
  (forall a, a <> hp -> ld (rmem r') a = ld (rmem r) a).
Proof.
  intros Har Hg Hwo r'.
  assert (Hm : rmem r' = st (rmem r) hp (Make_header wo tag (allocation_color (mjr r) hp))).
  { unfold r', finish_alloc_shr. rsimp. destruct (_ <? _); [unfold urge_major_slice|]; rsimp; done. }
  assert (Hw : forall a, arena_words cl l a -> ld (st (rmem r) hp (Make_header wo tag (allocation_color (mjr r) hp))) a = ld (rmem r) a).
  { intros a Ha. apply ld_st_ne. intros <-. apply (granted_not_word r cl l hp (wo + 1) hp); try done. lia. }
  splits.
  - apply (arena_mem_eq (set_rmem (rmem r') r)); try (unfold r', finish_alloc_shr; rsimp; destruct (_ <? _); done).
    apply (arena_ext r); try done. rsimp. now rewrite Hm.
  - apply (granted_ext r); [|done]. now rewrite Hm.
  - rewrite Hm, ld_st_eq. f_equal. unfold r', finish_alloc_shr. rsimp. destruct (_ <? _); done.
  - intros a Ha. rewrite Hm. now apply ld_st_ne.
Qed.

(** Where a region of [n] words at [hp] came from: what of it was in the heap was free. *)
Definition was_free (r : runtime) (l : list Z) (hp n : Z) : Prop :=
  forall p, hp <= p < hp + 8 * n -> Is_in_heap (mjr r) p = true ->
  exists b, b ∈ l /\ b - 8 <= p < block_end (rmem r) b.

(** The words of the heap outside the free blocks are kept. *)
Definition live_kept (r r' : runtime) (l : list Z) : Prop :=
  forall a, Is_in_heap (mjr r) a = true -> (forall b, b ∈ l -> ~ b - 8 <= a < block_end (rmem r) b) ->
  ld (rmem r') a = ld (rmem r) a.

(** A word in use is none of the free list's. *)
Lemma live_not_word r cl l a :
  arena r cl l -> Is_in_heap (mjr r) a = true -> (forall b, b ∈ l -> ~ b - 8 <= a < block_end (rmem r) b) ->
  (a ∉ Fl_head :: l) /\ (forall b, b ∈ l -> a <> b - 8) /\ (forall d, d ∈ cl -> ~ d - 32 <= a < d) /\
  exists c, c ∈ cl /\ c <= a < chunk_end (rmem r) c.
Proof.
  intros Har Hin Hlive. pose proof Har as (H1 & ((_ & Hb & _) & _) & _ & H4).
  pose proof (proj1 (heap_ok_Is_in_heap _ _ _ H1) Hin) as (c & Hc & Hac). pose proof H1 as (_ & Hs & _).
  assert (Hf : forall b, b ∈ l -> b + 8 <= block_end (rmem r) b).
  { intros b Hbl. destruct (blocks_elem _ _ _ b Hb Hbl) as [_ Hf%free_block_end]. done. }
  splits.
  - intros [->|Hal]%elem_of_cons; [destruct (H4 c Hc); lia|]. apply (Hlive a Hal). specialize (Hf a Hal). lia.
  - intros b Hbl ->. apply (Hlive b Hbl). specialize (Hf b Hbl). lia.
  - intros d Hd Hda. destruct (decide (c = d)) as [->|Hne]; [lia|].
    destruct (chunks_sorted_elem _ _ _ _ Hs Hd) as [_ (_ & _ & ?)].
    apply list_elem_of_split in Hd as (k1 & k2 & ->).
    apply (elem_of_drop_mid d) in Hc; [|done]. pose proof (chunks_sorted_disjoint _ _ _ _ _ _ Hs Hc).
    unfold chunk_end in *. lia.
  - eauto.
Qed.

(** The outcome of [alloc_shr]: a block in the heap, with its header, from memory that
    was free or is new, and nothing in use is touched. *)
Definition alloc_result_at (wo tag : Z) (r : runtime) (cl l : list Z) (v : Z) (r' : runtime) (cl' l' : list Z) : Prop :=
  cl ⊆ cl' /\ arena r' cl' l' /\ granted r' cl' l' (v - 8) (wo + 1) /\
  Hd_val (rmem r') v = Make_header wo tag (allocation_color (mjr r') (v - 8)) /\
  was_free r l (v - 8) (wo + 1) /\ live_kept r r' l.
Definition alloc_shr_result (wo tag : Z) (r : runtime) (cl l : list Z) (v : Z) (r' : runtime) : Prop :=
  exists cl' l', alloc_result_at wo tag r cl l v r' cl' l'.

(** A successful [fl_allocate] and the end of [alloc_shr]. *)
Lemma alloc_found hp wo tag r r2 cl cl' l l' :
  cl ⊆ cl' -> 1 <= wo -> arena r2 cl' l' -> granted r2 cl' l' hp (wo + 1) ->
  was_free r l hp (wo + 1) -> live_kept r r2 l ->
  alloc_result_at wo tag r cl l (Val_hp hp) (finish_alloc_shr hp wo tag r2) cl' l'.
Proof.
  intros Hcl Hwo Har Hg Hfree Hlive.
  destruct (finish_alloc_shr_spec hp wo tag r2 cl' l' Har Hg Hwo) as (F1 & F2 & F3 & F4).
  unfold alloc_result_at, Hd_val, Hp_val, Val_hp, sizeof_value. replace (hp + 8 - 8) with hp by lia.
  splits; try done. intros a Hin Ha. rewrite F4; [now apply Hlive|]. intros ->.
  destruct (Hfree hp ltac:(lia) Hin) as (b & Hb & Hp). now apply (Ha b Hb).
Qed.

(** The first [fl_allocate] finds a block. *)
Lemma alloc_shr_first wo hp r r1 cl l :
  arena r cl l ->
  (exists b, b ∈ l /\ b - 8 <= hp /\ hp + 8 * (wo + 1) = block_end (rmem r) b) ->
  (forall a, a ∉ Fl_head :: l -> (forall b, b ∈ l -> a <> b - 8) -> ld (rmem r1) a = ld (rmem r) a) ->
  was_free r l hp (wo + 1) /\ live_kept r r1 l.
Proof.
  intros Har (b & Hb & Hb1 & Hb2) Hfr. split.
  - intros p Hp _. exists b. split; [done|]. lia.
  - intros a Hin Ha. destruct (live_not_word r cl l a Har Hin Ha) as (Ha1 & Ha2 & _). now apply Hfr.
Qed.

(** The second one does, after the heap has grown by the chunk [c]. *)
Lemma alloc_shr_second wo hp r r1 r2 r3 cl l l1 l2 c e :
  arena r cl l -> l = l1 ++ l2 ->
  (forall d, d ∈ cl -> chunk_end (rmem r) d <= c - 32 \/ e <= d - 32) ->
  (forall a, a < c - 32 \/ e <= a -> (forall d, d ∈ cl -> a <> d - 8) -> ld (rmem r1) a = ld (rmem r) a) ->
  (forall a, a ∉ Fl_head :: l -> a <> c + 8 -> ld (rmem r2) a = ld (rmem r1) a) ->
  (forall b, b ∈ l -> Hd_val (rmem r2) b = Hd_val (rmem r) b) -> block_end (rmem r2) (c + 8) = e -> c + 16 <= e ->
  (exists b, b ∈ l1 ++ (c + 8) :: l2 /\ b - 8 <= hp /\ hp + 8 * (wo + 1) = block_end (rmem r2) b) ->
  (forall a, a ∉ Fl_head :: l1 ++ (c + 8) :: l2 -> (forall b, b ∈ l1 ++ (c + 8) :: l2 -> a <> b - 8) ->
     ld (rmem r3) a = ld (rmem r2) a) ->
  was_free r l hp (wo + 1) /\ live_kept r r3 l.
Proof.
  intros Har -> Hdis Hf1 Hf2 Hhd He Hce (b & Hb & Hb1 & Hb2) Hf3. pose proof Har as (Hok & _). split.
  - intros p Hp Hin. destruct (decide (b = c + 8)) as [->|Hne].
    + exfalso. apply (heap_ok_Is_in_heap _ _ _ Hok) in Hin as (d & Hd & Hdp). destruct (Hdis d Hd); lia.
    + apply elem_of_drop_mid in Hb; [|done]. exists b. split; [done|].
      rewrite (block_end_ext (rmem r)) in Hb2 by now apply Hhd. lia.
  - intros a Hin Ha. destruct (live_not_word r cl _ a Har Hin Ha) as (Ha1 & Ha2 & Ha3 & d & Hd & Hda).
    assert (Hout : a < c - 32 \/ e <= a) by (destruct (Hdis d Hd); lia).
    rewrite Hf3, Hf2, Hf1; try done; try lia.
    + intros x Hx ->. apply (Ha3 x Hx). lia.
    + intros [->|Hal]%elem_of_cons; [apply Ha1, list_elem_of_here|].
      apply Ha1, list_elem_of_further, (elem_of_drop_mid (c + 8)); [done|lia].
    + intros x Hx ->. destruct (decide (x = c + 8)) as [->|Hne]; [lia|].
      apply elem_of_drop_mid in Hx; [|done]. now apply (Ha2 x Hx).
Qed.

(** Where the block and the free blocks left come from, and what else changes: the
    region [lo, hi) is that of the new chunk with its head, or empty. *)
Record alloc_detail (wo : Z) (r : runtime) (cl l : list Z) (v : Z) (r' : runtime) (cl' l' : list Z) (lo hi : Z) : Prop := {
  ad_chunk : (lo = hi /\ cl' = cl) \/
    (exists c1 c2 c raw la, cl = c1 ++ c2 /\ cl' = c1 ++ c :: c2 /\ lo = c - 32 /\ hi = chunk_end (rmem r') c /\
       malloc_answers r = raw :: la /\ malloc_answers r' `suffix_of` la /\
       raw <> 0 /\ raw <= lo /\ hi <= raw + (chunk_request r wo + 4128));
  ad_ends d : d ∈ cl -> chunk_end (rmem r') d = chunk_end (rmem r) d;
  ad_place p : v - 8 <= p < v + 8 * wo -> lo <= p < hi \/ exists b, b ∈ l /\ b - 8 <= p < block_end (rmem r) b;
  ad_free b p : b ∈ l' -> b - 8 <= p < block_end (rmem r') b ->
    lo + 32 <= p < hi \/ exists b0, b0 ∈ l /\ b0 - 8 <= p < block_end (rmem r) b0;
  ad_frame a : (forall b, b ∈ l -> ~ b - 8 <= a < block_end (rmem r) b) -> (forall d, d ∈ cl -> ~ d - 32 <= a < d) ->
    a <> Fl_head -> ~ lo <= a < hi -> ld (rmem r') a = ld (rmem r) a;
  ad_length : (length l' <= if decide (lo = hi) then length l else S (length l))%nat;
  ad_align : (forall b, b ∈ l -> b mod 8 = 0) -> v mod 8 = 0 /\ forall b, b ∈ l' -> b mod 8 = 0
}.

(** The header and the accounting do not matter. *)
Lemma detail_finish hp wo tag r r2 cl l cl' l' lo hi :
  1 <= wo -> arena r2 cl' l' -> granted r2 cl' l' hp (wo + 1) -> cl ⊆ cl' ->
  alloc_detail wo r cl l (Val_hp hp) r2 cl' l' lo hi ->
  alloc_detail wo r cl l (Val_hp hp) (finish_alloc_shr hp wo tag r2) cl' l' lo hi.
Proof.
  intros Hwo Har Hg Hcl [D1 D2 D3 D4 D5 D6 D7].
  destruct (finish_alloc_shr_spec hp wo tag r2 cl' l' Har Hg Hwo) as (_ & _ & _ & F4).
  set (r' := finish_alloc_shr hp wo tag r2) in *.
  assert (Hma : malloc_answers r' = malloc_answers r2) by (unfold r', finish_alloc_shr; rsimp; now destruct (_ <? _)).
  clearbody r'.
  assert (Hw : forall a, arena_words cl' l' a -> ld (rmem r') a = ld (rmem r2) a).
  { intros a Ha. apply F4. intros ->. apply (granted_not_word r2 cl' l' hp (wo + 1) hp Har Hg ltac:(lia) Ha). }
  assert (Hce : forall d, d ∈ cl' -> chunk_end (rmem r') d = chunk_end (rmem r2) d).
  { intros d Hd. unfold chunk_end, Chunk_size. rewrite Hw; [done|]. left. eauto. }
  constructor; try done.
  - destruct D1 as [?|(c1 & c2 & c & raw & la & H1 & H2 & H3 & H4 & H5)]; [now left|]. right.
    exists c1, c2, c, raw, la. rewrite Hce by (rewrite H2; apply elem_of_mid). rewrite Hma. done.
  - intros d Hd. rewrite Hce by now apply Hcl. now apply D2.
  - intros b p Hb. rewrite (block_end_ext (rmem r2)); [now apply D4|]. apply Hw. right. right. eauto.
  - intros a Ha Hd Hh Hlo. rewrite F4; [now apply D5|]. intros ->. destruct (D3 hp) as [?|(b & Hb & Hp)]; [|done|now apply (Ha b)].
    unfold Val_hp, sizeof_value. lia.
Qed.

Lemma fl_nodup s l : fl_inv Fl_head s l -> NoDup l.
Proof.
  intros ((_ & Hb & _) & _). revert Hb. generalize 8. induction l as [|b l IH]; intros lo Hb; constructor.
  - destruct Hb as (_ & Hf%free_block_end & Hb). intros Hin. destruct (blocks_elem _ _ _ b Hb Hin). lia.
  - destruct Hb as (_ & _ & Hb). now apply (IH _ Hb).
Qed.

(** The first [fl_allocate] finds a block. *)
Lemma detail_first wo hp r r1 cl l l' :
  1 <= wo -> arena r cl l -> arena r1 cl l' -> l' ⊆ l ->
  (exists b, b ∈ l /\ b - 8 <= hp /\ hp + 8 * (wo + 1) = block_end (rmem r) b) ->
  (forall b, b ∈ l' -> block_end (rmem r1) b <= block_end (rmem r) b) ->
  (forall a, a ∉ Fl_head :: l -> (forall b, b ∈ l -> a <> b - 8) -> ld (rmem r1) a = ld (rmem r) a) ->
  alloc_detail wo r cl l (Val_hp hp) r1 cl l' 0 0.
Proof.
  intros Hwo Har Har1 Hsub (b & Hb & Hb1 & Hb2) Hends Hfr.
  pose proof Har as ((_ & Hs & _) & Hfl & _). pose proof Hfl as ((_ & Hbl & _) & _). cbn [fmem fl_state] in Hbl.
  assert (Hfe : forall b, b ∈ l -> b + 8 <= block_end (rmem r) b).
  { intros x Hx. destruct (blocks_elem _ _ _ x Hbl Hx) as [_ ?%free_block_end]. done. }
  assert (Hframe : forall a, (forall b, b ∈ l -> ~ b - 8 <= a < block_end (rmem r) b) -> a <> Fl_head -> ld (rmem r1) a = ld (rmem r) a).
  { intros a Ha Hh. apply Hfr.
    - intros [->|Hin]%elem_of_cons; [done|]. apply (Ha a Hin). specialize (Hfe a Hin). lia.
    - intros x Hx ->. apply (Ha x Hx). specialize (Hfe x Hx). lia. }
  constructor; try (unfold Val_hp, sizeof_value).
  - now left.
  - intros d Hd. unfold chunk_end, Chunk_size. rewrite Hfr; [done| |];
      destruct (arena_head_apart _ _ _ _ (d - 16) Har Hd ltac:(lia)) as [Hn1 Hn2]; [done|].
    intros x Hx E. apply (Hn2 x Hx). specialize (Hfe x Hx). lia.
  - intros p Hp. right. exists b. split; [done|]. lia.
  - intros x p Hx Hp. right. exists x. split; [now apply Hsub|]. specialize (Hends x Hx). lia.
  - intros a Ha _ Hh _. now apply Hframe.
  - destruct (decide (0 = 0)); [|done]. apply submseteq_length, NoDup_submseteq; [|done].
    destruct Har1 as (_ & Hfl1 & _). now apply (fl_nodup _ _ Hfl1).
  - intros Hal. split; [|auto]. specialize (Hal b Hb). unfold block_end in Hb2. zlia.
Qed.

(** The second one does, after the heap has grown by the chunk [c]. *)
Lemma detail_second wo hp r r2 r3 r4 c1 c2 l l1 l2 l' c raw la :
  1 <= wo -> arena r (c1 ++ c2) l -> l = l1 ++ l2 -> arena r2 (c1 ++ c :: c2) l ->
  arena r3 (c1 ++ c :: c2) (l1 ++ (c + 8) :: l2) -> arena r4 (c1 ++ c :: c2) l' ->
  malloc_answers r = raw :: la -> malloc_answers r4 `suffix_of` la -> raw <> 0 -> raw <= c - 32 ->
  chunk_end (rmem r2) c <= raw + (chunk_request r wo + 4128) ->
  (forall d, d ∈ c1 ++ c2 -> chunk_end (rmem r2) d = chunk_end (rmem r) d) ->
  (forall b, b ∈ l -> Hd_val (rmem r2) b = Hd_val (rmem r) b) ->
  (forall a, a < c - 32 \/ chunk_end (rmem r2) c <= a -> (forall d, d ∈ c1 ++ c2 -> a <> d - 8) -> ld (rmem r2) a = ld (rmem r) a) ->
  Hd_val (rmem r3) (c + 8) = Hd_val (rmem r2) (c + 8) -> block_end (rmem r2) (c + 8) = chunk_end (rmem r2) c ->
  (forall b, b ∈ l -> Hd_val (rmem r3) b = Hd_val (rmem r2) b) ->
  (forall a, a ∉ Fl_head :: l -> a <> c + 8 -> ld (rmem r3) a = ld (rmem r2) a) ->
  l' ⊆ l1 ++ (c + 8) :: l2 ->
  (exists b, b ∈ l1 ++ (c + 8) :: l2 /\ b - 8 <= hp /\ hp + 8 * (wo + 1) = block_end (rmem r3) b) ->
  (forall b, b ∈ l' -> block_end (rmem r4) b <= block_end (rmem r3) b) ->
  (forall a, a ∉ Fl_head :: l1 ++ (c + 8) :: l2 -> (forall b, b ∈ l1 ++ (c + 8) :: l2 -> a <> b - 8) -> ld (rmem r4) a = ld (rmem r3) a) ->
  alloc_detail wo r (c1 ++ c2) l (Val_hp hp) r4 (c1 ++ c :: c2) l' (c - 32) (chunk_end (rmem r2) c).
Proof.
  intros Hwo Har El Har2 Har3 Har4 Em Em4 Hraw Hraw1 Hraw2 Hce Hhd2 Hf2 Hhdc Hbc Hhd3 Hf3 Hsub (b & Hb & Hb1 & Hb2) Hends Hf4.
  destruct (detail_first wo hp r3 r4 (c1 ++ c :: c2) (l1 ++ (c + 8) :: l2) l' Hwo Har3 Har4 Hsub
    (ex_intro _ b (conj Hb (conj Hb1 Hb2))) Hends Hf4) as [_ E2 E3 E4 E5 E6 E7].
  assert (Hbe : forall x, x ∈ l1 ++ (c + 8) :: l2 ->
    (x = c + 8 /\ block_end (rmem r3) x = chunk_end (rmem r2) c) \/ (x ∈ l /\ block_end (rmem r3) x = block_end (rmem r) x)).
  { intros x Hx. destruct (decide (x = c + 8)) as [->|Hne].
    - left. split; [done|]. rewrite <- Hbc. now apply block_end_ext.
    - right. apply elem_of_drop_mid in Hx; [|done]. rewrite <- El in Hx. split; [done|]. apply block_end_ext.
      now rewrite Hhd3, Hhd2. }
  assert (Hce3 : forall d, d ∈ c1 ++ c :: c2 -> chunk_end (rmem r3) d = chunk_end (rmem r2) d).
  { intros d Hd. unfold chunk_end, Chunk_size. pose proof Har2 as ((_ & Hs2 & _) & _).
    destruct (arena_head_apart _ _ _ _ (d - 16) Har2 Hd ltac:(lia)) as [Hn1 _]. rewrite Hf3; [done|done|].
    destruct (chunks_sorted_elem _ _ _ _ Hs2 Hd) as (_ & ? & _), (chunks_sorted_elem _ _ _ _ Hs2 (elem_of_mid c c1 c2)) as (_ & ? & _). zlia. }
  assert (Hplace : forall x p, x ∈ l1 ++ (c + 8) :: l2 -> x - 8 <= p < block_end (rmem r3) x ->
    c - 32 + 32 <= p < chunk_end (rmem r2) c \/ exists b, b ∈ l /\ b - 8 <= p < block_end (rmem r) b).
  { intros x p Hx Hp. destruct (Hbe x Hx) as [[-> Ex]|[Hxl Ex]]; rewrite Ex in Hp; [left; lia|right; eauto]. }
  constructor.
  - right. exists c1, c2, c, raw, la. rewrite E2, Hce3 by apply elem_of_mid. done.
  - intros d Hd. rewrite E2, Hce3 by now apply elem_of_skip_mid. now apply Hce.
  - intros p Hp. destruct (E3 p Hp) as [?|(x & Hx & Hxp)]; [lia|]. destruct (Hplace x p Hx Hxp); [left; lia|now right].
  - intros x p Hx Hp. destruct (E4 x p Hx Hp) as [?|(y & Hy & Hyp)]; [lia|]. now apply (Hplace y).
  - intros a Ha Hd Hh Hlo.
    assert (Ha3 : forall x, x ∈ l1 ++ (c + 8) :: l2 -> ~ x - 8 <= a < block_end (rmem r3) x).
    { intros x Hx Hp. destruct (Hplace x a Hx Hp) as [?|(y & Hy & Hyp)]; [lia|now apply (Ha y)]. }
    pose proof Har3 as (_ & ((_ & Hbl & _) & _) & _).
    rewrite E5; [|done| |done|lia].
    2: { intros d Hdin Hda. destruct (decide (d = c)) as [->|Hne]; [|apply elem_of_drop_mid in Hdin; [now apply (Hd d)|done]].
         apply Hlo. pose proof Har2 as ((_ & Hs2 & _) & _). destruct (chunks_sorted_elem _ _ _ _ Hs2 (elem_of_mid c c1 c2)) as (_ & _ & ? & ?).
         unfold chunk_end. lia. }
    rewrite Hf3, Hf2; [done|lia|intros d Hdin ->; apply (Hd d Hdin); lia| |].
    + intros [->|Hin]%elem_of_cons; [done|]. pose proof Har as (_ & ((_ & Hbl' & _) & _) & _).
      destruct (blocks_elem _ _ _ a Hbl' Hin) as [_ ?%free_block_end]. apply (Ha a Hin). cbn [fmem fl_state] in *. lia.
    + intros ->. destruct (blocks_elem _ _ _ _ Hbl (elem_of_mid _ _ _)) as [_ Hf%free_block_end]. cbn [fmem fl_state] in Hf.
      apply (Ha3 (c + 8) (elem_of_mid _ _ _)). lia.
  - destruct (decide (0 = 0)) in E6; [|done]. rewrite length_app in E6. cbn [length] in E6. rewrite El, length_app.
    destruct (decide _) as [Heq|_]; [|lia]. pose proof Har2 as ((_ & Hs2 & _) & _).
    destruct (chunks_sorted_elem _ _ _ _ Hs2 (elem_of_mid c c1 c2)) as (_ & _ & _ & ?). unfold chunk_end in Heq. lia.
  - intros Hal. apply E7. intros x Hx. destruct (Hbe x Hx) as [[-> _]|[Hxl _]]; [|now apply Hal].
    pose proof Har2 as ((_ & Hs2 & _) & _). destruct (chunks_sorted_elem _ _ _ _ Hs2 (elem_of_mid c c1 c2)) as (_ & ? & _). zlia.
Qed.
End Arena.

(** [round_heap_chunk_size] gives a whole number of pages, no less than the
    request and no less than one page, or raises [Out_of_memory] when the request
    exceeds the largest block. *)
Theorem round_heap_chunk_size_correct request r :
  0 <= request -> 0 <= major_heap_increment (mjr r) <= Heap_chunk_max ->
  (request <= Heap_chunk_max ->
   exists size, round_heap_chunk_size request r = Ok size r /\ size mod 4096 = 0 /\
     request <= size /\ 4096 <= size <= Heap_chunk_max) /\
  (Heap_chunk_max < request -> round_heap_chunk_size request r = raise_out_of_memory r).
Proof. apply round_heap_chunk_size_spec. Qed.

(** [alloc_shr], with the details. *)
Lemma alloc_shr_spec Fl_head fuel wo tag r cl l :
  arena Fl_head r cl l -> 1 <= wo -> 0 <= major_heap_increment (mjr r) <= Heap_chunk_max ->
  (S (length l) < fuel)%nat -> (length cl < fuel)%nat ->
  malloc_fresh Fl_head r cl (chunk_request r wo + 4128) ->
  (Max_wosize < wo -> alloc_shr Fl_head fuel wo tag r = raise_out_of_memory r) /\
  (wo <= Max_wosize ->
    (exists v r' cl' l' lo hi, alloc_shr Fl_head fuel wo tag r = Ok v r' /\
       alloc_result_at Fl_head wo tag r cl l v r' cl' l' /\ alloc_detail Fl_head wo r cl l v r' cl' l' lo hi) \/
    (exists r', arena Fl_head r' cl l /\ malloc_refuses r /\ mnr r' = mnr r /\
       alloc_shr Fl_head fuel wo tag r =
       if in_minor_collection (mnr r') then Fatal "Fatal error: out of memory." else raise_out_of_memory r')).
Proof.
  intros Har Hwo Hinc Hfl Hfc Hfresh. unfold alloc_shr.
  destruct (Z.ltb_spec Max_wosize wo) as [Hbig|Hsmall]; (split; [try done; lia|intros Hle; try lia]).
  destruct (fl_allocate_M_spec Fl_head fuel wo r cl l Har Hwo ltac:(lia)) as (hp & r1 & E1 & Hj1 & Hn1 & _ & Hm1 & Hres).
  unfold bind. rewrite E1.
  destruct Hres as [(Hhp & l' & Hsub1 & Har1 & Hg & Hfrom & Hends1 & Hfr)|(-> & Hall & Har1 & Hmem1 & Hlast1)].
  - left. destruct (Z.eqb_spec hp 0); [done|]. cbn [negb]. unfold ret. eexists _, _, cl, l', 0, 0. split; [reflexivity|].
    destruct (alloc_shr_first Fl_head wo hp r r1 cl l Har Hfrom Hfr). split; [now apply (alloc_found _ _ _ _ _ _ _ cl)|].
    apply detail_finish; try done. now apply detail_first.
  - cbn [Z.eqb negb].
    assert (Hreq : chunk_request r1 wo = chunk_request r wo).
    { rewrite Max_wosize_eq in Hle.
      destruct (chunk_request_spec r wo) as (Q1 & _); [rewrite Max_wosize_eq; lia|done|].
      unfold chunk_request, round_heap_chunk_size in *. rewrite Hj1 in *. destruct (_ <? Bhsize_wosize wo); [|done].
      unfold raise_out_of_memory, mlraise in *. destruct (_ =? 0); [done|]. destruct (external_raise _ =? 0); done. }
    assert (Hfresh1 : malloc_fresh Fl_head r1 cl (chunk_request r1 wo + 4128)).
    { unfold malloc_fresh in *. rewrite Hreq, Hm1, Hmem1. done. }
    destruct (expand_heap_spec Fl_head fuel wo r1 cl l Har1 ltac:(lia) ltac:(now rewrite Hj1) Hfc Hfresh1)
      as (v & r2 & E2 & Hf2 & Hres).
    rewrite E2. destruct Hres as [(-> & Har2 & Href)|(c & c1 & c2 & -> & Hc0 & -> & Har2 & Hfree & Hw & Hend & Hdis & Hhd2 & Hold & Hraw & Hce2 & Hfr2)].
    + right. exists r2. cbn [Z.eqb]. split; [done|]. split; [unfold malloc_refuses in *; now rewrite <- Hm1|].
      split; [rewrite <- Hn1; now apply (keeps_expand _ _ _ _ _ E2)|].
      destruct (in_minor_collection (mnr r2)); [reflexivity|].
      unfold raise_out_of_memory, mlraise. destruct (_ =? 0); [done|]. destruct (external_raise _ =? 0); done.
    + left. pose proof Har2 as ((_ & Hs2 & _) & _).
      destruct (chunks_sorted_elem _ _ _ c Hs2 (elem_of_mid _ _ _)) as [Hc33 _].
      destruct (Z.eqb_spec (c + 8) 0); [lia|].
      destruct (fl_add_block_M_spec Fl_head fuel (c + 8) c r2 (c1 ++ c :: c2) l Har2) as (r3 & l1 & l2 & E3 & _ & _ & El & Har3 & Hhd3 & Hhds3 & Hfr3);
        try done; try lia; [congruence|apply elem_of_mid|intros b Hb; destruct (Hdis b Hb); lia|].
      rewrite E3.
      destruct (fl_allocate_M_spec Fl_head fuel wo r3 (c1 ++ c :: c2) (l1 ++ (c + 8) :: l2) Har3 Hwo) as (hp & r4 & E4 & _ & _ & _ & _ & Hres).
      { rewrite El, length_app in Hfl. rewrite length_app. cbn [length]. lia. }
      rewrite E4. destruct Hres as [(Hhp & l' & Hsub4 & Har4 & Hg & Hfrom & Hends4 & Hfr4)|(_ & Hall' & _)].
      2: { exfalso. rewrite Forall_forall in Hall'. specialize (Hall' _ (elem_of_mid _ _ _)). cbv beta in Hall'.
           unfold Wosize_val in Hall', Hw. rewrite Hhd3 in Hall'. lia. }
      destruct Hraw as (raw & la & Em & Em2 & Hraw0 & Hraw1 & Hraw2).
      assert (Em4 : malloc_answers r4 `suffix_of` la).
      { trans (malloc_answers r3); [now apply (keeps_fl_allocate _ _ _ _ _ _ E4)|].
        trans (malloc_answers r2); [now apply (keeps_fl_add_block _ _ _ _ _ _ E3)|done]. }
      eexists _, _, (c1 ++ c :: c2), l', (c - 32), (chunk_end (rmem r2) c). split; [reflexivity|].
      assert (Hbe : block_end (rmem r3) (c + 8) = chunk_end (rmem r2) c) by (rewrite <- Hend; now apply block_end_ext).
      destruct (alloc_shr_second Fl_head wo hp r r2 r3 r4 (c1 ++ c2) l l1 l2 c (chunk_end (rmem r2) c)) as [W1 W2]; try done.
      * now rewrite <- Hmem1.
      * now rewrite <- Hmem1.
      * intros b Hb. rewrite Hhds3, Hhd2, Hmem1 by done. done.
      * apply free_block_end in Hfree. lia.
      * assert (Hcl : c1 ++ c2 ⊆ c1 ++ c :: c2) by (intros x Hx; now apply elem_of_skip_mid).
        split; [now apply (alloc_found _ _ _ _ _ _ _ (c1 ++ c :: c2) _ l')|]. apply detail_finish; try done.
        rewrite Hmem1 in Hce2, Hhd2, Hfr2. rewrite Hm1 in Em. rewrite Hreq in Hraw2.
        now apply (detail_second Fl_head wo hp r r2 r3 r4 c1 c2 l l1 l2 l' c raw la).
Qed.

(** C10: [alloc_shr] on a well-formed heap always ends.  It returns a block of the
    size asked for, inside a chunk, with its header in the colour of the current
    phase; the block comes from the free list or from a new chunk, overlaps no free
    block left, no word in use is changed, and the heap and its free list are well
    formed.  Otherwise [malloc] refused memory, the heap is intact, and
    [Out_of_memory] is raised (or the program stopped during a minor collection).
    A request above [Max_wosize] raises [Out_of_memory] at once. *)
Theorem alloc_shr_correct Fl_head fuel wo tag r cl l :
  arena Fl_head r cl l -> 1 <= wo -> 0 <= major_heap_increment (mjr r) <= Heap_chunk_max ->
  (S (length l) < fuel)%nat -> (length cl < fuel)%nat ->
  malloc_fresh Fl_head r cl (chunk_request r wo + 4128) ->
  (Max_wosize < wo -> alloc_shr Fl_head fuel wo tag r = raise_out_of_memory r) /\
  (wo <= Max_wosize ->
    (exists v r', alloc_shr Fl_head fuel wo tag r = Ok v r' /\ alloc_shr_result Fl_head wo tag r cl l v r') \/
    (exists r', arena Fl_head r' cl l /\ malloc_refuses r /\
       alloc_shr Fl_head fuel wo tag r =
       if in_minor_collection (mnr r') then Fatal "Fatal error: out of memory." else raise_out_of_memory r')).
Proof.
  intros Har Hwo Hinc Hfl Hfc Hfresh. destruct (alloc_shr_spec Fl_head fuel wo tag r cl l Har Hwo Hinc Hfl Hfc Hfresh) as [Hbig Hok].
  split; [done|]. intros Hle. destruct (Hok Hle) as [(v & r' & cl' & l' & lo & hi & E & Hres & _)|(r' & H1 & H2 & _ & H3)]; [|right; eauto].
  left. exists v, r'. split; [done|]. now exists cl', l'.
Qed.

(** ** A heap of two chunks of one page

    The first chunk holds a block of 9 words and a free block of 501 words, the
    second a free block of 511 words.  A third chunk, at 2097152, is ready. *)

Definition demo_mem : mem :=
  let m := st (st ∅ 1000 1048664) 992 (Make_header 0 0 Caml_blue) in
  let m := st (st m 1048560 4096) 1048568 1064960 in
  let m := st m 1048576 (Make_header 9 0 Caml_white) in
  let m := st (st m 1048656 (Make_header 501 0 Caml_blue)) 1048664 1064968 in
  let m := st (st m 1064944 4096) 1064952 0 in
  let m := st (st m 1064960 (Make_header 511 0 Caml_blue)) 1064968 0 in
  st m 2097136 4096.

Definition demo_heap : runtime :=
  MkRuntime demo_mem (MkStacks 0 0 0 0 0 0 0)
    (MkMinor 8192 16384 24576 20000 16384 [] 1 1 3 1 2 false 0)
    (MkMajor 1048576 1069056 256 261 {[ 256 := In_heap; 260 := In_heap ]} 0 Phase_mark [] 1 true 0
       8192 8192 2 80 61440 0 0 0 0 0 0)
    (MkGlobals 0 0 0 0 0 false false false 0 0 0 0 false)
    ∅ 0 ∅ [3000000; 4000000; 5000000] (MkFl ∅ 1000 0 1000 1014 0).

Lemma demo_heap_ok : heap_ok demo_heap [1048576; 1064960].
Proof.
  assert (Hm : forall i, marked (page_table (mjr demo_heap)) i = true <-> i = 256 \/ i = 260).
  { intros i. change (page_table (mjr demo_heap)) with (<[256 := In_heap]> {[260 := In_heap]} : gmap Z Z). unfold marked.
    destruct (decide (i = 256)) as [->|H1]; [split; [auto|done]|].
    destruct (decide (i = 260)) as [->|H2]; [split; [auto|done]|].
    rewrite lookup_insert_ne, lookup_singleton_ne by done. split; [done|lia]. }
  unfold heap_ok. split; [vm_compute; splits; done|]. split; [|split; [|split]].
  - cbn [chunks_sorted]. unfold chunk_ok. splits; try done; vm_compute; discriminate.
  - intros c [->|[->|[]%elem_of_nil]%elem_of_cons]%elem_of_cons; vm_compute; discriminate.
  - intros i. rewrite Hm. split.
    + intros [->| ->]; [exists 1048576|exists 1064960]; (split; [|split; [done|reflexivity]]);
        [apply list_elem_of_here|apply list_elem_of_further, list_elem_of_here].
    + intros (c & [->|[->|[]%elem_of_nil]%elem_of_cons]%elem_of_cons & H).
      * change (256 <= i < 257) in H. lia.
      * change (260 <= i < 261) in H. lia.
  - intros i. rewrite Hm. change (i = 256 \/ i = 260 -> 256 <= i < 261). lia.
Qed.

Lemma demo_arena : arena 1000 demo_heap [1048576; 1064960] [1048664; 1064968].
Proof.
  split; [exact demo_heap_ok|]. split; [|split].
  - unfold fl_inv, fl_list. splits; try (vm_compute; splits; auto; discriminate); try apply list_elem_of_here.
    constructor; [left; vm_compute; discriminate|constructor; [left; vm_compute; discriminate|constructor]].
  - intros b [->|[->|[]%elem_of_nil]%elem_of_cons]%elem_of_cons; [exists 1048576|exists 1064960];
      (split; [|split; [done|vm_compute; discriminate]]); [apply list_elem_of_here|apply list_elem_of_further, list_elem_of_here].
  - intros c [->|[->|[]%elem_of_nil]%elem_of_cons]%elem_of_cons; (split; [vm_compute; discriminate|left; done]).
Qed.

Lemma round_heap_chunk_size_correct_witness :
  exists size, round_heap_chunk_size 5000 demo_heap = Ok size demo_heap /\ size mod 4096 = 0 /\
     5000 <= size /\ 4096 <= size <= Heap_chunk_max.
Proof. apply round_heap_chunk_size_correct; [lia|split; [done|vm_compute; discriminate]|vm_compute; discriminate]. Defined.

Lemma add_to_heap_correct_witness :
  exists v r', add_to_heap 3 2097152 demo_heap = Ok v r' /\
    ((v = 0 /\ (exists l1 l2, [1048576; 1064960] = l1 ++ l2 /\ heap_ok r' (l1 ++ 2097152 :: l2) /\
        links_only (l1 ++ 2097152 :: l2) (rmem demo_heap) (rmem r')) /\
        stat_heap_size (mjr r') = stat_heap_size (mjr demo_heap) + Chunk_size (rmem demo_heap) 2097152 /\
        forall p, Is_in_heap (mjr r') p = true <->
          Is_in_heap (mjr demo_heap) p = true \/ 2097152 <= p < chunk_end (rmem demo_heap) 2097152) \/
     (v = -1 /\ heap_ok r' [1048576; 1064960] /\ rmem r' = rmem demo_heap /\
        (forall p, Is_in_heap (mjr r') p = true <-> Is_in_heap (mjr demo_heap) p = true) /\
        forall a b la, malloc_answers demo_heap = a :: b :: la -> a = 0 \/ b = 0)).
Proof.
  apply add_to_heap_correct; [exact demo_heap_ok| |cbn; lia].
  split; [|split; [lia|]]; [unfold chunk_ok; splits; done|].
  intros c [->|[->|[]%elem_of_nil]%elem_of_cons]%elem_of_cons; left; vm_compute; discriminate.
Defined.

Lemma shrink_heap_correct_witness :
  exists r', shrink_heap 2 1064960 demo_heap = Ok tt r' /\ heap_ok r' [1048576] /\
    links_only [1048576] (rmem demo_heap) (rmem r') /\
    stat_heap_size (mjr r') = stat_heap_size (mjr demo_heap) - Chunk_size (rmem demo_heap) 1064960 /\
    forall p, Is_in_heap (mjr r') p = true <->
      Is_in_heap (mjr demo_heap) p = true /\ ~ 1064960 <= p < chunk_end (rmem demo_heap) 1064960.
Proof. apply (shrink_heap_correct 2 demo_heap [1048576] 1064960 []); [exact demo_heap_ok|cbn; lia]. Defined.

(** 1000 words do not fit in a free block: the heap grows. *)
Lemma alloc_shr_correct_witness :
  (exists v r', alloc_shr 1000 4 1000 0 demo_heap = Ok v r' /\
     alloc_shr_result 1000 1000 0 demo_heap [1048576; 1064960] [1048664; 1064968] v r') \/
  (exists r', arena 1000 r' [1048576; 1064960] [1048664; 1064968] /\ malloc_refuses demo_heap /\
     alloc_shr 1000 4 1000 0 demo_heap =
     if in_minor_collection (mnr r') then Fatal "Fatal error: out of memory." else raise_out_of_memory r').
Proof.
  apply alloc_shr_correct; [exact demo_arena|lia|split; [done|vm_compute; discriminate]|cbn; lia|cbn; lia|
    |vm_compute; discriminate].
  change (chunk_request demo_heap 1000) with 61440. unfold malloc_fresh. cbn [malloc_answers demo_heap].
  right. split; [lia|]. split; [lia|]. split; [|lia].
  intros c [->|[->|[]%elem_of_nil]%elem_of_cons]%elem_of_cons; left; vm_compute; discriminate.
Defined.
