(* ===== verification/GlobRoots.v ===== *)
(** * The global roots

    Models [byterun/globroots.c]: the addresses C code registers as roots are kept
    in a skip list sorted by address, whose levels are drawn by a linear
    congruential generator; and the loop of [byterun/roots.c] that visits them.  An
    access outside an array, or through a dangling pointer, is [None]. *)

From stdpp Require Import option sorting.
From S2P Require Import Prelude.

(** ** The list *)

Definition MAX_LEVEL : nat := 15.

(** A pointer to a node: the head of the list, or a node at an address. *)
Abbreviation ref := (option Z).

Record global_root_list := MkRoots {
  head : list Z;                    (* forward[MAX_LEVEL] of the head *)
  nodes : gmap Z (Z * list Z);      (* root and forward array of each node *)
  level : nat;
  random_seed : Z
}.

(** [e->forward[i]] *)
Definition get_fwd (s : global_root_list) (e : ref) (i : nat) : option Z :=
  match e with
  | None => head s !! i
  | Some a => n ← nodes s !! a; n.2 !! i
  end.

(** [e->forward[i] = v] *)
Definition set_fwd (e : ref) (i : nat) (v : Z) (s : global_root_list) : option global_root_list :=
  match e with
  | None =>
      if (i <? length (head s))%nat
      then Some (MkRoots (<[i := v]> (head s)) (nodes s) (level s) (random_seed s)) else None
  | Some a =>
      n ← nodes s !! a;
      if (i <? length n.2)%nat
      then Some (MkRoots (head s) (<[a := (n.1, <[i := v]> n.2)]> (nodes s)) (level s) (random_seed s)) else None
  end.

Definition root_of (s : global_root_list) (a : Z) : option Z := n ← nodes s !! a; Some n.1.

(** ** Levels *)

Fixpoint random_loop (fuel : nat) (r : Z) (lvl : nat) : option nat :=
  match fuel with
  | O => None
  | S fuel =>
      if Z.land r 0xC0000000 =? 0xC0000000 then random_loop fuel (u32 (Z.shiftl r 2)) (S lvl) else Some lvl
  end.

Definition next_seed (seed : Z) : Z := u32 (seed * 69069 + 25173).
Definition random_level (s : global_root_list) : option (nat * global_root_list) :=
  let r := next_seed (random_seed s) in
  lvl ← random_loop 17 r 0; Some (lvl, MkRoots (head s) (nodes s) (level s) r).

(** ** Search *)

(** [while (1) { f = e->forward[i]; if (f == NULL || f->root >= r) break; e = f; }] *)
Fixpoint advance (fuel : nat) (s : global_root_list) (e : ref) (i : nat) (r : Z) : option ref :=
  match fuel with
  | O => None
  | S fuel =>
      f ← get_fwd s e i;
      if f =? 0 then Some e
      else rt ← root_of s f; if r <=? rt then Some e else advance fuel s (Some f) i r
  end.

(** [update[i] = e], in an array of [MAX_LEVEL] cells. *)
Definition put_update (i : nat) (e : ref) (update : gmap nat ref) : option (gmap nat ref) :=
  if (i <? MAX_LEVEL)%nat then Some (<[i := e]> update) else None.

(** [for (i = level; i >= 0; i--)] *)
Fixpoint search (fuel : nat) (s : global_root_list) (i : nat) (e : ref) (r : Z) (update : gmap nat ref)
  : option (ref * gmap nat ref) :=
  e ← advance fuel s e i r;
  update ← put_update i e update;
  match i with
  | O => Some (e, update)
  | S i => search fuel s i e r update
  end.

(** ** Registration *)

(** [for (i = lo; i < lo + n; i++) update[i] = head] *)
Fixpoint head_updates (n lo : nat) (update : gmap nat ref) : option (gmap nat ref) :=
  match n with
  | O => Some update
  | S n => update ← put_update lo None update; head_updates n (S lo) update
  end.

(** [for (; i < i + n; i++) { e->forward[i] = update[i]->forward[i]; update[i]->forward[i] = e; }] *)
Fixpoint link_node (n i : nat) (a : Z) (update : gmap nat ref) (s : global_root_list) : option global_root_list :=
  match n with
  | O => Some s
  | S n =>
      u ← update !! i;
      f ← get_fwd s u i;
      s ← set_fwd (Some a) i f s;
      s ← set_fwd u i a s;
      link_node n (S i) a update s
  end.

Definition set_level (l : nat) (s : global_root_list) : global_root_list :=
  MkRoots (head s) (nodes s) l (random_seed s).
Definition set_nodes (n : gmap Z (Z * list Z)) (s : global_root_list) : global_root_list :=
  MkRoots (head s) n (level s) (random_seed s).

(** [a] is the address [stat_alloc] finds for the new node, [0] when it raises
    [Out_of_memory]; the result tells whether the call returns. *)
Definition register_global_root (fuel : nat) (r a : Z) (s : global_root_list) : option (bool * global_root_list) :=
  '(e, update) ← search fuel s (level s) None r ∅;
  f ← get_fwd s e 0;
  present ← (if f =? 0 then Some false else rt ← root_of s f; Some (rt =? r));
  if (present : bool) then Some (true, s)
  else
    '(new_level, s) ← random_level s;
    update ← (if (level s <? new_level)%nat then head_updates (new_level - level s) (S (level s)) update
              else Some update);
    let s := if (level s <? new_level)%nat then set_level new_level s else s in
    if a =? 0 then Some (false, s)
    else
      let s := set_nodes (<[a := (r, replicate (S new_level) 0)]> (nodes s)) s in
      s ← link_node (S new_level) 0 a update s;
      Some (true, s).

(** ** Removal *)

Fixpoint unlink_node (n i : nat) (a : Z) (update : gmap nat ref) (s : global_root_list) : option global_root_list :=
  match n with
  | O => Some s
  | S n =>
      u ← update !! i;
      f ← get_fwd s u i;
      s ← (if f =? a then g ← get_fwd s (Some a) i; set_fwd u i g s else Some s);
      unlink_node n (S i) a update s
  end.

(** [while (level > 0 && forward[level] == NULL) level--;] *)
Fixpoint lower_level (l : nat) (h : list Z) : option nat :=
  match l with
  | O => Some O
  | S l' => f ← h !! l; if f =? 0 then lower_level l' h else Some l
  end.

Definition remove_global_root (fuel : nat) (r : Z) (s : global_root_list) : option global_root_list :=
  '(e, update) ← search fuel s (level s) None r ∅;
  a ← get_fwd s e 0;
  found ← (if a =? 0 then Some false else rt ← root_of s a; Some (rt =? r));
  if negb found then Some s
  else
    s ← unlink_node (S (level s)) 0 a update s;
    let s := set_nodes (delete a (nodes s)) s in
    l ← lower_level (level s) (head s);
    Some (set_level l s).

(** ** Visiting the roots *)

(** [for (gr = caml_global_roots.forward[0]; gr != NULL; gr = gr->forward[0]) f (gr->root)] *)
Fixpoint visit (fuel : nat) (s : global_root_list) (gr : Z) : option (list Z) :=
  match fuel with
  | O => None
  | S fuel =>
      if gr =? 0 then Some []
      else rt ← root_of s gr; next ← get_fwd s (Some gr) 0; l ← visit fuel s next; Some (rt :: l)
  end.

Definition global_roots (fuel : nat) (s : global_root_list) : option (list Z) :=
  gr ← head s !! 0%nat; visit fuel s gr.

(** [caml_global_roots = { NULL, { NULL, }, 0 }] *)
Definition caml_global_roots : global_root_list := MkRoots (replicate MAX_LEVEL 0) ∅ 0 0.


(** ** Levels are drawn in bounded time *)

Lemma random_loop_S fuel r lvl :
  random_loop (S fuel) r lvl =
  if Z.land r 0xC0000000 =? 0xC0000000 then random_loop fuel (u32 (Z.shiftl r 2)) (S lvl) else Some lvl.
Proof. reflexivity. Qed.

(** Each shift brings in two zero bits: sixteen of them leave none. *)
Lemma random_loop_ends n : forall r lvl,
  isu32 r -> (4 ^ (16 - Z.of_nat n) | r) -> (n <= 16)%nat ->
  exists k, random_loop (S n) r lvl = Some (lvl + k)%nat /\ (k <= n)%nat.
Proof.
  induction n as [|n IH]; intros r lvl Hr Hd Hn.
  - exists 0%nat. assert (r = 0) as ->; [|split; [f_equal; lia|lia]].
    destruct Hd as [x ->]. change (4 ^ (16 - Z.of_nat 0)) with B32 in *. unfold isu32 in Hr. lia.
  - rewrite random_loop_S. destruct (_ =? _).
    + destruct (IH (u32 (Z.shiftl r 2)) (S lvl)) as (k & E & Hk); [apply u32_range| |lia|].
      * rewrite Z.shiftl_mul_pow2 by lia. change (2 ^ 2) with 4. unfold u32. rewrite Z.mod_eq by lia.
        apply Z.divide_sub_r.
        -- replace (16 - Z.of_nat n) with (16 - Z.of_nat (S n) + 1) by lia.
           rewrite Z.pow_add_r by lia. now apply Z.mul_divide_mono_r.
        -- apply Z.divide_mul_l. exists (4 ^ Z.of_nat n). change B32 with (4 ^ 16). rewrite <- Z.pow_add_r by lia.
           f_equal. lia.
      * exists (S k). rewrite E. split; [f_equal; lia|lia].
    + exists 0%nat. split; [f_equal; lia|lia].
Qed.

Lemma random_level_ends s :
  exists k, random_level s = Some (k, MkRoots (head s) (nodes s) (level s) (next_seed (random_seed s))) /\ (k <= 16)%nat.
Proof.
  destruct (random_loop_ends 16 (next_seed (random_seed s)) 0) as (k & E & Hk);
    [apply u32_range|apply Z.divide_1_l|lia|].
  exists k. split; [|exact Hk]. unfold random_level. cbv zeta. rewrite E. reflexivity.
Qed.

(** ** The abstract list *)

Record entry := MkEntry { eaddr : Z; eroot : Z; eheight : nat }.

Implicit Types (s : global_root_list) (ns A B l : list entry).

(** The nodes present at level [i]. *)
Definition at_level (i : nat) ns : list entry := filter (fun n => (i < eheight n)%nat) ns.

(** Following [forward[i]] from [e] visits [l]. *)
Fixpoint chain s (i : nat) (e : ref) (l : list entry) : Prop :=
  match l with
  | [] => get_fwd s e i = Some 0
  | n :: l => get_fwd s e i = Some (eaddr n) /\ chain s i (Some (eaddr n)) l
  end.

Fixpoint last_ref (e : ref) (l : list entry) : ref :=
  match l with [] => e | n :: l => last_ref (Some (eaddr n)) l end.

(** The root and the number of levels of the node at [a]. *)
Definition shape s (a : Z) : option (Z * nat) := (fun n => (n.1, length n.2)) <$> nodes s !! a.

Definition node_ok s (n : entry) : Prop :=
  eaddr n <> 0 /\ (1 <= eheight n <= S (level s))%nat /\ shape s (eaddr n) = Some (eroot n, eheight n).

(** The invariant: the nodes sorted by root, each with an array as long as it is
    high, and every level a chain of the nodes that reach it. *)
Definition skip_list s ns : Prop :=
  length (head s) = MAX_LEVEL /\ (level s < MAX_LEVEL)%nat /\
  Forall (node_ok s) ns /\ StronglySorted (fun m n => eroot m < eroot n) ns /\ NoDup (eaddr <$> ns) /\
  forall i, (i < MAX_LEVEL)%nat -> chain s i None (at_level i ns).

Lemma last_ref_app e l1 l2 : last_ref e (l1 ++ l2) = last_ref (last_ref e l1) l2.
Proof. revert e. induction l1; intros e; cbn; auto. Qed.

Lemma last_ref_elem e l : last_ref e l = e \/ exists n, n ∈ l /\ last_ref e l = Some (eaddr n).
Proof.
  revert e. induction l as [|n l IH]; intros e; [now left|]. right. cbn.
  destruct (IH (Some (eaddr n))) as [->|(m & Hm & ->)]; [exists n|exists m]; (split; [|done]);
    [apply list_elem_of_here|now apply list_elem_of_further].
Qed.

Lemma chain_app s i e l1 l2 : chain s i e (l1 ++ l2) -> chain s i (last_ref e l1) l2.
Proof. revert e. induction l1; intros e; [done|]. intros [_ H]. now apply IHl1. Qed.

Lemma at_level_app i A B : at_level i (A ++ B) = at_level i A ++ at_level i B.
Proof. apply filter_app. Qed.

Lemma elem_of_at_level i ns n : n ∈ at_level i ns <-> (i < eheight n)%nat /\ n ∈ ns.
Proof. unfold at_level. now rewrite list_elem_of_filter. Qed.

(** ** The search *)

Lemma node_ok_root s n : node_ok s n -> root_of s (eaddr n) = Some (eroot n).
Proof.
  intros (_ & _ & E). unfold root_of, shape in *. destruct (nodes s !! eaddr n) as [[rt f]|]; [|done].
  now injection E as -> _.
Qed.

Lemma advance_spec s i r l1 l2 : forall fuel e,
  chain s i e (l1 ++ l2) -> Forall (node_ok s) (l1 ++ l2) ->
  Forall (fun n => eroot n < r) l1 -> Forall (fun n => r <= eroot n) l2 ->
  (length l1 < fuel)%nat -> advance fuel s e i r = Some (last_ref e l1).
Proof.
  induction l1 as [|n l1 IH]; intros [|fuel] e Hc Hok H1 H2 Hf; cbn [length] in Hf; try lia; cbn [advance app] in *.
  - destruct l2 as [|n l2].
    + cbn in Hc. rewrite Hc. reflexivity.
    + destruct Hc as [-> _]. apply Forall_cons in Hok as [Hn _]. apply Forall_cons in H2 as [Hr _].
      pose proof (node_ok_root _ _ Hn) as Hrt. destruct Hn as [Ha _]. cbn [mbind option_bind].
      destruct (Z.eqb_spec (eaddr n) 0); [done|]. rewrite Hrt. cbn [mbind option_bind].
      destruct (Z.leb_spec r (eroot n)); [done|lia].
  - destruct Hc as [-> Hc]. apply Forall_cons in Hok as [Hn Hok]. apply Forall_cons in H1 as [Hr H1].
    pose proof (node_ok_root _ _ Hn) as Hrt. destruct Hn as [Ha _]. cbn [mbind option_bind].
    destruct (Z.eqb_spec (eaddr n) 0); [done|]. rewrite Hrt. cbn [mbind option_bind].
    destruct (Z.leb_spec r (eroot n)); [lia|]. cbn [last_ref]. apply IH; try done. lia.
Qed.

(** The last node below [r] at level [i]. *)
Definition pred (i : nat) A : ref := last_ref None (at_level i A).

(** The cursor of a level is on the way of the next one. *)
Lemma pred_below i A : exists X Y, at_level i A = X ++ Y /\ pred (S i) A = last_ref None X.
Proof.
  unfold pred. destruct (at_level (S i) A) as [|n l] eqn:E using rev_ind.
  - exists [], (at_level i A). done.
  - clear IHl. assert (Hn : n ∈ at_level i A).
    { assert (Hin : n ∈ at_level (S i) A) by (rewrite E; apply elem_of_app; right; apply list_elem_of_here).
      apply elem_of_at_level in Hin as [Hh Hin]. apply elem_of_at_level. split; [lia|done]. }
    apply list_elem_of_split in Hn as (X & Y & ->). exists (X ++ [n]), Y. split; [now rewrite <- app_assoc|].
    now rewrite !last_ref_app.
Qed.

Lemma Forall_at_level (P : entry -> Prop) i ns : Forall P ns -> Forall P (at_level i ns).
Proof. rewrite !Forall_forall. intros H n Hn. apply H. now apply elem_of_at_level in Hn as [_ ?]. Qed.

Section Search.
Context s A B (r : Z) (fuel : nat).
Context (Hs : skip_list s (A ++ B)) (Hf : (length A < fuel)%nat).
Context (HA : Forall (fun n => eroot n < r) A) (HB : Forall (fun n => r <= eroot n) B).

Lemma advance_level i X Y :
  (i < MAX_LEVEL)%nat -> at_level i A = X ++ Y -> advance fuel s (last_ref None X) i r = Some (pred i A).
Proof.
  intros Hi E. destruct Hs as (_ & _ & Hok & _ & _ & Hc). specialize (Hc i Hi).
  rewrite at_level_app, E, <- app_assoc in Hc. apply chain_app in Hc.
  assert (HAl : Forall (fun n => eroot n < r) (X ++ Y)) by (rewrite <- E; now apply Forall_at_level).
  apply Forall_app in HAl as [_ HY].
  rewrite (advance_spec s i r Y (at_level i B)); try done.
  - unfold pred. now rewrite E, last_ref_app.
  - assert (Hal : Forall (node_ok s) (X ++ Y ++ at_level i B)).
    { rewrite app_assoc, <- E, <- at_level_app. now apply Forall_at_level. }
    now apply Forall_app in Hal as [_ ?].
  - now apply Forall_at_level.
  - assert (length (at_level i A) <= length A)%nat by apply length_filter.
    rewrite E, length_app in *. lia.
Qed.

(** The search leaves the predecessor at every level in [update]. *)
Lemma search_from i : forall X Y update,
  (i < MAX_LEVEL)%nat -> at_level i A = X ++ Y ->
  exists update', search fuel s i (last_ref None X) r update = Some (pred 0 A, update') /\
    (forall j, (j <= i)%nat -> update' !! j = Some (pred j A)) /\ (forall j, (i < j)%nat -> update' !! j = update !! j).
Proof.
  induction i as [|i IH]; intros X Y update Hi E; cbn [search]; rewrite (advance_level _ X Y) by done;
    cbn [mbind option_bind]; unfold put_update at 1.
  - destruct (Nat.ltb_spec 0 MAX_LEVEL); [|lia]. cbn [mbind option_bind]. eexists. split; [reflexivity|]. split.
    + intros j Hj. assert (j = 0)%nat as -> by lia. apply lookup_insert_eq.
    + intros j Hj. apply lookup_insert_ne. lia.
  - destruct (Nat.ltb_spec (S i) MAX_LEVEL); [|lia]. cbn [mbind option_bind].
    destruct (pred_below i A) as (X' & Y' & E' & Ep).
    destruct (IH X' Y' (<[S i := pred (S i) A]> update)) as (update' & Es & H1 & H2); [lia|done|].
    exists update'. split; [|split].
    + now rewrite <- Es, <- Ep.
    + intros j Hj. destruct (decide (j = S i)) as [->|]; [|apply H1; lia].
      rewrite H2 by lia. apply lookup_insert_eq.
    + intros j Hj. rewrite H2 by lia. apply lookup_insert_ne. lia.
Qed.

Lemma search_spec :
  exists update, search fuel s (level s) None r ∅ = Some (pred 0 A, update) /\
    (forall j, (j <= level s)%nat -> update !! j = Some (pred j A)) /\ (forall j, (level s < j)%nat -> update !! j = None).
Proof.
  pose proof Hs as (_ & Hl & _).
  destruct (search_from (level s) [] (at_level (level s) A) ∅ Hl eq_refl) as (u & E & H1 & H2). exists u.
  split; [exact E|]. split; [done|]. intros j Hj. rewrite H2 by done. apply lookup_empty.
Qed.
End Search.

(** ** Writing links *)

(** Only links differ. *)
Definition same_shape s s' : Prop :=
  (forall a, shape s' a = shape s a) /\ length (head s') = length (head s) /\ level s' = level s /\
  random_seed s' = random_seed s.

Lemma same_shape_trans s1 s2 s3 : same_shape s1 s2 -> same_shape s2 s3 -> same_shape s1 s3.
Proof. intros (H1 & H2 & H3 & H4) (K1 & K2 & K3 & K4). unfold same_shape. split_and!; try congruence. Qed.

Lemma get_fwd_Some_shape s a i x : get_fwd s (Some a) i = Some x -> exists rt h, shape s a = Some (rt, h) /\ (i < h)%nat.
Proof.
  unfold get_fwd, shape. destruct (nodes s !! a) as [[rt f]|]; [|done]. cbn. intros Hx.
  apply lookup_lt_Some in Hx. eauto.
Qed.

Lemma shape_get_fwd s a rt h i : shape s a = Some (rt, h) -> (i < h)%nat -> exists x, get_fwd s (Some a) i = Some x.
Proof.
  unfold get_fwd, shape. destruct (nodes s !! a) as [[rt' f]|]; [|done]. cbn. intros [= _ <-] Hi.
  apply lookup_lt_is_Some_2 in Hi as [x Hx]. eauto.
Qed.

Lemma shape_get_fwd_None s a rt h i : shape s a = Some (rt, h) -> (h <= i)%nat -> get_fwd s (Some a) i = None.
Proof.
  unfold get_fwd, shape. destruct (nodes s !! a) as [[rt' f]|]; [|done]. cbn. intros [= _ <-] Hi.
  now apply lookup_ge_None_2.
Qed.

Lemma set_fwd_spec s e i v x :
  get_fwd s e i = Some x ->
  exists s', set_fwd e i v s = Some s' /\ same_shape s s' /\
    forall e' j, get_fwd s' e' j = if decide (e' = e /\ j = i) then Some v else get_fwd s e' j.
Proof.
  intros Hx. destruct e as [a|]; cbn [get_fwd set_fwd] in *.
  - destruct (nodes s !! a) as [[rt f]|] eqn:En; [|done]. cbn [mbind option_bind] in *.
    pose proof (lookup_lt_Some _ _ _ Hx) as Hlt. cbn [fst snd] in *.
    destruct (Nat.ltb_spec i (length f)); [|lia]. eexists. split; [reflexivity|]. split.
    + split_and!; try done. intros b. unfold shape. cbn [nodes]. destruct (decide (b = a)) as [->|].
      * rewrite lookup_insert_eq, En. cbn. now rewrite length_insert.
      * now rewrite lookup_insert_ne by done.
    + intros [b|] j; cbn [get_fwd nodes head].
      * destruct (decide (b = a)) as [->|Hne].
        -- rewrite lookup_insert_eq, En. cbn [mbind option_bind snd].
           destruct (decide (Some a = Some a /\ j = i)) as [[_ ->]|Hn]; [now apply list_lookup_insert_eq|].
           apply list_lookup_insert_ne. intros ->. now apply Hn.
        -- rewrite lookup_insert_ne by done. destruct (decide (Some b = Some a /\ j = i)) as [[[= ?] _]|]; done.
      * destruct (decide (None = Some a /\ j = i)) as [[? _]|]; done.
  - pose proof (lookup_lt_Some _ _ _ Hx) as Hlt. destruct (Nat.ltb_spec i (length (head s))); [|lia].
    eexists. split; [reflexivity|]. split.
    + split_and!; try done. cbn. now rewrite length_insert.
    + intros [b|] j; cbn [get_fwd nodes head].
      * destruct (decide (Some b = None /\ j = i)) as [[? _]|]; done.
      * destruct (decide (None = None /\ j = i)) as [[_ ->]|Hn]; [now apply list_lookup_insert_eq|].
        apply list_lookup_insert_ne. intros ->. now apply Hn.
Qed.

(** The loop that links the node [a] at the levels from [i]. *)
Lemma link_node_spec a update (u : nat -> ref) n : forall i s,
  (forall j, (i <= j < i + n)%nat -> update !! j = Some (u j) /\ u j <> Some a /\
     is_Some (get_fwd s (u j) j) /\ is_Some (get_fwd s (Some a) j)) ->
  exists s', link_node n i a update s = Some s' /\ same_shape s s' /\
    forall e j, get_fwd s' e j =
      if decide (i <= j < i + n)%nat then
        if decide (e = u j) then Some a else if decide (e = Some a) then get_fwd s (u j) j else get_fwd s e j
      else get_fwd s e j.
Proof.
  induction n as [|n IH]; intros i s H; cbn [link_node].
  - exists s. split; [done|]. split; [now split_and!|]. intros e j. destruct (decide _); [lia|done].
  - destruct (H i ltac:(lia)) as (Hu & Hne & [f Hf] & [g Hg]). rewrite Hu. cbn [mbind option_bind].
    rewrite Hf. cbn [mbind option_bind].
    destruct (set_fwd_spec s (Some a) i f g Hg) as (s1 & -> & S1 & F1). cbn [mbind option_bind].
    assert (Hf1 : get_fwd s1 (u i) i = Some f).
    { rewrite F1. destruct (decide _) as [[? _]|]; done. }
    destruct (set_fwd_spec s1 (u i) i a f Hf1) as (s2 & -> & S2 & F2). cbn [mbind option_bind].
    assert (F : forall e j, get_fwd s2 e j = if decide (j = i) then
        if decide (e = u i) then Some a else if decide (e = Some a) then Some f else get_fwd s e j else get_fwd s e j).
    { intros e j. rewrite F2, F1. repeat case_decide; destruct_and?; simplify_eq; try done; exfalso; tauto. }
    destruct (IH (S i) s2) as (s' & -> & S' & F').
    { intros j Hj. destruct (H j ltac:(lia)) as (K1 & K2 & K3 & K4). split; [done|]. split; [done|].
      rewrite !F. destruct (decide (j = i)); [lia|done]. }
    exists s'. split; [done|]. split; [eauto using same_shape_trans|]. intros e j. rewrite F', !F.
    destruct (decide (j = i)) as [->|Hji].
    + destruct (decide (S i <= i < S i + n)%nat); [lia|]. destruct (decide (i <= i < i + S n)%nat); [|lia].
      rewrite Hf. done.
    + destruct (decide (S i <= j < S i + n)%nat), (decide (i <= j < i + S n)%nat); try lia; done.
Qed.

(** ** Chains after a change *)

Definition refs l : list ref := (fun n => Some (eaddr n)) <$> l.

Lemma elem_of_refs e l : e ∈ refs l <-> exists n, e = Some (eaddr n) /\ n ∈ l.
Proof. apply list_elem_of_fmap. Qed.

Lemma last_ref_in e l : last_ref e l ∈ e :: refs l.
Proof.
  destruct (last_ref_elem e l) as [->|(n & Hn & ->)]; [apply list_elem_of_here|].
  apply list_elem_of_further, elem_of_refs. eauto.
Qed.

Lemma NoDup_refs l : NoDup (eaddr <$> l) -> NoDup (None :: refs l).
Proof.
  intros H. apply NoDup_cons. split.
  - intros (n & Hn & _)%elem_of_refs. done.
  - assert (refs l = Some <$> (eaddr <$> l)) as -> by apply (list_fmap_compose eaddr Some). apply NoDup_fmap_2; [|done].
    intros x y [=]. done.
Qed.

(** The links before the last node of [l1] are kept; it leads to [X]. *)
Lemma chain_relink s s' i l1 l2 X : forall e,
  chain s i e (l1 ++ l2) -> NoDup (e :: refs l1) ->
  (forall e', e' ∈ e :: refs l1 -> e' <> last_ref e l1 -> get_fwd s' e' i = get_fwd s e' i) ->
  chain s' i (last_ref e l1) X -> chain s' i e (l1 ++ X).
Proof.
  induction l1 as [|m l1 IH]; intros e Hc Hnd Ho HX; [exact HX|]. destruct Hc as [He Hc].
  apply NoDup_cons in Hnd as [Hni Hnd]. cbn [app chain last_ref] in *. split.
  - rewrite Ho; [done|apply list_elem_of_here|]. intros ->. apply Hni, last_ref_in.
  - apply IH; try done. intros e' He' Hne. apply Ho; [|done]. now apply list_elem_of_further.
Qed.

(** The same nodes from another one. *)
Lemma chain_from s s' i p q l :
  chain s i p l -> get_fwd s' q i = get_fwd s p i ->
  (forall e, e ∈ refs l -> get_fwd s' e i = get_fwd s e i) -> chain s' i q l.
Proof.
  revert p q. induction l as [|m l IH]; intros p q Hc Hq Ho; cbn [chain] in *; [congruence|].
  destruct Hc as [Hp Hc]. split; [congruence|]. apply (IH (Some (eaddr m))); try done.
  - apply Ho, list_elem_of_here.
  - intros e He. apply Ho. now apply list_elem_of_further.
Qed.

Lemma refs_app l1 l2 : refs (l1 ++ l2) = refs l1 ++ refs l2.
Proof. apply fmap_app. Qed.

Lemma refs_at_level i ns e : e ∈ refs (at_level i ns) -> e ∈ refs ns.
Proof. intros (n & -> & Hn)%elem_of_refs. apply elem_of_refs. exists n. split; [done|]. now apply elem_of_at_level in Hn. Qed.

Lemma NoDup_at_level i ns : NoDup (eaddr <$> ns) -> NoDup (None :: refs (at_level i ns)).
Proof.
  intros H. apply NoDup_refs. induction ns as [|n ns IH]; [constructor|]. cbn [fmap list_fmap] in H.
  apply NoDup_cons in H as [Hn H]. unfold at_level. rewrite filter_cons. destruct (decide _); [|now apply IH].
  cbn [fmap list_fmap]. apply NoDup_cons. split; [|now apply IH]. intros (m & Hm & Hin)%list_elem_of_fmap.
  apply Hn, list_elem_of_fmap. exists m. split; [done|]. now apply elem_of_at_level in Hin.
Qed.

(** The predecessor separates the chain of a level. *)
Lemma pred_in i A : pred i A ∈ None :: refs (at_level i A).
Proof. apply last_ref_in. Qed.

Lemma pred_not_after i A B : NoDup (eaddr <$> A ++ B) -> pred i A ∉ refs B.
Proof.
  intros Hnd Hin. pose proof (pred_in i A) as Hp. apply elem_of_cons in Hp as [E|Hp].
  - rewrite E in Hin. now apply elem_of_refs in Hin as (n & ? & _).
  - apply refs_at_level, elem_of_refs in Hp as (n & E & Hn). rewrite E in Hin.
    apply elem_of_refs in Hin as (m & Em & Hm). injection Em as Em. rewrite fmap_app in Hnd.
    apply NoDup_app in Hnd as (_ & Hd & _). apply (Hd (eaddr n)); [apply list_elem_of_fmap; eauto|].
    rewrite Em. apply list_elem_of_fmap; eauto.
Qed.

(** The chain of a level with a node between [A] and [B], and without it. *)
Lemma chain_level_insert s s' i n A B :
  NoDup (eaddr <$> A ++ B) -> eaddr n ∉ eaddr <$> A ++ B ->
  chain s i None (at_level i (A ++ B)) -> (i < eheight n)%nat ->
  get_fwd s' (pred i A) i = Some (eaddr n) ->
  get_fwd s' (Some (eaddr n)) i = get_fwd s (pred i A) i ->
  (forall e, e <> pred i A -> e <> Some (eaddr n) -> get_fwd s' e i = get_fwd s e i) ->
  chain s' i None (at_level i (A ++ n :: B)).
Proof.
  intros Hnd Hni Hc Hh H1 H2 H3. rewrite at_level_app in *.
  assert (E : at_level i (n :: B) = n :: at_level i B) by (unfold at_level; now rewrite filter_cons_True).
  assert (Hn : forall e, e ∈ refs (A ++ B) -> e <> Some (eaddr n)).
  { intros e (m & -> & Hm)%elem_of_refs [= E']. apply Hni. rewrite <- E'. apply list_elem_of_fmap. eauto. }
  rewrite E. apply (chain_relink s s' i (at_level i A) (at_level i B)); try done.
  - apply NoDup_at_level. rewrite fmap_app in Hnd. now apply NoDup_app in Hnd as (? & _).
  - intros e He Hne. apply H3; [done|]. apply elem_of_cons in He as [->|He]; [done|]. apply Hn.
    rewrite refs_app. apply elem_of_app. left. now apply refs_at_level in He.
  - split; [done|]. apply (chain_from s s' i (pred i A)); [now apply chain_app in Hc|done|].
    intros e He%refs_at_level. apply H3.
    + intros ->. now apply (pred_not_after i A B Hnd).
    + apply Hn. rewrite refs_app. apply elem_of_app. now right.
Qed.

Lemma chain_level_remove s s' i n A B :
  NoDup (eaddr <$> A ++ n :: B) -> chain s i None (at_level i (A ++ n :: B)) ->
  ((i < eheight n)%nat -> get_fwd s' (pred i A) i = get_fwd s (Some (eaddr n)) i) ->
  (~ (i < eheight n)%nat -> get_fwd s' (pred i A) i = get_fwd s (pred i A) i) ->
  (forall e, e <> pred i A -> e <> Some (eaddr n) -> get_fwd s' e i = get_fwd s e i) ->
  chain s' i None (at_level i (A ++ B)).
Proof.
  intros Hnd Hc H1 H1' H3. rewrite at_level_app in *. pose proof Hnd as Hnd'. rewrite fmap_app in Hnd'.
  apply NoDup_app in Hnd' as (HA & HAB & HB). cbn [fmap list_fmap] in HAB, HB. apply NoDup_cons in HB as [HnB HB].
  assert (HnA : forall e, e ∈ refs A -> e <> Some (eaddr n)).
  { intros e (m & -> & Hm)%elem_of_refs [= E']. apply (HAB (eaddr m)); [apply list_elem_of_fmap; eauto|].
    rewrite E'. apply list_elem_of_here. }
  assert (HnB' : forall e, e ∈ refs B -> e <> Some (eaddr n)).
  { intros e (m & -> & Hm)%elem_of_refs [= E']. apply HnB. rewrite <- E'. apply list_elem_of_fmap; eauto. }
  apply (chain_relink s s' i (at_level i A) (at_level i (n :: B))); try done.
  - now apply NoDup_at_level.
  - intros e He Hne. apply H3; [done|]. apply elem_of_cons in He as [->|He]; [done|]. apply HnA. now apply refs_at_level in He.
  - apply chain_app in Hc. fold (pred i A) in *. unfold at_level in Hc |- *. fold (at_level i B) in *. rewrite filter_cons in Hc.
    assert (Hout : forall e, e ∈ refs (at_level i B) -> get_fwd s' e i = get_fwd s e i).
    { intros e He%refs_at_level. apply H3; [|now apply HnB']. intros ->.
      apply (pred_not_after i A (n :: B) Hnd). now apply list_elem_of_further. }
    destruct (decide _) as [Hh|Hh].
    + destruct Hc as [_ Hc]. apply (chain_from s s' i (Some (eaddr n))); auto.
    + apply (chain_from s s' i (pred i A)); auto.
Qed.

(** ** Registration *)

Abbreviation by_root := (fun m n : entry => eroot m < eroot n).

Lemma sorted_split r ns :
  StronglySorted by_root ns ->
  exists A B, ns = A ++ B /\ Forall (fun n => eroot n < r) A /\ Forall (fun n => r <= eroot n) B.
Proof.
  induction 1 as [|n ns Hs IH Hn]; [exists [], []; split_and!; constructor|].
  destruct (Z.ltb_spec (eroot n) r).
  - destruct IH as (A & B & -> & HA & HB). exists (n :: A), B. split_and!; try done. now constructor.
  - exists [], (n :: ns). split_and!; try done; constructor; [done|].
    eapply Forall_impl; [exact Hn|]. cbv beta. lia.
Qed.

Lemma sorted_insert n A B :
  StronglySorted by_root (A ++ B) -> Forall (fun m => eroot m < eroot n) A -> Forall (fun m => eroot n < eroot m) B ->
  StronglySorted by_root (A ++ n :: B).
Proof.
  induction A as [|m A IH]; intros Hs HA HB; [now constructor|]. apply StronglySorted_inv in Hs as [Hs Hm].
  apply Forall_cons in HA as [Hmn HA]. cbn [app]. constructor; [now apply IH|].
  apply Forall_app in Hm as [Hm1 Hm2]. apply Forall_app. split; [done|]. constructor; done.
Qed.

Lemma sorted_remove n A B : StronglySorted by_root (A ++ n :: B) -> StronglySorted by_root (A ++ B).
Proof.
  induction A as [|m A IH]; intros Hs; apply StronglySorted_inv in Hs as [Hs Hm]; [done|].
  constructor; [now apply IH|]. apply Forall_app in Hm as [Hm1 Hm2]. apply Forall_cons in Hm2 as [_ Hm2].
  apply Forall_app. done.
Qed.

Lemma at_level_all s ns : Forall (node_ok s) ns -> at_level 0 ns = ns.
Proof.
  induction 1 as [|n ns Hn H IH]; [done|]. unfold at_level in *. rewrite filter_cons_True; [now rewrite IH|].
  destruct Hn as (_ & Hh & _). lia.
Qed.

Lemma at_level_none s ns i : Forall (node_ok s) ns -> (level s < i)%nat -> at_level i ns = [].
Proof.
  intros H Hi. induction H as [|n ns Hn H IH]; [done|]. unfold at_level in *. rewrite filter_cons_False; [done|].
  destruct Hn as (_ & Hh & _). lia.
Qed.

(** The first node at or above [r], as the code finds it. *)
Lemma found_spec s A B r :
  skip_list s (A ++ B) -> Forall (fun n => r <= eroot n) B ->
  exists f, get_fwd s (pred 0 A) 0 = Some f /\
    (if f =? 0 then Some false else rt ← root_of s f; Some (rt =? r)) =
    Some (match B with [] => false | n :: _ => eroot n =? r end) /\
    f = match B with [] => 0 | n :: _ => eaddr n end.
Proof.
  intros (_ & _ & Hok & _ & _ & Hc) HB. specialize (Hc 0%nat ltac:(unfold MAX_LEVEL; lia)).
  rewrite at_level_app in Hc. apply Forall_app in Hok as [_ HokB]. rewrite (at_level_all s B) in Hc by done.
  apply chain_app in Hc. fold (pred 0 A) in Hc. destruct B as [|n B]; cbn [chain] in Hc.
  - exists 0. now rewrite Hc.
  - destruct Hc as [Hc _]. exists (eaddr n). split; [done|]. split; [|done].
    apply Forall_cons in HokB as [Hn _]. pose proof (node_ok_root _ _ Hn) as Hr. destruct Hn as [Ha _].
    destruct (Z.eqb_spec (eaddr n) 0); [done|]. now rewrite Hr.
Qed.

Lemma head_updates_spec n : forall lo update,
  (lo + n <= MAX_LEVEL)%nat ->
  exists update', head_updates n lo update = Some update' /\
    forall j, update' !! j = if decide (lo <= j < lo + n)%nat then Some None else update !! j.
Proof.
  induction n as [|n IH]; intros lo update H; cbn [head_updates].
  - exists update. split; [done|]. intros j. destruct (decide _); [lia|done].
  - unfold put_update. destruct (Nat.ltb_spec lo MAX_LEVEL); [|lia]. cbn [mbind option_bind].
    destruct (IH (S lo) (<[lo := None]> update)) as (u & -> & Hu); [lia|]. exists u. split; [done|].
    intros j. rewrite Hu. destruct (decide (j = lo)) as [->|Hne].
    + rewrite lookup_insert_eq. repeat case_decide; try lia; done.
    + rewrite lookup_insert_ne by done. repeat case_decide; try lia; done.
Qed.

(** A root is registered. *)
Definition registered r ns : Prop := exists n, n ∈ ns /\ eroot n = r.

Lemma registered_split A B r :
  StronglySorted by_root (A ++ B) -> Forall (fun n => eroot n < r) A -> Forall (fun n => r <= eroot n) B ->
  registered r (A ++ B) <-> exists n B', B = n :: B' /\ eroot n = r.
Proof.
  intros Hs HA HB. split.
  - intros (n & Hn & E). apply elem_of_app in Hn as [Hn|Hn].
    + rewrite Forall_forall in HA. specialize (HA _ Hn). cbv beta in HA. lia.
    + destruct B as [|m B]; [now apply elem_of_nil in Hn|]. exists m, B. split; [done|].
      apply elem_of_cons in Hn as [->|Hn]; [done|]. apply Forall_cons in HB as [Hm _].
      assert (HsB : StronglySorted by_root (m :: B)).
      { clear -Hs. induction A as [|x A IH]; [done|]. apply StronglySorted_inv in Hs as [Hs _]. now apply IH. }
      apply StronglySorted_inv in HsB as [_ Hlt]. rewrite Forall_forall in Hlt. specialize (Hlt _ Hn). cbv beta in Hlt. lia.
  - intros (n & B' & -> & E). exists n. split; [apply elem_of_mid|done].
Qed.

(** Every level has a link after the predecessor. *)
Lemma pred_link s A B j : skip_list s (A ++ B) -> (j < MAX_LEVEL)%nat -> is_Some (get_fwd s (pred j A) j).
Proof.
  intros (_ & _ & _ & _ & _ & Hc) Hj. specialize (Hc j Hj). rewrite at_level_app in Hc. apply chain_app in Hc.
  unfold pred. destruct (at_level j B); cbn [chain] in Hc; [|destruct Hc as [Hc _]]; rewrite Hc; eauto.
Qed.

(** A node is added, with its predecessors in [update]. *)
Lemma link_spec s s1 A B a r k update :
  skip_list s (A ++ B) -> (forall e j, e <> Some a -> get_fwd s1 e j = get_fwd s e j) ->
  (forall b, b <> a -> shape s1 b = shape s b) -> shape s1 a = Some (r, S k) -> head s1 = head s ->
  (level s <= level s1)%nat -> (k <= level s1)%nat -> (level s1 < MAX_LEVEL)%nat ->
  nodes s !! a = None -> a <> 0 -> Forall (fun n => eroot n < r) A -> Forall (fun n => r < eroot n) B ->
  (forall j, (j <= k)%nat -> update !! j = Some (pred j A)) ->
  exists s', link_node (S k) 0 a update s1 = Some s' /\ skip_list s' (A ++ MkEntry a r (S k) :: B) /\
    random_seed s' = random_seed s1.
Proof.
  intros Hs Hfwd Hsh Hsa Hhd Hlv Hk Hmax Hfresh Ha HA HB Hup. pose proof Hs as (Hlen & Hlev & Hok & Hsort & Hnd & Hc).
  assert (Hna : forall n, n ∈ A ++ B -> eaddr n <> a).
  { intros n Hn E. rewrite Forall_forall in Hok. destruct (Hok n Hn) as (_ & _ & Hx). unfold shape in Hx.
    rewrite E, Hfresh in Hx. done. }
  assert (Hpa : forall j, pred j A <> Some a).
  { intros j E. pose proof (pred_in j A) as Hp. rewrite E in Hp. apply elem_of_cons in Hp as [|Hp]; [done|].
    apply refs_at_level, elem_of_refs in Hp as (n & [= En] & Hn). apply (Hna n); [apply elem_of_app; now left|done]. }
  destruct (link_node_spec a update (fun j => pred j A) (S k) 0 s1) as (s' & E & (S1 & S2 & S3 & S4) & F).
  { intros j Hj. split; [apply Hup; lia|]. split; [apply Hpa|]. split.
    - rewrite Hfwd by apply Hpa. apply (pred_link s A B); [done|unfold MAX_LEVEL in *; lia].
    - eapply shape_get_fwd in Hsa as [x ->]; [eauto|]. lia. }
  exists s'. split; [done|]. split; [|done].
  assert (HniA : a ∉ eaddr <$> A ++ B).
  { intros (n & E' & Hn)%list_elem_of_fmap. now apply (Hna n). }
  split_and!.
  - congruence.
  - congruence.
  - apply Forall_app in Hok as [HokA HokB].
    assert (Hold : forall n, n ∈ A ++ B -> node_ok s n -> node_ok s' n).
    { intros n Hn (K1 & K2 & K3). split; [done|]. split; [rewrite S3; lia|]. rewrite S1, Hsh; [done|now apply Hna]. }
    apply Forall_app. split; [|constructor].
    + rewrite Forall_forall in HokA |- *. intros n Hn. apply Hold; [apply elem_of_app; now left|auto].
    + split; [done|]. cbn [eheight]. split; [rewrite S3; lia|]. now rewrite S1.
    + rewrite Forall_forall in HokB |- *. intros n Hn. apply Hold; [apply elem_of_app; now right|auto].
  - now apply sorted_insert.
  - rewrite fmap_app in *. cbn [fmap list_fmap]. apply NoDup_app in Hnd as (N1 & N2 & N3).
    rewrite <- Permutation_middle. cbn [eaddr]. apply NoDup_cons. split; [done|]. apply NoDup_app. done.
  - intros i Hi. specialize (Hc i Hi). destruct (decide (i <= k)%nat) as [Hik|Hik].
    + apply (chain_level_insert s); cbn [eaddr eheight]; try done; try lia.
      * rewrite F. case_decide; [|lia]. case_decide; done.
      * rewrite F. case_decide; [|lia]. case_decide as E2; [now destruct (Hpa i)|]. case_decide; [|done].
        rewrite Hfwd; [done|apply Hpa].
      * intros e He1 He2. rewrite F. case_decide; [|lia]. case_decide; [done|]. case_decide; [done|]. now apply Hfwd.
    + assert (E' : at_level i (A ++ MkEntry a r (S k) :: B) = at_level i (A ++ B)).
      { rewrite !at_level_app. f_equal. unfold at_level. rewrite filter_cons_False; [done|]. cbn. lia. }
      rewrite E'. apply (chain_from s s' i None); [done| |].
      * rewrite F. case_decide; [lia|]. now apply Hfwd.
      * intros e He%refs_at_level. rewrite F. case_decide; [lia|]. apply Hfwd. intros ->.
        apply elem_of_refs in He as (n & [= En] & Hn). now apply (Hna n).
Qed.

(** A higher level, or another seed, is still a skip list. *)
Lemma skip_list_raise s s1 ns :
  skip_list s ns -> head s1 = head s -> nodes s1 = nodes s -> (level s <= level s1 < MAX_LEVEL)%nat -> skip_list s1 ns.
Proof.
  intros (H1 & H2 & H3 & H4 & H5 & H6) Eh En Hl. split_and!; try done; try congruence; try lia.
  - eapply Forall_impl; [exact H3|]. intros n (K1 & K2 & K3). split; [done|]. split; [lia|]. unfold shape in *. now rewrite En.
  - intros i Hi. apply (chain_from s s1 i None); [now apply H6| |].
    + cbn [get_fwd]. now rewrite Eh.
    + intros [b|] _; cbn [get_fwd]; now rewrite ?En, ?Eh.
Qed.

Lemma register_spec fuel r a s ns k s1 :
  skip_list s ns -> (length ns < fuel)%nat -> random_level s = Some (k, s1) -> (k < MAX_LEVEL)%nat ->
  nodes s !! a = None ->
  (registered r ns /\ register_global_root fuel r a s = Some (true, s)) \/
  (~ registered r ns /\ exists s', register_global_root fuel r a s = Some (negb (a =? 0), s') /\
     if a =? 0 then skip_list s' ns
     else exists A B, ns = A ++ B /\ skip_list s' (A ++ MkEntry a r (S k) :: B)).
Proof.
  intros Hs Hf Hrl Hk Hfresh. pose proof Hs as (_ & Hlev & Hok & Hsort & _ & _).
  destruct (random_level_ends s) as (k' & E' & _). rewrite Hrl in E'. injection E' as <- Es1.
  destruct (sorted_split r ns Hsort) as (A & B & -> & HA & HB).
  pose proof (registered_split A B r Hsort HA HB) as Hreg.
  rewrite length_app in Hf.
  destruct (search_spec s A B r fuel Hs ltac:(lia) HA HB) as (update & E & Hup & _).
  destruct (found_spec s A B r Hs HB) as (f & Ef & Efound & _).
  unfold register_global_root. rewrite E. cbn [mbind option_bind]. rewrite Ef. cbn [mbind option_bind]. rewrite Efound.
  cbn [mbind option_bind].
  destruct (match B with [] => false | n :: _ => eroot n =? r end) eqn:Ep.
  { left. split; [|done]. apply Hreg. destruct B as [|n B]; [done|]. exists n, B. split; [done|lia]. }
  right. assert (Hnr : ~ registered r (A ++ B)).
  { intros (n & B' & -> & En)%Hreg. lia. }
  split; [done|]. rewrite Hrl. cbn [mbind option_bind].
  assert (HB' : Forall (fun n => r < eroot n) B).
  { rewrite Forall_forall in HB |- *. intros n Hn. specialize (HB n Hn). cbv beta in HB.
    assert (eroot n <> r); [|lia]. intros En. apply Hnr. exists n. split; [apply elem_of_app; now right|done]. }
  assert (Hlv1 : level s1 = level s) by now rewrite Es1.
  set (s2 := if (level s1 <? k)%nat then set_level k s1 else s1).
  assert (Hs2 : head s2 = head s /\ nodes s2 = nodes s /\ (level s <= level s2 < MAX_LEVEL)%nat /\ (k <= level s2)%nat).
  { unfold s2. destruct (Nat.ltb_spec (level s1) k); rewrite Es1 in *; cbn [head nodes level set_level] in *; split_and!; try done; lia. }
  assert (Hupd : exists update2,
    (if (level s1 <? k)%nat then head_updates (k - level s1) (S (level s1)) update else Some update) = Some update2 /\
    forall j, (j <= k)%nat -> update2 !! j = Some (pred j A)).
  { apply Forall_app in Hok as [HokA _]. destruct (Nat.ltb_spec (level s1) k).
    - destruct (head_updates_spec (k - level s1) (S (level s1)) update) as (u & -> & Hu); [lia|].
      exists u. split; [done|]. intros j Hj. rewrite Hu. case_decide.
      + unfold pred. now rewrite (at_level_none s) by (done || lia).
      + apply Hup. lia.
    - exists update. split; [done|]. intros j Hj. apply Hup. lia. }
  destruct Hupd as (update2 & Eu & Hu). rewrite Eu. cbn [mbind option_bind]. fold s2.
  destruct Hs2 as (K1 & K2 & K3 & K4). clearbody s2. destruct (Z.eqb_spec a 0) as [Ea|Ea]; cbn [negb].
  - exists s2. split; [done|]. now apply (skip_list_raise s).
  - set (s3 := set_nodes (<[a := (r, replicate (S k) 0)]> (nodes s2)) s2).
    destruct (link_spec s s3 A B a r k update2) as (s' & -> & Hsk & _); try done; try lia.
    + intros [b|] j Hb; cbn [get_fwd nodes head s3 set_nodes]; rewrite ?K1, ?K2; [|done].
      rewrite lookup_insert_ne; [done|congruence].
    + intros b Hb. unfold shape. cbn [nodes s3 set_nodes]. rewrite lookup_insert_ne, K2 by congruence. done.
    + unfold shape. cbn [nodes s3 set_nodes]. rewrite lookup_insert_eq. cbn. now rewrite length_replicate.
    + cbn [level s3 set_nodes]. lia.
    + cbn [level s3 set_nodes]. lia.
    + exists s'. split; [done|]. eauto.
Qed.

(** ** Removal *)

Lemma unlink_node_spec a update (u : nat -> ref) n : forall i s,
  (forall j, (i <= j < i + n)%nat -> update !! j = Some (u j) /\ u j <> Some a /\ is_Some (get_fwd s (u j) j) /\
     (get_fwd s (u j) j = Some a -> is_Some (get_fwd s (Some a) j))) ->
  exists s', unlink_node n i a update s = Some s' /\ same_shape s s' /\
    forall e j, get_fwd s' e j =
      if decide ((i <= j < i + n)%nat /\ e = u j /\ get_fwd s (u j) j = Some a) then get_fwd s (Some a) j
      else get_fwd s e j.
Proof.
  induction n as [|n IH]; intros i s H; cbn [unlink_node].
  - exists s. split; [done|]. split; [now split_and!|]. intros e j. case_decide; [lia|done].
  - destruct (H i ltac:(lia)) as (Hu & Hne & [f Hf] & Hg). rewrite Hu. cbn [mbind option_bind]. rewrite Hf. cbn [mbind option_bind].
    assert (Hstep : exists s1, (if f =? a then g ← get_fwd s (Some a) i; set_fwd (u i) i g s else Some s) = Some s1 /\
      same_shape s s1 /\ forall e j, get_fwd s1 e j = if decide (j = i /\ e = u j /\ f = a) then get_fwd s (Some a) j else get_fwd s e j).
    { destruct (Z.eqb_spec f a) as [->|Hfa].
      - destruct (Hg Hf) as [g Hg']. rewrite Hg'. cbn [mbind option_bind].
        destruct (set_fwd_spec s (u i) i g a Hf) as (s1 & -> & S1 & F1). exists s1. split; [done|]. split; [done|].
        intros e j. rewrite F1. repeat case_decide; destruct_and?; simplify_eq; try done; exfalso; tauto.
      - exists s. split; [done|]. split; [now split_and!|]. intros e j. case_decide; [tauto|done]. }
    destruct Hstep as (s1 & -> & S1 & F1). cbn [mbind option_bind].
    destruct (IH (S i) s1) as (s' & -> & S' & F').
    { intros j Hj. destruct (H j ltac:(lia)) as (K1 & K2 & K3 & K4). split; [done|]. split; [done|].
      rewrite !F1. repeat case_decide; try lia; done. }
    exists s'. split; [done|]. split; [eauto using same_shape_trans|]. intros e j. rewrite F', !F1.
    destruct (decide (j = i)) as [->|Hji].
    + rewrite decide_False by lia. rewrite Hf. apply decide_ext. intuition (congruence || lia).
    + rewrite !(decide_False (P := j = i /\ _)) by tauto. apply decide_ext. intuition lia.
Qed.

Lemma lower_level_spec (h : list Z) (l : nat) :
  (l < length h)%nat ->
  exists l' : nat, lower_level l h = Some l' /\ (l' <= l)%nat /\ forall j, (l' < j <= l)%nat -> h !! j = Some 0.
Proof.
  induction l as [|l IH]; intros Hl; cbn [lower_level].
  - exists 0%nat. split; [done|]. split; [lia|]. lia.
  - destruct (lookup_lt_is_Some_2 h (S l) Hl) as [f Hf]. rewrite Hf. cbn [mbind option_bind].
    destruct (Z.eqb_spec f 0) as [->|]; [|exists (S l); split; [done|]; split; [lia|lia]].
    destruct (IH ltac:(lia)) as (l' & -> & H1 & H2). exists l'. split; [done|]. split; [lia|].
    intros j Hj. destruct (decide (j = S l)) as [->|]; [done|]. apply H2. lia.
Qed.

(** The node is where its predecessors lead, at its own levels only. *)
Lemma other_addr A n B m : NoDup (eaddr <$> A ++ n :: B) -> m ∈ A ++ B -> eaddr m <> eaddr n.
Proof.
  intros Hnd Hm Em. rewrite fmap_app in Hnd. cbn [fmap list_fmap] in Hnd. rewrite <- Permutation_middle in Hnd.
  apply NoDup_cons in Hnd as [Hnd _]. apply Hnd. rewrite <- Em, <- fmap_app. apply list_elem_of_fmap; eauto.
Qed.

Lemma link_iff s A n B i :
  skip_list s (A ++ n :: B) -> (i < MAX_LEVEL)%nat ->
  get_fwd s (pred i A) i = Some (eaddr n) <-> (i < eheight n)%nat.
Proof.
  intros (_ & _ & Hok & _ & Hnd & Hc) Hi. specialize (Hc i Hi). rewrite at_level_app in Hc. apply chain_app in Hc.
  fold (pred i A) in Hc. unfold at_level in Hc. rewrite filter_cons in Hc. case_decide as Hh; [now destruct Hc as [-> _]|].
  split; [|done]. intros Hx. exfalso. fold (at_level i B) in Hc.
  destruct (at_level i B) as [|m l] eqn:El; cbn [chain] in Hc; rewrite Hx in Hc.
  - rewrite Forall_forall in Hok. destruct (Hok n (elem_of_mid _ _ _)) as [Hn0 _]. injection Hc as Hc. done.
  - destruct Hc as [[= Hc] _]. apply (other_addr A n B m Hnd); [|done]. apply elem_of_app. right.
    assert (Hin : m ∈ at_level i B) by (rewrite El; apply list_elem_of_here). now apply elem_of_at_level in Hin.
Qed.

(** A level the head does not reach is empty. *)
Lemma lowered_height s ns (l' : nat) m :
  (forall i, (i < MAX_LEVEL)%nat -> chain s i None (at_level i ns)) -> Forall (fun n => eaddr n <> 0) ns ->
  (forall j, (l' < j < MAX_LEVEL)%nat -> (j < eheight m)%nat -> head s !! j = Some 0) ->
  m ∈ ns -> (eheight m <= MAX_LEVEL)%nat -> (eheight m <= S l')%nat.
Proof.
  intros Hc H0 Hl Hm Hmax. destruct (decide (eheight m <= S l')%nat); [done|]. exfalso.
  set (j := (eheight m - 1)%nat). assert (Hj : (l' < j < MAX_LEVEL)%nat) by (unfold j; lia).
  assert (Hin : m ∈ at_level j ns) by (apply elem_of_at_level; split; [unfold j; lia|done]).
  specialize (Hc j ltac:(lia)). specialize (Hl j Hj ltac:(unfold j; lia)).
  destruct (at_level j ns) as [|m' l] eqn:El; [now apply elem_of_nil in Hin|].
  destruct Hc as [Hx _]. cbn [get_fwd] in Hx. rewrite Hl in Hx. injection Hx as Hx.
  assert (Hin' : m' ∈ at_level j ns) by (rewrite El; apply list_elem_of_here).
  apply elem_of_at_level in Hin' as [_ Hin']. rewrite Forall_forall in H0. now apply (H0 m').
Qed.

(** The state after the links of [n] are gone and its memory is given back. *)
Lemma unlink_spec s s1 s2 A n B (l' : nat) :
  skip_list s (A ++ n :: B) -> same_shape s s1 ->
  (forall e j, get_fwd s1 e j = if decide ((j <= level s)%nat /\ e = pred j A /\ get_fwd s (pred j A) j = Some (eaddr n))
     then get_fwd s (Some (eaddr n)) j else get_fwd s e j) ->
  (l' <= level s1)%nat -> (forall j, (l' < j <= level s1)%nat -> head s1 !! j = Some 0) ->
  s2 = set_level l' (set_nodes (delete (eaddr n) (nodes s1)) s1) -> skip_list s2 (A ++ B).
Proof.
  intros Hs (S1 & S2 & S3 & S4) F Hl1 Hl2 ->. pose proof Hs as (Hlen & Hlev & Hok & Hsort & Hnd & Hc).
  rewrite Forall_forall in Hok. destruct (Hok n (elem_of_mid _ _ _)) as (_ & Hnh & _).
  assert (Hpa : forall j, pred j A <> Some (eaddr n)).
  { intros j Ep. apply (pred_not_after j A (n :: B) Hnd). rewrite Ep. apply list_elem_of_here. }
  set (s2 := set_level l' _).
  assert (F2 : forall e j, e <> Some (eaddr n) -> get_fwd s2 e j = get_fwd s1 e j).
  { intros [b|] j Hb; cbn [get_fwd nodes head s2 set_nodes set_level]; [|done]. rewrite lookup_delete_ne; [done|congruence]. }
  assert (Hc2 : forall i, (i < MAX_LEVEL)%nat -> chain s2 i None (at_level i (A ++ B))).
  { intros i Hi. pose proof (link_iff s A n B i Hs Hi) as Hiff. apply (chain_level_remove s s2 i n); [done|now apply Hc|..].
    - intros Hh. rewrite F2, F by apply Hpa. rewrite decide_True; [done|]. split; [lia|]. split; [done|]. now apply Hiff.
    - intros Hh. rewrite F2, F by apply Hpa. rewrite decide_False; [done|]. intros (_ & _ & Hx). apply Hh. now apply Hiff.
    - intros e He1 He2. rewrite F2, F by done. rewrite decide_False; [done|]. now intros (_ & -> & _). }
  split_and!; try (cbn; (congruence || lia)); try done.
  - rewrite Forall_forall. intros m Hm. destruct (Hok m) as (K1 & K2 & K3); [now apply elem_of_skip_mid|].
    split; [done|]. split; [split; [lia|]|].
    + change (eheight m <= S l')%nat. apply (lowered_height s2 (A ++ B)); try done; try lia.
      * rewrite Forall_forall. intros x Hx. apply Hok. now apply elem_of_skip_mid.
      * intros j Hj Hjh. apply Hl2. lia.
    + unfold shape. cbn [nodes s2 set_level set_nodes]. rewrite lookup_delete_ne by (apply not_eq_sym; now apply (other_addr A n B)).
      fold (shape s1 (eaddr m)). now rewrite S1.
  - now apply sorted_remove in Hsort.
  - rewrite fmap_app in *. cbn [fmap list_fmap] in Hnd. rewrite <- Permutation_middle in Hnd. now apply NoDup_cons in Hnd as [_ ?].
Qed.

Lemma remove_spec fuel r s ns :
  skip_list s ns -> (length ns < fuel)%nat ->
  (~ registered r ns /\ remove_global_root fuel r s = Some s) \/
  exists A n B s', ns = A ++ n :: B /\ eroot n = r /\ remove_global_root fuel r s = Some s' /\ skip_list s' (A ++ B).
Proof.
  intros Hs Hf. pose proof Hs as (Hlen & Hlev & Hok & Hsort & Hnd & Hc).
  destruct (sorted_split r ns Hsort) as (A & B & -> & HA & HB).
  pose proof (registered_split A B r Hsort HA HB) as Hreg. rewrite length_app in Hf.
  destruct (search_spec s A B r fuel Hs ltac:(lia) HA HB) as (update & E & Hup & _).
  destruct (found_spec s A B r Hs HB) as (f & Ef & Efound & Eaddr).
  unfold remove_global_root. rewrite E. cbn [mbind option_bind]. rewrite Ef. cbn [mbind option_bind]. rewrite Efound.
  cbn [mbind option_bind].
  destruct B as [|n B]; [left; split; [intros (? & ? & ? & _)%Hreg; done|done]|].
  destruct (Z.eqb_spec (eroot n) r) as [En|En]; cbn [negb].
  2: { left. split; [|done]. intros (m & B' & [= <- <-] & Em)%Hreg. done. }
  right. subst f.
  destruct (unlink_node_spec (eaddr n) update (fun j => pred j A) (S (level s)) 0 s) as (s1 & -> & Hsh & F).
  { intros j Hj. split; [apply Hup; lia|]. split; [|split; [apply (pred_link s A (n :: B)); [done|lia]|]].
    - intros Ep. apply (pred_not_after j A (n :: B) Hnd). rewrite Ep. apply list_elem_of_here.
    - intros Hx. apply (link_iff s A n B j Hs ltac:(lia)) in Hx. rewrite Forall_forall in Hok.
      destruct (Hok n (elem_of_mid _ _ _)) as (_ & _ & Hn). eapply shape_get_fwd in Hn as [x ->]; eauto. }
  pose proof Hsh as (_ & S2 & S3 & _). cbn [mbind option_bind].
  change (level (set_nodes (delete (eaddr n) (nodes s1)) s1)) with (level s1).
  change (head (set_nodes (delete (eaddr n) (nodes s1)) s1)) with (head s1).
  destruct (lower_level_spec (head s1) (level s1)) as (l' & -> & Hl1 & Hl2); [lia|]. cbn [mbind option_bind].
  eexists A, n, B, _. split; [done|]. split; [done|]. split; [reflexivity|].
  apply (unlink_spec s s1 _ A n B l'); try done. intros e j. rewrite F. apply decide_ext. intuition lia.
Qed.

(** ** Visiting *)

Lemma visit_spec s l : forall fuel e gr,
  chain s 0 e l -> get_fwd s e 0 = Some gr -> Forall (node_ok s) l -> (length l < fuel)%nat ->
  visit fuel s gr = Some (eroot <$> l).
Proof.
  induction l as [|n l IH]; intros [|fuel] e gr Hc Hg Hok Hf; cbn [length] in Hf; try lia; cbn [chain visit] in *.
  - rewrite Hc in Hg. injection Hg as <-. done.
  - destruct Hc as [Hn Hc]. rewrite Hn in Hg. injection Hg as <-. apply Forall_cons in Hok as [Hn' Hok].
    pose proof (node_ok_root _ _ Hn') as Hr. destruct Hn' as (Ha & Hh & Hsh).
    destruct (Z.eqb_spec (eaddr n) 0); [done|]. rewrite Hr. cbn [mbind option_bind].
    destruct (shape_get_fwd s _ _ _ 0 Hsh) as [g Hg]; [lia|]. rewrite Hg. cbn [mbind option_bind].
    rewrite (IH fuel (Some (eaddr n)) g) by (done || lia). done.
Qed.

Lemma global_roots_spec fuel s ns :
  skip_list s ns -> (length ns < fuel)%nat -> global_roots fuel s = Some (eroot <$> ns).
Proof.
  intros (Hlen & _ & Hok & _ & _ & Hc) Hf. specialize (Hc 0%nat ltac:(unfold MAX_LEVEL; lia)).
  rewrite (at_level_all s) in Hc by done. unfold global_roots.
  destruct (lookup_lt_is_Some_2 (head s) 0) as [gr Hg]; [rewrite Hlen; unfold MAX_LEVEL; lia|].
  rewrite Hg. cbn [mbind option_bind]. now apply (visit_spec s ns fuel None).
Qed.

(** ** Refinement: a set of addresses *)

Inductive op := Register (r a : Z) | Remove (r : Z).

Definition run_op (fuel : nat) (o : op) s : option global_root_list :=
  match o with
  | Register r a => '(_, s) ← register_global_root fuel r a s; Some s
  | Remove r => remove_global_root fuel r s
  end.

Fixpoint run (fuel : nat) (ops : list op) s : option global_root_list :=
  match ops with
  | [] => Some s
  | o :: ops => s ← run_op fuel o s; run fuel ops s
  end.

(** The allocator gives fresh addresses, and no level is out of the arrays. *)
Fixpoint allowed (fuel : nat) (ops : list op) s : bool :=
  match ops with
  | [] => true
  | o :: ops =>
      match o with
      | Register r a =>
          negb (a =? 0) && match nodes s !! a with None => true | _ => false end &&
          match random_level s with Some (k, _) => (k <? MAX_LEVEL)%nat | None => false end
      | Remove _ => true
      end &&
      match run_op fuel o s with Some s => allowed fuel ops s | None => true end
  end.

Definition spec_op (o : op) (X : gset Z) : gset Z :=
  match o with Register r _ => {[r]} ∪ X | Remove r => X ∖ {[r]} end.

Lemma registered_mid r n A B : registered r (A ++ n :: B) <-> r = eroot n \/ registered r (A ++ B).
Proof.
  split.
  - intros (m & Hm & E). apply elem_of_app in Hm as [Hm|Hm]; [|apply elem_of_cons in Hm as [->|Hm]].
    + right. exists m. split; [apply elem_of_app; now left|done].
    + now left.
    + right. exists m. split; [apply elem_of_app; now right|done].
  - intros [->|(m & Hm & E)]; [exists n|exists m]; (split; [|done]); [apply elem_of_mid|now apply elem_of_skip_mid].
Qed.

Lemma sorted_root_unique n A B : StronglySorted by_root (A ++ n :: B) -> ~ registered (eroot n) (A ++ B).
Proof.
  intros Hs (m & Hm & E). induction A as [|x A IH]; apply StronglySorted_inv in Hs as [Hs Hx].
  - rewrite Forall_forall in Hx. specialize (Hx m Hm). cbv beta in Hx. lia.
  - apply elem_of_cons in Hm as [->|Hm]; [|now apply IH].
    rewrite Forall_forall in Hx. specialize (Hx n (elem_of_mid _ _ _)). cbv beta in Hx. lia.
Qed.

Lemma run_op_spec fuel o ops s ns X :
  skip_list s ns -> (forall r, r ∈ X <-> registered r ns) -> (length ns < fuel)%nat -> allowed fuel (o :: ops) s = true ->
  exists s' ns', run_op fuel o s = Some s' /\ skip_list s' ns' /\ (length ns' <= S (length ns))%nat /\
    (forall r, r ∈ spec_op o X <-> registered r ns') /\ allowed fuel ops s' = true.
Proof.
  intros Hs HX Hf Hal. cbn [allowed] in Hal. apply andb_true_iff in Hal as [Hal Hrest]. destruct o as [r a|r].
  - apply andb_true_iff in Hal as [[Ha Hfr]%andb_true_iff Hlv].
    destruct (random_level_ends s) as (k & Ek & _). rewrite Ek in Hlv. apply Nat.ltb_lt in Hlv.
    destruct (nodes s !! a) eqn:En; [done|]. destruct (Z.eqb_spec a 0) as [|Ha0]; [done|].
    destruct (register_spec fuel r a s ns k _ Hs Hf Ek Hlv En) as [(Hr & E)|(Hr & s' & E & H)];
      cbn [run_op] in *; rewrite E in *; cbn [mbind option_bind] in *.
    + exists s, ns. split_and!; try done; [lia|]. intros r'. cbn [spec_op]. rewrite elem_of_union, elem_of_singleton, HX.
      split; [intros [->|]; done|now right].
    + rewrite (proj2 (Z.eqb_neq a 0) Ha0) in H. destruct H as (A & B & -> & H).
      exists s', (A ++ MkEntry a r (S k) :: B). split_and!; try done; [rewrite !length_app; cbn [length]; lia|].
      intros r'. cbn [spec_op]. now rewrite elem_of_union, elem_of_singleton, HX, registered_mid.
  - destruct (remove_spec fuel r s ns Hs Hf) as [(Hr & E)|(A & n & B & s' & -> & En & E & H)]; cbn [run_op] in *; rewrite E in *.
    + exists s, ns. split_and!; try done; [lia|]. intros r'. cbn [spec_op]. rewrite elem_of_difference, elem_of_singleton, HX.
      split; [now intros [? _]|]. intros Hr'. split; [done|]. now intros ->.
    + exists s', (A ++ B). split_and!; try done; [rewrite !length_app; cbn [length]; lia|].
      intros r'. cbn [spec_op]. rewrite elem_of_difference, elem_of_singleton, HX, registered_mid.
      destruct Hs as (_ & _ & _ & Hsort & _). pose proof (sorted_root_unique n A B Hsort) as Hu. rewrite En in *.
      split; [intros [[|] ?]; done|]. intros Hr'. split; [now right|]. now intros ->.
Qed.

Lemma run_spec fuel ops : forall s ns X,
  skip_list s ns -> (forall r, r ∈ X <-> registered r ns) -> (length ns + length ops < fuel)%nat -> allowed fuel ops s = true ->
  exists s' ns', run fuel ops s = Some s' /\ skip_list s' ns' /\ (length ns' < fuel)%nat /\
    (forall r, r ∈ fold_left (fun X o => spec_op o X) ops X <-> registered r ns').
Proof.
  induction ops as [|o ops IH]; intros s ns X Hs HX Hf Hal; cbn [run fold_left length] in *.
  - exists s, ns. split_and!; try done. lia.
  - destruct (run_op_spec fuel o ops s ns X Hs HX ltac:(lia) Hal) as (s1 & ns1 & -> & Hs1 & Hl & HX1 & Hal1).
    cbn [mbind option_bind]. apply (IH s1 ns1); try done. lia.
Qed.

Lemma caml_global_roots_ok : skip_list caml_global_roots [].
Proof.
  split; [done|]. split; [unfold MAX_LEVEL; cbn; lia|]. split; [constructor|]. split; [constructor|]. split; [constructor|].
  intros i Hi. cbn [at_level filter list_filter chain get_fwd head caml_global_roots].
  now apply lookup_replicate_2.
Qed.

Lemma roots_sorted ns : StronglySorted by_root ns -> StronglySorted Z.lt (eroot <$> ns).
Proof.
  induction 1 as [|n ns Hs IH Hn]; cbn [fmap list_fmap]; constructor; [done|]. now apply Forall_fmap.
Qed.

(** C16: The skip list refines a set of addresses.  Any sequence of registrations and
    removals runs to its end, and the collector's walk over the list then visits
    exactly the addresses registered and not removed since, each once and by
    increasing addresses, provided the allocator gives fresh blocks and no level
    drawn is [MAX_LEVEL] or more.  Every search ends within a number of steps
    bounded by the number of operations. *)
Theorem global_roots_refine_set fuel ops :
  (length ops < fuel)%nat -> allowed fuel ops caml_global_roots = true ->
  exists s (l : list Z), run fuel ops caml_global_roots = Some s /\ global_roots fuel s = Some l /\
    StronglySorted Z.lt l /\ forall r, r ∈ l <-> r ∈ fold_left (fun X o => spec_op o X) ops (∅ : gset Z).
Proof.
  intros Hf Hal.
  destruct (run_spec fuel ops caml_global_roots [] ∅ caml_global_roots_ok) as (s & ns & E & Hs & Hl & HX); try done.
  { intros r. split; [intros []%not_elem_of_empty|intros (n & []%elem_of_nil & _)]. }
  exists s, (eroot <$> ns). split; [done|]. split; [now apply global_roots_spec|]. split.
  - apply roots_sorted. apply Hs.
  - intros r. rewrite HX, list_elem_of_fmap. unfold registered. split; intros (n & H1 & H2); exists n; done.
Qed.

Lemma global_roots_refine_set_witness :
  exists s (l : list Z), run 10 [Register 24 1000; Register 8 2000; Register 16 3000; Register 8 4000; Remove 24; Remove 40]
                caml_global_roots = Some s /\ global_roots 10 s = Some l /\ StronglySorted Z.lt l /\
    forall r, r ∈ l <-> r ∈ fold_left (fun X o => spec_op o X)
      [Register 24 1000; Register 8 2000; Register 16 3000; Register 8 4000; Remove 24; Remove 40] (∅ : gset Z).
Proof. apply global_roots_refine_set; [cbn; lia|vm_compute; reflexivity]. Defined.

(** The generator can draw the level 16, although the arrays of links have
    [MAX_LEVEL] = 15 cells: the registration of the first root then writes outside
    [update] and the head of the list. *)
Theorem register_out_of_bounds :
  let s := MkRoots (replicate MAX_LEVEL 0) ∅ 0 2179725906 in
  random_level s = Some (16%nat, MkRoots (replicate MAX_LEVEL 0) ∅ 0 0xFFFFFFFF) /\
  register_global_root 10 8 1000 s = None.
Proof. split; vm_compute; reflexivity. Qed.
