(* ===== verification/Finalise.v ===== *)
(** * Finalised values

    Models [byterun/finalise.c].  The table of finalisers is an array of pairs of a
    function and a value; the entries below [fin_old] are the finalisable set, those
    up to [fin_young] the recent set, those from [fin_active] to [fin_size] the
    finalising set.  The counters are unsigned longs.  Also the scanning loops of
    [byterun/roots.c]. *)

From stdpp Require Import sorting.
From S2P Require Import Runtime Memory Fail.

(** ** Data *)

Record finals := MkFinals {
  final_table : Z;
  fin_old : Z;
  fin_young : Z;
  fin_active : Z;
  fin_size : Z
}.

(** The addresses of [final_table[i].fun] and [final_table[i].val]. *)
Definition fun_addr (tab i : Z) : Z := u64 (tab + 16 * i).
Definition val_addr (tab i : Z) : Z := u64 (tab + 16 * i + 8).

(** ** Scanning actions *)

Definition scanning_action : Type := Z -> Z -> M unit.
Definition Call_action (f : scanning_action) (p : Z) : M unit := fun r => f (ld (rmem r) p) p r.

(** [for (sp = sp; sp < sp + n; sp++) f ( *sp, sp);] *)
Fixpoint scan_words (f : scanning_action) (n : nat) (sp : Z) : M unit :=
  match n with
  | O => ret tt
  | S n => Call_action f sp ;; scan_words f n (sp + 8)
  end.

(** The entries [lo, lo + n): functions and values. *)
Fixpoint scan_entries (f : scanning_action) (tab : Z) (n : nat) (lo : Z) : M unit :=
  match n with
  | O => ret tt
  | S n => Call_action f (fun_addr tab lo) ;; Call_action f (val_addr tab lo) ;; scan_entries f tab n (lo + 1)
  end.

(** One of the two. *)
Fixpoint scan_column (f : scanning_action) (addr : Z -> Z) (n : nat) (lo : Z) : M unit :=
  match n with
  | O => ret tt
  | S n => Call_action f (addr lo) ;; scan_column f addr n (lo + 1)
  end.

Definition final_do_strong_roots (f : scanning_action) (t : finals) : M unit :=
  scan_column f (fun_addr (final_table t)) (Z.to_nat (fin_old t)) 0 ;;
  scan_entries f (final_table t) (Z.to_nat (fin_size t - fin_active t)) (fin_active t).

Definition final_do_weak_roots (f : scanning_action) (t : finals) : M unit :=
  scan_column f (val_addr (final_table t)) (Z.to_nat (fin_old t)) 0.

Definition final_do_young_roots (f : scanning_action) (t : finals) : M unit :=
  scan_entries f (final_table t) (Z.to_nat (fin_young t - fin_old t)) (fin_old t).

Definition final_empty_young (t : finals) : finals :=
  MkFinals (final_table t) (fin_young t) (fin_young t) (fin_active t) (fin_size t).

(** ** Registration *)

(** [final_table[j] = final_table[i]] *)
Definition copy_entry (tab i j : Z) (m : mem) : mem :=
  st (st m (fun_addr tab j) (ld m (fun_addr tab i))) (val_addr tab j) (ld m (val_addr tab i)).

(** [for (i = i; i >= active; i--) final_table[i + d] = final_table[i];] on unsigned
    longs; [None] when [fuel] iterations are not enough. *)
Fixpoint shift_entries (fuel : nat) (tab i active d : Z) (m : mem) : option mem :=
  match fuel with
  | O => None
  | S fuel =>
      if active <=? i then shift_entries fuel tab (u64 (i - 1)) active d (copy_entry tab i (u64 (i + d)) m)
      else Some m
  end.

(** The copy [realloc] makes. *)
Fixpoint copy_words (n : nat) (src dst : Z) (m : mem) : mem :=
  match n with
  | O => m
  | S n => copy_words n (src + 8) (dst + 8) (st m dst (ld m src))
  end.

Definition stat_alloc_M : M Z :=
  let! p := libc_malloc in if p =? 0 then raise_out_of_memory else ret p.

(** Making room in the table.  [fuel] bounds the loop that moves the finalising
    set. *)
Definition grow_finals (fuel : nat) (t : finals) : M finals :=
  if final_table t =? 0 then
    let! p := stat_alloc_M in ret (MkFinals p (fin_old t) (fin_young t) 30 30)
  else
    let new_size := u64 (fin_size t * 2) in
    let d := u64 (new_size - fin_size t) in
    let! p := stat_alloc_M in
    fun r =>
      let m := copy_words (Z.to_nat (2 * fin_size t)) (final_table t) p (rmem r) in
      match shift_entries fuel p (u64 (fin_size t - 1)) (fin_active t) d m with
      | None => Fatal "the loop has not ended within the bound"
      | Some m =>
          Ok (MkFinals p (fin_old t) (fin_young t) (u64 (fin_active t + d)) new_size) (set_rmem m r)
      end.

Definition Infix_base (m : mem) (v : Z) : Z :=
  if Tag_val m v =? Infix_tag then v - Infix_offset_val m v else v.

(** The entry, and the counter. *)
Definition put_final (f v : Z) (t : finals) : M finals := fun r =>
  let m := st (rmem r) (fun_addr (final_table t) (fin_young t)) f in
  let v := Infix_base m v in
  Ok (MkFinals (final_table t) (fin_old t) (fin_young t + 1) (fin_active t) (fin_size t))
     (set_rmem (st m (val_addr (final_table t) (fin_young t)) v) r).

(** [inl]: [Invalid_argument] is raised with this message. *)
Definition final_register (fuel : nat) (f v : Z) (t : finals) : M (string + finals) := fun r =>
  if negb (Is_block v && (Is_in_heap (mjr r) v || Is_young (mnr r) v)) then Ok (inl "Gc.finalise"%string) r
  else
    (let! t := if fin_active t <=? fin_young t then grow_finals fuel t else ret t in
     let! t := put_final f v t in ret (inr t)) r.

(** ** The end of the marking *)

(** [again]: the forwarding blocks of entry [i] are followed; [None] when [fuel] is
    not enough. *)
Fixpoint follow_forward (fuel : nat) (tab i : Z) (m : mem) : option mem :=
  match fuel with
  | O => None
  | S fuel =>
      let v := ld m (val_addr tab i) in
      if Is_white_val m v && (Tag_val m v =? Forward_tag)
      then follow_forward fuel tab i (st m (val_addr tab i) (Forward_val m v))
      else Some m
  end.

(** The loop on [i]; [fuel] bounds the entries seen and the blocks followed. *)
Fixpoint update_loop (fuel : nat) (i : Z) (t : finals) (m : mem) : option (finals * mem) :=
  match fuel with
  | O => None
  | S fuel' =>
      if i <? fin_old t then
        let tab := final_table t in
        m ← follow_forward fuel tab i m;
        if Is_white_val m (ld m (val_addr tab i)) then
          let f := (ld m (fun_addr tab i), ld m (val_addr tab i)) in
          let old := fin_old t - 1 in
          let m := copy_entry tab old i m in
          let active := fin_active t - 1 in
          let m := st (st m (fun_addr tab active) f.1) (val_addr tab active) f.2 in
          update_loop fuel' i (MkFinals tab old (fin_young t) active (fin_size t)) m
        else update_loop fuel' (i + 1) t m
      else Some (t, m)
  end.

(** [for (i = lo; i < lo + n; i++) darken (final_table[i].val, NULL);] *)
Definition darken_vals (tab : Z) (n : nat) (lo : Z) : M unit :=
  scan_column (fun v _ => darken v) (val_addr tab) n lo.

Definition final_update (fuel : nat) (t : finals) : M finals := fun r =>
  match update_loop fuel 0 t (rmem r) with
  | None => Fatal "the loop has not ended within the bound"
  | Some (t', m) =>
      let t' := MkFinals (final_table t') (fin_old t') (fin_old t') (fin_active t') (fin_size t') in
      (darken_vals (final_table t') (Z.to_nat (fin_active t - fin_active t')) (fin_active t') ;; ret t')
        (set_rmem m r)
  end.

(** ** Entries *)

Definition entry (m : mem) (tab i : Z) : Z * Z := (ld m (fun_addr tab i), ld m (val_addr tab i)).
(** The [n] entries from [lo]. *)
Fixpoint entries (m : mem) (tab lo : Z) (n : nat) : list (Z * Z) :=
  match n with O => [] | S n => entry m tab lo :: entries m tab (lo + 1) n end.

(** The three sets. *)
Definition finalisable (m : mem) (t : finals) : list (Z * Z) := entries m (final_table t) 0 (Z.to_nat (fin_old t)).
Definition recent (m : mem) (t : finals) : list (Z * Z) :=
  entries m (final_table t) (fin_old t) (Z.to_nat (fin_young t - fin_old t)).
Definition finalising (m : mem) (t : finals) : list (Z * Z) :=
  entries m (final_table t) (fin_active t) (Z.to_nat (fin_size t - fin_active t)).

(** The order of the counters, and a table inside the address space, or none yet. *)
Definition finals_ok (t : finals) : Prop :=
  0 <= fin_old t <= fin_young t /\ fin_young t <= fin_active t <= fin_size t /\
  (final_table t = 0 -> fin_size t = 0) /\ 0 <= final_table t /\ final_table t + 16 * fin_size t <= B64 /\
  (final_table t <> 0 -> 0 < fin_size t).

Section Entries.
Context (tab size : Z) (Htab : 0 <= tab) (Hend : tab + 16 * size <= B64).

Lemma fun_addr_eq i : 0 <= i < size -> fun_addr tab i = tab + 16 * i.
Proof. intros Hi. unfold fun_addr. apply u64_id. unfold isu64. lia. Qed.
Lemma val_addr_eq i : 0 <= i < size -> val_addr tab i = tab + 16 * i + 8.
Proof. intros Hi. unfold val_addr. apply u64_id. unfold isu64. lia. Qed.

Lemma entry_eq m i : 0 <= i < size -> entry m tab i = (ld m (tab + 16 * i), ld m (tab + 16 * i + 8)).
Proof. intros Hi. unfold entry. now rewrite fun_addr_eq, val_addr_eq. Qed.

(** [final_table[j] = final_table[i]] *)
Lemma copy_entry_spec i j m :
  0 <= i < size -> 0 <= j < size ->
  entry (copy_entry tab i j m) tab j = entry m tab i /\
  (forall a, a <> tab + 16 * j -> a <> tab + 16 * j + 8 -> ld (copy_entry tab i j m) a = ld m a).
Proof.
  intros Hi Hj. unfold copy_entry. rewrite !entry_eq, !fun_addr_eq, !val_addr_eq by done. split.
  - rewrite ld_st_ne, ld_st_eq, ld_st_eq by lia. done.
  - intros a H1 H2. now rewrite !ld_st_ne by lia.
Qed.

(** The loop that moves the finalising set up by [d]. *)
Lemma shift_entries_spec active d : 0 < active -> 0 <= d -> forall k fuel m,
  active + Z.of_nat k + d <= size -> Z.of_nat k <= d -> (k < fuel)%nat ->
  exists m', shift_entries fuel tab (active + Z.of_nat k - 1) active d m = Some m' /\
    (forall j, active <= j < active + Z.of_nat k -> entry m' tab (j + d) = entry m tab j) /\
    (forall a, ~ tab + 16 * (active + d) <= a < tab + 16 * (active + Z.of_nat k + d) -> ld m' a = ld m a).
Proof.
  intros Ha Hd. induction k as [|k IH]; intros [|fuel] m Hs Hkd Hf; try lia; cbn [shift_entries].
  - destruct (Z.leb_spec active (active + Z.of_nat 0 - 1)); [lia|]. exists m. splits; try done. lia.
  - destruct (Z.leb_spec active (active + Z.of_nat (S k) - 1)); [|lia].
    set (i := active + Z.of_nat (S k) - 1) in *.
    rewrite (u64_id (i + d)), (u64_id (i - 1)) by (unfold isu64; lia).
    destruct (copy_entry_spec i (i + d) m) as [C1 C2]; [lia|lia|].
    replace (i - 1) with (active + Z.of_nat k - 1) by lia.
    destruct (IH fuel (copy_entry tab i (i + d) m)) as (m' & -> & J1 & J2); [lia|lia|lia|].
    exists m'. split; [done|]. split.
    + intros j Hj. destruct (decide (j = i)) as [->|Hne].
      * rewrite <- C1. rewrite !(entry_eq _ (i + d)) by lia. rewrite !J2 by lia. done.
      * rewrite J1 by lia. rewrite !(entry_eq _ j) by lia. rewrite !C2 by lia. done.
    + intros a Hna. rewrite J2, C2 by lia. done.
Qed.
End Entries.

(** With no free entry below the finalising set the unsigned counter never passes
    [active = 0]: the loop does not end. *)
Lemma shift_entries_diverges fuel tab d : forall i m, 0 <= i -> shift_entries fuel tab i 0 d m = None.
Proof.
  induction fuel as [|fuel IH]; intros i m Hi; [done|]. cbn [shift_entries].
  destruct (Z.leb_spec 0 i); [|lia]. apply IH. destruct (u64_range (i - 1)). lia.
Qed.

(** The copy [realloc] makes, to a block that is apart or the same. *)
Lemma copy_words_spec n : forall src dst m,
  (src = dst \/ src + 8 * Z.of_nat n <= dst \/ dst + 8 * Z.of_nat n <= src) ->
  (forall k, 0 <= k < Z.of_nat n -> ld (copy_words n src dst m) (dst + 8 * k) = ld m (src + 8 * k)) /\
  (forall a, ~ dst <= a < dst + 8 * Z.of_nat n -> ld (copy_words n src dst m) a = ld m a).
Proof.
  induction n as [|n IH]; intros src dst m Hd; cbn [copy_words]; [split; [lia|done]|].
  destruct (IH (src + 8) (dst + 8) (st m dst (ld m src))) as [I1 I2]; [lia|]. split.
  - intros k Hk. destruct (decide (k = 0)) as [->|Hne].
    + rewrite I2 by lia. replace (dst + 8 * 0) with dst by lia. rewrite ld_st_eq. f_equal. lia.
    + replace (dst + 8 * k) with (dst + 8 + 8 * (k - 1)) by lia. rewrite I1 by lia.
      replace (src + 8 + 8 * (k - 1)) with (src + 8 * k) by lia. destruct (decide (src = dst)) as [->|]; apply ld_st_ne; lia.
  - intros a Ha. rewrite I2 by lia. apply ld_st_ne. lia.
Qed.

Lemma entries_ext m m' tab tab' lo lo' n :
  (forall j, 0 <= j < Z.of_nat n -> entry m' tab' (lo' + j) = entry m tab (lo + j)) ->
  entries m' tab' lo' n = entries m tab lo n.
Proof.
  revert lo lo'. induction n as [|n IH]; intros lo lo' H; [done|]. cbn [entries]. f_equal.
  - specialize (H 0 ltac:(lia)). now rewrite !Z.add_0_r in H.
  - apply IH. intros j Hj. specialize (H (j + 1) ltac:(lia)).
    now replace (lo' + 1 + j) with (lo' + (j + 1)) by lia; replace (lo + 1 + j) with (lo + (j + 1)) by lia.
Qed.
Lemma entries_app m tab n k : forall lo, entries m tab lo (n + k) = entries m tab lo n ++ entries m tab (lo + Z.of_nat n) k.
Proof.
  induction n as [|n IH]; intros lo; [cbn; now rewrite Z.add_0_r|]. cbn [entries Nat.add app]. rewrite IH.
  now replace (lo + 1 + Z.of_nat n) with (lo + Z.of_nat (S n)) by lia.
Qed.
Lemma entries_snoc m tab n : forall lo, entries m tab lo (S n) = entries m tab lo n ++ [entry m tab (lo + Z.of_nat n)].
Proof.
  induction n as [|n IH]; intros lo; [cbn; now rewrite Z.add_0_r|].
  change (entries m tab lo (S (S n))) with (entry m tab lo :: entries m tab (lo + 1) (S n)).
  rewrite IH. replace (lo + Z.of_nat (S n)) with (lo + 1 + Z.of_nat n) by lia. done.
Qed.

(** ** Registration *)

(** The block [realloc] gives for [n] words: apart from the table, or the table
    itself. *)
Definition realloc_fresh (t : finals) (p n : Z) : Prop :=
  0 < p /\ p + 8 * n <= B64 /\
  (p = final_table t \/ final_table t + 16 * fin_size t <= p \/ p + 8 * n <= final_table t).

(** The room for one more entry, and the three sets as they were. *)
Definition room_made (m : mem) (t : finals) (m' : mem) (t' : finals) : Prop :=
  finals_ok t' /\ fin_young t' < fin_active t' /\ fin_old t' = fin_old t /\ fin_young t' = fin_young t /\
  finalisable m' t' = finalisable m t /\ recent m' t' = recent m t /\ finalising m' t' = finalising m t /\
  forall a, ~ final_table t' <= a < final_table t' + 16 * fin_size t' -> ld m' a = ld m a.

Lemma stat_alloc_cases r :
  (exists p la, malloc_answers r = p :: la /\ p <> 0 /\ stat_alloc_M r = Ok p (set_malloc_answers la r)) \/
  (exists r', stat_alloc_M r = raise_out_of_memory r' /\ rmem r' = rmem r).
Proof.
  unfold stat_alloc_M, bind, libc_malloc. destruct (malloc_answers r) as [|p la] eqn:E.
  - right. exists r. split; [|done]. cbn. unfold raise_out_of_memory, mlraise.
    destruct (_ =? 0); [done|]. now destruct (external_raise _ =? 0).
  - destruct (Z.eqb_spec p 0) as [->|Hp].
    + right. exists (set_malloc_answers la r). split; [|done]. unfold raise_out_of_memory, mlraise.
      destruct (_ =? 0); [done|]. now destruct (external_raise _ =? 0).
    + left. exists p, la. done.
Qed.

(** The table grows: twice its size, the finalising set at the end. *)
Lemma grow_finals_spec fuel t r p la :
  finals_ok t -> fin_young t = fin_active t -> malloc_answers r = p :: la -> p <> 0 ->
  (final_table t <> 0 -> 0 < fin_active t) -> fin_size t < B31 -> (Z.to_nat (fin_size t) < fuel)%nat ->
  realloc_fresh t p (2 * Z.max 30 (fin_size t * 2)) ->
  exists t' r', grow_finals fuel t r = Ok t' r' /\ room_made (rmem r) t (rmem r') t' /\
    mjr r' = mjr r /\ mnr r' = mnr r.
Proof.
  intros (H1 & H2 & H3 & H4 & H5 & H6) Hfull Em Hp Hact Hsz Hf (Hpos & Hpend & Hapart).
  assert (Ealloc : stat_alloc_M r = Ok p (set_malloc_answers la r)).
  { unfold stat_alloc_M, bind, libc_malloc. rewrite Em. destruct (Z.eqb_spec p 0); done. }
  unfold grow_finals. destruct (Z.eqb_spec (final_table t) 0) as [E0|E0].
  - unfold bind. rewrite Ealloc. eexists _, _. split; [reflexivity|]. specialize (H3 E0). split; [|done].
    unfold room_made, finals_ok, finalisable, recent, finalising. cbn [final_table fin_old fin_young fin_active fin_size]. rsimp.
    replace (fin_old t) with 0 by lia. replace (fin_young t) with 0 by lia. replace (fin_size t - fin_active t) with 0 by lia.
    splits; try done; lia.
  - specialize (Hact E0). specialize (H6 E0).
    rewrite (u64_id (fin_size t * 2)), (u64_id (fin_size t * 2 - fin_size t)), (u64_id (fin_size t - 1)) by (unfold isu64; lia).
    replace (fin_size t * 2 - fin_size t) with (fin_size t) by lia. unfold bind. rewrite Ealloc. rsimp.
    set (size := fin_size t) in *. set (tab := final_table t) in *. set (act := fin_active t) in *.
    set (m1 := copy_words _ _ _ _).
    destruct (copy_words_spec (Z.to_nat (2 * size)) tab p (rmem r)) as [W1 W2]; [lia|]. fold m1 in W1, W2.
    assert (He1 : forall j, 0 <= j < size -> entry m1 p j = entry (rmem r) tab j).
    { intros j Hj. rewrite (entry_eq p (2 * size)), (entry_eq tab size) by lia.
      replace (p + 16 * j) with (p + 8 * (2 * j)) by lia. replace (p + 8 * (2 * j) + 8) with (p + 8 * (2 * j + 1)) by lia.
      rewrite !W1 by lia. f_equal; f_equal; lia. }
    destruct (shift_entries_spec p (2 * size) ltac:(lia) ltac:(lia) act size Hact ltac:(lia) (Z.to_nat (size - act)) fuel m1)
      as (m2 & E2 & J1 & J2); [lia|lia|lia|].
    replace (act + Z.of_nat (Z.to_nat (size - act)) - 1) with (size - 1) in E2 by lia. rewrite E2.
    rewrite (u64_id (act + size)) by (unfold isu64; lia).
    assert (He2 : forall j, 0 <= j < act -> entry m2 p j = entry (rmem r) tab j).
    { intros j Hj. rewrite <- He1 by lia. rewrite !(entry_eq p (2 * size)) by lia. rewrite !J2 by lia. done. }
    eexists _, _. split; [reflexivity|]. split; [|done]. unfold room_made, finals_ok, finalisable, recent, finalising.
    cbn [final_table fin_old fin_young fin_active fin_size]. rsimp. fold tab act size. splits; try done; try lia.
    + apply entries_ext. intros j Hj. rewrite !Z.add_0_l. apply He2. lia.
    + apply entries_ext. intros j Hj. apply He2. lia.
    + replace (size * 2 - (act + size)) with (size - act) by lia. apply entries_ext. intros j Hj.
      replace (act + size + j) with (act + j + size) by lia. rewrite J1 by lia. apply He1. lia.
    + intros a Ha. rewrite J2, W2 by lia. done.
Qed.

Lemma grow_finals_table fuel t r p la t' r' :
  malloc_answers r = p :: la -> p <> 0 -> grow_finals fuel t r = Ok t' r' ->
  final_table t' = p /\ fin_size t' = if final_table t =? 0 then 30 else u64 (fin_size t * 2).
Proof.
  intros Em Hp. unfold grow_finals, stat_alloc_M, bind, libc_malloc, ret.
  destruct (final_table t =? 0); rewrite Em; (destruct (Z.eqb_spec p 0); [done|]).
  - intros E. now simplify_eq.
  - destruct (shift_entries _ _ _ _ _ _); intros E; now simplify_eq.
Qed.

(** The sets after a registration. *)
Definition registered (f v : Z) (m : mem) (t : finals) (m' : mem) (t' : finals) : Prop :=
  finals_ok t' /\ finalisable m' t' = finalisable m t /\ recent m' t' = recent m t ++ [(f, v)] /\
  finalising m' t' = finalising m t.

Lemma put_final_spec f v m t r t1 :
  room_made m t (rmem r) t1 -> (forall a, a = v - 8 -> ~ final_table t1 <= a < final_table t1 + 16 * fin_size t1) ->
  exists t' r', put_final f v t1 r = Ok t' r' /\ registered f (Infix_base m v) m t (rmem r') t'.
Proof.
  intros (Hok & Hroom & Eo & Ey & F1 & F2 & F3 & F4) Hv. pose proof Hok as (H1 & H2 & H3 & H4 & H5 & H6).
  unfold put_final. eexists _, _. split; [reflexivity|]. cbn [final_table fin_old fin_young fin_active fin_size]. rsimp.
  set (tab := final_table t1) in *. set (y := fin_young t1) in *.
  rewrite (fun_addr_eq tab (fin_size t1)), (val_addr_eq tab (fin_size t1)) by lia.
  assert (Eb : Infix_base (st (rmem r) (tab + 16 * y) f) v = Infix_base m v).
  { assert (Hhd : Hd_val (st (rmem r) (tab + 16 * y) f) v = Hd_val m v).
    { unfold Hd_val, Hp_val, sizeof_value. specialize (Hv (v - 8) eq_refl). rewrite ld_st_ne, F4 by lia. done. }
    unfold Infix_base, Infix_offset_val, Tag_val. now rewrite Hhd. }
  rewrite Eb. set (m' := st (st _ _ _) _ _).
  assert (Hold : forall j, 0 <= j < fin_size t1 -> j <> y -> entry m' tab j = entry (rmem r) tab j).
  { intros j Hj Hne. rewrite !(entry_eq tab (fin_size t1)) by lia. unfold m'. rewrite !ld_st_ne by lia. done. }
  assert (Hnew : entry m' tab y = (f, Infix_base m v)).
  { rewrite (entry_eq tab (fin_size t1)) by lia. unfold m'. rewrite ld_st_ne, !ld_st_eq by lia. done. }
  unfold registered, finals_ok, finalisable, recent, finalising in *. cbn [final_table fin_old fin_young fin_active fin_size].
  fold tab y. fold tab y in F1, F2, F3. splits; try done; try lia.
  - rewrite <- F1. apply entries_ext. intros j Hj. apply Hold; lia.
  - replace (Z.to_nat (y + 1 - fin_old t1)) with (S (Z.to_nat (y - fin_old t1))) by lia. rewrite entries_snoc.
    rewrite <- F2. f_equal; [apply entries_ext; intros j Hj; apply Hold; lia|].
    rewrite <- Hnew. do 2 f_equal. lia.
  - rewrite <- F3. apply entries_ext. intros j Hj. apply Hold; lia.
Qed.

(** The words [malloc] gives hold neither the table nor the header of [v]. *)
Definition register_fresh (v : Z) (t : finals) (r : runtime) : Prop :=
  let n := 2 * Z.max 30 (fin_size t * 2) in
  ~ final_table t <= v - 8 < final_table t + 16 * fin_size t /\
  forall p la, malloc_answers r = p :: la -> p = 0 \/ (realloc_fresh t p n /\ ~ p <= v - 8 < p + 8 * n).

Lemma final_register_spec fuel f v t r :
  finals_ok t -> fin_size t < B31 -> (Z.to_nat (fin_size t) < fuel)%nat -> register_fresh v t r ->
  (fin_young t = fin_active t -> final_table t <> 0 -> 0 < fin_active t) ->
  if Is_block v && (Is_in_heap (mjr r) v || Is_young (mnr r) v) then
    match final_register fuel f v t r with
    | Ok (inr t') r' => registered f (Infix_base (rmem r) v) (rmem r) t (rmem r') t'
    | Ok (inl _) _ => False
    | _ => fin_young t = fin_active t /\ default 0 (head (malloc_answers r)) = 0
    end
  else final_register fuel f v t r = Ok (inl "Gc.finalise"%string) r.
Proof.
  intros Hok Hsz Hf (Hv & Hfresh) Hact. unfold final_register. destruct (_ && _); cbn [negb]; [|done].
  pose proof Hok as (H1 & H2 & H3 & H4 & H5 & H6).
  destruct (Z.leb_spec (fin_active t) (fin_young t)) as [Hfull|Hroom].
  2: { destruct (put_final_spec f v (rmem r) t r t) as (t' & r' & E & Hreg); [unfold room_made; splits; done|now intros a ->|].
       unfold bind, ret. now rewrite E. }
  assert (Efull : fin_young t = fin_active t) by lia. destruct (stat_alloc_cases r) as [(p & la & Em & Hp & _)|(r1 & Er & _)].
  - destruct (Hfresh p la Em) as [?|[Hrf Hpv]]; [done|].
    destruct (grow_finals_spec fuel t r p la Hok Efull Em Hp (Hact Efull) Hsz Hf Hrf) as (t1 & r1 & E1 & Hroom & _ & _).
    destruct (put_final_spec f v (rmem r) t r1 t1) as (t' & r' & E & Hreg); [done| |unfold bind, ret; now rewrite E1, E].
    intros a -> Hin. apply Hpv. destruct (grow_finals_table fuel t r p la t1 r1 Em Hp E1) as [Et Hs].
    rewrite Et, Hs in Hin. destruct (final_table t =? 0); [lia|]. rewrite u64_id in Hin by (unfold isu64; lia). lia.
  - assert (Hgrow : forall r2, grow_finals fuel t r = r2 -> match r2 with Ok _ _ => False | _ => True end).
    { intros r2 <-. unfold grow_finals, bind.
      destruct (final_table t =? 0); rewrite Er; unfold raise_out_of_memory, mlraise;
        (destruct (_ =? 0); [done|]); now destruct (external_raise _ =? 0). }
    unfold bind. specialize (Hgrow _ eq_refl).
    assert (Hz : default 0 (head (malloc_answers r)) = 0).
    { unfold stat_alloc_M, bind, libc_malloc, ret in Er. destruct (malloc_answers r) as [|p la]; [done|]. cbn.
      destruct (Z.eqb_spec p 0); [done|]. exfalso. unfold raise_out_of_memory, mlraise in Er.
      destruct (_ =? 0); [done|]. now destruct (external_raise _ =? 0). }
    destruct (grow_finals fuel t r); done.
Qed.

(** ** The end of the marking *)

Section Update.
Context (m0 : mem) (tab size old0 active0 : Z) (depth : nat).
Context (Htab : 0 <= tab) (Hend : tab + 16 * size <= B64).
Context (Hcnt : 0 <= old0 <= active0) (Hact : active0 <= size).

Definition in_table (a : Z) : Prop := tab <= a < tab + 16 * size.
Definition white_forward (v : Z) : bool := Is_white_val m0 v && (Tag_val m0 v =? Forward_tag).

(** The value a chain of white forwarding blocks leads to. *)
Fixpoint chain_end (n : nat) (v : Z) : Z :=
  match n with
  | O => v
  | S n => if white_forward v then chain_end n (Forward_val m0 v) else v
  end.
(** The chain has at most [n] blocks, away from the table. *)
Fixpoint chain_ok (n : nat) (v : Z) : Prop :=
  ~ in_table (v - 8) /\
  (white_forward v = true ->
     ~ in_table v /\ match n with O => False | S n => chain_ok n (Forward_val m0 v) end).

Definition resolved (e : Z * Z) : Z * Z := (e.1, chain_end depth e.2).

Definition same_out (m : mem) : Prop := forall a, ~ in_table a -> ld m a = ld m0 a.

Lemma chain_end_fixed n : forall v, chain_ok n v -> white_forward (chain_end n v) = false /\ ~ in_table (chain_end n v - 8).
Proof.
  induction n as [|n IH]; intros v [H1 H2]; cbn [chain_end].
  - destruct (white_forward v) eqn:E; [now destruct (H2 eq_refl)|done].
  - destruct (white_forward v) eqn:E; [|done]. apply IH. now apply H2.
Qed.

Lemma white_out m v : same_out m -> ~ in_table (v - 8) -> Is_white_val m v = Is_white_val m0 v /\ Tag_val m v = Tag_val m0 v.
Proof using.
  intros Hm Hv. assert (E : Hd_val m v = Hd_val m0 v) by exact (Hm _ Hv).
  unfold Is_white_val, Tag_val. rewrite E. split; reflexivity.
Qed.

(** Storing the value of entry [i]. *)
Lemma same_out_st m a x : same_out m -> in_table a -> same_out (st m a x).
Proof. intros Hm Ha b Hb. rewrite ld_st_ne; [now apply Hm|]. now intros ->. Qed.

Lemma follow_forward_spec i : 0 <= i < size -> forall n fuel m,
  same_out m -> chain_ok n (entry m tab i).2 -> (n < fuel)%nat ->
  exists m', follow_forward fuel tab i m = Some m' /\ same_out m' /\
    entry m' tab i = ((entry m tab i).1, chain_end n (entry m tab i).2) /\
    (forall j, 0 <= j < size -> j <> i -> entry m' tab j = entry m tab j).
Proof.
  intros Hi. induction n as [|n IH]; intros [|fuel] m Hm Hc Hf; try lia; cbn [follow_forward].
  all: unfold entry in Hc; cbn [snd] in Hc; set (v := ld m (val_addr tab i)) in *.
  all: destruct Hc as [H1 H2]; destruct (white_out m v Hm H1) as [-> ->]; change (Is_white_val m0 v && (Tag_val m0 v =? Forward_tag)) with (white_forward v).
  - destruct (white_forward v) eqn:E; [now destruct (H2 eq_refl)|]. exists m. done.
  - cbn [entry fst snd chain_end]. destruct (white_forward v) eqn:E.
    2: { exists m. unfold entry. cbn [fst snd]. fold v. rewrite E. done. }
    destruct (H2 eq_refl) as [H3 H4].
    assert (Efv : Forward_val m v = Forward_val m0 v).
    { unfold Forward_val, Field. apply Hm. unfold Field_addr, sizeof_value. now replace (v + 0 * 8) with v by lia. }
    rewrite Efv. set (m1 := st m (val_addr tab i) (Forward_val m0 v)).
    assert (Hm1 : same_out m1).
    { apply same_out_st; [done|]. rewrite (val_addr_eq tab size) by lia. unfold in_table. lia. }
    assert (He1 : entry m1 tab i = ((entry m tab i).1, Forward_val m0 v)).
    { rewrite !(entry_eq tab size) by lia. unfold m1. rewrite (val_addr_eq tab size), ld_st_ne, ld_st_eq by lia. done. }
    destruct (IH fuel m1 Hm1) as (m' & -> & Hm' & Ei & Ej); [now rewrite He1|lia|].
    exists m'. split; [done|]. split; [done|]. split.
    + rewrite Ei, He1. unfold entry. cbn [fst snd]. fold v. now rewrite E.
    + intros j Hj Hne. rewrite Ej by done. rewrite !(entry_eq tab size) by lia. unfold m1.
      rewrite (val_addr_eq tab size), !ld_st_ne by lia. done.
Qed.

(** The state of the loop at index [i]. *)
Record updating (E0 : list (Z * Z)) (i old active : Z) (m : mem) : Prop := {
  u_range : 0 <= i <= old /\ old <= old0;
  u_count : active0 - active = old0 - old;
  u_out : same_out m;
  u_kept j : active0 <= j < size -> entry m tab j = entry m0 tab j;
  u_perm : entries m tab 0 (Z.to_nat i) ++ (resolved <$> entries m tab i (Z.to_nat (old - i))) ++
           entries m tab active (Z.to_nat (active0 - active)) ≡ₚ resolved <$> E0;
  u_live : Forall (fun e => Is_white_val m0 e.2 = false) (entries m tab 0 (Z.to_nat i));
  u_todo : Forall (fun e => chain_ok depth e.2) (entries m tab i (Z.to_nat (old - i)));
  u_dead : Forall (fun e => Is_white_val m0 e.2 = true /\ ~ in_table (e.2 - 8))
             (entries m tab active (Z.to_nat (active0 - active)))
}.

Lemma entries_same m m' lo n :
  (forall j, lo <= j < lo + Z.of_nat n -> entry m' tab j = entry m tab j) -> entries m' tab lo n = entries m tab lo n.
Proof using. intros H. apply entries_ext. intros j Hj. apply H. lia. Qed.
Lemma entries_S m lo k : 0 <= k -> entries m tab lo (Z.to_nat (k + 1)) = entry m tab lo :: entries m tab (lo + 1) (Z.to_nat k).
Proof. intros Hk. now replace (Z.to_nat (k + 1)) with (S (Z.to_nat k)) by lia. Qed.
Lemma entries_S_end m lo k : 0 <= k -> entries m tab lo (Z.to_nat (k + 1)) = entries m tab lo (Z.to_nat k) ++ [entry m tab (lo + k)].
Proof.
  intros Hk. replace (Z.to_nat (k + 1)) with (S (Z.to_nat k)) by lia. rewrite entries_snoc. do 3 f_equal. lia.
Qed.

Lemma swap_perm {X} (L R D : list X) a b : L ++ (b :: R) ++ a :: D ≡ₚ L ++ (a :: R ++ [b]) ++ D.
Proof.
  apply Permutation_app_head. cbn [app]. rewrite <- Permutation_middle. rewrite <- app_assoc. cbn [app].
  rewrite <- Permutation_middle. apply perm_swap.
Qed.

(** The entry [i] is to be kept. *)
Lemma update_live E0 i old active m m' :
  updating E0 i old active m -> i < old -> same_out m' -> entry m' tab i = resolved (entry m tab i) ->
  (forall j, 0 <= j < size -> j <> i -> entry m' tab j = entry m tab j) ->
  Is_white_val m0 (entry m' tab i).2 = false -> updating E0 (i + 1) old active m'.
Proof.
  intros [U1 U2 U3 U4 U5 U6 U7 U8] Hi Hm' Ei Ej Hw.
  assert (E1 : entries m' tab 0 (Z.to_nat i) = entries m tab 0 (Z.to_nat i)) by (apply entries_same; intros; apply Ej; lia).
  assert (E2 : entries m' tab (i + 1) (Z.to_nat (old - (i + 1))) = entries m tab (i + 1) (Z.to_nat (old - (i + 1))))
    by (apply entries_same; intros; apply Ej; lia).
  assert (E3 : entries m' tab active (Z.to_nat (active0 - active)) = entries m tab active (Z.to_nat (active0 - active)))
    by (apply entries_same; intros; apply Ej; lia).
  replace (old - i) with (old - (i + 1) + 1) in U5, U7 by lia. rewrite entries_S in U5, U7 by lia.
  constructor; try done; try lia; rewrite ?E2, ?E3, ?entries_S_end, ?E1, ?Z.add_0_l by lia; try done.
  - intros j Hj. rewrite Ej by lia. now apply U4.
  - rewrite Ei, <- U5, <- app_assoc. done.
  - apply Forall_app. split; [done|]. now repeat constructor.
  - now apply Forall_cons in U7 as [_ U7].
Qed.

(** It goes to the finalising set. *)
Lemma update_dead E0 i old active m m' m2 :
  updating E0 i old active m -> i < old -> same_out m' -> entry m' tab i = resolved (entry m tab i) ->
  (forall j, 0 <= j < size -> j <> i -> entry m' tab j = entry m tab j) ->
  Is_white_val m0 (entry m' tab i).2 = true -> ~ in_table ((entry m' tab i).2 - 8) ->
  same_out m2 -> entry m2 tab (active - 1) = entry m' tab i ->
  (i <> active - 1 -> entry m2 tab i = entry m' tab (old - 1)) ->
  (forall j, 0 <= j < size -> j <> i -> j <> active - 1 -> entry m2 tab j = entry m' tab j) ->
  updating E0 i (old - 1) (active - 1) m2.
Proof.
  intros [U1 U2 U3 U4 U5 U6 U7 U8] Hi Hm' Ei Ej Hw Hout Hm2 Ea Eo Es.
  assert (E1 : entries m2 tab 0 (Z.to_nat i) = entries m tab 0 (Z.to_nat i))
    by (apply entries_same; intros; rewrite Es, Ej by lia; done).
  assert (E3 : entries m2 tab active (Z.to_nat (active0 - active)) = entries m tab active (Z.to_nat (active0 - active)))
    by (apply entries_same; intros; rewrite Es, Ej by lia; done).
  assert (E4 : entries m2 tab (active - 1) (Z.to_nat (active0 - (active - 1))) =
               resolved (entry m tab i) :: entries m tab active (Z.to_nat (active0 - active))).
  { replace (active0 - (active - 1)) with (active0 - active + 1) by lia. rewrite entries_S by lia.
    rewrite Ea, Ei. f_equal. replace (active - 1 + 1) with active by lia. done. }
  replace (old - i) with (old - (i + 1) + 1) in U5, U7 by lia. rewrite entries_S in U5, U7 by lia.
  assert (Hrest : (resolved <$> entries m2 tab i (Z.to_nat (old - 1 - i))) ++ resolved (entry m tab i) :: entries m tab active (Z.to_nat (active0 - active)) ≡ₚ
    (resolved <$> (entry m tab i :: entries m tab (i + 1) (Z.to_nat (old - (i + 1))))) ++ entries m tab active (Z.to_nat (active0 - active)) /\
    Forall (fun e => chain_ok depth e.2) (entries m2 tab i (Z.to_nat (old - 1 - i)))).
  { destruct (decide (i = old - 1)) as [->|Hne].
    - replace (old - (old - 1 + 1)) with 0 by lia. replace (old - 1 - (old - 1)) with 0 by lia. now split; [|constructor].
    - replace (old - 1 - i) with (old - 1 - (i + 1) + 1) by lia. replace (old - (i + 1)) with (old - 1 - (i + 1) + 1) in * by lia.
      rewrite entries_S by lia. rewrite entries_S_end in U7 |- * by lia. rewrite Eo, Ej by lia.
      replace (i + 1 + (old - 1 - (i + 1))) with (old - 1) in * by lia.
      rewrite (entries_same m m2 (i + 1)) by (intros; rewrite Es, Ej by lia; done). split.
      + rewrite !fmap_cons, fmap_app. apply (swap_perm []).
      + apply Forall_cons in U7 as [_ U7]. apply Forall_app in U7 as [U7 U7']. constructor; [|done]. now apply Forall_cons in U7'. }
  constructor; try done; try lia; rewrite ?E1, ?E4; try done.
  - intros j Hj. rewrite Es, Ej by lia. now apply U4.
  - rewrite <- U5. apply Permutation_app_head. now destruct Hrest.
  - apply Hrest.
  - constructor; [|done]. now rewrite <- Ei.
Qed.

(** The assignments of a step that moves entry [i]. *)
Lemma move_entry i old active m :
  0 <= i < old -> old <= size -> old - 1 <= active - 1 < size -> same_out m ->
  let m1 := copy_entry tab (old - 1) i m in
  let m2 := st (st m1 (fun_addr tab (active - 1)) (entry m tab i).1) (val_addr tab (active - 1)) (entry m tab i).2 in
  same_out m2 /\ entry m2 tab (active - 1) = entry m tab i /\
  (i <> active - 1 -> entry m2 tab i = entry m tab (old - 1)) /\
  (forall j, 0 <= j < size -> j <> i -> j <> active - 1 -> entry m2 tab j = entry m tab j).
Proof.
  intros Hi Hold Hactive Hm m1 m2.
  destruct (copy_entry_spec tab size Htab Hend (old - 1) i m) as [C1 C2]; [lia|lia|]. fold m1 in C1, C2.
  assert (Hj : forall j, 0 <= j < size -> j <> active - 1 -> entry m2 tab j = entry m1 tab j).
  { intros j Hj Hne. rewrite !(entry_eq tab size) by lia. unfold m2.
    rewrite (fun_addr_eq tab size), (val_addr_eq tab size), !ld_st_ne by lia. done. }
  splits.
  - intros a Ha. unfold m2. rewrite (fun_addr_eq tab size), (val_addr_eq tab size) by lia. unfold in_table in Ha.
    rewrite !ld_st_ne, C2 by lia. apply Hm. unfold in_table. lia.
  - rewrite (entry_eq tab size) by lia. unfold m2. rewrite (fun_addr_eq tab size), (val_addr_eq tab size) by lia.
    rewrite ld_st_ne, !ld_st_eq by lia. done.
  - intros Hne. rewrite Hj by lia. done.
  - intros j Hjr H1 H2. rewrite Hj by lia. rewrite !(entry_eq tab size) by lia. rewrite !C2 by lia. done.
Qed.

Lemma update_loop_spec E0 : forall fuel i t m,
  final_table t = tab -> fin_size t = size -> updating E0 i (fin_old t) (fin_active t) m ->
  (Z.to_nat (fin_old t - i) + depth < fuel)%nat ->
  exists t' m', update_loop fuel i t m = Some (t', m') /\ final_table t' = tab /\ fin_size t' = size /\
    updating E0 (fin_old t') (fin_old t') (fin_active t') m'.
Proof.
  induction fuel as [|fuel IH]; intros i t m Et Es U Hf; [lia|]. cbn [update_loop].
  pose proof U as [U1 U2 U3 U4 U5 U6 U7 U8].
  destruct (Z.ltb_spec i (fin_old t)) as [Hi|Hi].
  2: { exists t, m. assert (Eo : fin_old t = i) by lia. rewrite Eo in U |- *. done. }
  rewrite Et.
  assert (Hc : chain_ok depth (entry m tab i).2).
  { replace (fin_old t - i) with (fin_old t - i - 1 + 1) in U7 by lia. rewrite entries_S in U7 by lia. now apply Forall_cons in U7. }
  destruct (follow_forward_spec i ltac:(lia) depth (S fuel) m U3 Hc ltac:(lia)) as (m' & -> & Hm' & Ei & Ej).
  cbn [mbind option_bind]. change (ld m' (val_addr tab i)) with (entry m' tab i).2. change (ld m' (fun_addr tab i)) with (entry m' tab i).1.
  destruct (chain_end_fixed depth _ Hc) as [Hfix Hout].
  assert (Hout' : ~ in_table ((entry m' tab i).2 - 8)) by now rewrite Ei.
  destruct (white_out m' _ Hm' Hout') as [-> _].
  destruct (Is_white_val m0 (entry m' tab i).2) eqn:Ew.
  - destruct (move_entry i (fin_old t) (fin_active t) m') as (M1 & M2 & M3 & M4); [lia|lia|lia|done|].
    apply IH; cbn [final_table fin_size fin_old fin_active]; try done; [|lia].
    now apply (update_dead E0 i (fin_old t) (fin_active t) m m').
  - apply IH; [done|done| |lia]. now apply (update_live E0 i (fin_old t) (fin_active t) m m').
Qed.
End Update.

(** Every word stored was loaded. *)
Lemma follow_forward_wfm tab i fuel : forall m m', wfm m -> follow_forward fuel tab i m = Some m' -> wfm m'.
Proof.
  induction fuel as [|fuel IH]; intros m m' Hm; [done|]. cbn [follow_forward]. destruct (_ && _); [|now intros [= <-]].
  apply IH. apply wfm_st; [done|]. apply wfm_ld, Hm.
Qed.
Lemma update_loop_wfm fuel : forall i t m t' m', wfm m -> update_loop fuel i t m = Some (t', m') -> wfm m'.
Proof.
  induction fuel as [|fuel IH]; intros i t m t' m' Hm; [done|]. cbn [update_loop]. destruct (i <? fin_old t); [|now intros [= _ <-]].
  destruct (follow_forward (S fuel) (final_table t) i m) as [m1|] eqn:E; [|done]. cbn [mbind option_bind].
  apply follow_forward_wfm in E; [|done]. destruct (Is_white_val m1 _); [|now apply IH]. apply IH.
  unfold copy_entry. cbn [fst snd]. auto 10 with mem.
Qed.

(** ** Darkening the finalising set *)

Lemma Grayhd_range hd : isu64 hd -> isu64 (Grayhd_hd hd).
Proof.
  intros [H1 H2]. unfold Grayhd_hd, isu64. set (M := u64 (Z.lnot Caml_black)).
  assert (HM : 0 <= M < 2 ^ 64) by (vm_compute; split; [discriminate|reflexivity]). assert (HC : 0 <= Caml_gray < 2 ^ 64) by (vm_compute; split; [discriminate|reflexivity]).
  assert (Hnn : 0 <= Z.lor (Z.land hd M) Caml_gray) by (apply Z.lor_nonneg; split; [apply Z.land_nonneg; lia|lia]).
  split; [done|].
  assert (Hs : Z.shiftr (Z.lor (Z.land hd M) Caml_gray) 64 = 0).
  { rewrite Z.shiftr_lor, Z.shiftr_land, !(Z.shiftr_div_pow2 _ 64) by lia.
    rewrite (Z.div_small M), (Z.div_small Caml_gray), Z.land_0_r by lia. done. }
  rewrite Z.shiftr_div_pow2 in Hs by lia. apply Z.div_small_iff in Hs; [|lia]. change (2 ^ 64) with B64 in Hs. lia.
Qed.
Lemma Tag_Grayhd hd : Tag_hd (Grayhd_hd hd) = Tag_hd hd.
Proof.
  unfold Tag_hd, Grayhd_hd. rewrite Z.land_lor_distr_l, <- Z.land_assoc.
  change (Z.land (u64 (Z.lnot Caml_black)) 255) with 255. change (Z.land Caml_gray 255) with 0. apply Z.lor_0_r.
Qed.

(** What [darken] writes. *)
Lemma darken_mem v r r' :
  darken v r = Ok tt r' -> rmem r' = rmem r \/
    let t := darken_target (rmem r) v in rmem r' = st (rmem r) (Hp_val t) (Grayhd_hd (Hd_val (rmem r) t)).
Proof.
  unfold darken. destruct (_ && _); [|intros [= <-]; now left]. cbv zeta. destruct (Is_white_val _ _); [|intros [= <-]; now left].
  rsimp. destruct (_ <=? _); [|intros [= <-]; now right].
  unfold realloc_gray_vals, bind, libc_malloc, upd. rsimp. intros H. right.
  repeat match type of H with context [if ?b then _ else _] => destruct b end; try (injection H as <-; done);
    destruct (malloc_answers r) as [|a l]; cbn in H; repeat match type of H with context [if ?b then _ else _] => destruct b end;
    injection H as <-; done.
Qed.

(** A value of the heap that is not a pointer into a closure. *)
Definition heap_value (r : runtime) (v : Z) : Prop :=
  Is_block v = true /\ Is_in_heap (mjr r) v = true /\ Tag_val (rmem r) v <> Infix_tag.

(** [r'] is [r] with some headers outside the table darkened. *)
Record darker (tab size : Z) (r r' : runtime) : Prop := {
  d_table a : in_table tab size a -> ld (rmem r') a = ld (rmem r) a;
  d_wf : wfm (rmem r');
  d_gray : gray_vals_ok r';
  d_white v : Is_white_val (rmem r) v = false -> Is_white_val (rmem r') v = false;
  d_heap v : heap_value r v -> heap_value r' v
}.

Lemma darken_darker tab size v r :
  wfm (rmem r) -> gray_vals_ok r -> heap_value r v -> ~ in_table tab size (v - 8) ->
  exists r', darken v r = Ok tt r' /\ darker tab size r r' /\ Is_white_val (rmem r') v = false.
Proof.
  intros Hw Hg (Hb & Hh & Ht) Hout.
  assert (Et : darken_target (rmem r) v = v) by (unfold darken_target; destruct (Z.eqb_spec (Tag_val (rmem r) v) Infix_tag); done).
  destruct (darken_spec v r Hw Hg) as (r' & E & (F1 & _ & _ & _ & F5 & _) & Hg' & Hd).
  destruct (Hd Hb Hh) as (Hnw & _). rewrite Et in *. exists r'. split; [done|]. split; [|done].
  assert (Hm : rmem r' = rmem r \/ rmem r' = st (rmem r) (Hp_val v) (Grayhd_hd (Hd_val (rmem r) v))).
  { pose proof (darken_mem v r r' E) as H. rewrite Et in H. exact H. }
  assert (Htag : forall w, Tag_val (rmem r') w = Tag_val (rmem r) w).
  { intros w. destruct Hm as [->| ->]; [done|]. unfold Tag_val, Hd_val. destruct (decide (w = v)) as [->|Hne].
    - rewrite ld_st_eq. apply Tag_Grayhd.
    - rewrite ld_st_ne; [done|]. unfold Hp_val. lia. }
  constructor; try done.
  - intros a Ha. apply F1. unfold Hp_val, sizeof_value. now intros ->.
  - destruct Hm as [->| ->]; [done|]. apply wfm_st; [done|]. apply Grayhd_range, Hw.
  - intros w Hwh. destruct (decide (w = v)) as [->|Hne]; [done|]. unfold Is_white_val, Hd_val in *. rewrite F1; [done|].
    unfold Hp_val. lia.
  - intros w (W1 & W2 & W3). unfold heap_value. now rewrite F5, Htag.
Qed.

Lemma darker_refl tab size r : wfm (rmem r) -> gray_vals_ok r -> darker tab size r r.
Proof. now constructor. Qed.
Lemma darker_trans tab size r1 r2 r3 : darker tab size r1 r2 -> darker tab size r2 r3 -> darker tab size r1 r3.
Proof.
  intros [A1 A2 A3 A4 A5] [B1 B2 B3 B4 B5]. constructor; auto. intros a Ha. now rewrite B1, A1.
Qed.

(** The loop that darkens [n] values from [lo]. *)
Lemma darken_vals_spec tab size n : 0 <= tab -> tab + 16 * size <= B64 -> forall lo r,
  0 <= lo -> lo + Z.of_nat n <= size -> wfm (rmem r) -> gray_vals_ok r ->
  Forall (fun e => heap_value r e.2 /\ ~ in_table tab size (e.2 - 8)) (entries (rmem r) tab lo n) ->
  exists r', darken_vals tab n lo r = Ok tt r' /\ darker tab size r r' /\
    Forall (fun e => Is_white_val (rmem r') e.2 = false) (entries (rmem r) tab lo n).
Proof.
  intros Ht He. induction n as [|n IH]; intros lo r Hlo Hhi Hw Hg Hall; unfold darken_vals in *; cbn [scan_column entries] in *.
  { exists r. split; [done|]. split; [now apply darker_refl|constructor]. }
  apply Forall_cons in Hall as [[Hv Hout] Hall].
  destruct (darken_darker tab size (entry (rmem r) tab lo).2 r Hw Hg Hv Hout) as (r1 & E1 & D1 & N1).
  unfold bind, Call_action. change (ld (rmem r) (val_addr tab lo)) with (entry (rmem r) tab lo).2. rewrite E1.
  assert (Ee : forall lo' k, 0 <= lo' -> lo' + Z.of_nat k <= size -> entries (rmem r1) tab lo' k = entries (rmem r) tab lo' k).
  { intros lo' k H1 H2. apply entries_same. intros j Hj. rewrite !(entry_eq tab size) by lia.
    rewrite !(d_table _ _ _ _ D1) by (unfold in_table; lia). done. }
  destruct (IH (lo + 1) r1) as (r2 & E2 & D2 & N2); [lia|lia|apply D1|apply D1| |].
  { rewrite Ee by lia. eapply Forall_impl; [exact Hall|]. intros e [Hh Ho]. split; [now apply (d_heap _ _ _ _ D1)|done]. }
  exists r2. split; [exact E2|]. split; [now apply (darker_trans _ _ _ r1)|]. rewrite Ee in N2 by lia.
  constructor; [now apply (d_white _ _ _ _ D2)|done].
Qed.

(** ** The claims *)

(** The partition [final_update] makes: [dead] are the entries it moves. *)
Record updated (depth : nat) (t : finals) (r : runtime) (t' : finals) (r' : runtime) (dead : list (Z * Z)) : Prop := {
  fu_ok : finals_ok t' /\ fin_young t' = fin_old t';
  fu_moved : finalising (rmem r') t' = dead ++ finalising (rmem r) t;
  fu_perm : finalisable (rmem r') t' ++ dead ≡ₚ resolved (rmem r) depth <$> finalisable (rmem r) t;
  fu_live : Forall (fun e => Is_white_val (rmem r) e.2 = false) (finalisable (rmem r') t');
  fu_dead : Forall (fun e => Is_white_val (rmem r) e.2 = true /\ Is_white_val (rmem r') e.2 = false) dead
}.

(** The values of the finalisable set lead to blocks of the heap, away from the
    table. *)
Definition finals_in_heap (depth : nat) (t : finals) (r : runtime) : Prop :=
  Forall (fun e => chain_ok (rmem r) (final_table t) (fin_size t) depth e.2 /\
                   heap_value r (chain_end (rmem r) depth e.2)) (finalisable (rmem r) t).

Lemma final_update_spec fuel depth t r :
  finals_ok t -> fin_young t = fin_old t -> wfm (rmem r) -> gray_vals_ok r -> finals_in_heap depth t r ->
  (Z.to_nat (fin_old t) + depth < fuel)%nat ->
  exists t' r' dead, final_update fuel t r = Ok t' r' /\ updated depth t r t' r' dead.
Proof.
  intros (H1 & H2 & H3 & H4 & H5 & H6) Hy Hw Hg Hheap Hf. set (tab := final_table t) in *. set (size := fin_size t) in *.
  assert (U0 : updating (rmem r) tab size (fin_old t) (fin_active t) depth (finalisable (rmem r) t) 0 (fin_old t) (fin_active t) (rmem r)).
  { constructor; try done; try lia; rewrite ?Z.sub_diag, ?Z.sub_0_r; try constructor.
    - cbn [Z.to_nat entries app]. now rewrite app_nil_r.
    - eapply Forall_impl; [exact Hheap|]. now intros e [? _]. }
  destruct (update_loop_spec (rmem r) tab size (fin_old t) (fin_active t) depth ltac:(lia) ltac:(lia) ltac:(lia) ltac:(lia)
    (finalisable (rmem r) t) fuel 0 t (rmem r) eq_refl eq_refl U0) as (t1 & m & E & Et & Es & U); [now rewrite Z.sub_0_r|].
  unfold final_update. rewrite E. cbn [final_table fin_active fin_old fin_size]. rewrite Et.
  destruct U as [U1 U2 U3 U4 U5 U6 U7 U8]. rewrite Z.sub_diag in U5. change (Z.to_nat 0) with 0%nat in U5. cbn [entries fmap list_fmap app] in U5.
  set (r1 := set_rmem m r). set (dead := entries m tab (fin_active t1) (Z.to_nat (fin_active t - fin_active t1))) in *.
  assert (Hdead : Forall (fun e => heap_value r e.2) dead).
  { apply Forall_forall. intros e He. assert (Hin : e ∈ resolved (rmem r) depth <$> finalisable (rmem r) t).
    { rewrite <- U5. apply elem_of_app. now right. }
    apply list_elem_of_fmap in Hin as (e0 & -> & He0). unfold finals_in_heap in Hheap. rewrite Forall_forall in Hheap. now apply Hheap. }
  assert (Hhv : forall v, heap_value r v -> ~ in_table tab size (v - 8) -> heap_value r1 v).
  { intros v (B1 & B2 & B3) Hout. split; [done|]. split; [done|]. unfold r1; rsimp.
    edestruct white_out as [_ ->]; [exact U3|exact Hout|done]. }
  destruct (darken_vals_spec tab size (Z.to_nat (fin_active t - fin_active t1)) ltac:(lia) ltac:(lia) (fin_active t1) r1)
    as (r2 & E2 & D2 & N2); [lia|lia|now apply (update_loop_wfm fuel 0 t (rmem r) t1 m)|done| |].
  { unfold r1; rsimp. fold dead. rewrite Forall_forall in U8, Hdead |- *. intros e He.
    destruct (U8 e He) as [_ Ho]. split; [|done]. now apply Hhv; [apply Hdead|]. }
  unfold bind. rewrite E2. eexists _, r2, dead. split; [reflexivity|].
  assert (Ee : forall lo n, 0 <= lo -> lo + Z.of_nat n <= size -> entries (rmem r2) tab lo n = entries m tab lo n).
  { intros lo n Hlo Hn. apply entries_same. intros j Hj. rewrite !(entry_eq tab size) by lia.
    rewrite !(d_table _ _ _ _ D2) by (unfold in_table; lia). done. }
  assert (Efin : finalisable (rmem r2) (MkFinals tab (fin_old t1) (fin_old t1) (fin_active t1) (fin_size t1)) = entries m tab 0 (Z.to_nat (fin_old t1)))
    by (unfold finalisable; apply Ee; cbn; lia).
  constructor; rewrite ?Efin; try done.
  - unfold finals_ok. cbn [final_table fin_old fin_young fin_active fin_size]. rewrite Es. splits; try done; lia.
  - unfold finalising. cbn [final_table fin_active fin_size]. rewrite Es, Ee by lia. unfold dead.
    replace (Z.to_nat (size - fin_active t1)) with (Z.to_nat (fin_active t - fin_active t1) + Z.to_nat (size - fin_active t))%nat by lia.
    rewrite entries_app. f_equal. replace (fin_active t1 + Z.of_nat _) with (fin_active t) by lia.
    apply entries_same. intros j Hj. apply U4. lia.
  - rewrite Forall_forall in N2, U8 |- *. intros e He. split; [now apply U8|now apply N2].
Qed.

(** C15: [Gc.finalise] on a block adds it to the recent set (a pointer into a closure
    stands for the closure) and keeps the three sets, also when the table has to
    grow; it fails only when the table is full and [malloc] refuses.  Other values
    are rejected with [Invalid_argument].  The finalising set must not fill the whole
    table. *)
Theorem final_register_correct fuel f v t r :
  finals_ok t -> fin_size t < B31 -> (Z.to_nat (fin_size t) < fuel)%nat -> register_fresh v t r ->
  (fin_young t = fin_active t -> final_table t <> 0 -> 0 < fin_active t) ->
  if Is_block v && (Is_in_heap (mjr r) v || Is_young (mnr r) v) then
    match final_register fuel f v t r with
    | Ok (inr t') r' => registered f (Infix_base (rmem r) v) (rmem r) t (rmem r') t'
    | Ok (inl _) _ => False
    | _ => fin_young t = fin_active t /\ default 0 (head (malloc_answers r)) = 0
    end
  else final_register fuel f v t r = Ok (inl "Gc.finalise"%string) r.
Proof. apply final_register_spec. Qed.

(** C40: when the finalising set fills the table ([active = 0]), [Gc.finalise] does not
    end: the unsigned index of the loop that moves the set is never below [active].
    No bound on the iterations is enough. *)
Theorem final_register_never_ends fuel f v t r p la :
  Is_block v && (Is_in_heap (mjr r) v || Is_young (mnr r) v) = true ->
  final_table t <> 0 -> fin_active t = 0 -> fin_young t = 0 -> malloc_answers r = p :: la -> p <> 0 ->
  final_register fuel f v t r = Fatal "the loop has not ended within the bound".
Proof.
  intros Hv Ht Ha Hy Em Hp. unfold final_register. rewrite Hv, Ha, Hy. change (0 <=? 0) with true. cbn [negb].
  assert (Hg : grow_finals fuel t r = Fatal "the loop has not ended within the bound"); [|unfold bind; now rewrite Hg].
  unfold grow_finals. destruct (Z.eqb_spec (final_table t) 0); [done|]. unfold bind, stat_alloc_M, libc_malloc, bind. rewrite Em.
  destruct (Z.eqb_spec p 0); [done|]. unfold ret. rewrite Ha, shift_entries_diverges; [done|apply u64_range].
Qed.

(** C14: at the end of the marking [final_update] splits the finalisable set: the
    entries whose values (behind forwarding blocks) are unmarked go to the finalising
    set, before those already there, and their values are darkened; the others stay.
    No entry is lost or duplicated, and the loops end. *)
Theorem final_update_correct fuel depth t r :
  finals_ok t -> fin_young t = fin_old t -> wfm (rmem r) -> gray_vals_ok r -> finals_in_heap depth t r ->
  (Z.to_nat (fin_old t) + depth < fuel)%nat ->
  exists t' r' dead, final_update fuel t r = Ok t' r' /\ updated depth t r t' r' dead.
Proof. apply final_update_spec. Qed.

(** ** A table of finalisers

    The values are the two blocks of [tiny], one black and one white. *)

Definition fill_table (tab : Z) (vals : list Z) (m : mem) : mem :=
  fst (foldl (fun '(m, i) v => (st (st m (tab + 16 * i) Val_unit) (tab + 16 * i + 8) v, i + 1)) (m, 0) vals).

Definition demo_finals (vals : list Z) : runtime :=
  set_rmem (fill_table 100000 vals (rmem tiny)) (set_malloc_answers [300000; 200000] tiny).

Lemma final_register_correct_witness :
  let t := MkFinals 100000 0 1 1 2 in
  match final_register 3 Val_unit 4128 t (demo_finals [4104; 4128]) with
  | Ok (inr t') r' =>
      registered Val_unit (Infix_base (rmem (demo_finals [4104; 4128])) 4128) (rmem (demo_finals [4104; 4128])) t (rmem r') t'
  | Ok (inl _) _ => False
  | _ => 1 = 1 /\ default 0 (head (malloc_answers (demo_finals [4104; 4128]))) = 0
  end.
Proof.
  intros t. refine (final_register_correct 3 Val_unit 4128 t (demo_finals [4104; 4128]) _ _ _ _ _).
  - unfold finals_ok, t. cbn. lia.
  - reflexivity.
  - cbn. lia.
  - split; [cbn; lia|]. intros p la [= <- <-]. right. unfold realloc_fresh. cbn. lia.
  - intros _ _. cbn. lia.
Defined.

(** Thirty finalisers for one unreachable block fill the first table: after
    [final_update] the next registration does not end. *)
Definition full_finals : runtime := demo_finals (replicate 30 4128).

Lemma final_register_never_ends_witness :
  match final_update 40 (MkFinals 100000 30 30 30 30) full_finals with
  | Ok t' r' => fin_active t' = 0 /\ fin_young t' = 0 /\
      forall fuel, final_register fuel Val_unit 4104 t' r' = Fatal "the loop has not ended within the bound"
  | _ => False
  end.
Proof.
  assert (H : match final_update 40 (MkFinals 100000 30 30 30 30) full_finals with
              | Ok t' r' => final_table t' = 100000 /\ fin_active t' = 0 /\ fin_young t' = 0 /\ malloc_answers r' = [200000] /\
                            Is_block 4104 && (Is_in_heap (mjr r') 4104 || Is_young (mnr r') 4104) = true
              | _ => False end) by (vm_compute; splits; reflexivity).
  destruct (final_update 40 (MkFinals 100000 30 30 30 30) full_finals) as [t' r'| |]; [|exact H|exact H].
  destruct H as (H1 & H2 & H3 & H4 & H5). split; [exact H2|]. split; [exact H3|]. intros fuel.
  apply (final_register_never_ends fuel Val_unit 4104 t' r' 200000 []); [exact H5| |exact H2|exact H3|exact H4|discriminate].
  rewrite H1. discriminate.
Defined.

Lemma demo_finals_in_heap : finals_in_heap 0 (MkFinals 100000 2 2 4 5) (demo_finals [4104; 4128; 0; 0; 4104]).
Proof.
  unfold finals_in_heap. set (r := demo_finals _).
  assert (E : finalisable (rmem r) (MkFinals 100000 2 2 4 5) = [(Val_unit, 4104); (Val_unit, 4128)]) by (vm_compute; reflexivity).
  rewrite E. assert (Hone : forall v, v = 4104 \/ v = 4128 ->
    chain_ok (rmem r) 100000 5 0 v /\ heap_value r (chain_end (rmem r) 0 v)).
  { intros v Hv. split; [split; [unfold in_table; lia|]|];
      destruct Hv as [->| ->]; try (intros H; vm_compute in H; discriminate H); split; try reflexivity;
      (split; [vm_compute; reflexivity|vm_compute; discriminate]). }
  constructor; [apply Hone; now left|]. constructor; [apply Hone; now right|constructor].
Qed.

Lemma final_update_correct_witness :
  exists t' r' dead, final_update 5 (MkFinals 100000 2 2 4 5) (demo_finals [4104; 4128; 0; 0; 4104]) = Ok t' r' /\
    updated 0 (MkFinals 100000 2 2 4 5) (demo_finals [4104; 4128; 0; 0; 4104]) t' r' dead.
Proof.
  apply final_update_correct.
  - unfold finals_ok. cbn. lia.
  - reflexivity.
  - unfold demo_finals, fill_table. cbn [foldl fst].
    repeat (apply wfm_st; [|vm_compute; split; [discriminate|reflexivity]]). apply wfm_empty.
  - vm_compute. splits; auto; discriminate.
  - exact demo_finals_in_heap.
  - cbn. lia.
Defined.
