(* ===== verification/Roots.v ===== *)
(** * The roots

    The scanning loops of [byterun/roots.c] that [oldify_local_roots] and [do_roots]
    share, for any scanning action: the stack, the local roots of C functions, the
    global roots and the slots of the hook; and a rule for proving that a scan visits
    its slots, whatever the action keeps invariant. *)

From S2P Require Import Runtime GlobRoots Finalise.

(** ** The scanning loops *)

(** A block of local roots: the words [next], [ntables], [nitems] and [tables]. *)
Definition lr_next (m : mem) (lr : Z) : Z := ld m lr.
Definition lr_ntables (m : mem) (lr : Z) : Z := ld m (lr + 8).
Definition lr_nitems (m : mem) (lr : Z) : Z := ld m (lr + 16).
Definition lr_table (m : mem) (lr i : Z) : Z := ld m (lr + 24 + 8 * i).

(** [for (i = i; i < i + n; i++)] over the tables, and over their items. *)
Fixpoint scan_tables (f : scanning_action) (n : nat) (lr i : Z) (r : runtime) : res unit :=
  match n with
  | O => Ok tt r
  | S n =>
      bind (scan_words f (Z.to_nat (s64 (lr_nitems (rmem r) lr))) (lr_table (rmem r) lr i))
           (fun _ => scan_tables f n lr (i + 1)) r
  end.

(** [for (lr = lr; lr != NULL; lr = lr->next)]; [fuel] bounds the blocks. *)
Fixpoint scan_local_roots (f : scanning_action) (fuel : nat) (lr : Z) (r : runtime) : res unit :=
  match fuel with
  | O => Fatal "the list of local roots is longer than the bound"
  | S fuel =>
      if lr =? 0 then Ok tt r
      else bind (scan_tables f (Z.to_nat (s64 (lr_ntables (rmem r) lr))) lr 0)
                (fun _ r => scan_local_roots f fuel (lr_next (rmem r) lr) r) r
  end.

(** [f ( *p, p)] for the slots of a list. *)
Fixpoint scan_slots (f : scanning_action) (l : list Z) : M unit :=
  match l with
  | [] => ret tt
  | p :: l => Call_action f p ;; scan_slots f l
  end.

(** The global roots, in the order of their list. *)
Definition scan_global_roots (f : scanning_action) (fuel : nat) (s : global_root_list) : M unit :=
  match global_roots fuel s with
  | None => fatal "the list of global roots is longer than the bound"
  | Some l => scan_slots f l
  end.

(** The roots that are not in [runtime]: the list of the global roots, the
    finalisers, and the slots the hook visits (none when it is [NULL]). *)
Record root_set := MkRootSet {
  root_list : global_root_list;
  finalisers : finals;
  hook_slots : list Z
}.

(** ** The slots a scan visits *)

Fixpoint word_slots (n : nat) (sp : Z) : list Z :=
  match n with O => [] | S n => sp :: word_slots n (sp + 8) end.
Fixpoint entry_slots (tab : Z) (n : nat) (lo : Z) : list Z :=
  match n with O => [] | S n => [fun_addr tab lo; val_addr tab lo] ++ entry_slots tab n (lo + 1) end.
Fixpoint table_slots (n : nat) (m : mem) (lr i : Z) : list Z :=
  match n with
  | O => []
  | S n => word_slots (Z.to_nat (s64 (lr_nitems m lr))) (lr_table m lr i) ++ table_slots n m lr (i + 1)
  end.
Fixpoint table_words (n : nat) (lr i : Z) : list Z :=
  match n with O => [] | S n => (lr + 24 + 8 * i) :: table_words n lr (i + 1) end.

(** The words of the blocks of local roots, and the slots of their tables. *)
Fixpoint local_slots (fuel : nat) (m : mem) (lr : Z) : option (list Z * list Z) :=
  match fuel with
  | O => None
  | S fuel =>
      if lr =? 0 then Some ([], [])
      else
        let n := Z.to_nat (s64 (lr_ntables m lr)) in
        '(ws, l) ← local_slots fuel m (lr_next m lr);
        Some ([lr; lr + 8; lr + 16] ++ table_words n lr 0 ++ ws, table_slots n m lr 0 ++ l)
  end.

Fixpoint column_slots (addr : Z -> Z) (n : nat) (lo : Z) : list Z :=
  match n with O => [] | S n => addr lo :: column_slots addr n (lo + 1) end.

Ltac in_list := repeat first [apply list_elem_of_here | apply list_elem_of_further].

(** ** Outcomes *)

(** Every outcome is a state of [P], or the end of the program with a message of [E]. *)
Definition outcome_of {X} (E : string -> Prop) (P : runtime -> Prop) (x : res X) : Prop :=
  match x with Ok _ r => P r | Exn _ => False | Fatal msg => E msg end.

Lemma outcome_bind {X Y} {E : string -> Prop} (P Q : runtime -> Prop) (m : M X) (k : X -> M Y) r :
  outcome_of E P (m r) -> (forall x r', P r' -> outcome_of E Q (k x r')) -> outcome_of E Q (bind m k r).
Proof. unfold bind. destruct (m r); cbn; [auto|done|auto]. Qed.

Lemma outcome_weaken {X} {E : string -> Prop} (P Q : runtime -> Prop) (x : res X) :
  outcome_of E P x -> (forall r, P r -> Q r) -> outcome_of E Q x.
Proof. destruct x; cbn; auto. Qed.

(** ** Scans *)

Section Scans.
(** [I D]: the slots of [D] have been visited. *)
Context (E : string -> Prop) (I : (Z -> Prop) -> runtime -> Prop).
Context (I_equiv : forall (D D' : Z -> Prop) r, (forall a, D' a -> D a) -> I D r -> I D' r).

(** [act] visits the slots of [l]. *)
Definition scans (l : list Z) (act : M unit) : Prop := forall D r,
  I D r -> outcome_of E (I (fun a => D a \/ a ∈ l)) (act r).

Lemma scans_ret : scans [] (ret tt).
Proof. intros D r H. apply (I_equiv D); [|done]. intros a [Ha|Ha%elem_of_nil]; done. Qed.
Lemma scans_bind l1 l2 act1 act2 : scans l1 act1 -> scans l2 act2 -> scans (l1 ++ l2) (act1 ;; act2).
Proof.
  intros H1 H2 D r HI. eapply outcome_bind; [apply (H1 D r HI)|]. intros [] r1 HI1.
  eapply outcome_weaken; [apply (H2 _ r1 HI1)|]. intros r2. apply I_equiv. intros a. rewrite elem_of_app. tauto.
Qed.
(** Reading the state does not change what is visited. *)
Lemma scans_read l (act : M unit) (f : runtime -> M unit) :
  (forall D r, I D r -> f r = act) -> scans l act -> scans l (fun r => f r r).
Proof. intros Hf Ha D r HI. cbv beta. rewrite (Hf D r HI). now apply (Ha D r). Qed.

(** The action [f] visits the slots of [W], and does not change the words of [F]. *)
Context (m0 : mem) (W F : Z -> Prop) (f : scanning_action).
Context (f_slot : forall p, W p -> scans [p] (Call_action f p)).
Context (I_frame : forall D r a, I D r -> F a -> ld (rmem r) a = ld m0 a).

Lemma scans_slots l : (forall a, a ∈ l -> W a) -> scans l (scan_slots f l).
Proof.
  induction l as [|p l IH]; intros Hl; [apply scans_ret|]. apply (scans_bind [p] l).
  - apply f_slot, Hl, list_elem_of_here.
  - apply IH. intros a Ha. apply Hl. now apply list_elem_of_further.
Qed.

Lemma scans_words n : forall sp, (forall a, a ∈ word_slots n sp -> W a) -> scans (word_slots n sp) (scan_words f n sp).
Proof.
  induction n as [|n IH]; intros sp Hl; cbn [word_slots scan_words] in *; [apply scans_ret|].
  apply (scans_bind [sp]).
  - apply f_slot, Hl, list_elem_of_here.
  - apply IH. intros a Ha. apply Hl. now apply list_elem_of_further.
Qed.

Lemma scans_column addr n : forall lo,
  (forall a, a ∈ column_slots addr n lo -> W a) -> scans (column_slots addr n lo) (scan_column f addr n lo).
Proof.
  induction n as [|n IH]; intros lo Hl; cbn [column_slots scan_column] in *; [apply scans_ret|].
  apply (scans_bind [addr lo]).
  - apply f_slot, Hl, list_elem_of_here.
  - apply IH. intros a Ha. apply Hl. now apply list_elem_of_further.
Qed.

Lemma scans_entries tab n : forall lo,
  (forall a, a ∈ entry_slots tab n lo -> W a) -> scans (entry_slots tab n lo) (scan_entries f tab n lo).
Proof.
  induction n as [|n IH]; intros lo Hl; cbn [entry_slots scan_entries] in *; [apply scans_ret|].
  apply (scans_bind [fun_addr tab lo] (val_addr tab lo :: entry_slots tab n (lo + 1)));
    [apply f_slot, Hl, list_elem_of_here|]. apply (scans_bind [val_addr tab lo]).
  - apply f_slot, Hl. apply list_elem_of_further, list_elem_of_here.
  - apply IH. intros a Ha. apply Hl. do 2 apply list_elem_of_further. done.
Qed.

Lemma scans_tables lr n : forall i,
  F (lr + 16) -> (forall a, a ∈ table_words n lr i -> F a) -> (forall a, a ∈ table_slots n m0 lr i -> W a) ->
  scans (table_slots n m0 lr i) (scan_tables f n lr i).
Proof.
  induction n as [|n IH]; intros i H16 Hw Hl; cbn [table_slots table_words scan_tables] in *; [apply scans_ret|].
  intros D r HI. unfold lr_nitems, lr_table.
  rewrite (I_frame D r (lr + 16) HI H16), (I_frame D r (lr + 24 + 8 * i) HI (Hw _ (list_elem_of_here _ _))).
  refine (scans_bind _ _ _ _ _ _ D r HI).
  - apply scans_words. intros a Ha. apply Hl, elem_of_app. now left.
  - apply IH; [done| |]; intros a Ha; [apply Hw; now apply list_elem_of_further|apply Hl, elem_of_app; now right].
Qed.

Lemma scans_local n : forall lr ws l,
  local_slots n m0 lr = Some (ws, l) -> (forall a, a ∈ ws -> F a) -> (forall a, a ∈ l -> W a) ->
  scans l (scan_local_roots f n lr).
Proof.
  induction n as [|n IH]; intros lr ws l El Hw Hl; cbn [local_slots scan_local_roots] in *; [done|].
  destruct (lr =? 0); [injection El as <- <-; apply scans_ret|].
  destruct (local_slots n m0 (lr_next m0 lr)) as [[ws' l']|] eqn:E'; [|done]. cbn [mbind option_bind] in El. injection El as <- <-.
  change (forall a, a ∈ [lr; lr + 8; lr + 16] ++ table_words (Z.to_nat (s64 (lr_ntables m0 lr))) lr 0 ++ ws' -> F a) in Hw.
  assert (H3 : forall a, a ∈ [lr; lr + 8; lr + 16] -> F a) by (intros a Ha; apply Hw, elem_of_app; now left).
  intros D r HI. unfold lr_ntables, lr_next. rewrite (I_frame D r (lr + 8) HI) by (apply H3; in_list).
  refine (scans_bind _ _ _ _ _ _ D r HI).
  - apply scans_tables; [apply H3; in_list| |]; intros a Ha; [apply Hw; rewrite !elem_of_app; auto|apply Hl, elem_of_app; now left].
  - apply (scans_read l' (scan_local_roots f n (lr_next m0 lr)) (fun r => scan_local_roots f n (lr_next (rmem r) lr))).
    + intros D1 r1 HI1. unfold lr_next. rewrite (I_frame D1 r1 lr HI1) by (apply H3; in_list). done.
    + apply (IH _ ws'); [done| |]; intros a Ha; [apply Hw; rewrite !elem_of_app; auto|apply Hl, elem_of_app; now right].
Qed.
End Scans.
