(* ===== verification/Alloc.v ===== *)
(** * Allocation of values from C

    Models [byterun/alloc.c], the exceptions with a message of [byterun/fail.c], and
    [check_urgent_gc] of [byterun/minor_gc.c].  C code that allocates protects its
    local variables as roots: they are passed as a list, and come back updated. *)

From S2P Require Import Runtime Freelist Bytes Memory Fail Heap Roots.

Section Alloc.
Context {C : Collector} (Fl_head : Z) (fuel : nat).

(** [extra_root] may be moved by the collection. *)
Definition check_urgent_gc (extra_root : Z) (roots : list Z) : M (Z * list Z) := fun r =>
  if force_major_slice (glb r) then
    (let! roots := minor_collection (extra_root :: roots) in ret (nth 0 roots 0, tail roots)) r
  else Ok (extra_root, roots) r.

(** [for (i = i; i < i + n; i++) Field (v, i) = x;] *)
Fixpoint fill_fields (n : nat) (i v x : Z) (m : mem) : mem :=
  match n with O => m | S n => fill_fields n (i + 1) v x (set_Field m v i x) end.

(** [alloc_shr] and the collection it may ask for. *)
Definition alloc_shr_gc (wosize tag : Z) (init : Z -> mem -> mem) (roots : list Z) : M (Z * list Z) :=
  let! result := alloc_shr Fl_head fuel wosize tag in
  upd (fun r => set_rmem (init result (rmem r)) r) ;;
  check_urgent_gc result roots.

Definition alloc (wosize tag : Z) (roots : list Z) : M (Z * list Z) := fun r =>
  let clear (v : Z) (m : mem) := if tag <? No_scan_tag then fill_fields (Z.to_nat wosize) 0 v 0 m else m in
  if wosize =? 0 then Ok (Atom r tag, roots) r
  else if wosize <=? Max_young_wosize then
    (let! (result, roots) := Alloc_small wosize tag roots in
     upd (fun r => set_rmem (clear result (rmem r)) r) ;;
     ret (result, roots)) r
  else alloc_shr_gc wosize tag clear roots r.

Definition alloc_tuple (n : Z) (roots : list Z) : M (Z * list Z) := alloc n 0 roots.

(** The last word of a string of [len] bytes in [wosize] words: zeros, and the
    number of unused bytes before the last. *)
Definition init_string (len wosize v : Z) (m : mem) : mem :=
  let m := set_Field m v (wosize - 1) 0 in
  let offset_index := Bsize_wsize wosize - 1 in
  set_Byte m v offset_index (offset_index - len).

Definition string_wosize (len : Z) : Z := u64 (len + sizeof_value) / sizeof_value.

Definition alloc_string (len : Z) (roots : list Z) : M (Z * list Z) := fun r =>
  let wosize := string_wosize len in
  (let! (result, roots) :=
     if wosize <=? Max_young_wosize then Alloc_small wosize String_tag roots
     else alloc_shr_gc wosize String_tag (fun _ m => m) roots in
   upd (fun r => set_rmem (init_string len wosize result (rmem r)) r) ;;
   ret (result, roots)) r.

(** [s]: the bytes of a C string, before its null byte. *)
Definition copy_string (s : list Z) (roots : list Z) : M (Z * list Z) :=
  let! (res, roots) := alloc_string (Z.of_nat (length s)) roots in
  upd (fun r => set_rmem (put_bytes res s (rmem r)) r) ;;
  ret (res, roots).

(** The loop of [alloc_array (copy_string, arr)]: [copy_string] may move [result]. *)
Fixpoint alloc_array_loop (arr : list (list Z)) (n result : Z) (roots : list Z) : M (Z * list Z) :=
  match arr with
  | [] => ret (result, roots)
  | s :: arr =>
      let! (v, roots) := copy_string s (result :: roots) in
      let result := nth 0 roots 0 in
      Modify (Field_addr result n) v ;;
      alloc_array_loop arr (n + 1) result (tail roots)
  end.

Definition copy_string_array (arr : list (list Z)) (roots : list Z) : M (Z * list Z) := fun r =>
  let nbr := Z.of_nat (length arr) in
  if nbr =? 0 then Ok (Atom r 0, roots) r
  else (let! (result, roots) := alloc nbr 0 roots in alloc_array_loop arr 0 result roots) r.

(** [let rec] on values *)
Definition alloc_dummy (size : Z) (roots : list Z) : M (Z * list Z) := fun r =>
  let wosize := u64 (Int_val size) in
  if wosize =? 0 then Ok (Atom r 0, roots) r else alloc wosize 0 roots r.

(** [modify (&Field (dst, i), Field (src, i))] for [n] fields from [i] on *)
Fixpoint modify_fields (n : nat) (i dst src : Z) : M unit := fun r =>
  match n with
  | O => Ok tt r
  | S n => (Modify (Field_addr dst i) (Field (rmem r) src i) ;; modify_fields n (i + 1) dst src) r
  end.

(** [Tag_val (v) = tag]: the first byte of the header. *)
Definition set_Tag_val (v tag : Z) (m : mem) : mem := stb m (Hp_val v) tag.

Definition update_dummy (dummy newval : Z) : M Z := fun r =>
  let size := Wosize_val (rmem r) newval in
  let r := set_rmem (set_Tag_val dummy (Tag_val (rmem r) newval) (rmem r)) r in
  (modify_fields (Z.to_nat size) 0 dummy newval ;; ret Val_unit) r.

(** ** Exceptions with a message *)

Definition raise_with_string {T} (tag : Z) (msg : list Z) : M T :=
  let! (vmsg, roots) := copy_string msg [tag] in
  raise_with_arg (nth 0 roots 0) vmsg.

Definition failwith {T} (msg : list Z) : M T := fun r =>
  raise_with_string (Field (rmem r) (global_data (glb r)) FAILURE_EXN) msg r.
Definition invalid_argument {T} (msg : list Z) : M T := fun r =>
  raise_with_string (Field (rmem r) (global_data (glb r)) INVALID_EXN) msg r.
End Alloc.

(** [convert_flag_list]: the flags of a list of constant constructors; [None] when
    the list is longer than [fuel]. *)
Fixpoint convert_flag_list (fuel : nat) (m : mem) (flags : Z -> Z) (list res : Z) : option Z :=
  match fuel with
  | O => None
  | S fuel =>
      if list =? Val_int 0 then Some res
      else convert_flag_list fuel m flags (Field m list 1) (Z.lor res (flags (Int_val (Field m list 0))))
  end.

(** The bytes of the C string a literal denotes. *)
Fixpoint c_string (s : string) : list Z :=
  match s with
  | EmptyString => []
  | String c s => Z.of_N (Ascii.N_of_ascii c) :: c_string s
  end.
