(* ===== verification/Str.v ===== *)
(** * Strings

    Models [byterun/str.c] and shows that a block with tag [String_tag] holds a
    sequence of bytes: its length is in the padding of its last word, and the
    primitives compute on that sequence. *)

From S2P Require Import Runtime Freelist Bytes Memory Fail Heap Roots Alloc.

(** A character of the C type [char]. *)
Definition Byte (m : mem) (v i : Z) : Z := wrapS 8 (ldb m (v + i)).

Definition string_length (m : mem) (s : Z) : Z :=
  let temp := u64 (Bosize_val m s - 1) in u64 (temp - Byte m s temp).

Definition ml_string_length (m : mem) (s : Z) : Z :=
  let temp := u64 (Bosize_val m s - 1) in Val_long (u64 (temp - Byte m s temp)).

Section Strings.
Context {C : Collector} (Fl_head : Z) (fuel : nat).

Definition create_string (len : Z) (roots : list Z) : M (Z * list Z) :=
  let size := u64 (Long_val len) in
  if Bsize_wsize Max_wosize - 1 <? size then invalid_argument Fl_head fuel (c_string "String.create")
  else alloc_string Fl_head fuel size roots.

(** The index is compared with the length as an unsigned number. *)
Definition string_get (str index : Z) : M Z := fun r =>
  let idx := Long_val index in
  if (idx <? 0) || (string_length (rmem r) str <=? u64 idx) then invalid_argument Fl_head fuel (c_string "String.get") r
  else Ok (Val_int (Byte_u (rmem r) str idx)) r.

Definition string_set (str index newval : Z) : M Z := fun r =>
  let idx := Long_val index in
  if (idx <? 0) || (string_length (rmem r) str <=? u64 idx) then invalid_argument Fl_head fuel (c_string "String.set") r
  else Ok Val_unit (set_rmem (set_Byte (rmem r) str idx (Int_val newval)) r).
End Strings.

(** [for (p1 = .., p2 = ..; sz1 > 0; sz1--, p1++, p2++)] *)
Fixpoint equal_words (sz : nat) (p1 p2 : Z) (m : mem) : bool :=
  match sz with
  | O => true
  | S sz => if negb (ld m p1 =? ld m p2) then false else equal_words sz (p1 + 8) (p2 + 8) m
  end.

Definition string_equal (m : mem) (s1 s2 : Z) : Z :=
  let sz1 := Wosize_val m s1 in
  let sz2 := Wosize_val m s2 in
  if negb (sz1 =? sz2) then Val_false
  else if equal_words (Z.to_nat sz1) s1 s2 m then Val_true else Val_false.

Definition string_notequal (m : mem) (s1 s2 : Z) : Z := Val_not (string_equal m s1 s2).

Definition blit_string (m : mem) (s1 ofs1 s2 ofs2 n : Z) : mem :=
  put_bytes (s2 + Long_val ofs2) (bytes m (s1 + Long_val ofs1) (Z.to_nat (u64 (Int_val n)))) m.

(** [for (p = p; n > 0; n--, p++) *p = c;] *)
Fixpoint fill_bytes (n : nat) (p c : Z) (m : mem) : mem :=
  match n with O => m | S n => fill_bytes n (p + 1) c (stb m p c) end.

Definition fill_string (m : mem) (s offset len init : Z) : mem :=
  let c := wrapS 8 (Long_val init) in
  fill_bytes (Z.to_nat (u64 (Long_val len))) (s + Long_val offset) c m.

Definition bitvect_test (m : mem) (bv n : Z) : Z :=
  let pos := Int_val n in
  Val_int (Z.land (Byte_u m bv (Z.shiftr pos 3)) (Z.shiftl 1 (Z.land pos 7))).

(** ** The bytes of a string *)

(** The offset of the last byte of the block, and the padding it holds. *)
Definition last_byte (m : mem) (s : Z) : Z := 8 * Wosize_val m s - 1.
Definition padding (m : mem) (s : Z) : Z := ldb m (s + last_byte m s).

(** A string block: the bytes after the contents are zeros, then the padding. *)
Record string_ok (m : mem) (s : Z) : Prop := {
  st_wosize : 1 <= Wosize_val m s <= Max_wosize;
  st_aligned : s mod 8 = 0;
  st_padding : 0 <= padding m s <= 7;
  st_zeros i : last_byte m s - padding m s <= i < last_byte m s -> ldb m (s + i) = 0
}.

Definition string_size (m : mem) (s : Z) : Z := last_byte m s - padding m s.
(** The sequence of bytes. *)
Definition string_of (m : mem) (s : Z) : list Z := bytes m s (Z.to_nat (string_size m s)).

(** The part of it the length depends on. *)
Definition string_shape (m : mem) (s : Z) : bool :=
  (1 <=? Wosize_val m s) && (Wosize_val m s <=? Max_wosize) && (padding m s <=? 7).

Lemma string_shape_size m s : string_shape m s = true -> string_length m s = string_size m s /\ 0 <= string_size m s < 2 ^ 57.
Proof.
  unfold string_shape. rewrite !andb_true_iff, !Z.leb_le. intros [[H1 H2] Hp]. change Max_wosize with 18014398509481983 in H2.
  assert (H0 : 0 <= padding m s) by apply ldb_range. change (2 ^ 57) with 144115188075855872.
  assert (Et : u64 (Bosize_val m s - 1) = last_byte m s).
  { unfold Bosize_val, Bsize_wsize, sizeof_value, last_byte. rewrite u64_id; [lia|]. unfold isu64. lia. }
  split; [|unfold string_size, last_byte; lia].
  unfold string_length. cbn zeta. rewrite Et. unfold Byte. fold (padding m s).
  assert (Ew : wrapS 8 (padding m s) = padding m s) by (unfold wrapS; change (2 ^ (8 - 1)) with 128; change (2 ^ 8) with 256; rewrite Z.mod_small; lia).
  rewrite Ew. apply u64_id. change (isu64 (string_size m s)). unfold isu64, string_size, last_byte. lia.
Qed.

Section StringOk.
Context (m : mem) (s : Z) (OK : string_ok m s).

Lemma string_ok_shape : string_shape m s = true.
Proof. pose proof (st_wosize _ _ OK). pose proof (st_padding _ _ OK). unfold string_shape. rewrite !andb_true_iff, !Z.leb_le. lia. Qed.

Lemma string_size_range : 0 <= string_size m s < 2 ^ 57.
Proof. apply string_shape_size, string_ok_shape. Qed.

Lemma string_length_ok : string_length m s = string_size m s.
Proof. apply string_shape_size, string_ok_shape. Qed.

Lemma length_string_of : Z.of_nat (length (string_of m s)) = string_size m s.
Proof. unfold string_of. rewrite length_bytes. pose proof string_size_range. lia. Qed.

Lemma string_of_lookup i : 0 <= i < string_size m s -> string_of m s !! Z.to_nat i = Some (ldb m (s + i)).
Proof. intros Hi. unfold string_of. rewrite bytes_lookup by lia. do 2 f_equal. lia. Qed.
End StringOk.

(** ** Writing strings *)

Lemma byte_addr_below s i : s mod 8 = 0 -> s <= i -> s <= byte_addr i.
Proof. unfold byte_addr, sizeof_value. intros. zlia. Qed.

(** Bytes written in the contents. *)
Lemma put_string m s ofs l : string_ok m s -> 0 <= ofs -> ofs + Z.of_nat (length l) <= string_size m s ->
  let m' := put_bytes (s + ofs) l m in
  string_ok m' s /\ string_size m' s = string_size m s /\ Hd_val m' s = Hd_val m s /\
  string_of m' s = take (Z.to_nat ofs) (string_of m s) ++ map u8 l ++ drop (Z.to_nat ofs + length l) (string_of m s).
Proof.
  intros OK Ho Hl m'. pose proof OK as [Hw Ha Hp Hz].
  assert (Hout : forall i, ~ s + ofs <= i < s + ofs + Z.of_nat (length l) -> ldb m' i = ldb m i) by (intros; now apply put_bytes_out).
  assert (Eh : Hd_val m' s = Hd_val m s).
  { rewrite !Hd_val_ld. apply put_bytes_word. intros i Hi. pose proof (byte_addr_below s i Ha). lia. }
  assert (El : last_byte m' s = last_byte m s) by (unfold last_byte, Wosize_val; now rewrite Eh).
  assert (Epad : padding m' s = padding m s) by (unfold padding; rewrite El; apply Hout; unfold string_size in Hl; lia).
  assert (Es : string_size m' s = string_size m s) by (unfold string_size; now rewrite El, Epad).
  split; [|split; [done|split; [done|]]].
  - constructor; rewrite ?El, ?Epad; try done; [unfold Wosize_val in *; now rewrite Eh|].
    intros i Hi. rewrite Hout; [now apply Hz|]. unfold string_size in Hl. lia.
  - unfold string_of. rewrite Es. pose proof (string_size_range m s OK) as Hr.
    replace (Z.to_nat (string_size m s)) with (Z.to_nat ofs + (length l + (Z.to_nat (string_size m s) - Z.to_nat ofs - length l)))%nat by lia.
    rewrite !bytes_app, take_app_length', drop_app_ge by (rewrite length_bytes; lia).
    rewrite length_bytes, drop_app_ge by (rewrite length_bytes; lia). rewrite length_bytes.
    replace (Z.to_nat ofs + length l - Z.to_nat ofs - length l)%nat with O by lia. rewrite drop_0.
    replace (s + Z.of_nat (Z.to_nat ofs)) with (s + ofs) by lia. f_equal; [|f_equal].
    + apply bytes_ext. intros i Hi. apply Hout. lia.
    + apply bytes_put_bytes.
    + apply bytes_ext. intros i Hi. apply Hout. lia.
Qed.

(** The padding of a new string. *)
Lemma string_wosize_eq len : 0 <= len < 2 ^ 57 - 8 -> string_wosize len = (len + 8) / 8.
Proof.
  intros Hl. unfold string_wosize, sizeof_value. rewrite u64_id; [done|]. unfold isu64. change B64 with (2 ^ 64).
  change (2 ^ 57) with 144115188075855872 in Hl. change (2 ^ 64) with 18446744073709551616. lia.
Qed.

Lemma init_string_spec m v len wosize :
  0 <= len < 2 ^ 57 - 8 -> wosize = string_wosize len -> v mod 8 = 0 -> Wosize_val m v = wosize ->
  let m' := init_string len wosize v m in
  string_ok m' v /\ string_size m' v = len /\ Hd_val m' v = Hd_val m v.
Proof.
  intros Hl Hwo Ha Hwv m'. rewrite string_wosize_eq in Hwo by done. change (2 ^ 57) with 144115188075855872 in Hl.
  assert (Hw : 1 <= wosize /\ len <= 8 * wosize - 1 /\ 8 * wosize - 8 <= len) by zlia.
  unfold m', init_string. set (m1 := set_Field m v (wosize - 1) 0). unfold Bsize_wsize, sizeof_value.
  replace (wosize * 8 - 1) with (8 * wosize - 1) by lia. set (m2 := set_Byte m1 v (8 * wosize - 1) (8 * wosize - 1 - len)).
  assert (Ef : Field_addr v (wosize - 1) = v + 8 * (wosize - 1)) by apply Field_addr_eq.
  assert (Eh1 : Hd_val m1 v = Hd_val m v).
  { rewrite !Hd_val_ld. unfold m1, set_Field. rewrite Ef. apply ld_st_ne. lia. }
  assert (Eh : Hd_val m2 v = Hd_val m v).
  { rewrite <- Eh1, !Hd_val_ld. unfold m2, set_Byte. apply ld_stb_ne. pose proof (byte_addr_below v (v + (8 * wosize - 1)) Ha). lia. }
  assert (Ew : Wosize_val m2 v = wosize) by (unfold Wosize_val in *; now rewrite Eh).
  assert (El : last_byte m2 v = 8 * wosize - 1) by (unfold last_byte; now rewrite Ew).
  assert (Ep : padding m2 v = 8 * wosize - 1 - len).
  { unfold padding. rewrite El. unfold m2, set_Byte. rewrite ldb_stb_eq. unfold u8. apply Z.mod_small. change B8 with 256. lia. }
  split; [|split; [unfold string_size; lia|done]]. constructor; rewrite ?El, ?Ep, ?Ew; try done; try lia.
  - change Max_wosize with 18014398509481983. lia.
  - intros i Hi. unfold m2, set_Byte. rewrite ldb_stb_ne by lia. unfold ldb.
    assert (E : byte_addr (v + i) = v + 8 * (wosize - 1)) by (unfold byte_addr, sizeof_value; zlia).
    unfold m1, set_Field. rewrite E, Ef, ld_st_eq, Z.shiftr_0_l. apply Z.land_0_l.
Qed.

(** ** Equality *)

Lemma equal_words_spec m n : forall p1 p2,
  equal_words n p1 p2 m = true <-> forall j, 0 <= j < Z.of_nat n -> ld m (p1 + 8 * j) = ld m (p2 + 8 * j).
Proof.
  induction n as [|n IH]; intros p1 p2; cbn [equal_words]; [split; [intros _ j Hj; lia|done]|].
  destruct (Z.eqb_spec (ld m p1) (ld m p2)) as [E|E]; cbn [negb].
  - rewrite IH. split; intros H j Hj.
    + destruct (Z.eq_dec j 0) as [->|]; [now rewrite Z.mul_0_r, !Z.add_0_r|]. specialize (H (j - 1) ltac:(lia)).
      now replace (p1 + 8 + 8 * (j - 1)) with (p1 + 8 * j) in H by lia; replace (p2 + 8 + 8 * (j - 1)) with (p2 + 8 * j) in H by lia.
    + specialize (H (j + 1) ltac:(lia)).
      now replace (p1 + 8 * (j + 1)) with (p1 + 8 + 8 * j) in H by lia; replace (p2 + 8 * (j + 1)) with (p2 + 8 + 8 * j) in H by lia.
  - split; [done|]. intros H. destruct E. specialize (H 0 ltac:(lia)). now rewrite Z.mul_0_r, !Z.add_0_r in H.
Qed.

(** Strings of the same bytes have the same words. *)
Lemma string_bytes m s1 s2 : string_ok m s1 -> string_ok m s2 -> string_of m s1 = string_of m s2 ->
  Wosize_val m s1 = Wosize_val m s2 /\ forall i, 0 <= i < 8 * Wosize_val m s1 -> ldb m (s1 + i) = ldb m (s2 + i).
Proof.
  intros O1 O2 E. pose proof (length_string_of m s1 O1) as L1. pose proof (length_string_of m s2 O2) as L2. rewrite E in L1.
  pose proof (st_padding _ _ O1). pose proof (st_padding _ _ O2). unfold string_size, last_byte in *.
  assert (Ew : Wosize_val m s1 = Wosize_val m s2) by lia. split; [done|].
  assert (Ep : padding m s1 = padding m s2) by lia. intros i Hi.
  destruct (Z.lt_ge_cases i (string_size m s1)) as [Hlt|Hge]; [|destruct (Z.lt_ge_cases i (last_byte m s1)) as [Hlt2|Hge2]].
  - pose proof (string_of_lookup m s1 i ltac:(lia)) as H1. rewrite E in H1.
    rewrite (string_of_lookup m s2 i) in H1; [congruence|]. unfold string_size, last_byte in *. lia.
  - rewrite (st_zeros _ _ O1), (st_zeros _ _ O2); [done| |]; unfold string_size, last_byte in *; lia.
  - assert (i = last_byte m s1) as -> by (unfold last_byte in *; lia). fold (padding m s1). rewrite Ep. unfold padding, last_byte. now rewrite Ew.
Qed.

Lemma bytes_string m s1 s2 : string_ok m s1 -> string_ok m s2 -> Wosize_val m s1 = Wosize_val m s2 ->
  (forall i, 0 <= i < 8 * Wosize_val m s1 -> ldb m (s1 + i) = ldb m (s2 + i)) -> string_of m s1 = string_of m s2.
Proof.
  intros O1 O2 Ew H. pose proof (st_wosize _ _ O1) as [Hw _]. pose proof (string_size_range m s1 O1).
  assert (Ep : padding m s1 = padding m s2) by (unfold padding, last_byte; rewrite <- Ew; apply H; lia).
  assert (Es : string_size m s1 = string_size m s2) by (unfold string_size, last_byte; rewrite Ep, Ew; done).
  pose proof (st_padding _ _ O1). unfold string_of. rewrite <- Es.
  apply list_eq. intros i. destruct (decide (i < Z.to_nat (string_size m s1))%nat) as [Hi|Hi].
  - rewrite !bytes_lookup by done. f_equal. apply H. unfold string_size, last_byte in *. lia.
  - rewrite !lookup_ge_None_2 by (rewrite length_bytes; lia). done.
Qed.

Lemma string_equal_spec m s1 s2 : wfm m -> string_ok m s1 -> string_ok m s2 ->
  string_equal m s1 s2 = if decide (string_of m s1 = string_of m s2) then Val_true else Val_false.
Proof.
  intros Hm O1 O2. unfold string_equal. pose proof (st_wosize _ _ O1) as [Hw _].
  destruct (decide (string_of m s1 = string_of m s2)) as [E|E].
  - destruct (string_bytes m s1 s2 O1 O2 E) as [Ew Hb]. rewrite Ew, Z.eqb_refl. cbn [negb].
    rewrite (proj2 (equal_words_spec m _ s1 s2)); [done|]. intros j Hj.
    pose proof (st_aligned _ _ O1). pose proof (st_aligned _ _ O2).
    apply word_ext; try apply Hm; try zlia. intros k Hk. rewrite <- !Z.add_assoc. apply Hb. lia.
  - destruct (Z.eqb_spec (Wosize_val m s1) (Wosize_val m s2)) as [Ew|]; cbn [negb]; [|done].
    destruct (equal_words (Z.to_nat (Wosize_val m s1)) s1 s2 m) eqn:Eq; [|done].
    destruct E. apply bytes_string; try done. intros i Hi.
    rewrite equal_words_spec in Eq. specialize (Eq (i / 8) ltac:(zlia)).
    pose proof (st_aligned _ _ O1). pose proof (st_aligned _ _ O2).
    replace (s1 + i) with (s1 + 8 * (i / 8) + i mod 8) by zlia. replace (s2 + i) with (s2 + 8 * (i / 8) + i mod 8) by zlia.
    rewrite !ldb_word by zlia. now rewrite Eq.
Qed.

(** ** The primitives *)

Lemma fill_put n : forall p c m, fill_bytes n p c m = put_bytes p (replicate n c) m.
Proof. induction n as [|n IH]; intros p c m; cbn [fill_bytes replicate put_bytes]; [done|]. apply IH. Qed.

Lemma u8_wrapS8 x : u8 (wrapS 8 x) = u8 x.
Proof. unfold u8, wrapS. change (2 ^ (8 - 1)) with 128. change (2 ^ 8) with 256. change B8 with 256. zlia. Qed.

Lemma map_u8_bytes m n : forall a, map u8 (bytes m a n) = bytes m a n.
Proof.
  induction n as [|n IH]; intros a; cbn [bytes map]; [done|]. rewrite IH. f_equal. apply Z.mod_small. apply ldb_range.
Qed.

Lemma take_string m s n : string_ok m s -> 0 <= n <= string_size m s -> bytes m s (Z.to_nat n) = take (Z.to_nat n) (string_of m s).
Proof.
  intros OK Hn. unfold string_of. replace (Z.to_nat (string_size m s)) with (Z.to_nat n + (Z.to_nat (string_size m s) - Z.to_nat n))%nat by lia.
  now rewrite bytes_app, take_app_length' by (rewrite length_bytes; lia).
Qed.

Lemma sub_string m s ofs n : string_ok m s -> 0 <= ofs -> 0 <= n -> ofs + n <= string_size m s ->
  bytes m (s + ofs) (Z.to_nat n) = take (Z.to_nat n) (drop (Z.to_nat ofs) (string_of m s)).
Proof.
  intros OK Ho Hn Hle. apply list_eq. intros i. destruct (decide (i < Z.to_nat n)%nat) as [Hi|Hi].
  - rewrite lookup_take_lt, lookup_drop, bytes_lookup by done. replace (Z.to_nat ofs + i)%nat with (Z.to_nat (ofs + Z.of_nat i)) by lia.
    rewrite string_of_lookup by (done || lia). do 2 f_equal. lia.
  - rewrite lookup_ge_None_2 by (rewrite length_bytes; lia). now rewrite lookup_take_ge by lia.
Qed.

(** A string of which the bytes from [ofs] on are replaced by [l]. *)
Definition overwrite (ofs : Z) (l s : list Z) : list Z := take (Z.to_nat ofs) s ++ l ++ drop (Z.to_nat ofs + length l) s.
(** The [n] bytes from [ofs] on. *)
Definition substring (ofs n : Z) (s : list Z) : list Z := take (Z.to_nat n) (drop (Z.to_nat ofs) s).

Lemma set_string m s i c : string_ok m s -> 0 <= i < string_size m s ->
  let m' := set_Byte m s i c in
  string_ok m' s /\ string_of m' s = <[Z.to_nat i := u8 c]> (string_of m s) /\ string_size m' s = string_size m s.
Proof.
  intros OK Hi m'. destruct (put_string m s i [c] OK ltac:(lia) ltac:(cbn [length]; lia)) as (H1 & H2 & _ & H3).
  cbn [put_bytes map length] in *. split; [done|]. split; [|done]. unfold m', set_Byte. rewrite H3.
  rewrite insert_take_drop by (pose proof (length_string_of m s OK); lia). cbn [app]. do 2 f_equal. f_equal. lia.
Qed.

(** [string_get] and [string_set], in and out of bounds. *)
Lemma string_bounds m s i : string_ok m s -> is63 i ->
  (Long_val (Val_long i) <? 0) || (string_length m s <=? u64 (Long_val (Val_long i))) = negb (bool_decide (0 <= i < string_size m s)).
Proof.
  intros OK Hi. rewrite Long_val_Val_long, wrap63_id by done. rewrite string_length_ok by done.
  destruct (Z.ltb_spec i 0) as [Hn|Hn]; cbn [orb]; [now rewrite bool_decide_eq_false_2 by lia|].
  rewrite u64_id; [|split; [done|]; destruct Hi as [_ Hi]; change Max_long with 4611686018427387903 in Hi; change B64 with 18446744073709551616; lia].
  destruct (Z.leb_spec (string_size m s) i); [now rewrite bool_decide_eq_false_2 by lia|now rewrite bool_decide_eq_true_2 by lia].
Qed.

Lemma u8_Int_val x : u8 (Int_val (Val_long x)) = u8 x.
Proof. unfold Int_val. rewrite Long_val_Val_long, wrap63_eq. unfold u8, s32. zlia. Qed.

Lemma u8_Long_val x : u8 (Long_val (Val_long x)) = u8 x.
Proof. rewrite Long_val_Val_long, wrap63_eq. unfold u8. zlia. Qed.

Lemma Int_val_count n : 0 <= n < B31 -> Z.to_nat (u64 (Int_val (Val_long n))) = Z.to_nat n.
Proof.
  intros Hn. unfold Int_val. rewrite Long_val_Val_long, wrap63_id; [|change (Min_long <= n <= Max_long); change Min_long with (-4611686018427387904); change Max_long with 4611686018427387903; lia].
  rewrite s32_id, u64_id; [done|..]; unfold isu64, iss32; lia.
Qed.

Lemma Long_val_offset n : 0 <= n < 2 ^ 57 -> Long_val (Val_long n) = n.
Proof.
  intros Hn. change (2 ^ 57) with 144115188075855872 in Hn. rewrite Long_val_Val_long. apply wrap63_id.
  split; [change Min_long with (-4611686018427387904)|change Max_long with 4611686018427387903]; lia.
Qed.

(** C30: the primitives on strings compute on the sequence of bytes of the block: the
    length, reads and writes with their bounds checked, also of negative indexes
    ([Invalid_argument] otherwise), equality by words, copies between strings, that
    may be the same and overlap, and filling.  Copies and fillings are of less than
    [2^31] bytes, as [Int_val] truncates the length. *)
Theorem string_primitives_correct {C : Collector} Fl_head fuel r s :
  wfm (rmem r) -> string_ok (rmem r) s ->
  let m := rmem r in
  let l := string_of m s in
  let len := Z.of_nat (length l) in
  ml_string_length m s = Val_long len /\
  (forall i, is63 i -> string_get Fl_head fuel s (Val_long i) r =
     if decide (0 <= i < len) then Ok (Val_int (l !!! Z.to_nat i)) r else invalid_argument Fl_head fuel (c_string "String.get") r) /\
  (forall i x, is63 i ->
     if decide (0 <= i < len)
     then exists m', string_set Fl_head fuel s (Val_long i) (Val_long x) r = Ok Val_unit (set_rmem m' r) /\
            string_ok m' s /\ string_of m' s = <[Z.to_nat i := u8 x]> l
     else string_set Fl_head fuel s (Val_long i) (Val_long x) r = invalid_argument Fl_head fuel (c_string "String.set") r) /\
  (forall s', string_ok m s' -> string_equal m s s' = (if decide (l = string_of m s') then Val_true else Val_false)) /\
  (forall s' ofs' ofs n, string_ok m s' -> 0 <= ofs' -> 0 <= ofs -> 0 <= n < B31 ->
     ofs' + n <= string_size m s' -> ofs + n <= len ->
     let m' := blit_string m s' (Val_long ofs') s (Val_long ofs) (Val_long n) in
     string_ok m' s /\ string_of m' s = overwrite ofs (substring ofs' n (string_of m s')) l) /\
  (forall ofs n x, 0 <= ofs -> 0 <= n -> ofs + n <= len ->
     let m' := fill_string m s (Val_long ofs) (Val_long n) (Val_long x) in
     string_ok m' s /\ string_of m' s = overwrite ofs (replicate (Z.to_nat n) (u8 x)) l).
Proof.
  intros Hm OK m l len. pose proof (length_string_of m s OK) as Hlen. fold l len in Hlen. pose proof (string_size_range m s OK) as Hr.
  splits.
  - change (ml_string_length m s) with (Val_long (string_length m s)). now rewrite string_length_ok, Hlen.
  - intros i Hi. unfold string_get. fold m. rewrite (string_bounds m s i OK Hi), Hlen. destruct (decide (0 <= i < string_size m s)) as [Hin|Hout].
    + rewrite bool_decide_eq_true_2 by done. cbn [negb]. rewrite Long_val_Val_long, wrap63_id by done. do 2 f_equal. symmetry.
      apply list_lookup_total_correct. now apply string_of_lookup.
    + now rewrite bool_decide_eq_false_2 by done.
  - intros i x Hi. rewrite Hlen. unfold string_set. fold m. rewrite (string_bounds m s i OK Hi). destruct (decide (0 <= i < string_size m s)) as [Hin|Hout].
    + rewrite bool_decide_eq_true_2 by done. cbn [negb]. rewrite Long_val_Val_long, wrap63_id by done.
      eexists. split; [reflexivity|]. destruct (set_string m s i (Int_val (Val_long x)) OK Hin) as (H1 & H2 & _).
      split; [done|]. now rewrite H2, u8_Int_val.
    + now rewrite bool_decide_eq_false_2 by done.
  - intros s' O'. now apply string_equal_spec.
  - intros s' ofs' ofs n O' H1 H2 H3 H4 H5 m'. rewrite Hlen in H5. pose proof (string_size_range m s' O').
    unfold m', blit_string. rewrite Int_val_count, !Long_val_offset by lia.
    destruct (put_string m s ofs (bytes m (s' + ofs') (Z.to_nat n)) OK H2) as (P1 & _ & _ & P4); [rewrite length_bytes; lia|].
    split; [done|]. rewrite P4, map_u8_bytes. unfold overwrite, substring. now rewrite sub_string.
  - intros ofs n x H1 H2 H3 m'. rewrite Hlen in H3. unfold m', fill_string. rewrite !Long_val_offset by lia. rewrite fill_put.
    rewrite u64_id by (unfold isu64; change (2 ^ 57) with 144115188075855872 in Hr; change B64 with 18446744073709551616; lia).
    destruct (put_string m s ofs (replicate (Z.to_nat n) (wrapS 8 (Long_val (Val_long x)))) OK H1) as (P1 & _ & _ & P4); [rewrite length_replicate; lia|].
    split; [done|]. rewrite P4. unfold overwrite. now rewrite fmap_replicate, u8_wrapS8, length_replicate, u8_Long_val, length_replicate.
Qed.

(** ** From C strings *)

(** The bytes of a C string stored in a new block. *)
Lemma build_string m v msg :
  let len := Z.of_nat (length msg) in
  len < 2048 -> Forall (fun c => 0 <= c < 256) msg -> v mod 8 = 0 -> Wosize_val m v = string_wosize len ->
  let m' := put_bytes v msg (init_string len (string_wosize len) v m) in
  string_ok m' v /\ string_of m' v = msg /\ Hd_val m' v = Hd_val m v.
Proof.
  intros len Hlen Hs Ha Hwo m'. destruct (init_string_spec m v len (string_wosize len) ltac:(lia) eq_refl Ha Hwo) as (O1 & Hsz & Eh1).
  destruct (put_string (init_string len (string_wosize len) v m) v 0 msg O1 ltac:(lia) ltac:(lia)) as (O2 & _ & Eh2 & Es).
  rewrite Z.add_0_r in *. split; [done|]. split; [|unfold m'; congruence]. unfold m'. rewrite Es.
  change (Z.to_nat 0) with 0%nat. cbn [take Nat.add app]. rewrite drop_ge, app_nil_r.
  - rewrite <- (map_id msg) at 2. apply map_ext_in. intros c Hc. rewrite Forall_forall in Hs. unfold u8. apply Z.mod_small.
    apply Hs. now apply list_elem_of_In.
  - pose proof (length_string_of _ _ O1). lia.
Qed.

Lemma string_wosize_small len : 0 <= len < 2048 -> 1 <= string_wosize len <= 256 /\ string_wosize len = (len + 8) / 8.
Proof. intros Hl. rewrite string_wosize_eq by lia. zlia. Qed.

(** The header of a small block. *)
Lemma small_header m v w tag : 1 <= w <= 256 -> 0 <= tag < 256 -> Hd_val m v = Make_header w tag Caml_black ->
  Wosize_val m v = w /\ Tag_val m v = tag.
Proof.
  intros Hw Ht Eh. unfold Wosize_val, Tag_val. rewrite Eh. assert (Hc : is_color Caml_black) by (unfold is_color; auto).
  assert (Hm : 0 <= w <= Max_wosize) by (change Max_wosize with 18014398509481983; lia).
  split; [now apply Wosize_Make_header|now apply Tag_Make_header].
Qed.

(** A minor heap with room for the largest small block, aligned. *)
Definition young_ok (r : runtime) : Prop :=
  let g := mnr r in
  young_start g <= young_limit g /\ young_ptr g <= young_end g /\ 2056 <= young_end g - young_start g /\
  young_ptr g mod 8 = 0 /\ young_end g mod 8 = 0.

(** The block is allocated: at once, or after a collection. *)
Definition can_alloc {C : Collector} (wosize : Z) (roots : list Z) (r : runtime) : Prop :=
  has_room wosize r = true \/ exists roots1 r1, minor_collection roots r = Ok roots1 r1.

Lemma Alloc_small_ok {C : Collector} {CK : CollectorOk C} wosize tag roots r :
  can_alloc wosize roots r -> young_ok r -> 1 <= wosize <= Max_young_wosize -> 0 <= tag < 256 ->
  exists v roots' r', Alloc_small wosize tag roots r = Ok (v, roots') r' /\ length roots' = length roots /\
    Is_young (mnr r') v = true /\ v mod 8 = 0 /\ Wosize_val (rmem r') v = wosize /\ Tag_val (rmem r') v = tag.
Proof.
  intros Hcan (H1 & H2 & H3 & H4 & H5) Hw Ht. change Max_young_wosize with 256 in Hw.
  assert (Eb : Bhsize_wosize wosize = (wosize + 1) * 8) by done.
  assert (HE : exists v roots' r', Alloc_small wosize tag roots r = Ok (v, roots') r' /\ (young_ptr (mnr r') mod 8 = 0)).
  { unfold Alloc_small. destruct (Z.ltb_spec (young_ptr (mnr r) - Bhsize_wosize wosize) (young_limit (mnr r))) as [Hs|Hs].
    - destruct Hcan as [Hr|(roots1 & r1 & E)]; [unfold has_room in Hr; apply Z.leb_le in Hr; lia|]. rewrite (bind_Ok _ _ _ _ _ E).
      eexists _, _, _. split; [reflexivity|]. destruct (minor_collection_empty _ _ _ _ E) as (-> & _ & _ & Ey).
      unfold alloc_at. rsimp. rewrite Eb, Ey. zlia.
    - eexists _, _, _. split; [reflexivity|]. unfold alloc_at. rsimp. rewrite Eb. zlia. }
  destruct HE as (v & roots' & r' & E & Hal). exists v, roots', r'. split; [done|].
  destruct (Alloc_small_spec wosize tag roots r v roots' r' E) as (S1 & S2 & S3 & S4 & _); try lia.
  splits; try done.
  - rewrite S4 in Hal. unfold Hp_val, sizeof_value in Hal. zlia.
  - now apply (small_header _ _ wosize tag).
  - now apply (small_header _ _ wosize tag).
Qed.

Lemma copy_string_spec {C : Collector} {CK : CollectorOk C} Fl_head fuel s roots r :
  let len := Z.of_nat (length s) in
  len < 2048 -> Forall (fun c => 0 <= c < 256) s -> young_ok r -> can_alloc (string_wosize len) roots r ->
  exists v roots' r', copy_string Fl_head fuel s roots r = Ok (v, roots') r' /\ length roots' = length roots /\
    Is_young (mnr r') v = true /\ Tag_val (rmem r') v = String_tag /\ string_ok (rmem r') v /\ string_of (rmem r') v = s.
Proof.
  intros len Hlen Hs Hy Hcan. destruct (string_wosize_small len ltac:(lia)) as [Hw _].
  destruct (Alloc_small_ok (string_wosize len) String_tag roots r Hcan Hy Hw ltac:(done)) as (v & roots' & r1 & E & Hl & Hyo & Ha & Hwo & Ht).
  destruct (build_string (rmem r1) v s Hlen Hs Ha Hwo) as (O2 & Es & Eh).
  unfold copy_string, alloc_string. fold len. rewrite (proj2 (Z.leb_le _ _)) by apply Hw.
  eexists v, roots', _. split; [unfold bind; rewrite E; reflexivity|]. rsimp. splits; try done.
  unfold Tag_val in *. now rewrite <- Ht, <- Eh.
Qed.

(** A string whose words do not change. *)
Lemma string_frame m m' s : string_ok m s -> (forall a, s - 8 <= a < s + 8 * Wosize_val m s -> ld m' a = ld m a) ->
  string_ok m' s /\ string_of m' s = string_of m s /\ Hd_val m' s = Hd_val m s.
Proof.
  intros OK Hw. pose proof OK as [H1 H2 H3 H4].
  assert (Eh : Hd_val m' s = Hd_val m s) by (rewrite !Hd_val_ld; apply Hw; lia).
  assert (Hb : forall i, 0 <= i < 8 * Wosize_val m s -> ldb m' (s + i) = ldb m (s + i)).
  { intros i Hi. unfold ldb. rewrite Hw; [done|]. unfold byte_addr, sizeof_value. zlia. }
  assert (El : last_byte m' s = last_byte m s) by (unfold last_byte, Wosize_val; now rewrite Eh).
  assert (Ep : padding m' s = padding m s) by (unfold padding; rewrite El; apply Hb; unfold last_byte; lia).
  split; [|split; [|done]].
  - constructor; rewrite ?El, ?Ep; try done; [unfold Wosize_val in *; now rewrite Eh|].
    intros i Hi. rewrite Hb; [now apply H4|]. unfold last_byte in *. lia.
  - unfold string_of, string_size. rewrite El, Ep. apply bytes_ext. intros i Hi. pose proof (string_size_range m s OK) as Hr.
    unfold string_size in Hr. replace i with (s + (i - s)) by lia. apply Hb. unfold last_byte in *. lia.
Qed.

(** The exception [raise_with_string] raises when the minor heap has room for it. *)
Lemma raise_with_string_spec {C : Collector} Fl_head fuel T tag msg r :
  let len := Z.of_nat (length msg) in
  len < 2048 -> Forall (fun c => 0 <= c < 256) msg -> young_ok r -> has_room (string_wosize len + 3) r = true ->
  external_raise (glb r) <> 0 ->
  exists r', @raise_with_string C Fl_head fuel T tag msg r = Exn r' /\
    let b := exn_bucket (glb r') in
    let vmsg := Field (rmem r') b 1 in
    Field (rmem r') b 0 = tag /\ Wosize_val (rmem r') b = 2 /\ Tag_val (rmem r') b = 0 /\
    string_ok (rmem r') vmsg /\ string_of (rmem r') vmsg = msg /\ Tag_val (rmem r') vmsg = String_tag.
Proof.
  intros len Hlen Hs (H1 & H2 & H3 & H4 & H5) Hroom Hx. destruct (string_wosize_small len ltac:(lia)) as [Hw _]. set (w := string_wosize len) in *.
  set (hp := young_ptr (mnr r) - Bhsize_wosize w). assert (Ehp : hp = young_ptr (mnr r) - (w + 1) * 8) by done.
  assert (Hroom' : young_limit (mnr r) <= hp - 24) by (unfold has_room in Hroom; apply Z.leb_le in Hroom; unfold Bhsize_wosize, Bsize_wsize, Whsize_wosize, sizeof_value in *; lia).
  set (v := Val_hp hp). assert (Ev : v = hp + 8) by (unfold v, Val_hp, sizeof_value; lia).
  set (r1 := alloc_at hp w String_tag r).
  assert (Hhd : Hd_val (rmem r1) v = Make_header w String_tag Caml_black).
  { rewrite Hd_val_ld. unfold r1, alloc_at. rsimp. replace (v - 8) with hp by lia. apply ld_st_eq. }
  destruct (small_header (rmem r1) v w String_tag Hw ltac:(done) Hhd) as [Hwo Htg].
  destruct (build_string (rmem r1) v msg Hlen Hs ltac:(zlia) Hwo) as (O2 & Es2 & Eh2). fold len w in O2, Es2, Eh2. set (m2 := put_bytes v msg _) in *.
  assert (Hwo2 : Wosize_val m2 v = w) by (unfold Wosize_val in *; now rewrite Eh2).
  assert (E1 : copy_string Fl_head fuel msg [tag] r = Ok (v, [tag]) (set_rmem m2 r1)).
  { unfold copy_string, alloc_string. fold len w. rewrite (proj2 (Z.leb_le _ _)) by apply Hw.
    unfold bind. rewrite Alloc_small_room; [done|]. unfold has_room. apply Z.leb_le. fold hp. lia. }
  unfold raise_with_string. rewrite (bind_Ok _ _ _ _ _ E1). cbn [nth].
  unfold raise_with_arg, alloc_small, bind, upd, mlraise. rewrite Alloc_small_room.
  2: { unfold has_room, r1, alloc_at. rsimp. apply Z.leb_le. change (Bhsize_wosize 2) with 24. lia. }
  cbn [nth]. set (hp2 := young_ptr (mnr (set_rmem m2 r1)) - Bhsize_wosize 2).
  assert (Ehp2 : hp2 = hp - 24) by (unfold hp2, r1, alloc_at; rsimp; change (Bhsize_wosize 2) with 24; lia).
  unfold alloc_at. cbn zeta. rsimp.
  replace (external_raise (glb r1) =? 0) with false by (symmetry; now apply Z.eqb_neq). eexists. split; [reflexivity|]. cbn zeta. rsimp.
  set (b := Val_hp hp2). assert (Eb : b = hp - 16) by (unfold b, Val_hp, sizeof_value; lia).
  set (m3 := st m2 hp2 (Make_header 2 0 Caml_black)).
  assert (EF : forall m i x, set_Field m b i x = st m (b + 8 * i) x) by (intros; unfold set_Field; now rewrite Field_addr_eq).
  rewrite !EF. rewrite !Field_ld, ld_st_eq. rewrite ld_st_ne, ld_st_eq by lia.
  assert (Hfr : forall a, v - 8 <= a -> ld (st (st m3 (b + 8 * 0) tag) (b + 8 * 1) v) a = ld m2 a).
  { intros a Ha. rewrite !ld_st_ne by lia. unfold m3. apply ld_st_ne. lia. }
  destruct (string_frame m2 _ v O2 (fun a Ha => Hfr a (proj1 Ha))) as (O3 & Es3 & Eh3).
  assert (Hhb : Hd_val (st (st m3 (b + 8 * 0) tag) (b + 8 * 1) v) b = Make_header 2 0 Caml_black).
  { rewrite Hd_val_ld, !ld_st_ne by lia. unfold m3. replace (b - 8) with hp2 by lia. apply ld_st_eq. }
  destruct (small_header _ b 2 0 ltac:(lia) ltac:(lia) Hhb) as [B1 B2]. splits; try done; [congruence|].
  unfold Tag_val in *. now rewrite Eh3, Eh2.
Qed.

(** ** The claims *)

(** [copy_string] gives the OCaml string of the bytes of a C string, in a block of
    the minor heap, allocated at once or after a collection. *)
Theorem copy_string_correct {C : Collector} {CK : CollectorOk C} Fl_head fuel s roots r :
  Z.of_nat (length s) < 2048 -> Forall (fun c => 0 <= c < 256) s -> young_ok r ->
  can_alloc (string_wosize (Z.of_nat (length s))) roots r ->
  exists v roots' r', copy_string Fl_head fuel s roots r = Ok (v, roots') r' /\ length roots' = length roots /\
    Is_young (mnr r') v = true /\ Tag_val (rmem r') v = String_tag /\ string_ok (rmem r') v /\ string_of (rmem r') v = s /\
    ml_string_length (rmem r') v = Val_long (Z.of_nat (length s)).
Proof.
  intros Hl Hs Hy Hc. destruct (copy_string_spec Fl_head fuel s roots r Hl Hs Hy Hc) as (v & roots' & r' & H1 & H2 & H3 & H4 & H5 & H6).
  exists v, roots', r'. splits; try done. change (ml_string_length (rmem r') v) with (Val_long (string_length (rmem r') v)).
  rewrite string_length_ok by done. rewrite <- (length_string_of _ _ H5). now rewrite H6.
Qed.

(** [failwith] and [invalid_argument] raise, to the handler, the predefined exception with
    the message as an OCaml string. *)
Theorem failwith_raises {C : Collector} Fl_head fuel T msg r :
  Z.of_nat (length msg) < 2048 -> Forall (fun c => 0 <= c < 256) msg -> young_ok r ->
  has_room (string_wosize (Z.of_nat (length msg)) + 3) r = true -> external_raise (glb r) <> 0 ->
  let raises (exn : Z) (x : res T) :=
    exists r', x = Exn r' /\
      let b := exn_bucket (glb r') in
      let vmsg := Field (rmem r') b 1 in
      Field (rmem r') b 0 = Field (rmem r) (global_data (glb r)) exn /\ Wosize_val (rmem r') b = 2 /\ Tag_val (rmem r') b = 0 /\
      string_ok (rmem r') vmsg /\ string_of (rmem r') vmsg = msg /\ Tag_val (rmem r') vmsg = String_tag in
  raises FAILURE_EXN (failwith Fl_head fuel msg r) /\ raises INVALID_EXN (invalid_argument Fl_head fuel msg r).
Proof. intros. split; now apply raise_with_string_spec. Qed.

(** A copy of [2^32] bytes copies none: the length is read as an [int]. *)
Theorem blit_string_truncates m s1 ofs1 s2 ofs2 : blit_string m s1 ofs1 s2 ofs2 (Val_long (2 ^ 32)) = m.
Proof. unfold blit_string. now change (Z.to_nat (u64 (Int_val (Val_long (2 ^ 32))))) with O. Qed.

(** ** Witnesses *)

(** A collector of an empty minor heap. *)
Definition reset_collector : Collector := fun roots r =>
  Ok roots (set_young_limit (young_start (mnr r)) (set_young_ptr (young_end (mnr r)) r)).
Lemma reset_collector_ok : CollectorOk reset_collector.
Proof. split; intros roots r roots' r' [= <- <-]; rsimp; done. Qed.

Definition str_demo : runtime :=
  set_rmem (init_string 5 1 5000 (st (st (st ∅ 4992 (Make_header 1 String_tag Caml_white)) 3016 60000) 3024 60016))
    (MkRuntime ∅ (MkStacks 0 0 0 0 0 0 0)
    (MkMinor 8192 16384 24576 24576 16384 [] 1 1 3 1 2 false 0)
    (MkMajor 8192 12288 2 3 ∅ 0 Phase_idle [] 4 true 100 4096 4096 1 80 61440 0 0 0 0 0 0)
    (MkGlobals 3000 0 1 0 0 false false false 0 0 0 0 false)
    ∅ 0 ∅ [] (MkFl ∅ 256 0 256 495 0)).

Lemma str_demo_young : young_ok str_demo.
Proof. unfold young_ok. splits; vm_compute; try done; discriminate. Qed.
Lemma str_demo_string : wfm (rmem str_demo) /\ string_ok (rmem str_demo) 5000 /\ string_of (rmem str_demo) 5000 = [0; 0; 0; 0; 0].
Proof.
  split; [|split].
  - unfold str_demo. rsimp. unfold init_string. apply wfm_stb. unfold set_Field. repeat apply wfm_st; try apply wfm_empty; split; vm_compute; (discriminate || reflexivity).
  - apply (init_string_spec _ 5000 5 1); [lia|reflexivity|reflexivity|reflexivity].
  - vm_compute. reflexivity.
Qed.

Lemma string_primitives_correct_witness :
  string_get (C := reset_collector) 0 0 5000 (Val_long 3) str_demo = Ok (Val_int 0) str_demo /\
  string_get (C := reset_collector) 0 0 5000 (Val_long (-1)) str_demo = invalid_argument (C := reset_collector) 0 0 (c_string "String.get") str_demo.
Proof.
  destruct str_demo_string as (H1 & H2 & H3).
  destruct (string_primitives_correct (C := reset_collector) 0 0 str_demo 5000 H1 H2) as (_ & Hg & _).
  split; [exact (Hg 3 ltac:(vm_compute; split; discriminate))|exact (Hg (-1) ltac:(vm_compute; split; discriminate))].
Defined.

Lemma copy_string_correct_witness :
  exists v roots' r', copy_string (C := reset_collector) 0 0 [72; 105] [] str_demo = Ok (v, roots') r' /\ length roots' = 0%nat /\
    Is_young (mnr r') v = true /\ Tag_val (rmem r') v = String_tag /\ string_ok (rmem r') v /\ string_of (rmem r') v = [72; 105] /\
    ml_string_length (rmem r') v = Val_long 2.
Proof.
  apply (copy_string_correct (C := reset_collector) (CK := reset_collector_ok) 0 0 [72; 105] [] str_demo);
    [vm_compute; reflexivity|repeat constructor; lia|exact str_demo_young|right; do 2 eexists; reflexivity].
Defined.

Lemma failwith_raises_witness :
  exists r', failwith (C := reset_collector) 0 0 [72; 105] str_demo = @Exn Z r' /\ string_of (rmem r') (Field (rmem r') (exn_bucket (glb r')) 1) = [72; 105].
Proof.
  destruct (failwith_raises (C := reset_collector) 0 0 Z [72; 105] str_demo) as [(r' & E & H) _];
    [vm_compute; reflexivity|repeat constructor; lia|exact str_demo_young|vm_compute; reflexivity|vm_compute; discriminate|].
  exists r'. split; [exact E|apply H].
Defined.
