(* ===== verification/Trees.v ===== *)
(** * The trees values denote

    Accessors of [byterun/mlvalues.h] the polymorphic primitives inspect values
    with, and what those primitives see of a value: a finite tree of integers,
    strings, doubles, objects and blocks, ordered lexicographically. *)

From Stdlib Require Import SpecFloat.
From S2P Require Import Runtime Freelist Bytes Memory Fail Heap Roots Alloc Str.

(** ** Doubles: the value of 64 bits *)

Definition double_of_bits (x : Z) : spec_float :=
  let s := Z.testbit x 63 in
  let e := Z.land (Z.shiftr x 52) 2047 in
  let m := Z.land x (Z.ones 52) in
  if e =? 2047 then (if m =? 0 then S754_infinity s else S754_nan)
  else if e =? 0 then (match m with Zpos p => S754_finite s p (-1074) | _ => S754_zero s end)
  else match m + 2 ^ 52 with Zpos p => S754_finite s p (e - 1075) | _ => S754_nan end.

(** [d1 < d2] on the doubles of these bits. *)
Definition double_lt (x y : Z) : bool := SFltb (double_of_bits x) (double_of_bits y).

Definition Double_val (m : mem) (v : Z) : Z := ld m v.
Definition Double_field (m : mem) (v i : Z) : Z := Double_val m (v + 8 * i).
Definition Oid_val (m : mem) (v : Z) : Z := Long_val (Field m v 1).

Definition Is_atom (r : runtime) (v : Z) : bool := (Atom r 0 <=? v) && (v <=? Atom r 255).
Definition known (r : runtime) (v : Z) : bool := Is_atom r v || Is_young (mnr r) v || Is_in_heap (mjr r) v.

(** ** Trees *)

#[warnings="-register-all"]
Inductive tree :=
| TInt (n : Z)
| TString (s : list Z)
| TDouble (x : Z)
| TDoubles (l : list Z)
| TObject (oid : Z)
| TBlock (tag : Z) (l : list tree).

(** A block the primitives look into, at a word. *)
Definition heap_block (r : runtime) (v : Z) : bool := known r v && (v mod 8 =? 0).

(** The words of [k] fields from [p] on. *)
Fixpoint words (m : mem) (p : Z) (k : nat) : list Z :=
  match k with O => [] | S k => ld m p :: words m (p + 8) k end.

Fixpoint all_some {A} (l : list (option A)) : option (list A) :=
  match l with
  | [] => Some []
  | x :: l => match x, all_some l with Some x, Some l => Some (x :: l) | _, _ => None end
  end.

(** The tree of [v], of depth [n] at most (forwarding included).  Closures, abstract
    and custom blocks and addresses outside the heap have none. *)
Fixpoint tree_of (n : nat) (r : runtime) (v : Z) : option tree :=
  match n with
  | O => None
  | S n =>
      let m := rmem r in
      if Is_long v then Some (TInt (Long_val v))
      else if negb (heap_block r v) then None
      else
        let t := Tag_val m v in
        let sz := Wosize_val m v in
        if t =? Forward_tag then tree_of n r (Forward_val m v)
        else if t =? String_tag then if string_shape m v then Some (TString (string_of m v)) else None
        else if t =? Double_tag then Some (TDouble (Double_val m v))
        else if t =? Double_array_tag then Some (TDoubles (words m v (Z.to_nat sz)))
        else if t =? Object_tag then Some (TObject (Oid_val m v))
        else if (t =? Abstract_tag) || (t =? Closure_tag) || (t =? Infix_tag) || (t =? Custom_tag) then None
        else option_map (TBlock t) (all_some (map (tree_of n r) (words m v (Z.to_nat sz))))
  end.

(** Induction on trees, through their lists. *)
Section TreeInd.
Context (P : tree -> Prop).
Context (Hint : forall n, P (TInt n)) (Hstr : forall s, P (TString s)) (Hdbl : forall x, P (TDouble x)).
Context (Hdbls : forall l, P (TDoubles l)) (Hobj : forall i, P (TObject i)) (Hblk : forall t l, Forall P l -> P (TBlock t l)).

Fixpoint tree_induction (t : tree) : P t :=
  match t with
  | TInt n => Hint n
  | TString s => Hstr s
  | TDouble x => Hdbl x
  | TDoubles l => Hdbls l
  | TObject i => Hobj i
  | TBlock t l => Hblk t l ((fix go l := match l return Forall P l with [] => Forall_nil_2 P | x :: l => Forall_cons_2 P x l (tree_induction x) (go l) end) l)
  end.
End TreeInd.

(** ** The order of trees *)

Definition cthen (c d : comparison) : comparison := match c with Eq => d | _ => c end.

(** Lexicographic, a prefix first. *)
Section Lex.
Context {A} (f : A -> A -> comparison).
Fixpoint lex (l k : list A) : comparison :=
  match l, k with
  | [], [] => Eq
  | [], _ => Lt
  | _, [] => Gt
  | x :: l, y :: k => cthen (f x y) (lex l k)
  end.
End Lex.

Definition dcompare (x y : Z) : comparison := if double_lt x y then Lt else if double_lt y x then Gt else Eq.

(** The size first. *)
Definition sized {A} (f : A -> A -> comparison) (l k : list A) : comparison :=
  cthen (Z.of_nat (length l) ?= Z.of_nat (length k)) (lex f l k).

(** The tag of the block of a tree; integers are before all blocks. *)
Definition rank (t : tree) : Z :=
  match t with
  | TInt _ => -1
  | TString _ => String_tag
  | TDouble _ => Double_tag
  | TDoubles _ => Double_array_tag
  | TObject _ => Object_tag
  | TBlock t _ => t
  end.

Fixpoint tcompare (a b : tree) : comparison :=
  match a, b with
  | TInt x, TInt y => x ?= y
  | TString s, TString t => lex Z.compare s t
  | TDouble x, TDouble y => dcompare x y
  | TDoubles l, TDoubles k => sized dcompare l k
  | TObject i, TObject j => i ?= j
  | TBlock t l, TBlock u k => cthen (t ?= u) (cthen (Z.of_nat (length l) ?= Z.of_nat (length k)) (lex tcompare l k))
  | _, _ => rank a ?= rank b
  end.

(** The place a comparison that descends into the first tree needs on its stack. *)
Fixpoint need (t : tree) : Z :=
  match t with
  | TBlock _ l =>
      (fix go l := match l with [] => 0 | [t] => need t | t :: l => Z.max (1 + need t) (go l) end) l
  | _ => 0
  end.

(** ** It is an order, NaN apart *)

(** How three comparisons of an order are related: [c] of the first two, [d] of the
    last two, [e] of the outer ones. *)
Definition chain (c d e : comparison) : Prop :=
  match c, d with
  | Eq, _ => e = d
  | _, Eq => e = c
  | Lt, Lt => e = Lt
  | Gt, Gt => e = Gt
  | _, _ => True
  end.

Lemma chain_then c d e c' d' e' : chain c d e -> chain c' d' e' -> chain (cthen c c') (cthen d d') (cthen e e').
Proof. destruct c, d, e; cbn; try done; destruct c', d', e'; cbn; try done; congruence. Qed.

Lemma cthen_opp c d : CompOpp (cthen c d) = cthen (CompOpp c) (CompOpp d).
Proof. now destruct c. Qed.

Lemma cthen_eq c d : cthen c d = Eq <-> c = Eq /\ d = Eq.
Proof. destruct c; cbn; split; intros; destruct_and?; done. Qed.

Lemma Z_chain x y z : chain (x ?= y) (y ?= z) (x ?= z).
Proof.
  destruct (Z.compare_spec x y), (Z.compare_spec y z); subst; cbn; try done; rewrite ?Z.compare_refl; try done;
    (apply Z.compare_lt_iff; lia) || (apply Z.compare_gt_iff; lia).
Qed.

Lemma Z_opp x y : (y ?= x) = CompOpp (x ?= y).
Proof. apply Z.compare_antisym. Qed.

(** A comparison that is an order on the elements of a list is one on lists. *)
Section LexOrder.
Context {A} (f : A -> A -> comparison).

Lemma lex_refl l : Forall (fun x => f x x = Eq) l -> lex f l l = Eq.
Proof. induction 1 as [|x l Hx _ IH]; cbn [lex]; [done|]. now rewrite Hx, IH. Qed.

Lemma lex_opp l : forall k, Forall (fun x => forall y, f y x = CompOpp (f x y)) l -> lex f k l = CompOpp (lex f l k).
Proof.
  induction l as [|x l IH]; intros k H; destruct k as [|y k]; cbn [lex]; try done.
  inversion H as [|? ? Hx Hl]; subst. now rewrite cthen_opp, Hx, IH.
Qed.

Lemma lex_chain l : forall k j, Forall (fun x => forall y z, y ∈ k -> z ∈ j -> chain (f x y) (f y z) (f x z)) l -> chain (lex f l k) (lex f k j) (lex f l j).
Proof.
  induction l as [|x l IH]; intros k j H; destruct k as [|y k], j as [|z j]; cbn [lex]; try done; try (now destruct (cthen _ _)).
  inversion H as [|? ? Hx Hl]; subst. apply chain_then; [apply Hx; apply list_elem_of_here|].
  apply IH. eapply Forall_impl; [exact Hl|]. cbn. intros a Ha u v Hu Hv. apply Ha; now apply list_elem_of_further.
Qed.

Lemma lex_ext (g : A -> A -> comparison) l : forall k, (forall x y, x ∈ l -> y ∈ k -> f x y = g x y) -> lex f l k = lex g l k.
Proof.
  induction l as [|x l IH]; intros k H; destruct k as [|y k]; cbn [lex]; try done.
  rewrite H by apply list_elem_of_here. f_equal. apply IH. intros a b Ha Hb. apply H; now apply list_elem_of_further.
Qed.

Lemma lex_eq {B} (h : A -> B) l : forall k, (forall x y, x ∈ l -> y ∈ k -> f x y = Eq <-> h x = h y) -> lex f l k = Eq <-> map h l = map h k.
Proof.
  induction l as [|x l IH]; intros [|y k] H; cbn [lex map]; try done.
  rewrite cthen_eq, H by apply list_elem_of_here. rewrite IH; [split; [intros [-> ->]; done|now intros [= -> ->]]|].
  intros a b Ha Hb. apply H; now apply list_elem_of_further.
Qed.

Lemma sized_eq {B} (h : A -> B) l k : (forall x y, x ∈ l -> y ∈ k -> f x y = Eq <-> h x = h y) -> sized f l k = Eq <-> map h l = map h k.
Proof.
  intros H. unfold sized. rewrite cthen_eq, (lex_eq h), Z.compare_eq_iff by done. split; [tauto|]. intros E. split; [|done].
  apply (f_equal length) in E. now rewrite !length_map in E; rewrite E.
Qed.

Lemma sized_opp l k : Forall (fun x => forall y, f y x = CompOpp (f x y)) l -> sized f k l = CompOpp (sized f l k).
Proof. intros H. unfold sized. now rewrite cthen_opp, <- Z_opp, <- lex_opp. Qed.

Lemma sized_chain l k j : Forall (fun x => forall y z, y ∈ k -> z ∈ j -> chain (f x y) (f y z) (f x z)) l ->
  chain (sized f l k) (sized f k j) (sized f l j).
Proof. intros H. apply chain_then; [apply Z_chain|now apply lex_chain]. Qed.
End LexOrder.

Lemma tcompare_block t l u k : tcompare (TBlock t l) (TBlock u k) = cthen (t ?= u) (sized tcompare l k).
Proof. reflexivity. Qed.

(** ** Doubles are ordered as their bits, sign and magnitude *)

Definition magnitude (x : Z) : Z := Z.land x (Z.ones 63).
Definition double_key (x : Z) : Z := if Z.testbit x 63 then - magnitude x else magnitude x.
(** The bits of infinity, the greatest number. *)
Definition infinity : Z := 2047 * 2 ^ 52.
Definition is_nan (x : Z) : bool := infinity <? magnitude x.

Definition sf_exponent (a : Z) : Z := if a <? 2 ^ 52 then -1074 else a / 2 ^ 52 - 1075.
Definition sf_mantissa (a : Z) : Z := if a <? 2 ^ 52 then a else a mod 2 ^ 52 + 2 ^ 52.

Lemma magnitude_parts x : 0 <= magnitude x < 2 ^ 63 /\
  Z.land (Z.shiftr x 52) 2047 = magnitude x / 2 ^ 52 /\ Z.land x (Z.ones 52) = magnitude x mod 2 ^ 52.
Proof.
  unfold magnitude. change 2047 with (Z.ones 11). rewrite !Z.land_ones, Z.shiftr_div_pow2 by lia.
  change (2 ^ 63) with 9223372036854775808. change (2 ^ 52) with 4503599627370496. change (2 ^ 11) with 2048. zlia.
Qed.

(** The three kinds of numbers. *)
Variant double_view (x : Z) : spec_float -> Prop :=
| view_zero : magnitude x = 0 -> double_view x (S754_zero (Z.testbit x 63))
| view_infinity : magnitude x = infinity -> double_view x (S754_infinity (Z.testbit x 63))
| view_finite p : 0 < magnitude x < infinity -> Zpos p = sf_mantissa (magnitude x) ->
    double_view x (S754_finite (Z.testbit x 63) p (sf_exponent (magnitude x))).

Lemma double_of_bits_view x : is_nan x = false -> double_view x (double_of_bits x).
Proof.
  unfold is_nan, double_of_bits. rewrite Z.ltb_ge. destruct (magnitude_parts x) as (Hr & -> & ->). intros Hn.
  unfold infinity in *. change (2047 * 2 ^ 52) with 9218868437227405312 in Hn.
  assert (Hm : 0 <= magnitude x mod 2 ^ 52 < 2 ^ 52) by (apply Z.mod_pos_bound; lia).
  destruct (Z.eqb_spec (magnitude x / 2 ^ 52) 2047) as [He|He].
  - change (2 ^ 52) with 4503599627370496 in *. rewrite (proj2 (Z.eqb_eq _ _)) by zlia. constructor. unfold infinity. change (2 ^ 52) with 4503599627370496. zlia.
  - destruct (Z.eqb_spec (magnitude x / 2 ^ 52) 0) as [H0|H0].
    + assert (Hs : magnitude x mod 2 ^ 52 = magnitude x /\ magnitude x < 2 ^ 52) by (change (2 ^ 52) with 4503599627370496 in *; zlia).
      destruct Hs as [-> Hs]. destruct (magnitude x) as [|p|p] eqn:E; [now constructor| |lia].
      replace (-1074) with (sf_exponent (magnitude x)) by (unfold sf_exponent; rewrite E, (proj2 (Z.ltb_lt _ _)) by done; done).
      constructor; rewrite E; [|unfold sf_mantissa; now rewrite (proj2 (Z.ltb_lt _ _)) by done]. unfold infinity. lia.
    + assert (Hs : 2 ^ 52 <= magnitude x < infinity) by (unfold infinity; change (2 ^ 52) with 4503599627370496 in *; zlia).
      assert (Eb : (magnitude x <? 2 ^ 52) = false) by (apply Z.ltb_ge; lia).
      destruct (magnitude x mod 2 ^ 52 + 2 ^ 52) as [|p|p] eqn:E; [lia| |lia].
      replace (magnitude x / 2 ^ 52 - 1075) with (sf_exponent (magnitude x)) by (unfold sf_exponent; now rewrite Eb).
      constructor; [lia|]. unfold sf_mantissa. now rewrite Eb.
Qed.

Lemma finite_compare a b p q : 0 < a -> 0 < b -> Zpos p = sf_mantissa a -> Zpos q = sf_mantissa b ->
  (match sf_exponent a ?= sf_exponent b with Lt => Lt | Gt => Gt | Eq => Pos.compare_cont Eq p q end) = (a ?= b).
Proof.
  intros Ha Hb Hp Hq. change (Pos.compare_cont Eq p q) with (Zpos p ?= Zpos q). rewrite Hp, Hq.
  unfold sf_exponent, sf_mantissa. change (2 ^ 52) with 4503599627370496.
  destruct (Z.ltb_spec a 4503599627370496), (Z.ltb_spec b 4503599627370496); destruct (Z.compare_spec a b);
    repeat match goal with |- context [?x ?= ?y] => destruct (Z.compare_spec x y) end; done || zlia.
Qed.

Lemma double_lt_key x y : is_nan x = false -> is_nan y = false -> double_lt x y = (double_key x <? double_key y).
Proof.
  intros Hx Hy. unfold double_lt, SFltb, double_key.
  assert (Hpos : 0 < infinity) by done.
  destruct (double_of_bits_view x Hx) as [Ex|Ex|p Ex Ep], (double_of_bits_view y Hy) as [Ey|Ey|q Ey Eq];
    rewrite ?Ex, ?Ey; cbn [SFcompare];
    try (destruct (Z.testbit x 63), (Z.testbit y 63); symmetry; (apply Z.ltb_lt; lia) || (apply Z.ltb_ge; lia)).
  pose proof (finite_compare (magnitude x) (magnitude y) p q ltac:(lia) ltac:(lia) Ep Eq) as H.
  destruct (Z.testbit x 63), (Z.testbit y 63); symmetry; try ((apply Z.ltb_lt; lia) || (apply Z.ltb_ge; lia)).
  - destruct (sf_exponent (magnitude x) ?= _); [rewrite H|..]; destruct (Z.compare_spec (magnitude x) (magnitude y)); cbn [CompOpp];
      try done; (apply Z.ltb_lt; lia) || (apply Z.ltb_ge; lia).
  - destruct (sf_exponent (magnitude x) ?= _); [rewrite H|..]; destruct (Z.compare_spec (magnitude x) (magnitude y));
      try done; (apply Z.ltb_lt; lia) || (apply Z.ltb_ge; lia).
Qed.

Lemma dcompare_key x y : is_nan x = false -> is_nan y = false -> dcompare x y = (double_key x ?= double_key y).
Proof.
  intros Hx Hy. unfold dcompare. rewrite !double_lt_key by done.
  destruct (Z.compare_spec (double_key x) (double_key y)); zcases; try done; lia.
Qed.

Lemma double_lt_asym x y : double_lt x y = true -> double_lt y x = false.
Proof.
  unfold double_lt, SFltb. destruct (double_of_bits x) as [[]|[]| |[] p e], (double_of_bits y) as [[]|[]| |[] q d]; cbn; try done.
  - rewrite (Z.compare_antisym e d). destruct (e ?= d); cbn; try done. change (Pos.compare_cont Eq q p) with (q ?= p)%positive.
    change (Pos.compare_cont Eq p q) with (p ?= q)%positive. rewrite (Pos.compare_antisym p q). now destruct (p ?= q)%positive.
  - rewrite (Z.compare_antisym e d). destruct (e ?= d); cbn; try done. change (Pos.compare_cont Eq q p) with (q ?= p)%positive.
    change (Pos.compare_cont Eq p q) with (p ?= q)%positive. rewrite (Pos.compare_antisym p q). now destruct (p ?= q)%positive.
Qed.

Lemma dcompare_refl x : dcompare x x = Eq.
Proof. unfold dcompare. destruct (double_lt x x) eqn:E; [|done]. now rewrite (double_lt_asym _ _ E) in E. Qed.

Lemma dcompare_opp x y : dcompare y x = CompOpp (dcompare x y).
Proof.
  unfold dcompare. destruct (double_lt x y) eqn:E; [now rewrite (double_lt_asym _ _ E)|]. now destruct (double_lt y x).
Qed.

(** ** The order of trees is one *)

Fixpoint nan_free (t : tree) : bool :=
  match t with
  | TDouble x => negb (is_nan x)
  | TDoubles l => forallb (fun x => negb (is_nan x)) l
  | TBlock _ l => forallb nan_free l
  | _ => true
  end.

(** The tags of blocks of fields. *)
Definition plain_tag (t : Z) : bool :=
  (0 <=? t) && negb ((t =? Object_tag) || (t =? String_tag) || (t =? Double_tag) || (t =? Double_array_tag)).
Fixpoint plain (t : tree) : bool :=
  match t with TBlock t l => plain_tag t && forallb plain l | _ => true end.

(** Doubles by their order: the two zeros are the same. *)
Fixpoint canon (t : tree) : tree :=
  match t with
  | TDouble x => TDouble (double_key x)
  | TDoubles l => TDoubles (map double_key l)
  | TBlock t l => TBlock t (map canon l)
  | t => t
  end.

(** The comparison of two trees of the same rank. *)
Definition tcompare_same (a b : tree) : comparison :=
  match a, b with
  | TInt x, TInt y => x ?= y
  | TString s, TString t => lex Z.compare s t
  | TDouble x, TDouble y => dcompare x y
  | TDoubles l, TDoubles k => sized dcompare l k
  | TObject i, TObject j => i ?= j
  | TBlock t l, TBlock u k => sized tcompare l k
  | _, _ => Eq
  end.

Lemma cthen_Eq c : cthen c Eq = c.
Proof. now destruct c. Qed.

Lemma plain_rank t l : plain (TBlock t l) = true -> 0 <= t.
Proof. cbn. unfold plain_tag. rewrite !andb_true_iff, Z.leb_le. tauto. Qed.

Lemma tcompare_eqn a b : plain a = true -> plain b = true -> tcompare a b = cthen (rank a ?= rank b) (tcompare_same a b).
Proof.
  intros Ha Hb. destruct a as [| | | | |t l], b as [| | | | |u k]; try done; try apply plain_rank in Ha; try apply plain_rank in Hb;
    cbn [tcompare rank tcompare_same]; rewrite ?cthen_Eq; try done; symmetry; (apply Z.compare_lt_iff; lia) || (apply Z.compare_gt_iff; lia).
Qed.

Lemma forallb_Forall_iff {A} (p : A -> bool) l : forallb p l = true <-> Forall (fun x => p x = true) l.
Proof. rewrite forallb_forall, Forall_forall. split; intros H x Hx; apply H; now apply list_elem_of_In. Qed.

Lemma tcompare_refl a : tcompare a a = Eq.
Proof.
  induction a using tree_induction; cbn [tcompare]; try apply Z.compare_refl; try apply dcompare_refl.
  - apply lex_refl, Forall_forall. intros. apply Z.compare_refl.
  - unfold sized. rewrite Z.compare_refl. apply lex_refl, Forall_forall. intros. apply dcompare_refl.
  - rewrite !Z.compare_refl. now apply lex_refl.
Qed.

Lemma tcompare_opp a : forall b, tcompare b a = CompOpp (tcompare a b).
Proof.
  induction a as [n|s|x|l|i|t l IH] using tree_induction; intros b; destruct b; cbn [tcompare]; try done; try apply Z_opp.
  - apply lex_opp, Forall_forall. intros. apply Z_opp.
  - apply dcompare_opp.
  - apply sized_opp, Forall_forall. intros. apply dcompare_opp.
  - rewrite !cthen_opp, <- !Z_opp, <- lex_opp; done.
Qed.

Lemma chain_then_eq c d e c' d' e' : chain c d e -> (c = Eq -> d = Eq -> chain c' d' e') -> chain (cthen c c') (cthen d d') (cthen e e').
Proof. intros H H'. destruct c, d, e; cbn in *; try done; try (apply H'; done); destruct c', d', e'; done. Qed.

(** Trees of the same rank are made in the same way. *)
Lemma rank_case a b : plain a = true -> plain b = true -> rank a = rank b ->
  match a, b with
  | TInt _, TInt _ | TString _, TString _ | TDouble _, TDouble _ | TDoubles _, TDoubles _ | TObject _, TObject _ => True
  | TBlock t _, TBlock u _ => t = u
  | _, _ => False
  end.
Proof.
  intros Ha Hb. destruct a as [| | | | |t l], b as [| | | | |u k]; cbn [rank]; try done; cbn in Ha, Hb; unfold plain_tag in *; intros E; subst; try done.
Qed.

Lemma doubles_chain x y z : is_nan x = false -> is_nan y = false -> is_nan z = false -> chain (dcompare x y) (dcompare y z) (dcompare x z).
Proof. intros. rewrite !dcompare_key by done. apply Z_chain. Qed.

Lemma tcompare_chain a : forall b c,
  (plain a = true /\ nan_free a = true) -> (plain b = true /\ nan_free b = true) -> (plain c = true /\ nan_free c = true) ->
  chain (tcompare a b) (tcompare b c) (tcompare a c).
Proof.
  induction a as [n|s|x|l|i|t l IH] using tree_induction; intros b c [Pa Na] [Pb Nb] [Pc Nc]; rewrite !tcompare_eqn by done;
    (apply chain_then_eq; [apply Z_chain|]); intros E1%Z.compare_eq_iff E2%Z.compare_eq_iff;
    pose proof (rank_case _ _ Pa Pb E1) as R1; pose proof (rank_case _ _ Pb Pc E2) as R2; clear E1 E2;
    destruct b; try (exfalso; exact R1); destruct c; try (exfalso; exact R2); cbn [tcompare_same].
  - apply Z_chain.
  - apply lex_chain, Forall_forall. intros. apply Z_chain.
  - apply doubles_chain; now apply negb_true_iff.
  - cbn [nan_free] in *. rewrite forallb_Forall_iff, Forall_forall in *. apply sized_chain, Forall_forall. intros x Hx y z Hy Hz.
    apply doubles_chain; apply negb_true_iff; auto.
  - apply Z_chain.
  - cbn [nan_free plain] in *. rewrite andb_true_iff in *. rewrite !forallb_Forall_iff, !Forall_forall in *.
    apply sized_chain, Forall_forall. intros x Hx y z Hy Hz. destruct Pa, Pb, Pc. apply IH; auto.
Qed.

Lemma tcompare_eq a : forall b, (plain a = true /\ nan_free a = true) -> (plain b = true /\ nan_free b = true) ->
  tcompare a b = Eq <-> canon a = canon b.
Proof.
  induction a as [n|s|x|l|i|t l IH] using tree_induction; intros b [Pa Na] [Pb Nb]; rewrite tcompare_eqn, cthen_eq, Z.compare_eq_iff by done;
    destruct b as [m|s'|x'|l'|i'|u k]; cbn [tcompare_same rank canon];
    try (split; [intros [E _]; exfalso; exact (rank_case _ _ Pa Pb E)|discriminate]).
  - rewrite Z.compare_eq_iff. split; [intros [_ ->]; done|now intros [= ->]].
  - rewrite (lex_eq _ id), !map_id by (intros; apply Z.compare_eq_iff). split; [intros [_ ->]; done|now intros [= ->]].
  - cbn in Na, Nb. rewrite dcompare_key, Z.compare_eq_iff by now apply negb_true_iff. split; [intros [_ ->]; done|now intros [= ->]].
  - cbn [nan_free] in *. rewrite forallb_Forall_iff, Forall_forall in *.
    rewrite (sized_eq _ double_key); [split; [intros [_ ->]; done|now intros [= ->]]|].
    intros x y Hx Hy. rewrite dcompare_key, Z.compare_eq_iff by (apply negb_true_iff; auto). done.
  - rewrite Z.compare_eq_iff. split; [intros [_ ->]; done|now intros [= ->]].
  - cbn [nan_free plain] in *. rewrite andb_true_iff in *. rewrite !forallb_Forall_iff, !Forall_forall in *. destruct Pa as [_ Pa], Pb as [_ Pb].
    rewrite (sized_eq _ canon) by auto. split; [intros [-> ->]; done|now intros [= -> ->]].
Qed.

(** ** The tree of a value *)

Lemma length_words m k : forall p, length (words m p k) = k.
Proof. induction k as [|k IH]; intros p; cbn [words length]; [done|]. now rewrite IH. Qed.

Lemma all_some_Forall2 {A} (l : list (option A)) : forall k, all_some l = Some k <-> Forall2 (fun x y => x = Some y) l k.
Proof.
  induction l as [|x l IH]; intros k; cbn [all_some].
  - split; [intros [= <-]; constructor|intros H; now inversion H].
  - split.
    + destruct x as [x|]; [|done]. destruct (all_some l) as [k'|]; [|done]. intros [= <-]. constructor; [done|now apply IH].
    + intros H. inversion H as [|? y ? k' E Hr]; subst. apply IH in Hr. now rewrite Hr.
Qed.

(** The trees of the fields from [p] on. *)
Definition fields_of (n : nat) (r : runtime) (p : Z) (l : list tree) : Prop :=
  Forall2 (fun w t => tree_of n r w = Some t) (words (rmem r) p (length l)) l.

Lemma tag_range m v : 0 <= Tag_val m v < 256.
Proof. unfold Tag_val, Tag_hd. change 255 with (Z.ones 8). rewrite Z.land_ones by lia. apply Z.mod_pos_bound. lia. Qed.

(** The ways a value has a tree. *)
Variant tree_view (n : nat) (r : runtime) (v : Z) : tree -> Prop :=
| tv_int : Is_long v = true -> tree_view n r v (TInt (Long_val v))
| tv_forward t : Is_long v = false -> heap_block r v = true -> Tag_val (rmem r) v = Forward_tag ->
    tree_of n r (Forward_val (rmem r) v) = Some t -> tree_view n r v t
| tv_string : Is_long v = false -> heap_block r v = true -> Tag_val (rmem r) v = String_tag ->
    string_shape (rmem r) v = true -> tree_view n r v (TString (string_of (rmem r) v))
| tv_double : Is_long v = false -> heap_block r v = true -> Tag_val (rmem r) v = Double_tag -> tree_view n r v (TDouble (Double_val (rmem r) v))
| tv_doubles : Is_long v = false -> heap_block r v = true -> Tag_val (rmem r) v = Double_array_tag ->
    tree_view n r v (TDoubles (words (rmem r) v (Z.to_nat (Wosize_val (rmem r) v))))
| tv_object : Is_long v = false -> heap_block r v = true -> Tag_val (rmem r) v = Object_tag -> tree_view n r v (TObject (Oid_val (rmem r) v))
| tv_block l : Is_long v = false -> heap_block r v = true -> plain_tag (Tag_val (rmem r) v) = true -> Tag_val (rmem r) v ∉ [Forward_tag; Abstract_tag; Closure_tag; Infix_tag; Custom_tag] ->
    length l = Z.to_nat (Wosize_val (rmem r) v) -> fields_of n r v l -> tree_view n r v (TBlock (Tag_val (rmem r) v) l).

Lemma tree_of_view n r v t : tree_of (S n) r v = Some t -> tree_view n r v t.
Proof.
  cbn [tree_of]. destruct (Is_long v) eqn:El; [intros [= <-]; now constructor|].
  destruct (heap_block r v) eqn:Ek; cbn [negb]; [|done]. pose proof (tag_range (rmem r) v) as Ht.
  destruct (Z.eqb_spec (Tag_val (rmem r) v) Forward_tag); [now constructor|].
  destruct (Z.eqb_spec (Tag_val (rmem r) v) String_tag); [destruct (string_shape _ _) eqn:Es; [|done]; intros [= <-]; now constructor|].
  destruct (Z.eqb_spec (Tag_val (rmem r) v) Double_tag); [intros [= <-]; now constructor|].
  destruct (Z.eqb_spec (Tag_val (rmem r) v) Double_array_tag); [intros [= <-]; now constructor|].
  destruct (Z.eqb_spec (Tag_val (rmem r) v) Object_tag); [intros [= <-]; now constructor|].
  destruct ((Tag_val (rmem r) v =? Abstract_tag) || _ || _ || _) eqn:Et; [done|].
  rewrite !orb_false_iff, !Z.eqb_neq in Et. destruct Et as [[[? ?] ?] ?].
  destruct (all_some _) as [l|] eqn:Ea; [|done]. intros [= <-]. apply all_some_Forall2 in Ea. rewrite Forall2_fmap_l in Ea.
  pose proof (Forall2_length _ _ _ Ea) as Hl. rewrite length_words in Hl.
  apply tv_block; try done.
  - unfold plain_tag. rewrite andb_true_iff, negb_true_iff, !orb_false_iff, !Z.eqb_neq, Z.leb_le. lia.
  - rewrite !not_elem_of_cons. repeat split; try done. apply not_elem_of_nil.
  - unfold fields_of. now rewrite <- Hl.
Qed.

Lemma all_some_ext {A B} (f g : A -> option B) l k :
  (forall x y, f x = Some y -> g x = Some y) -> all_some (map f l) = Some k -> all_some (map g l) = Some k.
Proof.
  intros H. rewrite !all_some_Forall2, !Forall2_fmap_l. intros Hf. eapply Forall2_impl; [exact Hf|]. cbn. auto.
Qed.

Lemma tree_of_S n r : forall v t, tree_of n r v = Some t -> tree_of (S n) r v = Some t.
Proof.
  induction n as [|n IH]; intros v t; [done|]. intros Ht. remember (S n) as k eqn:Ek. rewrite Ek in Ht. cbn [tree_of] in *.
  destruct (Is_long v); [done|]. destruct (negb _); [done|]. destruct (_ =? Forward_tag); [now apply IH|].
  destruct (_ =? String_tag); [done|]. destruct (_ =? Double_tag); [done|]. destruct (_ =? Double_array_tag); [done|].
  destruct (_ =? Object_tag); [done|]. destruct (_ || _); [done|].
  destruct (all_some (map (tree_of n r) _)) as [l|] eqn:E; [|done]. now rewrite (all_some_ext _ _ _ _ IH E).
Qed.

Lemma tree_of_le n n' r v t : (n <= n')%nat -> tree_of n r v = Some t -> tree_of n' r v = Some t.
Proof. induction 1 as [|n' _ IH]; [done|]. intros H. now apply tree_of_S, IH. Qed.

Lemma tree_of_det n n' r v t t' : tree_of n r v = Some t -> tree_of n' r v = Some t' -> t = t'.
Proof.
  intros H H'. apply (tree_of_le _ (n + n')) in H; [|lia]. apply (tree_of_le _ (n + n')) in H'; [|lia]. congruence.
Qed.

Lemma tree_of_plain n r : forall v t, tree_of n r v = Some t -> plain t = true.
Proof.
  induction n as [|n IH]; intros v t; [done|]. intros Ht. apply tree_of_view in Ht. destruct Ht as [|? ? ? ? ?| | | | |l ? ? Hp ? ? Hf]; try done; [eauto|].
  cbn [plain]. rewrite Hp. cbn [andb]. apply forallb_Forall_iff, Forall_forall. intros t Ht.
  apply list_elem_of_lookup in Ht as [i Hi]. destruct (Forall2_lookup_r _ _ _ _ _ Hf Hi) as (w & _ & Hw). eauto.
Qed.

Lemma words_ext m m' k : forall p, (forall a, p <= a < p + 8 * Z.of_nat k -> ld m' a = ld m a) -> words m' p k = words m p k.
Proof. induction k as [|k IH]; intros p H; cbn [words]; [done|]. rewrite H by lia. f_equal. apply IH. intros a Ha. apply H. lia. Qed.

Lemma words_S m p k : words m p (S k) = words m p k ++ [ld m (p + 8 * Z.of_nat k)].
Proof.
  revert p. induction k as [|k IH]; intros p; [cbn [words app]; do 2 f_equal; lia|].
  change (ld m p :: words m (p + 8) (S k) = (ld m p :: words m (p + 8) k) ++ [ld m (p + 8 * Z.of_nat (S k))]). rewrite IH. cbn [app]. do 4 f_equal. lia.
Qed.

(** The tree depends on the memory and on the extent of the heap only. *)
Definition same_view (r r' : runtime) : Prop := rmem r' = rmem r /\ forall v, known r' v = known r v.

Lemma tree_of_same n r r' : same_view r r' -> forall v, tree_of n r' v = tree_of n r v.
Proof.
  intros [Hm Hk]. induction n as [|n IH]; intros v; [done|]. cbn [tree_of]. unfold heap_block. rewrite Hm, Hk, IH.
  destruct (Is_long v); [done|]. destruct (negb _); [done|]. do 6 (destruct (_ =? _); [done|]). destruct (_ || _); [done|].
  do 2 f_equal. now apply map_ext.
Qed.

Lemma heap_block_known r v : heap_block r v = true -> known r v = true /\ v mod 8 = 0.
Proof. unfold heap_block. now rewrite andb_true_iff, Z.eqb_eq. Qed.

(** What a view says of a block that does not forward. *)
Lemma view_rank n r v t : tree_view n r v t -> Is_long v = false -> Tag_val (rmem r) v <> Forward_tag -> rank t = Tag_val (rmem r) v.
Proof. intros H Hl Hf. destruct H; try done; try congruence; cbn [rank]; congruence. Qed.

Lemma view_known n r v t : tree_view n r v t -> Is_long v = false -> known r v = true /\ v mod 8 = 0.
Proof. intros H Hl. destruct H; try congruence; now apply heap_block_known. Qed.

(** The place the comparison of lists of fields needs. *)
Fixpoint needs (l : list tree) : Z :=
  match l with [] => 0 | [t] => need t | t :: l => Z.max (1 + need t) (needs l) end.

Lemma need_block t l : need (TBlock t l) = needs l.
Proof. cbn [need]. induction l as [|x l IH]; [done|]. destruct l; [done|]. cbn [needs] in *. now rewrite IH. Qed.

Lemma need_nonneg t : 0 <= need t.
Proof.
  induction t as [| | | | |t l IH] using tree_induction; try done. rewrite need_block.
  induction IH as [|x l Hx Hl IHl]; [done|]. destruct l; [done|]. cbn [needs] in *. lia.
Qed.
