(* ===== verification/Compare.v ===== *)
(** * Structural comparison

    Models [byterun/compare.c]: a loop with an explicit stack of the fields that are
    left to compare, which grows up to a limit.  It is shown to compute the order
    of the trees the values denote.  The comparison functions of custom blocks are code
    the heap does not hold: a parameter. *)

From S2P Require Import Runtime Freelist Bytes Memory Fail Heap Roots Alloc Str Trees.

(** ** The comparison *)

Definition COMPARE_STACK_INIT_SIZE : Z := 256.
Definition COMPARE_STACK_MAX_SIZE : Z := 1024 * 1024.

(** An entry of the stack: two fields, and how many are left from these on. *)
Record compare_item := MkItem { ci_v1 : Z; ci_v2 : Z; ci_count : Z }.

(** What the inspection of two values leads to. *)
Inductive verdict :=
| Same                       (* [goto next_item] *)
| Result (z : Z)             (* [return z] *)
| Other (v1 v2 : Z)          (* [continue], with these values *)
| Descend (sz : Z)           (* blocks of [sz] fields, to be compared *)
| Custom                     (* two custom blocks *)
| Invalid (msg : string).    (* [invalid_argument (msg)] *)

Fixpoint compare_bytes (len : nat) (p1 p2 : Z) (m : mem) : option Z :=
  match len with
  | O => None
  | S len => if negb (ldb m p1 =? ldb m p2) then Some (ldb m p1 - ldb m p2) else compare_bytes len (p1 + 1) (p2 + 1) m
  end.

Definition compare_strings (m : mem) (v1 v2 : Z) : verdict :=
  let len1 := string_length m v1 in
  let len2 := string_length m v2 in
  match compare_bytes (Z.to_nat (if len1 <=? len2 then len1 else len2)) v1 v2 m with
  | Some z => Result z
  | None => if negb (len1 =? len2) then Result (s64 (len1 - len2)) else Same
  end.

Definition compare_doubles (d1 d2 : Z) : option Z :=
  if double_lt d1 d2 then Some (-1) else if double_lt d2 d1 then Some 1 else None.

(** [for (i = i; i < i + n; i++)] *)
Fixpoint compare_double_fields (n : nat) (i v1 v2 : Z) (m : mem) : option Z :=
  match n with
  | O => None
  | S n => match compare_doubles (Double_field m v1 i) (Double_field m v2 i) with
           | Some z => Some z
           | None => compare_double_fields n (i + 1) v1 v2 m
           end
  end.

Definition verdict_of (z : option Z) : verdict := match z with Some z => Result z | None => Same end.

(** The blocks [v1] and [v2] of the tag [t1]. *)
Definition compare_blocks (m : mem) (t1 v1 v2 : Z) : verdict :=
  if t1 =? String_tag then compare_strings m v1 v2
  else if t1 =? Double_tag then verdict_of (compare_doubles (Double_val m v1) (Double_val m v2))
  else if t1 =? Double_array_tag then
    let sz1 := Wosize_val m v1 / Double_wosize in
    let sz2 := Wosize_val m v2 / Double_wosize in
    if negb (sz1 =? sz2) then Result (s64 (sz1 - sz2)) else verdict_of (compare_double_fields (Z.to_nat sz1) 0 v1 v2 m)
  else if t1 =? Abstract_tag then Invalid "equal: abstract value"
  else if (t1 =? Closure_tag) || (t1 =? Infix_tag) then Invalid "equal: functional value"
  else if t1 =? Object_tag then
    let oid1 := Oid_val m v1 in
    let oid2 := Oid_val m v2 in
    if negb (oid1 =? oid2) then Result (s64 (oid1 - oid2)) else Same
  else if t1 =? Custom_tag then Custom
  else
    let sz1 := Wosize_val m v1 in
    let sz2 := Wosize_val m v2 in
    if negb (sz1 =? sz2) then Result (s64 (sz1 - sz2)) else if sz1 =? 0 then Same else Descend sz1.

Definition compare_head (r : runtime) (v1 v2 : Z) : verdict :=
  let m := rmem r in
  if v1 =? v2 then Same
  else if Is_long v1 then
    if Is_long v2 then Result (s64 (Long_val v1 - Long_val v2))
    else if known r v2 && (Tag_val m v2 =? Forward_tag) then Other v1 (Forward_val m v2)
    else Result (-1)
  else if Is_long v2 then
    if known r v1 && (Tag_val m v1 =? Forward_tag) then Other (Forward_val m v1) v2 else Result 1
  else if negb (known r v1) || negb (known r v2) then Result (s64 (Z.shiftr (s64 v1) 1 - Z.shiftr (s64 v2) 1))
  else
    let t1 := Tag_val m v1 in
    let t2 := Tag_val m v2 in
    if t1 =? Forward_tag then Other (Forward_val m v1) v2
    else if t2 =? Forward_tag then Other v1 (Forward_val m v2)
    else if negb (t1 =? t2) then Result (t1 - t2)
    else compare_blocks m t1 v1 v2.

Section Compare.
Context {C : Collector} (Fl_head : Z) (alloc_fuel : nat).
(** [Custom_ops_val (v)->compare], called. *)
Context (custom_compare : Z -> Z -> Z -> M Z).

(** The result of [compare_val], and the size of the stack after it: it is
    [compare_stack_init] when the size is [COMPARE_STACK_INIT_SIZE]. *)
Definition compared : Type := res Z * Z.

Definition compare_stack_overflow (r : runtime) : compared := (raise_out_of_memory r, COMPARE_STACK_INIT_SIZE).

(** The new size, or [None] when the stack cannot grow. *)
Definition compare_resize_stack (size : Z) (r : runtime) : option Z * runtime :=
  let newsize := 2 * size in
  if COMPARE_STACK_MAX_SIZE <=? newsize then (None, r)
  else match libc_malloc r with
       | Ok p r => (if p =? 0 then None else Some newsize, r)
       | _ => (None, r)
       end.

(** The item for the fields after the first of blocks of [sz] fields. *)
Definition push_item (sz v1 v2 : Z) (items : list compare_item) : list compare_item :=
  if 1 <? sz then MkItem (Field_addr v1 1) (Field_addr v2 1) (sz - 1) :: items else items.

(** [sp++] and the check of the limit; [items] are above [compare_stack[0]]. *)
Definition grow_for (sz size : Z) (items : list compare_item) (r : runtime) : option Z * runtime :=
  if (1 <? sz) && (size <=? Z.of_nat (length items) + 1) then compare_resize_stack size r else (Some size, r).

(** The next pair to compare, with the items left. *)
Definition next_item (m : mem) (items : list compare_item) : option (Z * Z * list compare_item) :=
  match items with
  | [] => None
  | MkItem p1 p2 n :: items =>
      Some (ld m p1, ld m p2, if n - 1 =? 0 then items else MkItem (p1 + 8) (p2 + 8) (n - 1) :: items)
  end.

Fixpoint compare_loop (fuel : nat) (v1 v2 size : Z) (items : list compare_item) (r : runtime) : compared :=
  match fuel with
  | O => (Fatal "the loop has not ended within the bound", size)
  | S fuel =>
      let next (r : runtime) :=
        match next_item (rmem r) items with
        | None => (Ok 0 r, size)
        | Some (v1, v2, items) => compare_loop fuel v1 v2 size items r
        end in
      match compare_head r v1 v2 with
      | Same => next r
      | Result z => (Ok z r, size)
      | Other v1 v2 => compare_loop fuel v1 v2 size items r
      | Descend sz =>
          match grow_for sz size items r with
          | (None, r) => compare_stack_overflow r
          | (Some size, r) =>
              compare_loop fuel (Field (rmem r) v1 0) (Field (rmem r) v2 0) size (push_item sz v1 v2 items) r
          end
      | Custom =>
          let f := ld (rmem r) (Field (rmem r) v1 0 + 16) in
          if f =? 0 then (failwith Fl_head alloc_fuel (c_string "equal: abstract value") r, size)
          else match custom_compare f v1 v2 r with
               | Ok res r => if negb (res =? 0) then (Ok res r, size) else next r
               | Exn r => (Exn r, size)
               | Fatal msg => (Fatal msg, size)
               end
      | Invalid msg => (invalid_argument Fl_head alloc_fuel (c_string msg) r, COMPARE_STACK_INIT_SIZE)
      end
  end.

Definition compare_val (fuel : nat) (v1 v2 size : Z) (r : runtime) : compared := compare_loop fuel v1 v2 size [] r.

(** [compare_free_stack], then the value. *)
Definition finish (f : Z -> Z) (x : compared) : compared :=
  match x with
  | (Ok z r, size) => (Ok (f z) r, COMPARE_STACK_INIT_SIZE)
  | x => x
  end.

Definition compare (fuel : nat) (v1 v2 size : Z) (r : runtime) : compared :=
  finish (fun z => if z <? 0 then Val_int (-1) else if 0 <? z then Val_int 1 else Val_int 0) (compare_val fuel v1 v2 size r).
Definition equal (fuel : nat) (v1 v2 size : Z) (r : runtime) : compared :=
  finish (fun z => Val_int (if z =? 0 then 1 else 0)) (compare_val fuel v1 v2 size r).
Definition notequal (fuel : nat) (v1 v2 size : Z) (r : runtime) : compared :=
  finish (fun z => Val_int (if z =? 0 then 0 else 1)) (compare_val fuel v1 v2 size r).
Definition lessthan (fuel : nat) (v1 v2 size : Z) (r : runtime) : compared :=
  finish (fun z => Val_int (if z <? 0 then 1 else 0)) (compare_val fuel v1 v2 size r).
Definition lessequal (fuel : nat) (v1 v2 size : Z) (r : runtime) : compared :=
  finish (fun z => Val_int (if z <=? 0 then 1 else 0)) (compare_val fuel v1 v2 size r).
Definition greaterthan (fuel : nat) (v1 v2 size : Z) (r : runtime) : compared :=
  finish (fun z => Val_int (if 0 <? z then 1 else 0)) (compare_val fuel v1 v2 size r).
Definition greaterequal (fuel : nat) (v1 v2 size : Z) (r : runtime) : compared :=
  finish (fun z => Val_int (if 0 <=? z then 1 else 0)) (compare_val fuel v1 v2 size r).
End Compare.

(** ** The inspection of two values *)

Definition csgn (c : comparison) : Z := match c with Eq => 0 | Lt => -1 | Gt => 1 end.

(** A verdict of order [c]. *)
Definition decides (c : comparison) (v : verdict) : Prop :=
  match c with Eq => v = Same | _ => exists z, v = Result z /\ Z.sgn z = csgn c end.

Lemma decides_sub x y : iss64 (x - y) -> x <> y -> decides (x ?= y) (Result (s64 (x - y))).
Proof.
  intros Hr Hne. unfold decides. destruct (Z.compare_spec x y); [done|..]; (eexists; split; [reflexivity|]); rewrite s64_id by done; cbn [csgn]; lia.
Qed.

Lemma compare_bytes_spec m n : forall p1 p2 l1 l2, l1 = bytes m p1 n -> l2 = bytes m p2 n ->
  match lex Z.compare l1 l2 with
  | Eq => compare_bytes n p1 p2 m = None
  | c => exists z, compare_bytes n p1 p2 m = Some z /\ Z.sgn z = csgn c
  end.
Proof.
  induction n as [|n IH]; intros p1 p2 l1 l2 -> ->; cbn [bytes lex compare_bytes]; [done|].
  specialize (IH (p1 + 1) (p2 + 1) _ _ eq_refl eq_refl).
  destruct (Z.compare_spec (ldb m p1) (ldb m p2)) as [E|E|E]; cbn [cthen].
  - rewrite E, Z.eqb_refl. cbn [negb]. exact IH.
  - rewrite (proj2 (Z.eqb_neq _ _)) by lia. cbn [negb]. eexists. split; [done|]. cbn [csgn]. lia.
  - rewrite (proj2 (Z.eqb_neq _ _)) by lia. cbn [negb]. eexists. split; [done|]. cbn [csgn]. lia.
Qed.

(** Lists of which the common part is compared first. *)
Lemma lex_take l : forall k, lex Z.compare l k =
  cthen (lex Z.compare (take (length k) l) (take (length l) k)) (Z.of_nat (length l) ?= Z.of_nat (length k)).
Proof.
  induction l as [|x l IH]; intros [|y k]; cbn [lex length take]; try done.
  rewrite IH. replace (Z.of_nat (S (length l)) ?= Z.of_nat (S (length k))) with (Z.of_nat (length l) ?= Z.of_nat (length k)).
  - destruct (x ?= y); done.
  - rewrite !Nat2Z.inj_succ. unfold Z.succ. symmetry. rewrite (Z.add_comm _ 1), (Z.add_comm _ 1). apply Zcompare_plus_compat.
Qed.

Lemma compare_strings_spec m v1 v2 : string_shape m v1 = true -> string_shape m v2 = true ->
  decides (lex Z.compare (string_of m v1) (string_of m v2)) (compare_strings m v1 v2).
Proof.
  intros S1 S2. destruct (string_shape_size _ _ S1) as [E1 R1], (string_shape_size _ _ S2) as [E2 R2].
  assert (L1 : length (string_of m v1) = Z.to_nat (string_size m v1)) by apply length_bytes.
  assert (L2 : length (string_of m v2) = Z.to_nat (string_size m v2)) by apply length_bytes.
  unfold compare_strings. cbn zeta. rewrite E1, E2, lex_take, L1, L2.
  set (n := Z.to_nat (if string_size m v1 <=? string_size m v2 then string_size m v1 else string_size m v2)).
  assert (T1 : take (Z.to_nat (string_size m v2)) (string_of m v1) = bytes m v1 n).
  { unfold string_of. rewrite take_bytes. f_equal. unfold n. zcases; lia. }
  assert (T2 : take (Z.to_nat (string_size m v1)) (string_of m v2) = bytes m v2 n).
  { unfold string_of. rewrite take_bytes. f_equal. unfold n. zcases; lia. }
  rewrite T1, T2. pose proof (compare_bytes_spec m n v1 v2 _ _ eq_refl eq_refl) as H.
  destruct (lex Z.compare (bytes m v1 n) (bytes m v2 n)); [rewrite H|destruct H as (z & -> & Hz)..]; cbn [cthen]; [|eexists; done..].
  rewrite !Z2Nat.id by lia. destruct (Z.eqb_spec (string_size m v1) (string_size m v2)) as [E|E]; cbn [negb].
  - now rewrite E, Z.compare_refl.
  - apply decides_sub; [|done]. change (2 ^ 57) with 144115188075855872 in *. unfold iss64. lia.
Qed.

Lemma compare_doubles_spec x y : decides (dcompare x y) (verdict_of (compare_doubles x y)).
Proof.
  unfold dcompare, compare_doubles. destruct (double_lt x y); [now eexists|]. destruct (double_lt y x); [now eexists|done].
Qed.

Lemma compare_double_fields_spec m v1 v2 n : forall i,
  decides (lex dcompare (words m (v1 + 8 * i) n) (words m (v2 + 8 * i) n)) (verdict_of (compare_double_fields n i v1 v2 m)).
Proof.
  induction n as [|n IH]; intros i; cbn [words lex compare_double_fields]; [done|].
  specialize (IH (i + 1)). replace (v1 + 8 * (i + 1)) with (v1 + 8 * i + 8) in IH by lia. replace (v2 + 8 * (i + 1)) with (v2 + 8 * i + 8) in IH by lia.
  unfold Double_field, Double_val. pose proof (compare_doubles_spec (ld m (v1 + 8 * i)) (ld m (v2 + 8 * i))) as H.
  destruct (compare_doubles _ _), (dcompare _ _); cbn [verdict_of cthen] in *; try done; now destruct H as (? & ? & _).
Qed.

Lemma compare_double_arrays_spec m v1 v2 : Wosize_val m v1 < 2 ^ 54 -> Wosize_val m v2 < 2 ^ 54 -> 0 <= Wosize_val m v1 -> 0 <= Wosize_val m v2 ->
  decides (sized dcompare (words m v1 (Z.to_nat (Wosize_val m v1))) (words m v2 (Z.to_nat (Wosize_val m v2))))
    (let sz1 := Wosize_val m v1 / Double_wosize in
     let sz2 := Wosize_val m v2 / Double_wosize in
     if negb (sz1 =? sz2) then Result (s64 (sz1 - sz2)) else verdict_of (compare_double_fields (Z.to_nat sz1) 0 v1 v2 m)).
Proof.
  intros W1 W2 N1 N2. cbn zeta. unfold Double_wosize. rewrite !Z.div_1_r. unfold sized. rewrite !length_words, !Z2Nat.id by done.
  destruct (Z.eqb_spec (Wosize_val m v1) (Wosize_val m v2)) as [E|E]; cbn [negb].
  - rewrite <- E, Z.compare_refl. cbn [cthen]. pose proof (compare_double_fields_spec m v1 v2 (Z.to_nat (Wosize_val m v1)) 0) as H.
    now rewrite !Z.mul_0_r, !Z.add_0_r in H.
  - pose proof (decides_sub (Wosize_val m v1) (Wosize_val m v2)) as H.
    change (2 ^ 54) with 18014398509481984 in *. destruct (Z.compare_spec (Wosize_val m v1) (Wosize_val m v2)); [done|..]; (apply H; [unfold iss64; lia|done]).
Qed.

(** ** One turn of the loop *)

(** What the inspection of two values leads to, by what their trees are. *)
Variant turn (n1 n2 : nat) (r : runtime) (v1 v2 : Z) (t1 t2 : tree) : verdict -> Prop :=
| turn_decides v : decides (tcompare t1 t2) v -> turn n1 n2 r v1 v2 t1 t2 v
| turn_left v : isu64 v -> tree_of n1 r v = Some t1 -> turn n1 n2 r v1 v2 t1 t2 (Other v v2)
| turn_right v : isu64 v -> tree_of n2 r v = Some t2 -> turn n1 n2 r v1 v2 t1 t2 (Other v1 v)
| turn_fields t l1 l2 : t1 = TBlock t l1 -> t2 = TBlock t l2 -> length l1 = length l2 -> l1 <> [] ->
    fields_of n1 r v1 l1 -> fields_of n2 r v2 l2 -> turn n1 n2 r v1 v2 t1 t2 (Descend (Z.of_nat (length l1))).

Lemma wosize_range m v : wfm m -> 0 <= Wosize_val m v < 2 ^ 54.
Proof.
  intros Hm. unfold Wosize_val, Wosize_hd. rewrite Z.shiftr_div_pow2 by lia. change (2 ^ 10) with 1024. change (2 ^ 54) with 18014398509481984.
  pose proof (Hm (Hp_val v)) as Hw. unfold isu64 in Hw. unfold Hd_val. change B64 with 18446744073709551616 in Hw. zlia.
Qed.

Lemma Oid_val_range m v : is63 (Oid_val m v).
Proof. apply Long_val_is63. Qed.

Lemma compare_blocks_plain m t v1 v2 : plain_tag t = true -> t ∉ [Forward_tag; Abstract_tag; Closure_tag; Infix_tag; Custom_tag] ->
  compare_blocks m t v1 v2 =
    (let sz1 := Wosize_val m v1 in
     let sz2 := Wosize_val m v2 in
     if negb (sz1 =? sz2) then Result (s64 (sz1 - sz2)) else if sz1 =? 0 then Same else Descend sz1).
Proof.
  unfold plain_tag, compare_blocks. rewrite andb_true_iff, negb_true_iff, !orb_false_iff, !not_elem_of_cons. intros [_ [[[-> ->] ->] ->]] (_ & H1 & H2 & H3 & H4 & _).
  now rewrite !(proj2 (Z.eqb_neq t _)) by done.
Qed.

(** Blocks of fields. *)
Lemma compare_fields_turn n1 n2 r v1 v2 t l1 l2 : wfm (rmem r) ->
  length l1 = Z.to_nat (Wosize_val (rmem r) v1) -> length l2 = Z.to_nat (Wosize_val (rmem r) v2) ->
  fields_of n1 r v1 l1 -> fields_of n2 r v2 l2 ->
  turn n1 n2 r v1 v2 (TBlock t l1) (TBlock t l2)
    (let sz1 := Wosize_val (rmem r) v1 in
     let sz2 := Wosize_val (rmem r) v2 in
     if negb (sz1 =? sz2) then Result (s64 (sz1 - sz2)) else if sz1 =? 0 then Same else Descend sz1).
Proof.
  intros Hm E1 E2 F1 F2. pose proof (wosize_range _ v1 Hm) as W1. pose proof (wosize_range _ v2 Hm) as W2. cbn zeta.
  change (2 ^ 54) with 18014398509481984 in *.
  destruct (Z.eqb_spec (Wosize_val (rmem r) v1) (Wosize_val (rmem r) v2)) as [E|E]; cbn [negb].
  - destruct (Z.eqb_spec (Wosize_val (rmem r) v1) 0) as [Z0|Z0].
    + apply turn_decides. destruct l1, l2; cbn [length] in *; try lia. rewrite tcompare_block, Z.compare_refl. done.
    + rewrite <- (Z2Nat.id (Wosize_val (rmem r) v1)) by lia. rewrite <- E1.
      apply (turn_fields _ _ _ _ _ _ _ t l1 l2); try done; [congruence|]. intros ->. cbn [length] in *. lia.
  - apply turn_decides. rewrite tcompare_block, Z.compare_refl. cbn [cthen]. unfold sized. rewrite E1, E2, !Z2Nat.id by lia.
    pose proof (decides_sub (Wosize_val (rmem r) v1) (Wosize_val (rmem r) v2)) as H.
    destruct (Z.compare_spec (Wosize_val (rmem r) v1) (Wosize_val (rmem r) v2)); [done|..]; (apply H; [unfold iss64; lia|done]).
Qed.

(** Blocks of the same tag. *)
Lemma compare_blocks_turn n1 n2 r v1 v2 t1 t2 : wfm (rmem r) ->
  tree_view n1 r v1 t1 -> tree_view n2 r v2 t2 -> Is_long v1 = false -> Is_long v2 = false ->
  Tag_val (rmem r) v1 <> Forward_tag -> Tag_val (rmem r) v2 = Tag_val (rmem r) v1 ->
  turn n1 n2 r v1 v2 t1 t2 (compare_blocks (rmem r) (Tag_val (rmem r) v1) v1 v2).
Proof.
  intros Hm V1 V2 L1 L2 F1 ET. pose proof (wosize_range _ v1 Hm) as W1. pose proof (wosize_range _ v2 Hm) as W2.
  change (2 ^ 54) with 18014398509481984 in *.
  destruct V1 as [?|?|? ? T1 S1|? ? T1|? ? T1|? ? T1|l1 ? ? P1 N1 Z1 Y1]; try congruence;
    destruct V2 as [?|?|? ? T2 S2|? ? T2|? ? T2|? ? T2|l2 ? ? P2 N2 Z2 Y2]; try congruence;
    rewrite ?T1, ?T2 in *; try done; try (rewrite ET in *; done); try (rewrite <- ET in P1; done).
  - apply turn_decides. unfold compare_blocks. now apply compare_strings_spec.
  - apply turn_decides. unfold compare_blocks. apply compare_doubles_spec.
  - apply turn_decides. unfold compare_blocks. cbn [Z.eqb Pos.eqb tcompare]. apply compare_double_arrays_spec; lia.
  - apply turn_decides. unfold compare_blocks. cbn [Z.eqb Pos.eqb tcompare]. cbn zeta. destruct (Z.eqb_spec (Oid_val (rmem r) v1) (Oid_val (rmem r) v2)) as [->|E]; cbn [negb].
    + now rewrite Z.compare_refl.
    + apply decides_sub; [|done]. pose proof (Oid_val_range (rmem r) v1) as R1. pose proof (Oid_val_range (rmem r) v2) as R2.
      rewrite is63_eq in *. unfold iss64. lia.
  - rewrite compare_blocks_plain by done. rewrite ET in *. now apply compare_fields_turn.
Qed.

(** A block against an integer. *)
Lemma rank_block n r v t : tree_view n r v t -> Is_long v = false -> Tag_val (rmem r) v <> Forward_tag ->
  (forall x, tcompare (TInt x) t = Lt) /\ (forall x, tcompare t (TInt x) = Gt).
Proof.
  intros Hl0 Hl Hf. pose proof (tag_range (rmem r) v). destruct Hl0; (congruence || (split; intros x; cbn [tcompare rank])); try done;
    (apply Z.compare_lt_iff; lia) || (apply Z.compare_gt_iff; lia).
Qed.

Lemma view_forward n r v t : tree_view n r v t -> Is_long v = false -> Tag_val (rmem r) v = Forward_tag ->
  tree_of n r (Forward_val (rmem r) v) = Some t.
Proof.
  intros H Hl Hf. destruct H as [| |? ? E|? ? E|? ? E|? ? E|? ? ? P N]; try congruence; try (rewrite Hf in E; done). rewrite Hf in N. destruct N. set_solver.
Qed.

Lemma compare_head_turn n1 n2 r v1 v2 t1 t2 : wfm (rmem r) -> isu64 v1 -> isu64 v2 ->
  tree_of (S n1) r v1 = Some t1 -> tree_of (S n2) r v2 = Some t2 -> turn n1 n2 r v1 v2 t1 t2 (compare_head r v1 v2).
Proof.
  intros Hm U1 U2 T1 T2. unfold compare_head. destruct (Z.eqb_spec v1 v2) as [->|Hv].
  { rewrite (tree_of_det _ _ _ _ _ _ T1 T2). apply turn_decides. now rewrite tcompare_refl. }
  pose proof (tree_of_plain _ _ _ _ T1) as P1. pose proof (tree_of_plain _ _ _ _ T2) as P2.
  apply tree_of_view in T1, T2. destruct (Is_long v1) eqn:L1, (Is_long v2) eqn:L2.
  - destruct T1; try congruence. destruct T2; try congruence. apply turn_decides. cbn [tcompare]. apply decides_sub.
    + pose proof (Long_val_is63 v1) as R1. pose proof (Long_val_is63 v2) as R2. rewrite is63_eq in *. unfold iss64. lia.
    + intros E. apply Hv. now rewrite <- (Val_long_Long_val v1), <- (Val_long_Long_val v2), E.
  - rewrite (proj1 (view_known _ _ _ _ T2 L2)). cbn [andb]. destruct (Z.eqb_spec (Tag_val (rmem r) v2) Forward_tag) as [F|F].
    + apply turn_right; [apply Hm|]. now apply (view_forward _ _ _ _ T2).
    + destruct T1; try congruence. apply turn_decides. rewrite (proj1 (rank_block _ _ _ _ T2 L2 F)). now eexists.
  - rewrite (proj1 (view_known _ _ _ _ T1 L1)). cbn [andb]. destruct (Z.eqb_spec (Tag_val (rmem r) v1) Forward_tag) as [F|F].
    + apply turn_left; [apply Hm|]. now apply (view_forward _ _ _ _ T1).
    + destruct T2; try congruence. apply turn_decides. rewrite (proj2 (rank_block _ _ _ _ T1 L1 F)). now eexists.
  - rewrite (proj1 (view_known _ _ _ _ T1 L1)), (proj1 (view_known _ _ _ _ T2 L2)). cbn [negb orb].
    destruct (Z.eqb_spec (Tag_val (rmem r) v1) Forward_tag) as [F1|F1]; [apply turn_left; [apply Hm|]; now apply (view_forward _ _ _ _ T1)|].
    destruct (Z.eqb_spec (Tag_val (rmem r) v2) Forward_tag) as [F2|F2]; [apply turn_right; [apply Hm|]; now apply (view_forward _ _ _ _ T2)|].
    destruct (Z.eqb_spec (Tag_val (rmem r) v1) (Tag_val (rmem r) v2)) as [E|E]; cbn [negb]; [now apply compare_blocks_turn|].
    apply turn_decides. pose proof (view_rank _ _ _ _ T1 L1 F1) as R1. pose proof (view_rank _ _ _ _ T2 L2 F2) as R2.
    rewrite tcompare_eqn, R1, R2 by done.
    destruct (Z.compare_spec (Tag_val (rmem r) v1) (Tag_val (rmem r) v2)); [done|..]; (eexists; split; [done|]); cbn [csgn cthen]; lia.
Qed.

(** ** The loop *)

(** Nothing but [malloc] has been called. *)
Definition after (r r' : runtime) : Prop := exists l, r' = set_malloc_answers l r.

Lemma after_refl r : after r r.
Proof. now exists (malloc_answers r). Qed.
Lemma after_trans r1 r2 r3 : after r1 r2 -> after r2 r3 -> after r1 r3.
Proof. intros [l ->] [k ->]. now exists k. Qed.
Lemma after_sym r r' : after r r' -> after r' r.
Proof. intros [l ->]. now exists (malloc_answers r). Qed.
Lemma after_view r r' : after r r' -> same_view r r'.
Proof. now intros [l ->]. Qed.
#[local] Hint Resolve after_refl after_trans : core.

Lemma tree_of_after n r r' v : after r r' -> tree_of n r' v = tree_of n r v.
Proof. intros H. now apply tree_of_same, after_view. Qed.
Lemma fields_of_after n r r' p l : after r r' -> fields_of n r p l -> fields_of n r' p l.
Proof.
  intros H Hf. unfold fields_of in *. rewrite (proj1 (after_view _ _ H)). eapply Forall2_impl; [exact Hf|].
  cbn. intros w t. now rewrite (tree_of_after _ _ _ _ H).
Qed.
Lemma after_wfm r r' : after r r' -> wfm (rmem r) -> wfm (rmem r').
Proof. now intros [l ->]. Qed.

Section Loop.
Context {C : Collector} (Fl_head : Z) (alloc_fuel : nat) (custom_compare : Z -> Z -> Z -> M Z).
Abbreviation loop := (compare_loop Fl_head alloc_fuel custom_compare).

(** [next_item:], then the loop. *)
Definition pop (fuel : nat) (size : Z) (items : list compare_item) (r : runtime) : compared :=
  match next_item (rmem r) items with
  | None => (Ok 0 r, size)
  | Some (v1, v2, items) => loop fuel v1 v2 size items r
  end.

(** The run [F] decides the order [c], and goes on with [items] when it is [Eq]; it
    may run out of memory when the stack of [size] has no [place] above [items]. *)
Definition leads (c : comparison) (place : Z) (items : list compare_item) (r : runtime) (size : Z) (F : nat -> compared) : Prop :=
  exists k r' size', after r r' /\ size <= size' /\ (Z.of_nat (length items) + place < size -> r' = r /\ size' = size) /\
  ((size <= Z.of_nat (length items) + place /\ forall fuel, F (k + fuel)%nat = compare_stack_overflow r') \/
   match c with
   | Eq => forall fuel, F (k + fuel)%nat = pop fuel size' items r'
   | _ => exists z, Z.sgn z = csgn c /\ forall fuel, F (k + fuel)%nat = (Ok z r', size')
   end).

Lemma leads_ext c place items r size F G : leads c place items r size G -> (forall fuel, F fuel = G fuel) -> leads c place items r size F.
Proof.
  intros (k & r' & size' & Ha & Hs & Hr & H) E. exists k, r', size'. splits; try done.
  destruct H as [[Hn H]|H]; [left; split; [done|]; intros; now rewrite E, H|right].
  destruct c; [intros; now rewrite E, H|..]; (destruct H as (z & Hz & H); exists z; split; [done|]; intros; now rewrite E, H).
Qed.

Lemma leads_step c place items r size F G : leads c place items r size G -> (forall fuel, F (S fuel) = G fuel) -> leads c place items r size F.
Proof.
  intros H E. apply (leads_ext _ _ _ _ _ (fun fuel => F (S fuel))) in H; [|done]. destruct H as (k & r' & size' & H). now exists (S k), r', size'.
Qed.

(** One comparison, then another when it finds no difference. *)
Lemma leads_then c d p q place items0 items r size F :
  leads c p items0 r size F ->
  Z.of_nat (length items0) + p <= Z.of_nat (length items) + place -> q <= place ->
  (forall r' size', after r r' -> size <= size' -> leads d q items r' size' (fun fuel => pop fuel size' items0 r')) ->
  leads (cthen c d) place items r size F.
Proof.
  intros (k & r' & size' & Ha & Hs & Hr & H) Hp Hq Hd.
  assert (Hend : (exists z, Z.sgn z = csgn (cthen c d) /\ cthen c d <> Eq /\ forall fuel, F (k + fuel)%nat = (Ok z r', size')) -> leads (cthen c d) place items r size F).
  { intros (z & Hz & Hne & HF). exists k, r', size'. split; [done|]. split; [done|]. split; [intros; apply Hr; lia|]. right. destruct (cthen c d); [done|..]; eauto. }
  destruct H as [[Hn H]|H].
  - exists k, r', size'. split; [done|]. split; [done|]. split; [intros; apply Hr; lia|]. left. split; [lia|done].
  - destruct c; [|destruct H as (z & Hz & H); apply Hend; cbn [cthen]; eauto..].
    clear Hend. destruct (Hd r' size' Ha Hs) as (k2 & r2 & size2 & Ha2 & Hs2 & Hr2 & H2). exists (k + k2)%nat, r2, size2.
    split; [eauto|]. split; [lia|]. split; [intros Hlt; destruct (Hr ltac:(lia)) as [-> ->]; apply Hr2; lia|]. cbn [cthen].
    assert (E : forall fuel, F (k + k2 + fuel)%nat = pop (k2 + fuel) size' items0 r') by (intros; now rewrite <- Nat.add_assoc, H).
    destruct H2 as [[Hn2 H2]|H2].
    + destruct (Z.lt_ge_cases (Z.of_nat (length items) + place) size) as [Hlt|Hge]; [destruct (Hr ltac:(lia)) as [_ ->]; lia|].
      left. split; [done|]. intros fuel. now rewrite E.
    + right. destruct d; [intros fuel; now rewrite E|..]; (destruct H2 as (z & Hz & H2); exists z; split; [done|]; intros fuel; now rewrite E).
Qed.

Lemma leads_decides c v place items r size (F : nat -> compared) : decides c v ->
  (v = Same -> forall fuel, F (S fuel) = pop fuel size items r) -> (forall z, v = Result z -> forall fuel, F (S fuel) = (Ok z r, size)) ->
  leads c place items r size F.
Proof.
  intros Hd HS HR. exists 1%nat, r, size. split; [done|]. split; [lia|]. split; [done|]. right.
  destruct c; cbn [decides] in Hd; [auto|destruct Hd as (z & Ez & Hz)..]; cbn [Nat.add]; eauto.
Qed.

(** The stack grows, or the memory is exhausted. *)
Lemma grow_for_spec sz size items r : 0 < size ->
  (exists r', after r r' /\ size <= Z.of_nat (length items) + 1 /\ grow_for sz size items r = (None, r')) \/
  (exists r' size', after r r' /\ size <= size' /\ (1 < sz -> Z.of_nat (length items) + 1 < size' \/ size <= Z.of_nat (length items)) /\ (Z.of_nat (length items) + 1 < size \/ sz <= 1 -> r' = r /\ size' = size) /\
     grow_for sz size items r = (Some size', r')).
Proof.
  intros Hs. unfold grow_for. destruct (Z.ltb_spec 1 sz); cbn [andb]; [|right; exists r, size; splits; try done; lia].
  destruct (Z.leb_spec size (Z.of_nat (length items) + 1)) as [Hle|Hgt]; [|right; exists r, size; splits; try done; lia].
  unfold compare_resize_stack. destruct (COMPARE_STACK_MAX_SIZE <=? 2 * size); [left; now exists r|].
  unfold libc_malloc. destruct (malloc_answers r) as [|a l] eqn:E; [left; now exists r|].
  destruct (a =? 0); [left|right]; exists (set_malloc_answers l r); [split; [now exists l|done]|].
  exists (2 * size). splits; try done; try lia. now exists l.
Qed.

(** Values of at most [N] levels together, in any state [malloc] leads to. *)
Definition compares (N : nat) (r : runtime) : Prop := forall n1 n2 v1 v2 t1 t2 items r' size,
  (n1 + n2 <= N)%nat -> after r r' -> 0 < size -> isu64 v1 -> isu64 v2 -> tree_of n1 r v1 = Some t1 -> tree_of n2 r v2 = Some t2 ->
  leads (tcompare t1 t2) (need t1) items r' size (fun fuel => loop fuel v1 v2 size items r').

Lemma needs_nonneg l : 0 <= needs l.
Proof. rewrite <- (need_block 0). apply need_nonneg. Qed.

(** The items left when an item of [n + 1] fields is used. *)
Definition rest (p1 p2 : Z) (n : nat) (items : list compare_item) : list compare_item :=
  match n with O => items | _ => MkItem (p1 + 8) (p2 + 8) (Z.of_nat n) :: items end.

Lemma next_item_cons m p1 p2 n items :
  next_item m (MkItem p1 p2 (Z.of_nat (S n)) :: items) = Some (ld m p1, ld m p2, rest p1 p2 n items).
Proof.
  cbn [next_item]. replace (Z.of_nat (S n) - 1) with (Z.of_nat n) by lia. destruct n; [done|]. now rewrite (proj2 (Z.eqb_neq _ _)) by lia.
Qed.

Lemma pop_cons fuel size p1 p2 n items r :
  pop fuel size (MkItem p1 p2 (Z.of_nat (S n)) :: items) r = loop fuel (ld (rmem r) p1) (ld (rmem r) p2) size (rest p1 p2 n items) r.
Proof. unfold pop. now rewrite next_item_cons. Qed.

Lemma fields_lead N r n1 n2 : wfm (rmem r) -> compares N r -> (n1 + n2 <= N)%nat -> forall l1 l2 p1 p2 items r' size,
  after r r' -> 0 < size -> length l1 = length l2 -> l1 <> [] -> fields_of n1 r p1 l1 -> fields_of n2 r p2 l2 ->
  leads (lex tcompare l1 l2) (needs l1) items r' size (fun fuel => pop fuel size (MkItem p1 p2 (Z.of_nat (length l1)) :: items) r').
Proof.
  intros Hm IH HN l1. induction l1 as [|t1 l1 IHl]; intros [|t2 l2] p1 p2 items r' size Ha Hs Hl Hne F1 F2; try done.
  unfold fields_of in F1, F2. cbn [length words] in F1, F2, Hl. inversion F1 as [|? ? ? ? T1 G1]; subst. inversion F2 as [|? ? ? ? T2 G2]; subst.
  pose proof (IH n1 n2 _ _ _ _ (rest p1 p2 (length l1) items) r' size HN Ha Hs (Hm p1) (Hm p2) T1 T2) as H1.
  apply (leads_ext _ _ _ _ _ (fun fuel => pop fuel size (MkItem p1 p2 (Z.of_nat (length (t1 :: l1))) :: items) r')) in H1.
  2: { intros fuel. cbn [length]. now rewrite pop_cons, (proj1 (after_view _ _ Ha)). }
  destruct l1 as [|t l1].
  - destruct l2; [|done]. cbn [lex needs]. now rewrite cthen_Eq.
  - cbn [lex]. apply (leads_then _ _ (need t1) (needs (t :: l1)) _ _ _ _ _ _ H1); [cbn [needs rest length]; lia|cbn [needs]; lia|].
    intros r2 size2 Ha2 Hs2. cbn [length rest]. apply IHl; try done; [now apply (after_trans _ r')|lia|now injection Hl].
Qed.

Lemma push_item_rest n v1 v2 items : push_item (Z.of_nat (S n)) v1 v2 items = rest v1 v2 n items.
Proof.
  unfold push_item, rest. destruct n as [|n]; [done|]. rewrite (proj2 (Z.ltb_lt _ _)) by lia.
  rewrite !Field_addr_eq. do 2 f_equal. lia.
Qed.

(** Two blocks of fields. *)
Lemma descend_leads N r n1 n2 v1 v2 l1 l2 items r' size F : wfm (rmem r) -> compares N r -> (n1 + n2 <= N)%nat ->
  after r r' -> 0 < size -> length l1 = length l2 -> l1 <> [] -> fields_of n1 r v1 l1 -> fields_of n2 r v2 l2 ->
  (forall fuel, F (S fuel) = match grow_for (Z.of_nat (length l1)) size items r' with
     | (None, r) => compare_stack_overflow r
     | (Some size, r) => loop fuel (Field (rmem r) v1 0) (Field (rmem r) v2 0) size (push_item (Z.of_nat (length l1)) v1 v2 items) r
     end) ->
  leads (lex tcompare l1 l2) (needs l1) items r' size F.
Proof.
  intros Hm IH HN Ha Hs Hl Hne F1 F2 HF. pose proof (needs_nonneg l1) as Hn.
  assert (Hn1 : 1 < Z.of_nat (length l1) -> 1 <= needs l1).
  { destruct l1 as [|x [|y l1]]; cbn [length needs] in *; [lia..|]. pose proof (need_nonneg x). lia. }
  destruct (grow_for_spec (Z.of_nat (length l1)) size items r' Hs) as [(r2 & Ha2 & Hle & E)|(r2 & size2 & Ha2 & Hs2 & _ & Hr2 & E)]; rewrite E in HF.
  - exists 1%nat, r2, size. split; [done|]. split; [lia|].
    assert (Hsz : ~ Z.of_nat (length l1) <= 1). { intros Hle1. unfold grow_for in E. rewrite (proj2 (Z.ltb_ge _ _)) in E by lia. done. }
    split; [lia|]. left. split; [lia|]. intros fuel. apply HF.
  - destruct (fields_lead N r n1 n2 Hm IH HN l1 l2 v1 v2 items r2 size2 ltac:(now apply (after_trans _ r')) ltac:(lia) Hl Hne F1 F2)
      as (k & r3 & size3 & Ha3 & Hs3 & Hr3 & H3).
    exists (S k), r3, size3. split; [now apply (after_trans _ r2)|]. split; [lia|].
    assert (E1 : forall fuel, F (S (k + fuel))%nat = pop (k + fuel) size2 (MkItem v1 v2 (Z.of_nat (length l1)) :: items) r2).
    { intros fuel. rewrite HF. destruct l1 as [|t l1]; [done|]. cbn [length]. rewrite pop_cons, push_item_rest.
      unfold Field. rewrite !Field_addr_eq, !Z.mul_0_r, !Z.add_0_r. done. }
    split; [intros Hlt; destruct (Hr2 ltac:(lia)) as [-> ->]; apply Hr3; lia|].
    destruct H3 as [[H3 H4]|H4]; [left|right].
    + split; [|intros; cbn [Nat.add]; now rewrite E1]. destruct (Z.lt_ge_cases (Z.of_nat (length items) + needs l1) size); [|done].
      destruct (Hr2 ltac:(lia)) as [-> ->]. lia.
    + destruct (lex tcompare l1 l2); [intros; cbn [Nat.add]; now rewrite E1|..];
        (destruct H4 as (z & Hz & H4); exists z; split; [done|]; intros; cbn [Nat.add]; now rewrite E1).
Qed.

Lemma compares_all N r : wfm (rmem r) -> compares N r.
Proof.
  intros Hm. induction N as [|N IH]; intros n1 n2 v1 v2 t1 t2 items r' size HN Ha Hs U1 U2 T1 T2; [now destruct n1|].
  destruct n1 as [|n1]; [done|]. destruct n2 as [|n2]; [done|].
  pose proof (after_wfm _ _ Ha Hm) as Hm'. pose proof (after_sym _ _ Ha) as Hb.
  assert (T1' : tree_of (S n1) r' v1 = Some t1) by now rewrite (tree_of_after _ _ _ _ Ha).
  assert (T2' : tree_of (S n2) r' v2 = Some t2) by now rewrite (tree_of_after _ _ _ _ Ha).
  pose proof (compare_head_turn n1 n2 r' v1 v2 t1 t2 Hm' U1 U2 T1' T2') as H.
  remember (compare_head r' v1 v2) as vd eqn:Ev. destruct H as [v Hd|v U T|v U T|t l1 l2 -> -> Hl Hne F1 F2].
  - apply (leads_decides _ v); [done|intros -> fuel|intros z -> fuel]; cbn [compare_loop]; now rewrite <- Ev.
  - apply (leads_step _ _ _ _ _ _ (fun fuel => loop fuel v v2 size items r')); [|intros fuel; cbn [compare_loop]; now rewrite <- Ev].
    rewrite (tree_of_after _ _ _ _ Ha) in T. eapply IH; eauto; lia.
  - apply (leads_step _ _ _ _ _ _ (fun fuel => loop fuel v1 v size items r')); [|intros fuel; cbn [compare_loop]; now rewrite <- Ev].
    rewrite (tree_of_after _ _ _ _ Ha) in T. eapply (IH (S n1) n2); eauto; lia.
  - rewrite tcompare_block, Z.compare_refl, need_block. cbn [cthen]. unfold sized. rewrite Hl, Z.compare_refl. cbn [cthen].
    apply (descend_leads N r n1 n2 v1 v2); try done; [lia|now apply (fields_of_after _ _ _ _ _ Hb)..|].
    intros fuel. cbn [compare_loop]. now rewrite <- Ev.
Qed.
End Loop.

(** ** The claims *)

Section Claims.
Context {C : Collector} (Fl_head : Z) (alloc_fuel : nat) (custom_compare : Z -> Z -> Z -> M Z).

Definition truth (b : bool) : Z := Val_int (if b then 1 else 0).

(** The primitive [f], called with a stack of the initial size, gives [v] in the state [r'], with any number of
    turns from [k] on. *)
Definition gives (f : nat -> Z -> runtime -> compared) (k : nat) (r : runtime) (v : Z) (r' : runtime) : Prop :=
  forall fuel, f (k + fuel)%nat COMPARE_STACK_INIT_SIZE r = (Ok v r', COMPARE_STACK_INIT_SIZE).
(** It raises [Out_of_memory] there. *)
Definition exhausts (f : nat -> Z -> runtime -> compared) (k : nat) (r r' : runtime) : Prop :=
  forall fuel, f (k + fuel)%nat COMPARE_STACK_INIT_SIZE r = (raise_out_of_memory r', COMPARE_STACK_INIT_SIZE).

Lemma compare_val_spec n1 n2 r v1 v2 t1 t2 :
  wfm (rmem r) -> isu64 v1 -> isu64 v2 -> tree_of n1 r v1 = Some t1 -> tree_of n2 r v2 = Some t2 ->
  exists k r', after r r' /\ (need t1 < COMPARE_STACK_INIT_SIZE -> r' = r) /\
   ((COMPARE_STACK_INIT_SIZE <= need t1 /\ exhausts (fun fuel => compare_val Fl_head alloc_fuel custom_compare fuel v1 v2) k r r') \/
    exists z size', Z.sgn z = csgn (tcompare t1 t2) /\
      forall fuel, compare_val Fl_head alloc_fuel custom_compare (k + fuel) v1 v2 COMPARE_STACK_INIT_SIZE r = (Ok z r', size')).
Proof.
  intros Hm U1 U2 T1 T2.
  destruct (compares_all Fl_head alloc_fuel custom_compare (n1 + n2) r Hm n1 n2 v1 v2 t1 t2 [] r COMPARE_STACK_INIT_SIZE (le_n _) (after_refl r) eq_refl U1 U2 T1 T2)
    as (k & r' & size' & Ha & Hs & Hr & H).
  cbn [length] in *. exists k, r'. split; [done|]. split; [intros Hn; now apply Hr|].
  destruct H as [[Hn H]|H]; [left; split; [done|]; exact H|right].
  destruct (tcompare t1 t2); [exists 0, size'; split; [done|]; intros fuel; unfold compare_val; now rewrite H|..];
    (destruct H as (z & Hz & H); now exists z, size').
Qed.

Lemma raise_out_of_memory_fails (T : Type) r : (exists r', @raise_out_of_memory T r = Exn r') \/ exists msg, @raise_out_of_memory T r = Fatal msg.
Proof. unfold raise_out_of_memory, mlraise. destruct (_ =? 0); [right; eauto|]. destruct (_ =? 0); [right|left]; eauto. Qed.

(** The seven primitives. *)
Definition ordered_as (c : comparison) (k : nat) (v1 v2 : Z) (r r' : runtime) : Prop :=
  gives (fun fuel => compare Fl_head alloc_fuel custom_compare fuel v1 v2) k r (Val_int (csgn c)) r' /\
  gives (fun fuel => equal Fl_head alloc_fuel custom_compare fuel v1 v2) k r (truth (match c with Eq => true | _ => false end)) r' /\
  gives (fun fuel => notequal Fl_head alloc_fuel custom_compare fuel v1 v2) k r (truth (match c with Eq => false | _ => true end)) r' /\
  gives (fun fuel => lessthan Fl_head alloc_fuel custom_compare fuel v1 v2) k r (truth (match c with Lt => true | _ => false end)) r' /\
  gives (fun fuel => lessequal Fl_head alloc_fuel custom_compare fuel v1 v2) k r (truth (match c with Gt => false | _ => true end)) r' /\
  gives (fun fuel => greaterthan Fl_head alloc_fuel custom_compare fuel v1 v2) k r (truth (match c with Gt => true | _ => false end)) r' /\
  gives (fun fuel => greaterequal Fl_head alloc_fuel custom_compare fuel v1 v2) k r (truth (match c with Lt => false | _ => true end)) r'.

Lemma finish_sgn (f : Z -> Z) z c r' size : Z.sgn z = csgn c -> (forall y, Z.sgn y = Z.sgn z -> f y = f z) ->
  finish f (Ok z r', size) = (Ok (f (csgn c)) r', COMPARE_STACK_INIT_SIZE).
Proof. intros Hz Hf. unfold finish. do 2 f_equal. symmetry. apply Hf. rewrite Hz. now destruct c. Qed.

Lemma compare_ordered n1 n2 r v1 v2 t1 t2 :
  wfm (rmem r) -> isu64 v1 -> isu64 v2 -> tree_of n1 r v1 = Some t1 -> tree_of n2 r v2 = Some t2 ->
  exists k r', after r r' /\ (need t1 < COMPARE_STACK_INIT_SIZE -> r' = r) /\
    (ordered_as (tcompare t1 t2) k v1 v2 r r' \/
     COMPARE_STACK_INIT_SIZE <= need t1 /\ exhausts (fun fuel => compare Fl_head alloc_fuel custom_compare fuel v1 v2) k r r').
Proof.
  intros Hm U1 U2 T1 T2. destruct (compare_val_spec n1 n2 r v1 v2 t1 t2 Hm U1 U2 T1 T2) as (k & r' & Ha & Hr & H).
  exists k, r'. split; [done|]. split; [done|]. destruct H as [[Hn H]|(z & size' & Hz & H)].
  - right. split; [done|]. intros fuel. unfold compare. rewrite H. unfold finish. now destruct (raise_out_of_memory_fails Z r') as [[? ->]|[? ->]].
  - left. unfold ordered_as, gives. split; [|split; [|split; [|split; [|split; [|split]]]]]; intros fuel;
      unfold compare, equal, notequal, lessthan, lessequal, greaterthan, greaterequal; rewrite H;
      (rewrite (finish_sgn _ _ _ _ _ Hz); [now destruct (tcompare t1 t2)|intros y Hy; zcases; try done; lia]).
Qed.

(** C27: structural comparison ends on values that denote finite trees, and each of the seven
    primitives gives the order of the trees: integers before blocks, blocks by tag, size and
    contents, forwarding blocks as the values they forward to.  The state of the runtime
    does not change, unless the left tree needs a larger stack, which [malloc] may refuse. *)
Theorem compare_correct n1 n2 r v1 v2 t1 t2 :
  wfm (rmem r) -> isu64 v1 -> isu64 v2 -> tree_of n1 r v1 = Some t1 -> tree_of n2 r v2 = Some t2 ->
  exists k r', after r r' /\ (need t1 < COMPARE_STACK_INIT_SIZE -> r' = r) /\
    (ordered_as (tcompare t1 t2) k v1 v2 r r' \/
     COMPARE_STACK_INIT_SIZE <= need t1 /\ exhausts (fun fuel => compare Fl_head alloc_fuel custom_compare fuel v1 v2) k r r').
Proof. apply compare_ordered. Qed.

(** What [compare] gives for two values. *)
Definition compares_as (r : runtime) (v1 v2 : Z) (c : comparison) : Prop :=
  exists k, gives (fun fuel => compare Fl_head alloc_fuel custom_compare fuel v1 v2) k r (Val_int (csgn c)) r.

Lemma compares_tree n1 n2 r v1 v2 t1 t2 :
  wfm (rmem r) -> isu64 v1 -> isu64 v2 -> tree_of n1 r v1 = Some t1 -> tree_of n2 r v2 = Some t2 -> need t1 < COMPARE_STACK_INIT_SIZE ->
  compares_as r v1 v2 (tcompare t1 t2).
Proof.
  intros Hm U1 U2 T1 T2 Hn. destruct (compare_ordered n1 n2 r v1 v2 t1 t2 Hm U1 U2 T1 T2) as (k & r' & Ha & Hr & [H|[Hge _]]); [|lia].
  rewrite (Hr Hn) in H. exists k. apply H.
Qed.

Lemma compares_as_fun r v1 v2 c d : compares_as r v1 v2 c -> compares_as r v1 v2 d -> c = d.
Proof.
  intros [k H] [j H']. specialize (H j). specialize (H' k). rewrite Nat.add_comm, H in H'. injection H'. now destruct c, d.
Qed.

(** C28: [compare] is an order on the values whose trees have no NaN: comparing the other
    way round gives the opposite, it is transitive, and the values it finds equal are those of
    the same tree (up to the sign of zeros).  Their trees need fewer than 256 entries of
    the comparison stack ([need]). *)
Theorem compare_order n r v1 v2 v3 t1 t2 t3 :
  wfm (rmem r) -> isu64 v1 -> isu64 v2 -> isu64 v3 ->
  tree_of n r v1 = Some t1 -> tree_of n r v2 = Some t2 -> tree_of n r v3 = Some t3 ->
  nan_free t1 = true -> nan_free t2 = true -> nan_free t3 = true ->
  need t1 < COMPARE_STACK_INIT_SIZE -> need t2 < COMPARE_STACK_INIT_SIZE ->
  exists c12 c23 c13,
    compares_as r v1 v2 c12 /\ compares_as r v2 v3 c23 /\ compares_as r v1 v3 c13 /\
    compares_as r v2 v1 (CompOpp c12) /\ compares_as r v1 v1 Eq /\ chain c12 c23 c13 /\ (c12 = Eq <-> canon t1 = canon t2).
Proof.
  intros Hm U1 U2 U3 T1 T2 T3 N1 N2 N3 D1 D2.
  pose proof (tree_of_plain _ _ _ _ T1) as P1. pose proof (tree_of_plain _ _ _ _ T2) as P2. pose proof (tree_of_plain _ _ _ _ T3) as P3.
  exists (tcompare t1 t2), (tcompare t2 t3), (tcompare t1 t3).
  rewrite <- (tcompare_opp t1 t2), <- (tcompare_refl t1) at 1. splits; try (now apply (compares_tree n n)).
  - now apply tcompare_chain.
  - now apply tcompare_eq.
Qed.
End Claims.

(** ** Witnesses *)

(** Two pairs, of a number and a string, and a number forwarded to. *)
Definition compare_demo : runtime :=
  set_rmem (foldr (fun '(a, x) m => st m a x) ∅
    [(19992, Make_header 2 0 Caml_white); (20000, Val_long 1); (20008, 20080);
     (20072, Make_header 1 String_tag Caml_white); (20080, 98 + 6 * 2 ^ 56);
     (20104, Make_header 2 0 Caml_white); (20112, 20176); (20120, 20144);
     (20136, Make_header 1 String_tag Caml_white); (20144, 97 + 6 * 2 ^ 56);
     (20168, Make_header 1 Forward_tag Caml_white); (20176, Val_long 1);
     (20192, Make_header 1 Double_tag Caml_white); (20200, 2 ^ 63)]) str_demo.

Lemma compare_demo_wfm : wfm (rmem compare_demo).
Proof.
  unfold compare_demo. rsimp. cbn [foldr]. repeat apply wfm_st; try apply wfm_empty; split; vm_compute; (discriminate || reflexivity).
Qed.

Lemma compare_demo_trees :
  tree_of 3 compare_demo 20000 = Some (TBlock 0 [TInt 1; TString [98]]) /\
  tree_of 3 compare_demo 20112 = Some (TBlock 0 [TInt 1; TString [97]]) /\
  tree_of 3 compare_demo 20200 = Some (TDouble (2 ^ 63)).
Proof. vm_compute. done. Qed.

Lemma isu64_dec x : (0 <=? x) && (x <? B64) = true -> isu64 x.
Proof. rewrite andb_true_iff, Z.leb_le, Z.ltb_lt. done. Qed.

Lemma compare_correct_witness :
  exists k r', after compare_demo r' /\ (need (TBlock 0 [TInt 1; TString [98]]) < COMPARE_STACK_INIT_SIZE -> r' = compare_demo) /\
    (ordered_as (C := reset_collector) 0 0 (fun _ _ _ => ret 0) Gt k 20000 20112 compare_demo r' \/
     COMPARE_STACK_INIT_SIZE <= need (TBlock 0 [TInt 1; TString [98]]) /\
     exhausts (fun fuel => compare (C := reset_collector) 0 0 (fun _ _ _ => ret 0) fuel 20000 20112) k compare_demo r').
Proof.
  destruct compare_demo_trees as (T1 & T2 & _).
  exact (compare_correct (C := reset_collector) 0 0 (fun _ _ _ => ret 0) 3 3 compare_demo 20000 20112 _ _ compare_demo_wfm
    (isu64_dec 20000 eq_refl) (isu64_dec 20112 eq_refl) T1 T2).
Defined.

Lemma compare_order_witness :
  exists c12 c23 c13,
    compares_as (C := reset_collector) 0 0 (fun _ _ _ => ret 0) compare_demo 20000 20112 c12 /\
    compares_as (C := reset_collector) 0 0 (fun _ _ _ => ret 0) compare_demo 20112 20200 c23 /\ chain c12 c23 c13.
Proof.
  destruct compare_demo_trees as (T1 & T2 & T3).
  destruct (compare_order (C := reset_collector) 0 0 (fun _ _ _ => ret 0) 3 compare_demo 20000 20112 20200 _ _ _ compare_demo_wfm
    (isu64_dec 20000 eq_refl) (isu64_dec 20112 eq_refl) (isu64_dec 20200 eq_refl) T1 T2 T3 eq_refl eq_refl eq_refl eq_refl eq_refl)
    as (c12 & c23 & c13 & H1 & H2 & _ & _ & _ & H3 & _).
  exists c12, c23, c13. exact (conj H1 (conj H2 H3)).
Defined.
