(* ===== verification/Hash.v ===== *)
(** * The generic hashing primitive

    Models [byterun/hash.c]: a traversal of a value that meets at most
    [hash_univ_count] meaningful blocks and integers among [hash_univ_limit] values.
    On a value that denotes a tree it computes a function of the tree; the hash
    functions of custom blocks are code the heap does not hold: a parameter. *)

From S2P Require Import Runtime Freelist Bytes Memory Fail Heap Roots Alloc Str Trees Compare.

(** The static variables. *)
Record hasher := MkHash { hash_accu : Z; hash_univ_limit : Z; hash_univ_count : Z }.

Definition Alpha : Z := 65599.
Definition Beta : Z := 19.
Definition Combine (new : Z) (h : hasher) : hasher :=
  MkHash (u64 (hash_accu h * Alpha + u64 new)) (hash_univ_limit h) (hash_univ_count h).
Definition Combine_small (h : hasher) (new : Z) : hasher :=
  MkHash (u64 (hash_accu h * Beta + new)) (hash_univ_limit h) (hash_univ_count h).
Definition dec_limit (h : hasher) : hasher := MkHash (hash_accu h) (s64 (hash_univ_limit h - 1)) (hash_univ_count h).
Definition dec_count (h : hasher) : hasher := MkHash (hash_accu h) (hash_univ_limit h) (s64 (hash_univ_count h - 1)).

(** [for (p = p; i > 0; i--, p++) Combine_small ( *p );] *)
Fixpoint hash_bytes (i : nat) (p : Z) (m : mem) (h : hasher) : hasher :=
  match i with O => h | S i => hash_bytes i (p + 1) m (Combine_small h (ldb m p)) end.

(** [for (j = j; j < Bosize_val (obj); j += sizeof (double))], [n] turns. *)
Fixpoint hash_doubles (n : nat) (j obj : Z) (m : mem) (h : hasher) : hasher :=
  match n with O => h | S n => hash_doubles n (j + 8) obj m (hash_bytes 8 (obj + j) m h) end.

(** [while (i != 0) { i--; hash_aux (Field (obj, i)); }] *)
Fixpoint hash_fields (aux : Z -> hasher -> option hasher) (i : nat) (obj : Z) (m : mem) (h : hasher) : option hasher :=
  match i with
  | O => Some h
  | S i => match aux (Field m obj (Z.of_nat i)) h with Some h => hash_fields aux i obj m h | None => None end
  end.

Section Hash.
(** [Custom_ops_val (obj)->hash (obj)], of the function at an address. *)
Context (custom_hash : runtime -> Z -> Z -> Z).

(** [hash_aux] from the label [again] on; [None] when the turns do not suffice. *)
Fixpoint hash_again (fuel : nat) (r : runtime) (obj : Z) (h : hasher) : option hasher :=
  match fuel with
  | O => None
  | S fuel =>
      let m := rmem r in
      let hash_aux obj h :=
        let h := dec_limit h in
        if (hash_univ_count h <? 0) || (hash_univ_limit h <? 0) then Some h else hash_again fuel r obj h in
      if Is_long obj then Some (Combine (Long_val obj) (dec_count h))
      else if known r obj then
        let tag := Tag_val m obj in
        if tag =? String_tag then Some (hash_bytes (Z.to_nat (string_length m obj)) obj m (dec_count h))
        else if tag =? Double_tag then Some (hash_bytes 8 obj m (dec_count h))
        else if tag =? Double_array_tag then Some (hash_doubles (Z.to_nat (Bosize_val m obj / 8)) 0 obj m (dec_count h))
        else if tag =? Abstract_tag then Some h
        else if tag =? Infix_tag then hash_aux (obj - Infix_offset_val m obj) h
        else if tag =? Forward_tag then hash_again fuel r (Forward_val m obj) h
        else if tag =? Object_tag then Some (Combine (Oid_val m obj) (dec_count h))
        else if tag =? Custom_tag then
          let f := ld m (Field m obj 0 + 24) in
          Some (if f =? 0 then h else Combine (custom_hash r f obj) (dec_count h))
        else hash_fields hash_aux (Z.to_nat (Wosize_val m obj)) obj m (Combine_small (dec_count h) tag)
      else Some (Combine obj h)
  end.

Definition hash_aux (fuel : nat) (r : runtime) (obj : Z) (h : hasher) : option hasher :=
  let h := dec_limit h in
  if (hash_univ_count h <? 0) || (hash_univ_limit h <? 0) then Some h else hash_again fuel r obj h.

Definition hash_univ_param (fuel : nat) (r : runtime) (count limit obj : Z) : option Z :=
  match hash_aux fuel r obj (MkHash 0 (Long_val limit) (Long_val count)) with
  | Some h => Some (Val_long (Z.land (hash_accu h) 0x3FFFFFFF))
  | None => None
  end.
End Hash.

(** [for (accu = accu; *tag != 0; tag++)], on the characters of a C string. *)
Fixpoint hash_chars (tag : list Z) (accu : Z) : Z :=
  match tag with [] => accu | c :: tag => hash_chars tag (Val_int (s32 (223 * Int_val accu + c))) end.
Definition hash_variant (tag : list Z) : Z :=
  let accu := hash_chars tag (Val_int 0) in
  u64 (s32 (Z.land accu (Val_long 0x7FFFFFFF))).

(** [hash_variant] of [typing/btype.ml], the compiler's. *)
Definition btype_hash_variant (s : list Z) : Z :=
  let accu := foldl (fun accu c => wrap63 (223 * accu + c)) 0 s in
  let accu := Z.land accu (2 ^ 31 - 1) in
  if 0x3FFFFFFF <? accu then accu - 2 ^ 31 else accu.

(** ** The hash of a tree *)

(** The bytes of a double, the least significant first. *)
Definition double_bytes (x : Z) : list Z := map (fun i => Z.land (Z.shiftr x (8 * i)) 255) [0; 1; 2; 3; 4; 5; 6; 7].

(** A value among those that are met. *)
Definition visit (f : hasher -> hasher) (h : hasher) : hasher :=
  let h := dec_limit h in if (hash_univ_count h <? 0) || (hash_univ_limit h <? 0) then h else f h.

Fixpoint tree_hash (t : tree) (h : hasher) : hasher :=
  match t with
  | TInt n => Combine n (dec_count h)
  | TString s => foldl Combine_small (dec_count h) s
  | TDouble x => foldl Combine_small (dec_count h) (double_bytes x)
  | TDoubles l => foldl Combine_small (dec_count h) (concat (map double_bytes l))
  | TObject i => Combine i (dec_count h)
  | TBlock t l => foldr (fun t => visit (tree_hash t)) (Combine_small (dec_count h) t) l
  end.

(** What [hash_univ_param] computes for a tree. *)
Definition hash_of_tree (count limit : Z) (t : tree) : Z :=
  Z.land (hash_accu (visit (tree_hash t) (MkHash 0 limit count))) 0x3FFFFFFF.

Lemma hash_bytes_fold m n : forall p h, hash_bytes n p m h = foldl Combine_small h (bytes m p n).
Proof. induction n as [|n IH]; intros p h; cbn [hash_bytes bytes foldl]; [done|]. apply IH. Qed.

Lemma bytes_double m p : p mod 8 = 0 -> bytes m p 8 = double_bytes (ld m p).
Proof.
  intros Hp. cbn [bytes double_bytes map]. rewrite <- !Z.add_assoc. cbn [Z.add Pos.add Pos.succ Pos.add_carry].
  rewrite <- (Z.add_0_r p) at 1. now rewrite !ldb_word by (done || lia).
Qed.

Lemma hash_doubles_fold m obj n : forall j h, (obj + j) mod 8 = 0 ->
  hash_doubles n j obj m h = foldl Combine_small h (concat (map double_bytes (words m (obj + j) n))).
Proof.
  induction n as [|n IH]; intros j h Hj; cbn [hash_doubles words map concat foldl]; [done|].
  rewrite hash_bytes_fold, bytes_double, foldl_app, IH by (done || zlia). now replace (obj + (j + 8)) with (obj + j + 8) by lia.
Qed.

Section HashTree.
Context (custom_hash : runtime -> Z -> Z -> Z).

(** The fields, the last one first. *)
Lemma hash_fields_fold aux r obj n m l : rmem r = m -> fields_of n r obj l ->
  (forall w t h, tree_of n r w = Some t -> aux w h = Some (visit (tree_hash t) h)) ->
  forall h, hash_fields aux (length l) obj m h = Some (foldr (fun t => visit (tree_hash t)) h l).
Proof.
  intros <- Hf Ha. unfold fields_of in Hf. induction l as [|t l IH] using rev_ind; intros h; [done|].
  rewrite length_app, Nat.add_comm. cbn [length Nat.add hash_fields]. rewrite length_app, Nat.add_comm in Hf. cbn [length Nat.add] in Hf.
  rewrite words_S in Hf. apply Forall2_app_inv in Hf as [Hf Ht]; [|now rewrite length_words]. inversion Ht as [|? ? ? ? Hw _]; subst.
  unfold Field. rewrite Field_addr_eq, (Ha _ _ h Hw), (IH Hf), foldr_app. done.
Qed.

Lemma hash_again_tree n r : forall v t h, tree_of n r v = Some t -> hash_again custom_hash n r v h = Some (tree_hash t h).
Proof.
  induction n as [|n IH]; intros v t h Ht; [done|]. apply tree_of_view in Ht. cbn [hash_again].
  destruct (Is_long v) eqn:El; [destruct Ht; congruence || done|]. destruct (view_known _ _ _ _ Ht El) as [Hk Ha]. rewrite Hk.
  destruct Ht as [?|t ? ? T Ht|? ? T Hs|? ? T|? ? T|? ? T|l ? ? Tp Tn Hl Hf]; try congruence; try rewrite T; cbn [tree_hash].
  - now apply IH.
  - f_equal. cbn [Z.eqb Pos.eqb]. now rewrite hash_bytes_fold, (proj1 (string_shape_size _ _ Hs)).
  - f_equal. cbn [Z.eqb Pos.eqb]. now rewrite hash_bytes_fold, bytes_double.
  - f_equal. cbn [Z.eqb Pos.eqb]. rewrite hash_doubles_fold, Z.add_0_r by now rewrite Z.add_0_r.
    unfold Bosize_val, Bsize_wsize, sizeof_value. now rewrite Z.div_mul by lia.
  - done.
  - unfold plain_tag in Tp. rewrite andb_true_iff, negb_true_iff, !orb_false_iff in Tp. destruct Tp as [_ [[[E1 E2] E3] E4]].
    rewrite !not_elem_of_cons in Tn. destruct Tn as (N1 & N2 & N3 & N4 & N5 & _). rewrite E1, E2, E3, E4, !(proj2 (Z.eqb_neq (Tag_val _ _) _)) by done.
    rewrite <- Hl. apply (hash_fields_fold _ r v n); [done|done|].
    intros w t h' Hw. unfold visit. cbn zeta. destruct (_ || _); [done|]. now apply IH.
Qed.

Lemma hash_aux_tree n r v t h : tree_of n r v = Some t -> hash_aux custom_hash n r v h = Some (visit (tree_hash t) h).
Proof. intros Ht. unfold hash_aux, visit. cbn zeta. destruct (_ || _); [done|]. now apply hash_again_tree. Qed.

Lemma hash_univ_param_tree n r count limit v t : tree_of n r v = Some t ->
  hash_univ_param custom_hash n r count limit v = Some (Val_long (hash_of_tree (Long_val count) (Long_val limit) t)).
Proof. intros Ht. unfold hash_univ_param. now rewrite (hash_aux_tree n r v t _ Ht). Qed.
End HashTree.

Fixpoint double_free (t : tree) : bool :=
  match t with
  | TDouble _ | TDoubles _ => false
  | TBlock _ l => forallb double_free l
  | _ => true
  end.

Lemma double_free_nan t : double_free t = true -> nan_free t = true.
Proof.
  induction t as [| | | | |t l IH] using tree_induction; cbn [double_free nan_free]; try done.
  rewrite !forallb_Forall_iff, !Forall_forall in *. eauto.
Qed.

Lemma canon_double_free t : double_free t = true -> canon t = t.
Proof.
  induction t as [| | | | |t l IH] using tree_induction; cbn [double_free canon]; try done.
  rewrite forallb_Forall_iff, !Forall_forall in *. intros H. f_equal. rewrite <- (map_id l) at 2. apply map_ext_in.
  intros x Hx. apply list_elem_of_In in Hx. auto.
Qed.

Lemma canon_double_free_inv t : forall u, canon u = canon t -> double_free t = true -> u = t.
Proof.
  induction t as [| | | | |t l IH] using tree_induction; intros [| | | | |u k]; cbn [double_free canon]; try done.
  intros [= -> E] H. f_equal. rewrite forallb_Forall_iff, !Forall_forall in *. revert k E. induction l as [|x l IHl]; intros [|y k] E; try done.
  injection E as E1 E2. f_equal; [apply IH; [apply list_elem_of_here|done|apply H; apply list_elem_of_here]|].
  apply IHl; [intros z Hz; apply IH; now apply list_elem_of_further|intros z Hz; apply H; now apply list_elem_of_further|done].
Qed.

(** ** The claims *)

(** C29: the generic hash of a value that denotes a tree is a function of the tree, and values
    without doubles that [compare] finds equal have the same hash, whatever the limits.
    (The comparison fits the initial stack; [0.0] and [-0.0] are equal and hash
    differently.) *)
Theorem hash_correct {C : Collector} Fl_head alloc_fuel custom_compare custom_hash n r v1 v2 t1 t2 count limit :
  wfm (rmem r) -> isu64 v1 -> isu64 v2 -> tree_of n r v1 = Some t1 -> tree_of n r v2 = Some t2 ->
  need t1 < COMPARE_STACK_INIT_SIZE ->
  exists x, 0 <= x < 2 ^ 30 /\ hash_univ_param custom_hash n r count limit v1 = Some (Val_long x) /\
    x = hash_of_tree (Long_val count) (Long_val limit) t1 /\
    (double_free t1 = true -> nan_free t2 = true -> compares_as Fl_head alloc_fuel custom_compare r v1 v2 Eq ->
      hash_univ_param custom_hash n r count limit v2 = Some (Val_long x)).
Proof.
  intros Hm U1 U2 T1 T2 Hn. exists (hash_of_tree (Long_val count) (Long_val limit) t1).
  split; [|split; [now apply hash_univ_param_tree|split; [done|]]].
  - unfold hash_of_tree. change 0x3FFFFFFF with (Z.ones 30). rewrite Z.land_ones by lia. now apply Z.mod_pos_bound.
  - intros D1 N2 Heq. rewrite (hash_univ_param_tree _ _ _ _ _ _ _ T2). do 3 f_equal.
    assert (Ec : tcompare t1 t2 = Eq).
    { apply (compares_as_fun Fl_head alloc_fuel custom_compare r v1 v2); [|done]. now apply (compares_tree Fl_head alloc_fuel custom_compare n n). }
    apply tcompare_eq in Ec; [|split; [now apply (tree_of_plain n r v1)|now apply double_free_nan]|split; [now apply (tree_of_plain n r v2)|done]].
    now apply canon_double_free_inv.
Qed.

Lemma hash_chars_spec l : forall s a k, iss32 s -> a = s + k * B32 ->
  exists s' k', iss32 s' /\ hash_chars l (Val_int s) = Val_int s' /\ foldl (fun accu c => wrap63 (223 * accu + c)) a l = s' + k' * B32.
Proof.
  induction l as [|c l IH]; intros s a k Hs Ha; cbn [hash_chars foldl]; [eauto|].
  assert (Hi : Int_val (Val_int s) = s).
  { unfold Int_val, Val_int. rewrite Long_val_Val_long, wrap63_eq. unfold iss32, s32 in *. zlia. }
  rewrite Hi. destruct (IH (s32 (223 * s + c)) (wrap63 (223 * a + c)) ((wrap63 (223 * a + c) - s32 (223 * s + c)) / B32)) as (s' & k' & H);
    [apply s32_range| |now exists s', k'].
  subst a. rewrite wrap63_eq. unfold s32. zlia.
Qed.

(** The hash of the name of a polymorphic variant is the one the compiler computes. *)
Theorem hash_variant_correct s : hash_variant s = Val_long (btype_hash_variant s).
Proof.
  destruct (hash_chars_spec s 0 0 0) as (x & k & Hx & E1 & E2); [unfold iss32; lia|done|].
  unfold hash_variant, btype_hash_variant. cbn zeta. rewrite E1, E2.
  change (Val_long 0x7FFFFFFF) with (Z.ones 32). change (2 ^ 31 - 1) with (Z.ones 31). rewrite !Z.land_ones by lia.
  change (2 ^ 31) with 2147483648. change (2 ^ 32) with 4294967296. unfold Val_int. rewrite !Val_long_eq.
  unfold iss32, u64, s32 in *. destruct (Z.ltb_spec 0x3FFFFFFF ((x + k * B32) mod 2147483648)); zlia.
Qed.

(** The two zeros compare equal and have different hashes. *)
Definition zeros_demo : runtime :=
  set_rmem (foldr (fun '(a, x) m => st m a x) ∅
    [(20192, Make_header 1 Double_tag Caml_white); (20200, 2 ^ 63); (20208, Make_header 1 Double_tag Caml_white); (20216, 0)]) str_demo.

Theorem zeros_hash_differently :
  fst (compare (C := reset_collector) 0 0 (fun _ _ _ => ret 0) 2 20200 20216 COMPARE_STACK_INIT_SIZE zeros_demo) = Ok (Val_int 0) zeros_demo /\
  hash_univ_param (fun _ _ _ => 0) 1 zeros_demo (Val_long 10) (Val_long 100) 20200 = Some (Val_long 128) /\
  hash_univ_param (fun _ _ _ => 0) 1 zeros_demo (Val_long 10) (Val_long 100) 20216 = Some (Val_long 0).
Proof. vm_compute. done. Qed.

(** ** Witness *)

Lemma hash_correct_witness :
  exists x, 0 <= x < 2 ^ 30 /\ hash_univ_param (fun _ _ _ => 0) 3 compare_demo (Val_long 10) (Val_long 100) 20000 = Some (Val_long x).
Proof.
  destruct compare_demo_trees as (T1 & T2 & _).
  destruct (hash_correct (C := reset_collector) 0 0 (fun _ _ _ => ret 0) (fun _ _ _ => 0) 3 compare_demo 20000 20112 _ _ (Val_long 10) (Val_long 100)
    compare_demo_wfm (isu64_dec 20000 eq_refl) (isu64_dec 20112 eq_refl) T1 T2 eq_refl) as (x & H1 & H2 & _).
  exists x. exact (conj H1 H2).
Defined.
