(* ===== verification/Minor.v ===== *)
(** * The minor collector

    Models [oldify_one], [oldify_mopup] and [empty_minor_heap] of
    [byterun/minor_gc.c], [oldify_local_roots] of [byterun/roots.c] and the parts of
    [byterun/finalise.c] they call.  The collector copies the blocks of the minor
    heap the roots lead to into the major heap.  A copied block is marked by the
    header [0] and its first field points to the copy; the blocks whose fields are
    still to be copied form a list threaded through the second field of the
    copies.

    The allocator of the major heap is reached through an interface, which the last
    section implements with [alloc_shr].  The correctness theorem says that the
    state after the collection is the image of the state before by a map from the
    blocks copied to their copies. *)

From S2P Require Import Runtime Freelist Memory Fail Heap GlobRoots Finalise Roots.

(** ** The allocator of the major heap *)

(** [major_inv U r]: the heap of [r] is well formed, and the allocator neither
    touches nor hands out the words of [U]; [major_max] is the largest block asked
    for. *)
Class MajorAlloc := {
  major_alloc : Z -> Z -> M Z;
  major_inv : (Z -> Prop) -> runtime -> Prop;
  major_max : Z
}.

(** The words of the block [v] of [n] fields, header included. *)
Definition block_words (v n a : Z) : Prop := v - 8 <= a < v + 8 * n.

Definition oom_msg : string := "Fatal error: out of memory.".

(** The first [n] answers of [malloc] are blocks. *)
Definition malloc_gives (n : nat) (answers : list Z) : Prop :=
  forall i, (i < n)%nat -> exists raw, answers !! i = Some raw /\ raw <> 0.

(** What the allocator promises: a new block, for which [malloc] was asked three times
    at most, or the end of the program when one of these requests was refused. *)
Definition allocated {A : MajorAlloc} (U : Z -> Prop) (sz tag : Z) (r : runtime) (x : res Z) : Prop :=
  match x with
  | Ok v r' =>
      Is_block v = true /\ 8 <= v /\ v + 8 * sz <= B64 /\
      (forall a, block_words v sz a -> ~ U a) /\
      (forall a, U a -> ld (rmem r') a = ld (rmem r) a) /\
      Wosize_val (rmem r') v = sz /\ Tag_val (rmem r') v = tag /\
      mnr r' = mnr r /\ stk r' = stk r /\ local_roots (glb r') = local_roots (glb r) /\
      major_inv (fun a => U a \/ block_words v sz a) r' /\ spent 3 r r'
  | Exn _ => False
  | Fatal msg => msg = oom_msg /\ ~ malloc_gives 3 (malloc_answers r)
  end.

Class MajorAllocOk (A : MajorAlloc) : Prop := {
  major_alloc_ok U sz tag r :
    major_inv U r -> in_minor_collection (mnr r) = true -> 1 <= sz <= major_max -> 0 <= tag < 256 ->
    allocated U sz tag r (major_alloc sz tag r);
  major_inv_st U a x r : major_inv U r -> U a -> major_inv U (set_rmem (st (rmem r) a x) r);
  major_inv_mnr U g r : major_inv U r -> major_inv U (set_mnr g r);
  major_inv_equiv U U' r : (forall a, U a <-> U' a) -> major_inv U r -> major_inv U' r
}.

(** ** Copying *)

(** [for (i = i; i < i + n; i++) Field (dst, i) = Field (src, i);] *)
Fixpoint copy_fields (n : nat) (i src dst : Z) (m : mem) : mem :=
  match n with
  | O => m
  | S n => copy_fields n (i + 1) src dst (set_Field m dst i (Field m src i))
  end.

Section Oldify.
Context {A : MajorAlloc}.

(** The word at [p] *)
Definition set_slot (p x : Z) (r : runtime) : runtime := set_rmem (st (rmem r) p x) r.
(** The forward flag and the forward pointer. *)
Definition set_forward (v result : Z) (r : runtime) : runtime :=
  set_rmem (set_Field (st (rmem r) (Hp_val v) 0) v 0 result) r.

(** The iterations of [tail_call] are bounded by [fuel]. *)
Fixpoint oldify_one (fuel : nat) (v p : Z) (r : runtime) : res unit :=
  match fuel with
  | O => Fatal "the chain of blocks is longer than the bound"
  | S fuel =>
      if Is_block v && Is_young (mnr r) v then
        let hd := Hd_val (rmem r) v in
        if hd =? 0 then Ok tt (set_slot p (Field (rmem r) v 0) r)
        else
          let tag := Tag_hd hd in
          if tag <? Infix_tag then
            let sz := Wosize_hd hd in
            bind (major_alloc sz tag) (fun result r =>
              let r := set_slot p result r in
              let field0 := Field (rmem r) v 0 in
              let r := set_forward v result r in
              if 1 <? sz then
                let r := set_slot (Field_addr result 0) field0 r in
                let r := set_slot (Field_addr result 1) (oldify_todo_list (mnr r)) r in
                Ok tt (set_oldify_todo_list v r)
              else oldify_one fuel field0 (Field_addr result 0) r) r
          else if No_scan_tag <=? tag then
            let sz := Wosize_hd hd in
            bind (major_alloc sz tag) (fun result r =>
              let r := set_rmem (copy_fields (Z.to_nat sz) 0 v result (rmem r)) r in
              let r := set_forward v result r in
              Ok tt (set_slot p result r)) r
          else if tag =? Infix_tag then
            let offset := Infix_offset_hd hd in
            bind (oldify_one fuel (v - offset) p) (fun _ r =>
              Ok tt (set_slot p (u64 (ld (rmem r) p + offset)) r)) r
          else oldify_one fuel (Forward_val (rmem r) v) p r
      else Ok tt (set_slot p v r)
  end.

(** [for (i = i; i < Wosize_val (new_v); i++)]; [n] bounds the iterations. *)
Fixpoint mopup_fields (fuel n : nat) (i v new_v : Z) (r : runtime) : res unit :=
  match n with
  | O => Ok tt r
  | S n =>
      if i <? Wosize_val (rmem r) new_v then
        let f := Field (rmem r) v i in
        bind (fun r =>
                if Is_block f && Is_young (mnr r) f then oldify_one fuel f (Field_addr new_v i) r
                else Ok tt (set_slot (Field_addr new_v i) f r))
             (fun _ r => mopup_fields fuel n (i + 1) v new_v r) r
      else Ok tt r
  end.

(** [n] bounds the iterations of the loop. *)
Fixpoint oldify_mopup (fuel n : nat) (r : runtime) : res unit :=
  match n with
  | O => Fatal "the list of blocks to do is longer than the bound"
  | S n =>
      if oldify_todo_list (mnr r) =? 0 then Ok tt r
      else
        let v := oldify_todo_list (mnr r) in
        let new_v := Field (rmem r) v 0 in
        let r := set_oldify_todo_list (Field (rmem r) new_v 1) r in
        let f := Field (rmem r) new_v 0 in
        bind (fun r =>
                if Is_block f && Is_young (mnr r) f then oldify_one fuel f (Field_addr new_v 0) r
                else Ok tt r)
             (fun _ r =>
                bind (mopup_fields fuel (Z.to_nat (Wosize_val (rmem r) new_v)) 1 v new_v)
                     (fun _ r => oldify_mopup fuel n r) r) r
  end.

(** ** The roots *)

Definition oldify_local_roots (fuel : nat) (roots : root_set) : M unit := fun r =>
  (scan_words (oldify_one fuel) (Z.to_nat ((stack_high (stk r) - extern_sp (stk r)) / 8)) (extern_sp (stk r)) ;;
   (fun r => scan_local_roots (oldify_one fuel) fuel (local_roots (glb r)) r) ;;
   scan_global_roots (oldify_one fuel) fuel (root_list roots) ;;
   final_do_young_roots (oldify_one fuel) (finalisers roots) ;;
   scan_slots (oldify_one fuel) (hook_slots roots)) r.

(** The end of the collection: the minor heap and the table are empty.  The result
    is the increment of [stat_minor_words]. *)
Definition reset_minor_heap (r : runtime) : Z * runtime :=
  let r := if young_ptr (mnr r) <? young_start (mnr r) then set_young_ptr (young_start (mnr r)) r else r in
  let words := Wsize_bsize (young_end (mnr r) - young_ptr (mnr r)) in
  let r := set_young_ptr (young_end (mnr r)) r in
  let r := set_young_limit (young_start (mnr r)) r in
  let r := set_ref_table [] r in
  let r := set_ref_table_limit (ref_table_threshold (mnr r)) r in
  (words, set_in_minor_collection false r).

(** The result: the finalisers, and what is added to [stat_minor_words].  [fuel]
    bounds the chains followed and the list of blocks to do. *)
Definition empty_minor_heap (fuel : nat) (roots : root_set) : M (finals * Z) := fun r =>
  (let! words :=
     if negb (young_ptr (mnr r) =? young_end (mnr r)) then
       upd (set_in_minor_collection true) ;;
       oldify_local_roots fuel roots ;;
       (fun r => scan_slots (oldify_one fuel) (ref_table (mnr r)) r) ;;
       oldify_mopup fuel fuel ;;
       (fun r => let (words, r) := reset_minor_heap r in Ok words r)
     else ret 0 in
   ret (final_empty_young (finalisers roots), words)) r.
End Oldify.

(** ** The slots the collector visits *)

(** The words read on the way, and the slots. *)
Definition root_slots (fuel : nat) (roots : root_set) (r : runtime) : option (list Z * list Z) :=
  '(ws, local) ← local_slots fuel (rmem r) (local_roots (glb r));
  global ← global_roots fuel (root_list roots);
  let t := finalisers roots in
  Some (ws, word_slots (Z.to_nat ((stack_high (stk r) - extern_sp (stk r)) / 8)) (extern_sp (stk r)) ++
            local ++ global ++ entry_slots (final_table t) (Z.to_nat (fin_young t - fin_old t)) (fin_old t) ++
            hook_slots roots).

(** ** The minor heap before the collection *)

Lemma copy_fields_spec src dst n : forall i m,
  (forall j k, i <= j < i + Z.of_nat n -> i <= k < i + Z.of_nat n -> src + 8 * j <> dst + 8 * k) ->
  (forall a, (forall j, i <= j < i + Z.of_nat n -> a <> dst + 8 * j) -> ld (copy_fields n i src dst m) a = ld m a) /\
  (forall j, i <= j < i + Z.of_nat n -> ld (copy_fields n i src dst m) (dst + 8 * j) = ld m (src + 8 * j)).
Proof.
  induction n as [|n IH]; intros i m Hd; cbn [copy_fields]; [split; [done|lia]|].
  destruct (IH (i + 1) (set_Field m dst i (Field m src i))) as [IH1 IH2]; [intros; apply Hd; lia|].
  unfold set_Field in *. rewrite Field_addr_eq, Field_ld in *. split.
  - intros a Ha. rewrite IH1 by (intros; apply Ha; lia). apply ld_st_ne. intros <-. apply (Ha i); lia.
  - intros j Hj. destruct (decide (j = i)) as [->|Hne].
    + rewrite IH1 by lia. apply ld_st_eq.
    + rewrite IH2 by lia. apply ld_st_ne. specialize (Hd j i). lia.
Qed.


Section Collection.
Context {A : MajorAlloc} {AOk : MajorAllocOk A}.

(** The memory [m0] before the collection, the bounds of the minor heap, a set of
    blocks of it, a bound on the length of the chains of forwarding blocks, the words
    in use, and the answers [malloc] is going to give. *)
Context (m0 : mem) (ys ye : Z) (Y : gset Z) (depth : nat) (K : Z -> Prop) (la0 : list Z).

(** The program ends for lack of memory: [malloc] did not give the three blocks a
    block of the minor heap may need, for each of them. *)
Definition oom (msg : string) : Prop := msg = oom_msg /\ ~ malloc_gives (3 * size Y) la0.
Abbreviation outcome := (outcome_of oom).

Definition in_young (a : Z) : Prop := ys <= a < ye.
Definition young (x : Z) : bool := Is_block x && ((x <? ye) && (ys <? x)).

(** A pointer into a closure, to one of its other functions. *)
Definition infix_of (x b : Z) : Prop :=
  Tag_val m0 x = Infix_tag /\ b = x - Infix_offset_val m0 x /\ b ∈ Y /\ Tag_val m0 b < Infix_tag /\
  b + 16 <= x < b + 8 * Wosize_val m0 b.

(** The values the program can hold. *)
Definition valid (x : Z) : Prop := young x = true -> x ∈ Y \/ exists b, infix_of x b.

(** At most [n] forwarding blocks ([Forward_tag]) are followed from [x]. *)
Fixpoint settles (n : nat) (x : Z) : bool :=
  if young x && (Tag_val m0 x =? Forward_tag) then
    match n with O => false | S n => settles n (Field m0 x 0) end
  else true.

(** The blocks of [Y] are disjoint blocks of the minor heap, and what their fields
    lead to is in [Y]. *)
Record young_ok : Prop := {
  yo_block v : v ∈ Y ->
    Is_block v = true /\ ys <= v - 8 /\ v + 8 * Wosize_val m0 v <= ye /\
    1 <= Wosize_val m0 v <= major_max /\ Tag_val m0 v <> Infix_tag;
  yo_disj v w a : v ∈ Y -> w ∈ Y ->
    block_words v (Wosize_val m0 v) a -> block_words w (Wosize_val m0 w) a -> v = w;
  yo_fields v i : v ∈ Y -> Tag_val m0 v < No_scan_tag -> 0 <= i < Wosize_val m0 v -> valid (Field m0 v i);
  yo_settles v : v ∈ Y -> settles depth v = true;
  yo_used a : in_young a -> K a;
  yo_start : 0 <= ys
}.

(** ** The state during the collection *)

(** [moved φ x y]: the collector replaces the value [x] by [y], when the blocks
    copied are mapped to their copies by [φ]. *)
Inductive moved (φ : gmap Z Z) : Z -> Z -> Prop :=
| moved_old x : young x = false -> moved φ x x
| moved_block x y : young x = true -> φ !! x = Some y -> moved φ x y
| moved_infix x b y : young x = true -> infix_of x b -> φ !! b = Some y -> moved φ x (y + (x - b))
| moved_forward x y : young x = true -> Tag_val m0 x = Forward_tag -> moved φ (Field m0 x 0) y -> moved φ x y.

(** The list of blocks to do, from its head. *)
Fixpoint todo_list (φ : gmap Z Z) (m : mem) (x : Z) (T : list Z) : Prop :=
  match T with
  | [] => x = 0
  | v :: T => x = v /\ exists v', φ !! v = Some v' /\ todo_list φ m (ld m (v' + 8)) T
  end.

(** The words in use, copies included. *)
Definition used (φ : gmap Z Z) (a : Z) : Prop :=
  K a \/ exists v v', φ !! v = Some v' /\ block_words v' (Wosize_val m0 v) a.

(** [v'] has the form of [v], outside the words in use. *)
Record copy_shape (m : mem) (v v' : Z) : Prop := {
  cs_block : Is_block v' = true;
  cs_low : 8 <= v';
  cs_high : v' + 8 * Wosize_val m0 v <= B64;
  cs_size : Wosize_val m v' = Wosize_val m0 v;
  cs_tag : Tag_val m v' = Tag_val m0 v;
  cs_new a : block_words v' (Wosize_val m0 v) a -> ~ K a
}.

(** The invariant: [φ] maps the blocks copied to their copies, [T] lists those whose
    fields are not copied yet, and the fields of copies in [H] have no value yet. *)
Record inv (φ : gmap Z Z) (T : list Z) (H : Z -> Prop) (r : runtime) : Prop := {
  i_start : young_start (mnr r) = ys;
  i_end : young_end (mnr r) = ye;
  i_minor : in_minor_collection (mnr r) = true;
  i_dom v v' : φ !! v = Some v' -> v ∈ Y /\ Tag_val m0 v <> Forward_tag;
  i_fwd v v' : φ !! v = Some v' -> ld (rmem r) (v - 8) = 0 /\ ld (rmem r) v = v';
  i_young a : in_young a -> (forall v, is_Some (φ !! v) -> a <> v - 8 /\ a <> v) -> ld (rmem r) a = ld m0 a;
  i_shape v v' : φ !! v = Some v' -> copy_shape (rmem r) v v';
  i_disj v v' w w' a : φ !! v = Some v' -> φ !! w = Some w' ->
    block_words v' (Wosize_val m0 v) a -> block_words w' (Wosize_val m0 w) a -> v = w;
  i_noscan v v' i : φ !! v = Some v' -> No_scan_tag <= Tag_val m0 v -> 0 <= i < Wosize_val m0 v ->
    ld (rmem r) (v' + 8 * i) = ld m0 (v + 8 * i);
  i_scan v v' i : φ !! v = Some v' -> Tag_val m0 v < No_scan_tag -> (v ∉ T) -> 0 <= i < Wosize_val m0 v ->
    ~ H (v' + 8 * i) -> moved φ (ld m0 (v + 8 * i)) (ld (rmem r) (v' + 8 * i));
  i_todo : todo_list φ (rmem r) (oldify_todo_list (mnr r)) T;
  i_nodup : NoDup T;
  i_todo_in v : v ∈ T -> exists v', φ !! v = Some v' /\ Tag_val m0 v < Infix_tag /\
    1 < Wosize_val m0 v /\ ld (rmem r) v' = ld m0 v;
  i_alloc : major_inv (used φ) r;
  i_malloc : exists u, la0 = u ++ malloc_answers r /\ (length u <= 3 * size φ)%nat
}.

(** A word the collector may write a value to: a root, or a field without a value. *)
Definition slot (φ : gmap Z Z) (T : list Z) (H : Z -> Prop) (p : Z) : Prop :=
  (K p /\ ~ in_young p) \/
  (H p /\ exists v v' i, φ !! v = Some v' /\ (v ∉ T) /\ Tag_val m0 v < No_scan_tag /\
     0 <= i < Wosize_val m0 v /\ p = v' + 8 * i).

(** Words in use other than [p] are kept, outside the minor heap. *)
Definition kept (φ : gmap Z Z) (p : Z) (r r' : runtime) : Prop :=
  (forall a, used φ a -> ~ in_young a -> a <> p -> ld (rmem r') a = ld (rmem r) a) /\
  stk r' = stk r /\ local_roots (glb r') = local_roots (glb r) /\
  mnr (set_oldify_todo_list 0 r') = mnr (set_oldify_todo_list 0 r).

Lemma moved_mono φ φ' x y : φ ⊆ φ' -> moved φ x y -> moved φ' x y.
Proof.
  intros Hs. induction 1; [now apply moved_old|apply moved_block|eapply moved_infix|now apply moved_forward]; try done;
    now apply (lookup_weaken φ).
Qed.

Lemma used_mono φ φ' a : φ ⊆ φ' -> used φ a -> used φ' a.
Proof.
  intros Hs [HK|(v & v' & E & Ha)]; [now left|]. right. exists v, v'. split; [|done]. now apply (lookup_weaken φ).
Qed.

Lemma kept_refl φ p r : kept φ p r r.
Proof. now split. Qed.

Lemma kept_trans φ φ' p q r1 r2 r3 :
  φ ⊆ φ' -> (q = p \/ ~ used φ q) -> kept φ p r1 r2 -> kept φ' q r2 r3 -> kept φ p r1 r3.
Proof.
  intros Hs Hq (A1 & A2 & A3 & A4) (B1 & B2 & B3 & B4). split; [|now rewrite B2, B3, B4].
  intros a Ha Hy Hne. rewrite B1; [now apply A1|now apply (used_mono φ)|done|].
  intros ->. destruct Hq; done.
Qed.

Context (HY : young_ok).

Lemma young_in x : young x = true -> in_young x.
Proof. unfold young, in_young. rewrite !andb_true_iff, !Z.ltb_lt. lia. Qed.
Lemma Y_young v : v ∈ Y -> young v = true.
Proof.
  intros Hv. destruct (yo_block HY v Hv) as (Hb & H1 & H2 & H3 & _). unfold young. rewrite Hb.
  rewrite !andb_true_iff, !Z.ltb_lt. split; [done|lia].
Qed.
Lemma is_young_young φ T H r x : inv φ T H r -> Is_block x && Is_young (mnr r) x = young x.
Proof. intros I. unfold Is_young. now rewrite (i_start _ _ _ _ I), (i_end _ _ _ _ I). Qed.

(** What a slot can be. *)
Lemma slot_apart φ T H r p :
  inv φ T H r -> slot φ T H p ->
  used φ p /\ ~ in_young p /\
  forall v v', φ !! v = Some v' -> p <> v' - 8 /\
    (forall i, 0 <= i < Wosize_val m0 v -> p = v' + 8 * i -> H p /\ (v ∉ T) /\ Tag_val m0 v < No_scan_tag).
Proof.
  intros I [[HK Hy]|(Hp & w & w' & j & Ew & HT & Ht & Hj & ->)].
  - split; [now left|]. split; [done|]. intros v v' E. pose proof (i_shape _ _ _ _ I v v' E) as [_ _ _ _ _ Hn].
    destruct (yo_block HY v (proj1 (i_dom _ _ _ _ I v v' E))) as (_ & _ & _ & Hsz & _).
    split; [|intros i Hi]; intros ->; exfalso; refine (Hn _ _ HK); unfold block_words; lia.
  - assert (Hw : block_words w' (Wosize_val m0 w) (w' + 8 * j)) by (unfold block_words; lia).
    split; [right; eauto|]. split.
    { intros Hy. apply (cs_new _ _ _ (i_shape _ _ _ _ I w w' Ew) _ Hw). now apply (yo_used HY). }
    intros v v' E. assert (Huni : block_words v' (Wosize_val m0 v) (w' + 8 * j) -> v = w)
      by (intros Hb; now apply (i_disj _ _ _ _ I v v' w w' (w' + 8 * j))).
    destruct (yo_block HY v (proj1 (i_dom _ _ _ _ I v v' E))) as (_ & _ & _ & Hsz & _).
    split; [|intros i Hi]; intros Ep.
    + assert (v = w) as -> by (apply Huni; unfold block_words; lia). simplify_eq. lia.
    + assert (v = w) as -> by (apply Huni; unfold block_words; lia). done.
Qed.

Lemma todo_list_ext φ φ' m m' T : forall x,
  φ ⊆ φ' -> (forall v v', v ∈ T -> φ !! v = Some v' -> ld m' (v' + 8) = ld m (v' + 8)) ->
  todo_list φ m x T -> todo_list φ' m' x T.
Proof.
  induction T as [|v T IH]; intros x Hs Hm; [done|]. intros (-> & v' & E & Hl). split; [done|].
  exists v'. split; [now apply (lookup_weaken φ)|]. rewrite (Hm v v') by (done || apply list_elem_of_here).
  apply IH; [done| |done]. intros w w' Hw. apply Hm. now apply list_elem_of_further.
Qed.

(** A state that agrees on what the invariant reads. *)
Lemma inv_ext φ T H r r' :
  inv φ T H r -> mnr r' = mnr r -> malloc_answers r' = malloc_answers r -> major_inv (used φ) r' ->
  (forall a, in_young a -> ld (rmem r') a = ld (rmem r) a) ->
  (forall v v', φ !! v = Some v' -> ld (rmem r') (v' - 8) = ld (rmem r) (v' - 8) /\
     forall i, 0 <= i < Wosize_val m0 v -> (~ H (v' + 8 * i) \/ v ∈ T \/ No_scan_tag <= Tag_val m0 v) ->
       ld (rmem r') (v' + 8 * i) = ld (rmem r) (v' + 8 * i)) ->
  inv φ T H r'.
Proof.
  intros I Hn Hml Ha Hy Hc.
  assert (Hyo : forall v v', φ !! v = Some v' -> in_young v /\ in_young (v - 8)).
  { intros v v' E. destruct (yo_block HY v (proj1 (i_dom _ _ _ _ I v v' E))) as (_ & ? & ? & ? & _).
    unfold in_young. lia. }
  constructor; rewrite ?Hn, ?Hml; try apply I; try done.
  - intros v v' E. rewrite !Hy by now apply (Hyo v v'). now apply (i_fwd _ _ _ _ I).
  - intros a Hin Hne. rewrite Hy by done. now apply (i_young _ _ _ _ I).
  - intros v v' E. destruct (i_shape _ _ _ _ I v v' E) as [X1 X2 X3 X4 X5 X6].
    constructor; try done; unfold Wosize_val, Tag_val in *; rewrite Hd_val_ld, (proj1 (Hc v v' E)); done.
  - intros v v' i E Ht Hi. rewrite (proj2 (Hc v v' E)) by auto. now apply (i_noscan _ _ _ _ I).
  - intros v v' i E Ht HT Hi HH. rewrite (proj2 (Hc v v' E)) by auto. now apply (i_scan _ _ _ _ I).
  - apply (todo_list_ext φ φ (rmem r)); [done| |apply I]. intros v v' Hv E.
    destruct (i_todo_in _ _ _ _ I v Hv) as (w' & Ew & _ & Hsz & _). replace (v' + 8) with (v' + 8 * 1) by lia.
    apply (proj2 (Hc v v' E)); [lia|auto].
  - intros v Hv. destruct (i_todo_in _ _ _ _ I v Hv) as (v' & E & Ht & Hs & Hf). exists v'. splits; try done.
    rewrite <- Hf. replace v' with (v' + 8 * 0) by lia. apply (proj2 (Hc v v' E)); [lia|auto].
Qed.

(** Writing to a slot. *)
Lemma inv_write φ T H r p x :
  inv φ T H r -> slot φ T H p -> inv φ T H (set_slot p x r) /\ kept φ p r (set_slot p x r).
Proof.
  intros I Hp. destruct (slot_apart _ _ _ _ _ I Hp) as (Hu & Hy & Hc). split.
  - apply (inv_ext φ T H r); try done; unfold set_slot; rsimp.
    + apply major_inv_st; [apply I|done].
    + intros a Ha. apply ld_st_ne. now intros <-.
    + intros v v' E. destruct (Hc v v' E) as [Hh Hf]. split; [now apply ld_st_ne|].
      intros i Hi Hor. apply ld_st_ne. intros Ep. destruct (Hf i Hi Ep) as (F1 & F2 & F3).
      rewrite Ep in F1. destruct Hor as [Hor|[Hor|Hor]]; [done|done|lia].
  - split; [|done]. intros a _ _ Hne. unfold set_slot; rsimp. now apply ld_st_ne.
Qed.

(** The words of a block of the minor heap, but for its forward flag and pointer. *)
Lemma read_young φ T H r b a :
  inv φ T H r -> b ∈ Y -> block_words b (Wosize_val m0 b) a -> (φ !! b = None \/ (a <> b - 8 /\ a <> b)) ->
  ld (rmem r) a = ld m0 a.
Proof.
  intros I Hb Ha Hor. destruct (yo_block HY b Hb) as (_ & Hlo & Hhi & Hsz & _). unfold block_words in Ha.
  apply (i_young _ _ _ _ I); [unfold in_young; lia|]. intros v [v' E].
  destruct (yo_block HY v (proj1 (i_dom _ _ _ _ I v v' E))) as (_ & _ & _ & Hszv & _).
  assert (Hne : block_words v (Wosize_val m0 v) a -> v = b).
  { intros Hv. apply (yo_disj HY v b a); try done. now apply (i_dom _ _ _ _ I v v'). }
  split; intros Ea; (assert (v = b) as -> by (apply Hne; unfold block_words; lia));
    (destruct Hor as [Hor|Hor]; [now rewrite E in Hor|lia]).
Qed.

Lemma used_insert φ v v' a :
  φ !! v = None -> used (<[v := v']> φ) a <-> used φ a \/ block_words v' (Wosize_val m0 v) a.
Proof.
  intros Hv. split.
  - intros [HK|(w & w' & E & Ha)]; [left; now left|]. apply lookup_insert_Some in E as [[<- <-]|[Hne E]]; [now right|].
    left. right. eauto.
  - intros [[HK|(w & w' & E & Ha)]|Ha]; [now left| |].
    + right. exists w, w'. split; [|done]. rewrite lookup_insert_ne; [done|]. intros ->. congruence.
    + right. exists v, v'. now rewrite lookup_insert_eq.
Qed.

(** The states in which the new copy can be left: on the list of blocks to do, or
    with its fields, but for those in [H']. *)
Definition copy_content (φ : gmap Z Z) (T T' : list Z) (H' : Z -> Prop) (r r' : runtime) (v v' : Z) : Prop :=
  (T' = T /\ oldify_todo_list (mnr r') = oldify_todo_list (mnr r) /\
   (No_scan_tag <= Tag_val m0 v -> forall i, 0 <= i < Wosize_val m0 v ->
      ld (rmem r') (v' + 8 * i) = ld m0 (v + 8 * i)) /\
   (Tag_val m0 v < No_scan_tag -> forall i, 0 <= i < Wosize_val m0 v -> H' (v' + 8 * i))) \/
  (T' = v :: T /\ oldify_todo_list (mnr r') = v /\ Tag_val m0 v < Infix_tag /\ 1 < Wosize_val m0 v /\
   ld (rmem r') v' = ld m0 v /\ ld (rmem r') (v' + 8) = oldify_todo_list (mnr r)).

(** The words of the older copies are kept. *)
Lemma copies_kept φ T H r r' v p :
  inv φ T H r -> slot φ T H p -> v ∈ Y ->
  (forall a, used φ a -> a <> v - 8 -> a <> v -> a <> p -> ld (rmem r') a = ld (rmem r) a) ->
  forall w w', φ !! w = Some w' -> ld (rmem r') (w' - 8) = ld (rmem r) (w' - 8) /\
    forall i, 0 <= i < Wosize_val m0 w -> (~ H (w' + 8 * i) \/ w ∈ T \/ No_scan_tag <= Tag_val m0 w) ->
       ld (rmem r') (w' + 8 * i) = ld (rmem r) (w' + 8 * i).
Proof.
  intros I Hp Hv Hfr w w' E. destruct (slot_apart _ _ _ _ _ I Hp) as (_ & _ & Hcp).
  destruct (Hcp w w' E) as [Hp1 Hp2]. pose proof (i_shape _ _ _ _ I w w' E) as [_ _ _ _ _ Hn].
  destruct (yo_block HY w (proj1 (i_dom _ _ _ _ I w w' E))) as (_ & _ & _ & Hszw & _).
  destruct (yo_block HY v Hv) as (_ & B1 & B2 & B3 & _).
  assert (Haw : forall a, block_words w' (Wosize_val m0 w) a -> a <> p -> ld (rmem r') a = ld (rmem r) a).
  { intros a Hb Hne. pose proof (Hn a Hb) as HK. apply Hfr; try done; [right; eauto| |];
      intros ->; apply HK, (yo_used HY); unfold in_young; lia. }
  split; [apply Haw; [unfold block_words; lia|done]|]. intros i Hi Hor. apply Haw; [unfold block_words; lia|].
  intros Ep. destruct (Hp2 i Hi (eq_sym Ep)) as (F1 & F2 & F3). rewrite <- Ep in F1.
  destruct Hor as [?|[?|?]]; [done|done|lia].
Qed.

(** Copying a block and making it point to its copy. *)
Lemma inv_promote φ T T' (H H' : Z -> Prop) r r' v v' p :
  inv φ T H r -> slot φ T H p -> v ∈ Y -> φ !! v = None -> Tag_val m0 v <> Forward_tag ->
  (forall a, H a -> H' a) ->
  copy_shape (rmem r') v v' -> (forall a, block_words v' (Wosize_val m0 v) a -> ~ used φ a) ->
  ld (rmem r') (v - 8) = 0 -> ld (rmem r') v = v' ->
  (forall a, used φ a -> a <> v - 8 -> a <> v -> a <> p -> ld (rmem r') a = ld (rmem r) a) ->
  major_inv (used (<[v := v']> φ)) r' -> spent 3 r r' ->
  mnr (set_oldify_todo_list 0 r') = mnr (set_oldify_todo_list 0 r) ->
  copy_content φ T T' H' r r' v v' ->
  inv (<[v := v']> φ) T' H' r'.
Proof.
  intros I Hp Hv Hnone Hfw HH Hshape Hnew Hhd Hf0 Hfr Ha Hspent Hn Hcont.
  destruct (slot_apart _ _ _ _ _ I Hp) as (Hup & Hyp & Hcp).
  assert (Hsub : φ ⊆ <[v := v']> φ) by now apply insert_subseteq.
  assert (HinT : v ∉ T). { intros Hin. destruct (i_todo_in _ _ _ _ I v Hin) as (w & E & _). congruence. }
  assert (HTT : forall w, w ∉ T' -> w ∉ T).
  { intros w Hw Hin. apply Hw. destruct Hcont as [(-> & _)|(-> & _)]; [done|]. now apply list_elem_of_further. }
  injection Hn as N1 N2 N3 N4 N5 N6 N7 N8 N9 N10 N11 N12.
  pose proof (copies_kept φ T H r r' v p I Hp Hv Hfr) as Hold.
  constructor.
  - rewrite N2. apply I.
  - rewrite N3. apply I.
  - rewrite N12. apply I.
  - intros w w' [[<- <-]|[_ E]]%lookup_insert_Some; [done|]. now apply (i_dom _ _ _ _ I w w').
  - intros w w' [[<- <-]|[Hne E]]%lookup_insert_Some; [done|].
    destruct (i_dom _ _ _ _ I w w' E) as [Hw _]. destruct (yo_block HY w Hw) as (_ & W1 & W2 & W3 & _).
    destruct (yo_block HY v Hv) as (_ & B1 & B2 & B3 & _).
    assert (Hd : forall a, block_words w (Wosize_val m0 w) a -> a <> v - 8 /\ a <> v).
    { intros a Hb. split; intros Ea; apply Hne, (yo_disj HY v w a); try done; unfold block_words; lia. }
    rewrite !Hfr; try apply (Hd (w - 8)); try apply (Hd w); try (unfold block_words; lia);
      try (left; apply (yo_used HY); unfold in_young; lia); try (intros <-; apply Hyp; unfold in_young; lia).
    now apply (i_fwd _ _ _ _ I).
  - intros a Hin Hne. destruct (Hne v) as [Hv8 Hv0]; [rewrite lookup_insert_eq; eauto|].
    rewrite Hfr; [|left; now apply (yo_used HY)|done|done|now intros ->]. apply (i_young _ _ _ _ I); [done|].
    intros w [w' E]. apply Hne. exists w'. now apply (lookup_weaken φ).
  - intros w w' [[<- <-]|[Hne E]]%lookup_insert_Some; [done|].
    destruct (i_shape _ _ _ _ I w w' E) as [X1 X2 X3 X4 X5 X6].
    constructor; try done; unfold Wosize_val, Tag_val in *; rewrite Hd_val_ld, (proj1 (Hold w w' E)); done.
  - intros x x' y y' a [[<- <-]|[Hx Ex]]%lookup_insert_Some [[<- <-]|[Hy Ey]]%lookup_insert_Some Hax Hay; try done.
    + exfalso. apply (Hnew a); [done|]. right. eauto.
    + exfalso. apply (Hnew a); [done|]. right. eauto.
    + now apply (i_disj _ _ _ _ I x x' y y' a).
  - intros w w' i [[<- <-]|[Hne E]]%lookup_insert_Some Ht Hi.
    + destruct Hcont as [(_ & _ & Hns & _)|(_ & _ & Hlt & _)]; [now apply Hns|]. unfold No_scan_tag, Infix_tag in *. lia.
    + rewrite (proj2 (Hold w w' E)) by auto. now apply (i_noscan _ _ _ _ I).
  - intros w w' i [[<- <-]|[Hne E]]%lookup_insert_Some Ht HwT Hi HwH.
    + exfalso. destruct Hcont as [(_ & _ & _ & Hsc)|(-> & _)]; [now apply HwH, Hsc|]. apply HwT, list_elem_of_here.
    + apply HTT in HwT. assert (Hnh : ~ H (w' + 8 * i)) by auto. rewrite (proj2 (Hold w w' E)) by auto.
      apply (moved_mono φ); [done|]. now apply (i_scan _ _ _ _ I).
  - assert (Hlist : todo_list (<[v := v']> φ) (rmem r') (oldify_todo_list (mnr r)) T).
    { apply (todo_list_ext φ _ (rmem r)); [done| |apply I]. intros w w' Hw E.
      destruct (i_todo_in _ _ _ _ I w Hw) as (x' & Ew & _ & Hsz & _). replace (w' + 8) with (w' + 8 * 1) by lia.
      apply (proj2 (Hold w w' E)); [lia|auto]. }
    destruct Hcont as [(-> & -> & _)|(-> & -> & _ & _ & _ & Hlink)]; [done|].
    split; [done|]. exists v'. rewrite lookup_insert_eq, Hlink. done.
  - destruct Hcont as [(-> & _)|(-> & _)]; [apply I|]. constructor; [done|apply I].
  - intros w Hw. assert (Hold' : w ∈ T -> exists w', <[v := v']> φ !! w = Some w' /\ Tag_val m0 w < Infix_tag /\
      1 < Wosize_val m0 w /\ ld (rmem r') w' = ld m0 w).
    { intros Hin. destruct (i_todo_in _ _ _ _ I w Hin) as (w' & E & Ht & Hs & Hf). exists w'.
      splits; try done; [now apply (lookup_weaken φ)|]. rewrite <- Hf. replace w' with (w' + 8 * 0) by lia.
      apply (proj2 (Hold w w' E)); [lia|auto]. }
    destruct Hcont as [(-> & _)|(-> & _ & Ht & Hs & Hf & _)]; [auto|].
    apply elem_of_cons in Hw as [->|Hw]; [|auto]. exists v'. now rewrite lookup_insert_eq.
  - done.
  - destruct (i_malloc _ _ _ _ I) as (u & Eu & Hu), Hspent as (w & Ew & Hw). exists (u ++ w).
    rewrite <- app_assoc, <- Ew, length_app, map_size_insert_None by done. split; [done|lia].
Qed.

(** ** Copying one block *)

Lemma slot_mono φ φ' T T' (H H' : Z -> Prop) p :
  φ ⊆ φ' -> (forall w, w ∈ T' -> w ∈ T \/ φ !! w = None) -> (forall a, H a -> H' a) ->
  slot φ T H p -> slot φ' T' H' p.
Proof.
  intros Hs HT HH [?|(Hp & v & v' & i & E & HvT & Hr)]; [now left|]. right. split; [auto|].
  exists v, v', i. split; [now apply (lookup_weaken φ)|]. split; [|done].
  intros Hin. destruct (HT v Hin); [done|congruence].
Qed.

(** What [oldify_one] does: more blocks may have been copied or put on the list, the
    slot [p] holds what [v] becomes, and no other word in use has changed. *)
Record oldified (φ : gmap Z Z) (T : list Z) (H : Z -> Prop) (p : Z) (r : runtime)
    (φ' : gmap Z Z) (T' : list Z) (r' : runtime) : Prop := {
  o_sub : φ ⊆ φ';
  o_inv : inv φ' T' H r';
  o_kept : kept φ p r r';
  o_size : (length T' + size φ <= length T + size φ')%nat;
  o_todo w : w ∈ T' -> w ∈ T \/ φ !! w = None
}.
Definition oldify_post (φ : gmap Z Z) (T : list Z) (H : Z -> Prop) (v p : Z) (r r' : runtime) : Prop :=
  exists φ' T', oldified φ T H p r φ' T' r' /\ moved φ' v (ld (rmem r') p).

(** Nothing is copied: [p] receives [x]. *)
Lemma oldify_write φ T H v p x r :
  inv φ T H r -> slot φ T H p -> moved φ v x -> oldify_post φ T H v p r (set_slot p x r).
Proof.
  intros I Hp Hx. destruct (inv_write φ T H r p x I Hp) as [I' Hk]. exists φ, T. split; [constructor; auto|].
  unfold set_slot; rsimp. now rewrite ld_st_eq.
Qed.

(** The state after the allocation, with the forward pointer set. *)
Lemma promote_spec φ T H r r1 v v' p :
  inv φ T H r -> slot φ T H p -> v ∈ Y -> φ !! v = None ->
  allocated (used φ) (Wosize_val m0 v) (Tag_val m0 v) r (Ok v' r1) ->
  let r2 := set_forward v v' (set_slot p v' r1) in
  copy_shape (rmem r2) v v' /\ (forall a, block_words v' (Wosize_val m0 v) a -> ~ used φ a) /\
  ld (rmem r2) (v - 8) = 0 /\ ld (rmem r2) v = v' /\ ld (rmem r2) p = v' /\
  (forall a, used φ a -> a <> v - 8 -> a <> v -> a <> p -> ld (rmem r2) a = ld (rmem r) a) /\
  major_inv (used (<[v := v']> φ)) r2 /\ mnr r2 = mnr r /\ stk r2 = stk r /\
  local_roots (glb r2) = local_roots (glb r) /\ Field (rmem (set_slot p v' r1)) v 0 = ld m0 v.
Proof.
  intros I Hp Hv Hnone (A1 & A2 & A3 & A4 & A5 & A6 & A7 & A8 & A9 & A10 & A11 & _) r2.
  destruct (slot_apart _ _ _ _ _ I Hp) as (Hup & Hyp & _).
  destruct (yo_block HY v Hv) as (_ & B1 & B2 & B3 & _).
  assert (Hyv : forall a, v - 8 <= a <= v -> in_young a /\ used φ a).
  { intros a Ha. assert (in_young a) by (unfold in_young; lia). split; [done|]. left. now apply (yo_used HY). }
  assert (Hm : rmem r2 = st (st (st (rmem r1) p v') (v - 8) 0) v v').
  { unfold r2, set_forward, set_slot, set_Field, Hp_val, sizeof_value. rsimp. rewrite Field_addr_eq. do 2 f_equal. lia. }
  assert (Hpv : p <> v /\ p <> v - 8) by (split; intros ->; apply Hyp, Hyv; lia).
  assert (Hfr : forall a, a <> v - 8 -> a <> v -> a <> p -> ld (rmem r2) a = ld (rmem r1) a).
  { intros. rewrite Hm, !ld_st_ne by lia. done. }
  assert (Hhd : ld (rmem r2) (v' - 8) = ld (rmem r1) (v' - 8)).
  { assert (Hn : ~ used φ (v' - 8)) by (apply A4; unfold block_words; lia).
    apply Hfr; intros Ea; apply Hn; rewrite Ea; try done; apply Hyv; lia. }
  split.
  { constructor; try done; unfold Wosize_val, Tag_val in *; rewrite ?Hd_val_ld, ?Hhd; try done.
    intros a Ha HK. apply (A4 a Ha). now left. }
  split; [done|]. split; [rewrite Hm, ld_st_ne, ld_st_eq by lia; done|]. split; [now rewrite Hm, ld_st_eq|].
  split; [rewrite Hm, !ld_st_ne, ld_st_eq by lia; done|].
  split; [intros a Ha ? ? ?; rewrite Hfr by done; now apply A5|].
  split.
  { apply (major_inv_equiv (fun a => used φ a \/ block_words v' (Wosize_val m0 v) a)); [intros a; symmetry; now apply used_insert|].
    assert (I1 : major_inv (fun a => used φ a \/ block_words v' (Wosize_val m0 v) a) (set_slot p v' r1))
      by (apply major_inv_st; [done|now left]).
    apply (major_inv_st _ (v - 8) 0) in I1; [|left; apply Hyv; lia].
    apply (major_inv_st _ (Field_addr v 0) v') in I1; [exact I1|]. left. apply Hyv. rewrite Field_addr_eq. lia. }
  splits; try done. unfold set_slot; rsimp. rewrite Field_ld, Z.mul_0_r, Z.add_0_r, ld_st_ne by apply Hpv.
  rewrite A5 by (apply Hyv; lia). apply (read_young φ T H r v); [done|done|unfold block_words; lia|now left].
Qed.

(** A copy that did not change the list but for the new block. *)
Lemma oldified_insert φ T T' (H : Z -> Prop) p r r' v v' :
  inv (<[v := v']> φ) T' H r' -> φ !! v = None -> (T' = T \/ T' = v :: T) -> kept φ p r r' ->
  oldified φ T H p r (<[v := v']> φ) T' r'.
Proof.
  intros I Hn HT Hk. constructor; try done.
  - now apply insert_subseteq.
  - rewrite map_size_insert_None by done. destruct HT as [->| ->]; cbn [length]; lia.
  - intros w Hw. destruct HT as [->| ->]; [now left|]. apply elem_of_cons in Hw as [->|Hw]; [now right|now left].
Qed.

Section Promote.
Context (φ : gmap Z Z) (T : list Z) (H : Z -> Prop) (r r1 : runtime) (v v' p : Z).
Context (I : inv φ T H r) (Hp : slot φ T H p) (Hv : v ∈ Y) (Hnone : φ !! v = None).
Context (Hal : allocated (used φ) (Wosize_val m0 v) (Tag_val m0 v) r (Ok v' r1)).

Lemma spent_alloc : spent 3 r r1.
Proof. apply Hal. Qed.

(** Words of the new block are none of the old ones in use. *)
Lemma new_apart a : block_words v' (Wosize_val m0 v) a -> a <> p /\ ~ in_young a.
Proof.
  intros Ha. destruct Hal as (_ & _ & _ & A4 & _). apply A4 in Ha.
  destruct (slot_apart _ _ _ _ _ I Hp) as (Hup & _). split; [now intros ->|].
  intros Hy. apply Ha. left. now apply (yo_used HY).
Qed.

Lemma promoted_kept r2 :
  let r1' := set_forward v v' (set_slot p v' r1) in
  (forall a, used φ a -> a <> p -> ~ in_young a -> ld (rmem r2) a = ld (rmem r1') a) ->
  stk r2 = stk r1' -> local_roots (glb r2) = local_roots (glb r1') ->
  mnr (set_oldify_todo_list 0 r2) = mnr (set_oldify_todo_list 0 r1') -> kept φ p r r2.
Proof.
  intros r1' Hm Hs Hl Hn.
  destruct (promote_spec φ T H r r1 v v' p I Hp Hv Hnone Hal) as (_ & _ & _ & _ & _ & P6 & _ & P8 & P9 & P10 & _).
  fold r1' in P6, P8, P9, P10. unfold kept. rewrite Hs, Hl, Hn. splits; try done.
  - intros a Ha Hy Hne. rewrite Hm by done. destruct (yo_block HY v Hv) as (_ & B1 & B2 & B3 & _).
    apply P6; try done; intros ->; apply Hy; unfold in_young; lia.
  - unfold set_oldify_todo_list in *. rsimp. now rewrite P8.
Qed.

(** The block has several fields: it goes on the list. *)
Lemma promote_todo :
  Tag_val m0 v < Infix_tag -> 1 < Wosize_val m0 v ->
  let r2 := set_forward v v' (set_slot p v' r1) in
  oldify_post φ T H v p r
    (set_oldify_todo_list v (set_slot (Field_addr v' 1) (oldify_todo_list (mnr r2)) (set_slot (Field_addr v' 0) (ld m0 v) r2))).
Proof.
  intros Ht Hsz r2.
  destruct (promote_spec φ T H r r1 v v' p I Hp Hv Hnone Hal) as (P1 & P2 & P3 & P4 & P5 & P6 & P7 & P8 & P9 & P10 & _).
  fold r2 in P1, P3, P4, P5, P6, P7, P8, P9, P10. set (r3 := set_oldify_todo_list _ _).
  assert (Hm : rmem r3 = st (st (rmem r2) v' (ld m0 v)) (v' + 8) (oldify_todo_list (mnr r))).
  { unfold r3, set_slot. rsimp. rewrite P8, !Field_addr_eq. f_equal; try (f_equal; lia); try lia. }
  assert (Hfr : forall a, ~ block_words v' (Wosize_val m0 v) a \/ a = v' - 8 -> ld (rmem r3) a = ld (rmem r2) a).
  { intros a Ha. rewrite Hm, !ld_st_ne; unfold block_words in Ha; lia. }
  assert (Hold : forall a, used φ a -> ld (rmem r3) a = ld (rmem r2) a).
  { intros a Ha. apply Hfr. left. intros Hb. now apply (P2 a Hb). }
  destruct (slot_apart _ _ _ _ _ I Hp) as (Hup & Hyp & _).
  assert (Hyv : forall a, v - 8 <= a <= v -> used φ a).
  { intros a Ha. left. apply (yo_used HY). destruct (yo_block HY v Hv) as (_ & B1 & B2 & B3 & _). unfold in_young. lia. }
  exists (<[v := v']> φ), (v :: T). split.
  2: { rewrite Hold, P5 by done. apply moved_block; [now apply Y_young|apply lookup_insert_eq]. }
  apply oldified_insert; [|done|now right|].
  2: { apply promoted_kept; try done. intros. now apply Hold. }
  apply (inv_promote φ T _ H H r _ v v' p); try done.
  - unfold Forward_tag, Infix_tag in *. lia.
  - destruct P1 as [X1 X2 X3 X4 X5 X6].
    constructor; try done; unfold Wosize_val, Tag_val in *; rewrite Hd_val_ld, Hfr; (done || now right).
  - rewrite Hold by (apply Hyv; lia). done.
  - rewrite Hold by (apply Hyv; lia). done.
  - intros. rewrite Hold by done. now apply P6.
  - unfold r3, set_oldify_todo_list. apply major_inv_mnr.
    assert (Hu : forall a, block_words v' (Wosize_val m0 v) a -> used (<[v := v']> φ) a) by (intros a Ha; apply used_insert; auto).
    apply (major_inv_st _ (Field_addr v' 0) (ld m0 v)) in P7; [|apply Hu; unfold block_words; rewrite Field_addr_eq; lia].
    apply (major_inv_st _ (Field_addr v' 1) (oldify_todo_list (mnr r2))) in P7; [exact P7|].
    apply Hu; unfold block_words; rewrite Field_addr_eq; lia.
  - exact spent_alloc.
  - unfold r3, set_slot, set_oldify_todo_list. rsimp. now rewrite P8.
  - right. split; [done|]. rewrite Hm, ld_st_eq, ld_st_ne, ld_st_eq by lia. done.
Qed.

(** The block has one field: it is the next slot. *)
Lemma promote_one :
  Tag_val m0 v < Infix_tag -> Wosize_val m0 v = 1 ->
  let r2 := set_forward v v' (set_slot p v' r1) in
  inv (<[v := v']> φ) T (fun a => H a \/ a = v') r2 /\ slot (<[v := v']> φ) T (fun a => H a \/ a = v') v' /\
  kept φ p r r2 /\ ld (rmem r2) p = v'.
Proof.
  intros Ht Hsz r2.
  destruct (promote_spec φ T H r r1 v v' p I Hp Hv Hnone Hal) as (P1 & P2 & P3 & P4 & P5 & P6 & P7 & P8 & P9 & P10 & _).
  fold r2 in P1, P3, P4, P5, P6, P7, P8, P9, P10. split; [|split; [|split; [|done]]].
  - apply (inv_promote φ T T H _ r _ v v' p); try done.
    + unfold Forward_tag, Infix_tag in *. lia.
    + auto.
    + exact spent_alloc.
    + unfold set_oldify_todo_list. rsimp. now rewrite P8.
    + left. split; [done|]. split; [now rewrite P8|]. split.
      * unfold No_scan_tag, Infix_tag in *. lia.
      * intros _ i Hi. right. lia.
  - right. split; [now right|]. exists v, v', 0. split; [apply lookup_insert_eq|]. split.
    { intros Hin. destruct (i_todo_in _ _ _ _ I v Hin) as (w & E & _). congruence. }
    unfold No_scan_tag, Infix_tag in *. lia.
  - now apply promoted_kept.
Qed.

Lemma major_inv_copy U src dst r0 n : forall i m,
  (forall j, i <= j < i + Z.of_nat n -> U (dst + 8 * j)) -> major_inv U (set_rmem m r0) ->
  major_inv U (set_rmem (copy_fields n i src dst m) r0).
Proof.
  induction n as [|n IH]; intros i m HU Hinv; [done|]. cbn [copy_fields]. apply IH; [intros; apply HU; lia|].
  apply (major_inv_st _ (Field_addr dst i) (Field m src i)) in Hinv; [exact Hinv|].
  rewrite Field_addr_eq. apply HU. lia.
Qed.

(** The block has no pointers: its contents are copied. *)
Lemma promote_noscan :
  No_scan_tag <= Tag_val m0 v ->
  oldify_post φ T H v p r
    (set_slot p v' (set_forward v v'
       (set_rmem (copy_fields (Z.to_nat (Wosize_val m0 v)) 0 v v' (rmem r1)) r1))).
Proof.
  intros Ht. set (r3 := set_slot _ _ _). destruct (yo_block HY v Hv) as (_ & B1 & B2 & B3 & _).
  pose proof (slot_apart _ _ _ _ _ I Hp) as (Hup & Hyp & _).
  pose proof Hal as (A1 & A2 & A3 & A4 & A5 & A6 & A7 & A8 & A9 & A10 & A11 & _).
  assert (Hyv : forall i, -1 <= i < Wosize_val m0 v -> in_young (v + 8 * i) /\ used φ (v + 8 * i)).
  { intros i Hi. assert (in_young (v + 8 * i)) by (unfold in_young; lia). split; [done|]. left. now apply (yo_used HY). }
  assert (Hb : forall i, -1 <= i < Wosize_val m0 v -> block_words v' (Wosize_val m0 v) (v' + 8 * i)) by (intros; unfold block_words; lia).
  destruct (copy_fields_spec v v' (Z.to_nat (Wosize_val m0 v)) 0 (rmem r1)) as [Hcf Hcc].
  { intros j k Hj Hk E. destruct (new_apart _ (Hb k ltac:(lia))) as [_ Hn]. apply Hn. rewrite <- E. apply Hyv. lia. }
  set (m1 := copy_fields _ _ _ _ _) in *.
  assert (Hm : rmem r3 = st (st (st m1 (v - 8) 0) v v') p v').
  { unfold r3, set_forward, set_slot, set_Field, Hp_val, sizeof_value. rsimp. rewrite Field_addr_eq. do 2 f_equal. lia. }
  assert (Hpv : forall i, -1 <= i < Wosize_val m0 v -> v + 8 * i <> p) by (intros i Hi E; rewrite <- E in Hyp; apply Hyp, Hyv; lia).
  assert (Hfr : forall a, used φ a -> a <> v - 8 -> a <> v -> a <> p -> ld (rmem r3) a = ld (rmem r) a).
  { intros a Ha ? ? ?. rewrite Hm, !ld_st_ne by lia. rewrite Hcf; [now apply A5|].
    intros j Hj ->. apply (A4 (v' + 8 * j)); [apply Hb; lia|done]. }
  assert (Hnew : forall a, block_words v' (Wosize_val m0 v) a -> ld (rmem r3) a = ld m1 a).
  { intros a Ha. destruct (new_apart a Ha) as [Ha1 Ha2]. rewrite Hm, !ld_st_ne; try done;
      intros <-; apply Ha2; unfold in_young; lia. }
  exists (<[v := v']> φ), T. split.
  2: { rewrite Hm, ld_st_eq. apply moved_block; [now apply Y_young|apply lookup_insert_eq]. }
  apply oldified_insert; [|done|now left|].
  2: { split; [|unfold r3, set_slot, set_forward, set_oldify_todo_list; rsimp; now rewrite A8, A9, A10].
       intros a Ha Hy Hne. apply Hfr; try done; intros ->; apply Hy; unfold in_young; lia. }
  assert (Hhd : ld (rmem r3) (v' - 8) = ld (rmem r1) (v' - 8)).
  { rewrite Hnew by (unfold block_words; lia). apply Hcf. lia. }
  apply (inv_promote φ T T H H r _ v v' p); try done.
  - unfold Forward_tag, No_scan_tag in *. lia.
  - constructor; try done; unfold Wosize_val, Tag_val in *; rewrite ?Hd_val_ld, ?Hhd; try done.
    intros a Ha HK. apply (A4 a Ha). now left.
  - specialize (Hpv (-1)). rewrite Hm, !ld_st_ne, ld_st_eq by lia. done.
  - specialize (Hpv 0). rewrite Hm, ld_st_ne, ld_st_eq by lia. done.
  - apply (major_inv_equiv (fun a => used φ a \/ block_words v' (Wosize_val m0 v) a)); [intros a; symmetry; now apply used_insert|].
    apply major_inv_st; [|now left].
    pose proof (major_inv_copy (fun a => used φ a \/ block_words v' (Wosize_val m0 v) a) v v' r1 (Z.to_nat (Wosize_val m0 v)) 0 (rmem r1)) as I1. fold m1 in I1.
    specialize (I1 ltac:(intros j Hj; right; apply Hb; lia) A11).
    apply (major_inv_st _ (v - 8) 0) in I1; [|left; apply (Hyv (-1)); lia].
    apply (major_inv_st _ (Field_addr v 0) v') in I1; [exact I1|]. left. rewrite Field_addr_eq. apply Hyv. lia.
  - exact spent_alloc.
  - unfold set_oldify_todo_list, r3, set_slot, set_forward. rsimp. now rewrite A8.
  - left. split; [done|]. split; [unfold r3, set_slot, set_forward; rsimp; now rewrite A8|]. split.
    + intros _ i Hi. rewrite Hnew by (apply Hb; lia). rewrite Hcc, A5 by (lia || apply Hyv; lia).
      apply (read_young φ T H r v); [done|done|unfold block_words; lia|now left].
    + intros. lia.
Qed.
End Promote.

(** Fields without a value get one. *)
Lemma inv_holes φ T (H H' : Z -> Prop) r :
  inv φ T H r ->
  (forall v v' i, φ !! v = Some v' -> (v ∉ T) -> 0 <= i < Wosize_val m0 v -> ~ H' (v' + 8 * i) ->
     ~ H (v' + 8 * i) \/ moved φ (ld m0 (v + 8 * i)) (ld (rmem r) (v' + 8 * i))) ->
  inv φ T H' r.
Proof.
  intros I HH. destruct I. constructor; try done.
  intros v v' i E Ht HT Hi Hn. destruct (HH v v' i E HT Hi Hn); auto.
Qed.

Lemma inv_fill φ T (H : Z -> Prop) r v v' i :
  inv φ T (fun a => H a \/ a = v' + 8 * i) r -> φ !! v = Some v' -> 0 <= i < Wosize_val m0 v ->
  moved φ (ld m0 (v + 8 * i)) (ld (rmem r) (v' + 8 * i)) -> inv φ T H r.
Proof.
  intros I E Hi Hm. apply (inv_holes φ T _ H r I). intros w w' j Ew _ Hj Hn.
  destruct (decide (w' + 8 * j = v' + 8 * i)) as [Ea|Hne]; [|left; now intros [?|?]].
  assert (w = v) as ->.
  { apply (i_disj _ _ _ _ I w w' v v' (v' + 8 * i)); try done; unfold block_words; lia. }
  simplify_eq. assert (j = i) as -> by lia. now right.
Qed.

Lemma kept_frame φ p r r' a : kept φ p r r' -> used φ a -> ~ in_young a -> a <> p -> ld (rmem r') a = ld (rmem r) a.
Proof. intros (Hk & _). auto. Qed.

(** The chain of blocks of one field and of forwarding blocks [oldify_one] follows. *)
Definition need (φ : gmap Z Z) (n : nat) : nat := ((size Y - size φ) * S depth + n + 2)%nat.

Lemma need_pos φ n : (n + 2 <= need φ n)%nat.
Proof. unfold need. generalize (size Y - size φ)%nat. intros k. nia. Qed.
Lemma need_S φ n : need φ (S n) = S (need φ n).
Proof. unfold need. lia. Qed.
Lemma need_mono φ φ' n : φ ⊆ φ' -> (need φ' n <= need φ n)%nat.
Proof. intros Hs%map_subseteq_size. unfold need. nia. Qed.
Lemma need_insert φ v v' n :
  φ !! v = None -> (size φ < size Y)%nat -> (need (<[v := v']> φ) depth < need φ n)%nat.
Proof.
  intros Hn Hs. unfold need. rewrite map_size_insert_None by done.
  replace (size Y - size φ)%nat with (S (size Y - S (size φ))) by lia.
  generalize (size Y - S (size φ))%nat. intros k. nia.
Qed.

Lemma size_lt φ T H r v : inv φ T H r -> v ∈ Y -> φ !! v = None -> (size φ < size Y)%nat.
Proof.
  intros I Hv Hn. rewrite <- (size_dom φ). apply subset_size. split.
  - intros w [w' E]%elem_of_dom. now apply (i_dom _ _ _ _ I w w').
  - intros Hs. apply Hs in Hv. apply elem_of_dom in Hv as [w E]. congruence.
Qed.

(** The allocator could not copy a block: [malloc] had refused memory. *)
Lemma alloc_refused φ T H r v msg :
  inv φ T H r -> v ∈ Y -> φ !! v = None -> msg = oom_msg /\ ~ malloc_gives 3 (malloc_answers r) -> oom msg.
Proof.
  intros I Hv Hn [-> Hno]. split; [done|]. intros Hg. apply Hno. intros i Hi.
  destruct (i_malloc _ _ _ _ I) as (u & Eu & Hu). pose proof (size_lt φ T H r v I Hv Hn).
  destruct (Hg (length u + i)%nat) as (raw & E & Hraw); [lia|]. exists raw. split; [|done].
  rewrite Eu, lookup_app_r in E by lia. now replace (length u + i - length u)%nat with i in E by lia.
Qed.

Lemma valid_settles x : valid x -> settles depth x = true.
Proof.
  intros Hx. destruct (young x) eqn:Ey; [|destruct depth; cbn; now rewrite Ey].
  destruct (Hx Ey) as [Hv|(b & Ht & _)]; [now apply (yo_settles HY)|].
  destruct depth; cbn; rewrite Ey, Ht; done.
Qed.

(** A block already copied. *)
Lemma oldify_forwarded fuel φ T H v v' p r :
  inv φ T H r -> slot φ T H p -> φ !! v = Some v' ->
  outcome (oldify_post φ T H v p r) (oldify_one (S fuel) v p r).
Proof.
  intros I Hp E. destruct (i_dom _ _ _ _ I v v' E) as [Hv _]. destruct (i_fwd _ _ _ _ I v v' E) as [Hh Hf].
  cbn [oldify_one]. rewrite (is_young_young _ _ _ _ _ I), (Y_young v Hv), Hd_val_ld, Hh.
  change (0 =? 0) with true. cbn [outcome_of]. rewrite Field_ld, Z.mul_0_r, Z.add_0_r, Hf.
  apply oldify_write; try done. apply moved_block; [now apply Y_young|done].
Qed.

Lemma hd_nonzero m v : 1 <= Wosize_val m v -> (Hd_val m v =? 0) = false.
Proof. intros Hs. apply Z.eqb_neq. intros E. unfold Wosize_val in Hs. rewrite E in Hs. now cbn in Hs. Qed.

(** The header of a block not copied yet. *)
Lemma hd_fresh φ T H r v : inv φ T H r -> v ∈ Y -> φ !! v = None -> Hd_val (rmem r) v = Hd_val m0 v.
Proof.
  intros I Hv Hn. rewrite !Hd_val_ld. destruct (yo_block HY v Hv) as (_ & _ & _ & Hsz & _).
  apply (read_young φ T H r v); [done|done|unfold block_words; lia|now left].
Qed.

(** The loop over a block that goes on the list, or that was copied. *)
Lemma oldify_big fuel φ T H v p r :
  inv φ T H r -> slot φ T H p -> v ∈ Y -> Tag_val m0 v < Infix_tag -> 1 < Wosize_val m0 v ->
  outcome (oldify_post φ T H v p r) (oldify_one (S fuel) v p r).
Proof.
  intros I Hp Hv Ht Hsz. destruct (φ !! v) as [v'|] eqn:E; [now apply (oldify_forwarded fuel φ T H v v')|].
  cbn [oldify_one]. rewrite (is_young_young _ _ _ _ _ I), (Y_young v Hv), (hd_fresh _ _ _ _ _ I Hv E).
  rewrite hd_nonzero by lia. change (Tag_hd (Hd_val m0 v)) with (Tag_val m0 v).
  change (Wosize_hd (Hd_val m0 v)) with (Wosize_val m0 v).
  destruct (Z.ltb_spec (Tag_val m0 v) Infix_tag); [|lia]. destruct (yo_block HY v Hv) as (_ & _ & _ & Hmax & _).
  pose proof (major_alloc_ok (used φ) (Wosize_val m0 v) (Tag_val m0 v) r (i_alloc _ _ _ _ I) (i_minor _ _ _ _ I) Hmax
    (Tag_hd_range _)) as Hal.
  unfold bind. destruct (major_alloc _ _ r) as [v' r1| |]; [|done|now apply (alloc_refused φ T H r v)].
  destruct (Z.ltb_spec 1 (Wosize_val m0 v)); [|lia]. cbn [outcome_of].
  destruct (promote_spec φ T H r r1 v v' p I Hp Hv E Hal) as (_ & _ & _ & _ & _ & _ & _ & _ & _ & _ & ->).
  now apply promote_todo.
Qed.

(** What becomes of a block that is not a forwarding block. *)
Lemma moved_inv φ x y : x ∈ Y -> Tag_val m0 x <> Forward_tag -> moved φ x y -> φ !! x = Some y.
Proof.
  intros Hx Ht Hm. destruct (yo_block HY x Hx) as (_ & _ & _ & _ & Hi). destruct Hm as [x Hy|x y Hy E|x b y Hy (E & _)|x y Hy E]; try done.
  now rewrite (Y_young x Hx) in Hy.
Qed.

(** A pointer into a closure: the closure is copied. *)
Lemma oldify_infix fuel φ T H v b p r :
  inv φ T H r -> slot φ T H p -> young v = true -> infix_of v b ->
  outcome (oldify_post φ T H v p r) (oldify_one (S (S fuel)) v p r).
Proof.
  intros I Hp Hy Hinf. pose proof Hinf as (Ht & Hb & HbY & Hbt & Hlo & Hhi).
  assert (Hd : Hd_val (rmem r) v = Hd_val m0 v).
  { rewrite !Hd_val_ld. apply (read_young φ T H r b); [done|done|unfold block_words; lia|right; lia]. }
  unfold Tag_val in Ht. remember (S fuel) as f eqn:Ef. cbn [oldify_one]. rewrite (is_young_young _ _ _ _ _ I), Hy, Hd.
  destruct (Z.eqb_spec (Hd_val m0 v) 0) as [E0|_]; [now rewrite E0 in Ht|]. rewrite Ht.
  change (Infix_tag <? Infix_tag) with false. change (No_scan_tag <=? Infix_tag) with false.
  change (Infix_tag =? Infix_tag) with true. cbv iota.
  replace (v - Infix_offset_hd (Hd_val m0 v)) with b by done. subst f.
  eapply outcome_bind; [apply (oldify_big fuel φ T H b p r); try done; lia|]. clear Hd.
  intros _ r' (φ' & T' & [O1 O2 O3 O4 O5] & Hm). cbn [outcome_of].
  assert (exists y, φ' !! b = Some y /\ ld (rmem r') p = y) as (y & Ey & Epy).
  { exists (ld (rmem r') p). split; [|done]. apply moved_inv in Hm; try done. unfold Forward_tag, Infix_tag in *. lia. }
  destruct (i_shape _ _ _ _ O2 b y Ey) as [_ Q1 Q2 _ _ _].
  assert (Hp' : slot φ' T' H p) by now apply (slot_mono φ φ' T T' H H).
  assert (Eoff : Infix_offset_hd (Hd_val m0 v) = v - b) by (unfold Infix_offset_val in Hb; lia).
  rewrite Epy, Eoff, u64_id by (unfold isu64; lia).
  destruct (inv_write φ' T' H r' p (y + (v - b)) O2 Hp') as [I' Hk'].
  exists φ', T'. split.
  - constructor; try done. apply (kept_trans φ φ' p p r r'); auto.
  - unfold set_slot; rsimp. rewrite ld_st_eq. now apply moved_infix.
Qed.

(** A block of one field: the loop goes on with the field. *)
Lemma oldify_chain φ φ' T T' (H : Z -> Prop) v v' p r r2 r' :
  slot φ T H p -> φ !! v = None -> v ∈ Y -> Wosize_val m0 v = 1 -> (~ used φ v') ->
  let φ1 := <[v := v']> φ in
  kept φ p r r2 -> ld (rmem r2) p = v' -> used φ p -> ~ in_young p ->
  oldified φ1 T (fun a => H a \/ a = v') v' r2 φ' T' r' -> moved φ' (ld m0 v) (ld (rmem r') v') ->
  oldify_post φ T H v p r r'.
Proof.
  intros Hp Hn Hv Hsz Hv' φ1 Hk Ep Hup Hyp [O1 O2 O3 O4 O5] Hm. exists φ', T'.
  assert (Hs : φ ⊆ φ1) by now apply insert_subseteq.
  assert (E' : φ' !! v = Some v') by (apply (lookup_weaken φ1); [apply lookup_insert_eq|done]).
  assert (Hpv : p <> v') by (intros ->; done).
  split; [constructor|].
  - now trans φ1.
  - apply (inv_fill φ' T' H r' v v' 0); rewrite ?Z.mul_0_r, ?Z.add_0_r; try done; lia.
  - apply (kept_trans φ φ1 p v' r r2); auto.
  - unfold φ1 in O4. rewrite map_size_insert_None in O4 by done. lia.
  - intros w Hw. destruct (O5 w Hw) as [?|E]; [now left|]. right. apply lookup_insert_None in E. apply E.
  - rewrite (kept_frame φ1 v' r2 r' p), Ep; try done; [|now apply (used_mono φ)].
    apply moved_block; [now apply Y_young|done].
Qed.

Lemma oldify_one_spec fuel : forall n φ T H v p r,
  inv φ T H r -> slot φ T H p -> valid v -> settles n v = true -> (need φ n <= fuel)%nat ->
  outcome (oldify_post φ T H v p r) (oldify_one fuel v p r).
Proof.
  induction fuel as [|fuel IH]; intros n φ T H v p r I Hp Hval Hset Hf; [pose proof (need_pos φ n); lia|].
  destruct (young v) eqn:Hy.
  2: { cbn [oldify_one]. rewrite (is_young_young _ _ _ _ _ I), Hy. cbn [outcome_of]. apply oldify_write; try done. now apply moved_old. }
  destruct (Hval Hy) as [Hv|(b & Hinf)].
  2: { destruct fuel as [|fuel]; [pose proof (need_pos φ n); lia|]. now apply (oldify_infix fuel φ T H v b). }
  destruct (φ !! v) as [v'|] eqn:E; [now apply (oldify_forwarded fuel φ T H v v')|].
  destruct (yo_block HY v Hv) as (_ & _ & _ & Hmax & Hinfx).
  cbn [oldify_one]. rewrite (is_young_young _ _ _ _ _ I), Hy, (hd_fresh _ _ _ _ _ I Hv E).
  rewrite hd_nonzero by lia. change (Tag_hd (Hd_val m0 v)) with (Tag_val m0 v).
  change (Wosize_hd (Hd_val m0 v)) with (Wosize_val m0 v). cbv iota zeta.
  pose proof (major_alloc_ok (used φ) (Wosize_val m0 v) (Tag_val m0 v) r (i_alloc _ _ _ _ I) (i_minor _ _ _ _ I) Hmax
    (Tag_hd_range _)) as Hal.
  destruct (Z.ltb_spec (Tag_val m0 v) Infix_tag) as [Ht|Ht].
  - unfold bind. destruct (major_alloc _ _ r) as [v' r1| |]; [|done|now apply (alloc_refused φ T H r v)].
    destruct (promote_spec φ T H r r1 v v' p I Hp Hv E Hal) as (_ & Hnew & _ & _ & _ & _ & _ & _ & _ & _ & ->).
    destruct (Z.ltb_spec 1 (Wosize_val m0 v)) as [Hs|Hs]; [now apply promote_todo|].
    destruct (promote_one φ T H r r1 v v' p I Hp Hv E Hal Ht ltac:(lia)) as (I1 & Hp1 & Hk1 & Ep1).
    destruct (slot_apart _ _ _ _ _ I Hp) as (Hup & Hyp & _).
    assert (Hval0 : valid (ld m0 v)).
    { replace v with (v + 8 * 0) by lia. rewrite <- Field_ld. apply (yo_fields HY); [done| |lia]. unfold No_scan_tag, Infix_tag in *. lia. }
    rewrite Field_addr_eq, Z.mul_0_r, Z.add_0_r.
    eapply outcome_weaken; [apply (IH depth _ T _ (ld m0 v) v' _ I1 Hp1 Hval0)|].
    + now apply valid_settles.
    + pose proof (need_insert φ v v' n E (size_lt φ T H r v I Hv E)). lia.
    + intros r' (φ' & T' & Ho & Hm). apply (oldify_chain φ φ' T T' H v v' p r (set_forward v v' (set_slot p v' r1))); try done; [lia|].
      apply Hnew. unfold block_words. lia.
  - destruct (Z.leb_spec No_scan_tag (Tag_val m0 v)) as [Hns|Hns].
    + unfold bind. destruct (major_alloc _ _ r) as [v' r1| |]; [|done|now apply (alloc_refused φ T H r v)]. now apply promote_noscan.
    + assert (Hfw : Tag_val m0 v = Forward_tag) by (unfold No_scan_tag, Infix_tag, Forward_tag in *; lia).
      rewrite Hfw. change (Forward_tag =? Infix_tag) with false. cbv iota. unfold Forward_val. rewrite Field_ld.
      rewrite (read_young φ T H r v) by (done || (unfold block_words; lia) || (now left)). rewrite <- Field_ld.
      destruct n as [|n]; cbn [settles] in Hset; rewrite Hy, Hfw in Hset; [done|]. cbn in Hset.
      eapply outcome_weaken; [apply (IH n φ T H (Field m0 v 0) p r); try done|].
      * apply (yo_fields HY); [done| |lia]. rewrite Hfw. done.
      * rewrite need_S in Hf. lia.
      * intros r' (φ' & T' & Ho & Hm). exists φ', T'. split; [done|]. now apply moved_forward.
Qed.

(** ** Finishing the copies *)

(** The words of [K] but those of [W] are kept, outside the minor heap. *)
Definition steady (W : Z -> Prop) (r r' : runtime) : Prop :=
  (forall a, K a -> ~ in_young a -> ~ W a -> ld (rmem r') a = ld (rmem r) a) /\
  stk r' = stk r /\ local_roots (glb r') = local_roots (glb r) /\
  mnr (set_oldify_todo_list 0 r') = mnr (set_oldify_todo_list 0 r).
Definition nowhere (a : Z) : Prop := False.

Lemma steady_refl W r : steady W r r.
Proof. now split. Qed.
Lemma steady_trans W r1 r2 r3 : steady W r1 r2 -> steady W r2 r3 -> steady W r1 r3.
Proof.
  intros (A1 & A2 & A3 & A4) (B1 & B2 & B3 & B4). split; [|now rewrite B2, B3, B4].
  intros a Ha Hy Hw. rewrite B1 by done. now apply A1.
Qed.
Lemma steady_mono (W W' : Z -> Prop) r r' : (forall a, W a -> W' a) -> steady W r r' -> steady W' r r'.
Proof. intros HW (H1 & H2). split; [|done]. intros a Ha Hy Hn. apply H1; auto. Qed.
Lemma kept_steady φ p r r' : kept φ p r r' -> steady (eq p) r r'.
Proof. intros (H1 & H2). split; [|done]. intros a Ha Hy Hn. apply H1; [now left|done|congruence]. Qed.
Lemma kept_steady_new φ T H r0 v v' i r r' :
  inv φ T H r0 -> φ !! v = Some v' -> 0 <= i < Wosize_val m0 v -> kept φ (v' + 8 * i) r r' -> steady nowhere r r'.
Proof.
  intros I E Hi (H1 & H2). split; [|done]. intros a Ha Hy _. apply H1; [now left|done|]. intros ->.
  apply (cs_new _ _ _ (i_shape _ _ _ _ I v v' E)) in Ha; [done|]. unfold block_words. lia.
Qed.

Lemma size_le φ T H r : inv φ T H r -> (size φ <= size Y)%nat.
Proof.
  intros I. rewrite <- (fin_map_dom.size_dom φ). apply subseteq_size.
  intros w [w' E]%elem_of_dom. now apply (i_dom _ _ _ _ I w w').
Qed.

Lemma todo_le φ T H r : inv φ T H r -> (length T <= size φ)%nat.
Proof.
  intros I. rewrite <- (fin_map_dom.size_dom φ), <- (size_list_to_set (C := gset Z) T) by apply I. apply subseteq_size.
  intros w Hw%elem_of_list_to_set. destruct (i_todo_in _ _ _ _ I w Hw) as (w' & E & _). apply elem_of_dom. eauto.
Qed.

(** The state between two steps: [oldified] without a slot. *)
Record progress (W : Z -> Prop) (φ : gmap Z Z) (T : list Z) (H : Z -> Prop) (r : runtime)
    (φ' : gmap Z Z) (T' : list Z) (r' : runtime) : Prop := {
  p_sub : φ ⊆ φ';
  p_inv : inv φ' T' H r';
  p_steady : steady W r r';
  p_size : (length T' + size φ <= length T + size φ')%nat;
  p_todo w : w ∈ T' -> w ∈ T \/ φ !! w = None
}.

Lemma progress_trans W φ1 T1 H1 r1 φ2 T2 H2 r2 φ3 T3 H3 r3 :
  progress W φ1 T1 H1 r1 φ2 T2 r2 -> progress W φ2 T2 H2 r2 φ3 T3 r3 -> H3 = H2 ->
  progress W φ1 T1 H3 r1 φ3 T3 r3.
Proof.
  intros [A1 A2 A3 A4 A5] [B1 B2 B3 B4 B5] ->. constructor; try done.
  - now trans φ2.
  - now apply (steady_trans W r1 r2).
  - lia.
  - intros w Hw. destruct (B5 w Hw) as [Hw2|Hw2]; [auto|]. right. now apply (lookup_weaken_None φ1 φ2).
Qed.

(** The fields from [i] on of the block [v], copied at [v'], have no value yet. *)
Definition rest_of (v v' i a : Z) : Prop := exists j, i <= j < Wosize_val m0 v /\ a = v' + 8 * j.

(** One field of a block of the list. *)
Lemma mopup_field φ T r r' v v' i :
  inv φ T (rest_of v v' i) r -> φ !! v = Some v' -> 0 <= i < Wosize_val m0 v ->
  oldify_post φ T (rest_of v v' i) (ld m0 (v + 8 * i)) (v' + 8 * i) r r' ->
  exists φ' T', progress nowhere φ T (rest_of v v' (i + 1)) r φ' T' r'.
Proof.
  intros I E Hi (φ' & T' & [O1 O2 O3 O4 O5] & Hm). exists φ', T'. constructor; try done.
  - apply (inv_fill φ' T' _ r' v v' i); try done; [|now apply (lookup_weaken φ)].
    apply (inv_holes _ _ _ _ _ O2). intros w w' j _ _ _ Hn. left.
    intros (k & Hk & Ek). apply Hn. destruct (decide (k = i)) as [->|Hne]; [now right|]. left. exists k. lia.
  - now apply (kept_steady_new φ T (rest_of v v' i) r v v' i).
Qed.

Lemma rest_slot φ T v v' i :
  φ !! v = Some v' -> (v ∉ T) -> Tag_val m0 v < No_scan_tag -> 0 <= i < Wosize_val m0 v ->
  slot φ T (rest_of v v' i) (v' + 8 * i).
Proof. intros E HT Ht Hi. right. split; [exists i; split; [lia|done]|]. exists v, v', i. done. Qed.

(** The loop over the fields. *)
Lemma mopup_fields_spec fuel v v' : forall n i φ T r,
  (need φ depth <= fuel)%nat ->
  inv φ T (rest_of v v' i) r -> φ !! v = Some v' -> (v ∉ T) -> Tag_val m0 v < No_scan_tag ->
  1 <= i <= Wosize_val m0 v -> Wosize_val m0 v <= i + Z.of_nat n ->
  outcome (fun r' => exists φ' T', progress nowhere φ T nowhere r φ' T' r') (mopup_fields fuel n i v v' r).
Proof.
  induction n as [|n IH]; intros i φ T r Hf I E HT Ht Hi Hn; cbn [mopup_fields].
  - exists φ, T. constructor; try done; try lia; [|now left].
    apply (inv_holes _ _ _ _ _ I). intros w w' j _ _ _ _. left. intros (k & Hk & _). lia.
  - rewrite (cs_size _ _ _ (i_shape _ _ _ _ I v v' E)). destruct (Z.ltb_spec i (Wosize_val m0 v)) as [Hlt|Hge].
    2: { exists φ, T. constructor; try done; try lia; [|now left].
         apply (inv_holes _ _ _ _ _ I). intros w w' j _ _ _ _. left. intros (k & Hk & _). lia. }
    destruct (i_dom _ _ _ _ I v v' E) as [Hv _].
    rewrite Field_ld, Field_addr_eq, (read_young φ T _ r v _ I Hv) by (unfold block_words; lia || (right; lia)).
    pose proof (rest_slot φ T v v' i E HT Ht ltac:(lia)) as Hp.
    assert (Hval : valid (ld m0 (v + 8 * i))) by (rewrite <- Field_ld; apply (yo_fields HY); [done|done|lia]).
    eapply outcome_bind.
    + rewrite (is_young_young _ _ _ _ _ I). instantiate (1 := fun r' => exists φ' T', progress nowhere φ T (rest_of v v' (i + 1)) r φ' T' r').
      eapply (outcome_weaken (oldify_post φ T (rest_of v v' i) (ld m0 (v + 8 * i)) (v' + 8 * i) r));
        [|intros r' Hr; now apply (mopup_field φ T r r' v v' i); [done|done|lia|]].
      destruct (young (ld m0 (v + 8 * i))) eqn:Ey.
      * apply (oldify_one_spec fuel depth); try done. now apply valid_settles.
      * apply oldify_write; try done. now apply moved_old.
    + intros _ r' (φ' & T' & Hpr). pose proof Hpr as [P1 P2 P3 P4 P5].
      eapply outcome_weaken; [apply (IH (i + 1) φ' T' r')|]; try done; try lia.
      * etransitivity; [|exact Hf]. now apply need_mono.
      * now apply (lookup_weaken φ).
      * intros Hin. destruct (P5 v Hin); [done|congruence].
      * intros r'' (φ'' & T'' & Hpr'). exists φ'', T''. now apply (progress_trans _ _ _ _ _ _ _ _ _ _ _ _ _ Hpr Hpr').
Qed.

(** Taking the first block off the list. *)
Lemma mopup_pop φ v T r :
  inv φ (v :: T) nowhere r ->
  exists v', φ !! v = Some v' /\ oldify_todo_list (mnr r) = v /\ v <> 0 /\ Field (rmem r) v 0 = v' /\
    Field (rmem r) v' 0 = ld m0 v /\ (v ∉ T) /\ Tag_val m0 v < No_scan_tag /\ 1 < Wosize_val m0 v /\
    inv φ T (rest_of v v' 0) (set_oldify_todo_list (Field (rmem r) v' 1) r).
Proof.
  intros I. destruct (i_todo _ _ _ _ I) as (Et & v' & E & Hl).
  destruct (i_todo_in _ _ _ _ I v (list_elem_of_here _ _)) as (w' & Ew & Ht & Hsz & Hf). simplify_eq.
  pose proof (i_nodup _ _ _ _ I) as [HvT Hnd]%NoDup_cons. destruct (i_dom _ _ _ _ I _ _ E) as [Hv _].
  destruct (yo_block HY _ Hv) as (_ & B1 & _). pose proof (yo_start HY) as Hys. exists v'. destruct (i_fwd _ _ _ _ I _ _ E) as [_ F2].
  rewrite !Field_ld, Z.mul_0_r, !Z.add_0_r. splits; try done; try (unfold No_scan_tag, Infix_tag in *; lia).
  pose proof I as [I1 I2 I3 I4 I5 I6 I7 I8 I9 I10 I11 I12 I13 I14 I15]. constructor; try done.
  - intros w w' i Ew' Hw HwT Hi Hn. apply I10; try done; [|tauto]. intros [->|Hin]%elem_of_cons; [|done].
    rewrite E in Ew'. injection Ew' as <-. apply Hn. exists i. split; [lia|done].
  - intros w Hw. apply I13. now apply list_elem_of_further.
  - now apply major_inv_mnr.
Qed.

(** The loop over the list empties it. *)
Lemma oldify_mopup_spec fuel : forall n φ T r,
  inv φ T nowhere r -> (need φ depth <= fuel)%nat -> (length T + (size Y - size φ) < n)%nat ->
  outcome (fun r' => exists φ', progress nowhere φ T nowhere r φ' [] r') (oldify_mopup fuel n r).
Proof.
  induction n as [|n IH]; intros φ T r I Hf Hn; [lia|]. cbn [oldify_mopup]. destruct T as [|v T].
  { rewrite (i_todo _ _ _ _ I). change (0 =? 0) with true. exists φ. constructor; try done; auto using steady_refl. }
  destruct (mopup_pop φ v T r I) as (v' & E & -> & Hv0 & -> & Ef & HvT & Ht & Hsz & I1).
  destruct (Z.eqb_spec v 0); [done|]. set (r1 := set_oldify_todo_list (Field (rmem r) v' 1) r) in *.
  assert (Hst : steady nowhere r r1) by now split.
  change (rmem r1) with (rmem r). rewrite Ef, Field_addr_eq.
  pose proof (rest_slot φ T v v' 0 E HvT Ht ltac:(lia)) as Hp.
  destruct (i_dom _ _ _ _ I v v' E) as [Hv _].
  assert (Hval : valid (ld m0 v)).
  { replace v with (v + 8 * 0) by lia. rewrite <- Field_ld. apply (yo_fields HY); [done|done|lia]. }
  eapply outcome_bind.
  { rewrite (is_young_young _ _ _ _ _ I1). instantiate (1 := fun r' => exists φ' T', progress nowhere φ T (rest_of v v' 1) r1 φ' T' r').
    eapply (outcome_weaken (oldify_post φ T (rest_of v v' 0) (ld m0 v) (v' + 8 * 0) r1)).
    2: { intros r' Hr. apply (mopup_field φ T r1 r' v v' 0); [done|done|lia|]. now rewrite Z.mul_0_r, Z.add_0_r. }
    destruct (young (ld m0 v)) eqn:Ey.
    - apply (oldify_one_spec fuel depth); try done. now apply valid_settles.
    - exists φ, T. split; [constructor; try done; auto|]. rewrite Z.mul_0_r, Z.add_0_r. change (rmem r1) with (rmem r).
      rewrite Field_ld, Z.mul_0_r, Z.add_0_r in Ef. rewrite Ef. now apply moved_old. }
  intros _ r2 (φ2 & T2 & Hpr2). pose proof Hpr2 as [P1 P2 P3 P4 P5].
  assert (E2 : φ2 !! v = Some v') by now apply (lookup_weaken φ).
  assert (Hf2 : (need φ2 depth <= fuel)%nat) by (etransitivity; [|exact Hf]; now apply need_mono).
  eapply outcome_bind.
  { apply (mopup_fields_spec fuel v v' _ 1 φ2 T2 r2); try done; [|lia|].
    - intros Hin. destruct (P5 v Hin); [done|congruence].
    - rewrite (cs_size _ _ _ (i_shape _ _ _ _ P2 v v' E2)). lia. }
  intros _ r3 (φ3 & T3 & Hpr3). pose proof (progress_trans _ _ _ _ _ _ _ _ _ _ _ nowhere _ Hpr2 Hpr3 eq_refl) as Hpr.
  pose proof Hpr as [Q1 Q2 Q3 Q4 Q5].
  pose proof (size_le _ _ _ _ Q2). pose proof (map_subseteq_size _ _ Q1).
  eapply outcome_weaken; [apply (IH φ3 T3 r3)|]; try done.
  - etransitivity; [|exact Hf]. now apply need_mono.
  - cbn [length] in Hn. lia.
  - intros r4 (φ4 & Hpr4). exists φ4.
    pose proof (progress_trans _ _ _ _ _ _ _ _ _ _ _ nowhere _ Hpr Hpr4 eq_refl) as [R1 R2 R3 R4 R5].
    constructor; try done; [cbn [length] in *; lia|intros w Hw%elem_of_nil; done].
Qed.

(** ** The roots *)

Lemma moved_not_young φ T H r x y : inv φ T H r -> moved φ x y -> young y = false.
Proof.
  intros I. induction 1 as [x Hy|x y Hy E|x b y Hy (_ & _ & _ & _ & Hlo & Hhi) E|x y Hy Ht Hm IH]; [done| | |done].
  - apply not_true_iff_false. intros Hy'%young_in. destruct (i_dom _ _ _ _ I x y E) as [Hx _].
    destruct (yo_block HY x Hx) as (_ & _ & _ & Hsz & _).
    apply (cs_new _ _ _ (i_shape _ _ _ _ I x y E) y); [unfold block_words; lia|now apply (yo_used HY)].
  - apply not_true_iff_false. intros Hy'%young_in.
    apply (cs_new _ _ _ (i_shape _ _ _ _ I b y E) (y + (x - b))); [unfold block_words; lia|now apply (yo_used HY)].
Qed.

(** The slots the collector visits, from the state [r0]. *)
Context (W : Z -> Prop) (r0 : runtime) (fuel : nat).
Context (Hr0 : rmem r0 = m0) (Hfuel : (need ∅ depth <= fuel)%nat).
Context (HW : forall a, W a -> K a /\ ~ in_young a /\ valid (ld m0 a)).

(** The slots of [D] have been visited. *)
Record rooted (D : Z -> Prop) (φ : gmap Z Z) (T : list Z) (r : runtime) : Prop := {
  rt_inv : inv φ T nowhere r;
  rt_steady : steady W r0 r;
  rt_slot a : W a -> ld (rmem r) a = ld m0 a \/ moved φ (ld m0 a) (ld (rmem r) a);
  rt_done a : D a -> W a /\ moved φ (ld m0 a) (ld (rmem r) a)
}.

(** The slots of [D] have been visited, whatever was copied. *)
Definition visited (D : Z -> Prop) (r : runtime) : Prop := exists φ T, rooted D φ T r.
Definition scans : list Z -> M unit -> Prop := Roots.scans oom visited.

Lemma visited_equiv (D D' : Z -> Prop) r : (forall a, D' a -> D a) -> visited D r -> visited D' r.
Proof. intros HD (φ & T & [R1 R2 R3 R4]). exists φ, T. constructor; auto. Qed.

(** One slot; it may have been visited before. *)
Lemma scans_slot p : W p -> scans [p] (Call_action (oldify_one fuel) p).
Proof.
  intros Hp D r (φ & T & [R1 R2 R3 R4]). destruct (HW p Hp) as (HpK & Hpy & Hpv). unfold Call_action.
  assert (Hval : valid (ld (rmem r) p)).
  { destruct (R3 p Hp) as [->|Hm]; [done|]. intros Hy. now rewrite (moved_not_young φ T nowhere r _ _ R1 Hm) in Hy. }
  eapply outcome_weaken; [apply (oldify_one_spec fuel depth φ T nowhere _ p r R1); try done|].
  - now left.
  - now apply valid_settles.
  - etransitivity; [|exact Hfuel]. apply need_mono, map_empty_subseteq.
  - intros r' (φ' & T' & [O1 O2 O3 O4 O5] & Hm). exists φ', T'.
    assert (Hpm : moved φ' (ld m0 p) (ld (rmem r') p)).
    { destruct (R3 p Hp) as [E|Hm0]; [now rewrite <- E|]. apply (moved_mono φ φ') in Hm0; [|done].
      pose proof (moved_not_young φ' T' nowhere r' _ _ O2 Hm0) as Hy.
      replace (ld (rmem r') p) with (ld (rmem r) p); [done|]. destruct Hm; congruence. }
    assert (Hoth : forall a, W a -> a <> p -> ld (rmem r') a = ld (rmem r) a).
    { intros a Ha Hne. destruct (HW a Ha) as (? & ? & _). apply (kept_frame φ p); try done. now left. }
    constructor; try done.
    + apply (steady_trans W r0 r); [done|]. apply (steady_mono (eq p)); [now intros a <-|]. now apply (kept_steady φ).
    + intros a Ha. destruct (decide (a = p)) as [->|Hne]; [now right|]. rewrite Hoth by done.
      destruct (R3 a Ha); [now left|]. right. now apply (moved_mono φ).
    + intros a Ha. destruct (decide (a = p)) as [->|Hne]; [done|].
      destruct Ha as [Ha|Ha%list_elem_of_singleton]; [|done]. destruct (R4 a Ha) as [HaW Ham].
      split; [done|]. rewrite Hoth by done. now apply (moved_mono φ).
Qed.

(** A word that is neither young nor a slot does not change. *)
Definition frame_word (a : Z) : Prop := K a /\ ~ in_young a /\ ~ W a.
Lemma visited_frame D r a : visited D r -> frame_word a -> ld (rmem r) a = ld m0 a.
Proof. intros (φ & T & HR) (H1 & H2 & H3). rewrite <- Hr0. now apply (rt_steady _ _ _ _ HR). Qed.

(** The roots and the table of references. *)
Lemma scans_roots roots ws l :
  root_slots fuel roots r0 = Some (ws, l) -> (forall a, a ∈ ws -> frame_word a) -> (forall a, a ∈ l -> W a) ->
  scans l (oldify_local_roots fuel roots).
Proof.
  unfold root_slots. rewrite Hr0. intros E Hw Hl.
  destruct (local_slots fuel m0 (local_roots (glb r0))) as [[ws' loc]|] eqn:E1; [|done]. cbn [mbind option_bind] in E.
  destruct (global_roots fuel (root_list roots)) as [glo|] eqn:E2; [|done]. cbn [mbind option_bind] in E.
  injection E as <- <-. set (stack := word_slots _ _) in *. set (ents := entry_slots _ _ _) in *.
  assert (Hsub : forall k : list Z, (forall a, a ∈ k -> a ∈ stack ++ loc ++ glo ++ ents ++ hook_slots roots) -> forall a, a ∈ k -> W a) by (intros k Hk a Ha; apply Hl, Hk, Ha).
  pose proof (scans_bind oom _ visited_equiv) as Hbind. pose proof (scans_slots _ _ visited_equiv W _ scans_slot) as Hsl.
  intros D r HI. unfold oldify_local_roots.
  assert (Est : forall D r, visited D r -> stk r = stk r0 /\ local_roots (glb r) = local_roots (glb r0)).
  { intros D1 r1 (φ & T & HR). now destruct (rt_steady _ _ _ _ HR) as (_ & ? & ? & _). }
  rewrite (proj1 (Est D r HI)).
  refine (Hbind _ _ _ _ _ _ D r HI); [apply (scans_words _ _ visited_equiv W _ scans_slot), Hsub; intros a; rewrite !elem_of_app; auto|].
  apply Hbind.
  { apply (scans_read _ _ loc (scan_local_roots (oldify_one fuel) fuel (local_roots (glb r0)))
      (fun r => scan_local_roots (oldify_one fuel) fuel (local_roots (glb r)))).
    - intros D1 r1 HI1. now rewrite (proj2 (Est D1 r1 HI1)).
    - apply (scans_local _ _ visited_equiv m0 W frame_word _ scans_slot visited_frame fuel _ ws'); [done|done|].
      apply Hsub. intros a; rewrite !elem_of_app; auto. }
  apply Hbind; [|apply Hbind].
  - unfold scan_global_roots. rewrite E2. apply Hsl, Hsub. intros a; rewrite !elem_of_app; auto.
  - apply (scans_entries _ _ visited_equiv W _ scans_slot), Hsub. intros a; rewrite !elem_of_app; auto.
  - apply Hsl, Hsub. intros a; rewrite !elem_of_app; auto.
Qed.

(** The start of the collection. *)
Lemma inv_init :
  young_start (mnr r0) = ys -> young_end (mnr r0) = ye -> in_minor_collection (mnr r0) = true ->
  oldify_todo_list (mnr r0) = 0 -> major_inv K r0 -> malloc_answers r0 = la0 -> visited (fun _ => False) r0.
Proof.
  intros H1 H2 H3 H4 H5 H6. exists ∅, []. constructor; [|apply steady_refl|intros; left; now rewrite Hr0|done].
  constructor; rewrite ?Hr0; try done; try (intros v Hv; now apply elem_of_nil in Hv).
  - now constructor.
  - apply (major_inv_equiv K); [|done]. intros a. split; [now left|]. intros [HK|(v & v' & E & _)]; done.
  - exists []. rewrite H6. split; [done|]. apply Nat.le_0_l.
Qed.

End Collection.

(** ** The whole collection *)

(** The state [r'] after the collection is the image of the state [r] by the map [φ]
    from the blocks copied to their copies.  [l] are the slots visited. *)
Record collected {A : MajorAlloc} (Y : gset Z) (K : Z -> Prop) (l : list Z) (φ : gmap Z Z) (r r' : runtime) : Prop := {
  c_dom v v' : φ !! v = Some v' -> v ∈ Y /\ Tag_val (rmem r) v <> Forward_tag;
  c_shape v v' : φ !! v = Some v' -> copy_shape (rmem r) K (rmem r') v v';
  c_disj v v' w w' a : φ !! v = Some v' -> φ !! w = Some w' ->
    block_words v' (Wosize_val (rmem r) v) a -> block_words w' (Wosize_val (rmem r) w) a -> v = w;
  c_noscan v v' i : φ !! v = Some v' -> No_scan_tag <= Tag_val (rmem r) v -> 0 <= i < Wosize_val (rmem r) v ->
    Field (rmem r') v' i = Field (rmem r) v i;
  c_scan v v' i : φ !! v = Some v' -> Tag_val (rmem r) v < No_scan_tag -> 0 <= i < Wosize_val (rmem r) v ->
    moved (rmem r) (young_start (mnr r)) (young_end (mnr r)) Y φ (Field (rmem r) v i) (Field (rmem r') v' i);
  c_slots a : a ∈ l ->
    moved (rmem r) (young_start (mnr r)) (young_end (mnr r)) Y φ (ld (rmem r) a) (ld (rmem r') a);
  c_frame a : K a -> ~ in_young (young_start (mnr r)) (young_end (mnr r)) a -> (a ∉ l) ->
    ld (rmem r') a = ld (rmem r) a;
  c_old x y : moved (rmem r) (young_start (mnr r)) (young_end (mnr r)) Y φ x y -> is_young_block (mnr r') y = false;
  c_heap : major_inv (used (rmem r) K φ) r'
}.

(** The minor heap is empty, and so is the table. *)
Definition minor_empty (r r' : runtime) : Prop :=
  young_start (mnr r') = young_start (mnr r) /\ young_end (mnr r') = young_end (mnr r) /\
  young_ptr (mnr r') = young_end (mnr r) /\ young_limit (mnr r') = young_start (mnr r) /\
  ref_table (mnr r') = [] /\ ref_table_limit (mnr r') = ref_table_threshold (mnr r') /\
  oldify_todo_list (mnr r') = 0 /\ in_minor_collection (mnr r') = false /\ stk r' = stk r.

Section Whole.
Context {A : MajorAlloc} {AOk : MajorAllocOk A}.
Context (Y : gset Z) (depth : nat) (K : Z -> Prop) (roots : root_set) (fuel : nat) (r : runtime) (ws l : list Z).

(** What the collector is called with: well-formed blocks, slots that hold values,
    and enough iterations. *)
Record collectable : Prop := {
  cl_young : young_ok (rmem r) (young_start (mnr r)) (young_end (mnr r)) Y depth K;
  cl_roots : root_slots fuel roots r = Some (ws, l);
  cl_slots a : a ∈ l ++ ref_table (mnr r) ->
    K a /\ ~ in_young (young_start (mnr r)) (young_end (mnr r)) a /\
    valid (rmem r) (young_start (mnr r)) (young_end (mnr r)) Y (ld (rmem r) a);
  cl_words a : a ∈ ws ->
    K a /\ ~ in_young (young_start (mnr r)) (young_end (mnr r)) a /\ (a ∉ l ++ ref_table (mnr r));
  cl_heap : major_inv K r;
  cl_todo : oldify_todo_list (mnr r) = 0;
  cl_fuel : (need Y depth ∅ depth <= fuel)%nat;
  cl_blocks : (size Y < fuel)%nat
}.

Lemma reset_spec words r1 r2 :
  reset_minor_heap r1 = (words, r2) ->
  rmem r2 = rmem r1 /\ stk r2 = stk r1 /\ r2 = set_mnr (mnr r2) r1 /\
  young_start (mnr r2) = young_start (mnr r1) /\ young_end (mnr r2) = young_end (mnr r1) /\
  young_ptr (mnr r2) = young_end (mnr r1) /\ young_limit (mnr r2) = young_start (mnr r1) /\
  ref_table (mnr r2) = [] /\ ref_table_limit (mnr r2) = ref_table_threshold (mnr r2) /\
  oldify_todo_list (mnr r2) = oldify_todo_list (mnr r1) /\ in_minor_collection (mnr r2) = false.
Proof.
  unfold reset_minor_heap. destruct (young_ptr (mnr r1) <? young_start (mnr r1)); intros [= <- <-]; rsimp; splits; done.
Qed.

Abbreviation ys := (young_start (mnr r)).
Abbreviation ye := (young_end (mnr r)).
Abbreviation slots := (l ++ ref_table (mnr r)).

(** The collection proper, between the two updates of [in_minor_collection]. *)
Definition collect_all : M unit :=
  oldify_local_roots fuel roots ;; (fun r => scan_slots (oldify_one fuel) (ref_table (mnr r)) r) ;;
  oldify_mopup fuel fuel.

(** The slots are updated and no block is left to do. *)
Lemma collect_all_spec :
  collectable ->
  let r0 := set_in_minor_collection true r in
  outcome_of (oom Y (malloc_answers r)) (fun r' => exists φ, inv (rmem r) ys ye Y K (malloc_answers r) φ [] nowhere r' /\
      steady ys ye K (fun a => a ∈ slots) r0 r' /\
      forall a, a ∈ slots -> moved (rmem r) ys ye Y φ (ld (rmem r) a) (ld (rmem r') a))
    (collect_all r0).
Proof.
  intros [Hyoung Hroots Hslots Hwords Hheap Htodo Hfuel Hblocks] r0. set (W := fun a => a ∈ slots).
  assert (R0 : visited (rmem r) ys ye Y K (malloc_answers r) W r0 (fun _ => False) r0) by (apply inv_init; try done; now apply major_inv_mnr).
  assert (Hs1 : scans (rmem r) ys ye Y K (malloc_answers r) W r0 l (oldify_local_roots fuel roots)).
  { apply (scans_roots _ _ _ _ depth _ _ Hyoung W r0 fuel eq_refl Hfuel Hslots roots ws l Hroots); [exact Hwords|].
    intros a Ha. apply elem_of_app. now left. }
  assert (Hs2 : scans (rmem r) ys ye Y K (malloc_answers r) W r0 (ref_table (mnr r)) (fun r => scan_slots (oldify_one fuel) (ref_table (mnr r)) r)).
  { apply (scans_read _ _ _ (scan_slots (oldify_one fuel) (ref_table (mnr r))) (fun r => scan_slots (oldify_one fuel) (ref_table (mnr r)))).
    - intros D r1 (φ & T & R1). destruct (rt_steady _ _ _ _ _ _ _ _ _ _ _ _ R1) as (_ & _ & _ & Hn). injection Hn as _ _ _ _ _ -> _ _ _ _ _ _. done.
    - apply (scans_slots _ _ (visited_equiv _ _ _ _ _ _ W r0) W); [|intros a Ha; apply elem_of_app; now right].
      exact (scans_slot _ _ _ _ depth _ _ Hyoung W r0 fuel Hfuel Hslots). }
  unfold collect_all. eapply outcome_bind; [apply (Hs1 _ _ R0)|]. intros [] r1 R1.
  eapply outcome_bind; [apply (Hs2 _ _ R1)|]. intros [] r2 (φ2 & T2 & R2). destruct R2 as [I2 S2 _ D2].
  pose proof (size_le _ _ _ _ _ _ _ _ _ _ I2).
  eapply outcome_weaken; [apply (oldify_mopup_spec _ _ _ _ depth _ _ Hyoung fuel fuel φ2 T2 r2 I2)|].
  - etransitivity; [|exact Hfuel]. apply need_mono, map_empty_subseteq.
  - pose proof (todo_le _ _ _ _ _ _ _ _ _ _ I2). lia.
  - intros r3 (φ3 & [P1 P2 P3 P4 P5]). exists φ3. split; [done|]. split.
    + apply (steady_trans _ _ _ _ _ r2); [done|]. now apply (steady_mono _ _ _ nowhere).
    + intros a Ha. destruct (D2 a) as [_ Hm]; [rewrite elem_of_app in Ha; tauto|].
      destruct (Hslots a Ha) as (HaK & Hay & _). rewrite (proj1 P3 a HaK Hay); [|tauto].
      now apply (moved_mono _ _ _ _ φ2).
Qed.
Lemma empty_minor_heap_spec :
  collectable ->
  match empty_minor_heap fuel roots r with
  | Ok (t, _) r' =>
      t = final_empty_young (finalisers roots) /\
      (young_ptr (mnr r) = young_end (mnr r) -> r' = r) /\
      (young_ptr (mnr r) <> young_end (mnr r) ->
         minor_empty r r' /\ exists φ, collected Y K (l ++ ref_table (mnr r)) φ r r')
  | Exn _ => False
  | Fatal msg => oom Y (malloc_answers r) msg
  end.
Proof.
  intros [Hyoung Hroots Hslots Hwords Hheap Htodo Hfuel Hblocks]. unfold empty_minor_heap.
  destruct (Z.eqb_spec (young_ptr (mnr r)) (young_end (mnr r))) as [He|He]; cbn [negb]; [done|].
  pose proof (collect_all_spec (Build_collectable Hyoung Hroots Hslots Hwords Hheap Htodo Hfuel Hblocks)) as Hall.
  cbv zeta in Hall. unfold collect_all in Hall. unfold bind, upd, ret in Hall |- *.
  destruct (oldify_local_roots fuel roots (set_in_minor_collection true r)) as [[] r1| |]; [|done|done].
  destruct (scan_slots (oldify_one fuel) (ref_table (mnr r1)) r1) as [[] r2| |]; [|done|done].
  destruct (oldify_mopup fuel fuel r2) as [[] r3| |]; [|done|done]. destruct Hall as (φ & I & Hst & Hmv).
  destruct (reset_minor_heap r3) as [words r4] eqn:E4.
  destruct (reset_spec _ _ _ E4) as (Em & Ek & Er & E1 & E2 & E3 & E5 & E6 & E7 & E8 & E9).
  split; [done|]. split; [done|]. intros _.
  pose proof (i_start _ _ _ _ _ _ _ _ _ _ I) as Is. pose proof (i_end _ _ _ _ _ _ _ _ _ _ I) as Ie. split.
  - unfold minor_empty. rewrite E1, E2, E3, E5, E8, Ek, Is, Ie. splits; try done; [apply (i_todo _ _ _ _ _ _ _ _ _ _ I)|]. apply Hst.
  - exists φ. destruct I as [I1 I2 I3 I4 I5 I6 I7 I8 I9 I10 I11 I12 I13 I14 I15].
    constructor; rewrite ?Em; try done.
    + intros. rewrite !Field_ld. now apply I9.
    + intros v v' i E Ht Hi. rewrite !Field_ld. apply I10; try done; [apply not_elem_of_nil|tauto].
    + intros a HK Hy Ha. now apply Hst.
    + intros x y Hxy. rewrite <- (moved_not_young (rmem r) ys ye Y depth K (malloc_answers r) Hyoung φ [] nowhere r3 x y); [|now constructor|done].
      unfold is_young_block, Is_young, young. now rewrite E1, E2, Is, Ie.
    + rewrite Er. now apply major_inv_mnr.
Qed.
End Whole.
