(* ===== verification/MinorHeap.v ===== *)
(** * The minor collector over the major heap

    [alloc_shr] implements the interface the minor collector is proved against
    ([MajorAlloc] of Minor.v), and the theorems on [empty_minor_heap] with this
    allocator. *)

From S2P Require Import Runtime Freelist Memory Fail Heap GlobRoots Finalise Roots Minor.

Section Shr.
(** The sentinel of the free list, the bound on its length and on the number of
    chunks, the largest block, and the bytes asked from [malloc] for a chunk. *)
Context (Fl_head : Z) (afuel : nat) (max N : Z).

(** [malloc]'s answers are blocks of [N] bytes that overlap neither one another, nor
    the chunks, nor the words in use. *)
Fixpoint fresh_answers (m : mem) (cl : list Z) (U : Z -> Prop) (l : list Z) : Prop :=
  match l with
  | [] => True
  | raw :: l =>
      (raw = 0 \/
       (0 < raw /\ raw + N <= B64 /\
        (forall d, d ∈ cl -> chunk_end m d <= raw \/ raw + N <= d - 32) /\
        (Fl_head + 16 <= raw \/ raw + N <= Fl_head - 16) /\
        (forall a, U a -> ~ raw <= a < raw + N) /\
        (forall raw', raw' ∈ l -> raw' = 0 \/ raw + N <= raw' \/ raw' + N <= raw))) /\
      fresh_answers m cl U l
  end.

(** The heap is well formed, and [U] is apart from the free blocks, the heads of the
    chunks, the sentinel, and the memory [malloc] is going to give. *)
Record shr_inv (U : Z -> Prop) (r : runtime) (cl l : list Z) : Prop := {
  si_arena : arena Fl_head r cl l;
  si_inc : 0 <= major_heap_increment (mjr r) <= Heap_chunk_max;
  si_req wo : 1 <= wo <= max -> chunk_request r wo + 4128 <= N;
  si_max : max <= Max_wosize;
  si_fuel : (S (length l) + length (malloc_answers r) < afuel)%nat;
  si_fuel_chunks : (length cl + length (malloc_answers r) < afuel)%nat;
  si_align b : b ∈ l -> b mod 8 = 0;
  si_free a b : U a -> b ∈ l -> ~ b - 8 <= a < block_end (rmem r) b;
  si_heads a c : U a -> c ∈ cl -> ~ c - 32 <= a < c;
  si_sentinel a : U a -> ~ Fl_head - 16 <= a < Fl_head + 16;
  si_fresh : fresh_answers (rmem r) cl U (malloc_answers r)
}.

#[global] Instance shr_alloc : MajorAlloc := {|
  major_alloc := alloc_shr Fl_head afuel;
  major_inv U r := exists cl l, shr_inv U r cl l;
  major_max := max
|}.

(** ** The laws *)

Lemma fresh_answers_mono m m' cl (U U' : Z -> Prop) l :
  (forall d, d ∈ cl -> chunk_end m' d = chunk_end m d) -> (forall a, U' a -> U a) ->
  fresh_answers m cl U l -> fresh_answers m' cl U' l.
Proof.
  intros Hm HU. induction l as [|raw l IH]; [done|]. intros [Hr Hl]. split; [|auto].
  destruct Hr as [?|(H1 & H2 & H3 & H4 & H5 & H6)]; [now left|]. right. splits; try done; auto.
  intros d Hd. rewrite Hm by done. auto.
Qed.
Lemma fresh_answers_suffix m cl U l l' : l' `suffix_of` l -> fresh_answers m cl U l -> fresh_answers m cl U l'.
Proof. intros [k ->]. induction k as [|x k IH]; [done|]. intros [_ H]. auto. Qed.

(** What one answer is apart from. *)
Lemma fresh_answers_elem m cl U l raw :
  fresh_answers m cl U l -> raw ∈ l -> raw = 0 \/
    (0 < raw /\ raw + N <= B64 /\ (forall d, d ∈ cl -> chunk_end m d <= raw \/ raw + N <= d - 32) /\
     (Fl_head + 16 <= raw \/ raw + N <= Fl_head - 16) /\ (forall a, U a -> ~ raw <= a < raw + N)).
Proof.
  induction l as [|x l IH]; intros H Hin; [now apply elem_of_nil in Hin|]. destruct H as [Hx Hl].
  apply elem_of_cons in Hin as [->|Hin]; [|auto]. destruct Hx as [?|(H1 & H2 & H3 & H4 & H5 & _)]; [now left|now right].
Qed.

(** More words in use and more chunks, apart from the answers. *)
Lemma fresh_answers_extend m m' cl cl' (U U' : Z -> Prop) l :
  fresh_answers m cl U l ->
  (forall raw, raw ∈ l -> raw <> 0 ->
     (forall d, d ∈ cl' -> chunk_end m' d <= raw \/ raw + N <= d - 32) /\ (forall a, U' a -> ~ raw <= a < raw + N)) ->
  fresh_answers m' cl' U' l.
Proof.
  induction l as [|raw l IH]; intros H Hnew; [done|]. destruct H as [Hr Hl]. split.
  - destruct Hr as [?|(H1 & H2 & H3 & H4 & H5 & H6)]; [now left|]. right.
    destruct (Hnew raw (list_elem_of_here _ _)) as [N1 N2]; [lia|]. splits; done.
  - apply IH; [done|]. intros x Hx. apply Hnew. now apply list_elem_of_further.
Qed.

Lemma used_not_word U r cl l a : shr_inv U r cl l -> U a -> ~ arena_words Fl_head cl l a.
Proof.
  intros HS Ha Hw. destruct Hw as [(c & Hc & Hac)|[[->|Hin]%elem_of_cons|(b & Hb & ->)]].
  - apply (si_heads _ _ _ _ HS a c Ha Hc). lia.
  - apply (si_sentinel _ _ _ _ HS _ Ha). lia.
  - apply (si_free _ _ _ _ HS a a Ha Hin). destruct (si_arena _ _ _ _ HS) as (_ & ((_ & Hb & _) & _) & _).
    destruct (blocks_elem _ _ _ a Hb Hin) as [_ Hf%free_block_end]. cbn [fmem fl_state] in Hf. lia.
  - apply (si_free _ _ _ _ HS _ b Ha Hb). destruct (si_arena _ _ _ _ HS) as (_ & ((_ & Hbl & _) & _) & _).
    destruct (blocks_elem _ _ _ b Hbl Hb) as [_ Hf%free_block_end]. cbn [fmem fl_state] in Hf. lia.
Qed.

Lemma raise_not_Ok r : match @raise_out_of_memory Z r with Ok size _ => size | _ => 0 end = 0.
Proof. unfold raise_out_of_memory, mlraise. destruct (_ =? 0); [done|]. now destruct (external_raise _ =? 0). Qed.
Lemma chunk_request_mjr r r' wo :
  major_heap_increment (mjr r') = major_heap_increment (mjr r) -> chunk_request r' wo = chunk_request r wo.
Proof.
  intros E. unfold chunk_request, round_heap_chunk_size. rewrite E. destruct (_ <? Bhsize_wosize wo); [|done].
  now rewrite !raise_not_Ok.
Qed.

(** A state with the same heap. *)
Lemma shr_inv_ext U r r' cl l :
  shr_inv U r cl l -> mjr r' = mjr r -> frl r' = frl r -> malloc_answers r' = malloc_answers r ->
  (forall a, arena_words Fl_head cl l a -> ld (rmem r') a = ld (rmem r) a) -> shr_inv U r' cl l.
Proof.
  intros [S1 S2 S3 S4 S5 S6 S7 S8 S9 S10 S11] Hj Hf Hm Hw.
  assert (Hbe : forall b, b ∈ l -> block_end (rmem r') b = block_end (rmem r) b).
  { intros b Hb. apply block_end_ext, Hw. right. right. eauto. }
  constructor; rewrite ?Hj, ?Hm; try done.
  - now apply (arena_ext Fl_head r).
  - intros wo Hwo. rewrite (chunk_request_mjr r r') by now rewrite Hj. auto.
  - intros a b Ha Hb. rewrite Hbe by done. auto.
  - apply (fresh_answers_mono (rmem r) _ _ U); [|done|done].
    intros d Hd. unfold chunk_end, Chunk_size. rewrite Hw; [done|]. left. eauto.
Qed.

(** The state after [alloc_shr]. *)
Lemma shr_inv_alloc U r cl l wo tag v r' cl' l' lo hi :
  shr_inv U r cl l -> 1 <= wo <= max -> ctl r r' -> alloc_result_at Fl_head wo tag r cl l v r' cl' l' ->
  alloc_detail Fl_head wo r cl l v r' cl' l' lo hi ->
  shr_inv (fun a => U a \/ block_words v wo a) r' cl' l' /\
  (forall a, block_words v wo a -> ~ U a) /\ (forall a, U a -> ld (rmem r') a = ld (rmem r) a).
Proof.
  intros HS Hwo (C1 & C2 & C3 & C4 & C5) (R1 & R2 & R3 & R4 & R5 & R6) [D1 D2 D3 D4 D5 D6 D7].
  pose proof HS as [S1 S2 S3 S4 S5 S6 S7 S8 S9 S10 S11]. pose proof S1 as (_ & _ & S13 & S14).
  destruct (D7 S7) as [Hv8 Hl8]. pose proof R2 as ((_ & Hs' & _) & _ & R23 & R24).
  (* the region of the new chunk *)
  assert (Hreg : lo = hi \/ exists raw la, malloc_answers r = raw :: la /\ malloc_answers r' `suffix_of` la /\ raw <> 0 /\ raw <= lo /\ hi <= raw + N).
  { destruct D1 as [[-> _]|(c1 & c2 & c & raw & la & _ & _ & _ & _ & Ha & Ha' & H0 & H1 & H2)]; [now left|].
    right. exists raw, la. specialize (S3 wo Hwo). splits; try done. lia. }
  assert (HUreg : forall a, U a -> ~ lo <= a < hi).
  { intros a Ha Hin. destruct Hreg as [->|(raw & la & Ea & _ & H0 & H1 & H2)]; [lia|].
    destruct (fresh_answers_elem _ _ _ _ raw S11) as [?|(_ & _ & _ & _ & HU)]; [rewrite Ea; apply list_elem_of_here|done|].
    apply (HU a Ha). lia. }
  assert (Hnew : forall a, block_words v wo a -> ~ U a).
  { intros a Hb HU. destruct (D3 a Hb) as [?|(b & Hbl & Hba)]; [now apply (HUreg a)|now apply (S8 a b)]. }
  split; [|split; [done|]].
  2: { intros a Ha. apply D5; [intros b Hb; now apply S8|intros d Hd; now apply S9| |now apply HUreg].
       intros ->. apply (S10 _ Ha). lia. }
  pose proof (suffix_length _ _ C5) as Hlen.
  assert (Hgrow : (lo = hi /\ cl' = cl) \/ (lo <> hi /\ (length (malloc_answers r') < length (malloc_answers r))%nat /\ length cl' = S (length cl))).
  { destruct D1 as [?|(c1 & c2 & c & raw & la & -> & -> & -> & -> & Ea & Ha' & _)]; [now left|]. right.
    pose proof (suffix_length _ _ Ha'). rewrite Ea, !length_app. cbn [length].
    destruct (chunks_sorted_elem _ _ _ _ Hs' (elem_of_mid c c1 c2)) as (_ & _ & _ & ?). unfold chunk_end. lia. }
  constructor; try done; rewrite ?C4; try done.
  - intros w Hw. rewrite (chunk_request_mjr r r') by done. auto.
  - destruct Hgrow as [[E _]|(E & H1 & _)]; destruct (decide (lo = hi)); try done; lia.
  - destruct Hgrow as [[_ ->]|(_ & H1 & ->)]; lia.
  - intros a b [Ha|Ha] Hb Hab.
    + destruct (D4 b a Hb Hab) as [?|(b0 & Hb0 & Hab0)]; [apply (HUreg a Ha); lia|now apply (S8 a b0)].
    + destruct R3 as ((Hrf & _) & _). destruct (Hrf b Hb); unfold block_words in Ha; lia.
  - intros a c [Ha|Ha] Hc Hac.
    + destruct D1 as [[_ ->]|(c1 & c2 & c0 & raw & la & -> & -> & -> & -> & _)]; [now apply (S9 a c)|].
      destruct (decide (c = c0)) as [->|Hne]; [|apply elem_of_drop_mid in Hc; [now apply (S9 a c)|done]].
      apply (HUreg a Ha). destruct (chunks_sorted_elem _ _ _ _ Hs' (elem_of_mid c0 c1 c2)) as (_ & _ & _ & ?). unfold chunk_end. lia.
    + apply (granted_head _ _ _ _ _ _ _ _ R2 R3 Hc Hac). unfold block_words in Ha. lia.
  - intros a [Ha|Ha] Hin; [now apply (S10 a)|]. destruct R3 as ((_ & Hf) & _). unfold block_words in Ha. lia.
  - apply (fresh_answers_extend (rmem r) _ cl _ U); [now apply (fresh_answers_suffix _ _ _ (malloc_answers r))|].
    intros raw Hraw Hraw0.
    assert (Hin : raw ∈ malloc_answers r) by (destruct C5 as [k ->]; apply elem_of_app; now right).
    destruct (fresh_answers_elem _ _ _ _ raw S11 Hin) as [?|(F1 & F2 & F3 & F4 & F5)]; [done|].
    assert (Hoff : lo = hi \/ hi <= raw \/ raw + N <= lo).
    { destruct Hreg as [?|(raw0 & la & Ea & Ha' & H0 & H1 & H2)]; [now left|]. right.
      rewrite Ea in S11. destruct S11 as [[?|(_ & _ & _ & _ & _ & G)] _]; [done|].
      destruct (G raw) as [?|?]; [destruct Ha' as [k ->]; apply elem_of_app; now right|done|lia]. }
    split.
    + intros d Hd. destruct D1 as [[_ ->]|(c1 & c2 & c0 & raw0 & la & -> & -> & -> & -> & _)]; [rewrite D2 by done; auto|].
      destruct (decide (d = c0)) as [->|Hne]; [|apply elem_of_drop_mid in Hd; [rewrite D2 by done; auto|done]].
      destruct (chunks_sorted_elem _ _ _ _ Hs' (elem_of_mid c0 c1 c2)) as (_ & _ & _ & ?). unfold chunk_end in *. lia.
    + intros a [Ha|Ha]; [auto|]. intros Hr. destruct (D3 a Ha) as [?|(b & Hb & Hba)]; [lia|].
      destruct (S13 b Hb) as (d & Hd & ? & ?). destruct (F3 d Hd); lia.
Qed.

Lemma Is_block_mod v : v mod 8 = 0 -> Is_block v = true.
Proof. intros Hv. unfold Is_block. rewrite land_1_mod. apply Z.eqb_eq. zlia. Qed.

Lemma is_color_allocation g hp : is_color (allocation_color g hp).
Proof. unfold allocation_color, is_color. destruct (_ || _); auto. Qed.

(** One of the three requests was refused. *)
Lemma refuses_gives r : malloc_refuses r -> ~ malloc_gives 3 (malloc_answers r).
Proof.
  intros Hr Hg. destruct (Hg 0%nat ltac:(lia)) as (a & Ea & Ha), (Hg 1%nat ltac:(lia)) as (b & Eb & Hb), (Hg 2%nat ltac:(lia)) as (c & Ec & Hc).
  destruct (malloc_answers r) as [|x [|y [|z la]]] eqn:E; cbn in *; try discriminate. simplify_eq.
  now destruct (Hr a b c la E) as [?|[?|?]].
Qed.

(** [alloc_shr] meets the promises of the interface. *)
#[global] Instance shr_alloc_ok : MajorAllocOk shr_alloc.
Proof.
  constructor; cbn [major_alloc major_inv major_max shr_alloc].
  - intros U wo tag r (cl & l & HS) Hmin Hwo Htag. pose proof HS as [S1 S2 S3 S4 S5 S6 S7 S8 S9 S10 S11].
    destruct (alloc_shr_spec Fl_head afuel wo tag r cl l S1 ltac:(lia) S2 ltac:(lia) ltac:(lia)) as [_ Hok].
    { unfold malloc_fresh. destruct (malloc_answers r) as [|raw la]; [done|]. destruct S11 as [[?|(H1 & H2 & H3 & H4 & _)] _]; [now left|].
      right. specialize (S3 wo Hwo). splits; try done; try lia. intros d Hd. destruct (H3 d Hd); lia. }
    destruct (Hok ltac:(lia)) as [(v & r' & cl' & l' & lo & hi & E & Hres & Hdet)|(r' & _ & Hrf & Hn & E)]; rewrite E.
    2: { rewrite Hn, Hmin. split; [done|]. now apply refuses_gives. }
    pose proof (keeps_alloc_shr _ _ _ _ _ _ _ E) as Hctl. pose proof (spends_alloc_shr _ _ _ _ _ _ _ E) as Hsp.
    destruct (shr_inv_alloc U r cl l wo tag v r' cl' l' lo hi HS Hwo Hctl Hres Hdet) as (HS' & Hnew & Hfr).
    destruct Hctl as (C1 & C2 & C3 & _ & _). destruct Hres as (_ & ((_ & Hs' & _) & _ & _ & R24) & (_ & c & Hc & Hlo & Hhi) & Hhd & _).
    destruct (chunks_sorted_elem _ _ _ _ Hs' Hc) as [Hc33 _]. destruct (R24 c Hc) as [Hc64 _].
    assert (Hw : 0 <= wo <= Max_wosize) by lia.
    unfold allocated, Wosize_val, Tag_val. rewrite Hhd, Wosize_Make_header, Tag_Make_header by (done || apply is_color_allocation).
    splits; try done; try lia; [|exists cl', l'; exact HS'].
    apply Is_block_mod. now destruct (ad_align _ _ _ _ _ _ _ _ _ _ _ Hdet S7).
  - intros U a x r (cl & l & HS) Ha. exists cl, l. apply (shr_inv_ext U r); try done.
    intros w Hw. rsimp. apply ld_st_ne. intros ->. now apply (used_not_word U r cl l w HS Ha).
  - intros U g r (cl & l & HS). exists cl, l. now apply (shr_inv_ext U r).
  - intros U U' r HU (cl & l & [S1 S2 S3 S4 S5 S6 S7 S8 S9 S10 S11]). exists cl, l. constructor; try done.
    + intros a b Ha. apply S8. now apply HU.
    + intros a c Ha. apply S9. now apply HU.
    + intros a Ha. apply S10. now apply HU.
    + apply (fresh_answers_mono (rmem r) _ _ U); try done. intros a. apply HU.
Qed.
End Shr.

(** ** The fields of the major heap after the collection *)

(** The fields [F] of the heap before the collection, and those of the copies. *)
Definition heap_fields (F : Z -> Prop) (φ : gmap Z Z) (r : runtime) (a : Z) : Prop :=
  (F a /\ Is_in_heap (mjr r) a = true) \/
  exists v v' i, φ !! v = Some v' /\ Tag_val (rmem r) v < No_scan_tag /\ 0 <= i < Wosize_val (rmem r) v /\ a = Field_addr v' i.

Section NoYoung.
Context (Fl_head : Z) (afuel : nat) (max N : Z) (Y : gset Z) (depth : nat) (K : Z -> Prop) (roots : root_set) (fuel : nat).
Context (r : runtime) (ws l : list Z) (F : Z -> Prop) (t : finals) (n : Z) (r' : runtime).
#[local] Existing Instance shr_alloc.

Lemma old_field_not_young φ a :
  collected (A := shr_alloc Fl_head afuel max N) Y K (l ++ ref_table (mnr r)) φ r r' -> minor_empty r r' ->
  remembered F r -> F a -> K a -> ~ in_young (young_start (mnr r)) (young_end (mnr r)) a -> Is_in_heap (mjr r) a = true ->
  is_young_block (mnr r') (ld (rmem r') a) = false.
Proof.
  intros C (E1 & E2 & _) Hrem Fa HK Hy Hh. destruct (decide (a ∈ l ++ ref_table (mnr r))) as [Hin|Hin].
  - apply (c_old _ _ _ _ _ _ C (ld (rmem r) a)). now apply (c_slots _ _ _ _ _ _ C).
  - rewrite (c_frame _ _ _ _ _ _ C a HK Hy Hin). rewrite (is_young_block_ext (mnr r)) by done.
    apply not_true_iff_false. intros Hyb. apply Hin, elem_of_app. right. now apply (Hrem a).
Qed.

Lemma no_young_spec :
  collectable (A := shr_alloc Fl_head afuel max N) Y depth K roots fuel r ws l -> young_ptr (mnr r) <> young_end (mnr r) ->
  remembered F r -> (forall a, F a -> K a /\ ~ in_young (young_start (mnr r)) (young_end (mnr r)) a) ->
  empty_minor_heap (A := shr_alloc Fl_head afuel max N) fuel roots r = Ok (t, n) r' ->
  exists φ, collected (A := shr_alloc Fl_head afuel max N) Y K (l ++ ref_table (mnr r)) φ r r' /\
    (forall a, F a -> Is_in_heap (mjr r) a = true -> is_young_block (mnr r') (ld (rmem r') a) = false) /\
    (forall v v' i, φ !! v = Some v' -> Tag_val (rmem r') v' < No_scan_tag -> 0 <= i < Wosize_val (rmem r') v' ->
       is_young_block (mnr r') (Field (rmem r') v' i) = false) /\
    ref_table (mnr r') = [] /\ remembered (heap_fields F φ r) r'.
Proof.
  intros Hc Hne Hrem HF E. pose proof (empty_minor_heap_spec Y depth K roots fuel r ws l Hc) as H. rewrite E in H.
  destruct H as (_ & _ & H). destruct (H Hne) as (Hme & φ & C). exists φ.
  assert (Hold : forall a, F a -> Is_in_heap (mjr r) a = true -> is_young_block (mnr r') (ld (rmem r') a) = false).
  { intros a Fa Hh. destruct (HF a Fa). now apply (old_field_not_young φ). }
  assert (Hcopy : forall v v' i, φ !! v = Some v' -> Tag_val (rmem r) v < No_scan_tag -> 0 <= i < Wosize_val (rmem r) v ->
       is_young_block (mnr r') (Field (rmem r') v' i) = false).
  { intros v v' i Ev Ht Hi. apply (c_old _ _ _ _ _ _ C (Field (rmem r) v i)). now apply (c_scan _ _ _ _ _ _ C). }
  split; [done|]. split; [done|]. split; [|split; [apply Hme|]].
  - intros v v' i Ev Ht Hi. destruct (c_shape _ _ _ _ _ _ C v v' Ev) as [_ _ _ Es Et _]. rewrite Es, Et in *. now apply (Hcopy v).
  - intros a [[Fa Hh]|(v & v' & i & Ev & Ht & Hi & ->)] _ Hyb; [now rewrite Hold in Hyb|].
    unfold Field in Hcopy. now rewrite (Hcopy v) in Hyb.
Qed.
End NoYoung.

(** ** The claims *)

(** C6: emptying the minor heap ends.  Either [malloc] refuses memory in the middle of
    the collection and the program stops: this does not happen when [malloc] gives the
    three blocks (the chunk and the two sides of the page table) that each block of the
    minor heap may need.  Or the state is the image of the one before: there is a map
    from blocks of the minor heap to disjoint new blocks of the major heap, of the same
    size and tag, such that every root, every slot of the reference table and every
    field of a copy holds the image of what it held (integers and old blocks as they
    are, pointers into a closure at the same offset, forwarding blocks replaced by
    their contents); contents without pointers are copied as they are; nothing else in
    use has changed; the minor heap and the table are empty and the major heap is well
    formed. *)
Theorem empty_minor_heap_correct Fl_head afuel max N Y depth K roots fuel r ws l :
  let A := shr_alloc Fl_head afuel max N in
  collectable Y depth K roots fuel r ws l ->
  match empty_minor_heap fuel roots r with
  | Ok (t, _) r' =>
      t = final_empty_young (finalisers roots) /\
      (young_ptr (mnr r) = young_end (mnr r) -> r' = r) /\
      (young_ptr (mnr r) <> young_end (mnr r) ->
         minor_empty r r' /\ exists φ, collected Y K (l ++ ref_table (mnr r)) φ r r')
  | Exn _ => False
  | Fatal msg => msg = oom_msg /\ ~ malloc_gives (3 * size Y) (malloc_answers r)
  end.
Proof. intros A Hc. now apply (empty_minor_heap_spec Y depth K roots fuel r ws l). Qed.

(** C7: when the table of references is complete (the invariant of the write barrier)
    no field of the major heap holds a young block after the minor heap is emptied:
    neither the fields [F] the heap had before nor the fields of the copies just made
    (and the copies are those of the whole collection).  So the empty table is complete
    too, for all of these fields. *)
Theorem empty_minor_heap_no_young Fl_head afuel max N Y depth K roots fuel r ws l (F : Z -> Prop) t n r' :
  let A := shr_alloc Fl_head afuel max N in
  collectable Y depth K roots fuel r ws l -> young_ptr (mnr r) <> young_end (mnr r) ->
  remembered F r -> (forall a, F a -> K a /\ ~ in_young (young_start (mnr r)) (young_end (mnr r)) a) ->
  empty_minor_heap fuel roots r = Ok (t, n) r' ->
  exists φ, collected Y K (l ++ ref_table (mnr r)) φ r r' /\
    (forall a, F a -> Is_in_heap (mjr r) a = true -> is_young_block (mnr r') (ld (rmem r') a) = false) /\
    (forall v v' i, φ !! v = Some v' -> Tag_val (rmem r') v' < No_scan_tag -> 0 <= i < Wosize_val (rmem r') v' ->
       is_young_block (mnr r') (Field (rmem r') v' i) = false) /\
    ref_table (mnr r') = [] /\ remembered (heap_fields F φ r) r'.
Proof. intros A Hc Hne Hrem HF E. now apply (no_young_spec Fl_head afuel max N Y depth K roots fuel r ws l F t n r'). Qed.

(** ** A small minor heap

    A block of two fields that points to itself through a block of one field, a string,
    and a closure with a second function, whose environment holds the string.  The stack
    holds the first block and the second function; a field of the major heap, in the
    table of references, the block of one field. *)

Definition demo_minor_mem : mem :=
  let m := demo_mem in
  let m := st (st (st m 23992 (Make_header 2 0 Caml_black)) 24000 24032) 24008 (Val_long 5) in
  let m := st (st m 24024 (Make_header 1 3 Caml_black)) 24032 24000 in
  let m := st (st m 24056 (Make_header 1 String_tag Caml_black)) 24064 123 in
  let m := st (st m 24088 (Make_header 4 Closure_tag Caml_black)) 24096 4000 in
  let m := st (st (st m 24104 (Make_header 2 Infix_tag Caml_white)) 24112 4096) 24120 24064 in
  st (st (st m 9000 24000) 9008 24112) 1048584 24032.

Definition demo_minor : runtime :=
  set_rmem demo_minor_mem
    (set_stk (MkStacks 8000 9016 8200 9000 9016 9016 8192)
      (set_mnr (MkMinor 8192 16384 24576 23992 16384 [1048584] 1 1 3 1 2 false 0) demo_heap)).

Definition demo_roots : root_set := MkRootSet caml_global_roots (MkFinals 0 0 0 0 0) [].
Definition demo_young : gset Z := {[24000; 24032; 24064; 24096]}.
Definition demo_used (a : Z) : Prop := 16384 <= a < 24576 \/ 9000 <= a < 9016 \/ 1048576 <= a < 1048656.

(** The collection of this heap: the four blocks move, the closure's second function at the
    same offset. *)
Lemma demo_minor_run :
  match @empty_minor_heap (shr_alloc 1000 10 256 65568) 10 demo_roots demo_minor with
  | Ok _ r' =>
      let m := rmem r' in
      let a := ld m 9000 in let b := ld m 1048584 in let g := ld m 9008 in
      Field m a 0 = b /\ Field m a 1 = Val_long 5 /\ Field m b 0 = a /\ Tag_val m b = 3 /\
      Tag_val m g = Infix_tag /\ Field m (Field m g 1) 0 = 123 /\ Is_in_heap (mjr r') a = true
  | _ => False
  end.
Proof. vm_compute. splits; reflexivity. Qed.

Lemma demo_young_elem v : v ∈ demo_young -> v = 24000 \/ v = 24032 \/ v = 24064 \/ v = 24096.
Proof. unfold demo_young. rewrite !elem_of_union, !elem_of_singleton. tauto. Qed.
Lemma demo_young_in v : v = 24000 \/ v = 24032 \/ v = 24064 \/ v = 24096 -> v ∈ demo_young.
Proof. unfold demo_young. rewrite !elem_of_union, !elem_of_singleton. tauto. Qed.

(** The sizes and tags of the blocks. *)
Lemma demo_young_shape v : v ∈ demo_young ->
  (v = 24000 /\ Wosize_val demo_minor_mem v = 2 /\ Tag_val demo_minor_mem v = 0) \/
  (v = 24032 /\ Wosize_val demo_minor_mem v = 1 /\ Tag_val demo_minor_mem v = 3) \/
  (v = 24064 /\ Wosize_val demo_minor_mem v = 1 /\ Tag_val demo_minor_mem v = 252) \/
  (v = 24096 /\ Wosize_val demo_minor_mem v = 4 /\ Tag_val demo_minor_mem v = 247).
Proof. intros [->|[->|[->| ->]]]%demo_young_elem; [left|right; left|right; right; left|right; right; right]; splits; reflexivity. Qed.

Lemma demo_valid_block v : v = 24000 \/ v = 24032 \/ v = 24064 \/ v = 24096 -> valid demo_minor_mem 16384 24576 demo_young v.
Proof. intros Hv _. left. now apply demo_young_in. Qed.

Lemma demo_young_ok :
  @young_ok (shr_alloc 1000 10 256 65568) demo_minor_mem 16384 24576 demo_young 0 demo_used.
Proof.
  constructor.
  - intros v Hv. destruct (demo_young_shape v Hv) as [(-> & -> & ->)|[(-> & -> & ->)|[(-> & -> & ->)|(-> & -> & ->)]]];
      cbn [major_max shr_alloc]; unfold Infix_tag; splits; (reflexivity || lia).
  - intros v w a Hv Hw. unfold block_words. destruct (demo_young_shape v Hv) as [(-> & -> & _)|[(-> & -> & _)|[(-> & -> & _)|(-> & -> & _)]]],
      (demo_young_shape w Hw) as [(-> & -> & _)|[(-> & -> & _)|[(-> & -> & _)|(-> & -> & _)]]]; lia.
  - intros v i Hv Ht Hi. assert (Hi4 : i = 0 \/ i = 1 \/ i = 2 \/ i = 3).
    { destruct (demo_young_shape v Hv) as [(_ & E & _)|[(_ & E & _)|[(_ & E & _)|(_ & E & _)]]]; rewrite E in Hi; lia. }
    destruct (demo_young_elem v Hv) as [->|[->|[->| ->]]], Hi4 as [->|[->|[->| ->]]];
      try (apply demo_valid_block; vm_compute; tauto); intros Hy; vm_compute in Hy; try discriminate Hy; exfalso;
      vm_compute in Hi; lia || (vm_compute in Ht; discriminate Ht).
  - intros v Hv. destruct (demo_young_elem v Hv) as [->|[->|[->| ->]]]; reflexivity.
  - intros a Ha. now left.
  - lia.
Qed.

Lemma demo_minor_arena : arena 1000 demo_minor [1048576; 1064960] [1048664; 1064968].
Proof.
  apply (arena_ext 1000 demo_heap); [exact demo_arena|done|done|]. intros a Ha.
  assert (Hfin : a ∈ [1048568; 1048560; 1064952; 1064944; 1000; 1048664; 1064968; 1048656; 1064960]).
  { destruct Ha as [(c & Hc & Ha)|[Ha|(b & Hb & ->)]].
    - apply elem_of_cons in Hc as [->|[->|[]%elem_of_nil]%elem_of_cons]; destruct Ha as [->| ->]; in_list.
    - apply elem_of_cons in Ha as [->|[->|[->|[]%elem_of_nil]%elem_of_cons]%elem_of_cons]; in_list.
    - apply elem_of_cons in Hb as [->|[->|[]%elem_of_nil]%elem_of_cons]; in_list. }
  clear Ha. revert a Hfin. apply Forall_forall. repeat constructor; reflexivity.
Qed.

Lemma demo_minor_request wo : 1 <= wo <= 256 -> chunk_request demo_minor wo + 4128 <= 65568.
Proof.
  intros Hwo. unfold chunk_request, round_heap_chunk_size. change (major_heap_increment (mjr demo_minor)) with 61440.
  assert (Hb : Bhsize_wosize wo = 8 * wo + 8) by (unfold Bhsize_wosize, Bsize_wsize, Whsize_wosize, sizeof_value; lia).
  rewrite Hb. destruct (Z.ltb_spec (8 * wo + 8) 61440); [|lia]. change (clip_heap_chunk_size 61440) with 61440.
  destruct (Z.ltb_spec 61440 (8 * wo + 8)); lia.
Qed.

Lemma demo_minor_inv : @major_inv (shr_alloc 1000 10 256 65568) demo_used demo_minor.
Proof.
  exists [1048576; 1064960], [1048664; 1064968]. constructor.
  - exact demo_minor_arena.
  - split; [done|vm_compute; discriminate].
  - exact demo_minor_request.
  - vm_compute. discriminate.
  - cbn. lia.
  - cbn. lia.
  - intros b [->|[->|[]%elem_of_nil]%elem_of_cons]%elem_of_cons; reflexivity.
  - intros a b Ha [->|[->|[]%elem_of_nil]%elem_of_cons]%elem_of_cons; unfold demo_used in Ha.
    + change (block_end (rmem demo_minor) 1048664) with 1052672. lia.
    + change (block_end (rmem demo_minor) 1064968) with 1069056. lia.
  - intros a c Ha [->|[->|[]%elem_of_nil]%elem_of_cons]%elem_of_cons; unfold demo_used in Ha; lia.
  - intros a Ha. unfold demo_used in Ha. lia.
  - cbn [malloc_answers demo_minor demo_heap set_rmem set_stk set_mnr fresh_answers].
    assert (Hd : forall d, d ∈ [1048576; 1064960] -> chunk_end (rmem demo_minor) d <= 1069056).
    { intros d [->|[->|[]%elem_of_nil]%elem_of_cons]%elem_of_cons; vm_compute; discriminate. }
    splits; try done; right; splits; try lia; try (intros d Hin; specialize (Hd d Hin); rsimp; lia);
      try (intros a Ha; unfold demo_used in Ha; lia); intros x Hx; rewrite ?elem_of_cons, ?elem_of_nil in Hx; lia.
Qed.

Lemma demo_minor_collectable :
  @collectable (shr_alloc 1000 10 256 65568) demo_young 0 demo_used demo_roots 10 demo_minor [] [9000; 9008].
Proof.
  constructor.
  - exact demo_young_ok.
  - reflexivity.
  - change (ref_table (mnr demo_minor)) with [1048584]. intros a Ha.
    assert (Hin : a = 9000 \/ a = 9008 \/ a = 1048584) by (rewrite elem_of_app, !elem_of_cons, !elem_of_nil in Ha; tauto).
    split; [unfold demo_used; lia|]. split; [unfold in_young; rsimp; cbn; lia|].
    destruct Hin as [->|[->| ->]]; intros Hy; [left; apply demo_young_in; vm_compute; tauto| |left; apply demo_young_in; vm_compute; tauto].
    right. exists 24096. unfold infix_of. splits; try (vm_compute; (reflexivity || discriminate)).
  - intros a Ha. now apply elem_of_nil in Ha.
  - exact demo_minor_inv.
  - reflexivity.
  - vm_compute. lia.
  - vm_compute. lia.
Qed.

Lemma empty_minor_heap_correct_witness :
  match @empty_minor_heap (shr_alloc 1000 10 256 65568) 10 demo_roots demo_minor with
  | Ok (t, _) r' =>
      t = final_empty_young (finalisers demo_roots) /\
      (young_ptr (mnr demo_minor) = young_end (mnr demo_minor) -> r' = demo_minor) /\
      (young_ptr (mnr demo_minor) <> young_end (mnr demo_minor) ->
         minor_empty demo_minor r' /\
         exists φ, @collected (shr_alloc 1000 10 256 65568) demo_young demo_used ([9000; 9008] ++ ref_table (mnr demo_minor)) φ demo_minor r')
  | Exn _ => False
  | Fatal msg => msg = oom_msg /\ ~ malloc_gives (3 * size demo_young) (malloc_answers demo_minor)
  end.
Proof. exact (empty_minor_heap_correct 1000 10 256 65568 demo_young 0 demo_used demo_roots 10 demo_minor [] [9000; 9008] demo_minor_collectable). Defined.

Lemma empty_minor_heap_no_young_witness :
  match @empty_minor_heap (shr_alloc 1000 10 256 65568) 10 demo_roots demo_minor with
  | Ok (t, n) r' =>
      is_young_block (mnr demo_minor) (ld (rmem demo_minor) 1048584) = true /\
      exists φ, @collected (shr_alloc 1000 10 256 65568) demo_young demo_used ([9000; 9008] ++ ref_table (mnr demo_minor)) φ demo_minor r' /\
        is_young_block (mnr r') (ld (rmem r') 1048584) = false /\
        remembered (heap_fields (fun a => a = 1048584) φ demo_minor) r'
  | _ => False
  end.
Proof.
  destruct (@empty_minor_heap (shr_alloc 1000 10 256 65568) 10 demo_roots demo_minor) as [[t n] r'| |] eqn:E.
  - split; [reflexivity|].
    destruct (empty_minor_heap_no_young 1000 10 256 65568 demo_young 0 demo_used demo_roots 10 demo_minor [] [9000; 9008]
      (fun a => a = 1048584) t n r') as (φ & H1 & H2 & _ & _ & H5).
    + exact demo_minor_collectable.
    + vm_compute. discriminate.
    + intros a -> _ _. apply list_elem_of_here.
    + intros a ->. unfold demo_used, in_young. cbn. lia.
    + exact E.
    + exists φ. split; [exact H1|]. split; [|exact H5]. apply H2; reflexivity.
  - pose proof demo_minor_run as H. rewrite E in H. exact H.
  - pose proof demo_minor_run as H. rewrite E in H. exact H.
Defined.
