(* ===== verification/Major.v ===== *)
(** * The marking phase of the major collector

    Models [start_cycle] and [mark_slice] of [byterun/major_gc.c] with
    [darken_all_roots] and [do_roots] of [byterun/roots.c].  Marked blocks wait, gray,
    on the stack [gray_vals]; when the stack overflows it is cut and the heap is
    declared impure, and the marker later walks the whole heap, with [markhp], for
    the gray blocks it lost.  The subphases then remove the weak pointers to dead
    blocks and hand the dead finalised values to [finalise.c]. *)

From S2P Require Import Runtime Freelist Memory Fail Heap GlobRoots Finalise Roots.

(** ** Marking *)

Definition Subphase_main : Z := 10.
Definition Subphase_weak : Z := 11.
Definition Subphase_final : Z := 12.

Definition Is_gray_val (m : mem) (v : Z) : bool := Is_gray_hd (Hd_val m v).

(** [*gray_vals_ptr++ = v] and the check that follows it. *)
Definition push_gray (v : Z) (r : runtime) : res unit :=
  let r := set_gray_vals (gray_vals (mjr r) ++ [v]) r in
  if gray_vals_size (mjr r) <=? Z.of_nat (length (gray_vals (mjr r)))
  then realloc_gray_vals r else Ok tt r.

(** One field of the block [v]. *)
Definition mark_field (v i : Z) (r : runtime) : res unit :=
  let child := Field (rmem r) v i in
  if Is_block child && Is_in_heap (mjr r) child then
    let tag := Tag_hd (Hd_val (rmem r) child) in
    let r1 := if tag =? Forward_tag
              then set_rmem (set_Field (rmem r) v i (Forward_val (rmem r) child)) r else r in
    let child := if negb (tag =? Forward_tag) && (tag =? Infix_tag)
                 then child - Infix_offset_val (rmem r) child else child in
    let hd := Hd_val (rmem r) child in
    if Is_white_hd hd then
      push_gray child (set_rmem (st (rmem r1) (Hp_val child) (Grayhd_hd hd)) r1)
    else Ok tt r1
  else Ok tt r.

(** [for (i = i; i < i + n; i++)] *)
Fixpoint mark_fields (n : nat) (i v : Z) (r : runtime) : res unit :=
  match n with
  | O => Ok tt r
  | S n => bind (mark_field v i) (fun _ => mark_fields n (i + 1) v) r
  end.

(** The gray block [v] becomes black; the result is the work done. *)
Definition mark_block (v : Z) (r : runtime) : res Z :=
  let hd := Hd_val (rmem r) v in
  let r := set_rmem (st (rmem r) (Hp_val v) (Blackhd_hd hd)) r in
  let size := Wosize_hd hd in
  bind (fun r => if Tag_hd hd <? No_scan_tag then mark_fields (Z.to_nat size) 0 v r else Ok tt r)
       (fun _ => Ok (Whsize_wosize size)) r.

(** One step of the walk that looks for gray blocks. *)
Definition walk_step (r : runtime) : runtime :=
  let g := mjr r in
  if markhp g =? limit g then
    let c := Chunk_next (rmem r) (chunk g) in
    let r := set_chunk c r in
    if c =? 0 then set_markhp 0 r
    else set_limit (c + Chunk_size (rmem r) c) (set_markhp c r)
  else
    let r := if Is_gray_val (rmem r) (Val_hp (markhp g))
             then set_gray_vals (gray_vals g ++ [Val_hp (markhp g)]) r else r in
    set_markhp (markhp g + Bhsize_hp (rmem r) (markhp g)) r.

(** The heap is walked again. *)
Definition start_walk (r : runtime) : runtime :=
  let r := set_heap_is_pure true r in
  let r := set_chunk (heap_start (mjr r)) r in
  let r := set_markhp (chunk (mjr r)) r in
  set_limit (chunk (mjr r) + Chunk_size (rmem r) (chunk (mjr r))) r.

(** [weak_again]: a field of a weak array, behind forwarding blocks; [None] when
    [fuel] is not enough. *)
Fixpoint weak_field (fuel : nat) (cur i curfield : Z) (r : runtime) : option runtime :=
  match fuel with
  | O => None
  | S fuel =>
      if negb (curfield =? 0) && Is_block curfield && Is_in_heap (mjr r) curfield then
        if Tag_val (rmem r) curfield =? Forward_tag then
          let curfield := Forward_val (rmem r) curfield in
          weak_field fuel cur i curfield (set_rmem (set_Field (rmem r) cur i curfield) r)
        else if Is_white_val (rmem r) curfield then Some (set_rmem (set_Field (rmem r) cur i 0) r)
        else Some r
      else Some r
  end.

(** [for (i = i; i < i + n; i++)] *)
Fixpoint weak_fields (fuel n : nat) (cur i : Z) (r : runtime) : option runtime :=
  match n with
  | O => Some r
  | S n => match weak_field fuel cur i (Field (rmem r) cur i) r with
           | None => None
           | Some r => weak_fields fuel n cur (i + 1) r
           end
  end.

(** One array of the list of weak arrays; the result is the work done. *)
Definition weak_step (fuel : nat) (r : runtime) : res Z :=
  let cur := ld (rmem r) (weak_prev (mjr r)) in
  let hd := Hd_val (rmem r) cur in
  if Color_hd hd =? Caml_white then
    Ok (Whsize_hd hd) (set_rmem (st (rmem r) (weak_prev (mjr r)) (Field (rmem r) cur 0)) r)
  else
    match weak_fields fuel (Z.to_nat (Wosize_hd hd - 1)) cur 1 r with
    | None => Fatal "the chain of forwarding blocks is longer than the bound"
    | Some r => Ok (Whsize_hd hd) (set_weak_prev (Field_addr cur 0) r)
    end.

(** [fl_init_merge] on the runtime. *)
Definition fl_init_merge_R (Fl_head : Z) (r : runtime) : runtime :=
  let s := frl r in
  set_frl (fl_init_merge Fl_head (MkFl (rmem r) (fl_prev s) (fl_last s) (fl_merge s) (fl_cur_size s) (last_fragment s))) r.

Definition init_sweep (Fl_head : Z) (r : runtime) : runtime :=
  let r := set_gc_sweep_hp (heap_start (mjr r)) r in
  let r := fl_init_merge_R Fl_head r in
  let r := set_gc_phase Phase_sweep r in
  let r := set_chunk (heap_start (mjr r)) r in
  let r := set_gc_sweep_hp (chunk (mjr r)) r in
  let r := set_limit (chunk (mjr r) + Chunk_size (rmem r) (chunk (mjr r))) r in
  set_fl_size_at_phase_change (fl_cur_size (frl r)) r.

Section Slices.
(** The sentinel of the free list and the variable [weak_list_head]. *)
Context (Fl_head weak_list_head : Z).

(** One turn of the loop of [mark_slice]: the work left and the finalisers. *)
Definition mark_step (fuel : nat) (work : Z) (t : finals) (r : runtime) : res (Z * finals) :=
  let g := mjr r in
  match last (gray_vals g) with
  | Some v =>
      let r := set_gray_vals (take (length (gray_vals g) - 1) (gray_vals g)) r in
      bind (mark_block v) (fun done => Ok (work - done, t)) r
  | None =>
      if negb (markhp g =? 0) then Ok (work, t) (walk_step r)
      else if negb (heap_is_pure g) then Ok (work, t) (start_walk r)
      else if gc_subphase g =? Subphase_main then
        Ok (work, t) (set_weak_prev weak_list_head (set_gc_subphase Subphase_weak r))
      else if gc_subphase g =? Subphase_weak then
        if negb (ld (rmem r) (weak_prev g) =? 0) then bind (weak_step fuel) (fun done => Ok (work - done, t)) r
        else bind (final_update fuel t) (fun t r => Ok (work, t) (set_gc_subphase Subphase_final r)) r
      else Ok (0, t) (init_sweep Fl_head r)
  end.

(** [while (work > 0)]; [fuel] bounds the turns. *)
Fixpoint mark_slice (fuel : nat) (work : Z) (t : finals) (r : runtime) : res finals :=
  match fuel with
  | O => Fatal "the loop has not ended within the bound"
  | S fuel =>
      if 0 <? work then bind (mark_step fuel work t) (fun '(work, t) => mark_slice fuel work t) r
      else Ok t r
  end.

(** ** The beginning of a cycle *)

(** [do_local_roots (f, extern_sp, stack_high, local_roots)] *)
Definition do_local_roots (f : scanning_action) (fuel : nat) : M unit := fun r =>
  (scan_words f (Z.to_nat ((stack_high (stk r) - extern_sp (stk r)) / 8)) (extern_sp (stk r)) ;;
   (fun r => scan_local_roots f fuel (local_roots (glb r)) r)) r.

(** [do_roots (darken)]: [darken] does not use the address of the root. *)
Definition darken_all_roots (fuel : nat) (roots : root_set) : M unit := fun r =>
  let f : scanning_action := fun v _ => darken v in
  (darken (global_data (glb r)) ;; do_local_roots f fuel ;;
   scan_global_roots f fuel (root_list roots) ;;
   final_do_strong_roots f (finalisers roots) ;;
   scan_slots f (hook_slots roots)) r.

Definition start_cycle (fuel : nat) (roots : root_set) : M unit :=
  darken_all_roots fuel roots ;;
  upd (fun r => set_markhp 0 (set_gc_subphase Subphase_main (set_gc_phase Phase_mark r))).
End Slices.

(** ** Headers *)

Lemma Wosize_Grayhd hd : isu64 hd -> Wosize_hd (Grayhd_hd hd) = Wosize_hd hd.
Proof.
  intros Hd. unfold Wosize_hd, Grayhd_hd. rewrite Z.shiftr_lor, Z.shiftr_land.
  change (Z.shiftr Caml_gray 10) with 0. change (Z.shiftr (u64 (Z.lnot Caml_black)) 10) with (Z.ones 54).
  rewrite Z.lor_0_r, Z.land_ones by lia. apply Z.mod_small. rewrite Z.shiftr_div_pow2 by lia. unfold isu64 in Hd.
  change (2 ^ 10) with 1024. change (2 ^ 54) with 18014398509481984. zlia.
Qed.
Lemma Wosize_Blackhd hd : Wosize_hd (Blackhd_hd hd) = Wosize_hd hd.
Proof. unfold Wosize_hd, Blackhd_hd. rewrite Z.shiftr_lor. change (Z.shiftr Caml_black 10) with 0. apply Z.lor_0_r. Qed.
Lemma Tag_Blackhd hd : Tag_hd (Blackhd_hd hd) = Tag_hd hd.
Proof. unfold Tag_hd, Blackhd_hd. rewrite Z.land_lor_distr_l. change (Z.land Caml_black 255) with 0. apply Z.lor_0_r. Qed.
Lemma Color_Grayhd hd : Color_hd (Grayhd_hd hd) = Caml_gray.
Proof.
  unfold Color_hd, Grayhd_hd. rewrite Z.land_lor_distr_l, <- Z.land_assoc.
  change (Z.land (u64 (Z.lnot Caml_black)) Caml_black) with 0. now rewrite Z.land_0_r.
Qed.
Lemma Color_Blackhd hd : Color_hd (Blackhd_hd hd) = Caml_black.
Proof.
  unfold Color_hd, Blackhd_hd. rewrite Z.land_lor_distr_l. change (Z.land Caml_black Caml_black) with Caml_black.
  apply Z.bits_inj'. intros i Hi. rewrite Z.lor_spec, Z.land_spec. now destruct (Z.testbit hd i), (Z.testbit Caml_black i).
Qed.
Lemma Blackhd_range hd : isu64 hd -> isu64 (Blackhd_hd hd).
Proof. intros Hd. apply lor_range; [done|]. split; vm_compute; [discriminate|reflexivity]. Qed.

(** ** The gray stack *)

(** What pushing on the stack leaves alone. *)
Definition skel (r : runtime) : runtime :=
  set_rmem ∅ (set_gray_vals [] (set_gray_vals_size 0 (set_heap_is_pure true (set_malloc_answers [] r)))).

(** What the walk leaves alone too. *)
Definition core (r : runtime) : runtime := set_markhp 0 (set_chunk 0 (set_limit 0 (skel r))).

Lemma core_skel r r' : skel r' = skel r -> core r' = core r.
Proof. intros E. unfold core. now rewrite E. Qed.

Lemma core_inv r r' : core r' = core r ->
  gc_subphase (mjr r') = gc_subphase (mjr r) /\ weak_prev (mjr r') = weak_prev (mjr r) /\
  gc_phase (mjr r') = gc_phase (mjr r) /\ frl r' = frl r.
Proof.
  intros E. assert (Ej : mjr (core r') = mjr (core r)) by now rewrite E. assert (Ef : frl (core r') = frl (core r)) by now rewrite E.
  unfold core, skel in Ej, Ef. rsimp in *. injection Ej as E1 E2 E3 E4 E5 E6 E7 E8 E9 E10 E11 E12 E13 E14 E15 E16. splits; congruence.
Qed.

Lemma skel_inv r r' : skel r' = skel r ->
  (forall p, Is_in_heap (mjr r') p = Is_in_heap (mjr r) p) /\ markhp (mjr r') = markhp (mjr r) /\
  chunk (mjr r') = chunk (mjr r) /\ limit (mjr r') = limit (mjr r) /\ gc_subphase (mjr r') = gc_subphase (mjr r) /\
  weak_prev (mjr r') = weak_prev (mjr r) /\ heap_start (mjr r') = heap_start (mjr r) /\ stat_heap_size (mjr r') = stat_heap_size (mjr r).
Proof.
  intros E. assert (Ej : mjr (skel r') = mjr (skel r)) by now rewrite E.
  unfold skel in Ej. rsimp in *. injection Ej as E1 E2 E3 E4 E5 E6 E7 E8 E9 E10 E11 E12 E13 E14 E15 E16 E17 E18 E19.
  splits; try done. intros p. unfold Is_in_heap. now rewrite E1, E2, E5.
Qed.

(** The stack has room for the next entry after a push, which loses entries only
    when the heap is declared impure. *)
Lemma push_gray_spec v r :
  gray_vals_ok r -> 2 <= gray_vals_size (mjr r) ->
  exists r', push_gray v r = Ok tt r' /\ skel r' = skel r /\ rmem r' = rmem r /\
    gray_vals_ok r' /\ 2 <= gray_vals_size (mjr r') /\
    (exists k, gray_vals (mjr r') = take k (gray_vals (mjr r) ++ [v])) /\
    (heap_is_pure (mjr r') = true -> heap_is_pure (mjr r) = true /\ gray_vals (mjr r') = gray_vals (mjr r) ++ [v]).
Proof.
  intros [Hlen Hh] Hsz. unfold push_gray, gray_vals_ok, skel. rsimp. rewrite length_app. cbn [length].
  destruct (Z.leb_spec (gray_vals_size (mjr r)) (Z.of_nat (length (gray_vals (mjr r)) + 1))) as [Hfull|Hroom].
  2: { eexists. split; [reflexivity|]. rsimp. rewrite length_app. cbn [length]. splits; try done; try lia.
       exists (length (gray_vals (mjr r) ++ [v])). now rewrite firstn_all. }
  unfold realloc_gray_vals, bind, libc_malloc, upd. rsimp.
  destruct (Z.ltb_spec (gray_vals_size (mjr r)) (stat_heap_size (mjr r) / 128)).
  - destruct (malloc_answers r) as [|a l]; [|destruct (Z.eqb_spec a 0)]; cbn -[u64 Z.of_nat take];
      (eexists; split; [reflexivity|]); rsimp; cbn [length]; try (splits; try done; try lia; exists 0%nat; done).
    rewrite u64_id by (unfold isu64; zlia). rewrite length_app. cbn [length]. splits; try done; try lia.
    exists (length (gray_vals (mjr r) ++ [v])). now rewrite firstn_all.
  - eexists. split; [reflexivity|]. rsimp. rewrite length_take, length_app. cbn [length]. splits; try done; try zlia; eauto.
Qed.

(** ** The next chunk *)

Lemma chunks_split m l1 c l2 : forall p lo,
  chunks m p (l1 ++ c :: l2) -> chunks_sorted m lo (l1 ++ c :: l2) ->
  chunks m (Chunk_next m c) l2 /\ chunks_sorted m (chunk_end m c) l2 /\ forall d, d ∈ l1 -> chunk_end m d <= c - 32.
Proof.
  induction l1 as [|e l1 IH]; intros p lo [-> Hc] (H1 & H2 & H3).
  - splits; try done. now intros d Hd%elem_of_nil.
  - destruct (IH _ _ Hc H3) as (H4 & H5 & H6). splits; try done. intros d [->|Hd]%elem_of_cons; [|now apply H6].
    now destruct (chunks_sorted_elem _ _ _ c H3 (elem_of_mid _ _ _)).
Qed.

(** Every other chunk ends before this one does, or does not begin before the next. *)
Lemma next_chunk m l lo p c :
  chunks m p l -> chunks_sorted m lo l -> 0 <= lo -> c ∈ l ->
  (Chunk_next m c = 0 /\ forall d, d ∈ l -> chunk_end m d <= chunk_end m c) \/
  (Chunk_next m c ∈ l /\ 0 < Chunk_next m c /\ chunk_end m c <= Chunk_next m c - 32 /\
   forall d, d ∈ l -> chunk_end m d <= chunk_end m c \/ Chunk_next m c <= d).
Proof.
  intros Hc Hs Hlo Hin. destruct (proj2 (chunks_sorted_elem _ _ _ _ Hs Hin)) as (_ & _ & Hsz).
  assert (Hce : c < chunk_end m c) by (unfold chunk_end; lia). pose proof (proj1 (chunks_sorted_elem _ _ _ _ Hs Hin)) as Hlc.
  apply list_elem_of_split in Hin as (l1 & l2 & ->).
  destruct (chunks_split _ _ _ _ _ _ Hc Hs) as (H1 & H2 & H3).
  assert (Hfront : forall d, d ∈ l1 -> chunk_end m d <= chunk_end m c) by (intros d Hd; specialize (H3 d Hd); lia).
  destruct l2 as [|e l2].
  - left. split; [done|]. intros d [Hd|Hd]%elem_of_app; [now apply Hfront|]. apply list_elem_of_singleton in Hd. subst. lia.
  - right. pose proof H1 as [E _]. rewrite E in *. pose proof H2 as (He & _). splits; try lia.
    + apply elem_of_app. right. apply elem_of_cons. right. now left.
    + intros d [Hd|[->|Hd]%elem_of_cons]%elem_of_app; [left; now apply Hfront|left; lia|right].
      now apply (chunks_head_le m (chunk_end m c) (e :: l2)).
Qed.

(** ** The heap being marked *)

Definition color (m : mem) (b : Z) : Z := Color_hd (Hd_val m b).

Lemma color_cases m b : color m b = Caml_white \/ color m b = Caml_gray \/ color m b = Caml_blue \/ color m b = Caml_black.
Proof. unfold color. rewrite Color_hd_eq. change Caml_white with 0. change Caml_gray with 256. change Caml_blue with 512. change Caml_black with 768. zlia. Qed.

(** The value at an address leads to a block. *)
Definition target (m : mem) (x : Z) : Z := darken_target m x.

Section Marking.
(** The memory when the marking begins, its blocks (free blocks included), the chunks,
    the addresses of the heap, the other words the collector writes, and the
    blocks the roots lead to. *)
Context (m0 : mem) (B : gset Z) (hs : Z) (cl : list Z) (heap : Z -> bool) (X R : Z -> Prop).

Definition block_field (b i : Z) : Prop := b ∈ B /\ 0 <= i < Wosize_val m0 b.
Definition in_block (b a : Z) : Prop := b - 8 <= a < block_end m0 b.

(** A word that is neither a header nor a field the marker scans. *)
Definition plain (a : Z) : Prop := forall b, b ∈ B -> in_block b a -> No_scan_tag <= Tag_val m0 b /\ a <> b - 8.

(** A pointer into the heap leads to a block in use: it is one, or it points into a
    closure. *)
Definition heap_pointer (x : Z) : Prop :=
  Is_block x = true -> heap x = true ->
  target m0 x ∈ B /\ color m0 (target m0 x) <> Caml_blue /\
  ((Tag_val m0 x <> Infix_tag /\ x ∈ B) \/
   (Tag_val m0 x = Infix_tag /\ target m0 x <= x - 8 < block_end m0 (target m0 x) /\
    Tag_val m0 (target m0 x) < No_scan_tag)).

(** Disjoint blocks that fill the chunks, whose fields are values. *)
Record heap_graph : Prop := {
  hg_wf : wfm m0;
  hg_tag b : b ∈ B -> Tag_val m0 b <> Infix_tag;
  hg_disj b b' : b ∈ B -> b' ∈ B -> b <> b' -> block_end m0 b <= b' - 8 \/ block_end m0 b' <= b - 8;
  hg_forward b : b ∈ B -> Tag_val m0 b = Forward_tag -> 0 <= 0 < Wosize_val m0 b;
  hg_fields b i : block_field b i -> color m0 b <> Caml_blue -> Tag_val m0 b < No_scan_tag -> heap_pointer (Field m0 b i);
  hg_chunk b : b ∈ B -> exists c, c ∈ cl /\ c <= b - 8 /\ block_end m0 b <= chunk_end m0 c /\
    (block_end m0 b = chunk_end m0 c \/ block_end m0 b + 8 ∈ B);
  hg_first c : c ∈ cl -> c + 8 ∈ B;
  hg_heads c a : c ∈ cl -> c - 32 <= a < c -> ~ X a /\ forall b, b ∈ B -> ~ in_block b a;
  hg_static a : X a -> plain a;
  hg_chunks : chunks m0 hs cl;
  hg_sorted : chunks_sorted m0 1 cl;
  hg_some : cl <> []
}.

(** The field [i] of [b] leads to the block [c]. *)
Definition edge (b i c : Z) : Prop :=
  block_field b i /\ color m0 b <> Caml_blue /\ Tag_val m0 b < No_scan_tag /\
  Is_block (Field m0 b i) = true /\ heap (Field m0 b i) = true /\ c = target m0 (Field m0 b i).

(** The blocks found from the roots. *)
Inductive reached : Z -> Prop :=
| reached_root b : R b -> reached b
| reached_edge b i c : reached b -> edge b i c -> reached c.

(** What a field that has been marked may hold instead of [x]: what is found behind
    forwarding blocks. *)
Inductive follows : Z -> Z -> Prop :=
| follows_refl x : follows x x
| follows_step x y : Is_block x = true -> heap x = true -> Tag_val m0 x = Forward_tag ->
    follows (Field m0 x 0) y -> follows x y.

(** The field [i] of [b] is one of those of the block being marked not yet seen. *)
Definition pending (s : option (Z * Z)) (b i : Z) : Prop :=
  match s with None => False | Some (v, k) => b = v /\ k <= i end.

(** The memory while marking: the fields before [s] of the block being marked have
    been darkened, those before [w] may have been redirected. *)
Record mem_inv (s w : option (Z * Z)) (m : mem) : Prop := {
  mk_wf : wfm m;
  mk_size b : b ∈ B -> Wosize_val m b = Wosize_val m0 b /\ Tag_val m b = Tag_val m0 b;
  mk_blue b : b ∈ B -> color m b = Caml_blue <-> color m0 b = Caml_blue;
  mk_mono b : b ∈ B -> color m0 b <> Caml_white -> color m b <> Caml_white;
  mk_white_field b i : block_field b i -> Tag_val m0 b < No_scan_tag ->
    (color m b <> Caml_black \/ pending w b i) -> Field m b i = Field m0 b i;
  mk_field b i : block_field b i -> Tag_val m0 b < No_scan_tag -> follows (Field m0 b i) (Field m b i);
  mk_black b i c : edge b i c -> color m b = Caml_black -> color m c <> Caml_white \/ pending s b i;
  mk_reached b : b ∈ B -> color m b <> Caml_white -> color m b <> Caml_blue -> reached b;
  mk_frame a : ~ X a -> plain a -> ld m a = ld m0 a
}.

(** The collector while marking: the gray blocks are on the stack, or the walk is
    going to find them, or the heap is impure. *)
Record marking (s w : option (Z * Z)) (r : runtime) : Prop := {
  mk_mem : mem_inv s w (rmem r);
  mk_heap p : Is_in_heap (mjr r) p = heap p;
  mk_start : heap_start (mjr r) = hs;
  mk_room : gray_vals_ok r /\ 2 <= gray_vals_size (mjr r);
  mk_stack v : v ∈ gray_vals (mjr r) -> v ∈ B /\ color (rmem r) v = Caml_gray;
  mk_nodup : NoDup (gray_vals (mjr r));
  mk_pure b : heap_is_pure (mjr r) = true -> b ∈ B -> color (rmem r) b = Caml_gray ->
    b ∈ gray_vals (mjr r) \/ (markhp (mjr r) <> 0 /\ markhp (mjr r) <= b - 8);
  mk_walk : markhp (mjr r) = 0 \/
    (chunk (mjr r) ∈ cl /\ limit (mjr r) = chunk_end m0 (chunk (mjr r)) /\
     chunk (mjr r) <= markhp (mjr r) <= limit (mjr r) /\
     (markhp (mjr r) = limit (mjr r) \/ markhp (mjr r) + 8 ∈ B))
}.

Context (HG : heap_graph).

Lemma Wosize_nonneg m b : wfm m -> 0 <= Wosize_val m b.
Proof. intros Hm. unfold Wosize_val, Wosize_hd. apply Z.shiftr_nonneg. apply (Hm (Hp_val b)). Qed.
Lemma header_in b : b ∈ B -> in_block b (b - 8).
Proof. intros Hb. pose proof (Wosize_nonneg m0 b (hg_wf HG)). unfold in_block, block_end. lia. Qed.
Lemma field_in b i : block_field b i -> in_block b (b + 8 * i).
Proof. intros [Hb Hi]. unfold in_block, block_end. lia. Qed.
Lemma in_block_inj b b' a : b ∈ B -> b' ∈ B -> in_block b a -> in_block b' a -> b = b'.
Proof.
  intros Hb Hb' H1 H2. destruct (decide (b = b')) as [|Hne]; [done|].
  unfold in_block in *. destruct (hg_disj HG b b' Hb Hb' Hne); lia.
Qed.
Lemma header_not_field b b' i : b ∈ B -> block_field b' i -> b - 8 <> b' + 8 * i.
Proof.
  intros Hb Hf E. assert (b = b') as ->.
  { destruct Hf as [Hb' Hi]. apply (in_block_inj b b' (b - 8)); try done; [now apply header_in|]. rewrite E. now apply field_in. }
  destruct Hf. lia.
Qed.
Lemma field_inj b i b' i' : block_field b i -> block_field b' i' -> b + 8 * i = b' + 8 * i' -> b = b' /\ i = i'.
Proof.
  intros H1 H2 E. assert (b = b') as ->; [|lia].
  apply (in_block_inj b b' (b + 8 * i)); [apply H1|apply H2|now apply field_in|]. rewrite E. now apply field_in.
Qed.

Lemma follows_trans x y z : follows x y -> follows y z -> follows x z.
Proof. induction 1; [done|]. intros. apply follows_step; auto. Qed.
Lemma follows_long x y : Is_block x = false -> follows x y -> y = x.
Proof. intros Hx Hf. destruct Hf; [done|congruence]. Qed.
(** Behind forwarding blocks there are values. *)
Lemma follows_pointer x y : follows x y -> heap_pointer x -> heap_pointer y.
Proof.
  induction 1 as [|x y Hb Hh Ht Hf IH]; [done|]. intros Hp. apply IH. destruct (Hp Hb Hh) as (H1 & H2 & [[_ Hx]|[Hi _]]); [|rewrite Hi in Ht; done].
  assert (Et : target m0 x = x) by (unfold target, darken_target; rewrite Ht; done). rewrite Et in H2.
  apply (hg_fields HG x 0); [|done|rewrite Ht; done].
  split; [done|]. now apply (hg_forward HG).
Qed.

(** The header read through a pointer is the one at the beginning, but for the colour. *)
Lemma target_same s w m x :
  mem_inv s w m -> heap_pointer x -> Is_block x = true -> heap x = true ->
  Tag_val m x = Tag_val m0 x /\ target m x = target m0 x.
Proof.
  intros M Hx Hb Hh. destruct (Hx Hb Hh) as (H1 & H2 & [[Ht HxB]|(Ht & Hin & Hsc)]).
  - destruct (mk_size _ _ _ M x HxB) as [_ E]. split; [done|]. unfold target, darken_target. rewrite E.
    destruct (Z.eqb_spec (Tag_val m0 x) Infix_tag); done.
  - set (b := target m0 x) in *.
    assert (Hoff : exists k, x = b + 8 * k).
    { unfold b, target, darken_target. rewrite Ht, Z.eqb_refl. exists (Wosize_val m0 x).
      unfold Infix_offset_val, Infix_offset_hd, Bosize_hd, Bsize_wsize, sizeof_value, Wosize_val. lia. }
    destruct Hoff as [k Ek].
    assert (Hf : block_field b (k - 1)) by (split; [done|]; unfold block_end in Hin; lia).
    assert (Eh : Hd_val m x = Hd_val m0 x).
    { pose proof (mk_field _ _ _ M b (k - 1) Hf Hsc) as Hfol. apply follows_long in Hfol.
      - rewrite !Field_ld in Hfol. rewrite !Hd_val_ld. replace (x - 8) with (b + 8 * (k - 1)) by lia. done.
      - rewrite Field_ld. replace (b + 8 * (k - 1)) with (x - 8) by lia. rewrite <- Hd_val_ld.
        unfold Tag_val, Tag_hd in Ht. unfold Is_block. apply Z.eqb_neq.
        change 1 with (Z.land 255 1). rewrite Z.land_assoc, Ht. discriminate. }
    unfold target, darken_target, Tag_val, Infix_offset_val. now rewrite Eh.
Qed.

(** *** Stores into headers and fields *)

Lemma Hd_st_header m b c h : Hd_val (st m (c - 8) h) b = if decide (b = c) then h else Hd_val m b.
Proof.
  rewrite !Hd_val_ld. destruct (decide (b = c)) as [->|Hne]; [now rewrite ld_st_eq|]. apply ld_st_ne. lia.
Qed.
Lemma Field_st_header m b i c h : block_field b i -> c ∈ B -> Field (st m (c - 8) h) b i = Field m b i.
Proof. intros Hf Hc. rewrite !Field_ld. apply ld_st_ne. now apply header_not_field. Qed.
Lemma Hd_st_field m b c i y : b ∈ B -> block_field c i -> Hd_val (st m (c + 8 * i) y) b = Hd_val m b.
Proof. intros Hb Hf. rewrite !Hd_val_ld. apply ld_st_ne. intros E. symmetry in E. revert E. now apply header_not_field. Qed.

(** A header written with the same size and tag. *)
Lemma mem_recolor s w m c h :
  mem_inv s w m -> c ∈ B -> isu64 h -> Wosize_hd h = Wosize_val m0 c -> Tag_hd h = Tag_val m0 c ->
  color m c <> Caml_blue -> Color_hd h <> Caml_blue -> Color_hd h <> Caml_white ->
  (Color_hd h = Caml_black -> forall i, block_field c i -> Tag_val m0 c < No_scan_tag -> pending s c i /\ pending w c i) ->
  (color m c = Caml_black -> Color_hd h = Caml_black) -> reached c ->
  mem_inv s w (st m (c - 8) h).
Proof.
  intros M Hc Hh Ew Et Hcb Hnb Hnw Hbl Hkeep Hreach.
  assert (EC : forall b, color (st m (c - 8) h) b = if decide (b = c) then Color_hd h else color m b).
  { intros b. unfold color. rewrite Hd_st_header. now destruct (decide (b = c)). }
  split.
  - apply wfm_st; [apply M|done].
  - intros b Hb. unfold Wosize_val, Tag_val. rewrite Hd_st_header. destruct (decide (b = c)) as [->|]; [done|]. apply (mk_size _ _ _ M b Hb).
  - intros b Hb. rewrite EC. destruct (decide (b = c)) as [->|]; [|now apply (mk_blue _ _ _ M)].
    pose proof (mk_blue _ _ _ M c Hc). tauto.
  - intros b Hb. rewrite EC. destruct (decide (b = c)) as [->|]; [done|now apply (mk_mono _ _ _ M)].
  - intros b i Hf Ht Hor. rewrite Field_st_header by done. apply (mk_white_field _ _ _ M); try done.
    rewrite EC in Hor. destruct (decide (b = c)) as [->|]; [|done].
    destruct (decide (color m c = Caml_black)) as [E|]; [|now left]. destruct Hor as [Hor|]; [|now right]. now destruct Hor; apply Hkeep.
  - intros b i Hf Ht. rewrite Field_st_header by done. now apply (mk_field _ _ _ M).
  - intros b i d He. rewrite !EC. intros Hb. destruct (decide (d = c)) as [->|]; [now left|].
    destruct (decide (b = c)) as [->|]; [|now apply (mk_black _ _ _ M b i d)].
    right. destruct He as (Hf & _ & Ht & _). now destruct (Hbl Hb i Hf Ht).
  - intros b Hb. rewrite EC. destruct (decide (b = c)) as [->|]; [done|now apply (mk_reached _ _ _ M)].
  - intros a Ha Hout. rewrite ld_st_ne; [now apply (mk_frame _ _ _ M)|]. intros <-. now destruct (Hout c Hc (header_in c Hc)).
Qed.

(** A field of the block being marked is redirected. *)
Lemma mem_redirect s v i m y :
  mem_inv s (Some (v, i)) m -> block_field v i -> Tag_val m0 v < No_scan_tag -> color m v = Caml_black -> follows (Field m0 v i) y -> isu64 y ->
  mem_inv s (Some (v, i + 1)) (st m (v + 8 * i) y).
Proof.
  intros M Hf Hsc Hv Hy Hu.
  assert (EH : forall b, b ∈ B -> Hd_val (st m (v + 8 * i) y) b = Hd_val m b) by (intros; now apply Hd_st_field).
  assert (EF : forall b k, block_field b k -> b <> v \/ k <> i -> Field (st m (v + 8 * i) y) b k = Field m b k).
  { intros b k Hb Hne. rewrite !Field_ld. apply ld_st_ne. intros E. apply field_inj in E; [|done..]. lia. }
  split.
  - apply wfm_st; [apply M|done].
  - intros b Hb. unfold Wosize_val, Tag_val. rewrite EH by done. apply (mk_size _ _ _ M b Hb).
  - intros b Hb. unfold color at 1. rewrite EH by done. now apply (mk_blue _ _ _ M).
  - intros b Hb. unfold color at 2. rewrite EH by done. now apply (mk_mono _ _ _ M).
  - intros b k Hb Ht. unfold color at 1. rewrite (EH b) by apply Hb. intros Hor.
    assert (Hne : b <> v \/ k <> i).
    { destruct (decide (b = v)) as [->|]; [|now left]. destruct Hor as [Hor|[_ Hk]]; [now destruct Hor|]. right. lia. }
    rewrite EF by done. apply (mk_white_field _ _ _ M); try done. destruct Hor as [|[-> Hk]]; [now left|]. right. split; [done|lia].
  - intros b k Hb Ht. destruct (decide (b = v /\ k = i)) as [[-> ->]|Hne].
    + rewrite (Field_ld (st _ _ _)), ld_st_eq. done.
    + rewrite EF by (done || (destruct (decide (b = v)); tauto)). now apply (mk_field _ _ _ M).
  - intros b k d He. pose proof He as (Hb & _ & _ & Hp1 & Hp2 & ->). unfold color. rewrite (EH b) by apply Hb.
    rewrite (EH (target m0 _)); [now apply (mk_black _ _ _ M)|].
    destruct He as (_ & Hnb & Ht & _). now destruct (hg_fields HG b k Hb Hnb Ht Hp1 Hp2).
  - intros b Hb. unfold color. rewrite (EH b) by done. now apply (mk_reached _ _ _ M).
  - intros a Ha Hout. rewrite ld_st_ne; [now apply (mk_frame _ _ _ M)|]. intros <-.
    destruct (Hout v (proj1 Hf) (field_in v i Hf)). lia.
Qed.

(** The field [i] has been seen. *)
Lemma mem_advance v i w m :
  mem_inv (Some (v, i)) w m -> (forall c, edge v i c -> color m c <> Caml_white) -> mem_inv (Some (v, i + 1)) w m.
Proof.
  intros M H. destruct M as [H1 H2 H3 H4 H5 H6 H7 H8 H9]. split; try done. intros b k c He Hb.
  destruct (H7 b k c He Hb) as [|[-> Hk]]; [now left|]. destruct (decide (k = i)) as [->|]; [left; now apply H|].
  right. split; [done|lia].
Qed.
Lemma mem_advance_w s v i m : mem_inv s (Some (v, i)) m -> mem_inv s (Some (v, i + 1)) m.
Proof.
  intros M. destruct M as [H1 H2 H3 H4 H5 H6 H7 H8 H9]. split; try done. intros b k Hb Ht [Hc|[-> Hk]]; apply H5; try done; [now left|].
  right. split; [done|lia].
Qed.

(** *** Blocks become gray *)

Lemma white_hd m b : Is_white_hd (Hd_val m b) = true <-> color m b = Caml_white.
Proof. unfold Is_white_hd, color. apply Z.eqb_eq. Qed.

Lemma elem_of_take_inv (k : nat) (l : list Z) x : x ∈ take k l -> x ∈ l.
Proof. intros H. rewrite <- (take_drop k l). apply elem_of_app. now left. Qed.

Lemma mem_shade s w m c :
  mem_inv s w m -> c ∈ B -> color m c = Caml_white -> reached c -> mem_inv s w (st m (c - 8) (Grayhd_hd (Hd_val m c))).
Proof.
  intros M Hc Hw Hr. destruct (mk_size _ _ _ M c Hc) as [Ew Et].
  assert (Hhd : isu64 (Hd_val m c)) by (rewrite Hd_val_ld; apply (mk_wf _ _ _ M)).
  apply mem_recolor; try done; rewrite ?Color_Grayhd, ?Wosize_Grayhd, ?Tag_Grayhd; try done.
  - now apply Grayhd_range.
  - now rewrite Hw.
  - now rewrite Hw.
Qed.

Lemma shade_push s w c r :
  marking s w r -> c ∈ B -> color (rmem r) c = Caml_white -> reached c ->
  exists r', push_gray c (set_rmem (st (rmem r) (c - 8) (Grayhd_hd (Hd_val (rmem r) c))) r) = Ok tt r' /\
    marking s w r' /\ skel r' = skel r /\ rmem r' = st (rmem r) (c - 8) (Grayhd_hd (Hd_val (rmem r) c)).
Proof.
  intros M Hc Hw Hrc. set (m := rmem r) in *. set (r1 := set_rmem _ r).
  assert (Hr1 : gray_vals_ok r1 /\ 2 <= gray_vals_size (mjr r1)) by apply (mk_room _ _ _ M).
  destruct (push_gray_spec c r1 (proj1 Hr1) (proj2 Hr1)) as (r' & E & Hsk & Hm & Hok & Hsz & [k Hk] & Hp).
  exists r'. split; [done|]. split; [|now rewrite Hm].
  assert (EC : forall b, color (rmem r') b = if decide (b = c) then Caml_gray else color m b).
  { intros b. rewrite Hm. unfold color, r1. rsimp. rewrite Hd_st_header. destruct (decide (b = c)); [apply Color_Grayhd|done]. }
  destruct (skel_inv r1 r' Hsk) as (Hheap & Emp & Ech & Eli & _ & _ & Ehs & _).
  assert (Hout : c ∉ gray_vals (mjr r)).
  { intros Hin. destruct (mk_stack _ _ _ M c Hin) as [_ Hg]. unfold m in *. rewrite Hw in Hg. discriminate. }
  assert (Hsub : forall v, v ∈ gray_vals (mjr r') -> v ∈ gray_vals (mjr r) \/ v = c).
  { intros v Hv. rewrite Hk in Hv. apply elem_of_take_inv, elem_of_app in Hv as [|Hv]; [now left|]. right. now apply list_elem_of_singleton in Hv. }
  split.
  - rewrite Hm. apply mem_shade; [apply M|done..].
  - intros p. rewrite Hheap. apply (mk_heap _ _ _ M).
  - rewrite Ehs. apply (mk_start _ _ _ M).
  - done.
  - intros v Hv. rewrite EC. destruct (Hsub v Hv) as [Hin| ->]; [|rewrite decide_True by done; done].
    destruct (decide (v = c)) as [->|]; [done|]. apply (mk_stack _ _ _ M v Hin).
  - rewrite Hk. eapply sublist_NoDup; [|apply sublist_take].
    apply NoDup_app. splits; [apply (mk_nodup _ _ _ M)| |apply NoDup_singleton]. intros x Hx ->%list_elem_of_singleton. done.
  - intros b Hpure Hb. rewrite EC, Emp. destruct (Hp Hpure) as [Hp1 Hg]. rewrite Hg. unfold r1. rsimp.
    destruct (decide (b = c)) as [->|Hne]; intros Hcol.
    + left. apply elem_of_snoc.
    + destruct (mk_pure _ _ _ M b Hp1 Hb Hcol); [left; apply elem_of_app; now left|now right].
  - rewrite Emp, Ech, Eli. apply (mk_walk _ _ _ M).
Qed.

(** *** One block is marked *)

Lemma color_shaded m c b : color (st m (c - 8) (Grayhd_hd (Hd_val m c))) b = if decide (b = c) then Caml_gray else color m b.
Proof. unfold color. rewrite Hd_st_header. destruct (decide (b = c)); [apply Color_Grayhd|done]. Qed.

(** Blocks only get darker. *)
Definition grows (m m' : mem) : Prop := forall b, b ∈ B -> color m b <> Caml_white -> color m' b <> Caml_white.
Lemma grows_trans m1 m2 m3 : grows m1 m2 -> grows m2 m3 -> grows m1 m3.
Proof. intros H1 H2 b Hb Hc. auto. Qed.

(** The words the marker does not look at do not change. *)
Definition calm (m m' : mem) : Prop := forall a, plain a -> ld m' a = ld m a.
Lemma calm_trans m1 m2 m3 : calm m1 m2 -> calm m2 m3 -> calm m1 m3.
Proof. intros H1 H2 a Ha. now rewrite H2, H1. Qed.
Lemma calm_header m c h : c ∈ B -> calm m (st m (c - 8) h).
Proof. intros Hc a Ha. apply ld_st_ne. intros <-. now destruct (Ha c Hc (header_in c Hc)). Qed.

(** What a step that marks fields does: no block becomes black. *)
Definition same_black (m m' : mem) : Prop :=
  (forall b, b ∈ B -> color m' b = Caml_black <-> color m b = Caml_black) /\ grows m m' /\ calm m m'.

Lemma same_black_refl m : same_black m m.
Proof. split; [done|]. split; [now intros b Hb|done]. Qed.
#[local] Hint Resolve same_black_refl : core.
Lemma same_black_trans m1 m2 m3 : same_black m1 m2 -> same_black m2 m3 -> same_black m1 m3.
Proof.
  intros (H1 & D1 & C1) (H2 & D2 & C2). split; [|split; [now apply (grows_trans _ m2)|now apply (calm_trans _ m2)]]. intros b Hb. rewrite (H2 b Hb). now apply H1.
Qed.

Lemma same_black_shade m c : c ∈ B -> color m c = Caml_white -> same_black m (st m (c - 8) (Grayhd_hd (Hd_val m c))).
Proof.
  intros HcB Hc. split; [|split; [|now apply calm_header]]; intros b Hb; rewrite color_shaded; (destruct (decide (b = c)) as [->|]; [rewrite ?Hc|]; done).
Qed.

(** A field is looked at: its block is not white any more, or it was no pointer. *)
Lemma mark_child s w x r :
  marking s w r -> heap_pointer x -> Is_block x = true -> heap x = true -> reached (target m0 x) ->
  exists r', (if Is_white_hd (Hd_val (rmem r) (target m0 x))
              then push_gray (target m0 x) (set_rmem (st (rmem r) (Hp_val (target m0 x)) (Grayhd_hd (Hd_val (rmem r) (target m0 x)))) r)
              else Ok tt r) = Ok tt r' /\
    marking s w r' /\ skel r' = skel r /\ same_black (rmem r) (rmem r') /\ color (rmem r') (target m0 x) <> Caml_white.
Proof.
  intros M Hx Hb Hh Hr. destruct (Hx Hb Hh) as (Hc & Hnb & _). set (c := target m0 x) in *.
  destruct (Is_white_hd (Hd_val (rmem r) c)) eqn:Ew.
  - apply white_hd in Ew. rewrite Hp_val_eq. destruct (shade_push s w c r M Hc Ew Hr) as (r' & E & M' & Hsk & Hm).
    exists r'. splits; try done; rewrite Hm; [now apply same_black_shade|rewrite color_shaded, decide_True by done; done].
  - exists r. splits; try done. intros E. apply white_hd in E. congruence.
Qed.

Lemma marking_mem s w s' w' r m :
  marking s w r -> mem_inv s' w' m -> (forall b, b ∈ B -> color m b = color (rmem r) b) -> marking s' w' (set_rmem m r).
Proof.
  intros M Hm EC. destruct M as [H1 H2 H3 H4 H5 H6 H7 H8]. split; rsimp; try done.
  - intros v Hv. destruct (H5 v Hv) as [Hb Hc]. now rewrite EC.
  - intros b Hp Hb. rewrite EC by done. now apply H7.
Qed.

Lemma marking_weaken s w s' w' r : marking s w r -> mem_inv s' w' (rmem r) -> marking s' w' r.
Proof. intros M Hm. apply (marking_mem s w s' w' r (rmem r) M Hm). done. Qed.

Lemma set_Field_st m v i y : set_Field m v i y = st m (v + 8 * i) y.
Proof. unfold set_Field, Field_addr, sizeof_value. f_equal. lia. Qed.

Lemma mark_field_spec v i r :
  marking (Some (v, i)) (Some (v, i)) r -> block_field v i -> Tag_val m0 v < No_scan_tag -> color (rmem r) v = Caml_black ->
  exists r', mark_field v i r = Ok tt r' /\ marking (Some (v, i + 1)) (Some (v, i + 1)) r' /\
    skel r' = skel r /\ same_black (rmem r) (rmem r').
Proof.
  intros M Hf Ht Hv. pose proof (mk_mem _ _ _ M) as Mm.
  assert (Hnb : color m0 v <> Caml_blue).
  { intros E. apply (mk_blue _ _ _ Mm v (proj1 Hf)) in E. rewrite Hv in E. discriminate. }
  pose proof (hg_fields HG v i Hf Hnb Ht) as Hx.
  assert (Ef : Field (rmem r) v i = Field m0 v i) by (apply (mk_white_field _ _ _ Mm); try done; right; split; [done|lia]).
  unfold mark_field. rewrite Ef, (mk_heap _ _ _ M). set (x := Field m0 v i) in *.
  assert (Hskip : (forall c, edge v i c -> False) -> marking (Some (v, i + 1)) (Some (v, i + 1)) r).
  { intros Hno. apply (marking_weaken (Some (v, i)) (Some (v, i))); [done|].
    apply mem_advance; [now apply mem_advance_w|]. intros c Hc. now destruct (Hno c). }
  destruct (Is_block x) eqn:Hb; cbn [andb]; [|exists r; splits; try done; apply Hskip; intros c (_ & _ & _ & E & _); fold x in E; congruence].
  destruct (heap x) eqn:Hh; [|exists r; splits; try done; apply Hskip; intros c (_ & _ & _ & _ & E & _); fold x in E; congruence].
  destruct (target_same _ _ _ x Mm Hx Hb Hh) as [Etag Etgt]. destruct (Hx Hb Hh) as (HcB & Hcnb & Hcase).
  change (Tag_hd (Hd_val (rmem r) x)) with (Tag_val (rmem r) x). rewrite Etag.
  set (r1 := if Tag_val m0 x =? Forward_tag then _ else r).
  assert (M1 : marking (Some (v, i)) (Some (v, i + 1)) r1 /\ skel r1 = skel r /\ same_black (rmem r) (rmem r1) /\
               Hd_val (rmem r1) (target m0 x) = Hd_val (rmem r) (target m0 x)).
  { unfold r1. destruct (Z.eqb_spec (Tag_val m0 x) Forward_tag) as [Hfw|_].
    2: { splits; try done. apply (marking_weaken (Some (v, i)) (Some (v, i))); [done|]. now apply mem_advance_w. }
    destruct Hcase as [[_ HxB]|[Hi _]]; [|rewrite Hi in Hfw; discriminate].
    assert (EH : forall b y, b ∈ B -> Hd_val (set_Field (rmem r) v i y) b = Hd_val (rmem r) b).
    { intros b y Hb'. rewrite set_Field_st. now apply Hd_st_field. }
    assert (Exx : target m0 x = x) by (unfold target, darken_target; rewrite Hfw; done). rewrite Exx in *.
    assert (Hfx : block_field x 0) by (split; [done|]; now apply (hg_forward HG)).
    rsimp. splits; [|done| |now apply EH].
    - apply (marking_mem (Some (v, i)) (Some (v, i))); try done.
      + rewrite set_Field_st. apply mem_redirect; try done.
        * apply follows_step; try done. fold x. unfold Forward_val. apply (mk_field _ _ _ Mm); [done|]. rewrite Hfw. done.
        * unfold Forward_val. rewrite Field_ld. apply (mk_wf _ _ _ Mm).
      + intros b Hb'. unfold color. now rewrite EH.
    - split; [|split]; [intros b Hb'; unfold color; rewrite EH; done..|]. intros a Ha. rewrite set_Field_st. apply ld_st_ne. intros <-.
      destruct (Ha v (proj1 Hf) (field_in v i Hf)). lia. }
  destruct M1 as (M1 & Hsk1 & Hsb1 & Ehd).
  assert (Ech : (if negb (Tag_val m0 x =? Forward_tag) && (Tag_val m0 x =? Infix_tag) then x - Infix_offset_val (rmem r) x else x) = target m0 x).
  { rewrite <- Etgt. unfold target, darken_target. rewrite Etag.
    destruct (Z.eqb_spec (Tag_val m0 x) Infix_tag) as [E|]; [rewrite E; done|]. now rewrite andb_false_r. }
  rewrite Ech, <- Ehd.
  assert (Hreach : reached (target m0 x)).
  { apply (reached_edge v i); [|done]. apply (mk_reached _ _ _ Mm); [apply Hf|now rewrite Hv..]. }
  destruct (mark_child _ _ x r1 M1 Hx Hb Hh Hreach) as (r' & E & M' & Hsk & Hsb & Hnw).
  exists r'. rewrite E. splits; try done; [|congruence|now apply (same_black_trans _ (rmem r1))].
  apply (marking_weaken (Some (v, i)) (Some (v, i + 1))); [done|].
  apply mem_advance; [apply (mk_mem _ _ _ M')|]. intros c (_ & _ & _ & _ & _ & ->). done.
Qed.

Lemma mark_fields_spec v n : forall i r,
  marking (Some (v, i)) (Some (v, i)) r -> v ∈ B -> 0 <= i -> i + Z.of_nat n = Wosize_val m0 v ->
  Tag_val m0 v < No_scan_tag -> color (rmem r) v = Caml_black ->
  exists r', mark_fields n i v r = Ok tt r' /\ marking (Some (v, Wosize_val m0 v)) (Some (v, Wosize_val m0 v)) r' /\
    skel r' = skel r /\ same_black (rmem r) (rmem r').
Proof.
  induction n as [|n IH]; intros i r M Hv Hi Hn Ht Hc.
  - exists r. splits; try done. replace (Wosize_val m0 v) with i by lia. done.
  - destruct (mark_field_spec v i r) as (r1 & E1 & M1 & Hs1 & Hb1); try done; [split; [done|lia]|].
    destruct (IH (i + 1) r1) as (r2 & E2 & M2 & Hs2 & Hb2); try done; try lia; [now apply (proj1 Hb1)|].
    exists r2. cbn [mark_fields]. rewrite (bind_Ok _ _ _ _ _ E1). splits; try done; [congruence|]. now apply (same_black_trans _ (rmem r1)).
Qed.

(** All the fields have been seen. *)
Lemma mem_marked v k m :
  mem_inv (Some (v, k)) (Some (v, k)) m -> Wosize_val m0 v <= k \/ No_scan_tag <= Tag_val m0 v -> mem_inv None None m.
Proof.
  intros [H1 H2 H3 H4 H5 H6 H7 H8 H9] Hk. split; try done.
  - intros b i Hf Ht [Hc|[]]. apply H5; try done. now left.
  - intros b i c He Hb. destruct (H7 b i c He Hb) as [|[-> Hi]]; [now left|]. destruct He as ((_ & Hi') & _ & Ht & _). lia.
Qed.

(** The blocks that are not black. *)
Definition nonblack (m : mem) : gset Z := filter (fun b => color m b <> Caml_black) B.

Lemma nonblack_spec m b : b ∈ nonblack m <-> color m b <> Caml_black /\ b ∈ B.
Proof. unfold nonblack. now rewrite elem_of_filter. Qed.
Lemma nonblack_same m m' : same_black m m' -> nonblack m' = nonblack m.
Proof. intros (H & _). apply set_eq. intros b. rewrite !nonblack_spec. pose proof (H b). tauto. Qed.

Lemma color_blackened m c b : color (st m (c - 8) (Blackhd_hd (Hd_val m c))) b = if decide (b = c) then Caml_black else color m b.
Proof. unfold color. rewrite Hd_st_header. destruct (decide (b = c)); [apply Color_Blackhd|done]. Qed.

Lemma mem_blacken m v :
  mem_inv None None m -> v ∈ B -> color m v = Caml_gray -> mem_inv (Some (v, 0)) (Some (v, 0)) (st m (v - 8) (Blackhd_hd (Hd_val m v))).
Proof.
  intros M Hv Hg. destruct (mk_size _ _ _ M v Hv) as [Ew Et].
  apply mem_recolor; try done; rewrite ?Color_Blackhd, ?Wosize_Blackhd, ?Tag_Blackhd; try done.
  - destruct M as [H1 H2 H3 H4 H5 H6 H7 H8 H9]. split; try done.
    + intros b i Hf Ht [Hc|[-> _]]; apply H5; try done; left; [done|]. now rewrite Hg.
    + intros b i c He Hb. left. now destruct (H7 b i c He Hb).
  - apply Blackhd_range. rewrite Hd_val_ld. apply (mk_wf _ _ _ M).
  - now rewrite Hg.
  - intros _ i [_ Hi] _. split; (split; [done|lia]).
  - apply (mk_reached _ _ _ M); [done|now rewrite Hg..].
Qed.

(** The block on top of the stack is marked. *)
Lemma mark_top_spec l v r :
  marking None None r -> gray_vals (mjr r) = l ++ [v] ->
  exists n r', mark_block v (set_gray_vals l r) = Ok n r' /\ 0 < n /\ marking None None r' /\
    skel r' = skel r /\ grows (rmem r) (rmem r') /\ calm (rmem r) (rmem r') /\ (size (nonblack (rmem r')) < size (nonblack (rmem r)))%nat.
Proof.
  intros M Hl. pose proof (mk_mem _ _ _ M) as Mm.
  destruct (mk_stack _ _ _ M v) as [Hv Hg]; [rewrite Hl; apply elem_of_snoc|].
  destruct (mk_size _ _ _ Mm v Hv) as [Ew Et]. pose proof (mk_nodup _ _ _ M) as Hnd. rewrite Hl in Hnd.
  apply NoDup_app in Hnd as (Hnd & Hdis & _).
  unfold mark_block. rsimp. rewrite Hp_val_eq. set (m1 := st (rmem r) (v - 8) _). set (r1 := set_rmem m1 _).
  assert (EC : forall b, color m1 b = if decide (b = v) then Caml_black else color (rmem r) b) by apply color_blackened.
  assert (M1 : marking (Some (v, 0)) (Some (v, 0)) r1).
  { destruct M as [H1 H2 H3 H4 H5 H6 H7 H8]. unfold r1. split; rsimp; try done.
    - now apply mem_blacken.
    - destruct H4 as [[Hlen Hh] Hsz]. rewrite Hl, length_app in Hlen. cbn [length] in Hlen. unfold gray_vals_ok. rsimp. splits; try done; lia.
    - intros u Hu. rewrite EC. destruct (decide (u = v)) as [->|]; [destruct (Hdis v Hu); now apply list_elem_of_singleton|].
      apply H5. rewrite Hl. apply elem_of_app. now left.
    - intros b Hp Hb. rewrite EC. destruct (decide (b = v)) as [->|]; [done|]. intros Hc. destruct (H7 b Hp Hb Hc) as [Hin|]; [left|now right].
      rewrite Hl in Hin. apply elem_of_app in Hin as [|Hin]; [done|]. now apply list_elem_of_singleton in Hin. }
  assert (Hlt : (size (nonblack m1) < size (nonblack (rmem r)))%nat).
  { apply subset_size. split.
    - intros b. rewrite !nonblack_spec, EC. destruct (decide (b = v)) as [->|]; [|done]. intros [Hb _]. done.
    - intros Hsub. specialize (Hsub v). rewrite !nonblack_spec, EC, decide_True in Hsub by done.
      destruct Hsub as [Hb _]; [|done]. split; [now rewrite Hg|done]. }
  assert (Hskel : skel r1 = skel r) by done.
  assert (Hsz : Wosize_hd (Hd_val (rmem r) v) = Wosize_val m0 v) by done.
  assert (Htg : Tag_hd (Hd_val (rmem r) v) = Tag_val m0 v) by done.
  rewrite Hsz, Htg. pose proof (Wosize_nonneg m0 v (hg_wf HG)) as Hw0.
  assert (Hfin : exists r', (if Tag_val m0 v <? No_scan_tag then mark_fields (Z.to_nat (Wosize_val m0 v)) 0 v r1 else Ok tt r1) = Ok tt r' /\
            marking None None r' /\ skel r' = skel r /\ same_black m1 (rmem r')).
  { destruct (Z.ltb_spec (Tag_val m0 v) No_scan_tag) as [Hsc|Hns].
    - destruct (mark_fields_spec v (Z.to_nat (Wosize_val m0 v)) 0 r1) as (r' & E & M' & Hs & Hb); try done; try lia.
      { unfold r1. rsimp. rewrite EC. now rewrite decide_True. }
      exists r'. splits; try done. eapply marking_weaken; [done|]. eapply mem_marked; [apply (mk_mem _ _ _ M')|]. left. lia.
    - exists r1. splits; try done. eapply marking_weaken; [done|]. eapply mem_marked; [apply (mk_mem _ _ _ M1)|]. now right. }
  destruct Hfin as (r' & E & M' & Hs & Hb). exists (Whsize_wosize (Wosize_val m0 v)), r'.
  splits; try done.
  - unfold bind. now rewrite E.
  - unfold Whsize_wosize. lia.
  - apply (grows_trans _ m1); [|apply Hb]. intros b Hb' Hc. rewrite EC. now destruct (decide (b = v)).
  - apply (calm_trans _ m1); [now apply calm_header|apply Hb].
  - now rewrite (nonblack_same m1).
Qed.

(** *** The walk for the gray blocks that were lost *)

(** The chunk a block is in. *)
Lemma chunk_of c b : c ∈ cl -> b ∈ B -> c <= b - 8 < chunk_end m0 c ->
  block_end m0 b <= chunk_end m0 c /\ (block_end m0 b = chunk_end m0 c \/ block_end m0 b + 8 ∈ B).
Proof.
  intros Hc Hb Hin. destruct (hg_chunk HG b Hb) as (d & Hd & H1 & H2 & H3).
  pose proof (Wosize_nonneg m0 b (hg_wf HG)). assert (b <= block_end m0 b) by (unfold block_end; lia).
  assert (d = c) as ->; [|done]. destruct (decide (d = c)) as [|Hne]; [done|].
  apply list_elem_of_split in Hc as (l1 & l2 & Ecl). pose proof (hg_sorted HG) as Hs. rewrite Ecl in Hs, Hd.
  apply elem_of_drop_mid in Hd; [|done]. destruct (chunks_sorted_disjoint _ _ _ _ _ _ Hs Hd); lia.
Qed.

(** The heads of the chunks do not change. *)
Lemma chunk_heads s w m c : mem_inv s w m -> c ∈ cl -> Chunk_next m c = Chunk_next m0 c /\ Chunk_size m c = Chunk_size m0 c.
Proof.
  intros M Hc. unfold Chunk_next, Chunk_size.
  assert (Hh : forall a, c - 32 <= a < c -> ld m a = ld m0 a).
  { intros a Ha. destruct (hg_heads HG c a Hc Ha) as [HX Hout]. apply (mk_frame _ _ _ M); [done|]. intros b Hb Hin. now destruct (Hout b Hb). }
  split; apply Hh; lia.
Qed.

(** What is left to walk. *)
Definition unwalked (hp : Z) : nat :=
  if hp =? 0 then 0 else size (filter (fun b => hp <= b - 8) B) + length (filter (fun c => hp <= chunk_end m0 c) cl).

Lemma unwalked_bound hp : (unwalked hp <= size B + length cl)%nat.
Proof.
  unfold unwalked. destruct (hp =? 0); [lia|].
  assert (size (filter (fun b : Z => (hp <= b - 8)%Z) B) <= size B)%nat by (apply subseteq_size; intros b; rewrite elem_of_filter; tauto).
  pose proof (length_filter (fun c => hp <= chunk_end m0 c) cl). lia.
Qed.

Lemma filter_length_le {A} (P Q : A -> Prop) `{forall x, Decision (P x)} `{forall x, Decision (Q x)} (l : list A) :
  (forall y, Q y -> P y) -> (length (filter Q l) <= length (filter P l))%nat.
Proof using.
  intros HQP. induction l as [|y l IH]; [done|]. rewrite !filter_cons.
  destruct (decide (Q y)) as [HQ|]; destruct (decide (P y)) as [|HP]; cbn [length]; try lia. now destruct HP; apply HQP.
Qed.
Lemma filter_length_lt {A} (P Q : A -> Prop) `{forall x, Decision (P x)} `{forall x, Decision (Q x)} (l : list A) x :
  (forall y, Q y -> P y) -> x ∈ l -> P x -> ~ Q x -> (length (filter Q l) < length (filter P l))%nat.
Proof using.
  intros HQP (l1 & l2 & ->)%list_elem_of_split HP HQ. rewrite !filter_app, !filter_cons, !length_app, decide_False, decide_True by done.
  pose proof (filter_length_le P Q l1 HQP). pose proof (filter_length_le P Q l2 HQP). cbn [length]. lia.
Qed.

Lemma unwalked_lt hp hp' :
  0 < hp < hp' -> (exists b, b ∈ B /\ hp <= b - 8 < hp') \/ (exists c, c ∈ cl /\ hp <= chunk_end m0 c < hp') ->
  (unwalked hp' < unwalked hp)%nat.
Proof.
  intros Hlt Hor. unfold unwalked. rewrite !(proj2 (Z.eqb_neq _ _)) by lia.
  assert (H1 : (size (filter (fun b : Z => (hp' <= b - 8)%Z) B) <= size (filter (fun b : Z => (hp <= b - 8)%Z) B))%nat).
  { apply subseteq_size. intros b. rewrite !elem_of_filter. intros [Hb1 Hb2]. split; [lia|done]. }
  assert (H2 : (length (filter (fun c : Z => (hp' <= chunk_end m0 c)%Z) cl) <= length (filter (fun c : Z => (hp <= chunk_end m0 c)%Z) cl))%nat).
  { apply filter_length_le. intros; lia. }
  destruct Hor as [(b & Hb & Hin)|(c & Hc & Hin)].
  - assert (size (filter (fun b : Z => (hp' <= b - 8)%Z) B) < size (filter (fun b : Z => (hp <= b - 8)%Z) B))%nat; [|lia].
    apply subset_size. split; [intros d; rewrite !elem_of_filter; intros [Hd1 Hd2]; split; [lia|done]|].
    intros Hsub. specialize (Hsub b). rewrite !elem_of_filter in Hsub. destruct Hsub; [split; [lia|done]|]. lia.
  - assert (length (filter (fun c : Z => (hp' <= chunk_end m0 c)%Z) cl) < length (filter (fun c : Z => (hp <= chunk_end m0 c)%Z) cl))%nat; [|lia].
    apply (filter_length_lt _ _ cl c); try done; intros; lia.
Qed.

Lemma unwalked_end hp c : 0 < hp -> c ∈ cl -> hp <= chunk_end m0 c -> (unwalked 0 < unwalked hp)%nat.
Proof.
  intros Hhp Hc Hle. change (unwalked 0) with 0%nat. unfold unwalked. rewrite (proj2 (Z.eqb_neq _ _)) by lia.
  pose proof (filter_length_lt (fun d => hp <= chunk_end m0 d) (fun _ => False) cl c ltac:(done) Hc Hle ltac:(tauto)). lia.
Qed.

(** The result of a step of the walk. *)
Definition walked (r r' : runtime) : Prop :=
  marking None None r' /\ rmem r' = rmem r /\ heap_is_pure (mjr r') = heap_is_pure (mjr r) /\ core r' = core r /\
  (unwalked (markhp (mjr r')) < unwalked (markhp (mjr r)))%nat.

(** At the end of a chunk. *)
Lemma walk_chunk_spec r :
  marking None None r -> gray_vals (mjr r) = [] -> markhp (mjr r) <> 0 -> markhp (mjr r) = limit (mjr r) -> walked r (walk_step r).
Proof.
  intros M Hnil Hhp Hend. pose proof (mk_mem _ _ _ M) as Mm. destruct M as [H1 H2 H3 H4 H5 H6 H7 H8].
  destruct H8 as [|(Hc & El & Hrange & Hat)]; [done|]. rewrite Hnil in *. set (c := chunk (mjr r)) in *.
  pose proof (proj1 (chunks_sorted_elem _ _ _ _ (hg_sorted HG) Hc)) as Hc33.
  destruct (chunk_heads _ _ _ _ Mm Hc) as [Enx _].
  unfold walk_step. rewrite Hend, Z.eqb_refl. rsimp. fold c. rewrite Enx.
  assert (Hbeyond : forall b, b ∈ B -> markhp (mjr r) <= b - 8 -> Chunk_next m0 c <> 0 /\ Chunk_next m0 c <= b - 8).
  { intros b Hb Hhpb. destruct (hg_chunk HG b Hb) as (d & Hd & Hd1 & Hd2 & _).
    assert (b <= block_end m0 b) by (pose proof (Wosize_nonneg m0 b (hg_wf HG)); unfold block_end; lia).
    destruct (next_chunk _ _ _ _ _ (hg_chunks HG) (hg_sorted HG) ltac:(lia) Hc) as [[_ Hall]|(_ & Hpos & _ & Hall)]; specialize (Hall d Hd); lia. }
  destruct (Z.eqb_spec (Chunk_next m0 c) 0) as [Hz|Hnz].
  - unfold walked. splits; rsimp; try done.
    + split; rsimp; rewrite ?Hnil; try done; [|now left].
      intros b Hp Hb Hg. destruct (H7 b Hp Hb Hg) as [|[_ Hab]]; [now left|]. now destruct (Hbeyond b Hb Hab).
    + apply (unwalked_end _ c); try done; lia.
  - destruct (next_chunk _ _ _ _ _ (hg_chunks HG) (hg_sorted HG) ltac:(lia) Hc) as [[Hz _]|(Hin & Hpos & Hafter & Hall)]; [done|].
    destruct (chunk_heads _ _ _ _ Mm Hin) as [_ Esz'].
    destruct (proj2 (chunks_sorted_elem _ _ _ _ (hg_sorted HG) Hin)) as (_ & _ & Hsz').
    unfold walked. splits; rsimp; try done.
    + split; rsimp; rewrite ?Hnil; try done.
      * intros b Hp Hb Hg. destruct (H7 b Hp Hb Hg) as [|[_ Hab]]; [now left|]. right. now apply Hbeyond.
      * right. rewrite Esz'. unfold chunk_end. splits; try done; try lia. right. now apply (hg_first HG).
    + apply unwalked_lt; [lia|]. right. exists c. split; [done|lia].
Qed.

(** At a block. *)
Lemma walk_block_spec r :
  marking None None r -> gray_vals (mjr r) = [] -> markhp (mjr r) <> 0 -> markhp (mjr r) <> limit (mjr r) -> walked r (walk_step r).
Proof.
  intros M Hnil Hhp Hnend. pose proof (mk_mem _ _ _ M) as Mm. destruct M as [H1 H2 H3 H4 H5 H6 H7 H8].
  destruct H8 as [|(Hc & El & Hrange & Hat)]; [done|]. destruct Hat as [|Hat]; [done|]. rewrite Hnil in *.
  pose proof (proj1 (chunks_sorted_elem _ _ _ _ (hg_sorted HG) Hc)) as Hc33.
  set (hp := markhp (mjr r)) in *. set (b := hp + 8) in *.
  destruct (chunk_of (chunk (mjr r)) b Hc Hat) as [He1 He2]; [unfold b; lia|].
  destruct (mk_size _ _ _ Mm b Hat) as [Eb _]. pose proof (Wosize_nonneg m0 b (hg_wf HG)) as Hw0.
  assert (Enext : hp + Bhsize_hp (rmem r) hp = block_end m0 b).
  { unfold Bhsize_hp, Whsize_hp, Wosize_hp, Bsize_wsize, sizeof_value, block_end. rewrite <- Eb. unfold Wosize_val.
    rewrite Hd_val_ld. unfold Hd_hp, b, Whsize_wosize. replace (hp + 8 - 8) with hp by lia. lia. }
  assert (Hadv : forall b', b' ∈ B -> hp <= b' - 8 -> b' <> b -> block_end m0 b <= b' - 8).
  { intros b' Hb' Hle Hne. destruct (hg_disj HG b b' Hat Hb' ltac:(done)); [done|].
    pose proof (Wosize_nonneg m0 b' (hg_wf HG)). unfold block_end in *. unfold b in *. lia. }
  assert (Hbe : b <= block_end m0 b) by (unfold block_end; lia).
  assert (Hdec : (unwalked (block_end m0 b) < unwalked hp)%nat).
  { apply unwalked_lt; [unfold b in *; lia|]. left. exists b. split; [done|]. unfold b in *. lia. }
  assert (Hwalk : chunk (mjr r) ∈ cl /\ limit (mjr r) = chunk_end m0 (chunk (mjr r)) /\
     chunk (mjr r) <= block_end m0 b <= limit (mjr r) /\ (block_end m0 b = limit (mjr r) \/ block_end m0 b + 8 ∈ B)).
  { rewrite El. splits; try done. unfold b in *. lia. }
  assert (Hpure : forall b', heap_is_pure (mjr r) = true -> b' ∈ B -> color (rmem r) b' = Caml_gray ->
            b' = b \/ (block_end m0 b <> 0 /\ block_end m0 b <= b' - 8)).
  { intros b' Hp Hb' Hg. destruct (decide (b' = b)) as [|Hne]; [now left|]. right.
    destruct (H7 b' Hp Hb' Hg) as [Hin|[_ Hab]]; [now apply elem_of_nil in Hin|]. split; [unfold b in *; lia|]. now apply Hadv. }
  unfold walk_step. rewrite (proj2 (Z.eqb_neq _ _)) by done. fold hp.
  assert (Hval : Val_hp hp = b) by (unfold Val_hp, sizeof_value, b; lia). rewrite Hval. unfold Is_gray_val, Is_gray_hd, walked.
  destruct (Z.eqb_spec (Color_hd (Hd_val (rmem r) b)) Caml_gray) as [Eg|Eg]; splits; rsimp; rewrite ?Enext; try done;
    split; rsimp; rewrite ?Enext, ?Hnil; try done; try (now right).
  - destruct H4 as [[Hlen Hh] Hs2]. unfold gray_vals_ok. rsimp. cbn. splits; try done; lia.
  - intros v ->%list_elem_of_singleton. done.
  - intros b' Hp Hb' Hg. destruct (Hpure b' Hp Hb' Hg) as [->|]; [left; now apply list_elem_of_singleton|now right].
  - intros b' Hp Hb' Hg. destruct (Hpure b' Hp Hb' Hg) as [->|]; [done|now right].
Qed.

Lemma walk_step_spec r : marking None None r -> gray_vals (mjr r) = [] -> markhp (mjr r) <> 0 -> walked r (walk_step r).
Proof.
  intros M Hnil Hhp. destruct (decide (markhp (mjr r) = limit (mjr r))); [now apply walk_chunk_spec|now apply walk_block_spec].
Qed.

Lemma heap_first : hs ∈ cl /\ 0 < hs /\ forall b, b ∈ B -> hs <= b - 8.
Proof.
  pose proof (hg_some HG) as Hne. pose proof (hg_chunks HG) as Hc. pose proof (hg_sorted HG) as Hs.
  destruct cl as [|c l] eqn:E; [done|]. rewrite <- E in *. assert (hs = c) as -> by (rewrite E in Hc; apply Hc).
  assert (Hin : c ∈ cl) by (rewrite E; left). split; [done|]. split; [destruct (chunks_sorted_elem _ _ _ _ Hs Hin); lia|].
  intros b Hb. destruct (hg_chunk HG b Hb) as (d & Hd & Hd1 & _). pose proof (chunks_head_le _ _ _ _ _ Hc Hs Hd). lia.
Qed.

Lemma start_walk_spec r :
  marking None None r -> gray_vals (mjr r) = [] ->
  marking None None (start_walk r) /\ rmem (start_walk r) = rmem r /\ heap_is_pure (mjr (start_walk r)) = true /\ core (start_walk r) = core r.
Proof.
  intros M Hnil. pose proof (mk_mem _ _ _ M) as Mm. destruct M as [H1 H2 H3 H4 H5 H6 H7 H8]. rewrite Hnil in *. destruct heap_first as (Hin & Hpos & Hall).
  destruct (chunk_heads _ _ _ _ Mm Hin) as [_ Esz]. destruct (proj2 (chunks_sorted_elem _ _ _ _ (hg_sorted HG) Hin)) as (_ & _ & Hsz).
  unfold start_walk. rsimp. splits; try done. split; rsimp; rewrite ?Hnil; try done.
  - intros b _ Hb _. right. rewrite H3. split; [lia|now apply Hall].
  - right. rewrite H3, Esz. unfold chunk_end. splits; try done; try lia. right. now apply (hg_first HG).
Qed.

(** *** The turns of the loop that mark *)

Definition busy (r : runtime) : Prop :=
  gray_vals (mjr r) <> [] \/ markhp (mjr r) <> 0 \/ heap_is_pure (mjr r) = false.

Definition heap_count : nat := size B + length cl.
(** A bound on the number of turns: every block is marked once, and the heap is walked
    at most once more after each. *)
Definition turns (r : runtime) : nat :=
  size (nonblack (rmem r)) * (2 * heap_count + 2) +
  (if heap_is_pure (mjr r) then 0 else heap_count + 1) + unwalked (markhp (mjr r)).

Lemma mark_step_busy Fl_head weak_list_head fuel work t r :
  marking None None r -> busy r ->
  exists work' r', mark_step Fl_head weak_list_head fuel work t r = Ok (work', t) r' /\ work' <= work /\
    marking None None r' /\ core r' = core r /\ grows (rmem r) (rmem r') /\ calm (rmem r) (rmem r') /\ (turns r' < turns r)%nat.
Proof.
  intros M Hbusy. unfold mark_step. destruct (last (gray_vals (mjr r))) as [v|] eqn:El.
  - apply last_Some in El as [l El]. rewrite El, length_app. cbn [length].
    replace (length l + 1 - 1)%nat with (length l) by lia. rewrite take_app_length.
    destruct (mark_top_spec l v r M El) as (n & r' & E & Hn & M' & Hsk & Hd & Hcm & Hlt).
    exists (work - n), r'. rewrite (bind_Ok _ _ _ _ _ E). splits; try done; [lia|now apply core_skel|].
    destruct (skel_inv _ _ Hsk) as (_ & Emp & _). unfold turns. rewrite Emp.
    pose proof (unwalked_bound (markhp (mjr r))) as Hu. fold heap_count in Hu.
    assert (size (nonblack (rmem r')) * (2 * heap_count + 2) + (2 * heap_count + 2) <= size (nonblack (rmem r)) * (2 * heap_count + 2))%nat.
    { rewrite <- (Nat.mul_1_l (2 * heap_count + 2)) at 2. rewrite <- Nat.mul_add_distr_r. apply Nat.mul_le_mono_r. lia. }
    set (x := (size (nonblack (rmem r')) * _)%nat) in *. set (y := (size (nonblack (rmem r)) * _)%nat) in *.
    destruct (heap_is_pure (mjr r')), (heap_is_pure (mjr r)); lia.
  - apply last_None in El. destruct (Z.eqb_spec (markhp (mjr r)) 0) as [E0|E0]; cbn [negb].
    + destruct Hbusy as [|[|Hp]]; [done..|]. rewrite Hp. cbn [negb].
      destruct (start_walk_spec r M El) as (M' & Em & Epu & Eco).
      exists work, (start_walk r). splits; try done; [rewrite Em; now intros b|].
      unfold turns. rewrite Em, Epu, Hp, E0. pose proof (unwalked_bound (markhp (mjr (start_walk r)))) as Hu. fold heap_count in Hu. lia.
    + destruct (walk_step_spec r M El E0) as (M' & Em & Epu & Eco & Hlt).
      exists work, (walk_step r). splits; try done; [rewrite Em; now intros b|rewrite Em; now intros b|].
      unfold turns. rewrite Em, Epu. lia.
Qed.

(** When no turn marks any more there is no gray block, and the black blocks are those
    found from the roots. *)
Lemma marking_quiet r : marking None None r -> ~ busy r -> forall b, b ∈ B -> color (rmem r) b <> Caml_gray.
Proof.
  intros M Hq b Hb Hg. assert (Hpure : heap_is_pure (mjr r) = true).
  { destruct (heap_is_pure (mjr r)) eqn:E; [done|]. destruct Hq. right. now right. }
  destruct (mk_pure _ _ _ M b Hpure Hb Hg) as [Hin|[Hhp _]].
  - apply Hq. left. intros E. rewrite E in Hin. now apply elem_of_nil in Hin.
  - apply Hq. right. now left.
Qed.

Lemma reached_block b : (forall b, R b -> b ∈ B /\ color m0 b <> Caml_blue) -> reached b -> b ∈ B /\ color m0 b <> Caml_blue.
Proof.
  intros HR. induction 1 as [|b i c _ IH (Hf & Hnb & Ht & Hb & Hh & ->)]; [now apply HR|].
  now destruct (hg_fields HG b i Hf Hnb Ht Hb Hh) as (? & ? & _).
Qed.

Lemma quiet_reached r :
  marking None None r -> ~ busy r -> (forall b, R b -> b ∈ B /\ color m0 b <> Caml_blue) ->
  (forall b, R b -> color (rmem r) b <> Caml_white) ->
  forall b, b ∈ B -> color (rmem r) b = Caml_black <-> reached b.
Proof.
  intros M Hq HR Hw b Hb. pose proof (mk_mem _ _ _ M) as Mm. split; intros H.
  - apply (mk_reached _ _ _ Mm); [done|now rewrite H..].
  - assert (Hnb : forall c, c ∈ B -> color m0 c <> Caml_blue -> color (rmem r) c <> Caml_white -> color (rmem r) c = Caml_black).
    { intros c Hc Hcb Hcw. pose proof (marking_quiet r M Hq c Hc). pose proof (mk_blue _ _ _ Mm c Hc).
      destruct (color_cases (rmem r) c) as [|[|[|]]]; tauto. }
    clear Hb. induction H as [b Hb|b i c Hrb IH He].
    + destruct (HR b Hb). apply Hnb; auto.
    + destruct (reached_block c HR (reached_edge b i c Hrb He)). apply Hnb; try done.
      destruct (mk_black _ _ _ Mm b i c He IH) as [|[]]. done.
Qed.

(** *** The roots *)

(** The value [x] is known to the marker. *)
Definition shaded (m : mem) (x : Z) : Prop :=
  Is_block x = true -> heap x = true -> color m (target m0 x) <> Caml_white.

Definition root_value (x : Z) : Prop :=
  heap_pointer x /\ (Is_block x = true -> heap x = true -> reached (target m0 x)).

Lemma darken_marking x r :
  marking None None r -> root_value x ->
  exists r', darken x r = Ok tt r' /\ marking None None r' /\ skel r' = skel r /\
    grows (rmem r) (rmem r') /\ shaded (rmem r') x /\ calm (rmem r) (rmem r').
Proof.
  intros M [Hx Hr]. unfold darken. rewrite (mk_heap _ _ _ M).
  destruct (Is_block x) eqn:Hb; cbn [andb]; [|exists r; splits; try done; intros ? ?; congruence].
  destruct (heap x) eqn:Hh; [|exists r; splits; try done; intros ? ?; congruence].
  destruct (target_same _ _ _ x (mk_mem _ _ _ M) Hx Hb Hh) as [_ Et]. unfold target in Et. rewrite Et.
  destruct (mark_child _ _ x r M Hx Hb Hh (Hr eq_refl eq_refl)) as (r' & E & M' & Hs & (_ & Hd & Hfr) & Hw).
  exists r'. splits; try done. now intros _ _.
Qed.

(** The words outside the blocks: roots and what is read on the way to them. *)
Definition outside (a : Z) : Prop := ~ X a /\ forall b, b ∈ B -> ~ in_block b a.

Context (r0 : runtime) (Hgd : root_value (global_data (glb r0))).

Definition root_slot (a : Z) : Prop := outside a /\ root_value (ld m0 a).

(** The global data and the slots of [D] have been visited. *)
Definition rooted (D : Z -> Prop) (r : runtime) : Prop :=
  marking None None r /\ skel r = skel r0 /\ shaded (rmem r) (global_data (glb r0)) /\ forall a, D a -> root_slot a /\ shaded (rmem r) (ld m0 a).

Abbreviation never := (fun _ : string => False).

Lemma rooted_equiv (D D' : Z -> Prop) r : (forall a, D' a -> D a) -> rooted D r -> rooted D' r.
Proof. intros HD (M & E & Hg & HS). exact (conj M (conj E (conj Hg (fun a Ha => HS a (HD a Ha))))). Qed.
Lemma rooted_frame D r a : rooted D r -> outside a -> ld (rmem r) a = ld m0 a.
Proof. intros (M & _) [H1 H2]. apply (mk_frame _ _ _ (mk_mem _ _ _ M)); [done|]. intros b Hb Hin. now destruct (H2 b Hb). Qed.

Lemma grows_shaded m m' x : heap_pointer x -> grows m m' -> shaded m x -> shaded m' x.
Proof. intros Hx Hd Hs Hb Hh. apply Hd; [now destruct (Hx Hb Hh)|]. now apply Hs. Qed.

Definition darken_action : scanning_action := fun v _ => darken v.

Lemma darken_slot p : root_slot p -> scans never rooted [p] (Call_action darken_action p).
Proof.
  intros Hp D r HR. unfold Call_action, darken_action. rewrite (rooted_frame D r p HR (proj1 Hp)).
  destruct HR as (M & E & Hg & HS). destruct (darken_marking (ld m0 p) r M (proj2 Hp)) as (r' & -> & M' & Hsk & Hd & Hs & _).
  cbn [outcome_of]. refine (conj M' (conj _ (conj _ _))); [congruence|apply (grows_shaded (rmem r)); [apply Hgd|done..]|].
  intros a [Ha|Ha%list_elem_of_singleton]; [|now subst]. destruct (HS a Ha) as [Hslot Hsh]. split; [done|].
  apply (grows_shaded (rmem r)); [apply Hslot|done..].
Qed.

(** The slots [darken_all_roots] visits, and the words read on the way. *)
Definition strong_slots (t : finals) : list Z :=
  column_slots (fun_addr (final_table t)) (Z.to_nat (fin_old t)) 0 ++
  entry_slots (final_table t) (Z.to_nat (fin_size t - fin_active t)) (fin_active t).
Definition all_slots (fuel : nat) (roots : root_set) : option (list Z * list Z) :=
  '(ws, local) ← local_slots fuel m0 (local_roots (glb r0));
  global ← global_roots fuel (root_list roots);
  Some (ws, (word_slots (Z.to_nat ((stack_high (stk r0) - extern_sp (stk r0)) / 8)) (extern_sp (stk r0)) ++ local) ++
            global ++ strong_slots (finalisers roots) ++ hook_slots roots).

Lemma core_regs r : skel r = skel r0 -> stk r = stk r0 /\ glb r = glb r0.
Proof.
  intros E. split; [change (stk r) with (stk (skel r)); now rewrite E|change (glb r) with (glb (skel r)); now rewrite E].
Qed.

Lemma darken_all_roots_spec fuel roots ws l :
  all_slots fuel roots = Some (ws, l) -> (forall a, a ∈ ws -> outside a) -> (forall a, a ∈ l -> root_slot a) ->
  marking None None r0 -> exists r', darken_all_roots fuel roots r0 = Ok tt r' /\ rooted (fun a => a ∈ l) r'.
Proof.
  unfold all_slots. intros E Hw Hl M0.
  destruct (local_slots fuel m0 (local_roots (glb r0))) as [[ws' loc]|] eqn:E1; [|done]. cbn [mbind option_bind] in E.
  destruct (global_roots fuel (root_list roots)) as [glo|] eqn:E2; [|done]. cbn [mbind option_bind] in E.
  injection E as <- <-. set (stack := word_slots _ _) in *.
  pose proof (scans_bind never _ rooted_equiv) as Hbind. pose proof (scans_slots never _ rooted_equiv root_slot _ darken_slot) as Hsl.
  destruct (darken_marking _ r0 M0 Hgd) as (r1 & Ed & M1 & Hsk & Hd & Hs & _).
  assert (Hscan : scans never rooted ((stack ++ loc) ++ glo ++ strong_slots (finalisers roots) ++ hook_slots roots)
            (do_local_roots darken_action fuel ;; scan_global_roots darken_action fuel (root_list roots) ;;
             final_do_strong_roots darken_action (finalisers roots) ;; scan_slots darken_action (hook_slots roots))).
  { assert (Hsub : forall k : list Z, (forall a, a ∈ k -> a ∈ (stack ++ loc) ++ glo ++ strong_slots (finalisers roots) ++ hook_slots roots) ->
              forall a, a ∈ k -> root_slot a) by (intros k Hk a Ha; apply Hl, Hk, Ha).
    apply Hbind; [|apply Hbind; [|apply Hbind]].
    - intros D r HI. unfold do_local_roots. rewrite (proj1 (core_regs r (proj1 (proj2 HI)))). refine (Hbind _ _ _ _ _ _ D r HI).
      + apply (scans_words _ _ rooted_equiv root_slot _ darken_slot), Hsub. intros a; rewrite !elem_of_app; auto.
      + apply (scans_read _ _ loc (scan_local_roots darken_action fuel (local_roots (glb r0)))
          (fun r => scan_local_roots darken_action fuel (local_roots (glb r)))).
        * intros D1 r2 HI1. now rewrite (proj2 (core_regs r2 (proj1 (proj2 HI1)))).
        * apply (scans_local _ _ rooted_equiv m0 root_slot outside _ darken_slot rooted_frame fuel _ ws'); [done|done|].
          apply Hsub. intros a; rewrite !elem_of_app; auto.
    - unfold scan_global_roots. rewrite E2. apply Hsl, Hsub. intros a; rewrite !elem_of_app; auto.
    - unfold final_do_strong_roots, strong_slots. apply Hbind.
      + apply (scans_column _ _ rooted_equiv root_slot _ darken_slot), Hsub. unfold strong_slots. intros a; rewrite !elem_of_app; auto.
      + apply (scans_entries _ _ rooted_equiv root_slot _ darken_slot), Hsub. unfold strong_slots. intros a; rewrite !elem_of_app; auto.
    - apply Hsl, Hsub. intros a; rewrite !elem_of_app; auto. }
  unfold darken_all_roots. unfold bind at 1. rewrite Ed.
  assert (HR1 : rooted (fun _ => False) r1) by (exact (conj M1 (conj Hsk (conj Hs (fun a (Ha : False) => False_ind _ Ha))))).
  specialize (Hscan _ _ HR1).
  destruct (bind (do_local_roots darken_action fuel) _ r1) as [[] r2| |] eqn:Er; [|done..]. exists r2.
  split; [exact Er|]. exact (rooted_equiv _ _ _ (fun a Ha => or_intror Ha) Hscan).
Qed.
End Marking.

(** More words may be written later. *)
Lemma marking_words m0 B hs cl heap (X X' : Z -> Prop) R s w r :
  (forall a, X a -> X' a) -> marking m0 B hs cl heap X R s w r -> marking m0 B hs cl heap X' R s w r.
Proof.
  intros HX [[H1 H2 H3 H4 H5 H6 H7 H8 H9] M2 M3 M4 M5 M6 M7 M8]. constructor; try done. constructor; try done.
  intros a Ha. apply H9. auto.
Qed.
Lemma heap_graph_words m0 B hs cl heap (X X' : Z -> Prop) :
  (forall a, X a -> X' a) -> heap_graph m0 B hs cl heap X' -> heap_graph m0 B hs cl heap X.
Proof.
  intros HX [H1 H2 H3 H4 H5 H6 H7 H8 H9 H10 H11 H12]. constructor; try done; [|now intros a Ha; apply H9, HX].
  intros c a Hc Ha. destruct (H8 c a Hc Ha) as [H8a H8b]. split; [|done]. auto.
Qed.
