(* ===== verification/MarkPhase.v ===== *)
(** * The mark phase as a whole

    The subphases of [mark_slice] of [byterun/major_gc.c] after the main one: the
    removal of the weak pointers to dead blocks, [final_update], and the marking of
    the values to finalise; then the slices put together.  When the sweeping begins
    the black blocks are exactly those found from the roots and from the values to
    finalise. *)

From S2P Require Import Runtime Freelist Memory Fail Heap GlobRoots Finalise Roots Major.

Section Phases.
Context (m0 : mem) (B : gset Z) (hs : Z) (cl : list Z) (heap : Z -> bool) (X R : Z -> Prop).
Context (HG : heap_graph m0 B hs cl heap X) (Hnull : heap 0 = false).

Abbreviation marking := (marking m0 B hs cl heap X R None None).
Abbreviation mem_inv := (mem_inv m0 B heap X R None None).
Abbreviation heap_pointer := (heap_pointer m0 B heap).
Abbreviation follows := (follows m0 heap).
Abbreviation plain := (plain m0 B).

(** ** Words the marker does not look at *)

Lemma plain_header b a : b ∈ B -> plain a -> b - 8 <> a.
Proof. intros Hb Ha <-. now destruct (Ha b Hb (header_in m0 B hs cl heap X HG b Hb)). Qed.
Lemma plain_field b i a : block_field m0 B b i -> Tag_val m0 b < No_scan_tag -> plain a -> b + 8 * i <> a.
Proof. intros Hf Ht Ha <-. destruct (Ha b (proj1 Hf) (field_in m0 B b i Hf)). lia. Qed.

Lemma mem_plain m m' :
  mem_inv m -> wfm m' -> (forall a, ld m' a = ld m a \/ X a) -> mem_inv m'.
Proof.
  intros M Hw Hm.
  assert (Hs : forall a, ~ plain a -> ld m' a = ld m a).
  { intros a Ha. destruct (Hm a) as [|HX]; [done|]. destruct Ha. now apply (hg_static _ _ _ _ _ _ HG). }
  assert (EH : forall b, b ∈ B -> Hd_val m' b = Hd_val m b).
  { intros b Hb. apply Hs. intros Hp. now apply (plain_header b (b - 8) Hb). }
  assert (EF : forall b i, block_field m0 B b i -> Tag_val m0 b < No_scan_tag -> Field m' b i = Field m b i).
  { intros b i Hf Ht. rewrite !Field_ld. apply Hs. intros Hp. now apply (plain_field b i (b + 8 * i) Hf Ht). }
  destruct M as [H1 H2 H3 H4 H5 H6 H7 H8 H9]. constructor; try done.
  - intros b Hb. unfold Wosize_val, Tag_val. rewrite EH by done. now apply H2.
  - intros b Hb. unfold color at 1. rewrite EH by done. now apply H3.
  - intros b Hb. unfold color at 2. rewrite EH by done. now apply H4.
  - intros b i Hf Ht. unfold color. rewrite (EH b), EF by (done || apply Hf). now apply H5.
  - intros b i Hf Ht. rewrite EF by done. now apply H6.
  - intros b i c He. pose proof He as (Hf & Hnb & Ht & Hb & Hh & ->). unfold color. rewrite (EH b) by apply Hf. rewrite EH; [now apply H7|].
    now destruct (hg_fields _ _ _ _ _ _ HG b i Hf Hnb Ht Hb Hh).
  - intros b Hb. unfold color. rewrite EH by done. now apply H8.
  - intros a HX Ha. destruct (Hm a) as [->|]; [|done]. now apply H9.
Qed.

Lemma color_plain m m' b : b ∈ B -> (forall a, ld m' a = ld m a \/ X a) -> color m' b = color m b.
Proof.
  intros Hb Hm. unfold color. rewrite !Hd_val_ld. destruct (Hm (b - 8)) as [->|HX]; [done|].
  apply (hg_static _ _ _ _ _ _ HG) in HX. now destruct (plain_header b (b - 8) Hb HX).
Qed.

Lemma marking_plain m' r :
  marking r -> wfm m' -> (forall a, ld m' a = ld (rmem r) a \/ X a) -> marking (set_rmem m' r).
Proof.
  intros M Hw Hm. apply (marking_mem m0 B hs cl heap X R None None); [done|now apply (mem_plain (rmem r)); [apply M|..]|].
  intros b Hb. now apply color_plain.
Qed.

Lemma marking_st a y r : marking r -> X a -> isu64 y -> marking (set_rmem (st (rmem r) a y) r).
Proof.
  intros M Ha Hy. apply marking_plain; [done|apply wfm_st; [apply (mk_wf _ _ _ _ _ _ _ _ (mk_mem _ _ _ _ _ _ _ _ _ _ M))|done]|].
  intros b. rewrite ld_st. destruct (Z.eqb_spec a b) as [->|]; auto.
Qed.

(** ** Forwarding blocks *)

(** At most [n] forwarding blocks lie behind [x]. *)
Fixpoint forwards (n : nat) (x : Z) : Prop :=
  Is_block x = true -> heap x = true -> Tag_val m0 x = Forward_tag ->
  match n with O => False | S n => forwards n (Field m0 x 0) end.

Lemma forwards_S n : forall x, forwards n x -> forwards (S n) x.
Proof.
  induction n as [|n IH]; intros x H; cbn [forwards] in *; intros Hb Hh Ht; [now destruct (H Hb Hh Ht)|].
  apply IH. now apply H.
Qed.
Lemma forwards_follows x y n : follows x y -> forwards n x -> forwards n y.
Proof.
  intros Hf. revert n. induction Hf as [|x y Hb Hh Ht Hf IH]; intros n H; [done|].
  destruct n as [|n]; cbn [forwards] in H; [now destruct (H Hb Hh Ht)|]. apply forwards_S, IH. now apply H.
Qed.

(** ** Weak arrays *)

Definition weak_array (c : Z) : Prop :=
  c ∈ B /\ No_scan_tag <= Tag_val m0 c /\ 1 <= Wosize_val m0 c /\ forall i, 0 <= i < Wosize_val m0 c -> X (c + 8 * i).

(** What a weak array may hold, and what it holds once it has been cleaned. *)
Definition weak_ok (n : nat) (x : Z) : Prop := heap_pointer x /\ forwards n x.
Definition clean (m : mem) (x : Z) : Prop :=
  Is_block x = true -> heap x = true -> Tag_val m0 x <> Forward_tag /\ Is_white_val m x = false.

Lemma weak_ok_null n : weak_ok n 0.
Proof. split; [intros _ Hh; congruence|]. destruct n; intros _ Hh; congruence. Qed.
Lemma clean_null m : clean m 0.
Proof. intros _ Hh. congruence. Qed.

(** The header in front of a pointer is not a word the marker does not look at. *)
Lemma pointer_header x a : heap_pointer x -> Is_block x = true -> heap x = true -> plain a -> x - 8 <> a.
Proof.
  intros Hx Hb Hh Ha. destruct (Hx Hb Hh) as (H1 & _ & [[_ HxB]|(Ht & Hin & Hsc)]); [now apply plain_header|].
  set (b := target m0 x) in *. intros <-. destruct (Ha b H1) as [H _]; [unfold in_block; lia|]. lia.
Qed.
Lemma clean_plain m m' x : heap_pointer x -> (forall a, ld m' a = ld m a \/ X a) -> clean m x -> clean m' x.
Proof.
  intros Hx Hm Hc Hb Hh. destruct (Hc Hb Hh) as [Ht Hw]. split; [done|]. unfold Is_white_val in *. rewrite Hd_val_ld in *.
  destruct (Hm (x - 8)) as [->|HX]; [done|]. apply (hg_static _ _ _ _ _ _ HG) in HX. now destruct (pointer_header x (x - 8) Hx Hb Hh HX).
Qed.

(** The field [i] of the array [c], which holds [x], is cleaned. *)
Lemma weak_field_spec c i : weak_array c -> 1 <= i < Wosize_val m0 c -> forall fuel n x r,
  marking r -> weak_ok n x -> Field (rmem r) c i = x -> (n < fuel)%nat ->
  exists m', weak_field fuel c i x r = Some (set_rmem m' r) /\ marking (set_rmem m' r) /\
    (forall a, a <> c + 8 * i -> ld m' a = ld (rmem r) a) /\ weak_ok n (Field m' c i) /\ clean m' (Field m' c i).
Proof.
  intros (HcB & Hns & Hsz & HX) Hi. assert (HXi : X (c + 8 * i)) by (apply HX; lia).
  induction fuel as [|fuel IH]; intros n x r M [Hx Hfw] Ex Hf; [lia|]. cbn [weak_field]. rewrite (mk_heap _ _ _ _ _ _ _ _ _ _ M).
  pose proof (mk_mem _ _ _ _ _ _ _ _ _ _ M) as Mm. pose proof (mk_wf _ _ _ _ _ _ _ _ Mm) as Hwf.
  assert (Hsame : clean (rmem r) x -> exists m', Some r = Some (set_rmem m' r) /\ marking (set_rmem m' r) /\
    (forall a, a <> c + 8 * i -> ld m' a = ld (rmem r) a) /\ weak_ok n (Field m' c i) /\ clean m' (Field m' c i)).
  { intros Hc. exists (rmem r). rewrite Ex. splits; try done. }
  destruct (Z.eqb_spec x 0) as [->|Hx0]; cbn [negb andb]; [apply Hsame, clean_null|].
  destruct (Is_block x) eqn:Hb; cbn [andb]; [|apply Hsame; intros ? ?; congruence].
  destruct (heap x) eqn:Hh; [|apply Hsame; intros ? ?; congruence].
  destruct (target_same m0 B heap X R _ _ _ x Mm Hx Hb Hh) as [Etag _]. rewrite Etag.
  destruct (Z.eqb_spec (Tag_val m0 x) Forward_tag) as [Ht|Ht].
  - destruct n as [|n]; [now destruct (Hfw Hb Hh Ht)|]. specialize (Hfw Hb Hh Ht).
    destruct (Hx Hb Hh) as (HxB & Hnb & [[_ HxB']|[Hi' _]]); [|rewrite Hi' in Ht; discriminate].
    assert (Efx : target m0 x = x) by (unfold target, darken_target; rewrite Ht; done). rewrite Efx in Hnb.
    assert (Hf0 : block_field m0 B x 0) by (split; [done|]; now apply (hg_forward _ _ _ _ _ _ HG)).
    assert (Hsc : Tag_val m0 x < No_scan_tag) by (rewrite Ht; done).
    pose proof (mk_field _ _ _ _ _ _ _ _ Mm x 0 Hf0 Hsc) as Hfol. set (y := Forward_val (rmem r) x) in *.
    change (follows (Field m0 x 0) y) in Hfol.
    assert (Hy : weak_ok n y).
    { split; [|now apply (forwards_follows (Field m0 x 0))]. apply (follows_pointer m0 B hs cl heap X HG (Field m0 x 0)); [done|].
      now apply (hg_fields _ _ _ _ _ _ HG x 0 Hf0 Hnb Hsc). }
    rewrite set_Field_st. set (r1 := set_rmem (st (rmem r) (c + 8 * i) y) r).
    assert (M1 : marking r1) by (apply marking_st; [done|done|apply Hwf]).
    assert (Ey : Field (rmem r1) c i = y) by (unfold r1; rsimp; rewrite Field_ld; apply ld_st_eq).
    destruct (IH n y r1 M1 Hy Ey ltac:(lia)) as (m' & E & M' & Hfr & [Hok1 Hok2] & Hcl).
    exists m'. splits; try done; [|split; [done|now apply forwards_S]]. intros a Ha. rewrite Hfr by done. unfold r1. rsimp. apply ld_st_ne. done.
  - destruct (Is_white_val (rmem r) x) eqn:Hw; [|apply Hsame; now intros _ _].
    rewrite set_Field_st. exists (st (rmem r) (c + 8 * i) 0). splits; try done.
    + apply marking_st; [done|done|unfold isu64; lia].
    + intros a Ha. now apply ld_st_ne.
    + rewrite Field_ld, ld_st_eq. apply weak_ok_null.
    + rewrite Field_ld, ld_st_eq. apply clean_null.
Qed.

(** The array [c] holds values, and from [i] on it has been cleaned. *)
Definition array_ok (n : nat) (m : mem) (c : Z) : Prop := forall i, 1 <= i < Wosize_val m0 c -> weak_ok n (Field m c i).
Definition array_clean (m : mem) (c : Z) : Prop := forall i, 1 <= i < Wosize_val m0 c -> clean m (Field m c i).

Lemma weak_fields_spec c n fuel : weak_array c -> (n < fuel)%nat -> forall k i r,
  marking r -> array_ok n (rmem r) c -> 1 <= i -> i + Z.of_nat k = Wosize_val m0 c ->
  (forall j, 1 <= j < i -> clean (rmem r) (Field (rmem r) c j)) ->
  exists m', weak_fields fuel k c i r = Some (set_rmem m' r) /\ marking (set_rmem m' r) /\
    (forall a, (forall j, 1 <= j < Wosize_val m0 c -> a <> c + 8 * j) -> ld m' a = ld (rmem r) a) /\
    array_ok n m' c /\ array_clean m' c.
Proof.
  intros Hc Hf. induction k as [|k IH]; intros i r M Hok Hi Hk Hcl; cbn [weak_fields].
  - exists (rmem r). splits; try done. intros j Hj. apply Hcl. lia.
  - destruct (weak_field_spec c i Hc ltac:(lia) fuel n _ r M (Hok i ltac:(lia)) eq_refl Hf) as (m1 & -> & M1 & Hfr & Hok1 & Hcl1).
    assert (Hfld : forall j, 1 <= j -> j <> i -> Field m1 c j = Field (rmem r) c j) by (intros j Hj Hne; rewrite !Field_ld; apply Hfr; lia).
    assert (HX1 : forall a, ld m1 a = ld (rmem r) a \/ X a).
    { intros a. destruct (decide (a = c + 8 * i)) as [->|]; [right; apply Hc; lia|left; now apply Hfr]. }
    assert (Hok' : array_ok n m1 c).
    { intros j Hj. destruct (decide (j = i)) as [->|]; [done|]. rewrite Hfld by lia. now apply Hok. }
    destruct (IH (i + 1) (set_rmem m1 r) M1) as (m' & E & M' & Hfr' & Hok2 & Hcl2); rsimp; try done; try lia.
    { intros j Hj. destruct (decide (j = i)) as [->|]; [done|]. rewrite Hfld by lia.
      apply (clean_plain (rmem r)); [apply Hok; lia|done|apply Hcl; lia]. }
    exists m'. splits; try done. intros a Ha. rewrite Hfr' by done. rsimp. apply Hfr, Ha. lia.
Qed.

(** ** The list of weak arrays *)

Context (weak_list_head : Z) (depth : nat) (HXw : X weak_list_head) (Hwl : forall b, b ∈ B -> ~ in_block m0 b weak_list_head).

(** The arrays of [done] have been cleaned, those of [rest] not yet. *)
Record weak_state (done rest : list Z) (m : mem) : Prop := {
  wk_path : path m weak_list_head (done ++ rest) 0;
  wk_nodup : NoDup (done ++ rest);
  wk_array c : c ∈ done ++ rest -> weak_array c;
  wk_ok c : c ∈ done ++ rest -> array_ok depth m c;
  wk_done c : c ∈ done -> array_clean m c /\ color m c <> Caml_white
}.

Lemma block_pos b : b ∈ B -> 0 < b.
Proof. intros Hb. destruct (heap_first _ _ _ _ _ _ HG) as (_ & H & Hall). specialize (Hall b Hb). lia. Qed.

Lemma link_not_field d c i :
  d = weak_list_head \/ weak_array d -> weak_array c -> 1 <= i < Wosize_val m0 c -> c + 8 * i <> d.
Proof.
  intros Hd (Hc & _) Hi E. destruct Hd as [->|(Hd & _ & Hsz & _)].
  - apply (Hwl c Hc). unfold in_block, block_end. lia.
  - assert (c = d) as ->; [|lia]. apply (in_block_inj m0 B hs cl heap X HG c d d); try done; unfold in_block, block_end; lia.
Qed.
Lemma head_not_array c : weak_array c -> weak_list_head <> c.
Proof. intros (Hc & _ & Hsz & _) ->. apply (Hwl c Hc). unfold in_block, block_end. lia. Qed.

Lemma weak_nodup done rest m : weak_state done rest m -> NoDup (weak_list_head :: done ++ rest).
Proof. intros W. constructor; [|apply W]. intros Hin. now apply (head_not_array weak_list_head); [apply (wk_array _ _ _ W)|]. Qed.

(** The link before the arrays not cleaned yet. *)
Lemma weak_link done rest m : weak_state done rest m ->
  let p := last_of weak_list_head done in (p = weak_list_head \/ weak_array p) /\ X p.
Proof.
  intros W p. assert (Hp : p = weak_list_head \/ p ∈ done) by (apply elem_of_cons, last_of_elem).
  destruct Hp as [->|Hp]; [split; [now left|done]|].
  assert (Hwa : weak_array p) by (apply (wk_array _ _ _ W), elem_of_app; now left). split; [now right|].
  destruct Hwa as (_ & _ & Hsz & HX). specialize (HX 0 ltac:(lia)). now rewrite Z.mul_0_r, Z.add_0_r in HX.
Qed.

(** Words of [X] that are no field of an array of the list do not matter to it. *)
Lemma weak_state_keep done rest l m m' :
  weak_state done rest m -> path m' weak_list_head (done ++ l) 0 -> NoDup (done ++ l) -> (forall c, c ∈ l -> c ∈ rest) ->
  (forall a, ld m' a = ld m a \/ X a) ->
  (forall c i, weak_array c -> 1 <= i < Wosize_val m0 c -> Field m' c i = Field m c i) ->
  weak_state done l m'.
Proof.
  intros [W1 W2 W3 W4 W5] Hp Hnd Hl HX EF.
  assert (Hin : forall c, c ∈ done ++ l -> c ∈ done ++ rest) by (intros c; rewrite !elem_of_app; intros [|]; auto).
  constructor; auto.
  - intros c Hc i Hi. rewrite EF by (auto || done). now apply W4; [apply Hin|].
  - intros c Hc. assert (Hcd : c ∈ done ++ rest) by (apply elem_of_app; now left). destruct (W5 c Hc) as [Hcl Hcol].
    rewrite (color_plain m m') by (done || apply (W3 c Hcd)). split; [|done].
    intros i Hi. rewrite EF by auto. apply (clean_plain m); [apply (W4 c Hcd i Hi)|done|now apply Hcl].
Qed.

Lemma weak_dead done c rest m :
  weak_state done (c :: rest) m -> weak_state done rest (st m (last_of weak_list_head done) (Next m c)).
Proof.
  intros W. destruct (weak_link _ _ _ W) as [Hlink HX]. set (p := last_of weak_list_head done) in *.
  pose proof (weak_nodup _ _ _ W) as Hnd. rewrite app_comm_cons in Hnd. apply NoDup_app in Hnd as (Hnd1 & Hdis & Hnd2).
  apply NoDup_cons in Hnd2 as [Hc Hnd2]. pose proof (last_of_elem weak_list_head done) as Hpin. fold p in Hpin.
  assert (Hpc : p <> c) by (intros ->; apply (Hdis c Hpin), list_elem_of_here).
  apply (weak_state_keep done (c :: rest) rest m); try done.
  - destruct (proj1 (path_app _ _ _ _ _) (wk_path _ _ _ W)) as [Hp1 [Hp2 Hp3]]. fold p in Hp1, Hp2. apply path_app. fold p. split.
    + apply (path_relink m _ _ (Next m p)); [done|done|done|]. intros b _ Hb. fold p in Hb. unfold Next. now apply ld_st_ne.
    + apply (path_ext m _ c); [done|unfold Next; now rewrite ld_st_eq|]. intros b Hb. unfold Next. apply ld_st_ne.
      intros ->. apply (Hdis b Hpin). now right.
  - pose proof (wk_nodup _ _ _ W) as H. apply NoDup_app in H as (N1 & N2 & N3). apply NoDup_app. splits; [done| |done].
    intros x Hx Hx'. apply (N2 x Hx). now right.
  - intros x Hx. now right.
  - intros a. rewrite ld_st. destruct (Z.eqb_spec p a) as [->|]; auto.
  - intros d i Hd Hi. rewrite !Field_ld. apply ld_st_ne. intros E. symmetry in E. revert E. now apply link_not_field.
Qed.

Lemma array_words c m m' :
  weak_array c -> (forall a, (forall j, 1 <= j < Wosize_val m0 c -> a <> c + 8 * j) -> ld m' a = ld m a) ->
  forall a, ld m' a = ld m a \/ X a.
Proof.
  intros Hc Hfr a. destruct (decide (a = c + 8 * ((a - c) / 8) /\ 1 <= (a - c) / 8 < Wosize_val m0 c)) as [[E Hj]|Hno].
  - right. rewrite E. apply Hc. lia.
  - left. apply Hfr. intros j Hj ->. apply Hno. replace ((c + 8 * j - c) / 8) with j by zlia. lia.
Qed.

Lemma weak_alive done c rest m m' :
  weak_state done (c :: rest) m -> color m c <> Caml_white ->
  (forall a, (forall j, 1 <= j < Wosize_val m0 c -> a <> c + 8 * j) -> ld m' a = ld m a) ->
  array_ok depth m' c -> array_clean m' c -> weak_state (done ++ [c]) rest m'.
Proof.
  intros [W1 W2 W3 W4 W5] Hcol Hfr Hok Hcl.
  assert (Hca : weak_array c) by (apply W3, elem_of_app; right; left).
  assert (HX : forall a, ld m' a = ld m a \/ X a) by now apply (array_words c).
  assert (Hlinks : forall b, b ∈ weak_list_head :: done ++ c :: rest -> Next m' b = Next m b).
  { intros b Hb. apply Hfr. intros j Hj E. symmetry in E. revert E. apply link_not_field; try done.
    apply elem_of_cons in Hb as [->|Hb]; [now left|right; now apply W3]. }
  assert (EF : forall d i, d ∈ done ++ c :: rest -> d <> c -> 1 <= i < Wosize_val m0 d -> Field m' d i = Field m d i).
  { intros d i Hd Hne Hi. rewrite !Field_ld. apply Hfr. intros j Hj E. destruct (W3 d Hd) as (HdB & _). destruct Hca as (HcB & _).
    apply (field_inj m0 B hs cl heap X HG) in E as [E _]; [done|split; [done|lia]..]. }
  assert (Hc_done : c ∉ done) by (intros Hin; apply NoDup_app in W2 as (_ & W2 & _); apply (W2 c Hin); left).
  rewrite cons_middle, app_assoc in W1, W2, W3, W4. rewrite cons_middle, app_assoc in Hlinks, EF.
  constructor; try done.
  - apply (path_ext m _ weak_list_head); [done|apply Hlinks; left|]. intros b Hb. apply Hlinks. now right.
  - intros d Hd. destruct (decide (d = c)) as [->|Hne]; [done|]. intros i Hi. rewrite EF by done. now apply W4.
  - intros d Hd. assert (Hd' : d ∈ (done ++ [c]) ++ rest) by (apply elem_of_app; now left).
    rewrite (color_plain m m') by (done || apply (W3 d Hd')).
    destruct (decide (d = c)) as [->|Hne]; [done|]. apply elem_of_app in Hd as [Hd|Hd]; [|now apply list_elem_of_singleton in Hd].
    destruct (W5 d Hd) as [Hdc Hdw]. split; [|done]. intros i Hi. rewrite EF by done.
    apply (clean_plain m); [now apply W4|done|now apply Hdc].
Qed.

(** One array. *)
Lemma weak_step_spec fuel done c rest r :
  marking r -> weak_state done (c :: rest) (rmem r) -> weak_prev (mjr r) = last_of weak_list_head done -> (depth < fuel)%nat ->
  exists n r', weak_step fuel r = Ok n r' /\ 0 < n /\ marking r' /\
    set_weak_prev 0 (set_rmem ∅ r') = set_weak_prev 0 (set_rmem ∅ r) /\
    (forall b, b ∈ B -> color (rmem r') b = color (rmem r) b) /\
    exists done', weak_state done' rest (rmem r') /\ weak_prev (mjr r') = last_of weak_list_head done' /\
      done' = if decide (color (rmem r) c = Caml_white) then done else done ++ [c].
Proof.
  intros M W Ep Hf. destruct (proj1 (path_app _ _ _ _ _) (wk_path _ _ _ W)) as [_ [Hcur _]].
  destruct (weak_link _ _ _ W) as [Hlink HXp]. unfold weak_step. rewrite Ep. unfold Next in Hcur. rewrite Hcur.
  assert (Hca : weak_array c) by (apply (wk_array _ _ _ W), elem_of_app; right; left). pose proof Hca as (HcB & _ & Hsz & _).
  pose proof (mk_mem _ _ _ _ _ _ _ _ _ _ M) as Mm. destruct (mk_size _ _ _ _ _ _ _ _ Mm c HcB) as [Ew _].
  change (Color_hd (Hd_val (rmem r) c)) with (color (rmem r) c). change (Wosize_hd (Hd_val (rmem r) c)) with (Wosize_val (rmem r) c).
  assert (Hn : 0 < Whsize_hd (Hd_val (rmem r) c)).
  { unfold Whsize_hd, Whsize_wosize. change (Wosize_hd (Hd_val (rmem r) c)) with (Wosize_val (rmem r) c). lia. }
  assert (Ef0 : Field (rmem r) c 0 = Next (rmem r) c) by (rewrite Field_ld; unfold Next; f_equal; lia).
  destruct (Z.eqb_spec (color (rmem r) c) Caml_white) as [Hwh|Hwh].
  - rewrite Ef0. eexists _, _. split; [reflexivity|]. split; [done|].
    assert (M' : marking (set_rmem (st (rmem r) (last_of weak_list_head done) (Next (rmem r) c)) r)) by (apply marking_st; [done|done|apply (mk_wf _ _ _ _ _ _ _ _ Mm)]).
    splits; try done.
    + intros b Hb. apply color_plain; [done|]. rsimp. intros a. rewrite ld_st. destruct (Z.eqb_spec (last_of weak_list_head done) a) as [<-|]; auto.
    + exists done. rewrite decide_True by done. splits; try done. now apply weak_dead.
  - destruct (weak_fields_spec c depth fuel Hca Hf (Z.to_nat (Wosize_val (rmem r) c - 1)) 1 r M) as (m' & -> & M' & Hfr & Hok & Hcl); try lia.
    { apply (wk_ok _ _ _ W), elem_of_app. right. left. }
    eexists _, _. split; [reflexivity|]. split; [done|]. rsimp.
    assert (HX : forall a, ld m' a = ld (rmem r) a \/ X a) by now apply (array_words c).
    splits; try done.
    + destruct M' as [H1 H2 H3 H4 H5 H6 H7 H8]. constructor; try done.
    + intros b Hb. now apply color_plain.
    + exists (done ++ [c]). rewrite decide_False by done. splits; try done; [now apply (weak_alive _ _ _ (rmem r))|].
      rewrite last_of_app. cbn [last_of]. rewrite Field_addr_eq. lia.
Qed.

(** ** The values to finalise *)

Lemma elem_of_entries m tab n e : forall lo, e ∈ entries m tab lo n <-> exists j, lo <= j < lo + Z.of_nat n /\ e = entry m tab j.
Proof using.
  induction n as [|n IH]; intros lo; cbn [entries].
  - rewrite elem_of_nil. split; [done|]. intros (j & Hj & _). lia.
  - rewrite elem_of_cons, IH. split.
    + intros [->|(j & Hj & ->)]; [exists lo|exists j]; split; (done || lia).
    + intros (j & Hj & ->). destruct (decide (j = lo)) as [->|]; [now left|]. right. exists j. split; [lia|done].
Qed.

(** Behind at most [n] forwarding blocks there is a block of the heap. *)
Fixpoint final_ok (n : nat) (v : Z) : Prop :=
  v ∈ B /\ color m0 v <> Caml_blue /\ Is_block v = true /\ heap v = true /\
  (Tag_val m0 v = Forward_tag -> match n with O => False | S n => final_ok n (Field m0 v 0) end).

Fixpoint resolve (n : nat) (v : Z) : Z :=
  match n with
  | O => v
  | S n => if Tag_val m0 v =? Forward_tag then resolve n (Field m0 v 0) else v
  end.

Lemma final_ok_block n v : final_ok n v -> v ∈ B /\ color m0 v <> Caml_blue /\ Is_block v = true /\ heap v = true.
Proof. destruct n; cbn [final_ok]; tauto. Qed.
Lemma final_ok_forward n v : final_ok n v -> Tag_val m0 v = Forward_tag -> exists k, n = S k /\ final_ok k (Field m0 v 0).
Proof. destruct n; cbn [final_ok]; intros (_ & _ & _ & _ & H) Ht; [now destruct (H Ht)|]. eexists. split; [done|now apply H]. Qed.

Lemma block_target v : v ∈ B -> target m0 v = v.
Proof.
  intros Hv. unfold target, darken_target. destruct (Z.eqb_spec (Tag_val m0 v) Infix_tag) as [E|]; [|done].
  now destruct (hg_tag _ _ _ _ _ _ HG v Hv).
Qed.
Lemma block_pointer v : v ∈ B -> color m0 v <> Caml_blue -> heap_pointer v.
Proof.
  intros Hv Hc _ _. rewrite block_target by done. splits; try done. left. split; [now apply (hg_tag _ _ _ _ _ _ HG)|done].
Qed.

Lemma resolve_block n : forall v, final_ok n v ->
  resolve n v ∈ B /\ color m0 (resolve n v) <> Caml_blue /\ Is_block (resolve n v) = true /\ heap (resolve n v) = true.
Proof.
  induction n as [|n IH]; intros v Hv; cbn [resolve]; [now apply (final_ok_block 0)|].
  destruct (Z.eqb_spec (Tag_val m0 v) Forward_tag) as [Ht|]; [|now apply (final_ok_block (S n))].
  apply IH. destruct (final_ok_forward _ _ Hv Ht) as (k & [= <-] & H). done.
Qed.

Section Update.
(** The state at the end of the weak subphase. *)
Context (r : runtime) (M : marking r) (Hq : ~ busy r).

Lemma quiet_black b : b ∈ B -> color m0 b <> Caml_blue -> color (rmem r) b <> Caml_white -> color (rmem r) b = Caml_black.
Proof.
  intros Hb Hnb Hw. pose proof (marking_quiet _ _ _ _ _ _ _ r M Hq b Hb).
  pose proof (mk_blue _ _ _ _ _ _ _ _ (mk_mem _ _ _ _ _ _ _ _ _ _ M) b Hb). destruct (color_cases (rmem r) b) as [|[|[|]]]; tauto.
Qed.

Lemma forward_edge v : v ∈ B -> color m0 v <> Caml_blue -> Tag_val m0 v = Forward_tag ->
  Is_block (Field m0 v 0) = true -> heap (Field m0 v 0) = true -> Field m0 v 0 ∈ B -> edge m0 B heap v 0 (Field m0 v 0).
Proof.
  intros Hv Hc Ht Hb Hh HB. refine (conj (conj Hv _) (conj Hc (conj _ (conj Hb (conj Hh _))))).
  - now apply (hg_forward _ _ _ _ _ _ HG).
  - rewrite Ht. done.
  - now rewrite block_target.
Qed.

Lemma black_resolve n : forall v, final_ok n v -> color (rmem r) v = Caml_black -> color (rmem r) (resolve n v) = Caml_black.
Proof.
  induction n as [|n IH]; intros v Hv Hb; cbn [resolve]; [done|].
  destruct (Z.eqb_spec (Tag_val m0 v) Forward_tag) as [Ht|]; [|done].
  destruct (final_ok_forward _ _ Hv Ht) as (k & [= <-] & H). apply IH; [done|].
  destruct (final_ok_block _ _ Hv) as (V1 & V2 & _). destruct (final_ok_block _ _ H) as (F1 & F2 & F3 & F4). apply quiet_black; try done.
  destruct (mk_black _ _ _ _ _ _ _ _ (mk_mem _ _ _ _ _ _ _ _ _ _ M) v 0 (Field m0 v 0)) as [|[]]; try done. now apply forward_edge.
Qed.

Lemma white_forward_spec v : v ∈ B ->
  white_forward (rmem r) v = true -> color (rmem r) v = Caml_white /\ Tag_val m0 v = Forward_tag /\ Forward_val (rmem r) v = Field m0 v 0.
Proof.
  intros Hv [Hw Ht]%andb_true_iff. apply white_hd in Hw. apply Z.eqb_eq in Ht.
  pose proof (mk_mem _ _ _ _ _ _ _ _ _ _ M) as Mm. destruct (mk_size _ _ _ _ _ _ _ _ Mm v Hv) as [_ Et]. rewrite Et in Ht.
  splits; try done. apply (mk_white_field _ _ _ _ _ _ _ _ Mm); [split; [done|now apply (hg_forward _ _ _ _ _ _ HG)]|rewrite Ht; done|].
  left. now rewrite Hw.
Qed.

(** Where the chain of an entry ends. *)
Lemma chain_resolve n : forall v, final_ok n v -> let c := chain_end (rmem r) n v in
  c ∈ B /\ color m0 c <> Caml_blue /\ Is_block c = true /\ heap c = true /\
  (color (rmem r) c = Caml_white -> white_forward (rmem r) c = false -> c = resolve n v) /\
  (color (rmem r) c <> Caml_white -> color (rmem r) (resolve n v) <> Caml_white).
Proof.
  induction n as [|n IH]; intros v Hv; cbn [chain_end resolve].
  { destruct (final_ok_block _ _ Hv) as (V1 & V2 & V3 & V4). splits; done. }
  destruct (final_ok_block _ _ Hv) as (V1 & V2 & V3 & V4). pose proof (mk_mem _ _ _ _ _ _ _ _ _ _ M) as Mm.
  destruct (white_forward (rmem r) v) eqn:E.
  - destruct (white_forward_spec v V1 E) as (Hw & Ht & ->). rewrite Ht, Z.eqb_refl. apply IH.
    destruct (final_ok_forward _ _ Hv Ht) as (k & [= <-] & H). done.
  - splits; try done.
    + intros Hw _. destruct (Z.eqb_spec (Tag_val m0 v) Forward_tag) as [Ht|]; [|done].
      destruct (mk_size _ _ _ _ _ _ _ _ Mm v V1) as [_ Et]. unfold white_forward in E. rewrite Et, Ht, Z.eqb_refl, andb_true_r in E.
      unfold Is_white_val in E. rewrite (proj2 (white_hd (rmem r) v) Hw) in E. discriminate.
    + intros Hw. pose proof (quiet_black v V1 V2 Hw) as Hb. pose proof (black_resolve (S n) v Hv Hb) as Hr. cbn [resolve] in Hr. now rewrite Hr.
Qed.

Context (t : finals) (Ht : finals_ok t) (HXt : forall a, in_table (final_table t) (fin_size t) a -> X a).
Context (Hfin : Forall (fun e => final_ok depth e.2) (finalisable (rmem r) t)).

Lemma table_plain a : in_table (final_table t) (fin_size t) a -> plain a.
Proof. intros Ha. now apply (hg_static _ _ _ _ _ _ HG), HXt. Qed.

Lemma chain_ok_final n : forall v, final_ok n v -> chain_ok (rmem r) (final_table t) (fin_size t) n v.
Proof.
  assert (Hhd : forall v, v ∈ B -> ~ in_table (final_table t) (fin_size t) (v - 8)).
  { intros v Hv Hin%table_plain. now apply (plain_header v (v - 8) Hv Hin). }
  induction n as [|n IH]; intros v Hv; destruct (final_ok_block _ _ Hv) as (V1 & V2 & V3 & V4); cbn [chain_ok]; (split; [now apply Hhd|]).
  all: intros E; destruct (white_forward_spec v V1 E) as (Hw & Htag & Efv); destruct (final_ok_forward _ _ Hv Htag) as (k & Ek & H).
  - discriminate.
  - injection Ek as <-. rewrite Efv. split; [|now apply IH]. intros Hin%table_plain.
    apply (plain_field v 0 v); [split; [done|now apply (hg_forward _ _ _ _ _ _ HG)]|rewrite Htag; done|done|lia].
Qed.

(** The loop of [final_update]. *)
Lemma update_loop_marking fuel :
  (Z.to_nat (fin_old t) + depth < fuel)%nat -> fin_young t = fin_old t ->
  exists t' m, update_loop fuel 0 t (rmem r) = Some (t', m) /\ marking (set_rmem m r) /\ 0 <= fin_old t' <= fin_active t' /\
    (forall b, b ∈ B -> color m b = color (rmem r) b) /\
    final_table t' = final_table t /\ fin_size t' = fin_size t /\ fin_active t' <= fin_active t /\
    (forall a, ~ in_table (final_table t) (fin_size t) a -> ld m a = ld (rmem r) a) /\
    Forall (fun e => exists v, v ∈ finalisable (rmem r) t /\ e.2 = chain_end (rmem r) depth v.2 /\
                        Is_white_val (rmem r) e.2 = true)
      (entries m (final_table t) (fin_active t') (Z.to_nat (fin_active t - fin_active t'))) /\
    forall e, e ∈ finalisable (rmem r) t -> let c := chain_end (rmem r) depth e.2 in
      Is_white_val (rmem r) c = false \/
      exists j, fin_active t' <= j < fin_active t /\ ld m (val_addr (final_table t) j) = c.
Proof.
  intros Hf Hy. destruct Ht as (H1 & H2 & H3 & H4 & H5 & H6). set (tab := final_table t) in *. set (size := fin_size t) in *.
  assert (Hchain : Forall (fun e => chain_ok (rmem r) tab size depth e.2) (finalisable (rmem r) t)).
  { eapply Forall_impl; [exact Hfin|]. intros e He. now apply chain_ok_final. }
  assert (U0 : updating (rmem r) tab size (fin_old t) (fin_active t) depth (finalisable (rmem r) t) 0 (fin_old t) (fin_active t) (rmem r)).
  { constructor; try done; try lia; rewrite ?Z.sub_diag, ?Z.sub_0_r; try constructor.
    - cbn [Z.to_nat entries app]. now rewrite app_nil_r.
    - done. }
  destruct (update_loop_spec (rmem r) tab size (fin_old t) (fin_active t) depth ltac:(lia) ltac:(lia) ltac:(lia) ltac:(lia)
    (finalisable (rmem r) t) fuel 0 t (rmem r) eq_refl eq_refl U0) as (t1 & m & E & Et & Es & U); [now rewrite Z.sub_0_r|].
  exists t1, m. destruct U as [U1 U2 U3 U4 U5 U6 U7 U8]. rewrite Z.sub_diag in U5. change (Z.to_nat 0) with 0%nat in U5. cbn [entries fmap list_fmap app] in U5.
  assert (HX : forall a, ld m a = ld (rmem r) a \/ X a).
  { intros a. destruct (decide (tab <= a < tab + 16 * size)) as [Ha|Ha]; [right; now apply HXt|left; now apply U3]. }
  splits; try done; try lia.
  - apply marking_plain; try done. apply (update_loop_wfm fuel 0 t (rmem r) t1 m); [|done]. apply (mk_wf _ _ _ _ _ _ _ _ (mk_mem _ _ _ _ _ _ _ _ _ _ M)).
  - intros b Hb. now apply color_plain.
  - rewrite Forall_forall in U8 |- *. intros e He. destruct (U8 e He) as [Hw _].
    assert (Hin : e ∈ resolved (rmem r) depth <$> finalisable (rmem r) t) by (rewrite <- U5; apply elem_of_app; now right).
    apply list_elem_of_fmap in Hin as (e0 & -> & He0). exists e0. done.
  - intros e He c. assert (Hin : resolved (rmem r) depth e ∈ entries m tab 0 (Z.to_nat (fin_old t1)) ++ entries m tab (fin_active t1) (Z.to_nat (fin_active t - fin_active t1))).
    { rewrite U5. apply list_elem_of_fmap. eauto. }
    apply elem_of_app in Hin as [Hin|Hin].
    + left. rewrite Forall_forall in U6. apply (U6 _ Hin).
    + right. apply elem_of_entries in Hin as (j & Hj & Ej). exists j. split; [lia|]. now apply (f_equal snd) in Ej.
Qed.

(** The values found dead are darkened. *)
Lemma darken_vals_marking n : forall lo r1,
  marking r1 -> 0 <= lo -> lo + Z.of_nat n <= fin_size t ->
  Forall (fun e => root_value m0 B heap R e.2) (entries (rmem r1) (final_table t) lo n) ->
  exists r2, darken_vals (final_table t) n lo r1 = Ok tt r2 /\ marking r2 /\ skel r2 = skel r1 /\
    grows B (rmem r1) (rmem r2) /\ calm m0 B (rmem r1) (rmem r2) /\
    forall j, lo <= j < lo + Z.of_nat n -> shaded m0 heap (rmem r2) (ld (rmem r1) (val_addr (final_table t) j)).
Proof.
  destruct Ht as (_ & _ & _ & H4 & H5 & _). induction n as [|n IH]; intros lo r1 M1 Hlo Hhi Hall; unfold darken_vals in *; cbn [scan_column entries] in *.
  { exists r1. splits; try done; [now intros b|lia]. }
  apply Forall_cons in Hall as [Hv Hall]. change (entry (rmem r1) (final_table t) lo).2 with (ld (rmem r1) (val_addr (final_table t) lo)) in Hv.
  destruct (darken_marking m0 B hs cl heap X R HG _ r1 M1 Hv) as (r2 & E2 & M2 & Hs2 & Hg2 & Hsh & Hfr).
  assert (Hval : forall j, 0 <= j < fin_size t -> plain (val_addr (final_table t) j) /\ plain (fun_addr (final_table t) j)).
  { intros j Hj. rewrite (val_addr_eq _ (fin_size t)), (fun_addr_eq _ (fin_size t)) by lia. split; apply table_plain; unfold in_table; lia. }
  assert (Ee : forall lo' k, 0 <= lo' -> lo' + Z.of_nat k <= fin_size t -> entries (rmem r2) (final_table t) lo' k = entries (rmem r1) (final_table t) lo' k).
  { intros lo' k K1 K2. apply entries_same. intros j Hj. unfold entry. destruct (Hval j ltac:(lia)). now rewrite !Hfr. }
  destruct (IH (lo + 1) r2 M2) as (r3 & E3 & M3 & Hs3 & Hg3 & Hfr3 & Hsh3); [lia|lia|now rewrite Ee by lia|].
  unfold bind at 1, Call_action at 1. rewrite E2. exists r3. splits; try done; [congruence|now apply (grows_trans _ _ (rmem r2))|now apply (calm_trans m0 B _ (rmem r2))|].
  - intros j Hj. destruct (decide (j = lo)) as [->|Hne].
    + apply (grows_shaded m0 B heap (rmem r2)); [apply Hv|done|done].
    + destruct (Hval j ltac:(lia)). rewrite <- Hfr by done. apply Hsh3. lia.
Qed.

Context (HR : Forall (fun e => R (resolve depth e.2)) (finalisable (rmem r) t)).

Lemma final_update_marking fuel :
  (Z.to_nat (fin_old t) + depth < fuel)%nat -> fin_young t = fin_old t ->
  exists t' r', final_update fuel t r = Ok t' r' /\ marking r' /\ skel r' = skel r /\ grows B (rmem r) (rmem r') /\
    (forall a, plain a -> ~ in_table (final_table t) (fin_size t) a -> ld (rmem r') a = ld (rmem r) a) /\
    Forall (fun e => color (rmem r') (resolve depth e.2) <> Caml_white) (finalisable (rmem r) t).
Proof.
  intros Hf Hy. destruct (update_loop_marking fuel Hf Hy) as (t1 & m & E & M1 & Ho & EC & Et & Es & Ha & Hout & Hdead & Hall).
  rewrite Forall_forall in Hfin, HR, Hdead. pose proof Ht as (H1 & H2 & _).
  assert (Hdv : Forall (fun e => root_value m0 B heap R e.2) (entries m (final_table t) (fin_active t1) (Z.to_nat (fin_active t - fin_active t1)))).
  { apply Forall_forall. intros e He. destruct (Hdead e He) as (v & Hv & -> & Hw).
    destruct (chain_resolve depth _ (Hfin v Hv)) as (C1 & C2 & C3 & C4 & C5 & _). split; [now apply block_pointer|]. intros _ _.
    rewrite block_target by done. apply reached_root. apply white_hd in Hw. rewrite C5; [now apply HR|done|].
    apply (chain_end_fixed (rmem r) (final_table t) (fin_size t) depth). now apply chain_ok_final, Hfin. }
  destruct (darken_vals_marking (Z.to_nat (fin_active t - fin_active t1)) (fin_active t1) (set_rmem m r) M1) as (r2 & E2 & M2 & Hs2 & Hg2 & Hfr & Hsh);
    [lia|lia|done|].
  unfold final_update. rewrite E. cbn [final_table fin_active fin_old fin_size]. rewrite Et. unfold bind. rewrite E2.
  eexists _, r2. split; [reflexivity|]. rsimp in *.
  assert (Hgr : grows B (rmem r) (rmem r2)) by (apply (grows_trans _ _ m); [intros b Hb; now rewrite EC|done]).
  splits; try done; [intros a Hp Ha'; rewrite Hfr by done; now apply Hout|]. apply Forall_forall. intros e He. destruct (resolve_block depth _ (Hfin e He)) as (R1 & R2 & R3 & R4).
  destruct (chain_resolve depth _ (Hfin e He)) as (C1 & C2 & C3 & C4 & C5 & C6).
  destruct (Hall e He) as [Hw|(j & Hj & Ej)].
  - apply Hgr; [done|]. apply C6. intros Hc. apply white_hd in Hc. unfold Is_white_val in Hw. congruence.
  - specialize (Hsh j ltac:(lia)). rewrite Ej in Hsh. specialize (Hsh C3 C4). rewrite block_target in Hsh by done.
    destruct (decide (color (rmem r) (chain_end (rmem r) depth e.2) = Caml_white)) as [Hc|Hc]; [|apply Hgr; auto].
    rewrite <- C5; [done|done|]. apply (chain_end_fixed (rmem r) (final_table t) (fin_size t) depth). now apply chain_ok_final, Hfin.
Qed.
End Update.
End Phases.
