(* ===== verification/MarkSlice.v ===== *)
(** * The slices of the mark phase

    The phases of the marking of a cycle put together: [start_cycle], the turns of
    [mark_slice] of [byterun/major_gc.c] through its three subphases, and the number
    of turns they take.  [marked] is what the mark phase leaves to the sweeping. *)

From S2P Require Import Runtime Freelist Memory Fail Heap GlobRoots Finalise Roots Major MarkPhase.

Section Slices.
(** The memory and the blocks when the cycle begins, the words of weak arrays and those
    of the table of finalisers, the blocks the roots lead to, the list of weak arrays,
    and the finalisers. *)
Context (m0 : mem) (B : gset Z) (hs : Z) (cl : list Z) (heap : Z -> bool) (Xw Xf Rt : Z -> Prop).
Context (Fl_head weak_list_head : Z) (arrays : list Z) (t : finals) (depth : nat).

Definition X (a : Z) : Prop := Xw a \/ Xf a.
(** Also kept: the values to finalise, behind forwarding blocks. *)
Definition R (b : Z) : Prop := Rt b \/ exists e, e ∈ finalisable m0 t /\ b = resolve m0 depth e.2.

Record cycle_ok : Prop := {
  cy_graph : heap_graph m0 B hs cl heap X;
  cy_null : heap 0 = false;
  cy_roots b : Rt b -> b ∈ B /\ color m0 b <> Caml_blue;
  cy_head : Xw weak_list_head;
  cy_head_out b : b ∈ B -> ~ in_block m0 b weak_list_head;
  cy_weak : weak_state m0 B heap Xw weak_list_head depth [] arrays m0;
  cy_apart a : Xw a -> ~ Xf a;
  cy_finals : finals_ok t;
  cy_young : fin_young t = fin_old t;
  cy_table a : in_table (final_table t) (fin_size t) a <-> Xf a;
  cy_values : Forall (fun e => final_ok m0 B heap depth e.2) (finalisable m0 t)
}.
Context (C : cycle_ok).

Abbreviation none := (fun _ : Z => False).
Abbreviation marking X := (marking m0 B hs cl heap X R None None).
Abbreviation weak_state := (weak_state m0 B heap Xw weak_list_head depth).
Abbreviation reached := (reached m0 B heap R).

Lemma graph_none : heap_graph m0 B hs cl heap none.
Proof. apply (heap_graph_words _ _ _ _ _ none X); [now intros a|apply C]. Qed.
Lemma graph_weak : heap_graph m0 B hs cl heap Xw.
Proof. apply (heap_graph_words _ _ _ _ _ Xw X); [now left|apply C]. Qed.
Lemma plain_X a : X a -> plain m0 B a.
Proof. apply (hg_static _ _ _ _ _ _ (cy_graph C)). Qed.

(** What the mark phase leaves alone. *)
Definition rest (r : runtime) : runtime := set_weak_prev 0 (set_gc_subphase 0 (core r)).

Definition roots_dark (P : Z -> Prop) (m : mem) : Prop := forall b, P b -> color m b <> Caml_white.

Lemma roots_grow (P : Z -> Prop) m m' : (forall b, P b -> b ∈ B) -> grows B m m' -> roots_dark P m -> roots_dark P m'.
Proof. intros HP Hg Hd b Hb. apply Hg; auto. Qed.
Lemma Rt_block b : Rt b -> b ∈ B.
Proof. intros Hb. now destruct (cy_roots C b Hb). Qed.
Lemma R_block b : R b -> b ∈ B /\ color m0 b <> Caml_blue.
Proof.
  intros [Hb|(e & He & ->)]; [now apply C|]. pose proof (cy_values C) as Hv. rewrite Forall_forall in Hv.
  destruct (resolve_block m0 B hs heap R depth _ (Hv e He)) as (? & ? & _). done.
Qed.

(** ** The subphases *)

(** The state in each of them; [r0] is the state when the marking began. *)
Record in_main (r0 r : runtime) : Prop := {
  im_marking : marking none r;
  im_sub : gc_subphase (mjr r) = Subphase_main;
  im_roots : roots_dark Rt (rmem r);
  im_rest : rest r = rest r0
}.
Record in_weak (r0 : runtime) (done todo : list Z) (r : runtime) : Prop := {
  iw_marking : marking Xw r;
  iw_quiet : ~ busy r;
  iw_sub : gc_subphase (mjr r) = Subphase_weak;
  iw_roots : roots_dark Rt (rmem r);
  iw_weak : weak_state done todo (rmem r);
  iw_prev : weak_prev (mjr r) = last_of weak_list_head done;
  iw_rest : rest r = rest r0
}.
Record in_final (r0 : runtime) (done : list Z) (r : runtime) : Prop := {
  if_marking : marking X r;
  if_sub : gc_subphase (mjr r) = Subphase_final;
  if_roots : roots_dark R (rmem r);
  if_weak : weak_state done [] (rmem r);
  if_rest : rest r = rest r0
}.

(** What the sweeping finds. *)
Record marked (r0 : runtime) (r : runtime) : Prop := {
  md_mem : mem_inv m0 B heap X R None None (rmem r);
  md_black b : b ∈ B -> color (rmem r) b = Caml_black <-> reached b;
  md_gray b : b ∈ B -> color (rmem r) b <> Caml_gray;
  md_weak : exists l, weak_state l [] (rmem r);
  md_heap p : Is_in_heap (mjr r) p = heap p;
  md_phase : gc_phase (mjr r) = Phase_sweep;
  md_stack : gray_vals (mjr r) = [];
  md_words : allocated_words (mjr r) = allocated_words (mjr r0);
  md_sweep : chunk (mjr r) = hs /\ gc_sweep_hp (mjr r) = hs /\ limit (mjr r) = chunk_end m0 hs;
  md_free : fl_merge (frl r) = Fl_head /\ last_fragment (frl r) = 0 /\ fl_prev (frl r) = fl_prev (frl r0) /\
            fl_last (frl r) = fl_last (frl r0) /\ fl_cur_size (frl r) = fl_cur_size (frl r0)
}.

Lemma rest_core r r' : core r' = core r -> rest r' = rest r.
Proof. intros E. unfold rest. now rewrite E. Qed.

Lemma calm_words m m' (P : Z -> Prop) : (forall a, P a -> plain m0 B a) -> calm m0 B m m' -> forall a, P a -> ld m' a = ld m a.
Proof. intros HP Hc a Ha. apply Hc. auto. Qed.

(** A turn of the main subphase. *)
Lemma main_busy fuel work t' r0 r : in_main r0 r -> busy r ->
  exists work' r', mark_step Fl_head weak_list_head fuel work t' r = Ok (work', t') r' /\ work' <= work /\
    in_main r0 r' /\ (turns m0 B cl r' < turns m0 B cl r)%nat.
Proof.
  intros [M Hs Hr He] Hb. destruct (mark_step_busy m0 B hs cl heap none R graph_none Fl_head weak_list_head fuel work t' r M Hb)
    as (work' & r' & E & Hw & M' & Ec & Hg & Hc & Ht).
  exists work', r'. splits; try done. destruct (core_inv _ _ Ec) as (Esub & _). constructor; [done|congruence| |].
  - exact (roots_grow Rt _ _ Rt_block Hg Hr).
  - now rewrite (rest_core _ _ Ec).
Qed.

Lemma main_quiet fuel work t' r0 r : in_main r0 r -> ~ busy r ->
  exists r', mark_step Fl_head weak_list_head fuel work t' r = Ok (work, t') r' /\ in_weak r0 [] arrays r' /\ rmem r' = rmem r.
Proof.
  intros [M Hs Hr He] Hq. unfold mark_step.
  destruct (gray_vals (mjr r)) as [|v l] eqn:Eg; [|destruct Hq; left; now rewrite Eg]. cbn [last].
  destruct (Z.eqb_spec (markhp (mjr r)) 0) as [E0|]; [|destruct Hq; right; now left]. cbn [negb].
  destruct (heap_is_pure (mjr r)) eqn:Ep; [|destruct Hq; right; now right]. cbn [negb]. rewrite Hs, Z.eqb_refl.
  eexists. split; [reflexivity|]. split; [|done]. pose proof (mk_mem _ _ _ _ _ _ _ _ _ _ M) as Mm.
  assert (HM : marking Xw r) by now apply (marking_words m0 B hs cl heap none Xw).
  constructor; rsimp; try done.
  - destruct HM as [H1 H2 H3 H4 H5 H6 H7 H8]. now constructor.
  - assert (Hwords : forall a, Xw a -> ld (rmem r) a = ld m0 a).
    { intros a Ha. apply (mk_frame _ _ _ _ _ _ _ _ Mm); [tauto|]. apply plain_X. now left. }
    destruct (cy_weak C) as [W1 W2 W3 W4 W5].
    assert (Hlink : forall c, c ∈ arrays -> Xw c).
    { intros c Hc. destruct (W3 c Hc) as (_ & _ & Hsz & HX). specialize (HX 0 ltac:(lia)). now rewrite Z.mul_0_r, Z.add_0_r in HX. }
    constructor; try done.
    + apply (path_ext m0 _ weak_list_head); [done|apply Hwords, C|]. intros b Hb. apply Hwords, Hlink, Hb.
    + intros c Hc i Hi. rewrite Field_ld, Hwords, <- Field_ld; [now apply W4|]. destruct (W3 c Hc) as (_ & _ & _ & HX). apply HX. lia.
    + now intros c Hc%elem_of_nil.
Qed.

(** A turn of the weak subphase. *)
Lemma rest_weak_prev r r' : set_weak_prev 0 (set_rmem ∅ r') = set_weak_prev 0 (set_rmem ∅ r) -> rest r' = rest r.
Proof.
  intros E. change (rest r') with (rest (set_weak_prev 0 (set_rmem ∅ r'))). change (rest r) with (rest (set_weak_prev 0 (set_rmem ∅ r))).
  now rewrite E.
Qed.

Lemma not_busy_eq r r' : gray_vals (mjr r') = gray_vals (mjr r) -> markhp (mjr r') = markhp (mjr r) ->
  heap_is_pure (mjr r') = heap_is_pure (mjr r) -> ~ busy r -> ~ busy r'.
Proof. unfold busy. now intros -> -> ->. Qed.

Lemma quiet_step r : ~ busy r -> last (gray_vals (mjr r)) = None /\ (markhp (mjr r) =? 0) = true /\ heap_is_pure (mjr r) = true.
Proof.
  intros Hq. splits.
  - destruct (gray_vals (mjr r)) eqn:E; [done|]. destruct Hq. left. now rewrite E.
  - destruct (Z.eqb_spec (markhp (mjr r)) 0); [done|]. destruct Hq. right. now left.
  - destruct (heap_is_pure (mjr r)) eqn:E; [done|]. destruct Hq. right. now right.
Qed.

Lemma weak_turn fuel work t' r0 done c todo r : in_weak r0 done (c :: todo) r -> (depth < fuel)%nat ->
  exists work' done' r', mark_step Fl_head weak_list_head fuel work t' r = Ok (work', t') r' /\ work' <= work /\ in_weak r0 done' todo r'.
Proof.
  intros [M Hq Hs Hr W Hp He] Hf. destruct (quiet_step r Hq) as (E1 & E2 & E3).
  unfold mark_step. rewrite E1, E2, E3, Hs. cbn [negb]. change (Subphase_weak =? Subphase_main) with false. rewrite Z.eqb_refl.
  assert (Hcur : ld (rmem r) (weak_prev (mjr r)) = c).
  { rewrite Hp. now destruct (proj1 (path_app _ _ _ _ _) (wk_path _ _ _ _ _ _ _ _ _ W)) as [_ [Hcur _]]. }
  assert (HcB : c ∈ B) by (apply (wk_array _ _ _ _ _ _ _ _ _ W), elem_of_app; right; left).
  rewrite Hcur, (proj2 (Z.eqb_neq c 0)) by (pose proof (block_pos _ _ _ _ _ _ graph_weak c HcB); lia). cbn [negb].
  destruct (weak_step_spec m0 B hs cl heap Xw R graph_weak (cy_null C) weak_list_head depth (cy_head C) (cy_head_out C) fuel done c todo r M W Hp Hf)
    as (n & r' & E & Hn & M' & Er & EC & done' & W' & Hp' & _).
  exists (work - n), done', r'. rewrite (bind_Ok _ _ _ _ _ E). splits; [done|lia|].
  assert (Ej : mjr (set_weak_prev 0 (set_rmem ∅ r')) = mjr (set_weak_prev 0 (set_rmem ∅ r))) by now rewrite Er.
  rsimp in *. injection Ej as _ _ _ _ _ _ _ F1 _ F2 _ _ _ _ _ _ F3 F4 _ _ _.
  constructor; try done.
  - now apply (not_busy_eq r).
  - congruence.
  - intros b Hb. rewrite EC by now apply Rt_block. now apply Hr.
  - now rewrite (rest_weak_prev _ _ Er).
Qed.

(** ** The values to finalise *)

(** The header in front of a clean pointer stays dark. *)
Lemma clean_grows s m m' x : heap_pointer m0 B heap x -> mem_inv m0 B heap s R None None m -> mem_inv m0 B heap X R None None m' ->
  grows B m m' -> clean m0 heap m x -> clean m0 heap m' x.
Proof.
  intros Hx M M' Hg Hc Hb Hh. destruct (Hc Hb Hh) as [Ht Hw]. split; [done|].
  destruct (Hx Hb Hh) as (H1 & H2 & [[_ HxB]|(Hti & Hin & Hsc)]).
  - apply not_true_iff_false. intros E%white_hd. revert E. apply Hg; [done|]. intros E. apply white_hd in E. unfold Is_white_val in Hw. congruence.
  - set (b := target m0 x) in *. assert (Hoff : exists k, x = b + 8 * k).
    { unfold b, target, darken_target. rewrite Hti, Z.eqb_refl. exists (Wosize_val m0 x).
      unfold Infix_offset_val, Infix_offset_hd, Bosize_hd, Bsize_wsize, sizeof_value, Wosize_val. lia. }
    destruct Hoff as [k Ek].
    assert (Hf : block_field m0 B b (k - 1)) by (split; [done|]; unfold block_end in Hin; lia).
    assert (Hlong : Is_block (Field m0 b (k - 1)) = false).
    { rewrite Field_ld. replace (b + 8 * (k - 1)) with (x - 8) by lia. rewrite <- Hd_val_ld.
      unfold Tag_val, Tag_hd in Hti. unfold Is_block. apply Z.eqb_neq. change 1 with (Z.land 255 1). rewrite Z.land_assoc, Hti. discriminate. }
    assert (Eh : forall n s', mem_inv m0 B heap s' R None None n -> Hd_val n x = Field m0 b (k - 1)).
    { intros n s' Mn. rewrite <- (follows_long m0 heap _ _ Hlong (mk_field _ _ _ _ _ _ _ _ Mn b (k - 1) Hf Hsc)).
      rewrite Field_ld, Hd_val_ld. f_equal. lia. }
    unfold Is_white_val in *. rewrite (Eh m' X M'). now rewrite (Eh m s M) in Hw.
Qed.

(** The weak arrays after more blocks have been marked. *)
Lemma weak_state_paint s done m m' :
  weak_state done [] m -> mem_inv m0 B heap s R None None m -> mem_inv m0 B heap X R None None m' -> grows B m m' ->
  (forall a, Xw a -> ld m' a = ld m a) -> weak_state done [] m'.
Proof.
  intros [W1 W2 W3 W4 W5] M M' Hg Hw. rewrite app_nil_r in *.
  assert (EF : forall c i, c ∈ done -> 1 <= i < Wosize_val m0 c -> Field m' c i = Field m c i).
  { intros c i Hc Hi. rewrite !Field_ld. apply Hw. destruct (W3 c Hc) as (_ & _ & _ & HX). apply HX. lia. }
  constructor; rewrite ?app_nil_r; try done.
  - apply (path_ext m _ weak_list_head); [done|apply Hw, C|]. intros b Hb. apply Hw.
    destruct (W3 b Hb) as (_ & _ & Hsz & HX). specialize (HX 0 ltac:(lia)). now rewrite Z.mul_0_r, Z.add_0_r in HX.
  - intros c Hc i Hi. rewrite EF by done. now apply W4.
  - intros c Hc. destruct (W5 c Hc) as [Hcl Hcol]. split; [|apply Hg; [apply (W3 c Hc)|done]].
    intros i Hi. rewrite EF by done. apply (clean_grows s m); try done; [apply (W4 c Hc i Hi)|now apply Hcl].
Qed.

Lemma Xw_out a : Xw a -> ~ in_table (final_table t) (fin_size t) a.
Proof. intros Ha Hin. apply (cy_table C) in Hin. now apply (cy_apart C a). Qed.

Lemma finalisable_same m : mem_inv m0 B heap Xw R None None m -> finalisable m t = finalisable m0 t.
Proof.
  intros M. pose proof (cy_finals C) as (H1 & H2 & H3 & H4 & H5 & H6).
  apply entries_ext. intros j Hj. rewrite !Z.add_0_l. rewrite !(entry_eq _ (fin_size t)) by lia.
  assert (HT : forall a, in_table (final_table t) (fin_size t) a -> ld m a = ld m0 a).
  { intros a Ha. pose proof (proj1 (cy_table C a) Ha) as Hf. apply (mk_frame _ _ _ _ _ _ _ _ M); [|apply plain_X; now right].
    intros Hx. now apply (cy_apart C a). }
  rewrite !HT by (unfold in_table; lia). done.
Qed.

Lemma weak_end fuel work r0 done r : in_weak r0 done [] r -> (Z.to_nat (fin_old t) + depth < fuel)%nat ->
  exists t' r', mark_step Fl_head weak_list_head fuel work t r = Ok (work, t') r' /\ in_final r0 done r'.
Proof.
  intros [M Hq Hs Hr W Hp He] Hf. destruct (quiet_step r Hq) as (E1 & E2 & E3).
  unfold mark_step. rewrite E1, E2, E3, Hs. cbn [negb]. change (Subphase_weak =? Subphase_main) with false. rewrite Z.eqb_refl.
  pose proof (wk_path _ _ _ _ _ _ _ _ _ W) as Hpath. rewrite path_app in Hpath. destruct Hpath as [_ Hend]. cbn [path] in Hend.
  rewrite Hp. unfold Next in Hend. rewrite Hend. cbn [negb Z.eqb].
  pose proof (mk_mem _ _ _ _ _ _ _ _ _ _ M) as Mm.
  assert (HM : marking X r) by (apply (marking_words m0 B hs cl heap Xw X); [now left|done]).
  pose proof (finalisable_same _ Mm) as Efin.
  destruct (final_update_marking m0 B hs cl heap X R (cy_graph C) depth r HM Hq t (cy_finals C)) with (fuel := fuel)
    as (t' & r' & E & M' & Hsk & Hg & Hfr & Hdark); try done.
  { intros a Ha. right. now apply C. }
  { rewrite Efin. apply C. }
  { rewrite Efin. apply Forall_forall. intros e He'. right. eauto. }
  { apply C. }
  eexists t', _. rewrite (bind_Ok _ _ _ _ _ E). split; [reflexivity|]. rewrite Efin in Hdark.
  constructor; rsimp; try done.
  - destruct M' as [H1 H2 H3 H4 H5 H6 H7 H8]. now constructor.
  - intros b [Hb|(e & He' & ->)]; [apply Hg; [now apply Rt_block|now apply Hr]|]. rewrite Forall_forall in Hdark. now apply Hdark.
  - apply (weak_state_paint Xw _ (rmem r)); try done; [apply (mk_mem _ _ _ _ _ _ _ _ _ _ M')|].
    intros a Ha. apply Hfr; [apply plain_X; now left|now apply Xw_out].
  - rewrite <- He. exact (rest_core _ _ (core_skel _ _ Hsk)).
Qed.

Lemma final_busy fuel work t' r0 done r : in_final r0 done r -> busy r ->
  exists work' r', mark_step Fl_head weak_list_head fuel work t' r = Ok (work', t') r' /\ work' <= work /\
    in_final r0 done r' /\ (turns m0 B cl r' < turns m0 B cl r)%nat.
Proof.
  intros [M Hs Hr W He] Hb. destruct (mark_step_busy m0 B hs cl heap X R (cy_graph C) Fl_head weak_list_head fuel work t' r M Hb)
    as (work' & r' & E & Hw & M' & Ec & Hg & Hc & Ht).
  exists work', r'. splits; try done. destruct (core_inv _ _ Ec) as (Esub & _). constructor; [done|congruence| | |].
  - apply (roots_grow R (rmem r)); try done. intros b Hb'. now apply R_block.
  - apply (weak_state_paint X _ (rmem r)); try done; [apply (mk_mem _ _ _ _ _ _ _ _ _ _ M)|apply (mk_mem _ _ _ _ _ _ _ _ _ _ M')|].
    apply (calm_words _ _ Xw); [|done]. intros a Ha. apply plain_X. now left.
  - now rewrite (rest_core _ _ Ec).
Qed.

Lemma final_quiet fuel work t' r0 done r : in_final r0 done r -> ~ busy r ->
  exists r', mark_step Fl_head weak_list_head fuel work t' r = Ok (0, t') r' /\ marked r0 r'.
Proof.
  intros [M Hs Hr W He] Hq. destruct (quiet_step r Hq) as (E1 & E2 & E3).
  unfold mark_step. rewrite E1, E2, E3, Hs. cbn [negb]. change (Subphase_final =? Subphase_main) with false.
  change (Subphase_final =? Subphase_weak) with false. eexists. split; [reflexivity|]. unfold init_sweep, fl_init_merge_R. rsimp.
  pose proof (mk_mem _ _ _ _ _ _ _ _ _ _ M) as Mm.
  assert (Ef : frl r = frl r0) by (change (frl r) with (frl (rest r)); now rewrite He).
  destruct (heap_first _ _ _ _ _ _ (cy_graph C)) as (Hin & _).
  constructor; rsimp; try done.
  - apply (quiet_reached m0 B hs cl heap X R (cy_graph C) r M Hq R_block). exact Hr.
  - apply (marking_quiet _ _ _ _ _ _ _ _ M Hq).
  - now exists done.
  - apply (mk_heap _ _ _ _ _ _ _ _ _ _ M).
  - now apply last_None.
  - change (allocated_words (mjr r)) with (allocated_words (mjr (rest r))). now rewrite He.
  - rewrite (mk_start _ _ _ _ _ _ _ _ _ _ M). destruct (chunk_heads m0 B hs cl heap X R (cy_graph C) _ _ _ hs Mm Hin) as [_ ->]. done.
  - unfold fl_init_merge. cbn [fl_merge last_fragment fl_prev fl_last fl_cur_size]. now rewrite Ef.
Qed.

(** ** The slices *)

Definition most_turns : nat := size B * (2 * heap_count B cl + 2) + (heap_count B cl + 1) + heap_count B cl.

Lemma turns_bound r : (turns m0 B cl r <= most_turns)%nat.
Proof.
  unfold turns, most_turns. pose proof (unwalked_bound m0 B hs cl R (markhp (mjr r))) as Hu.
  change (size B + length cl)%nat with (heap_count B cl) in Hu.
  assert (Hn : (size (nonblack B (rmem r)) <= size B)%nat) by (apply subseteq_size; intros b; rewrite nonblack_spec; tauto).
  assert (Hm : (size (nonblack B (rmem r)) * (2 * heap_count B cl + 2) <= size B * (2 * heap_count B cl + 2))%nat) by now apply Nat.mul_le_mono_r.
  destruct (heap_is_pure (mjr r)); lia.
Qed.

(** The phases of a cycle, with a bound on the turns that are left. *)
Inductive marking_phase (r0 : runtime) : nat -> finals -> runtime -> Prop :=
| phase_main r : in_main r0 r -> marking_phase r0 (turns m0 B cl r + length arrays + most_turns + 4) t r
| phase_weak done todo r : in_weak r0 done todo r -> marking_phase r0 (length todo + most_turns + 3) t r
| phase_final done t' r : in_final r0 done r -> marking_phase r0 (turns m0 B cl r + 1) t' r.

(** Iterations that [final_update] and the chains of forwarding blocks take. *)
Definition chain_fuel : nat := Z.to_nat (fin_old t) + depth.

Lemma busy_dec r : {busy r} + {~ busy r}.
Proof.
  unfold busy. destruct (gray_vals (mjr r)); [|left; now left]. destruct (decide (markhp (mjr r) = 0)); [|left; right; now left].
  destruct (heap_is_pure (mjr r)); [|left; right; now right]. right. intros [|[|]]; done.
Qed.

Lemma mark_step_phase fuel work r0 k t' r : marking_phase r0 k t' r -> (chain_fuel < fuel)%nat ->
  exists work' t'' r', mark_step Fl_head weak_list_head fuel work t' r = Ok (work', t'') r' /\
    ((work' <= work /\ exists k', (k' < k)%nat /\ marking_phase r0 k' t'' r') \/ (work' = 0 /\ marked r0 r')).
Proof.
  unfold chain_fuel. intros [r1 Hm|done todo r1 Hw|done t1 r1 Hf] Hfuel.
  - destruct (busy_dec r1) as [Hb|Hq].
    + destruct (main_busy fuel work t r0 r1 Hm Hb) as (w & r' & E & Hle & Hm' & Ht). exists w, t, r'. split; [done|]. left. split; [done|].
      eexists. split; [|now apply phase_main]. lia.
    + destruct (main_quiet fuel work t r0 r1 Hm Hq) as (r' & E & Hw & _). exists work, t, r'. split; [done|]. left. split; [lia|].
      eexists. split; [|apply (phase_weak _ [] arrays _ Hw)]. lia.
  - destruct todo as [|c todo].
    + destruct (weak_end fuel work r0 done r1 Hw ltac:(lia)) as (t2 & r2 & E & Hf). exists work, t2, r2. split; [done|]. left. split; [lia|].
      eexists. split; [|apply (phase_final _ done t2 _ Hf)]. pose proof (turns_bound r2). cbn [length]. lia.
    + destruct (weak_turn fuel work t r0 done c todo r1 Hw ltac:(lia)) as (w & done' & r' & E & Hle & Hw'). exists w, t, r'. split; [done|].
      left. split; [done|]. eexists. split; [|apply (phase_weak _ done' todo _ Hw')]. cbn [length]. lia.
  - destruct (busy_dec r1) as [Hb|Hq].
    + destruct (final_busy fuel work t1 r0 done r1 Hf Hb) as (w & r' & E & Hle & Hf' & Ht). exists w, t1, r'. split; [done|]. left. split; [done|].
      eexists. split; [|apply (phase_final _ done t1 _ Hf')]. lia.
    + destruct (final_quiet fuel work t1 r0 done r1 Hf Hq) as (r' & E & Hm). exists 0, t1, r'. split; [done|]. now right.
Qed.

(** A slice ends; it ends the phase, or leaves less to do. *)
Lemma mark_slice_phase r0 fuel : forall k work t' r,
  marking_phase r0 k t' r -> (k + chain_fuel + 1 < fuel)%nat ->
  exists t'' r', mark_slice Fl_head weak_list_head fuel work t' r = Ok t'' r' /\
    (marked r0 r' \/ exists k', marking_phase r0 k' t'' r' /\ (k' <= k)%nat /\ (0 < work -> (k' < k)%nat)).
Proof.
  induction fuel as [|fuel IH]; intros k work t' r Hp Hf; [lia|]. cbn [mark_slice].
  destruct (Z.ltb_spec 0 work) as [Hw|Hw]; [|exists t', r; split; [done|]; right; exists k; splits; try done; lia].
  destruct (mark_step_phase fuel work r0 k t' r Hp ltac:(lia)) as (w & t1 & r1 & E & Hcase). rewrite (bind_Ok _ _ _ _ _ E).
  destruct Hcase as [(Hle & k1 & Hk & Hp1)|(-> & Hm)].
  - destruct (IH k1 w t1 r1 Hp1 ltac:(lia)) as (t2 & r2 & E2 & Hcase). exists t2, r2. split; [exact E2|].
    destruct Hcase as [|(k2 & Hp2 & Hk2 & _)]; [now left|]. right. exists k2. splits; try done; lia.
  - destruct fuel as [|fuel]; [lia|]. exists t1, r1. split; [done|]. now left.
Qed.
End Slices.
