(* ===== verification/Sweep.v ===== *)
(** * The sweep phase and the major cycle

    Models [sweep_slice] and [finish_major_cycle] of [byterun/major_gc.c].  The
    sweeper walks the chunks of the heap: the white blocks go back to the free list,
    through [fl_merge_block] of [byterun/freelist.c], and the black ones become
    white.  The finalisers of the custom blocks are code the heap does not hold: a
    parameter, that leaves the heap alone. *)

From S2P Require Import Runtime Freelist Memory Fail Heap GlobRoots Finalise Roots Major MarkPhase MarkSlice.

(** ** Sweeping *)

Section SweepSlice.
(** A call of the function [finalize] of a custom block. *)
Context (call_finalize : Z -> Z -> M unit).

Definition Bp_hp (hp : Z) : Z := Val_hp hp.

(** [Custom_ops_val (v)->finalize] *)
Definition Custom_finalize (m : mem) (v : Z) : Z := ld m (ld m v + 8).

(** The block whose header is [hd], at [hp]. *)
Definition sweep_block (hp hd : Z) : M unit := fun r =>
  if Color_hd hd =? Caml_white then
    ((fun r => if Tag_hd hd =? Custom_tag then
                 let final_fun := Custom_finalize (rmem r) (Val_hp hp) in
                 if negb (final_fun =? 0) then call_finalize final_fun (Val_hp hp) r else Ok tt r
               else Ok tt r) ;;
     fun r => let '(p, r) := on_freelist (fl_merge_block (Bp_hp hp)) r in Ok tt (set_gc_sweep_hp p r)) r
  else if Color_hd hd =? Caml_blue then
    let s := frl r in
    Ok tt (set_frl (MkFl (fmem s) (fl_prev s) (fl_last s) (Bp_hp hp) (fl_cur_size s) (last_fragment s)) r)
  else Ok tt (set_rmem (st (rmem r) hp (Whitehd_hd hd)) r).

(** One turn of the loop of [sweep_slice]: the work left and [stat_major_collections]. *)
Definition sweep_step (work smc : Z) (r : runtime) : res (Z * Z) :=
  let g := mjr r in
  if gc_sweep_hp g <? limit g then
    let hp := gc_sweep_hp g in
    let hd := Hd_hp (rmem r) hp in
    let r := set_gc_sweep_hp (hp + Bhsize_hd hd) r in
    bind (sweep_block hp hd) (fun _ => Ok (work - Whsize_hd hd, smc)) r
  else
    let c := Chunk_next (rmem r) (chunk g) in
    let r := set_chunk c r in
    if c =? 0 then Ok (0, s64 (smc + 1)) (set_gc_phase Phase_idle r)
    else Ok (work, smc) (set_limit (c + Chunk_size (rmem r) c) (set_gc_sweep_hp c r)).

(** [while (work > 0)]; [fuel] bounds the turns. *)
Fixpoint sweep_slice (fuel : nat) (work smc : Z) (r : runtime) : res Z :=
  match fuel with
  | O => Fatal "the loop has not ended within the bound"
  | S fuel =>
      if 0 <? work then bind (sweep_step work smc) (fun '(work, smc) => sweep_slice fuel work smc) r
      else Ok smc r
  end.

(** [while (gc_phase == Phase_sweep) sweep_slice (LONG_MAX)]; [slice_fuel] is the bound
    of each slice. *)
Fixpoint sweep_loop (slice_fuel fuel : nat) (smc : Z) (r : runtime) : res Z :=
  match fuel with
  | O => Fatal "the loop has not ended within the bound"
  | S n =>
      if gc_phase (mjr r) =? Phase_sweep then bind (sweep_slice slice_fuel (B63 - 1) smc) (sweep_loop slice_fuel n) r
      else Ok smc r
  end.

(** [while (gc_phase == Phase_mark) mark_slice (LONG_MAX)] *)
Fixpoint mark_loop (Fl_head weak_list_head : Z) (slice_fuel fuel : nat) (t : finals) (r : runtime) : res finals :=
  match fuel with
  | O => Fatal "the loop has not ended within the bound"
  | S n =>
      if gc_phase (mjr r) =? Phase_mark
      then bind (mark_slice Fl_head weak_list_head slice_fuel (B63 - 1) t) (mark_loop Fl_head weak_list_head slice_fuel n) r
      else Ok t r
  end.

(** The finalisers, [stat_major_collections] and [stat_major_words] after the cycle. *)
Definition finish_major_cycle (Fl_head weak_list_head : Z) (fuel : nat) (roots : root_set) (smc smw : Z) (r : runtime) : res (finals * Z * Z) :=
  bind (fun r => if gc_phase (mjr r) =? Phase_idle then start_cycle fuel roots r else Ok tt r)
    (fun _ => bind (mark_loop Fl_head weak_list_head fuel fuel (finalisers roots))
      (fun t => bind (sweep_loop fuel fuel smc)
        (fun smc r => Ok (t, smc, smw + allocated_words (mjr r)) (set_allocated_words 0 r)))) r.
End SweepSlice.

(** ** Headers *)

Lemma Wosize_Whitehd hd : isu64 hd -> Wosize_hd (Whitehd_hd hd) = Wosize_hd hd.
Proof.
  intros Hd. unfold Wosize_hd, Whitehd_hd. rewrite Z.shiftr_land.
  change (Z.shiftr (u64 (Z.lnot Caml_black)) 10) with (Z.ones 54).
  rewrite Z.land_ones by lia. apply Z.mod_small. rewrite Z.shiftr_div_pow2 by lia. unfold isu64 in Hd.
  change (2 ^ 10) with 1024. change (2 ^ 54) with 18014398509481984. zlia.
Qed.
Lemma Tag_Whitehd hd : Tag_hd (Whitehd_hd hd) = Tag_hd hd.
Proof. unfold Tag_hd, Whitehd_hd. now rewrite <- Z.land_assoc. Qed.
Lemma Color_Whitehd hd : Color_hd (Whitehd_hd hd) = Caml_white.
Proof. unfold Color_hd, Whitehd_hd. rewrite <- Z.land_assoc. change (Z.land (u64 (Z.lnot Caml_black)) Caml_black) with 0. apply Z.land_0_r. Qed.

(** The sweeping state when words of no free block change. *)
Lemma sweep_inv_ext Fl_head s m' l1 l2 e :
  sweep_inv Fl_head s l1 l2 e -> (forall b, b ∈ Fl_head :: l1 ++ l2 -> Next m' b = Next (fmem s) b) ->
  (forall b, b ∈ l1 ++ l2 -> Hd_val m' b = Hd_val (fmem s) b) -> Hd_val m' Fl_head = Hd_val (fmem s) Fl_head ->
  sweep_inv Fl_head (MkFl m' (fl_prev s) (fl_last s) (fl_merge s) (fl_cur_size s) (last_fragment s)) l1 l2 e.
Proof.
  intros ((Hl & I2 & I3 & I4 & I5) & H2 & H3 & H4 & H5 & H6 & H7 & H8) HN HH HF.
  assert (Hbe : forall c, c ∈ l1 ++ l2 -> block_end m' c = block_end (fmem s) c) by (intros c Hc; now apply block_end_ext, HH).
  assert (Hin1 : forall c, c ∈ l1 -> c ∈ l1 ++ l2) by (intros; apply elem_of_app; now left).
  assert (Hin2 : forall c, c ∈ l2 -> c ∈ l1 ++ l2) by (intros; apply elem_of_app; now right).
  unfold sweep_inv, fl_inv. cbn [fmem fl_prev fl_merge fl_cur_size last_fragment]. splits; try done.
  - now apply (fl_list_ext Fl_head (fmem s)).
  - now rewrite (words_in_ext (fmem s)).
  - now rewrite (words_in_ext (fmem s)).
  - intros c Hc. rewrite Hbe; auto.
  - intros c Hc. rewrite Hbe; auto.
  - intros E. destruct (H6 E) as (? & ? & H6'). splits; try done. intros c Hc. rewrite Hbe; auto.
  - unfold Wosize_val in *. now rewrite HF.
Qed.

(** The position advances where there is no free block. *)
Lemma sweep_inv_advance Fl_head s l1 l2 e e' :
  sweep_inv Fl_head s l1 l2 e -> e < e' -> (forall c, c ∈ l2 -> e' <= c - 8) -> sweep_inv Fl_head s l1 l2 e'.
Proof.
  intros (H1 & H2 & H3 & H4 & H5 & H6 & H7 & H8) Hlt H. unfold sweep_inv. splits; try done; try lia.
  intros c Hc. specialize (H3 c Hc). lia.
Qed.

(** ** The heap being swept *)

Section Sweeping.
(** The memory when the sweeping begins, its blocks, its chunks, and the words the
    finalisers leave alone. *)
Context (Fl_head : Z) (call_finalize : Z -> Z -> M unit).
Context (m1 : mem) (B : gset Z) (hs : Z) (cl : list Z) (Kept : Z -> Prop).

Abbreviation in_block := (in_block m1).
Abbreviation color1 := (color m1).

(** The words of the chunks, their heads included. *)
Definition heap_word (a : Z) : Prop := exists c, c ∈ cl /\ c - 32 <= a < chunk_end m1 c.

Record sweep_ok : Prop := {
  so_graph : heap_graph m1 B hs cl (fun _ => false) (fun _ => False);
  so_end c : c ∈ cl -> chunk_end m1 c <= 2 ^ 56;
  so_apart c : c ∈ cl -> Fl_head + 16 <= c - 32 \/ chunk_end m1 c <= Fl_head - 16;
  so_gray b : b ∈ B -> color1 b <> Caml_gray;
  so_kept a : heap_word a -> Kept a;
  so_kept_head : Kept Fl_head /\ Kept (Fl_head - 8);
  so_finalize f v r : wfm (rmem r) -> exists m', call_finalize f v r = Ok tt (set_rmem m' r) /\ wfm m' /\
    forall a, Kept a -> ld m' a = ld (rmem r) a
}.
Context (OK : sweep_ok).

(** A block in use. *)
Definition live (b : Z) : Prop := b ∈ B /\ color1 b = Caml_black.
Definition dead (b : Z) : Prop := b ∈ B /\ color1 b <> Caml_black.
(** A word of a block that is not in use, before [e]. *)
Definition dead_word (e a : Z) : Prop := exists b, dead b /\ b - 8 < e /\ in_block b a.

(** A word kept that is in no block, nor one of the sentinel. *)
Definition out_word (a : Z) : Prop := Kept a /\ a <> Fl_head /\ a <> Fl_head - 8 /\ forall b, b ∈ B -> ~ in_block b a.

(** The free list and the memory when the sweeping has come to [e]: the free blocks
    before it are those of [l1]. *)
Record swept (l1 l2 : list Z) (e : Z) (s : freelist) : Prop := {
  sw_wf : wfm (fmem s);
  sw_inv : sweep_inv Fl_head s l1 l2 e;
  sw_above a : heap_word a -> e <= a -> ld (fmem s) a = ld m1 a;
  sw_out a : out_word a -> ld (fmem s) a = ld m1 a;
  sw_live b : live b -> b - 8 < e -> Hd_val (fmem s) b = Whitehd_hd (Hd_val m1 b) /\
    forall a, b <= a < block_end m1 b -> ld (fmem s) a = ld m1 a;
  sw_list c : c ∈ l2 <-> c ∈ B /\ color1 c = Caml_blue /\ e <= c - 8;
  sw_free c a : c ∈ l1 -> c - 8 <= a < block_end (fmem s) c -> dead_word e a;
  sw_fill b a : dead b -> b - 8 < e -> in_block b a ->
    Wosize_val m1 b = 0 \/ exists c, c ∈ l1 /\ c - 8 <= a < block_end (fmem s) c;
  sw_frag : last_fragment s = e -> dead e /\ Wosize_val m1 e = 0
}.

Let HG := so_graph OK.

Lemma block_chunk b a : b ∈ B -> in_block b a ->
  exists c, c ∈ cl /\ c <= a < chunk_end m1 c.
Proof.
  intros Hb Ha. destruct (hg_chunk _ _ _ _ _ _ HG b Hb) as (c & Hc & H1 & H2 & _). exists c. split; [done|]. unfold Major.in_block in Ha. lia.
Qed.
Lemma block_word b a : b ∈ B -> in_block b a -> heap_word a.
Proof. intros Hb Ha. destruct (block_chunk b a Hb Ha) as (c & Hc & Hin). exists c. split; [done|lia]. Qed.
Lemma Wosize1 b : 0 <= Wosize_val m1 b.
Proof. apply Wosize_nonneg, (hg_wf _ _ _ _ _ _ HG). Qed.
Lemma header_word b : b ∈ B -> heap_word (b - 8).
Proof. intros Hb. apply (block_word b); [done|]. pose proof (Wosize1 b). unfold Major.in_block, block_end. lia. Qed.
Lemma chunk_low c : c ∈ cl -> 33 <= c /\ c < chunk_end m1 c.
Proof.
  intros Hc. destruct (chunks_sorted_elem _ _ _ _ (hg_sorted _ _ _ _ _ _ HG) Hc) as (H1 & _ & _ & H2). unfold chunk_end. lia.
Qed.
Lemma block_low b : b ∈ B -> 33 <= b - 8 /\ block_end m1 b <= 2 ^ 56.
Proof.
  intros Hb. destruct (hg_chunk _ _ _ _ _ _ HG b Hb) as (c & Hc & H1 & H2 & _).
  pose proof (chunk_low c Hc). pose proof (so_end OK c Hc). lia.
Qed.
Lemma block_apart b : b ∈ B -> Fl_head + 16 <= b - 8 \/ block_end m1 b <= Fl_head - 16.
Proof.
  intros Hb. destruct (hg_chunk _ _ _ _ _ _ HG b Hb) as (c & Hc & H1 & H2 & _). destruct (so_apart OK c Hc); lia.
Qed.
Lemma heap_word_head a : heap_word a -> a <> Fl_head /\ a <> Fl_head - 8.
Proof. intros (c & Hc & Ha). destruct (so_apart OK c Hc); lia. Qed.

(** The blocks before the end of [b] are those before [b], and [b]. *)
Lemma before_end b b' : b ∈ B -> b' ∈ B -> b' - 8 < block_end m1 b -> b' = b \/ block_end m1 b' <= b - 8.
Proof.
  intros Hb Hb' Hlt. destruct (decide (b' = b)) as [|Hne]; [now left|right].
  destruct (hg_disj _ _ _ _ _ _ HG b b' Hb Hb' ltac:(done)); lia.
Qed.
Lemma after_block b b' : b ∈ B -> b' ∈ B -> b - 8 < b' - 8 -> block_end m1 b <= b' - 8.
Proof.
  intros Hb Hb' Hlt. pose proof (Wosize1 b'). destruct (hg_disj _ _ _ _ _ _ HG b b' Hb Hb' ltac:(lia)); [done|].
  unfold block_end in *. lia.
Qed.
Lemma dead_not_live b b' a : dead b -> live b' -> in_block b a -> ~ in_block b' a.
Proof.
  intros [Hb Hd] [Hb' Hl] H1 H2. apply Hd. now rewrite (in_block_inj m1 B hs cl _ _ HG b b' a Hb Hb' H1 H2).
Qed.
(** The heads of the chunks are in no block. *)
Lemma chunk_head_out c a : c ∈ cl -> c - 32 <= a < c -> out_word a.
Proof.
  intros Hc Ha. assert (Hw : heap_word a) by (exists c; pose proof (chunk_low c Hc); split; [done|lia]).
  destruct (heap_word_head a Hw). unfold out_word. splits; try done; [now apply (so_kept OK)|].
  now apply (hg_heads _ _ _ _ _ _ HG c a).
Qed.

(** The chunk a block is in, from the position before it. *)
Lemma chunk_at c b : c ∈ cl -> b ∈ B -> c <= b - 8 <= chunk_end m1 c ->
  block_end m1 b <= chunk_end m1 c /\ (block_end m1 b = chunk_end m1 c \/ block_end m1 b + 8 ∈ B).
Proof.
  intros Hc Hb Hin. destruct (hg_chunk _ _ _ _ _ _ HG b Hb) as (d & Hd & H1 & H2 & H3). pose proof (Wosize1 b).
  assert (b <= block_end m1 b) by (unfold block_end; lia).
  assert (d = c) as ->; [|done]. destruct (decide (d = c)) as [|Hne]; [done|].
  apply list_elem_of_split in Hc as (l1 & l2 & Ecl). pose proof (hg_sorted _ _ _ _ _ _ HG) as Hs. rewrite Ecl in Hs, Hd.
  apply elem_of_drop_mid in Hd; [|done]. destruct (chunks_sorted_disjoint _ _ _ _ _ _ Hs Hd); lia.
Qed.

Lemma dead_word_weaken e e' a : e <= e' -> dead_word e a -> dead_word e' a.
Proof. intros Hle (b & H1 & H2 & H3). exists b. splits; try done. lia. Qed.

(** Headers not yet reached. *)
Lemma unswept_header l1 l2 e s b : swept l1 l2 e s -> b ∈ B -> e <= b - 8 -> Hd_val (fmem s) b = Hd_val m1 b.
Proof. intros W Hb He. rewrite !Hd_val_ld. apply (sw_above _ _ _ _ W); [now apply header_word|done]. Qed.

(** *** A block that goes back to the free list *)

Lemma sweep_end_word l1 l2 e s c : swept l1 l2 e s -> c ∈ l1 -> block_end (fmem s) c <= 2 ^ 56.
Proof.
  intros W Hc. pose proof (sw_inv _ _ _ _ W) as ((Hl & _) & _). destruct Hl as (_ & Hb & _).
  destruct (blocks_elem _ _ _ c Hb ltac:(apply elem_of_app; now left)) as [_ Hf%free_block_end].
  destruct (sw_free _ _ _ _ W c (block_end (fmem s) c - 1) Hc ltac:(lia)) as (b & [Hb' _] & _ & Hin).
  unfold Major.in_block in Hin. pose proof (block_low b Hb'). lia.
Qed.

Lemma sweep_free_size l1 l2 e s : swept l1 l2 e s -> 0 <= 8 * fl_cur_size s <= 2 ^ 56.
Proof.
  intros W. pose proof (sw_inv _ _ _ _ W) as ((Hl & _ & _ & -> & _) & _ & _ & _ & H5 & _). destruct Hl as (_ & Hb & _).
  pose proof (words_in_nonneg _ _ _ Hb).
  assert (8 * words_in (fmem s) (l1 ++ l2) <= 2 ^ 56 - 8); [|lia].
  apply (words_in_bound _ _ _ 8 Hb); [|lia]. intros c [Hc|Hc]%elem_of_app; [now apply (sweep_end_word l1 l2 e)|now apply H5].
Qed.

Lemma dead_swept_block l1 l2 e s b :
  swept l1 l2 e s -> b ∈ B -> b - 8 = e -> color1 b = Caml_white -> swept_block Fl_head s l1 l2 e b.
Proof.
  intros W Hb He Hw. pose proof (unswept_header l1 l2 e s b W Hb ltac:(lia)) as Eh.
  unfold swept_block. rewrite (block_end_ext m1 (fmem s)) by done. destruct (block_low b Hb). pose proof (Wosize1 b) as Hsz.
  pose proof (sweep_free_size _ _ _ _ W) as Hfs.
  assert (b <= block_end m1 b) by (unfold block_end; lia). splits; try lia.
  - apply (sw_wf _ _ _ _ W).
  - now apply block_apart.
  - intros c Hc. apply (sw_list _ _ _ _ W) in Hc as (HcB & Hcol & Hce). apply after_block; try done.
    destruct (decide (c = b)) as [->|]; [rewrite Hw in Hcol; done|lia].
  - assert (8 * Wosize_val (fmem s) b <= 2 ^ 56) by (unfold Wosize_val in *; rewrite Eh; unfold block_end, Wosize_val in *; lia).
    change B64 with (2 ^ 64). lia.
Qed.

(** The words of the merged block are those of blocks not in use. *)
Definition boundary (b adj : Z) : Prop :=
  adj = block_end m1 b \/ exists cur, cur ∈ B /\ color1 cur = Caml_blue /\ cur - 8 = block_end m1 b /\ adj = block_end m1 cur.

Lemma boundary_before b adj b' : b ∈ B -> boundary b adj -> b' ∈ B -> b' - 8 < adj -> block_end m1 b' <= adj.
Proof.
  intros Hb [->|(cur & Hc & _ & E & ->)] Hb' Hlt.
  - destruct (before_end b b' Hb Hb' Hlt) as [->|]; [lia|]. pose proof (Wosize1 b). unfold block_end in *. lia.
  - destruct (before_end cur b' Hc Hb' Hlt) as [->|]; [lia|]. pose proof (Wosize1 cur). unfold block_end in *. lia.
Qed.

Lemma merged_dead l1 l2 e s b adj :
  swept l1 l2 e s -> b ∈ B -> b - 8 = e -> color1 b = Caml_white -> boundary b adj ->
  forall a, merge_start s b <= a < adj -> dead_word adj a.
Proof.
  intros W Hb He Hw Hadj a Ha.
  assert (Hdb : dead b) by (split; [done|now rewrite Hw]). pose proof (Wosize1 b).
  assert (Hle : b <= adj).
  { destruct Hadj as [->|(cur & Hc & _ & E & ->)]; [unfold block_end; lia|].
    pose proof (Wosize1 cur). unfold block_end in *. lia. }
  destruct (Z.lt_ge_cases a (b - 8)) as [Hlow|Hhigh].
  - unfold merge_start in Ha. destruct (Z.eqb_spec (last_fragment s) (b - 8)) as [Ef|]; [|lia].
    destruct (sw_frag _ _ _ _ W ltac:(lia)) as (Hd & Hz). exists e. splits; [done|lia|].
    unfold Major.in_block, block_end. lia.
  - destruct Hadj as [->|(cur & Hc & Hcb & E & ->)]; [exists b; splits; [done|lia|unfold Major.in_block; lia]|].
    destruct (Z.lt_ge_cases a (block_end m1 b)); [exists b; splits; [done|lia|unfold Major.in_block; lia]|].
    exists cur. splits; [split; [done|now rewrite Hcb]| |unfold Major.in_block; lia]. pose proof (Wosize1 cur). unfold block_end. lia.
Qed.

(** So are the link and the header of the free block before it. *)
Lemma prev_dead l1 l2 e s a :
  swept l1 l2 e s -> a <> Fl_head -> a <> Fl_head - 8 -> a = fl_merge s \/ a = fl_merge s - 8 -> dead_word e a.
Proof.
  intros W Ha1 Ha2 Hor. pose proof (sw_inv _ _ _ _ W) as ((Hl & _) & Hm & _). destruct Hl as (_ & Hb & _).
  assert (Hprev : fl_merge s = Fl_head \/ fl_merge s ∈ l1).
  { rewrite Hm. apply elem_of_cons, last_of_elem. }
  destruct Hprev as [E|Hin]; [rewrite E in Hor; tauto|].
  destruct (blocks_elem _ _ _ _ Hb (proj2 (elem_of_app _ _ _) (or_introl Hin))) as [_ Hf%free_block_end].
  apply (sw_free _ _ _ _ W (fl_merge s) a Hin). lia.
Qed.

(** A free block is put in the list, with the free blocks that touch it. *)
Lemma sweep_dead l1 l2 e s b :
  swept l1 l2 e s -> b ∈ B -> b - 8 = e -> color1 b = Caml_white ->
  exists adj s' l1' l2', fl_merge_block b s = (adj, s') /\ swept l1' l2' adj s' /\ boundary b adj.
Proof.
  intros W Hb He Hw. pose proof (sw_inv _ _ _ _ W) as Hsw.
  destruct (fl_merge_block_detail Fl_head s l1 l2 e b Hsw (dead_swept_block _ _ _ _ _ W Hb He Hw))
    as (adj & s' & l1' & l2' & E & Hsw' & Hcov & [Hf1 Hf2] & Hlf & Hcase).
  pose proof (unswept_header l1 l2 e s b W Hb ltac:(lia)) as Eh.
  rewrite (block_end_ext m1 (fmem s)) in Hcase by done. pose proof (Wosize1 b) as Hwo.
  assert (Hbd : boundary b adj).
  { destruct Hcase as [[_ ->]|(cur & -> & E1 & ->)]; [now left|right]. exists cur.
    destruct (proj1 (sw_list _ _ _ _ W cur) ltac:(left)) as (Hc & Hcb & Hce).
    rewrite (block_end_ext m1 (fmem s)) by (apply (unswept_header _ _ _ _ _ W Hc); lia). done. }
  assert (Hle : b <= adj).
  { destruct Hbd as [->|(cur & Hc & _ & E1 & ->)]; [unfold block_end; lia|]. pose proof (Wosize1 cur). unfold block_end in *. lia. }
  pose proof (merged_dead l1 l2 e s b adj W Hb He Hw Hbd) as Hmd.
  assert (Hfr : forall a, a <> Fl_head -> a <> Fl_head - 8 -> ~ dead_word adj a -> ld (fmem s') a = ld (fmem s) a).
  { intros a Ha1 Ha2 Hnd. pose proof (fl_merge_block_frame b s a (sw_wf _ _ _ _ W _)) as Hf. rewrite E in Hf. cbn [fst snd] in Hf. apply Hf.
    - intros Hin. apply Hnd, Hmd, Hin.
    - intros ->. apply Hnd, (dead_word_weaken e); [lia|]. apply (prev_dead l1 l2 e s); auto.
    - intros ->. apply Hnd, (dead_word_weaken e); [lia|]. apply (prev_dead l1 l2 e s); auto. }
  assert (Hfh : forall a, heap_word a -> ~ dead_word adj a -> ld (fmem s') a = ld (fmem s) a)
    by (intros a Ha; destruct (heap_word_head a Ha); now apply Hfr).
  assert (Habove : forall a, adj <= a -> ~ dead_word adj a).
  { intros a Ha (b' & [Hb' _] & Hlt & Hin). pose proof (boundary_before b adj b' Hb Hbd Hb' Hlt). unfold Major.in_block in Hin. lia. }
  assert (Hfirst : forall b', b' ∈ B -> b' - 8 < adj -> ~ b' - 8 < e -> b' = b \/ (exists cur, l2 = cur :: l2' /\ adj = block_end m1 cur /\ b' = cur)).
  { intros b' Hb' H1 H2. destruct (decide (b' = b)) as [|Hne]; [now left|right].
    pose proof (after_block b b' Hb Hb' ltac:(lia)) as Haf.
    destruct Hcase as [[_ ->]|(cur & -> & E1 & E2)]; [lia|]. exists cur.
    destruct (proj1 (sw_list _ _ _ _ W cur) ltac:(left)) as (Hc & Hcb & Hce).
    rewrite (block_end_ext m1 (fmem s)) in E2 by (apply (unswept_header _ _ _ _ _ W Hc); lia). splits; try done.
    destruct (before_end cur b' Hc Hb' ltac:(lia)) as [|Hbe]; [done|]. pose proof (Wosize1 b'). unfold block_end in *. lia. }
  assert (Hinl2 : forall cur, l2 = cur :: l2' -> cur ∈ B /\ color1 cur = Caml_blue /\ block_end (fmem s) cur = block_end m1 cur).
  { intros cur El. destruct (proj1 (sw_list _ _ _ _ W cur) ltac:(rewrite El; left)) as (Hc & Hcb & Hce). splits; try done.
    apply block_end_ext. now apply (unswept_header l1 l2 e). }
  assert (Hfragment : last_fragment s' = adj -> adj = b /\ Wosize_val m1 b = 0).
  { intros El. destruct Hsw as (_ & _ & _ & _ & _ & _ & H7 & _). destruct Hlf as [Hlf|Hlf]; [lia|].
    assert (Hms : merge_start s b <= b - 8) by (unfold merge_start; destruct (_ =? _); lia).
    pose proof (boundary_before b adj b Hb Hbd Hb ltac:(lia)) as Hbe. unfold block_end in Hbe. lia. }
  exists adj, s', l1', l2'. split; [done|]. split; [|done]. constructor.
  - pose proof (fl_merge_block_wfm b s (sw_wf _ _ _ _ W)) as Hwf. rewrite E in Hwf. apply Hwf.
    destruct (block_low b Hb). change B64 with (2 ^ 64). unfold block_end in *. lia.
  - done.
  - intros a Ha Hge. rewrite Hfh by auto. apply (sw_above _ _ _ _ W); [done|lia].
  - intros a (HK & H1 & H2 & Hno). rewrite Hfr; try done; [now apply (sw_out _ _ _ _ W)|].
    intros (b' & [Hb' _] & _ & Hin). now apply (Hno b').
  - intros b' Hl Hlt. assert (Hnd : forall a, in_block b' a -> ~ dead_word adj a).
    { intros a Ha (d & Hd & _ & Hin). now apply (dead_not_live d b' a). }
    assert (Hb' : b' - 8 < e).
    { destruct (decide (b' - 8 < e)) as [|Hge]; [done|]. destruct Hl as [HlB Hlc].
      destruct (Hfirst b' HlB Hlt Hge) as [->|(cur & El & _ & ->)]; [rewrite Hw in Hlc; done|].
      destruct (Hinl2 cur El) as (_ & Hcb & _). rewrite Hcb in Hlc. done. }
    destruct (sw_live _ _ _ _ W b' Hl Hb') as [H1 H2]. pose proof (Wosize1 b') as Hw'. split.
    + rewrite Hd_val_ld, Hfh, <- Hd_val_ld; [done|now apply header_word, Hl|]. apply Hnd. unfold Major.in_block, block_end. lia.
    + intros a Ha. assert (Hin : in_block b' a) by (unfold Major.in_block; lia).
      rewrite Hfh; [now apply H2|apply (block_word b'); [apply Hl|done]|now apply Hnd].
  - assert (Hsub : forall c, c ∈ l2' -> c ∈ l2) by (destruct Hcase as [[-> _]|(cur & -> & _)]; [done|now right]).
    intros c. split; intros Hc.
    + destruct (proj1 (sw_list _ _ _ _ W c) (Hsub c Hc)) as (HcB & Hcb & _). splits; try done.
      destruct Hsw' as (_ & _ & _ & H2 & _). now apply H2.
    + destruct Hc as (HcB & Hcb & Hce). assert (Hc : c ∈ l2) by (apply (sw_list _ _ _ _ W); splits; try done; lia).
      destruct Hcase as [[-> _]|(cur & El & E1 & E2)]; [done|]. rewrite El in Hc. apply elem_of_cons in Hc as [->|]; [|done].
      destruct (Hinl2 cur El) as (_ & _ & E3). rewrite E3 in E2. pose proof (Wosize1 cur). unfold block_end in *. lia.
  - intros c a Hc Ha. destruct (Hcov c a Hc Ha) as [Hin|(d & Hd & Hin)]; [now apply Hmd|].
    apply (dead_word_weaken e); [lia|]. now apply (sw_free _ _ _ _ W d).
  - intros b' a Hd Hlt Hin. destruct (decide (b' - 8 < e)) as [Hold|Hnew].
    + destruct (sw_fill _ _ _ _ W b' a Hd Hold Hin) as [|(c & Hc & Ha)]; [now left|]. right. now apply (Hf1 c).
    + assert (Hms : merge_start s b <= b - 8) by (unfold merge_start; destruct (_ =? _); lia).
      pose proof (boundary_before b adj b' Hb Hbd (proj1 Hd) Hlt) as Hb'e. pose proof (Wosize1 b').
      destruct Hf2 as [Hz|Hall]; [|right; apply Hall; unfold Major.in_block in Hin; lia].
      left. unfold block_end in Hb'e. destruct (Z.eq_dec (Wosize_val m1 b') 0) as [|Hnz]; [done|]. lia.
  - intros El. destruct (Hfragment El) as [-> Hz]. split; [split; [done|now rewrite Hw]|done].
Qed.

(** *** Other blocks *)

(** The blocks before the end of [b]. *)
Lemma before_cases b b' : b ∈ B -> b' ∈ B -> b' - 8 < block_end m1 b -> b' = b \/ b' - 8 < b - 8.
Proof.
  intros Hb Hb' Hlt. destruct (before_end b b' Hb Hb' Hlt) as [|H]; [now left|right]. pose proof (Wosize1 b'). unfold block_end in *. lia.
Qed.

Lemma block_end_low b : b <= block_end m1 b.
Proof. pose proof (Wosize1 b). unfold block_end. lia. Qed.

Lemma sweep_blue l1 l2 e s b :
  swept l1 l2 e s -> b ∈ B -> b - 8 = e -> color1 b = Caml_blue ->
  exists l2', l2 = b :: l2' /\
    swept (l1 ++ [b]) l2' (block_end m1 b) (MkFl (fmem s) (fl_prev s) (fl_last s) b (fl_cur_size s) (last_fragment s)).
Proof.
  intros W Hb He Hc. pose proof (sw_inv _ _ _ _ W) as ((Hl & I2 & I3 & I4 & I5) & H2 & H3 & H4 & H5 & H6 & H7 & H8).
  pose proof Hl as (_ & Hbl & _). pose proof (block_end_low b) as Hbe.
  assert (Eb : block_end (fmem s) b = block_end m1 b) by (apply block_end_ext, (unswept_header l1 l2 e); try done; lia).
  assert (Hin : b ∈ l2) by (apply (sw_list _ _ _ _ W); splits; try done; lia).
  assert (El : exists l2', l2 = b :: l2').
  { destruct l2 as [|c l]; [now apply elem_of_nil in Hin|]. exists l. f_equal. apply elem_of_cons in Hin as [->|Hin]; [done|].
    pose proof (blocks_after _ _ _ _ _ _ Hbl Hin) as Hcb. destruct (proj1 (sw_list _ _ _ _ W c) ltac:(left)) as (_ & _ & Hce).
    destruct (blocks_elem _ _ _ c Hbl (elem_of_mid _ _ _)) as [_ Hf%free_block_end]. lia. }
  destruct El as [l2' ->]. exists l2'. split; [done|].
  assert (Eapp : (l1 ++ [b]) ++ l2' = l1 ++ b :: l2') by now rewrite <- app_assoc.
  assert (Hafter : forall c, c ∈ l2' -> block_end m1 b <= c - 8) by (intros c Hc'; rewrite <- Eb; now apply (blocks_after _ _ _ _ _ _ Hbl)).
  constructor; cbn [fmem last_fragment].
  - apply (sw_wf _ _ _ _ W).
  - unfold sweep_inv, fl_inv. cbn [fmem fl_prev fl_merge fl_cur_size last_fragment]. rewrite Eapp. splits; try done; try lia.
    + right. apply elem_of_mid.
    + now rewrite last_of_app.
    + intros c [Hc'|Hc'%list_elem_of_singleton]%elem_of_app; [|subst; lia]. specialize (H3 c Hc'). lia.
    + intros c Hc'. apply H5. now right.
  - intros a Ha Hge. apply (sw_above _ _ _ _ W); [done|lia].
  - apply (sw_out _ _ _ _ W).
  - intros b' Hl' Hlt. destruct (before_cases b b' Hb (proj1 Hl') Hlt) as [->|]; [destruct Hl' as [_ Hl']; rewrite Hc in Hl'; done|].
    apply (sw_live _ _ _ _ W); [done|lia].
  - intros c. split; intros Hc'.
    + destruct (proj1 (sw_list _ _ _ _ W c) ltac:(now right)) as (? & ? & _). splits; try done. now apply Hafter.
    + destruct Hc' as (HcB & Hcb & Hce). assert (Hx : c ∈ b :: l2') by (apply (sw_list _ _ _ _ W); splits; try done; lia).
      apply elem_of_cons in Hx as [->|]; [lia|done].
  - intros c a [Hc'|Hc'%list_elem_of_singleton]%elem_of_app Ha; [apply (dead_word_weaken e); [lia|]; now apply (sw_free _ _ _ _ W c)|].
    subst c. exists b. splits; [split; [done|now rewrite Hc]|lia|]. unfold Major.in_block. lia.
  - intros b' a Hd Hlt Ha. destruct (before_cases b b' Hb (proj1 Hd) Hlt) as [->|].
    + right. exists b. split; [apply elem_of_app; right; left|]. unfold Major.in_block in Ha. lia.
    + destruct (sw_fill _ _ _ _ W b' a Hd ltac:(lia) Ha) as [|(c & Hc' & Hin')]; [now left|]. right. exists c. split; [|done]. apply elem_of_app. now left.
  - intros E. lia.
Qed.

(** A block in use becomes white. *)
Lemma sweep_live l1 l2 e s b :
  swept l1 l2 e s -> live b -> b - 8 = e ->
  swept l1 l2 (block_end m1 b) (MkFl (st (fmem s) (b - 8) (Whitehd_hd (Hd_val m1 b)))
    (fl_prev s) (fl_last s) (fl_merge s) (fl_cur_size s) (last_fragment s)).
Proof.
  intros W Hlv He. pose proof Hlv as [Hb Hc]. pose proof (sw_inv _ _ _ _ W) as Hsw. pose proof (block_end_low b) as Hbe.
  pose proof Hsw as ((Hl & _) & _ & Hends & Hstarts & _ & _ & Hlf & _). pose proof Hl as (_ & Hbl & _).
  assert (Hin8 : in_block b (b - 8)) by (unfold Major.in_block; lia).
  assert (Hout : forall c a, c ∈ l1 ++ l2 -> c - 8 <= a < block_end (fmem s) c -> a <> b - 8).
  { intros c a [Hc1|Hc2]%elem_of_app Ha ->.
    - destruct (sw_free _ _ _ _ W c (b - 8) Hc1 Ha) as (d & Hd & _ & Hin). now apply (dead_not_live d b (b - 8)).
    - destruct (proj1 (sw_list _ _ _ _ W c) Hc2) as (HcB & Hcb & Hce). assert (c = b) as -> by lia. rewrite Hc in Hcb. done. }
  assert (Hfree : forall c, c ∈ l1 ++ l2 -> c + 8 <= block_end (fmem s) c).
  { intros c Hc'. now destruct (blocks_elem _ _ _ c Hbl Hc') as [_ Hf%free_block_end]. }
  assert (HH : forall c, c ∈ l1 ++ l2 -> Hd_val (st (fmem s) (b - 8) (Whitehd_hd (Hd_val m1 b))) c = Hd_val (fmem s) c).
  { intros c Hc'. rewrite !Hd_val_ld. apply ld_st_ne. intros E. apply (Hout c (c - 8) Hc'); [|done]. specialize (Hfree c Hc'). lia. }
  destruct (heap_word_head (b - 8) (header_word b Hb)) as [Hh1 Hh2].
  assert (Hends' : forall c, c ∈ l1 ++ l2 -> block_end (st (fmem s) (b - 8) (Whitehd_hd (Hd_val m1 b))) c = block_end (fmem s) c)
    by (intros; now apply block_end_ext, HH).
  constructor; cbn [fmem last_fragment].
  - apply wfm_st; [apply W|]. apply land_range, (hg_wf _ _ _ _ _ _ HG).
  - apply (sweep_inv_advance _ _ _ _ e); [|lia|].
    + apply sweep_inv_ext; try done.
      * intros c Hc'. unfold Next. apply ld_st_ne. intros E. apply elem_of_cons in Hc' as [->|Hc']; [done|].
        apply (Hout c c Hc'); [|done]. specialize (Hfree c Hc'). lia.
      * rewrite !Hd_val_ld. apply ld_st_ne. lia.
    + intros c Hc'. destruct (proj1 (sw_list _ _ _ _ W c) Hc') as (HcB & Hcb & Hce). apply after_block; try done.
      destruct (decide (c = b)) as [->|]; [rewrite Hc in Hcb; done|lia].
  - intros a Ha Hge. rewrite ld_st_ne by lia. apply (sw_above _ _ _ _ W); [done|lia].
  - intros a Ha. rewrite ld_st_ne; [now apply (sw_out _ _ _ _ W)|]. intros <-. destruct Ha as (_ & _ & _ & Hno). now apply (Hno b).
  - intros b' Hl' Hlt. rewrite Hd_val_ld. destruct (before_cases b b' Hb (proj1 Hl') Hlt) as [->|Hbef].
    + rewrite ld_st_eq. split; [done|]. intros a Ha. rewrite ld_st_ne by lia.
      apply (sw_above _ _ _ _ W); [apply (block_word b); [done|unfold Major.in_block; lia]|lia].
    + destruct (before_end b b' Hb (proj1 Hl') Hlt) as [->|Hbe']; [lia|]. pose proof (block_end_low b').
      rewrite ld_st_ne, <- Hd_val_ld by lia. destruct (sw_live _ _ _ _ W b' Hl' ltac:(lia)) as [H1 H2]. split; [done|].
      intros a Ha. rewrite ld_st_ne by lia. now apply H2.
  - intros c. rewrite (sw_list _ _ _ _ W c). split; intros (HcB & Hcb & Hce); splits; try done; [|lia].
    apply after_block; try done. destruct (decide (c = b)) as [->|]; [rewrite Hc in Hcb; done|lia].
  - intros c a Hc' Ha. rewrite Hends' in Ha by (apply elem_of_app; now left).
    apply (dead_word_weaken e); [lia|]. now apply (sw_free _ _ _ _ W c).
  - intros b' a Hd Hlt Ha. destruct (before_cases b b' Hb (proj1 Hd) Hlt) as [->|]; [destruct Hd; done|].
    destruct (sw_fill _ _ _ _ W b' a Hd ltac:(lia) Ha) as [|(c & Hc' & Hin')]; [now left|]. right. exists c. split; [done|].
    rewrite Hends'; [done|]. apply elem_of_app. now left.
  - lia.
Qed.

(** From the end of a chunk to the beginning of the next. *)
Lemma sweep_jump l1 l2 e e' s :
  swept l1 l2 e s -> e < e' -> (forall b, b ∈ B -> b - 8 < e' -> b - 8 < e) -> swept l1 l2 e' s.
Proof.
  intros W Hlt Hno. pose proof (sw_inv _ _ _ _ W) as Hsw. pose proof Hsw as (_ & _ & _ & _ & _ & _ & H7 & _). constructor.
  - apply W.
  - apply (sweep_inv_advance _ _ _ _ e); try done. intros c Hc. destruct (proj1 (sw_list _ _ _ _ W c) Hc) as (HcB & _ & Hce).
    destruct (decide (c - 8 < e')) as [Hl|]; [|lia]. specialize (Hno c HcB Hl). lia.
  - intros a Ha Hge. apply (sw_above _ _ _ _ W); [done|lia].
  - apply W.
  - intros b Hl Hb. apply (sw_live _ _ _ _ W b Hl). apply Hno; [apply Hl|done].
  - intros c. rewrite (sw_list _ _ _ _ W c). split; intros (HcB & Hcb & Hce); splits; try done; [|lia].
    destruct (decide (c - 8 < e')) as [Hl|]; [|lia]. specialize (Hno c HcB Hl). lia.
  - intros c a Hc Ha. apply (dead_word_weaken e); [lia|]. now apply (sw_free _ _ _ _ W c).
  - intros b a Hd Hb. apply (sw_fill _ _ _ _ W b a Hd). apply Hno; [apply Hd|done].
  - intros E. lia.
Qed.

(** Words that no finaliser may write are what matters. *)
Lemma swept_memory l1 l2 e s m' :
  swept l1 l2 e s -> wfm m' -> (forall a, Kept a -> ld m' a = ld (fmem s) a) ->
  swept l1 l2 e (MkFl m' (fl_prev s) (fl_last s) (fl_merge s) (fl_cur_size s) (last_fragment s)).
Proof.
  intros W Hwf HK. pose proof (sw_inv _ _ _ _ W) as Hsw. pose proof Hsw as ((Hl & _) & _). pose proof Hl as (_ & Hbl & _).
  assert (Hwords : forall a, heap_word a -> ld m' a = ld (fmem s) a) by (intros; now apply HK, (so_kept OK)).
  assert (Hlist : forall c a, c ∈ l1 ++ l2 -> c - 8 <= a < block_end (fmem s) c -> ld m' a = ld (fmem s) a).
  { intros c a [Hc1|Hc2]%elem_of_app Ha; apply Hwords.
    - destruct (sw_free _ _ _ _ W c a Hc1 Ha) as (d & Hd & _ & Hin). now apply (block_word d); [apply Hd|].
    - destruct (proj1 (sw_list _ _ _ _ W c) Hc2) as (HcB & Hcb & Hce). apply (block_word c); [done|].
      rewrite (block_end_ext m1 (fmem s)) in Ha by now apply (unswept_header l1 l2 e). done. }
  assert (Hfree : forall c, c ∈ l1 ++ l2 -> c + 8 <= block_end (fmem s) c).
  { intros c Hc'. now destruct (blocks_elem _ _ _ c Hbl Hc') as [_ Hf%free_block_end]. }
  assert (HH : forall c, c ∈ l1 ++ l2 -> Hd_val m' c = Hd_val (fmem s) c).
  { intros c Hc. rewrite !Hd_val_ld. apply (Hlist c); [done|]. specialize (Hfree c Hc). lia. }
  assert (Hend : forall c, c ∈ l1 -> block_end m' c = block_end (fmem s) c) by (intros c Hc; apply block_end_ext, HH, elem_of_app; now left).
  destruct (so_kept_head OK) as [HK1 HK2].
  constructor; cbn [fmem last_fragment]; try done.
  - apply sweep_inv_ext; try done; [|rewrite !Hd_val_ld; now apply HK].
    intros c [->|Hc]%elem_of_cons; [now apply HK|]. unfold Next. apply (Hlist c); [done|]. specialize (Hfree c Hc). lia.
  - intros a Ha Hge. rewrite Hwords by done. now apply (sw_above _ _ _ _ W).
  - intros a Ha. rewrite HK by apply Ha. now apply (sw_out _ _ _ _ W).
  - intros b Hlv Hlt. destruct (sw_live _ _ _ _ W b Hlv Hlt) as [H1 H2]. pose proof (block_end_low b). split.
    + rewrite Hd_val_ld, Hwords, <- Hd_val_ld by apply header_word, Hlv. done.
    + intros a Ha. rewrite Hwords; [now apply H2|]. apply (block_word b); [apply Hlv|]. unfold Major.in_block. lia.
  - apply W.
  - intros c a Hc Ha. rewrite Hend in Ha by done. now apply (sw_free _ _ _ _ W c).
  - intros b a Hd Hlt Ha. destruct (sw_fill _ _ _ _ W b a Hd Hlt Ha) as [|(c & Hc & Hin)]; [now left|]. right. exists c. split; [done|].
    now rewrite Hend.
  - apply W.
Qed.

(** *** The loop *)

(** The collector while sweeping. *)
Record sweeping (l1 l2 : list Z) (r : runtime) : Prop := {
  sp_swept : swept l1 l2 (gc_sweep_hp (mjr r)) (fl_state r);
  sp_chunk : chunk (mjr r) ∈ cl /\ limit (mjr r) = chunk_end m1 (chunk (mjr r));
  sp_at : chunk (mjr r) <= gc_sweep_hp (mjr r) <= limit (mjr r) /\
          (gc_sweep_hp (mjr r) = limit (mjr r) \/ gc_sweep_hp (mjr r) + 8 ∈ B);
  sp_phase : gc_phase (mjr r) = Phase_sweep
}.

(** What the sweeping leaves alone. *)
Definition sweep_rest (r : runtime) : runtime :=
  set_rmem ∅ (set_frl (MkFl ∅ 0 0 0 0 0) (set_gc_sweep_hp 0 (set_gc_phase 0 (set_chunk 0 (set_limit 0 r))))).

(** The end: the free list holds the words of the blocks not in use. *)
Record all_swept (l : list Z) (r : runtime) : Prop := {
  as_wf : wfm (rmem r);
  as_free : fl_inv Fl_head (fl_state r) l;
  as_phase : gc_phase (mjr r) = Phase_idle;
  as_live b : live b -> Hd_val (rmem r) b = Whitehd_hd (Hd_val m1 b) /\
    forall a, b <= a < block_end m1 b -> ld (rmem r) a = ld m1 a;
  as_out a : out_word a -> ld (rmem r) a = ld m1 a;
  as_list c a : c ∈ l -> c - 8 <= a < block_end (rmem r) c -> exists b, dead b /\ in_block b a;
  as_dead b a : dead b -> in_block b a -> Wosize_val m1 b = 0 \/ exists c, c ∈ l /\ c - 8 <= a < block_end (rmem r) c
}.

Lemma sweep_chunk_heads l1 l2 r c : sweeping l1 l2 r -> c ∈ cl ->
  Chunk_next (rmem r) c = Chunk_next m1 c /\ Chunk_size (rmem r) c = Chunk_size m1 c.
Proof.
  intros S1 Hc. assert (H : forall a, c - 32 <= a < c -> ld (rmem r) a = ld m1 a).
  { intros a Ha. apply (sw_out _ _ _ _ (sp_swept _ _ _ S1)). now apply (chunk_head_out c). }
  unfold Chunk_next, Chunk_size. split; apply H; lia.
Qed.

(** At the end of a chunk. *)
Lemma sweep_chunk_step l1 l2 work smc r :
  sweeping l1 l2 r -> gc_sweep_hp (mjr r) = limit (mjr r) ->
  exists work' smc' r', sweep_step call_finalize work smc r = Ok (work', smc') r' /\ sweep_rest r' = sweep_rest r /\
    ((smc' = smc /\ sweeping l1 l2 r' /\
      (unwalked m1 B cl (gc_sweep_hp (mjr r')) < unwalked m1 B cl (gc_sweep_hp (mjr r)))%nat) \/
     (work' = 0 /\ smc' = s64 (smc + 1) /\ all_swept l1 r')).
Proof.
  intros S1 Hend. pose proof S1 as [W [Hc El] [Hrange Hat] Hph]. set (c := chunk (mjr r)) in *.
  destruct (sweep_chunk_heads _ _ _ c S1 Hc) as [Enx _]. pose proof (chunk_low c Hc) as [Hc33 Hce].
  unfold sweep_step. rewrite Hend, Z.ltb_irrefl. rsimp. fold c. rewrite Enx.
  assert (Hbeyond : forall b, b ∈ B -> gc_sweep_hp (mjr r) <= b - 8 -> Chunk_next m1 c <> 0 /\ Chunk_next m1 c <= b - 8).
  { intros b Hb Hhpb. destruct (hg_chunk _ _ _ _ _ _ HG b Hb) as (d & Hd & Hd1 & Hd2 & _). pose proof (block_end_low b).
    destruct (next_chunk _ _ _ _ _ (hg_chunks _ _ _ _ _ _ HG) (hg_sorted _ _ _ _ _ _ HG) ltac:(lia) Hc) as [[_ Hall]|(_ & Hpos & _ & Hall)];
      specialize (Hall d Hd); lia. }
  destruct (Z.eqb_spec (Chunk_next m1 c) 0) as [Hz|Hnz].
  - exists 0, (s64 (smc + 1)). eexists. split; [reflexivity|]. split; [done|]. right. splits; try done.
    assert (Hall : forall b, b ∈ B -> b - 8 < gc_sweep_hp (mjr r)).
    { intros b Hb. destruct (decide (b - 8 < gc_sweep_hp (mjr r))); [done|]. destruct (Hbeyond b Hb); lia. }
    assert (l2 = []) as ->.
    { destruct l2 as [|d l]; [done|]. destruct (proj1 (sw_list _ _ _ _ W d) ltac:(left)) as (HdB & _ & Hd). specialize (Hall d HdB). lia. }
    pose proof (sw_inv _ _ _ _ W) as (Hfl & _). rewrite app_nil_r in Hfl.
    constructor; rsimp; try done.
    + apply W.
    + intros b Hl. apply (sw_live _ _ _ _ W b Hl). apply Hall, Hl.
    + apply W.
    + intros d a Hd Ha. destruct (sw_free _ _ _ _ W d a Hd Ha) as (b & H1 & _ & H2). now exists b.
    + intros b a Hd Ha. apply (sw_fill _ _ _ _ W b a Hd); [apply Hall, Hd|done].
  - destruct (next_chunk _ _ _ _ _ (hg_chunks _ _ _ _ _ _ HG) (hg_sorted _ _ _ _ _ _ HG) ltac:(lia) Hc) as [[Hz _]|(Hin & Hpos & Hafter & Hall)]; [done|].
    destruct (sweep_chunk_heads _ _ _ _ S1 Hin) as [_ Esz'].
    exists work, smc. eexists. split; [reflexivity|]. split; [done|]. left. split; [done|]. split.
    + constructor; rsimp; try done.
      * apply (sweep_jump _ _ (gc_sweep_hp (mjr r))); [exact W|lia|]. intros b Hb Hlt.
        destruct (decide (b - 8 < gc_sweep_hp (mjr r))); [done|]. destruct (Hbeyond b Hb); lia.
      * rewrite Esz'. done.
      * rewrite Esz'. pose proof (chunk_low _ Hin) as [_ Hlow]. unfold chunk_end in Hlow. split; [lia|]. right. now apply (hg_first _ _ _ _ _ _ HG).
    + rsimp. apply (unwalked_lt m1 B cl); [lia|]. right. exists c. split; [done|]. lia.
Qed.

(** At a block. *)
Definition position_ok (c e : Z) : Prop := c <= e <= chunk_end m1 c /\ (e = chunk_end m1 c \/ e + 8 ∈ B).

Lemma position_block c b : c ∈ cl -> b ∈ B -> c <= b - 8 <= chunk_end m1 c -> position_ok c (block_end m1 b).
Proof.
  intros Hc Hb Hin. destruct (chunk_at c b Hc Hb Hin) as [H1 H2]. pose proof (block_end_low b). split; [lia|done].
Qed.
Lemma position_boundary c b adj : c ∈ cl -> b ∈ B -> c <= b - 8 <= chunk_end m1 c -> boundary b adj -> position_ok c adj.
Proof.
  intros Hc Hb Hin [->|(cur & HcB & _ & E & ->)]; [now apply position_block|].
  destruct (position_block c b Hc Hb Hin) as [H _]. apply position_block; try done. lia.
Qed.
Lemma boundary_le b adj : boundary b adj -> block_end m1 b <= adj.
Proof. intros [->|(cur & _ & _ & E & ->)]; [lia|]. pose proof (block_end_low cur). lia. Qed.

Lemma sweeping_white l1 l2 r b :
  sweeping l1 l2 r -> b ∈ B -> b - 8 = gc_sweep_hp (mjr r) -> color1 b = Caml_white ->
  exists l1' l2' r', sweep_block call_finalize (b - 8) (Hd_val m1 b) (set_gc_sweep_hp (block_end m1 b) r) = Ok tt r' /\
    sweep_rest r' = sweep_rest r /\ sweeping l1' l2' r' /\ block_end m1 b <= gc_sweep_hp (mjr r').
Proof.
  intros [W [Hc El] [Hrange _] Hph] Hb He Hw. unfold sweep_block. unfold color in Hw. rewrite Hw, Z.eqb_refl.
  assert (Eval : Val_hp (b - 8) = b) by (unfold Val_hp, sizeof_value; lia). unfold Bp_hp. rewrite Eval.
  set (r1 := set_gc_sweep_hp (block_end m1 b) r).
  assert (HF : exists m', (if Tag_hd (Hd_val m1 b) =? Custom_tag then
      if negb (Custom_finalize (rmem r1) b =? 0) then call_finalize (Custom_finalize (rmem r1) b) b r1 else Ok tt r1
      else Ok tt r1) = Ok tt (set_rmem m' r1) /\ wfm m' /\ forall a, Kept a -> ld m' a = ld (rmem r) a).
  { destruct (_ =? Custom_tag); [destruct (negb _)|].
    - exact (so_finalize OK _ _ r1 (sw_wf _ _ _ _ W)).
    - exists (rmem r). split; [reflexivity|split; [apply W|done]].
    - exists (rmem r). split; [reflexivity|split; [apply W|done]]. }
  destruct HF as (m' & E & Hwf & HK). cbn zeta.
  rewrite (bind_Ok _ _ _ _ _ E). pose proof (swept_memory _ _ _ _ m' W Hwf HK) as W'.
  destruct (sweep_dead _ _ _ _ b W' Hb He Hw) as (adj & s' & l1' & l2' & Em & W'' & Hbd).
  unfold on_freelist. unfold fl_state in *. cbn [fmem fl_prev fl_last fl_merge fl_cur_size last_fragment] in Em. unfold r1. rsimp. rewrite Em.
  exists l1', l2'. eexists. split; [reflexivity|]. split; [done|]. split; [|rsimp; now apply boundary_le].
  constructor; rsimp; try done. rewrite El. apply (position_boundary _ b); try done. lia.
Qed.

Lemma sweeping_other l1 l2 r b :
  sweeping l1 l2 r -> b ∈ B -> b - 8 = gc_sweep_hp (mjr r) -> color1 b <> Caml_white ->
  exists l1' l2' r', sweep_block call_finalize (b - 8) (Hd_val m1 b) (set_gc_sweep_hp (block_end m1 b) r) = Ok tt r' /\
    sweep_rest r' = sweep_rest r /\ sweeping l1' l2' r' /\ block_end m1 b <= gc_sweep_hp (mjr r').
Proof.
  intros [W [Hc El] [Hrange _] Hph] Hb He Hw. unfold sweep_block. change (Color_hd (Hd_val m1 b)) with (color1 b). rewrite (proj2 (Z.eqb_neq _ _) Hw).
  pose proof (position_block _ b Hc Hb ltac:(lia)) as Hpos.
  destruct (Z.eqb_spec (color1 b) Caml_blue) as [Hbl|Hnb].
  - destruct (sweep_blue _ _ _ _ b W Hb He Hbl) as (l2' & -> & W').
    exists (l1 ++ [b]), l2'. eexists. split; [reflexivity|]. split; [done|]. split; [|rsimp; lia].
    constructor; rsimp; try done; [|now rewrite El].
    assert (Eval : Bp_hp (b - 8) = b) by (unfold Bp_hp, Val_hp, sizeof_value; lia). rewrite Eval. exact W'.
  - assert (Hl : live b).
    { split; [done|]. pose proof (so_gray OK b Hb). destruct (color_cases m1 b) as [|[|[|]]]; done. }
    pose proof (sweep_live _ _ _ _ b W Hl He) as W'.
    exists l1, l2. eexists. split; [reflexivity|]. split; [done|]. split; [|rsimp; lia].
    constructor; rsimp; try done. now rewrite El.
Qed.

Lemma sweep_block_step l1 l2 work smc r :
  sweeping l1 l2 r -> gc_sweep_hp (mjr r) <> limit (mjr r) ->
  exists work' l1' l2' r', sweep_step call_finalize work smc r = Ok (work', smc) r' /\ sweep_rest r' = sweep_rest r /\
    sweeping l1' l2' r' /\ (unwalked m1 B cl (gc_sweep_hp (mjr r')) < unwalked m1 B cl (gc_sweep_hp (mjr r)))%nat.
Proof.
  intros S1 Hne. pose proof S1 as [W [Hc El] [Hrange Hat] Hph]. destruct Hat as [|Hb]; [done|].
  set (hp := gc_sweep_hp (mjr r)) in *. set (b := hp + 8) in *. assert (Ehp : hp = b - 8) by (unfold b; lia).
  pose proof (chunk_low _ Hc) as [Hc33 _].
  assert (Eh : Hd_hp (rmem r) hp = Hd_val m1 b).
  { rewrite Ehp. change (Hd_hp (rmem r) (b - 8)) with (Hd_val (rmem r) b). apply (unswept_header _ _ _ _ b W Hb). lia. }
  assert (Enext : hp + Bhsize_hd (Hd_val m1 b) = block_end m1 b).
  { unfold Bhsize_hd, Whsize_hd, Bsize_wsize, sizeof_value, block_end, Wosize_val, Whsize_wosize. lia. }
  unfold sweep_step. rewrite (proj2 (Z.ltb_lt _ _)) by lia. cbn zeta. fold hp. rewrite Eh, Enext, Ehp.
  assert (HS : exists l1' l2' r', sweep_block call_finalize (b - 8) (Hd_val m1 b) (set_gc_sweep_hp (block_end m1 b) r) = Ok tt r' /\
    sweep_rest r' = sweep_rest r /\ sweeping l1' l2' r' /\ block_end m1 b <= gc_sweep_hp (mjr r')).
  { destruct (decide (color1 b = Caml_white)); [now apply (sweeping_white l1 l2)|now apply (sweeping_other l1 l2)]. }
  destruct HS as (l1' & l2' & r' & E & Hr & S2 & Hle). rewrite (bind_Ok _ _ _ _ _ E).
  exists (work - Whsize_hd (Hd_val m1 b)), l1', l2', r'. splits; try done. pose proof (block_end_low b).
  apply unwalked_lt; [lia|]. left. exists b. split; [done|]. lia.
Qed.

(** A turn ends the sweeping, or leaves less of the heap to sweep. *)
Lemma sweep_step_spec l1 l2 work smc r :
  sweeping l1 l2 r ->
  exists work' smc' r', sweep_step call_finalize work smc r = Ok (work', smc') r' /\ sweep_rest r' = sweep_rest r /\
    ((exists l1' l2', smc' = smc /\ sweeping l1' l2' r' /\
       (unwalked m1 B cl (gc_sweep_hp (mjr r')) < unwalked m1 B cl (gc_sweep_hp (mjr r)))%nat) \/
     (exists l, work' = 0 /\ smc' = s64 (smc + 1) /\ all_swept l r')).
Proof.
  intros S1. destruct (decide (gc_sweep_hp (mjr r) = limit (mjr r))) as [He|Hne].
  - destruct (sweep_chunk_step l1 l2 work smc r S1 He) as (w & n & r' & E & Hr & [(-> & S2 & Hlt)|(-> & -> & Ha)]);
      eexists _, _, _; (split; [exact E|]); (split; [done|]); [left|right]; eauto.
  - destruct (sweep_block_step l1 l2 work smc r S1 Hne) as (w & l1' & l2' & r' & E & Hr & S2 & Hlt).
    eexists _, _, _. split; [exact E|]. split; [done|]. left. eauto.
Qed.

(** A slice ends. *)
Lemma sweep_slice_spec fuel : forall l1 l2 work smc r,
  sweeping l1 l2 r -> (unwalked m1 B cl (gc_sweep_hp (mjr r)) + 1 < fuel)%nat ->
  exists smc' r', sweep_slice call_finalize fuel work smc r = Ok smc' r' /\ sweep_rest r' = sweep_rest r /\
    ((exists l1' l2', smc' = smc /\ sweeping l1' l2' r' /\
       (unwalked m1 B cl (gc_sweep_hp (mjr r')) <= unwalked m1 B cl (gc_sweep_hp (mjr r)))%nat /\
       (0 < work -> (unwalked m1 B cl (gc_sweep_hp (mjr r')) < unwalked m1 B cl (gc_sweep_hp (mjr r)))%nat)) \/
     (exists l, smc' = s64 (smc + 1) /\ all_swept l r')).
Proof.
  induction fuel as [|fuel IH]; intros l1 l2 work smc r S1 Hf; [lia|]. cbn [sweep_slice].
  destruct (Z.ltb_spec 0 work) as [Hw|Hw].
  2: { exists smc, r. splits; try done. left. exists l1, l2. splits; try done. lia. }
  destruct (sweep_step_spec l1 l2 work smc r S1) as (w & n & r' & E & Hr & Hcase). rewrite (bind_Ok _ _ _ _ _ E).
  destruct Hcase as [(l1' & l2' & -> & S2 & Hlt)|(l & -> & -> & Ha)].
  - destruct (IH l1' l2' w smc r' S2 ltac:(lia)) as (n2 & r2 & E2 & Hr2 & Hcase). exists n2, r2. split; [exact E2|].
    split; [congruence|]. destruct Hcase as [(k1 & k2 & -> & S3 & Hle & _)|]; [|now right].
    left. exists k1, k2. splits; try done; lia.
  - destruct fuel as [|fuel]; [lia|]. exists (s64 (smc + 1)), r'. split; [done|]. split; [done|]. right. eauto.
Qed.

(** Every slice of the loop sweeps something. *)
Lemma sweep_loop_spec slice_fuel fuel : forall l1 l2 smc r,
  sweeping l1 l2 r -> (unwalked m1 B cl (gc_sweep_hp (mjr r)) + 1 < slice_fuel)%nat ->
  (unwalked m1 B cl (gc_sweep_hp (mjr r)) + 1 < fuel)%nat ->
  exists l r', sweep_loop call_finalize slice_fuel fuel smc r = Ok (s64 (smc + 1)) r' /\ sweep_rest r' = sweep_rest r /\ all_swept l r'.
Proof.
  induction fuel as [|fuel IH]; intros l1 l2 smc r S1 Hsf Hf; [lia|]. cbn [sweep_loop].
  rewrite (sp_phase _ _ _ S1), Z.eqb_refl.
  destruct (sweep_slice_spec slice_fuel l1 l2 (B63 - 1) smc r S1 Hsf) as (n & r' & E & Hr & Hcase). rewrite (bind_Ok _ _ _ _ _ E).
  destruct Hcase as [(k1 & k2 & -> & S2 & _ & Hlt)|(l & -> & Ha)].
  - specialize (Hlt ltac:(now vm_compute)). destruct (IH k1 k2 smc r' S2 ltac:(lia) ltac:(lia)) as (l & r2 & E2 & Hr2 & Ha).
    exists l, r2. splits; try done. congruence.
  - destruct fuel as [|fuel]; [lia|]. exists l, r'. cbn [sweep_loop]. rewrite (as_phase _ _ Ha). done.
Qed.
End Sweeping.
