(* ===== verification/Cycle.v ===== *)
(** * A cycle of the major collector

    [finish_major_cycle] of [byterun/major_gc.c] from an idle collector: the roots are
    darkened, the heap is marked, then swept.  The blocks reached from the roots or
    from a value to finalise are kept as they were, and the words of all the others
    are in the free list. *)

From S2P Require Import Runtime Freelist Memory Fail Heap GlobRoots Finalise Roots Major MarkPhase MarkSlice Sweep.

(** ** Between the phases *)

(** A header is its size, its colour and its tag. *)
Lemma header_ext h h' : isu64 h -> isu64 h' -> Wosize_hd h = Wosize_hd h' -> Color_hd h = Color_hd h' -> Tag_hd h = Tag_hd h' -> h = h'.
Proof.
  intros Hh Hh' Hw Hc Ht. apply Z.bits_inj'. intros i Hi.
  destruct (Z.lt_ge_cases i 8) as [H8|H8]; [|destruct (Z.lt_ge_cases i 10) as [H10|H10]].
  - assert (E : Z.testbit (Tag_hd h) i = Z.testbit (Tag_hd h') i) by now rewrite Ht.
    unfold Tag_hd in E. change 255 with (Z.ones 8) in E. now rewrite !Z.land_spec, Z.ones_spec_low, !andb_true_r in E by lia.
  - assert (E : Z.testbit (Color_hd h) i = Z.testbit (Color_hd h') i) by now rewrite Hc.
    unfold Color_hd in E. rewrite !Z.land_spec in E. assert (i = 8 \/ i = 9) as [->| ->] by lia;
      change (Z.testbit Caml_black 8) with true in E; change (Z.testbit Caml_black 9) with true in E; now rewrite !andb_true_r in E.
  - assert (E : Z.testbit (Wosize_hd h) (i - 10) = Z.testbit (Wosize_hd h') (i - 10)) by now rewrite Hw.
    unfold Wosize_hd in E. rewrite !Z.shiftr_spec in E by lia. now replace (i - 10 + 10) with i in E by lia.
Qed.

(** The chunks and the blocks are where they were. *)
Lemma geometry_after m0 B hs cl heap X R s w m :
  heap_graph m0 B hs cl heap X -> mem_inv m0 B heap X R s w m ->
  heap_graph m B hs cl (fun _ => false) (fun _ => False) /\ (forall b, b ∈ B -> block_end m b = block_end m0 b) /\
  (forall c, c ∈ cl -> chunk_end m c = chunk_end m0 c).
Proof.
  intros G M.
  assert (Hbe : forall b, b ∈ B -> block_end m b = block_end m0 b).
  { intros b Hb. unfold block_end. now rewrite (proj1 (mk_size _ _ _ _ _ _ _ _ M b Hb)). }
  assert (Hch : forall c, c ∈ cl -> Chunk_next m c = Chunk_next m0 c /\ Chunk_size m c = Chunk_size m0 c).
  { intros c. apply (chunk_heads m0 B hs cl heap X R G s w m c M). }
  assert (Hce : forall c, c ∈ cl -> chunk_end m c = chunk_end m0 c) by (intros c Hc; unfold chunk_end; now rewrite (proj2 (Hch c Hc))).
  split; [|done]. destruct G as [H1 H2 H3 H4 H5 H6 H7 H8 H9 H10 H11 H12]. constructor; try done.
  - apply M.
  - intros b Hb. rewrite (proj2 (mk_size _ _ _ _ _ _ _ _ M b Hb)). now apply H2.
  - intros b b' Hb Hb' Hne. rewrite !Hbe by done. now apply H3.
  - intros b Hb Ht. destruct (mk_size _ _ _ _ _ _ _ _ M b Hb) as [-> Et]. rewrite Et in Ht. now apply H4.
  - intros b Hb. destruct (H6 b Hb) as (c & Hc & E1 & E2 & E3). exists c. rewrite Hbe, Hce by done. done.
  - intros c a Hc Ha. split; [tauto|]. intros b Hb. unfold in_block. rewrite Hbe by done. now apply (H8 c a Hc Ha).
  - clear - H10 Hch. revert hs H10. induction cl as [|c l IH]; intros p Hp; [done|]. destruct Hp as [-> Hp]. split; [done|].
    rewrite (proj1 (Hch c ltac:(left))). apply IH; [|done]. intros d Hd. apply Hch. now right.
  - clear - H11 Hch. revert H11. generalize 1 as lo. induction cl as [|c l IH]; intros lo Hs; [done|]. destruct Hs as (E1 & E2 & E3).
    destruct (Hch c ltac:(left)) as [_ Es]. split; [done|]. split; [unfold chunk_ok in *; now rewrite Es|].
    unfold chunk_end. rewrite Es. apply IH; [|done]. intros d Hd. apply Hch. now right.
Qed.

(** Behind the pointers of a reached block there are reached blocks. *)
Lemma follows_reached m0 B hs cl heap X R x y :
  heap_graph m0 B hs cl heap X -> follows m0 heap x y -> heap_pointer m0 B heap x ->
  (Is_block x = true -> heap x = true -> reached m0 B heap R (target m0 x)) ->
  Is_block y = true -> heap y = true -> reached m0 B heap R (target m0 y).
Proof.
  intros G. induction 1 as [|x y Hb Hh Ht Hf IH]; [auto|]. intros Hp Hr.
  destruct (Hp Hb Hh) as (H1 & H2 & [[_ Hx]|[Hi _]]); [|rewrite Hi in Ht; done].
  assert (Et : target m0 x = x) by (unfold target, darken_target; rewrite Ht; done). rewrite Et in *.
  assert (Hf0 : block_field m0 B x 0) by (split; [done|now apply (hg_forward _ _ _ _ _ _ G)]).
  assert (Hsc : Tag_val m0 x < No_scan_tag) by (rewrite Ht; done).
  apply IH; [now apply (hg_fields _ _ _ _ _ _ G)|]. intros Hb' Hh'. apply (reached_edge _ _ _ _ x 0); [auto|].
  unfold edge. splits; try done; apply Hf0.
Qed.

Section Cycle.
(** The state before the cycle, the blocks and the chunks, the words of the weak
    arrays and of the table of finalisers, the sentinel of the free list, the list of
    weak arrays, the roots with the slots they are in, and the free blocks. *)
Context (r0 : runtime) (B : gset Z) (cl : list Z) (Xw Xf : Z -> Prop).
Context (Fl_head weak_list_head : Z) (arrays : list Z) (roots : root_set) (depth root_fuel : nat) (ws slots free : list Z).

Abbreviation m0 := (rmem r0).
Abbreviation hs := (heap_start (mjr r0)).
Abbreviation t0 := (finalisers roots).
Definition in_heap (p : Z) : bool := Is_in_heap (mjr r0) p.

Definition root_val (x : Z) : Prop := x = global_data (glb r0) \/ exists a, a ∈ slots /\ x = ld m0 a.
(** A block a root leads to. *)
Definition root_block (b : Z) : Prop :=
  exists x, root_val x /\ Is_block x = true /\ in_heap x = true /\ b = target m0 x.

(** An idle collector. *)
Record cycle_start : Prop := {
  cs_cycle : cycle_ok m0 B hs cl in_heap Xw Xf root_block weak_list_head arrays t0 depth;
  cs_slots : all_slots m0 r0 root_fuel roots = Some (ws, slots);
  cs_outside a b : a ∈ ws \/ a ∈ slots -> b ∈ B -> ~ in_block m0 b a;
  cs_values x : root_val x -> heap_pointer m0 B in_heap x;
  cs_colors b : b ∈ B -> color m0 b = Caml_white \/ color m0 b = Caml_blue;
  cs_phase : gc_phase (mjr r0) = Phase_idle;
  cs_stack : gray_vals (mjr r0) = [] /\ markhp (mjr r0) = 0 /\ gray_vals_ok r0 /\ 2 <= gray_vals_size (mjr r0)
}.
Context (CS : cycle_start).

Abbreviation R := (R m0 root_block t0 depth).
Abbreviation reached := (reached m0 B in_heap R).
Abbreviation none := (fun _ : Z => False).
Abbreviation marking_phase := (marking_phase m0 B hs cl in_heap Xw Xf root_block weak_list_head arrays t0 depth).
Abbreviation marked := (marked m0 B hs in_heap Xw Xf root_block Fl_head weak_list_head t0 depth).

Lemma mem_start : mem_inv m0 B in_heap none R None None m0.
Proof.
  pose proof (cy_graph _ _ _ _ _ _ _ _ _ _ _ _ (cs_cycle CS)) as G. constructor; try done.
  - apply (hg_wf _ _ _ _ _ _ G).
  - intros b i Hf Ht. apply follows_refl.
  - intros b i c He Hb. destruct He as ((HbB & _) & _). destruct (cs_colors CS b HbB) as [E|E]; rewrite E in Hb; done.
  - intros b Hb Hw Hbl. destruct (cs_colors CS b Hb) as [E|E]; done.
Qed.

Lemma marking_start : marking m0 B hs cl in_heap none R None None r0.
Proof.
  destruct (cs_stack CS) as (Hg & Hmk & Hok & Hsz). constructor; try done.
  - apply mem_start.
  - rewrite Hg. now intros v Hv%elem_of_nil.
  - rewrite Hg. constructor.
  - intros b _ Hb Hgr. destruct (cs_colors CS b Hb) as [E|E]; rewrite E in Hgr; done.
  - now left.
Qed.

Lemma root_reached x : root_val x -> root_value m0 B in_heap R x.
Proof.
  intros Hx. split; [now apply (cs_values CS)|]. intros Hb Hh. apply reached_root. left. now exists x.
Qed.

(** The roots are darkened, and the marking begins. *)
Lemma start_cycle_spec :
  exists r1, start_cycle root_fuel roots r0 = Ok tt r1 /\ in_main m0 B hs cl in_heap root_block t0 depth r1 r1 /\
    core r1 = set_gc_subphase Subphase_main (set_gc_phase Phase_mark (core r0)).
Proof.
  pose proof (graph_none _ _ _ _ _ _ _ _ _ _ _ _ (cs_cycle CS)) as G.
  destruct (darken_all_roots_spec m0 B hs cl in_heap none R G r0 (root_reached _ (or_introl eq_refl)) root_fuel roots ws slots (cs_slots CS))
    as (r1 & E & M & Esk & Hg & HS).
  - intros a Ha. split; [tauto|]. intros b Hb. apply (cs_outside CS); auto.
  - intros a Ha. split; [split; [tauto|]|]; [intros b Hb; apply (cs_outside CS); auto|]. apply root_reached. right. eauto.
  - apply marking_start.
  - unfold start_cycle. rewrite (bind_Ok _ _ _ _ _ E). eexists. split; [reflexivity|]. split.
    + constructor; rsimp; try done.
      * destruct M as [H1 H2 H3 H4 H5 H6 H7 H8]. constructor; rsimp; try done; [|now left].
        intros b Hp Hb Hgr. destruct (H7 b Hp Hb Hgr) as [|[Hhp _]]; [now left|].
        destruct (skel_inv _ _ Esk) as (_ & Emp & _). destruct (cs_stack CS) as (_ & Hmk & _). congruence.
      * intros b (x & Hx & Hb & Hh & ->). destruct Hx as [->|(a & Ha & ->)]; [now apply Hg|]. now apply HS.
    + unfold core. change (skel (set_markhp 0 ?r)) with (set_markhp 0 (skel r)).
      change (skel (set_gc_subphase Subphase_main (set_gc_phase Phase_mark r1))) with (set_gc_subphase Subphase_main (set_gc_phase Phase_mark (skel r1))).
      now rewrite Esk.
Qed.

(** While marking, the phase is [Phase_mark] and the registers of the free list do not change. *)
Lemma marking_phase_rest r1 k t r : marking_phase r1 k t r -> rest r = rest r1.
Proof. intros [r2 H|done todo r2 H|done t2 r2 H]; apply H. Qed.

(** The slices of the mark phase end. *)
Lemma mark_loop_spec r1 slice_fuel fuel : forall k t r,
  marking_phase r1 k t r -> gc_phase (mjr r1) = Phase_mark -> (k + chain_fuel t0 depth + 1 < slice_fuel)%nat -> (k + 1 < fuel)%nat ->
  exists t' r', mark_loop Fl_head weak_list_head slice_fuel fuel t r = Ok t' r' /\ marked r1 r'.
Proof.
  induction fuel as [|fuel IH]; intros k t r Hp Hph Hsf Hf; [lia|]. cbn [mark_loop].
  assert (Er : gc_phase (mjr r) = Phase_mark).
  { rewrite <- Hph. change (gc_phase (mjr r)) with (gc_phase (mjr (rest r))). now rewrite (marking_phase_rest _ _ _ _ Hp). }
  rewrite Er, Z.eqb_refl.
  destruct (mark_slice_phase _ _ _ _ _ _ _ _ Fl_head _ _ _ _ (cs_cycle CS) r1 slice_fuel k (B63 - 1) t r Hp Hsf) as (t2 & r2 & E & Hcase).
  rewrite (bind_Ok _ _ _ _ _ E). destruct Hcase as [Hm|(k2 & Hp2 & _ & Hlt)].
  - exists t2, r2. destruct fuel as [|fuel]; [lia|]. cbn [mark_loop]. rewrite (md_phase _ _ _ _ _ _ _ _ _ _ _ _ _ Hm). done.
  - specialize (Hlt ltac:(now vm_compute)). apply (IH k2); try done; lia.
Qed.

(** The bound on the turns of the mark phase. *)
Definition mark_bound : nat := 2 * most_turns B cl + length arrays + chain_fuel t0 depth + 6.

Lemma mark_phase_spec slice_fuel fuel :
  (mark_bound <= slice_fuel)%nat -> (mark_bound <= fuel)%nat ->
  exists r1 t' r', start_cycle root_fuel roots r0 = Ok tt r1 /\ core r1 = set_gc_subphase Subphase_main (set_gc_phase Phase_mark (core r0)) /\
    mark_loop Fl_head weak_list_head slice_fuel fuel t0 r1 = Ok t' r' /\ marked r1 r'.
Proof.
  unfold mark_bound. intros Hsf Hf. destruct start_cycle_spec as (r1 & E1 & Hm & Ec).
  pose proof (turns_bound m0 B hs cl root_block t0 depth r1) as Hb.
  destruct (mark_loop_spec r1 slice_fuel fuel _ t0 r1 (phase_main _ _ _ _ _ Xw Xf _ weak_list_head arrays _ _ _ _ Hm)) as (t' & r' & E2 & Hk); try lia.
  { change (gc_phase (mjr r1)) with (gc_phase (mjr (core r1))). now rewrite Ec. }
  exists r1, t', r'. done.
Qed.

(** ** From marking to sweeping *)

Context (call_finalize : Z -> Z -> M unit) (Kept : Z -> Prop).

(** The free list, and the words that no finaliser of a custom block writes. *)
Record cycle_heap : Prop := {
  ch_free : fl_inv Fl_head (fl_state r0) free;
  ch_blue c : c ∈ free <-> c ∈ B /\ color m0 c = Caml_blue;
  ch_free_words b a : b ∈ B -> color m0 b = Caml_blue -> in_block m0 b a -> ~ Xw a /\ ~ Xf a;
  ch_sentinel : Wosize_val m0 Fl_head = 0 /\ forall a, a = Fl_head \/ a = Fl_head - 8 -> ~ Xw a /\ ~ Xf a;
  ch_end c : c ∈ cl -> chunk_end m0 c <= 2 ^ 56;
  ch_apart c : c ∈ cl -> Fl_head + 16 <= c - 32 \/ chunk_end m0 c <= Fl_head - 16;
  ch_kept a : heap_word m0 cl a \/ a = Fl_head \/ a = Fl_head - 8 \/ a = weak_list_head -> Kept a;
  ch_finalize f v r : wfm (rmem r) -> exists m', call_finalize f v r = Ok tt (set_rmem m' r) /\ wfm m' /\
    forall a, Kept a -> ld m' a = ld (rmem r) a
}.
Context (CH : cycle_heap).

Abbreviation G := (cy_graph _ _ _ _ _ _ _ _ _ _ _ _ (cs_cycle CS)).
Abbreviation XX := (X Xw Xf).

Lemma geometry r1 r2 : marked r1 r2 ->
  heap_graph (rmem r2) B hs cl (fun _ => false) (fun _ => False) /\ (forall b, b ∈ B -> block_end (rmem r2) b = block_end m0 b) /\
  (forall c, c ∈ cl -> chunk_end (rmem r2) c = chunk_end m0 c).
Proof. intros Hm. exact (geometry_after _ _ _ _ _ _ _ _ _ _ G (md_mem _ _ _ _ _ _ _ _ _ _ _ _ _ Hm)). Qed.

(** The marking does not touch the free blocks, nor the sentinel. *)
Lemma free_header r1 r2 b : marked r1 r2 -> b ∈ B -> color m0 b = Caml_blue -> Hd_val (rmem r2) b = Hd_val m0 b.
Proof.
  intros Hm Hb Hc. pose proof (md_mem _ _ _ _ _ _ _ _ _ _ _ _ _ Hm) as M. destruct (mk_size _ _ _ _ _ _ _ _ M b Hb) as [E1 E2].
  apply header_ext; try done; [apply (mk_wf _ _ _ _ _ _ _ _ M)|apply (hg_wf _ _ _ _ _ _ G)|].
  change (color (rmem r2) b = color m0 b). rewrite Hc. now apply (mk_blue _ _ _ _ _ _ _ _ M).
Qed.
Lemma free_link r1 r2 b : marked r1 r2 -> b ∈ free -> Next (rmem r2) b = Next m0 b.
Proof.
  intros Hm Hf. destruct (proj1 (ch_blue CH b) Hf) as [Hb Hc]. pose proof (md_mem _ _ _ _ _ _ _ _ _ _ _ _ _ Hm) as M.
  assert (Hw : 1 <= Wosize_val m0 b).
  { pose proof (ch_free CH) as ((_ & Hbl & _) & _). destruct (blocks_elem _ _ _ b Hbl Hf) as [_ [[Hw _] _]]. exact Hw. }
  assert (Hin : in_block m0 b b) by (unfold in_block, block_end; lia).
  destruct (Z.lt_ge_cases (Tag_val m0 b) No_scan_tag) as [Ht|Ht].
  - assert (Hbf : block_field m0 B b 0) by (split; [done|lia]).
    assert (Hnb : color (rmem r2) b <> Caml_black) by (rewrite (proj2 (mk_blue _ _ _ _ _ _ _ _ M b Hb) Hc); done).
    pose proof (mk_white_field _ _ _ _ _ _ _ _ M b 0 Hbf Ht (or_introl Hnb)) as E. rewrite !Field_ld in E.
    unfold Next. now replace (b + 8 * 0) with b in E by lia.
  - apply (mk_frame _ _ _ _ _ _ _ _ M).
    + intros [H|H]; destruct (ch_free_words CH b b Hb Hc Hin); tauto.
    + intros b' Hb' Hin'. rewrite (in_block_inj _ _ _ _ _ _ G b' b b Hb' Hb Hin' Hin). split; [lia|lia].
Qed.
Lemma no_block_head b a : b ∈ B -> a = Fl_head \/ a = Fl_head - 8 -> ~ in_block m0 b a.
Proof.
  intros Hb Ha Hin. destruct (hg_chunk _ _ _ _ _ _ G b Hb) as (c & Hc & H1 & H2 & _).
  unfold in_block in Hin. destruct (ch_apart CH c Hc); lia.
Qed.
Lemma sentinel_word r1 r2 a : marked r1 r2 -> a = Fl_head \/ a = Fl_head - 8 -> ld (rmem r2) a = ld m0 a.
Proof.
  intros Hm Ha. apply (mk_frame _ _ _ _ _ _ _ _ (md_mem _ _ _ _ _ _ _ _ _ _ _ _ _ Hm)).
  - intros [H|H]; destruct (proj2 (ch_sentinel CH) a Ha); tauto.
  - intros b Hb Hin. now destruct (no_block_head b a Hb Ha).
Qed.

(** The state the sweeping begins with. *)
Lemma free_start : sweep_inv Fl_head (MkFl m0 (fl_prev (frl r0)) (fl_last (frl r0)) Fl_head (fl_cur_size (frl r0)) 0) [] free hs.
Proof.
  pose proof (ch_free CH) as (H1 & H2 & H3 & H4 & H5). destruct (heap_first _ _ _ _ _ _ G) as (_ & Hpos & Hall).
  unfold sweep_inv, fl_inv. cbn [fmem fl_prev fl_merge fl_cur_size last_fragment app]. splits; try done; try lia.
  - left.
  - now intros c Hc%elem_of_nil.
  - intros c Hc. destruct (proj1 (ch_blue CH c) Hc) as [Hb _]. now apply Hall.
  - intros c Hc. destruct (proj1 (ch_blue CH c) Hc) as [Hb _]. destruct (hg_chunk _ _ _ _ _ _ G c Hb) as (d & Hd & _ & Hle & _).
    pose proof (ch_end CH d Hd). lia.
  - apply (ch_sentinel CH).
Qed.

Lemma sweep_start r1 r2 :
  marked r1 r2 -> frl r1 = frl r0 ->
  sweep_ok Fl_head call_finalize (rmem r2) B hs cl Kept /\ sweeping Fl_head (rmem r2) B cl Kept [] free r2.
Proof.
  intros Hm Ef. destruct (geometry r1 r2 Hm) as (G2 & Hbe & Hce). pose proof (md_mem _ _ _ _ _ _ _ _ _ _ _ _ _ Hm) as M.
  destruct (heap_first _ _ _ _ _ _ G) as (Hin & Hpos & Hall).
  assert (Hhw : forall a, heap_word (rmem r2) cl a -> heap_word m0 cl a) by (intros a (c & Hc & Ha); exists c; rewrite <- Hce; done).
  assert (OK : sweep_ok Fl_head call_finalize (rmem r2) B hs cl Kept).
  { constructor; try done.
    - intros c Hc. rewrite Hce by done. now apply (ch_end CH).
    - intros c Hc. rewrite Hce by done. now apply (ch_apart CH).
    - apply (md_gray _ _ _ _ _ _ _ _ _ _ _ _ _ Hm).
    - intros a Ha. apply (ch_kept CH). auto.
    - split; apply (ch_kept CH); auto.
    - apply CH. }
  split; [done|]. destruct (md_sweep _ _ _ _ _ _ _ _ _ _ _ _ _ Hm) as (E1 & E2 & E3).
  destruct (md_free _ _ _ _ _ _ _ _ _ _ _ _ _ Hm) as (F1 & F2 & F3 & F4 & F5).
  constructor; rewrite ?E1, ?E2, ?E3, ?Hce by done; try done; [|pose proof (chunk_low _ _ _ _ _ _ _ OK hs Hin) as Hl; rewrite Hce in Hl by done; split; [lia|right; now apply (hg_first _ _ _ _ _ _ G)]|apply (md_phase _ _ _ _ _ _ _ _ _ _ _ _ _ Hm)].
  constructor.
  - apply M.
  - pose proof (sweep_inv_ext Fl_head _ (rmem r2) _ _ _ free_start) as Hx. unfold fl_state.
    rewrite F1, F2, F3, F4, F5, Ef. apply Hx; cbn [fmem app].
    + intros b [->|Hb]%elem_of_cons; [apply (sentinel_word r1); auto|now apply (free_link r1)].
    + intros b Hb. destruct (proj1 (ch_blue CH b) Hb). now apply (free_header r1).
    + rewrite !Hd_val_ld. apply (sentinel_word r1); auto.
  - done.
  - done.
  - intros b [Hb _] Hlt. specialize (Hall b Hb). lia.
  - intros c. rewrite (ch_blue CH c). split; intros Hc.
    + destruct Hc as [Hb Hc]. splits; [done|now apply (mk_blue _ _ _ _ _ _ _ _ M)|now apply Hall].
    + destruct Hc as (Hb & Hc & _). split; [done|now apply (mk_blue _ _ _ _ _ _ _ _ M)].
  - now intros c a Hc%elem_of_nil.
  - intros b a [Hb _] Hlt. specialize (Hall b Hb). lia.
  - cbn [fl_state last_fragment]. rewrite F2. lia.
Qed.

(** ** After the cycle *)

(** The pointer [x] leads to a block that is kept. *)
Definition leads_to_kept (x : Z) : Prop := Is_block x = true -> in_heap x = true -> reached (target m0 x).

Record collected (l' : list Z) (r' : runtime) : Prop := {
  co_phase : gc_phase (mjr r') = Phase_idle;
  co_header b : reached b -> Hd_val (rmem r') b = Hd_val m0 b;
  co_field b i : reached b -> Tag_val m0 b < No_scan_tag -> 0 <= i < Wosize_val m0 b ->
    follows m0 in_heap (Field m0 b i) (Field (rmem r') b i) /\ leads_to_kept (Field (rmem r') b i);
  co_data b a : reached b -> No_scan_tag <= Tag_val m0 b -> b <= a < block_end m0 b -> ~ Xw a -> ~ Xf a -> ld (rmem r') a = ld m0 a;
  co_weak : exists done, path (rmem r') weak_list_head done 0 /\ forall c, c ∈ done -> reached c /\
    forall i, 1 <= i < Wosize_val m0 c -> Tag_val m0 (Field (rmem r') c i) <> Infix_tag -> leads_to_kept (Field (rmem r') c i);
  co_out a : Kept a -> ~ Xw a -> ~ Xf a -> a <> Fl_head -> a <> Fl_head - 8 -> (forall b, b ∈ B -> ~ in_block m0 b a) -> ld (rmem r') a = ld m0 a;
  co_free : fl_inv Fl_head (fl_state r') l';
  co_list c a : c ∈ l' -> c - 8 <= a < block_end (rmem r') c -> exists b, b ∈ B /\ ~ reached b /\ in_block m0 b a;
  co_dead b a : b ∈ B -> ~ reached b -> in_block m0 b a ->
    Wosize_val m0 b = 0 \/ exists c, c ∈ l' /\ c - 8 <= a < block_end (rmem r') c
}.

Lemma reached_in b : reached b -> b ∈ B /\ color m0 b <> Caml_blue.
Proof. apply (reached_block _ _ _ _ _ _ _ G). apply (R_block _ _ _ _ _ _ _ _ _ _ _ _ (cs_cycle CS)). Qed.

Lemma live_reached r1 r2 b : marked r1 r2 -> live (rmem r2) B b <-> reached b.
Proof.
  intros Hm. unfold live. split.
  - intros [Hb Hc]. now apply (md_black _ _ _ _ _ _ _ _ _ _ _ _ _ Hm).
  - intros Hr. destruct (reached_in b Hr) as [Hb _]. split; [done|]. now apply (md_black _ _ _ _ _ _ _ _ _ _ _ _ _ Hm).
Qed.
Lemma dead_reached r1 r2 b : marked r1 r2 -> dead (rmem r2) B b <-> b ∈ B /\ ~ reached b.
Proof.
  intros Hm. unfold dead. split; intros [Hb Hc]; (split; [done|]); intros H; apply Hc; [now apply (live_reached r1 r2)|].
  now apply (live_reached r1 r2 b Hm).
Qed.

Lemma reached_header r1 r2 b : marked r1 r2 -> reached b -> Whitehd_hd (Hd_val (rmem r2) b) = Hd_val m0 b.
Proof.
  intros Hm Hr. destruct (reached_in b Hr) as [Hb Hnb]. pose proof (md_mem _ _ _ _ _ _ _ _ _ _ _ _ _ Hm) as M.
  destruct (mk_size _ _ _ _ _ _ _ _ M b Hb) as [E1 E2]. pose proof (mk_wf _ _ _ _ _ _ _ _ M (Hp_val b) : isu64 (Hd_val (rmem r2) b)) as Hu.
  apply header_ext; [now apply land_range|apply (hg_wf _ _ _ _ _ _ G)|now rewrite Wosize_Whitehd| |now rewrite Tag_Whitehd].
  rewrite Color_Whitehd. destruct (cs_colors CS b Hb); done.
Qed.

(** A weak array that is still in the list, and what it holds. *)
Lemma clean_leads r1 r2 x : marked r1 r2 -> heap_pointer m0 B in_heap x -> clean m0 in_heap (rmem r2) x ->
  Tag_val m0 x <> Infix_tag -> leads_to_kept x.
Proof.
  intros Hm Hx Hcl Hti Hb Hh. destruct (Hcl Hb Hh) as [_ Hw]. destruct (Hx Hb Hh) as (H1 & H2 & [[_ HxB]|(Hi & _)]); [|done].
  assert (Et : target m0 x = x) by (unfold target, darken_target; now rewrite (proj2 (Z.eqb_neq _ _) Hti)). rewrite Et in *.
  apply (md_black _ _ _ _ _ _ _ _ _ _ _ _ _ Hm x H1). pose proof (md_gray _ _ _ _ _ _ _ _ _ _ _ _ _ Hm x H1).
  pose proof (mk_blue _ _ _ _ _ _ _ _ (md_mem _ _ _ _ _ _ _ _ _ _ _ _ _ Hm) x H1) as Hbl.
  destruct (color_cases (rmem r2) x) as [E|[E|[E|E]]]; try tauto.
  exfalso. apply (proj2 (white_hd _ _)) in E. unfold Is_white_val in Hw. congruence.
Qed.

Lemma weak_kept r1 r2 done c :
  marked r1 r2 -> weak_state m0 B in_heap Xw weak_list_head depth done [] (rmem r2) -> c ∈ done -> reached c.
Proof.
  intros Hm W Hc. destruct (wk_array _ _ _ _ _ _ _ _ _ W c ltac:(apply elem_of_app; now left)) as (Hb & Ht & Hw & HX).
  destruct (wk_done _ _ _ _ _ _ _ _ _ W c Hc) as [_ Hcol]. apply (md_black _ _ _ _ _ _ _ _ _ _ _ _ _ Hm c Hb).
  pose proof (md_gray _ _ _ _ _ _ _ _ _ _ _ _ _ Hm c Hb). pose proof (mk_blue _ _ _ _ _ _ _ _ (md_mem _ _ _ _ _ _ _ _ _ _ _ _ _ Hm) c Hb) as Hbl.
  destruct (color_cases (rmem r2) c) as [E|[E|[E|E]]]; try tauto. exfalso.
  destruct (ch_free_words CH c (c + 8 * 0) Hb ltac:(tauto)) as [H1 _]; [unfold in_block, block_end; lia|]. apply H1, HX. lia.
Qed.

Lemma collected_after r1 r2 l' r' :
  marked r1 r2 -> all_swept Fl_head (rmem r2) B Kept l' r' -> collected l' r'.
Proof.
  intros Hm A. destruct (geometry r1 r2 Hm) as (G2 & Hbe & Hce). pose proof (md_mem _ _ _ _ _ _ _ _ _ _ _ _ _ Hm) as M.
  assert (Hib : forall b a, b ∈ B -> in_block (rmem r2) b a <-> in_block m0 b a) by (intros b a Hb; unfold in_block; now rewrite Hbe).
  assert (Hword : forall b a, reached b -> b <= a < block_end m0 b -> ld (rmem r') a = ld (rmem r2) a).
  { intros b a Hr Ha. apply (as_live _ _ _ _ _ _ A b); [now apply (live_reached r1 r2)|]. destruct (reached_in b Hr). rewrite Hbe; done. }
  assert (Hfield : forall b i, reached b -> 0 <= i < Wosize_val m0 b -> Field (rmem r') b i = Field (rmem r2) b i).
  { intros b i Hr Hi. rewrite !Field_ld. apply (Hword b); [done|]. unfold block_end. lia. }
  constructor.
  - apply A.
  - intros b Hr. destruct (as_live _ _ _ _ _ _ A b) as [-> _]; [now apply (live_reached r1 r2)|]. now apply (reached_header r1).
  - intros b i Hr Ht Hi. destruct (reached_in b Hr) as [Hb Hnb]. assert (Hbf : block_field m0 B b i) by done.
    rewrite Hfield by done. pose proof (mk_field _ _ _ _ _ _ _ _ M b i Hbf Ht) as Hfol. split; [done|].
    intros Hblk Hh. apply (follows_reached m0 B hs cl in_heap XX R (Field m0 b i)); try done; [apply G|now apply (hg_fields _ _ _ _ _ _ G)|].
    intros Hb' Hh'. now apply (reached_edge _ _ _ _ b i).
  - intros b a Hr Ht Ha H1 H2. rewrite (Hword b) by done. destruct (reached_in b Hr) as [Hb _].
    apply (mk_frame _ _ _ _ _ _ _ _ M); [intros [|]; done|]. intros b' Hb' Hin.
    rewrite (in_block_inj _ _ _ _ _ _ G b' b a Hb' Hb Hin); [split; [done|lia]|unfold in_block; lia].
  - destruct (md_weak _ _ _ _ _ _ _ _ _ _ _ _ _ Hm) as [done W]. exists done. pose proof (weak_kept r1 r2 done) as Hk.
    assert (Hwo : forall c, c ∈ done -> 1 <= Wosize_val m0 c).
    { intros c Hc. now destruct (wk_array _ _ _ _ _ _ _ _ _ W c ltac:(apply elem_of_app; now left)) as (_ & _ & Hw & _). }
    pose proof (wk_path _ _ _ _ _ _ _ _ _ W) as Hp. rewrite app_nil_r in Hp. split.
    + apply (path_ext (rmem r2) _ weak_list_head); [done| |].
      * apply (as_out _ _ _ _ _ _ A). pose proof (cy_head _ _ _ _ _ _ _ _ _ _ _ _ (cs_cycle CS)) as HX. unfold out_word. splits.
        -- apply (ch_kept CH). auto.
        -- intros E. rewrite E in HX. destruct (proj2 (ch_sentinel CH) Fl_head); auto.
        -- intros E. rewrite E in HX. destruct (proj2 (ch_sentinel CH) (Fl_head - 8)); auto.
        -- intros b Hb Hin. apply (cy_head_out _ _ _ _ _ _ _ _ _ _ _ _ (cs_cycle CS) b Hb). now apply Hib.
      * intros c Hc. apply (Hword c); [now apply Hk|]. specialize (Hwo c Hc). unfold block_end. lia.
    + intros c Hc. specialize (Hk c Hm W Hc). split; [done|]. intros i Hi Ht. rewrite Hfield in Ht |- * by (done || lia).
      destruct (wk_done _ _ _ _ _ _ _ _ _ W c Hc) as [Hcl _].
      destruct (wk_ok _ _ _ _ _ _ _ _ _ W c ltac:(apply elem_of_app; now left) i Hi) as [Hx _].
      apply (clean_leads r1 r2); try done. now apply Hcl.
  - intros a HK H1 H2 H3 H4 H5. rewrite (as_out _ _ _ _ _ _ A).
    + apply (mk_frame _ _ _ _ _ _ _ _ M); [intros [|]; done|]. intros b Hb Hin. now destruct (H5 b Hb).
    + unfold out_word. splits; try done. intros b Hb Hin. apply (H5 b Hb). now apply Hib.
  - apply A.
  - intros c a Hc Ha. destruct (as_list _ _ _ _ _ _ A c a Hc Ha) as (b & Hd & Hin). apply (dead_reached r1 r2 b Hm) in Hd as [Hb Hr].
    exists b. splits; try done. now apply Hib.
  - intros b a Hb Hr Hin. destruct (as_dead _ _ _ _ _ _ A b a) as [Hz|Hc]; [now apply (dead_reached r1 r2 b Hm)|now apply Hib| |now right].
    left. now rewrite <- (proj1 (mk_size _ _ _ _ _ _ _ _ M b Hb)).
Qed.

(** The bound on the turns of the cycle. *)
Definition cycle_bound : nat := mark_bound + heap_count B cl + 2.

Lemma major_cycle_spec fuel smc smw :
  fuel = root_fuel -> (cycle_bound <= fuel)%nat ->
  exists t' l' r', finish_major_cycle call_finalize Fl_head weak_list_head fuel roots smc smw r0 =
      Ok (t', s64 (smc + 1), smw + allocated_words (mjr r0)) r' /\ collected l' r' /\ allocated_words (mjr r') = 0.
Proof.
  intros -> Hf. unfold cycle_bound in Hf.
  destruct (mark_phase_spec root_fuel root_fuel ltac:(lia) ltac:(lia)) as (r1 & t' & r2 & E1 & Ec & E2 & Hm).
  assert (Efr : frl r1 = frl r0) by (change (frl r1) with (frl (core r1)); now rewrite Ec).
  destruct (sweep_start r1 r2 Hm Efr) as [OK S2].
  pose proof (unwalked_bound (rmem r2) B hs cl R (gc_sweep_hp (mjr r2))) as Hu. unfold heap_count in Hf.
  destruct (sweep_loop_spec _ _ _ _ _ _ _ OK root_fuel root_fuel [] free smc r2 S2 ltac:(lia) ltac:(lia)) as (l' & r' & E3 & Hrest & A).
  pose proof (collected_after r1 r2 l' r' Hm A) as Hc.
  assert (E0 : (fun r => if gc_phase (mjr r) =? Phase_idle then start_cycle root_fuel roots r else Ok tt r) r0 = Ok tt r1)
    by (cbn beta; now rewrite (cs_phase CS), Z.eqb_refl).
  unfold finish_major_cycle. rewrite (bind_Ok _ _ _ _ _ E0), (bind_Ok _ _ _ _ _ E2), (bind_Ok _ _ _ _ _ E3).
  assert (Ew : allocated_words (mjr r') = allocated_words (mjr r0)).
  { change (allocated_words (mjr r')) with (allocated_words (mjr (sweep_rest r'))). rewrite Hrest.
    change (allocated_words (mjr (sweep_rest r2))) with (allocated_words (mjr r2)). rewrite (md_words _ _ _ _ _ _ _ _ _ _ _ _ _ Hm).
    change (allocated_words (mjr r1)) with (allocated_words (mjr (core r1))). now rewrite Ec. }
  exists t', l', (set_allocated_words 0 r'). rewrite Ew. split; [done|]. split; [|done].
  destruct Hc as [H1 H2 H3 H4 H5 H6 H7 H8 H9]. now constructor.
Qed.
End Cycle.

(** ** A heap to collect

    One chunk of a page.  The root block 8200 points to 8240, which points back, and
    to the weak array 8264, whose pointers are to the dead custom block 8224 and to 8240; the
    value 8296 is to be finalised by the closure 8312; 8328 is a dead block of no words, and the
    free block 8336 takes the rest. *)

Definition cycle_mem : mem :=
  let m := st (st ∅ 256 8336) 248 (Make_header 0 0 Caml_blue) in
  let m := st (st (st m 8176 4096) 8184 0) 512 8264 in
  let m := st (st (st m 8192 (Make_header 2 0 Caml_white)) 8200 8240) 8208 8264 in
  let m := st (st m 8216 (Make_header 1 Custom_tag Caml_white)) 8224 3000 in
  let m := st (st (st m 8232 (Make_header 2 0 Caml_white)) 8240 8200) 8248 (Val_long 5) in
  let m := st (st (st (st m 8256 (Make_header 3 251 Caml_white)) 8264 0) 8272 8224) 8280 8240 in
  let m := st (st m 8288 (Make_header 1 0 Caml_white)) 8296 (Val_long 7) in
  let m := st (st m 8304 (Make_header 1 Closure_tag Caml_white)) 8312 20001 in
  let m := st m 8320 (Make_header 0 0 Caml_white) in
  let m := st (st m 8328 (Make_header 494 0 Caml_blue)) 8336 0 in
  let m := st (st m 1024 8312) 1032 8296 in
  st m 3008 77.

Definition cycle_demo : runtime :=
  MkRuntime cycle_mem (MkStacks 0 0 0 0 0 0 0)
    (MkMinor 8192 16384 24576 24576 16384 [] 1 1 3 1 2 false 0)
    (MkMajor 8192 12288 2 3 {[ 2 := In_heap ]} 0 Phase_idle [] 4 true 100
       4096 4096 1 80 61440 0 0 0 0 0 0)
    (MkGlobals 8200 0 0 0 0 false false false 0 0 0 0 false)
    ∅ 0 ∅ [] (MkFl ∅ 256 0 256 495 0).

(** The finaliser counts its calls at 2048. *)
Definition count_call (f v : Z) : M unit := upd (fun r => set_rmem (st (rmem r) 2048 (u64 (ld (rmem r) 2048 + 1))) r).
Definition cycle_roots : root_set := MkRootSet caml_global_roots (MkFinals 1024 1 1 1 1) [].
Definition cycle_blocks : list Z := [8200; 8224; 8240; 8264; 8296; 8312; 8328; 8336].

Example cycle_demo_run :
  match finish_major_cycle count_call 256 512 400 cycle_roots 3 1000 cycle_demo with
  | Ok (t, smc, smw) r =>
      (smc, smw, fin_old t) = (4, 1100, 0) /\ ld (rmem r) 2048 = 1 /\ map (ld (rmem r)) [512; 8272; 8280] = [8264; 0; 8240] /\
      ld (rmem r) 256 = 8224 /\ ld (rmem r) 8224 = 8328 /\ Wosize_val (rmem r) 8328 = 495
  | _ => False
  end.
Proof. vm_compute. splits; reflexivity. Qed.

Definition cycle_set : gset Z := list_to_set cycle_blocks.
Definition cycle_weak (a : Z) : Prop := a = 512 \/ 8264 <= a < 8288.
Definition cycle_finals (a : Z) : Prop := 1024 <= a < 1040.

Lemma cycle_in b : b ∈ cycle_set <-> b ∈ cycle_blocks.
Proof. apply elem_of_list_to_set. Qed.
(** The blocks, one by one. *)
Ltac each_block H :=
  apply cycle_in in H; unfold cycle_blocks in H;
  repeat (apply elem_of_cons in H as [->|H]); [..|now apply elem_of_nil in H].

Lemma cycle_ends : Forall (fun b => block_end cycle_mem b = match b with
  8200 => 8216 | 8224 => 8232 | 8240 => 8256 | 8264 => 8288 | 8296 => 8304 | 8312 => 8320 | 8328 => 8328 | _ => 12288 end) cycle_blocks.
Proof. repeat constructor. Qed.
Lemma cycle_end b : b ∈ cycle_set -> block_end cycle_mem b = match b with
  8200 => 8216 | 8224 => 8232 | 8240 => 8256 | 8264 => 8288 | 8296 => 8304 | 8312 => 8320 | 8328 => 8328 | _ => 12288 end.
Proof. intros Hb. pose proof cycle_ends as H. rewrite Forall_forall in H. now apply H, cycle_in. Qed.

(** The fields the collector reads. *)
Lemma cycle_fields (P : Z -> Prop) b i : P 8240 -> P 8264 -> P 3000 -> P 8200 -> P (Val_long 5) -> P 0 -> P 8224 -> P (Val_long 7) -> P 20001 ->
  block_field cycle_mem cycle_set b i -> color cycle_mem b <> Caml_blue -> P (Field cycle_mem b i).
Proof.
  intros P1 P2 P3 P4 P5 P6 P7 P8 P9 [Hb Hi] Hc. each_block Hb.
  - change (Wosize_val cycle_mem 8200) with 2 in Hi. assert (i = 0 \/ i = 1) as [->| ->] by lia; assumption.
  - change (Wosize_val cycle_mem 8224) with 1 in Hi. assert (i = 0) as -> by lia; assumption.
  - change (Wosize_val cycle_mem 8240) with 2 in Hi. assert (i = 0 \/ i = 1) as [->| ->] by lia; assumption.
  - change (Wosize_val cycle_mem 8264) with 3 in Hi. assert (i = 0 \/ i = 1 \/ i = 2) as [->|[->| ->]] by lia; assumption.
  - change (Wosize_val cycle_mem 8296) with 1 in Hi. assert (i = 0) as -> by lia; assumption.
  - change (Wosize_val cycle_mem 8312) with 1 in Hi. assert (i = 0) as -> by lia; assumption.
  - change (Wosize_val cycle_mem 8328) with 0 in Hi. lia.
  - now destruct Hc.
Qed.

Abbreviation demo_heap := (in_heap cycle_demo).
Abbreviation demo_pointer := (heap_pointer cycle_mem cycle_set demo_heap).

Lemma cycle_pointer x : x ∈ cycle_blocks -> x <> 8336 -> demo_pointer x.
Proof.
  intros Hx Hne _ _. assert (Hb : x ∈ cycle_set) by now apply cycle_in. pose proof Hb as Hb'. each_block Hb'; try done;
    (split; [exact Hb|]); (split; [vm_compute; discriminate|left; split; [vm_compute; discriminate|exact Hb]]).
Qed.
Lemma cycle_long x : Is_block x && demo_heap x = false -> demo_pointer x.
Proof. intros E Hb Hh. rewrite Hb, Hh in E. done. Qed.

Lemma cycle_graph : heap_graph cycle_mem cycle_set 8192 [8192] demo_heap (X cycle_weak cycle_finals).
Proof.
  constructor.
  - unfold cycle_mem. repeat apply wfm_st; try apply wfm_empty; split; vm_compute; (discriminate || reflexivity).
  - intros b Hb. each_block Hb; vm_compute; discriminate.
  - intros b b' Hb Hb' Hne. rewrite (cycle_end b Hb), (cycle_end b' Hb'). each_block Hb; each_block Hb'; (lia || done).
  - intros b Hb. each_block Hb; vm_compute; discriminate.
  - intros b i Hf Hc _. apply (cycle_fields demo_pointer); try done;
      first [now apply cycle_long|apply cycle_pointer; [unfold cycle_blocks; set_solver|done]].
  - intros b Hb. exists 8192. rewrite (cycle_end b Hb). change (chunk_end cycle_mem 8192) with 12288. split; [left|].
    each_block Hb; (split; [lia|]); (split; [lia|]); [right; apply cycle_in; unfold cycle_blocks; set_solver ..|left; reflexivity].
  - intros c ->%list_elem_of_singleton. apply cycle_in. left.
  - intros c a ->%list_elem_of_singleton Ha. split; [unfold X, cycle_weak, cycle_finals; lia|].
    intros b Hb. unfold in_block. rewrite (cycle_end b Hb). each_block Hb; lia.
  - intros a Ha b Hb. unfold in_block. rewrite (cycle_end b Hb). unfold X, cycle_weak, cycle_finals in Ha.
    each_block Hb; intros Hin; try lia. split; [vm_compute; discriminate|lia].
  - done.
  - cbn [chunks_sorted]. unfold chunk_ok. splits; try done; vm_compute; discriminate.
  - done.
Qed.

Lemma cycle_weak_array : weak_array cycle_mem cycle_set cycle_weak 8264.
Proof.
  unfold weak_array. split; [apply cycle_in; unfold cycle_blocks; set_solver|]. split; [vm_compute; discriminate|].
  change (Wosize_val cycle_mem 8264) with 3. split; [lia|]. intros i Hi. unfold cycle_weak. lia.
Qed.

Lemma cycle_demo_ok : cycle_ok cycle_mem cycle_set 8192 [8192] demo_heap cycle_weak cycle_finals
  (root_block cycle_demo [1024]) 512 [8264] (MkFinals 1024 1 1 1 1) 0.
Proof.
  constructor.
  - exact cycle_graph.
  - reflexivity.
  - intros b (x & [->|(a & ->%list_elem_of_singleton & ->)] & _ & _ & ->);
      (split; [apply cycle_in; unfold cycle_blocks; set_solver|vm_compute; discriminate]).
  - now left.
  - intros b Hb. unfold in_block. rewrite (cycle_end b Hb). each_block Hb; lia.
  - constructor; cbn [app].
    + now vm_compute.
    + repeat constructor; set_solver.
    + intros c ->%list_elem_of_singleton. exact cycle_weak_array.
    + intros c ->%list_elem_of_singleton i Hi. change (Wosize_val cycle_mem 8264) with 3 in Hi.
      assert (i = 1 \/ i = 2) as [->| ->] by lia; (split; [apply cycle_pointer; [vm_compute; set_solver|done]|intros _ _; discriminate]).
    + now intros c Hc%elem_of_nil.
  - unfold cycle_weak, cycle_finals. lia.
  - unfold finals_ok. cbn. lia.
  - reflexivity.
  - intros a. unfold in_table, cycle_finals. cbn. lia.
  - change (finalisable cycle_mem (MkFinals 1024 1 1 1 1)) with [(8312, 8296)]. constructor; [|constructor]. cbn [final_ok snd].
    split; [apply cycle_in; unfold cycle_blocks; set_solver|]. splits; try done; vm_compute; discriminate.
Qed.

Lemma cycle_demo_start : cycle_start cycle_demo cycle_set [8192] cycle_weak cycle_finals 512 [8264] cycle_roots 0 400 [] [1024].
Proof.
  constructor.
  - exact cycle_demo_ok.
  - reflexivity.
  - intros a b [Ha%elem_of_nil| ->%list_elem_of_singleton] Hb; [done|]. unfold in_block. change (rmem cycle_demo) with cycle_mem.
    rewrite (cycle_end b Hb). each_block Hb; lia.
  - intros x [->|(a & ->%list_elem_of_singleton & ->)]; (apply cycle_pointer; [vm_compute; set_solver|done]).
  - intros b Hb. change (rmem cycle_demo) with cycle_mem. each_block Hb; (now left) || now right.
  - reflexivity.
  - splits; try done; vm_compute; splits; done.
Qed.

Lemma cycle_demo_heap : cycle_heap cycle_demo cycle_set [8192] cycle_weak cycle_finals 256 512 [8336] count_call (fun a => a <> 2048).
Proof.
  constructor; change (rmem cycle_demo) with cycle_mem.
  - unfold fl_inv, fl_list. splits; try (vm_compute; splits; auto; discriminate); try apply list_elem_of_here.
    constructor; [left; vm_compute; discriminate|constructor].
  - intros c. rewrite list_elem_of_singleton. split; [intros ->; split; [apply cycle_in; unfold cycle_blocks; set_solver|reflexivity]|].
    intros [Hb Hc]. each_block Hb; done.
  - intros b a Hb Hc. unfold in_block. rewrite (cycle_end b Hb). each_block Hb; try done. unfold cycle_weak, cycle_finals. lia.
  - split; [reflexivity|]. unfold cycle_weak, cycle_finals. lia.
  - intros c ->%list_elem_of_singleton. vm_compute. discriminate.
  - intros c ->%list_elem_of_singleton. left. vm_compute. discriminate.
  - intros a [(c & ->%list_elem_of_singleton & Ha)|Ha]; [|lia]. change (chunk_end cycle_mem 8192) with 12288 in Ha. lia.
  - intros f v r Hm. exists (st (rmem r) 2048 (u64 (ld (rmem r) 2048 + 1))). split; [reflexivity|].
    split; [apply wfm_st; [done|apply u64_range]|]. intros a Ha. now apply ld_st_ne.
Qed.

(** ** Two weaknesses of the weak arrays *)

(** The weak array 8264 hangs only from 8296, the value to finalise. *)
Definition late_demo : runtime := set_rmem (st (st cycle_mem 8208 (Val_long 1)) 8296 8264) cycle_demo.

(** The weak arrays are cleaned before the values to finalise are darkened: an array
    found from these only is taken out of the list, then kept, with its pointers to
    blocks that go to the free list. *)
Theorem late_weak_array_dangles :
  match finish_major_cycle count_call 256 512 400 cycle_roots 3 1000 late_demo with
  | Ok _ r =>
      ld (rmem r) 512 = 0 /\ Field (rmem r) 8296 0 = 8264 /\ Hd_val (rmem r) 8264 = Hd_val cycle_mem 8264 /\
      Field (rmem r) 8264 1 = 8224 /\ Is_blue_hd (Hd_val (rmem r) 8224) = true
  | _ => False
  end.
Proof. vm_compute. splits; reflexivity. Qed.

(** 8296 is a closure of two functions, found from the root; the weak array points to
    the second of them. *)
Definition infix_demo : runtime :=
  let m := st (st (st (st cycle_mem 8208 8296) 8200 8264) 8280 8312) 8288 (Make_header 3 Closure_tag Caml_white) in
  set_rmem (st (st (st m 8296 20001) 8304 (Make_header 2 Infix_tag Caml_white)) 8312 20003) cycle_demo.

(** The colour of a weak pointer is read in front of it, where the header of a function
    inside a closure is always white: the pointer is erased although the closure is kept. *)
Theorem infix_weak_pointer_erased :
  match finish_major_cycle count_call 256 512 400 (MkRootSet caml_global_roots (MkFinals 1024 0 0 1 1) []) 3 1000 infix_demo with
  | Ok _ r =>
      Field (rmem r) 8200 1 = 8296 /\ Hd_val (rmem r) 8296 = Hd_val (rmem infix_demo) 8296 /\
      Field (rmem infix_demo) 8264 2 = 8312 /\ Field (rmem r) 8264 2 = 0
  | _ => False
  end.
Proof. vm_compute. splits; reflexivity. Qed.

(** ** The claims *)

(** C4: the mark phase of a cycle that begins with an idle collector ends, whatever the
    work of its slices and the losses of the gray stack: the roots darkened, the main
    subphase, the weak arrays and the values to finalise.  It leaves black exactly
    the blocks reached from the roots or from a value to finalise, no block gray, and
    a list of weak arrays whose pointers are not to white blocks. *)
Theorem mark_phase_correct r0 B cl Xw Xf Fl_head weak_list_head arrays roots depth fuel ws slots :
  cycle_start r0 B cl Xw Xf weak_list_head arrays roots depth fuel ws slots ->
  (mark_bound B cl arrays roots depth <= fuel)%nat ->
  exists t' r', bind (start_cycle fuel roots) (fun _ => mark_loop Fl_head weak_list_head fuel fuel (finalisers roots)) r0 = Ok t' r' /\
    gc_phase (mjr r') = Phase_sweep /\
    (forall b, b ∈ B -> color (rmem r') b <> Caml_gray /\
       (color (rmem r') b = Caml_black <-> reached (rmem r0) B (in_heap r0) (R (rmem r0) (root_block r0 slots) (finalisers roots) depth) b)) /\
    (exists l, weak_state (rmem r0) B (in_heap r0) Xw weak_list_head depth l [] (rmem r')).
Proof.
  intros CS Hf.
  destruct (mark_phase_spec r0 B cl Xw Xf Fl_head weak_list_head arrays roots depth fuel ws slots CS fuel fuel Hf Hf)
    as (r1 & t' & r' & E1 & _ & E2 & Hm).
  exists t', r'. rewrite (bind_Ok _ _ _ _ _ E1). split; [exact E2|]. destruct Hm. split; [done|]. split; [|done].
  intros b Hb. auto.
Qed.

(** C3: [finish_major_cycle] on an idle collector ends: every block reached from the
    roots or from a value to finalise is kept, with its header and its data, its
    pointers, past forwarding blocks, leading to blocks that are kept; the weak
    arrays still listed lead to no block that is not; and the words of every other
    block, but those of no words, are in the free list, which is well formed and
    has no word of a block kept. *)
Theorem finish_major_cycle_correct r0 B cl Xw Xf Fl_head weak_list_head arrays roots depth fuel ws slots free call_finalize Kept smc smw :
  cycle_start r0 B cl Xw Xf weak_list_head arrays roots depth fuel ws slots ->
  cycle_heap r0 B cl Xw Xf Fl_head weak_list_head free call_finalize Kept ->
  (cycle_bound B cl arrays roots depth <= fuel)%nat ->
  exists t' l' r', finish_major_cycle call_finalize Fl_head weak_list_head fuel roots smc smw r0 =
      Ok (t', s64 (smc + 1), smw + allocated_words (mjr r0)) r' /\
    collected r0 B Xw Xf Fl_head weak_list_head roots depth slots Kept l' r' /\ allocated_words (mjr r') = 0.
Proof.
  intros CS CH Hf. exact (major_cycle_spec r0 B cl Xw Xf Fl_head weak_list_head arrays roots depth fuel ws slots free CS
    call_finalize Kept CH fuel smc smw eq_refl Hf).
Qed.

(** ** Witnesses *)

Lemma mark_phase_correct_witness :
  exists t' r', bind (start_cycle 400 cycle_roots) (fun _ => mark_loop 256 512 400 400 (MkFinals 1024 1 1 1 1)) cycle_demo = Ok t' r' /\
    gc_phase (mjr r') = Phase_sweep /\
    (forall b, b ∈ cycle_set -> color (rmem r') b <> Caml_gray /\
       (color (rmem r') b = Caml_black <->
        reached cycle_mem cycle_set demo_heap (R cycle_mem (root_block cycle_demo [1024]) (MkFinals 1024 1 1 1 1) 0) b)) /\
    (exists l, weak_state cycle_mem cycle_set demo_heap cycle_weak 512 0 l [] (rmem r')).
Proof.
  apply (mark_phase_correct cycle_demo cycle_set [8192] cycle_weak cycle_finals 256 512 [8264] cycle_roots 0 400 [] [1024] cycle_demo_start).
  apply Nat.leb_le. vm_compute. reflexivity.
Defined.

Lemma finish_major_cycle_correct_witness :
  exists t' l' r', finish_major_cycle count_call 256 512 400 cycle_roots 3 1000 cycle_demo = Ok (t', 4, 1100) r' /\
    collected cycle_demo cycle_set cycle_weak cycle_finals 256 512 cycle_roots 0 [1024] (fun a => a <> 2048) l' r' /\ allocated_words (mjr r') = 0.
Proof.
  apply (finish_major_cycle_correct cycle_demo cycle_set [8192] cycle_weak cycle_finals 256 512 [8264] cycle_roots 0 400 [] [1024] [8336]
    count_call (fun a => a <> 2048) 3 1000 cycle_demo_start cycle_demo_heap).
  apply Nat.leb_le. vm_compute. reflexivity.
Defined.
