(* ===== verification/Stacks.v ===== *)
(** * The Caml stack

    Models [byterun/stacks.c]: the stack grows downwards from [stack_high] to
    [stack_low]; the frames pushed by [PUSHTRAP] are linked through absolute
    addresses, which [realloc_stack] must relocate when it moves the stack. *)

From S2P Require Import Runtime Fail.

Definition Trap_pc (m : mem) (tp : Z) : Z := ld m tp.
Definition Trap_link_addr (tp : Z) : Z := tp + 8.
Definition Trap_link (m : mem) (tp : Z) : Z := ld m (Trap_link_addr tp).

(** [memmove] of [n] words: every source word is read from the memory before the
    copy. *)
Fixpoint memmove_words (m0 m : mem) (dst src : Z) (n : nat) : mem :=
  match n with
  | O => m
  | S k => st (memmove_words m0 m dst src k) (dst + 8 * Z.of_nat k) (ld m0 (src + 8 * Z.of_nat k))
  end.

(** The size [realloc_stack] settles on. *)
Inductive growth := Grown (size : Z) | Overflow | Diverges.

(** [do { if (size >= max) overflow; size *= 2; } while (size < need)] *)
Fixpoint grow_stack (fuel : nat) (size need max : Z) : growth :=
  match fuel with
  | O => Diverges
  | S fuel =>
      if max <=? size then Overflow
      else let size := u64 (size * 2) in
           if size <? need then grow_stack fuel size need max else Grown size
  end.

(** The loop over the trap frames, from the innermost outwards. *)
Fixpoint relocate_traps (fuel : nat) (shift : Z -> Z) (m : mem) (p new_high : Z) : mem :=
  match fuel with
  | O => m
  | S fuel =>
      if p <? new_high then
        let m' := st m (Trap_link_addr p) (shift (Trap_link m p)) in
        relocate_traps fuel shift m' (Trap_link m' p) new_high
      else m
  end.

Section Stacks.
Context {C : Collector}.

Definition stat_alloc (sz : Z) : M Z :=
  let! p := libc_malloc in
  if (p =? 0) && negb (sz =? 0) then raise_out_of_memory else ret p.

Definition init_stack (initial_max_size : Z) : M unit :=
  let! low := stat_alloc Stack_size in
  upd (fun r =>
    let high := low + Stack_size in
    set_stk (MkStacks low high (low + Stack_threshold) high high (high + 8) initial_max_size) r).

Definition realloc_stack (required_space : Z) : M unit := fun r =>
  let s := stk r in
  let depth := (stack_high s - extern_sp s) / 8 in
  match grow_stack 65 ((stack_high s - stack_low s) / 8) (depth + required_space)
          (max_stack_size s) with
  | Overflow => raise_stack_overflow r
  | Diverges => Fatal "the doubling loop of realloc_stack does not end"
  | Grown size =>
      (let! new_low := stat_alloc (size * 8) in
       upd (fun r =>
         let new_high := new_low + size * 8 in
         let shift p := new_high - (stack_high s - p) in
         let new_sp := shift (extern_sp s) in
         let m := memmove_words (rmem r) (rmem r) new_sp (extern_sp s) (Z.to_nat depth) in
         let tsp := shift (trapsp s) in
         set_rmem (relocate_traps (Z.to_nat depth) shift m tsp new_high)
           (set_stk (MkStacks new_low new_high (new_low + Stack_threshold) new_sp tsp
                       (shift (trap_barrier s)) (max_stack_size s)) r))) r
  end.

Definition ensure_stack_capacity (required_space : Z) : M Z := fun r =>
  let req := Long_val required_space in
  if extern_sp (stk r) - req * 8 <? stack_low (stk r)
  then (realloc_stack req ;; ret Val_unit) r
  else Ok Val_unit r.

Definition change_max_stack_size (new_max_size : Z) (r : runtime) : runtime :=
  let s := stk r in
  let size := (stack_high s - extern_sp s) / 8 + Stack_threshold / sizeof_value in
  set_max_stack_size (if new_max_size <? size then size else new_max_size) r.

End Stacks.

(** ** Copying *)

Lemma ld_memmove_words m0 m dst src n a :
  ld (memmove_words m0 m dst src n) a =
  if (dst <=? a) && (a <? dst + 8 * Z.of_nat n) && ((a - dst) mod 8 =? 0)
  then ld m0 (src + (a - dst)) else ld m a.
Proof.
  induction n as [|k IH]; cbn [memmove_words].
  - destruct (Z.leb_spec dst a), (Z.ltb_spec a (dst + 8 * Z.of_nat 0)); try lia; done.
  - rewrite ld_st, IH.
    destruct (Z.eqb_spec (dst + 8 * Z.of_nat k) a) as [<-|Hne].
    + replace (dst + 8 * Z.of_nat k - dst) with (8 * Z.of_nat k) by lia.
      rewrite (proj2 (Z.leb_le _ _)), (proj2 (Z.ltb_lt _ _)), (proj2 (Z.eqb_eq _ _)) by zlia. done.
    + destruct (Z.leb_spec dst a), (Z.ltb_spec a (dst + 8 * Z.of_nat k)),
        (Z.ltb_spec a (dst + 8 * Z.of_nat (S k))), (Z.eqb_spec ((a - dst) mod 8) 0);
        cbn [andb]; try lia; try done; zlia.
Qed.

(** ** The growth of the stack *)

Lemma grow_stack_Grown fuel size need max size' :
  0 < size -> max <= B63 -> grow_stack fuel size need max = Grown size' ->
  need <= size' /\ 2 * size <= size' < 2 * max.
Proof.
  revert size. induction fuel as [|fuel IH]; intros size Hs Hm; [done|]. cbn [grow_stack].
  destruct (Z.leb_spec max size); [done|].
  rewrite (u64_id (size * 2)) by (unfold isu64; lia).
  destruct (Z.ltb_spec (size * 2) need).
  - intros E. apply IH in E; lia.
  - intros [= <-]. lia.
Qed.

(** 64 doublings exceed every limit: the loop ends. *)
Lemma grow_stack_ends fuel size need max :
  0 < size -> max <= B63 -> max <= size * 2 ^ Z.of_nat fuel ->
  grow_stack (S fuel) size need max <> Diverges.
Proof.
  revert size. induction fuel as [|fuel IH]; intros size Hs Hm Hf; cbn [grow_stack];
    (destruct (Z.leb_spec max size); [done|]).
  - change (2 ^ Z.of_nat 0) with 1 in Hf. lia.
  - rewrite (u64_id (size * 2)) by (unfold isu64; lia).
    destruct (Z.ltb_spec (size * 2) need); [|done].
    apply IH; [lia|done|]. rewrite Nat2Z.inj_succ, Z.pow_succ_r in Hf by lia. lia.
Qed.

(** ** Trap frames *)

(** [l] lists the trap frames from [p] outwards, up to [high]; a frame has four
    words and its link is the next one. *)
Fixpoint trap_chain (m : mem) (high p : Z) (l : list Z) : Prop :=
  match l with
  | [] => p = high
  | q :: l' =>
      p = q /\ q < high /\ (high - q) mod 8 = 0 /\ q + 32 <= Trap_link m q /\
      trap_chain m high (Trap_link m q) l'
  end.

Lemma trap_chain_le m high p l : trap_chain m high p l -> p <= high.
Proof. destruct l; cbn [trap_chain]; lia. Qed.

Lemma trap_chain_bounds m high p l q :
  trap_chain m high p l -> q ∈ l -> p <= q /\ q + 32 <= high /\ (high - q) mod 8 = 0.
Proof.
  revert p. induction l as [|x l IH]; intros p H Hq; [set_solver|].
  destruct H as (-> & Hx & Ha & Hl & H). pose proof (trap_chain_le _ _ _ _ H).
  apply elem_of_cons in Hq as [->|Hq]; [lia|].
  specialize (IH _ H Hq). lia.
Qed.

Lemma trap_chain_length m high p l :
  trap_chain m high p l -> 32 * Z.of_nat (length l) <= high - p.
Proof.
  revert p. induction l as [|x l IH]; intros p H; cbn [length].
  - cbn [trap_chain] in H. lia.
  - destruct H as (-> & Hx & Ha & Hl & H). specialize (IH _ H). lia.
Qed.

(** A chain depends on its links only, and moves with them. *)
Lemma trap_chain_shift m m' high p l d :
  trap_chain m high p l ->
  (forall q, q ∈ l -> Trap_link m' (q + d) = Trap_link m q + d) ->
  trap_chain m' (high + d) (p + d) (map (fun q => q + d) l).
Proof.
  revert p. induction l as [|x l IH]; intros p H Hl; cbn [map trap_chain] in *; [lia|].
  destruct H as (-> & Hx & Ha & Hk & H). rewrite Hl by set_solver.
  splits; try lia.
  - now replace (high + d - (x + d)) with (high - x) by lia.
  - apply IH; [done|]. intros. apply Hl. set_solver.
Qed.

Lemma relocate_traps_ext f g fuel m p high :
  (forall a, f a = g a) -> relocate_traps fuel f m p high = relocate_traps fuel g m p high.
Proof.
  intros E. revert m p. induction fuel as [|fuel IH]; intros m p; cbn [relocate_traps]; [done|].
  rewrite E. destruct (p <? high); auto.
Qed.

(** The loop of [realloc_stack] shifts exactly the links of the chain. *)
Lemma relocate_traps_spec d m l : forall fuel high p m1,
  trap_chain m high p l -> (length l <= fuel)%nat ->
  (forall q, q ∈ l -> Trap_link m1 (q + d) = Trap_link m q) ->
  let m2 := relocate_traps fuel (fun a => a + d) m1 (p + d) (high + d) in
  (forall a, (forall q, q ∈ l -> a <> Trap_link_addr (q + d)) -> ld m2 a = ld m1 a) /\
  (forall q, q ∈ l -> Trap_link m2 (q + d) = Trap_link m q + d).
Proof.
  induction l as [|x l IH]; intros fuel high p m1 H Hf Hl m2; subst m2.
  - cbn [trap_chain] in H. subst p. destruct fuel; cbn [relocate_traps].
    + split; [done|set_solver].
    + rewrite Z.ltb_irrefl. split; [done|set_solver].
  - destruct H as (-> & Hx & Ha & Hk & H).
    assert (Hx' : x ∈ x :: l) by apply list_elem_of_here.
    assert (Hl' : forall q, q ∈ l -> q ∈ x :: l) by (intros; now apply list_elem_of_further).
    destruct fuel as [|fuel]; cbn [length] in Hf; [lia|]. cbn [relocate_traps].
    destruct (Z.ltb_spec (x + d) (high + d)); [|lia].
    set (m1' := st m1 _ _).
    assert (Ex : Trap_link m1' (x + d) = Trap_link m x + d).
    { unfold Trap_link at 1, m1'. now rewrite ld_st_eq, Hl. }
    rewrite Ex.
    assert (Hne : forall q, q ∈ l -> Trap_link_addr (x + d) <> Trap_link_addr (q + d)).
    { intros q Hq. pose proof (trap_chain_bounds _ _ _ _ _ H Hq). unfold Trap_link_addr. lia. }
    destruct (IH fuel high (Trap_link m x) m1' H) as [I1 I2].
    + lia.
    + intros q Hq. unfold Trap_link. unfold m1'. rewrite ld_st_ne by auto. apply Hl. auto.
    + split.
      * intros a Hna. rewrite I1 by auto. unfold m1'.
        apply ld_st_ne. intros E. now apply (Hna x).
      * intros q Hq. apply elem_of_cons in Hq as [->|Hq]; [|auto].
        unfold Trap_link at 1. rewrite I1; auto.
Qed.

(** ** Growing the stack *)

(** The registers of the stack are in order, and [l] are its trap frames. *)
Definition stack_ok (r : runtime) (l : list Z) : Prop :=
  let s := stk r in
  stack_low s <= extern_sp s <= trapsp s /\ stack_low s < stack_high s /\
  (stack_high s - stack_low s) mod 8 = 0 /\ (stack_high s - extern_sp s) mod 8 = 0 /\
  trap_chain (rmem r) (stack_high s) (trapsp s) l /\ max_stack_size s <= B63.

(** [r'] holds the stack of [r], moved by [d]: the same words at the same distance
    from the high end, except that every trap link moved with the frames. *)
Definition stack_moved (r r' : runtime) (l : list Z) (d : Z) : Prop :=
  stack_high (stk r') = stack_high (stk r) + d /\
  extern_sp (stk r') = extern_sp (stk r) + d /\
  trapsp (stk r') = trapsp (stk r) + d /\
  trap_barrier (stk r') = trap_barrier (stk r) + d /\
  (forall a, extern_sp (stk r) <= a < stack_high (stk r) -> (stack_high (stk r) - a) mod 8 = 0 ->
     (forall q, q ∈ l -> a <> Trap_link_addr q) -> ld (rmem r') (a + d) = ld (rmem r) a) /\
  (forall q, q ∈ l -> Trap_link (rmem r') (q + d) = Trap_link (rmem r) q + d).

Section Grow.
Context {C : Collector} (r : runtime) (l : list Z) (required : Z).
Context (Hok : stack_ok r l) (Hreq : 0 <= required).

Lemma stack_grow_ends :
  grow_stack 65 ((stack_high (stk r) - stack_low (stk r)) / 8)
    ((stack_high (stk r) - extern_sp (stk r)) / 8 + required) (max_stack_size (stk r)) <> Diverges.
Proof.
  destruct Hok as (H1 & H2 & H3 & H4 & _ & H5).
  apply (grow_stack_ends 64); [zlia|done|].
  change (2 ^ Z.of_nat 64) with B64. zlia.
Qed.

(** The memory after the copy and the relocation. *)
Lemma relocated_stack new_high :
  let s := stk r in
  let d := new_high - stack_high s in
  let n := Z.to_nat ((stack_high s - extern_sp s) / 8) in
  let m1 := memmove_words (rmem r) (rmem r) (extern_sp s + d) (extern_sp s) n in
  let m2 := relocate_traps n (fun a => a + d) m1 (trapsp s + d) new_high in
  (forall a, extern_sp s <= a < stack_high s -> (stack_high s - a) mod 8 = 0 ->
     (forall q, q ∈ l -> a <> Trap_link_addr q) -> ld m2 (a + d) = ld (rmem r) a) /\
  (forall q, q ∈ l -> Trap_link m2 (q + d) = Trap_link (rmem r) q + d) /\
  (forall a, a < extern_sp s + d \/ new_high <= a -> ld m2 a = ld (rmem r) a).
Proof.
  intros s d n m1 m2. destruct Hok as (H1 & H2 & H3 & H4 & Hc & H5). fold s in H1, H2, H3, H4, Hc.
  pose proof (trap_chain_length _ _ _ _ Hc) as Hlen.
  assert (En : 8 * Z.of_nat n = stack_high s - extern_sp s) by (unfold n; zlia).
  assert (Hcopy : forall a, extern_sp s <= a < stack_high s -> (stack_high s - a) mod 8 = 0 ->
    ld m1 (a + d) = ld (rmem r) a).
  { intros a Ha Ha8. unfold m1. rewrite ld_memmove_words.
    rewrite (proj2 (Z.leb_le _ _)), (proj2 (Z.ltb_lt _ _)), (proj2 (Z.eqb_eq _ _)) by zlia.
    cbn [andb]. f_equal. lia. }
  assert (Hlink : forall q, q ∈ l -> Trap_link m1 (q + d) = Trap_link (rmem r) q).
  { intros q Hq. pose proof (trap_chain_bounds _ _ _ _ _ Hc Hq). unfold Trap_link, Trap_link_addr.
    replace (q + d + 8) with (q + 8 + d) by lia. apply Hcopy; [lia|zlia]. }
  assert (Eh : new_high = stack_high s + d) by (unfold d; lia).
  destruct (relocate_traps_spec d (rmem r) l n (stack_high s) (trapsp s) m1 Hc) as [R1 R2]; [lia|done|].
  rewrite <- Eh in R1, R2. splits.
  - intros a Ha Ha8 Hnq. unfold m2. rewrite R1; [now apply Hcopy|].
    intros q Hq E. apply (Hnq q Hq). unfold Trap_link_addr in *. lia.
  - apply R2.
  - intros a Ha. unfold m2. rewrite R1.
    + unfold m1. rewrite ld_memmove_words.
      destruct (Z.leb_spec (extern_sp s + d) a), (Z.ltb_spec a (extern_sp s + d + 8 * Z.of_nat n));
        try lia; done.
    + intros q Hq. pose proof (trap_chain_bounds _ _ _ _ _ Hc Hq). unfold Trap_link_addr. lia.
Qed.

Lemma realloc_stack_spec r' :
  realloc_stack required r = Ok tt r' ->
  exists d, stack_moved r r' l d /\ stack_ok r' (map (fun q => q + d) l) /\
    stack_low (stk r') + 8 * required <= extern_sp (stk r') /\
    (forall a, a < extern_sp (stk r') \/ stack_high (stk r') <= a -> ld (rmem r') a = ld (rmem r) a).
Proof.
  destruct Hok as (H1 & H2 & H3 & H4 & Hc & H5).
  unfold realloc_stack.
  destruct (grow_stack _ _ _ _) as [size| |] eqn:Eg.
  2: { unfold raise_stack_overflow, raise_predefined, raise_constant, bind, upd, mlraise.
       destruct (alloc_small _ _ _ _) as [[? ?] ?| |]; try done. destruct (_ =? 0); done. }
  2: done.
  apply grow_stack_Grown in Eg as (Hn & Hs1 & Hs2); [|zlia|done].
  intros H. apply bind_inv in H as (new_low & r1 & Ha & H).
  assert (rmem r1 = rmem r) as Em.
  { unfold stat_alloc, libc_malloc, bind, ret, raise_out_of_memory, mlraise in Ha.
    destruct (malloc_answers r); destruct (_ && _); simplify_eq; try done;
    destruct (_ =? 0); try done; destruct (_ =? 0); done. }
  cbn [upd] in H. injection H as <-.
  destruct (relocated_stack (new_low + size * 8)) as (R1 & R2 & R3).
  set (d := new_low + size * 8 - stack_high (stk r)) in *.
  assert (Es : forall a, new_low + size * 8 - (stack_high (stk r) - a) = a + d) by (unfold d; lia).
  exists d. unfold stack_moved, stack_ok. rsimp. rewrite Em.
  rewrite (relocate_traps_ext _ (fun a => a + d)) by apply Es. rewrite !Es.
  assert (Eh : new_low + size * 8 = stack_high (stk r) + d) by (unfold d; lia).
  splits; try done; try lia; try zlia.
  rewrite Eh. rewrite Eh in R2. eapply trap_chain_shift; eauto.
Qed.
(** One doubling is enough for a request no larger than what it frees. *)
Lemma realloc_stack_ok size p rest :
  size = (stack_high (stk r) - stack_low (stk r)) / 8 ->
  size < max_stack_size (stk r) ->
  (stack_high (stk r) - extern_sp (stk r)) / 8 + required <= 2 * size ->
  malloc_answers r = p :: rest -> p <> 0 ->
  exists r', realloc_stack required r = Ok tt r'.
Proof.
  intros -> Hm Hn Hp Hp0. destruct Hok as (H1 & H2 & H3 & H4 & _ & H5).
  unfold realloc_stack. change 65%nat with (S 64). cbn [grow_stack].
  destruct (Z.leb_spec (max_stack_size (stk r)) ((stack_high (stk r) - stack_low (stk r)) / 8)); [lia|].
  rewrite u64_id by (unfold isu64; zlia).
  match goal with |- context [?a <? ?b] => destruct (Z.ltb_spec a b) end; [lia|].
  unfold stat_alloc, bind, libc_malloc. rewrite Hp.
  destruct (Z.eqb_spec p 0); [done|]. cbn [andb]. eexists. reflexivity.
Qed.
End Grow.

(** ** The claims *)

(** C9: when [realloc_stack] returns, the stack holds the same words at the same
    distance from its high end, every link of the trap chain has moved with the
    frames so that the chain and the other pointers into the stack are valid, the
    requested room is there, and no memory outside the new stack has changed.  The
    doubling loop always ends, and one doubling below the limit is enough for a
    request that fits. *)
Theorem realloc_stack_correct {C : Collector} r l required :
  stack_ok r l -> 0 <= required ->
  (forall r', realloc_stack required r = Ok tt r' ->
    exists d, stack_moved r r' l d /\ stack_ok r' (map (fun q => q + d) l) /\
      stack_low (stk r') + 8 * required <= extern_sp (stk r') /\
      (forall a, a < extern_sp (stk r') \/ stack_high (stk r') <= a ->
        ld (rmem r') a = ld (rmem r) a)) /\
  (forall size p rest,
    size = (stack_high (stk r) - stack_low (stk r)) / 8 ->
    size < max_stack_size (stk r) ->
    (stack_high (stk r) - extern_sp (stk r)) / 8 + required <= 2 * size ->
    malloc_answers r = p :: rest -> p <> 0 ->
    exists r', realloc_stack required r = Ok tt r') /\
  grow_stack 65 ((stack_high (stk r) - stack_low (stk r)) / 8)
    ((stack_high (stk r) - extern_sp (stk r)) / 8 + required) (max_stack_size (stk r)) <> Diverges.
Proof.
  intros Hok Hreq. splits.
  - intros r'. now apply realloc_stack_spec.
  - intros size p rest. now apply (realloc_stack_ok r l).
  - now apply (stack_grow_ends r l).
Qed.

(** A stack of 8 words with one trap frame, and a collector that fails. *)
Definition no_collector : Collector := fun _ _ => Fatal "no collector".

Definition small_stack : runtime :=
  MkRuntime (st (st ∅ 4120 17) 4128 4160)
    (MkStacks 4096 4160 4104 4112 4120 4168 16)
    (MkMinor 8192 16384 24576 20000 16384 [] 1 1 3 1 2 false 0)
    (MkMajor 0 0 0 0 ∅ 0 Phase_idle [] 1 true 0 0 0 0 80 4096 0 0 0 0 0 0)
    (MkGlobals 0 0 1 0 0 false false false 0 0 0 0 false)
    ∅ 0 ∅ [8192] (fl_static 1000).

Definition small_stack_ok : stack_ok small_stack [4120].
Proof. vm_compute. splits; auto; discriminate. Defined.

Lemma realloc_stack_correct_witness :
  exists r', @realloc_stack no_collector 3 small_stack = Ok tt r' /\
    Trap_link (rmem r') (trapsp (stk r')) = stack_high (stk r') /\
    Trap_pc (rmem r') (trapsp (stk r')) = 17 /\ extern_sp (stk r') = 8192 + 128 - 48.
Proof.
  destruct (@realloc_stack_correct no_collector small_stack [4120] 3 small_stack_ok) as (_ & H & _);
    [lia|].
  destruct (H 8 8192 []) as [r' E]; [reflexivity|vm_compute; reflexivity|vm_compute; discriminate
    |reflexivity|discriminate|].
  exists r'. split; [exact E|]. vm_compute in E. injection E as <-. vm_compute. auto.
Defined.
