(* ===== verification/Instruct.v ===== *)
(** * The instruction set

    Models [byterun/instruct.h]; an instruction's opcode is its rank in the
    enumeration. *)

From S2P Require Import Prelude.

Inductive instruction :=
  | ACC0 | ACC1 | ACC2 | ACC3 | ACC4 | ACC5 | ACC6 | ACC7 | ACC | PUSH | PUSHACC0 |
  PUSHACC1 | PUSHACC2 | PUSHACC3 | PUSHACC4 | PUSHACC5 | PUSHACC6 | PUSHACC7 | PUSHACC |
  POP | ASSIGN | ENVACC1 | ENVACC2 | ENVACC3 | ENVACC4 | ENVACC | PUSHENVACC1 |
  PUSHENVACC2 | PUSHENVACC3 | PUSHENVACC4 | PUSHENVACC | PUSH_RETADDR | APPLY | APPLY1 |
  APPLY2 | APPLY3 | APPTERM | APPTERM1 | APPTERM2 | APPTERM3 | RETURN | RESTART | GRAB |
  CLOSURE | CLOSUREREC | OFFSETCLOSUREM2 | OFFSETCLOSURE0 | OFFSETCLOSURE2 |
  OFFSETCLOSURE | PUSHOFFSETCLOSUREM2 | PUSHOFFSETCLOSURE0 | PUSHOFFSETCLOSURE2 |
  PUSHOFFSETCLOSURE | GETGLOBAL | PUSHGETGLOBAL | GETGLOBALFIELD | PUSHGETGLOBALFIELD |
  SETGLOBAL | ATOM0 | ATOM | PUSHATOM0 | PUSHATOM | MAKEBLOCK | MAKEBLOCK1 | MAKEBLOCK2
  | MAKEBLOCK3 | MAKEFLOATBLOCK | GETFIELD0 | GETFIELD1 | GETFIELD2 | GETFIELD3 |
  GETFIELD | GETFLOATFIELD | SETFIELD0 | SETFIELD1 | SETFIELD2 | SETFIELD3 | SETFIELD |
  SETFLOATFIELD | VECTLENGTH | GETVECTITEM | SETVECTITEM | GETSTRINGCHAR | SETSTRINGCHAR
  | BRANCH | BRANCHIF | BRANCHIFNOT | SWITCH | BOOLNOT | PUSHTRAP | POPTRAP | RAISE |
  CHECK_SIGNALS | C_CALL1 | C_CALL2 | C_CALL3 | C_CALL4 | C_CALL5 | C_CALLN | CONST0 |
  CONST1 | CONST2 | CONST3 | CONSTINT | PUSHCONST0 | PUSHCONST1 | PUSHCONST2 |
  PUSHCONST3 | PUSHCONSTINT | NEGINT | ADDINT | SUBINT | MULINT | DIVINT | MODINT |
  ANDINT | ORINT | XORINT | LSLINT | LSRINT | ASRINT | EQ | NEQ | LTINT | LEINT | GTINT
  | GEINT | OFFSETINT | OFFSETREF | ISINT | GETMETHOD | BEQ | BNEQ | BLTINT | BLEINT |
  BGTINT | BGEINT | ULTINT | UGEINT | BULTINT | BUGEINT | STOP | EVENT | BREAK.

Definition instructions : list instruction := [
  ACC0; ACC1; ACC2; ACC3; ACC4; ACC5; ACC6; ACC7; ACC; PUSH; PUSHACC0; PUSHACC1;
  PUSHACC2; PUSHACC3; PUSHACC4; PUSHACC5; PUSHACC6; PUSHACC7; PUSHACC; POP; ASSIGN;
  ENVACC1; ENVACC2; ENVACC3; ENVACC4; ENVACC; PUSHENVACC1; PUSHENVACC2; PUSHENVACC3;
  PUSHENVACC4; PUSHENVACC; PUSH_RETADDR; APPLY; APPLY1; APPLY2; APPLY3; APPTERM;
  APPTERM1; APPTERM2; APPTERM3; RETURN; RESTART; GRAB; CLOSURE; CLOSUREREC;
  OFFSETCLOSUREM2; OFFSETCLOSURE0; OFFSETCLOSURE2; OFFSETCLOSURE; PUSHOFFSETCLOSUREM2;
  PUSHOFFSETCLOSURE0; PUSHOFFSETCLOSURE2; PUSHOFFSETCLOSURE; GETGLOBAL; PUSHGETGLOBAL;
  GETGLOBALFIELD; PUSHGETGLOBALFIELD; SETGLOBAL; ATOM0; ATOM; PUSHATOM0; PUSHATOM;
  MAKEBLOCK; MAKEBLOCK1; MAKEBLOCK2; MAKEBLOCK3; MAKEFLOATBLOCK; GETFIELD0; GETFIELD1;
  GETFIELD2; GETFIELD3; GETFIELD; GETFLOATFIELD; SETFIELD0; SETFIELD1; SETFIELD2;
  SETFIELD3; SETFIELD; SETFLOATFIELD; VECTLENGTH; GETVECTITEM; SETVECTITEM;
  GETSTRINGCHAR; SETSTRINGCHAR; BRANCH; BRANCHIF; BRANCHIFNOT; SWITCH; BOOLNOT;
  PUSHTRAP; POPTRAP; RAISE; CHECK_SIGNALS; C_CALL1; C_CALL2; C_CALL3; C_CALL4; C_CALL5;
  C_CALLN; CONST0; CONST1; CONST2; CONST3; CONSTINT; PUSHCONST0; PUSHCONST1; PUSHCONST2;
  PUSHCONST3; PUSHCONSTINT; NEGINT; ADDINT; SUBINT; MULINT; DIVINT; MODINT; ANDINT;
  ORINT; XORINT; LSLINT; LSRINT; ASRINT; EQ; NEQ; LTINT; LEINT; GTINT; GEINT; OFFSETINT;
  OFFSETREF; ISINT; GETMETHOD; BEQ; BNEQ; BLTINT; BLEINT; BGTINT; BGEINT; ULTINT;
  UGEINT; BULTINT; BUGEINT; STOP; EVENT; BREAK].

Definition opcode (i : instruction) : Z :=
  match i with
  | ACC0 => 0 | ACC1 => 1 | ACC2 => 2 | ACC3 => 3 | ACC4 => 4 | ACC5 => 5 | ACC6 => 6 |
  ACC7 => 7 | ACC => 8 | PUSH => 9 | PUSHACC0 => 10 | PUSHACC1 => 11 | PUSHACC2 => 12 |
  PUSHACC3 => 13 | PUSHACC4 => 14 | PUSHACC5 => 15 | PUSHACC6 => 16 | PUSHACC7 => 17 |
  PUSHACC => 18 | POP => 19 | ASSIGN => 20 | ENVACC1 => 21 | ENVACC2 => 22 | ENVACC3 =>
  23 | ENVACC4 => 24 | ENVACC => 25 | PUSHENVACC1 => 26 | PUSHENVACC2 => 27 |
  PUSHENVACC3 => 28 | PUSHENVACC4 => 29 | PUSHENVACC => 30 | PUSH_RETADDR => 31 | APPLY
  => 32 | APPLY1 => 33 | APPLY2 => 34 | APPLY3 => 35 | APPTERM => 36 | APPTERM1 => 37 |
  APPTERM2 => 38 | APPTERM3 => 39 | RETURN => 40 | RESTART => 41 | GRAB => 42 | CLOSURE
  => 43 | CLOSUREREC => 44 | OFFSETCLOSUREM2 => 45 | OFFSETCLOSURE0 => 46 |
  OFFSETCLOSURE2 => 47 | OFFSETCLOSURE => 48 | PUSHOFFSETCLOSUREM2 => 49 |
  PUSHOFFSETCLOSURE0 => 50 | PUSHOFFSETCLOSURE2 => 51 | PUSHOFFSETCLOSURE => 52 |
  GETGLOBAL => 53 | PUSHGETGLOBAL => 54 | GETGLOBALFIELD => 55 | PUSHGETGLOBALFIELD =>
  56 | SETGLOBAL => 57 | ATOM0 => 58 | ATOM => 59 | PUSHATOM0 => 60 | PUSHATOM => 61 |
  MAKEBLOCK => 62 | MAKEBLOCK1 => 63 | MAKEBLOCK2 => 64 | MAKEBLOCK3 => 65 |
  MAKEFLOATBLOCK => 66 | GETFIELD0 => 67 | GETFIELD1 => 68 | GETFIELD2 => 69 | GETFIELD3
  => 70 | GETFIELD => 71 | GETFLOATFIELD => 72 | SETFIELD0 => 73 | SETFIELD1 => 74 |
  SETFIELD2 => 75 | SETFIELD3 => 76 | SETFIELD => 77 | SETFLOATFIELD => 78 | VECTLENGTH
  => 79 | GETVECTITEM => 80 | SETVECTITEM => 81 | GETSTRINGCHAR => 82 | SETSTRINGCHAR =>
  83 | BRANCH => 84 | BRANCHIF => 85 | BRANCHIFNOT => 86 | SWITCH => 87 | BOOLNOT => 88
  | PUSHTRAP => 89 | POPTRAP => 90 | RAISE => 91 | CHECK_SIGNALS => 92 | C_CALL1 => 93 |
  C_CALL2 => 94 | C_CALL3 => 95 | C_CALL4 => 96 | C_CALL5 => 97 | C_CALLN => 98 | CONST0
  => 99 | CONST1 => 100 | CONST2 => 101 | CONST3 => 102 | CONSTINT => 103 | PUSHCONST0
  => 104 | PUSHCONST1 => 105 | PUSHCONST2 => 106 | PUSHCONST3 => 107 | PUSHCONSTINT =>
  108 | NEGINT => 109 | ADDINT => 110 | SUBINT => 111 | MULINT => 112 | DIVINT => 113 |
  MODINT => 114 | ANDINT => 115 | ORINT => 116 | XORINT => 117 | LSLINT => 118 | LSRINT
  => 119 | ASRINT => 120 | EQ => 121 | NEQ => 122 | LTINT => 123 | LEINT => 124 | GTINT
  => 125 | GEINT => 126 | OFFSETINT => 127 | OFFSETREF => 128 | ISINT => 129 | GETMETHOD
  => 130 | BEQ => 131 | BNEQ => 132 | BLTINT => 133 | BLEINT => 134 | BGTINT => 135 |
  BGEINT => 136 | ULTINT => 137 | UGEINT => 138 | BULTINT => 139 | BUGEINT => 140 | STOP
  => 141 | EVENT => 142 | BREAK => 143
  end.

(** The instruction of an opcode. *)
Definition decode (op : Z) : option instruction :=
  if op <? 0 then None else instructions !! Z.to_nat op.

Lemma decode_opcode i : decode (opcode i) = Some i.
Proof. destruct i; reflexivity. Qed.

Lemma opcode_range i : 0 <= opcode i <= opcode BREAK.
Proof. destruct i; cbn; lia. Qed.

#[global] Instance opcode_inj : Inj (=) (=) opcode.
Proof.
  intros i j E. apply (f_equal decode) in E. rewrite !decode_opcode in E. congruence.
Qed.

#[global] Instance instruction_eq_dec : EqDecision instruction := fun i j =>
  match decide (opcode i = opcode j) with
  | left E => left (opcode_inj i j E)
  | right N => right (fun E => N (f_equal opcode E))
  end.
