(* ===== verification/Interp.v ===== *)
(** * The bytecode interpreter

    Models [interprete] of [byterun/interp.c] (the [switch] version, 64-bit): one
    function per instruction, one step function, and the runs it gives rise to.
    [sp], [env] and [accu] hold words; [pc] is a byte address of 32-bit code
    words.  A C call that raises comes back through [sigsetjmp] to
    [raise_exception].

    What is outside the interpreter is an interface: the C primitives, signal
    and finaliser processing ([process_event]), the debugger and the recording of
    backtraces. *)

From S2P Require Import Runtime Memory Fail Stacks Instruct.

(** ** The abstract machine *)

Record machine := MkMachine {
  pc : Z;
  sp : Z;
  accu : Z;
  env : Z;
  extra_args : Z;
  rt : runtime
}.

Definition set_pc (x : Z) (s : machine) : machine :=
  MkMachine x (sp s) (accu s) (env s) (extra_args s) (rt s).
Definition set_sp (x : Z) (s : machine) : machine :=
  MkMachine (pc s) x (accu s) (env s) (extra_args s) (rt s).
Definition set_accu (x : Z) (s : machine) : machine :=
  MkMachine (pc s) (sp s) x (env s) (extra_args s) (rt s).
Definition set_env (x : Z) (s : machine) : machine :=
  MkMachine (pc s) (sp s) (accu s) x (extra_args s) (rt s).
Definition set_extra_args (x : Z) (s : machine) : machine :=
  MkMachine (pc s) (sp s) (accu s) (env s) x (rt s).
Definition set_rt (x : runtime) (s : machine) : machine :=
  MkMachine (pc s) (sp s) (accu s) (env s) (extra_args s) x.

(** Reduce projections of updated machines and states. *)
Ltac xsimp := cbn [pc sp accu env extra_args rt set_pc set_sp set_accu set_env set_extra_args set_rt]; rsimp.
Tactic Notation "xsimp" "in" "*" :=
  cbn [pc sp accu env extra_args rt set_pc set_sp set_accu set_env set_extra_args set_rt] in *; rsimp in *.

Definition smem (s : machine) : mem := rmem (rt s).
Definition set_smem (m : mem) (s : machine) : machine := set_rt (set_rmem m (rt s)) s.

(** [sp[i]] *)
Definition slot (s : machine) (i : Z) : Z := ld (smem s) (sp s + 8 * i).
Definition set_slot (i v : Z) (s : machine) : machine :=
  set_smem (st (smem s) (sp s + 8 * i) v) s.
(** [*--sp = v] *)
Definition push (v : Z) (s : machine) : machine := set_slot 0 v (set_sp (sp s - 8) s).
(** [sp += n] *)
Definition pop (n : Z) (s : machine) : machine := set_sp (sp s + 8 * n) s.

(** [pc[i]], a signed 32-bit word, and [pc += n]. *)
Definition opd (s : machine) (i : Z) : Z := ld (code (rt s)) (pc s + 4 * i).
Definition skip (n : Z) (s : machine) : machine := set_pc (pc s + 4 * n) s.
(** [pc += *pc] and the code pointer [pc + pc[i]]. *)
Definition jump (s : machine) : machine := skip (opd s 0) s.
Definition code_ptr (s : machine) (i : Z) : Z := pc s + 4 * opd s i.

Definition field (s : machine) (v i : Z) : Z := Field (smem s) v i.
Definition set_field (v i x : Z) (s : machine) : machine := set_smem (set_Field (smem s) v i x) s.

(** Writes to the memory accumulate. *)
Lemma set_slot_smem i v m s : set_slot i v (set_smem m s) = set_smem (st m (sp s + 8 * i) v) s.
Proof. done. Qed.
Lemma set_slot_eq i v s : set_slot i v s = set_smem (st (smem s) (sp s + 8 * i) v) s.
Proof. done. Qed.
Lemma set_field_smem v i x m s : set_field v i x (set_smem m s) = set_smem (set_Field m v i x) s.
Proof. done. Qed.

Lemma skip_skip a b s : skip a (skip b s) = skip (b + a) s.
Proof. unfold skip, set_pc. f_equal. cbn [pc]. lia. Qed.
Lemma pop_pop a b s : pop a (pop b s) = pop (b + a) s.
Proof. unfold pop, set_sp. f_equal. cbn [sp]. lia. Qed.

(** How an instruction ends. *)
Inductive outcome :=
| Next (s : machine)
| Return (v : Z) (r : runtime)
| Abort (msg : string).

(** The values [interprete] saves on entry. *)
Record invocation := MkInvocation {
  initial_sp_offset : Z;
  initial_external_raise : Z;
  initial_local_roots : Z
}.

(** The rest of the runtime system, as the interpreter calls it. *)
Class Externals := {
  primitive : Z -> list Z -> M Z;
  process_event : M unit;
  debugger : Z -> runtime -> runtime;
  stash_backtrace : Z -> Z -> Z -> runtime -> runtime
}.

Definition EVENT_COUNT : Z := 0.
Definition BREAKPOINT : Z := 1.
Definition TRAP_BARRIER : Z := 4.

Definition Make_exception_result (v : Z) : Z := Z.lor v 2.
Definition Is_exception_result (v : Z) : bool := Z.land v 3 =? 2.
Definition Extract_exception (v : Z) : Z := Z.ldiff v 3.

(** ** Saving and restoring the registers around calls *)

Definition Setup_for_gc (s : machine) : machine :=
  let s := set_sp (sp s - 16) s in
  let s := set_slot 1 (env s) (set_slot 0 (accu s) s) in
  set_rt (set_extern_sp (sp s) (rt s)) s.
Definition Restore_after_gc (s : machine) : machine :=
  pop 2 (set_env (slot s 1) (set_accu (slot s 0) s)).

Definition Setup_for_c_call (s : machine) : machine :=
  let s := push (env s) s in
  set_rt (set_extern_sp (sp s) (rt s)) s.
Definition Restore_after_c_call (s : machine) : machine :=
  let s := set_sp (extern_sp (stk (rt s))) s in
  pop 1 (set_env (slot s 0) s).

Definition Setup_for_event (s : machine) : machine :=
  let s := set_sp (sp s - 48) s in
  let s := set_slot 0 (accu s) s in
  let s := set_slot 1 Val_unit s in
  let s := set_slot 2 Val_unit s in
  let s := set_slot 3 (pc s) s in
  let s := set_slot 4 (env s) s in
  let s := set_slot 5 (Val_long (extra_args s)) s in
  set_rt (set_extern_sp (sp s) (rt s)) s.
Definition Restore_after_event (s : machine) : machine :=
  let s := set_sp (extern_sp (stk (rt s))) s in
  let s := set_accu (slot s 0) s in
  let s := set_pc (slot s 3) s in
  let s := set_env (slot s 4) s in
  let s := set_extra_args (Long_val (slot s 5)) s in
  pop 6 s.

Definition Setup_for_debugger (s : machine) : machine :=
  let s := set_sp (sp s - 32) s in
  let s := set_slot 0 (accu s) s in
  let s := set_slot 1 (pc s - 4) s in
  let s := set_slot 2 (env s) s in
  let s := set_slot 3 (Val_long (extra_args s)) s in
  set_rt (set_extern_sp (sp s) (rt s)) s.
Definition Restore_after_debugger (s : machine) : machine := pop 4 s.

(** ** The instructions

    [pc] already points past the opcode. *)

Section Interp.
Context {C : Collector} {X : Externals} (I : invocation).

(** *** Exceptions, calls to C and signals *)

(** [RAISE] and the label [raise_exception]. *)
Definition raise_exception (s : machine) : outcome :=
  let r := rt s in
  let r := if trap_barrier (stk r) <=? trapsp (stk r) then debugger TRAP_BARRIER r else r in
  let r := if backtrace_active (glb r) then stash_backtrace (accu s) (pc s) (sp s) r else r in
  let bottom := stack_high (stk r) - initial_sp_offset I in
  if bottom <=? trapsp (stk r) then
    let r := set_external_raise (initial_external_raise I) r in
    let r := set_extern_sp bottom r in
    let r := set_callback_depth (callback_depth (glb r) - 1) r in
    Return (Make_exception_result (accu s)) r
  else
    let tp := trapsp (stk r) in
    let s := set_sp tp (set_rt r s) in
    let s := set_pc (Trap_pc (smem s) tp) s in
    let s := set_rt (set_trapsp (Trap_link (smem s) tp) (rt s)) s in
    let s := set_env (slot s 2) s in
    let s := set_extra_args (Long_val (slot s 3)) s in
    Next (pop 4 s).

(** The branch of [sigsetjmp] taken when a C function raises. *)
Definition after_longjmp (r : runtime) (s : machine) : outcome :=
  let r := set_local_roots (initial_local_roots I) r in
  raise_exception (MkMachine 0 (extern_sp (stk r)) (exn_bucket (glb r)) (env s) (extra_args s) r).

(** Run C code from the interpreter, then go on with [k]. *)
Definition call_c {A} (f : M A) (s : machine) (k : A -> machine -> outcome) : outcome :=
  match f (rt s) with
  | Ok a r => k a (set_rt r s)
  | Exn r => after_longjmp r s
  | Fatal msg => Abort msg
  end.

Definition process_signal (s : machine) : outcome :=
  let s := set_rt (set_something_to_do false (rt s)) s in
  call_c process_event (Setup_for_event s) (fun _ s => Next (Restore_after_event s)).

Definition do_CHECK_SIGNALS (s : machine) : outcome :=
  if something_to_do (glb (rt s)) then process_signal s else Next s.

Definition check_stacks (s : machine) : outcome :=
  if sp s <? stack_threshold (stk (rt s)) then
    let s := set_rt (set_extern_sp (sp s) (rt s)) s in
    call_c (realloc_stack (Stack_threshold / sizeof_value)) s
      (fun _ s => do_CHECK_SIGNALS (set_sp (extern_sp (stk (rt s))) s))
  else do_CHECK_SIGNALS s.

(** [Alloc_small] as the interpreter expands it. *)
Definition alloc_block (wosize tag : Z) (s : machine) (k : Z -> machine -> outcome) : outcome :=
  let hp := young_ptr (mnr (rt s)) - Bhsize_wosize wosize in
  if hp <? young_limit (mnr (rt s)) then
    call_c (minor_collection []) (Setup_for_gc s) (fun _ s =>
      let s := Restore_after_gc s in
      let hp := young_ptr (mnr (rt s)) - Bhsize_wosize wosize in
      k (Val_hp hp) (set_rt (alloc_at hp wosize tag (rt s)) s))
  else k (Val_hp hp) (set_rt (alloc_at hp wosize tag (rt s)) s).

(** *** Basic stack operations *)

Definition do_ACCn (n : Z) (s : machine) : outcome := Next (set_accu (slot s n) s).
Definition do_PUSH (s : machine) : outcome := Next (push (accu s) s).
Definition do_PUSHACCn (n : Z) (s : machine) : outcome := do_ACCn n (push (accu s) s).
Definition do_ACC (s : machine) : outcome := Next (skip 1 (set_accu (slot s (opd s 0)) s)).
Definition do_PUSHACC (s : machine) : outcome := do_ACC (push (accu s) s).
Definition do_POP (s : machine) : outcome := Next (skip 1 (pop (opd s 0) s)).
Definition do_ASSIGN (s : machine) : outcome :=
  Next (skip 1 (set_accu Val_unit (set_slot (opd s 0) (accu s) s))).

(** *** Access in the environment *)

Definition do_ENVACCn (n : Z) (s : machine) : outcome := Next (set_accu (field s (env s) n) s).
Definition do_PUSHENVACCn (n : Z) (s : machine) : outcome := do_ENVACCn n (push (accu s) s).
Definition do_ENVACC (s : machine) : outcome :=
  Next (skip 1 (set_accu (field s (env s) (opd s 0)) s)).
Definition do_PUSHENVACC (s : machine) : outcome := do_ENVACC (push (accu s) s).

(** *** Function application *)

Definition do_PUSH_RETADDR (s : machine) : outcome :=
  let ra := code_ptr s 0 in
  let s := set_sp (sp s - 24) s in
  let s := set_slot 0 ra s in
  let s := set_slot 1 (env s) s in
  let s := set_slot 2 (Val_long (extra_args s)) s in
  Next (skip 1 s).

(** [pc = Code_val(accu); env = accu;] *)
Definition enter (s : machine) : machine := set_env (accu s) (set_pc (Code_val (smem s) (accu s)) s).

Definition do_APPLY (s : machine) : outcome :=
  check_stacks (enter (set_extra_args (opd s 0 - 1) s)).

Definition do_APPLY1 (s : machine) : outcome :=
  let arg1 := slot s 0 in
  let s := set_sp (sp s - 24) s in
  let s := set_slot 0 arg1 s in
  let s := set_slot 1 (pc s) s in
  let s := set_slot 2 (env s) s in
  let s := set_slot 3 (Val_long (extra_args s)) s in
  check_stacks (set_extra_args 0 (enter s)).

Definition do_APPLY2 (s : machine) : outcome :=
  let arg1 := slot s 0 in
  let arg2 := slot s 1 in
  let s := set_sp (sp s - 24) s in
  let s := set_slot 0 arg1 s in
  let s := set_slot 1 arg2 s in
  let s := set_slot 2 (pc s) s in
  let s := set_slot 3 (env s) s in
  let s := set_slot 4 (Val_long (extra_args s)) s in
  check_stacks (set_extra_args 1 (enter s)).

Definition do_APPLY3 (s : machine) : outcome :=
  let arg1 := slot s 0 in
  let arg2 := slot s 1 in
  let arg3 := slot s 2 in
  let s := set_sp (sp s - 24) s in
  let s := set_slot 0 arg1 s in
  let s := set_slot 1 arg2 s in
  let s := set_slot 2 arg3 s in
  let s := set_slot 3 (pc s) s in
  let s := set_slot 4 (env s) s in
  let s := set_slot 5 (Val_long (extra_args s)) s in
  check_stacks (set_extra_args 2 (enter s)).

(** [for (i = nargs - 1; i >= 0; i--) newsp[i] = sp[i];] *)
Fixpoint slide (n : nat) (newsp sp : Z) (m : mem) : mem :=
  match n with
  | O => m
  | S i => slide i newsp sp (st m (newsp + 8 * Z.of_nat i) (ld m (sp + 8 * Z.of_nat i)))
  end.

Definition do_APPTERM (s : machine) : outcome :=
  let nargs := opd s 0 in
  let slotsize := opd s 1 in
  let newsp := sp s + 8 * (slotsize - nargs) in
  let s := set_smem (slide (Z.to_nat nargs) newsp (sp s) (smem s)) s in
  let s := enter (set_sp newsp s) in
  check_stacks (set_extra_args (extra_args s + (nargs - 1)) s).

Definition do_APPTERM1 (s : machine) : outcome :=
  let arg1 := slot s 0 in
  let s := set_sp (sp s + 8 * (opd s 0 - 1)) s in
  check_stacks (enter (set_slot 0 arg1 s)).

Definition do_APPTERM2 (s : machine) : outcome :=
  let arg1 := slot s 0 in
  let arg2 := slot s 1 in
  let s := set_sp (sp s + 8 * (opd s 0 - 2)) s in
  let s := enter (set_slot 1 arg2 (set_slot 0 arg1 s)) in
  check_stacks (set_extra_args (extra_args s + 1) s).

Definition do_APPTERM3 (s : machine) : outcome :=
  let arg1 := slot s 0 in
  let arg2 := slot s 1 in
  let arg3 := slot s 2 in
  let s := set_sp (sp s + 8 * (opd s 0 - 3)) s in
  let s := enter (set_slot 2 arg3 (set_slot 1 arg2 (set_slot 0 arg1 s))) in
  check_stacks (set_extra_args (extra_args s + 2) s).

(** The registers saved by a call: return address, environment, extra arguments. *)
Definition return_to_caller (s : machine) : machine :=
  let s := set_pc (slot s 0) s in
  let s := set_env (slot s 1) s in
  let s := set_extra_args (Long_val (slot s 2)) s in
  pop 3 s.

Definition do_RETURN (s : machine) : outcome :=
  let s := skip 1 (pop (opd s 0) s) in
  if 0 <? extra_args s
  then Next (enter (set_extra_args (extra_args s - 1) s))
  else Next (return_to_caller s).

(** [for (i = 0; i < n; i++) dst[i] = src[i];] *)
Fixpoint copy_up (n : nat) (dst src : Z) (m : mem) : mem :=
  match n with
  | O => m
  | S n => copy_up n (dst + 8) (src + 8) (st m dst (ld m src))
  end.

Definition do_RESTART (s : machine) : outcome :=
  let num_args := s32 (Wosize_val (smem s) (env s) - 2) in
  let s := set_sp (sp s - 8 * num_args) s in
  let s := set_smem (copy_up (Z.to_nat num_args) (sp s) (Field_addr (env s) 2) (smem s)) s in
  let s := set_env (field s (env s) 1) s in
  Next (set_extra_args (extra_args s + num_args) s).

Definition do_GRAB (s : machine) : outcome :=
  let required := opd s 0 in
  let s := skip 1 s in
  if required <=? extra_args s then Next (set_extra_args (extra_args s - required) s)
  else
    let num_args := 1 + extra_args s in
    alloc_block (num_args + 2) Closure_tag s (fun blk s =>
      let s := set_accu blk s in
      let s := set_field (accu s) 1 (env s) s in
      let s := set_smem (copy_up (Z.to_nat num_args) (Field_addr (accu s) 2) (sp s) (smem s)) s in
      let s := set_field (accu s) 0 (pc s - 12) s in
      let s := pop num_args s in
      Next (return_to_caller s)).

(** *** Closures *)

Definition do_CLOSURE (s : machine) : outcome :=
  let nvars := opd s 0 in
  let s := skip 1 s in
  let s := if 0 <? nvars then push (accu s) s else s in
  alloc_block (1 + nvars) Closure_tag s (fun blk s =>
    let s := set_accu blk s in
    let s := set_field (accu s) 0 (code_ptr s 0) s in
    let s := skip 1 s in
    let s := set_smem (copy_up (Z.to_nat nvars) (Field_addr (accu s) 1) (sp s) (smem s)) s in
    Next (pop nvars s)).

(** The infix closures of functions [i], [i+1], ... (n of them), at [p]. *)
Fixpoint closurerec_loop (n : nat) (i p : Z) (s : machine) : machine :=
  match n with
  | O => s
  | S n =>
      let s := set_smem (st (smem s) p (Make_header (i * 2) Infix_tag Caml_white)) s in
      let p := p + 8 in
      let s := set_smem (st (smem s) p (code_ptr s i)) s in
      let s := push p s in
      closurerec_loop n (i + 1) (p + 8) s
  end.

Definition do_CLOSUREREC (s : machine) : outcome :=
  let nfuncs := opd s 0 in
  let nvars := opd s 1 in
  let s := skip 2 s in
  let s := if 0 <? nvars then push (accu s) s else s in
  alloc_block (nfuncs * 2 - 1 + nvars) Closure_tag s (fun blk s =>
    let s := set_accu blk s in
    let s := set_smem (copy_up (Z.to_nat nvars) (Field_addr (accu s) (nfuncs * 2 - 1)) (sp s) (smem s)) s in
    let s := pop nvars s in
    let s := set_field (accu s) 0 (code_ptr s 0) s in
    let s := push (accu s) s in
    let s := closurerec_loop (Z.to_nat (nfuncs - 1)) 1 (Field_addr (accu s) 1) s in
    Next (skip nfuncs s)).

Definition do_OFFSETCLOSUREn (n : Z) (s : machine) : outcome :=
  Next (set_accu (env s + n * sizeof_value) s).
Definition do_OFFSETCLOSURE (s : machine) : outcome :=
  Next (skip 1 (set_accu (env s + opd s 0 * sizeof_value) s)).

(** *** Global variables *)

Definition do_GETGLOBAL (s : machine) : outcome :=
  Next (skip 1 (set_accu (field s (global_data (glb (rt s))) (opd s 0)) s)).
Definition do_GETGLOBALFIELD (s : machine) : outcome :=
  let s := skip 1 (set_accu (field s (global_data (glb (rt s))) (opd s 0)) s) in
  Next (skip 1 (set_accu (field s (accu s) (opd s 0)) s)).
Definition do_SETGLOBAL (s : machine) : outcome :=
  call_c (Modify (Field_addr (global_data (glb (rt s))) (opd s 0)) (accu s)) s
    (fun _ s => Next (skip 1 (set_accu Val_unit s))).

(** *** Allocation of blocks *)

Definition do_ATOMn (n : Z) (s : machine) : outcome := Next (set_accu (Atom (rt s) n) s).
Definition do_ATOM (s : machine) : outcome := Next (skip 1 (set_accu (Atom (rt s) (opd s 0)) s)).

Definition do_MAKEBLOCK (s : machine) : outcome :=
  let wosize := opd s 0 in
  let tag := opd s 1 in
  alloc_block wosize tag (skip 2 s) (fun block s =>
    let s := set_field block 0 (accu s) s in
    let n := Z.to_nat (wosize - 1) in
    let s := set_smem (copy_up n (Field_addr block 1) (sp s) (smem s)) s in
    Next (set_accu block (pop (Z.of_nat n) s))).
Definition do_MAKEBLOCK1 (s : machine) : outcome :=
  let tag := opd s 0 in
  alloc_block 1 tag (skip 1 s) (fun block s =>
    Next (set_accu block (set_field block 0 (accu s) s))).
Definition do_MAKEBLOCK2 (s : machine) : outcome :=
  let tag := opd s 0 in
  alloc_block 2 tag (skip 1 s) (fun block s =>
    let s := set_field block 0 (accu s) s in
    let s := set_field block 1 (slot s 0) s in
    Next (set_accu block (pop 1 s))).
Definition do_MAKEBLOCK3 (s : machine) : outcome :=
  let tag := opd s 0 in
  alloc_block 3 tag (skip 1 s) (fun block s =>
    let s := set_field block 0 (accu s) s in
    let s := set_field block 1 (slot s 0) s in
    let s := set_field block 2 (slot s 1) s in
    Next (set_accu block (pop 2 s))).

(** A double is one word. *)
Definition Double_val (s : machine) (v : Z) : Z := ld (smem s) v.

(** [for (i = 1; i < size; i++) { Store_double_field(block, i, Double_val( *sp)); ++sp; }] *)
Fixpoint makefloatblock_loop (n : nat) (dst : Z) (s : machine) : machine :=
  match n with
  | O => s
  | S n => makefloatblock_loop n (dst + 8)
             (pop 1 (set_smem (st (smem s) dst (Double_val s (slot s 0))) s))
  end.

Definition do_MAKEFLOATBLOCK (s : machine) : outcome :=
  let size := opd s 0 in
  alloc_block (size * Double_wosize) Double_array_tag (skip 1 s) (fun block s =>
    let s := set_field block 0 (Double_val s (accu s)) s in
    let s := makefloatblock_loop (Z.to_nat (size - 1)) (Field_addr block 1) s in
    Next (set_accu block s)).

(** *** Access to components of blocks *)

Definition do_GETFIELDn (n : Z) (s : machine) : outcome := Next (set_accu (field s (accu s) n) s).
Definition do_GETFIELD (s : machine) : outcome :=
  Next (skip 1 (set_accu (field s (accu s) (opd s 0)) s)).
Definition do_GETFLOATFIELD (s : machine) : outcome :=
  let d := field s (accu s) (opd s 0) in
  alloc_block Double_wosize Double_tag s (fun block s =>
    Next (skip 1 (set_smem (st (smem s) block d) (set_accu block s)))).

(** The label [modify]. *)
Definition do_modify (dest newval : Z) (s : machine) : outcome :=
  call_c (Modify dest newval) s (fun _ s => Next (set_accu Val_unit s)).

Definition do_SETFIELDn (n : Z) (s : machine) : outcome :=
  do_modify (Field_addr (accu s) n) (slot s 0) (pop 1 s).
Definition do_SETFIELD (s : machine) : outcome :=
  do_modify (Field_addr (accu s) (opd s 0)) (slot s 0) (pop 1 (skip 1 s)).
Definition do_SETFLOATFIELD (s : machine) : outcome :=
  let s := set_field (accu s) (opd s 0) (Double_val s (slot s 0)) s in
  Next (skip 1 (pop 1 (set_accu Val_unit s))).

(** *** Arrays and strings *)

Definition do_VECTLENGTH (s : machine) : outcome :=
  let size := Wosize_val (smem s) (accu s) in
  let size := if Tag_val (smem s) (accu s) =? Double_array_tag then size / Double_wosize else size in
  Next (set_accu (Val_long size) s).
Definition do_GETVECTITEM (s : machine) : outcome :=
  Next (pop 1 (set_accu (field s (accu s) (Long_val (slot s 0))) s)).
Definition do_SETVECTITEM (s : machine) : outcome :=
  do_modify (Field_addr (accu s) (Long_val (slot s 0))) (slot s 1) (pop 2 s).
Definition do_GETSTRINGCHAR (s : machine) : outcome :=
  Next (pop 1 (set_accu (Val_int (Byte_u (smem s) (accu s) (Long_val (slot s 0)))) s)).
Definition do_SETSTRINGCHAR (s : machine) : outcome :=
  let s' := set_smem (set_Byte (smem s) (accu s) (Long_val (slot s 0)) (Int_val (slot s 1))) s in
  Next (set_accu Val_unit (pop 2 s')).

(** *** Branches *)

Definition do_BRANCH (s : machine) : outcome := Next (jump s).
Definition do_BRANCHIF (s : machine) : outcome :=
  Next (if negb (accu s =? Val_false) then jump s else skip 1 s).
Definition do_BRANCHIFNOT (s : machine) : outcome :=
  Next (if accu s =? Val_false then jump s else skip 1 s).
Definition do_SWITCH (s : machine) : outcome :=
  let sizes := u32 (opd s 0) in
  let s := skip 1 s in
  if Is_block (accu s)
  then Next (skip (opd s (Z.land sizes 65535 + Tag_val (smem s) (accu s))) s)
  else Next (skip (opd s (Long_val (accu s))) s).
Definition do_BOOLNOT (s : machine) : outcome := Next (set_accu (Val_not (accu s)) s).

(** *** Exception handlers *)

Definition do_PUSHTRAP (s : machine) : outcome :=
  let handler := code_ptr s 0 in
  let s := set_sp (sp s - 32) s in
  let s := set_slot 0 handler s in
  let s := set_slot 1 (trapsp (stk (rt s))) s in
  let s := set_slot 2 (env s) s in
  let s := set_slot 3 (Val_long (extra_args s)) s in
  let s := set_rt (set_trapsp (sp s) (rt s)) s in
  Next (skip 1 s).

Definition do_POPTRAP (s : machine) : outcome :=
  if something_to_do (glb (rt s)) then process_signal (skip (-1) s)
  else
    let s := set_rt (set_trapsp (Trap_link (smem s) (sp s)) (rt s)) s in
    Next (pop 4 s).

(** *** Calling C functions *)

(** [sp[1]], ..., [sp[n]] *)
Definition slots (s : machine) (n : nat) : list Z := map (fun i => slot s (Z.of_nat i)) (seq 1 n).

Definition do_C_CALLn (n : nat) (s : machine) : outcome :=
  let s := Setup_for_c_call s in
  call_c (primitive (opd s 0) (accu s :: slots s (n - 1))) s (fun v s =>
    let s := Restore_after_c_call (set_accu v s) in
    Next (skip 1 (pop (Z.of_nat (n - 1)) s))).

Definition do_C_CALLN (s : machine) : outcome :=
  let nargs := opd s 0 in
  let s := skip 1 s in
  let s := push (accu s) s in
  let s := Setup_for_c_call s in
  call_c (primitive (opd s 0) [sp s + 8; nargs]) s (fun v s =>
    let s := Restore_after_c_call (set_accu v s) in
    Next (skip 1 (pop nargs s))).

(** *** Integer constants and arithmetic *)

Definition do_CONSTn (n : Z) (s : machine) : outcome := Next (set_accu (Val_int n) s).
Definition do_CONSTINT (s : machine) : outcome := Next (skip 1 (set_accu (Val_int (opd s 0)) s)).

Definition do_NEGINT (s : machine) : outcome := Next (set_accu (u64 (2 - accu s)) s).

(** [accu = f (accu, *sp++)] *)
Definition binop (f : Z -> Z -> Z) (s : machine) : outcome :=
  Next (set_accu (f (accu s) (slot s 0)) (pop 1 s)).

Definition op_ADDINT (a b : Z) : Z := u64 (a + b - 1).
Definition op_SUBINT (a b : Z) : Z := u64 (a - b + 1).
Definition op_MULINT (a b : Z) : Z := Val_long (Long_val a * Long_val b).
Definition op_ANDINT (a b : Z) : Z := Z.land a b.
Definition op_ORINT (a b : Z) : Z := Z.lor a b.
Definition op_XORINT (a b : Z) : Z := Z.lor (Z.lxor a b) 1.
(** A shift by a count outside 0..63 is undefined in C. *)
Definition op_LSLINT (a b : Z) : Z := u64 (Z.shiftl (s64 (a - 1)) (Long_val b) + 1).
Definition op_LSRINT (a b : Z) : Z := Z.lor (Z.shiftr (u64 (a - 1)) (Long_val b)) 1.
Definition op_ASRINT (a b : Z) : Z := u64 (Z.lor (Z.shiftr (s64 (a - 1)) (Long_val b)) 1).

(** [DIVINT] and [MODINT]; C division truncates. *)
Definition do_division (f : Z -> Z -> Z) (s : machine) : outcome :=
  let divisor := Long_val (slot s 0) in
  let s := pop 1 s in
  if divisor =? 0
  then call_c raise_zero_divide (Setup_for_c_call s) (fun (v : Empty_set) _ => match v with end)
  else Next (set_accu (Val_long (f (Long_val (accu s)) divisor)) s).

Definition Integer_comparison (f : Z -> Z -> bool) (s : machine) : outcome :=
  binop (fun a b => Val_int (if f a b then 1 else 0)) s.
Definition signed (f : Z -> Z -> bool) (a b : Z) : bool := f (s64 a) (s64 b).

Definition Integer_branch_comparison (f : Z -> Z -> bool) (s : machine) : outcome :=
  let a := opd s 0 in
  let s := skip 1 s in
  Next (if f a (Long_val (accu s)) then jump s else skip 1 s).
Definition unsigned (f : Z -> Z -> bool) (a b : Z) : bool := f (u64 a) (u64 b).

Definition do_OFFSETINT (s : machine) : outcome :=
  Next (skip 1 (set_accu (u64 (accu s + s32 (Z.shiftl (opd s 0) 1))) s)).
Definition do_OFFSETREF (s : machine) : outcome :=
  let v := u64 (field s (accu s) 0 + s32 (Z.shiftl (opd s 0) 1)) in
  Next (skip 1 (set_accu Val_unit (set_field (accu s) 0 v s))).
Definition do_ISINT (s : machine) : outcome := Next (set_accu (Val_long (Z.land (accu s) 1)) s).

(** *** Objects *)

Definition Lookup (s : machine) (obj lab : Z) : Z :=
  field s (field s (field s obj 0) (u64 (Z.shiftr (s64 lab) 16) / sizeof_value))
    (Z.land (lab / sizeof_value) 255).
Definition do_GETMETHOD (s : machine) : outcome := Next (set_accu (Lookup s (slot s 0) (accu s)) s).

(** *** Machine control *)

Definition do_STOP (s : machine) : outcome :=
  let r := set_external_raise (initial_external_raise I) (rt s) in
  let r := set_extern_sp (sp s) r in
  let r := set_callback_depth (callback_depth (glb r) - 1) r in
  Return (accu s) r.

(** Call the debugger between [Setup_for_debugger] and [Restore_after_debugger]. *)
Definition call_debugger (event : Z) (s : machine) : machine :=
  let s := Setup_for_debugger s in
  Restore_after_debugger (set_rt (debugger event (rt s)) s).
Definition do_EVENT (s : machine) : machine :=
  let n := event_count (glb (rt s)) - 1 in
  let s := set_rt (set_event_count n (rt s)) s in
  if n =? 0 then call_debugger EVENT_COUNT s else s.

(** *** Dispatch *)

(** Every instruction but the two the debugger plants. *)
Definition exec_plain (i : instruction) (s : machine) : outcome :=
  match i with
  | ACC0 => do_ACCn 0 s
  | ACC1 => do_ACCn 1 s
  | ACC2 => do_ACCn 2 s
  | ACC3 => do_ACCn 3 s
  | ACC4 => do_ACCn 4 s
  | ACC5 => do_ACCn 5 s
  | ACC6 => do_ACCn 6 s
  | ACC7 => do_ACCn 7 s
  | PUSH => do_PUSH s
  | PUSHACC0 => do_PUSH s
  | PUSHACC1 => do_PUSHACCn 1 s
  | PUSHACC2 => do_PUSHACCn 2 s
  | PUSHACC3 => do_PUSHACCn 3 s
  | PUSHACC4 => do_PUSHACCn 4 s
  | PUSHACC5 => do_PUSHACCn 5 s
  | PUSHACC6 => do_PUSHACCn 6 s
  | PUSHACC7 => do_PUSHACCn 7 s
  | PUSHACC => do_PUSHACC s
  | ACC => do_ACC s
  | POP => do_POP s
  | ASSIGN => do_ASSIGN s
  | ENVACC1 => do_ENVACCn 1 s
  | ENVACC2 => do_ENVACCn 2 s
  | ENVACC3 => do_ENVACCn 3 s
  | ENVACC4 => do_ENVACCn 4 s
  | PUSHENVACC1 => do_PUSHENVACCn 1 s
  | PUSHENVACC2 => do_PUSHENVACCn 2 s
  | PUSHENVACC3 => do_PUSHENVACCn 3 s
  | PUSHENVACC4 => do_PUSHENVACCn 4 s
  | PUSHENVACC => do_PUSHENVACC s
  | ENVACC => do_ENVACC s
  | PUSH_RETADDR => do_PUSH_RETADDR s
  | APPLY => do_APPLY s
  | APPLY1 => do_APPLY1 s
  | APPLY2 => do_APPLY2 s
  | APPLY3 => do_APPLY3 s
  | APPTERM => do_APPTERM s
  | APPTERM1 => do_APPTERM1 s
  | APPTERM2 => do_APPTERM2 s
  | APPTERM3 => do_APPTERM3 s
  | RETURN => do_RETURN s
  | RESTART => do_RESTART s
  | GRAB => do_GRAB s
  | CLOSURE => do_CLOSURE s
  | CLOSUREREC => do_CLOSUREREC s
  | PUSHOFFSETCLOSURE => do_OFFSETCLOSURE (push (accu s) s)
  | OFFSETCLOSURE => do_OFFSETCLOSURE s
  | PUSHOFFSETCLOSUREM2 => do_OFFSETCLOSUREn (-2) (push (accu s) s)
  | OFFSETCLOSUREM2 => do_OFFSETCLOSUREn (-2) s
  | PUSHOFFSETCLOSURE0 => do_OFFSETCLOSUREn 0 (push (accu s) s)
  | OFFSETCLOSURE0 => do_OFFSETCLOSUREn 0 s
  | PUSHOFFSETCLOSURE2 => do_OFFSETCLOSUREn 2 (push (accu s) s)
  | OFFSETCLOSURE2 => do_OFFSETCLOSUREn 2 s
  | PUSHGETGLOBAL => do_GETGLOBAL (push (accu s) s)
  | GETGLOBAL => do_GETGLOBAL s
  | PUSHGETGLOBALFIELD => do_GETGLOBALFIELD (push (accu s) s)
  | GETGLOBALFIELD => do_GETGLOBALFIELD s
  | SETGLOBAL => do_SETGLOBAL s
  | PUSHATOM0 => do_ATOMn 0 (push (accu s) s)
  | ATOM0 => do_ATOMn 0 s
  | PUSHATOM => do_ATOM (push (accu s) s)
  | ATOM => do_ATOM s
  | MAKEBLOCK => do_MAKEBLOCK s
  | MAKEBLOCK1 => do_MAKEBLOCK1 s
  | MAKEBLOCK2 => do_MAKEBLOCK2 s
  | MAKEBLOCK3 => do_MAKEBLOCK3 s
  | MAKEFLOATBLOCK => do_MAKEFLOATBLOCK s
  | GETFIELD0 => do_GETFIELDn 0 s
  | GETFIELD1 => do_GETFIELDn 1 s
  | GETFIELD2 => do_GETFIELDn 2 s
  | GETFIELD3 => do_GETFIELDn 3 s
  | GETFIELD => do_GETFIELD s
  | GETFLOATFIELD => do_GETFLOATFIELD s
  | SETFIELD0 => do_SETFIELDn 0 s
  | SETFIELD1 => do_SETFIELDn 1 s
  | SETFIELD2 => do_SETFIELDn 2 s
  | SETFIELD3 => do_SETFIELDn 3 s
  | SETFIELD => do_SETFIELD s
  | SETFLOATFIELD => do_SETFLOATFIELD s
  | VECTLENGTH => do_VECTLENGTH s
  | GETVECTITEM => do_GETVECTITEM s
  | SETVECTITEM => do_SETVECTITEM s
  | GETSTRINGCHAR => do_GETSTRINGCHAR s
  | SETSTRINGCHAR => do_SETSTRINGCHAR s
  | BRANCH => do_BRANCH s
  | BRANCHIF => do_BRANCHIF s
  | BRANCHIFNOT => do_BRANCHIFNOT s
  | SWITCH => do_SWITCH s
  | BOOLNOT => do_BOOLNOT s
  | PUSHTRAP => do_PUSHTRAP s
  | POPTRAP => do_POPTRAP s
  | RAISE => raise_exception s
  | CHECK_SIGNALS => do_CHECK_SIGNALS s
  | C_CALL1 => do_C_CALLn 1 s
  | C_CALL2 => do_C_CALLn 2 s
  | C_CALL3 => do_C_CALLn 3 s
  | C_CALL4 => do_C_CALLn 4 s
  | C_CALL5 => do_C_CALLn 5 s
  | C_CALLN => do_C_CALLN s
  | CONST0 => do_CONSTn 0 s
  | CONST1 => do_CONSTn 1 s
  | CONST2 => do_CONSTn 2 s
  | CONST3 => do_CONSTn 3 s
  | PUSHCONST0 => do_CONSTn 0 (push (accu s) s)
  | PUSHCONST1 => do_CONSTn 1 (push (accu s) s)
  | PUSHCONST2 => do_CONSTn 2 (push (accu s) s)
  | PUSHCONST3 => do_CONSTn 3 (push (accu s) s)
  | PUSHCONSTINT => do_CONSTINT (push (accu s) s)
  | CONSTINT => do_CONSTINT s
  | NEGINT => do_NEGINT s
  | ADDINT => binop op_ADDINT s
  | SUBINT => binop op_SUBINT s
  | MULINT => binop op_MULINT s
  | DIVINT => do_division Z.quot s
  | MODINT => do_division Z.rem s
  | ANDINT => binop op_ANDINT s
  | ORINT => binop op_ORINT s
  | XORINT => binop op_XORINT s
  | LSLINT => binop op_LSLINT s
  | LSRINT => binop op_LSRINT s
  | ASRINT => binop op_ASRINT s
  | EQ => Integer_comparison (signed Z.eqb) s
  | NEQ => Integer_comparison (signed (fun a b => negb (a =? b))) s
  | LTINT => Integer_comparison (signed Z.ltb) s
  | LEINT => Integer_comparison (signed Z.leb) s
  | GTINT => Integer_comparison (signed Z.gtb) s
  | GEINT => Integer_comparison (signed Z.geb) s
  | ULTINT => Integer_comparison (unsigned Z.ltb) s
  | UGEINT => Integer_comparison (unsigned Z.geb) s
  | BEQ => Integer_branch_comparison Z.eqb s
  | BNEQ => Integer_branch_comparison (fun a b => negb (a =? b)) s
  | BLTINT => Integer_branch_comparison Z.ltb s
  | BLEINT => Integer_branch_comparison Z.leb s
  | BGTINT => Integer_branch_comparison Z.gtb s
  | BGEINT => Integer_branch_comparison Z.geb s
  | BULTINT => Integer_branch_comparison (unsigned Z.ltb) s
  | BUGEINT => Integer_branch_comparison (unsigned Z.geb) s
  | OFFSETINT => do_OFFSETINT s
  | OFFSETREF => do_OFFSETREF s
  | ISINT => do_ISINT s
  | GETMETHOD => do_GETMETHOD s
  | STOP => do_STOP s
  | EVENT | BREAK => Abort "the saved instruction is itself an event: the dispatch loops"
  end.

(** [Restart_curr_instr]: dispatch on the instruction the debugger replaced. *)
Definition restart_curr_instr (s : machine) : outcome :=
  match decode (ld (saved_code (rt s)) ((pc s - 4 - start_code (rt s)) / 4)) with
  | Some i => exec_plain i s
  | None => Abort "Fatal error: bad opcode"
  end.

Definition exec (i : instruction) (s : machine) : outcome :=
  match i with
  | EVENT => restart_curr_instr (do_EVENT s)
  | BREAK => restart_curr_instr (call_debugger BREAKPOINT s)
  | _ => exec_plain i s
  end.

(** One turn of the loop. *)
Definition step (s : machine) : outcome :=
  match decode (opd s 0) with
  | Some i => exec i (skip 1 s)
  | None => Abort "Fatal error: bad opcode"
  end.

(** [n] turns. *)
Fixpoint run (n : nat) (s : machine) : outcome :=
  match n with
  | O => Next s
  | S n => match step s with Next s' => run n s' | o => o end
  end.

End Interp.

(** [interprete(prog, prog_size)]: [buf] is the address of its [raise_buf]; the
    result is the outcome of at most [fuel] instructions. *)
Definition initial_invocation (r : runtime) : invocation :=
  MkInvocation (s32 (stack_high (stk r) - extern_sp (stk r))) (external_raise (glb r))
    (local_roots (glb r)).
Definition initial_machine (prog buf : Z) (r : runtime) : machine :=
  let r1 := set_callback_depth (callback_depth (glb r) + 1) r in
  let r1 := set_external_raise buf r1 in
  MkMachine prog (extern_sp (stk r1)) (Val_int 0) (Atom r1 0) 0 r1.
Definition interprete {C : Collector} {X : Externals} (fuel : nat) (prog buf : Z) (r : runtime) : outcome :=
  if prog =? 0 then Return Val_unit r
  else run (initial_invocation r) fuel (initial_machine prog buf r).

(** ** A small machine for concrete runs

    A stack of 1024 words, a minor heap of 512 words, no major heap; code at
    address 1000, globals at 20480, atoms at 24576. *)

Fixpoint words (step a : Z) (l : list Z) (m : mem) : mem :=
  match l with
  | [] => m
  | x :: l => words step (a + step) l (st m a x)
  end.

Definition demo_runtime (stack prog globals : list Z) : runtime :=
  let sp := 16384 - 8 * Z.of_nat (length stack) in
  MkRuntime
    (words 8 sp stack (words 8 20480 globals ∅))
    (MkStacks 8192 16384 10240 sp 16384 16392 4096)
    (MkMinor 4096 65536 69632 69632 65536 [] 64 64 320 64 256 false 0)
    (MkMajor 0 0 0 0 ∅ 0 Phase_idle [] 1 true 0 0 0 0 80 4096 0 0 0 0 0 0)
    (MkGlobals 20480 0 1 0 0 false false false 0 24576 0 0 false)
    (words 4 1000 prog ∅) 1000 ∅ [] (fl_static 1000).

Definition demo_externals : Externals := {|
  primitive := fun _ _ => fatal "no primitive";
  process_event := ret tt;
  debugger := fun _ r => r;
  stash_backtrace := fun _ _ _ r => r
|}.

Definition demo_machine (accu : Z) (stack prog globals : list Z) : machine :=
  let r := demo_runtime stack prog globals in
  MkMachine 1000 (extern_sp (stk r)) accu (Atom r 0) 0 r.

Definition demo_invocation : invocation := MkInvocation 0 1 0.

(** [(20 + 22) * 2], compiled as the bytecode compiler does. *)
Example run_arith :
  exists r, run (C := no_collector) (X := demo_externals) demo_invocation 6
    (demo_machine Val_unit []
       [opcode CONSTINT; 22; opcode PUSHCONSTINT; 20; opcode ADDINT;
        opcode PUSHCONST2; opcode MULINT; opcode STOP] []) = Return (Val_long 84) r.
Proof. eexists. vm_compute. reflexivity. Qed.
