(* ===== verification/InterpArith.v ===== *)
(** * Integer instructions

    The instructions on tagged words compute OCaml's 63-bit integers: [int_op],
    [int_cmp] and [int_branch] give the integer function of each opcode, and the
    theorems show that [exec] implements it on tagged operands. *)

From S2P Require Import Runtime Fail Stacks Instruct Interp.

(** ** Tagged words as arithmetic *)

Lemma lor_1 a : Z.lor a 1 = 2 * (a / 2) + 1.
Proof.
  assert (E : Z.lor 1 (a / 2 * 2 ^ 1) = 2 * (a / 2) + 1).
  { rewrite lor_disjoint_add by (change (2 ^ 1) with 2; lia). change (2 ^ 1) with 2. lia. }
  destruct (Z.eq_dec (a mod 2) 0) as [H|H].
  - rewrite <- E, Z.lor_comm. f_equal. change (2 ^ 1) with 2. zlia.
  - rewrite <- E at 1. replace a with (2 * (a / 2) + 1) at 1 by zlia.
    rewrite <- E, (Z.lor_comm 1), <- Z.lor_assoc, Z.lor_diag. done.
Qed.

(** Tagging is the map [n |-> 2n+1] on words: bit operations go through it. *)
Lemma Val_long_lor x : Val_long x = u64 (Z.lor (2 * x) 1).
Proof. rewrite lor_1, Val_long_eq. unfold u64. f_equal. rewrite (Z.mul_comm 2 x), Z.div_mul by lia. lia. Qed.

Lemma testbit_Val_long x n :
  0 <= n -> Z.testbit (Val_long x) n = (n =? 0) || ((n <? 64) && Z.testbit x (n - 1)).
Proof.
  intros Hn. rewrite Val_long_lor. unfold u64. change B64 with (2 ^ 64).
  destruct (Z.ltb_spec n 64).
  - rewrite Z.mod_pow2_bits_low, Z.lor_spec by lia.
    replace (2 * x) with (x * 2 ^ 1) by (change (2 ^ 1) with 2; lia). rewrite Z.mul_pow2_bits by lia.
    destruct (Z.eqb_spec n 0) as [->|].
    + now rewrite orb_true_r.
    + assert (E : Z.testbit 1 n = false) by (apply Z.bits_above_log2; [lia|cbn; lia]).
      rewrite E, orb_false_r. done.
  - rewrite Z.mod_pow2_bits_high by lia. destruct (Z.eqb_spec n 0); [lia|done].
Qed.

Ltac bitwise n := apply Z.bits_inj'; intros n ?;
  rewrite ?Z.land_spec, ?Z.lor_spec, ?Z.lxor_spec, !testbit_Val_long by lia;
  rewrite ?Z.land_spec, ?Z.lor_spec, ?Z.lxor_spec;
  destruct (n =? 0) eqn:?, (n <? 64) eqn:?; cbn [orb andb].

Lemma op_ANDINT_Val x y : op_ANDINT (Val_long x) (Val_long y) = Val_long (Z.land x y).
Proof. unfold op_ANDINT. bitwise n; done. Qed.
Lemma op_ORINT_Val x y : op_ORINT (Val_long x) (Val_long y) = Val_long (Z.lor x y).
Proof. unfold op_ORINT. bitwise n; done. Qed.
Lemma op_XORINT_Val x y : op_XORINT (Val_long x) (Val_long y) = Val_long (Z.lxor x y).
Proof.
  unfold op_XORINT. bitwise n.
  all: destruct (Z.eqb_spec n 0) as [->|]; try done.
  all: assert (E : Z.testbit 1 n = false) by (apply Z.bits_above_log2; [lia|cbn; lia]).
  all: now rewrite E, ?orb_false_r.
Qed.

Lemma op_ADDINT_Val x y : op_ADDINT (Val_long x) (Val_long y) = Val_long (x + y).
Proof. unfold op_ADDINT. rewrite !Val_long_eq. wint. Qed.
Lemma op_SUBINT_Val x y : op_SUBINT (Val_long x) (Val_long y) = Val_long (x - y).
Proof. unfold op_SUBINT. rewrite !Val_long_eq. wint. Qed.
Lemma op_NEGINT_Val x : u64 (2 - Val_long x) = Val_long (- x).
Proof. rewrite !Val_long_eq. wint. Qed.

Lemma Long_val_Val_is63 x : is63 x -> Long_val (Val_long x) = x.
Proof. intros. rewrite Long_val_Val_long. now apply wrap63_id. Qed.

Lemma op_MULINT_Val x y : is63 x -> is63 y -> op_MULINT (Val_long x) (Val_long y) = Val_long (x * y).
Proof. intros. unfold op_MULINT. now rewrite !Long_val_Val_is63. Qed.

Lemma s64_Val_long_pred x : is63 x -> s64 (Val_long x - 1) = 2 * x.
Proof. rewrite is63_eq, Val_long_eq. intros. wint. Qed.
Lemma u64_Val_long_pred x : u64 (Val_long x - 1) = 2 * (x mod B63).
Proof. rewrite Val_long_eq. wint. Qed.

Lemma shiftr_double x n : 0 <= n -> Z.lor (Z.shiftr (2 * x) n) 1 = 2 * Z.shiftr x n + 1.
Proof.
  intros. rewrite lor_1, !Z.shiftr_div_pow2 by lia.
  rewrite Z.div_div by (try apply Z.pow_nonzero; lia).
  rewrite (Z.mul_comm (2 ^ n)), Z.div_mul_cancel_l by (try apply Z.pow_nonzero; lia). lia.
Qed.

Lemma op_LSLINT_Val x y :
  is63 x -> 0 <= y <= 63 -> op_LSLINT (Val_long x) (Val_long y) = Val_long (Z.shiftl x y).
Proof.
  intros Hx Hy. unfold op_LSLINT. rewrite s64_Val_long_pred, Long_val_Val_is63 by (try rewrite is63_eq; try done; lia).
  rewrite !Z.shiftl_mul_pow2, Val_long_eq by lia. unfold u64. f_equal. lia.
Qed.

Lemma op_ASRINT_Val x y :
  is63 x -> 0 <= y <= 63 -> op_ASRINT (Val_long x) (Val_long y) = Val_long (Z.shiftr x y).
Proof.
  intros Hx Hy. unfold op_ASRINT.
  rewrite s64_Val_long_pred, Long_val_Val_is63 by (try rewrite is63_eq; try done; lia).
  rewrite shiftr_double by lia. now rewrite Val_long_eq.
Qed.

Lemma op_LSRINT_Val x y :
  0 <= y <= 63 -> op_LSRINT (Val_long x) (Val_long y) = Val_long (Z.shiftr (x mod B63) y).
Proof.
  intros Hy. unfold op_LSRINT.
  rewrite u64_Val_long_pred, Long_val_Val_is63 by (rewrite is63_eq; lia).
  rewrite shiftr_double, Val_long_eq by lia. rewrite (Z.mod_small (2 * _ + 1)); [done|].
  assert (0 <= Z.shiftr (x mod B63) y <= x mod B63); [|pose proof (Z.mod_pos_bound x B63); lia].
  rewrite Z.shiftr_div_pow2 by lia. pose proof (Z.mod_pos_bound x B63).
  split; [apply Z.div_pos; [lia|apply pow2_pos; lia]|].
  apply Z.div_le_upper_bound; [apply pow2_pos; lia|].
  pose proof (pow2_pos y). assert (1 * (x mod B63) <= 2 ^ y * (x mod B63)); [|lia].
  apply Z.mul_le_mono_nonneg_r; lia.
Qed.

(** ** Arithmetic instructions *)

(** The integer function of a two-operand instruction. *)
Definition int_op (i : instruction) : option (Z -> Z -> Z) :=
  match i with
  | ADDINT => Some Z.add
  | SUBINT => Some Z.sub
  | MULINT => Some Z.mul
  | DIVINT => Some Z.quot
  | MODINT => Some Z.rem
  | ANDINT => Some Z.land
  | ORINT => Some Z.lor
  | XORINT => Some Z.lxor
  | LSLINT => Some Z.shiftl
  | LSRINT => Some (fun x y => Z.shiftr (x mod B63) y)
  | ASRINT => Some Z.shiftr
  | _ => None
  end.

(** The operands for which the C code of the instruction is defined. *)
Definition int_op_dom (i : instruction) (y : Z) : Prop :=
  match i with
  | DIVINT | MODINT => y <> 0
  | LSLINT | LSRINT | ASRINT => 0 <= y <= 63
  | _ => True
  end.

(** The integer relation a comparison computes. *)
Definition int_cmp (i : instruction) : option (Z -> Z -> bool) :=
  match i with
  | EQ => Some Z.eqb
  | NEQ => Some (fun x y => negb (x =? y))
  | LTINT => Some Z.ltb
  | LEINT => Some Z.leb
  | GTINT => Some Z.gtb
  | GEINT => Some Z.geb
  | ULTINT => Some (fun x y => x mod B63 <? y mod B63)
  | UGEINT => Some (fun x y => x mod B63 >=? y mod B63)
  | _ => None
  end.

(** The comparison a compare-and-branch instruction performs. *)
Definition branch_cmp (i : instruction) : option instruction :=
  match i with
  | BEQ => Some EQ
  | BNEQ => Some NEQ
  | BLTINT => Some LTINT
  | BLEINT => Some LEINT
  | BGTINT => Some GTINT
  | BGEINT => Some GEINT
  | BULTINT => Some ULTINT
  | BUGEINT => Some UGEINT
  | _ => None
  end.

Section Arith.
Context {C : Collector} {X : Externals} (I : invocation).

Lemma binop_Val (f : Z -> Z -> Z) z s x y :
  accu s = Val_long x -> slot s 0 = Val_long y ->
  f (Val_long x) (Val_long y) = Val_long z ->
  binop f s = Next (set_accu (Val_long z) (pop 1 s)).
Proof. intros Ha Hs E. unfold binop. now rewrite Ha, Hs, E. Qed.

Lemma do_division_Val f s x y :
  is63 x -> is63 y -> y <> 0 -> accu s = Val_long x -> slot s 0 = Val_long y ->
  do_division I f s = Next (set_accu (Val_long (f x y)) (pop 1 s)).
Proof.
  intros Hx Hy Hy0 Ha Hs. unfold do_division. rewrite Hs, Long_val_Val_is63 by done.
  destruct (Z.eqb_spec y 0); [done|].
  change (accu (pop 1 s)) with (accu s). now rewrite Ha, Long_val_Val_is63.
Qed.

Lemma int_op_spec i f s x y :
  int_op i = Some f -> int_op_dom i y -> is63 x -> is63 y ->
  accu s = Val_long x -> slot s 0 = Val_long y ->
  exec I i s = Next (set_accu (Val_long (f x y)) (pop 1 s)).
Proof.
  intros Hf Hd Hx Hy Ha Hs.
  destruct i; try discriminate Hf; injection Hf as <-; cbn [exec exec_plain int_op_dom] in *;
    try (now apply do_division_Val); apply (binop_Val _ _ _ _ _ Ha Hs).
  - apply op_ADDINT_Val.
  - apply op_SUBINT_Val.
  - now apply op_MULINT_Val.
  - apply op_ANDINT_Val.
  - apply op_ORINT_Val.
  - apply op_XORINT_Val.
  - now apply op_LSLINT_Val.
  - now apply (op_LSRINT_Val x y).
  - now apply op_ASRINT_Val.
Qed.

(** Signed words compare like the integers they tag. *)
Lemma s64_Val_long x : is63 x -> s64 (Val_long x) = 2 * x + 1.
Proof. rewrite is63_eq, Val_long_eq. intros. wint. Qed.
Lemma u64_Val_long x : u64 (Val_long x) = 2 * (x mod B63) + 1.
Proof. rewrite Val_long_eq. wint. Qed.

Ltac cmp_case := intros; unfold signed, unsigned; rewrite ?s64_Val_long, ?u64_Val_long by done;
  rewrite ?Z.gtb_ltb, ?Z.geb_leb; zcases; try done; lia.

Lemma signed_eqb_Val x y : is63 x -> is63 y -> signed Z.eqb (Val_long x) (Val_long y) = (x =? y).
Proof. cmp_case. Qed.
Lemma signed_ltb_Val x y : is63 x -> is63 y -> signed Z.ltb (Val_long x) (Val_long y) = (x <? y).
Proof. cmp_case. Qed.
Lemma signed_leb_Val x y : is63 x -> is63 y -> signed Z.leb (Val_long x) (Val_long y) = (x <=? y).
Proof. cmp_case. Qed.
Lemma unsigned_ltb_Val x y :
  unsigned Z.ltb (Val_long x) (Val_long y) = (x mod B63 <? y mod B63).
Proof. cmp_case. Qed.

Lemma int_cmp_spec i f s x y :
  int_cmp i = Some f -> is63 x -> is63 y -> accu s = Val_long x -> slot s 0 = Val_long y ->
  exec I i s = Next (set_accu (Val_int (if f x y then 1 else 0)) (pop 1 s)).
Proof.
  intros Hf Hx Hy Ha Hs.
  destruct i; try discriminate Hf; injection Hf as <-; cbn [exec exec_plain];
    unfold Integer_comparison, binop; rewrite Ha, Hs;
    unfold signed, unsigned; rewrite ?s64_Val_long, ?u64_Val_long by done;
    rewrite ?Z.gtb_ltb, ?Z.geb_leb; zcases; try reflexivity; exfalso; lia.
Qed.

(** A compare-and-branch takes the branch exactly when the comparison of its
    operand with the accumulator holds. *)
Lemma int_branch_spec i c f s x :
  branch_cmp i = Some c -> int_cmp c = Some f -> is63 x -> iss32 (opd s 0) ->
  accu s = Val_long x ->
  exec I i s = Next (if f (opd s 0) x then jump (skip 1 s) else skip 2 s).
Proof.
  intros Hc Hf Hx Hn Ha. pose proof Hx as Hx'. rewrite is63_eq in Hx'. unfold iss32 in Hn.
  assert (Es : skip 1 (skip 1 s) = skip 2 s) by apply skip_skip.
  destruct i; try discriminate Hc; injection Hc as <-; injection Hf as <-; cbn [exec exec_plain];
    unfold Integer_branch_comparison; change (accu (skip 1 s)) with (accu s);
    rewrite Ha, Long_val_Val_is63, Es by done; f_equal.
  all: unfold unsigned, u64; rewrite ?Z.geb_leb; zcases; try reflexivity; exfalso; zlia.
Qed.

Lemma OFFSETINT_spec s x :
  accu s = Val_long x -> - 2 ^ 30 <= opd s 0 < 2 ^ 30 ->
  exec I OFFSETINT s = Next (skip 1 (set_accu (Val_long (x + opd s 0)) s)).
Proof.
  intros Ha Hn. cbn [exec exec_plain]. unfold do_OFFSETINT. rewrite Ha, Z.shiftl_mul_pow2 by lia.
  change (2 ^ 1) with 2. change (2 ^ 30) with 1073741824 in Hn.
  rewrite s32_id by (unfold iss32; lia). rewrite !Val_long_eq. do 3 f_equal. wint.
Qed.

End Arith.

(** ** The claims *)

(** C32: on tagged operands every arithmetic, logical and shift instruction leaves
    the tagged result of OCaml's operation on 63-bit integers ([Val_long] wraps
    modulo 2^63) and pops one operand. *)
Theorem int_op_correct {C : Collector} {X : Externals} I i f s x y :
  int_op i = Some f -> int_op_dom i y -> is63 x -> is63 y ->
  accu s = Val_long x -> slot s 0 = Val_long y ->
  exec I i s = Next (set_accu (Val_long (f x y)) (pop 1 s)) /\
  Long_val (Val_long (f x y)) = wrap63 (f x y).
Proof. intros. split; [now apply int_op_spec|apply Long_val_Val_long]. Qed.

Lemma int_op_correct_witness :
  let s := demo_machine (Val_long Max_long) [Val_long 2] [] [] in
  exec (C := no_collector) (X := demo_externals) demo_invocation MULINT s =
    Next (set_accu (Val_long (Max_long * 2)) (pop 1 s)) /\
  Long_val (Val_long (Max_long * 2)) = wrap63 (Max_long * 2).
Proof.
  intros s. apply (@int_op_correct no_collector demo_externals demo_invocation MULINT Z.mul s Max_long 2);
    [reflexivity|exact Logic.I|rewrite is63_eq; vm_compute; split; discriminate
    |rewrite is63_eq; lia|reflexivity|vm_compute; reflexivity].
Defined.

(** The comparison instructions decide the order of the integers, signed or
    unsigned on 63 bits, and each compare-and-branch instruction takes its branch
    exactly when that comparison of its operand with the accumulator holds. *)
Theorem int_cmp_correct {C : Collector} {X : Externals} I i f s x y :
  int_cmp i = Some f -> is63 x -> is63 y -> accu s = Val_long x ->
  (slot s 0 = Val_long y ->
   exec I i s = Next (set_accu (Val_int (if f x y then 1 else 0)) (pop 1 s))) /\
  (forall b, branch_cmp b = Some i -> iss32 (opd s 0) ->
   exec I b s = Next (if f (opd s 0) x then jump (skip 1 s) else skip 2 s)).
Proof.
  intros. split.
  - intros. now apply int_cmp_spec.
  - intros. now apply (int_branch_spec I b i).
Qed.

Lemma int_cmp_correct_witness :
  let s := demo_machine (Val_long (-1)) [Val_long 3] [7; 5] [] in
  (slot s 0 = Val_long 3 ->
   exec (C := no_collector) (X := demo_externals) demo_invocation ULTINT s =
     Next (set_accu (Val_int 0) (pop 1 s))) /\
  (forall b, branch_cmp b = Some ULTINT -> iss32 (opd s 0) ->
   exec (C := no_collector) (X := demo_externals) demo_invocation b s = Next (jump (skip 1 s))).
Proof.
  intros s.
  apply (@int_cmp_correct no_collector demo_externals demo_invocation ULTINT
    (fun x y => x mod B63 <? y mod B63) s (-1) 3);
    [reflexivity|rewrite is63_eq; lia|rewrite is63_eq; lia|reflexivity].
Defined.
