(* ===== verification/InterpFused.v ===== *)
(** * Specialised and fused instructions

    Most instructions of the interpreter are short forms: [ACC3] of [ACC 3],
    [PUSHENVACC2] of [PUSHENVACC 2], [APPTERM2 n] of [APPTERM 2 n], [MAKEBLOCK3 t]
    of [MAKEBLOCK 3 t], and the [PUSH...] forms of a push followed by the plain
    instruction.  The theorems show that each short form behaves as the long one,
    garbage collection and exceptions included. *)

From S2P Require Import Runtime Memory Fail Stacks Instruct Interp.

(** The long form of an instruction and its first operand. *)
Definition general (i : instruction) : option (instruction * Z) :=
  match i with
  | ACC0 => Some (ACC, 0) | ACC1 => Some (ACC, 1) | ACC2 => Some (ACC, 2) | ACC3 => Some (ACC, 3)
  | ACC4 => Some (ACC, 4) | ACC5 => Some (ACC, 5) | ACC6 => Some (ACC, 6) | ACC7 => Some (ACC, 7)
  | PUSHACC0 => Some (PUSHACC, 0) | PUSHACC1 => Some (PUSHACC, 1) | PUSHACC2 => Some (PUSHACC, 2)
  | PUSHACC3 => Some (PUSHACC, 3) | PUSHACC4 => Some (PUSHACC, 4) | PUSHACC5 => Some (PUSHACC, 5)
  | PUSHACC6 => Some (PUSHACC, 6) | PUSHACC7 => Some (PUSHACC, 7)
  | ENVACC1 => Some (ENVACC, 1) | ENVACC2 => Some (ENVACC, 2) | ENVACC3 => Some (ENVACC, 3)
  | ENVACC4 => Some (ENVACC, 4)
  | PUSHENVACC1 => Some (PUSHENVACC, 1) | PUSHENVACC2 => Some (PUSHENVACC, 2)
  | PUSHENVACC3 => Some (PUSHENVACC, 3) | PUSHENVACC4 => Some (PUSHENVACC, 4)
  | APPTERM1 => Some (APPTERM, 1) | APPTERM2 => Some (APPTERM, 2) | APPTERM3 => Some (APPTERM, 3)
  | OFFSETCLOSUREM2 => Some (OFFSETCLOSURE, -2) | OFFSETCLOSURE0 => Some (OFFSETCLOSURE, 0)
  | OFFSETCLOSURE2 => Some (OFFSETCLOSURE, 2)
  | PUSHOFFSETCLOSUREM2 => Some (PUSHOFFSETCLOSURE, -2)
  | PUSHOFFSETCLOSURE0 => Some (PUSHOFFSETCLOSURE, 0)
  | PUSHOFFSETCLOSURE2 => Some (PUSHOFFSETCLOSURE, 2)
  | ATOM0 => Some (ATOM, 0) | PUSHATOM0 => Some (PUSHATOM, 0)
  | MAKEBLOCK1 => Some (MAKEBLOCK, 1) | MAKEBLOCK2 => Some (MAKEBLOCK, 2)
  | MAKEBLOCK3 => Some (MAKEBLOCK, 3)
  | GETFIELD0 => Some (GETFIELD, 0) | GETFIELD1 => Some (GETFIELD, 1)
  | GETFIELD2 => Some (GETFIELD, 2) | GETFIELD3 => Some (GETFIELD, 3)
  | SETFIELD0 => Some (SETFIELD, 0) | SETFIELD1 => Some (SETFIELD, 1)
  | SETFIELD2 => Some (SETFIELD, 2) | SETFIELD3 => Some (SETFIELD, 3)
  | CONST0 => Some (CONSTINT, 0) | CONST1 => Some (CONSTINT, 1) | CONST2 => Some (CONSTINT, 2)
  | CONST3 => Some (CONSTINT, 3)
  | PUSHCONST0 => Some (PUSHCONSTINT, 0) | PUSHCONST1 => Some (PUSHCONSTINT, 1)
  | PUSHCONST2 => Some (PUSHCONSTINT, 2) | PUSHCONST3 => Some (PUSHCONSTINT, 3)
  | _ => None
  end.

(** What the compiler guarantees of the operands: a tail call's frame is at least
    as large as its arguments. *)
Definition general_dom (i : instruction) (s : machine) : Prop :=
  match i with
  | APPTERM1 => 1 <= opd s 0
  | APPTERM2 => 2 <= opd s 0
  | APPTERM3 => 3 <= opd s 0
  | _ => True
  end.

(** The plain instruction a [PUSH...] form ends with. *)
Definition fused (i : instruction) : option instruction :=
  match i with
  | PUSHACC1 => Some ACC1 | PUSHACC2 => Some ACC2 | PUSHACC3 => Some ACC3 | PUSHACC4 => Some ACC4
  | PUSHACC5 => Some ACC5 | PUSHACC6 => Some ACC6 | PUSHACC7 => Some ACC7 | PUSHACC => Some ACC
  | PUSHACC0 => Some ACC0
  | PUSHENVACC1 => Some ENVACC1 | PUSHENVACC2 => Some ENVACC2 | PUSHENVACC3 => Some ENVACC3
  | PUSHENVACC4 => Some ENVACC4 | PUSHENVACC => Some ENVACC
  | PUSHOFFSETCLOSUREM2 => Some OFFSETCLOSUREM2 | PUSHOFFSETCLOSURE0 => Some OFFSETCLOSURE0
  | PUSHOFFSETCLOSURE2 => Some OFFSETCLOSURE2 | PUSHOFFSETCLOSURE => Some OFFSETCLOSURE
  | PUSHGETGLOBAL => Some GETGLOBAL | PUSHGETGLOBALFIELD => Some GETGLOBALFIELD
  | PUSHATOM0 => Some ATOM0 | PUSHATOM => Some ATOM
  | PUSHCONST0 => Some CONST0 | PUSHCONST1 => Some CONST1 | PUSHCONST2 => Some CONST2
  | PUSHCONST3 => Some CONST3 | PUSHCONSTINT => Some CONSTINT
  | _ => None
  end.

(** ** Short forms *)

Lemma opd_back s n : opd s (-1) = n -> opd (skip (-1) s) 0 = n.
Proof. intros <-. unfold opd, skip, set_pc. cbn [pc rt]. f_equal. lia. Qed.
Lemma opd_back1 s : opd (skip (-1) s) 1 = opd s 0.
Proof. unfold opd, skip, set_pc. cbn [pc rt]. f_equal. lia. Qed.
Lemma skip_back s : skip 1 (skip (-1) s) = s.
Proof. rewrite skip_skip. unfold skip, set_pc. replace (pc s + 4 * (-1 + 1)) with (pc s) by lia. done. Qed.
Lemma skip2_back s : skip 2 (skip (-1) s) = skip 1 s.
Proof. now rewrite skip_skip. Qed.
Lemma set_accu_skip v n s : skip n (set_accu v s) = set_accu v (skip n s).
Proof. done. Qed.
Lemma push_skip v n s : push v (skip n s) = skip n (push v s).
Proof. done. Qed.
Lemma opd_push v s i : opd (push v s) i = opd s i.
Proof. done. Qed.

(** The accumulator is what was just pushed. *)
Lemma push_ACC0 s : set_accu (slot (push (accu s) s) 0) (push (accu s) s) = push (accu s) s.
Proof.
  unfold slot, push, set_slot, set_smem, smem, set_sp, set_rt, set_rmem, set_accu.
  cbn [rt sp accu rmem pc env extra_args]. now rewrite ld_st_eq.
Qed.

(** Sliding the arguments of a tail call upwards copies them. *)
Lemma slide1 newsp sp m : slide 1 newsp sp m = st m newsp (ld m sp).
Proof. cbn [slide]. f_equal; [|f_equal]; lia. Qed.
Lemma slide2 newsp sp m :
  sp <= newsp -> slide 2 newsp sp m = st (st m newsp (ld m sp)) (newsp + 8) (ld m (sp + 8)).
Proof.
  intros. cbn [slide]. rewrite !Z.add_0_r. change (8 * Z.of_nat 1) with 8.
  rewrite ld_st_ne by lia. unfold st. apply insert_insert_ne. lia.
Qed.
Lemma slide3 newsp sp m :
  sp <= newsp ->
  slide 3 newsp sp m =
  st (st (st m newsp (ld m sp)) (newsp + 8) (ld m (sp + 8))) (newsp + 16) (ld m (sp + 16)).
Proof.
  intros. change (slide 3 newsp sp m)
    with (slide 2 newsp sp (st m (newsp + 8 * Z.of_nat 2) (ld m (sp + 8 * Z.of_nat 2)))).
  change (8 * Z.of_nat 2) with 16. rewrite slide2 by done. rewrite !ld_st_ne by lia.
  unfold st. rewrite (insert_insert_ne _ newsp (newsp + 16)) by lia.
  apply insert_insert_ne. lia.
Qed.

Section Fused.
Context {C : Collector} {X : Externals} (I : invocation).

(** The common end of the tail calls. *)
Lemma APPTERM_mem n s m :
  opd s (-1) = n ->
  slide (Z.to_nat n) (sp s + 8 * (opd s 0 - n)) (sp s) (smem s) = m ->
  do_APPTERM I (skip (-1) s) =
  check_stacks I (set_extra_args (extra_args s + (n - 1))
    (enter (set_smem m (set_sp (sp s + 8 * (opd s 0 - n)) s)))).
Proof.
  intros H <-. unfold do_APPTERM. rewrite (opd_back _ _ H), opd_back1. reflexivity.
Qed.

Lemma APPTERM1_general s :
  opd s (-1) = 1 -> do_APPTERM1 I s = do_APPTERM I (skip (-1) s).
Proof.
  intros H. rewrite (APPTERM_mem 1 s _ H (slide1 _ _ _)). unfold do_APPTERM1, slot.
  rewrite set_slot_eq, !Z.mul_0_r, !Z.add_0_r. reflexivity.
Qed.

Lemma APPTERM2_general s :
  opd s (-1) = 2 -> 2 <= opd s 0 -> do_APPTERM2 I s = do_APPTERM I (skip (-1) s).
Proof.
  intros H Hn. erewrite (APPTERM_mem 2 s _ H) by (apply slide2; lia).
  unfold do_APPTERM2, slot. rewrite (set_slot_eq 0), set_slot_smem, !Z.mul_0_r, !Z.add_0_r.
  reflexivity.
Qed.

Lemma APPTERM3_general s :
  opd s (-1) = 3 -> 3 <= opd s 0 -> do_APPTERM3 I s = do_APPTERM I (skip (-1) s).
Proof.
  intros H Hn. erewrite (APPTERM_mem 3 s _ H) by (apply slide3; lia).
  unfold do_APPTERM3, slot. rewrite (set_slot_eq 0), !set_slot_smem, !Z.mul_0_r, !Z.add_0_r.
  reflexivity.
Qed.

(** Equal continuations give equal allocations. *)
Lemma alloc_block_ext wosize tag s k k' :
  (forall v s', k v s' = k' v s') -> alloc_block I wosize tag s k = alloc_block I wosize tag s k'.
Proof.
  intros E. unfold alloc_block, call_c. destruct (_ <? _); [|apply E].
  destruct (minor_collection _ _); [apply E|done|done].
Qed.

Lemma pop_0 s : pop 0 s = s.
Proof. unfold pop, set_sp. now rewrite Z.add_0_r. Qed.

Lemma copy_up1 dst src m : copy_up 1 dst src m = st m dst (ld m src).
Proof. done. Qed.
Lemma copy_up2 dst src m :
  copy_up 2 dst src m = st (st m dst (ld m src)) (dst + 8) (ld (st m dst (ld m src)) (src + 8)).
Proof. done. Qed.

Lemma MAKEBLOCKn_general s n :
  1 <= n <= 3 -> opd s (-1) = n ->
  match n with 1 => do_MAKEBLOCK1 I s | 2 => do_MAKEBLOCK2 I s | _ => do_MAKEBLOCK3 I s end
  = do_MAKEBLOCK I (skip (-1) s).
Proof.
  intros Hn H. unfold do_MAKEBLOCK, do_MAKEBLOCK1, do_MAKEBLOCK2, do_MAKEBLOCK3.
  rewrite (opd_back _ _ H), opd_back1, skip2_back.
  assert (n = 1 \/ n = 2 \/ n = 3) as [->|[->| ->]] by lia; apply alloc_block_ext; intros v t.
  - change (Z.to_nat (1 - 1)) with 0%nat. cbn [copy_up]. rewrite pop_0. done.
  - change (Z.to_nat (2 - 1)) with 1%nat. rewrite copy_up1.
    unfold slot. now rewrite Z.mul_0_r, Z.add_0_r.
  - change (Z.to_nat (3 - 1)) with 2%nat. rewrite copy_up2. do 3 f_equal.
    unfold slot, set_field, set_smem, smem, set_rt, set_rmem, set_Field, Field_addr.
    cbn [rt sp accu rmem pc env extra_args].
    change (8 * 1) with 8. change (1 * sizeof_value) with 8. change (2 * sizeof_value) with 16.
    rewrite Z.mul_0_r, !Z.add_0_r. replace (v + 8 + 8) with (v + 16) by lia. done.
Qed.

(** The families whose only effect is on the accumulator. *)
Lemma short_accu v s : Next (skip 1 (set_accu v (skip (-1) s))) = Next (set_accu v s).
Proof. rewrite set_accu_skip, skip_back. done. Qed.

Section Short.
Context (s : machine) (n : Z) (Hn : opd s (-1) = n).

Lemma ACC_short : do_ACCn n s = do_ACC (skip (-1) s).
Proof. unfold do_ACC. rewrite (opd_back _ _ Hn), short_accu. done. Qed.
Lemma ENVACC_short : do_ENVACCn n s = do_ENVACC (skip (-1) s).
Proof. unfold do_ENVACC. rewrite (opd_back _ _ Hn), short_accu. done. Qed.
Lemma OFFSETCLOSURE_short : do_OFFSETCLOSUREn n s = do_OFFSETCLOSURE (skip (-1) s).
Proof. unfold do_OFFSETCLOSURE. rewrite (opd_back _ _ Hn), short_accu. done. Qed.
Lemma ATOM_short : do_ATOMn n s = do_ATOM (skip (-1) s).
Proof. unfold do_ATOM. rewrite (opd_back _ _ Hn), short_accu. done. Qed.
Lemma GETFIELD_short : do_GETFIELDn n s = do_GETFIELD (skip (-1) s).
Proof. unfold do_GETFIELD. rewrite (opd_back _ _ Hn), short_accu. done. Qed.
Lemma CONST_short : do_CONSTn n s = do_CONSTINT (skip (-1) s).
Proof. unfold do_CONSTINT. rewrite (opd_back _ _ Hn), short_accu. done. Qed.
Lemma SETFIELD_short : do_SETFIELDn I n s = do_SETFIELD I (skip (-1) s).
Proof. unfold do_SETFIELD. rewrite (opd_back _ _ Hn), skip_back. done. Qed.
End Short.

(** Their [PUSH...] forms: pushing does not read the code. *)
Lemma push_short (d : Z -> machine -> outcome) (g : machine -> outcome) s n :
  (forall t, opd t (-1) = n -> d n t = g (skip (-1) t)) -> opd s (-1) = n ->
  d n (push (accu s) s) = g (push (accu (skip (-1) s)) (skip (-1) s)).
Proof. intros H Hn. rewrite push_skip. apply H. now rewrite opd_push. Qed.

Lemma PUSHACC0_short s : opd s (-1) = 0 -> do_PUSH s = do_PUSHACC (skip (-1) s).
Proof.
  intros H. unfold do_PUSHACC.
  rewrite <- (push_short _ _ _ _ (fun t => ACC_short t 0) H). unfold do_ACCn, do_PUSH.
  now rewrite push_ACC0.
Qed.

Lemma general_spec i g n s :
  general i = Some (g, n) -> opd s (-1) = n -> general_dom i s ->
  exec I i s = exec I g (skip (-1) s).
Proof.
  intros Hg Hn Hd.
  destruct i; try discriminate Hg; injection Hg as <- <-; cbn [exec exec_plain general_dom] in *.
  all: lazymatch goal with
  | |- do_ACCn _ _ = _ => now apply ACC_short
  | |- do_PUSH _ = _ => now apply PUSHACC0_short
  | |- do_PUSHACCn ?k _ = _ => exact (push_short _ _ s k (fun t => ACC_short t k) Hn)
  | |- do_ENVACCn _ _ = _ => now apply ENVACC_short
  | |- do_PUSHENVACCn ?k _ = _ => exact (push_short _ _ s k (fun t => ENVACC_short t k) Hn)
  | |- do_APPTERM1 _ _ = _ => now apply APPTERM1_general
  | |- do_APPTERM2 _ _ = _ => now apply APPTERM2_general
  | |- do_APPTERM3 _ _ = _ => now apply APPTERM3_general
  | |- do_OFFSETCLOSUREn ?k (push _ _) = _ =>
      exact (push_short _ _ s k (fun t => OFFSETCLOSURE_short t k) Hn)
  | |- do_OFFSETCLOSUREn _ _ = _ => now apply OFFSETCLOSURE_short
  | |- do_ATOMn ?k (push _ _) = _ => exact (push_short _ _ s k (fun t => ATOM_short t k) Hn)
  | |- do_ATOMn _ _ = _ => now apply ATOM_short
  | |- do_MAKEBLOCK1 _ _ = _ => now apply (MAKEBLOCKn_general s 1)
  | |- do_MAKEBLOCK2 _ _ = _ => now apply (MAKEBLOCKn_general s 2)
  | |- do_MAKEBLOCK3 _ _ = _ => now apply (MAKEBLOCKn_general s 3)
  | |- do_GETFIELDn _ _ = _ => now apply GETFIELD_short
  | |- do_SETFIELDn _ _ _ = _ => now apply SETFIELD_short
  | |- do_CONSTn ?k (push _ _) = _ => exact (push_short _ _ s k (fun t => CONST_short t k) Hn)
  | |- do_CONSTn _ _ = _ => now apply CONST_short
  end.
Qed.

(** ** Fused forms *)

Lemma fused_spec i j s :
  fused i = Some j ->
  exec I i s = match exec I PUSH s with Next s' => exec I j s' | o => o end.
Proof.
  intros Hf. destruct i; try discriminate Hf; injection Hf as <-; try reflexivity.
  cbn [exec exec_plain]. unfold do_PUSH, do_ACCn. now rewrite push_ACC0.
Qed.
End Fused.

(** ** The claims *)

(** C35: every specialised instruction behaves as the general instruction with its
    operand: on code that has the operand in front of the remaining ones, running
    the one or the other gives the same outcome, whether it continues, collects,
    raises or stops. *)
Theorem general_correct {C : Collector} {X : Externals} I i g n s :
  general i = Some (g, n) -> opd s (-1) = n -> general_dom i s ->
  exec I i s = exec I g (skip (-1) s).
Proof. apply general_spec. Qed.

Lemma general_correct_witness :
  let s := skip 1 (demo_machine (Val_long 5) [Val_long 6; Val_long 7; Val_long 8] [3; 4; 9] []) in
  exec (C := no_collector) (X := demo_externals) demo_invocation APPTERM3 s =
  exec (C := no_collector) (X := demo_externals) demo_invocation APPTERM (skip (-1) s).
Proof.
  intros s. apply (general_correct demo_invocation APPTERM3 APPTERM 3);
    [reflexivity|vm_compute; reflexivity|vm_compute; discriminate].
Defined.

(** Every fused [PUSH...] instruction behaves as [PUSH] followed by the plain
    instruction. *)
Theorem fused_correct {C : Collector} {X : Externals} I i j s :
  fused i = Some j ->
  exec I i s = match exec I PUSH s with Next s' => exec I j s' | o => o end.
Proof. apply fused_spec. Qed.

Lemma fused_correct_witness :
  let s := demo_machine (Val_long 5) [Val_long 6] [] [] in
  exec (C := no_collector) (X := demo_externals) demo_invocation PUSHACC1 s =
  match exec (C := no_collector) (X := demo_externals) demo_invocation PUSH s with
  | Next s' => exec (C := no_collector) (X := demo_externals) demo_invocation ACC1 s'
  | o => o
  end.
Proof. intros s. now apply (fused_correct demo_invocation PUSHACC1 ACC1). Defined.
