(* ===== verification/InterpCalls.v ===== *)
(** * Calls, partial applications, closures and exceptions

    The protocol of the interpreter's stack frames: a call saves the return
    address, the environment and the pending arguments where [RETURN] finds them;
    a partial application built by [GRAB] is undone by [RESTART]; the frame of
    [PUSHTRAP] is what [RAISE] and [POPTRAP] restore; the closures of
    [CLOSUREREC] reach each other and their block. *)

From S2P Require Import Runtime Memory Fail Stacks Instruct Interp.

(** ** Frames *)

(** The three words a call saves, at slot [k]. *)
Definition saved_frame (s : machine) (k p e x : Z) : Prop :=
  slot s k = p /\ slot s (k + 1) = e /\ slot s (k + 2) = Val_long x.

(** The stack has room and no signal is pending: [check_stacks] falls through. *)
Definition calm (s : machine) : bool :=
  (stack_threshold (stk (rt s)) <=? sp s) && negb (something_to_do (glb (rt s))).

(** The number of arguments of an application instruction. *)
Definition apply_args (i : instruction) : option Z :=
  match i with APPLY1 => Some 1 | APPLY2 => Some 2 | APPLY3 => Some 3 | _ => None end.

Lemma slot_set_slot i v s j : slot (set_slot i v s) j = if i =? j then v else slot s j.
Proof.
  unfold slot. rewrite set_slot_eq. change (smem (set_smem ?m s)) with m.
  change (sp (set_smem _ s)) with (sp s). rewrite ld_st. zcases; try done; lia.
Qed.
Lemma slot_set_slot_eq i v s : slot (set_slot i v s) i = v.
Proof. now rewrite slot_set_slot, Z.eqb_refl. Qed.
Lemma slot_set_slot_ne i v s j : i <> j -> slot (set_slot i v s) j = slot s j.
Proof. rewrite slot_set_slot. destruct (Z.eqb_spec i j); [lia|done]. Qed.
#[export] Hint Rewrite slot_set_slot_eq : mem.
#[export] Hint Rewrite slot_set_slot_ne using lia : mem.

(** A slot of the machine with its stack pointer moved. *)
Lemma slot_set_sp d s i : slot (set_sp (sp s + 8 * d) s) i = slot s (d + i).
Proof. unfold slot. cbn [sp set_sp]. change (smem (set_sp _ s)) with (smem s). f_equal. lia. Qed.

Lemma smem_set_slot_ne i v s a : a <> sp s + 8 * i -> ld (smem (set_slot i v s)) a = ld (smem s) a.
Proof. intros. rewrite set_slot_eq. apply ld_st_ne. congruence. Qed.

Section Calls.
Context {C : Collector} {X : Externals} (I : invocation).

Lemma check_stacks_calm s : calm s = true -> check_stacks I s = Next s.
Proof.
  unfold calm, check_stacks, do_CHECK_SIGNALS. intros [H1 H2]%andb_true_iff.
  apply Z.leb_le in H1. destruct (Z.ltb_spec (sp s) (stack_threshold (stk (rt s)))); [lia|].
  now destruct (something_to_do (glb (rt s))).
Qed.

(** [RETURN n] with no pending argument pops the frame below its [n] locals. *)
Lemma RETURN_frame s n p e x :
  extra_args s = 0 -> opd s 0 = n -> saved_frame s n p e x -> is63 x ->
  exec I RETURN s = Next (MkMachine p (sp s + 8 * (n + 3)) (accu s) e x (rt s)).
Proof.
  intros Hx <- (H1 & H2 & H3) Hx63. cbn [exec exec_plain]. unfold do_RETURN.
  change (extra_args (skip 1 _)) with (extra_args s). rewrite Hx. cbn [Z.ltb Z.compare].
  unfold return_to_caller.
  change (slot (set_env _ (set_pc _ ?t)) 2) with (slot t 2).
  change (slot (set_pc _ ?t) 1) with (slot t 1).
  change (slot (skip 1 (pop ?n s)) ?i) with (slot (set_sp (sp s + 8 * n) s) i).
  rewrite !slot_set_sp, Z.add_0_r, H1, H2, H3, Long_val_Val_long, wrap63_id by done.
  unfold pop, skip, set_sp, set_extra_args, set_env, set_pc. cbn [pc sp accu env extra_args rt].
  do 2 f_equal. lia.
Qed.

(** With pending arguments, the value returned is applied to them. *)
Lemma RETURN_pending s :
  0 < extra_args s ->
  exec I RETURN s =
  Next (MkMachine (Code_val (smem s) (accu s)) (sp s + 8 * opd s 0) (accu s) (accu s)
          (extra_args s - 1) (rt s)).
Proof.
  intros Hx. cbn [exec exec_plain]. unfold do_RETURN.
  change (extra_args (skip 1 _)) with (extra_args s).
  destruct (Z.ltb_spec 0 (extra_args s)); [done|lia].
Qed.

(** What an application has done when the callee starts. *)
Definition called (n : Z) (s s1 : machine) : Prop :=
  pc s1 = Code_val (smem s1) (accu s) /\ env s1 = accu s /\ accu s1 = accu s /\
  extra_args s1 = n - 1 /\ sp s1 = sp s - 24 /\
  (forall i, 0 <= i < n -> slot s1 i = slot s i) /\
  saved_frame s1 n (pc s) (env s) (extra_args s) /\
  (forall a, a < sp s - 24 \/ sp s + 8 * n <= a -> ld (smem s1) a = ld (smem s) a).

(** The stack pointer of the callee is in range and nothing is pending. *)
Lemma calm_push s t :
  calm (set_sp (sp s - 24) s) = true -> stk (rt t) = stk (rt s) -> glb (rt t) = glb (rt s) ->
  sp t = sp s - 24 -> calm t = true.
Proof. unfold calm. cbn [sp set_sp rt]. intros H -> -> ->. done. Qed.

Lemma APPLYn_called i n s :
  apply_args i = Some n -> calm (set_sp (sp s - 24) s) = true ->
  exists s1, exec I i s = Next s1 /\ called n s s1.
Proof.
  intros Hi Hc.
  destruct i; try discriminate Hi; injection Hi as <-; cbn [exec exec_plain];
    unfold do_APPLY1, do_APPLY2, do_APPLY3;
    (rewrite check_stacks_calm by (now apply (calm_push s)));
    (eexists; split; [reflexivity|]); unfold called, saved_frame.
  all: match goal with |- context [set_extra_args _ (enter ?t)] => set (t' := t) end.
  all: change (slot (set_extra_args _ (enter t')) ?i) with (slot t' i).
  all: cbn [pc env accu extra_args sp enter set_extra_args set_env set_pc].
  all: change (smem (set_extra_args _ (enter t'))) with (smem t').
  all: splits; try done.
  all: try (unfold t'; autorewrite with mem; reflexivity).
  all: try (intros j Hj; assert (j = 0 \/ j = 1 \/ j = 2) as [->|[->| ->]] by lia; try lia;
            unfold t'; autorewrite with mem; reflexivity).
  all: intros a Ha; unfold t'; rewrite !smem_set_slot_ne; try done; cbn [sp set_slot set_smem set_sp set_rt]; lia.
Qed.

(** The general call: [PUSH_RETADDR] saves the frame below the arguments. *)
Lemma PUSH_RETADDR_frame s :
  exists s1, exec I PUSH_RETADDR s = Next s1 /\
    saved_frame s1 0 (code_ptr s 0) (env s) (extra_args s) /\ sp s1 = sp s - 24 /\
    pc s1 = pc s + 4 /\ accu s1 = accu s /\ env s1 = env s /\ extra_args s1 = extra_args s /\
    (forall i, 0 <= i -> slot s1 (3 + i) = slot s i).
Proof.
  cbn [exec exec_plain]. unfold do_PUSH_RETADDR. eexists. split; [reflexivity|].
  unfold saved_frame. change (slot (skip 1 ?t) ?i) with (slot t i).
  splits; try done; try (autorewrite with mem; reflexivity).
  intros j Hj. autorewrite with mem.
  replace (sp s - 24) with (sp s + 8 * (-3)) by lia. rewrite slot_set_sp. f_equal. lia.
Qed.

Lemma APPLY_called s :
  calm s = true ->
  exec I APPLY s = Next (MkMachine (Code_val (smem s) (accu s)) (sp s) (accu s) (accu s)
                           (opd s 0 - 1) (rt s)).
Proof. intros H. cbn [exec exec_plain]. unfold do_APPLY. now rewrite check_stacks_calm. Qed.
End Calls.

(** ** Copying between the stack and the heap *)

Lemma ld_copy_up n : forall dst src m a,
  src + 8 * Z.of_nat n <= dst \/ dst + 8 * Z.of_nat n <= src ->
  ld (copy_up n dst src m) a =
  if (dst <=? a) && (a <? dst + 8 * Z.of_nat n) && ((a - dst) mod 8 =? 0)
  then ld m (src + (a - dst)) else ld m a.
Proof.
  induction n as [|n IH]; intros dst src m a Hd; cbn [copy_up].
  - destruct (Z.leb_spec dst a), (Z.ltb_spec a (dst + 8 * Z.of_nat 0)); try lia; done.
  - rewrite IH by lia.
    destruct (Z.leb_spec (dst + 8) a), (Z.ltb_spec a (dst + 8 + 8 * Z.of_nat n)),
      (Z.leb_spec dst a), (Z.ltb_spec a (dst + 8 * Z.of_nat (S n))),
      (Z.eqb_spec ((a - (dst + 8)) mod 8) 0), (Z.eqb_spec ((a - dst) mod 8) 0);
      cbn [andb]; try lia; try zlia.
    all: try (rewrite ld_st_ne by lia; f_equal; lia).
    all: rewrite ld_st; destruct (Z.eqb_spec dst a) as [->|]; try done; try zlia.
    f_equal. lia.
Qed.

Lemma copy_up_word n dst src m i :
  src + 8 * Z.of_nat n <= dst \/ dst + 8 * Z.of_nat n <= src -> 0 <= i < Z.of_nat n ->
  ld (copy_up n dst src m) (dst + 8 * i) = ld m (src + 8 * i).
Proof.
  intros Hd Hi. rewrite ld_copy_up by done.
  rewrite (proj2 (Z.leb_le _ _)), (proj2 (Z.ltb_lt _ _)), (proj2 (Z.eqb_eq _ _)) by zlia.
  cbn [andb]. f_equal. lia.
Qed.
Lemma copy_up_other n dst src m a :
  src + 8 * Z.of_nat n <= dst \/ dst + 8 * Z.of_nat n <= src ->
  a < dst \/ dst + 8 * Z.of_nat n <= a -> ld (copy_up n dst src m) a = ld m a.
Proof.
  intros Hd Ha. rewrite ld_copy_up by done.
  destruct (Z.leb_spec dst a), (Z.ltb_spec a (dst + 8 * Z.of_nat n)); try lia; done.
Qed.

(** ** Partial application *)

(** The block [c] is the closure of a partial application of [n] arguments: its
    code is the [RESTART] before the [GRAB] at [pg], then the environment and the
    arguments [arg]. *)
Definition partial_closure (m : mem) (c n pg e : Z) (arg : Z -> Z) : Prop :=
  Wosize_val m c = n + 2 /\ Tag_val m c = Closure_tag /\ Code_val m c = pg - 4 /\
  Field m c 1 = e /\ (forall i, 0 <= i < n -> Field m c (i + 2) = arg i).

(** The regions [a, a+n) and [b, b+k) of memory do not meet. *)
Definition apart (a n b k : Z) : Prop := a + n <= b \/ b + k <= a.

Section Partial.
Context {C : Collector} {X : Externals} (I : invocation).

Lemma alloc_block_room wosize tag s k :
  has_room wosize (rt s) = true ->
  alloc_block I wosize tag s k =
  let hp := young_ptr (mnr (rt s)) - Bhsize_wosize wosize in
  k (Val_hp hp) (set_rt (alloc_at hp wosize tag (rt s)) s).
Proof.
  unfold has_room, alloc_block. intros H%Z.leb_le.
  destruct (Z.ltb_spec (young_ptr (mnr (rt s)) - Bhsize_wosize wosize) (young_limit (mnr (rt s)))); [lia|done].
Qed.

Lemma GRAB_enough s :
  opd s 0 <= extra_args s ->
  exec I GRAB s = Next (skip 1 (set_extra_args (extra_args s - opd s 0) s)).
Proof.
  intros H. cbn [exec exec_plain]. unfold do_GRAB. change (extra_args (skip 1 s)) with (extra_args s).
  destruct (Z.leb_spec (opd s 0) (extra_args s)); [done|lia].
Qed.

(** The memory [GRAB] leaves: the block of the closure is filled. *)
Section GrabMemory.
Context (m : mem) (hp n sp e code : Z).
Context (Hn : 1 <= n < B31) (Hap : apart hp (8 * (n + 3)) sp (8 * (n + 3))).

Definition grab_mem : mem :=
  set_Field
    (copy_up (Z.to_nat n) (Field_addr (Val_hp hp) 2) sp
       (set_Field (st m hp (Make_header (n + 2) Closure_tag Caml_black)) (Val_hp hp) 1 e))
    (Val_hp hp) 0 code.

Lemma grab_mem_other a : a < hp \/ hp + 8 * (n + 3) <= a -> ld grab_mem a = ld m a.
Proof.
  intros Ha. unfold grab_mem, set_Field, Field_addr, Val_hp, sizeof_value, apart in *.
  rewrite ld_st_ne by lia. rewrite copy_up_other by lia. now rewrite !ld_st_ne by lia.
Qed.

Lemma grab_mem_closure :
  partial_closure grab_mem (Val_hp hp) n (code + 4) e (fun i => ld m (sp + 8 * i)).
Proof.
  assert (Eh : Hd_val grab_mem (Val_hp hp) = Make_header (n + 2) Closure_tag Caml_black).
  { unfold Hd_val, Hp_val, grab_mem, set_Field, Field_addr, Val_hp, sizeof_value, apart in *.
    replace (hp + 8 - 8) with hp by lia.
    rewrite ld_st_ne, copy_up_other, ld_st_ne by lia. apply ld_st_eq. }
  assert (Hw : 0 <= n + 2 <= Max_wosize) by (change Max_wosize with 18014398509481983; lia).
  assert (Ht : 0 <= Closure_tag < 256) by (unfold Closure_tag; lia).
  assert (Hc : is_color Caml_black) by (unfold is_color; auto).
  unfold partial_closure. splits.
  - unfold Wosize_val. rewrite Eh. now apply Wosize_Make_header.
  - unfold Tag_val. rewrite Eh. now apply Tag_Make_header.
  - unfold Code_val, Field, grab_mem, set_Field. rewrite ld_st_eq. lia.
  - unfold Field, grab_mem, set_Field, Field_addr, Val_hp, sizeof_value, apart in *.
    rewrite ld_st_ne, copy_up_other by lia. apply ld_st_eq.
  - intros i Hi. unfold Field, grab_mem, set_Field, Field_addr, Val_hp, sizeof_value, apart in *.
    rewrite ld_st_ne by lia.
    replace (hp + 8 + (i + 2) * 8) with (hp + 8 + 2 * 8 + 8 * i) by lia.
    rewrite copy_up_word by lia. now rewrite !ld_st_ne by lia.
Qed.
End GrabMemory.

Lemma GRAB_partial s n p e x :
  n = 1 + extra_args s -> 1 <= n < B31 -> n <= opd s 0 -> is63 x ->
  has_room (n + 2) (rt s) = true -> saved_frame s n p e x ->
  apart (young_ptr (mnr (rt s)) - 8 * (n + 3)) (8 * (n + 3)) (sp s) (8 * (n + 3)) ->
  let c := young_ptr (mnr (rt s)) - 8 * (n + 2) in
  exists r1, exec I GRAB s = Next (MkMachine p (sp s + 8 * (n + 3)) c e x r1) /\
    partial_closure (rmem r1) c n (pc s - 4) (env s) (slot s) /\
    (forall a, a < Hp_val c \/ Hp_val c + 8 * (n + 3) <= a -> ld (rmem r1) a = ld (smem s) a).
Proof.
  intros -> Hn Hreq Hx63 Hroom (F1 & F2 & F3) Hap c.
  set (n := 1 + extra_args s) in *.
  set (hp := young_ptr (mnr (rt s)) - 8 * (n + 3)) in *.
  set (m3 := grab_mem (smem s) hp n (sp s) (env s) (pc s - 8)).
  assert (Hm3 := grab_mem_other (smem s) hp n (sp s) (env s) (pc s - 8) Hn Hap). fold m3 in Hm3.
  assert (Hfr : forall i, 0 <= i < n + 3 -> ld m3 (sp s + 8 * i) = slot s i).
  { intros i Hi. unfold slot. apply Hm3. unfold apart in Hap. lia. }
  exists (set_rmem m3 (alloc_at hp (n + 2) Closure_tag (rt s))).
  assert (Ec : c = Val_hp hp) by (unfold c, hp, Val_hp, sizeof_value; lia).
  splits.
  - cbn [exec exec_plain]. unfold do_GRAB. change (extra_args (skip 1 s)) with (extra_args s).
    destruct (Z.leb_spec (opd s 0) (extra_args s)); [lia|].
    rewrite alloc_block_room by done. cbv zeta. fold n. rewrite Ec.
    replace (young_ptr (mnr (rt (skip 1 s))) - Bhsize_wosize (n + 2)) with hp
      by (unfold hp, Bhsize_wosize, Bsize_wsize, Whsize_wosize, sizeof_value; cbn [rt skip set_pc]; lia).
    match goal with |- Next (return_to_caller (pop n ?t)) = _ => set (t' := t) end.
    assert (Et : t' = MkMachine (pc s + 4) (sp s) (Val_hp hp) (env s) (extra_args s)
      (set_rmem m3 (alloc_at hp (n + 2) Closure_tag (rt s)))).
    { unfold t', m3, grab_mem. replace (pc s - 8) with (pc s + 4 * 1 - 12) by lia. reflexivity. }
    rewrite Et. unfold return_to_caller, pop, slot, set_sp, set_pc, set_env, set_extra_args, smem.
    cbn [pc sp accu env extra_args rt rmem set_rmem].
    replace (sp s + 8 * n + 8 * 0) with (sp s + 8 * n) by lia.
    replace (sp s + 8 * n + 8 * 1) with (sp s + 8 * (n + 1)) by lia.
    replace (sp s + 8 * n + 8 * 2) with (sp s + 8 * (n + 2)) by lia.
    rewrite !Hfr by lia. rewrite F1, F2, F3, Long_val_Val_long, wrap63_id by done.
    do 2 f_equal. lia.
  - rewrite Ec. change (rmem (set_rmem m3 _)) with m3.
    replace (pc s - 4) with (pc s - 8 + 4) by lia. now apply grab_mem_closure.
  - rewrite Ec. change (rmem (set_rmem m3 _)) with m3. unfold Hp_val, Val_hp, sizeof_value.
    replace (hp + 8 - 8) with hp by lia. done.
Qed.

(** [RESTART] pushes the arguments of the partial application back. *)
Lemma RESTART_partial s n pg e arg :
  partial_closure (smem s) (env s) n pg e arg -> 1 <= n < B31 ->
  apart (Hp_val (env s)) (8 * (n + 3)) (sp s - 8 * n) (8 * n) ->
  exists r1,
    exec I RESTART s = Next (MkMachine (pc s) (sp s - 8 * n) (accu s) e (extra_args s + n) r1) /\
    (forall i, 0 <= i < n -> ld (rmem r1) (sp s - 8 * n + 8 * i) = arg i) /\
    (forall a, a < sp s - 8 * n \/ sp s <= a -> ld (rmem r1) a = ld (smem s) a).
Proof.
  intros (Hw & _ & _ & He & Ha) Hn Hap.
  unfold apart, Hp_val, sizeof_value in Hap.
  cbn [exec exec_plain]. unfold do_RESTART. rewrite Hw.
  replace (n + 2 - 2) with n by lia. rewrite s32_id by (unfold iss32; lia).
  set (m1 := copy_up (Z.to_nat n) (sp s - 8 * n) (Field_addr (env s) 2) (smem s)).
  assert (Hdis : Field_addr (env s) 2 + 8 * Z.of_nat (Z.to_nat n) <= sp s - 8 * n \/
                 sp s - 8 * n + 8 * Z.of_nat (Z.to_nat n) <= Field_addr (env s) 2).
  { unfold Field_addr, sizeof_value. lia. }
  exists (set_rmem m1 (rt s)). splits.
  - match goal with |- Next ?t = _ => change t with
      (MkMachine (pc s) (sp s - 8 * n) (accu s) (Field m1 (env s) 1) (extra_args s + n) (set_rmem m1 (rt s))) end.
    do 2 f_equal. rewrite <- He. unfold Field. apply copy_up_other; [done|].
    unfold Field_addr, sizeof_value. lia.
  - intros i Hi. change (rmem (set_rmem m1 _)) with m1. unfold m1. rewrite copy_up_word by (try done; lia).
    rewrite <- Ha by done. unfold Field, Field_addr, sizeof_value. f_equal. lia.
  - intros a Ha'. change (rmem (set_rmem m1 _)) with m1. unfold m1. apply copy_up_other; [done|lia].
Qed.
End Partial.

(** ** Exceptions *)

(** The frame [PUSHTRAP] builds at [tp]. *)
Definition trap_frame (m : mem) (tp handler link e x : Z) : Prop :=
  Trap_pc m tp = handler /\ Trap_link m tp = link /\ ld m (tp + 16) = e /\ ld m (tp + 24) = Val_long x.

(** No debugger trap barrier is crossed and no backtrace recorded. *)
Definition no_trace (r : runtime) : bool :=
  (trapsp (stk r) <? trap_barrier (stk r)) && negb (backtrace_active (glb r)).

(** The bottom of the part of the stack that belongs to this invocation. *)
Definition bottom (I : invocation) (r : runtime) : Z := stack_high (stk r) - initial_sp_offset I.

Lemma no_trace_raise {X : Externals} I s :
  no_trace (rt s) = true ->
  raise_exception I s =
  let r := rt s in
  if bottom I r <=? trapsp (stk r) then
    Return (Make_exception_result (accu s))
      (set_callback_depth (callback_depth (glb r) - 1)
         (set_extern_sp (bottom I r) (set_external_raise (initial_external_raise I) r)))
  else
    let tp := trapsp (stk r) in
    Next (MkMachine (Trap_pc (rmem r) tp) (tp + 32) (accu s) (ld (rmem r) (tp + 16))
            (Long_val (ld (rmem r) (tp + 24))) (set_trapsp (Trap_link (rmem r) tp) r)).
Proof.
  unfold no_trace. intros [H1 H2]%andb_true_iff. unfold raise_exception, bottom.
  destruct (Z.leb_spec (trap_barrier (stk (rt s))) (trapsp (stk (rt s)))) as [Hb|_].
  { apply Z.ltb_lt in H1. lia. }
  destruct (backtrace_active (glb (rt s))); [done|]. reflexivity.
Qed.

Section Traps.
Context {C : Collector} {X : Externals} (I : invocation).

Lemma PUSHTRAP_frame s :
  exists r1,
    exec I PUSHTRAP s = Next (MkMachine (pc s + 4) (sp s - 32) (accu s) (env s) (extra_args s) r1) /\
    trap_frame (rmem r1) (sp s - 32) (code_ptr s 0) (trapsp (stk (rt s))) (env s) (extra_args s) /\
    stk r1 = stk (set_trapsp (sp s - 32) (rt s)) /\ glb r1 = glb (rt s) /\
    (forall a, a < sp s - 32 \/ sp s <= a -> ld (rmem r1) a = ld (smem s) a).
Proof.
  cbn [exec exec_plain]. unfold do_PUSHTRAP.
  match goal with |- context [set_trapsp _ (rt ?t)] => set (t' := t) end.
  exists (set_trapsp (sp s - 32) (rt t')). splits; try done.
  - unfold trap_frame, Trap_pc, Trap_link, Trap_link_addr.
    change (rmem (set_trapsp _ _)) with (smem t').
    pose proof (slot_set_slot_eq 3 (Val_long (extra_args s))) as E3.
    replace (ld (smem t') (sp s - 32)) with (slot t' 0) by (unfold slot; f_equal; apply Z.add_0_r).
    change (ld (smem t') (sp s - 32 + 8)) with (slot t' 1).
    change (ld (smem t') (sp s - 32 + 16)) with (slot t' 2).
    change (ld (smem t') (sp s - 32 + 24)) with (slot t' 3).
    unfold t'. splits; autorewrite with mem; reflexivity.
  - intros a Ha. change (rmem (set_trapsp _ _)) with (smem t'). unfold t'.
    rewrite !smem_set_slot_ne; try done; cbn [sp set_slot set_smem set_sp set_rt]; lia.
Qed.

Lemma RAISE_handler s h link e x :
  no_trace (rt s) = true -> trapsp (stk (rt s)) < bottom I (rt s) ->
  trap_frame (smem s) (trapsp (stk (rt s))) h link e x -> is63 x ->
  exec I RAISE s =
  Next (MkMachine h (trapsp (stk (rt s)) + 32) (accu s) e x (set_trapsp link (rt s))).
Proof.
  intros Hn Hb (F1 & F2 & F3 & F4) Hx. cbn [exec exec_plain]. rewrite no_trace_raise by done.
  cbv zeta. destruct (Z.leb_spec (bottom I (rt s)) (trapsp (stk (rt s)))); [lia|].
  change (rmem (rt s)) with (smem s). rewrite F1, F2, F3, F4, Long_val_Val_long, wrap63_id by done.
  done.
Qed.

Lemma POPTRAP_frame s h link e x :
  something_to_do (glb (rt s)) = false -> trap_frame (smem s) (sp s) h link e x ->
  exec I POPTRAP s =
  Next (MkMachine (pc s) (sp s + 32) (accu s) (env s) (extra_args s) (set_trapsp link (rt s))).
Proof.
  intros Hs (F1 & F2 & F3 & F4). cbn [exec exec_plain]. unfold do_POPTRAP. rewrite Hs, F2. reflexivity.
Qed.

(** ** Division by zero *)

(** The machine after the divisor is popped and the environment saved. *)
Definition div_zero_rt (s : machine) : runtime := rt (Setup_for_c_call (pop 1 s)).

Lemma division_by_zero f s :
  slot s 0 = Val_long 0 -> has_room 1 (rt s) = true -> external_raise (glb (rt s)) <> 0 ->
  let r := div_zero_rt s in
  do_division I f s =
  after_longjmp I (raised_constant (Field (rmem r) (global_data (glb r)) ZERO_DIVIDE_EXN) r)
    (Setup_for_c_call (pop 1 s)).
Proof.
  intros Hd Hr Hx r. unfold do_division. rewrite Hd.
  change (Long_val (Val_long 0)) with 0. cbn [Z.eqb].
  unfold call_c, raise_zero_divide, raise_predefined.
  rewrite raise_constant_room by done. reflexivity.
Qed.

(** The addresses involved in raising [Division_by_zero] do not overlap: the new
    bucket, the slot the environment is saved in, the trap frame and the entry of
    the exception table. *)
Definition div_zero_apart (s : machine) : Prop :=
  let b := young_ptr (mnr (rt s)) - 16 in
  let tp := trapsp (stk (rt s)) in
  let g := Field_addr (global_data (glb (rt s))) ZERO_DIVIDE_EXN in
  sp s < tp /\ apart b 16 tp 32 /\ apart b 16 g 8 /\ g <> sp s.

Lemma division_by_zero_handled f s h link e x :
  slot s 0 = Val_long 0 -> has_room 1 (rt s) = true -> external_raise (glb (rt s)) <> 0 ->
  no_trace (rt s) = true -> trapsp (stk (rt s)) < bottom I (rt s) -> is63 x ->
  trap_frame (smem s) (trapsp (stk (rt s))) h link e x -> div_zero_apart s ->
  exists r1,
    do_division I f s =
      Next (MkMachine h (trapsp (stk (rt s)) + 32) (young_ptr (mnr (rt s)) - 8) e x r1) /\
    trapsp (stk r1) = link /\
    Wosize_val (rmem r1) (young_ptr (mnr (rt s)) - 8) = 1 /\
    Tag_val (rmem r1) (young_ptr (mnr (rt s)) - 8) = 0 /\
    Field (rmem r1) (young_ptr (mnr (rt s)) - 8) 0 =
      Field (smem s) (global_data (glb (rt s))) ZERO_DIVIDE_EXN.
Proof.
  intros Hd Hr Hx Hn Hb Hx63 (F1 & F2 & F3 & F4) (A1 & A2 & A3 & A4). unfold apart in *.
  rewrite division_by_zero by done. unfold after_longjmp.
  set (y := young_ptr (mnr (rt s))) in *. set (tp := trapsp (stk (rt s))) in *.
  set (m1 := st (smem s) (sp s) (env s)).
  assert (Er : rmem (div_zero_rt s) = m1).
  { unfold m1. transitivity (st (smem s) (sp s + 8 * 1 - 8 + 8 * 0) (env s)); [reflexivity|]. f_equal. lia. }
  set (exn := Field (rmem (div_zero_rt s)) (global_data (glb (div_zero_rt s))) ZERO_DIVIDE_EXN).
  assert (Ee : exn = Field (smem s) (global_data (glb (rt s))) ZERO_DIVIDE_EXN).
  { unfold exn. rewrite Er. unfold Field, m1. apply ld_st_ne. done. }
  set (m2 := st (st m1 (y - 16) (Make_header 1 0 Caml_black)) (y - 8) exn).
  assert (Em : rmem (raised_constant exn (div_zero_rt s)) = m2).
  { unfold m2. rewrite <- Er.
    transitivity (st (st (rmem (div_zero_rt s)) (y - 16) (Make_header 1 0 Caml_black)) (y - 16 + 8 + 0 * 8) exn);
      [reflexivity|]. f_equal. lia. }
  assert (Hm : forall a, tp <= a < tp + 32 -> ld m2 a = ld (smem s) a).
  { intros a Ha. unfold m2, m1. now rewrite !ld_st_ne by lia. }
  rewrite no_trace_raise by exact Hn. cbv zeta.
  change (rmem (rt (MkMachine _ _ _ _ _ (set_local_roots _ ?r)))) with (rmem r). rewrite Em.
  change (stk (rt (MkMachine _ _ _ _ _ (set_local_roots _ (raised_constant exn (div_zero_rt s))))))
    with (stk (div_zero_rt s)).
  change (trapsp (stk (div_zero_rt s))) with tp.
  change (bottom I (rt (MkMachine _ _ _ _ _ (set_local_roots _ (raised_constant exn (div_zero_rt s))))))
    with (bottom I (rt s)).
  destruct (Z.leb_spec (bottom I (rt s)) tp); [lia|].
  unfold Trap_pc, Trap_link, Trap_link_addr in *. rewrite !Hm by lia.
  rewrite F1, F2, F3, F4, Long_val_Val_long, wrap63_id by done.
  exists (set_trapsp link (set_local_roots (initial_local_roots I) (raised_constant exn (div_zero_rt s)))).
  split; [|split; [reflexivity|]].
  - do 2 f_equal. cbn [accu]. change (exn_bucket _) with (y - 16 + 8). lia.
  - change (rmem (set_trapsp _ (set_local_roots _ ?r))) with (rmem r).
    rewrite Em, <- Ee. unfold Wosize_val, Tag_val, Hd_val, Hp_val, Field, Field_addr, sizeof_value.
    replace (y - 8 - 8) with (y - 16) by lia. rewrite Z.mul_0_l, Z.add_0_r.
    unfold m2. rewrite ld_st_eq, ld_st_ne, ld_st_eq by lia. splits; reflexivity.
Qed.
End Traps.

(** ** Mutually recursive closures *)

(** The infix closures number [i], ..., [i+n-1], whose headers start at [p]. *)
Lemma closurerec_loop_spec n : forall i p s,
  apart p (16 * Z.of_nat n) (sp s - 8 * Z.of_nat n) (8 * Z.of_nat n) ->
  exists m',
    closurerec_loop n i p s = set_sp (sp s - 8 * Z.of_nat n) (set_smem m' s) /\
    (forall j, 0 <= j < Z.of_nat n ->
       ld m' (p + 16 * j) = Make_header ((i + j) * 2) Infix_tag Caml_white /\
       ld m' (p + 16 * j + 8) = code_ptr s (i + j) /\
       ld m' (sp s - 8 * (j + 1)) = p + 16 * j + 8) /\
    (forall a, a < p \/ p + 16 * Z.of_nat n <= a ->
       a < sp s - 8 * Z.of_nat n \/ sp s <= a -> ld m' a = ld (smem s) a).
Proof.
  unfold apart. induction n as [|n IH]; intros i p s Hap; cbn [closurerec_loop].
  - exists (smem s). splits; [|lia|done].
    change (set_smem (smem s) s) with s. cbn [Z.of_nat]. unfold set_sp.
    rewrite Z.mul_0_r, Z.sub_0_r. done.
  - set (m1 := st (st (smem s) p (Make_header (i * 2) Infix_tag Caml_white)) (p + 8) (code_ptr s i)).
    set (m2 := st m1 (sp s - 8) (p + 8)).
    match goal with |- context [closurerec_loop n (i + 1) (p + 8 + 8) ?t] => set (t' := t) end.
    assert (Et : t' = set_sp (sp s - 8) (set_smem m2 s)).
    { unfold t', m2, m1. replace (sp s - 8) with (sp s - 8 + 8 * 0) at 2 by lia. reflexivity. }
    destruct (IH (i + 1) (p + 8 + 8) t') as (m' & E & Hw & Ho).
    { rewrite Et. cbn [sp set_sp]. lia. }
    rewrite Et in E, Hw, Ho. cbn [sp set_sp] in E, Hw, Ho.
    change (smem (set_sp _ (set_smem m2 s))) with m2 in Ho.
    exists m'. splits.
    + rewrite Et, E. unfold set_sp, set_smem, set_rt, set_rmem. cbn [pc sp accu env extra_args rt].
      f_equal. lia.
    + intros j Hj. destruct (Z.eq_dec j 0) as [->|Hj0].
      * rewrite !Z.mul_0_r, !Z.add_0_r. rewrite !Ho by lia. unfold m2, m1.
        splits; repeat (rewrite ld_st_eq || rewrite ld_st_ne by lia); try done.
      * destruct (Hw (j - 1)) as (W1 & W2 & W3); [lia|].
        change (code_ptr (set_sp _ (set_smem m2 s)) ?k) with (code_ptr s k) in W2.
        replace (i + 1 + (j - 1)) with (i + j) in * by lia.
        replace (p + 8 + 8 + 16 * (j - 1)) with (p + 16 * j) in * by lia.
        replace (sp s - 8 - 8 * (j - 1 + 1)) with (sp s - 8 * (j + 1)) in W3 by lia. done.
    + intros a Ha1 Ha2. rewrite Ho by lia. unfold m2, m1. now rewrite !ld_st_ne by lia.
Qed.

(** The block of [CLOSUREREC]: the closure of function [j] starts at field [2j];
    the free variables follow the last one. *)
Definition rec_closure (blk j : Z) : Z := blk + 16 * j.

Definition rec_closures (m : mem) (blk nfuncs nvars : Z) (fn var : Z -> Z) : Prop :=
  Wosize_val m blk = nfuncs * 2 - 1 + nvars /\ Tag_val m blk = Closure_tag /\
  (forall j, 0 <= j < nfuncs ->
     Code_val m (rec_closure blk j) = fn j /\
     darken_target m (rec_closure blk j) = blk) /\
  (forall k, 0 <= k < nvars -> Field m blk (nfuncs * 2 - 1 + k) = var k).

Lemma Infix_offset_header m v j :
  1 <= j < B31 -> Hd_val m v = Make_header (j * 2) Infix_tag Caml_white ->
  Tag_val m v = Infix_tag /\ Infix_offset_val m v = 16 * j.
Proof.
  intros Hj Eh. unfold Tag_val, Infix_offset_val, Infix_offset_hd, Bosize_hd, Bsize_wsize, sizeof_value.
  assert (Hw : 0 <= j * 2 <= Max_wosize) by (change Max_wosize with 18014398509481983; lia).
  assert (Ht : 0 <= Infix_tag < 256) by (unfold Infix_tag; lia).
  assert (Hc : is_color Caml_white) by (unfold is_color; auto).
  rewrite Eh, Tag_Make_header, Wosize_Make_header by done. lia.
Qed.

(** The memory [CLOSUREREC] leaves in the block [blk]. *)
Section RecMemory.
Context (m : mem) (blk nfuncs nvars src fn0 : Z) (fn : Z -> Z) (m' : mem).
Context (Hf : 1 <= nfuncs < B31) (Hv : 0 <= nvars < B31).
Context (Hap : apart (Hp_val blk) (8 * (nfuncs * 2 + nvars)) src (8 * nvars)).

Definition rec_mem : mem :=
  set_Field
    (copy_up (Z.to_nat nvars) (Field_addr blk (nfuncs * 2 - 1)) src
       (st m (Hp_val blk) (Make_header (nfuncs * 2 - 1 + nvars) Closure_tag Caml_black)))
    blk 0 fn0.

Lemma rec_mem_other a :
  a < Hp_val blk \/ Hp_val blk + 8 * (nfuncs * 2 + nvars) <= a -> ld rec_mem a = ld m a.
Proof.
  intros Ha. unfold rec_mem, set_Field, Field_addr, Hp_val, sizeof_value, apart in *.
  rewrite ld_st_ne, copy_up_other, ld_st_ne by lia. done.
Qed.

Lemma rec_mem_closures :
  fn 0 = fn0 ->
  (forall a, a <= blk \/ blk + 8 * (nfuncs * 2 - 1) <= a < Hp_val blk + 8 * (nfuncs * 2 + nvars) ->
     Hp_val blk <= a -> ld m' a = ld rec_mem a) ->
  (forall j, 1 <= j < nfuncs ->
     ld m' (rec_closure blk j - 8) = Make_header (j * 2) Infix_tag Caml_white /\
     ld m' (rec_closure blk j) = fn j) ->
  rec_closures m' blk nfuncs nvars fn (fun k => ld m (src + 8 * k)).
Proof.
  intros Hfn0 Hm Hj. unfold rec_closures.
  assert (Hblk : Hp_val blk = blk - 8) by done. unfold apart in Hap. rewrite Hblk in *.
  assert (Eh : Hd_val m' blk = Make_header (nfuncs * 2 - 1 + nvars) Closure_tag Caml_black).
  { unfold Hd_val. rewrite Hblk, Hm by lia. unfold rec_mem, set_Field, Field_addr, sizeof_value.
    rewrite Hblk, ld_st_ne, copy_up_other, ld_st_eq by lia. done. }
  assert (Hw : 0 <= nfuncs * 2 - 1 + nvars <= Max_wosize) by (change Max_wosize with 18014398509481983; lia).
  assert (Ht : 0 <= Closure_tag < 256) by (unfold Closure_tag; lia).
  assert (Hc : is_color Caml_black) by (unfold is_color; auto).
  assert (Etag : Tag_val m' blk = Closure_tag) by (unfold Tag_val; rewrite Eh; now apply Tag_Make_header).
  splits.
  - unfold Wosize_val. rewrite Eh. now apply Wosize_Make_header.
  - done.
  - intros j Hjr. destruct (Z.eq_dec j 0) as [->|Hj0].
    + unfold rec_closure. rewrite Z.mul_0_r, Z.add_0_r. split.
      * unfold Code_val, Field, Field_addr. rewrite Z.mul_0_l, Z.add_0_r, Hm by lia.
        unfold rec_mem, set_Field, Field_addr. rewrite Z.mul_0_l, Z.add_0_r, ld_st_eq. done.
      * unfold darken_target. rewrite Etag. done.
    + destruct (Hj j) as [J1 J2]; [lia|]. split.
      * unfold Code_val, Field, Field_addr. now rewrite Z.mul_0_l, Z.add_0_r.
      * destruct (Infix_offset_header m' (rec_closure blk j) j) as [T O]; [lia|exact J1|].
        unfold darken_target. rewrite T, Z.eqb_refl, O. unfold rec_closure. lia.
  - intros k Hk. unfold Field, Field_addr, sizeof_value.
    rewrite Hm by lia. unfold rec_mem, set_Field, Field_addr, sizeof_value.
    rewrite ld_st_ne by lia.
    replace (blk + (nfuncs * 2 - 1 + k) * 8) with (blk + (nfuncs * 2 - 1) * 8 + 8 * k) by lia.
    rewrite copy_up_word by lia. rewrite Hblk. now rewrite ld_st_ne by lia.
Qed.
End RecMemory.

Section Closurerec.
Context {C : Collector} {X : Externals} (I : invocation).

(** The machine with its variables on the stack, the first from the accumulator. *)
Definition with_vars (nvars : Z) (s : machine) : machine :=
  if 0 <? nvars then push (accu s) s else s.

Lemma with_vars_var nvars s k :
  0 <= k < nvars -> slot (with_vars nvars s) k = if k =? 0 then accu s else slot s (k - 1).
Proof.
  intros Hk. unfold with_vars. destruct (Z.ltb_spec 0 nvars); [|lia]. unfold push.
  rewrite slot_set_slot. destruct (Z.eqb_spec 0 k), (Z.eqb_spec k 0); try lia; try done.
  replace (sp s - 8) with (sp s + 8 * (-1)) by lia. rewrite slot_set_sp. f_equal. lia.
Qed.

Lemma with_vars_frame nvars s :
  pc (with_vars nvars s) = pc s /\ env (with_vars nvars s) = env s /\
  extra_args (with_vars nvars s) = extra_args s /\ mnr (rt (with_vars nvars s)) = mnr (rt s) /\
  code (rt (with_vars nvars s)) = code (rt s) /\
  sp (with_vars nvars s) = sp s - (if 0 <? nvars then 8 else 0).
Proof. unfold with_vars. destruct (0 <? nvars); splits; try done. now rewrite Z.sub_0_r. Qed.

Lemma CLOSUREREC_spec s nfuncs nvars :
  opd s 0 = nfuncs -> opd s 1 = nvars -> 1 <= nfuncs < B31 -> 0 <= nvars < B31 ->
  has_room (nfuncs * 2 - 1 + nvars) (rt s) = true ->
  let size := 8 * (nfuncs * 2 + nvars) in
  let hp := young_ptr (mnr (rt s)) - size in
  let blk := hp + 8 in
  let top := sp s - (if 0 <? nvars then 8 else 0) + 8 * nvars in
  apart hp size (sp s - 8 - 8 * nfuncs) (8 * (nvars + nfuncs + 2)) ->
  exists r1,
    exec I CLOSUREREC s =
      Next (MkMachine (pc s + 4 * (2 + nfuncs)) (top - 8 * nfuncs) blk (env s) (extra_args s) r1) /\
    rec_closures (rmem r1) blk nfuncs nvars (fun j => pc s + 8 + 4 * opd s (2 + j))
      (slot (with_vars nvars s)) /\
    (forall j, 0 <= j < nfuncs -> ld (rmem r1) (top - 8 * (j + 1)) = rec_closure blk j).
Proof.
  intros Hn Hv Hnf Hnv Hroom size hp blk top Hap.
  cbn [exec exec_plain]. unfold do_CLOSUREREC. rewrite Hn, Hv.
  fold (with_vars nvars (skip 2 s)). set (s2 := with_vars nvars (skip 2 s)).
  destruct (with_vars_frame nvars (skip 2 s)) as (W1 & W2 & W3 & W4 & W5 & W6). fold s2 in W1, W2, W3, W4, W5, W6.
  cbn [pc env extra_args sp rt skip set_pc] in W1, W2, W3, W4, W5, W6.
  rewrite alloc_block_room by (unfold has_room in *; now rewrite W4). cbv zeta.
  replace (young_ptr (mnr (rt s2)) - Bhsize_wosize (nfuncs * 2 - 1 + nvars)) with hp
    by (rewrite W4; unfold hp, size, Bhsize_wosize, Bsize_wsize, Whsize_wosize, sizeof_value; lia).
  change (Val_hp hp) with blk.
  assert (Htop : sp s2 + 8 * nvars = top) by (unfold top; lia).
  assert (Hsp2 : sp s - 8 <= sp s2 <= sp s) by (destruct (0 <? nvars); lia).
  set (m0 := rec_mem (smem s2) blk nfuncs nvars (sp s2) (code_ptr s2 0)).
  match goal with |- context [closurerec_loop _ 1 _ ?t] => set (t3 := t) end.
  assert (Ehp : Hp_val blk = hp) by (unfold Hp_val, blk, sizeof_value; lia).
  assert (Eopd : forall j, code_ptr s2 j = pc s + 8 + 4 * opd s (2 + j)).
  { intros j. unfold code_ptr, opd. rewrite W1, W5. replace (pc s + 4 * 2) with (pc s + 8) by lia.
    do 3 f_equal. lia. }
  assert (Et3 : t3 = set_sp (top - 8) (set_accu blk (set_smem (st m0 (top - 8) blk)
                      (set_rt (alloc_at hp (nfuncs * 2 - 1 + nvars) Closure_tag (rt s2)) s2)))).
  { rewrite <- Htop. unfold m0, rec_mem. rewrite Ehp.
    unfold t3, push. rewrite set_slot_eq.
    replace (sp s2 + 8 * nvars - 8) with (sp s2 + 8 * nvars - 8 + 8 * 0) at 2 by lia. reflexivity. }
  unfold apart in Hap.
  assert (Hap0 : apart (Hp_val blk) size (sp s2) (8 * nvars)) by (rewrite Ehp; unfold apart; lia).
  destruct (closurerec_loop_spec (Z.to_nat (nfuncs - 1)) 1 (blk + 8) t3) as (m' & E & Hw & Ho).
  { rewrite Et3. cbn [sp set_sp]. unfold apart, blk, size in *. lia. }
  change (Field_addr (accu t3) 1) with (blk + 8). rewrite E.
  rewrite Et3 in Hw, Ho. cbn [sp set_sp] in Hw, Ho.
  change (smem (set_sp _ (set_accu _ (set_smem ?m _)))) with m in Ho.
  assert (Hm0 := rec_mem_other (smem s2) blk nfuncs nvars (sp s2) (code_ptr s2 0) Hnf Hnv Hap0).
  exists (set_rmem m' (rt t3)). splits.
  - rewrite Et3. unfold skip, set_sp, set_pc, set_accu, set_smem, set_rt, set_rmem.
    cbn [pc sp accu env extra_args rt rmem stk mnr mjr glb code start_code saved_code malloc_answers].
    rewrite W1, W2, W3. do 2 f_equal; lia.
  - change (rmem (set_rmem m' _)) with m'.
    assert (Hslot : forall k, slot (with_vars nvars s) k = ld (smem s2) (sp s2 + 8 * k)).
    { intros k. unfold s2, with_vars. destruct (0 <? nvars); done. }
    destruct (rec_mem_closures (smem s2) blk nfuncs nvars (sp s2) (code_ptr s2 0)
      (fun j => pc s + 8 + 4 * opd s (2 + j)) m' Hnf Hnv Hap0) as (R1 & R2 & R3 & R4).
    + now rewrite Eopd.
    + intros a Ha1 Ha2. rewrite Ehp in *. rewrite Ho by (unfold blk, size in *; lia).
      apply ld_st_ne. unfold size in *. lia.
    + intros j Hj. destruct (Hw (j - 1)) as (H1 & H2 & _); [lia|].
      change (code_ptr (set_sp _ (set_accu _ (set_smem _ (set_rt _ s2)))) ?k)
        with (code_ptr s2 k) in H2. rewrite Eopd in H2.
      unfold rec_closure. replace (1 + (j - 1)) with j in * by lia.
      replace (blk + 16 * j - 8) with (blk + 8 + 16 * (j - 1)) by lia.
      replace (blk + 16 * j) with (blk + 8 + 16 * (j - 1) + 8) by lia. done.
    + unfold rec_closures. splits; try done. intros k Hk. rewrite Hslot. now apply R4.
  - intros j Hj. change (rmem (set_rmem m' _)) with m'.
    destruct (Z.eq_dec j 0) as [->|Hj0].
    + replace (top - 8 * (0 + 1)) with (top - 8) by lia.
      rewrite Ho by (unfold blk, size in *; lia). rewrite ld_st_eq. unfold rec_closure. lia.
    + destruct (Hw (j - 1)) as (_ & _ & H3); [lia|].
      replace (top - 8 * (j + 1)) with (top - 8 - 8 * (j - 1 + 1)) by lia. rewrite H3.
      unfold rec_closure. lia.
Qed.
End Closurerec.

(** ** The claims *)

(** C1: applying a closure to 1, 2 or 3 arguments enters its code with the arguments
    on top of the stack, and a [RETURN] that finds the saved frame intact resumes
    the caller after the application with its environment, its pending arguments
    and its stack without the arguments. *)
Theorem call_return {C : Collector} {X : Externals} I i n s :
  apply_args i = Some n -> calm (set_sp (sp s - 24) s) = true -> is63 (extra_args s) ->
  exists s1, exec I i s = Next s1 /\ called n s s1 /\
    forall s2, sp s2 = sp s1 -> extra_args s2 = 0 -> opd s2 0 = n ->
      (forall k, n <= k < n + 3 -> slot s2 k = slot s1 k) ->
      exec I RETURN s2 =
      Next (MkMachine (pc s) (sp s + 8 * n) (accu s2) (env s) (extra_args s) (rt s2)).
Proof.
  intros Hi Hc Hx. destruct (APPLYn_called I i n s Hi Hc) as (s1 & E & Hcall).
  exists s1. split; [exact E|]. split; [exact Hcall|].
  destruct Hcall as (_ & _ & _ & _ & Hsp & _ & (F1 & F2 & F3) & _).
  intros s2 Hsp2 Hx2 Ho Hk. rewrite (RETURN_frame I s2 n (pc s) (env s) (extra_args s)); try done.
  - do 2 f_equal. lia.
  - unfold saved_frame. rewrite !Hk by lia. done.
Qed.

Lemma call_return_witness :
  let s := demo_machine 20480 [Val_long 6; Val_long 7] [0; opcode STOP] [1004] in
  exists s1, exec (C := no_collector) (X := demo_externals) demo_invocation APPLY2 s = Next s1 /\
    called 2 s s1 /\
    forall s2, sp s2 = sp s1 -> extra_args s2 = 0 -> opd s2 0 = 2 ->
      (forall k, 2 <= k < 2 + 3 -> slot s2 k = slot s1 k) ->
      exec (C := no_collector) (X := demo_externals) demo_invocation RETURN s2 =
      Next (MkMachine (pc s) (sp s + 8 * 2) (accu s2) (env s) (extra_args s) (rt s2)).
Proof.
  intros s. apply call_return; [reflexivity|vm_compute; reflexivity|rewrite is63_eq; vm_compute; split; discriminate].
Defined.

(** C2: a function called with fewer arguments than it requires returns a closure of
    them to its caller; when that closure is applied later, its code, [RESTART],
    puts the same arguments back on the stack in the same order, with the
    function's environment, and counts them among the pending arguments. *)
Theorem partial_application {C : Collector} {X : Externals} I s n p e x :
  n = 1 + extra_args s -> 1 <= n < B31 -> n <= opd s 0 -> is63 x ->
  has_room (n + 2) (rt s) = true -> saved_frame s n p e x ->
  apart (young_ptr (mnr (rt s)) - 8 * (n + 3)) (8 * (n + 3)) (sp s) (8 * (n + 3)) ->
  let c := young_ptr (mnr (rt s)) - 8 * (n + 2) in
  exists r1, exec I GRAB s = Next (MkMachine p (sp s + 8 * (n + 3)) c e x r1) /\
    Code_val (rmem r1) c = pc s - 8 /\
    forall s2, env s2 = c -> (forall a, Hp_val c <= a < c + 8 * (n + 2) -> ld (smem s2) a = ld (rmem r1) a) ->
      apart (Hp_val c) (8 * (n + 3)) (sp s2 - 8 * n) (8 * n) ->
      exists r3,
        exec I RESTART s2 =
          Next (MkMachine (pc s2) (sp s2 - 8 * n) (accu s2) (env s) (extra_args s2 + n) r3) /\
        (forall i, 0 <= i < n -> ld (rmem r3) (sp s2 - 8 * n + 8 * i) = slot s i) /\
        (forall a, a < sp s2 - 8 * n \/ sp s2 <= a -> ld (rmem r3) a = ld (smem s2) a).
Proof.
  intros Hn1 Hn Hreq Hx Hroom Hfr Hap c.
  destruct (GRAB_partial I s n p e x Hn1 Hn Hreq Hx Hroom Hfr Hap) as (r1 & E & Hc & _).
  fold c in E, Hc. pose proof Hc as (P1 & P2 & P3 & P4 & P5).
  exists r1. split; [exact E|]. split; [lia|].
  intros s2 He Hm Hap2.
  apply (RESTART_partial I s2 n (pc s - 4) (env s) (slot s)); rewrite ?He; try done.
  unfold partial_closure, Wosize_val, Tag_val, Hd_val, Code_val, Field, Field_addr, Hp_val, sizeof_value in *.
  rewrite !Hm by lia. splits; try done.
  intros i Hi. rewrite Hm by lia. now apply P5.
Qed.

Lemma partial_application_witness :
  let s := demo_machine Val_unit [Val_long 5; 1012; Val_long 9; Val_long 0] [opcode RESTART; opcode GRAB; 1] [] in
  let s := skip 2 s in
  let c := young_ptr (mnr (rt s)) - 8 * 3 in
  exists r1, exec (C := no_collector) (X := demo_externals) demo_invocation GRAB s =
      Next (MkMachine 1012 (sp s + 8 * 4) c (Val_long 9) 0 r1) /\
    Code_val (rmem r1) c = pc s - 8 /\
    forall s2, env s2 = c -> (forall a, Hp_val c <= a < c + 8 * 3 -> ld (smem s2) a = ld (rmem r1) a) ->
      apart (Hp_val c) (8 * 4) (sp s2 - 8 * 1) (8 * 1) ->
      exists r3,
        exec (C := no_collector) (X := demo_externals) demo_invocation RESTART s2 =
          Next (MkMachine (pc s2) (sp s2 - 8 * 1) (accu s2) (env s) (extra_args s2 + 1) r3) /\
        (forall i, 0 <= i < 1 -> ld (rmem r3) (sp s2 - 8 * 1 + 8 * i) = slot s i) /\
        (forall a, a < sp s2 - 8 * 1 \/ sp s2 <= a -> ld (rmem r3) a = ld (smem s2) a).
Proof.
  intros s0 s c.
  apply (@partial_application no_collector demo_externals demo_invocation s 1 1012 (Val_long 9) 0);
    [reflexivity|lia|vm_compute; discriminate|rewrite is63_eq; lia|vm_compute; reflexivity
    |vm_compute; auto|right; vm_compute; discriminate].
Defined.

(** C33: after [PUSHTRAP], raising an exception (with the frame intact) continues at
    the handler with the exception in the accumulator, and the stack, the
    environment, the pending arguments and the previous handler of the [try];
    [POPTRAP] at the end of the body restores the stack and the previous handler. *)
Theorem trap_restores {C : Collector} {X : Externals} I s :
  is63 (extra_args s) ->
  exists s1 link, link = trapsp (stk (rt s)) /\ exec I PUSHTRAP s = Next s1 /\
    trapsp (stk (rt s1)) = sp s1 /\ pc s1 = pc s + 4 /\
    forall s2, trapsp (stk (rt s2)) = sp s1 ->
      (forall a, sp s1 <= a < sp s1 + 32 -> ld (smem s2) a = ld (smem s1) a) ->
      (no_trace (rt s2) = true -> sp s1 < bottom I (rt s2) ->
       exec I RAISE s2 =
       Next (MkMachine (code_ptr s 0) (sp s) (accu s2) (env s) (extra_args s) (set_trapsp link (rt s2)))) /\
      (something_to_do (glb (rt s2)) = false -> sp s2 = sp s1 ->
       exec I POPTRAP s2 =
       Next (MkMachine (pc s2) (sp s) (accu s2) (env s2) (extra_args s2) (set_trapsp link (rt s2)))).
Proof.
  intros Hx. destruct (PUSHTRAP_frame I s) as (r1 & E & (F1 & F2 & F3 & F4) & Es & _ & _).
  eexists _, _. split; [reflexivity|]. split; [exact E|].
  split; [cbn [rt sp]; rewrite Es; reflexivity|]. split; [reflexivity|]. cbn [sp].
  intros s2 Ht Hm. change (smem (MkMachine _ _ _ _ _ r1)) with (rmem r1) in Hm.
  assert (Hfr : trap_frame (smem s2) (sp s - 32) (code_ptr s 0) (trapsp (stk (rt s))) (env s) (extra_args s)).
  { unfold trap_frame, Trap_pc, Trap_link, Trap_link_addr in *. rewrite !Hm by lia. done. }
  split.
  - intros Hn Hb. rewrite (RAISE_handler I s2 (code_ptr s 0) (trapsp (stk (rt s))) (env s) (extra_args s));
      rewrite ?Ht; try done. do 2 f_equal. lia.
  - intros Hs Hsp. rewrite (POPTRAP_frame I s2 (code_ptr s 0) (trapsp (stk (rt s))) (env s) (extra_args s));
      rewrite ?Hsp; try done. do 2 f_equal. lia.
Qed.

Lemma trap_restores_witness :
  let s := demo_machine Val_unit [Val_long 6] [5; opcode STOP] [] in
  exists s1 link, link = trapsp (stk (rt s)) /\
    exec (C := no_collector) (X := demo_externals) demo_invocation PUSHTRAP s = Next s1 /\
    trapsp (stk (rt s1)) = sp s1 /\
    exec (C := no_collector) (X := demo_externals) demo_invocation RAISE s1 =
    Next (MkMachine 1020 (sp s) (accu s1) (env s) (extra_args s) (set_trapsp link (rt s1))).
Proof.
  intros s.
  destruct (@trap_restores no_collector demo_externals demo_invocation s) as (s1 & link & H1 & H2 & H3 & _ & H4);
    [rewrite is63_eq; vm_compute; split; discriminate|].
  exists s1, link. split; [exact H1|]. split; [exact H2|]. split; [exact H3|].
  destruct (H4 s1 H3) as [H5 _]; [intros; reflexivity|].
  vm_compute in H2. injection H2 as <-. apply H5; vm_compute; reflexivity.
Defined.

(** C37: dividing by zero raises [Division_by_zero]: a bucket with the exception of
    the table of predefined exceptions is allocated, and control reaches the
    innermost handler with its saved registers. *)
Theorem division_by_zero_raises {C : Collector} {X : Externals} I i s h link e x :
  i = DIVINT \/ i = MODINT ->
  slot s 0 = Val_long 0 -> has_room 1 (rt s) = true -> external_raise (glb (rt s)) <> 0 ->
  no_trace (rt s) = true -> trapsp (stk (rt s)) < bottom I (rt s) -> is63 x ->
  trap_frame (smem s) (trapsp (stk (rt s))) h link e x -> div_zero_apart s ->
  let exn := young_ptr (mnr (rt s)) - 8 in
  exists r1,
    exec I i s = Next (MkMachine h (trapsp (stk (rt s)) + 32) exn e x r1) /\
    trapsp (stk r1) = link /\ Wosize_val (rmem r1) exn = 1 /\ Tag_val (rmem r1) exn = 0 /\
    Field (rmem r1) exn 0 = Field (smem s) (global_data (glb (rt s))) ZERO_DIVIDE_EXN.
Proof.
  intros [->| ->] ? ? ? ? ? ? ? ?; cbn [exec exec_plain]; now apply division_by_zero_handled.
Qed.

Definition div_machine : machine :=
  let s := demo_machine (Val_long 6) [Val_long 0; 1008; 16384; Val_unit; Val_long 0] []
             [1; 1; 1; 1; 1; 777] in
  set_rt (set_trapsp (sp s + 8) (rt s)) s.

Lemma division_by_zero_raises_witness :
  let s := div_machine in
  let exn := young_ptr (mnr (rt s)) - 8 in
  exists r1,
    exec (C := no_collector) (X := demo_externals) demo_invocation DIVINT s =
      Next (MkMachine 1008 (trapsp (stk (rt s)) + 32) exn Val_unit 0 r1) /\
    trapsp (stk r1) = 16384 /\ Wosize_val (rmem r1) exn = 1 /\ Tag_val (rmem r1) exn = 0 /\
    Field (rmem r1) exn 0 = Field (smem s) (global_data (glb (rt s))) ZERO_DIVIDE_EXN.
Proof.
  intros s exn.
  apply (@division_by_zero_raises no_collector demo_externals demo_invocation DIVINT s 1008 16384 Val_unit 0);
    [now left|vm_compute; reflexivity|vm_compute; reflexivity|vm_compute; discriminate
    |vm_compute; reflexivity|vm_compute; reflexivity|rewrite is63_eq; lia|vm_compute; auto|].
  unfold div_zero_apart, apart. vm_compute. splits; try reflexivity; try (right; discriminate); discriminate.
Defined.

(** C34: [CLOSUREREC] builds one block for the [n] mutually recursive functions and
    their free variables: each function's closure has its code, is traced back to
    the block by the collector through its infix header, and is pushed on the
    stack; from the closure of function [j], [OFFSETCLOSURE 2(k-j)] is the closure
    of function [k]. *)
Theorem CLOSUREREC_correct {C : Collector} {X : Externals} I s nfuncs nvars :
  opd s 0 = nfuncs -> opd s 1 = nvars -> 1 <= nfuncs < B31 -> 0 <= nvars < B31 ->
  has_room (nfuncs * 2 - 1 + nvars) (rt s) = true ->
  let size := 8 * (nfuncs * 2 + nvars) in
  let hp := young_ptr (mnr (rt s)) - size in
  let blk := hp + 8 in
  let top := sp s - (if 0 <? nvars then 8 else 0) + 8 * nvars in
  apart hp size (sp s - 8 - 8 * nfuncs) (8 * (nvars + nfuncs + 2)) ->
  (exists r1,
    exec I CLOSUREREC s =
      Next (MkMachine (pc s + 4 * (2 + nfuncs)) (top - 8 * nfuncs) blk (env s) (extra_args s) r1) /\
    rec_closures (rmem r1) blk nfuncs nvars (fun j => pc s + 8 + 4 * opd s (2 + j))
      (slot (with_vars nvars s)) /\
    (forall j, 0 <= j < nfuncs -> ld (rmem r1) (top - 8 * (j + 1)) = rec_closure blk j)) /\
  (forall s2 j k, env s2 = rec_closure blk j -> opd s2 0 = 2 * (k - j) ->
    exec I OFFSETCLOSURE s2 = Next (skip 1 (set_accu (rec_closure blk k) s2))).
Proof.
  intros Hn Hv Hnf Hnv Hr size hp blk top Hap. split.
  - now apply CLOSUREREC_spec.
  - intros s2 j k He Ho. cbn [exec exec_plain]. unfold do_OFFSETCLOSURE. rewrite He, Ho.
    unfold rec_closure, sizeof_value. do 3 f_equal. lia.
Qed.

Lemma CLOSUREREC_correct_witness :
  let s := demo_machine (Val_long 6) [] [2; 1; 100; 200] [] in
  (exists r1,
    exec (C := no_collector) (X := demo_externals) demo_invocation CLOSUREREC s =
      Next (MkMachine (pc s + 16) (sp s - 16) (69632 - 32) (env s) (extra_args s) r1) /\
    rec_closures (rmem r1) (69632 - 32) 2 1 (fun j => pc s + 8 + 4 * opd s (2 + j))
      (slot (with_vars 1 s)) /\
    (forall j, 0 <= j < 2 -> ld (rmem r1) (sp s - 8 * (j + 1)) = rec_closure (69632 - 32) j)) /\
  (forall s2 j k, env s2 = rec_closure (69632 - 32) j -> opd s2 0 = 2 * (k - j) ->
    exec (C := no_collector) (X := demo_externals) demo_invocation OFFSETCLOSURE s2 =
    Next (skip 1 (set_accu (rec_closure (69632 - 32) k) s2))).
Proof.
  intros s.
  apply (@CLOSUREREC_correct no_collector demo_externals demo_invocation s 2 1);
    [vm_compute; reflexivity|vm_compute; reflexivity|lia|lia|vm_compute; reflexivity
    |right; vm_compute; discriminate].
Defined.
