(* ===== verification/Callback.v ===== *)
(** * Callbacks from C to Caml

    Models [byterun/callback.c] (bytecode version): a callback pushes its
    arguments and a return frame, then runs the interpreter on the static code
    [ACC n+3; APPLY n; POP 1; STOP].  Also the table of named values. *)

From S2P Require Import Runtime Memory Fail Stacks Instruct Interp InterpCalls.

(** ** Calling a closure *)

(** [callback_code] is the address of the static array in code memory; its second
    and fourth words are patched by every callback. *)
Definition callback_words (narg : Z) : list Z :=
  [opcode ACC; narg + 3; opcode APPLY; narg; opcode POP; 1; opcode STOP].

Fixpoint store_args (l : list Z) (a : Z) (m : mem) : mem :=
  match l with
  | [] => m
  | v :: l => store_args l (a + 8) (st m a v)
  end.

(** The state in which [callbackN_exn] calls [interprete]. *)
Definition callback_setup (callback_code closure : Z) (args : list Z) (r : runtime) : runtime :=
  let narg := Z.of_nat (length args) in
  let sp := extern_sp (stk r) - 8 * (narg + 4) in
  let r := set_extern_sp sp r in
  let m := store_args args sp (rmem r) in
  let m := st m (sp + 8 * narg) (callback_code + 4 * 4) in
  let m := st m (sp + 8 * (narg + 1)) Val_unit in
  let m := st m (sp + 8 * (narg + 2)) (Val_long 0) in
  let m := st m (sp + 8 * (narg + 3)) closure in
  let c := st (code r) (callback_code + 4 * 1) (narg + 3) in
  let c := st c (callback_code + 4 * 3) narg in
  set_code c (set_rmem m r).

Section Callback.
Context {C : Collector} {X : Externals}.

(** [None]: the interpreter has not returned within [fuel] instructions. *)
Definition callbackN_exn (fuel : nat) (callback_code buf closure : Z) (args : list Z) (r : runtime)
  : option (res Z) :=
  match interprete fuel callback_code buf (callback_setup callback_code closure args r) with
  | Next _ => None
  | Abort msg => Some (Fatal msg)
  | Return v r =>
      Some (Ok v (if Is_exception_result v
                  then set_extern_sp (extern_sp (stk r) + 8 * (Z.of_nat (length args) + 4)) r
                  else r))
  end.

(** The variant that propagates exceptions. *)
Definition callbackN (fuel : nat) (callback_code buf closure : Z) (args : list Z) (r : runtime)
  : option (res Z) :=
  match callbackN_exn fuel callback_code buf closure args r with
  | Some (Ok v r) =>
      Some (if Is_exception_result v then mlraise (Extract_exception v) r else Ok v r)
  | o => o
  end.
End Callback.

(** ** Named values *)

Definition Named_value_size : Z := 13.

(** [char] is signed. *)
Definition s8 (x : Z) : Z := (x + 128) mod 256 - 128.

Definition hash_value_name (name : list Z) : Z :=
  foldl (fun h c => u32 (h * 19 + s8 c)) 0 name mod Named_value_size.

(** The buckets, most recent entry first. *)
Definition named_value_table : Type := gmap Z (list (list Z * Z)).

Definition register_named_value (name : list Z) (val : Z) (t : named_value_table) : named_value_table :=
  let h := hash_value_name name in
  <[h := (name, val) :: default [] (t !! h)]> t.

Fixpoint find_named (name : list Z) (l : list (list Z * Z)) : option Z :=
  match l with
  | [] => None
  | (n, v) :: l => if decide (name = n) then Some v else find_named name l
  end.

Definition caml_named_value (name : list Z) (t : named_value_table) : option Z :=
  find_named name (default [] (t !! hash_value_name name)).

(** ** Properties of the protocol *)

Lemma store_args_other l : forall a m b,
  b < a \/ a + 8 * Z.of_nat (length l) <= b -> ld (store_args l a m) b = ld m b.
Proof.
  induction l as [|v l IH]; intros a m b Hb; cbn [store_args length] in *; [done|].
  rewrite IH by lia. apply ld_st_ne. lia.
Qed.
Lemma store_args_word l : forall a m i v,
  l !! i = Some v -> ld (store_args l a m) (a + 8 * Z.of_nat i) = v.
Proof.
  induction l as [|w l IH]; intros a m i v Hi; [done|]. cbn [store_args].
  destruct i as [|i].
  - injection Hi as <-. rewrite Z.mul_0_r, Z.add_0_r. rewrite store_args_other by lia. apply ld_st_eq.
  - replace (a + 8 * Z.of_nat (S i)) with (a + 8 + 8 * Z.of_nat i) by lia. now apply IH.
Qed.

Lemma Is_exception_result_Make v :
  v mod 4 = 0 -> Is_exception_result (Make_exception_result v) = true /\
                 Extract_exception (Make_exception_result v) = v.
Proof.
  intros Hv. unfold Is_exception_result, Make_exception_result, Extract_exception.
  assert (E : Z.lor v 2 = v + 2).
  { replace v with (v / 4 * 2 ^ 2) by (change (2 ^ 2) with 4; zlia).
    rewrite Z.lor_comm, lor_disjoint_add by lia. lia. }
  rewrite E. split.
  - change 3 with (Z.ones 2). rewrite Z.land_ones by lia. change (2 ^ 2) with 4. apply Z.eqb_eq. zlia.
  - change 3 with (Z.ones 2). rewrite Z.ldiff_ones_r, Z.shiftr_div_pow2, Z.shiftl_mul_pow2 by lia.
    change (2 ^ 2) with 4. zlia.
Qed.

(** The code words the interpreter will fetch. *)
Definition callback_code_ok (c : gmap Z Z) (callback_code narg : Z) : Prop :=
  forall i v, callback_words narg !! i = Some v -> ld c (callback_code + 4 * Z.of_nat i) = v.

Lemma callback_setup_code a closure args r :
  callback_code_ok (code r) a (ld (code r) (a + 12)) ->
  callback_code_ok (code (callback_setup a closure args r)) a (Z.of_nat (length args)).
Proof.
  intros H. unfold callback_code_ok, callback_setup in *.
  change (code (set_code ?c _)) with c.
  intros i v Hi. specialize (H i).
  destruct i as [|[|[|[|[|[|[|i]]]]]]]; [..|discriminate Hi].
  all: try (rewrite !ld_st_ne by lia; now apply H).
  - injection Hi as <-. rewrite ld_st_ne by lia. apply ld_st_eq.
  - injection Hi as <-. apply ld_st_eq.
Qed.

Section Protocol.
Context {C : Collector} {X : Externals} (I : invocation).

Lemma step_decode s i : opd s 0 = opcode i -> step I s = exec I i (skip 1 s).
Proof. intros H. unfold step. now rewrite H, decode_opcode. Qed.

Lemma opd_code s i k : opd (skip i s) k = ld (code (rt s)) (pc s + 4 * (i + k)).
Proof. unfold opd, skip. cbn [pc set_pc rt]. f_equal. lia. Qed.

(** The start of a callback: the closure is entered with its arguments. *)
Lemma callback_enter a buf closure args r :
  let narg := Z.of_nat (length args) in
  let r1 := callback_setup a closure args r in
  let s := initial_machine a buf r1 in
  callback_code_ok (code r) a (ld (code r) (a + 12)) ->
  stack_threshold (stk r) <= extern_sp (stk r1) -> something_to_do (glb r) = false ->
  exists r2,
    run I 2 s = Next (MkMachine (Code_val (rmem r1) closure) (extern_sp (stk r1)) closure closure (narg - 1) r2) /\
    rmem r2 = rmem r1 /\ stk r2 = stk r1.
Proof.
  intros narg r1 s Hc Ht Hs.
  pose proof (callback_setup_code a closure args r Hc) as Hw. fold r1 in Hw.
  set (r2 := set_external_raise buf (set_callback_depth (callback_depth (glb r1) + 1) r1)).
  assert (Ecl : slot s (narg + 3) = closure) by (apply ld_st_eq).
  cbn [run].
  rewrite (step_decode s ACC) by (unfold opd; rewrite Z.mul_0_r; apply (Hw 0%nat); reflexivity).
  cbn [exec exec_plain]. unfold do_ACC.
  assert (E1 : opd (skip 1 s) 0 = narg + 3) by (rewrite opd_code; apply (Hw 1%nat); reflexivity).
  rewrite E1. change (slot (skip 1 s) ?i) with (slot s i). rewrite Ecl.
  set (t := skip 1 (set_accu closure (skip 1 s))).
  assert (Et : t = MkMachine (a + 8) (extern_sp (stk r1)) closure (Atom r1 0) 0 r2).
  { unfold t. change (skip 1 (set_accu closure (skip 1 s)))
      with (MkMachine (a + 4 * 1 + 4 * 1) (extern_sp (stk r1)) closure (Atom r1 0) 0 r2).
    f_equal. lia. }
  rewrite Et, (step_decode _ APPLY).
  2: { unfold opd. cbn [pc rt]. replace (a + 8 + 4 * 0) with (a + 4 * Z.of_nat 2) by lia.
       apply (Hw 2%nat). reflexivity. }
  rewrite APPLY_called.
  2: { unfold calm. change (stk (rt _)) with (stk r1). change (glb (rt _)) with (glb r2).
       apply andb_true_iff. split; [apply Z.leb_le; exact Ht|].
       change (something_to_do (glb r2)) with (something_to_do (glb r)). now rewrite Hs. }
  exists r2. splits; try done. do 2 f_equal.
  rewrite opd_code. cbn [pc rt]. replace (a + 8 + 4 * (1 + 0)) with (a + 4 * Z.of_nat 3) by lia.
  f_equal. apply (Hw 3%nat). reflexivity.
Qed.

(** Its end: the return address leads to [POP 1; STOP]. *)
Lemma callback_leave s narg a :
  pc s = a + 16 -> callback_code_ok (code (rt s)) a narg ->
  exists r', run I 2 s = Return (accu s) r' /\ rmem r' = smem s /\
    extern_sp (stk r') = sp s + 8 /\ stack_high (stk r') = stack_high (stk (rt s)) /\
    external_raise (glb r') = initial_external_raise I /\
    callback_depth (glb r') = callback_depth (glb (rt s)) - 1.
Proof.
  intros Hp Hw. cbn [run].
  rewrite (step_decode s POP) by (unfold opd; rewrite Hp, Z.mul_0_r, Z.add_0_r; apply (Hw 4%nat); reflexivity).
  cbn [exec exec_plain]. unfold do_POP.
  assert (E1 : opd (skip 1 s) 0 = 1).
  { rewrite opd_code, Hp. replace (a + 16 + 4 * (1 + 0)) with (a + 4 * Z.of_nat 5) by lia.
    now apply (Hw 5%nat). }
  rewrite E1, (step_decode _ STOP).
  2: { change (opd (skip 1 (pop 1 (skip 1 s))) 0) with (opd (skip 1 (skip 1 s)) 0).
       rewrite skip_skip, opd_code, Hp.
       replace (a + 16 + 4 * (1 + 1 + 0)) with (a + 4 * Z.of_nat 6) by lia. now apply (Hw 6%nat). }
  cbn [exec exec_plain]. unfold do_STOP. eexists. split; [reflexivity|].
  splits; try done. 
Qed.
Lemma run_app n k s : run I (n + k) s = match run I n s with Next s' => run I k s' | o => o end.
Proof. revert s. induction n as [|n IH]; intros s; [done|]. cbn [run Nat.add]. destruct (step I s); auto. Qed.

(** An exception that no handler of this invocation catches. *)
Lemma raise_leave s :
  no_trace (rt s) = true -> bottom I (rt s) <= trapsp (stk (rt s)) ->
  exists r', raise_exception I s = Return (Make_exception_result (accu s)) r' /\
    stack_high (stk r') - extern_sp (stk r') = initial_sp_offset I.
Proof.
  intros Hn Hb. rewrite no_trace_raise by done. cbv zeta. destruct (Z.leb_spec (bottom I (rt s)) (trapsp (stk (rt s)))); [|lia].
  eexists. split; [reflexivity|]. rsimp. unfold bottom. lia.
Qed.
End Protocol.

(** The results of the two callbacks, from that of the interpreter. *)
Section Results.
Context {C : Collector} {X : Externals} (a buf closure : Z) (args : list Z) (r : runtime) (s2 : machine).
Abbreviation r1 := (callback_setup a closure args r).
Abbreviation I := (initial_invocation r1).
Context (Ha : a <> 0) (Hs2 : run I 2 (initial_machine a buf r1) = Next s2).

Lemma callback_result n k s3 v r' :
  run I n s2 = Next s3 -> run I k s3 = Return v r' ->
  callbackN_exn (2 + (n + k)) a buf closure args r =
  Some (Ok v (if Is_exception_result v then set_extern_sp (extern_sp (stk r') + 8 * (Z.of_nat (length args) + 4)) r' else r')).
Proof.
  intros H3 H4. unfold callbackN_exn, interprete. destruct (Z.eqb_spec a 0); [done|]. now rewrite run_app, Hs2, run_app, H3, H4.
Qed.

(** The closure returns to the frame of the callback. *)
Lemma callback_returns n s3 :
  run I n s2 = Next s3 -> pc s3 = a + 16 ->
  stack_high (stk (rt s3)) - sp s3 = stack_high (stk r) - extern_sp (stk r) + 8 ->
  callback_code_ok (code (rt s3)) a (ld (code (rt s3)) (a + 12)) -> Is_exception_result (accu s3) = false ->
  exists r', callbackN_exn (2 + (n + 2)) a buf closure args r = Some (Ok (accu s3) r') /\
    callbackN (2 + (n + 2)) a buf closure args r = Some (Ok (accu s3) r') /\
    stack_high (stk r') - extern_sp (stk r') = stack_high (stk r) - extern_sp (stk r) /\ rmem r' = smem s3.
Proof.
  intros H3 Hp Hsp Hcode Hx. destruct (callback_leave I s3 _ a Hp Hcode) as (r' & E & Em & E2 & E3 & _).
  exists r'. pose proof (callback_result n 2 s3 _ _ H3 E) as Hr. rewrite Hx in Hr. unfold callbackN. rewrite Hr, Hx.
  splits; try done. lia.
Qed.

(** It raises an exception that it does not catch. *)
Lemma callback_raises n s3 s4 :
  iss32 (stack_high (stk r) - extern_sp (stk r1)) ->
  run I n s2 = Next s3 -> step I s3 = raise_exception I s4 -> no_trace (rt s4) = true ->
  bottom I (rt s4) <= trapsp (stk (rt s4)) -> accu s4 mod 4 = 0 ->
  exists r', callbackN_exn (2 + (n + 1)) a buf closure args r = Some (Ok (Make_exception_result (accu s4)) r') /\
    callbackN (2 + (n + 1)) a buf closure args r = Some (mlraise (accu s4) r') /\
    stack_high (stk r') - extern_sp (stk r') = stack_high (stk r) - extern_sp (stk r).
Proof.
  intros Hd H3 Hst Hn Hb Hv. destruct (raise_leave I s4 Hn Hb) as (r' & E & Ed).
  assert (H4 : run I 1 s3 = Return (Make_exception_result (accu s4)) r') by (cbn [run]; now rewrite Hst, E).
  pose proof (callback_result n 1 s3 _ _ H3 H4) as Hr. destruct (Is_exception_result_Make _ Hv) as [Hx Hex].
  rewrite Hx in Hr. unfold callbackN. rewrite Hr, Hx, Hex. eexists. split; [reflexivity|]. split; [reflexivity|]. rsimp.
  change (initial_sp_offset I) with (s32 (stack_high (stk r) - extern_sp (stk r1))) in Ed. rewrite s32_id in Ed by done.
  change (extern_sp (stk r1)) with (extern_sp (stk r) - 8 * (Z.of_nat (length args) + 4)) in Ed. lia.
Qed.
End Results.

(** ** The claims *)

(** C36: a callback enters the closure with its arguments on top of the stack and a
    frame that returns to [POP 1; STOP].  When the closure comes back to that frame,
    [callbackN_exn] and [callbackN] return its value to the C caller; when it raises an
    exception that nothing in the callback catches, [callbackN_exn] returns the
    exception as an exception result and [callbackN] raises it again.  In both cases
    the stack has the depth it had before the call, wherever it was moved to. *)
Theorem callback_protocol {C : Collector} {X : Externals} a buf closure args r :
  let narg := Z.of_nat (length args) in
  let r1 := callback_setup a closure args r in
  let I := initial_invocation r1 in
  let depth r := stack_high (stk r) - extern_sp (stk r) in
  a <> 0 -> callback_code_ok (code r) a (ld (code r) (a + 12)) ->
  stack_threshold (stk r) <= extern_sp (stk r1) -> something_to_do (glb r) = false -> iss32 (depth r1) ->
  exists s2, run I 2 (initial_machine a buf r1) = Next s2 /\
    (pc s2 = Code_val (rmem r1) closure /\ env s2 = closure /\ extra_args s2 = narg - 1 /\
     (forall i v, args !! i = Some v -> slot s2 (Z.of_nat i) = v) /\
     saved_frame s2 narg (a + 16) Val_unit 0 /\ sp s2 + 8 * (narg + 3) = extern_sp (stk r) - 8) /\
    (forall n s3, run I n s2 = Next s3 -> pc s3 = a + 16 ->
       stack_high (stk (rt s3)) - sp s3 = depth r + 8 ->
       callback_code_ok (code (rt s3)) a (ld (code (rt s3)) (a + 12)) -> Is_exception_result (accu s3) = false ->
       exists r', callbackN_exn (2 + (n + 2)) a buf closure args r = Some (Ok (accu s3) r') /\
         callbackN (2 + (n + 2)) a buf closure args r = Some (Ok (accu s3) r') /\
         depth r' = depth r /\ rmem r' = smem s3) /\
    (forall n s3 s4, run I n s2 = Next s3 -> step I s3 = raise_exception I s4 -> no_trace (rt s4) = true ->
       bottom I (rt s4) <= trapsp (stk (rt s4)) -> accu s4 mod 4 = 0 ->
       exists r', callbackN_exn (2 + (n + 1)) a buf closure args r = Some (Ok (Make_exception_result (accu s4)) r') /\
         callbackN (2 + (n + 1)) a buf closure args r = Some (mlraise (accu s4) r') /\ depth r' = depth r).
Proof.
  intros narg r1 I depth Ha Hc Ht Hs Hd.
  assert (Esp : extern_sp (stk r1) = extern_sp (stk r) - 8 * (narg + 4)) by done.
  destruct (callback_enter I a buf closure args r Hc Ht Hs) as (r2 & E & Em & _).
  fold r1 in E, Em. eexists. split; [exact E|]. split; [splits; try done|split].
  - intros i v Hi. unfold slot. cbn [sp]. change (smem (MkMachine _ _ _ _ _ r2)) with (rmem r2).
    rewrite Em, Esp. assert (Z.of_nat i < narg) by (apply lookup_lt_Some in Hi; unfold narg; lia).
    unfold r1, callback_setup. change (rmem (set_code _ (set_rmem ?m _))) with m.
    fold narg. rewrite !ld_st_ne by lia. now apply store_args_word.
  - unfold saved_frame, slot. cbn [sp]. change (smem (MkMachine _ _ _ _ _ r2)) with (rmem r2).
    rewrite Em, Esp. unfold r1, callback_setup. change (rmem (set_code _ (set_rmem ?m _))) with m.
    fold narg. splits; repeat (rewrite ld_st_eq || rewrite ld_st_ne by lia); done.
  - cbn [sp]. lia.
  - intros n s3. now apply callback_returns.
  - intros n s3 s4. now apply callback_raises.
Qed.

(** A callback to a closure whose code is the identity: [ACC0; RETURN 1]. *)
Definition callback_demo : runtime :=
  let r := demo_runtime [] [opcode ACC0; opcode RETURN; 1] [1000] in
  set_code (words 4 2000 (callback_words 0) (code r)) r.

Example callback_demo_run :
  exists r, callbackN_exn (C := no_collector) (X := demo_externals) 10 2000 1 20480 [Val_long 42] callback_demo
    = Some (Ok (Val_long 42) r) /\ extern_sp (stk r) = extern_sp (stk callback_demo).
Proof. eexists. split; vm_compute; reflexivity. Qed.

Lemma callback_demo_code : callback_code_ok (code callback_demo) 2000 (ld (code callback_demo) 2012).
Proof.
  intros i v Hi. do 7 (destruct i; [vm_compute in Hi; injection Hi as <-; reflexivity|]). discriminate Hi.
Qed.

(** A closure that raises its argument: [ACC0; RAISE]. *)
Example callback_demo_raise :
  let r := demo_runtime [] [opcode ACC0; opcode RAISE] [1000] in
  let r := set_code (words 4 2000 (callback_words 0) (code r)) r in
  match callbackN_exn (C := no_collector) (X := demo_externals) 10 2000 1 20480 [24576] r with
  | Some (Ok v r') => v = Make_exception_result 24576 /\ extern_sp (stk r') = extern_sp (stk r)
  | _ => False
  end.
Proof. vm_compute. split; reflexivity. Qed.

(** The identity comes back to the frame in two instructions. *)
Lemma callback_demo_back :
  let r1 := callback_setup 2000 20480 [Val_long 42] callback_demo in
  match run (C := no_collector) (X := demo_externals) (initial_invocation r1) (2 + 2) (initial_machine 2000 1 r1) with
  | Next s3 => pc s3 = 2016 /\ accu s3 = Val_long 42 /\
      stack_high (stk (rt s3)) - sp s3 = stack_high (stk callback_demo) - extern_sp (stk callback_demo) + 8 /\
      map (fun i => ld (code (rt s3)) (2000 + 4 * Z.of_nat i)) (seq 0 7) = callback_words 1
  | _ => False
  end.
Proof. vm_compute. splits; reflexivity. Qed.

Lemma callback_protocol_witness :
  exists r', callbackN_exn (C := no_collector) (X := demo_externals) 6 2000 1 20480 [Val_long 42] callback_demo = Some (Ok (Val_long 42) r') /\
    stack_high (stk r') - extern_sp (stk r') = stack_high (stk callback_demo) - extern_sp (stk callback_demo).
Proof.
  pose proof callback_demo_back as Hb. cbv zeta in Hb.
  destruct (@callback_protocol no_collector demo_externals 2000 1 20480 [Val_long 42] callback_demo ltac:(discriminate)
    callback_demo_code) as (s2 & E & _ & Hret & _);
    [vm_compute; discriminate|reflexivity|vm_compute; split; [discriminate|reflexivity]|].
  rewrite run_app, E in Hb. destruct (run _ 2 s2) as [s3| |] eqn:E3 in Hb; [|destruct Hb|destruct Hb].
  destruct Hb as (H1 & H2 & H3 & H4).
  destruct (Hret 2%nat s3 E3 H1 H3) as (r' & R1 & _ & R2 & _).
  - assert (Hw : forall i v, callback_words 1 !! i = Some v -> ld (code (rt s3)) (2000 + 4 * Z.of_nat i) = v).
    { intros i v Hi. rewrite <- H4, list_lookup_fmap in Hi. destruct (seq 0 7 !! i) as [k|] eqn:Ek; [|discriminate Hi].
      apply lookup_seq in Ek as [-> _]. now injection Hi. }
    intros i v. pose proof (Hw 3%nat 1 eq_refl) as Hw3. change (2000 + 4 * Z.of_nat 3) with (2000 + 12) in Hw3. rewrite Hw3. apply Hw.
  - rewrite H2. reflexivity.
  - exists r'. rewrite H2 in R1. split; [exact R1|exact R2].
Defined.

Lemma find_named_other name n v l : name <> n -> find_named name ((n, v) :: l) = find_named name l.
Proof. intros. cbn [find_named]. now rewrite decide_False. Qed.

(** Looking up a name gives the value it was last registered with, and
    registering a name does not disturb the others, even in the same bucket. *)
Theorem named_value_roundtrip name name' v t :
  caml_named_value name (register_named_value name v t) = Some v /\
  (name' <> name -> caml_named_value name' (register_named_value name v t) = caml_named_value name' t).
Proof.
  unfold caml_named_value, register_named_value, named_value_table in *. cbv zeta. split.
  - rewrite lookup_insert_eq. cbn [default from_option find_named id]. now rewrite decide_True.
  - intros Hne. destruct (decide (hash_value_name name = hash_value_name name')) as [E|E].
    + rewrite E, lookup_insert_eq. now apply find_named_other.
    + now rewrite lookup_insert_ne.
Qed.
