(* ===== verification/FixCode.v ===== *)
(** * Threading the bytecode

    Models [byterun/fix_code.c]: [thread_code] replaces every opcode of a code
    block by the (relative) address of its label and must skip exactly the
    operands.  [label] is the table the interpreter exports, [instr_table] less
    [instr_base]. *)

From S2P Require Import Runtime Memory Fail Stacks Instruct Interp.

Section Thread.
Context (label : instruction -> Z).

(** The array [l]: the number of operands, for instructions of fixed length. *)
Definition operands (i : instruction) : Z :=
  match i with
  | PUSHACC | ACC | POP | ASSIGN | PUSHENVACC | ENVACC | PUSH_RETADDR | APPLY
  | APPTERM1 | APPTERM2 | APPTERM3 | RETURN | GRAB | PUSHGETGLOBAL | GETGLOBAL | SETGLOBAL
  | PUSHATOM | ATOM | MAKEBLOCK1 | MAKEBLOCK2 | MAKEBLOCK3 | MAKEFLOATBLOCK | GETFIELD
  | GETFLOATFIELD | SETFIELD | SETFLOATFIELD | BRANCH | BRANCHIF | BRANCHIFNOT | PUSHTRAP
  | C_CALL1 | C_CALL2 | C_CALL3 | C_CALL4 | C_CALL5 | CONSTINT | PUSHCONSTINT | OFFSETINT
  | OFFSETREF | OFFSETCLOSURE | PUSHOFFSETCLOSURE => 1
  | APPTERM | CLOSURE | PUSHGETGLOBALFIELD | GETGLOBALFIELD | MAKEBLOCK | C_CALLN
  | BEQ | BNEQ | BLTINT | BLEINT | BGTINT | BGEINT | BULTINT | BUGEINT => 2
  | _ => 0
  end.

(** The words after the opcode at [p]. *)
Definition operand_words (c : gmap Z Z) (p : Z) (i : instruction) : Z :=
  match i with
  | SWITCH =>
      let sizes := u32 (ld c (p + 4)) in
      1 + (Z.land sizes 65535 + Z.shiftr sizes 16)
  | CLOSUREREC => 2 + u32 (ld c (p + 4))
  | _ => operands i
  end.

(** An opcode that is not an instruction, or above [STOP], counts as [STOP]. *)
Definition thread_instr (op : Z) : instruction :=
  if (op <? 0) || (opcode STOP <? op) then STOP else default STOP (decode op).

(** The loop [for (p = code; p < code + len; )]; [None] when [fuel] runs out. *)
Fixpoint thread_loop (fuel : nat) (c : gmap Z Z) (p stop : Z) : option (gmap Z Z) :=
  if stop <=? p then Some c else
  match fuel with
  | O => None
  | S fuel =>
      let i := thread_instr (ld c p) in
      thread_loop fuel (st c p (s32 (label i))) (p + 4 + 4 * operand_words c p i) stop
  end.

(** [len] is in bytes. *)
Definition thread_code (c : gmap Z Z) (code len : Z) : option (gmap Z Z) :=
  thread_loop (Z.to_nat (len / 4)) c code (code + 4 * (len / 4)).

Definition set_instruction (c : gmap Z Z) (pos : Z) (i : instruction) : gmap Z Z :=
  st c pos (s32 (label i)).
Definition is_instruction (instr1 : Z) (instr2 : instruction) : bool := instr1 =? s32 (label instr2).

(** ** Well-formed code *)

(** An instruction with its operands; their number is what [thread_code] skips. *)
Definition wf_instr (x : instruction * list Z) : Prop :=
  let (i, ops) := x in
  opcode i <= opcode STOP /\
  match i with
  | SWITCH =>
      exists sizes rest, ops = sizes :: rest /\
        Z.of_nat (length rest) = Z.land (u32 sizes) 65535 + Z.shiftr (u32 sizes) 16
  | CLOSUREREC =>
      exists nfuncs nvars rest, ops = nfuncs :: nvars :: rest /\ Z.of_nat (length rest) = u32 nfuncs
  | _ => Z.of_nat (length ops) = operands i
  end.

Definition emit (x : instruction * list Z) : list Z := opcode x.1 :: x.2.
Definition emit_threaded (x : instruction * list Z) : list Z := s32 (label x.1) :: x.2.

(** The words [l] are at [a]. *)
Definition code_at (c : gmap Z Z) (a : Z) (l : list Z) : Prop :=
  forall i v, l !! i = Some v -> ld c (a + 4 * Z.of_nat i) = v.

Lemma thread_instr_opcode i : opcode i <= opcode STOP -> thread_instr (opcode i) = i.
Proof.
  intros H. unfold thread_instr. pose proof (opcode_range i).
  destruct (Z.ltb_spec (opcode i) 0), (Z.ltb_spec (opcode STOP) (opcode i)); try lia.
  cbn [orb]. now rewrite decode_opcode.
Qed.

Lemma code_at_cons c a v l : code_at c a (v :: l) -> ld c a = v /\ code_at c (a + 4) l.
Proof.
  intros H. split.
  - specialize (H 0%nat v eq_refl). now rewrite Z.mul_0_r, Z.add_0_r in H.
  - intros i w Hi. specialize (H (S i) w Hi). rewrite <- H. f_equal. lia.
Qed.
Lemma code_at_app c a l1 l2 :
  code_at c a (l1 ++ l2) -> code_at c a l1 /\ code_at c (a + 4 * Z.of_nat (length l1)) l2.
Proof.
  intros H. split.
  - intros i w Hi. apply H. now apply lookup_app_l_Some.
  - intros i w Hi. specialize (H (length l1 + i)%nat w). rewrite <- H; [f_equal; lia|].
    rewrite lookup_app_r by lia. now replace (length l1 + i - length l1)%nat with i by lia.
Qed.
Lemma code_at_join c a l1 l2 :
  code_at c a l1 -> code_at c (a + 4 * Z.of_nat (length l1)) l2 -> code_at c a (l1 ++ l2).
Proof.
  intros H1 H2 i w Hi. apply lookup_app_Some in Hi as [Hi|[Hl Hi]]; [auto|].
  rewrite <- (H2 _ _ Hi). f_equal. lia.
Qed.

(** [c'] differs from [c] outside [a, b) nowhere. *)
Lemma operand_words_emit c p x :
  wf_instr x -> code_at c p (emit x) ->
  operand_words c p x.1 = Z.of_nat (length x.2).
Proof.
  destruct x as [i ops]. cbn [emit fst snd]. intros [_ Hw] Hc.
  destruct i; cbn [operand_words]; try (symmetry; exact Hw).
  - destruct Hw as (nf & nv & rest & -> & E). apply code_at_cons in Hc as [_ Hc].
    apply code_at_cons in Hc as [-> _]. cbn [length]. lia.
  - destruct Hw as (sizes & rest & -> & E). apply code_at_cons in Hc as [_ Hc].
    apply code_at_cons in Hc as [-> _]. cbn [length]. lia.
Qed.

Lemma code_at_st_lt c a b v l : b < a -> code_at c a l -> code_at (st c b v) a l.
Proof. intros Hb H i w Hi. rewrite ld_st_ne by lia. auto. Qed.

(** Threading a program threads each opcode once and no operand. *)
Lemma thread_loop_spec prog : forall fuel c p,
  Forall wf_instr prog -> (length prog <= fuel)%nat ->
  code_at c p (concat (map emit prog)) ->
  exists c', thread_loop fuel c p (p + 4 * Z.of_nat (length (concat (map emit prog)))) = Some c' /\
    code_at c' p (concat (map emit_threaded prog)) /\
    (forall a, a < p \/ p + 4 * Z.of_nat (length (concat (map emit prog))) <= a -> ld c' a = ld c a).
Proof.
  induction prog as [|x prog IH]; intros fuel c p Hwf Hf Hc.
  - exists c. split; [|split; [intros i v Hi; discriminate|done]].
    cbn [map concat length]. destruct fuel; cbn [thread_loop];
      (destruct (Z.leb_spec (p + 4 * Z.of_nat 0) p); [done|lia]).
  - destruct fuel as [|fuel]; [cbn [length] in Hf; lia|].
    apply Forall_cons in Hwf as [Hx Hwf]. cbn [map concat] in *.
    apply code_at_app in Hc as [Hcx Hc].
    pose proof (operand_words_emit c p x Hx Hcx) as Hl.
    destruct (code_at_cons _ _ _ _ Hcx) as [Ep Hops].
    rewrite length_app. set (n := length (concat (map emit prog))) in *.
    assert (Elen : Z.of_nat (length (emit x)) = 1 + Z.of_nat (length x.2)) by (cbn [emit length]; lia).
    cbn [thread_loop].
    destruct (Z.leb_spec (p + 4 * Z.of_nat (length (emit x) + n)) p); [lia|].
    rewrite Ep. rewrite thread_instr_opcode by (destruct x; apply Hx). rewrite Hl.
    set (c1 := st c p (s32 (label x.1))).
    destruct (IH fuel c1 (p + 4 + 4 * Z.of_nat (length x.2))) as (c' & E & H1 & H2).
    + done.
    + cbn [length] in Hf. lia.
    + replace (p + 4 + 4 * Z.of_nat (length x.2)) with (p + 4 * Z.of_nat (length (emit x))) by lia.
      apply code_at_st_lt; [lia|done].
    + fold n in E, H2. exists c'. splits.
      * rewrite <- E. f_equal. lia.
      * apply code_at_join.
        -- intros i v Hi. destruct i as [|i].
           ++ injection Hi as <-. rewrite H2, Z.mul_0_r, Z.add_0_r by lia. apply ld_st_eq.
           ++ pose proof (lookup_lt_Some _ _ _ Hi) as Hil. cbn [emit_threaded length] in Hil.
              rewrite H2 by lia. unfold c1. rewrite ld_st_ne by lia.
              rewrite <- (Hops i v Hi). f_equal. lia.
        -- replace (p + 4 * Z.of_nat (length (emit_threaded x)))
             with (p + 4 + 4 * Z.of_nat (length x.2)) by (cbn [emit_threaded length]; lia). done.
      * intros a Ha. rewrite H2 by lia. unfold c1. apply ld_st_ne. lia.
Qed.
End Thread.

(** ** Agreement with the interpreter *)

(** The instructions that always continue with the next one. *)
Definition falls_through (i : instruction) : bool :=
  match i with
  | APPLY | APPLY1 | APPLY2 | APPLY3 | APPTERM | APPTERM1 | APPTERM2 | APPTERM3 | RETURN | GRAB
  | RESTART | CLOSURE | CLOSUREREC | SETGLOBAL | MAKEBLOCK | MAKEBLOCK1 | MAKEBLOCK2 | MAKEBLOCK3
  | MAKEFLOATBLOCK | GETFLOATFIELD | SETFIELD0 | SETFIELD1 | SETFIELD2 | SETFIELD3 | SETFIELD
  | SETVECTITEM | BRANCH | BRANCHIF | BRANCHIFNOT | SWITCH | POPTRAP | RAISE | CHECK_SIGNALS
  | C_CALL1 | C_CALL2 | C_CALL3 | C_CALL4 | C_CALL5 | C_CALLN | DIVINT | MODINT
  | BEQ | BNEQ | BLTINT | BLEINT | BGTINT | BGEINT | BULTINT | BUGEINT | STOP | EVENT | BREAK => false
  | _ => true
  end.

Lemma falls_through_pc {C : Collector} {X : Externals} I i s :
  falls_through i = true ->
  exists s', exec I i s = Next s' /\ pc s' = pc s + 4 * operands i.
Proof.
  intros H. destruct i; try discriminate H; cbn [exec exec_plain operands];
    (eexists; split; [reflexivity|]);
    repeat (progress cbn [pc skip set_pc set_accu pop set_sp push set_slot set_smem set_rt set_field set_env
      set_extra_args] || unfold skip); lia.
Qed.

(** ** The claims *)

Lemma length_emit_le prog : (length prog <= length (concat (map emit prog)))%nat.
Proof.
  induction prog as [|x prog IH]; cbn [map concat length]; [lia|].
  rewrite length_app. cbn [emit length]. lia.
Qed.

(** On well-formed code [thread_code] ends, replaces each opcode by its label,
    and leaves every operand and everything outside the block unchanged. *)
Theorem thread_code_correct (label : instruction -> Z) prog c a :
  Forall wf_instr prog -> code_at c a (concat (map emit prog)) ->
  let len := Z.of_nat (length (concat (map emit prog))) in
  exists c', thread_code label c a (4 * len) = Some c' /\
    code_at c' a (concat (map (emit_threaded label) prog)) /\
    (forall b, b < a \/ a + 4 * len <= b -> ld c' b = ld c b).
Proof.
  intros Hwf Hc len. unfold thread_code.
  rewrite (Z.mul_comm 4 len), Z.div_mul by lia. unfold len. rewrite Nat2Z.id, Z.mul_comm.
  rewrite (Z.mul_comm _ 4). apply thread_loop_spec; try done. apply length_emit_le.
Qed.

Definition thread_demo : list (instruction * list Z) :=
  [(CONSTINT, [5]); (SWITCH, [65538; 1; 2; 3]); (CLOSUREREC, [1; 0; 7]); (STOP, [])].

Lemma thread_demo_wf : Forall wf_instr thread_demo.
Proof.
  repeat constructor; cbn; try lia.
  - exists 65538, [1; 2; 3]. split; reflexivity.
  - exists 1, 0, [7]. split; reflexivity.
Qed.

Lemma thread_code_correct_witness :
  let c := words 4 1000 (concat (map emit thread_demo)) ∅ in
  let label i := 3 * opcode i in
  exists c', thread_code label c 1000 48 = Some c' /\
    code_at c' 1000 (concat (map (emit_threaded label) thread_demo)) /\
    (forall b, b < 1000 \/ 1000 + 48 <= b -> ld c' b = ld c b).
Proof.
  intros c label. apply (thread_code_correct label thread_demo c 1000 thread_demo_wf).
  intros i v Hi. do 12 (destruct i; [vm_compute in Hi; injection Hi as <-; reflexivity|]). discriminate Hi.
Defined.

(** The operand counts of [thread_code] are those of the interpreter: an
    instruction that falls through leaves [pc] after exactly that many operands. *)
Theorem operands_agree {C : Collector} {X : Externals} I i s :
  falls_through i = true ->
  exists s', exec I i s = Next s' /\ pc s' = pc s + 4 * operands i.
Proof. apply falls_through_pc. Qed.

Lemma operands_agree_witness :
  let s := demo_machine Val_unit [] [1; 2] [20480; 20480] in
  exists s', exec (C := no_collector) (X := demo_externals) demo_invocation GETGLOBALFIELD s = Next s' /\
    pc s' = pc s + 8.
Proof. intros s. now apply (operands_agree demo_invocation GETGLOBALFIELD s). Defined.
