(* ===== verification/Md5.v ===== *)
(** * MD5 digests

    Models the algorithm of [byterun/md5.c] on a little-endian machine (where
    [byteReverse] is empty): [MD5Init], [MD5Update], [MD5Final] and the unrolled
    [MD5Transform].  It is compared with the algorithm as RFC 1321 defines it: the
    padded message cut into blocks of 16 words, and four rounds of 16 operations
    driven by tables. *)

From S2P Require Import Prelude.

(** ** The context *)

Record MD5Context := MkCtx {
  buf : Z * Z * Z * Z;   (* uint32 buf[4] *)
  bits : Z * Z;          (* uint32 bits[2], the low word first *)
  inb : list Z           (* unsigned char in[64] *)
}.

Definition MD5Init (ctx : MD5Context) : MD5Context :=
  MkCtx (0x67452301, 0xefcdab89, 0x98badcfe, 0x10325476) (0, 0) (inb ctx).

(** ** The transformation *)

Definition F1 (x y z : Z) : Z := Z.lxor z (Z.land x (Z.lxor y z)).
Definition F2 (x y z : Z) : Z := F1 z x y.
Definition F3 (x y z : Z) : Z := Z.lxor (Z.lxor x y) z.
Definition F4 (x y z : Z) : Z := Z.lxor y (Z.lor x (u32 (Z.lnot z))).

(** [w += f(x,y,z) + data, w = w<<s | w>>(32-s), w += x] *)
Definition MD5STEP (f : Z -> Z -> Z -> Z) (w x y z data s : Z) : Z :=
  let w := u32 (w + u32 (f x y z + data)) in
  let w := Z.lor (u32 (Z.shiftl w s)) (Z.shiftr w (32 - s)) in
  u32 (w + x).

(** The [i]-th word of a buffer of bytes, least significant byte first. *)
Definition le_word (l : list Z) (i : nat) : Z :=
  let b k := nth (4 * i + k) l 0 in b 0%nat + b 1%nat * 256 + b 2%nat * 65536 + b 3%nat * 16777216.

(** [MD5STEP] on each of the four registers: [step_a f data s] is
    [MD5STEP(f, a, b, c, d, data, s)], [step_d f data s] is
    [MD5STEP(f, d, a, b, c, data, s)], and so on. *)
Definition regs : Type := Z * Z * Z * Z.
Definition step_a (f : Z -> Z -> Z -> Z) (data s : Z) (r : regs) : regs :=
  let '(a, b, c, d) := r in (MD5STEP f a b c d data s, b, c, d).
Definition step_d (f : Z -> Z -> Z -> Z) (data s : Z) (r : regs) : regs :=
  let '(a, b, c, d) := r in (a, b, c, MD5STEP f d a b c data s).
Definition step_c (f : Z -> Z -> Z -> Z) (data s : Z) (r : regs) : regs :=
  let '(a, b, c, d) := r in (a, b, MD5STEP f c d a b data s, d).
Definition step_b (f : Z -> Z -> Z -> Z) (data s : Z) (r : regs) : regs :=
  let '(a, b, c, d) := r in (a, MD5STEP f b c d a data s, c, d).

Notation "r '|>' f" := (f r) (at level 50, left associativity, only parsing) : c_scope.

Definition MD5Steps (inp : Z -> Z) (r : regs) : regs :=
  (r
    |> step_a F1 (inp 0 + 0xd76aa478) 7
    |> step_d F1 (inp 1 + 0xe8c7b756) 12
    |> step_c F1 (inp 2 + 0x242070db) 17
    |> step_b F1 (inp 3 + 0xc1bdceee) 22
    |> step_a F1 (inp 4 + 0xf57c0faf) 7
    |> step_d F1 (inp 5 + 0x4787c62a) 12
    |> step_c F1 (inp 6 + 0xa8304613) 17
    |> step_b F1 (inp 7 + 0xfd469501) 22
    |> step_a F1 (inp 8 + 0x698098d8) 7
    |> step_d F1 (inp 9 + 0x8b44f7af) 12
    |> step_c F1 (inp 10 + 0xffff5bb1) 17
    |> step_b F1 (inp 11 + 0x895cd7be) 22
    |> step_a F1 (inp 12 + 0x6b901122) 7
    |> step_d F1 (inp 13 + 0xfd987193) 12
    |> step_c F1 (inp 14 + 0xa679438e) 17
    |> step_b F1 (inp 15 + 0x49b40821) 22
    |> step_a F2 (inp 1 + 0xf61e2562) 5
    |> step_d F2 (inp 6 + 0xc040b340) 9
    |> step_c F2 (inp 11 + 0x265e5a51) 14
    |> step_b F2 (inp 0 + 0xe9b6c7aa) 20
    |> step_a F2 (inp 5 + 0xd62f105d) 5
    |> step_d F2 (inp 10 + 0x02441453) 9
    |> step_c F2 (inp 15 + 0xd8a1e681) 14
    |> step_b F2 (inp 4 + 0xe7d3fbc8) 20
    |> step_a F2 (inp 9 + 0x21e1cde6) 5
    |> step_d F2 (inp 14 + 0xc33707d6) 9
    |> step_c F2 (inp 3 + 0xf4d50d87) 14
    |> step_b F2 (inp 8 + 0x455a14ed) 20
    |> step_a F2 (inp 13 + 0xa9e3e905) 5
    |> step_d F2 (inp 2 + 0xfcefa3f8) 9
    |> step_c F2 (inp 7 + 0x676f02d9) 14
    |> step_b F2 (inp 12 + 0x8d2a4c8a) 20
    |> step_a F3 (inp 5 + 0xfffa3942) 4
    |> step_d F3 (inp 8 + 0x8771f681) 11
    |> step_c F3 (inp 11 + 0x6d9d6122) 16
    |> step_b F3 (inp 14 + 0xfde5380c) 23
    |> step_a F3 (inp 1 + 0xa4beea44) 4
    |> step_d F3 (inp 4 + 0x4bdecfa9) 11
    |> step_c F3 (inp 7 + 0xf6bb4b60) 16
    |> step_b F3 (inp 10 + 0xbebfbc70) 23
    |> step_a F3 (inp 13 + 0x289b7ec6) 4
    |> step_d F3 (inp 0 + 0xeaa127fa) 11
    |> step_c F3 (inp 3 + 0xd4ef3085) 16
    |> step_b F3 (inp 6 + 0x04881d05) 23
    |> step_a F3 (inp 9 + 0xd9d4d039) 4
    |> step_d F3 (inp 12 + 0xe6db99e5) 11
    |> step_c F3 (inp 15 + 0x1fa27cf8) 16
    |> step_b F3 (inp 2 + 0xc4ac5665) 23
    |> step_a F4 (inp 0 + 0xf4292244) 6
    |> step_d F4 (inp 7 + 0x432aff97) 10
    |> step_c F4 (inp 14 + 0xab9423a7) 15
    |> step_b F4 (inp 5 + 0xfc93a039) 21
    |> step_a F4 (inp 12 + 0x655b59c3) 6
    |> step_d F4 (inp 3 + 0x8f0ccc92) 10
    |> step_c F4 (inp 10 + 0xffeff47d) 15
    |> step_b F4 (inp 1 + 0x85845dd1) 21
    |> step_a F4 (inp 8 + 0x6fa87e4f) 6
    |> step_d F4 (inp 15 + 0xfe2ce6e0) 10
    |> step_c F4 (inp 6 + 0xa3014314) 15
    |> step_b F4 (inp 13 + 0x4e0811a1) 21
    |> step_a F4 (inp 4 + 0xf7537e82) 6
    |> step_d F4 (inp 11 + 0xbd3af235) 10
    |> step_c F4 (inp 2 + 0x2ad7d2bb) 15
    |> step_b F4 (inp 9 + 0xeb86d391) 21)%C.

Definition MD5Transform (buf : Z * Z * Z * Z) (inb : list Z) : Z * Z * Z * Z :=
  let '(buf0, buf1, buf2, buf3) := buf in
  let '(a, b, c, d) := MD5Steps (fun k => le_word inb (Z.to_nat k)) (buf0, buf1, buf2, buf3) in
  (u32 (buf0 + a), u32 (buf1 + b), u32 (buf2 + c), u32 (buf3 + d)).

(** ** Accumulation *)

(** [memcpy (l + t, s, length s)] *)
Definition memcpy (l : list Z) (t : nat) (s : list Z) : list Z :=
  take t l ++ s ++ drop (t + length s) l.

(** [while (len >= 64)]: whole blocks, and the bytes that remain. *)
Fixpoint update_blocks (fuel : nat) (h : Z * Z * Z * Z) (inb b : list Z) : Z * Z * Z * Z * list Z * list Z :=
  match fuel with
  | O => (h, inb, b)
  | S fuel =>
      if (64 <=? length b)%nat then
        let inb := memcpy inb 0 (take 64 b) in
        update_blocks fuel (MD5Transform h inb) inb (drop 64 b)
      else (h, inb, b)
  end.

Definition update_count (bits : Z * Z) (len : Z) : Z * Z :=
  let t := bits.1 in
  let bits0 := u32 (t + u32 (Z.shiftl (u32 len) 3)) in
  let bits1 := if bits0 <? t then u32 (bits.2 + 1) else bits.2 in
  (bits0, u32 (bits1 + Z.shiftr len 29)).

(** The rest of [MD5Update], when the buffer is empty. *)
Definition update_rest (ctx : MD5Context) (b : list Z) : MD5Context :=
  let '(h, inb, b) := update_blocks (length b) (buf ctx) (inb ctx) b in
  MkCtx h (bits ctx) (memcpy inb 0 b).

Definition MD5Update (ctx : MD5Context) (b : list Z) : MD5Context :=
  let t := Z.land (Z.shiftr (bits ctx).1 3) 0x3f in
  let ctx := MkCtx (buf ctx) (update_count (bits ctx) (Z.of_nat (length b))) (inb ctx) in
  if negb (t =? 0) then
    let p := Z.to_nat t in
    let t := (64 - p)%nat in
    if (length b <? t)%nat then MkCtx (buf ctx) (bits ctx) (memcpy (inb ctx) p b)
    else
      let inb := memcpy (inb ctx) p (take t b) in
      update_rest (MkCtx (MD5Transform (buf ctx) inb) (bits ctx) inb) (drop t b)
  else update_rest ctx b.

(** ** The digest *)

(** A word as four bytes, least significant first. *)
Definition le_bytes (w : Z) : list Z :=
  [w mod 256; Z.shiftr w 8 mod 256; Z.shiftr w 16 mod 256; Z.shiftr w 24 mod 256].

(** The digest, and the context after [memset(ctx, 0, sizeof(ctx))]: [ctx] is a
    pointer, so that 8 bytes are cleared. *)
Definition MD5Final (ctx : MD5Context) : list Z * MD5Context :=
  let count := Z.to_nat (Z.land (Z.shiftr (bits ctx).1 3) 0x3F) in
  let inb := memcpy (inb ctx) count [0x80] in
  let p := S count in
  let count := (64 - 1 - count)%nat in
  let '(h, inb) :=
    if (count <? 8)%nat then
      let inb := memcpy inb p (replicate count 0) in
      (MD5Transform (buf ctx) inb, memcpy inb 0 (replicate 56 0))
    else (buf ctx, memcpy inb p (replicate (count - 8) 0)) in
  let inb := memcpy inb 56 (le_bytes (bits ctx).1) in
  let inb := memcpy inb 60 (le_bytes (bits ctx).2) in
  let '(a, b, c, d) := MD5Transform h inb in
  (le_bytes a ++ le_bytes b ++ le_bytes c ++ le_bytes d, MkCtx (0, 0, c, d) (bits ctx) inb).

(** ** The algorithm of RFC 1321 *)

Definition rfc_F (x y z : Z) : Z := Z.lor (Z.land x y) (Z.land (Z.lnot x) z).
Definition rfc_G (x y z : Z) : Z := Z.lor (Z.land x z) (Z.land y (Z.lnot z)).
Definition rfc_H (x y z : Z) : Z := Z.lxor x (Z.lxor y z).
Definition rfc_I (x y z : Z) : Z := Z.lxor y (Z.lor x (Z.lnot z)).

Definition rotate_left (x n : Z) : Z := u32 (Z.shiftl x n + Z.shiftr x (32 - n)).

(** The additive constants, [floor (2^32 * abs (sin i))]. *)
Definition rfc_T : list Z :=
  [0xd76aa478; 0xe8c7b756; 0x242070db; 0xc1bdceee; 0xf57c0faf; 0x4787c62a;
   0xa8304613; 0xfd469501; 0x698098d8; 0x8b44f7af; 0xffff5bb1; 0x895cd7be;
   0x6b901122; 0xfd987193; 0xa679438e; 0x49b40821; 0xf61e2562; 0xc040b340;
   0x265e5a51; 0xe9b6c7aa; 0xd62f105d; 0x02441453; 0xd8a1e681; 0xe7d3fbc8;
   0x21e1cde6; 0xc33707d6; 0xf4d50d87; 0x455a14ed; 0xa9e3e905; 0xfcefa3f8;
   0x676f02d9; 0x8d2a4c8a; 0xfffa3942; 0x8771f681; 0x6d9d6122; 0xfde5380c;
   0xa4beea44; 0x4bdecfa9; 0xf6bb4b60; 0xbebfbc70; 0x289b7ec6; 0xeaa127fa;
   0xd4ef3085; 0x04881d05; 0xd9d4d039; 0xe6db99e5; 0x1fa27cf8; 0xc4ac5665;
   0xf4292244; 0x432aff97; 0xab9423a7; 0xfc93a039; 0x655b59c3; 0x8f0ccc92;
   0xffeff47d; 0x85845dd1; 0x6fa87e4f; 0xfe2ce6e0; 0xa3014314; 0x4e0811a1;
   0xf7537e82; 0xbd3af235; 0x2ad7d2bb; 0xeb86d391].

(** The function, the index of the word and the shift of operation [i]. *)
Definition rfc_fun (i : nat) : Z -> Z -> Z -> Z :=
  nth (i / 16) [rfc_F; rfc_G; rfc_H; rfc_I] rfc_F.
Definition rfc_index (i : nat) : nat :=
  nth (i / 16) [i; 5 * i + 1; 3 * i + 5; 7 * i]%nat 0%nat mod 16.
Definition rfc_shift (i : nat) : Z :=
  nth (i mod 4) (nth (i / 16) [[7; 12; 17; 22]; [5; 9; 14; 20]; [4; 11; 16; 23]; [6; 10; 15; 21]] []) 0.

(** One operation, and the rotation of the registers. *)
Definition rfc_step (X : list Z) (st : Z * Z * Z * Z) (i : nat) : Z * Z * Z * Z :=
  let '(a, b, c, d) := st in
  (d, u32 (b + rotate_left (u32 (a + rfc_fun i b c d + le_word X (rfc_index i) + nth i rfc_T 0)) (rfc_shift i)), b, c).

Definition rfc_transform (h : Z * Z * Z * Z) (X : list Z) : Z * Z * Z * Z :=
  let '(a, b, c, d) := h in
  let '(a', b', c', d') := fold_left (rfc_step X) (seq 0 64) h in
  (u32 (a + a'), u32 (b + b'), u32 (c + c'), u32 (d + d')).

(** The message padded to a whole number of blocks, with its length in bits. *)
Definition rfc_pad (msg : list Z) : list Z :=
  let n := Z.of_nat (length msg) in
  msg ++ 0x80 :: replicate (Z.to_nat ((55 - n) mod 64)) 0 ++
  le_bytes ((8 * n) mod B32) ++ le_bytes ((8 * n / B32) mod B32).

Fixpoint rfc_blocks (fuel : nat) (h : Z * Z * Z * Z) (l : list Z) : Z * Z * Z * Z :=
  match fuel with
  | O => h
  | S fuel => rfc_blocks fuel (rfc_transform h (take 64 l)) (drop 64 l)
  end.

Definition rfc_md5 (msg : list Z) : list Z :=
  let l := rfc_pad msg in
  let '(a, b, c, d) :=
    rfc_blocks (length l / 64) (0x67452301, 0xefcdab89, 0x98badcfe, 0x10325476) l in
  le_bytes a ++ le_bytes b ++ le_bytes c ++ le_bytes d.

(** ** The unrolled transformation is that of the RFC *)

Ltac bitwise :=
  apply Z.bits_inj'; intros k Hk;
  rewrite ?Z.lor_spec, ?Z.land_spec, ?Z.lxor_spec, ?Z.lnot_spec, ?Z.lor_spec, ?Z.land_spec, ?Z.lxor_spec,
    ?Z.lnot_spec by lia;
  repeat match goal with |- context [Z.testbit ?a k] => destruct (Z.testbit a k) end; reflexivity.

Lemma F1_rfc x y z : F1 x y z = rfc_F x y z.
Proof. unfold F1, rfc_F. bitwise. Qed.
Lemma F2_rfc x y z : F2 x y z = rfc_G x y z.
Proof. unfold F2, F1, rfc_G. bitwise. Qed.
Lemma F3_rfc x y z : F3 x y z = rfc_H x y z.
Proof. unfold F3, rfc_H. bitwise. Qed.
Lemma F4_rfc x y z : u32 (F4 x y z) = u32 (rfc_I x y z).
Proof.
  unfold F4, rfc_I, u32. change B32 with (2 ^ 32). rewrite <- !Z.land_ones by lia.
  apply Z.bits_inj'. intros k Hk. rewrite !Z.land_spec.
  destruct (Z.ltb_spec k 32) as [Hlt|Hge].
  - rewrite Z.ones_spec_low, !andb_true_r by lia. rewrite !Z.lxor_spec, !Z.lor_spec, Z.land_spec.
    rewrite Z.ones_spec_low, andb_true_r by lia. done.
  - rewrite Z.ones_spec_high by lia. now rewrite !andb_false_r.
Qed.

Lemma rotate_eq w s : isu32 w -> 0 <= s <= 32 ->
  Z.lor (u32 (Z.shiftl w s)) (Z.shiftr w (32 - s)) = rotate_left w s.
Proof.
  intros Hw Hs. unfold rotate_left, isu32 in *.
  rewrite Z.shiftl_mul_pow2, Z.shiftr_div_pow2 by lia.
  assert (E : 2 ^ (32 - s) * 2 ^ s = B32) by (rewrite <- Z.pow_add_r by lia; now replace (32 - s + s) with 32 by lia).
  pose proof (pow2_pos (32 - s) ltac:(lia)) as Hp. pose proof (pow2_pos s ltac:(lia)) as Hq.
  pose proof (Z.div_mod w (2 ^ (32 - s)) ltac:(lia)) as Ediv.
  pose proof (Z.mod_pos_bound w (2 ^ (32 - s)) Hp) as Hr.
  set (q := w / 2 ^ (32 - s)) in *. set (r := w mod 2 ^ (32 - s)) in *.
  assert (Hqr : 0 <= q < 2 ^ s) by (split; [apply Z.div_pos; lia|apply Z.div_lt_upper_bound; lia]).
  assert (Hrange : 0 <= r * 2 ^ s <= B32 - 2 ^ s).
  { split; [apply Z.mul_nonneg_nonneg; lia|]. rewrite <- E.
    replace (2 ^ (32 - s) * 2 ^ s - 2 ^ s) with ((2 ^ (32 - s) - 1) * 2 ^ s) by ring. apply Z.mul_le_mono_nonneg_r; lia. }
  assert (Ew : w * 2 ^ s = r * 2 ^ s + q * B32) by (rewrite Ediv at 1; rewrite <- E; ring).
  assert (Eu : u32 (w * 2 ^ s) = r * 2 ^ s).
  { unfold u32. rewrite Ew, Z.mod_add by lia. apply Z.mod_small. lia. }
  rewrite Eu, Z.lor_comm, lor_disjoint_add by lia.
  rewrite Ew. replace (r * 2 ^ s + q * B32 + q) with (q + r * 2 ^ s + q * B32) by ring.
  unfold u32. rewrite Z.mod_add by lia. symmetry. apply Z.mod_small. lia.
Qed.

(** The word an operation computes. *)
Definition rfc_op (X : list Z) (i : nat) (a b c d : Z) : Z :=
  u32 (b + rotate_left (u32 (a + rfc_fun i b c d + le_word X (rfc_index i) + nth i rfc_T 0)) (rfc_shift i)).

Lemma rfc_step_cons X i l a b c d :
  fold_left (rfc_step X) (i :: l) (a, b, c, d) = fold_left (rfc_step X) l (d, rfc_op X i a b c d, b, c).
Proof. reflexivity. Qed.

Lemma u32_cong x y : u32 x = u32 y -> forall a b, u32 (a + x + b) = u32 (a + y + b).
Proof.
  intros H a b. unfold u32 in *. rewrite <- (Z.add_mod_idemp_l (a + x)), <- (Z.add_mod_idemp_l (a + y)) by lia.
  rewrite <- (Z.add_mod_idemp_r a x), <- (Z.add_mod_idemp_r a y) by lia. now rewrite H.
Qed.

Lemma MD5STEP_rfc f X i k t s a b c d :
  u32 (f b c d) = u32 (rfc_fun i b c d) -> rfc_index i = Z.to_nat k -> nth i rfc_T 0 = t -> rfc_shift i = s ->
  0 <= s <= 32 -> MD5STEP f a b c d (le_word X (Z.to_nat k) + t) s = rfc_op X i a b c d.
Proof.
  intros Hf Hk Ht Hs Hr. unfold MD5STEP, rfc_op. rewrite Hk, Ht, Hs.
  rewrite rotate_eq by (done || apply u32_range). rewrite (Z.add_comm b). do 3 f_equal.
  replace (a + rfc_fun i b c d + le_word X (Z.to_nat k) + t) with (a + rfc_fun i b c d + (le_word X (Z.to_nat k) + t)) by lia.
  rewrite <- (u32_cong _ _ Hf). unfold u32. rewrite Z.add_mod_idemp_r by lia. f_equal. lia.
Qed.

(** One assignment of the code against one operation of the RFC. *)
Ltac md5_op :=
  rewrite rfc_step_cons;
  lazymatch goal with
  | |- context [rfc_op ?X ?i ?a ?b ?c ?d] =>
      let E := fresh in
      let v := fresh "v" in
      remember (rfc_op X i a b c d) as v eqn:E in |- *;
      lazymatch goal with
      | |- context [?stp ?f (le_word X (Z.to_nat ?k) + ?t) ?s (?p, ?q, ?r, ?u)] =>
          replace (stp f (le_word X (Z.to_nat k) + t) s (p, q, r, u))
            with ltac:(lazymatch stp with
                       | step_a => exact (v, q, r, u) | step_b => exact (p, v, r, u)
                       | step_c => exact (p, q, v, u) | step_d => exact (p, q, r, v) end)
      end;
      [clear E
      |rewrite E; unfold step_a, step_b, step_c, step_d; repeat f_equal; symmetry; apply MD5STEP_rfc;
       [first [apply f_equal, F1_rfc | apply f_equal, F2_rfc | apply f_equal, F3_rfc | apply F4_rfc]
       |reflexivity|reflexivity|reflexivity|lia]]
  end.

Lemma MD5Transform_rfc h X : MD5Transform h X = rfc_transform h X.
Proof.
  destruct h as [[[h0 h1] h2] h3]. unfold MD5Transform, rfc_transform, MD5Steps. cbv beta.
  let l := eval cbv in (seq 0 64) in change (seq 0 64) with l.
  do 64 md5_op. reflexivity.
Qed.

(** ** Blocks *)

Abbreviation md5_init := (0x67452301, 0xefcdab89, 0x98badcfe, 0x10325476).

Lemma rfc_blocks_add k1 k2 : forall h l,
  rfc_blocks (k1 + k2) h l = rfc_blocks k2 (rfc_blocks k1 h l) (drop (64 * k1) l).
Proof.
  induction k1 as [|k1 IH]; intros h l; [reflexivity|]. cbn [Nat.add rfc_blocks]. rewrite IH, drop_drop.
  do 2 f_equal. lia.
Qed.

Lemma rfc_blocks_prefix k : forall h l l',
  (64 * k <= length l)%nat -> rfc_blocks k h (l ++ l') = rfc_blocks k h l.
Proof.
  induction k as [|k IH]; intros h l l' Hk; [reflexivity|]. cbn [rfc_blocks].
  rewrite take_app_le, drop_app_le by lia. apply IH. rewrite length_drop. lia.
Qed.

Lemma rfc_blocks_one h l : rfc_blocks 1 h l = rfc_transform h (take 64 l).
Proof. reflexivity. Qed.

(** ** Copies into the buffer *)

Lemma length_memcpy l t s : (t + length s <= length l)%nat -> length (memcpy l t s) = length l.
Proof. intros H. unfold memcpy. rewrite !length_app, length_take, length_drop. lia. Qed.

(** What a copy leaves up to its end. *)
Lemma take_memcpy l t s n :
  n = (t + length s)%nat -> (n <= length l)%nat -> take n (memcpy l t s) = take t l ++ s.
Proof.
  intros -> H. unfold memcpy. rewrite (app_assoc (take t l)). apply take_app_length'.
  rewrite length_app, length_take. lia.
Qed.

(** ** The invariant: the context of a message *)

Definition count_of (n : Z) : Z * Z := ((8 * n) mod B32, (8 * n / B32) mod B32).
Definition hash_of (msg : list Z) : regs := rfc_blocks (length msg / 64) md5_init msg.
Definition pending (msg : list Z) : list Z := drop (64 * (length msg / 64)) msg.

Definition accumulates (ctx : MD5Context) (msg : list Z) : Prop :=
  buf ctx = hash_of msg /\ length (inb ctx) = 64%nat /\
  take (length msg mod 64) (inb ctx) = pending msg /\ bits ctx = count_of (Z.of_nat (length msg)).

Lemma length_pending msg : length (pending msg) = (length msg mod 64)%nat.
Proof. unfold pending. rewrite length_drop. pose proof (Nat.div_mod (length msg) 64). lia. Qed.

Lemma update_count_spec n len : 0 <= n -> 0 <= len -> update_count (count_of n) len = count_of (n + len).
Proof.
  intros Hn Hl. unfold update_count, count_of. cbn [fst snd].
  rewrite Z.shiftl_mul_pow2, Z.shiftr_div_pow2 by lia. change (2 ^ 3) with 8. change (2 ^ 29) with 536870912.
  unfold u32. f_equal.
  - rewrite Z.mul_mod_idemp_l, <- Zplus_mod by lia. f_equal. lia.
  - set (t := (8 * n) mod B32). rewrite Z.mul_mod_idemp_l by lia. rewrite Z.add_mod_idemp_r by lia.
    destruct (Z.ltb_spec ((t + len * 8) mod B32) t); subst t; zlia.
Qed.

Lemma bytes_pending n : 0 <= n -> Z.land (Z.shiftr (count_of n).1 3) 0x3f = n mod 64.
Proof.
  intros Hn. unfold count_of. cbn [fst]. change 0x3f with (Z.ones 6).
  rewrite Z.land_ones, Z.shiftr_div_pow2 by lia. change (2 ^ 3) with 8. change (2 ^ 6) with 64. zlia.
Qed.

Lemma div_mod_nat n : n = (64 * (n / 64) + n mod 64)%nat /\ (n mod 64 < 64)%nat.
Proof. split; [apply Nat.div_mod; lia|apply Nat.mod_upper_bound; lia]. Qed.

Lemma update_blocks_spec fuel : forall h ib b,
  length ib = 64%nat -> (length b / 64 <= fuel)%nat ->
  exists ib', update_blocks fuel h ib b = (rfc_blocks (length b / 64) h b, ib', pending b) /\ length ib' = 64%nat.
Proof.
  assert (Hsmall : forall h (ib b : list Z), length ib = 64%nat -> (length b < 64)%nat ->
            exists ib', (h, ib, b) = (rfc_blocks (length b / 64) h b, ib', pending b) /\ length ib' = 64%nat).
  { intros h ib b Hi Hb. exists ib. unfold pending. rewrite Nat.div_small by done. now rewrite drop_0. }
  induction fuel as [|fuel IH]; intros h ib b Hi Hf; cbn [update_blocks].
  - apply Hsmall; [done|]. pose proof (div_mod_nat (length b)). lia.
  - destruct (Nat.leb_spec 64 (length b)); [|apply Hsmall; done].
    assert (Ed : (length b / 64 = S (length (drop 64 b) / 64))%nat).
    { rewrite length_drop. replace (length b) with (1 * 64 + (length b - 64))%nat at 1 by lia.
      now rewrite Nat.div_add_l by lia. }
    assert (Hm : memcpy ib 0 (take 64 b) = take 64 b).
    { unfold memcpy. rewrite take_0, length_take, drop_ge, app_nil_r; [done|lia]. }
    rewrite Hm, MD5Transform_rfc.
    destruct (IH (rfc_transform h (take 64 b)) (take 64 b) (drop 64 b)) as (ib' & E & Hl).
    { rewrite length_take. lia. }
    { lia. }
    exists ib'. rewrite E, Ed. split; [|done]. cbn [rfc_blocks]. f_equal. unfold pending. rewrite drop_drop, Ed.
    f_equal. lia.
Qed.

(** ** [MD5Update] *)

(** The rest of an update, when whole blocks have been consumed. *)
Lemma update_rest_spec ctx msg b q :
  length msg = (64 * q)%nat -> buf ctx = rfc_blocks q md5_init msg -> length (inb ctx) = 64%nat ->
  let ctx' := update_rest ctx b in
  buf ctx' = hash_of (msg ++ b) /\ length (inb ctx') = 64%nat /\
  take (length (msg ++ b) mod 64) (inb ctx') = pending (msg ++ b) /\ bits ctx' = bits ctx.
Proof.
  intros Hq Hb Hi. unfold update_rest.
  destruct (update_blocks_spec (length b) (buf ctx) (inb ctx) b Hi) as (ib & -> & Hl).
  { apply Nat.Div0.div_le_upper_bound. lia. }
  cbv zeta. cbn [buf inb bits].
  assert (Ed : (length (msg ++ b) / 64 = q + length b / 64)%nat).
  { rewrite length_app, Hq, (Nat.mul_comm 64 q). apply Nat.div_add_l. lia. }
  assert (Em : (length (msg ++ b) mod 64 = length b mod 64)%nat).
  { rewrite length_app, Hq, Nat.add_comm, (Nat.mul_comm 64 q). apply Nat.Div0.mod_add. }
  assert (Ep : pending (msg ++ b) = pending b).
  { unfold pending. rewrite Ed, drop_app. rewrite (drop_ge msg) by lia. cbn [app]. f_equal. lia. }
  pose proof (length_pending b). pose proof (div_mod_nat (length b)). splits; try done.
  - unfold hash_of. rewrite Ed, rfc_blocks_add, rfc_blocks_prefix, Hb by lia.
    rewrite drop_app_length' by lia. done.
  - rewrite length_memcpy by lia. done.
  - rewrite Em, Ep. rewrite take_memcpy by lia. now rewrite take_0.
Qed.

Lemma MD5Update_spec ctx msg b : accumulates ctx msg -> accumulates (MD5Update ctx b) (msg ++ b).
Proof.
  intros (Hb & Hi & Hp & Hc). pose proof (div_mod_nat (length msg)) as [Hdm Hlt].
  set (n := length msg) in *. set (q := (n / 64)%nat) in *.
  assert (Hcount : update_count (bits ctx) (Z.of_nat (length b)) = count_of (Z.of_nat (length (msg ++ b)))).
  { rewrite Hc, update_count_spec by lia. rewrite length_app, Nat2Z.inj_add. done. }
  assert (Ht : Z.land (Z.shiftr (bits ctx).1 3) 0x3f = Z.of_nat (n mod 64)).
  { rewrite Hc, bytes_pending, Nat2Z.inj_mod by lia. done. }
  unfold MD5Update. rewrite Ht, Hcount. cbn [buf bits inb]. set (t := (n mod 64)%nat) in *.
  destruct (Z.eqb_spec (Z.of_nat t) 0) as [Et|Et]; cbn [negb].
  - destruct (update_rest_spec (MkCtx (buf ctx) (count_of (Z.of_nat (length (msg ++ b)))) (inb ctx)) msg b q)
      as (R1 & R2 & R3 & R4); cbn [buf inb]; try done; try lia.
  - rewrite Nat2Z.id. destruct (Nat.ltb_spec (length b) (64 - t)) as [Hs|Hs].
    + assert (Ed : (length (msg ++ b) / 64 = q)%nat).
      { rewrite length_app. symmetry. apply (Nat.div_unique _ 64 q (t + length b)); lia. }
      assert (Em : (length (msg ++ b) mod 64 = t + length b)%nat).
      { rewrite length_app. symmetry. apply (Nat.mod_unique _ 64 q); lia. }
      unfold accumulates. cbn [buf inb bits]. split_and!; try done.
      * unfold hash_of. rewrite Ed, rfc_blocks_prefix by lia. done.
      * rewrite length_memcpy by lia. done.
      * rewrite Em, take_memcpy by lia. rewrite Hp. unfold pending. rewrite Ed. fold n q.
        rewrite drop_app_le by lia. done.
    + set (b1 := take (64 - t) b). set (ib := memcpy (inb ctx) t b1).
      assert (Hb1 : length b1 = (64 - t)%nat) by (unfold b1; rewrite length_take; lia).
      assert (Hib : ib = pending msg ++ b1).
      { rewrite <- Hp. fold n t. rewrite <- (take_memcpy (inb ctx) t b1 64) by lia. symmetry.
        apply take_ge. unfold ib. rewrite length_memcpy; lia. }
      assert (Hm1 : length (msg ++ b1) = (64 * S q)%nat) by (rewrite length_app; fold n; lia).
      assert (Hh1 : MD5Transform (buf ctx) ib = rfc_blocks (S q) md5_init (msg ++ b1)).
      { rewrite MD5Transform_rfc, Hb. replace (S q) with (q + 1)%nat by lia.
        rewrite rfc_blocks_add, rfc_blocks_one, rfc_blocks_prefix by (fold n; lia).
        rewrite drop_app_le by (fold n; lia). unfold hash_of. fold n q. f_equal. rewrite Hib.
        unfold pending. fold n q. rewrite take_ge; [done|]. rewrite length_app, length_drop. fold n. lia. }
      destruct (update_rest_spec (MkCtx (MD5Transform (buf ctx) ib) (count_of (Z.of_nat (length (msg ++ b)))) ib)
                  (msg ++ b1) (drop (64 - t) b) (S q)) as (R1 & R2 & R3 & R4); try done.
      { cbn [inb]. unfold ib. rewrite length_memcpy; lia. }
      rewrite <- app_assoc in R1, R3. unfold b1 in R1, R3. rewrite take_drop in R1, R3. now split_and!.
Qed.

Lemma MD5Init_spec ctx : length (inb ctx) = 64%nat -> accumulates (MD5Init ctx) [].
Proof. intros H. now split_and!. Qed.

Lemma MD5Updates_spec chunks : forall ctx msg,
  accumulates ctx msg -> accumulates (fold_left MD5Update chunks ctx) (msg ++ concat chunks).
Proof.
  induction chunks as [|b chunks IH]; intros ctx msg H; cbn [fold_left concat]; [now rewrite app_nil_r|].
  rewrite app_assoc. apply IH. now apply MD5Update_spec.
Qed.

(** ** [MD5Final] *)

Lemma length_le_bytes w : length (le_bytes w) = 4%nat.
Proof. reflexivity. Qed.

(** The last two copies: the length of the message. *)
Lemma append_length ib lo hi :
  length ib = 64%nat -> memcpy (memcpy ib 56 (le_bytes lo)) 60 (le_bytes hi) = take 56 ib ++ le_bytes lo ++ le_bytes hi.
Proof.
  intros Hi.
  assert (L1 : length (memcpy ib 56 (le_bytes lo)) = 64%nat) by (rewrite length_memcpy; rewrite ?length_le_bytes; lia).
  rewrite <- (take_ge (memcpy (memcpy ib 56 _) 60 _) 64).
  - rewrite take_memcpy by (rewrite ?length_le_bytes; lia). rewrite take_memcpy by (rewrite ?length_le_bytes; lia).
    now rewrite <- app_assoc.
  - rewrite length_memcpy; rewrite ?length_le_bytes; lia.
Qed.

(** The first byte of the padding and the zeros after it. *)
Lemma pad_zeros ib c k : length ib = 64%nat -> (S c + k <= 64)%nat ->
  length (memcpy (memcpy ib c [0x80]) (S c) (replicate k 0)) = 64%nat /\
  take (S c + k) (memcpy (memcpy ib c [0x80]) (S c) (replicate k 0)) = take c ib ++ 0x80 :: replicate k 0.
Proof.
  intros Hi Hk.
  assert (L1 : length (memcpy ib c [0x80]) = 64%nat) by (rewrite length_memcpy; cbn [length]; lia).
  split; [rewrite length_memcpy; rewrite ?length_replicate; lia|].
  rewrite take_memcpy by (rewrite ?length_replicate; lia).
  rewrite (take_memcpy ib c [0x80] (S c)) by (cbn [length]; lia). now rewrite <- app_assoc.
Qed.

(** The padding, by the room left in the last block. *)
Lemma rfc_pad_eq msg (c := (length msg mod 64)%nat) :
  let L := le_bytes (count_of (Z.of_nat (length msg))).1 ++ le_bytes (count_of (Z.of_nat (length msg))).2 in
  rfc_pad msg = msg ++ 0x80 :: replicate (if (63 - c <? 8)%nat then 63 - c + 56 else 55 - c) 0 ++ L.
Proof.
  cbv zeta. unfold rfc_pad. do 4 f_equal. pose proof (div_mod_nat (length msg)) as [Hdm Hlt]. fold c in Hdm, Hlt.
  assert (E : (55 - Z.of_nat (length msg)) mod 64 = if (63 - c <? 8)%nat then 119 - Z.of_nat c else 55 - Z.of_nat c).
  { rewrite Hdm. replace (55 - Z.of_nat (64 * (length msg / 64) + c))
      with (55 - Z.of_nat c + (- Z.of_nat (length msg / 64)) * 64) by lia.
    rewrite Z.mod_add by lia. destruct (Nat.ltb_spec (63 - c) 8); zlia. }
  rewrite E. destruct (Nat.ltb_spec (63 - c) 8); lia.
Qed.

Lemma MD5Final_spec ctx msg : accumulates ctx msg -> (MD5Final ctx).1 = rfc_md5 msg.
Proof.
  intros (Hb & Hi & Hp & Hc). pose proof (div_mod_nat (length msg)) as [Hdm Hlt].
  unfold rfc_md5. rewrite rfc_pad_eq.
  assert (Ht : Z.to_nat (Z.land (Z.shiftr (bits ctx).1 3) 0x3F) = (length msg mod 64)%nat).
  { rewrite Hc, bytes_pending by lia. rewrite <- (Nat2Z.id (length msg mod 64)), Nat2Z.inj_mod. done. }
  unfold MD5Final. rewrite Ht, <- Hc. clear Ht. set (c := (length msg mod 64)%nat) in *. set (q := (length msg / 64)%nat) in *.
  set (L := le_bytes (bits ctx).1 ++ le_bytes (bits ctx).2).
  assert (HL : length L = 8%nat) by reflexivity.
  assert (Hq : forall k tail, rfc_blocks (q + k) md5_init (msg ++ tail) = rfc_blocks k (buf ctx) (pending msg ++ tail)).
  { intros k tail. rewrite rfc_blocks_add, rfc_blocks_prefix, Hb by lia. now rewrite drop_app_le by lia. }
  destruct (Nat.ltb_spec (64 - 1 - c) 8) as [Hs|Hs], (Nat.ltb_spec (63 - c) 8) as [Hs'|Hs']; try lia.
  - destruct (pad_zeros (inb ctx) c (64 - 1 - c) Hi ltac:(lia)) as [L2 E2].
    set (ib2 := memcpy (memcpy (inb ctx) c [128]) (S c) (replicate (64 - 1 - c) 0)) in *.
    rewrite append_length by (rewrite length_memcpy; rewrite ?length_replicate; lia).
    rewrite (take_memcpy ib2 0 (replicate 56 0) 56) by (rewrite ?length_replicate; lia).
    rewrite take_ge in E2 by lia. rewrite take_0, E2, Hp. fold L. rewrite app_nil_l.
    replace (length (msg ++ 128%Z :: replicate (63 - c + 56) 0%Z ++ L) / 64)%nat with (q + 2)%nat.
    2: { rewrite length_app, length_cons, length_app, length_replicate, HL. apply (Nat.div_unique _ 64 _ 0); lia. }
    rewrite Hq. cbn [rfc_blocks]. rewrite !MD5Transform_rfc.
    rewrite replicate_add, <- app_assoc, app_comm_cons, (app_assoc (pending msg)).
    assert (LP : length (pending msg ++ 128 :: replicate (63 - c) 0) = 64%nat).
    { rewrite length_app, length_pending, length_cons, length_replicate. fold c. lia. }
    rewrite take_app_length', drop_app_length' by done. rewrite (take_ge (replicate 56 0 ++ L)) by reflexivity.
    replace (64 - 1 - c)%nat with (63 - c)%nat by lia.
    destruct (rfc_transform _ (replicate 56 0 ++ L)) as [[[x y] z] w]. reflexivity.
  - destruct (pad_zeros (inb ctx) c (64 - 1 - c - 8) Hi ltac:(lia)) as [L2 E2].
    rewrite append_length by done. replace (S c + (64 - 1 - c - 8))%nat with 56%nat in E2 by lia.
    rewrite E2, Hp. fold L.
    replace (length (msg ++ 128%Z :: replicate (55 - c) 0%Z ++ L) / 64)%nat with (q + 1)%nat.
    2: { rewrite length_app, length_cons, length_app, length_replicate, HL. apply (Nat.div_unique _ 64 _ 0); lia. }
    rewrite Hq, rfc_blocks_one, MD5Transform_rfc, take_ge.
    2: { rewrite length_app, length_pending, length_cons, length_app, length_replicate, HL. fold c. lia. }
    rewrite <- app_assoc, <- app_comm_cons. replace (64 - 1 - c - 8)%nat with (55 - c)%nat by lia.
    destruct (rfc_transform _ _) as [[[x y] z] w]. reflexivity.
Qed.

(** ** The claims *)

(** C31: However the message is cut into pieces (empty pieces, pieces that end inside a
    block or span several), accumulating them with [MD5Update] and finishing with
    [MD5Final] gives the MD5 digest of their concatenation as RFC 1321 defines it:
    the unrolled transformation, the buffering, the 64-bit count kept in two words
    and the padding in one or two blocks are all those of the standard. *)
Theorem md5_correct ctx chunks :
  length (inb ctx) = 64%nat ->
  (MD5Final (fold_left MD5Update chunks (MD5Init ctx))).1 = rfc_md5 (concat chunks).
Proof.
  intros H. apply MD5Final_spec. apply (MD5Updates_spec chunks _ []). now apply MD5Init_spec.
Qed.

Definition blank_ctx : MD5Context := MkCtx (0, 0, 0, 0) (0, 0) (replicate 64 0).

Lemma md5_correct_witness :
  (MD5Final (fold_left MD5Update [[97]; []; replicate 150 98] (MD5Init blank_ctx))).1 =
  rfc_md5 (97 :: replicate 150 98).
Proof. apply (md5_correct blank_ctx [[97]; []; replicate 150 98]). reflexivity. Defined.

(** The test vectors of the RFC for the empty message and for [abc]. *)
Lemma rfc_vectors :
  rfc_md5 [] = [212; 29; 140; 217; 143; 0; 178; 4; 233; 128; 9; 152; 236; 248; 66; 126] /\
  rfc_md5 [97; 98; 99] = [144; 1; 80; 152; 60; 210; 79; 176; 214; 150; 63; 125; 40; 225; 127; 114].
Proof. split; vm_compute; reflexivity. Qed.

(** The message is still in the context after [MD5Final]: [memset] clears as many
    bytes as a pointer has, not the context. *)
Lemma MD5Final_leaves_message :
  take 3 (inb (MD5Final (MD5Update (MD5Init blank_ctx) [97; 98; 99])).2) = [97; 98; 99].
Proof. vm_compute. reflexivity. Qed.
