(* ===== verification/Lexing.v ===== *)
(** * The lexer engine

    Models [byterun/lexing.c]: the automaton that runs the tables [ocamllex]
    produces over the buffer of a [Lexing.lexbuf].  The engine stops to ask for more
    input, and is entered again with the state it stopped in. *)

From S2P Require Import Prelude Mlvalues.

(** ** Tables and buffers *)

(** The tables are strings of 16-bit integers. *)
Record lexing_table := MkTable {
  lex_base : list Z;
  lex_backtrk : list Z;
  lex_default : list Z;
  lex_trans : list Z;
  lex_check : list Z
}.

(** The fields the engine uses; all but the text are OCaml integers or booleans. *)
Record lexer_buffer := MkLexbuf {
  lex_buffer : list Z;
  lex_buffer_len : Z;
  lex_abs_pos : Z;
  lex_start_pos : Z;
  lex_curr_pos : Z;
  lex_last_pos : Z;
  lex_last_action : Z;
  lex_eof_reached : Z
}.

(** [((short * )tbl)[n]] on a little-endian machine; the tables are read at
    non-negative indices. *)
Definition Short (tbl : list Z) (n : Z) : Z :=
  let b k := nth (Z.to_nat (2 * n + k)) tbl 0 in
  let u := b 0 + 256 * b 1 in if u <? 32768 then u else u - 65536.

Definition set_curr_pos (p : Z) (b : lexer_buffer) : lexer_buffer :=
  MkLexbuf (lex_buffer b) (lex_buffer_len b) (lex_abs_pos b) (lex_start_pos b) p (lex_last_pos b) (lex_last_action b)
    (lex_eof_reached b).
Definition set_last (p a : Z) (b : lexer_buffer) : lexer_buffer :=
  MkLexbuf (lex_buffer b) (lex_buffer_len b) (lex_abs_pos b) (lex_start_pos b) (lex_curr_pos b) p a (lex_eof_reached b).
Definition set_start_pos (p : Z) (b : lexer_buffer) : lexer_buffer :=
  MkLexbuf (lex_buffer b) (lex_buffer_len b) (lex_abs_pos b) p (lex_curr_pos b) (lex_last_pos b) (lex_last_action b)
    (lex_eof_reached b).
Definition set_eof_reached (e : Z) (b : lexer_buffer) : lexer_buffer :=
  MkLexbuf (lex_buffer b) (lex_buffer_len b) (lex_abs_pos b) (lex_start_pos b) (lex_curr_pos b) (lex_last_pos b)
    (lex_last_action b) e.

(** ** The engine *)

(** The value returned, or [failwith ("lexing: empty token")]. *)
Inductive lex_result :=
  | Return (v : Z) (b : lexer_buffer)
  | EmptyToken (b : lexer_buffer).

(** The next state on the character [c]. *)
Definition transition (tbl : lexing_table) (state base c : Z) : Z :=
  if Short (lex_check tbl) (base + c) =? state then Short (lex_trans tbl) (base + c)
  else Short (lex_default tbl) state.

(** [while(1)], at most [fuel] times. *)
Fixpoint lex_loop (fuel : nat) (tbl : lexing_table) (state : Z) (b : lexer_buffer) : option lex_result :=
  match fuel with
  | O => None
  | S fuel =>
      let base := Short (lex_base tbl) state in
      if base <? 0 then Some (Return (Val_int (- base - 1)) b)
      else
        let backtrk := Short (lex_backtrk tbl) state in
        let b := if 0 <=? backtrk then set_last (lex_curr_pos b) (Val_int backtrk) b else b in
        let at_end := s64 (lex_buffer_len b) <=? s64 (lex_curr_pos b) in
        if at_end && (lex_eof_reached b =? Val_bool 0) then Some (Return (Val_int (- state - 1)) b)
        else
          let c := if at_end then 256 else nth (Z.to_nat (Long_val (lex_curr_pos b))) (lex_buffer b) 0 in
          let b := if at_end then b else set_curr_pos (u64 (lex_curr_pos b + 2)) b in
          let state := transition tbl state base c in
          if state <? 0 then
            let b := set_curr_pos (lex_last_pos b) b in
            if lex_last_action b =? Val_int (-1) then Some (EmptyToken b) else Some (Return (lex_last_action b) b)
          else
            let b := if c =? 256 then set_eof_reached (Val_bool 0) b else b in
            lex_loop fuel tbl state b
  end.

Definition lex_engine (fuel : nat) (tbl : lexing_table) (start_state : Z) (b : lexer_buffer) : option lex_result :=
  let state := Int_val start_state in
  if 0 <=? state then
    let b := set_start_pos (lex_curr_pos b) b in
    lex_loop fuel tbl state (set_last (lex_curr_pos b) (Val_int (-1)) b)
  else lex_loop fuel tbl (- state - 1) b.

(** ** The automaton *)

Section Automaton.
Context (tbl : lexing_table).

(** A state without transitions gives its action at once; another may be a point to
    come back to. *)
Definition final (s : Z) : bool := Short (lex_base tbl) s <? 0.
Definition accepts (s : Z) : option Z :=
  if final s then Some (- Short (lex_base tbl) s - 1)
  else if 0 <=? Short (lex_backtrk tbl) s then Some (Short (lex_backtrk tbl) s) else None.

(** The state after reading [w] from [s], unless there is none. *)
Fixpoint reach (s : Z) (w : list Z) : option Z :=
  match w with
  | [] => Some s
  | c :: w =>
      if final s then None
      else let s' := transition tbl s (Short (lex_base tbl) s) c in if s' <? 0 then None else reach s' w
  end.

(** The action after the first [k] characters of [w]. *)
Definition action (s : Z) (w : list Z) (k : nat) : option Z := r ← reach s (take k w); accepts r.

(** [k] is the longest prefix of [w] with an action, and [a] its action. *)
Definition longest (s : Z) (w : list Z) (k : nat) (a : Z) : Prop :=
  (k <= length w)%nat /\ action s w k = Some a /\
  forall k', (k < k' <= length w)%nat -> action s w k' = None.
End Automaton.

(** ** The engine as a scan of a list of symbols

    The symbols are the characters left in the buffer, then 256 when the end of the
    input is known to have been reached; that last one does not move the position, and
    clears the mark [e] that the end was reached. *)

Inductive scan_result :=
  | Final (a p lp la : Z) (e : bool)       (* the action of a final state *)
  | Back (lp la : Z) (e : bool)            (* back to the last action *)
  | Stop (s p lp la : Z) (e : bool).       (* no symbol left, in state [s] *)

Section Scan.
Context (tbl : lexing_table).

Definition adv (p c : Z) : Z := if c =? 256 then p else p + 1.

Fixpoint scan (s : Z) (w : list Z) (p lp la : Z) (e : bool) : scan_result :=
  if final tbl s then Final (- Short (lex_base tbl) s - 1) p lp la e
  else
    let k := Short (lex_backtrk tbl) s in
    let '(lp, la) := if 0 <=? k then (p, k) else (lp, la) in
    match w with
    | [] => Stop s p lp la e
    | c :: w =>
        let s' := transition tbl s (Short (lex_base tbl) s) c in
        if s' <? 0 then Back lp la e else scan s' w (adv p c) lp la (if c =? 256 then false else e)
    end.

(** A scan in two pieces. *)
Lemma scan_app w1 w2 : forall s p lp la e,
  scan s (w1 ++ w2) p lp la e =
  match scan s w1 p lp la e with Stop s p lp la e => scan s w2 p lp la e | r => r end.
Proof.
  induction w1 as [|c w1 IH]; intros s p lp la e; cbn [app scan].
  - destruct (final tbl s) eqn:Ef; [destruct w2; cbn [scan]; now rewrite Ef|].
    destruct (0 <=? Short (lex_backtrk tbl) s) eqn:Eb; destruct w2; cbn [scan]; now rewrite Ef, ?Eb.
  - destruct (final tbl s); [done|]. destruct (0 <=? Short (lex_backtrk tbl) s);
      (destruct (transition tbl s (Short (lex_base tbl) s) c <? 0); [done|apply IH]).
Qed.

(** *** The longest match *)

Definition pos_after (p : Z) (w : list Z) : Z := fold_left adv w p.

(** Among the first [n] prefixes of [w], the last one with an action. *)
Definition best (s p0 : Z) (w : list Z) (n : nat) (lp la : Z) : Prop :=
  (la = -1 /\ forall k, (k < n)%nat -> action tbl s w k = None) \/
  exists k, (k < n)%nat /\ action tbl s w k = Some la /\ 0 <= la /\ lp = pos_after p0 (take k w) /\
    forall k', (k < k' < n)%nat -> action tbl s w k' = None.

Lemma reach_app s w1 w2 : reach tbl s (w1 ++ w2) = (r ← reach tbl s w1; reach tbl r w2).
Proof.
  revert s. induction w1 as [|c w1 IH]; intros s; [done|]. cbn [app reach].
  destruct (final tbl s); [done|]. destruct (_ <? 0); [done|apply IH].
Qed.

Lemma take_app_exact (w1 w2 : list Z) : take (length w1) (w1 ++ w2) = w1.
Proof. apply take_app_length. Qed.

(** Prefixes beyond a dead end have no action. *)
Lemma action_dead s w1 w2 k :
  (length w1 < k)%nat -> reach tbl s w1 = None -> action tbl s (w1 ++ w2) k = None.
Proof.
  intros Hk Hr. unfold action. rewrite take_app, take_ge by lia. rewrite reach_app, Hr. done.
Qed.

Lemma action_here s w1 w2 r : reach tbl s w1 = Some r -> action tbl s (w1 ++ w2) (length w1) = accepts tbl r.
Proof. intros Hr. unfold action. rewrite take_app_exact, Hr. done. Qed.

Lemma accepts_backtrk r : final tbl r = false ->
  accepts tbl r = if 0 <=? Short (lex_backtrk tbl) r then Some (Short (lex_backtrk tbl) r) else None.
Proof. unfold accepts. now intros ->. Qed.

(** Recording the action of the current state. *)
Lemma best_step s0 p0 w1 w2 r lp la :
  reach tbl s0 w1 = Some r -> final tbl r = false ->
  best s0 p0 (w1 ++ w2) (length w1) lp la ->
  let k := Short (lex_backtrk tbl) r in
  best s0 p0 (w1 ++ w2) (S (length w1)) (if 0 <=? k then pos_after p0 w1 else lp) (if 0 <=? k then k else la).
Proof.
  intros Hr Hf Hb k. pose proof (action_here s0 w1 w2 r Hr) as Ha. rewrite accepts_backtrk in Ha by done. fold k in Ha.
  destruct (Z.leb_spec 0 k) as [Hk|Hk].
  - right. exists (length w1). split; [lia|]. split; [done|]. split; [done|]. split; [now rewrite take_app_exact|]. lia.
  - destruct Hb as [[-> Hn]|(j & Hj & Hact & Hla & -> & Hn)].
    + left. split; [done|]. intros i Hi. destruct (decide (i = length w1)) as [->|]; [done|]. apply Hn. lia.
    + right. exists j. split; [lia|]. split; [done|]. split; [done|]. split; [done|]. intros i Hi.
      destruct (decide (i = length w1)) as [->|]; [done|]. apply Hn. lia.
Qed.

(** What a scan finds. *)
Definition scan_ok (s0 p0 : Z) (w : list Z) (res : scan_result) : Prop :=
  match res with
  | Final a p lp la _ => exists k, longest tbl s0 w k a /\ p = pos_after p0 (take k w)
  | Back lp la _ => best s0 p0 w (S (length w)) lp la
  | Stop s p lp la _ => reach tbl s0 w = Some s /\ p = pos_after p0 w /\ final tbl s = false /\
      best s0 p0 w (S (length w)) lp la
  end.

Lemma scan_spec s0 p0 w2 : forall w1 r lp la e,
  reach tbl s0 w1 = Some r -> best s0 p0 (w1 ++ w2) (length w1) lp la ->
  scan_ok s0 p0 (w1 ++ w2) (scan r w2 (pos_after p0 w1) lp la e).
Proof.
  induction w2 as [|c w2 IH]; intros w1 r lp la e Hr Hb; cbn [scan]; destruct (final tbl r) eqn:Ef.
  - cbn [scan_ok]. exists (length w1). rewrite take_app_exact. split; [|done]. split; [rewrite length_app; lia|].
    rewrite (action_here s0 w1 [] r Hr). unfold accepts. rewrite Ef. split; [done|].
    intros k' Hk'. rewrite length_app in Hk'. cbn in Hk'. lia.
  - pose proof (best_step s0 p0 w1 [] r lp la Hr Ef Hb) as Hs. cbv zeta in Hs. rewrite app_nil_r in *.
    destruct (0 <=? Short (lex_backtrk tbl) r); cbn [scan_ok]; split_and!; done.
  - cbn [scan_ok]. exists (length w1). rewrite take_app_exact. split; [|done]. split; [rewrite length_app; lia|].
    rewrite (action_here s0 w1 (c :: w2) r Hr). unfold accepts at 1. rewrite Ef. split; [done|].
    intros k' Hk'. replace (w1 ++ c :: w2) with ((w1 ++ [c]) ++ w2) by now rewrite <- app_assoc.
    destruct (decide (k' = S (length w1))) as [->|Hne].
    + unfold action. rewrite take_app_length' by (rewrite length_app; cbn; lia). rewrite reach_app, Hr.
      cbn [mbind option_bind reach]. now rewrite Ef.
    + apply action_dead; [rewrite length_app; cbn; lia|]. rewrite reach_app, Hr. cbn [mbind option_bind reach]. now rewrite Ef.
  - pose proof (best_step s0 p0 w1 (c :: w2) r lp la Hr Ef Hb) as Hs. cbv zeta in Hs.
    replace (w1 ++ c :: w2) with ((w1 ++ [c]) ++ w2) in * by now rewrite <- app_assoc.
    set (lp' := if 0 <=? Short (lex_backtrk tbl) r then pos_after p0 w1 else lp) in *.
    set (la' := if 0 <=? Short (lex_backtrk tbl) r then Short (lex_backtrk tbl) r else la) in *.
    assert (E : (if 0 <=? Short (lex_backtrk tbl) r then (pos_after p0 w1, Short (lex_backtrk tbl) r) else (lp, la)) = (lp', la')).
    { unfold lp', la'. now destruct (0 <=? _). }
    rewrite E. assert (Hl : length (w1 ++ [c]) = S (length w1)) by (rewrite length_app; cbn; lia).
    assert (Hrc : reach tbl s0 (w1 ++ [c]) =
      let s' := transition tbl r (Short (lex_base tbl) r) c in if s' <? 0 then None else Some s').
    { rewrite reach_app, Hr. cbn [mbind option_bind reach]. now rewrite Ef. }
    cbv zeta in Hrc. destruct (transition tbl r (Short (lex_base tbl) r) c <? 0) eqn:Et.
    + cbn [scan_ok]. set (s' := transition tbl r (Short (lex_base tbl) r) c) in *.
      assert (Hdead : forall k, (S (length w1) <= k <= length ((w1 ++ [c]) ++ w2))%nat -> action tbl s0 ((w1 ++ [c]) ++ w2) k = None).
      { intros k Hk. destruct (decide (k = S (length w1))) as [->|Hne].
        - unfold action. rewrite take_app_length' by lia. now rewrite Hrc.
        - apply action_dead; [lia|done]. }
      destruct Hs as [[-> Hn]|(j & Hj & Hact & Hla & -> & Hn)].
      * left. split; [done|]. intros k Hk. destruct (decide (k < S (length w1))%nat); [now apply Hn|apply Hdead; lia].
      * right. exists j. rewrite !length_app in *. cbn [length] in *. split; [lia|]. split; [done|]. split; [done|]. split; [done|].
        intros k Hk. destruct (decide (k < S (length w1))%nat); [apply Hn; lia|apply Hdead; lia].
    + rewrite <- Hl in Hs. replace (adv (pos_after p0 w1) c) with (pos_after p0 (w1 ++ [c])) by (unfold pos_after; now rewrite fold_left_app).
      apply IH; done.
Qed.

(** *** The loop is the scan *)

(** The buffer with its positions and its mark. *)
Definition at_state (b : lexer_buffer) (p lp la : Z) (e : bool) : lexer_buffer :=
  MkLexbuf (lex_buffer b) (lex_buffer_len b) (lex_abs_pos b) (lex_start_pos b) (Val_long p) (Val_long lp) (Val_long la)
    (Val_bool (if e then 1 else 0)).

Definition lex_outcome (b : lexer_buffer) (res : scan_result) : lex_result :=
  match res with
  | Final a p lp la e => Return (Val_int a) (at_state b p lp la e)
  | Back lp la e => if la =? -1 then EmptyToken (at_state b lp lp la e) else Return (Val_int la) (at_state b lp lp la e)
  | Stop s p lp la e => Return (Val_int (- s - 1)) (at_state b p lp la e)
  end.

(** The [n] characters of the buffer are in it. *)
Definition text_ok (b : lexer_buffer) (n : Z) : Prop :=
  lex_buffer_len b = Val_long n /\ 0 <= n <= Z.of_nat (length (lex_buffer b)) /\ n <= Max_long /\
  Forall (fun c => 0 <= c < 256) (lex_buffer b).

Definition symbols (b : lexer_buffer) (n p : Z) (e : bool) : list Z :=
  drop (Z.to_nat p) (take (Z.to_nat n) (lex_buffer b)) ++ if e then [256] else [].

Lemma Max_long_eq : Max_long = 4611686018427387903.
Proof. reflexivity. Qed.

Lemma s64_Val_small x : - Max_long - 1 <= x <= Max_long -> s64 (Val_long x) = 2 * x + 1.
Proof. rewrite Max_long_eq, Val_long_eq. intros. wint. Qed.
Lemma Long_val_small x : - Max_long - 1 <= x <= Max_long -> Long_val (Val_long x) = x.
Proof. intros H. rewrite Long_val_eq, s64_Val_small by done. zlia. Qed.
Lemma Val_long_neq x y : - Max_long - 1 <= x <= Max_long -> - Max_long - 1 <= y <= Max_long -> x <> y -> Val_long x <> Val_long y.
Proof. intros Hx Hy Hne E. apply Hne. rewrite <- (Long_val_small x), E, Long_val_small; done. Qed.

Lemma Short_range t n : Forall (fun c => 0 <= c < 256) t -> - 32768 <= Short t n < 32768.
Proof.
  intros H. assert (Hb : forall k, 0 <= nth k t 0 < 256).
  { intros k. destruct (nth_in_or_default k t 0) as [Hin| ->]; [|lia].
    rewrite Forall_forall in H. apply H. now apply list_elem_of_In. }
  unfold Short. pose proof (Hb (Z.to_nat (2 * n + 0))). pose proof (Hb (Z.to_nat (2 * n + 1))).
  destruct (Z.ltb_spec (nth (Z.to_nat (2 * n + 0)) t 0 + 256 * nth (Z.to_nat (2 * n + 1)) t 0) 32768); lia.
Qed.

Definition table_ok : Prop :=
  Forall (fun c => 0 <= c < 256) (lex_base tbl) /\ Forall (fun c => 0 <= c < 256) (lex_backtrk tbl) /\
  Forall (fun c => 0 <= c < 256) (lex_default tbl) /\ Forall (fun c => 0 <= c < 256) (lex_trans tbl).

Lemma transition_range s base c : table_ok -> - 32768 <= transition tbl s base c < 32768.
Proof. intros (_ & _ & H3 & H4). unfold transition. destruct (_ =? _); now apply Short_range. Qed.

(** At the end of the buffer. *)
Lemma at_end_spec b n p : text_ok b n -> 0 <= p <= n ->
  (s64 (lex_buffer_len b) <=? s64 (Val_long p)) = (p =? n).
Proof.
  intros (-> & Hn & Hmax & _) Hp. rewrite !s64_Val_small by lia.
  destruct (Z.leb_spec (2 * n + 1) (2 * p + 1)), (Z.eqb_spec p n); lia.
Qed.

Lemma symbols_end b n e : symbols b n n e = if e then [256] else [].
Proof. unfold symbols. rewrite drop_ge; [done|]. rewrite length_take. lia. Qed.

Lemma symbols_char b n p e : text_ok b n -> 0 <= p < n ->
  symbols b n p e = nth (Z.to_nat p) (lex_buffer b) 0 :: symbols b n (p + 1) e /\
  0 <= nth (Z.to_nat p) (lex_buffer b) 0 < 256.
Proof.
  intros (_ & Hn & _ & Hc) Hp. unfold symbols.
  assert (Hx : take (Z.to_nat n) (lex_buffer b) !! Z.to_nat p = Some (nth (Z.to_nat p) (lex_buffer b) 0)).
  { rewrite lookup_take_lt by lia. destruct (lookup_lt_is_Some_2 (lex_buffer b) (Z.to_nat p)) as [x Hx]; [lia|].
    rewrite Hx. f_equal. symmetry. now apply nth_lookup_Some. }
  rewrite (drop_S _ _ _ Hx). replace (Z.to_nat (p + 1)) with (S (Z.to_nat p)) by lia. split; [done|].
  rewrite lookup_take_lt in Hx by lia. rewrite Forall_lookup in Hc. now apply (Hc (Z.to_nat p)).
Qed.

Lemma lex_loop_scan b n : forall fuel s p lp la e,
  table_ok -> text_ok b n -> 0 <= p <= n -> -1 <= la < 32768 -> (length (symbols b n p e) < fuel)%nat ->
  lex_loop fuel tbl s (at_state b p lp la e) = Some (lex_outcome b (scan s (symbols b n p e) p lp la e)).
Proof.
  induction fuel as [|fuel IH]; intros s p lp la e Ht Hx Hp Hla Hf; [lia|].
  pose proof Hx as (_ & _ & Hmax & _).
  assert (Hk : - 32768 <= Short (lex_backtrk tbl) s < 32768) by (apply Short_range, Ht).
  cbn [lex_loop]. cbv zeta. destruct (Short (lex_base tbl) s <? 0) eqn:Ef.
  { assert (scan s (symbols b n p e) p lp la e = Final (- Short (lex_base tbl) s - 1) p lp la e) as ->; [|done].
    destruct (symbols b n p e); cbn [scan]; unfold final; now rewrite Ef. }
  set (lp' := if 0 <=? Short (lex_backtrk tbl) s then p else lp).
  set (la' := if 0 <=? Short (lex_backtrk tbl) s then Short (lex_backtrk tbl) s else la).
  assert (Hla' : -1 <= la' < 32768) by (unfold la'; destruct (Z.leb_spec 0 (Short (lex_backtrk tbl) s)); lia).
  assert (Hscan : forall w, scan s w p lp la e = match w with
      | [] => Stop s p lp' la' e
      | c :: w => let s' := transition tbl s (Short (lex_base tbl) s) c in
          if s' <? 0 then Back lp' la' e else scan s' w (adv p c) lp' la' (if c =? 256 then false else e) end).
  { intros w. destruct w; cbn [scan]; unfold final; rewrite Ef; unfold lp', la'; now destruct (0 <=? _). }
  assert (Eb : (if 0 <=? Short (lex_backtrk tbl) s then set_last (lex_curr_pos (at_state b p lp la e)) (Val_int (Short (lex_backtrk tbl) s)) (at_state b p lp la e)
                else at_state b p lp la e) = at_state b p lp' la' e).
  { unfold lp', la'. now destruct (0 <=? _). }
  rewrite Eb, Hscan. clear Hscan Eb. cbn [at_state lex_buffer_len lex_curr_pos lex_eof_reached lex_buffer].
  rewrite (at_end_spec b n) by done.
  assert (Hback : forall e, (if lex_last_action (set_curr_pos (lex_last_pos (at_state b p lp' la' e)) (at_state b p lp' la' e)) =? Val_int (-1)
      then Some (EmptyToken (set_curr_pos (lex_last_pos (at_state b p lp' la' e)) (at_state b p lp' la' e)))
      else Some (Return (lex_last_action (set_curr_pos (lex_last_pos (at_state b p lp' la' e)) (at_state b p lp' la' e)))
                        (set_curr_pos (lex_last_pos (at_state b p lp' la' e)) (at_state b p lp' la' e)))) =
      Some (lex_outcome b (Back lp' la' e))).
  { intros e0. cbn [lex_last_action lex_last_pos set_curr_pos at_state lex_outcome]. unfold Val_int.
    destruct (Z.eqb_spec la' (-1)) as [->|Hne]; [now rewrite Z.eqb_refl|].
    destruct (Z.eqb_spec (Val_long la') (Val_long (-1))) as [E|]; [|done].
    apply Val_long_neq in E; try done; rewrite Max_long_eq; lia. }
  destruct (Z.eqb_spec p n) as [->|Hpn].
  - rewrite symbols_end in *. cbn [andb]. destruct e; cbn [Z.eqb].
    + replace (Val_bool 1 =? Val_bool 0) with false by reflexivity. cbv zeta.
      destruct (transition tbl s (Short (lex_base tbl) s) 256 <? 0) eqn:Et; [apply Hback|].
      change (256 =? 256) with true. change (adv n 256) with n. cbv iota.
      rewrite <- (symbols_end b n false). apply (IH _ n lp' la' false); try done; try lia. rewrite symbols_end. cbn [length] in *. lia.
    + replace (Val_bool 0 =? Val_bool 0) with true by reflexivity. done.
  - cbn [andb]. destruct (symbols_char b n p e Hx ltac:(lia)) as [Es Hc]. rewrite Es in *. cbn [length] in Hf. cbv zeta.
    rewrite Long_val_small by lia. set (c := nth (Z.to_nat p) (lex_buffer b) 0) in *.
    destruct (transition tbl s (Short (lex_base tbl) s) c <? 0) eqn:Et; [apply (Hback e)|].
    destruct (Z.eqb_spec c 256); [lia|]. unfold adv. destruct (Z.eqb_spec c 256); [lia|].
    replace (u64 (Val_long p + 2)) with (Val_long (p + 1)).
    + apply (IH _ (p + 1) lp' la' e); try done; lia.
    + rewrite !Val_long_eq. unfold u64. rewrite Z.add_mod_idemp_l by lia. f_equal. lia.
Qed.

(** ** First entry and re-entry *)

Lemma Int_val_small x : - B31 <= x < B31 -> Int_val (Val_int x) = x.
Proof. intros H. unfold Int_val, Val_int. rewrite Long_val_small by (rewrite Max_long_eq; lia). apply s32_id. unfold iss32. lia. Qed.

(** The buffer on first entry at [p]. *)
Definition started (b : lexer_buffer) (p : Z) : lexer_buffer := set_start_pos (Val_long p) b.

Lemma lex_engine_first fuel s b n p (e : bool) :
  table_ok -> text_ok b n -> 0 <= p <= n -> 0 <= s < B31 -> lex_curr_pos b = Val_long p ->
  lex_eof_reached b = Val_bool (if e then 1 else 0) -> (length (symbols b n p e) < fuel)%nat ->
  lex_engine fuel tbl (Val_int s) b = Some (lex_outcome (started b p) (scan s (symbols b n p e) p p (-1) e)).
Proof.
  intros Ht Hx Hp Hs Hc He Hf. unfold lex_engine. rewrite Int_val_small by lia. cbv zeta.
  destruct (Z.leb_spec 0 s); [|lia].
  change (symbols b n p e) with (symbols (started b p) n p e).
  rewrite <- (lex_loop_scan (started b p) n fuel s p p (-1) e); try done; try lia.
  unfold at_state, started, set_last, set_start_pos. cbn. now rewrite Hc, He.
Qed.

Lemma lex_engine_again fuel s b n p lp la e :
  table_ok -> text_ok b n -> 0 <= p <= n -> 0 <= s < B31 -> -1 <= la < 32768 -> (length (symbols b n p e) < fuel)%nat ->
  lex_engine fuel tbl (Val_int (- s - 1)) (at_state b p lp la e) = Some (lex_outcome b (scan s (symbols b n p e) p lp la e)).
Proof.
  intros Ht Hx Hp Hs Hla Hf. unfold lex_engine. rewrite Int_val_small by lia. cbv zeta.
  destruct (Z.leb_spec 0 (- s - 1)); [lia|]. replace (- (- s - 1) - 1) with s by lia.
  now apply (lex_loop_scan b n).
Qed.
End Scan.

(** ** The claims *)

(** What the result of a first entry at [p] in state [s] says of the symbols [w]. *)
Definition lex_result_ok (tbl : lexing_table) (s p : Z) (w : list Z) (res : lex_result) : Prop :=
  match res with
  | Return v b =>
      (exists k a, v = Val_int a /\ longest tbl s w k a /\ lex_curr_pos b = Val_long (pos_after p (take k w))) \/
      (exists s', v = Val_int (- s' - 1) /\ reach tbl s w = Some s' /\ final tbl s' = false /\
         lex_curr_pos b = Val_long (pos_after p w))
  | EmptyToken b => forall k, (k <= length w)%nat -> action tbl s w k = None
  end.

(** C19: On its first entry the engine always returns, within as many turns as there
    are characters left.  It returns the action of the longest prefix of the input
    that the automaton accepts, with the position just after that prefix; or asks
    for a refill with the state reached after all the characters; or raises
    [Failure] when no prefix is accepted. *)
Theorem lex_engine_longest fuel tbl s b n p (e : bool) :
  table_ok tbl -> text_ok b n -> 0 <= p <= n -> 0 <= s < B31 -> lex_curr_pos b = Val_long p ->
  lex_eof_reached b = Val_bool (if e then 1 else 0) -> (length (symbols b n p e) < fuel)%nat ->
  exists res, lex_engine fuel tbl (Val_int s) b = Some res /\ lex_result_ok tbl s p (symbols b n p e) res.
Proof.
  intros Ht Hx Hp Hs Hc He Hf. rewrite (lex_engine_first tbl fuel s b n p e) by done.
  eexists. split; [reflexivity|]. set (w := symbols b n p e).
  pose proof (scan_spec tbl s p w [] s p (-1) e eq_refl) as H. cbn [app length pos_after fold_left] in H.
  assert (Hb : best tbl s p w 0 p (-1)) by (left; split; [done|lia]). specialize (H Hb). change (pos_after p []) with p in H.
  destruct (scan tbl s w p p (-1) e) as [a q lp la e'|lp la e'|s' q lp la e']; cbn [lex_outcome scan_ok] in *.
  - left. destruct H as (k & Hl & ->). exists k, a. done.
  - destruct (Z.eqb_spec la (-1)) as [->|Hla].
    + destruct H as [[_ Hn]|(k & _ & _ & Hx0 & _)]; [|lia]. intros k Hk. apply Hn. lia.
    + destruct H as [[-> _]|(k & Hk & Ha & Hx0 & -> & Hn)]; [done|]. left. exists k, la. split; [done|]. split; [|done].
      split; [lia|]. split; [done|]. intros k' Hk'. apply Hn. lia.
  - right. destruct H as (Hr & -> & Hfin & _). exists s'. done.
Qed.

(** The buffer after a refill: more characters, and perhaps the end of the input. *)
Definition refilled (b : lexer_buffer) (more : list Z) (e : bool) : lexer_buffer :=
  MkLexbuf (lex_buffer b ++ more) (Val_long (Z.of_nat (length (lex_buffer b ++ more)))) (lex_abs_pos b) (lex_start_pos b)
    (lex_curr_pos b) (lex_last_pos b) (lex_last_action b) (Val_bool (if e then 1 else 0)).

(** The last action of a scan is a 16-bit integer. *)
Lemma scan_la_range tbl w : forall s p lp la e,
  table_ok tbl -> -1 <= la < 32768 ->
  match scan tbl s w p lp la e with Final _ _ _ la _ | Back _ la _ | Stop _ _ _ la _ => -1 <= la < 32768 end.
Proof.
  induction w as [|c w IH]; intros s p lp la e Ht Hla; cbn [scan]; destruct (final tbl s); try done;
    assert (- 32768 <= Short (lex_backtrk tbl) s < 32768) by apply Short_range, Ht;
    (destruct (Z.leb_spec 0 (Short (lex_backtrk tbl) s)); [|try done]); try lia.
  - destruct (_ <? 0); [lia|]. apply IH; [done|lia].
  - destruct (_ <? 0); [done|]. now apply IH.
Qed.

Lemma scan_state_range tbl w : forall s p lp la e,
  table_ok tbl -> 0 <= s < B31 -> match scan tbl s w p lp la e with Stop s' _ _ _ _ => 0 <= s' < B31 | _ => True end.
Proof.
  induction w as [|c w IH]; intros s p lp la e Ht Hs; cbn [scan]; destruct (final tbl s); try done;
    destruct (0 <=? Short (lex_backtrk tbl) s); try done;
    pose proof (transition_range tbl s (Short (lex_base tbl) s) c Ht);
    (destruct (Z.ltb_spec (transition tbl s (Short (lex_base tbl) s) c) 0); [done|apply IH; [done|lia]]).
Qed.

(** The mark matters to the last symbol only. *)
Definition with_mark (e : bool) (r : scan_result) : scan_result :=
  match r with
  | Final a p lp la _ => Final a p lp la e
  | Back lp la _ => Back lp la e
  | Stop s p lp la _ => Stop s p lp la e
  end.

Lemma scan_mark tbl w : forall s p lp la e e0,
  Forall (fun c => 0 <= c < 256) w -> scan tbl s w p lp la e = with_mark e (scan tbl s w p lp la e0).
Proof.
  induction w as [|c w IH]; intros s p lp la e e0 Hw; cbn [scan]; destruct (final tbl s); try done;
    (destruct (0 <=? Short (lex_backtrk tbl) s); [|]; try done);
    apply Forall_cons in Hw as [Hc Hw]; destruct (_ <? 0); try done;
    (destruct (Z.eqb_spec c 256); [lia|]); now apply IH.
Qed.

Lemma pos_after_chars w : forall p, Forall (fun c => 0 <= c < 256) w -> pos_after p w = p + Z.of_nat (length w).
Proof.
  induction w as [|c w IH]; intros p Hw; cbn [length]; [unfold pos_after; cbn; lia|]. apply Forall_cons in Hw as [Hc Hw].
  change (pos_after p (c :: w)) with (pos_after (adv p c) w). rewrite IH by done. unfold adv.
  destruct (Z.eqb_spec c 256); lia.
Qed.

Lemma s64_Val_int_neg a : - B31 <= a < B31 -> (s64 (Val_int a) <? 0) = (a <? 0).
Proof.
  intros Ha. unfold Val_int. rewrite s64_Val_small by (rewrite Max_long_eq; lia).
  destruct (Z.ltb_spec (2 * a + 1) 0), (Z.ltb_spec a 0); lia.
Qed.

(** The characters after a refill. *)
Lemma symbols_refilled b p more e :
  0 <= p <= Z.of_nat (length (lex_buffer b)) ->
  symbols (refilled b more e) (Z.of_nat (length (lex_buffer b ++ more))) p e =
  symbols b (Z.of_nat (length (lex_buffer b))) p false ++ more ++ if e then [256] else [].
Proof.
  intros Hp. unfold symbols, refilled. cbn [lex_buffer]. rewrite !Nat2Z.id, !take_ge by lia.
  rewrite app_nil_r, app_assoc. f_equal. rewrite drop_app_le; [done|lia].
Qed.

Lemma scan_Final_nonneg tbl w : forall s p lp la e,
  table_ok tbl -> match scan tbl s w p lp la e with Final a _ _ _ _ => 0 <= a < B31 | _ => True end.
Proof.
  induction w as [|c w IH]; intros s p lp la e Ht; cbn [scan]; destruct (final tbl s) eqn:Ef;
    try (unfold final in Ef; pose proof (Short_range (lex_base tbl) s (proj1 Ht)); lia);
    destruct (0 <=? Short (lex_backtrk tbl) s); try done; destruct (_ <? 0); try done; now apply IH.
Qed.

(** A refill is transparent.  When the engine, at the end of a buffer that is not
    the end of the input, returns a negative value, calling it again with that value
    after more characters have been appended gives what one call on the whole text
    gives; when it returns an action at once, the whole text gives the same. *)
Theorem lex_engine_refill fuel tbl s b p more (e : bool) :
  table_ok tbl -> text_ok b (Z.of_nat (length (lex_buffer b))) -> 0 <= p <= Z.of_nat (length (lex_buffer b)) ->
  0 <= s < B31 -> lex_curr_pos b = Val_long p -> lex_eof_reached b = Val_bool 0 ->
  Forall (fun c => 0 <= c < 256) more -> Z.of_nat (length (lex_buffer b ++ more)) <= Max_long ->
  (length (lex_buffer b ++ more) + 1 < fuel)%nat ->
  exists res, lex_engine fuel tbl (Val_int s) b = Some res /\
    match res with
    | Return v b1 =>
        if s64 v <? 0
        then lex_engine fuel tbl v (refilled b1 more e) = lex_engine fuel tbl (Val_int s) (refilled b more e)
        else exists b2, lex_engine fuel tbl (Val_int s) (refilled b more e) = Some (Return v b2) /\
               lex_curr_pos b2 = lex_curr_pos b1
    | EmptyToken _ => exists b2, lex_engine fuel tbl (Val_int s) (refilled b more e) = Some (EmptyToken b2)
    end.
Proof.
  set (n := Z.of_nat (length (lex_buffer b))). intros Ht Hx Hp Hs Hc He Hmore Hmax Hf.
  pose proof Hx as (_ & _ & _ & Hchars).
  set (b' := refilled b more e). set (n' := Z.of_nat (length (lex_buffer b ++ more))) in *.
  assert (Hn' : n <= n') by (unfold n, n'; rewrite length_app; lia).
  assert (Hx' : text_ok b' n') by (split_and!; try done; [unfold n'; lia|apply Forall_app; done]).
  set (w := symbols b n p false). pose proof (symbols_refilled b p more e Hp) as Ew. fold n n' b' w in Ew.
  assert (Hw : w = drop (Z.to_nat p) (lex_buffer b)).
  { unfold w, symbols, n. rewrite Nat2Z.id, take_ge, app_nil_r; [done|lia]. }
  assert (Hwc : Forall (fun c => 0 <= c < 256) w) by (rewrite Hw; now apply Forall_drop).
  assert (Hlw : Z.of_nat (length w) = n - p) by (rewrite Hw, length_drop; unfold n in *; lia).
  assert (Hlw' : (length (symbols b' n' p e) < fuel)%nat).
  { rewrite Ew, !length_app. rewrite length_app in Hf. destruct e; cbn [length]; lia. }
  rewrite (lex_engine_first tbl fuel s b n p false) by (try done; rewrite length_app in Hf; fold w; lia).
  rewrite (lex_engine_first tbl fuel s b' n' p e) by (try done; lia). fold w. rewrite Ew, scan_app.
  rewrite (scan_mark tbl w s p p (-1) e false Hwc). eexists. split; [reflexivity|].
  pose proof (scan_la_range tbl w s p p (-1) false Ht ltac:(lia)) as Hla.
  pose proof (scan_state_range tbl w s p p (-1) false Ht Hs) as Hst.
  pose proof (scan_Final_nonneg tbl w s p p (-1) false Ht) as Hfin.
  pose proof (scan_spec tbl s p w [] s p (-1) false eq_refl ltac:(left; split; [done|cbn; lia])) as Hok.
  change (pos_after p []) with p in Hok. rewrite app_nil_l in Hok.
  destruct (scan tbl s w p p (-1) false) as [a q lp la e'|lp la e'|s' q lp la e']; cbn [with_mark lex_outcome].
  - rewrite s64_Val_int_neg by lia. destruct (Z.ltb_spec a 0); [lia|]. eexists. done.
  - destruct (Z.eqb_spec la (-1)); [eexists; done|]. rewrite s64_Val_int_neg by lia.
    destruct (Z.ltb_spec la 0); [lia|]. eexists. done.
  - rewrite s64_Val_int_neg by lia. destruct (Z.ltb_spec (- s' - 1) 0); [|lia].
    destruct Hok as (_ & -> & _). rewrite pos_after_chars by done. replace (p + Z.of_nat (length w)) with n by lia.
    change (refilled (at_state (started b p) n lp la e') more e) with (at_state (started b' p) n lp la e).
    assert (Es : symbols (started b' p) n' n e = more ++ if e then [256] else []).
    { change (symbols (started b' p) n' n e) with (symbols b' n' n e). unfold b', n', n.
      rewrite symbols_refilled by lia. unfold symbols at 1. rewrite Nat2Z.id, drop_ge; [done|]. rewrite length_take. lia. }
    rewrite (lex_engine_again tbl fuel s' (started b' p) n' n lp la e); try done; try lia; [now rewrite Es|].
    rewrite Es, length_app. rewrite length_app in Hf. destruct e; cbn [length]; lia.
Qed.

(** The rules [a+] (action 0) and [b] (action 1). *)
Definition demo_table : lexing_table :=
  let short x := [x mod 256; x / 256 mod 256] in
  let table l := concat (short <$> l) in
  MkTable (table [0; -2; 160]) (table [-1; -1; 0]) (table [-1; -1; -1])
    (table (replicate 97 0 ++ [2; 1] ++ replicate 158 0 ++ [2] ++ replicate 160 0))
    (table (replicate 97 (-1) ++ [0; 0] ++ replicate 158 (-1) ++ [2] ++ replicate 160 (-1))).

Definition demo_lexbuf (text : list Z) (e : Z) : lexer_buffer :=
  MkLexbuf text (Val_long (Z.of_nat (length text))) (Val_long 0) (Val_long 0) (Val_long 0) (Val_long 0) (Val_long 0) (Val_bool e).

Lemma bytes_check l : forallb (fun c => (0 <=? c) && (c <? 256)) l = true -> Forall (fun c => 0 <= c < 256) l.
Proof.
  induction l as [|c l IH]; [constructor|]. cbn [forallb]. intros [Hc Hl]%andb_true_iff. constructor; [lia|now apply IH].
Qed.

Lemma demo_table_ok : table_ok demo_table.
Proof. split_and!; apply bytes_check; vm_compute; reflexivity. Qed.

Lemma demo_chars : Forall (fun c => 0 <= c < 256) [97; 97; 98].
Proof. apply bytes_check. reflexivity. Qed.

(** On [aab] the first token is [aa]. *)
Lemma lex_engine_longest_witness :
  exists res, lex_engine 5 demo_table (Val_int 0) (demo_lexbuf [97; 97; 98] 1) = Some res /\
    lex_result_ok demo_table 0 0 (symbols (demo_lexbuf [97; 97; 98] 1) 3 0 true) res.
Proof.
  apply lex_engine_longest; [apply demo_table_ok| |lia|lia|done|done|vm_compute; lia].
  split_and!; [done|lia|cbn; lia|rewrite Max_long_eq; lia|apply demo_chars].
Defined.

Lemma lex_engine_refill_witness :
  exists res, lex_engine 6 demo_table (Val_int 0) (demo_lexbuf [97; 97; 98] 0) = Some res /\
    match res with
    | Return v b1 =>
        if s64 v <? 0
        then lex_engine 6 demo_table v (refilled b1 [97] true) =
             lex_engine 6 demo_table (Val_int 0) (refilled (demo_lexbuf [97; 97; 98] 0) [97] true)
        else exists b2, lex_engine 6 demo_table (Val_int 0) (refilled (demo_lexbuf [97; 97; 98] 0) [97] true) = Some (Return v b2) /\
               lex_curr_pos b2 = lex_curr_pos b1
    | EmptyToken _ => exists b2, lex_engine 6 demo_table (Val_int 0) (refilled (demo_lexbuf [97; 97; 98] 0) [97] true) = Some (EmptyToken b2)
    end.
Proof.
  apply (lex_engine_refill 6 demo_table 0 (demo_lexbuf [97; 97; 98] 0) 0);
    [apply demo_table_ok| |cbn; lia|lia|done|done|apply bytes_check; reflexivity|rewrite Max_long_eq; cbn; lia|cbn; lia].
  split_and!; [done|cbn; lia|cbn; lia|rewrite Max_long_eq; cbn; lia|apply demo_chars].
Defined.

Example demo_token : exists b,
  lex_engine 5 demo_table (Val_int 0) (demo_lexbuf [97; 97; 98] 1) = Some (Return (Val_int 0) b) /\
  lex_curr_pos b = Val_int 2.
Proof. eexists. split; vm_compute; reflexivity. Qed.
