(* ===== verification/Parsing.v ===== *)
(** * The parser engine

    Models [byterun/parsing.c], the pushdown automaton that runs the tables
    [ocamlyacc] produces, and the driver [yyparse] of [stdlib/parsing.ml] that calls
    it.  The engine is a coroutine: it saves its registers in the environment,
    returns a request, and is entered again with a command when the request is
    satisfied; its stacks are arrays the driver makes larger.  Both together run an LR
    automaton on a list of frames. *)

From S2P Require Import Prelude Mlvalues Lexing.

(** ** Tables, environment, commands and requests *)

Definition ERRCODE : Z := 256.

(** The tables are strings of 16-bit integers; the semantic actions and the names are
    those of the driver. *)
Record parser_tables := MkTables {
  transl_const : list Z;
  transl_block : list Z;
  lhs : list Z;
  len : list Z;
  defred : list Z;
  dgoto : list Z;
  sindex : list Z;
  rindex : list Z;
  gindex : list Z;
  tablesize : Z;
  table : list Z;
  check : list Z
}.

Section Engine.
Context {V : Type} (unit_ : V).

(** The fields that are not values of the program are the integers they hold. *)
Record parser_env := MkEnv {
  s_stack : list Z;
  v_stack : list V;
  symb_start_stack : list Z;
  symb_end_stack : list Z;
  stacksize : Z;
  stackbase : Z;
  curr_char : Z;
  lval : V;
  symb_start : Z;
  symb_end : Z;
  asp : Z;
  rule_len : Z;
  rule_number : Z;
  sp : Z;
  state : Z;
  errflag : Z
}.

(** A token: constant, or a block with a tag and its first field. *)
Inductive token := Const_token (n : Z) | Block_token (tag : Z) (v : V).

Inductive command :=
| START
| TOKEN_READ (tok : token)
| STACKS_GROWN_1
| STACKS_GROWN_2
| SEMANTIC_ACTION_COMPUTED (v : V)
| ERROR_DETECTED.

Inductive output := READ_TOKEN | RAISE_PARSE_ERROR | GROW_STACKS_1 | GROW_STACKS_2 | COMPUTE_SEMANTIC_ACTION | CALL_ERROR_FUNCTION.

(** [Int_val] on the integer a field holds. *)
Definition int_of (x : Z) : Z := s32 x.

Definition set_curr_char (c : Z) (e : parser_env) : parser_env :=
  MkEnv (s_stack e) (v_stack e) (symb_start_stack e) (symb_end_stack e) (stacksize e) (stackbase e) c (lval e) (symb_start e) (symb_end e) (asp e) (rule_len e) (rule_number e) (sp e) (state e) (errflag e).
Definition set_token (c : Z) (v : V) (e : parser_env) : parser_env :=
  MkEnv (s_stack e) (v_stack e) (symb_start_stack e) (symb_end_stack e) (stacksize e) (stackbase e) c v (symb_start e) (symb_end e) (asp e) (rule_len e) (rule_number e) (sp e) (state e) (errflag e).
(** [SAVE] *)
Definition SAVE (sp_ st ef : Z) (e : parser_env) : parser_env :=
  MkEnv (s_stack e) (v_stack e) (symb_start_stack e) (symb_end_stack e) (stacksize e) (stackbase e) (curr_char e) (lval e) (symb_start e) (symb_end e) (asp e) (rule_len e) (rule_number e) (s64 sp_) st ef.
(** The cells of index [i] of the four stacks. *)
Definition set_cell (i s : Z) (v : V) (b n : Z) (e : parser_env) : parser_env :=
  MkEnv (<[Z.to_nat i := s]> (s_stack e)) (<[Z.to_nat i := v]> (v_stack e)) (<[Z.to_nat i := b]> (symb_start_stack e)) (<[Z.to_nat i := n]> (symb_end_stack e)) (stacksize e) (stackbase e) (curr_char e) (lval e) (symb_start e) (symb_end e) (asp e) (rule_len e) (rule_number e) (sp e) (state e) (errflag e).
(** [asp], [rule_number], [rule_len]. *)
Definition set_rule (a n m : Z) (e : parser_env) : parser_env :=
  MkEnv (s_stack e) (v_stack e) (symb_start_stack e) (symb_end_stack e) (stacksize e) (stackbase e) (curr_char e) (lval e) (symb_start e) (symb_end e) (s64 a) m n (sp e) (state e) (errflag e).
Definition in_stack (e : parser_env) (i : Z) : bool :=
  (0 <=? i) && (i <? Z.of_nat (length (s_stack e))) && (i <? Z.of_nat (length (v_stack e))) &&
  (i <? Z.of_nat (length (symb_start_stack e))) && (i <? Z.of_nat (length (symb_end_stack e))).
(** [env.symb_start <- ...; env.symb_end <- ...] *)
Definition set_symb (b n : Z) (e : parser_env) : parser_env :=
  MkEnv (s_stack e) (v_stack e) (symb_start_stack e) (symb_end_stack e) (stacksize e) (stackbase e) (curr_char e) (lval e) b n (asp e) (rule_len e) (rule_number e) (sp e) (state e) (errflag e).

Section Tables.
Context (tables : parser_tables).

(** The index in [table] and [check] of the entry of [c] in the row [n] of [index]. *)
Definition entry (index : list Z) (n c : Z) : option Z :=
  let n1 := Short index n in
  let n2 := n1 + c in
  if negb (n1 =? 0) && (0 <=? n2) && (n2 <=? int_of (tablesize tables)) && (Short (check tables) n2 =? c) then Some n2 else None.

(** The places control goes to; [n2] and [n] are the local variables they use. *)
Inductive label :=
| L_loop
| L_testshift
| L_recover
| L_discard                      (* [while (1)] of [recover] *)
| L_shift (n2 : Z)
| L_shift_recover (n2 : Z)
| L_push
| L_reduce (n : Z)
| L_semantic_action.

(** The local variables [state], [sp] and [errflag]. *)
Record regs := MkRegs { r_state : Z; r_sp : Z; r_errflag : Z }.

Inductive next :=
| Goto (l : label) (r : regs) (e : parser_env)
| Return (o : output) (e : parser_env).

Definition save (r : regs) (e : parser_env) : parser_env := SAVE (r_sp r) (r_state r) (r_errflag r) e.
Definition restore (e : parser_env) : regs := MkRegs (int_of (state e)) (u64 (int_of (sp e))) (int_of (errflag e)).

(** From a place to the next one; nothing when an access is out of bounds. *)
Definition step (l : label) (r : regs) (e : parser_env) : option next :=
  match l with
  | L_loop =>
      let n := Short (defred tables) (r_state r) in
      if negb (n =? 0) then Some (Goto (L_reduce n) r e)
      else if 0 <=? int_of (curr_char e) then Some (Goto L_testshift r e)
      else Some (Return READ_TOKEN (save r e))
  | L_testshift =>
      match entry (sindex tables) (r_state r) (int_of (curr_char e)) with
      | Some n2 => Some (Goto (L_shift n2) r e)
      | None =>
          match entry (rindex tables) (r_state r) (int_of (curr_char e)) with
          | Some n2 => Some (Goto (L_reduce (Short (table tables) n2)) r e)
          | None => if 0 <? r_errflag r then Some (Goto L_recover r e) else Some (Return CALL_ERROR_FUNCTION (save r e))
          end
      end
  | L_recover =>
      if r_errflag r <? 3 then Some (Goto L_discard (MkRegs (r_state r) (r_sp r) 3) e)
      else if int_of (curr_char e) =? 0 then Some (Return RAISE_PARSE_ERROR e)
      else Some (Goto L_loop r (set_curr_char (-1) e))
  | L_discard =>
      match s_stack e !! Z.to_nat (r_sp r) with
      | None => None
      | Some s =>
          match entry (sindex tables) (int_of s) ERRCODE with
          | Some n2 => Some (Goto (L_shift_recover n2) r e)
          | None =>
              if r_sp r <=? u64 (int_of (stackbase e)) then Some (Return RAISE_PARSE_ERROR e)
              else Some (Goto L_discard (MkRegs (r_state r) (u64 (r_sp r - 1)) (r_errflag r)) e)
          end
      end
  | L_shift n2 =>
      Some (Goto (L_shift_recover n2) (MkRegs (r_state r) (r_sp r) (if 0 <? r_errflag r then r_errflag r - 1 else r_errflag r))
              (set_curr_char (-1) e))
  | L_shift_recover n2 =>
      let r := MkRegs (Short (table tables) n2) (u64 (r_sp r + 1)) (r_errflag r) in
      if r_sp r <? u64 (stacksize e) then Some (Goto L_push r e) else Some (Return GROW_STACKS_1 (save r e))
  | L_push =>
      if in_stack e (r_sp r) then Some (Goto L_loop r (set_cell (r_sp r) (r_state r) (lval e) (symb_start e) (symb_end e) e)) else None
  | L_reduce n =>
      let m := Short (len tables) n in
      let e := set_rule (r_sp r) n m e in
      let sp := u64 (r_sp r - m + 1) in
      let m := Short (lhs tables) n in
      match s_stack e !! Z.to_nat (u64 (sp - 1)) with
      | None => None
      | Some s =>
          let state1 := int_of s in
          let state := match entry (gindex tables) m state1 with
                       | Some n2 => Short (table tables) n2
                       | None => Short (dgoto tables) m
                       end in
          let r := MkRegs state sp (r_errflag r) in
          if sp <? u64 (stacksize e) then Some (Goto L_semantic_action r e) else Some (Return GROW_STACKS_2 (save r e))
      end
  | L_semantic_action => Some (Return COMPUTE_SEMANTIC_ACTION (save r e))
  end.

(** The end of [SEMANTIC_ACTION_COMPUTED]. *)
Definition put_result (r : regs) (v : V) (e : parser_env) : option parser_env :=
  let asp := u64 (int_of (asp e)) in
  match symb_start_stack e !! Z.to_nat (r_sp r), symb_end_stack e !! Z.to_nat asp with
  | Some b, Some n =>
      if in_stack e (r_sp r) then Some (set_cell (r_sp r) (r_state r) v (if asp <? r_sp r then n else b) n e) else None
  | _, _ => None
  end.

(** [switch(Int_val(cmd))] *)
Definition enter (cmd : command) (e : parser_env) : option (label * regs * parser_env) :=
  match cmd with
  | START => Some (L_loop, MkRegs 0 (u64 (int_of (sp e))) 0, e)
  | TOKEN_READ (Block_token tag v) =>
      match transl_block tables !! Z.to_nat tag with
      | Some c => Some (L_testshift, restore e, set_token c v e)
      | None => None
      end
  | TOKEN_READ (Const_token n) =>
      match transl_const tables !! Z.to_nat (int_of n) with
      | Some c => Some (L_testshift, restore e, set_token c unit_ e)
      | None => None
      end
  | STACKS_GROWN_1 => Some (L_push, restore e, e)
  | STACKS_GROWN_2 => Some (L_semantic_action, restore e, e)
  | SEMANTIC_ACTION_COMPUTED v =>
      match put_result (restore e) v e with
      | Some e' => Some (L_loop, restore e, e')
      | None => None
      end
  | ERROR_DETECTED => Some (L_recover, restore e, e)
  end.

Fixpoint run (fuel : nat) (l : label) (r : regs) (e : parser_env) : option (output * parser_env) :=
  match fuel with
  | O => None
  | S fuel =>
      match step l r e with
      | None => None
      | Some (Return o e) => Some (o, e)
      | Some (Goto l r e) => run fuel l r e
      end
  end.

(** A state is discarded at most once. *)
Definition turns (r : regs) : nat := Z.to_nat (r_sp r) + 32.

Definition parse_engine (cmd : command) (e : parser_env) : option (output * parser_env) :=
  match enter cmd e with
  | None => None
  | Some (l, r, e) => run (turns r) l r e
  end.
End Tables.

(** ** The driver *)

(** What a semantic action does: it returns, raises [Parse_error], or raises [YYexit]
    as those of the entry rules. *)
Inductive action_result := Value (v : V) | Failed | YYexit (v : V).

(** An attribute: the value, and the positions of its symbol. *)
Definition attribute : Type := V * Z * Z.
Definition cell (e : parser_env) (i : Z) : option attribute :=
  if i <? 0 then None
  else match v_stack e !! Z.to_nat i, symb_start_stack e !! Z.to_nat i, symb_end_stack e !! Z.to_nat i with
       | Some v, Some b, Some n => Some (v, b, n)
       | _, _, _ => None
       end.
(** [n] attributes, the last one at [i]. *)
Fixpoint attributes (n : nat) (i : Z) (e : parser_env) : option (list attribute) :=
  match n with
  | O => Some []
  | S n => match cell e i, attributes n (i - 1) e with Some a, Some l => Some (l ++ [a]) | _, _ => None end
  end.
(** What [peek_val], [rhs_start] and [rhs_end] give to the action of the rule. *)
Definition arguments (e : parser_env) : option (list attribute) := attributes (Z.to_nat (rule_len e)) (asp e) e.

Definition grow {A} (old : Z) (d : A) (l : list A) : list A := take (Z.to_nat old) l ++ repeat d (Z.to_nat old).
Definition grow_stacks (e : parser_env) : parser_env :=
  let oldsize := stacksize e in
  MkEnv (grow oldsize 0 (s_stack e)) (grow oldsize unit_ (v_stack e)) (grow oldsize 0 (symb_start_stack e)) (grow oldsize 0 (symb_end_stack e))
    (oldsize * 2) (stackbase e) (curr_char e) (lval e) (symb_start e) (symb_end e) (asp e) (rule_len e) (rule_number e) (sp e) (state e) (errflag e).

Section Driver.
Context (tables : parser_tables).
(** The semantic actions, the lexer with its state and the positions it sets. *)
Context {L : Type} (actions : Z -> list attribute -> action_result) (lexer : L -> token * Z * Z * L).

Inductive parse_result := Parsed (v : V) | Parse_error.

(** What [loop] does with an answer of the engine. *)
Definition serve (o : output) (e : parser_env) (lexbuf : L) : option (parse_result + (command * parser_env * L)) :=
  match o with
  | READ_TOKEN => let '(t, b, n, lexbuf) := lexer lexbuf in Some (inr (TOKEN_READ t, set_symb b n e, lexbuf))
  | RAISE_PARSE_ERROR => Some (inl Parse_error)
  | COMPUTE_SEMANTIC_ACTION =>
      match arguments e with
      | None => None
      | Some l => match actions (rule_number e) l with
                  | Value v => Some (inr (SEMANTIC_ACTION_COMPUTED v, e, lexbuf))
                  | Failed => Some (inr (ERROR_DETECTED, e, lexbuf))
                  | YYexit v => Some (inl (Parsed v))
                  end
      end
  | GROW_STACKS_1 => Some (inr (STACKS_GROWN_1, grow_stacks e, lexbuf))
  | GROW_STACKS_2 => Some (inr (STACKS_GROWN_2, grow_stacks e, lexbuf))
  | CALL_ERROR_FUNCTION => Some (inr (ERROR_DETECTED, e, lexbuf))
  end.

Fixpoint loop (fuel : nat) (cmd : command) (e : parser_env) (lexbuf : L) : option parse_result :=
  match fuel with
  | O => None
  | S fuel =>
      match parse_engine tables cmd e with
      | None => None
      | Some (o, e) =>
          match serve o e lexbuf with
          | None => None
          | Some (inl r) => Some r
          | Some (inr (cmd, e, lexbuf)) => loop fuel cmd e lexbuf
          end
      end
  end.

(** [yyparse] up to the exception that ends it. *)
Definition set_base (base start : Z) (e : parser_env) : parser_env :=
  MkEnv (s_stack e) (v_stack e) (symb_start_stack e) (symb_end_stack e) (stacksize e) base start (lval e) (symb_start e) (symb_end e)
    (asp e) (rule_len e) (rule_number e) (sp e) (state e) (errflag e).
Definition yyparse (fuel : nat) (start : Z) (e : parser_env) (lexbuf : L) : option parse_result :=
  loop fuel START (set_base (sp e + 1) start e) lexbuf.
End Driver.
End Engine.
Arguments parser_env V : clear implicits.
Arguments token V : clear implicits.
Arguments command V : clear implicits.
Arguments action_result V : clear implicits.
Arguments parse_result V : clear implicits.
Arguments attribute V : clear implicits.

(** ** The LR automaton *)

Section Automaton.
Context {V : Type} (unit_ : V) (tables : parser_tables) {L : Type}.
Context (actions : Z -> list (attribute V) -> action_result V) (lexer : L -> token V * Z * Z * L).
(** The depth below which no state is discarded. *)
Context (base : Z).

Record frame := Frame { f_state : Z; f_attr : attribute V }.

(** The stack, from its top; the state, the code of the token to be shifted or [-1],
    the attribute of the last token read, the tokens to shift before an error is
    reported again, and the state of the lexer. *)
Record config := MkConfig {
  frames : list frame;
  cur_state : Z;
  cur : Z;
  tok : attribute V;
  err : Z;
  input : L
}.

(** Between a move and the next; with a token; on an error. *)
Inductive control := At_loop | At_token | At_recover.

Inductive lr_next :=
| Next (k : control) (c : config)
| Final (r : parse_result V)
| Stuck.                  (* too many symbols to remove, an empty rule whose action fails, a stack of 2^31 frames, an unknown token *)

Definition shift_of (s c : Z) : option Z := option_map (Short (table tables)) (entry tables (sindex tables) s c).
Definition reduce_of (s c : Z) : option Z := option_map (Short (table tables)) (entry tables (rindex tables) s c).
Definition goto_of (m s : Z) : Z :=
  match entry tables (gindex tables) m s with Some n2 => Short (table tables) n2 | None => Short (dgoto tables) m end.

Definition token_code (t : token V) : option (Z * V) :=
  match t with
  | Block_token tag v => option_map (fun c => (c, v)) (transl_block tables !! Z.to_nat tag)
  | Const_token n => option_map (fun c => (c, unit_)) (transl_const tables !! Z.to_nat (int_of n))
  end.

(** A frame is pushed. *)
Definition push (s : Z) (a : attribute V) (fs : list frame) (cur err : Z) (c : config) : lr_next :=
  if Z.of_nat (length fs) <? B31 then Next At_loop (MkConfig (Frame s a :: fs) s cur (tok c) err (input c)) else Stuck.

Definition sym_end (a : attribute V) : Z := snd a.
Definition sym_start (a : attribute V) : Z := snd (fst a).

(** The rule [n]. *)
Definition lr_reduce (n : Z) (c : config) : lr_next :=
  let m := Short (len tables) n in
  let k := Z.to_nat m in
  match frames c, drop k (frames c) with
  | top :: _, f :: _ =>
      if m <? 0 then Stuck else
      let s := goto_of (Short (lhs tables) n) (f_state f) in
      let args := map f_attr (rev (take k (frames c))) in
      match actions n args with
      | Value v =>
          let b := match args with a :: _ => sym_start a | [] => sym_end (f_attr top) end in
          push s (v, b, sym_end (f_attr top)) (drop k (frames c)) (cur c) (err c) c
      | YYexit v => if Z.of_nat (length (frames c)) <? B31 then Final (Parsed v) else Stuck
      | Failed => if m =? 0 then Stuck else Next At_recover (MkConfig (drop (k - 1) (frames c)) s (cur c) (tok c) (err c) (input c))
      end
  | _, _ => Stuck
  end.

(** The topmost state that shifts the error token. *)
Fixpoint lr_discard (fs : list frame) : option (Z * list frame) :=
  match fs with
  | [] => None
  | f :: fs' =>
      match shift_of (f_state f) ERRCODE with
      | Some s => Some (s, fs)
      | None => if Z.of_nat (length fs') <=? base then None else lr_discard fs'
      end
  end.

Definition lr_step (k : control) (c : config) : lr_next :=
  match k with
  | At_loop =>
      let n := Short (defred tables) (cur_state c) in
      if negb (n =? 0) then lr_reduce n c
      else if 0 <=? cur c then Next At_token c
      else let '(t, b, n, l) := lexer (input c) in
           match token_code t with
           | Some (x, v) => Next At_token (MkConfig (frames c) (cur_state c) (int_of x) (v, b, n) (err c) l)
           | None => Stuck
           end
  | At_token =>
      match shift_of (cur_state c) (cur c) with
      | Some s => push s (tok c) (frames c) (-1) (if 0 <? err c then err c - 1 else err c) c
      | None => match reduce_of (cur_state c) (cur c) with
                | Some n => lr_reduce n c
                | None => Next At_recover c
                end
      end
  | At_recover =>
      if err c <? 3 then
        match lr_discard (frames c) with
        | Some (s, fs) => push s (tok c) fs (cur c) 3 c
        | None => Final Parse_error
        end
      else if cur c =? 0 then Final Parse_error
      else Next At_loop (MkConfig (frames c) (cur_state c) (-1) (tok c) (err c) (input c))
  end.

Inductive lr_result := Finished (r : parse_result V) | Stopped | Running.
Fixpoint lr_run (fuel : nat) (k : control) (c : config) : lr_result :=
  match fuel with
  | O => Running
  | S fuel => match lr_step k c with Next k c => lr_run fuel k c | Final r => Finished r | Stuck => Stopped end
  end.

(** ** The engine and its driver together *)

Abbreviation machine := (label * regs * parser_env V * L)%type.

Definition move (x : machine) : option (parse_result V + machine) :=
  let '(l, r, e, b) := x in
  match step tables l r e with
  | None => None
  | Some (Goto l r e) => Some (inr (l, r, e, b))
  | Some (Return o e) =>
      match serve unit_ actions lexer o e b with
      | None => None
      | Some (inl res) => Some (inl res)
      | Some (inr (cmd, e, b)) =>
          match enter unit_ tables cmd e with Some (l, r, e) => Some (inr (l, r, e, b)) | None => None end
      end
  end.
Fixpoint moves (n : nat) (x : machine) : option (parse_result V) :=
  match n with
  | O => None
  | S n => match move x with Some (inl r) => Some r | Some (inr x) => moves n x | None => None end
  end.

(** [y] after [x]. *)
Definition leads (x y : machine) : Prop := exists n, (0 < n)%nat /\ forall k, moves (n + k) x = moves k y.

Lemma leads_move x y : move x = Some (inr y) -> leads x y.
Proof. intros E. exists 1%nat. split; [lia|]. intros k. cbn [Nat.add moves]. now rewrite E. Qed.
Lemma leads_trans x y z : leads x y -> leads y z -> leads x z.
Proof.
  intros (n & Hn & H) (n' & Hn' & H'). exists (n + n')%nat. split; [lia|]. intros k. now rewrite <- Nat.add_assoc, H, H'.
Qed.
Lemma leads_by x y z : move x = Some (inr y) -> leads y z -> leads x z.
Proof. intros E. apply leads_trans. now apply leads_move. Qed.

(** ** Frames in the arrays *)

(** The frames [fs] are in the cells [i], [i - 1], ... 0. *)
Fixpoint stacked (e : parser_env V) (i : Z) (fs : list frame) : Prop :=
  match fs with
  | [] => i = -1
  | f :: fs => 0 <= i /\ cell e i = Some (f_attr f) /\ (exists s, s_stack e !! Z.to_nat i = Some s /\ int_of s = f_state f) /\ stacked e (i - 1) fs
  end.

(** The same cells up to [i]. *)
Definition same_cells (e e' : parser_env V) (i : Z) : Prop :=
  forall j, 0 <= j <= i -> cell e' j = cell e j /\ s_stack e' !! Z.to_nat j = s_stack e !! Z.to_nat j.

Lemma stacked_same e e' fs : forall i, same_cells e e' i -> stacked e i fs -> stacked e' i fs.
Proof.
  induction fs as [|f fs IH]; intros i Hs; cbn [stacked]; [done|]. intros (Hi & Hc & Hst & H). destruct (Hs i ltac:(lia)) as [E1 E2].
  rewrite E1, E2. split; [done|]. split; [done|]. split; [done|]. apply IH; [|done]. intros j Hj. apply Hs. lia.
Qed.

Lemma stacked_length e fs : forall i, stacked e i fs -> i = Z.of_nat (length fs) - 1.
Proof. induction fs as [|f fs IH]; intros i; cbn [stacked length]; [lia|]. intros (_ & _ & _ & H). apply IH in H. lia. Qed.

Lemma stacked_drop e n : forall i fs, stacked e i fs -> (n <= length fs)%nat -> stacked e (i - Z.of_nat n) (drop n fs).
Proof.
  induction n as [|n IH]; intros i fs H Hn; cbn [drop]; [now rewrite Z.sub_0_r|]. destruct fs as [|f fs]; cbn [length] in Hn; [lia|].
  cbn [stacked] in H. replace (i - Z.of_nat (S n)) with (i - 1 - Z.of_nat n) by lia. apply IH; [apply H|lia].
Qed.

Lemma stacked_attributes e n : forall i fs, stacked e i fs -> (n <= length fs)%nat -> attributes n i e = Some (map f_attr (rev (take n fs))).
Proof.
  induction n as [|n IH]; intros i fs H Hn; cbn [attributes take rev map]; [done|]. destruct fs as [|f fs]; cbn [length] in Hn; [lia|].
  cbn [stacked] in H. destruct H as (_ & Hc & _ & H). rewrite Hc, (IH _ fs H) by lia. cbn [take rev]. now rewrite map_app.
Qed.

(** ** The invariant *)

Definition is_state (s : Z) : Prop := -32768 <= s < 32768.

(** The arrays and the fields of the environment. *)
Record env_ok (e : parser_env V) : Prop := {
  eo_s : Z.of_nat (length (s_stack e)) = stacksize e;
  eo_v : Z.of_nat (length (v_stack e)) = stacksize e;
  eo_start : Z.of_nat (length (symb_start_stack e)) = stacksize e;
  eo_end : Z.of_nat (length (symb_end_stack e)) = stacksize e;
  eo_size : 0 < stacksize e < B63;
  eo_base : int_of (stackbase e) = base;
  eo_base_nonneg : 0 <= base
}.

(** The fields that hold the token. *)
Record same_token (e : parser_env V) (c : config) : Prop := {
  st_cur : int_of (curr_char e) = cur c;
  st_tok : (lval e, symb_start e, symb_end e) = tok c
}.

(** The registers hold the stack pointer of the frames [fs]. *)
Definition registers (fs : list frame) (s ef : Z) (r : regs) : Prop :=
  r = MkRegs s (Z.of_nat (length fs) - 1) ef /\ (0 < length fs)%nat /\ Z.of_nat (length fs) <= B31 /\ is_state s /\ 0 <= ef <= 3.

Record rel (r : regs) (e : parser_env V) (c : config) : Prop := {
  rel_env : env_ok e;
  rel_tok : same_token e c;
  rel_regs : registers (frames c) (cur_state c) (err c) r;
  rel_frames : stacked e (r_sp r) (frames c)
}.

(** The tables hold 16-bit integers. *)
Hypothesis table_ok : Forall (fun b => 0 <= b < 256) (table tables).
Hypothesis dgoto_ok : Forall (fun b => 0 <= b < 256) (dgoto tables).

Lemma shift_of_state s c x : shift_of s c = Some x -> is_state x.
Proof. unfold shift_of. destruct (entry _ _ _ _); [|done]. intros [= <-]. now apply Short_range. Qed.
Lemma goto_of_state m s : is_state (goto_of m s).
Proof. unfold goto_of. destruct (entry _ _ _ _); now apply Short_range. Qed.

Lemma state_id s : is_state s -> int_of s = s.
Proof. intros H. apply s32_id. unfold is_state, iss32 in *. lia. Qed.

Lemma restore_save s p ef (e : parser_env V) : is_state s -> 0 <= p < B31 -> 0 <= ef <= 3 -> restore (save (MkRegs s p ef) e) = MkRegs s p ef.
Proof.
  intros H1 H2 H3. unfold restore, save, SAVE. cbn [state sp errflag r_sp r_state r_errflag].
  rewrite (state_id s) by done. unfold int_of. rewrite (s64_id p) by (unfold iss64; lia).
  rewrite s32_id by (unfold iss32; lia). rewrite (s32_id ef) by (unfold iss32; lia). rewrite u64_id; [done|]. unfold isu64. lia.
Qed.

Lemma cell_stack (e e' : parser_env V) i : v_stack e' = v_stack e -> symb_start_stack e' = symb_start_stack e -> symb_end_stack e' = symb_end_stack e ->
  s_stack e' = s_stack e -> same_cells e e' i.
Proof. intros E1 E2 E3 E4 j _. unfold cell. now rewrite E1, E2, E3, E4. Qed.

Lemma stacked_bound e i fs : env_ok e -> (0 < length fs)%nat -> stacked e i fs -> 0 <= i < stacksize e.
Proof.
  intros E Hl H. destruct fs as [|f fs]; cbn [length] in Hl; [lia|]. destruct H as (Hi & _ & (s & Hs & _) & _). split; [done|].
  apply lookup_lt_Some in Hs. rewrite <- (eo_s e E). lia.
Qed.

Lemma in_stack_ok e i : env_ok e -> 0 <= i < stacksize e -> in_stack e i = true.
Proof.
  intros [H1 H2 H3 H4 _ _ _] Hi. unfold in_stack. rewrite H1, H2, H3, H4. rewrite (proj2 (Z.leb_le 0 i)) by lia. rewrite (proj2 (Z.ltb_lt i (stacksize e))) by lia. done.
Qed.

(** A cell is written above the frames. *)
Lemma set_cell_lookup e i s v b n : env_ok e -> 0 <= i < stacksize e ->
  let e' := set_cell i s v b n e in
  env_ok e' /\ cell e' i = Some (v, b, n) /\ s_stack e' !! Z.to_nat i = Some s /\ same_cells e e' (i - 1).
Proof.
  intros E Hi e'. pose proof E as [H1 H2 H3 H4 H5 H6 H7]. unfold e'. split; [|split; [|split]].
  - constructor; cbn [s_stack v_stack symb_start_stack symb_end_stack stacksize stackbase set_cell]; rewrite ?length_insert; done.
  - unfold cell. rewrite (proj2 (Z.ltb_ge i 0)) by lia. cbn [v_stack symb_start_stack symb_end_stack set_cell].
    rewrite !list_lookup_insert_eq by lia. done.
  - cbn [s_stack set_cell]. apply list_lookup_insert_eq. lia.
  - intros j Hj. unfold cell. cbn [s_stack v_stack symb_start_stack symb_end_stack set_cell]. now rewrite !list_lookup_insert_ne by lia.
Qed.

Lemma grow_lookup {A} old (d : A) l j : 0 <= j < old -> Z.of_nat (length l) = old -> grow old d l !! Z.to_nat j = l !! Z.to_nat j.
Proof. intros Hj Hl. unfold grow. rewrite lookup_app_l by (rewrite length_take; lia). apply lookup_take_lt. lia. Qed.
Lemma length_grow {A} old (d : A) l : 0 <= old -> Z.of_nat (length l) = old -> Z.of_nat (length (grow old d l)) = old * 2.
Proof. intros Ho Hl. unfold grow. rewrite length_app, length_take, repeat_length. lia. Qed.

Lemma grow_stacks_ok e : env_ok e -> stacksize e * 2 < B63 ->
  let e' := grow_stacks unit_ e in env_ok e' /\ stacksize e' = stacksize e * 2 /\ same_cells e e' (stacksize e - 1).
Proof.
  intros [H1 H2 H3 H4 H5 H6 H7] Hs e'. unfold e'. split; [|split; [done|]].
  - constructor; cbn [s_stack v_stack symb_start_stack symb_end_stack stacksize stackbase grow_stacks e']; try (apply length_grow; lia); [lia|done|done].
  - intros j Hj. unfold cell. cbn [s_stack v_stack symb_start_stack symb_end_stack grow_stacks e']. now rewrite !grow_lookup by lia.
Qed.

(** ** One move of the automaton *)

Lemma save_ok r e : env_ok e -> env_ok (save r e).
Proof. intros []. now constructor. Qed.
Lemma set_rule_ok a n m e : env_ok e -> env_ok (set_rule a n m e).
Proof. intros []. now constructor. Qed.
Lemma save_cells r e i : same_cells e (save r e) i.
Proof. now apply cell_stack. Qed.
Lemma same_cells_trans e1 e2 e3 i : same_cells e1 e2 i -> same_cells e2 e3 i -> same_cells e1 e3 i.
Proof. intros H1 H2 j Hj. destruct (H1 j Hj), (H2 j Hj). split; congruence. Qed.
Lemma same_cells_le e1 e2 i j : j <= i -> same_cells e1 e2 i -> same_cells e1 e2 j.
Proof. intros Hj H k Hk. apply H. lia. Qed.

(** A frame in the cell above. *)
Lemma put_frame e fs s v b n ef x t l : env_ok e -> stacked e (Z.of_nat (length fs) - 1) fs -> Z.of_nat (length fs) < stacksize e ->
  Z.of_nat (length fs) < B31 -> is_state s -> 0 <= ef <= 3 -> int_of (curr_char e) = x -> (lval e, symb_start e, symb_end e) = t ->
  rel (MkRegs s (Z.of_nat (length fs)) ef) (set_cell (Z.of_nat (length fs)) s v b n e) (MkConfig (Frame s (v, b, n) :: fs) s x t ef l).
Proof.
  intros E Hst Hsz Hd Hs Hef Hx Ht. destruct (set_cell_lookup e (Z.of_nat (length fs)) s v b n E ltac:(lia)) as (E' & Hc & Hss & Hsame).
  constructor; [done|now constructor| |].
  - unfold registers. cbn [frames cur_state err length]. split; [f_equal; lia|]. split; [lia|]. split; [lia|]. done.
  - cbn [frames r_sp stacked f_state f_attr]. split; [lia|]. split; [exact Hc|]. split; [exists s; split; [exact Hss|now apply state_id]|].
    exact (stacked_same _ _ _ _ Hsame Hst).
Qed.

(** The stacks have room for the cell [d], perhaps after they have grown. *)
Lemma room (d s ef : Z) (o : output) (cmd : command V) (l : label) e b :
  serve unit_ actions lexer o (save (MkRegs s d ef) e) b = Some (inr (cmd, grow_stacks unit_ (save (MkRegs s d ef) e), b)) ->
  (forall e, enter unit_ tables cmd e = Some (l, restore e, e)) ->
  env_ok e -> 0 <= d <= stacksize e -> d < B31 -> is_state s -> 0 <= ef <= 3 ->
  forall x, move x = (if d <? u64 (stacksize e) then Some (inr (l, MkRegs s d ef, e, b))
                      else match serve unit_ actions lexer o (save (MkRegs s d ef) e) b with
                           | None => None
                           | Some (inl res) => Some (inl res)
                           | Some (inr (cmd, e, b)) => match enter unit_ tables cmd e with Some (l, r, e) => Some (inr (l, r, e, b)) | None => None end
                           end) ->
  exists e', leads x (l, MkRegs s d ef, e', b) /\ env_ok e' /\ d < stacksize e' /\ same_cells e e' (stacksize e - 1) /\
    curr_char e' = curr_char e /\ (lval e', symb_start e', symb_end e') = (lval e, symb_start e, symb_end e) /\
    asp e' = asp e /\ rule_len e' = rule_len e /\ rule_number e' = rule_number e.
Proof.
  intros Hserve Henter E Hd Hb Hs Hef x Hx. pose proof (eo_size e E) as Hsz. rewrite u64_id in Hx by (unfold isu64; lia).
  destruct (Z.ltb_spec d (stacksize e)) as [Hlt|Hge].
  - exists e. split; [now apply leads_move|]. done.
  - rewrite Hserve, Henter in Hx. pose proof (save_ok (MkRegs s d ef) e E) as Es.
    destruct (grow_stacks_ok (save (MkRegs s d ef) e) Es) as (E' & Hsz' & Hsame); [cbn [stacksize save SAVE]; lia|].
    assert (Er : restore (grow_stacks unit_ (save (MkRegs s d ef) e)) = MkRegs s d ef) by (exact (restore_save s d ef e Hs ltac:(lia) Hef)).
    rewrite Er in Hx. eexists. split; [apply leads_move, Hx|]. split; [exact E'|]. split; [rewrite Hsz'; cbn [stacksize save SAVE]; lia|].
    split; [exact (same_cells_trans _ _ _ _ (save_cells _ _ _) Hsame)|]. done.
Qed.

Lemma sim_shift n2 fs s0 ef e b x t : env_ok e -> stacked e (Z.of_nat (length fs) - 1) fs -> (0 < length fs)%nat -> Z.of_nat (length fs) < B31 ->
  0 <= ef <= 3 -> int_of (curr_char e) = x -> (lval e, symb_start e, symb_end e) = t ->
  let s := Short (table tables) n2 in
  exists r' e', leads (L_shift_recover n2, MkRegs s0 (Z.of_nat (length fs) - 1) ef, e, b) (L_loop, r', e', b) /\
    rel r' e' (MkConfig (Frame s t :: fs) s x t ef b).
Proof.
  intros E Hst Hn Hd Hef Hx Ht s. pose proof (stacked_bound _ _ _ E Hn Hst) as Hb. assert (Hs : is_state s) by now apply Short_range.
  destruct (room (Z.of_nat (length fs)) s ef GROW_STACKS_1 STACKS_GROWN_1 L_push e b eq_refl (fun _ => eq_refl) E ltac:(lia) Hd Hs Hef
    (L_shift_recover n2, MkRegs s0 (Z.of_nat (length fs) - 1) ef, e, b)) as (e' & Hl & E' & Hd' & Hsame & Ec & Et & _).
  { cbn [move step r_sp r_errflag]. replace (Z.of_nat (length fs) - 1 + 1) with (Z.of_nat (length fs)) by lia.
    rewrite (u64_id (Z.of_nat (length fs))) by (unfold isu64; lia). fold s. now destruct (_ <? u64 (stacksize e)). }
  eexists _, _. split.
  - apply (leads_trans _ _ _ Hl). apply leads_move. cbn [move step r_sp]. rewrite (in_stack_ok e') by (done || lia). done.
  - cbn [r_sp r_state]. rewrite <- Ht. injection Et as E1 E2 E3. rewrite E1, E2, E3. apply put_frame; [done| |done..|congruence|congruence].
    apply (stacked_same e); [|done]. apply (same_cells_le _ _ (stacksize e - 1)); [lia|done].
Qed.

Lemma push_defined s a fs x ef c : push s a fs x ef c <> Stuck -> Z.of_nat (length fs) < B31.
Proof. unfold push. destruct (Z.ltb_spec (Z.of_nat (length fs)) B31) as [Hlt|]; [exact (fun _ => Hlt)|now intros []]. Qed.

(** What it takes to reduce by the rule [n]. *)
Lemma lr_reduce_defined n c : lr_reduce n c <> Stuck ->
  let m := Short (len tables) n in
  exists f rest, 0 <= m /\ drop (Z.to_nat m) (frames c) = f :: rest /\ Z.of_nat (length (f :: rest)) <= Z.of_nat (length (frames c)) /\
    (Z.of_nat (length (frames c)) <= B31 -> Z.of_nat (length (f :: rest)) < B31).
Proof.
  assert (Hsub : forall a b k : nat, 0 < Z.of_nat k -> a = (b - k)%nat -> (0 < a)%nat -> Z.of_nat b <= B31 -> Z.of_nat a < B31) by (intros; lia).
  assert (Hle : forall a b k : nat, a = (b - k)%nat -> Z.of_nat b < B31 -> Z.of_nat a < B31) by (intros; lia).
  intros H m. unfold lr_reduce in H. fold m in H. clearbody m. destruct (frames c) as [|top fs] eqn:Ef; [done|].
  destruct (drop (Z.to_nat m) (top :: fs)) as [|f rest] eqn:Ed; [done|]. destruct (Z.ltb_spec m 0) as [|Hm]; [done|].
  assert (Hl : length (f :: rest) = (length (top :: fs) - Z.to_nat m)%nat) by (rewrite <- Ed; apply length_drop).
  exists f, rest. split; [done|]. split; [done|]. split; [lia|]. intros Hb.
  destruct (actions n _).
  - exact (push_defined _ _ _ _ _ _ H).
  - destruct (Z.eqb_spec m 0); [now destruct H|]. apply (Hsub _ _ (Z.to_nat m) ltac:(lia) Hl (Nat.lt_0_succ _) Hb).
  - destruct (Z.ltb_spec (Z.of_nat (length (top :: fs))) B31) as [Hlt|]; [exact (Hle _ _ _ Hl Hlt)|now destruct H].
Qed.

(** Up to the request for the semantic action. *)
Lemma sim_goto n c r e : rel r e c -> lr_reduce n c <> Stuck ->
  let m := Short (len tables) n in
  let below := drop (Z.to_nat m) (frames c) in
  exists f rest e', below = f :: rest /\ 0 <= m /\ Z.of_nat (length below) < B31 /\
    let s := goto_of (Short (lhs tables) n) (f_state f) in
    leads (L_reduce n, r, e, input c) (L_semantic_action, MkRegs s (Z.of_nat (length below)) (err c), e', input c) /\
    env_ok e' /\ Z.of_nat (length below) < stacksize e' /\ stacked e' (Z.of_nat (length (frames c)) - 1) (frames c) /\ same_token e' c /\
    asp e' = Z.of_nat (length (frames c)) - 1 /\ rule_len e' = m /\ rule_number e' = n.
Proof.
  intros [E [T1 T2] (-> & Hn & Hb & Hs & Hef) Hst] Hdef m below. destruct (lr_reduce_defined n c Hdef) as (f & rest & Hm & Ed & Hl & Hd). fold m in Hm, Ed. fold below in Ed.
  specialize (Hd Hb). rewrite <- Ed in Hl, Hd. cbn [r_sp] in Hst. pose proof (stacked_bound _ _ _ E Hn Hst) as Hsp.
  assert (H0 : (0 < length below)%nat) by (rewrite Ed; cbn [length]; lia).
  assert (Hlen : Z.of_nat (length below) = Z.of_nat (length (frames c)) - m) by (assert (length below = length (frames c) - Z.to_nat m)%nat by apply length_drop; lia).
  set (s := goto_of (Short (lhs tables) n) (f_state f)).
  pose proof (stacked_drop e (Z.to_nat m) _ _ Hst ltac:(lia)) as Hdrop. fold below in Hdrop. rewrite Ed in Hdrop. pose proof Hdrop as (_ & _ & (x & Hx & Ex) & _).
  set (e1 := set_rule (Z.of_nat (length (frames c)) - 1) n m e).
  destruct (room (Z.of_nat (length below)) s (err c) GROW_STACKS_2 STACKS_GROWN_2 L_semantic_action e1 (input c) eq_refl (fun _ => eq_refl) (set_rule_ok _ _ _ _ E)
    ltac:(cbn [stacksize e1 set_rule]; lia) Hd (goto_of_state _ _) Hef (L_reduce n, MkRegs (cur_state c) (Z.of_nat (length (frames c)) - 1) (err c), e, input c))
    as (e' & Hlead & E' & Hd' & Hsame & Ec & Et & Ea & Erl & Ern).
  { cbn [move step r_sp r_errflag]. fold m e1.
    replace (u64 (Z.of_nat (length (frames c)) - 1 - m + 1)) with (Z.of_nat (length below)) by (rewrite Hlen, u64_id; unfold isu64; lia).
    replace (u64 (Z.of_nat (length below) - 1)) with (Z.of_nat (length (frames c)) - 1 - Z.of_nat (Z.to_nat m)) by (rewrite u64_id; unfold isu64; lia).
    change (s_stack e1) with (s_stack e). rewrite Hx, Ex. fold (goto_of (Short (lhs tables) n) (f_state f)). fold s. now destruct (_ <? u64 (stacksize e1)). }
  exists f, rest, e'. split; [done|]. split; [done|]. split; [done|]. split; [exact Hlead|]. split; [done|]. split; [done|].
  split; [apply (stacked_same e); [|done]; apply (same_cells_le _ _ (stacksize e - 1)); [lia|exact Hsame]|].
  split; [constructor; [now rewrite Ec|now rewrite Et]|]. rewrite Ea, Erl, Ern. cbn [asp rule_len rule_number e1 set_rule]. split; [|done]. apply s64_id. unfold iss64. lia.
Qed.

Definition lab (k : control) : label := match k with At_loop => L_loop | At_token => L_testshift | At_recover => L_recover end.

(** From the machine [x], the next position of the automaton. *)
Definition simulates (x : machine) (o : lr_next) : Prop :=
  match o with
  | Next k c => exists r e, leads x (lab k, r, e, input c) /\ rel r e c
  | Final res => exists n, moves n x = Some res
  | Stuck => True
  end.

Lemma simulates_step x y o : move x = Some (inr y) -> simulates y o -> simulates x o.
Proof.
  intros E. destruct o as [k c|res|]; cbn [simulates]; [|intros [n H]; exists (S n); cbn [moves]; now rewrite E|done].
  intros (r & e & H & Hr). exists r, e. split; [|done]. now apply (leads_by _ y).
Qed.
Lemma simulates_leads x y o : leads x y -> simulates y o -> simulates x o.
Proof.
  intros H. destruct o as [k c|res|]; cbn [simulates]; [|intros [n Hn]; destruct H as (n0 & _ & H); exists (n0 + n)%nat; now rewrite H|done].
  intros (r & e & H' & Hr). exists r, e. split; [|done]. now apply (leads_trans _ y).
Qed.

(** The result of an action goes to its cell. *)
Lemma put_result_ok c e s ef v below : env_ok e -> stacked e (Z.of_nat (length (frames c)) - 1) (frames c) -> asp e = Z.of_nat (length (frames c)) - 1 ->
  Z.of_nat (length (frames c)) <= B31 -> forall k top fs0, frames c = top :: fs0 -> below = drop k (frames c) -> (0 < length below)%nat ->
  Z.of_nat (length below) < stacksize e ->
  let b := match map f_attr (rev (take k (frames c))) with a :: _ => sym_start a | [] => sym_end (f_attr top) end in
  put_result (MkRegs s (Z.of_nat (length below)) ef) v e = Some (set_cell (Z.of_nat (length below)) s v b (sym_end (f_attr top)) e).
Proof.
  intros E Hst Ea Hb k top fs0 Ef Ebel Hbel Hsz b. assert (Hpos : 1 <= Z.of_nat (length (frames c))) by (rewrite Ef; cbn [length]; lia).
  unfold put_result. cbn [r_sp r_state]. rewrite Ea. unfold int_of. rewrite s32_id by (unfold iss32; lia). rewrite u64_id by (unfold isu64; lia).
  assert (Hl : (length below = length (frames c) - k)%nat) by (rewrite Ebel; apply length_drop).
  pose proof Hst as Htop. rewrite Ef in Htop. cbn [stacked] in Htop. destruct Htop as (_ & Hct & _ & _). rewrite <- Ef in Hct.
  unfold cell in Hct. rewrite (proj2 (Z.ltb_ge (Z.of_nat (length (frames c)) - 1) 0)) in Hct by lia.
  destruct (v_stack e !! _) as [vt|]; [|done]. destruct (symb_start_stack e !! Z.to_nat (Z.of_nat (length (frames c)) - 1)) as [bt|]; [|done].
  destruct (symb_end_stack e !! _) as [nt|]; [|done]. injection Hct as Et. rewrite <- Et in *. cbn [sym_end snd] in *.
  destruct (lookup_lt_is_Some_2 (symb_start_stack e) (Z.to_nat (Z.of_nat (length below)))) as [b0 Hb0]; [pose proof (eo_start e E); lia|]. rewrite Hb0.
  rewrite (in_stack_ok e) by (done || lia). do 2 f_equal. subst b. destruct k as [|k].
  - rewrite (proj2 (Z.ltb_lt _ _)) by lia. rewrite take_0. cbn [rev map]. now rewrite <- Et.
  - rewrite (proj2 (Z.ltb_ge _ _)) by lia. destruct (lookup_lt_is_Some_2 (frames c) k ltac:(lia)) as [g Hg].
    rewrite (take_S_r _ _ _ Hg), rev_app_distr. cbn [rev app map].
    pose proof (stacked_drop e k _ _ Hst ltac:(lia)) as Hd. rewrite (drop_S _ _ _ Hg) in Hd. destruct Hd as (Hd0 & Hcg & _).
    replace (Z.of_nat (length (frames c)) - 1 - Z.of_nat k) with (Z.of_nat (length below)) in * by lia.
    unfold cell in Hcg. rewrite (proj2 (Z.ltb_ge _ _)) in Hcg by lia. rewrite Hb0 in Hcg. destruct (v_stack e !! _); [|done]. destruct (symb_end_stack e !! _); [|done].
    injection Hcg as Eg. now rewrite <- Eg.
Qed.

Lemma sim_reduce n c r e : rel r e c -> simulates (L_reduce n, r, e, input c) (lr_reduce n c).
Proof.
  intros R. assert (Hdec : lr_reduce n c = Stuck \/ lr_reduce n c <> Stuck) by (destruct (lr_reduce n c); [right; done|right; done|now left]).
  destruct Hdec as [-> |Hdef]; [done|].
  destruct (sim_goto n c r e R Hdef) as (f & rest & e' & Ed & Hm & Hd & Hlead & E & Hsz & Hst & [T1 T2] & Ea & Erl & Ern).
  apply (simulates_leads _ _ _ Hlead). clear Hlead. destruct R as [_ _ (_ & Hn & Hb & Hs & Hef) _]. unfold lr_reduce in *.
  set (m := Short (len tables) n) in *. set (s := goto_of (Short (lhs tables) n) (f_state f)) in *.
  destruct (frames c) as [|top fs0] eqn:Ef; [cbn [length] in Hn; lia|]. set (fs := top :: fs0) in *. rewrite Ed in Hdef |- *.
  rewrite (proj2 (Z.ltb_ge m 0)) in Hdef |- * by done. fold s in Hdef |- *.
  assert (Hlen : (0 < length (drop (Z.to_nat m) fs))%nat) by (rewrite Ed; cbn [length]; lia).
  assert (Hk : (Z.to_nat m <= length fs)%nat) by (rewrite length_drop in Hlen; lia).
  set (d := drop (Z.to_nat m) fs) in *. set (r1 := MkRegs s (Z.of_nat (length d)) (err c)) in *.
  assert (Er : restore (save r1 e') = r1) by (apply restore_save; [apply goto_of_state|lia|done]).
  assert (Harg : arguments (save r1 e') = Some (map f_attr (rev (take (Z.to_nat m) fs)))).
  { unfold arguments. cbn [rule_len asp save SAVE]. rewrite Erl, Ea. apply stacked_attributes; [|done]. exact (stacked_same _ _ _ _ (save_cells _ _ _) Hst). }
  assert (Hmove : move (L_semantic_action, r1, e', input c) =
    match serve unit_ actions lexer COMPUTE_SEMANTIC_ACTION (save r1 e') (input c) with
    | None => None
    | Some (inl res) => Some (inl res)
    | Some (inr (cmd, e, b)) => match enter unit_ tables cmd e with Some (l, r, e) => Some (inr (l, r, e, b)) | None => None end
    end) by done.
  cbn [serve] in Hmove. change (rule_number (save r1 e')) with (rule_number e') in Hmove.
  rewrite Harg, Ern in Hmove. destruct (actions n (map f_attr (rev (take (Z.to_nat m) fs)))) as [v| |v].
  - cbn [enter] in Hmove. rewrite Er in Hmove. 
    pose proof (save_ok r1 e' E) as E2. assert (Hst2 : stacked (save r1 e') (Z.of_nat (length fs) - 1) fs) by (exact (stacked_same _ _ _ _ (save_cells _ _ _) Hst)).
    assert (Hput := put_result_ok c (save r1 e') s (err c) v d E2). rewrite Ef in Hput. specialize (Hput Hst2 Ea Hb (Z.to_nat m) top fs0 eq_refl eq_refl Hlen Hsz).
    cbn zeta in Hput. fold r1 in Hput. rewrite Hput in Hmove. pose proof (push_defined _ _ _ _ _ _ Hdef) as Hd'. unfold push.
    rewrite (proj2 (Z.ltb_lt _ _)) by exact Hd'. rewrite <- Ed. fold r1. eexists _, _. split; [apply leads_move, Hmove|].
    apply put_frame; [done| |done|done|apply goto_of_state|done|exact T1|exact T2].
    pose proof (stacked_drop (save r1 e') (Z.to_nat m) _ _ Hst2 Hk) as Hdrop. fold d in Hdrop.
    replace (Z.of_nat (length d) - 1) with (Z.of_nat (length fs) - 1 - Z.of_nat (Z.to_nat m)); [exact Hdrop|]. unfold d. rewrite length_drop. clear -Hk. lia.
  - destruct (Z.eqb_spec m 0) as [|Hm0]; [done|]. cbn [enter] in Hmove. rewrite Er in Hmove. rewrite <- Ed. fold r1. eexists _, _. split; [apply leads_move, Hmove|].
    assert (Hl1 : length (drop (Z.to_nat m - 1) fs) = S (length d)) by (unfold d; rewrite !length_drop; clear -Hk Hlen Hm Hm0; lia).
    constructor; [now apply save_ok|now constructor| |].
    + unfold registers. cbn [frames cur_state err]. rewrite Hl1. split; [unfold r1; f_equal; lia|]. split; [lia|]. split; [lia|]. split; [apply goto_of_state|done].
    + cbn [frames r_sp r1]. apply (stacked_same _ _ _ _ (save_cells _ _ _)).
      pose proof (stacked_drop e' (Z.to_nat m - 1) _ _ Hst ltac:(lia)) as Hdrop.
      replace (Z.of_nat (length d)) with (Z.of_nat (length fs) - 1 - Z.of_nat (Z.to_nat m - 1)); [exact Hdrop|]. unfold d. rewrite length_drop. clear -Hk Hm Hm0. lia.
  - rewrite <- Ed. fold r1. destruct (_ <? B31); [|done]. exists 1%nat. cbn [moves]. now rewrite Hmove.
Qed.

(** The states discarded. *)
Lemma sim_discard fs : forall s e b, env_ok e -> stacked e (Z.of_nat (length fs) - 1) fs -> (0 < length fs)%nat -> Z.of_nat (length fs) <= B31 ->
  match lr_discard fs with
  | Some (x, fs') => exists n2, x = Short (table tables) n2 /\ stacked e (Z.of_nat (length fs') - 1) fs' /\ (0 < length fs' <= length fs)%nat /\
      leads (L_discard, MkRegs s (Z.of_nat (length fs) - 1) 3, e, b) (L_shift_recover n2, MkRegs s (Z.of_nat (length fs') - 1) 3, e, b)
  | None => exists n, moves n (L_discard, MkRegs s (Z.of_nat (length fs) - 1) 3, e, b) = Some Parse_error
  end.
Proof.
  induction fs as [|f fs IH]; intros s e b E Hst Hn Hb; [cbn [length] in Hn; lia|]. pose proof Hst as (_ & _ & (x & Hx & Ex) & Hst').
  cbn [lr_discard]. unfold shift_of.
  assert (Hm : move (L_discard, MkRegs s (Z.of_nat (length (f :: fs)) - 1) 3, e, b) =
    match entry tables (sindex tables) (f_state f) ERRCODE with
    | Some n2 => Some (inr (L_shift_recover n2, MkRegs s (Z.of_nat (length (f :: fs)) - 1) 3, e, b))
    | None => if Z.of_nat (length fs) <=? base then Some (inl Parse_error) else Some (inr (L_discard, MkRegs s (Z.of_nat (length fs) - 1) 3, e, b))
    end).
  { cbn [move step r_sp r_state r_errflag]. rewrite Hx, Ex. destruct (entry _ _ _ _) as [n2|]; [done|]. rewrite (eo_base e E).
    pose proof (eo_base_nonneg e E) as Hb0. pose proof (s32_range (stackbase e)) as Hr. fold (int_of (stackbase e)) in Hr. rewrite (eo_base e E) in Hr.
    rewrite (u64_id base) by (unfold isu64; unfold iss32 in Hr; lia).
    replace (Z.of_nat (length (f :: fs)) - 1) with (Z.of_nat (length fs)) by (cbn [length]; lia). destruct (Z.leb_spec (Z.of_nat (length fs)) base); [done|].
    rewrite u64_id; [done|]. unfold isu64. cbn [length] in Hb. lia. }
  destruct (entry tables (sindex tables) (f_state f) ERRCODE) as [n2|]; cbn [option_map].
  - exists n2. split; [done|]. split; [exact Hst|]. split; [lia|]. now apply leads_move.
  - destruct (Z.leb_spec (Z.of_nat (length fs)) base) as [Hle|Hgt].
    + exists 1%nat. cbn [moves]. now rewrite Hm.
    + cbn [length] in Hst', Hb. replace (Z.of_nat (S (length fs)) - 1 - 1) with (Z.of_nat (length fs) - 1) in Hst' by lia.
      specialize (IH s e b E Hst' ltac:(pose proof (eo_base_nonneg e E); lia) ltac:(lia)). destruct (lr_discard fs) as [[y fs']|].
      * destruct IH as (n2 & Hy & H1 & H2 & H3). exists n2. split; [done|]. split; [done|]. split; [cbn [length]; lia|]. now apply (leads_by _ _ _ Hm).
      * destruct IH as [n Hn']. exists (S n). cbn [moves]. now rewrite Hm.
Qed.

Lemma rel_frames' r e c : rel r e c -> stacked e (Z.of_nat (length (frames c)) - 1) (frames c).
Proof. intros R. destruct (rel_regs r e c R) as (Er & _). pose proof (rel_frames r e c R) as H. now rewrite Er in H. Qed.

(** A shift from the frames [fs]. *)
Lemma sim_push n2 fs s0 ef e b x c : env_ok e -> stacked e (Z.of_nat (length fs) - 1) fs -> (0 < length fs)%nat -> 0 <= ef <= 3 ->
  int_of (curr_char e) = x -> (lval e, symb_start e, symb_end e) = tok c -> b = input c ->
  simulates (L_shift_recover n2, MkRegs s0 (Z.of_nat (length fs) - 1) ef, e, b) (push (Short (table tables) n2) (tok c) fs x ef c).
Proof.
  intros E Hst Hn Hef Hx Ht ->. unfold push. destruct (Z.ltb_spec (Z.of_nat (length fs)) B31) as [Hd|]; [|done].
  exact (sim_shift n2 fs s0 ef e (input c) x (tok c) E Hst Hn Hd Hef Hx Ht).
Qed.

Lemma sim_token r e c : rel r e c -> simulates (L_testshift, r, e, input c) (lr_step At_token c).
Proof.
  intros R. pose proof (rel_frames' _ _ _ R) as Hst. pose proof R as [E [T1 T2] (Er & Hn & Hb & Hs & Hef) _]. cbn [lr_step]. unfold shift_of, reduce_of.
  assert (Hm : move (L_testshift, r, e, input c) =
    match entry tables (sindex tables) (cur_state c) (cur c) with
    | Some n2 => Some (inr (L_shift n2, r, e, input c))
    | None =>
        match entry tables (rindex tables) (cur_state c) (cur c) with
        | Some n2 => Some (inr (L_reduce (Short (table tables) n2), r, e, input c))
        | None => if 0 <? err c then Some (inr (L_recover, r, e, input c)) else Some (inr (L_recover, r, save r e, input c))
        end
    end).
  { rewrite Er. cbn [move step r_state r_errflag]. rewrite T1. do 2 (destruct (entry _ _ _ _); [done|]). destruct (0 <? err c); [done|].
    cbn [serve enter]. now rewrite restore_save by (done || lia). }
  destruct (entry tables (sindex tables) (cur_state c) (cur c)) as [n2|]; cbn [option_map].
  - apply (simulates_step _ _ _ Hm).
    assert (Hm2 : move (L_shift n2, r, e, input c) =
      Some (inr (L_shift_recover n2, MkRegs (cur_state c) (Z.of_nat (length (frames c)) - 1) (if 0 <? err c then err c - 1 else err c), set_curr_char (-1) e, input c))) by (now rewrite Er).
    apply (simulates_step _ _ _ Hm2). apply sim_push; [destruct E; now constructor| |done|destruct (Z.ltb_spec 0 (err c)); lia|done|exact T2|done].
    exact (stacked_same _ _ _ _ (cell_stack e (set_curr_char (-1) e) _ eq_refl eq_refl eq_refl eq_refl) Hst).
  - destruct (entry tables (rindex tables) (cur_state c) (cur c)) as [n2|]; cbn [option_map].
    + apply (simulates_step _ _ _ Hm). now apply sim_reduce.
    + destruct (0 <? err c); [exists r, e|exists r, (save r e)]; (split; [now apply leads_move|done || idtac]).
      constructor; [now apply save_ok|now constructor|now rewrite Er|]. rewrite Er. exact (stacked_same _ _ _ _ (save_cells _ _ _) Hst).
Qed.

Lemma sim_recover r e c : rel r e c -> simulates (L_recover, r, e, input c) (lr_step At_recover c).
Proof.
  intros R. pose proof (rel_frames' _ _ _ R) as Hst. pose proof R as [E [T1 T2] (Er & Hn & Hb & Hs & Hef) _]. cbn [lr_step].
  destruct (err c <? 3) eqn:Ee.
  - assert (Hm : move (L_recover, r, e, input c) = Some (inr (L_discard, MkRegs (cur_state c) (Z.of_nat (length (frames c)) - 1) 3, e, input c))).
    { rewrite Er. cbn [move step r_errflag r_state r_sp]. now rewrite Ee. }
    apply (simulates_step _ _ _ Hm). pose proof (sim_discard (frames c) (cur_state c) e (input c) E Hst Hn Hb) as Hd.
    destruct (lr_discard (frames c)) as [[x fs']|]; [|exact Hd]. destruct Hd as (n2 & -> & H1 & H2 & H3). apply (simulates_leads _ _ _ H3).
    apply sim_push; [done|done|lia|lia|done|done|done].
  - destruct (cur c =? 0) eqn:Ec.
    + exists 1%nat. rewrite Er. cbn [moves move step r_errflag]. now rewrite Ee, T1, Ec.
    + exists r, (set_curr_char (-1) e). split.
      * apply leads_move. rewrite Er at 1. cbn [move step r_errflag]. now rewrite Ee, T1, Ec, Er.
      * constructor; [destruct E; now constructor|now constructor|now rewrite Er|]. rewrite Er.
        exact (stacked_same _ _ _ _ (cell_stack e (set_curr_char (-1) e) _ eq_refl eq_refl eq_refl eq_refl) Hst).
Qed.

Lemma sim_loop r e c : rel r e c -> simulates (L_loop, r, e, input c) (lr_step At_loop c).
Proof.
  intros R. pose proof (rel_frames' _ _ _ R) as Hst. pose proof R as [E [T1 T2] (Er & Hn & Hb & Hs & Hef) _]. cbn [lr_step].
  destruct (negb (Short (defred tables) (cur_state c) =? 0)) eqn:Ed.
  - apply (simulates_step _ (L_reduce (Short (defred tables) (cur_state c)), r, e, input c)); [|now apply sim_reduce]. rewrite Er. cbn [move step r_state]. now rewrite Ed.
  - destruct (0 <=? cur c) eqn:Ec.
    + exists r, e. split; [|done]. apply leads_move. rewrite Er. cbn [move step r_state]. now rewrite Ed, T1, Ec.
    + destruct (lexer (input c)) as [[[t b] n] l] eqn:El. 
      assert (Hm : forall x v, token_code t = Some (x, v) ->
        move (L_loop, r, e, input c) = Some (inr (L_testshift, r, set_token x v (set_symb b n (save r e)), l))).
      { intros x v Ht. assert (Hr : restore (set_symb b n (save r e)) = r) by (rewrite Er; apply restore_save; done || lia).
        rewrite Er at 1. cbn [move step r_state]. rewrite Ed, T1, Ec. cbn [serve]. rewrite El, <- Er. cbn [enter]. unfold token_code in Ht.
        destruct t as [k|tag w]; [destruct (transl_const tables !! Z.to_nat (int_of k)) as [y|]|destruct (transl_block tables !! Z.to_nat tag) as [y|]];
          cbn [option_map] in Ht; [|done| |done]; injection Ht as <- <-; now rewrite Hr. }
      destruct (token_code t) as [[x v]|] eqn:Et; [|done]. specialize (Hm x v eq_refl). exists r, (set_token x v (set_symb b n (save r e))).
      split; [now apply leads_move|]. constructor; [destruct E; now constructor|now constructor|now rewrite Er|]. rewrite Er.
      refine (stacked_same e _ _ _ (cell_stack e _ _ _ _ _ _) Hst); done.
Qed.

Lemma sim_step k r e c : rel r e c -> simulates (lab k, r, e, input c) (lr_step k c).
Proof. destruct k; [apply sim_loop|apply sim_token|apply sim_recover]. Qed.

(** A run of the automaton is a run of the machine, and the converse. *)
Lemma run_forward n : forall k r e c res, rel r e c -> lr_run n k c = Finished res -> exists n', moves n' (lab k, r, e, input c) = Some res.
Proof.
  induction n as [|n IH]; intros k r e c res R H; cbn [lr_run] in H; [done|]. pose proof (sim_step k r e c R) as Hs.
  destruct (lr_step k c) as [k' c'|res'|]; [|injection H as ->; exact Hs|done]. destruct Hs as (r' & e' & (n0 & _ & Hl) & R').
  destruct (IH k' r' e' c' res R' H) as [n' Hn']. exists (n0 + n')%nat. now rewrite Hl.
Qed.

Lemma moves_more n x r : moves n x = Some r -> forall n', (n <= n')%nat -> moves n' x = Some r.
Proof.
  revert x. induction n as [|n IH]; intros x H n' Hn; cbn [moves] in H; [done|]. destruct n' as [|n']; [lia|]. cbn [moves].
  destruct (move x) as [[?|y]|]; [done| |done]. apply IH; [done|lia].
Qed.

Lemma run_backward n : forall k r e c res, rel r e c -> moves n (lab k, r, e, input c) = Some res ->
  exists m, lr_run m k c = Finished res \/ lr_run m k c = Stopped.
Proof.
  induction n as [n IH] using lt_wf_ind. intros k r e c res R H. pose proof (sim_step k r e c R) as Hs.
  destruct (lr_step k c) as [k' c'|res'|] eqn:El.
  - destruct Hs as (r' & e' & (n0 & Hn0 & Hl) & R'). destruct (le_lt_dec n n0) as [Hle|Hlt].
    + pose proof (moves_more _ _ _ H (n0 + 0) ltac:(lia)) as H2. now rewrite Hl in H2.
    + replace n with (n0 + (n - n0))%nat in H by lia. rewrite Hl in H. destruct (IH (n - n0)%nat ltac:(lia) k' r' e' c' res R' H) as [m Hm].
      exists (S m). cbn [lr_run]. now rewrite El.
  - destruct Hs as [n' Hn']. exists 1%nat. left. cbn [lr_run]. rewrite El. f_equal.
    pose proof (moves_more _ _ _ H (Nat.max n n') ltac:(lia)) as H1. pose proof (moves_more _ _ _ Hn' (Nat.max n n') ltac:(lia)) as H2. congruence.
  - exists 1%nat. right. cbn [lr_run]. now rewrite El.
Qed.

(** ** The calls of the engine *)

(** Moves that suffice to the next request. *)
Definition weight (l : label) (r : regs) (e : parser_env V) : nat :=
  let d := Z.to_nat (r_sp r) in
  let high := 3 <=? r_errflag r in
  let at_loop d := if int_of (curr_char e) <? 0 then 3%nat else if high then 8%nat else (14 + d)%nat in
  match l with
  | L_semantic_action => 1
  | L_reduce _ => 2
  | L_loop => at_loop d
  | L_push => S (at_loop d)
  | L_shift_recover _ => S (S (at_loop (S d)))
  | L_shift _ => 6
  | L_discard => (11 + d)%nat
  | L_recover => if high then 4%nat else (12 + d)%nat
  | L_testshift => if high then 7%nat else (13 + d)%nat
  end.
Definition weighed (l : label) (r : regs) : Prop := 0 <= r_sp r /\ match l with L_discard => r_errflag r = 3 | _ => True end.

Lemma weight_bound l r e : (weight l r e <= turns r)%nat.
Proof.
  unfold weight, turns. destruct l; repeat (case (_ <? 0)); repeat (case (3 <=? _)); lia.
Qed.

Lemma minus_one : (int_of (-1) <? 0) = true.
Proof. reflexivity. Qed.

Lemma u64_le x : 0 <= x -> 0 <= u64 x <= x.
Proof. intros H. unfold u64. pose proof (Z.mod_pos_bound x B64 eq_refl). pose proof (Z.mod_le x B64 H eq_refl). lia. Qed.

(** Every move to another place lowers the weight. *)
Lemma weight_step l r e l' r' e' : weighed l r -> step tables l r e = Some (Goto l' r' e') -> weighed l' r' /\ (weight l' r' e' < weight l r e)%nat.
Proof.
  intros [H0 Hw] H. destruct l; cbn [step] in H.
  - destruct (negb _); [injection H as <- <- <-; split; [done|]; cbn [weight]; repeat (case (_ <? 0) || case (3 <=? _)); lia|].
    destruct (Z.leb_spec 0 (int_of (curr_char e))) as [Hc|]; [|done]. injection H as <- <- <-. split; [done|]. cbn [weight].
    rewrite (proj2 (Z.ltb_ge _ _)) by done. case (3 <=? _); lia.
  - repeat destruct (entry _ _ _ _); [injection H as <- <- <-; split; [done|]; cbn [weight]; case (3 <=? _); lia..|].
    destruct (_ <? _); [|done]. injection H as <- <- <-. split; [done|]. cbn [weight]. case (3 <=? _); lia.
  - destruct (Z.ltb_spec (r_errflag r) 3) as [He|He].
    + injection H as <- <- <-. split; [done|]. cbn [weight r_sp]. rewrite (proj2 (Z.leb_gt _ _)) by done. lia.
    + destruct (_ =? 0); [done|]. injection H as <- <- <-. split; [done|]. cbn [weight curr_char set_curr_char]. rewrite minus_one. rewrite (proj2 (Z.leb_le _ _)) by done. lia.
  - destruct (s_stack e !! _); [|done]. destruct (entry _ _ _ _).
    + injection H as <- <- <-. split; [done|]. cbn [weight]. rewrite Hw. case (_ <? 0); cbn; lia.
    + destruct (Z.leb_spec (r_sp r) (u64 (int_of (stackbase e)))) as [|Hgt]; [done|]. injection H as <- <- <-.
      pose proof (u64_le (r_sp r - 1)) as Hu. assert (0 <= u64 (int_of (stackbase e))) by (apply Z.mod_pos_bound; done). specialize (Hu ltac:(lia)).
      split; [split; [cbn [r_sp]; lia|done]|]. cbn [weight r_sp]. lia.
  - injection H as <- <- <-. split; [done|]. cbn [weight curr_char set_curr_char]. rewrite minus_one. lia.
  - destruct (_ <? _); [|done]. injection H as <- <- <-. pose proof (u64_le (r_sp r + 1) ltac:(lia)). split; [split; [cbn [r_sp]; lia|done]|]. cbn [weight r_sp r_errflag].
    repeat (case (_ <? 0) || case (3 <=? _)); lia.
  - destruct (in_stack _ _); [|done]. injection H as <- <- <-. split; [done|]. cbn [weight curr_char set_cell]. lia.
  - destruct (s_stack _ !! _); [|done]. destruct (_ <? _); [|done]. injection H as <- <- <-. split; [split; [apply Z.mod_pos_bound; done|done]|]. cbn [weight]. lia.
  - done.
Qed.

Lemma enter_weighed cmd e l r e' : enter unit_ tables cmd e = Some (l, r, e') -> weighed l r.
Proof.
  assert (H : forall x, 0 <= u64 x) by (intros x; apply Z.mod_pos_bound; done).
  destruct cmd as [|[n|tag v]| | |v|]; cbn [enter].
  - intros [= <- <- _]. split; [apply H|done].
  - destruct (transl_const _ !! _); [|done]. intros [= <- <- _]. split; [apply H|done].
  - destruct (transl_block _ !! _); [|done]. intros [= <- <- _]. split; [apply H|done].
  - intros [= <- <- _]. split; [apply H|done].
  - intros [= <- <- _]. split; [apply H|done].
  - destruct (put_result _ _ _); [|done]. intros [= <- <- _]. split; [apply H|done].
  - intros [= <- <- _]. split; [apply H|done].
Qed.

(** From a request on. *)
Definition resume (n : nat) (x : option (output * parser_env V)) (b : L) : option (parse_result V) :=
  match x with
  | None => None
  | Some (o, e) =>
      match serve unit_ actions lexer o e b with
      | None => None
      | Some (inl r) => Some r
      | Some (inr (cmd, e, b)) => loop unit_ tables actions lexer n cmd e b
      end
  end.

Lemma loop_resume n cmd e b : loop unit_ tables actions lexer (S n) cmd e b = resume n (parse_engine unit_ tables cmd e) b.
Proof. cbn [loop resume]. destruct (parse_engine _ _ _ _) as [[o e']|]; [|done]. unfold resume. destruct (serve _ _ _ _ _ _) as [[?|[[? ?] ?]]|]; done. Qed.

Lemma resume_more n n' x b r : (n <= n')%nat -> resume n x b = Some r -> resume n' x b = Some r.
Proof.
  revert n' x b. induction n as [|n IH]; intros n' x b Hn H; destruct x as [[o e]|]; cbn [resume] in *; try done;
    destruct (serve _ _ _ _ _ _) as [[?|[[cmd e'] b']]|]; try done.
  destruct n' as [|n']; [lia|]. rewrite loop_resume in *. apply IH; [lia|done].
Qed.

(** The moves of the machine are those of the two loops. *)
Lemma moves_loop N : forall l r e b res, weighed l r -> moves N (l, r, e, b) = Some res ->
  forall f, (weight l r e <= f)%nat -> exists n, resume n (run tables f l r e) b = Some res.
Proof.
  induction N as [|N IH]; intros l r e b res Hw H f Hf; cbn [moves move] in H; [done|].
  destruct f as [|f]; [exfalso; unfold weight in Hf; destruct l; repeat (case (_ <? 0) in Hf || case (3 <=? _) in Hf); lia|]. cbn [run].
  destruct (step tables l r e) as [[l' r' e'|o e']|] eqn:Es; [| |done].
  - destruct (weight_step _ _ _ _ _ _ Hw Es) as [Hw' Hlt]. apply (IH l' r' e' b res Hw' H). lia.
  - destruct (serve unit_ actions lexer o e' b) as [[res'|[[cmd e2] b2]]|] eqn:Ev; [|destruct (enter unit_ tables cmd e2) as [[[l3 r3] e3]|] eqn:En; [|done]|done].
    + exists O. cbn [resume]. now rewrite Ev.
    + destruct (IH l3 r3 e3 b2 res (enter_weighed _ _ _ _ _ En) H (turns r3) (weight_bound _ _ _)) as [n Hn]. exists (S n). cbn [resume]. rewrite Ev, loop_resume.
      unfold parse_engine. now rewrite En.
Qed.

Lemma loop_moves n : forall f l r e b res, weighed l r -> resume n (run tables f l r e) b = Some res -> exists N, moves N (l, r, e, b) = Some res.
Proof.
  induction n as [|n IHn]; (induction f as [|f IHf]; intros l r e b res Hw H; cbn [run] in H; [done|];
    destruct (step tables l r e) as [[l' r' e'|o e']|] eqn:Es; [| |done];
    [destruct (IHf l' r' e' b res (proj1 (weight_step _ _ _ _ _ _ Hw Es)) H) as [N HN]; exists (S N); cbn [moves move]; now rewrite Es|]);
    cbn [resume] in H; destruct (serve unit_ actions lexer o e' b) as [[res'|[[cmd e2] b2]]|] eqn:Ev; try done.
  - exists 1%nat. cbn [moves move]. now rewrite Es, Ev.
  - exists 1%nat. cbn [moves move]. now rewrite Es, Ev.
  - rewrite loop_resume in H. unfold parse_engine in H. destruct (enter unit_ tables cmd e2) as [[[l3 r3] e3]|] eqn:En; [|done].
    destruct (IHn _ _ _ _ _ _ (enter_weighed _ _ _ _ _ En) H) as [N HN]. exists (S N). cbn [moves move]. now rewrite Es, Ev, En.
Qed.

(** ** From the environment of a call *)

(** The frames of the first [n] cells. *)
Fixpoint frames_below (n : nat) (e : parser_env V) : list frame :=
  match n with
  | O => []
  | S n =>
      match cell e (Z.of_nat n), s_stack e !! n with
      | Some a, Some s => Frame (int_of s) a :: frames_below n e
      | _, _ => []
      end
  end.

Lemma frames_below_stacked e n : env_ok e -> Z.of_nat n <= stacksize e ->
  stacked e (Z.of_nat n - 1) (frames_below n e) /\ length (frames_below n e) = n.
Proof.
  intros E. induction n as [|n IH]; intros Hn; cbn [frames_below]; [done|]. destruct (IH ltac:(lia)) as [IH1 IH2].
  destruct (lookup_lt_is_Some_2 (v_stack e) n) as [v Hv]; [pose proof (eo_v e E); lia|].
  destruct (lookup_lt_is_Some_2 (symb_start_stack e) n) as [b Hb]; [pose proof (eo_start e E); lia|].
  destruct (lookup_lt_is_Some_2 (symb_end_stack e) n) as [x Hx]; [pose proof (eo_end e E); lia|].
  destruct (lookup_lt_is_Some_2 (s_stack e) n) as [s Hs]; [pose proof (eo_s e E); lia|].
  assert (Hc : cell e (Z.of_nat n) = Some (v, b, x)) by (unfold cell; rewrite (proj2 (Z.ltb_ge _ _)) by lia; now rewrite Nat2Z.id, Hv, Hb, Hx).
  rewrite Hc, Hs. cbn [stacked length f_attr f_state]. replace (Z.of_nat (S n) - 1) with (Z.of_nat n) by lia. split; [|now rewrite IH2].
  split; [lia|]. split; [done|]. split; [|exact IH1]. exists s. now rewrite Nat2Z.id.
Qed.
End Automaton.

Section Calls.
Context {V : Type} (unit_ : V) (tables : parser_tables) {L : Type}.
Context (actions : Z -> list (attribute V) -> action_result V) (lexer : L -> token V * Z * Z * L).

(** A call of [yyparse], perhaps from the semantic action of another parse. *)
Record ready (e : parser_env V) : Prop := {
  re_s : Z.of_nat (length (s_stack e)) = stacksize e;
  re_v : Z.of_nat (length (v_stack e)) = stacksize e;
  re_start : Z.of_nat (length (symb_start_stack e)) = stacksize e;
  re_end : Z.of_nat (length (symb_end_stack e)) = stacksize e;
  re_size : stacksize e < B63;
  re_sp : 0 <= sp e < stacksize e /\ sp e + 1 < B31
}.

Definition first_config (start : Z) (e : parser_env V) (lexbuf : L) : config (V := V) (L := L) :=
  MkConfig (frames_below (S (Z.to_nat (sp e))) e) 0 (int_of start) (lval e, symb_start e, symb_end e) 0 lexbuf.

(** The automaton on a list. *)
Definition lr_parse (fuel : nat) (start : Z) (e : parser_env V) (lexbuf : L) : lr_result :=
  lr_run unit_ tables actions lexer (sp e + 1) fuel At_loop (first_config start e lexbuf).

Definition shorts (t : list Z) : Prop := Forall (fun b => 0 <= b < 256) t.

Lemma first_rel start e lexbuf : ready e ->
  rel (sp e + 1) (MkRegs 0 (sp e) 0) (set_base (sp e + 1) start e) (first_config start e lexbuf).
Proof.
  intros [H1 H2 H3 H4 H5 [H6 H7]].
  assert (E : env_ok (sp e + 1) (set_base (sp e + 1) start e)).
  { constructor; cbn [s_stack v_stack symb_start_stack symb_end_stack stacksize stackbase set_base]; try done; try lia. apply s32_id. unfold iss32. lia. }
  destruct (frames_below_stacked (sp e + 1) _ (S (Z.to_nat (sp e))) E ltac:(cbn [stacksize set_base]; lia)) as [Hst Hlen].
  change (frames_below (S (Z.to_nat (sp e))) (set_base (sp e + 1) start e)) with (frames_below (S (Z.to_nat (sp e))) (set_base (sp e + 1) start e)) in Hst.
  assert (Ef : forall n, frames_below n (set_base (sp e + 1) start e) = frames_below n e).
  { induction n as [|n IH]; [done|]. cbn [frames_below]. now rewrite IH. }
  rewrite Ef in Hst, Hlen. replace (Z.of_nat (S (Z.to_nat (sp e))) - 1) with (sp e) in Hst by lia.
  constructor; [exact E|done| |exact Hst]. unfold registers. cbn [frames cur_state err first_config]. rewrite Hlen.
  split; [f_equal; lia|]. split; [lia|]. split; [lia|]. split; [unfold is_state; lia|lia].
Qed.

Lemma yyparse_spec start e lexbuf :
  shorts (table tables) -> shorts (dgoto tables) -> ready e ->
  (forall n res, lr_parse n start e lexbuf = Finished res -> exists n', yyparse unit_ tables actions lexer n' start e lexbuf = Some res) /\
  (forall n res, yyparse unit_ tables actions lexer n start e lexbuf = Some res ->
    exists m, lr_parse m start e lexbuf = Finished res \/ lr_parse m start e lexbuf = Stopped).
Proof.
  intros Htab Hdg R. pose proof (first_rel start e lexbuf R) as Hrel. destruct R as [_ _ _ _ _ [H6 H7]].
  assert (Hent : enter unit_ tables START (set_base (sp e + 1) start e) = Some (L_loop, MkRegs 0 (sp e) 0, set_base (sp e + 1) start e)).
  { cbn [enter sp set_base]. unfold int_of. rewrite s32_id by (unfold iss32; lia). rewrite u64_id by (unfold isu64; lia). done. }
  assert (Hw : weighed L_loop (MkRegs 0 (sp e) 0)) by (split; [cbn [r_sp]; lia|done]).
  split; intros n res H.
  - destruct (run_forward unit_ tables actions lexer _ Htab Hdg n At_loop _ _ _ res Hrel H) as [N HN].
    destruct (moves_loop unit_ tables actions lexer N _ _ _ _ res Hw HN (turns (MkRegs 0 (sp e) 0)) (weight_bound _ _ _)) as [k Hk].
    exists (S k). unfold yyparse. rewrite loop_resume. unfold parse_engine. now rewrite Hent.
  - unfold yyparse in H. destruct n as [|n]; [done|]. rewrite loop_resume in H. unfold parse_engine in H. rewrite Hent in H.
    destruct (loop_moves unit_ tables actions lexer n _ _ _ _ _ res Hw H) as [N HN].
    exact (run_backward unit_ tables actions lexer _ Htab Hdg N At_loop _ _ _ res Hrel HN).
Qed.

(** C18: the engine and its driver run the LR automaton of the tables on a list of frames:
    every result of the automaton is that of [yyparse], in enough turns, and every
    result of [yyparse] is that of the automaton, unless the automaton stops at a move
    it does not define (more symbols removed than there are, a failing action of an empty
    rule, [2^31] frames, a token without code).  No access to the stacks, which grow on
    the way, is out of bounds, and every call of the engine returns. *)
Theorem yyparse_correct start e lexbuf :
  shorts (table tables) -> shorts (dgoto tables) -> ready e ->
  (forall n res, lr_parse n start e lexbuf = Finished res -> exists n', yyparse unit_ tables actions lexer n' start e lexbuf = Some res) /\
  (forall n res, yyparse unit_ tables actions lexer n start e lexbuf = Some res ->
    exists m, lr_parse m start e lexbuf = Finished res \/ lr_parse m start e lexbuf = Stopped).
Proof. apply yyparse_spec. Qed.
End Calls.

(** ** Witness *)

Definition shorts_of (l : list Z) : list Z := concat (map (fun x => [x mod 256; (x / 256) mod 256]) l).

(** The tables of the grammar [%entry%: '\001' E; E: 'x'] where ['x'] has the code 257
    and a value: [E] is the value, twice. *)
Definition tiny : parser_tables :=
  MkTables [0] [257] (shorts_of [-1; 1; 0]) (shorts_of [2; 1; 2]) (shorts_of [0; 0; 1; 2; 0]) (shorts_of [4; 3])
    (shorts_of [-1; -256; 0; 0; 0]) (shorts_of [0; 0; 0; 0; 0]) (shorts_of [0; 0]) 1 (shorts_of [1; 2]) (shorts_of [1; 257]).
Definition tiny_actions (n : Z) (l : list (attribute Z)) : action_result Z :=
  match n, l with
  | 1, [(v, _, _)] => Value (2 * v)
  | 2, [_; (v, _, _)] => YYexit v
  | _, _ => Failed
  end.
(** One ['x'] of value 21 for ever. *)
Definition tiny_lexer (l : unit) : token Z * Z * Z * unit := (Block_token 0 21, 0, 1, l).
Definition new_env : parser_env Z := MkEnv [0; 0] [0; 0] [0; 0] [0; 0] 2 0 0 0 0 0 0 0 0 0 0 0.

Lemma shorts_of_ok l : shorts (shorts_of l).
Proof. unfold shorts, shorts_of. induction l as [|x l IH]; cbn [map concat]; [constructor|]. apply Forall_app. split; [|done]. repeat constructor; zlia. Qed.

Lemma yyparse_correct_witness : lr_parse 0 tiny tiny_actions tiny_lexer 20 1 new_env tt = Finished (Parsed 42) /\
  exists n', yyparse 0 tiny tiny_actions tiny_lexer n' 1 new_env tt = Some (Parsed 42).
Proof.
  split; [vm_compute; reflexivity|].
  refine (proj1 (yyparse_correct 0 tiny tiny_actions tiny_lexer 1 new_env tt (shorts_of_ok _) (shorts_of_ok _) _) 20%nat (Parsed 42) _); [|vm_compute; reflexivity].
  constructor; vm_compute; (reflexivity || (split; [split; [discriminate|reflexivity]|reflexivity])).
Defined.

(** ** A failing action of an empty rule *)

(** The rule 1 is empty and reduced in the initial state; only the state 7 shifts the
    error token. *)
Definition empty_rule : parser_tables :=
  MkTables [] [] (shorts_of [0; 0]) (shorts_of [0; 0]) (shorts_of [1; 0; 0; 0; 0; 0; 0; 0]) (shorts_of [3])
    (shorts_of [0; 0; 0; 0; 0; 0; 0; -256]) (shorts_of [0; 0; 0; 0; 0; 0; 0; 0]) (shorts_of [0]) 0 (shorts_of [5]) (shorts_of [256]).
(** An empty stack; [x] is in the cell above, from an earlier parse. *)
Definition stale_env (x : Z) : parser_env Z := MkEnv [0; x; 0; 0] [0; 0; 0; 0] [0; 0; 0; 0] [0; 0; 0; 0] 4 1 (-1) 0 0 0 0 0 0 0 0 0.

(** When the action of an empty rule raises [Parse_error], the engine looks for a state
    to recover in from a cell that is above the stack: it recovers in the state 7,
    which is not on the stack, and raises [Parse_error] if the cell holds another one. *)
Theorem empty_rule_reads_stale_state :
  let after x := match parse_engine 0 empty_rule START (stale_env x) with Some (COMPUTE_SEMANTIC_ACTION, e) => Some e | _ => None end in
  let recovery x := match after x with Some e => option_map fst (parse_engine 0 empty_rule ERROR_DETECTED e) | None => None end in
  recovery 7 = Some READ_TOKEN /\ recovery 0 = Some RAISE_PARSE_ERROR.
Proof. vm_compute. split; reflexivity. Qed.
