(* ===== verification/ParseSound.v ===== *)
(** * Soundness of the parser engine

    On tables that agree with the LR(0) items of a grammar, a value [yyparse] returns is
    the value of a derivation of the tokens read, where the error token stands for the
    tokens that were skipped. *)

From S2P Require Import Prelude Mlvalues Lexing Parsing.

Section Sound.
Context {V : Type} (unit_ : V) (tables : parser_tables) {L : Type}.
Context (actions : Z -> list (attribute V) -> action_result V) (lexer : L -> token V * Z * Z * L).

(** The symbols of the grammar: the code of a token, the number of a nonterminal. *)
Inductive symbol := Tok (c : Z) | Nonterm (m : Z).

(** The rules, those of the entry points, and the items of the states: a rule and the
    place of the dot. *)
Context (rhs : Z -> list symbol) (entry_rule : Z -> Prop) (is_st : Z -> Prop) (items : Z -> Z -> nat -> Prop).

Abbreviation shift_of := (shift_of tables).
Abbreviation reduce_of := (reduce_of tables).
Abbreviation goto_of := (goto_of tables).
Definition lhs_of (n : Z) : Z := Short (lhs tables) n.
Definition reduces (s n : Z) : Prop := (Short (defred tables) s = n /\ n <> 0) \/ exists c, 0 <= c /\ reduce_of s c = Some n.

(** The items of [s'] come from those of [s] through the symbol [X]. *)
Definition advances (s : Z) (X : symbol) (s' : Z) : Prop :=
  is_st s' /\ s' <> 0 /\ forall n k, items s' n (S k) -> rhs n !! k = Some X /\ items s n k.

(** The tables and the semantic actions are those of the grammar; [start] is the token
    of the entry point. *)
Record tables_ok (start : Z) : Prop := {
  to_first : is_st 0;
  to_first_items n k : items 0 n k -> k = O /\ entry_rule n;
  to_first_shift : Short (defred tables) 0 = 0 /\ exists s, shift_of 0 start = Some s;
  to_shift s c s' : is_st s -> 0 <= c -> shift_of s c = Some s' -> advances s (Tok c) s';
  to_goto s n : is_st s -> items s n O -> ~ entry_rule n -> advances s (Nonterm (lhs_of n)) (goto_of (lhs_of n) s);
  to_reduce s n : is_st s -> reduces s n -> items s n (length (rhs n)) /\ Short (len tables) n = Z.of_nat (length (rhs n));
  to_entry n : entry_rule n -> exists c m, rhs n = [Tok c; Nonterm m];
  to_entry_items s n : is_st s -> items s n O -> entry_rule n -> s = 0;
  to_entry_action n args : entry_rule n -> actions n args = match args with [_; a] => YYexit (fst (fst a)) | _ => Failed end;
  to_action s n args : is_st s -> reduces s n -> ~ entry_rule n -> length args = length (rhs n) -> exists v, actions n args = Value v;
  to_entry_dec n : entry_rule n \/ ~ entry_rule n;
  to_codes l t b n l' : lexer l = (t, b, n, l') -> exists x v, token_code unit_ tables t = Some (x, v) /\ 0 <= int_of x
}.

(** Derivations: the symbol, its value, and the tokens with their values. *)
Inductive derives : symbol -> V -> list (Z * V) -> Prop :=
| derives_token c v : derives (Tok c) v [(c, v)]
| derives_rule n args v w : ~ entry_rule n -> derives_list (rhs n) args w -> actions n args = Value v -> derives (Nonterm (lhs_of n)) v w
with derives_list : list symbol -> list (attribute V) -> list (Z * V) -> Prop :=
| derives_nil : derives_list [] [] []
| derives_cons X a w Xs args w' : derives X (fst (fst a)) w -> derives_list Xs args w' -> derives_list (X :: Xs) (a :: args) (w ++ w').

(** The tokens the lexer gives. *)
Inductive reads : L -> list (Z * V) -> L -> Prop :=
| reads_nil l : reads l [] l
| reads_snoc l r l1 t b n l2 x v : reads l r l1 -> lexer l1 = (t, b, n, l2) -> token_code unit_ tables t = Some (x, v) ->
    reads l (r ++ [(int_of x, v)]) l2.

(** ** Stacks *)

(** The frames [fs] above the base, with their symbols, lead to the state [s]. *)
Inductive chain : list (frame (V := V)) -> list symbol -> Z -> Prop :=
| chain_nil : chain [] [] 0
| chain_cons fs Xs s X s' a : chain fs Xs s -> advances s X s' -> chain (Frame s' a :: fs) (X :: Xs) s'.

Section Start.
Context (start : Z) (OK : tables_ok start).

Lemma chain_state fs Xs s : chain fs Xs s -> is_st s.
Proof. intros []; [apply (to_first start OK)|]. match goal with H : advances _ _ _ |- _ => apply H end. Qed.

Lemma chain_length fs Xs s : chain fs Xs s -> length fs = length Xs.
Proof. induction 1; cbn [length]; congruence. Qed.

Lemma chain_zero fs Xs : chain fs Xs 0 -> fs = [] /\ Xs = [].
Proof. inversion 1 as [|? ? ? ? ? ? ? (_ & H0 & _)]; subst; [done|now destruct H0]. Qed.

Lemma chain_head f fs Xs s : chain (f :: fs) Xs s -> f_state f = s.
Proof. now inversion 1. Qed.

(** Back over the symbols before the dot. *)
Lemma chain_back k : forall fs Xs s n, chain fs Xs s -> items s n k ->
  (k <= length fs)%nat /\ (k <= length (rhs n))%nat /\ take k Xs = rev (take k (rhs n)) /\ exists s0, chain (drop k fs) (drop k Xs) s0 /\ items s0 n O.
Proof.
  induction k as [|k IH]; intros fs Xs s n Hc Hi.
  - split; [lia|]. split; [lia|]. split; [done|]. exists s. done.
  - destruct Hc as [|fs Xs s X s' a Hc (_ & _ & Hadv)]; [destruct (to_first_items start OK _ _ Hi); lia|].
    destruct (Hadv n k Hi) as [HX Hk]. destruct (IH fs Xs s n Hc Hk) as (H1 & H2 & H3 & s0 & H4 & H5). cbn [length take drop].
    pose proof (lookup_lt_Some _ _ _ HX). split; [lia|]. split; [lia|]. split; [|exists s0; done]. now rewrite (take_S_r _ _ _ HX), rev_app_distr, H3.
Qed.

(** The state below the frames of a right-hand side. *)
Lemma chain_reduce fs Xs s n : chain fs Xs s -> reduces s n ->
  let k := length (rhs n) in
  Short (len tables) n = Z.of_nat k /\ (k <= length fs)%nat /\ take k Xs = rev (rhs n) /\
  exists s0, chain (drop k fs) (drop k Xs) s0 /\ items s0 n O /\ is_st s0 /\ (entry_rule n -> drop k fs = []) /\
    (~ entry_rule n -> exists f rest, drop k fs = f :: rest /\ f_state f = s0).
Proof.
  intros Hc Hr k. destruct (to_reduce start OK s n (chain_state _ _ _ Hc) Hr) as [Hi Hlen].
  destruct (chain_back _ _ _ _ _ Hc Hi) as (H1 & _ & H2 & s0 & H3 & H4). rewrite (take_ge (rhs n)) in H2 by lia. fold k in H1, H2, H3, Hlen.
  split; [done|]. split; [done|]. split; [done|]. exists s0. pose proof (chain_state _ _ _ H3) as Hs0. split; [done|]. split; [done|]. split; [done|]. split.
  - intros He. rewrite (to_entry_items start OK s0 n Hs0 H4 He) in H3. now destruct (chain_zero _ _ H3).
  - intros He. destruct (drop k fs) as [|f rest] eqn:Ed; [|exists f, rest; split; [done|now apply chain_head in H3]].
    inversion H3; subst. now destruct (to_first_items start OK _ _ H4).
Qed.

(** ** Words *)

Lemma derives_list_app Xs args w Ys args' w' : derives_list Xs args w -> derives_list Ys args' w' -> derives_list (Xs ++ Ys) (args ++ args') (w ++ w').
Proof. intros H H'. induction H as [|X a u Xs args w Hd H IH]; [done|]. cbn [app]. rewrite <- app_assoc. now constructor. Qed.

Lemma derives_list_split Xs : forall Ys args w, derives_list (Xs ++ Ys) args w ->
  exists w1 w2, w = w1 ++ w2 /\ derives_list Xs (take (length Xs) args) w1 /\ derives_list Ys (drop (length Xs) args) w2.
Proof.
  induction Xs as [|X Xs IH]; intros Ys args w H; cbn [app length] in *.
  - exists [], w. split; [done|]. split; [constructor|done].
  - inversion H as [|? a u ? args' w' Hd H']; subst. destruct (IH Ys args' w' H') as (w1 & w2 & -> & H1 & H2).
    exists (u ++ w1), w2. rewrite app_assoc. split; [done|]. cbn [take drop]. split; [now constructor|done].
Qed.

Lemma derives_token_inv c v w : derives (Tok c) v w -> w = [(c, v)].
Proof. now inversion 1. Qed.
Lemma derives_cons_inv X Xs a args w : derives_list (X :: Xs) (a :: args) w -> exists u w', w = u ++ w' /\ derives X (fst (fst a)) u /\ derives_list Xs args w'.
Proof. inversion 1; subst. eauto. Qed.

Lemma derives_list_single X a w : derives_list [X] [a] w -> derives X (fst (fst a)) w.
Proof. inversion 1 as [|? ? u ? ? w' Hd H']; subst. inversion H'; subst. now rewrite app_nil_r. Qed.
Lemma derives_single X a w : derives X (fst (fst a)) w -> derives_list [X] [a] w.
Proof. intros H. rewrite <- (app_nil_r w). constructor; [done|constructor]. Qed.

(** The frames of a chain, from the bottom. *)
Definition word (fs : list frame) (Xs : list symbol) (w : list (Z * V)) : Prop := derives_list (rev Xs) (map f_attr (rev fs)) w.

Lemma word_push fs Xs w X s a u : word fs Xs w -> derives X (fst (fst a)) u -> word (Frame s a :: fs) (X :: Xs) (w ++ u).
Proof. intros H Hd. unfold word. cbn [rev]. rewrite map_app. apply derives_list_app; [done|]. now apply derives_single. Qed.

Lemma word_split k fs Xs w : length fs = length Xs -> (k <= length fs)%nat -> word fs Xs w ->
  exists w1 w2, w = w1 ++ w2 /\ word (drop k fs) (drop k Xs) w1 /\ derives_list (rev (take k Xs)) (map f_attr (rev (take k fs))) w2.
Proof.
  intros Hl Hk H. unfold word in *. rewrite <- (take_drop k Xs), rev_app_distr in H at 1. destruct (derives_list_split _ _ _ _ H) as (w1 & w2 & -> & H1 & H2).
  rewrite <- (take_drop k fs) in H1, H2. rewrite rev_app_distr, map_app in H1, H2.
  assert (El : length (rev (drop k Xs)) = length (map f_attr (rev (drop k fs)))) by (rewrite length_map, !length_rev, !length_drop; lia).
  rewrite El in H1, H2. rewrite take_app_length in H1. rewrite drop_app_length in H2. now exists w1, w2.
Qed.

(** ** The invariant *)

Context (below : list (frame (V := V))) (first_input : L) (start_nonneg : 0 <= start) (below_nonempty : below <> []).
Abbreviation cfg := (config (V := V) (L := L)).
Abbreviation base := (Z.of_nat (length below)).
Abbreviation lr_step := (lr_step unit_ tables actions lexer base).
Abbreviation lr_reduce := (lr_reduce tables actions).

(** The token read and not yet shifted. *)
Definition pending (c : cfg) : list (Z * V) := if cur c <? 0 then [] else [(cur c, fst (fst (tok c)))].

(** The word [w] stands for the tokens [r]: each token of [w] for itself, in order, but
    for the error token, which stands for any segment of [r]. *)
Definition stands (w r : list (Z * V)) : Prop :=
  exists ds, r = concat ds /\ Forall2 (fun t d => d = [t] \/ fst t = ERRCODE) w ds.

(** The error token is the last one. *)
Definition ends_error (w : list (Z * V)) : Prop := exists w0 v, w = w0 ++ [(ERRCODE, v)].

(** The tokens read are those of the word and the one not yet shifted. *)
Definition reading (w r : list (Z * V)) (pending : list (Z * V)) : Prop :=
  exists q, r = q ++ pending /\ stands w q.

Inductive inv (k : control) (c : cfg) : Prop :=
| inv_first : k <> At_recover -> frames c = below -> cur_state c = 0 -> cur c = start -> err c = 0 -> input c = first_input -> inv k c
| inv_run above Xs v0 w r : frames c = above ++ below -> chain above (Xs ++ [Tok start]) (cur_state c) ->
    word above (Xs ++ [Tok start]) ((start, v0) :: w) -> reads first_input r (input c) -> reading w r (pending c) ->
    (3 <= err c -> ends_error w) -> 0 <= err c <= 3 -> (k = At_token -> 0 <= cur c) -> inv k c.

(** What a value that is returned stands for. *)
Definition accepted (v : V) : Prop :=
  exists n m w r l, entry_rule n /\ rhs n = [Tok start; Nonterm m] /\ derives (Nonterm m) v w /\ reads first_input r l /\
    (stands w r \/ exists q t, r = q ++ [t] /\ stands w q).

Definition outcome_ok (c : cfg) (o : lr_next (V := V) (L := L)) : Prop :=
  match o with
  | Next k c' => inv k c'
  | Final (Parsed v) => accepted v
  | Final Parse_error => True
  | Stuck => B31 <= Z.of_nat (length (frames c))
  end.

(** Words that begin with the token of the entry point. *)
Lemma word_start fs Xs w : word fs (Xs ++ [Tok start]) w -> exists v0 w', w = (start, v0) :: w'.
Proof.
  unfold word. rewrite rev_app_distr. cbn [rev app]. inversion 1 as [|X a u Ys args w' Hd H']; subst. inversion Hd; subst. eexists _, _. reflexivity.
Qed.

Lemma stands_nil : stands [] [].
Proof. exists []. split; [done|constructor]. Qed.
Lemma stands_token w r t : stands w r -> stands (w ++ [t]) (r ++ [t]).
Proof.
  intros (ds & -> & H). exists (ds ++ [[t]]). rewrite concat_app. split; [done|]. apply Forall2_app; [done|].
  constructor; [now left|constructor].
Qed.
Lemma stands_error w r v d : stands w r -> stands (w ++ [(ERRCODE, v)]) (r ++ d).
Proof.
  intros (ds & -> & H). exists (ds ++ [d]). rewrite concat_app. cbn [concat]. rewrite app_nil_r. split; [done|].
  apply Forall2_app; [done|]. constructor; [now right|constructor].
Qed.

(** What stands for the beginning of a word. *)
Lemma stands_split w1 w2 r : stands (w1 ++ w2) r -> exists r1 r2, r = r1 ++ r2 /\ stands w1 r1.
Proof.
  intros (ds & -> & H). apply Forall2_app_inv_l in H as (d1 & d2 & H1 & _ & ->).
  exists (concat d1), (concat d2). rewrite concat_app. split; [done|]. now exists d1.
Qed.

(** The error token at the end takes more tokens. *)
Lemma stands_more w r d : ends_error w -> stands w r -> stands w (r ++ d).
Proof.
  intros (w0 & v & ->) H. destruct (stands_split _ _ _ H) as (r1 & r2 & -> & H1). rewrite <- app_assoc. now apply stands_error.
Qed.

(** A frame is pushed on a chain. *)
Lemma push_inv s X a u x ef c fs Xs s0 v0 w r : chain fs (Xs ++ [Tok start]) s0 -> word fs (Xs ++ [Tok start]) ((start, v0) :: w) ->
  advances s0 X s -> derives X (fst (fst a)) u -> (length (fs ++ below) <= length (frames c))%nat -> reads first_input r (input c) ->
  reading (w ++ u) r (pending (MkConfig [] 0 x (tok c) 0 (input c))) -> (3 <= ef -> ends_error (w ++ u)) -> 0 <= ef <= 3 ->
  outcome_ok c (push s a (fs ++ below) x ef c).
Proof.
  intros Hc Hw Ha Hd Hl Hr He1 He2 He3. unfold push. destruct (Z.ltb_spec (Z.of_nat (length (fs ++ below))) B31) as [Hb|Hb]; cbn [outcome_ok].
  - apply (inv_run At_loop _ (Frame s a :: fs) (X :: Xs) v0 (w ++ u) r); cbn [frames cur_state input cur tok err]; try done.
    + now apply (chain_cons _ _ s0).
    + exact (word_push _ _ ((start, v0) :: w) _ _ _ _ Hw Hd).
  - lia.
Qed.

Lemma drop_bottom {A} k (l : list A) x : (k <= length l)%nat -> drop k (l ++ [x]) = drop k l ++ [x].
Proof. intros H. now rewrite drop_app_le. Qed.

(** The values of the last frame are those of the entry point. *)
Lemma accept_inv above Xs v0 w r c n : chain above (Xs ++ [Tok start]) (cur_state c) -> word above (Xs ++ [Tok start]) ((start, v0) :: w) ->
  reads first_input r (input c) -> reading w r (pending c) -> entry_rule n -> take (length (rhs n)) (Xs ++ [Tok start]) = rev (rhs n) ->
  (length (rhs n) <= length above)%nat -> drop (length (rhs n)) above = [] ->
  exists v, actions n (map f_attr (rev (take (length (rhs n)) above))) = YYexit v /\ accepted v.
Proof.
  intros Hc Hw Hr He Hn Htk Hle Hdr. destruct (to_entry start OK n Hn) as (x & m & Erhs). rewrite Erhs in Htk, Hle, Hdr |- *. cbn [length] in *.
  assert (Hlen : length above = 2%nat) by (apply (f_equal length) in Hdr; rewrite length_drop in Hdr; cbn [length] in Hdr; lia).
  destruct above as [|f2 [|f1 [|? ?]]]; try (cbn [length] in Hlen; lia). pose proof (chain_length _ _ _ Hc) as Hlx. rewrite length_app in Hlx. cbn [length] in Hlx.
  destruct Xs as [|X [|? ?]]; try (cbn [length] in Hlx; lia). cbn [app take rev] in Htk. injection Htk as -> <-.
  cbn [take rev app map]. rewrite (to_entry_action start OK n _ Hn). exists (fst (fst (f_attr f2))). split; [done|].
  unfold word in Hw. cbn [rev app map] in Hw. apply derives_cons_inv in Hw as (u1 & w2 & E1 & Hd1 & H2). apply derives_token_inv in Hd1 as ->. injection E1 as _ <-.
  apply derives_list_single in H2. exists n, m, w, r, (input c). split; [done|]. split; [done|]. split; [done|]. split; [done|].
  destruct He as (q & -> & He). unfold pending. destruct (cur c <? 0); [left; now rewrite app_nil_r|right; eauto].
Qed.

Lemma reduce_inv above Xs v0 w r c n : frames c = above ++ below -> chain above (Xs ++ [Tok start]) (cur_state c) ->
  word above (Xs ++ [Tok start]) ((start, v0) :: w) -> reads first_input r (input c) -> reading w r (pending c) ->
  (3 <= err c -> ends_error w) -> 0 <= err c <= 3 -> reduces (cur_state c) n -> outcome_ok c (lr_reduce n c).
Proof.
  intros Ef Hc Hw Hr He He2 He3 Hred. destruct (chain_reduce _ _ _ _ Hc Hred) as (Hm & Hk & Htk & s0 & Hc0 & Hi0 & Hs0 & Hent & Hnent).
  set (k := length (rhs n)) in *. pose proof (chain_length _ _ _ Hc) as Hlx. rewrite length_app in Hlx. cbn [length] in Hlx.
  destruct above as [|top rest] eqn:Eab; [unfold word in Hw; cbn [map rev] in Hw; inversion Hw|]. rewrite <- Eab in *.
  unfold lr_reduce, Parsing.lr_reduce. rewrite Hm, Nat2Z.id, (proj2 (Z.ltb_ge (Z.of_nat k) 0)) by lia. rewrite Ef, take_app_le, drop_app_le by done. rewrite Eab at 1. cbn [app].
  destruct (to_entry_dec start OK n) as [Hn|Hn].
  - destruct (accept_inv _ _ _ _ _ _ _ Hc Hw Hr He Hn Htk Hk (Hent Hn)) as (v & Ev & Hacc). fold k in Ev. rewrite Ev, (Hent Hn). cbn [app].
    destruct below as [|fb bs] eqn:Eb; [done|]. destruct (Z.ltb_spec (Z.of_nat (length (above ++ fb :: bs))) B31); [exact Hacc|cbn [outcome_ok]; rewrite Ef; lia].
  - destruct (Hnent Hn) as (f & fs & Ed & Es). rewrite Ed. cbn [app]. destruct (to_action start OK _ n (map f_attr (rev (take k above))) (chain_state _ _ _ Hc) Hred Hn) as [v Ev]; [rewrite length_map, length_rev, length_take; unfold k; lia|]. rewrite Ev.
    assert (HkX : (k <= length Xs)%nat) by (apply (f_equal length) in Ed; rewrite length_drop in Ed; cbn [length] in Ed; lia).
    rewrite drop_bottom in Hc0 by done. destruct (word_split k _ _ _ (chain_length _ _ _ Hc) Hk Hw) as (w1 & w2 & E & Hw1 & Hw2).
    rewrite drop_bottom in Hw1 by done. destruct (word_start _ _ _ Hw1) as (v1 & w1' & ->). injection E as <- ->.
    rewrite Htk, rev_involutive in Hw2. rewrite Ed in Hc0, Hw1.
    rewrite Es. change (Short (lhs tables) n) with (lhs_of n). change (f :: (fs ++ below)) with ((f :: fs) ++ below).
    refine (push_inv _ (Nonterm (lhs_of n)) _ w2 _ _ c (f :: fs) (drop k Xs) s0 v0 w1' r Hc0 Hw1 _ _ _ Hr He He2 He3).
    + now apply (to_goto start OK).
    + cbn [fst]. now apply (derives_rule n (map f_attr (rev (take k above)))).
    + rewrite Ef, <- Ed, !length_app, length_drop. lia.
Qed.

Lemma discard_inv above : forall Ys s, above <> [] -> chain above Ys s ->
  match lr_discard tables base (above ++ below) with
  | Some (x, fs) => exists k s0, (k < length above)%nat /\ fs = drop k above ++ below /\ chain (drop k above) (drop k Ys) s0 /\ shift_of s0 ERRCODE = Some x
  | None => True
  end.
Proof.
  induction above as [|f above IH]; intros Ys s Hne Hc; [done|]. pose proof (chain_head _ _ _ _ Hc) as Es. cbn [app lr_discard].
  destruct (Parsing.shift_of tables (f_state f) ERRCODE) as [x|] eqn:Ex.
  - exists O, s. split; [cbn [length]; lia|]. split; [done|]. split; [done|]. now rewrite <- Es.
  - destruct (Z.leb_spec (Z.of_nat (length (above ++ below))) base) as [|Hgt]; [done|]. rewrite length_app in Hgt.
    inversion Hc as [|? Xs0 s1 ? ? ? Hc1 ?]; subst. specialize (IH Xs0 s1 ltac:(intros ->; cbn [length] in Hgt; lia) Hc1).
    destruct (lr_discard tables base (above ++ below)) as [[x fs]|]; [|done]. destruct IH as (k & s2 & Hk & Hfs & Hch & Hsh).
    exists (S k), s2. split; [cbn [length]; lia|]. done.
Qed.

Lemma recover_inv above Xs v0 w r c : frames c = above ++ below -> chain above (Xs ++ [Tok start]) (cur_state c) ->
  word above (Xs ++ [Tok start]) ((start, v0) :: w) -> reads first_input r (input c) -> reading w r (pending c) ->
  (3 <= err c -> ends_error w) -> 0 <= err c <= 3 -> outcome_ok c (lr_step At_recover c).
Proof.
  intros Ef Hc Hw Hr He He2 He3. cbn [Parsing.lr_step]. destruct (Z.ltb_spec (err c) 3) as [Hlt|Hge].
  - rewrite Ef. assert (Hne : above <> []) by (intros ->; apply chain_length in Hc; rewrite length_app in Hc; cbn [length] in Hc; lia).
    pose proof (discard_inv above _ _ Hne Hc) as Hd. destruct (lr_discard tables base (above ++ below)) as [[x fs]|]; [|done].
    destruct Hd as (k & s0 & Hk & -> & Hc0 & Hx). pose proof (chain_length _ _ _ Hc) as Hl. rewrite length_app in Hl. cbn [length] in Hl.
    destruct (word_split k _ _ _ (chain_length _ _ _ Hc) ltac:(lia) Hw) as (w1 & w2 & E & Hw1 & _). rewrite drop_bottom in Hc0, Hw1 by lia.
    destruct (word_start _ _ _ Hw1) as (v1 & w1' & ->). injection E as _ ->.
    destruct He as (q & -> & He). destruct (stands_split _ _ _ He) as (q1 & q2 & -> & Hq1).
    refine (push_inv x (Tok ERRCODE) (tok c) [(ERRCODE, fst (fst (tok c)))] _ 3 c _ (drop k Xs) s0 v1 w1' _ Hc0 Hw1 _ _ _ Hr _ _ _);
      [apply (to_shift start OK); [exact (chain_state _ _ _ Hc0)|done|done]|constructor|rewrite Ef, !length_app, length_drop; lia
      |exists (q1 ++ q2); split; [done|now apply stands_error]|now exists w1', (fst (fst (tok c)))|lia].
  - destruct (cur c =? 0); [done|]. cbn [outcome_ok]. apply (inv_run At_loop _ above Xs v0 w r); cbn [frames cur_state input cur tok err]; try done.
    destruct He as (q & -> & He). exists (q ++ pending c). rewrite app_nil_r. split; [done|]. apply stands_more; [apply He2; lia|done].
Qed.

Lemma token_inv c above Xs v0 w r : frames c = above ++ below -> chain above (Xs ++ [Tok start]) (cur_state c) ->
  word above (Xs ++ [Tok start]) ((start, v0) :: w) -> reads first_input r (input c) -> reading w r (pending c) ->
  (3 <= err c -> ends_error w) -> 0 <= err c <= 3 -> 0 <= cur c -> outcome_ok c (lr_step At_token c).
Proof.
  intros Ef Hc Hw Hr He He2 He3 Hcur. cbn [Parsing.lr_step]. destruct (Parsing.shift_of tables (cur_state c) (cur c)) as [x|] eqn:Ex.
  - rewrite Ef. refine (push_inv x (Tok (cur c)) (tok c) [(cur c, fst (fst (tok c)))] _ _ c above Xs (cur_state c) v0 w r Hc Hw _ _ _ Hr _ _ _).
    + apply (to_shift start OK); [exact (chain_state _ _ _ Hc)|done|done].
    + constructor.
    + now rewrite Ef.
    + destruct He as (q & -> & He). unfold pending. cbn [cur]. rewrite (proj2 (Z.ltb_ge _ _) Hcur).
      change (-1 <? 0) with true. cbv iota. exists (q ++ [(cur c, fst (fst (tok c)))]). rewrite app_nil_r. split; [done|now apply stands_token].
    + intros Hp. exfalso. destruct (Z.ltb_spec 0 (err c)); lia.
    + destruct (Z.ltb_spec 0 (err c)); lia.
  - destruct (Parsing.reduce_of tables (cur_state c) (cur c)) as [n|] eqn:En.
    + apply (reduce_inv above Xs v0 w r); try done. right. now exists (cur c).
    + cbn [outcome_ok]. apply (inv_run At_recover _ above Xs v0 w r); done.
Qed.

Lemma step_inv k c : inv k c -> outcome_ok c (lr_step k c).
Proof.
  intros [Hk Ef Es Ec Ee Ei|above Xs v0 w r Ef Hc Hw Hr He He2 He3 Hk].
  - destruct (to_first_shift start OK) as [Hd [s Hs]]. destruct k; [| |done]; cbn [Parsing.lr_step].
    + rewrite Es, Hd. cbn [negb Z.eqb]. rewrite Ec, (proj2 (Z.leb_le _ _) start_nonneg). cbn [outcome_ok]. now apply inv_first.
    + rewrite Es, Ec, Hs, Ee. change (0 <? 0) with false. cbv iota. unfold push. rewrite Ef.
      destruct (Z.ltb_spec base B31); cbn [outcome_ok]; [|now rewrite Ef].
      apply (inv_run At_loop _ [Frame s (tok c)] [] (fst (fst (tok c))) [] []); cbn [frames cur_state input cur tok err app]; try done.
      * apply (chain_cons [] [] 0); [constructor|]. apply (to_shift start OK); [apply (to_first start OK)|done|done].
      * unfold word. cbn [rev app map f_attr]. apply derives_single. constructor.
      * rewrite Ei. constructor.
      * exists []. split; [done|apply stands_nil].
  - destruct k; [|now apply (token_inv c above Xs v0 w r); auto|now apply (recover_inv above Xs v0 w r)]. cbn [Parsing.lr_step].
    destruct (Z.eqb_spec (Short (defred tables) (cur_state c)) 0) as [Hd|Hd]; cbn [negb].
    + destruct (Z.leb_spec 0 (cur c)) as [Hcur|Hcur].
      * cbn [outcome_ok]. now apply (inv_run At_token _ above Xs v0 w r).
      * destruct (lexer (input c)) as [[[t b] n] l] eqn:El. destruct (to_codes start OK _ _ _ _ _ El) as (x & v & Ht & Hx). rewrite Ht. cbn [outcome_ok].
        apply (inv_run At_token _ above Xs v0 w (r ++ [(int_of x, v)])); cbn [frames cur_state input cur tok err]; try done.
        -- now apply (reads_snoc _ _ (input c) t b n).
        -- destruct He as (q & -> & He). unfold pending. cbn [cur tok fst]. rewrite (proj2 (Z.ltb_lt _ _) Hcur), app_nil_r.
           rewrite (proj2 (Z.ltb_ge _ _) Hx). now exists q.
    + apply (reduce_inv above Xs v0 w r); try done. now left.
Qed.

(** The configurations of a run. *)
Definition next_config (x y : control * cfg) : Prop := lr_step x.1 x.2 = Next y.1 y.2.

Lemma run_inv n : forall k c, inv k c ->
  match lr_run unit_ tables actions lexer base n k c with
  | Finished (Parsed v) => accepted v
  | Stopped => exists k' c', rtc next_config (k, c) (k', c') /\ B31 <= Z.of_nat (length (frames c'))
  | _ => True
  end.
Proof.
  induction n as [|n IH]; intros k c Hinv; cbn [lr_run]; [done|]. pose proof (step_inv k c Hinv) as Ho.
  destruct (lr_step k c) as [k' c'|[v|]|] eqn:Es; cbn [outcome_ok] in Ho; [|done|done|exists k, c; split; [constructor|done]].
  specialize (IH k' c' Ho). destruct (lr_run _ _ _ _ _ n k' c') as [[v|]| |]; [done|done| |done].
  destruct IH as (k2 & c2 & Hr & Hl). exists k2, c2. split; [|done]. apply (rtc_l _ _ (k', c')); [exact Es|done].
Qed.
End Start.
End Sound.

Section Calls.
Context {V : Type} (unit_ : V) (tables : parser_tables) {L : Type}.
Context (actions : Z -> list (attribute V) -> action_result V) (lexer : L -> token V * Z * Z * L).
Context (rhs : Z -> list symbol) (entry_rule is_st : Z -> Prop) (items : Z -> Z -> nat -> Prop).

(** What a value that is returned stands for. *)
Lemma yyparse_accepts start e lexbuf n v :
  tables_ok unit_ tables actions lexer rhs entry_rule is_st items (int_of start) -> 0 <= int_of start ->
  shorts (table tables) -> shorts (dgoto tables) -> ready e ->
  yyparse unit_ tables actions lexer n start e lexbuf = Some (Parsed v) ->
  accepted unit_ tables actions lexer rhs entry_rule (int_of start) lexbuf v \/
  exists k c, rtc (next_config unit_ tables actions lexer (frames_below (S (Z.to_nat (sp e))) e)) (At_loop, first_config start e lexbuf) (k, c) /\
    B31 <= Z.of_nat (length (frames c)).
Proof.
  intros OK Hs Ht Hd R H. pose proof (re_sp e R) as Hsp. destruct (first_rel start e lexbuf R) as [_ _ (Er & Hn & _) _].
  apply (f_equal r_sp) in Er. cbn [r_sp] in Er. change (frames (first_config start e lexbuf)) with (frames_below (S (Z.to_nat (sp e))) e) in Er, Hn.
  destruct (yyparse_spec unit_ tables actions lexer start e lexbuf Ht Hd R) as [_ Hb]. destruct (Hb n _ H) as [m Hm].
  unfold lr_parse in Hm. replace (sp e + 1) with (Z.of_nat (length (frames_below (S (Z.to_nat (sp e))) e))) in Hm by lia.
  pose proof (run_inv unit_ tables actions lexer rhs entry_rule is_st items (int_of start) OK (frames_below (S (Z.to_nat (sp e))) e) lexbuf Hs) as Hr.
  specialize (Hr ltac:(intros E; rewrite E in Hn; cbn [length] in Hn; lia) m At_loop (first_config start e lexbuf)).
  specialize (Hr ltac:(now apply inv_first)). destruct Hm as [Hm|Hm]; rewrite Hm in Hr; [now left|now right].
Qed.

End Calls.

(** ** Witness *)

Definition tiny_rhs (n : Z) : list symbol := if n =? 1 then [Tok 257] else if n =? 2 then [Tok 1; Nonterm 1] else [].
Definition tiny_items (s n : Z) (k : nat) : Prop :=
  (s, n, k) ∈ [(0, 2, 0%nat); (1, 2, 1%nat); (1, 1, 0%nat); (2, 1, 1%nat); (3, 2, 2%nat)].

Lemma tiny_states s : 0 <= s < 4 -> s = 0 \/ s = 1 \/ s = 2 \/ s = 3.
Proof. lia. Qed.

(** An entry of the tables is one of the first two. *)
Lemma tiny_entry index n c n2 : entry tiny index n c = Some n2 -> Short index n <> 0 /\ c = n2 - Short index n /\ ((n2 = 0 /\ c = 1) \/ (n2 = 1 /\ c = 257)).
Proof.
  unfold entry. cbn zeta. change (int_of (tablesize tiny)) with 1. set (n1 := Short index n). destruct (Z.eqb_spec n1 0) as [|Hn1]; [done|].
  destruct (Z.leb_spec 0 (n1 + c)) as [H0|]; [|done]. destruct (Z.leb_spec (n1 + c) 1) as [H1|]; [|done]. cbn [negb andb].
  assert (Hc : n1 + c = 0 \/ n1 + c = 1) by lia. destruct Hc as [E|E]; rewrite E; cbn [andb].
  - change (Short (check tiny) 0) with 1. destruct (Z.eqb_spec 1 c) as [<-|]; [|done]. intros [= <-]. split; [done|]. split; [lia|now left].
  - change (Short (check tiny) 1) with 257. destruct (Z.eqb_spec 257 c) as [<-|]; [|done]. intros [= <-]. split; [done|]. split; [lia|now right].
Qed.

Lemma tiny_shift s c s' : 0 <= s < 4 -> Parsing.shift_of tiny s c = Some s' -> (s = 0 /\ c = 1 /\ s' = 1) \/ (s = 1 /\ c = 257 /\ s' = 2).
Proof.
  intros Hs H. unfold Parsing.shift_of in H. destruct (entry tiny (sindex tiny) s c) as [n2|] eqn:E; [|done]. injection H as <-.
  apply tiny_entry in E as (Hn & Hc & Hcase). destruct (tiny_states s Hs) as [->|[->|[->| ->]]].
  - change (Short (sindex tiny) 0) with (-1) in Hc. left. destruct Hcase as [[-> ->]|[-> ->]]; [done|lia].
  - change (Short (sindex tiny) 1) with (-256) in Hc. right. destruct Hcase as [[-> ->]|[-> ->]]; [lia|done].
  - now destruct Hn.
  - now destruct Hn.
Qed.

Lemma tiny_reduces s n : 0 <= s < 4 -> reduces tiny s n -> (s = 2 /\ n = 1) \/ (s = 3 /\ n = 2).
Proof.
  intros Hs [[<- Hn]|(c & _ & Hc)].
  - destruct (tiny_states s Hs) as [->|[->|[->| ->]]]; vm_compute in Hn; [done|done|now left|now right].
  - unfold Parsing.reduce_of in Hc. destruct (entry tiny (rindex tiny) s c) as [n2|] eqn:E; [|done]. apply tiny_entry in E as (Hz & _ & _).
    destruct (tiny_states s Hs) as [->|[->|[->| ->]]]; now destruct Hz.
Qed.

Lemma tiny_item s n k : tiny_items s n k <-> (s = 0 /\ n = 2 /\ k = 0%nat) \/ (s = 1 /\ n = 2 /\ k = 1%nat) \/ (s = 1 /\ n = 1 /\ k = 0%nat) \/
  (s = 2 /\ n = 1 /\ k = 1%nat) \/ (s = 3 /\ n = 2 /\ k = 2%nat).
Proof. unfold tiny_items. rewrite !elem_of_cons, elem_of_nil. intuition (try congruence); right; naive_solver. Qed.

Lemma tiny_ok : tables_ok 0 tiny tiny_actions tiny_lexer tiny_rhs (fun n => n = 2) (fun s => 0 <= s < 4) tiny_items 1.
Proof.
  constructor.
  - lia.
  - intros n k H%tiny_item. lia.
  - split; [done|]. exists 1. vm_compute. reflexivity.
  - intros s c s' Hs _ H%tiny_shift; [|done]. destruct H as [(-> & -> & ->)|(-> & -> & ->)]; (split; [lia|]; split; [lia|]);
      intros n k H%tiny_item; rewrite tiny_item; assert (k = 0%nat) as -> by lia.
    + assert (n = 2) as -> by lia. split; [reflexivity|lia].
    + assert (n = 1) as -> by lia. split; [reflexivity|lia].
  - intros s n Hs H%tiny_item Hn. assert (s = 1 /\ n = 1) as [-> ->] by lia. change (Parsing.goto_of tiny (lhs_of tiny 1) 1) with 3.
    split; [lia|]. split; [lia|]. intros n k H'%tiny_item. rewrite tiny_item. assert (n = 2 /\ k = 1%nat) as [-> ->] by lia. split; [reflexivity|lia].
  - intros s n Hs H%tiny_reduces; [|done]. rewrite tiny_item. destruct H as [[-> ->]|[-> ->]]; (split; [cbn; lia|reflexivity]).
  - intros n ->. now exists 1, 1.
  - intros s n Hs H%tiny_item ->. lia.
  - intros n args ->. destruct args as [|a [|[[v b] x] [|? ?]]]; reflexivity.
  - intros s n args Hs H%tiny_reduces Hn Hl; [|done]. assert (n = 1) as -> by lia. destruct args as [|[[v b] x] [|? ?]]; try done. exists (2 * v). reflexivity.
  - intros n. lia.
  - intros l t b n l' [= <- _ _ _]. exists 257, 21. split; [reflexivity|vm_compute; discriminate].
Qed.

