(* ===== verification/Warshall.v ===== *)
(** * Transitive closure of a matrix of bits

    Models [yacc/warshall.c] and the bit macros of [yacc/defs.h], and shows that the
    loops over the words of the rows compute the closure of the relation the matrix
    holds.  The unit of an address is the C [unsigned], of 32 bits. *)

From Stdlib Require Import Relation_Operators Operators_Properties.
From S2P Require Import Prelude.

Definition BITS_PER_WORD : Z := 32.
Definition WORDSIZE (n : Z) : Z := (n + (BITS_PER_WORD - 1)) / BITS_PER_WORD.
Definition BIT (m : mem) (r n : Z) : Z := Z.land (Z.shiftr (ld m (r + n / BITS_PER_WORD)) (n mod BITS_PER_WORD)) 1.
Definition SETBIT (m : mem) (r n : Z) : mem :=
  let a := r + n / BITS_PER_WORD in st m a (Z.lor (ld m a) (u32 (Z.shiftl 1 (n mod BITS_PER_WORD)))).

(** [while (rowj < rend) *rowj++ |= *rp++;] on [k] words. *)
Fixpoint or_row (k : nat) (rowj rp : Z) (m : mem) : mem :=
  match k with O => m | S k => or_row k (rowj + 1) (rp + 1) (st m rowj (Z.lor (ld m rowj) (ld m rp))) end.

(** [while (rowj < relend)], [n] rows. *)
Fixpoint close_column (n : nat) (rowsize mask rowi ccol rowj : Z) (m : mem) : mem :=
  match n with
  | O => m
  | S n =>
      let m := if Z.land (ld m ccol) mask =? 0 then m else or_row (Z.to_nat rowsize) rowj rowi m in
      close_column n rowsize mask rowi (ccol + rowsize) (rowj + rowsize) m
  end.

(** [while (rowi < relend)], [n] rows. *)
Fixpoint close_rows (n : nat) (size rowsize R cword mask rowi : Z) (m : mem) : mem :=
  match n with
  | O => m
  | S n =>
      let m := close_column (Z.to_nat size) rowsize mask rowi cword R m in
      let mask := u32 (Z.shiftl mask 1) in
      if mask =? 0 then close_rows n size rowsize R (cword + 1) 1 (rowi + rowsize) m
      else close_rows n size rowsize R cword mask (rowi + rowsize) m
  end.

Definition transitive_closure (R n : Z) (m : mem) : mem := close_rows (Z.to_nat n) n (WORDSIZE n) R R 1 R m.

(** [while (rp < relend)], at most [fuel] turns. *)
Fixpoint set_diagonal (fuel : nat) (rowsize relend mask rp : Z) (m : mem) : option mem :=
  match fuel with
  | O => None
  | S fuel =>
      if rp <? relend then
        let m := st m rp (Z.lor (ld m rp) mask) in
        let mask := u32 (Z.shiftl mask 1) in
        if mask =? 0 then set_diagonal fuel rowsize relend 1 (rp + 1 + rowsize) m else set_diagonal fuel rowsize relend mask (rp + rowsize) m
      else Some m
  end.

Definition reflexive_transitive_closure (R n : Z) (m : mem) : option mem :=
  let m := transitive_closure R n m in
  set_diagonal (S (Z.to_nat n)) (WORDSIZE n) (R + n * WORDSIZE n) 1 R m.

(** ** Bits *)

(** The bit [b] of the row at [r]. *)
Definition bit (m : mem) (r b : Z) : bool := Z.testbit (ld m (r + b / 32)) (b mod 32).

Definition words32 (m : mem) : Prop := forall a, isu32 (ld m a).

(** The mask of a bit of a word. *)
Definition mask_of (b : Z) : Z := 2 ^ (b mod 32).

Lemma testbit_mask b i : 0 <= i -> Z.testbit (mask_of b) i = (i =? b mod 32).
Proof. intros Hi. unfold mask_of. rewrite Z.pow2_bits_eqb by (apply Z.mod_pos_bound; lia). apply Z.eqb_sym. Qed.

Lemma next_mask b : 0 <= b -> u32 (Z.shiftl (mask_of b) 1) = (if (b + 1) mod 32 =? 0 then 0 else mask_of (b + 1)).
Proof.
  intros Hb. unfold mask_of, u32. rewrite Z.shiftl_mul_pow2 by lia. change (2 ^ 1) with 2.
  rewrite Z.mul_comm, <- Z.pow_succ_r by (apply Z.mod_pos_bound; lia). destruct (Z.eqb_spec ((b + 1) mod 32) 0) as [E|E].
  - replace (Z.succ (b mod 32)) with 32 by zlia. reflexivity.
  - replace (Z.succ (b mod 32)) with ((b + 1) mod 32) by zlia. apply Z.mod_small. change B32 with (2 ^ 32).
    split; [apply Z.pow_nonneg; lia|]. apply Z.pow_lt_mono_r; zlia.
Qed.

Lemma next_mask_zero b : 0 <= b -> (u32 (Z.shiftl (mask_of b) 1) =? 0) = ((b + 1) mod 32 =? 0).
Proof.
  intros Hb. rewrite next_mask by done. destruct (Z.eqb_spec ((b + 1) mod 32) 0) as [E|E]; [done|].
  apply Z.eqb_neq. unfold mask_of. pose proof (pow2_pos ((b + 1) mod 32) ltac:(apply Z.mod_pos_bound; lia)). lia.
Qed.

Lemma bit_mask m r b : (Z.land (ld m (r + b / 32)) (mask_of b) =? 0) = negb (bit m r b).
Proof.
  unfold bit. assert (Hr : 0 <= b mod 32 < 32) by (apply Z.mod_pos_bound; lia).
  destruct (Z.testbit (ld m (r + b / 32)) (b mod 32)) eqn:E; cbn [negb].
  - apply Z.eqb_neq. intros H. apply (f_equal (fun x => Z.testbit x (b mod 32))) in H.
    rewrite Z.land_spec, E, testbit_mask, Z.eqb_refl, Z.bits_0 in H by lia. done.
  - apply Z.eqb_eq, Z.bits_inj'. intros i Hi. rewrite Z.land_spec, testbit_mask, Z.bits_0 by done.
    destruct (Z.eqb_spec i (b mod 32)) as [->|]; [now rewrite E|apply andb_false_r].
Qed.

Lemma BIT_bit m r b : BIT m r b = Z.b2z (bit m r b).
Proof.
  unfold BIT, bit, BITS_PER_WORD. change 1 with (Z.ones 1). rewrite Z.land_ones by lia. change (2 ^ 1) with 2.
  rewrite <- Z.bit0_mod, Z.shiftr_spec by lia. now rewrite Z.add_0_l.
Qed.

Lemma SETBIT_mask m r b : SETBIT m r b = st m (r + b / 32) (Z.lor (ld m (r + b / 32)) (mask_of b)).
Proof.
  unfold SETBIT, BITS_PER_WORD, mask_of. do 2 f_equal. rewrite Z.shiftl_mul_pow2, Z.mul_1_l by (apply Z.mod_pos_bound; lia).
  apply u32_id. unfold isu32. change B32 with (2 ^ 32). split; [apply Z.pow_nonneg; lia|]. apply Z.pow_lt_mono_r; [lia..|]. apply Z.mod_pos_bound; lia.
Qed.

(** Setting a bit of a word of a row. *)
Lemma bit_set m r b r' b' : 
  bit (st m (r + b / 32) (Z.lor (ld m (r + b / 32)) (mask_of b))) r' b' =
  bit m r' b' || ((r' + b' / 32 =? r + b / 32) && (b' mod 32 =? b mod 32)).
Proof.
  unfold bit. rewrite ld_st. destruct (Z.eqb_spec (r + b / 32) (r' + b' / 32)) as [E|E].
  - rewrite E, Z.lor_spec, testbit_mask, Z.eqb_refl by (apply Z.mod_pos_bound; lia). done.
  - rewrite (proj2 (Z.eqb_neq _ _)) by done. now rewrite orb_false_r.
Qed.

(** ** One column *)

Section Matrix.
Context (R n : Z) (Hn : 0 <= n).
Abbreviation w := (WORDSIZE n).
Abbreviation row i := (R + i * w).

Lemma WORDSIZE_pos : 0 < n -> 0 < w.
Proof. unfold WORDSIZE, BITS_PER_WORD. zlia. Qed.
Lemma word_in_row b : 0 <= b < n -> 0 <= b / 32 < w.
Proof. unfold WORDSIZE, BITS_PER_WORD. zlia. Qed.

(** Rows are apart. *)
Lemma rows_apart i j a b : 0 <= a < w -> 0 <= b < w -> row i + a = row j + b -> i = j /\ a = b.
Proof.
  intros Ha Hb E. assert (H : (i - j) * w = b - a) by lia. assert (i = j); [|split; [done|subst; lia]].
  destruct (Z.lt_trichotomy i j) as [Hlt|[?|Hlt]]; [|done|]; nia.
Qed.

(** A row united with another one. *)
Lemma or_row_spec k : forall p q m, (p = q \/ q + Z.of_nat k <= p \/ p + Z.of_nat k <= q) -> forall a,
  ld (or_row k p q m) a = if (p <=? a) && (a <? p + Z.of_nat k) then Z.lor (ld m a) (ld m (q + (a - p))) else ld m a.
Proof.
  induction k as [|k IH]; intros p q m Hpq a; cbn [or_row].
  - destruct (Z.leb_spec p a), (Z.ltb_spec a (p + Z.of_nat 0)); cbn [andb]; try done. lia.
  - rewrite IH by lia. rewrite !ld_st.
    destruct (Z.leb_spec (p + 1) a), (Z.ltb_spec a (p + 1 + Z.of_nat k)), (Z.leb_spec p a), (Z.ltb_spec a (p + Z.of_nat (S k))); cbn [andb];
      try lia; repeat match goal with |- context [?x =? ?y] => destruct (Z.eqb_spec x y); try lia end; try done.
    + do 2 f_equal. lia.
    + subst a. now replace (q + (p - p)) with q by lia.
Qed.

(** The matrix: what is between the rows [0] and [n]. *)
Definition B (m : mem) (i j : Z) : bool := bit m (row i) j.

Lemma close_column_spec k : 0 <= k < n -> forall c i m, Z.of_nat c + i = n -> 0 <= i ->
  let m' := close_column c w (mask_of k) (row k) (row i + k / 32) (row i) m in
  (forall a, a < row i \/ row n <= a -> ld m' a = ld m a) /\
  (forall j b, i <= j < n -> 0 <= b < n -> B m' j b = B m j b || (B m j k && B m k b)).
Proof.
  intros Hk c. induction c as [|c IH]; intros i m Hc Hi m'; [split; [done|lia]|]. unfold m'. cbn [close_column].
  pose proof (word_in_row k Hk) as Hkw. rewrite bit_mask. fold (B m i k).
  set (m1 := if negb (B m i k) then m else or_row (Z.to_nat w) (row i) (row k) m).
  assert (Hap : i = k \/ row k + w <= row i \/ row i + w <= row k) by nia.
  assert (H1 : forall a, ld m1 a = if (row i <=? a) && (a <? row i + w) && B m i k then Z.lor (ld m a) (ld m (row k + (a - row i))) else ld m a).
  { intros a. unfold m1. destruct (B m i k); cbn [negb]; [|now rewrite andb_false_r]. rewrite andb_true_r, or_row_spec, Z2Nat.id by lia. done. }
  assert (Hrow : forall j b, 0 <= b < n -> B m1 j b = if j =? i then B m i b || (B m i k && B m k b) else B m j b).
  { intros j b Hb. pose proof (word_in_row b Hb) as Hbw. unfold B at 1, bit. rewrite H1. destruct (Z.eqb_spec j i) as [->|Hne].
    - rewrite (proj2 (Z.leb_le _ _)), (proj2 (Z.ltb_lt _ _)) by lia. cbn [andb].
      replace (row k + (row i + b / 32 - row i)) with (row k + b / 32) by lia.
      destruct (B m i k); [now rewrite Z.lor_spec|now rewrite orb_false_r].
    - assert (E : (row i <=? row j + b / 32) && (row j + b / 32 <? row i + w) = false); [|now rewrite E].
      apply andb_false_iff. rewrite Z.leb_gt, Z.ltb_ge. nia. }
  assert (Hk1 : forall b, 0 <= b < n -> B m1 k b = B m k b).
  { intros b Hb. rewrite Hrow by done. destruct (Z.eqb_spec k i) as [<-|]; [|done]. destruct (B m k k), (B m k b); done. }
  destruct (IH (i + 1) m1 ltac:(lia) ltac:(lia)) as [Hout Hin].
  replace (row (i + 1) + k / 32) with (row i + k / 32 + w) in * by lia. replace (row (i + 1)) with (row i + w) in * by lia. split.
  - intros a Ha. rewrite Hout, H1 by nia. assert (E : (row i <=? a) && (a <? row i + w) = false); [|now rewrite E].
    apply andb_false_iff. rewrite Z.leb_gt, Z.ltb_ge. nia.
  - intros j b Hj Hb. destruct (Z.eq_dec j i) as [->|Hne].
    + transitivity (B m1 i b).
      * unfold B, bit. rewrite Hout; [done|]. pose proof (word_in_row b Hb). nia.
      * rewrite Hrow, Z.eqb_refl by done. done.
    + rewrite Hin, Hk1, !Hrow by lia. now rewrite (proj2 (Z.eqb_neq _ _)) by done.
Qed.

(** ** The rows *)

(** Paths through the nodes below [k] only. *)
Fixpoint via (P : Z -> Z -> bool) (k : nat) (i j : Z) : bool :=
  match k with
  | O => P i j
  | S k => via P k i j || (via P k i (Z.of_nat k) && via P k (Z.of_nat k) j)
  end.

Lemma close_rows_spec m0 c : forall k m, Z.of_nat c + k = n -> 0 <= k ->
  (forall a, a < R \/ row n <= a -> ld m a = ld m0 a) ->
  (forall i j, 0 <= i < n -> 0 <= j < n -> B m i j = via (B m0) (Z.to_nat k) i j) ->
  let m' := close_rows c n w R (R + k / 32) (mask_of k) (row k) m in
  (forall a, a < R \/ row n <= a -> ld m' a = ld m0 a) /\
  (forall i j, 0 <= i < n -> 0 <= j < n -> B m' i j = via (B m0) (Z.to_nat n) i j).
Proof.
  induction c as [|c IH]; intros k m Hc Hk Hout Hin m'; unfold m'; cbn [close_rows].
  { split; [done|]. intros i j Hi Hj. rewrite Hin by done. do 2 f_equal. lia. }
  rewrite next_mask_zero, next_mask by done.
  assert (Hlt : 0 <= k < n) by lia.
  destruct (close_column_spec k Hlt (Z.to_nat n) 0 m ltac:(lia) ltac:(lia)) as [H1 H2].
  rewrite Z.mul_0_l, Z.add_0_r in *. set (m1 := close_column _ _ _ _ _ _ m) in *.
  assert (H3 : forall a, a < R \/ row n <= a -> ld m1 a = ld m0 a) by (intros a Ha; rewrite H1; auto).
  assert (H4 : forall i j, 0 <= i < n -> 0 <= j < n -> B m1 i j = via (B m0) (Z.to_nat (k + 1)) i j).
  { intros i j Hi Hj. rewrite H2, !Hin by lia. replace (Z.to_nat (k + 1)) with (S (Z.to_nat k)) by lia. cbn [via]. rewrite Z2Nat.id by lia. done. }
  specialize (IH (k + 1) m1 ltac:(lia) ltac:(lia) H3 H4). replace (row (k + 1)) with (row k + w) in IH by lia.
  destruct (Z.eqb_spec ((k + 1) mod 32) 0) as [E|E].
  - replace (R + (k + 1) / 32) with (R + k / 32 + 1) in IH by zlia.
    replace (mask_of (k + 1)) with 1 in IH by (unfold mask_of; now rewrite E). exact IH.
  - replace (R + (k + 1) / 32) with (R + k / 32) in IH by zlia. exact IH.
Qed.

Lemma transitive_closure_via m :
  let m' := transitive_closure R n m in
  (forall a, a < R \/ row n <= a -> ld m' a = ld m a) /\
  (forall i j, 0 <= i < n -> 0 <= j < n -> B m' i j = via (B m) (Z.to_nat n) i j).
Proof.
  pose proof (close_rows_spec m (Z.to_nat n) 0 m ltac:(lia) ltac:(lia) ltac:(done) ltac:(done)) as H.
  change (0 / 32) with 0 in H. change (mask_of 0) with 1 in H. now rewrite Z.mul_0_l, Z.add_0_r in H.
Qed.

(** ** Paths *)

(** The relation the matrix holds, on its [n] elements. *)
Definition related (P : Z -> Z -> bool) (i j : Z) : Prop := 0 <= i < n /\ 0 <= j < n /\ P i j = true.

Lemma via_mono P k i j : via P k i j = true -> via P (S k) i j = true.
Proof. cbn [via]. now intros ->. Qed.
Lemma via_le P k k' i j : (k <= k')%nat -> via P k i j = true -> via P k' i j = true.
Proof. induction 1; [done|]. intros H1. apply via_mono. auto. Qed.

(** A path through [k] is one in two parts. *)
Lemma via_trans P k k' i j : (k < k')%nat -> via P k' i (Z.of_nat k) = true -> via P k' (Z.of_nat k) j = true -> via P k' i j = true.
Proof.
  revert i j. induction k' as [|k' IH]; intros i j Hk; [lia|]. cbn [via]. rewrite !orb_true_iff, !andb_true_iff.
  destruct (decide (k = k')) as [->|Hne]; [tauto|]. specialize (IH) as IH0. assert (Hk' : (k < k')%nat) by lia.
  intros [H1|[H1 H2]] [H3|[H3 H4]].
  - left. now apply IH.
  - right. split; [now apply IH|done].
  - right. split; [done|now apply IH].
  - right. done.
Qed.

Lemma via_sound P k i j : (Z.of_nat k <= n) -> 0 <= i < n -> 0 <= j < n -> via P k i j = true -> clos_trans Z (related P) i j.
Proof.
  revert i j. induction k as [|k IH]; intros i j Hk Hi Hj; cbn [via]; [intros H; apply t_step; done|].
  rewrite orb_true_iff, andb_true_iff. intros [H|[H1 H2]]; [apply IH; done || lia|].
  apply (t_trans _ _ _ (Z.of_nat k)); apply IH; done || lia.
Qed.

Lemma clos_trans_range P i j : clos_trans Z (related P) i j -> 0 <= i < n /\ 0 <= j < n.
Proof. induction 1 as [x y (H1 & H2 & _)|x y z _ IH1 _ IH2]; tauto. Qed.

Lemma via_complete P i j : clos_trans Z (related P) i j -> via P (Z.to_nat n) i j = true.
Proof.
  induction 1 as [x y (Hx & Hy & H)|x y z H1 IH1 H2 IH2]; [now apply (via_le P 0); [lia|]|].
  destruct (clos_trans_range _ _ _ H1) as [_ Hy]. apply (via_trans P (Z.to_nat y)); [lia|now rewrite Z2Nat.id by lia..].
Qed.

Lemma transitive_closure_spec m :
  let m' := transitive_closure R n m in
  (forall a, a < R \/ row n <= a -> ld m' a = ld m a) /\
  (forall i j, 0 <= i < n -> 0 <= j < n -> B m' i j = true <-> clos_trans Z (related (B m)) i j).
Proof.
  destruct (transitive_closure_via m) as [H1 H2]. split; [done|]. intros i j Hi Hj. rewrite H2 by done.
  split; [apply via_sound; done || lia|apply via_complete].
Qed.

(** ** The diagonal *)

Lemma set_diagonal_spec c : forall k m, Z.of_nat c + k = n -> 0 <= k ->
  exists m', set_diagonal (S c) w (row n) (mask_of k) (row k + k / 32) m = Some m' /\
    (forall a, a < row k \/ row n <= a -> ld m' a = ld m a) /\
    (forall i j, 0 <= i < n -> 0 <= j < n -> B m' i j = B m i j || ((k <=? i) && (i =? j))).
Proof.
  induction c as [|c IH]; intros k m Hc Hk; cbn [set_diagonal].
  - assert (k = n) as -> by lia. rewrite (proj2 (Z.ltb_ge _ _)) by zlia. exists m. split; [done|]. split; [done|].
    intros i j Hi Hj. rewrite (proj2 (Z.leb_gt _ _)) by lia. now rewrite orb_false_r.
  - assert (Hlt : 0 <= k < n) by lia. pose proof (word_in_row k Hlt) as Hkw. rewrite (proj2 (Z.ltb_lt _ _)) by nia.
    rewrite next_mask_zero, next_mask by done. set (m1 := st m _ _).
    destruct (IH (k + 1) m1 ltac:(lia) ltac:(lia)) as (m' & E & H1 & H2). exists m'. split; [|split].
    + replace (row (k + 1)) with (row k + w) in E by lia. cbn [set_diagonal] in E.
      destruct (Z.eqb_spec ((k + 1) mod 32) 0) as [E0|E0].
      * replace (row k + w + (k + 1) / 32) with (row k + k / 32 + 1 + w) in E by zlia.
        replace (mask_of (k + 1)) with 1 in E by (unfold mask_of; now rewrite E0). exact E.
      * replace (row k + w + (k + 1) / 32) with (row k + k / 32 + w) in E by zlia. exact E.
    + intros a Ha. rewrite H1 by nia. unfold m1. apply ld_st_ne. nia.
    + intros i j Hi Hj. rewrite H2 by done. unfold B, m1. rewrite bit_set.
      pose proof (word_in_row j Hj) as Hjw. rewrite <- orb_assoc. f_equal.
      destruct (Z.eqb_spec (row i + j / 32) (row k + k / 32)) as [Ew|Ew].
      * destruct (rows_apart i k (j / 32) (k / 32) Hjw Hkw Ew) as [-> Ej].
        destruct (Z.eqb_spec (j mod 32) (k mod 32)) as [Em|Em]; cbn [andb orb].
        -- assert (k = j) as <- by zlia. now rewrite Z.leb_refl, Z.eqb_refl.
        -- rewrite (proj2 (Z.eqb_neq k j)) by (intros ->; done). now rewrite !andb_false_r.
      * cbn [andb orb]. destruct (Z.eqb_spec i j) as [<-|]; [|now rewrite !andb_false_r]. rewrite !andb_true_r.
        destruct (Z.leb_spec (k + 1) i), (Z.leb_spec k i); try done; [lia|]. assert (i = k) as -> by lia. done.
Qed.

Lemma rt_cases {A} (P : A -> A -> Prop) x y : clos_refl_trans A P x y -> x = y \/ clos_trans A P x y.
Proof.
  induction 1 as [x y H|x|x y z _ [->|IH1] _ [<-|IH2]]; auto; [right; now apply t_step|right; now apply (t_trans _ _ _ y)].
Qed.

Lemma rt_iff {A} (P Q : A -> A -> Prop) : (forall x y, P x y <-> Q x y) -> forall x y, clos_refl_trans A P x y <-> clos_refl_trans A Q x y.
Proof.
  intros H x y. split; (induction 1 as [a b Hab|a|a b c _ IH1 _ IH2]; [apply rt_step; now apply H|apply rt_refl|now apply (rt_trans _ _ _ b)]).
Qed.

Lemma reflexive_transitive_closure_spec m :
  exists m', reflexive_transitive_closure R n m = Some m' /\
  (forall a, a < R \/ row n <= a -> ld m' a = ld m a) /\
  (forall i j, 0 <= i < n -> 0 <= j < n -> B m' i j = true <-> clos_refl_trans Z (related (B m)) i j).
Proof.
  destruct (transitive_closure_spec m) as [H1 H2]. unfold reflexive_transitive_closure. cbn zeta.
  set (m1 := transitive_closure R n m) in *.
  destruct (set_diagonal_spec (Z.to_nat n) 0 m1 ltac:(lia) ltac:(lia)) as (m' & E & H3 & H4).
  change (0 / 32) with 0 in E. change (mask_of 0) with 1 in E. rewrite Z.mul_0_l, !Z.add_0_r in *.
  exists m'. split; [done|]. split; [intros a Ha; rewrite H3, H1; auto|].
  intros i j Hi Hj. rewrite H4, orb_true_iff, H2 by done. rewrite (proj2 (Z.leb_le 0 i)) by lia. cbn [andb]. rewrite Z.eqb_eq. split.
  - intros [H| ->]; [now apply clos_t_clos_rt|apply rt_refl].
  - intros [->|H]%rt_cases; [now right|now left].
Qed.
End Matrix.

(** ** The claim *)

(** The two routines compute the transitive closure, and the reflexive one, of the
    relation a matrix of bits holds, in place, for any number of elements and words in a
    row; they end, and write nothing outside the matrix. *)
Theorem warshall_correct R n m : 0 <= n ->
  let relates m i j := bit m (R + i * WORDSIZE n) j = true in
  let base i j := 0 <= i < n /\ 0 <= j < n /\ relates m i j in
  let inside a := R <= a < R + n * WORDSIZE n in
  (let m' := transitive_closure R n m in
   (forall i j, 0 <= i < n -> 0 <= j < n -> relates m' i j <-> clos_trans Z base i j) /\ (forall a, ~ inside a -> ld m' a = ld m a)) /\
  (exists m', reflexive_transitive_closure R n m = Some m' /\
   (forall i j, 0 <= i < n -> 0 <= j < n -> relates m' i j <-> clos_refl_trans Z base i j) /\ (forall a, ~ inside a -> ld m' a = ld m a)).
Proof.
  intros Hn relates base inside. split.
  - destruct (transitive_closure_spec R n Hn m) as [H1 H2]. split; [exact H2|]. intros a Ha. apply H1. unfold inside in Ha. lia.
  - destruct (reflexive_transitive_closure_spec R n Hn m) as (m' & E & H1 & H2). exists m'. split; [done|]. split; [exact H2|].
    intros a Ha. apply H1. unfold inside in Ha. lia.
Qed.

(** A cycle of three elements among 33, whose rows have two words. *)
Definition matrix_demo : mem := foldr (fun '(i, j) m => SETBIT m (100 + i * 2) j) ∅ [(0, 32); (32, 7); (7, 0)].

Lemma warshall_correct_witness :
  0 <= 33 /\ bit (transitive_closure 100 33 matrix_demo) (100 + 7 * WORDSIZE 33) 7 = true.
Proof.
  split; [lia|]. apply (proj1 (proj1 (warshall_correct 100 33 matrix_demo ltac:(lia))) 7 7); [lia..|].
  apply (t_trans _ _ _ 0); [|apply (t_trans _ _ _ 32)]; apply t_step; (split; [lia|split; [lia|reflexivity]]).
Defined.
