(* ===== verification/Closure.v ===== *)
(** * Closure of sets of items

    Models [yacc/closure.c] and [set_derives] of [yacc/lr0.c] on a packed grammar
    ([pack_grammar] of [yacc/reader.c]), and shows that [closure] computes the closure
    of a set of LR(0) items.  A pointer into an array that ends with a negative number
    is the list of what is left, with its end; sets of rules and of symbols are rows of
    bits in memory, as in [Warshall]. *)

From Stdlib Require Import Relation_Operators Operators_Properties.
From stdpp Require Import sorting.
From S2P Require Import Prelude Warshall.

(** The global variables of the packed grammar. *)
Record grammar := MkGrammar {
  start_symbol : Z;
  nsyms : Z;
  ntokens : Z;
  nvars : Z;
  nrules : Z;
  ritem : list Z;
  rlhs : list Z;
  rrhs : list Z
}.

(** An element of an array. *)
Definition at_ (l : list Z) (i : Z) : Z := nth (Z.to_nat i) l 0.

(** [allocate]: [k] cells, cleared by [calloc], from where the allocator puts them. *)
Fixpoint clear (k : nat) (p : Z) (m : mem) : mem := match k with O => m | S k => clear k (p + 1) (st m p 0) end.

Section Grammar.
Context (g : grammar).

Definition ISTOKEN (s : Z) : bool := s <? start_symbol g.
Definition ISVAR (s : Z) : bool := start_symbol g <=? s.

(** [for (i = i; i < nrules; i++)], [n] turns: the rules of [lhs], then the end. *)
Fixpoint rules_of (n : nat) (i lhs : Z) : list Z :=
  match n with
  | O => [-1]
  | S n => if at_ (rlhs g) i =? lhs then i :: rules_of n (i + 1) lhs else rules_of n (i + 1) lhs
  end.

(** [derives[lhs]] after [set_derives]. *)
Definition derives (lhs : Z) : list Z := rules_of (Z.to_nat (nrules g)) 0 lhs.

(** [for (rule = *sp; rule > 0; rule = *++sp)] *)
Fixpoint EFF_rules (sp : list Z) (row : Z) (m : mem) : mem :=
  match sp with
  | [] => m
  | rule :: sp =>
      if 0 <? rule then
        let symbol := at_ (ritem g) (at_ (rrhs g) rule) in
        EFF_rules sp row (if ISVAR symbol then SETBIT m row (symbol - start_symbol g) else m)
      else m
  end.

(** [for (i = i; i < nsyms; i++)], [n] turns. *)
Fixpoint EFF_rows (n : nat) (rowsize i row : Z) (m : mem) : mem :=
  match n with
  | O => m
  | S n => EFF_rows n rowsize (i + 1) (row + rowsize) (EFF_rules (derives i) row m)
  end.

(** [EFF]: where it is allocated. *)
Definition set_EFF (EFF : Z) (m : mem) : option mem :=
  let rowsize := WORDSIZE (nvars g) in
  let m := clear (Z.to_nat (nvars g * rowsize)) EFF m in
  let m := EFF_rows (Z.to_nat (nsyms g - start_symbol g)) rowsize (start_symbol g) EFF m in
  reflexive_transitive_closure EFF (nvars g) m.

(** [while ((rule = *rp++) >= 0)] *)
Fixpoint set_rules (rp : list Z) (rrow : Z) (m : mem) : mem :=
  match rp with
  | [] => m
  | rule :: rp => if 0 <=? rule then set_rules rp rrow (SETBIT m rrow rule) else m
  end.

(** [for (j = j; j < nsyms; j++)], [n] turns. *)
Fixpoint first_columns (n : nat) (j cword mask vrow rrow : Z) (m : mem) : mem :=
  match n with
  | O => m
  | S n =>
      let m := if Z.land cword mask =? 0 then m else set_rules (derives j) rrow m in
      let mask := u32 (Z.shiftl mask 1) in
      if mask =? 0 then first_columns n (j + 1) (ld m vrow) 1 (vrow + 1) rrow m
      else first_columns n (j + 1) cword mask vrow rrow m
  end.

(** [for (i = i; i < nsyms; i++)], [n] turns. *)
Fixpoint first_rows (n : nat) (EFF varsetsize rulesetsize i rrow : Z) (m : mem) : mem :=
  match n with
  | O => m
  | S n =>
      let vrow := EFF + (i - ntokens g) * varsetsize in
      let m := first_columns (Z.to_nat (nsyms g - start_symbol g)) (start_symbol g) (ld m vrow) 1 (vrow + 1) rrow m in
      first_rows n EFF varsetsize rulesetsize (i + 1) (rrow + rulesetsize) m
  end.

(** [p]: where [first_derives + ntokens * rulesetsize] is allocated; the variable
    [first_derives] and the memory. *)
Definition set_first_derives (p EFF : Z) (m : mem) : option (Z * mem) :=
  let rulesetsize := WORDSIZE (nrules g) in
  let varsetsize := WORDSIZE (nvars g) in
  let first_derives := p - ntokens g * rulesetsize in
  let m := clear (Z.to_nat (nvars g * rulesetsize)) p m in
  match set_EFF EFF m with
  | None => None
  | Some m =>
      Some (first_derives, first_rows (Z.to_nat (nsyms g - start_symbol g)) EFF varsetsize rulesetsize (start_symbol g)
                             (first_derives + ntokens g * rulesetsize) m)
  end.

(** [for (csp = nucleus; csp < csend; ++csp)] *)
Fixpoint add_rules (csp : list Z) (first_derives rulesetsize ruleset : Z) (m : mem) : mem :=
  match csp with
  | [] => m
  | item :: csp =>
      let symbol := at_ (ritem g) item in
      let m := if ISVAR symbol then or_row (Z.to_nat rulesetsize) ruleset (first_derives + symbol * rulesetsize) m else m in
      add_rules csp first_derives rulesetsize ruleset m
  end.

(** [while (csp < csend && *csp < itemno) *itemsetend++ = *csp++;] *)
Fixpoint copy_below (itemno : Z) (csp itemset : list Z) : list Z * list Z :=
  match csp with
  | item :: csp' => if item <? itemno then copy_below itemno csp' (itemset ++ [item]) else (csp, itemset)
  | [] => (csp, itemset)
  end.
(** [while (csp < csend && *csp == itemno) ++csp;] *)
Fixpoint skip_equal (itemno : Z) (csp : list Z) : list Z :=
  match csp with
  | item :: csp' => if item =? itemno then skip_equal itemno csp' else csp
  | [] => csp
  end.

(** [while (mask)], [n] turns. *)
Fixpoint merge_bits (n : nat) (word mask ruleno : Z) (csp itemset : list Z) : list Z * list Z :=
  match n with
  | O => (csp, itemset)
  | S n =>
      let (csp, itemset) :=
        if Z.land word mask =? 0 then (csp, itemset)
        else
          let itemno := at_ (rrhs g) ruleno in
          let (csp, itemset) := copy_below itemno csp itemset in
          (skip_equal itemno csp, itemset ++ [itemno]) in
      let mask := u32 (Z.shiftl mask 1) in
      if mask =? 0 then (csp, itemset) else merge_bits n word mask (ruleno + 1) csp itemset
  end.

(** [for (rsp = ruleset; rsp < rsend; ++rsp)], [n] words. *)
Fixpoint merge_words (n : nat) (rsp ruleno : Z) (m : mem) (csp itemset : list Z) : list Z * list Z :=
  match n with
  | O => (csp, itemset)
  | S n =>
      let word := ld m rsp in
      let (csp, itemset) := if word =? 0 then (csp, itemset) else merge_bits 32 word 1 ruleno csp itemset in
      merge_words n (rsp + 1) (ruleno + BITS_PER_WORD) m csp itemset
  end.

(** The item set from [itemset] to [itemsetend], and the memory. *)
Definition closure (ruleset first_derives : Z) (nucleus : list Z) (m : mem) : list Z * mem :=
  let rulesetsize := WORDSIZE (nrules g) in
  let m := clear (Z.to_nat rulesetsize) ruleset m in
  let m := add_rules nucleus first_derives rulesetsize ruleset m in
  let (csp, itemset) := merge_words (Z.to_nat rulesetsize) ruleset 0 m nucleus [] in
  (itemset ++ csp, m).
End Grammar.

(** ** Sets of bits *)

Lemma clear_spec k : forall p m a, ld (clear k p m) a = if (p <=? a) && (a <? p + Z.of_nat k) then 0 else ld m a.
Proof.
  induction k as [|k IH]; intros p m a; cbn [clear].
  - destruct (Z.leb_spec p a), (Z.ltb_spec a (p + Z.of_nat 0)); cbn [andb]; done || lia.
  - rewrite IH, ld_st. destruct (Z.leb_spec (p + 1) a), (Z.ltb_spec a (p + 1 + Z.of_nat k)), (Z.leb_spec p a), (Z.ltb_spec a (p + Z.of_nat (S k))), (Z.eqb_spec p a);
      cbn [andb]; done || lia.
Qed.

Lemma clear_out k p m a : a < p \/ p + Z.of_nat k <= a -> ld (clear k p m) a = ld m a.
Proof. intros H. rewrite clear_spec. destruct (Z.leb_spec p a), (Z.ltb_spec a (p + Z.of_nat k)); cbn [andb]; done || lia. Qed.
Lemma clear_in k p m a : p <= a < p + Z.of_nat k -> ld (clear k p m) a = 0.
Proof. intros H. rewrite clear_spec, (proj2 (Z.leb_le _ _)), (proj2 (Z.ltb_lt _ _)) by lia. done. Qed.

(** The bits [l] of the row at [r] are set. *)
Definition set_bits (r : Z) (l : list Z) (m : mem) : mem := fold_left (fun m b => SETBIT m r b) l m.

Lemma set_bits_spec n r l : 0 <= n -> Forall (fun b => 0 <= b < n) l -> forall m,
  let m' := set_bits r l m in
  (forall a, a < r \/ r + WORDSIZE n <= a -> ld m' a = ld m a) /\
  (forall b, 0 <= b < n -> bit m' r b = true <-> bit m r b = true \/ b ∈ l).
Proof.
  intros Hn. induction 1 as [|b l Hb Hl IH]; intros m m'; unfold m', set_bits; cbn [fold_left].
  - split; [done|]. intros b Hb. split; [now left|]. intros [H|H]; [done|now apply not_elem_of_nil in H].
  - destruct (IH (SETBIT m r b)) as [H1 H2]. fold (set_bits r l (SETBIT m r b)). pose proof (word_in_row n b Hb) as Hbw. split.
    + intros a Ha. rewrite H1 by done. rewrite SETBIT_mask. apply ld_st_ne. lia.
    + intros c Hc. rewrite H2, SETBIT_mask, bit_set, orb_true_iff, elem_of_cons, andb_true_iff, !Z.eqb_eq by done.
      pose proof (word_in_row n c Hc) as Hcw. split.
      * intros [[?|[? ?]]|?]; auto. right. left. zlia.
      * intros [?|[->|?]]; auto.
Qed.

Lemma row_word m m' r n b : 0 <= b < n -> (forall a, r <= a < r + WORDSIZE n -> ld m' a = ld m a) -> bit m' r b = bit m r b.
Proof. intros Hb H. unfold bit. rewrite H; [done|]. pose proof (word_in_row n b Hb). lia. Qed.

(** The same on all the bits of [w] words. *)
Lemma WORDSIZE_32 w : WORDSIZE (32 * w) = w.
Proof. unfold WORDSIZE, BITS_PER_WORD. zlia. Qed.
Lemma row_word32 m m' r w b : 0 <= b < 32 * w -> (forall a, r <= a < r + w -> ld m' a = ld m a) -> bit m' r b = bit m r b.
Proof. intros Hb H. apply (row_word _ _ _ (32 * w)); [done|]. now rewrite WORDSIZE_32. Qed.

Lemma bit_clear k p m r n b : 0 <= b < n -> p <= r -> r + WORDSIZE n <= p + Z.of_nat k -> bit (clear k p m) r b = false.
Proof. intros Hb H1 H2. unfold bit. pose proof (word_in_row n b Hb). rewrite clear_in by lia. apply Z.bits_0. Qed.

(** ** The grammar *)

(** The rules of a variable. *)
Definition rules (g : grammar) (lhs : Z) : list Z := filter (fun r => at_ (rlhs g) r = lhs) (seqZ 0 (nrules g)).

(** A packed grammar: rule 2 is the first one, items are numbered in the order of the rules. *)
Record grammar_ok (g : grammar) : Prop := {
  go_start : start_symbol g = ntokens g;
  go_nsyms : nsyms g = ntokens g + nvars g;
  go_nvars : 0 <= nvars g;
  go_nrules : 0 <= nrules g;
  go_rule r : 0 <= r < nrules g -> ISVAR g (at_ (rlhs g) r) = true -> 0 < r;
  go_order r r' : 0 < r < r' -> r' < nrules g -> at_ (rrhs g) r < at_ (rrhs g) r';
  go_symbol i : at_ (ritem g) i < nsyms g
}.

Lemma rules_of_filter g n : forall i lhs, rules_of g n i lhs = filter (fun r => at_ (rlhs g) r = lhs) (seqZ i (Z.of_nat n)) ++ [-1].
Proof.
  induction n as [|n IH]; intros i lhs; cbn [rules_of]; [done|].
  rewrite (seqZ_cons i) by lia. replace (Z.pred (Z.of_nat (S n))) with (Z.of_nat n) by lia. replace (Z.succ i) with (i + 1) by lia.
  rewrite filter_cons, IH. destruct (Z.eqb_spec (at_ (rlhs g) i) lhs), (decide (at_ (rlhs g) i = lhs)); done.
Qed.

Lemma derives_rules g lhs : 0 <= nrules g -> derives g lhs = rules g lhs ++ [-1].
Proof. intros Hn. unfold derives. rewrite rules_of_filter, Z2Nat.id by done. done. Qed.

Lemma elem_of_rules g lhs r : r ∈ rules g lhs <-> 0 <= r < nrules g /\ at_ (rlhs g) r = lhs.
Proof. unfold rules. rewrite list_elem_of_filter, elem_of_seqZ. lia. Qed.

Section GrammarOk.
Context (g : grammar) (OK : grammar_ok g).

(** The symbol a right-hand side begins with. *)
Definition first_symbol (r : Z) : Z := at_ (ritem g) (at_ (rrhs g) r).

(** The variables, by their rank, that begin a right-hand side of another. *)
Definition left_var (i j : Z) : Prop :=
  0 <= i < nvars g /\ 0 <= j < nvars g /\ exists r, r ∈ rules g (start_symbol g + i) /\ first_symbol r = start_symbol g + j.

Lemma rules_positive i r : 0 <= i -> r ∈ rules g (start_symbol g + i) -> 0 < r < nrules g.
Proof.
  intros Hi [Hr E]%elem_of_rules. split; [|lia]. apply (go_rule g OK); [done|]. unfold ISVAR. rewrite E. apply Z.leb_le. lia.
Qed.

Lemma set_rules_bits l rrow : Forall (fun r => 0 <= r) l -> forall m, set_rules (l ++ [-1]) rrow m = set_bits rrow l m.
Proof.
  induction 1 as [|r l Hr Hl IH]; intros m; cbn [app set_rules]; [done|]. rewrite (proj2 (Z.leb_le _ _)) by done. now rewrite IH.
Qed.

Lemma EFF_rules_bits l row : Forall (fun r => 0 < r) l -> forall m,
  EFF_rules g (l ++ [-1]) row m = set_bits row (map (fun r => first_symbol r - start_symbol g) (filter (fun r => ISVAR g (first_symbol r) = true) l)) m.
Proof.
  induction 1 as [|r l Hr Hl IH]; intros m; cbn [app EFF_rules]; [done|]. rewrite (proj2 (Z.ltb_lt _ _)) by done. cbn zeta.
  rewrite IH, filter_cons. fold (first_symbol r). destruct (ISVAR g (first_symbol r)); [rewrite decide_True by done|rewrite decide_False by done]; done.
Qed.

Abbreviation vs := (WORDSIZE (nvars g)).
Abbreviation rs := (WORDSIZE (nrules g)).
Abbreviation start := (start_symbol g).

(** The ranks of the variables the rules of the [i]-th one begin with. *)
Definition left_vars (i : Z) : list Z :=
  map (fun r => first_symbol r - start) (filter (fun r => ISVAR g (first_symbol r) = true) (rules g (start + i))).

Lemma elem_of_left_vars i j : 0 <= i < nvars g -> j ∈ left_vars i <-> left_var i j.
Proof.
  intros Hi. unfold left_vars, left_var. rewrite list_elem_of_fmap. split.
  - intros (r & -> & [Hv Hr]%list_elem_of_filter). pose proof (go_symbol g OK (at_ (rrhs g) r)) as Hs. fold (first_symbol r) in Hs.
    rewrite (go_nsyms g OK), <- (go_start g OK) in Hs. unfold ISVAR in Hv. apply Z.leb_le in Hv. split; [done|]. split; [lia|]. exists r. split; [done|lia].
  - intros (_ & Hj & r & Hr & E). exists r. split; [lia|]. apply list_elem_of_filter. split; [|done]. unfold ISVAR. apply Z.leb_le. lia.
Qed.

Lemma EFF_row i row m : 0 <= i < nvars g ->
  let m' := EFF_rules g (derives g (start + i)) row m in
  (forall a, a < row \/ row + vs <= a -> ld m' a = ld m a) /\
  (forall j, 0 <= j < nvars g -> bit m' row j = true <-> bit m row j = true \/ left_var i j).
Proof.
  intros Hi m'. unfold m'. rewrite derives_rules, EFF_rules_bits by (apply OK || (apply Forall_forall; intros r Hr; now apply (rules_positive i))).
  assert (Hl : Forall (fun b => 0 <= b < nvars g) (left_vars i)) by (apply Forall_forall; intros j Hj; apply (elem_of_left_vars i j Hi) in Hj; apply Hj).
  destruct (set_bits_spec (nvars g) row (left_vars i) (go_nvars g OK) Hl m) as [H1 H2]. split; [exact H1|].
  intros j Hj. rewrite <- elem_of_left_vars by done. now apply H2.
Qed.

Lemma EFF_rows_spec n EFF : forall i m, Z.of_nat n + i = nvars g -> 0 <= i ->
  let m' := EFF_rows g n vs (start + i) (EFF + i * vs) m in
  (forall a, a < EFF + i * vs \/ EFF + nvars g * vs <= a -> ld m' a = ld m a) /\
  (forall k j, i <= k < nvars g -> 0 <= j < nvars g -> bit m' (EFF + k * vs) j = true <-> bit m (EFF + k * vs) j = true \/ left_var k j).
Proof.
  induction n as [|n IH]; intros i m Hn Hi m'; unfold m'; cbn [EFF_rows]; [split; [done|lia]|].
  assert (Hi2 : 0 <= i < nvars g) by lia. destruct (EFF_row i (EFF + i * vs) m Hi2) as [H1 H2]. set (m1 := EFF_rules _ _ _ m) in *.
  assert (Hv : 0 < vs) by (apply WORDSIZE_pos; lia).
  destruct (IH (i + 1) m1 ltac:(lia) ltac:(lia)) as [H3 H4].
  replace (EFF + (i + 1) * vs) with (EFF + i * vs + vs) in * by lia. replace (start + (i + 1)) with (start + i + 1) in * by lia. split.
  - intros a Ha. rewrite H3, H1 by nia. done.
  - intros k j Hk Hj. destruct (Z.eq_dec k i) as [->|Hne].
    + rewrite (row_word m1 _ _ (nvars g)), H2 by (done || intros a Ha; apply H3; nia). done.
    + rewrite H4 by lia. rewrite (row_word m m1 _ (nvars g)) by (done || intros a Ha; apply H1; nia). done.
Qed.

(** [EFF]: the variables that begin the words a variable derives from the left. *)
Lemma set_EFF_spec EFF m : exists m', set_EFF g EFF m = Some m' /\
  (forall a, a < EFF \/ EFF + nvars g * vs <= a -> ld m' a = ld m a) /\
  (forall i j, 0 <= i < nvars g -> 0 <= j < nvars g -> bit m' (EFF + i * vs) j = true <-> clos_refl_trans Z left_var i j).
Proof.
  pose proof (go_nvars g OK) as Hv. assert (Hw : 0 <= vs) by (unfold WORDSIZE, BITS_PER_WORD; zlia).
  unfold set_EFF. rewrite (go_nsyms g OK), <- (go_start g OK). replace (start + nvars g - start) with (nvars g) by lia.
  set (m1 := clear _ _ m). destruct (EFF_rows_spec (Z.to_nat (nvars g)) EFF 0 m1 ltac:(lia) ltac:(lia)) as [H1 H2].
  rewrite Z.mul_0_l, !Z.add_0_r in *. set (m2 := EFF_rows _ _ _ _ _ _) in *.
  destruct (reflexive_transitive_closure_spec EFF (nvars g) Hv m2) as (m' & E & H3 & H4). exists m'. split; [done|]. split.
  - intros a Ha. rewrite H3, H1 by done. apply clear_out. nia.
  - intros i j Hi Hj. unfold B in H4. rewrite H4 by done.
    assert (Hr : forall i j, related (nvars g) (fun i j => bit m2 (EFF + i * vs) j) i j <-> left_var i j).
    { intros a b. unfold related. split.
      - intros (Ha & Hb & Hab). apply H2 in Hab as [Hab|Hab]; [|done..]. unfold m1 in Hab. rewrite (bit_clear _ _ _ _ (nvars g)) in Hab by (done || nia). done.
      - intros Hab. pose proof Hab as (Ha & Hb & _). split; [done|]. split; [done|]. apply H2; [done..|]. now right. }
    now apply rt_iff.
Qed.

(** ** The first derivations *)

(** The rules a variable may begin with. *)
Definition derivable (i r : Z) : Prop := exists j, 0 <= j < nvars g /\ clos_refl_trans Z left_var i j /\ r ∈ rules g (start + j).

Lemma set_rules_spec l rrow m : Forall (fun r => 0 <= r < nrules g) l ->
  let m' := set_rules (l ++ [-1]) rrow m in
  (forall a, a < rrow \/ rrow + rs <= a -> ld m' a = ld m a) /\
  (forall r, 0 <= r < 32 * rs -> bit m' rrow r = true <-> bit m rrow r = true \/ r ∈ l).
Proof.
  intros Hl m'. unfold m'. rewrite set_rules_bits by (eapply Forall_impl; [exact Hl|]; cbn; lia).
  assert (Hr : nrules g <= 32 * rs) by (unfold WORDSIZE, BITS_PER_WORD; zlia). pose proof (go_nrules g OK).
  destruct (set_bits_spec (32 * rs) rrow l ltac:(lia) ltac:(eapply Forall_impl; [exact Hl|]; cbn; lia) m) as [H1 H2]. now rewrite WORDSIZE_32 in H1.
Qed.

(** The row of [EFF] is read word by word. *)
Lemma first_columns_spec EFFrow rrow n : rrow + rs <= EFFrow \/ EFFrow + vs <= rrow -> forall j m, Z.of_nat n + j = nvars g -> 0 <= j ->
  let m' := first_columns g n (start + j) (ld m (EFFrow + j / 32)) (mask_of j) (EFFrow + j / 32 + 1) rrow m in
  (forall a, a < rrow \/ rrow + rs <= a -> ld m' a = ld m a) /\
  (forall r, 0 <= r < 32 * rs -> bit m' rrow r = true <->
     bit m rrow r = true \/ exists k, j <= k < nvars g /\ bit m EFFrow k = true /\ r ∈ rules g (start + k)).
Proof.
  intros Hd. induction n as [|n IH]; intros j m Hn Hj m'; unfold m'; cbn [first_columns].
  { split; [done|]. intros r Hr. split; [now left|]. intros [H|(k & Hk & _)]; [done|lia]. }
  assert (Hj2 : 0 <= j < nvars g) by lia. pose proof (word_in_row (nvars g) j Hj2) as Hjw.
  rewrite next_mask_zero, next_mask, bit_mask, derives_rules by (apply OK || done).
  set (m1 := if negb (bit m EFFrow j) then m else set_rules (rules g (start + j) ++ [-1]) rrow m).
  assert (Hl : Forall (fun r => 0 <= r < nrules g) (rules g (start + j))) by (apply Forall_forall; intros r Hr; now apply elem_of_rules in Hr).
  destruct (set_rules_spec _ rrow m Hl) as [H1 H2].
  assert (H3 : forall a, a < rrow \/ rrow + rs <= a -> ld m1 a = ld m a) by (intros a Ha; unfold m1; destruct (negb _); [done|now apply H1]).
  assert (H4 : forall r, 0 <= r < 32 * rs -> bit m1 rrow r = true <-> bit m rrow r = true \/ (bit m EFFrow j = true /\ r ∈ rules g (start + j))).
  { intros r Hr. unfold m1. destruct (bit m EFFrow j); cbn [negb]; [rewrite H2 by done|]; intuition congruence. }
  assert (H5 : forall a, EFFrow <= a < EFFrow + vs -> ld m1 a = ld m a) by (intros a Ha; apply H3; lia).
  clearbody m1. specialize (IH (j + 1) m1 ltac:(lia) ltac:(lia)). replace (start + (j + 1)) with (start + j + 1) in IH by lia.
  assert (Hgoal : first_columns g n (start + j + 1) (ld m1 (EFFrow + (j + 1) / 32)) (mask_of (j + 1)) (EFFrow + (j + 1) / 32 + 1) rrow m1 =
    if (j + 1) mod 32 =? 0 then first_columns g n (start + j + 1) (ld m1 (EFFrow + j / 32 + 1)) 1 (EFFrow + j / 32 + 1 + 1) rrow m1
    else first_columns g n (start + j + 1) (ld m (EFFrow + j / 32)) (if (j + 1) mod 32 =? 0 then 0 else mask_of (j + 1)) (EFFrow + j / 32 + 1) rrow m1).
  { destruct (Z.eqb_spec ((j + 1) mod 32) 0) as [E|E].
    - replace ((j + 1) / 32) with (j / 32 + 1) by zlia. rewrite !Z.add_assoc. unfold mask_of. now rewrite E.
    - replace ((j + 1) / 32) with (j / 32) by zlia. now rewrite H5 by lia. }
  rewrite <- Hgoal. destruct IH as [H6 H7]. split; [intros a Ha; now rewrite H6, H3|].
  intros r Hr. rewrite H7, H4 by done. assert (Hb : forall k, 0 <= k < nvars g -> bit m1 EFFrow k = bit m EFFrow k) by (intros k Hk; now apply (row_word _ _ _ (nvars g))).
  split.
  - intros [[H|[H H']]|(k & Hk & H & H')]; [now left|right; exists j; split; [lia|done]|right; exists k; rewrite <- Hb by lia; split; [lia|done]].
  - intros [H|(k & Hk & H & H')]; [now left; left|]. destruct (Z.eq_dec k j) as [->|]; [now left; right|].
    right. exists k. rewrite Hb by lia. split; [lia|done].
Qed.

Lemma WORDSIZE_nonneg n : 0 <= n -> 0 <= WORDSIZE n.
Proof. unfold WORDSIZE, BITS_PER_WORD. zlia. Qed.

Lemma first_rows_spec EFF p n : p + nvars g * rs <= EFF \/ EFF + nvars g * vs <= p -> forall i m, Z.of_nat n + i = nvars g -> 0 <= i ->
  let m' := first_rows g n EFF vs rs (start + i) (p + i * rs) m in
  (forall a, a < p + i * rs \/ p + nvars g * rs <= a -> ld m' a = ld m a) /\
  (forall k r, i <= k < nvars g -> 0 <= r < 32 * rs -> bit m' (p + k * rs) r = true <->
     bit m (p + k * rs) r = true \/ exists j, 0 <= j < nvars g /\ bit m (EFF + k * vs) j = true /\ r ∈ rules g (start + j)).
Proof.
  intros Hd. pose proof (WORDSIZE_nonneg _ (go_nrules g OK)) as Hrs. pose proof (WORDSIZE_nonneg _ (go_nvars g OK)) as Hvs.
  induction n as [|n IH]; intros i m Hn Hi m'; unfold m'; cbn [first_rows]; [split; [done|lia]|].
  assert (Hi2 : 0 <= i < nvars g) by lia.
  replace (start + i - ntokens g) with i by (rewrite <- (go_start g OK); lia).
  assert (Hdr : p + i * rs + rs <= EFF + i * vs \/ EFF + i * vs + vs <= p + i * rs) by nia.
  rewrite (go_nsyms g OK), <- (go_start g OK). replace (start + nvars g - start) with (nvars g) by lia.
  destruct (first_columns_spec (EFF + i * vs) (p + i * rs) (Z.to_nat (nvars g)) Hdr 0 m ltac:(lia) ltac:(lia)) as [H1 H2].
  change (0 / 32) with 0 in *. change (mask_of 0) with 1 in *. rewrite !Z.add_0_r in *. set (m1 := first_columns _ _ _ _ _ _ _ m) in *.
  destruct (IH (i + 1) m1 ltac:(lia) ltac:(lia)) as [H3 H4].
  replace (p + (i + 1) * rs) with (p + i * rs + rs) in * by lia. replace (start + (i + 1)) with (start + i + 1) in * by lia. split.
  - intros a Ha. rewrite H3, H1 by nia. done.
  - intros k r Hk Hr. destruct (Z.eq_dec k i) as [->|Hne].
    + rewrite (row_word32 m1 _ _ rs), H2 by (done || intros a Ha; apply H3; nia). done.
    + rewrite H4 by lia. rewrite (row_word32 m m1 _ rs) by (done || intros a Ha; apply H1; nia).
      assert (E : forall j, 0 <= j < nvars g -> bit m1 (EFF + k * vs) j = bit m (EFF + k * vs) j) by (intros j Hj; apply (row_word _ _ _ (nvars g)); [done|]; intros a Ha; apply H1; nia).
      split; (intros [H|(j & Hj & H & H')]; [now left|right; exists j]); [rewrite <- E|rewrite E]; done.
Qed.

Lemma set_first_derives_spec p EFF m : p + nvars g * rs <= EFF \/ EFF + nvars g * vs <= p ->
  exists fd m', set_first_derives g p EFF m = Some (fd, m') /\ fd = p - start * rs /\
  (forall a, (a < EFF \/ EFF + nvars g * vs <= a) -> (a < p \/ p + nvars g * rs <= a) -> ld m' a = ld m a) /\
  (forall i r, 0 <= i < nvars g -> 0 <= r < 32 * rs -> bit m' (fd + (start + i) * rs) r = true <-> derivable i r).
Proof.
  intros Hd. pose proof (WORDSIZE_nonneg _ (go_nrules g OK)) as Hrs. pose proof (WORDSIZE_nonneg _ (go_nvars g OK)) as Hvs. pose proof (go_nvars g OK) as Hnv.
  unfold set_first_derives. set (m1 := clear _ p m). destruct (set_EFF_spec EFF m1) as (m2 & E & H1 & H2). rewrite E.
  rewrite (go_nsyms g OK), <- (go_start g OK). replace (start + nvars g - start) with (nvars g) by lia.
  eexists _, _. split; [reflexivity|]. split; [done|]. replace (p - start * rs + start * rs) with p by lia.
  destruct (first_rows_spec EFF p (Z.to_nat (nvars g)) Hd 0 m2 ltac:(lia) ltac:(lia)) as [H3 H4]. rewrite !Z.mul_0_l, !Z.add_0_r in *.
  split; [intros a Ha Hp; rewrite H3, H1 by done; apply clear_out; nia|].
  intros i r Hi Hr. replace (p - start * rs + (start + i) * rs) with (p + i * rs) by lia. rewrite H4 by done.
  assert (E0 : bit m2 (p + i * rs) r = false).
  { rewrite (row_word32 m1 m2 _ rs) by (done || intros a Ha; apply H1; nia). apply (bit_clear _ _ _ _ (32 * rs)); [done|nia|rewrite WORDSIZE_32; nia]. }
  rewrite E0. unfold derivable. split; [intros [H|(j & Hj & H & H')]; [done|]|intros (j & Hj & H & H'); right]; exists j; (split; [done|]; split; [now apply H2|done]).
Qed.

(** ** The rules of a nucleus *)

Lemma add_rules_spec fd ruleset l : forall m,
  Forall (fun item => ISVAR g (at_ (ritem g) item) = true ->
    ruleset + rs <= fd + at_ (ritem g) item * rs \/ fd + at_ (ritem g) item * rs + rs <= ruleset) l ->
  let m' := add_rules g l fd rs ruleset m in
  (forall a, a < ruleset \/ ruleset + rs <= a -> ld m' a = ld m a) /\
  (forall r, 0 <= r < 32 * rs -> bit m' ruleset r = true <-> bit m ruleset r = true \/
     exists item, item ∈ l /\ ISVAR g (at_ (ritem g) item) = true /\ bit m (fd + at_ (ritem g) item * rs) r = true).
Proof.
  pose proof (WORDSIZE_nonneg _ (go_nrules g OK)) as Hrs.
  induction l as [|item l IH]; intros m Hl m'; unfold m'; cbn [add_rules].
  { split; [done|]. intros r Hr. split; [now left|]. intros [H|(x & Hx & _)]; [done|now apply not_elem_of_nil in Hx]. }
  inversion Hl as [|? ? Hi Hl']; subst. set (m1 := if ISVAR g _ then or_row _ _ _ m else m).
  set (row := fd + at_ (ritem g) item * rs) in *.
  assert (H1 : forall a, ld m1 a = if (ruleset <=? a) && (a <? ruleset + rs) && ISVAR g (at_ (ritem g) item) then Z.lor (ld m a) (ld m (row + (a - ruleset))) else ld m a).
  { intros a. unfold m1. destruct (ISVAR g _); [|now rewrite andb_false_r]. rewrite andb_true_r, or_row_spec, Z2Nat.id by (specialize (Hi eq_refl); lia). done. }
  destruct (IH m1 Hl') as [H2 H3]. clearbody m1. split.
  { intros a Ha. rewrite H2, H1 by done. destruct (Z.leb_spec ruleset a), (Z.ltb_spec a (ruleset + rs)); cbn [andb]; done || lia. }
  intros r Hr. rewrite H3 by done. pose proof (word_in_row (32 * rs) r Hr) as Hrw. rewrite WORDSIZE_32 in Hrw.
  assert (E1 : bit m1 ruleset r = bit m ruleset r || (ISVAR g (at_ (ritem g) item) && bit m row r)).
  { unfold bit. rewrite H1, (proj2 (Z.leb_le _ _)), (proj2 (Z.ltb_lt _ _)) by lia. cbn [andb].
    destruct (ISVAR g _); cbn [andb]; [|now rewrite orb_false_r]. rewrite Z.lor_spec. do 3 f_equal. lia. }
  assert (E2 : forall it, it ∈ l -> ISVAR g (at_ (ritem g) it) = true -> bit m1 (fd + at_ (ritem g) it * rs) r = bit m (fd + at_ (ritem g) it * rs) r).
  { intros it Hit Hv. apply (row_word32 _ _ _ rs); [done|]. intros a Ha. rewrite H1. rewrite Forall_forall in Hl'. specialize (Hl' it Hit Hv).
    destruct (Z.leb_spec ruleset a), (Z.ltb_spec a (ruleset + rs)); cbn [andb]; done || lia. }
  rewrite E1, orb_true_iff, andb_true_iff. split.
  - intros [[H|[H H']]|(it & Hit & Hv & H)]; [now left|right; exists item; split; [apply list_elem_of_here|done]|right; exists it].
    split; [now apply list_elem_of_further|]. split; [done|]. now rewrite <- E2.
  - intros [H|(it & [->|Hit]%elem_of_cons & Hv & H)]; [now left; left|left; right; done|right; exists it]. rewrite E2; done.
Qed.

(** ** The merge *)

(** One rule of the set. *)
Definition merge_rule (p : list Z * list Z) (r : Z) : list Z * list Z :=
  let itemno := at_ (rrhs g) r in
  let (csp, itemset) := copy_below itemno p.1 p.2 in
  (skip_equal itemno csp, itemset ++ [itemno]).

(** The rules of the row at [row], from [lo] on, among [n]. *)
Definition members (m : mem) (row lo n : Z) : list Z := filter (fun r => bit m row r = true) (seqZ lo n).

Lemma members_cons m row lo n : 0 < n -> members m row lo n = (if bit m row lo then [lo] else []) ++ members m row (lo + 1) (n - 1).
Proof.
  intros Hn. unfold members. rewrite (seqZ_cons lo) by lia. replace (Z.succ lo) with (lo + 1) by lia. replace (Z.pred n) with (n - 1) by lia.
  rewrite filter_cons. destruct (bit m row lo); [rewrite decide_True by done|rewrite decide_False by done]; done.
Qed.

Lemma merge_bits_fold m row n : forall k p, 0 <= k -> Z.of_nat n = 32 - k mod 32 ->
  merge_bits g n (ld m (row + k / 32)) (mask_of k) k p.1 p.2 = fold_left merge_rule (members m row k (Z.of_nat n)) p.
Proof.
  induction n as [|n IH]; intros k p Hk Hn; [zlia|]. cbn [merge_bits]. rewrite bit_mask, next_mask_zero, next_mask by done.
  rewrite members_cons by lia. replace (Z.of_nat (S n) - 1) with (Z.of_nat n) by lia.
  destruct (Z.eqb_spec ((k + 1) mod 32) 0) as [E|E].
  - assert (n = O) as -> by zlia. change (members m row (k + 1) (Z.of_nat 0)) with (@nil Z). rewrite app_nil_r.
    destruct (bit m row k); cbn [negb fold_left]; [unfold merge_rule; now destruct (copy_below _ _ _)|now destruct p].
  - specialize (IH (k + 1)). replace ((k + 1) / 32) with (k / 32) in IH by zlia.
    destruct (bit m row k); cbn [negb app fold_left].
    + unfold merge_rule at 2. destruct (copy_below (at_ (rrhs g) k) p.1 p.2) as [csp out] eqn:Ec.
      apply (IH (skip_equal (at_ (rrhs g) k) csp, out ++ [at_ (rrhs g) k])); zlia.
    + apply IH; zlia.
Qed.

Lemma members_none m row lo n : (forall r, lo <= r < lo + n -> bit m row r = false) -> members m row lo n = [].
Proof.
  intros H. unfold members. destruct (filter _ _) as [|x l] eqn:E; [done|].
  assert (Hx : x ∈ x :: l) by apply list_elem_of_here. rewrite <- E in Hx. apply list_elem_of_filter in Hx as [Hb Hx%elem_of_seqZ]. now rewrite H in Hb.
Qed.

Lemma members_app m row lo n n' : 0 <= n -> 0 <= n' -> members m row lo (n + n') = members m row lo n ++ members m row (lo + n) n'.
Proof. intros. unfold members. now rewrite seqZ_app, filter_app by done. Qed.

Lemma merge_words_fold m row n : forall k p, 0 <= k ->
  merge_words g n (row + k) (32 * k) m p.1 p.2 = fold_left merge_rule (members m row (32 * k) (32 * Z.of_nat n)) p.
Proof.
  induction n as [|n IH]; intros k p Hk; cbn [merge_words]; [now destruct p|].
  replace (32 * Z.of_nat (S n)) with (32 + 32 * Z.of_nat n) by lia. rewrite members_app, fold_left_app by lia.
  assert (E : (if ld m (row + k) =? 0 then (p.1, p.2) else merge_bits g 32 (ld m (row + k)) 1 (32 * k) p.1 p.2) =
    fold_left merge_rule (members m row (32 * k) 32) p).
  { destruct (Z.eqb_spec (ld m (row + k)) 0) as [E|E].
    - rewrite members_none; [now destruct p|]. intros r Hr. unfold bit. replace (r / 32) with k by zlia. rewrite E. apply Z.bits_0.
    - pose proof (merge_bits_fold m row 32 (32 * k) p ltac:(lia) ltac:(zlia)) as H. replace (32 * k / 32) with k in H by zlia.
      replace (mask_of (32 * k)) with 1 in H; [exact H|]. unfold mask_of. replace (32 * k mod 32) with 0 by zlia. done. }
  rewrite E. destruct (fold_left merge_rule (members m row (32 * k) 32) p) as [csp out].
  specialize (IH (k + 1) (csp, out) ltac:(lia)). cbn [fst snd] in IH.
  replace (row + k + 1) with (row + (k + 1)) by lia. replace (32 * k + BITS_PER_WORD) with (32 * (k + 1)) by (unfold BITS_PER_WORD; lia).
  replace (32 * k + 32) with (32 * (k + 1)) by lia. exact IH.
Qed.

(** Increasing lists. *)
Abbreviation increasing := (StronglySorted Z.lt).

Lemma copy_below_spec x l : forall out, increasing (out ++ l) ->
  exists l1 l2, copy_below x l out = (l2, out ++ l1) /\ l = l1 ++ l2 /\ Forall (fun y => y < x) l1 /\ Forall (fun y => x <= y) l2.
Proof.
  induction l as [|y l IH]; intros out Hs; cbn [copy_below].
  - exists [], []. now rewrite app_nil_r.
  - destruct (Z.ltb_spec y x) as [Hlt|Hge].
    + destruct (IH (out ++ [y])) as (l1 & l2 & E & -> & H1 & H2); [now rewrite <- app_assoc|].
      exists (y :: l1), l2. rewrite E, <- app_assoc. split; [done|]. split; [done|]. split; [now constructor|done].
    + exists [], (y :: l). rewrite app_nil_r. split; [done|]. split; [done|]. split; [constructor|].
      apply StronglySorted_app in Hs as (_ & _ & Hs). inversion Hs as [|? ? Hl Hy]; subst. constructor; [done|].
      eapply Forall_impl; [exact Hy|]. cbn. lia.
Qed.

Lemma skip_equal_spec x l : increasing l -> Forall (fun y => x <= y) l ->
  increasing (x :: skip_equal x l) /\ forall y, y ∈ x :: skip_equal x l <-> y = x \/ y ∈ l.
Proof.
  intros Hs Hf. destruct l as [|y l]; cbn [skip_equal]; [split; [repeat constructor|]; intros y; now rewrite elem_of_cons|].
  inversion Hs as [|? ? Hl Hy]; subst. inversion Hf as [|? ? Hxy Hf']; subst.
  destruct (Z.eqb_spec y x) as [->|Hne].
  - assert (E : skip_equal x l = l). { destruct l as [|z l]; [done|]. cbn [skip_equal]. inversion Hy; subst. now rewrite (proj2 (Z.eqb_neq _ _)) by lia. }
    rewrite E. split; [done|]. intros z. rewrite elem_of_cons. tauto.
  - split; [|intros z; now rewrite elem_of_cons]. constructor; [done|]. constructor; [lia|]. eapply Forall_impl; [exact Hy|]. cbn. lia.
Qed.

Lemma merge_rule_spec csp out r : increasing (out ++ csp) -> Forall (fun x => x < at_ (rrhs g) r) out ->
  let p := merge_rule (csp, out) r in
  increasing (p.2 ++ p.1) /\ (forall x, x ∈ p.2 ++ p.1 <-> x ∈ out ++ csp \/ x = at_ (rrhs g) r) /\
  Forall (fun x => x <= at_ (rrhs g) r) p.2.
Proof.
  intros Hs Hout p. unfold p, merge_rule. cbn [fst snd]. set (x := at_ (rrhs g) r) in *.
  destruct (copy_below_spec x csp out Hs) as (l1 & l2 & E & -> & H1 & H2). rewrite E. cbn [fst snd].
  rewrite app_assoc in Hs. apply StronglySorted_app in Hs as (Hlt & Hs1 & Hs2).
  destruct (skip_equal_spec x l2 Hs2 H2) as [H3 H4]. rewrite <- app_assoc. cbn [app]. split; [|split].
  - apply StronglySorted_app. split; [|split; [done|done]]. intros a b Ha Hb%H4. 
    assert (a < x) by (apply elem_of_app in Ha as [Ha|Ha]; [rewrite Forall_forall in Hout|rewrite Forall_forall in H1]; auto).
    destruct Hb as [->|Hb]; [done|]. rewrite Forall_forall in H2. specialize (H2 b Hb). lia.
  - intros y. rewrite elem_of_app, H4, !elem_of_app. tauto.
  - rewrite !Forall_app. split; [split|]; [eapply Forall_impl; [exact Hout|]; cbn; lia|eapply Forall_impl; [exact H1|]; cbn; lia|].
    repeat constructor. lia.
Qed.

Lemma merge_rules_spec l : forall csp out, increasing (out ++ csp) -> increasing (map (at_ (rrhs g)) l) ->
  (forall r x, r ∈ l -> x ∈ out -> x < at_ (rrhs g) r) ->
  let p := fold_left merge_rule l (csp, out) in
  increasing (p.2 ++ p.1) /\ (forall x, x ∈ p.2 ++ p.1 <-> x ∈ out ++ csp \/ exists r, r ∈ l /\ x = at_ (rrhs g) r).
Proof.
  induction l as [|r l IH]; intros csp out Hs Hl Hout p; unfold p; cbn [fold_left].
  - split; [done|]. intros x. split; [now left|]. intros [H|(r & Hr & _)]; [done|now apply not_elem_of_nil in Hr].
  - cbn [map] in Hl. inversion Hl as [|? ? Hl' Hr]; subst.
    destruct (merge_rule_spec csp out r Hs) as (H1 & H2 & H3); [apply Forall_forall; intros x Hx; apply Hout; [apply list_elem_of_here|done]|].
    destruct (merge_rule (csp, out) r) as [csp' out'] eqn:E. cbn [fst snd] in *.
    destruct (IH csp' out' H1 Hl') as [H4 H5].
    + intros r' x Hr' Hx. rewrite Forall_forall in H3, Hr. specialize (H3 x Hx). specialize (Hr (at_ (rrhs g) r') ltac:(apply list_elem_of_fmap; eauto)). lia.
    + split; [exact H4|]. intros x. rewrite H5, H2. split.
      * intros [[H|H]|(r' & Hr' & H)]; [now left|right; exists r; split; [apply list_elem_of_here|done]|right; exists r'; split; [now apply list_elem_of_further|done]].
      * intros [H|(r' & [->|Hr']%elem_of_cons & H)]; [now left; left|now left; right|right; now exists r'].
Qed.

(** ** The closure of a set of items *)

(** The items of a state: those of its nucleus, and the beginnings of the rules of every variable after a dot. *)
Inductive in_closure (nucleus : list Z) : Z -> Prop :=
| closure_nucleus x : x ∈ nucleus -> in_closure nucleus x
| closure_rule x r : in_closure nucleus x -> ISVAR g (at_ (ritem g) x) = true -> r ∈ rules g (at_ (ritem g) x) ->
    in_closure nucleus (at_ (rrhs g) r).

Lemma symbol_range x : ISVAR g (at_ (ritem g) x) = true -> 0 <= at_ (ritem g) x - start < nvars g.
Proof.
  unfold ISVAR. intros H%Z.leb_le. pose proof (go_symbol g OK x) as Hs. rewrite (go_nsyms g OK), <- (go_start g OK) in Hs. lia.
Qed.

Lemma in_closure_derivable nucleus x : in_closure nucleus x <->
  x ∈ nucleus \/ exists item, item ∈ nucleus /\ ISVAR g (at_ (ritem g) item) = true /\
    exists r, derivable (at_ (ritem g) item - start) r /\ x = at_ (rrhs g) r.
Proof.
  split.
  - induction 1 as [x Hx|x r _ IH Hv Hr]; [now left|right]. pose proof (symbol_range x Hv) as Hs.
    destruct IH as [Hx|(item & Hi & Hvi & r0 & (j & Hj & Hl & Hr0) & ->)].
    + exists x. split; [done|]. split; [done|]. exists r. split; [|done]. exists (at_ (ritem g) x - start). split; [done|]. split; [apply rt_refl|].
      now replace (start + (at_ (ritem g) x - start)) with (at_ (ritem g) x) by lia.
    + exists item. split; [done|]. split; [done|]. exists r. split; [|done]. exists (first_symbol r0 - start). split; [done|]. split.
      * apply (rt_trans _ _ _ j); [done|]. apply rt_step. split; [done|]. split; [done|]. exists r0. split; [done|lia].
      * now replace (start + (first_symbol r0 - start)) with (first_symbol r0) by lia.
  - intros [Hx|(item & Hi & Hvi & r & (j & Hj & Hl & Hr) & ->)]; [now constructor|].
    apply clos_rt_rtn1 in Hl. revert r Hr. induction Hl as [|j k (Hj' & Hk & r0 & Hr0 & E) _ IH]; intros r Hr.
    + apply (closure_rule _ item); [now constructor|done|]. now replace (at_ (ritem g) item) with (start + (at_ (ritem g) item - start)) by lia.
    + unfold first_symbol in E. apply (closure_rule _ (at_ (rrhs g) r0)); [now apply IH|unfold ISVAR; apply Z.leb_le; lia|now rewrite E].
Qed.

Lemma order_increasing l : increasing l -> Forall (fun r => 0 < r < nrules g) l -> increasing (map (at_ (rrhs g)) l).
Proof.
  induction 1 as [|r l Hs IH Hr]; intros Hf; cbn [map]; [constructor|]. inversion Hf as [|? ? H1 H2]; subst. constructor; [auto|].
  apply Forall_forall. intros x (r' & -> & Hr')%list_elem_of_fmap. rewrite Forall_forall in Hr, H2. specialize (Hr r' Hr'). specialize (H2 r' Hr').
  apply (go_order g OK); lia.
Qed.

Lemma seqZ_increasing lo n : increasing (seqZ lo n).
Proof.
  destruct (Z.le_gt_cases 0 n) as [Hn|Hn]; [|rewrite seqZ_nil by lia; constructor].
  rewrite <- (Z2Nat.id n Hn). generalize (Z.to_nat n) as k. clear Hn. intros k. revert lo. induction k as [|k IH]; intros lo; [constructor|].
  rewrite seqZ_cons by lia. replace (Z.pred (Z.of_nat (S k))) with (Z.of_nat k) by lia. constructor; [apply IH|].
  apply Forall_forall. intros x Hx%elem_of_seqZ. lia.
Qed.

Lemma filter_increasing (P : Z -> Prop) `{forall x, Decision (P x)} l : increasing l -> increasing (filter P l).
Proof.
  induction 1 as [|x l Hs IH Hx]; [constructor|]. rewrite filter_cons. destruct (decide (P x)); [|done]. constructor; [done|].
  apply Forall_forall. intros y [_ Hy]%list_elem_of_filter. rewrite Forall_forall in Hx. auto.
Qed.

Lemma closure_spec fd ruleset nucleus m :
  (forall i r, 0 <= i < nvars g -> 0 <= r < 32 * rs -> bit m (fd + (start + i) * rs) r = true <-> derivable i r) ->
  ruleset + rs <= fd + start * rs \/ fd + (start + nvars g) * rs <= ruleset -> increasing nucleus ->
  let p := closure g ruleset fd nucleus m in
  increasing p.1 /\ (forall x, x ∈ p.1 <-> in_closure nucleus x) /\ (forall a, a < ruleset \/ ruleset + rs <= a -> ld p.2 a = ld m a).
Proof.
  intros Hfd Hd Hs p. unfold p, closure. pose proof (WORDSIZE_nonneg _ (go_nrules g OK)) as Hrs.
  set (m1 := clear _ ruleset m). assert (H1 : forall a, a < ruleset \/ ruleset + rs <= a -> ld m1 a = ld m a) by (intros a Ha; apply clear_out; lia).
  assert (Hap : forall item, ISVAR g (at_ (ritem g) item) = true -> ruleset + rs <= fd + at_ (ritem g) item * rs \/ fd + at_ (ritem g) item * rs + rs <= ruleset).
  { intros item Hv. pose proof (symbol_range item Hv). nia. }
  destruct (add_rules_spec fd ruleset nucleus m1) as [H2 H3]; [apply Forall_forall; intros; now apply Hap|]. set (m2 := add_rules _ _ _ _ _ m1) in *.
  assert (H4 : forall r, 0 <= r < 32 * rs -> bit m2 ruleset r = true <->
    exists item, item ∈ nucleus /\ ISVAR g (at_ (ritem g) item) = true /\ derivable (at_ (ritem g) item - start) r).
  { intros r Hr. rewrite H3 by done. unfold m1 at 1. rewrite (bit_clear _ _ _ _ (32 * rs)) by (done || lia || (rewrite WORDSIZE_32; lia)).
    assert (E : forall item, ISVAR g (at_ (ritem g) item) = true -> bit m1 (fd + at_ (ritem g) item * rs) r = true <-> derivable (at_ (ritem g) item - start) r).
    { intros item Hv. rewrite <- Hfd by (done || now apply symbol_range). replace (start + (at_ (ritem g) item - start)) with (at_ (ritem g) item) by lia.
      rewrite (row_word32 m m1 _ rs); [done|done|]. intros a Ha. apply H1. specialize (Hap item Hv). lia. }
    split; [intros [H|(it & Hi & Hv & H)]; [done|]|intros (it & Hi & Hv & H); right]; exists it; (split; [done|]; split; [done|now apply E]). }
  pose proof (merge_words_fold m2 ruleset (Z.to_nat rs) 0 (nucleus, []) ltac:(lia)) as Hm. rewrite Z.mul_0_r, Z.add_0_r, Z2Nat.id in Hm by done. cbn [fst snd] in Hm.
  rewrite Hm. set (l := members m2 ruleset 0 (32 * rs)) in *.
  assert (Hl : forall r, r ∈ l <-> exists item, item ∈ nucleus /\ ISVAR g (at_ (ritem g) item) = true /\ derivable (at_ (ritem g) item - start) r).
  { intros r. unfold l, members. rewrite list_elem_of_filter, elem_of_seqZ. split; [intros [Hb Hr]; apply H4; [lia|done]|]. intros H. pose proof H as (it & Hi & Hv & j & Hj & _ & Hr).
    apply rules_positive in Hr; [|lia]. assert (nrules g <= 32 * rs) by (unfold WORDSIZE, BITS_PER_WORD; zlia). split; [apply H4; [lia|done]|lia]. }
  destruct (merge_rules_spec l nucleus []) as [H5 H6]; [done| |intros r x _ Hx; now apply not_elem_of_nil in Hx|].
  { apply order_increasing; [apply filter_increasing, seqZ_increasing|]. apply Forall_forall. intros r Hr. apply Hl in Hr as (it & _ & _ & j & Hj & _ & Hr). now apply rules_positive in Hr. }
  destruct (fold_left merge_rule l (nucleus, [])) as [csp out]. cbn [fst snd app] in *. split; [done|]. split.
  - intros x. rewrite H6, in_closure_derivable. split; (intros [H|H]; [now left|right]).
    + destruct H as (r & Hr & ->). apply Hl in Hr as (it & Hi & Hv & Hr). exists it. split; [done|]. split; [done|]. now exists r.
    + destruct H as (it & Hi & Hv & r & Hr & ->). exists r. split; [|done]. apply Hl. now exists it.
  - intros a Ha. rewrite H2, H1 by done. done.
Qed.
End GrammarOk.

Lemma closure_tables g p EFF ruleset m :
  grammar_ok g ->
  let fds := nvars g * WORDSIZE (nrules g) in
  let effs := nvars g * WORDSIZE (nvars g) in
  p + fds <= EFF \/ EFF + effs <= p -> ruleset + WORDSIZE (nrules g) <= p \/ p + fds <= ruleset ->
  exists first_derives m1, set_first_derives g p EFF m = Some (first_derives, m1) /\
    forall m2 nucleus, (forall a, p <= a < p + fds -> ld m2 a = ld m1 a) -> StronglySorted Z.lt nucleus ->
      let (itemset, m3) := closure g ruleset first_derives nucleus m2 in
      StronglySorted Z.lt itemset /\ (forall x, x ∈ itemset <-> in_closure g nucleus x) /\
      (forall a, p <= a < p + fds -> ld m3 a = ld m1 a).
Proof.
  intros OK fds effs Hd1 Hd2. destruct (set_first_derives_spec g OK p EFF m Hd1) as (fd & m1 & E & Efd & _ & H1).
  exists fd, m1. split; [done|]. intros m2 nucleus Hm2 Hs. pose proof (WORDSIZE_nonneg _ (go_nrules g OK)) as Hrs.
  assert (H2 : forall i r, 0 <= i < nvars g -> 0 <= r < 32 * WORDSIZE (nrules g) -> bit m2 (fd + (start_symbol g + i) * WORDSIZE (nrules g)) r = true <-> derivable g i r).
  { intros i r Hi Hr. rewrite <- H1 by done. rewrite (row_word32 m1 m2 _ (WORDSIZE (nrules g))); [done|done|]. intros a Ha. apply Hm2. unfold fds. subst fd. nia. }
  destruct (closure_spec g OK fd ruleset nucleus m2 H2 ltac:(subst fd fds; lia) Hs) as (H3 & H4 & H5).
  destruct (closure g ruleset fd nucleus m2) as [itemset m3]. cbn [fst snd] in *. split; [done|]. split; [done|].
  intros a Ha. rewrite H5 by lia. now apply Hm2.
Qed.

(** ** The claim *)

(** After [set_first_derives], [closure] computes from any increasing nucleus the
    closure of a set of LR(0) items: the least set that holds the nucleus and, with an
    item whose dot is before a variable, the beginnings of all the rules of the
    variable; the items come in increasing order, without repetition. *)
Theorem closure_correct g p EFF ruleset m :
  grammar_ok g ->
  let fds := nvars g * WORDSIZE (nrules g) in
  let effs := nvars g * WORDSIZE (nvars g) in
  p + fds <= EFF \/ EFF + effs <= p -> ruleset + WORDSIZE (nrules g) <= p \/ p + fds <= ruleset ->
  exists first_derives m1, set_first_derives g p EFF m = Some (first_derives, m1) /\
    forall m2 nucleus, (forall a, p <= a < p + fds -> ld m2 a = ld m1 a) -> StronglySorted Z.lt nucleus ->
      let (itemset, m3) := closure g ruleset first_derives nucleus m2 in
      StronglySorted Z.lt itemset /\ (forall x, x ∈ itemset <-> in_closure g nucleus x) /\
      (forall a, p <= a < p + fds -> ld m3 a = ld m1 a).
Proof. apply closure_tables. Qed.

(** ** Witness *)

(** Sums of [x]: [$accept: %entry%; %entry%: '\001' E; E: E '+' T | T; T: 'x']. *)
Definition sums : grammar :=
  MkGrammar 5 9 5 4 7 [-1; 6; 0; -2; 2; 7; -3; 7; 3; 8; -4; 8; -5; 4; -6] [0; 0; 5; 6; 7; 7; 8] [0; 0; 1; 4; 7; 11; 13; 15].

Lemma sums_ok : grammar_ok sums.
Proof.
  assert (H7 : forall r, 0 <= r < 7 -> r = 0 \/ r = 1 \/ r = 2 \/ r = 3 \/ r = 4 \/ r = 5 \/ r = 6) by lia.
  constructor; try done; cbn [nrules nsyms sums].
  - intros r Hr. destruct (H7 r Hr) as [->|[->|[->|[->|[->|[->| ->]]]]]]; done || lia.
  - intros r r' Hr Hr'. destruct (H7 r ltac:(lia)) as [->|[->|[->|[->|[->|[->| ->]]]]]], (H7 r' ltac:(lia)) as [->|[->|[->|[->|[->|[->| ->]]]]]]; try lia; reflexivity.
  - intros i. unfold at_. cbn [ritem sums]. generalize (Z.to_nat i). intros k. do 15 (destruct k as [|k]; [reflexivity|]). cbn. now destruct k.
Qed.

Lemma closure_correct_witness :
  exists first_derives m1, set_first_derives sums 0 10 ∅ = Some (first_derives, m1) /\
    forall x, x ∈ fst (closure sums 20 first_derives [5] m1) <-> in_closure sums [5] x.
Proof.
  destruct (closure_correct sums 0 10 20 ∅ sums_ok) as (fd & m1 & E & H); [left; vm_compute; discriminate|right; vm_compute; discriminate|].
  exists fd, m1. split; [exact E|]. specialize (H m1 [5] (fun _ _ => eq_refl) ltac:(repeat constructor)).
  destruct (closure sums 20 fd [5] m1) as [itemset m3]. exact (proj1 (proj2 H)).
Defined.
