(* ===== verification/Lr0.v ===== *)
(** * The LR(0) automaton

    Models [yacc/lr0.c] on a packed grammar: the symbols that derive the empty word,
    and the states, with their shifts and reductions.  A [core *] is the number of its
    state; the states, in the order of their [next] pointers, are a list, and the
    segment of [kernel_items] between [kernel_base[symbol]] and [kernel_end[symbol]] is
    the list of items it holds. *)

From stdpp Require Import sorting strings.
From S2P Require Import Prelude Warshall Closure.

Definition MAXSHORT : nat := Z.to_nat 32767.

(** [core]: its number is its place in the list of states, [next] the next place. *)
Record core := MkCore { link : option nat; accessing_symbol : Z; items : list Z }.
(** [shifts] and [reductions]. *)
Record shifts := MkShifts { sh_number : nat; shift : list nat }.
Record reductions := MkReductions { red_number : nat; red_rules : list Z }.

(** The variables of [lr0.c]; [first_shift] and [first_reduction] are the lists that begin there. *)
Record lr0 := MkLr0 {
  first_state : list core;
  state_set : gmap Z nat;
  first_shift : list shifts;
  first_reduction : list reductions
}.

Inductive outcome (A : Type) :=
| Done (x : A)
| Fatal_error (msg : string)
| Unfinished.                (* the turns did not suffice *)
Arguments Done {A}. Arguments Fatal_error {A}. Arguments Unfinished {A}.

Definition nstates (s : lr0) : nat := length (first_state s).
Definition add_state (c : core) (s : lr0) : lr0 := MkLr0 (first_state s ++ [c]) (state_set s) (first_shift s) (first_reduction s).
Definition set_link (sp p : nat) (s : lr0) : lr0 :=
  MkLr0 (alter (fun c => MkCore (Some p) (accessing_symbol c) (items c)) sp (first_state s)) (state_set s) (first_shift s) (first_reduction s).
Definition set_state_set (key : Z) (sp : nat) (s : lr0) : lr0 := MkLr0 (first_state s) (<[key := sp]> (state_set s)) (first_shift s) (first_reduction s).

(** ** Empty words *)

Section Nullable.
Context (g : grammar).

(** The rest of a right-hand side from the item [i]: whether all its symbols are nullable
    so far, and the item of its end. *)
Fixpoint scan_rhs (l : list Z) (nullable : gset Z) (empty : bool) : bool * Z * list Z :=
  match l with
  | [] => (empty, 0, [])
  | j :: l => if 0 <=? j then scan_rhs l nullable (empty && bool_decide (j ∈ nullable)) else (empty, j, l)
  end.

(** [for (i = 1; i < nitems; i++)]: [l] is [ritem] from [i] on. *)
Fixpoint nullable_pass (n : nat) (l : list Z) (nullable : gset Z) (done_ : bool) : gset Z * bool :=
  match n, l with
  | S n, _ :: _ =>
      let '(empty, j, l) := scan_rhs l nullable true in
      let lhs := at_ (rlhs g) (- j) in
      if empty && negb (bool_decide (lhs ∈ nullable)) then nullable_pass n l ({[lhs]} ∪ nullable) false
      else nullable_pass n l nullable done_
  | _, _ => (nullable, done_)
  end.

(** [while (!done)] *)
Fixpoint nullable_loop (fuel : nat) (nullable : gset Z) : option (gset Z) :=
  match fuel with
  | O => None
  | S fuel =>
      let (nullable, done_) := nullable_pass (length (ritem g)) (tail (ritem g)) nullable true in
      if done_ then Some nullable else nullable_loop fuel nullable
  end.

Definition set_nullable (fuel : nat) : option (gset Z) := nullable_loop fuel ∅.

(** ** States *)

(** [new_itemsets]: the symbols found, in order, and their kernels. *)
Fixpoint new_itemsets (isp : list Z) (shift_symbol : list Z) (kernel : gmap Z (list Z)) : list Z * gmap Z (list Z) :=
  match isp with
  | [] => (shift_symbol, kernel)
  | i :: isp =>
      let symbol := at_ (ritem g) i in
      if 0 <? symbol then
        match kernel !! symbol with
        | None => new_itemsets isp (shift_symbol ++ [symbol]) (<[symbol := [i + 1]]> kernel)
        | Some ksp => new_itemsets isp shift_symbol (<[symbol := ksp ++ [i + 1]]> kernel)
        end
      else new_itemsets isp shift_symbol kernel
  end.

Definition new_state (symbol : Z) (ks : list Z) (s : lr0) : outcome (nat * lr0) :=
  if (MAXSHORT <=? nstates s)%nat then Fatal_error "too many states"
  else Done (nstates s, add_state (MkCore None symbol ks) s).

(** [while (!found)], from the state [sp]. *)
Fixpoint find_state (fuel : nat) (symbol : Z) (ks : list Z) (sp : nat) (s : lr0) : outcome (nat * lr0) :=
  match fuel with
  | O => Unfinished
  | S fuel =>
      match first_state s !! sp with
      | None => Unfinished
      | Some c =>
          if bool_decide (items c = ks) then Done (sp, s)
          else match link c with
               | Some sp => find_state fuel symbol ks sp s
               | None => match new_state symbol ks s with
                         | Done (p, s) => Done (p, set_link sp p s)
                         | x => x
                         end
               end
      end
  end.

Definition get_state (symbol : Z) (kernel : gmap Z (list Z)) (s : lr0) : outcome (nat * lr0) :=
  let ks := default [] (kernel !! symbol) in
  let key := hd 0 ks in
  match state_set s !! key with
  | Some sp => find_state (S (nstates s)) symbol ks sp s
  | None => match new_state symbol ks s with
            | Done (sp, s) => Done (sp, set_state_set key sp s)
            | x => x
            end
  end.

(** [while (j > 0 && shift_symbol[j - 1] > symbol)], then [shift_symbol[j] = symbol]. *)
Fixpoint sink (j : nat) (symbol : Z) (a : list Z) : list Z :=
  match j with
  | O => <[O := symbol]> a
  | S j' => if symbol <? a !!! j' then sink j' symbol (<[j := a !!! j']> a) else <[j := symbol]> a
  end.
(** [for (i = i; i < nshifts; i++)], [n] turns. *)
Fixpoint sort_symbols (n i : nat) (a : list Z) : list Z :=
  match n with O => a | S n => sort_symbols n (S i) (sink i (a !!! i) a) end.

(** [shiftset[i] = get_state (shift_symbol[i])] for the symbols left. *)
Fixpoint get_states (symbols : list Z) (kernel : gmap Z (list Z)) (shiftset : list nat) (s : lr0) : outcome (list nat * lr0) :=
  match symbols with
  | [] => Done (shiftset, s)
  | symbol :: symbols =>
      match get_state symbol kernel s with
      | Done (p, s) => get_states symbols kernel (shiftset ++ [p]) s
      | Fatal_error msg => Fatal_error msg
      | Unfinished => Unfinished
      end
  end.

Definition append_states (shift_symbol : list Z) (kernel : gmap Z (list Z)) (s : lr0) : outcome (list nat * lr0) :=
  get_states (sort_symbols (length shift_symbol - 1) 1 shift_symbol) kernel [] s.

Definition save_shifts (this_state : nat) (shiftset : list nat) (s : lr0) : lr0 :=
  MkLr0 (first_state s) (state_set s) (first_shift s ++ [MkShifts this_state shiftset]) (first_reduction s).

(** The rules of the items at their ends. *)
Definition redset (itemset : list Z) : list Z := map (fun i => - at_ (ritem g) i) (filter (fun i => at_ (ritem g) i < 0) itemset).
Definition save_reductions (this_state : nat) (itemset : list Z) (s : lr0) : lr0 :=
  match redset itemset with
  | [] => s
  | rules => MkLr0 (first_state s) (state_set s) (first_shift s) (first_reduction s ++ [MkReductions this_state rules])
  end.

(** The items of the first state. *)
Definition start_items : list Z := map (at_ (rrhs g)) (rules g (start_symbol g)).
Definition initialize_states : lr0 := MkLr0 [MkCore None 0 start_items] ∅ [] [].

(** The body of [while (this_state)]. *)
Definition process_state (ruleset first_derives : Z) (this_state : nat) (c : core) (m : mem) (s : lr0) : outcome (mem * lr0) :=
  let (itemset, m) := closure g ruleset first_derives (items c) m in
  let s := save_reductions this_state itemset s in
  let (shift_symbol, kernel) := new_itemsets itemset [] ∅ in
  match append_states shift_symbol kernel s with
  | Done (shiftset, s) => Done (m, match shiftset with [] => s | _ => save_shifts this_state shiftset s end)
  | Fatal_error msg => Fatal_error msg
  | Unfinished => Unfinished
  end.

Fixpoint states_loop (fuel : nat) (ruleset first_derives : Z) (this_state : nat) (m : mem) (s : lr0) : outcome lr0 :=
  match fuel with
  | O => Unfinished
  | S fuel =>
      match first_state s !! this_state with
      | None => Done s
      | Some c =>
          match process_state ruleset first_derives this_state c m s with
          | Done (m, s) => states_loop fuel ruleset first_derives (S this_state) m s
          | Fatal_error msg => Fatal_error msg
          | Unfinished => Unfinished
          end
      end
  end.

(** [p], [EFF], [ruleset]: where the tables of [Closure] are allocated. *)
Definition generate_states (fuel : nat) (p EFF ruleset : Z) (m : mem) : outcome lr0 :=
  match set_first_derives g p EFF m with
  | Some (first_derives, m) => states_loop fuel ruleset first_derives 0 m initialize_states
  | None => Unfinished
  end.
End Nullable.

(** ** Right-hand sides *)

Fixpoint before_end (l : list Z) : list Z := match l with j :: l => if 0 <=? j then j :: before_end l else [] | [] => [] end.
(** The symbols of the right-hand side of a rule. *)
Definition rhs (g : grammar) (r : Z) : list Z := before_end (drop (Z.to_nat (at_ (rrhs g) r)) (ritem g)).
(** The rules, from 2 on. *)
Definition all_rules (g : grammar) : list Z := seqZ 2 (nrules g - 2).

(** The array [ritem]: the right-hand sides, each with its end. *)
Definition packed (g : grammar) : Prop := 2 <= nrules g /\ ritem g = -1 :: concat (map (fun r => rhs g r ++ [- r]) (all_rules g)).

Lemma before_end_nonneg l : Forall (fun j => 0 <= j) (before_end l).
Proof. induction l as [|j l IH]; cbn [before_end]; [constructor|]. destruct (Z.leb_spec 0 j); [now constructor|constructor]. Qed.

(** ** Empty words *)

Section NullableOk.
Context (g : grammar) (P : packed g).

(** A symbol from which the empty word derives. *)
Inductive derives_empty : Z -> Prop :=
| derives_empty_rule r : r ∈ all_rules g -> (forall j, j ∈ rhs g r -> derives_empty j) -> derives_empty (at_ (rlhs g) r).

Lemma scan_rhs_spec w r l N e : Forall (fun j => 0 <= j) w -> 0 < r ->
  scan_rhs (w ++ [- r] ++ l) N e = (e && forallb (fun j => bool_decide (j ∈ N)) w, - r, l).
Proof.
  intros Hw Hr. revert e. induction Hw as [|j w Hj Hw IH]; intros e; cbn [app scan_rhs forallb].
  - rewrite (proj2 (Z.leb_gt _ _)) by lia. now rewrite andb_true_r.
  - rewrite (proj2 (Z.leb_le _ _)) by done. cbn [app] in IH. rewrite IH. now rewrite andb_assoc.
Qed.

(** What a pass does with a rule. *)
Definition pass_rule (p : gset Z * bool) (r : Z) : gset Z * bool :=
  if forallb (fun j => bool_decide (j ∈ p.1)) (rhs g r) && negb (bool_decide (at_ (rlhs g) r ∈ p.1)) then ({[at_ (rlhs g) r]} ∪ p.1, false) else p.

Lemma nullable_pass_fold l : Forall (fun r => 0 < r) l -> forall n p, (length l <= n)%nat ->
  nullable_pass g n (concat (map (fun r => rhs g r ++ [- r]) l)) p.1 p.2 = fold_left pass_rule l p.
Proof.
  induction 1 as [|r l Hr Hl IH]; intros n p Hn.
  - destruct n; now destruct p.
  - cbn [length] in Hn. destruct n as [|n]; [lia|]. cbn [map concat fold_left].
    set (w := concat (map (fun r => rhs g r ++ [- r]) l)) in *. rewrite <- app_assoc.
    assert (E : nullable_pass g (S n) (rhs g r ++ [- r] ++ w) p.1 p.2 =
      (let '(empty, j, l) := scan_rhs (rhs g r ++ [- r] ++ w) p.1 true in
       if empty && negb (bool_decide (at_ (rlhs g) (- j) ∈ p.1)) then nullable_pass g n l ({[at_ (rlhs g) (- j)]} ∪ p.1) false
       else nullable_pass g n l p.1 p.2)).
    { cbn [nullable_pass]. destruct (rhs g r); done. }
    rewrite E, scan_rhs_spec by (done || apply before_end_nonneg). rewrite Z.opp_involutive. unfold pass_rule at 2. cbn [andb].
    destruct (forallb _ (rhs g r) && negb _).
    + specialize (IH n ({[at_ (rlhs g) r]} ∪ p.1, false) ltac:(lia)). cbn [fst snd] in IH. exact IH.
    + apply (IH n p). lia.
Qed.

Definition sound (N : gset Z) : Prop := forall j, j ∈ N -> derives_empty j.
Definition lefts : gset Z := list_to_set (map (at_ (rlhs g)) (all_rules g)).

Lemma pass_rule_sound p r : r ∈ all_rules g -> sound p.1 -> p.1 ⊆ lefts ->
  let p' := pass_rule p r in
  sound p'.1 /\ p.1 ⊆ p'.1 /\ p'.1 ⊆ lefts /\ ((p'.2 = false /\ p.1 ⊂ p'.1) \/ p' = p /\ (Forall (fun j => j ∈ p.1) (rhs g r) -> at_ (rlhs g) r ∈ p.1)).
Proof.
  intros Hr Hs Hsub p'. unfold p', pass_rule. destruct (forallb _ _) eqn:Ef; cbn [andb].
  - destruct (bool_decide_reflect (at_ (rlhs g) r ∈ p.1)) as [Hin|Hnin]; cbn [negb]; [split; [done|]; split; [done|]; split; [done|]; right; done|].
    rewrite forallb_forall in Ef. cbn [fst snd]. split.
    + intros j [->%elem_of_singleton|Hj]%elem_of_union; [|now apply Hs]. apply derives_empty_rule; [done|]. intros j Hj.
      apply Hs. apply list_elem_of_In in Hj. specialize (Ef j Hj). now apply bool_decide_eq_true in Ef.
    + split; [apply union_subseteq_r|]. split.
      * apply union_subseteq. split; [|done]. apply singleton_subseteq_l. unfold lefts. apply elem_of_list_to_set, list_elem_of_fmap. eauto.
      * left. split; [done|]. split; [apply union_subseteq_r|]. intros Hc. apply Hnin, Hc, elem_of_union_l. now apply elem_of_singleton.
  - split; [done|]. split; [done|]. split; [done|]. right. split; [done|]. intros Hf. exfalso.
    assert (Et : forallb (fun j => bool_decide (j ∈ p.1)) (rhs g r) = true); [|congruence].
    apply forallb_forall. intros j Hj%list_elem_of_In. rewrite Forall_forall in Hf. apply bool_decide_eq_true. auto.
Qed.

Lemma pass_spec l : (forall r, r ∈ l -> r ∈ all_rules g) -> forall p, sound p.1 -> p.1 ⊆ lefts ->
  let p' := fold_left pass_rule l p in
  sound p'.1 /\ p'.1 ⊆ lefts /\ p.1 ⊆ p'.1 /\
  (p'.2 = true -> p' = p /\ forall r, r ∈ l -> Forall (fun j => j ∈ p.1) (rhs g r) -> at_ (rlhs g) r ∈ p.1) /\
  (p'.2 = false -> p.2 = true -> p.1 ⊂ p'.1).
Proof.
  induction l as [|r l IH]; intros Hl p Hs Hsub p'; unfold p'; cbn [fold_left].
  - split; [done|]. split; [done|]. split; [done|]. split; [intros _; split; [done|]; intros r Hr; now apply not_elem_of_nil in Hr|congruence].
  - destruct (pass_rule_sound p r) as (S1 & S2 & S3 & S4); [apply Hl, list_elem_of_here|done|done|].
    destruct (IH (fun r' Hr' => Hl r' (list_elem_of_further _ _ _ Hr')) (pass_rule p r) S1 S3) as (T1 & T2 & T3 & T4 & T5).
    split; [done|]. split; [done|]. split; [now transitivity (pass_rule p r).1|]. split.
    + intros Ht. destruct (T4 Ht) as [E1 E2]. destruct S4 as [[E _]|[E Hr]]; [rewrite <- E1, Ht in E; done|]. rewrite E in *. split; [done|].
      intros r' [->|Hr']%elem_of_cons; auto.
    + intros Hf Hp. destruct S4 as [[E Hlt]|[E _]]; [exact (strict_trans_l _ _ _ Hlt T3)|]. rewrite E in *. auto.
Qed.

Lemma length_rules l : (length l <= length (concat (map (fun r => rhs g r ++ [- r]) l)))%nat.
Proof. induction l as [|r l IH]; cbn [map concat length]; [lia|]. rewrite !length_app. cbn [length]. lia. Qed.

Lemma size_lefts l : (size (list_to_set l : gset Z) <= length l)%nat.
Proof.
  induction l as [|x l IH]; [done|]. cbn [list_to_set foldr length]. change (foldr _ _ l) with (list_to_set l : gset Z).
  rewrite size_union_alt, size_singleton. pose proof (subseteq_size (list_to_set l ∖ {[x]}) (list_to_set l : gset Z) ltac:(apply subseteq_difference_l; done)). lia.
Qed.

Lemma nullable_loop_spec fuel : forall N, sound N -> N ⊆ lefts -> (size lefts - size N < fuel)%nat ->
  exists N', nullable_loop g fuel N = Some N' /\ sound N' /\ forall r, r ∈ all_rules g -> Forall (fun j => j ∈ N') (rhs g r) -> at_ (rlhs g) r ∈ N'.
Proof.
  induction fuel as [|fuel IH]; intros N Hs Hsub Hf; [lia|]. cbn [nullable_loop].
  destruct P as [Hn Ep]. rewrite Ep. cbn [tail length].
  assert (Hpos : Forall (fun r => 0 < r) (all_rules g)) by (apply Forall_forall; intros r Hr%elem_of_seqZ; lia).
  pose proof (nullable_pass_fold (all_rules g) Hpos (S (length (concat (map (fun r => rhs g r ++ [- r]) (all_rules g))))) (N, true)) as E. cbn [fst snd] in E.
  rewrite E.
  2: { pose proof (length_rules (all_rules g)). lia. }
  destruct (pass_spec (all_rules g) (fun r Hr => Hr) (N, true) Hs Hsub) as (S1 & S2 & S3 & S4 & S5).
  destruct (fold_left pass_rule (all_rules g) (N, true)) as [N' d]. cbn [fst snd] in *. destruct d.
  - destruct (S4 eq_refl) as [[= ->] Hc]. exists N. done.
  - assert (Hlt : N ⊂ N') by auto. apply subset_size in Hlt. pose proof (subseteq_size _ _ S2). apply IH; [done|done|lia].
Qed.

Lemma set_nullable_spec fuel : (nrules g < Z.of_nat fuel) ->
  exists N, set_nullable g fuel = Some N /\ forall j, j ∈ N <-> derives_empty j.
Proof.
  intros Hf. assert (Hsz : (size lefts <= length (all_rules g))%nat).
  { unfold lefts. etrans; [apply size_lefts|]. now rewrite length_map. }
  assert (Hl : (length (all_rules g) <= Z.to_nat (nrules g))%nat) by (unfold all_rules; rewrite length_seqZ; lia). destruct P as [Hn _].
  destruct (nullable_loop_spec fuel ∅) as (N & E & Hs & Hc); [intros j Hj; now apply not_elem_of_empty in Hj|apply empty_subseteq|lia|].
  exists N. split; [exact E|]. intros j. split; [apply Hs|]. induction 1 as [r Hr _ IH]. apply Hc; [done|]. apply Forall_forall. exact IH.
Qed.
End NullableOk.

(** ** Kernels *)

Lemma lookup_insert_Z {A} (m : gmap Z A) i x j : <[i := x]> m !! j = if i =? j then Some x else m !! j.
Proof. destruct (Z.eqb_spec i j) as [->|Hne]; [apply lookup_insert_eq|now apply lookup_insert_ne]. Qed.

Section States.
Context (g : grammar).

(** The items after a shift of [X]. *)
Definition goto_items (itemset : list Z) (X : Z) : list Z := map (fun i => i + 1) (filter (fun i => at_ (ritem g) i = X) itemset).
(** The symbols that are shifted. *)
Definition shifted (itemset : list Z) (X : Z) : Prop := 0 < X /\ exists i, i ∈ itemset /\ at_ (ritem g) i = X.

Lemma goto_items_app l k X : goto_items (l ++ k) X = goto_items l X ++ goto_items k X.
Proof. unfold goto_items. now rewrite filter_app, map_app. Qed.
Lemma goto_items_nil l X : 0 < X -> goto_items l X = [] <-> ~ shifted l X.
Proof.
  intros HX. unfold goto_items, shifted. split.
  - intros E (_ & i & Hi & Ei). apply map_eq_nil in E. assert (H : i ∈ filter (fun i => at_ (ritem g) i = X) l) by (now apply list_elem_of_filter).
    rewrite E in H. now apply not_elem_of_nil in H.
  - intros H. destruct (filter _ l) as [|i k] eqn:E; [done|]. exfalso. apply H. split; [done|]. exists i.
    assert (Hi : i ∈ i :: k) by apply list_elem_of_here. rewrite <- E in Hi. apply list_elem_of_filter in Hi. tauto.
Qed.

(** [kernel] and [symbols] after the items [l]. *)
Definition kernels (l : list Z) (symbols : list Z) (kernel : gmap Z (list Z)) : Prop :=
  NoDup symbols /\ (forall X, X ∈ symbols <-> shifted l X) /\
  (forall X, kernel !! X = if bool_decide (X ∈ symbols) then Some (goto_items l X) else None).

Lemma new_itemsets_spec isp : forall l symbols kernel, kernels l symbols kernel ->
  let p := new_itemsets g isp symbols kernel in kernels (l ++ isp) p.1 p.2.
Proof.
  induction isp as [|i isp IH]; intros l symbols kernel K p; unfold p; cbn [new_itemsets]; [now rewrite app_nil_r|].
  pose proof K as (Hnd & Hsym & Hker). replace (l ++ i :: isp) with ((l ++ [i]) ++ isp) by now rewrite <- app_assoc.
  set (symbol := at_ (ritem g) i) in *.
  assert (Hsh : forall X, shifted (l ++ [i]) X <-> shifted l X \/ (0 < X /\ X = symbol)).
  { intros X. unfold shifted. split.
    - intros (HX & j & [Hj|Hj]%elem_of_app & E); [left; eauto|]. apply list_elem_of_singleton in Hj as ->. now right.
    - intros [(HX & j & Hj & E)|[HX ->]]; (split; [done|]); [exists j|exists i]; rewrite elem_of_app, list_elem_of_singleton; auto. }
  assert (Hgo : forall X, goto_items (l ++ [i]) X = if X =? symbol then goto_items l X ++ [i + 1] else goto_items l X).
  { intros X. rewrite goto_items_app. unfold goto_items at 2. rewrite filter_cons, filter_nil. fold symbol. destruct (Z.eqb_spec X symbol) as [->|Hne].
    - now rewrite decide_True by done.
    - rewrite decide_False by congruence. apply app_nil_r. }
  destruct (Z.ltb_spec 0 symbol) as [Hpos|Hneg].
  - rewrite Hker. destruct (bool_decide_reflect (symbol ∈ symbols)) as [Hin|Hnin]; apply IH.
    + split; [done|]. split; [intros X; rewrite Hsh, Hsym; split; [now left|intros [?|[? ->]]; [done|now apply Hsym]]|].
      intros X. rewrite lookup_insert_Z, Hgo, Hker. destruct (Z.eqb_spec symbol X) as [<-|Hne].
      * rewrite Z.eqb_refl. now rewrite bool_decide_eq_true_2 by done.
      * now rewrite (proj2 (Z.eqb_neq X symbol)) by congruence.
    + assert (El : goto_items l symbol = []) by (apply goto_items_nil; [done|]; intros H; apply Hnin, Hsym, H).
      split; [apply NoDup_app; split; [done|]; split; [intros x Hx ->%list_elem_of_singleton; done|apply NoDup_singleton]|].
      split; [intros X; rewrite Hsh, elem_of_app, list_elem_of_singleton, Hsym; split; (intros [?|H]; [now left|right]); [now subst|tauto]|].
      intros X. rewrite lookup_insert_Z, Hgo, Hker. destruct (Z.eqb_spec symbol X) as [<-|Hne].
      * rewrite Z.eqb_refl, El. rewrite bool_decide_eq_true_2; [done|]. apply elem_of_app. right. apply list_elem_of_here.
      * rewrite (proj2 (Z.eqb_neq X symbol)) by congruence. assert (E : X ∈ symbols ++ [symbol] <-> X ∈ symbols) by (rewrite elem_of_app, list_elem_of_singleton; intuition congruence).
        now rewrite (bool_decide_ext _ _ E).
  - apply IH. split; [done|]. split; [intros X; rewrite Hsh, Hsym; intuition lia|]. intros X. rewrite Hgo, Hker.
    destruct (bool_decide_reflect (X ∈ symbols)) as [Hin|]; [|done]. apply Hsym in Hin as [HX _]. now rewrite (proj2 (Z.eqb_neq X symbol)) by lia.
Qed.
End States.

(** ** The order of the symbols *)

Lemma sink_spec j x : forall a, (j < length a)%nat ->
  exists l, sink j x a = l ++ drop (S j) a /\ l ≡ₚ x :: take j a /\ (StronglySorted Z.le (take j a) -> StronglySorted Z.le l).
Proof.
  induction j as [|j IH]; intros a Ha; cbn [sink].
  - destruct a as [|y a]; [cbn in Ha; lia|]. exists [x]. split; [done|]. split; [done|]. repeat constructor.
  - destruct (lookup_lt_is_Some_2 a j ltac:(lia)) as [y Hy]. rewrite (list_lookup_total_correct _ _ _ Hy).
    rewrite (take_S_r _ _ _ Hy). destruct (Z.ltb_spec x y) as [Hlt|Hge].
    + destruct (IH (<[S j := y]> a)) as (l & E & Hp & Hs); [rewrite length_insert; lia|]. rewrite take_insert_ge in Hp, Hs by lia.
      exists (l ++ [y]). split; [|split].
      * rewrite E, <- app_assoc. f_equal. rewrite (drop_S _ y (S j)) by (apply list_lookup_insert_eq; lia). cbn [app]. now rewrite drop_insert_lt by lia.
      * rewrite Hp. cbn [app]. now rewrite <- Permutation_cons_append.
      * intros H. apply StronglySorted_app in H as (H1 & H2 & _). apply StronglySorted_app. split; [|split; [auto|repeat constructor]].
        intros u v Hu ->%list_elem_of_singleton. rewrite Hp in Hu. apply elem_of_cons in Hu as [->|Hu]; [lia|]. apply H1; [done|apply list_elem_of_here].
    + exists ((take j a ++ [y]) ++ [x]). split; [|split].
      * rewrite insert_take_drop by lia. rewrite <- (take_S_r _ _ _ Hy). now rewrite <- app_assoc.
      * now rewrite Permutation_app_comm.
      * intros H. apply StronglySorted_app. split; [|split; [done|repeat constructor]]. intros u v Hu ->%list_elem_of_singleton.
        apply StronglySorted_app in H as (H1 & _ & _). apply elem_of_app in Hu as [Hu| ->%list_elem_of_singleton]; [|lia].
        specialize (H1 u y Hu (list_elem_of_here _ _)). lia.
Qed.

Lemma sort_symbols_spec n : forall i a, (n + i = length a)%nat -> StronglySorted Z.le (take i a) ->
  sort_symbols n i a ≡ₚ a /\ StronglySorted Z.le (sort_symbols n i a).
Proof.
  induction n as [|n IH]; intros i a Hn Hs; cbn [sort_symbols].
  - split; [done|]. rewrite take_ge in Hs by lia. done.
  - destruct (lookup_lt_is_Some_2 a i ltac:(lia)) as [y Hy]. rewrite (list_lookup_total_correct _ _ _ Hy).
    destruct (sink_spec i y a ltac:(lia)) as (l & E & Hp & Hl). rewrite E.
    assert (Hlen : length l = S i) by (rewrite Hp; cbn [length]; rewrite length_take; lia).
    destruct (IH (S i) (l ++ drop (S i) a)) as [H1 H2].
    + rewrite length_app, length_drop. lia.
    + rewrite take_app_length' by done. auto.
    + split; [|done]. rewrite H1, Hp. rewrite <- (take_drop_middle a i y Hy) at 3. now rewrite <- Permutation_middle.
Qed.

Lemma increasing_le l : StronglySorted Z.le l -> NoDup l -> StronglySorted Z.lt l.
Proof.
  induction 1 as [|x l Hs IH Hx]; intros Hn; [constructor|]. apply NoDup_cons in Hn as [Hnin Hn]. constructor; [auto|].
  apply Forall_forall. intros y Hy. rewrite Forall_forall in Hx. specialize (Hx y Hy). assert (x <> y) by (intros ->; done). lia.
Qed.

(** The symbols in order. *)
Lemma sort_symbols_increasing a : NoDup a ->
  sort_symbols (length a - 1) 1 a ≡ₚ a /\ StronglySorted Z.lt (sort_symbols (length a - 1) 1 a).
Proof.
  intros Hn. destruct a as [|x a]; [split; [done|constructor]|].
  destruct (sort_symbols_spec (length (x :: a) - 1) 1 (x :: a)) as [H1 H2]; [cbn [length]; lia|repeat constructor|].
  split; [done|]. apply increasing_le; [done|]. now rewrite H1.
Qed.

(** ** The states *)

(** The accessing symbols and the items of the states. *)
Definition body (c : core) : Z * list Z := (accessing_symbol c, items c).
Definition bodies (s : lr0) : list (Z * list Z) := map body (first_state s).

(** The chain of [link]s from [o] goes through the states [l]. *)
Fixpoint linked (st : list core) (o : option nat) (l : list nat) : Prop :=
  match l with
  | [] => o = None
  | j :: l => o = Some j /\ exists c, st !! j = Some c /\ linked st (link c) l
  end.

(** The states but the first one, by their first items. *)
Definition chained (s : lr0) (key : Z) (l : list nat) : Prop :=
  linked (first_state s) (state_set s !! key) l /\ NoDup l /\
  forall j, j ∈ l <-> (0 < j)%nat /\ exists c, first_state s !! j = Some c /\ hd 0 (items c) = key.
Definition chains (s : lr0) : Prop := (0 < nstates s)%nat /\ forall key, exists l, chained s key l.

Lemma bodies_lookup s j b : bodies s !! j = Some b <-> exists c, first_state s !! j = Some c /\ body c = b.
Proof.
  unfold bodies. rewrite list_lookup_fmap. destruct (first_state s !! j) as [c|]; cbn; split.
  - intros [= <-]. eauto.
  - intros (c' & [= <-] & <-). done.
  - done.
  - now intros (c & ? & _).
Qed.
Lemma length_bodies s : length (bodies s) = nstates s.
Proof. apply length_map. Qed.

Lemma linked_app st o l c : linked st o l -> linked (st ++ [c]) o l.
Proof.
  revert o. induction l as [|j l IH]; intros o; cbn [linked]; [done|]. intros (E & d & Hd & H). split; [done|]. exists d. split; [now apply lookup_app_l_Some|auto].
Qed.

Lemma linked_range st o l : linked st o l -> Forall (fun j => (j < length st)%nat) l.
Proof.
  revert o. induction l as [|j l IH]; intros o; cbn [linked]; [constructor|]. intros (E & d & Hd & H). constructor; [now apply lookup_lt_Some in Hd|eauto].
Qed.

(** A link set elsewhere. *)
Lemma linked_alter st f sp l : forall o, sp ∉ l -> linked st o l -> linked (alter f sp st) o l.
Proof.
  induction l as [|j l IH]; intros o; cbn [linked]; [done|]. intros [Hne Hnin]%not_elem_of_cons (E & d & Hd & H). split; [done|].
  exists d. rewrite list_lookup_alter_ne by done. split; [done|auto].
Qed.

Lemma link_bodies s sp p : bodies (set_link sp p s) = bodies s.
Proof.
  unfold bodies, set_link. cbn [first_state]. apply list_eq. intros i. rewrite !list_lookup_fmap.
  destruct (decide (sp = i)) as [->|Hne]; [rewrite list_lookup_alter_eq|now rewrite list_lookup_alter_ne]. now destruct (first_state s !! i).
Qed.

(** The new state [p] at the end of a chain. *)
Lemma linked_extend st last_ p c l : st !! last_ = Some c -> p ∉ l ++ [last_] -> (p < length st)%nat -> (forall d, st !! p = Some d -> link d = None) -> NoDup (l ++ [last_]) ->
  forall o, linked st o (l ++ [last_]) -> linked (alter (fun c => MkCore (Some p) (accessing_symbol c) (items c)) last_ st) o (l ++ [last_; p]).
Proof.
  intros Hc Hnin Hp Hl. induction l as [|j l IH]; intros Hnd o; cbn [app linked].
  - intros (E & d & Hd & _). split; [done|]. exists (MkCore (Some p) (accessing_symbol d) (items d)). rewrite list_lookup_alter_eq, Hd. split; [done|]. cbn [link]. split; [done|].
    destruct (lookup_lt_is_Some_2 st p Hp) as [e He]. exists e. assert (last_ <> p) by (intros ->; apply Hnin, elem_of_app; right; apply list_elem_of_here).
    rewrite list_lookup_alter_ne by done. split; [done|auto].
  - cbn [app] in Hnin, Hnd. apply not_elem_of_cons in Hnin as [Hne Hnin]. apply NoDup_cons in Hnd as [Hj Hnd]. intros (E & d & Hd & H). split; [done|].
    exists d. rewrite list_lookup_alter_ne by (intros ->; apply Hj, elem_of_app; right; apply list_elem_of_here). split; [done|]. now apply IH.
Qed.

Lemma new_state_eq symbol ks s : (nstates s < MAXSHORT)%nat -> new_state symbol ks s = Done (nstates s, add_state (MkCore None symbol ks) s).
Proof. intros H. unfold new_state. now rewrite (proj2 (Nat.leb_gt _ _) H). Qed.
Lemma new_state_full symbol ks s : (MAXSHORT <= nstates s)%nat -> new_state symbol ks s = Fatal_error "too many states".
Proof. intros H. unfold new_state. now rewrite (proj2 (Nat.leb_le _ _) H). Qed.

Lemma find_state_spec symbol ks s l : forall fuel sp, linked (first_state s) (Some sp) (sp :: l) -> (length (sp :: l) <= fuel)%nat ->
  (exists j c, j ∈ sp :: l /\ first_state s !! j = Some c /\ items c = ks /\ find_state fuel symbol ks sp s = Done (j, s)) \/
  ((forall j c, j ∈ sp :: l -> first_state s !! j = Some c -> items c <> ks) /\
   exists l0 last_, sp :: l = l0 ++ [last_] /\
     find_state fuel symbol ks sp s = match new_state symbol ks s with Done (p, s) => Done (p, set_link last_ p s) | x => x end).
Proof.
  induction l as [|j l IH]; intros [|fuel] sp (_ & c & Hc & Hl) Hf; cbn [length] in Hf; try lia; cbn [find_state]; rewrite Hc;
    destruct (bool_decide_reflect (items c = ks)) as [E|E].
  - left. exists sp, c. split; [apply list_elem_of_here|done].
  - right. split; [intros j d ->%list_elem_of_singleton Hd; congruence|]. exists [], sp. split; [done|]. cbn [linked] in Hl. rewrite Hl. done.
  - left. exists sp, c. split; [apply list_elem_of_here|done].
  - destruct Hl as (El & Hl). rewrite El. destruct (IH fuel j (conj eq_refl Hl) ltac:(cbn [length]; lia)) as [(i & d & Hi & H)|(H1 & l0 & last_ & E2 & H2)].
    + left. exists i, d. split; [now apply list_elem_of_further|done].
    + right. split; [intros i d [->|Hi]%elem_of_cons Hd; [congruence|eauto]|]. exists (sp :: l0), last_. now rewrite E2.
Qed.

(** The states but the first one whose first item is [key]. *)
Definition in_chain (bs : list (Z * list Z)) (key : Z) (j : nat) : Prop := (0 < j)%nat /\ exists b, bs !! j = Some b /\ hd 0 b.2 = key.

Lemma chained_bodies s key (l : list nat) : (forall j, j ∈ l <-> (0 < j)%nat /\ exists c, first_state s !! j = Some c /\ hd 0 (items c) = key) <->
  (forall j, j ∈ l <-> in_chain (bodies s) key j).
Proof.
  assert (E : forall j, (exists c, first_state s !! j = Some c /\ hd 0 (items c) = key) <-> exists b, bodies s !! j = Some b /\ hd 0 b.2 = key).
  { intros j. split; [intros (c & H & E); exists (body c); rewrite bodies_lookup; eauto|]. intros (b & (c & H & <-)%bodies_lookup & E). exists c. done. }
  unfold in_chain. split; intros H j; rewrite H; now rewrite E.
Qed.

(** The members of the chains after a state is added. *)
Lemma members_added bs b key (l : list nat) : (0 < length bs)%nat -> (forall j, j ∈ l <-> in_chain bs key j) ->
  forall j, j ∈ (if hd 0 b.2 =? key then l ++ [length bs] else l) <-> in_chain (bs ++ [b]) key j.
Proof.
  intros Hn H j. assert (Ej : in_chain (bs ++ [b]) key j <-> in_chain bs key j \/ (j = length bs /\ hd 0 b.2 = key)).
  { unfold in_chain. split.
    - intros (Hj & b' & [Hb|[Hl Hb]]%lookup_app_Some & Ek); [left; eauto|right]. apply list_lookup_singleton_Some in Hb as [Hj' <-]. split; [lia|done].
    - intros [(Hj & b' & Hb & Ek)|[-> Ek]]; (split; [done|]); [exists b'; split; [now apply lookup_app_l_Some|done]|].
      exists b. split; [|done]. now apply list_lookup_middle. }
  rewrite Ej. destruct (Z.eqb_spec (hd 0 b.2) key) as [Ek|Ek].
  - rewrite elem_of_app, list_elem_of_singleton, H. intuition.
  - rewrite H. intuition.
Qed.

Lemma NoDup_snoc (l : list nat) x : NoDup l -> x ∉ l -> NoDup (l ++ [x]).
Proof. intros H Hx. apply NoDup_app. split; [done|]. split; [|apply NoDup_singleton]. intros y Hy ->%list_elem_of_singleton. done. Qed.

Lemma chain_below s key l : chained s key l -> nstates s ∉ l.
Proof. intros (Hl & _) H. apply linked_range in Hl. rewrite Forall_forall in Hl. specialize (Hl _ H). unfold nstates in Hl. lia. Qed.

(** A new state: the chain of its key, or the link of the last one, goes on with it. *)
Lemma chained_first s symbol ks : chains s -> state_set s !! hd 0 ks = None ->
  chains (set_state_set (hd 0 ks) (nstates s) (add_state (MkCore None symbol ks) s)).
Proof.
  intros [H0 Hch] Hkey. split; [unfold nstates; cbn [set_state_set add_state first_state]; rewrite length_app; unfold nstates in H0; lia|].
  intros key. destruct (Hch key) as [l Hl]. pose proof Hl as (Hlk & Hnd & Hin). pose proof (chain_below _ _ _ Hl) as Hnew. rewrite chained_bodies in Hin.
  exists (if hd 0 ks =? key then l ++ [nstates s] else l). unfold chained. rewrite chained_bodies.
  cbn [set_state_set add_state first_state state_set]. rewrite lookup_insert_Z. split; [|split].
  - destruct (Z.eqb_spec (hd 0 ks) key) as [<-|Hne]; [|now apply linked_app].
    destruct l as [|j l]; [|destruct Hlk; congruence]. cbn [app linked]. split; [done|]. exists (MkCore None symbol ks). split; [|done].
    unfold nstates. now apply list_lookup_middle.
  - destruct (hd 0 ks =? key); [now apply NoDup_snoc|done].
  - replace (bodies _) with (bodies s ++ [(symbol, ks)]) by (unfold bodies; cbn [set_state_set add_state first_state]; now rewrite map_app).
    rewrite <- length_bodies. apply (members_added _ (symbol, ks)); [now rewrite length_bodies|done].
Qed.

Lemma chained_next s symbol ks l0 last_ : chains s -> chained s (hd 0 ks) (l0 ++ [last_]) ->
  chains (set_link last_ (nstates s) (add_state (MkCore None symbol ks) s)).
Proof.
  intros [H0 Hch] Hk. split; [unfold nstates; cbn [set_link add_state first_state]; rewrite length_alter, length_app; unfold nstates in H0; lia|].
  pose proof Hk as (_ & _ & Hink). assert (Hlast : last_ ∈ l0 ++ [last_]) by (apply elem_of_app; right; apply list_elem_of_here).
  pose proof (proj1 (Hink last_) Hlast) as (_ & cl & Hcl & Ecl).
  assert (Hb : forall key l, (forall j, j ∈ l <-> in_chain (bodies s) key j) ->
    forall j, j ∈ (if hd 0 ks =? key then l ++ [nstates s] else l) <-> in_chain (bodies (set_link last_ (nstates s) (add_state (MkCore None symbol ks) s))) key j).
  { intros key l Hl. rewrite link_bodies. replace (bodies _) with (bodies s ++ [(symbol, ks)]) by (unfold bodies; cbn [add_state first_state]; now rewrite map_app).
    rewrite <- length_bodies. apply (members_added _ (symbol, ks)); [now rewrite length_bodies|done]. }
  intros key. unfold chained. cbn [set_link add_state first_state state_set]. destruct (Z.eqb_spec (hd 0 ks) key) as [<-|Hne].
  - pose proof (chain_below _ _ _ Hk) as Hnew. pose proof Hk as (Hlk & Hnd & _). exists ((l0 ++ [last_]) ++ [nstates s]). split; [|split; [now apply NoDup_snoc|]].
    + rewrite <- app_assoc. apply (linked_extend _ _ _ cl); [now apply lookup_app_l_Some|done|rewrite length_app; cbn [length]; unfold nstates; lia| |done|now apply linked_app].
      intros d Hd. unfold nstates in Hd. rewrite list_lookup_middle in Hd by done. now injection Hd as <-.
    + apply (proj2 (chained_bodies (set_link last_ (nstates s) (add_state (MkCore None symbol ks) s)) _ _)). rewrite chained_bodies in Hink. specialize (Hb _ _ Hink). now rewrite Z.eqb_refl in Hb.
  - destruct (Hch key) as [l Hl]. pose proof Hl as (Hlk & Hnd & Hin). exists l. split; [|split; [done|]].
    + apply linked_alter; [|now apply linked_app]. intros Hc. apply Hin in Hc as (_ & c & Hc & Ec). congruence.
    + apply (proj2 (chained_bodies (set_link last_ (nstates s) (add_state (MkCore None symbol ks) s)) _ _)). rewrite chained_bodies in Hin. specialize (Hb _ _ Hin). now rewrite (proj2 (Z.eqb_neq _ _) Hne) in Hb.
Qed.

(** The state of a symbol: one of those but the first, or a new one. *)
Lemma get_state_spec symbol ks kernel s : kernel !! symbol = Some ks -> chains s ->
  (exists j b, (0 < j)%nat /\ bodies s !! j = Some b /\ b.2 = ks /\ get_state symbol kernel s = Done (j, s)) \/
  ((forall j b, (0 < j)%nat -> bodies s !! j = Some b -> b.2 <> ks) /\
   ((MAXSHORT <= nstates s)%nat /\ get_state symbol kernel s = Fatal_error "too many states" \/
    (nstates s < MAXSHORT)%nat /\ exists s', get_state symbol kernel s = Done (nstates s, s') /\ chains s' /\
      bodies s' = bodies s ++ [(symbol, ks)] /\ first_shift s' = first_shift s /\ first_reduction s' = first_reduction s)).
Proof.
  intros Hker Hch. unfold get_state. rewrite Hker. change (default [] (Some ks)) with ks. cbn zeta. pose proof Hch as [H0 Hk]. destruct (Hk (hd 0 ks)) as [l Hl]. clear Hk.
  pose proof Hl as (Hlk & Hnd & Hin). 
  assert (Hnone : (forall j c, j ∈ l -> first_state s !! j = Some c -> items c <> ks) -> forall j b, (0 < j)%nat -> bodies s !! j = Some b -> b.2 <> ks).
  { intros H j b Hj (c & Hc & <-)%bodies_lookup E. cbn [body snd] in E. apply (H j c); [|done|done]. apply Hin. split; [done|]. exists c. now rewrite E. }
  destruct (state_set s !! hd 0 ks) as [sp|] eqn:Ek.
  - destruct l as [|j l]; [cbn in Hlk; congruence|]. pose proof Hlk as [[= ->] _].
    destruct (find_state_spec symbol ks s l (S (nstates s)) j Hlk) as [(i & c & Hi & Hc & E & E2)|(H1 & l0 & last_ & E & E2)].
    + pose proof (Forall_forall (fun j => (j < nstates s)%nat) (j :: l)) as [Hf _]. specialize (Hf (linked_range _ _ _ Hlk)).
      pose proof (submseteq_length (j :: l) (seq 0 (nstates s))) as Hle. rewrite length_seq in Hle. apply Nat.le_trans with (nstates s); [|lia]. apply Hle.
      apply NoDup_submseteq; [done|]. intros x Hx. apply elem_of_seq. specialize (Hf x Hx). cbn beta in Hf. lia.
    + left. exists i, (body c). apply Hin in Hi as [Hi _]. rewrite bodies_lookup. split; [done|]. split; [eauto|split; [exact E|exact E2]].
    + right. split; [now apply Hnone|]. rewrite E2. destruct (Nat.le_gt_cases MAXSHORT (nstates s)) as [Hm|Hm]; [left|right]; (split; [done|]).
      * now rewrite new_state_full.
      * rewrite new_state_eq by done. eexists. split; [done|]. split; [apply (chained_next s symbol ks l0); [done|now rewrite <- E]|].
        rewrite link_bodies. split; [|done]. unfold bodies. cbn [add_state first_state]. now rewrite map_app.
  - destruct l as [|j l]; [|destruct Hlk; congruence]. right. split; [apply Hnone; intros j c Hj; now apply not_elem_of_nil in Hj|].
    destruct (Nat.le_gt_cases MAXSHORT (nstates s)) as [Hm|Hm]; [left|right]; (split; [done|]).
    + now rewrite new_state_full.
    + rewrite new_state_eq by done. eexists. split; [done|]. split; [now apply chained_first|]. split; [|done]. unfold bodies. cbn [set_state_set add_state first_state]. now rewrite map_app.
Qed.

(** ** The automaton *)

Section Automaton.
Context (g : grammar) (OK : grammar_ok g).

(** The items of a state, from those of its nucleus. *)
Definition closure_of (K I : list Z) : Prop := StronglySorted Z.lt I /\ forall x, x ∈ I <-> in_closure g K x.

(** A transition of the canonical automaton; a state is its accessing symbol and its nucleus. *)
Definition goto (b b' : Z * list Z) : Prop := exists I X, closure_of b.2 I /\ shifted g I X /\ b' = (X, goto_items g I X).
Inductive reachable : Z * list Z -> Prop :=
| reachable_start : reachable (0, start_items g)
| reachable_goto b b' : reachable b -> goto b b' -> reachable b'.

(** [get_states] from a state of the items [I]: its transitions. *)
Definition transition (s : lr0) (I : list Z) (X : Z) (j : nat) : Prop := (0 < j)%nat /\ bodies s !! j = Some (X, goto_items g I X).
Definition transitions (s : lr0) (I : list Z) (T : list nat) : Prop :=
  exists symbols, StronglySorted Z.lt symbols /\ (forall X, X ∈ symbols <-> shifted g I X) /\ Forall2 (transition s I) symbols T.

(** The states found are some of those of the canonical automaton, each once. *)
Record partial_automaton (s : lr0) : Prop := {
  pa_chains : chains s;
  pa_states : (nstates s <= MAXSHORT)%nat;
  pa_start : bodies s !! O = Some (0, start_items g);
  pa_reachable j b : (0 < j)%nat -> bodies s !! j = Some b -> exists b0, reachable b0 /\ goto b0 b;
  pa_distinct i j b b' : (0 < i)%nat -> (0 < j)%nat -> bodies s !! i = Some b -> bodies s !! j = Some b' -> b.2 = b'.2 -> i = j
}.

(** [MAXSHORT] nuclei, not counting the start. *)
Definition many_states : Prop := exists l, length l = MAXSHORT /\ NoDup l /\ Forall (fun K => exists b0 X, reachable b0 /\ goto b0 (X, K)) l.

Lemma goto_symbol b X K x : goto b (X, K) -> x ∈ K -> X = at_ (ritem g) (x - 1).
Proof.
  intros (I & Y & _ & _ & [= -> ->]) Hx. unfold goto_items in Hx. apply list_elem_of_fmap in Hx as (i & -> & [Hi _]%list_elem_of_filter).
  now replace (i + 1 - 1) with i by lia.
Qed.
Lemma goto_nonempty b b' : goto b b' -> b'.2 <> [].
Proof. intros (I & X & _ & HX & ->). cbn [snd]. rewrite goto_items_nil by apply HX. tauto. Qed.

(** The accessing symbol is that of the nucleus. *)
Lemma goto_determined b b1 b' b1' : goto b b' -> goto b1 b1' -> b'.2 = b1'.2 -> b' = b1'.
Proof.
  intros H H1 E. pose proof (goto_nonempty _ _ H) as Hne. destruct b' as [X K], b1' as [X1 K1]. cbn [snd] in *. subst K1.
  destruct K as [|x K]; [done|]. rewrite (goto_symbol _ _ _ x H), (goto_symbol _ _ _ x H1); [done|apply list_elem_of_here..].
Qed.

Lemma closure_of_unique K I I' : closure_of K I -> closure_of K I' -> I = I'.
Proof.
  intros [Hs Hi] [Hs' Hi']. apply (StronglySorted_unique_strong Z.lt); [intros x y _ _ ? ?; lia|done|done|].
  assert (Hnd : forall l, StronglySorted Z.lt l -> NoDup l).
  { intros l. induction 1 as [|x l Hl IH Hx]; constructor; [|done]. intros H. rewrite Forall_forall in Hx. specialize (Hx x H). lia. }
  apply NoDup_Permutation; [auto..|]. intros x. now rewrite Hi, Hi'.
Qed.

Lemma lookup_snoc_Z {A} (l : list A) x j y : (l ++ [x]) !! j = Some y -> l !! j = Some y \/ (j = length l /\ y = x).
Proof. intros [H|[Hl H]]%lookup_app_Some; [now left|right]. apply list_lookup_singleton_Some in H as [Hj <-]. split; [lia|done]. Qed.

(** A state is added. *)
Lemma partial_add s s' b0 b : partial_automaton s -> reachable b0 -> goto b0 b -> (forall j b', (0 < j)%nat -> bodies s !! j = Some b' -> b'.2 <> b.2) ->
  (nstates s < MAXSHORT)%nat -> chains s' -> bodies s' = bodies s ++ [b] -> partial_automaton s'.
Proof.
  intros P Hr Hg Hnew Hn Hch E. constructor; [done|rewrite <- length_bodies, E, length_app, length_bodies; cbn [length]; lia|rewrite E; apply lookup_app_l_Some, (pa_start s P)|..]; rewrite E.
  - intros j b' Hj [Hb|[-> ->]]%lookup_snoc_Z; [now apply (pa_reachable s P j)|eauto].
  - intros i j b1 b2 Hi Hj [H1|[-> ->]]%lookup_snoc_Z [H2|[-> ->]]%lookup_snoc_Z Eb; [now apply (pa_distinct s P i j b1 b2)| | |done].
    + now destruct (Hnew i b1 Hi H1).
    + now destruct (Hnew j b2 Hj H2).
Qed.

Lemma too_many s b0 b : partial_automaton s -> reachable b0 -> goto b0 b -> (forall j b', (0 < j)%nat -> bodies s !! j = Some b' -> b'.2 <> b.2) ->
  (MAXSHORT <= nstates s)%nat -> many_states.
Proof.
  intros P Hr Hg Hnew Hn. pose proof (pa_states s P) as Hn'. exists (b.2 :: map snd (tail (bodies s))).
  assert (Hl : forall K, K ∈ map snd (tail (bodies s)) -> exists j b', (0 < j)%nat /\ bodies s !! j = Some b' /\ b'.2 = K).
  { intros K (b' & -> & [j Hj]%list_elem_of_lookup)%list_elem_of_fmap. exists (S j), b'. split; [lia|]. split; [|done]. rewrite <- Hj. symmetry. apply lookup_tail. }
  split; [cbn [length]; rewrite length_map, length_tl, length_bodies; assert (0 < nstates s)%nat by apply (pa_chains s P); lia|]. split.
  - apply NoDup_cons. split; [intros (j & b' & Hj & Hb & E)%Hl; now apply (Hnew j b')|]. apply NoDup_alt. intros i j K Hi Hj.
    rewrite list_lookup_fmap, lookup_tail in Hi, Hj. apply fmap_Some in Hi as (b1 & Hi & ->), Hj as (b2 & Hj & E).
    pose proof (pa_distinct s P (S i) (S j) b1 b2 ltac:(lia) ltac:(lia) Hi Hj E). lia.
  - constructor; [exists b0, b.1; destruct b; eauto|]. apply Forall_forall. intros K (j & b' & Hj & Hb & <-)%Hl.
    destruct (pa_reachable s P j b' Hj Hb) as (b1 & ? & ?). exists b1, b'.1. destruct b'; eauto.
Qed.

(** [get_state] on a symbol that is shifted. *)
Lemma get_state_ok s kernel b0 I X : partial_automaton s -> reachable b0 -> closure_of b0.2 I -> shifted g I X -> kernel !! X = Some (goto_items g I X) ->
  get_state X kernel s = Fatal_error "too many states" /\ many_states \/
  exists j s', get_state X kernel s = Done (j, s') /\ partial_automaton s' /\ bodies s `prefix_of` bodies s' /\ transition s' I X j /\
    first_shift s' = first_shift s /\ first_reduction s' = first_reduction s.
Proof.
  intros P Hr HI HX Hk. assert (Hg : goto b0 (X, goto_items g I X)) by (exists I, X; done).
  destruct (get_state_spec X _ kernel s Hk (pa_chains s P)) as [(j & b & Hj & Hb & E & Eg)|(Hnew & [[Hn Eg]|(Hn & s' & Eg & Hch & E & Es & Er)])].
  - right. exists j, s. split; [done|]. split; [done|]. split; [done|]. split; [|done]. split; [done|]. destruct (pa_reachable s P j b Hj Hb) as (b1 & _ & Hg1).
    rewrite Hb. f_equal. exact (goto_determined _ _ _ _ Hg1 Hg E).
  - left. split; [done|]. exact (too_many s b0 _ P Hr Hg Hnew Hn).
  - right. exists (nstates s), s'. split; [done|]. split; [exact (partial_add s s' b0 _ P Hr Hg Hnew Hn Hch E)|]. rewrite E. split; [now apply prefix_app_r|].
    split; [|done]. split; [apply (pa_chains s P)|]. rewrite E, <- length_bodies. now apply list_lookup_middle.
Qed.

Lemma transition_prefix s s' I X j : bodies s `prefix_of` bodies s' -> transition s I X j -> transition s' I X j.
Proof. intros Hp [Hj Hb]. split; [done|]. exact (prefix_lookup_Some _ _ _ _ Hb Hp). Qed.

Lemma get_states_ok kernel b0 I symbols : reachable b0 -> closure_of b0.2 I ->
  (forall X, X ∈ symbols -> shifted g I X /\ kernel !! X = Some (goto_items g I X)) -> forall s acc, partial_automaton s ->
  get_states symbols kernel acc s = Fatal_error "too many states" /\ many_states \/
  exists T s', get_states symbols kernel acc s = Done (acc ++ T, s') /\ partial_automaton s' /\ bodies s `prefix_of` bodies s' /\
    Forall2 (transition s' I) symbols T /\ first_shift s' = first_shift s /\ first_reduction s' = first_reduction s.
Proof.
  intros Hr HI. induction symbols as [|X symbols IH]; intros Hsy s acc P; cbn [get_states].
  - right. exists [], s. rewrite app_nil_r. done.
  - destruct (Hsy X (list_elem_of_here _ _)) as [HX Hk].
    destruct (get_state_ok s kernel b0 I X P Hr HI HX Hk) as [[-> Hm]|(j & s1 & -> & P1 & Hp1 & Ht & Es1 & Er1)]; [now left|].
    destruct (IH (fun Y HY => Hsy Y (list_elem_of_further _ _ _ HY)) s1 (acc ++ [j]) P1) as [?|(T & s' & E & P' & Hp & HT & Es & Er)]; [now left|right].
    exists (j :: T), s'. rewrite E, <- app_assoc. split; [done|]. split; [done|]. split; [now transitivity (bodies s1)|].
    split; [constructor; [exact (transition_prefix _ _ _ _ _ Hp Ht)|done]|]. now rewrite Es, Er.
Qed.

(** ** The loop *)

Lemma goto_items_increasing I X : StronglySorted Z.lt I -> StronglySorted Z.lt (goto_items g I X).
Proof.
  intros Hs. apply (filter_increasing (fun i => at_ (ritem g) i = X)) in Hs. unfold goto_items. induction Hs as [|i l Hl IH Hi]; cbn [map]; constructor; [done|].
  apply Forall_forall. intros x (j & -> & Hj)%list_elem_of_fmap. rewrite Forall_forall in Hi. specialize (Hi j Hj). lia.
Qed.

Lemma rules_increasing X : StronglySorted Z.lt (rules g X).
Proof. apply filter_increasing, seqZ_increasing. Qed.

Lemma reachable_increasing b : reachable b -> StronglySorted Z.lt b.2.
Proof.
  intros [|b0 b' _ (I & X & HI & _ & ->)]; cbn [snd]; [|apply goto_items_increasing, HI].
  apply (order_increasing g OK); [apply rules_increasing|]. apply Forall_forall. intros r Hr. apply (rules_positive g OK 0); [lia|]. now rewrite Z.add_0_r.
Qed.

Lemma reachable_state s j b : partial_automaton s -> bodies s !! j = Some b -> reachable b.
Proof.
  intros P Hb. destruct j as [|j]; [rewrite (pa_start s P) in Hb; injection Hb as <-; constructor|].
  destruct (pa_reachable s P (S j) b ltac:(lia) Hb) as (b0 & ? & ?). econstructor; eauto.
Qed.

(** The lists of [shifts] and [reductions] of states with the targets [T] and the rules [R]. *)
Definition saved_shifts (T : list (list nat)) : list shifts := concat (imap (fun q t => match t with [] => [] | _ => [MkShifts q t] end) T).
Definition saved_reductions (R : list (list Z)) : list reductions := concat (imap (fun q r => match r with [] => [] | _ => [MkReductions q r] end) R).

Lemma saved_shifts_snoc T t : saved_shifts (T ++ [t]) = saved_shifts T ++ match t with [] => [] | _ => [MkShifts (length T) t] end.
Proof. unfold saved_shifts. rewrite imap_app, concat_app. cbn [imap concat]. rewrite app_nil_r, Nat.add_0_r. now destruct t. Qed.
Lemma saved_reductions_snoc R r : saved_reductions (R ++ [r]) = saved_reductions R ++ match r with [] => [] | l => [MkReductions (length R) l] end.
Proof. unfold saved_reductions. rewrite imap_app, concat_app. cbn [imap concat]. rewrite app_nil_r, Nat.add_0_r. now destruct r. Qed.

(** What is saved for a state with the nucleus [K]. *)
Definition row (s : lr0) (K : list Z) (t : list nat) (r : list Z) : Prop := exists I, closure_of K I /\ transitions s I t /\ r = redset g I.

(** The first [p] states have their shifts and reductions. *)
Definition processed (s : lr0) (p : nat) : Prop :=
  exists T R, length T = p /\ length R = p /\ first_shift s = saved_shifts T /\ first_reduction s = saved_reductions R /\
    forall q t r b, T !! q = Some t -> R !! q = Some r -> bodies s !! q = Some b -> row s b.2 t r.

Lemma row_prefix s s' K t r : bodies s `prefix_of` bodies s' -> row s K t r -> row s' K t r.
Proof.
  intros Hp (I & HI & (sy & Hs & Hsy & HT) & Hr). exists I. split; [done|]. split; [|done]. exists sy. split; [done|]. split; [done|].
  eapply Forall2_impl; [exact HT|]. intros X j. now apply transition_prefix.
Qed.

Lemma append_states_ok s b0 I itemset_symbols kernel : partial_automaton s -> reachable b0 -> closure_of b0.2 I ->
  new_itemsets g I [] ∅ = (itemset_symbols, kernel) ->
  append_states itemset_symbols kernel s = Fatal_error "too many states" /\ many_states \/
  exists T s', append_states itemset_symbols kernel s = Done (T, s') /\ partial_automaton s' /\ bodies s `prefix_of` bodies s' /\
    transitions s' I T /\ first_shift s' = first_shift s /\ first_reduction s' = first_reduction s.
Proof.
  intros P Hr HI E. pose proof (new_itemsets_spec g I [] [] ∅) as Hk. rewrite E in Hk. cbn [app fst snd] in Hk.
  destruct Hk as (Hnd & Hsym & Hker).
  { split; [constructor|]. split; [|intros X; rewrite lookup_empty; now rewrite bool_decide_eq_false_2 by apply not_elem_of_nil].
    intros X. split; [intros H; now apply not_elem_of_nil in H|]. intros (_ & i & Hi & _). now apply not_elem_of_nil in Hi. }
  destruct (sort_symbols_increasing itemset_symbols Hnd) as [Hp Hs].
  destruct (get_states_ok kernel b0 I (sort_symbols (length itemset_symbols - 1) 1 itemset_symbols) Hr HI) with (s := s) (acc := @nil nat) as [?|(T & s' & H & P' & Hpre & HT & H')]; [|done|now left|right].
  - intros X HX. rewrite Hp in HX. split; [now apply Hsym|]. rewrite Hker. now rewrite bool_decide_eq_true_2.
  - exists T, s'. split; [exact H|]. split; [done|]. split; [done|]. split; [|done]. exists (sort_symbols (length itemset_symbols - 1) 1 itemset_symbols).
    split; [done|]. split; [|done]. intros X. rewrite <- Hsym. now rewrite Hp.
Qed.

Section Loop.
Context (ruleset fd : Z) (same : mem -> Prop).
Hypothesis closure_ok : forall m K, same m -> StronglySorted Z.lt K ->
  closure_of K (closure g ruleset fd K m).1 /\ same (closure g ruleset fd K m).2.

Lemma save_reductions_bodies q I s : bodies (save_reductions g q I s) = bodies s /\ state_set (save_reductions g q I s) = state_set s /\
  first_state (save_reductions g q I s) = first_state s /\ first_shift (save_reductions g q I s) = first_shift s /\
  first_reduction (save_reductions g q I s) = first_reduction s ++ match redset g I with [] => [] | r => [MkReductions q r] end.
Proof. unfold save_reductions. destruct (redset g I); rewrite ?app_nil_r; done. Qed.

Lemma partial_same s s' : first_state s' = first_state s -> state_set s' = state_set s -> partial_automaton s -> partial_automaton s'.
Proof. destruct s, s'. cbn. intros -> -> []. constructor; done. Qed.

Lemma process_state_ok s q c m : partial_automaton s -> processed s q -> same m -> first_state s !! q = Some c ->
  process_state g ruleset fd q c m s = Fatal_error "too many states" /\ many_states \/
  exists m' s', process_state g ruleset fd q c m s = Done (m', s') /\ partial_automaton s' /\ processed s' (S q) /\ same m' /\ bodies s `prefix_of` bodies s'.
Proof.
  intros P (T & R & HT & HR & Es & Er & Hrow) Hm Hc. assert (Hb : bodies s !! q = Some (body c)) by (apply bodies_lookup; eauto).
  pose proof (reachable_state s q _ P Hb) as Hre. destruct (closure_ok m (items c) Hm (reachable_increasing _ Hre)) as [HI Hm'].
  unfold process_state. destruct (closure g ruleset fd (items c) m) as [I m'] eqn:Ec. cbn [fst snd] in HI, Hm'. clear Ec.
  destruct (save_reductions_bodies q I s) as (B1 & B2 & B3 & B4 & B5). set (s1 := save_reductions g q I s) in *.
  destruct (new_itemsets g I [] ∅) as [sy kernel] eqn:En.
  destruct (append_states_ok s1 (body c) I sy kernel (partial_same s s1 B3 B2 P) Hre HI En) as [[-> Hmany]|(t & s2 & -> & P2 & Hpre & Ht & Es2 & Er2)]; [now left|right].
  rewrite B1 in Hpre. set (s3 := match t with [] => s2 | _ => save_shifts q t s2 end).
  assert (B : first_state s3 = first_state s2 /\ state_set s3 = state_set s2 /\ first_reduction s3 = first_reduction s2 /\ 
    first_shift s3 = first_shift s2 ++ match t with [] => [] | _ => [MkShifts q t] end) by (unfold s3; destruct t; rewrite ?app_nil_r; done).
  destruct B as (C1 & C2 & C3 & C4). assert (C5 : bodies s3 = bodies s2) by (unfold bodies; now rewrite C1). exists m', s3. split; [done|].
  split; [now apply (partial_same s2)|]. split; [|rewrite C5; done]. exists (T ++ [t]), (R ++ [redset g I]). rewrite !length_app. cbn [length].
  split; [lia|]. split; [lia|]. rewrite saved_shifts_snoc, saved_reductions_snoc, HT, HR, C3, C4, Er2, Es2, B4, B5, Es, Er. split; [done|]. split; [now destruct (redset g I)|].
  intros k t' r' b Hkt Hkr Hkb. rewrite C5 in Hkb. apply lookup_snoc_Z in Hkt as [Hkt|[-> ->]].
  - pose proof (lookup_lt_Some _ _ _ Hkt) as Hlt. apply lookup_snoc_Z in Hkr as [Hkr|[-> _]]; [|lia].
    apply (row_prefix s); [now rewrite C5|]. apply (Hrow k); [done..|]. pose proof (lookup_lt_Some _ _ _ Hb).
    destruct (lookup_lt_is_Some_2 (bodies s) k ltac:(lia)) as [b' Hb']. rewrite Hb'. rewrite <- Hkb. symmetry. exact (prefix_lookup_Some _ _ _ _ Hb' Hpre).
  - rewrite HT in *. apply lookup_snoc_Z in Hkr as [Hkr|[_ ->]]; [apply lookup_lt_Some in Hkr; lia|].
    rewrite (prefix_lookup_Some _ _ _ _ Hb Hpre) in Hkb. injection Hkb as <-. exists I. split; [done|]. split; [|done].
    destruct Ht as (sy' & H1 & H2 & H3). exists sy'. split; [done|]. split; [done|]. eapply Forall2_impl; [exact H3|]. intros X j. apply transition_prefix. now rewrite C5.
Qed.

Lemma states_loop_ok fuel : forall q m s, partial_automaton s -> processed s q -> same m -> (q <= nstates s)%nat -> (MAXSHORT < fuel + q)%nat ->
  states_loop g fuel ruleset fd q m s = Fatal_error "too many states" /\ many_states \/
  exists s', states_loop g fuel ruleset fd q m s = Done s' /\ partial_automaton s' /\ processed s' (nstates s').
Proof.
  induction fuel as [|fuel IH]; intros q m s P Hq Hm Hle Hf; cbn [states_loop]; [pose proof (pa_states s P); lia|].
  destruct (first_state s !! q) as [c|] eqn:Hc.
  - destruct (process_state_ok s q c m P Hq Hm Hc) as [[-> H]|(m' & s' & -> & P' & Hq' & Hm' & Hpre)]; [now left|].
    apply IH; [done..| |lia]. apply prefix_length in Hpre. rewrite !length_bodies in Hpre. apply lookup_lt_Some in Hc.
    pose proof Hq' as (T & R & HT & _). destruct (decide (S q <= nstates s')%nat); [done|]. unfold nstates in *. lia.
  - right. exists s. split; [done|]. split; [done|]. apply lookup_ge_None in Hc. unfold nstates in *. now replace (length (first_state s)) with q by lia.
Qed.
End Loop.
End Automaton.

(** ** The claims *)

(** The canonical LR(0) automaton: each state once, by its nucleus, with its transitions
    in the order of the symbols and its reductions in that of the items. *)
Record automaton (g : grammar) (s : lr0) : Prop := {
  au_reachable b : reachable g b <-> exists j, bodies s !! j = Some b;
  au_start : bodies s !! O = Some (0, start_items g);
  au_distinct i j b b' : (0 < i)%nat -> (0 < j)%nat -> bodies s !! i = Some b -> bodies s !! j = Some b' -> b.2 = b'.2 -> i = j;
  au_rows : processed g s (nstates s);
  au_numbers : (nstates s <= MAXSHORT)%nat
}.

Lemma automaton_complete g s : partial_automaton g s -> processed g s (nstates s) -> automaton g s.
Proof.
  intros P Q. constructor; [|apply (pa_start g s P)|apply (pa_distinct g s P)|done|apply (pa_states g s P)].
  intros b. split; [|intros [j Hj]; exact (reachable_state g s j b P Hj)]. destruct Q as (T & R & HT & HR & _ & _ & Hrow).
  induction 1 as [|b b' _ [q Hq] (I & X & HI & HX & ->)]; [exists O; apply (pa_start g s P)|].
  pose proof (lookup_lt_Some _ _ _ Hq) as Hlt. rewrite length_bodies in Hlt.
  destruct (lookup_lt_is_Some_2 T q ltac:(lia)) as [t Ht], (lookup_lt_is_Some_2 R q ltac:(lia)) as [r Hr].
  destruct (Hrow q t r b Ht Hr Hq) as (I' & HI' & (sy & _ & Hsy & HF) & _). rewrite <- (closure_of_unique g _ _ _ HI HI') in *.
  apply Hsy, list_elem_of_lookup in HX as [i Hi]. destruct (Forall2_lookup_l _ _ _ _ _ HF Hi) as (j & _ & [_ Hj]). now exists j.
Qed.

Lemma initial_automaton g : partial_automaton g (initialize_states g) /\ processed g (initialize_states g) 0.
Proof.
  assert (H0 : forall j b, (0 < j)%nat -> bodies (initialize_states g) !! j = Some b -> False) by (intros [|j] b Hj Hb; [lia|done]).
  split.
  - constructor; [|unfold MAXSHORT, nstates, initialize_states; cbn [first_state length]; lia|done|intros j b Hj Hb; now destruct (H0 j b)|intros i j b b' Hi _ Hb; now destruct (H0 i b)].
    split; [unfold nstates; cbn; lia|]. intros key. exists []. split; [done|]. split; [constructor|]. intros j. split; [intros H; now apply not_elem_of_nil in H|].
    intros (Hj & c & Hc & _). destruct (H0 j (body c) Hj). apply bodies_lookup. eauto.
  - exists [], []. do 4 (split; [done|]). intros q t r b Ht. done.
Qed.

Lemma generate_states_spec g fuel p EFF ruleset m : grammar_ok g -> (MAXSHORT < fuel)%nat ->
  let fds := nvars g * WORDSIZE (nrules g) in
  let effs := nvars g * WORDSIZE (nvars g) in
  p + fds <= EFF \/ EFF + effs <= p -> ruleset + WORDSIZE (nrules g) <= p \/ p + fds <= ruleset ->
  match generate_states g fuel p EFF ruleset m with
  | Done s => automaton g s
  | Fatal_error msg => msg = "too many states"%string /\ many_states g
  | Unfinished => False
  end.
Proof.
  intros OK Hf fds effs Hd1 Hd2. destruct (closure_tables g p EFF ruleset m OK Hd1 Hd2) as (fd & m1 & E & Hc). unfold generate_states. rewrite E.
  destruct (initial_automaton g) as [P Q].
  destruct (states_loop_ok g OK ruleset fd (fun m2 => forall a, p <= a < p + fds -> ld m2 a = ld m1 a)) with (fuel := fuel) (q := O) (m := m1) (s := initialize_states g)
    as [[-> H]|(s & -> & Ps & Qs)]; [|done|done|done|lia|lia|done|now apply automaton_complete].
  intros m2 K Hm2 Hs. specialize (Hc m2 K Hm2 Hs). destruct (closure g ruleset fd K m2) as [I m3]. destruct Hc as (H1 & H2 & H3). done.
Qed.

(** [set_nullable] always returns, and finds exactly the symbols from which the
    empty word derives. *)
Theorem set_nullable_correct g fuel : packed g -> (Z.to_nat (nrules g) < fuel)%nat ->
  exists nullable, set_nullable g fuel = Some nullable /\ forall j, j ∈ nullable <-> derives_empty g j.
Proof. intros P Hf. apply set_nullable_spec; [done|lia]. Qed.

(** C26: [generate_states] always ends: with the canonical LR(0) automaton of the grammar,
    every reachable nucleus being the items of one state, with the transitions of its
    closure and its reductions, and the numbers of the states [short]s; or with the error
    "too many states", and then [MAXSHORT] nuclei are reachable, besides the start. *)
Theorem lr0_correct g fuel p EFF ruleset m : grammar_ok g -> (MAXSHORT < fuel)%nat ->
  let fds := nvars g * WORDSIZE (nrules g) in
  let effs := nvars g * WORDSIZE (nvars g) in
  p + fds <= EFF \/ EFF + effs <= p -> ruleset + WORDSIZE (nrules g) <= p \/ p + fds <= ruleset ->
  match generate_states g fuel p EFF ruleset m with
  | Done s => automaton g s
  | Fatal_error msg => msg = "too many states"%string /\ many_states g
  | Unfinished => False
  end.
Proof. exact (generate_states_spec g fuel p EFF ruleset m). Qed.

(** ** Witnesses *)

Lemma set_nullable_correct_witness : exists nullable, set_nullable sums 8 = Some nullable /\ (6 ∈ nullable <-> derives_empty sums 6).
Proof.
  destruct (set_nullable_correct sums 8) as (N & E & H); [split; [vm_compute; discriminate|reflexivity]|vm_compute; lia|]. exists N. split; [exact E|exact (H 6)].
Defined.

Lemma lr0_correct_witness : exists s, generate_states sums (S MAXSHORT) 0 10 20 ∅ = Done s /\ automaton sums s.
Proof.
  pose proof (lr0_correct sums (S MAXSHORT) 0 10 20 ∅ sums_ok (Nat.lt_succ_diag_r _)) as H. cbv zeta in H.
  specialize (H ltac:(left; vm_compute; discriminate) ltac:(right; vm_compute; discriminate)).
  destruct (generate_states sums (S MAXSHORT) 0 10 20 ∅) as [s|msg|] eqn:E; [|vm_compute in E; discriminate E|destruct H]. exists s. split; [reflexivity|exact H].
Defined.
