(* ===== verification/Digraph.v ===== *)
(** * The digraph algorithm

    Models [digraph] and [traverse] of [yacc/lalr.c]: the depth-first walk that gives
    each vertex of a relation the union of the rows of [F] of the vertices reached from
    it, finding the strong components on the way.  A vertex is a number of a goto;
    a null pointer [R[i]] is the empty list. *)

From S2P Require Import Prelude Warshall.

(** [*fp2++ = *fp1++] on [k] words, from [p] to [q]. *)
Fixpoint copy_row (k : nat) (p q : Z) (m : mem) : mem :=
  match k with O => m | S k => copy_row k (p + 1) (q + 1) (st m q (ld m p)) end.

(** [INDEX], [VERTICES], [top], and the memory with the rows of [F]. *)
Record walk := MkWalk { INDEX : gmap nat Z; VERTICES : gmap nat nat; top : nat; F_rows : mem }.

(** The elements of [INDEX] are [short]s. *)
Definition index (s : walk) (i : nat) : Z := default 0 (INDEX s !! i).
Definition set_index (i : nat) (x : Z) (s : walk) : walk := MkWalk (<[i := wrapS 16 x]> (INDEX s)) (VERTICES s) (top s) (F_rows s).
Definition push_vertex (i : nat) (s : walk) : walk :=
  set_index i (Z.of_nat (S (top s))) (MkWalk (INDEX s) (<[S (top s) := i]> (VERTICES s)) (S (top s)) (F_rows s)).
Definition set_rows (m : mem) (s : walk) : walk := MkWalk (INDEX s) (VERTICES s) (top s) m.

Section Digraph.
Context (ngotos : nat) (tokensetsize F : Z) (R : nat -> list nat).

Definition infinity : Z := Z.of_nat ngotos + 2.
Definition row_at (i : nat) : Z := F + Z.of_nat i * tokensetsize.

(** [if (INDEX[i] > INDEX[j]) INDEX[i] = INDEX[j];] and the union of the rows. *)
Definition relax (i j : nat) (s : walk) : walk :=
  let s := if index s j <? index s i then set_index i (index s j) s else s in
  set_rows (or_row (Z.to_nat tokensetsize) (row_at i) (row_at j) (F_rows s)) s.

(** [while ((j = *rp++) >= 0)] *)
Fixpoint edges_loop (traverse : nat -> walk -> option walk) (i : nat) (rp : list nat) (s : walk) : option walk :=
  match rp with
  | [] => Some s
  | j :: rp =>
      match (if index s j =? 0 then traverse j s else Some s) with
      | Some s => edges_loop traverse i rp (relax i j s)
      | None => None
      end
  end.

(** [for (;;)]: the component is popped, at most [fuel] turns. *)
Fixpoint pop_loop (fuel : nat) (i : nat) (s : walk) : option walk :=
  match fuel with
  | O => None
  | S fuel =>
      let j := default O (VERTICES s !! top s) in
      let s := set_index j infinity (MkWalk (INDEX s) (VERTICES s) (top s - 1) (F_rows s)) in
      if (i =? j)%nat then Some s
      else pop_loop fuel i (set_rows (copy_row (Z.to_nat tokensetsize) (row_at i) (row_at j) (F_rows s)) s)
  end.

(** Calls nested at most [fuel] deep. *)
Fixpoint traverse (fuel : nat) (i : nat) (s : walk) : option walk :=
  match fuel with
  | O => None
  | S fuel =>
      let s := push_vertex i s in
      let height := Z.of_nat (top s) in
      match edges_loop (traverse fuel) i (R i) s with
      | Some s => if index s i =? height then pop_loop (top s) i s else Some s
      | None => None
      end
  end.

(** [for (i = i; i < ngotos; i++)], [n] turns. *)
Fixpoint digraph_loop (n : nat) (i : nat) (s : walk) : option walk :=
  match n with
  | O => Some s
  | S n =>
      match (if (index s i =? 0) && negb (bool_decide (R i = [])) then traverse ngotos i s else Some s) with
      | Some s => digraph_loop n (S i) s
      | None => None
      end
  end.

Definition digraph (m : mem) : option mem := option_map F_rows (digraph_loop ngotos 0 (MkWalk ∅ ∅ 0 m)).
End Digraph.

(** ** Rows of bits *)

Lemma copy_row_spec k : forall p q m, (q + Z.of_nat k <= p \/ p + Z.of_nat k <= q) -> forall a,
  ld (copy_row k p q m) a = if (q <=? a) && (a <? q + Z.of_nat k) then ld m (p + (a - q)) else ld m a.
Proof.
  induction k as [|k IH]; intros p q m Hpq a; cbn [copy_row].
  - destruct (Z.leb_spec q a), (Z.ltb_spec a (q + Z.of_nat 0)); cbn [andb]; try done. lia.
  - rewrite IH by lia. rewrite !ld_st.
    destruct (Z.leb_spec (q + 1) a), (Z.ltb_spec a (q + 1 + Z.of_nat k)), (Z.leb_spec q a), (Z.ltb_spec a (q + Z.of_nat (S k))); cbn [andb];
      try lia; repeat match goal with |- context [?x =? ?y] => destruct (Z.eqb_spec x y); try lia end; try done.
    all: subst; f_equal; lia.
Qed.

Section Rows.
Context (n : nat) (ntok : Z) (F : Z) (Hntok : 0 <= ntok).
Abbreviation w := (WORDSIZE ntok).
Abbreviation row := (row_at w F).

Definition has (m : mem) (i : nat) (t : Z) : Prop := bit m (row i) t = true.

Lemma word_of_row i t : 0 <= t < ntok -> row i <= row i + t / 32 < row (S i).
Proof. intros Ht. pose proof (word_in_row ntok t Ht). unfold row_at. lia. Qed.

Lemma rows_differ i j a b : 0 <= a < w -> 0 <= b < w -> row i + a = row j + b -> i = j.
Proof. intros Ha Hb E. destruct (rows_apart F ntok (Z.of_nat i) (Z.of_nat j) a b Ha Hb E) as [E' _]. lia. Qed.

Lemma w_nonneg : 0 <= w.
Proof. unfold WORDSIZE, BITS_PER_WORD. zlia. Qed.

Lemma rows_order i j : i <> j -> row j + Z.of_nat (Z.to_nat w) <= row i \/ row i + Z.of_nat (Z.to_nat w) <= row j.
Proof. pose proof w_nonneg. intros Hij. rewrite Z2Nat.id by done. unfold row_at. destruct (Nat.lt_total i j) as [?|[?|?]]; [right|done|left]; nia. Qed.

Lemma in_row_iff i k t : 0 <= t < ntok -> ((row i <=? row k + t / 32) && (row k + t / 32 <? row i + Z.of_nat (Z.to_nat w))) = (k =? i)%nat.
Proof.
  intros Ht. pose proof (word_in_row ntok t Ht) as Hw. rewrite Z2Nat.id by lia. destruct (Nat.eqb_spec k i) as [->|Hne].
  - destruct (Z.leb_spec (row i) (row i + t / 32)), (Z.ltb_spec (row i + t / 32) (row i + w)); lia || done.
  - destruct (Z.leb_spec (row i) (row k + t / 32)), (Z.ltb_spec (row k + t / 32) (row i + w)); try done.
    destruct Hne. apply (rows_differ k i (t / 32) (row k + t / 32 - row i)); lia.
Qed.

Lemma or_row_has i j k t m : 0 <= t < ntok ->
  has (or_row (Z.to_nat w) (row i) (row j) m) k t <-> has m k t \/ (k = i /\ has m j t).
Proof.
  intros Ht. unfold has, bit. rewrite or_row_spec.
  - rewrite in_row_iff by done. destruct (Nat.eqb_spec k i) as [->|Hne]; [|tauto].
    replace (row j + (row i + t / 32 - row i)) with (row j + t / 32) by lia. rewrite Z.lor_spec, orb_true_iff. tauto.
  - destruct (decide (i = j)) as [->|Hij]; [by left|right]. apply rows_order. done.
Qed.

Lemma copy_row_has i j k t m : 0 <= t < ntok -> i <> j ->
  has (copy_row (Z.to_nat w) (row i) (row j) m) k t <-> (if (k =? j)%nat then has m i t else has m k t).
Proof.
  intros Ht Hij. unfold has, bit. rewrite copy_row_spec by (destruct (rows_order j i) as [?|?]; [congruence|right; lia|left; lia]).
  rewrite in_row_iff by done. destruct (Nat.eqb_spec k j) as [->|Hne]; [|tauto].
  replace (row i + (row j + t / 32 - row j)) with (row i + t / 32) by lia. tauto.
Qed.

(** The memory outside of the rows is kept. *)
Definition outside (m m' : mem) : Prop := forall a, a < F \/ row n <= a -> ld m' a = ld m a.

Lemma or_row_outside i j m : (i < n)%nat -> outside m (or_row (Z.to_nat w) (row i) (row j) m).
Proof.
  intros Hi a Ha. rewrite or_row_spec.
  - pose proof w_nonneg. assert (row (S i) <= row n) by (unfold row_at; nia). assert (F <= row i) by (unfold row_at; nia).
    assert (row (S i) = row i + w) by (unfold row_at; lia). rewrite Z2Nat.id by done.
    destruct (Z.leb_spec (row i) a), (Z.ltb_spec a (row i + w)); try done. lia.
  - destruct (decide (i = j)) as [->|Hij]; [by left|right]. apply rows_order. done.
Qed.

Lemma copy_row_outside i j m : (j < n)%nat -> i <> j -> outside m (copy_row (Z.to_nat w) (row i) (row j) m).
Proof.
  intros Hj Hij a Ha. rewrite copy_row_spec by (destruct (rows_order j i) as [?|?]; [congruence|right; lia|left; lia]).
  pose proof w_nonneg. assert (row (S j) <= row n) by (unfold row_at; nia). assert (F <= row j) by (unfold row_at; nia).
  assert (row (S j) = row j + w) by (unfold row_at; lia). rewrite Z2Nat.id by done.
  destruct (Z.leb_spec (row j) a), (Z.ltb_spec a (row j + w)); try done. lia.
Qed.
End Rows.

Lemma short_id x : -32768 <= x < 32768 -> wrapS 16 x = x.
Proof. intros Hx. unfold wrapS. change (2 ^ (16 - 1)) with 32768. change (2 ^ 16) with 65536. rewrite Z.mod_small by lia. lia. Qed.

(** ** The walk *)

Section Walk.
Context (n : nat) (ntok F : Z) (R : nat -> list nat) (m0 : mem).
Context (Hntok : 0 <= ntok) (Hn : Z.of_nat n <= 32765) (HR : forall i j, (i < n)%nat -> j ∈ R i -> (j < n)%nat).
Abbreviation has := (has ntok F).
Abbreviation w := (WORDSIZE ntok).
Abbreviation inf := (infinity n).

Definition arc (i j : nat) : Prop := (i < n)%nat /\ j ∈ R i.
(** The rows at the beginning, and the unions that are computed. *)
Definition own (i : nat) (t : Z) : Prop := 0 <= t < ntok /\ has m0 i t.
Definition gathered (i : nat) (t : Z) : Prop := exists j, rtc arc i j /\ own j t.
Definition holds (s : walk) (i : nat) (t : Z) : Prop := 0 <= t < ntok /\ has (F_rows s) i t.

Lemma gathered_own i t : own i t -> gathered i t.
Proof. intros H. exists i. split; [apply rtc_refl|done]. Qed.
Lemma gathered_step i j t : arc i j -> gathered j t -> gathered i t.
Proof. intros He (k & Hr & Hk). exists k. split; [by eapply rtc_l|done]. Qed.
Lemma gathered_reach i j t : rtc arc i j -> gathered j t -> gathered i t.
Proof. intros He (k & Hr & Hk). exists k. split; [by etrans|done]. Qed.

(** The stack [st], from its bottom, and the vertices on it, done or not visited yet. *)
Record walk_ok (st : list nat) (s : walk) : Prop := {
  wk_top : top s = length st;
  wk_vertices k v : st !! k = Some v -> VERTICES s !! S k = Some v;
  wk_nodup : NoDup st;
  wk_range v : v ∈ st -> (v < n)%nat;
  wk_low k v : st !! k = Some v -> exists l u, index s v = Z.of_nat (S l) /\ (l <= k)%nat /\ st !! l = Some u /\ rtc arc v u;
  wk_index v : (v < n)%nat -> v ∈ st \/ index s v = 0 \/ index s v = inf;
  wk_closed v u : index s v = inf -> arc v u -> index s u = inf;
  wk_done v t : (v < n)%nat -> index s v = inf -> holds s v t <-> gathered v t;
  wk_fresh v t : (v < n)%nat -> index s v = 0 -> holds s v t <-> own v t;
  wk_least v t : v ∈ st -> own v t -> holds s v t;
  wk_most v t : v ∈ st -> holds s v t -> gathered v t;
  wk_outside : outside n ntok F m0 (F_rows s)
}.

Lemma stack_short st s : walk_ok st s -> (length st <= n)%nat.
Proof.
  intros K. rewrite <- (length_seq n 0). apply submseteq_length, NoDup_submseteq; [apply (wk_nodup _ _ K)|].
  intros v Hv. apply elem_of_seq. pose proof (wk_range _ _ K v Hv). lia.
Qed.

Lemma on_stack st s v : walk_ok st s -> v ∈ st -> 0 < index s v <= Z.of_nat n.
Proof.
  intros K [k Hk]%list_elem_of_lookup. destruct (wk_low _ _ K k v Hk) as (l & u & E & Hl & _). pose proof (stack_short _ _ K). apply lookup_lt_Some in Hk. lia.
Qed.

Lemma off_stack st s v : walk_ok st s -> (v < n)%nat -> index s v = 0 \/ index s v = inf -> v ∉ st.
Proof. intros K Hv H Hs. pose proof (on_stack st s v K Hs). unfold infinity in *. lia. Qed.

(** What was visited before is kept. *)
Definition kept (s s' : walk) : Prop := forall v, (v < n)%nat -> index s v <> 0 -> index s' v = index s v /\ forall t, holds s' v t <-> holds s v t.

Lemma keep_refl s : kept s s.
Proof. done. Qed.
Lemma keep_trans s1 s2 s3 : kept s1 s2 -> kept s2 s3 -> kept s1 s3.
Proof.
  intros H H' v Hv Hi. destruct (H v Hv Hi) as [E1 E2]. destruct (H' v Hv) as [E3 E4]; [congruence|]. split; [congruence|]. intros t. rewrite E4. apply E2.
Qed.

Lemma index_set i x s v : -32768 <= x < 32768 -> index (set_index i x s) v = if (v =? i)%nat then x else index s v.
Proof.
  intros Hx. unfold index, set_index. cbn [INDEX]. destruct (Nat.eqb_spec v i) as [->|Hne]; [by rewrite lookup_insert_eq, short_id|by rewrite lookup_insert_ne].
Qed.

(** ** One arc *)

Lemma relax_index i j s v : -32768 <= index s j < 32768 -> index (relax w F i j s) v = if (v =? i)%nat then Z.min (index s i) (index s j) else index s v.
Proof.
  intros Hx. unfold relax, set_rows, index. cbn [INDEX]. fold (index s j) (index s i). destruct (Z.ltb_spec (index s j) (index s i)) as [Hl|Hl].
  - rewrite Z.min_r by lia. exact (index_set i (index s j) s v Hx).
  - rewrite Z.min_l by lia. fold (index s v). destruct (Nat.eqb_spec v i) as [->|]; done.
Qed.

Lemma relax_holds i j s v t : holds (relax w F i j s) v t <-> holds s v t \/ (v = i /\ holds s j t).
Proof.
  unfold holds, relax, set_rows. cbn [F_rows]. destruct (index s j <? index s i); cbn [set_index F_rows];
    (split; [intros [Ht H]; apply or_row_has in H; [tauto|done..]|]); intros H; assert (Ht : 0 <= t < ntok) by tauto; (split; [done|]); apply or_row_has; tauto.
Qed.

Lemma relax_stack i j s : VERTICES (relax w F i j s) = VERTICES s /\ top (relax w F i j s) = top s.
Proof. unfold relax, set_rows. destruct (index s j <? index s i); done. Qed.

Lemma relax_outside i j s : (i < n)%nat -> outside n ntok F m0 (F_rows s) -> outside n ntok F m0 (F_rows (relax w F i j s)).
Proof.
  intros Hi H a Ha. unfold relax, set_rows. cbn [F_rows]. destruct (index s j <? index s i); cbn [set_index F_rows]; rewrite (or_row_outside n ntok F Hntok i j _ Hi a Ha); by apply H.
Qed.

Lemma walk_index_range st s v : walk_ok st s -> (v < n)%nat -> -32768 <= index s v < 32768.
Proof.
  intros K Hv. destruct (wk_index _ _ K v Hv) as [Hs|[-> | ->]]; [|lia|unfold infinity; lia]. pose proof (on_stack _ _ _ K Hs). lia.
Qed.

Lemma edge_range i j : arc i j -> (i < n)%nat /\ (j < n)%nat.
Proof. intros [Hi Hj]. split; [done|by eapply HR]. Qed.

(** A vertex that was visited. *)
Definition visited (st : list nat) (s : walk) (j : nat) : Prop := j ∈ st \/ index s j = inf.

Lemma visited_gathered st s j t : walk_ok st s -> (j < n)%nat -> visited st s j -> holds s j t -> gathered j t.
Proof. intros K Hj [Hs|Hd] H; [by apply (wk_most _ _ K)|by apply (wk_done _ _ K)]. Qed.

Lemma relax_ok st s i j : walk_ok st s -> i ∈ st -> arc i j -> visited st s j -> walk_ok st (relax w F i j s).
Proof.
  intros K Hi He Hj. destruct (edge_range i j He) as [Hin Hjn]. pose proof (walk_index_range _ _ _ K Hjn) as Hr.
  pose proof (on_stack _ _ _ K Hi) as Hi1.
  assert (Hj1 : 0 < index s j) by (destruct Hj as [Hj|Hj]; [pose proof (on_stack _ _ _ K Hj); lia|unfold infinity in Hj; lia]).
  assert (Hmin : 0 < Z.min (index s i) (index s j) <= Z.of_nat n) by lia.
  destruct (relax_stack i j s) as [Ev Et].
  split; rewrite ?Ev, ?Et; try apply K; try setoid_rewrite (fun v => relax_index i j s v Hr); try setoid_rewrite relax_holds.
  - intros k v Hv. destruct (Nat.eqb_spec v i) as [->|]; [|by apply (wk_low _ _ K)].
    destruct (wk_low _ _ K k i Hv) as (l & u & E & Hl & Hu & Hiu). destruct (Z.min_spec (index s i) (index s j)) as [[? ->]|[Hle ->]]; [by exists l, u|].
    destruct Hj as [[kj Hkj]%list_elem_of_lookup|Hj]; [|unfold infinity in Hj; lia].
    destruct (wk_low _ _ K kj j Hkj) as (l' & u' & E' & Hl' & Hu' & Hiu'). exists l', u'. split_and!; [done|lia|done|by eapply rtc_l].
  - intros v Hv. destruct (Nat.eqb_spec v i) as [->|]; [by left|by apply (wk_index _ _ K)].
  - intros v u. destruct (Nat.eqb_spec v i) as [->|]; [unfold infinity; lia|]. intros Hv Hu. pose proof (wk_closed _ _ K v u Hv Hu) as Hu'.
    destruct (Nat.eqb_spec u i) as [->|]; [unfold infinity in Hu'; lia|done].
  - intros v t Hv. destruct (Nat.eqb_spec v i) as [->|Hne]; [unfold infinity; lia|]. intros Hd. rewrite <- (wk_done _ _ K v t Hv Hd). tauto.
  - intros v t Hv. destruct (Nat.eqb_spec v i) as [->|Hne]; [lia|]. intros Hd. rewrite <- (wk_fresh _ _ K v t Hv Hd). tauto.
  - intros v t Hv Ho. left. by apply (wk_least _ _ K).
  - intros v t Hv [H|[-> H]]; [by apply (wk_most _ _ K)|]. apply (gathered_step i j); [done|]. by apply (visited_gathered st s).
  - apply relax_outside; [done|apply K].
Qed.

(** ** The vertices visited from [i], still on the stack *)

(** [rest] are the vertices above [i] on the stack, [es] the edges of [i] that are done. *)
Record above (st : list nat) (i : nat) (rest es : list nat) (s : walk) : Prop := {
  ab_es u : u ∈ es -> arc i u;
  ab_low k v : rest !! k = Some v -> index s i <= index s v <= Z.of_nat (length st + S k);
  ab_reach v : v ∈ rest -> rtc arc i v;
  ab_own v t : v ∈ rest -> own v t -> holds s i t;
  ab_edges v u : v ∈ rest /\ arc v u \/ v = i /\ u ∈ es ->
    (index s u = inf /\ forall t, gathered u t -> holds s i t) \/ u ∈ i :: rest \/ (exists k, st !! k = Some u /\ index s i <= Z.of_nat (S k))
}.

(** The state after the visit of [i] from the stack [st]. *)
Definition visit_done (st : list nat) (i : nat) (s s' : walk) : Prop :=
  kept s s' /\ ((walk_ok st s' /\ index s' i = inf) \/
    exists rest, walk_ok (st ++ i :: rest) s' /\ above st i rest (R i) s' /\ index s' i <= Z.of_nat (length st)).

Lemma kept_visited st s s' j : walk_ok st s -> kept s s' -> (j < n)%nat -> visited st s j -> index s' j = index s j /\ forall t, holds s' j t <-> holds s j t.
Proof.
  intros K Hk Hj Hv. apply Hk; [done|]. destruct Hv as [Hs|Hd]; [pose proof (on_stack _ _ _ K Hs); lia|unfold infinity in Hd; lia].
Qed.

(** An arc to a vertex that was visited. *)
Lemma above_relax st i rest es s j : walk_ok (st ++ i :: rest) s -> above st i rest es s -> arc i j -> visited (st ++ i :: rest) s j ->
  above st i rest (es ++ [j]) (relax w F i j s).
Proof.
  intros K A He Hj. destruct (edge_range i j He) as [Hin Hjn]. pose proof (walk_index_range _ _ _ K Hjn) as Hr.
  assert (Hi : i ∈ st ++ i :: rest) by apply elem_of_mid. pose proof (on_stack _ _ _ K Hi) as Hi1.
  pose proof (wk_nodup _ _ K) as Hnd. apply NoDup_app in Hnd as (_ & _ & [Hnr _]%NoDup_cons).
  assert (Hup : forall u, u <> i -> index s u = index (relax w F i j s) u) by (intros u Hu; rewrite relax_index by done; by rewrite (proj2 (Nat.eqb_neq u i))).
  assert (Ei : index (relax w F i j s) i = Z.min (index s i) (index s j)) by (rewrite relax_index by done; by rewrite Nat.eqb_refl).
  assert (Hh : forall t, holds s i t -> holds (relax w F i j s) i t) by (intros t Ht; apply relax_holds; by left).
  assert (Hinf : forall u, index s u = inf -> index (relax w F i j s) u = inf).
  { intros u Hu. rewrite <- Hup; [done|]. intros ->. unfold infinity in Hu. lia. }
  split.
  - intros u [Hu|Hu]%elem_of_app; [by apply (ab_es _ _ _ _ _ A)|]. by apply list_elem_of_singleton in Hu as ->.
  - intros k v Hv. rewrite <- (Hup v) by (intros ->; apply Hnr; by eapply list_elem_of_lookup_2). pose proof (ab_low _ _ _ _ _ A k v Hv). lia.
  - apply A.
  - intros v t Hv Ho. apply Hh. by apply (ab_own _ _ _ _ _ A v).
  - assert (Hold : forall v u, v ∈ rest /\ arc v u \/ v = i /\ u ∈ es -> (index (relax w F i j s) u = inf /\ forall t, gathered u t -> holds (relax w F i j s) i t) \/
      u ∈ i :: rest \/ (exists k, st !! k = Some u /\ index (relax w F i j s) i <= Z.of_nat (S k))).
    { intros v u Hvu. destruct (ab_edges _ _ _ _ _ A v u Hvu) as [[Hd Ht]|[?|(k & Hk & Hle)]]; [left; auto|auto|]. right; right. exists k. split; [done|lia]. }
    intros v u [Hvu|[-> [Hu|Hu]%elem_of_app]]; [by apply (Hold v); left|by apply (Hold i); right|]. apply list_elem_of_singleton in Hu as ->.
    destruct Hj as [[Hj|Hj]%elem_of_app|Hd]; [|by right; left|left].
    + right; right. apply list_elem_of_lookup in Hj as [k Hk]. exists k. split; [done|]. 
      destruct (wk_low _ _ K k j) as (l & u & E & Hl & _); [by apply lookup_app_l_Some|]. lia.
    + split; [auto|]. intros t Ht. apply relax_holds. right. split; [done|]. by apply (wk_done _ _ K).
Qed.

(** An arc to a vertex that is visited now, and stays on the stack. *)
Lemma above_visit st i rest es s j rest' s' : walk_ok (st ++ i :: rest) s -> above st i rest es s -> kept s s' -> arc i j ->
  walk_ok ((st ++ i :: rest) ++ j :: rest') s' -> above (st ++ i :: rest) j rest' (R j) s' -> index s' j <= Z.of_nat (length (st ++ i :: rest)) ->
  above st i (rest ++ j :: rest') (es ++ [j]) (relax w F i j s').
Proof.
  intros K A Hk He K' A' Hlow. destruct (edge_range i j He) as [Hin Hjn]. pose proof (walk_index_range _ _ _ K' Hjn) as Hr.
  assert (Hi : i ∈ st ++ i :: rest) by apply elem_of_mid.
  pose proof (wk_nodup _ _ K') as Hnd. rewrite <- app_assoc in Hnd. apply NoDup_app in Hnd as (_ & _ & [Hnr _]%NoDup_cons).
  assert (Hst : forall v, v ∈ st ++ i :: rest -> index s' v = index s v /\ forall t, holds s' v t <-> holds s v t).
  { intros v Hv. apply (kept_visited _ _ _ _ K Hk); [by apply (wk_range _ _ K)|by left]. }
  assert (Hup : forall u, u <> i -> index (relax w F i j s') u = index s' u) by (intros u Hu; rewrite relax_index by done; by rewrite (proj2 (Nat.eqb_neq u i))).
  assert (Ei : index (relax w F i j s') i = Z.min (index s' i) (index s' j)) by (rewrite relax_index by done; by rewrite Nat.eqb_refl).
  assert (Hh : forall t, holds s' i t \/ holds s' j t -> holds (relax w F i j s') i t) by (intros t Ht; apply relax_holds; tauto).
  pose proof (on_stack _ _ _ K Hi) as Hi1. destruct (Hst i Hi) as [Esi Ehi].
  assert (Hinf : forall u, index s' u = inf -> index (relax w F i j s') u = inf).
  { intros u Hu. rewrite Hup; [done|]. intros ->. rewrite Esi in Hu. unfold infinity in Hu. lia. }
  split.
  - intros u [Hu|Hu]%elem_of_app; [by apply (ab_es _ _ _ _ _ A)|]. by apply list_elem_of_singleton in Hu as ->.
  - intros k v Hv. rewrite (Hup v) by (intros ->; apply Hnr; by eapply list_elem_of_lookup_2). apply lookup_app_Some in Hv as [Hv|[Hlen Hv]].
    + destruct (Hst v) as [-> _]; [apply elem_of_app; right; apply elem_of_cons; right; by eapply list_elem_of_lookup_2|]. pose proof (ab_low _ _ _ _ _ A k v Hv). lia.
    + rewrite length_app in Hlow. cbn [length] in Hlow. destruct (k - length rest)%nat as [|k'] eqn:Ek; cbn in Hv; [injection Hv as <-; lia|].
      pose proof (ab_low _ _ _ _ _ A' k' v Hv) as H. rewrite length_app in H. cbn [length] in H. lia.
  - intros v [Hv|[->|Hv]%elem_of_cons]%elem_of_app; [by apply (ab_reach _ _ _ _ _ A)|by apply rtc_once|]. eapply rtc_l; [done|]. by apply (ab_reach _ _ _ _ _ A').
  - intros v t [Hv|[->|Hv]%elem_of_cons]%elem_of_app Ho; apply Hh; [left|right|right].
    + apply Ehi. by apply (ab_own _ _ _ _ _ A v).
    + by apply (wk_least _ _ K'); [apply elem_of_mid|].
    + by apply (ab_own _ _ _ _ _ A' v).
  - assert (Hold : forall v u, v ∈ rest /\ arc v u \/ v = i /\ u ∈ es -> (index (relax w F i j s') u = inf /\ forall t, gathered u t -> holds (relax w F i j s') i t) \/
      u ∈ i :: rest ++ j :: rest' \/ (exists k, st !! k = Some u /\ index (relax w F i j s') i <= Z.of_nat (S k))).
    { intros v u Hvu. assert (Hun : (u < n)%nat) by (destruct Hvu as [[_ Hvu]|[-> Hvu%(ab_es _ _ _ _ _ A)]]; apply (edge_range _ _ Hvu)).
      destruct (ab_edges _ _ _ _ _ A v u Hvu) as [[Hd Ht]|[Hu|(k & Hk' & Hle)]].
      - left. split; [|intros t Hut; apply Hh; left; apply Ehi; auto]. apply Hinf. rewrite <- Hd. by apply (kept_visited _ _ _ _ K Hk); [|right].
      - right; left. rewrite app_comm_cons. apply elem_of_app. by left.
      - right; right. exists k. split; [done|]. lia. }
    assert (Hnew : forall v u, v ∈ rest' /\ arc v u \/ v = j /\ u ∈ R j -> (index (relax w F i j s') u = inf /\ forall t, gathered u t -> holds (relax w F i j s') i t) \/
      u ∈ i :: rest ++ j :: rest' \/ (exists k, st !! k = Some u /\ index (relax w F i j s') i <= Z.of_nat (S k))).
    { intros v u Hvu. destruct (ab_edges _ _ _ _ _ A' v u Hvu) as [[Hd Ht]|[Hu|(k & Hk' & Hle)]].
      - left. auto.
      - right; left. rewrite app_comm_cons. apply elem_of_app. by right.
      - right. apply lookup_app_Some in Hk' as [Hk'|[_ Hk']]; [right; exists k; split; [done|lia]|left].
        rewrite app_comm_cons. apply elem_of_app. left. by eapply list_elem_of_lookup_2. }
    intros v u [[[Hv|[->|Hv]%elem_of_cons]%elem_of_app Hvu]|[-> [Hu|Hu]%elem_of_app]].
    + apply (Hold v). by left.
    + apply (Hnew j). right. split; [done|apply Hvu].
    + apply (Hnew v). by left.
    + apply (Hold i). by right.
    + apply list_elem_of_singleton in Hu as ->. right; left. rewrite app_comm_cons. apply elem_of_mid.
Qed.

(** ** The component of [i] *)

Lemma component_reach st i rest es s : walk_ok (st ++ i :: rest) s -> above st i rest es s -> index s i = Z.of_nat (S (length st)) ->
  forall k v, (i :: rest) !! k = Some v -> rtc arc v i.
Proof.
  intros K A Ei k. induction (lt_wf k) as [k _ IH]. intros v Hv. destruct k as [|k]; [injection Hv as ->; apply rtc_refl|].
  pose proof (ab_low _ _ _ _ _ A k v Hv) as Hlow. destruct (wk_low _ _ K (length st + S k)%nat v) as (l & u & E & Hl & Hu & Hr).
  { rewrite lookup_app_r by lia. by replace (length st + S k - length st)%nat with (S k) by lia. }
  rewrite lookup_app_r in Hu by lia. etrans; [exact Hr|]. apply (IH (l - length st)%nat); [lia|done].
Qed.

Lemma component_closed st i rest s : walk_ok (st ++ i :: rest) s -> above st i rest (R i) s -> index s i = Z.of_nat (S (length st)) ->
  forall v u, v ∈ i :: rest -> arc v u -> u ∈ i :: rest \/ (index s u = inf /\ forall t, gathered u t -> holds s i t).
Proof.
  intros K A Ei v u Hv Hu. destruct (ab_edges _ _ _ _ _ A v u) as [?|[?|(k & Hk & Hle)]]; [|by right|by left|].
  - apply elem_of_cons in Hv as [->|Hv]; [right; split; [done|apply Hu]|by left].
  - apply lookup_lt_Some in Hk. lia.
Qed.

Lemma component_gathered st i rest s : walk_ok (st ++ i :: rest) s -> above st i rest (R i) s -> index s i = Z.of_nat (S (length st)) ->
  forall v t, v ∈ i :: rest -> gathered v t <-> holds s i t.
Proof.
  intros K A Ei v t Hv. split.
  - intros (j & Hr & Hj). revert Hv. induction Hr as [v|v u j Hvu Hr IH]; intros Hv.
    + apply elem_of_cons in Hv as [->|Hv]; [apply (wk_least _ _ K); [apply elem_of_mid|done]|by apply (ab_own _ _ _ _ _ A v)].
    + destruct (component_closed _ _ _ _ K A Ei v u Hv Hvu) as [Hu|[_ Hu]]; [by apply IH|]. apply Hu. by exists j.
  - intros H. apply (wk_most _ _ K) in H; [|apply elem_of_mid]. apply list_elem_of_lookup in Hv as [k Hk].
    eapply gathered_reach; [|exact H]. by apply (component_reach _ _ _ _ _ K A Ei k).
Qed.

Lemma copied_holds i j s s1 v t : i <> j ->
  holds (set_rows (copy_row (Z.to_nat w) (row_at w F i) (row_at w F j) (F_rows s)) s1) v t <-> (if (v =? j)%nat then holds s i t else holds s v t).
Proof.
  intros Hij. unfold holds. cbn [set_rows F_rows]. assert (Hc := fun Ht : 0 <= t < ntok => copy_row_has ntok F Hntok i j v t (F_rows s) Ht Hij).
  destruct (v =? j)%nat; tauto.
Qed.

Lemma pop_loop_spec st i rest : forall fuel s, i ∉ rest -> (i < n)%nat -> (forall v, v ∈ rest -> (v < n)%nat) ->
  top s = length (st ++ i :: rest) -> (forall k v, (st ++ i :: rest) !! k = Some v -> VERTICES s !! S k = Some v) -> (length rest < fuel)%nat ->
  exists s', pop_loop n w F fuel i s = Some s' /\ top s' = length st /\ VERTICES s' = VERTICES s /\
    (forall v, index s' v = if decide (v ∈ i :: rest) then inf else index s v) /\
    (forall v t, holds s' v t <-> (if decide (v ∈ rest) then holds s i t else holds s v t)) /\ outside n ntok F (F_rows s) (F_rows s').
Proof.
  induction rest as [|j rest IH] using rev_ind; intros fuel s Hi Hin Hrn Ht Hv Hf; (destruct fuel as [|fuel]; [lia|]); cbn [pop_loop].
  - rewrite Ht, length_app, Nat.add_1_r, (Hv (length st) i) by (by apply list_lookup_middle). cbn [default from_option id].
    rewrite Nat.eqb_refl. eexists. split; [reflexivity|]. split; [cbn; lia|]. split; [done|]. split; [|split; [|done]].
    + intros v. rewrite index_set by (unfold infinity; lia). destruct (Nat.eqb_spec v i) as [->|Hne]; [by rewrite decide_True by set_solver|].
      rewrite decide_False by set_solver. done.
    + intros v t. rewrite decide_False by set_solver. done.
  - assert (El : length (st ++ i :: rest ++ [j]) = S (length (st ++ i :: rest))) by (rewrite !length_app; cbn [length]; rewrite length_app; cbn; lia).
    assert (Ej : (st ++ i :: rest ++ [j]) !! length (st ++ i :: rest) = Some j) by (rewrite app_comm_cons, app_assoc; by apply list_lookup_middle).
    rewrite Ht, El, (Hv _ j Ej). cbn [default from_option id]. rewrite not_elem_of_app, list_elem_of_singleton in Hi. destruct Hi as [Hi Hij].
    assert (Hjn : (j < n)%nat) by (apply Hrn; set_solver).
    rewrite (proj2 (Nat.eqb_neq i j)) by done. rewrite length_app in Hf. cbn [length] in Hf.
    destruct (IH fuel (set_rows (copy_row (Z.to_nat w) (row_at w F i) (row_at w F j) (F_rows s))
      (set_index j inf (MkWalk (INDEX s) (VERTICES s) (S (length (st ++ i :: rest)) - 1) (F_rows s))))) as (s' & E & E1 & E2 & E3 & E4 & E5);
      [done|done|intros v ?; apply Hrn; set_solver|cbn; lia|intros k v Hk; apply Hv; rewrite app_comm_cons, app_assoc; by apply lookup_app_l_Some|lia|].
    exists s'. split; [exact E|]. split; [done|]. split; [done|]. split; [|split].
    + intros v. rewrite E3. unfold index at 1. cbn [set_rows INDEX]. fold (index (set_index j inf (MkWalk (INDEX s) (VERTICES s) (S (length (st ++ i :: rest)) - 1) (F_rows s))) v).
      rewrite index_set by (unfold infinity; lia). destruct (Nat.eqb_spec v j) as [->|Hne].
      * rewrite (decide_True (P := j ∈ i :: rest ++ [j])) by set_solver. by destruct (decide _).
      * destruct (decide (v ∈ i :: rest)); [rewrite decide_True by set_solver; done|rewrite decide_False by set_solver; done].
    + intros v t. rewrite E4. destruct (decide (v ∈ rest)) as [Hr|Hr].
      * rewrite (decide_True (P := v ∈ rest ++ [j])) by set_solver. rewrite copied_holds by done. by rewrite (proj2 (Nat.eqb_neq i j)).
      * rewrite copied_holds by done. destruct (Nat.eqb_spec v j) as [->|Hne]; [by rewrite decide_True by set_solver|].
        by rewrite decide_False by set_solver.
    + intros a Ha. rewrite E5 by done. exact (copy_row_outside n ntok F Hntok i j (F_rows s) Hjn Hij a Ha).
Qed.

(** The component is popped. *)
Lemma pop_ok st i rest s : walk_ok (st ++ i :: rest) s -> above st i rest (R i) s -> index s i = Z.of_nat (S (length st)) ->
  exists s', pop_loop n w F (top s) i s = Some s' /\ walk_ok st s' /\ index s' i = inf /\
    forall v, v ∉ i :: rest -> index s' v = index s v /\ forall t, holds s' v t <-> holds s v t.
Proof.
  intros K A Ei. pose proof (wk_nodup _ _ K) as Hnd. apply NoDup_app in Hnd as (Hnd & Hdis & [Hnr _]%NoDup_cons).
  destruct (pop_loop_spec st i rest (top s) s) as (s' & E & E1 & E2 & E3 & E4 & E5); [done|apply (wk_range _ _ K), elem_of_mid| |apply K|apply K| |].
  { intros v Hv. apply (wk_range _ _ K). set_solver. }
  { rewrite (wk_top _ _ K), length_app. cbn [length]. lia. }
  assert (Hst : forall v, v ∉ i :: rest -> index s' v = index s v /\ forall t, holds s' v t <-> holds s v t).
  { intros v Hv. rewrite E3, decide_False by done. split; [done|]. intros t. rewrite E4, decide_False by set_solver. done. }
  assert (Hcomp : forall v, v ∈ i :: rest -> index s' v = inf /\ forall t, holds s' v t <-> gathered v t).
  { intros v Hv. rewrite E3, decide_True by done. split; [done|]. intros t. rewrite E4, (component_gathered _ _ _ _ K A Ei v t Hv).
    destruct (decide (v ∈ rest)) as [|Hv']; [done|]. apply elem_of_cons in Hv as [->|]; done. }
  exists s'. split; [done|]. split; [|split; [apply Hcomp; set_solver|done]]. assert (Hout : forall v, v ∈ st -> v ∉ i :: rest) by (intros v Hv Hc; by apply (Hdis v)).
  assert (Hcase : forall v, (v ∈ i :: rest /\ index s' v = inf) \/ (v ∉ i :: rest /\ index s' v = index s v)).
  { intros v. destruct (decide (v ∈ i :: rest)) as [Hv|Hv]; [left; split; [done|by apply Hcomp]|right; split; [done|by apply Hst]]. }
  split.
  - done.
  - intros k v Hk. rewrite E2. apply (wk_vertices _ _ K). by apply lookup_app_l_Some.
  - done.
  - intros v Hv. apply (wk_range _ _ K). set_solver.
  - intros k v Hk. destruct (wk_low _ _ K k v) as (l & u & El & Hl & Hu & Hr); [by apply lookup_app_l_Some|]. exists l, u.
    destruct (Hst v) as [-> _]; [by apply Hout; eapply list_elem_of_lookup_2|]. split_and!; [done|done| |done].
    apply lookup_app_Some in Hu as [?|[Hlen _]]; [done|]. apply lookup_lt_Some in Hk. lia.
  - intros v Hv. destruct (Hcase v) as [[_ ?]|[Hn' ->]]; [tauto|]. destruct (wk_index _ _ K v Hv) as [[?|?]%elem_of_app|?]; tauto.
  - intros v u Hv Hu. destruct (Hcase u) as [[_ ?]|[Hn' ->]]; [done|]. destruct (Hcase v) as [[Hv' _]|[_ Ev]].
    + destruct (component_closed _ _ _ _ K A Ei v u Hv' Hu) as [?|[? _]]; [done|done].
    + apply (wk_closed _ _ K v u); [congruence|done].
  - intros v t Hv Hi. destruct (Hcase v) as [[Hv' _]|[Hv' Ev]]; [by apply Hcomp|]. destruct (Hst v Hv') as [_ ->]. apply (wk_done _ _ K); [done|congruence].
  - intros v t Hv Hi. destruct (Hcase v) as [[Hv' Ev]|[Hv' Ev]]; [unfold infinity in Ev; lia|]. destruct (Hst v Hv') as [_ ->]. apply (wk_fresh _ _ K); [done|congruence].
  - intros v t Hv Ho. apply (Hst v (Hout v Hv)). apply (wk_least _ _ K); [set_solver|done].
  - intros v t Hv Ho. apply (Hst v (Hout v Hv)) in Ho. apply (wk_most _ _ K); [set_solver|done].
  - intros a Ha. rewrite E5 by done. by apply (wk_outside _ _ K).
Qed.

(** ** The vertices left to visit *)

Definition unvisited (s : walk) : nat := length (filter (fun v => index s v = 0) (seq 0 n)).

Lemma fewer_left (P Q : nat -> Prop) `{!forall v, Decision (P v)} `{!forall v, Decision (Q v)} l : (forall v, v ∈ l -> Q v -> P v) -> (length (filter Q l) <= length (filter P l))%nat.
Proof.
  induction l as [|v l IH]; intros Hl; [done|]. rewrite !filter_cons. specialize (IH (fun u Hu => Hl u (list_elem_of_further _ _ _ Hu))).
  destruct (decide (Q v)) as [Hq|]; [rewrite decide_True by (apply Hl; [apply list_elem_of_here|done]); cbn; lia|]. destruct (decide (P v)); cbn; lia.
Qed.

Lemma unvisited_le s s' : kept s s' -> (unvisited s' <= unvisited s)%nat.
Proof.
  intros K. apply fewer_left. intros v Hv E. apply elem_of_seq in Hv. destruct (decide (index s v = 0)) as [|Hne]; [done|].
  destruct (K v ltac:(lia) Hne) as [E' _]. congruence.
Qed.

Lemma unvisited_lt s s' i : kept s s' -> (i < n)%nat -> index s i = 0 -> index s' i <> 0 -> (unvisited s' < unvisited s)%nat.
Proof.
  intros K Hi E E'. unfold unvisited. replace (seq 0 n) with (seq 0 i ++ i :: seq (S i) (n - S i)).
  2: { change (i :: seq (S i) (n - S i)) with (seq i (S (n - S i))). rewrite <- (Nat.add_0_l i) at 2. rewrite <- seq_app. f_equal. lia. }
  rewrite !filter_app, !filter_cons, (decide_True (P := index s i = 0)), (decide_False (P := index s' i = 0)), !length_app by done. cbn [length].
  assert (H : forall v, v ∈ seq 0 i ++ seq (S i) (n - S i) -> index s' v = 0 -> index s v = 0).
  { intros v Hv E0. destruct (decide (index s v = 0)) as [|Hne]; [done|]. destruct (K v) as [E1 _]; [|done|congruence].
    apply elem_of_app in Hv as [Hv|Hv]; apply elem_of_seq in Hv; lia. }
  pose proof (fewer_left (fun v => index s v = 0) (fun v => index s' v = 0) (seq 0 i) ltac:(intros v Hv; apply H; set_solver)).
  pose proof (fewer_left (fun v => index s v = 0) (fun v => index s' v = 0) (seq (S i) (n - S i)) ltac:(intros v Hv; apply H; set_solver)). lia.
Qed.

(** ** The visit of a vertex *)

Lemma push_ok st i s : walk_ok st s -> (i < n)%nat -> index s i = 0 ->
  walk_ok (st ++ [i]) (push_vertex i s) /\ above st i [] [] (push_vertex i s) /\ kept s (push_vertex i s) /\ index (push_vertex i s) i = Z.of_nat (S (length st)) /\ top (push_vertex i s) = S (length st).
Proof.
  intros K Hi E. pose proof (wk_top _ _ K) as Ht. pose proof (stack_short _ _ K) as Hs. pose proof (off_stack _ _ _ K Hi (or_introl E)) as Hni.
  assert (Hix : forall v, index (push_vertex i s) v = if (v =? i)%nat then Z.of_nat (S (length st)) else index s v).
  { intros v. unfold push_vertex. rewrite Ht, index_set by lia. done. }
  assert (Hne : forall v, v <> i -> index (push_vertex i s) v = index s v) by (intros v Hv; by rewrite Hix, (proj2 (Nat.eqb_neq v i))).
  assert (Hii : index (push_vertex i s) i = Z.of_nat (S (length st))) by (by rewrite Hix, Nat.eqb_refl).
  assert (Hstne : forall v, v ∈ st -> v <> i) by (by intros v Hv ->).
  split; [|split; [|split; [|split; [done|cbn; by rewrite Ht]]]].
  - split.
    + cbn. rewrite Ht, length_app. cbn. lia.
    + intros k v Hk. cbn [push_vertex set_index VERTICES]. rewrite Ht. apply lookup_app_Some in Hk as [Hk|[Hlen Hk]].
      * rewrite lookup_insert_ne by (apply lookup_lt_Some in Hk; lia). by apply (wk_vertices _ _ K).
      * apply list_lookup_singleton_Some in Hk as [Hk <-]. replace k with (length st) by lia. by rewrite lookup_insert_eq.
    + apply NoDup_app. split; [apply K|]. split; [|apply NoDup_singleton]. intros v Hv ->%list_elem_of_singleton. done.
    + intros v [Hv| ->%list_elem_of_singleton]%elem_of_app; [by apply (wk_range _ _ K)|done].
    + intros k v [Hk|[Hlen Hk]]%lookup_app_Some.
      * rewrite Hne by (apply Hstne; by eapply list_elem_of_lookup_2). destruct (wk_low _ _ K k v Hk) as (l & u & ? & ? & ? & ?). exists l, u.
        split_and!; try done. by apply lookup_app_l_Some.
      * apply list_lookup_singleton_Some in Hk as [Hk <-]. exists (length st), i. split_and!; [done|lia|by apply list_lookup_middle|apply rtc_refl].
    + intros v Hv. destruct (decide (v = i)) as [->|Hv']; [left; set_solver|]. rewrite Hne by done. destruct (wk_index _ _ K v Hv) as [?|?]; [left; set_solver|tauto].
    + intros v u Hv Hu. destruct (decide (v = i)) as [->|Hv']; [unfold infinity in Hv; lia|]. rewrite Hne in Hv by done.
      pose proof (wk_closed _ _ K v u Hv Hu) as Hu'. rewrite Hne; [done|]. intros ->. unfold infinity in *. lia.
    + intros v t Hv Hd. destruct (decide (v = i)) as [->|Hv']; [unfold infinity in Hd; lia|]. rewrite Hne in Hd by done. by apply (wk_done _ _ K).
    + intros v t Hv Hd. destruct (decide (v = i)) as [->|Hv']; [lia|]. rewrite Hne in Hd by done. by apply (wk_fresh _ _ K).
    + intros v t [Hv| ->%list_elem_of_singleton]%elem_of_app Ho; [by apply (wk_least _ _ K v)|by apply (wk_fresh _ _ K)].
    + intros v t [Hv| ->%list_elem_of_singleton]%elem_of_app Ho; [by apply (wk_most _ _ K v)|]. apply gathered_own. by apply (wk_fresh _ _ K).
    + apply (wk_outside _ _ K).
  - split; [intros u Hu|intros k v Hk|intros v Hv|intros v t Hv|intros v u [[Hv _]|[_ Hv]]]; exfalso; set_solver.
  - intros v Hv Hnz. rewrite Hne by (by intros ->). done.
Qed.

(** Kept, but for [i]. *)
Definition kept_but (i : nat) (s s' : walk) : Prop :=
  forall v, (v < n)%nat -> v <> i -> index s v <> 0 -> index s' v = index s v /\ forall t, holds s' v t <-> holds s v t.

Lemma kept_but_relax i j s : (i < n)%nat -> -32768 <= index s j < 32768 -> kept_but i s (relax w F i j s).
Proof.
  intros Hi Hj v Hv Hne Hnz. rewrite relax_index, (proj2 (Nat.eqb_neq v i)) by done. split; [done|]. intros t. rewrite relax_holds. tauto.
Qed.
Lemma kept_but_kept i s s' : kept s s' -> kept_but i s s'.
Proof. intros H v Hv _. by apply H. Qed.
Lemma kept_but_trans i s1 s2 s3 : kept_but i s1 s2 -> kept_but i s2 s3 -> kept_but i s1 s3.
Proof.
  intros H H' v Hv Hne Hi. destruct (H v Hv Hne Hi) as [E1 E2]. destruct (H' v Hv Hne) as [E3 E4]; [congruence|]. split; [congruence|]. intros t. rewrite E4. apply E2.
Qed.

(** The unvisited vertices after an arc. *)
Lemma unvisited_but i s s' : kept_but i s s' -> index s' i <> 0 -> (unvisited s' <= unvisited s)%nat.
Proof.
  intros K Hi. apply fewer_left. intros v Hv E. apply elem_of_seq in Hv. destruct (decide (index s v = 0)) as [|Hne]; [done|].
  destruct (decide (v = i)) as [->|Hvi]; [done|]. destruct (K v ltac:(lia) Hvi Hne) as [E' _]. congruence.
Qed.

Definition traverse_spec (trav : nat -> walk -> option walk) (fuel : nat) : Prop := forall st i s,
  walk_ok st s -> (i < n)%nat -> index s i = 0 -> (unvisited s <= fuel)%nat -> exists s', trav i s = Some s' /\ visit_done st i s s'.

Lemma edges_loop_ok trav fuel st i : traverse_spec trav fuel -> forall rp es rest s, walk_ok (st ++ i :: rest) s -> above st i rest es s ->
  R i = es ++ rp -> (unvisited s <= fuel)%nat ->
  exists rest' s', edges_loop w F trav i rp s = Some s' /\ walk_ok (st ++ i :: rest') s' /\ above st i rest' (R i) s' /\ kept_but i s s'.
Proof.
  intros Htrav rp. induction rp as [|j rp IH]; intros es rest s K A E Hu; cbn [edges_loop].
  - exists rest, s. rewrite E, app_nil_r. by split_and!.
  - assert (Hi : i ∈ st ++ i :: rest) by apply elem_of_mid. assert (Hin : (i < n)%nat) by (by apply (wk_range _ _ K)).
    assert (He : arc i j) by (split; [done|]; rewrite E; apply elem_of_mid). destruct (edge_range _ _ He) as [_ Hj].
    assert (Hes : R i = (es ++ [j]) ++ rp) by (rewrite E, <- app_assoc; done).
    assert (Hnext : forall rest1 s1, walk_ok (st ++ i :: rest1) s1 -> above st i rest1 (es ++ [j]) (relax w F i j s1) -> visited (st ++ i :: rest1) s1 j -> kept s s1 ->
      exists rest' s', edges_loop w F trav i rp (relax w F i j s1) = Some s' /\ walk_ok (st ++ i :: rest') s' /\ above st i rest' (R i) s' /\ kept_but i s s').
    { intros rest1 s1 K1 A1 Hv1 Hk1. pose proof (relax_ok _ _ _ _ K1 (elem_of_mid i st rest1) He Hv1) as K2.
      pose proof (kept_but_relax i j s1 Hin (walk_index_range _ _ _ K1 Hj)) as Hk2. pose proof (on_stack _ _ _ K2 (elem_of_mid i st rest1)) as Hi2.
      assert (Hk3 : kept_but i s (relax w F i j s1)) by (eapply kept_but_trans; [by apply kept_but_kept|done]).
      destruct (IH (es ++ [j]) rest1 (relax w F i j s1) K2 A1 Hes) as (rest' & s' & E' & K' & A' & Hk').
      { pose proof (unvisited_but i s _ Hk3 ltac:(lia)). lia. }
      exists rest', s'. split_and!; try done. by eapply kept_but_trans. }
    destruct (Z.eqb_spec (index s j) 0) as [Ej|Ej].
    + destruct (Htrav (st ++ i :: rest) j s K Hj Ej Hu) as (s1 & -> & Hk & [[K1 Hd]|(rest1 & K1 & A1 & Hlow)]).
      * apply (Hnext rest); [done| |by right|done]. apply above_relax; [done| |done|by right].
        assert (Hii : index s1 i = index s i /\ forall t, holds s1 i t <-> holds s i t) by (apply (kept_visited _ _ _ _ K Hk); [done|by left]).
        destruct Hii as [Ei Hh]. split; [apply A| |apply A| |].
        -- intros k v Hv. destruct (kept_visited _ _ _ v K Hk) as [-> _]; [apply (wk_range _ _ K)|left|]; try (apply elem_of_app; right; apply elem_of_cons; right; by eapply list_elem_of_lookup_2).
           rewrite Ei. by apply (ab_low _ _ _ _ _ A).
        -- intros v t Hv Ho. apply Hh. by apply (ab_own _ _ _ _ _ A v).
        -- intros v u Hvu. assert (Hun : (u < n)%nat) by (destruct Hvu as [[_ Hvu]|[-> Hvu%(ab_es _ _ _ _ _ A)]]; apply (edge_range _ _ Hvu)).
           destruct (ab_edges _ _ _ _ _ A v u Hvu) as [[Hdu Ht]|[?|(k & Hk' & Hle)]]; [left|tauto|right; right; exists k; split; [done|lia]].
           split; [|intros t Hut; apply Hh; auto]. rewrite <- Hdu. by apply (kept_visited _ _ _ _ K Hk); [|right].
      * assert (Es : st ++ i :: rest ++ j :: rest1 = (st ++ i :: rest) ++ j :: rest1) by (by rewrite <- app_assoc). apply (Hnext (rest ++ j :: rest1)); [by rewrite Es| |left; rewrite Es; apply elem_of_mid|done].
        by eapply above_visit.
    + assert (Hv : visited (st ++ i :: rest) s j) by (destruct (wk_index _ _ K j Hj) as [?|[?|?]]; [by left|done|by right]).
      apply (Hnext rest); [done|by apply above_relax|done|apply keep_refl].
Qed.

Lemma traverse_ok fuel : traverse_spec (traverse n w F R fuel) fuel.
Proof.
  induction fuel as [|fuel IH]; intros st i s K Hi E Hu.
  - exfalso. unfold unvisited in Hu. assert (H : i ∈ filter (fun v => index s v = 0) (seq 0 n)) by (apply list_elem_of_filter; split; [done|apply elem_of_seq; lia]).
    destruct (filter _ (seq 0 n)); [set_solver|cbn in Hu; lia].
  - cbn [traverse]. destruct (push_ok st i s K Hi E) as (K1 & A1 & Hk1 & Ei1 & Ht1). rewrite Ht1.
    pose proof (unvisited_lt _ _ i Hk1 Hi E ltac:(lia)) as Hlt.
    destruct (edges_loop_ok _ fuel st i IH (R i) [] [] (push_vertex i s) K1 A1 eq_refl ltac:(lia)) as (rest & s2 & -> & K2 & A2 & Hk2).
    assert (Hkb : kept s s2).
    { intros v Hv Hnz. assert (v <> i) by congruence. destruct (Hk1 v Hv Hnz) as [E1 E2]. destruct (Hk2 v Hv) as [E3 E4]; [done|congruence|].
      split; [congruence|]. intros t. rewrite E4. apply E2. }
    pose proof (ab_low _ _ _ _ _ A2) as Hlow. destruct (wk_low _ _ K2 (length st) i) as (l & u & El & Hl & _); [by apply list_lookup_middle|].
    destruct (Z.eqb_spec (index s2 i) (Z.of_nat (S (length st)))) as [Eh|Eh].
    + destruct (pop_ok st i rest s2 K2 A2 Eh) as (s3 & -> & K3 & Hinf & Hk3). exists s3. split; [done|]. split; [|left; done].
      intros v Hv Hnz. destruct (Hkb v Hv Hnz) as [E1 E2]. destruct (Hk3 v) as [E3 E4].
      * intros Hc. assert (Hst : v ∈ st ++ i :: rest) by set_solver. pose proof (on_stack _ _ _ K2 Hst). pose proof (wk_nodup _ _ K2) as Hnd.
        destruct (wk_index _ _ K v Hv) as [Hs|[?|Hd]]; [|done|unfold infinity in *; lia].
        apply NoDup_app in Hnd as (_ & Hdis & _). by apply (Hdis v).
      * split; [congruence|]. intros t. rewrite E4. apply E2.
    + exists s2. split; [done|]. split; [done|]. right. exists rest. split; [done|]. split; [done|lia].
Qed.

(** ** The whole relation *)

Lemma digraph_loop_ok k : forall i s, walk_ok [] s -> (k + i = n)%nat -> (forall v, (v < i)%nat -> R v <> [] -> index s v = inf) ->
  exists s', digraph_loop n w F R k i s = Some s' /\ walk_ok [] s' /\ forall v, (v < n)%nat -> R v <> [] -> index s' v = inf.
Proof.
  induction k as [|k IH]; intros i s K Hk Hd; cbn [digraph_loop].
  - exists s. split; [done|]. split; [done|]. intros v Hv. apply Hd. lia.
  - assert (Hi : (i < n)%nat) by lia. destruct (Z.eqb_spec (index s i) 0) as [E|E]; cbn [andb].
    + destruct (bool_decide_reflect (R i = [])) as [Er|Er]; cbn [negb].
      * apply IH; [done|lia|]. intros v Hv Hr. apply Hd; [|done]. destruct (decide (v = i)) as [->|]; [done|lia].
      * assert (Hu : (unvisited s <= n)%nat) by (unfold unvisited; rewrite length_filter, length_seq; done).
        destruct (traverse_ok n [] i s K Hi E Hu) as (s1 & -> & Hk1 & [[K1 Hd1]|(rest & K1 & A1 & Hlow)]).
        -- apply IH; [done|lia|]. intros v Hv Hr. destruct (decide (v = i)) as [->|]; [done|]. specialize (Hd v ltac:(lia) Hr).
           rewrite <- Hd. apply Hk1; [lia|]. unfold infinity in Hd. lia.
        -- exfalso. pose proof (on_stack _ _ i K1 ltac:(set_solver)). cbn in Hlow. lia.
    + apply IH; [done|lia|]. intros v Hv Hr. destruct (decide (v = i)) as [->|]; [|apply Hd; [lia|done]].
      destruct (wk_index _ _ K i Hi) as [?|[?|?]]; [set_solver|done|done].
Qed.

Lemma initial_walk : walk_ok [] (MkWalk ∅ ∅ 0 m0).
Proof.
  assert (E : forall v, index (MkWalk ∅ ∅ 0 m0) v <> inf) by (intros v; change (0 <> inf); unfold infinity; lia).
  split; try done; try (intros; exfalso; set_solver).
  - constructor.
  - intros v Hv. right; left. done.
Qed.

Lemma digraph_spec : exists m, digraph n w F R m0 = Some m /\ (forall i t, (i < n)%nat -> 0 <= t < ntok -> has m i t <-> gathered i t) /\ outside n ntok F m0 m.
Proof.
  destruct (digraph_loop_ok n 0 _ initial_walk ltac:(lia) ltac:(lia)) as (s & E & K & Hd). unfold digraph. rewrite E. exists (F_rows s). split; [done|].
  split; [|apply K]. intros i t Hi Ht. assert (Hh : has (F_rows s) i t <-> holds s i t) by (unfold holds; tauto). rewrite Hh.
  destruct (wk_index _ _ K i Hi) as [Hs|[E0|E0]]; [set_solver| |by apply (wk_done _ _ K)]. rewrite (wk_fresh _ _ K i t Hi E0).
  split; [apply gathered_own|]. intros (j & Hr & Hj). destruct Hr as [|i u j [_ He] _]; [done|]. rewrite (Hd i Hi) in E0; [unfold infinity in E0; lia|].
  intros Er. rewrite Er in He. set_solver.
Qed.
End Walk.

(** C21: [digraph], on a relation between the [ngotos] rows of [F], always ends, within
    calls nested [ngotos] deep: each row has then exactly the bits that were set in the
    rows of the vertices reached from it, however the strong components lie, and the
    memory outside of [F] is kept.  With more than 32765 vertices the indexes, which are
    shorts, wrap. *)
Theorem digraph_correct ngotos ntokens F R m : 0 <= ntokens -> Z.of_nat ngotos <= 32765 ->
  (forall i j, (i < ngotos)%nat -> j ∈ R i -> (j < ngotos)%nat) ->
  exists m', digraph ngotos (WORDSIZE ntokens) F R m = Some m' /\
    (forall i t, (i < ngotos)%nat -> 0 <= t < ntokens ->
       has ntokens F m' i t <-> exists j, rtc (arc ngotos R) i j /\ has ntokens F m j t) /\
    outside ngotos ntokens F m m'.
Proof.
  intros Ht Hn HR. destruct (digraph_spec ngotos ntokens F R m Ht Hn HR) as (m' & E & H & Ho). exists m'. split; [done|]. split; [|done].
  intros i t Hi Hr. rewrite (H i t Hi Hr). unfold gathered, own. naive_solver.
Qed.

(** Three rows in a cycle, which a fourth one reads. *)
Definition ring (i : nat) : list nat := match i with 0 => [1] | 1 => [2] | 2 => [0; 1] | _ => [2] end%nat.

Lemma digraph_correct_witness : exists m', digraph 4 1 10 ring {[10 := 1; 11 := 2; 12 := 4; 13 := 8]} = Some m' /\
  map (ld m') [10; 11; 12; 13] = [7; 7; 7; 15] /\ has 4 10 m' 1 0.
Proof.
  destruct (digraph_correct 4 4 10 ring {[10 := 1; 11 := 2; 12 := 4; 13 := 8]}) as (m' & E & H & _); [lia|lia| |].
  { intros i j _ Hj. do 4 (destruct i as [|i]; [set_solver by lia|]). set_solver by lia. }
  exists m'. split; [exact E|]. split; [vm_compute in E; injection E as <-; vm_compute; reflexivity|].
  apply (H 1%nat 0); [lia|lia|]. exists 0%nat. split; [|reflexivity].
  apply (rtc_l _ _ 2%nat); [split; [lia|apply list_elem_of_here]|]. apply rtc_once. split; [lia|apply list_elem_of_here].
Defined.
