(* ===== verification/Lalr.v ===== *)
(** * The LALR(1) lookaheads

    Models [yacc/lalr.c] on the LR(0) automaton: the numbering of the gotos, the
    relations between them, and the sets of lookaheads.  The [short]s that count states
    and gotos stay below [MAXSHORT]; the rows of [LA] and [F] are in memory. *)

From stdpp Require Import sorting strings.
From S2P Require Import Prelude Warshall Closure Lr0 Digraph.

(** What the functions do: they return, call [fatal], fail an assertion, write past the
    end of [edge], or the turns do not suffice. *)
Inductive result (A : Type) :=
| Ok (x : A)
| Fatal (msg : string)
| Assertion_failed
| Overrun
| Out_of_turns.
Arguments Ok {A}. Arguments Fatal {A}. Arguments Assertion_failed {A}. Arguments Overrun {A}. Arguments Out_of_turns {A}.

Definition andthen {A B} (a : result A) (k : A -> result B) : result B :=
  match a with
  | Ok x => k x
  | Fatal msg => Fatal msg
  | Assertion_failed => Assertion_failed
  | Overrun => Overrun
  | Out_of_turns => Out_of_turns
  end.
Declare Scope lalr_scope.
Notation "'do' x <- a ; b" := (andthen a (fun x => b)) (at level 100, x pattern, a at next level, b at level 200, right associativity) : lalr_scope.
Open Scope lalr_scope.

(** The numbering of the gotos. *)
Record gotos := MkGotos { ngotos : nat; goto_map : gmap Z nat; from_state : list nat; to_state : list nat }.
Definition map_at (map : gmap Z nat) (x : Z) : nat := default O (map !! x).

Section Lalr.
Context (g : grammar) (nullable : gset Z) (s : lr0).

(** ** Tables of the automaton *)

Definition accessing_symbol (k : nat) : Z := default 0 (map Lr0.accessing_symbol (first_state s) !! k).

(** [for (sp = first_shift; sp; sp = sp->next)], and the same for the reductions. *)
Fixpoint set_shift_table (sp : list shifts) (shift_table : gmap nat (list nat)) : gmap nat (list nat) :=
  match sp with [] => shift_table | t :: sp => set_shift_table sp (<[sh_number t := shift t]> shift_table) end.
Fixpoint set_reduction_table (rp : list reductions) (reduction_table : gmap nat (list Z)) : gmap nat (list Z) :=
  match rp with [] => reduction_table | t :: rp => set_reduction_table rp (<[red_number t := red_rules t]> reduction_table) end.
(** A null pointer is the empty list. *)
Definition shift_table (k : nat) : list nat := default [] (set_shift_table (first_shift s) ∅ !! k).
Definition reduction_table (k : nat) : list Z := default [] (set_reduction_table (first_reduction s) ∅ !! k).

(** [lookaheads] from [i] on, for [n] states. *)
Fixpoint set_lookaheads (n i k : nat) : list nat :=
  match n with O => [k] | S n => k :: set_lookaheads n (S i) (k + length (reduction_table i)) end.
Fixpoint set_LAruleno (n i : nat) : list Z :=
  match n with O => [] | S n => reduction_table i ++ set_LAruleno n (S i) end.
Definition lookaheads : list nat := set_lookaheads (nstates s) 0 0.
Definition LAruleno : list Z := set_LAruleno (nstates s) 0.

(** ** Gotos *)

(** [for (i = sp->nshifts - 1; i >= 0; i--)]: the states left, the last one first. *)
Fixpoint count_shift (to : list nat) (n : nat) (goto_map : gmap Z nat) : result (nat * gmap Z nat) :=
  match to with
  | [] => Ok (n, goto_map)
  | state2 :: to =>
      let symbol := accessing_symbol state2 in
      if ISTOKEN g symbol then Ok (n, goto_map)
      else if (n =? MAXSHORT)%nat then Fatal "too many gotos"
      else count_shift to (S n) (<[symbol := S (map_at goto_map symbol)]> goto_map)
  end.
Fixpoint count_gotos (sp : list shifts) (n : nat) (goto_map : gmap Z nat) : result (nat * gmap Z nat) :=
  match sp with
  | [] => Ok (n, goto_map)
  | t :: sp => do (n, goto_map) <- count_shift (rev (shift t)) n goto_map; count_gotos sp n goto_map
  end.
(** [for (i = i; i < nsyms; i++)], [n] turns. *)
Fixpoint sum_gotos (n : nat) (i : Z) (k : nat) (goto_map temp_map : gmap Z nat) : gmap Z nat :=
  match n with
  | O => temp_map
  | S n => sum_gotos n (i + 1) (k + map_at goto_map i) goto_map (<[i := k]> temp_map)
  end.

Fixpoint fill_shift (state1 : nat) (to : list nat) (temp_map : gmap Z nat) (from_state to_state : list nat) : gmap Z nat * list nat * list nat :=
  match to with
  | [] => (temp_map, from_state, to_state)
  | state2 :: to =>
      let symbol := accessing_symbol state2 in
      if ISTOKEN g symbol then (temp_map, from_state, to_state)
      else
        let k := map_at temp_map symbol in
        fill_shift state1 to (<[symbol := S k]> temp_map) (<[k := state1]> from_state) (<[k := state2]> to_state)
  end.
Fixpoint fill_gotos (sp : list shifts) (temp_map : gmap Z nat) (from_state to_state : list nat) : list nat * list nat :=
  match sp with
  | [] => (from_state, to_state)
  | t :: sp =>
      let '(temp_map, from_state, to_state) := fill_shift (sh_number t) (rev (shift t)) temp_map from_state to_state in
      fill_gotos sp temp_map from_state to_state
  end.

Definition set_goto_map : result gotos :=
  do (n, counts) <- count_gotos (first_shift s) 0 ∅;
  let temp_map := sum_gotos (Z.to_nat (nsyms g - ntokens g)) (ntokens g) 0 counts ∅ in
  let goto_map := <[nsyms g := n]> temp_map in
  let (from_state, to_state) := fill_gotos (first_shift s) goto_map (repeat O n) (repeat O n) in
  Ok (MkGotos n goto_map from_state to_state).

Section Relations.
Context (G : gotos).

(** [for (;;)], at most [fuel] turns. *)
Fixpoint map_goto_loop (fuel : nat) (state : nat) (low high : Z) : result nat :=
  match fuel with
  | O => Out_of_turns
  | S fuel =>
      if low <=? high then
        let middle := Z.shiftr (low + high) 1 in
        let s := from_state G !!! Z.to_nat middle in
        if (s =? state)%nat then Ok (Z.to_nat middle)
        else if (s <? state)%nat then map_goto_loop fuel state (middle + 1) high
        else map_goto_loop fuel state low (middle - 1)
      else Assertion_failed
  end.
Definition map_goto (state : nat) (symbol : Z) : result nat :=
  let low := map_at (goto_map G) symbol in
  let high := map_at (goto_map G) (symbol + 1) in
  map_goto_loop (S (S (high - low))) state (Z.of_nat low) (Z.of_nat high).

(** [edge[nedges++] = x], with [nedges] the length of the list. *)
Definition add_edge (edge : list nat) (x : nat) : result (list nat) := if (S (ngotos G) <=? length edge)%nat then Overrun else Ok (edge ++ [x]).

(** ** Tokens read after a goto *)

(** [for (j = 0; j < k; j++)]: the states left after the tokens. *)
Fixpoint read_tokens (sp : list nat) (rowp : Z) (m : mem) : list nat * mem :=
  match sp with
  | k :: sp' =>
      let symbol := accessing_symbol k in
      if ISVAR g symbol then (sp, m) else read_tokens sp' rowp (SETBIT m rowp symbol)
  | [] => ([], m)
  end.
(** [for (; j < k; j++)] *)
Fixpoint read_nullables (stateno : nat) (sp : list nat) (edge : list nat) : result (list nat) :=
  match sp with
  | [] => Ok edge
  | k :: sp =>
      let symbol := accessing_symbol k in
      if bool_decide (symbol ∈ nullable) then
        do x <- map_goto stateno symbol;
        do edge <- add_edge edge x;
        read_nullables stateno sp edge
      else read_nullables stateno sp edge
  end.
(** [for (i = i; i < ngotos; i++)], [n] turns. *)
Fixpoint F_loop (n i : nat) (rowp : Z) (reads : list (list nat)) (m : mem) : result (list (list nat) * mem) :=
  match n with
  | O => Ok (reads, m)
  | S n =>
      let stateno := to_state G !!! i in
      let (sp, m) := read_tokens (shift_table stateno) rowp m in
      do edge <- read_nullables stateno sp [];
      F_loop n (S i) (rowp + WORDSIZE (ntokens g)) (reads ++ [edge]) m
  end.

Definition run_digraph (F : Z) (relation : list (list nat)) (m : mem) : result mem :=
  match digraph (ngotos G) (WORDSIZE (ntokens g)) F (fun i => relation !!! i) m with Some m => Ok m | None => Out_of_turns end.

(** [F]: where it is allocated. *)
Definition initialize_F (F : Z) (m : mem) : result mem :=
  let m := clear (Z.to_nat (Z.of_nat (ngotos G) * WORDSIZE (ntokens g))) F m in
  do (reads, m) <- F_loop (ngotos G) 0 F [] m;
  let m := SETBIT m F 0 in
  run_digraph F reads m.

(** ** The relations [includes] and [lookback] *)

(** [for (j = 0; j < k; j++)]: the state with the symbol, or the last one. *)
Fixpoint find_shift (sp : list nat) (symbol2 : Z) (stateno : nat) : nat :=
  match sp with
  | [] => stateno
  | k :: sp => if accessing_symbol k =? symbol2 then k else find_shift sp symbol2 k
  end.
(** [for (rp = ritem + rrhs[*rulep]; *rp >= 0; rp++)] on the rest of [ritem]: [states], [stateno] and [rp]. *)
Fixpoint follow_rule (l : list Z) (states : list nat) (stateno : nat) (rp : Z) : list nat * nat * Z :=
  match l with
  | symbol2 :: l =>
      if 0 <=? symbol2 then
        let stateno := find_shift (shift_table stateno) symbol2 stateno in
        follow_rule l (states ++ [stateno]) stateno (rp + 1)
      else (states, stateno, rp)
  | [] => (states, stateno, rp)
  end.

(** [while (!found && i < k)], [n] turns. *)
Fixpoint find_lookahead (n i : nat) (ruleno : Z) : option nat :=
  match n with
  | O => None
  | S n => if LAruleno !!! i =? ruleno then Some i else find_lookahead n (S i) ruleno
  end.
Definition add_lookback_edge (stateno : nat) (ruleno : Z) (gotono : nat) (lookback : gmap nat (list nat)) : result (gmap nat (list nat)) :=
  let i := lookaheads !!! stateno in
  let k := lookaheads !!! S stateno in
  match find_lookahead (k - i) i ruleno with
  | Some i => Ok (<[i := gotono :: default [] (lookback !! i)]> lookback)
  | None => Assertion_failed
  end.

(** [while (!done)], [rp] and [length] before [rp--]. *)
Fixpoint back_loop (length : nat) (rp : Z) (states : list nat) (edge : list nat) : result (list nat) :=
  let x := at_ (ritem g) (rp - 1) in
  if ISVAR g x then
    match length with
    | O => Assertion_failed     (* does not happen: [states[-1]] is not read *)
    | S length =>
        do y <- map_goto (states !!! length) x;
        do edge <- add_edge edge y;
        if bool_decide (x ∈ nullable) && (0 <? length)%nat then back_loop length (rp - 1) states edge else Ok edge
    end
  else Ok edge.

(** [for (rulep = derives[symbol1]; *rulep >= 0; rulep++)] *)
Fixpoint rules_loop (rulep : list Z) (i state1 : nat) (edge : list nat) (lookback : gmap nat (list nat)) : result (list nat * gmap nat (list nat)) :=
  match rulep with
  | rule :: rulep =>
      if 0 <=? rule then
        let '(states, stateno, rp) := follow_rule (drop (Z.to_nat (at_ (rrhs g) rule)) (ritem g)) [state1] state1 (at_ (rrhs g) rule) in
        do lookback <- add_lookback_edge stateno rule i lookback;
        do edge <- back_loop (length states - 1) rp states edge;
        rules_loop rulep i state1 edge lookback
      else Ok (edge, lookback)
  | [] => Ok (edge, lookback)
  end.
(** [for (i = i; i < ngotos; i++)], [n] turns. *)
Fixpoint relations_loop (n i : nat) (includes : list (list nat)) (lookback : gmap nat (list nat)) : result (list (list nat) * gmap nat (list nat)) :=
  match n with
  | O => Ok (includes, lookback)
  | S n =>
      do (edge, lookback) <- rules_loop (derives g (accessing_symbol (to_state G !!! i))) i (from_state G !!! i) [] lookback;
      relations_loop n (S i) (includes ++ [edge]) lookback
  end.

(** [*temp_R[*sp++]++ = i]: the arrays of [new_R], filled up to their pointers in [temp_R]. *)
Fixpoint transpose_row (sp : list nat) (i : nat) (new_R : gmap nat (list nat)) : gmap nat (list nat) :=
  match sp with [] => new_R | j :: sp => transpose_row sp i (<[j := default [] (new_R !! j) ++ [i]]> new_R) end.
Fixpoint transpose_loop (R : list (list nat)) (i : nat) (new_R : gmap nat (list nat)) : gmap nat (list nat) :=
  match R with [] => new_R | sp :: R => transpose_loop R (S i) (transpose_row sp i new_R) end.
Definition transpose (R : list (list nat)) : list (list nat) :=
  let new_R := transpose_loop R 0 ∅ in map (fun i => default [] (new_R !! i)) (seq 0 (ngotos G)).

Definition build_relations : result (list (list nat) * gmap nat (list nat)) :=
  do (includes, lookback) <- relations_loop (ngotos G) 0 [] ∅;
  Ok (transpose includes, lookback).

(** ** Lookaheads *)

(** [for (sp = lookback[i]; sp; sp = sp->next)] *)
Fixpoint add_follows (sp : list nat) (rowp F : Z) (m : mem) : mem :=
  match sp with
  | [] => m
  | j :: sp => add_follows sp rowp F (or_row (Z.to_nat (WORDSIZE (ntokens g))) rowp (F + WORDSIZE (ntokens g) * Z.of_nat j) m)
  end.
(** [for (i = i; i < n; i++)], [n] turns. *)
Fixpoint compute_lookaheads (n i : nat) (rowp F : Z) (lookback : gmap nat (list nat)) (m : mem) : mem :=
  match n with
  | O => m
  | S n => compute_lookaheads n (S i) (rowp + WORDSIZE (ntokens g)) F lookback (add_follows (default [] (lookback !! i)) rowp F m)
  end.
End Relations.

(** [LA], [F]: where they are allocated. *)
Definition lalr (LA F : Z) (m : mem) : result (gotos * mem) :=
  let n := length LAruleno in
  let m := clear (Z.to_nat (Z.of_nat n * WORDSIZE (ntokens g))) LA m in
  do G <- set_goto_map;
  do m <- initialize_F G F m;
  do (includes, lookback) <- build_relations G;
  do m <- run_digraph G F includes m;
  Ok (G, compute_lookaheads n 0 LA F lookback m).
End Lalr.

(** ** The transitions *)

Lemma set_shift_table_app l1 l2 t : set_shift_table (l1 ++ l2) t = set_shift_table l2 (set_shift_table l1 t).
Proof. revert t. induction l1 as [|x l1 IH]; intros t; [done|]. apply IH. Qed.
Lemma set_reduction_table_app l1 l2 t : set_reduction_table (l1 ++ l2) t = set_reduction_table l2 (set_reduction_table l1 t).
Proof. revert t. induction l1 as [|x l1 IH]; intros t; [done|]. apply IH. Qed.

Lemma saved_shifts_table T k : default [] (set_shift_table (saved_shifts T) ∅ !! k) = T !!! k.
Proof.
  induction T as [|t T IH] using rev_ind; [done|]. rewrite saved_shifts_snoc, set_shift_table_app, list_lookup_total_alt.
  destruct (decide (k = length T)) as [->|Hne].
  - rewrite list_lookup_middle by done. destruct t; cbn [set_shift_table sh_number shift]; [|by rewrite lookup_insert_eq].
    rewrite IH, list_lookup_total_alt, lookup_ge_None_2; done.
  - assert (E : (T ++ [t]) !! k = T !! k).
    { destruct (decide (k < length T)%nat); [by rewrite lookup_app_l|]. rewrite !lookup_ge_None_2; [done|lia|]. rewrite length_app. cbn. lia. }
    rewrite E, <- list_lookup_total_alt. destruct t; cbn [set_shift_table sh_number shift]; [done|]. by rewrite lookup_insert_ne by congruence.
Qed.
Lemma saved_reductions_table R k : default [] (set_reduction_table (saved_reductions R) ∅ !! k) = R !!! k.
Proof.
  induction R as [|t T IH] using rev_ind; [done|]. rewrite saved_reductions_snoc, set_reduction_table_app, list_lookup_total_alt.
  destruct (decide (k = length T)) as [->|Hne].
  - rewrite list_lookup_middle by done. destruct t; cbn [set_reduction_table red_number red_rules]; [|by rewrite lookup_insert_eq].
    rewrite IH, list_lookup_total_alt, lookup_ge_None_2; done.
  - assert (E : (T ++ [t]) !! k = T !! k).
    { destruct (decide (k < length T)%nat); [by rewrite lookup_app_l|]. rewrite !lookup_ge_None_2; [done|lia|]. rewrite length_app. cbn. lia. }
    rewrite E, <- list_lookup_total_alt. destruct t; cbn [set_reduction_table red_number red_rules]; [done|]. by rewrite lookup_insert_ne by congruence.
Qed.

Section Gotos.
Context (g : grammar) (OK : grammar_ok g) (s : lr0) (AU : automaton g s).
Abbreviation acc := (accessing_symbol s).

(** [p] goes to [q] by [X]. *)
Definition delta (p : nat) (X : Z) (q : nat) : Prop := q ∈ shift_table s p /\ acc q = X.

(** The tables of transitions and reductions of the automaton. *)
Lemma shift_rows : exists T, length T = nstates s /\ first_shift s = saved_shifts T /\ (forall p, shift_table s p = T !!! p) /\
  forall p, (p < nstates s)%nat -> StronglySorted Z.lt (map acc (T !!! p)) /\ (forall q, q ∈ T !!! p -> (q < nstates s)%nat /\ 0 < acc q < nsyms g).
Proof.
  destruct (au_rows _ _ AU) as (T & R & HT & HR & ES & ER & Hrow). exists T. split; [done|]. split; [done|].
  split; [intros p; unfold shift_table; rewrite ES; apply saved_shifts_table|]. intros p Hp.
  destruct (lookup_lt_is_Some_2 T p ltac:(lia)) as [t Ht], (lookup_lt_is_Some_2 R p ltac:(lia)) as [r Hr].
  destruct (lookup_lt_is_Some_2 (bodies s) p ltac:(by rewrite length_bodies)) as [b Hb].
  destruct (Hrow p t r b Ht Hr Hb) as (I & _ & (symbols & Hs & Hsym & HF) & _). rewrite (list_lookup_total_correct _ _ _ Ht).
  assert (Hacc : forall X j, transition g s I X j -> acc j = X /\ (j < nstates s)%nat).
  { intros X j [_ Hj]. split; [|apply lookup_lt_Some in Hj; by rewrite length_bodies in Hj]. apply bodies_lookup in Hj as (c & Hc & Ec).
    unfold accessing_symbol. rewrite list_lookup_fmap, Hc. cbn. unfold body in Ec. by injection Ec. }
  assert (Hin : forall X, X ∈ symbols -> 0 < X < nsyms g) by (intros X HX; apply Hsym in HX as (? & i & _ & <-); split; [done|apply (go_symbol g OK)]).
  clear Hsym. split.
  - replace (map acc t) with symbols; [done|]. clear Hs Hin Ht. induction HF as [|X j l k Hj _ IH]; [done|]. cbn [map]. f_equal; [symmetry; by apply Hacc|done].
  - intros q Hq. apply list_elem_of_lookup in Hq as [i Hi]. destruct (Forall2_lookup_r _ _ _ _ _ HF Hi) as (X & HX & Hj). destruct (Hacc _ _ Hj) as [-> ?].
    split; [done|]. apply Hin. by eapply list_elem_of_lookup_2.
Qed.

Lemma delta_range p X q : delta p X q -> (p < nstates s)%nat /\ (q < nstates s)%nat /\ 0 < X < nsyms g.
Proof.
  intros [Hq <-]. destruct shift_rows as (T & HT & _ & E & H). rewrite E in Hq. destruct (decide (p < nstates s)%nat) as [Hp|Hp].
  - destruct (H p Hp) as [_ H']. specialize (H' q Hq). tauto.
  - rewrite list_lookup_total_alt, lookup_ge_None_2 in Hq by lia. by apply not_elem_of_nil in Hq.
Qed.

Lemma sorted_map_inj (f : nat -> Z) l x y : StronglySorted Z.lt (map f l) -> x ∈ l -> y ∈ l -> f x = f y -> x = y.
Proof.
  induction l as [|a l IH]; cbn [map]; intros Hs Hx Hy E; [by apply not_elem_of_nil in Hx|]. apply StronglySorted_inv in Hs as [Hs Ha].
  rewrite Forall_forall in Ha. assert (Hlt : forall z, z ∈ l -> f a < f z) by (intros z Hz; apply Ha; apply list_elem_of_fmap; by exists z).
  apply elem_of_cons in Hx as [->|Hx], Hy as [->|Hy]; [done|specialize (Hlt y Hy); lia|specialize (Hlt x Hx); lia|auto].
Qed.

Lemma delta_det p X q q' : delta p X q -> delta p X q' -> q = q'.
Proof.
  intros H H'. pose proof (delta_range _ _ _ H) as (Hp & _). destruct H as [H <-], H' as [H' E']. destruct shift_rows as (T & _ & _ & E & Hr). rewrite E in *.
  destruct (Hr p Hp) as [Hs _]. symmetry in E'. by apply (sorted_map_inj acc (T !!! p)).
Qed.

(** ** The gotos in the order of the scan *)

Abbreviation isvar q := (ISVAR g (acc q) = true).
Definition gotos_of (p : nat) (t : list nat) : list (nat * nat) := map (pair p) (filter (fun q => isvar q) (rev t)).
Definition scan (T : list (list nat)) : list (nat * nat) := concat (imap gotos_of T).
Definition by_symbol (A : Z) (l : list (nat * nat)) : list (nat * nat) := filter (fun x => acc x.2 = A) l.
Definition start (A : Z) (l : list (nat * nat)) : nat := length (filter (fun x => acc x.2 < A) l).

Lemma scan_snoc T t : scan (T ++ [t]) = scan T ++ gotos_of (length T) t.
Proof. unfold scan. rewrite imap_app, concat_app. cbn [imap concat]. by rewrite app_nil_r, Nat.add_0_r. Qed.

(** The variables come last. *)
Lemma rev_vars t : StronglySorted Z.lt (map acc t) -> exists ts, rev t = filter (fun q => isvar q) (rev t) ++ ts /\ Forall (fun q => ISTOKEN g (acc q) = true) ts.
Proof.
  induction t as [|a t IH]; cbn [map rev]; intros Hs; [by exists []|]. apply StronglySorted_inv in Hs as [Hs Ha]. destruct (IH Hs) as (ts & E & Hts).
  rewrite filter_app, filter_cons, filter_nil. unfold ISVAR in *. unfold ISTOKEN in *. destruct (Z.leb_spec (start_symbol g) (acc a)) as [Hv|Hv].
  - rewrite decide_True by done. exists []. split; [|constructor]. rewrite app_nil_r. f_equal. clear E Hts IH Hs ts. induction t as [|b t IH]; [done|].
    cbn [map] in Ha. apply Forall_cons in Ha as [Hb Ha]. cbn [rev]. rewrite filter_app, filter_cons, filter_nil, <- (IH Ha). rewrite decide_True; [done|].
    apply Z.leb_le. lia.
  - rewrite decide_False by (by destruct (Z.leb_spec (start_symbol g) (acc a)); [lia|]). exists (ts ++ [a]). rewrite app_nil_r. split; [rewrite app_assoc; by f_equal|].
    apply Forall_app. split; [done|]. constructor; [|constructor]. by apply Z.ltb_lt.
Qed.

Lemma isvar_token q : isvar q -> ISTOKEN g (acc q) = false.
Proof. unfold ISVAR, ISTOKEN. intros H%Z.leb_le. apply Z.ltb_ge. lia. Qed.

(** *** Counting *)

Definition counts (M : gmap Z nat) (l : list (nat * nat)) : Prop := forall A, map_at M A = length (by_symbol A l).

Lemma by_symbol_app A l1 l2 : by_symbol A (l1 ++ l2) = by_symbol A l1 ++ by_symbol A l2.
Proof. apply filter_app. Qed.
Lemma map_at_insert M x y k : map_at (<[x := k]> M) y = if x =? y then k else map_at M y.
Proof. unfold map_at. destruct (Z.eqb_spec x y) as [->|Hne]; [by rewrite lookup_insert_eq|by rewrite lookup_insert_ne]. Qed.

Lemma counts_snoc M l p q : counts M l -> counts (<[acc q := S (map_at M (acc q))]> M) (l ++ [(p, q)]).
Proof.
  intros H A. rewrite map_at_insert, by_symbol_app, length_app. unfold by_symbol at 2. rewrite filter_cons, filter_nil. cbn [snd].
  destruct (Z.eqb_spec (acc q) A) as [<-|Hne]; [rewrite decide_True, H by done; cbn; lia|]. rewrite decide_False, H by done. cbn. lia.
Qed.

Lemma count_shift_spec p ts : Forall (fun q => ISTOKEN g (acc q) = true) ts -> forall vs, Forall (fun q => isvar q) vs -> forall l M, counts M l -> (length l <= MAXSHORT)%nat ->
  match count_shift g s (vs ++ ts) (length l) M with
  | Ok (n, M') => n = length (l ++ map (pair p) vs) /\ counts M' (l ++ map (pair p) vs) /\ (n <= MAXSHORT)%nat
  | Fatal msg => msg = "too many gotos"%string /\ (MAXSHORT < length (l ++ map (pair p) vs))%nat
  | _ => False
  end.
Proof.
  intros Hts vs Hvs. induction Hvs as [|q vs Hq _ IH]; intros l M HM Hl; cbn [app].
  - cbn [map]. rewrite app_nil_r. destruct Hts as [|q ts Hq _]; cbn [count_shift]; [done|]. by rewrite Hq.
  - cbn [count_shift map]. rewrite isvar_token by done. destruct (Nat.eqb_spec (length l) MAXSHORT) as [E|E].
    + split; [done|]. rewrite length_app. cbn [length]. lia.
    + specialize (IH (l ++ [(p, q)]) _ (counts_snoc M l p q HM)). rewrite length_app in IH. cbn [length] in IH. rewrite Nat.add_1_r in IH.
      rewrite <- app_assoc in IH. apply IH. lia.
Qed.

Lemma count_gotos_app l1 l2 n M : count_gotos g s (l1 ++ l2) n M = andthen (count_gotos g s l1 n M) (fun '(n, M) => count_gotos g s l2 n M).
Proof.
  revert n M. induction l1 as [|t l1 IH]; intros n M; [done|]. cbn [app count_gotos]. destruct (count_shift g s (rev (shift t)) n M) as [[n' M']|m| | |]; cbn [andthen]; [apply IH|done..].
Qed.

Lemma count_gotos_spec T : Forall (fun t => StronglySorted Z.lt (map acc t)) T ->
  match count_gotos g s (saved_shifts T) 0 ∅ with
  | Ok (n, M) => n = length (scan T) /\ counts M (scan T) /\ (n <= MAXSHORT)%nat
  | Fatal msg => msg = "too many gotos"%string /\ (MAXSHORT < length (scan T))%nat
  | _ => False
  end.
Proof.
  induction T as [|t T IH] using rev_ind; intros HT; [cbn; split; [done|split; [done|lia]]|]. apply Forall_app in HT as [HT Ht]. apply Forall_cons in Ht as [Ht _].
  specialize (IH HT). rewrite saved_shifts_snoc, count_gotos_app, scan_snoc. destruct (count_gotos g s (saved_shifts T) 0 ∅) as [[n M]|msg| | |]; cbn [andthen]; try done.
  - destruct IH as (-> & HM & Hle). destruct (rev_vars t Ht) as (ts & E & Hts). unfold gotos_of.
    pose proof (count_shift_spec (length T) ts Hts (filter (fun q => isvar q) (rev t)) ltac:(apply Forall_forall; intros q Hq; by apply list_elem_of_filter in Hq as [Hq _]) (scan T) M HM Hle) as H.
    rewrite <- E in H. destruct t as [|a t]; [cbn [count_gotos rev]; cbn in H; by rewrite app_nil_r in *|].
    cbn [count_gotos sh_number shift]. destruct (count_shift g s (rev (a :: t)) (length (scan T)) M) as [[n' M']|m| | |]; cbn [andthen count_gotos]; done.
  - destruct IH as [-> IH]. split; [done|]. rewrite length_app. lia.
Qed.

(** *** The numbering *)

Lemma start_le A B l : A <= B -> (start A l <= start B l)%nat.
Proof.
  intros H. unfold start. induction l as [|x l IH]; [done|]. rewrite !filter_cons. destruct (decide (acc x.2 < A)); [rewrite decide_True by lia; cbn [length]; lia|].
  case_decide; cbn [length]; lia.
Qed.
Lemma start_next A l : start (A + 1) l = (start A l + length (by_symbol A l))%nat.
Proof.
  unfold start, by_symbol. induction l as [|x l IH]; [done|]. rewrite !filter_cons.
  destruct (Z.lt_trichotomy (acc x.2) A) as [H|[H|H]]; [rewrite (decide_True (P := acc x.2 < A + 1)), (decide_True (P := acc x.2 < A)), (decide_False (P := acc x.2 = A)) by lia|
    rewrite (decide_True (P := acc x.2 < A + 1)), (decide_False (P := acc x.2 < A)), (decide_True (P := acc x.2 = A)) by lia|
    rewrite (decide_False (P := acc x.2 < A + 1)), (decide_False (P := acc x.2 < A)), (decide_False (P := acc x.2 = A)) by lia]; cbn [length]; lia.
Qed.

Lemma sum_gotos_spec l M : counts M l -> forall n i temp, map_at temp i = O ->
  (forall A, i <= A -> map_at temp A = O) ->
  let temp' := sum_gotos n i (start i l) M temp in
  forall A, map_at temp' A = if (i <=? A) && (A <? i + Z.of_nat n) then start A l else map_at temp A.
Proof.
  intros HM n. induction n as [|n IH]; intros i temp Hi Ht temp' A; unfold temp'; cbn [sum_gotos].
  - destruct (Z.leb_spec i A), (Z.ltb_spec A (i + Z.of_nat 0)); cbn [andb]; try done. lia.
  - rewrite HM, <- start_next, IH.
    + rewrite map_at_insert. destruct (Z.leb_spec (i + 1) A), (Z.ltb_spec A (i + 1 + Z.of_nat n)), (Z.leb_spec i A), (Z.ltb_spec A (i + Z.of_nat (S n))), (Z.eqb_spec i A); cbn [andb]; try done; try lia. by subst.
    + rewrite map_at_insert, (proj2 (Z.eqb_neq i (i + 1))) by lia. apply Ht. lia.
    + intros B HB. rewrite map_at_insert, (proj2 (Z.eqb_neq i B)) by lia. apply Ht. lia.
Qed.

(** The arrays after the part [l] of the gotos [all]. *)
Definition filled (all l : list (nat * nat)) (temp : gmap Z nat) (from to : list nat) : Prop :=
  length from = length all /\ length to = length all /\
  (forall A, ntokens g <= A < nsyms g -> map_at temp A = (start A all + length (by_symbol A l))%nat) /\
  (forall A k x, ntokens g <= A < nsyms g -> by_symbol A l !! k = Some x -> from !! (start A all + k)%nat = Some x.1 /\ to !! (start A all + k)%nat = Some x.2).

Lemma start_length A l : (start A l <= length l)%nat.
Proof. apply length_filter. Qed.

Lemma filled_snoc all l rest temp from to p q : all = l ++ (p, q) :: rest -> ntokens g <= acc q < nsyms g -> filled all l temp from to ->
  filled all (l ++ [(p, q)]) (<[acc q := S (map_at temp (acc q))]> temp) (<[map_at temp (acc q) := p]> from) (<[map_at temp (acc q) := q]> to).
Proof.
  intros E Hq (H1 & H2 & H3 & H4). unfold filled. rewrite !length_insert. split; [done|]. split; [done|].
  assert (Hone : forall A, by_symbol A (l ++ [(p, q)]) = by_symbol A l ++ (if acc q =? A then [(p, q)] else [])).
  { intros A. rewrite by_symbol_app. f_equal. unfold by_symbol. rewrite filter_cons, filter_nil. cbn [snd]. destruct (Z.eqb_spec (acc q) A); [by rewrite decide_True|by rewrite decide_False]. }
  assert (Hlt : (start (acc q) all + length (by_symbol (acc q) l) < length all)%nat).
  { pose proof (start_next (acc q) all) as Hs. pose proof (start_length (acc q + 1) all). rewrite E in Hs at 3. rewrite by_symbol_app, length_app in Hs.
    unfold by_symbol in Hs at 2. rewrite filter_cons in Hs. cbn [snd] in Hs. rewrite decide_True in Hs by done. cbn [length] in Hs. lia. }
  split.
  - intros A HA. rewrite map_at_insert, Hone, length_app, !H3 by done. destruct (Z.eqb_spec (acc q) A) as [<-|]; cbn [length]; lia.
  - intros A k x HA Hk. rewrite H3 by done. rewrite Hone in Hk. destruct (Z.eqb_spec (acc q) A) as [<-|Hne].
    + apply lookup_app_Some in Hk as [Hk|[Hle Hk]].
      * pose proof (lookup_lt_Some _ _ _ Hk). rewrite !list_lookup_insert_ne by lia. by apply H4.
      * apply list_lookup_singleton_Some in Hk as [Hk <-]. replace k with (length (by_symbol (acc q) l)) by lia. rewrite !list_lookup_insert_eq by lia. done.
    + rewrite app_nil_r in Hk. pose proof (lookup_lt_Some _ _ _ Hk) as Hkl. destruct (H4 A k x HA Hk) as [? ?].
      assert (Hd : (start (acc q) all + length (by_symbol (acc q) l))%nat <> (start A all + k)%nat).
      { pose proof (start_next (acc q) all) as Hs. pose proof (start_next A all) as HsA. rewrite E in Hs at 3. rewrite E in HsA at 3.
        rewrite by_symbol_app, length_app in Hs, HsA. unfold by_symbol in Hs at 2. rewrite filter_cons in Hs. cbn [snd] in Hs. rewrite decide_True in Hs by done. cbn [length] in Hs.
        destruct (Z.lt_trichotomy (acc q) A) as [Hl|[?|Hl]]; [|done|].
        - pose proof (start_le (acc q + 1) A all ltac:(lia)). lia.
        - pose proof (start_le (A + 1) (acc q) all ltac:(lia)). lia. }
      rewrite !list_lookup_insert_ne by done. done.
Qed.

Lemma fill_shift_spec all p ts : Forall (fun q => ISTOKEN g (acc q) = true) ts -> forall vs, Forall (fun q => isvar q) vs -> Forall (fun q => acc q < nsyms g) vs ->
  forall l rest temp from to, all = l ++ map (pair p) vs ++ rest -> filled all l temp from to ->
  exists temp' from' to', fill_shift g s p (vs ++ ts) temp from to = (temp', from', to') /\ filled all (l ++ map (pair p) vs) temp' from' to'.
Proof.
  intros Hts vs Hvs. induction Hvs as [|q vs Hq _ IH]; intros Hr l rest temp from to E Hf; cbn [app map] in *.
  - rewrite app_nil_r. exists temp, from, to. split; [|done]. destruct Hts as [|q ts Hq _]; cbn [fill_shift]; [done|]. by rewrite Hq.
  - apply Forall_cons in Hr as [Hqr Hr]. cbn [fill_shift]. rewrite isvar_token by done.
    assert (Hrange : ntokens g <= acc q < nsyms g) by (unfold ISVAR in Hq; apply Z.leb_le in Hq; rewrite (go_start g OK) in Hq; lia).
    destruct (IH Hr (l ++ [(p, q)]) rest _ _ _ ltac:(rewrite <- app_assoc; exact E) (filled_snoc all l _ temp from to p q E Hrange Hf)) as (temp' & from' & to' & E' & Hf').
    exists temp', from', to'. rewrite <- app_assoc in Hf'. done.
Qed.

Lemma fill_gotos_spec all T rest : Forall (fun t => StronglySorted Z.lt (map acc t) /\ Forall (fun q => acc q < nsyms g) t) T -> forall l i temp from to,
  all = l ++ concat (imap (fun k => gotos_of (i + k)) T) ++ rest -> filled all l temp from to ->
  exists temp' from' to', fill_gotos g s (concat (imap (fun k t => match t with [] => [] | _ => [MkShifts (i + k) t] end) T)) temp from to = (from', to') /\
    filled all (l ++ concat (imap (fun k => gotos_of (i + k)) T)) temp' from' to'.
Proof.
  induction 1 as [|t T [Hs Hr] _ IH]; intros l i temp from to E Hf.
  - exists temp, from, to. cbn. by rewrite app_nil_r.
  - rewrite !imap_cons in *. cbn [concat] in *. rewrite Nat.add_0_r in *. destruct (rev_vars t Hs) as (ts & Er & Hts).
    assert (Ei : forall B (f : nat -> list nat -> B), imap ((fun k => f (i + k)%nat) ∘ S) T = imap (fun k => f (S i + k)%nat) T).
    { intros B f. apply imap_ext. intros k x _. cbn. f_equal. lia. }
    rewrite (Ei _ gotos_of), (Ei _ (fun k t => match t with [] => [] | _ => [MkShifts k t] end)) in *. rewrite <- app_assoc in E.
    assert (Hv : Forall (fun q => isvar q) (filter (fun q => isvar q) (rev t))) by (apply Forall_forall; intros q Hq; by apply list_elem_of_filter in Hq as [Hq _]).
    assert (Hvr : Forall (fun q => acc q < nsyms g) (filter (fun q => isvar q) (rev t))).
    { apply Forall_forall. intros q Hq. apply list_elem_of_filter in Hq as [_ Hq]. rewrite Forall_forall in Hr. apply Hr. by apply list_elem_of_In, in_rev, list_elem_of_In. }
    destruct (fill_shift_spec all i ts Hts _ Hv Hvr l _ temp from to E Hf) as (temp1 & from1 & to1 & E1 & Hf1). rewrite <- Er in E1.
    destruct (IH (l ++ gotos_of i t) (S i) temp1 from1 to1 ltac:(rewrite <- app_assoc; exact E) Hf1) as (temp' & from' & to' & E' & Hf').
    exists temp', from', to'. rewrite <- app_assoc in Hf'. split; [|exact Hf'].
    destruct t as [|a t]; [cbn [app]; cbn in E1; injection E1 as <- <- <-; exact E'|]. cbn [app fill_gotos sh_number shift]. rewrite E1. exact E'.
Qed.

Lemma elem_of_scan T p q : (p, q) ∈ scan T <-> (p < length T)%nat /\ q ∈ T !!! p /\ isvar q.
Proof.
  induction T as [|t T IH] using rev_ind; [split; [intros H; by apply not_elem_of_nil in H|cbn; lia]|].
  rewrite scan_snoc, elem_of_app, IH, length_app. cbn [length]. unfold gotos_of.
  assert (Ht : (p, q) ∈ map (pair (length T)) (filter (fun q => isvar q) (rev t)) <-> p = length T /\ q ∈ t /\ isvar q).
  { split.
    - intros (q' & [= -> ->] & [Hv Hq]%list_elem_of_filter)%list_elem_of_fmap. split; [done|]. split; [|done]. by apply list_elem_of_In, in_rev, list_elem_of_In.
    - intros (-> & Hq & Hv). apply list_elem_of_fmap. exists q. split; [done|]. apply list_elem_of_filter. split; [done|]. by apply list_elem_of_In, in_rev; rewrite rev_involutive; apply list_elem_of_In. }
  rewrite Ht. split.
  - intros [(Hp & Hq & Hv)|(-> & Hq & Hv)]; [rewrite lookup_total_app_l by done; split; [lia|done]|]. rewrite list_lookup_total_middle by done. split; [lia|done].
  - intros (Hp & Hq & Hv). destruct (decide (p < length T)%nat) as [Hl|Hl]; [left; by rewrite lookup_total_app_l in Hq by done|right].
    assert (p = length T) as -> by lia. by rewrite list_lookup_total_middle in Hq by done.
Qed.

Lemma filter_one (A : Z) t : StronglySorted Z.lt (map acc t) -> (length (filter (fun q => acc q = A) t) <= 1)%nat.
Proof.
  induction t as [|a t IH]; cbn [map]; intros Hs; [cbn; lia|]. apply StronglySorted_inv in Hs as [Hs Ha]. rewrite filter_cons. destruct (decide (acc a = A)) as [E|E]; [|by apply IH].
  destruct (filter (fun q => acc q = A) t) as [|b l] eqn:Eb; [done|]. assert (Hb : b ∈ filter (fun q => acc q = A) t) by (rewrite Eb; apply list_elem_of_here).
  apply list_elem_of_filter in Hb as [Hb Hin]. rewrite Forall_forall in Ha. assert (acc a < acc b) by (apply Ha, list_elem_of_fmap; by exists b). lia.
Qed.

Lemma filter_sub {B} (P Q : B -> Prop) `{!forall x, Decision (P x)} `{!forall x, Decision (Q x)} (l : list B) : (length (filter P (filter Q l)) <= length (filter P l))%nat.
Proof. induction l as [|x l IH]; [done|]. rewrite (filter_cons Q), (filter_cons P x l). destruct (decide (Q x)); [rewrite filter_cons|]; destruct (decide (P x)); cbn [length]; lia. Qed.

Lemma by_symbol_sorted A T : Forall (fun t => StronglySorted Z.lt (map acc t)) T -> StronglySorted (fun x y : nat * nat => (x.1 < y.1)%nat) (by_symbol A (scan T)).
Proof.
  induction T as [|t T IH] using rev_ind; intros HT; [constructor|]. apply Forall_app in HT as [HT Ht]. apply Forall_cons in Ht as [Ht _].
  rewrite scan_snoc, by_symbol_app. apply StronglySorted_app. split; [|split; [by apply IH|]].
  - intros [p q] [p' q'] [_ Hx]%list_elem_of_filter [_ Hy]%list_elem_of_filter. apply elem_of_scan in Hx as [Hx _].
    apply list_elem_of_fmap in Hy as (q'' & [= -> ->] & _). done.
  - unfold by_symbol, gotos_of. assert (H1 : (length (filter (fun x : nat * nat => acc x.2 = A) (map (pair (length T)) (filter (fun q => isvar q) (rev t)))) <= 1)%nat).
    { assert (E : forall l : list nat, length (filter (fun x : nat * nat => acc x.2 = A) (map (pair (length T)) l)) = length (filter (fun q => acc q = A) l)).
      { intros l. induction l as [|x l IHl]; [done|]. cbn [map]. rewrite !filter_cons. cbn [snd]. destruct (decide (acc x = A)); cbn [length]; [by rewrite IHl|done]. }
      rewrite E. etransitivity; [apply (filter_sub _ _)|]. assert (Hp : Permutation (rev t) t) by (symmetry; apply Permutation_rev). rewrite (filter_Permutation _ _ _ Hp). by apply filter_one. }
    destruct (filter _ (map _ _)) as [|x [|y l]]; [repeat constructor..|]. cbn in H1. lia.
Qed.

Lemma filter_whole {B} (P : B -> Prop) `{!forall x, Decision (P x)} (l : list B) : (forall x, x ∈ l -> P x) -> filter P l = l.
Proof.
  induction l as [|x l IH]; intros Hl; [done|]. rewrite filter_cons, decide_True by (apply Hl, list_elem_of_here). f_equal. apply IH. intros y Hy. by apply Hl, list_elem_of_further.
Qed.

Lemma sorted_apart {B} (R : B -> B -> Prop) l : StronglySorted R l -> forall i j x y, (i < j)%nat -> l !! i = Some x -> l !! j = Some y -> R x y.
Proof.
  induction 1 as [|a l _ IH Ha]; intros i j x y Hij Hi Hj; [done|]. destruct j as [|j]; [lia|]. destruct i as [|i]; cbn in Hi, Hj; [|apply (IH i j); [lia|done..]].
  injection Hi as ->. rewrite Forall_forall in Ha. apply Ha. by eapply list_elem_of_lookup_2.
Qed.

(** The gotos are numbered by symbol, then by state. *)
Record numbering (G : gotos) : Prop := {
  nb_from : length (from_state G) = ngotos G;
  nb_to : length (to_state G) = ngotos G;
  nb_small : (ngotos G <= MAXSHORT)%nat;
  nb_goto i : (i < ngotos G)%nat -> exists p q, from_state G !! i = Some p /\ to_state G !! i = Some q /\ delta p (acc q) q /\ isvar q /\
    (map_at (goto_map G) (acc q) <= i < map_at (goto_map G) (acc q + 1))%nat;
  nb_find p A q : delta p A q -> ISVAR g A = true ->
    exists i, (map_at (goto_map G) A <= i < map_at (goto_map G) (A + 1))%nat /\ (i < ngotos G)%nat /\ from_state G !! i = Some p /\ to_state G !! i = Some q;
  nb_range A : ntokens g <= A < nsyms g -> (map_at (goto_map G) A <= map_at (goto_map G) (A + 1) <= ngotos G)%nat;
  nb_symbol A i : ntokens g <= A < nsyms g -> (map_at (goto_map G) A <= i < map_at (goto_map G) (A + 1))%nat -> exists q, to_state G !! i = Some q /\ acc q = A;
  nb_sorted A i j p p' : ntokens g <= A < nsyms g -> (map_at (goto_map G) A <= i)%nat -> (i < j < map_at (goto_map G) (A + 1))%nat ->
    from_state G !! i = Some p -> from_state G !! j = Some p' -> (p < p')%nat
}.

Lemma start_between l i n : forall A, (start A l <= i)%nat -> (i < start (A + Z.of_nat n) l)%nat -> exists B, A <= B < A + Z.of_nat n /\ (start B l <= i < start (B + 1) l)%nat.
Proof.
  induction n as [|n IH]; intros A H1 H2; [replace (A + Z.of_nat 0) with A in H2 by lia; lia|].
  destruct (decide (i < start (A + 1) l)%nat) as [Hl|Hl]; [exists A; split; lia|].
  destruct (IH (A + 1)) as (B & HB & HB'); [lia|replace (A + 1 + Z.of_nat n) with (A + Z.of_nat (S n)) by lia; done|]. exists B. split; [lia|done].
Qed.

Lemma filled_numbering T (n := length (scan T)) temp from to gm : length T = nstates s -> (forall p, shift_table s p = T !!! p) -> 
  (forall p, (p < nstates s)%nat -> StronglySorted Z.lt (map acc (T !!! p)) /\ forall q, q ∈ T !!! p -> (q < nstates s)%nat /\ 0 < acc q < nsyms g) ->
  (n <= MAXSHORT)%nat -> (forall A, ntokens g <= A <= nsyms g -> map_at gm A = start A (scan T)) -> filled (scan T) (scan T) temp from to ->
  numbering (MkGotos n gm from to).
Proof.
  intros HT ET Hrow Hn Hgm (F1 & F2 & _ & F4).
  assert (HS : Forall (fun t => StronglySorted Z.lt (map acc t)) T).
  { apply Forall_lookup. intros p t Ht. rewrite <- (list_lookup_total_correct _ _ _ Ht). apply Hrow. apply lookup_lt_Some in Ht. lia. }
  assert (Hscan : forall p q, (p, q) ∈ scan T -> delta p (acc q) q /\ isvar q /\ ntokens g <= acc q < nsyms g).
  { intros p q (Hp & Hq & Hv)%elem_of_scan. unfold delta. rewrite ET. split; [done|]. split; [done|]. unfold ISVAR in Hv. apply Z.leb_le in Hv.
    rewrite (go_start g OK) in Hv. split; [done|]. apply Hrow in Hq; lia. }
  assert (Hcell : forall A i, ntokens g <= A < nsyms g -> (start A (scan T) <= i < start (A + 1) (scan T))%nat ->
    exists x, by_symbol A (scan T) !! (i - start A (scan T))%nat = Some x /\ from !! i = Some x.1 /\ to !! i = Some x.2).
  { intros A i HA Hi. rewrite start_next in Hi. destruct (lookup_lt_is_Some_2 (by_symbol A (scan T)) (i - start A (scan T))%nat ltac:(lia)) as [x Hx].
    exists x. split; [done|]. specialize (F4 A _ x HA Hx). by replace (start A (scan T) + (i - start A (scan T)))%nat with i in F4 by lia. }
  assert (Hbase : forall A, ntokens g <= A < nsyms g -> map_at gm A = start A (scan T) /\ map_at gm (A + 1) = start (A + 1) (scan T)) by (intros A HA; split; apply Hgm; lia).
  split; cbn [ngotos goto_map from_state to_state]; [done|done|done| | | | |].
  - intros i Hi. assert (H0 : start (ntokens g) (scan T) = O).
    { unfold start. destruct (filter _ (scan T)) as [|[p q] l] eqn:E; [done|]. exfalso. assert (Hin : (p, q) ∈ filter (fun x => acc x.2 < ntokens g) (scan T)) by (rewrite E; apply list_elem_of_here).
      apply list_elem_of_filter in Hin as [Hlt Hin]. cbn in Hlt. apply Hscan in Hin as (_ & _ & ?). lia. }
    assert (Hend : start (nsyms g) (scan T) = n).
    { unfold start, n. f_equal. apply filter_whole. intros [p q] Hin. apply Hscan in Hin as (_ & _ & ?). cbn. lia. }
    pose proof (go_nsyms g OK). pose proof (go_nvars g OK).
    destruct (start_between (scan T) i (Z.to_nat (nvars g)) (ntokens g)) as (A & HA & Hi'); [lia|replace (ntokens g + Z.of_nat (Z.to_nat (nvars g))) with (nsyms g) by lia; lia|].
    destruct (Hcell A i ltac:(lia) Hi') as ([p q] & Hx & Hf & Ht). exists p, q. split; [done|]. split; [done|].
    apply list_elem_of_lookup_2, list_elem_of_filter in Hx as [HqA Hx]. apply Hscan in Hx as (? & ? & ?). cbn in HqA. split; [done|]. split; [done|].
    rewrite HqA. destruct (Hbase A ltac:(lia)) as [-> ->]. done.
  - intros p A q [Hq HA] Hv. rewrite ET in Hq. assert (Hin : (p, q) ∈ scan T).
    { apply elem_of_scan. subst A. split; [|done]. destruct (decide (p < length T)%nat) as [|Hp]; [done|]. rewrite list_lookup_total_alt, lookup_ge_None_2 in Hq by lia. by apply not_elem_of_nil in Hq. }
    pose proof (Hscan _ _ Hin) as (_ & _ & Hr). rewrite HA in Hr. assert (Hb : (p, q) ∈ by_symbol A (scan T)) by (by apply list_elem_of_filter).
    apply list_elem_of_lookup in Hb as [k Hk]. pose proof (lookup_lt_Some _ _ _ Hk) as Hkl. destruct (F4 A k _ Hr Hk) as [Hf Ht].
    exists (start A (scan T) + k)%nat. destruct (Hbase A Hr) as [-> ->]. rewrite start_next. split; [lia|]. split; [|done].
    apply lookup_lt_Some in Hf. unfold n. lia.
  - intros A HA. destruct (Hbase A HA) as [-> ->]. split; [apply start_le; lia|apply start_length].
  - intros A i HA. destruct (Hbase A HA) as [-> ->]. intros Hi. destruct (Hcell A i HA Hi) as (x & Hx & _ & Ht). exists x.2. split; [done|].
    apply list_elem_of_lookup_2, list_elem_of_filter in Hx as [Hx _]. done.
  - intros A i j p p' HA. destruct (Hbase A HA) as [-> ->]. intros Hi Hj Hp Hp'.
    destruct (Hcell A i HA ltac:(lia)) as (x & Hx & Hf & _), (Hcell A j HA ltac:(lia)) as (y & Hy & Hf' & _). rewrite Hp in Hf. rewrite Hp' in Hf'. injection Hf as ->. injection Hf' as ->.
    pose proof (by_symbol_sorted A T HS) as Hs. apply (sorted_apart _ _ Hs (i - start A (scan T)) (j - start A (scan T))); [lia|done|done].
Qed.

(** More gotos than a [short] can number. *)
Definition many_gotos : Prop := exists l, NoDup l /\ (MAXSHORT < length l)%nat /\ forall p q, (p, q) ∈ l -> delta p (acc q) q /\ isvar q.

Lemma sorted_nodup t : StronglySorted Z.lt (map acc t) -> NoDup t.
Proof.
  induction t as [|a t IH]; cbn [map]; intros Hs; [constructor|]. apply StronglySorted_inv in Hs as [Hs Ha]. constructor; [|by apply IH].
  intros Hin. rewrite Forall_forall in Ha. specialize (Ha (acc a) ltac:(apply list_elem_of_fmap; by exists a)). lia.
Qed.

Lemma scan_nodup T : Forall (fun t => StronglySorted Z.lt (map acc t)) T -> NoDup (scan T).
Proof.
  induction T as [|t T IH] using rev_ind; intros HT; [constructor|]. apply Forall_app in HT as [HT Ht]. apply Forall_cons in Ht as [Ht _].
  rewrite scan_snoc. apply NoDup_app. split; [by apply IH|]. split.
  - intros [p q] Hx Hy. apply elem_of_scan in Hx as [Hx _]. apply list_elem_of_fmap in Hy as (q'' & [= -> ->] & _). lia.
  - unfold gotos_of. apply (NoDup_fmap_2 (pair (length T))), NoDup_filter. apply NoDup_ListNoDup, NoDup_rev, NoDup_ListNoDup. by apply sorted_nodup.
Qed.

Lemma set_goto_map_spec :
  match set_goto_map g s with
  | Ok G => numbering G
  | Fatal msg => msg = "too many gotos"%string /\ many_gotos
  | _ => False
  end.
Proof.
  destruct shift_rows as (T & HT & ES & ET & Hrow). unfold set_goto_map. rewrite ES.
  assert (HS : Forall (fun t => StronglySorted Z.lt (map acc t)) T).
  { apply Forall_lookup. intros p t Ht. rewrite <- (list_lookup_total_correct _ _ _ Ht). apply Hrow. apply lookup_lt_Some in Ht. lia. }
  pose proof (count_gotos_spec T HS) as H. destruct (count_gotos g s (saved_shifts T) 0 ∅) as [[n M]|msg| | |]; cbn [andthen]; try done.
  - destruct H as (-> & HM & Hn). pose proof (go_nsyms g OK) as Hns. pose proof (go_nvars g OK) as Hnv.
    assert (Hall : forall p q, (p, q) ∈ scan T -> ntokens g <= acc q < nsyms g).
    { intros p q (Hp & Hq & Hv)%elem_of_scan. unfold ISVAR in Hv. apply Z.leb_le in Hv. rewrite (go_start g OK) in Hv. destruct (Hrow p ltac:(lia)) as [_ Hq']. specialize (Hq' q Hq). lia. }
    assert (H0 : start (ntokens g) (scan T) = O).
    { unfold start. destruct (filter _ (scan T)) as [|[p q] l] eqn:E; [done|]. exfalso. assert (Hin : (p, q) ∈ filter (fun x => acc x.2 < ntokens g) (scan T)) by (rewrite E; apply list_elem_of_here).
      apply list_elem_of_filter in Hin as [Hlt Hin]. cbn in Hlt. apply Hall in Hin. lia. }
    assert (Hend : start (nsyms g) (scan T) = length (scan T)).
    { unfold start. f_equal. apply filter_whole. intros [p q] Hin. apply Hall in Hin. cbn. lia. }
    set (temp := sum_gotos _ _ _ _ _). assert (Htemp : forall A, map_at temp A = if (ntokens g <=? A) && (A <? nsyms g) then start A (scan T) else 0%nat).
    { intros A. pose proof (sum_gotos_spec (scan T) M HM (Z.to_nat (nsyms g - ntokens g)) (ntokens g) ∅ eq_refl (fun _ _ => eq_refl) A) as Hs. cbn zeta in Hs. rewrite H0 in Hs.
      unfold temp. rewrite Hs. replace (ntokens g + Z.of_nat (Z.to_nat (nsyms g - ntokens g))) with (nsyms g) by lia. done. }
    set (gm := <[nsyms g := length (scan T)]> temp). assert (Hgm : forall A, ntokens g <= A <= nsyms g -> map_at gm A = start A (scan T)).
    { intros A HA. unfold gm. rewrite map_at_insert, Htemp. destruct (Z.eqb_spec (nsyms g) A) as [<-|]; [done|]. by rewrite (proj2 (Z.leb_le _ _)), (proj2 (Z.ltb_lt _ _)) by lia. }
    assert (Hf0 : filled (scan T) [] gm (repeat O (length (scan T))) (repeat O (length (scan T)))).
    { unfold filled. rewrite !repeat_length. split; [done|]. split; [done|]. split; [|intros A k x _ Hk; done]. intros A HA. rewrite Hgm by lia. cbn. lia. }
    destruct (fill_gotos_spec (scan T) T []) with (l := @nil (nat * nat)) (i := O) (temp := gm) (from := repeat O (length (scan T))) (to := repeat O (length (scan T)))
      as (temp' & from' & to' & E & Hf); [|by rewrite app_nil_r|done|].
    + apply Forall_lookup. intros p t Ht. rewrite <- (list_lookup_total_correct _ _ _ Ht). apply lookup_lt_Some in Ht. destruct (Hrow p ltac:(lia)) as [? Hq]. split; [done|].
      apply Forall_forall. intros q Hin. specialize (Hq q Hin). lia.
    + fold (saved_shifts T) in E. unfold saved_shifts. cbn [Nat.add] in E. rewrite E. cbn [app] in Hf. by apply (filled_numbering T temp').
  - destruct H as [-> H]. split; [done|]. exists (scan T). split; [by apply scan_nodup|]. split; [done|]. intros p q (Hp & Hq & Hv)%elem_of_scan. unfold delta. by rewrite ET.
Qed.

(** *** The search *)

Section Search.
Context (G : gotos) (NB : numbering G).

Lemma map_goto_loop_spec p A i : ntokens g <= A < nsyms g -> (map_at (goto_map G) A <= i < map_at (goto_map G) (A + 1))%nat -> from_state G !! i = Some p ->
  forall fuel low high, Z.of_nat (map_at (goto_map G) A) <= low <= Z.of_nat i -> Z.of_nat i <= high <= Z.of_nat (map_at (goto_map G) (A + 1)) -> high - low < Z.of_nat fuel ->
  map_goto_loop G fuel p low high = Ok i.
Proof.
  intros HA Hi Hp fuel. induction fuel as [|fuel IH]; intros low high Hl Hh Hf; [lia|]. cbn [map_goto_loop]. rewrite (proj2 (Z.leb_le _ _)) by lia.
  rewrite Z.shiftr_div_pow2 by lia. change (2 ^ 1) with 2. set (mid := (low + high) / 2). assert (Hm : low <= mid <= high /\ (low < high -> mid < high)) by (unfold mid; zlia).
  clearbody mid. destruct (nb_range G NB A HA) as [_ Hr]. pose proof (nb_from G NB) as Hlen.
  assert (Hmn : (Z.to_nat mid < map_at (goto_map G) (A + 1))%nat) by lia. destruct (lookup_lt_is_Some_2 (from_state G) (Z.to_nat mid) ltac:(lia)) as [x Hx].
  rewrite (list_lookup_total_correct _ _ _ Hx). destruct (Nat.lt_total (Z.to_nat mid) i) as [Hc|[Hc|Hc]].
  - pose proof (nb_sorted G NB A (Z.to_nat mid) i x p HA ltac:(lia) (conj Hc (proj2 Hi)) Hx Hp). rewrite (proj2 (Nat.eqb_neq x p)), (proj2 (Nat.ltb_lt x p)) by lia. apply IH; lia.
  - assert (x = p) as -> by congruence. rewrite Nat.eqb_refl. by f_equal.
  - pose proof (nb_sorted G NB A _ _ _ _ HA (proj1 Hi) (conj Hc Hmn) Hp Hx). rewrite (proj2 (Nat.eqb_neq x p)), (proj2 (Nat.ltb_ge x p)) by lia. apply IH; lia.
Qed.

Lemma var_range A q p : delta p A q -> ISVAR g A = true -> ntokens g <= A < nsyms g.
Proof. intros H Hv. apply delta_range in H as (_ & _ & H). unfold ISVAR in Hv. apply Z.leb_le in Hv. rewrite (go_start g OK) in Hv. lia. Qed.

Lemma map_goto_spec p A q : delta p A q -> ISVAR g A = true ->
  exists i, map_goto G p A = Ok i /\ (i < ngotos G)%nat /\ from_state G !! i = Some p /\ to_state G !! i = Some q /\ acc q = A.
Proof.
  intros Hd Hv. destruct (nb_find G NB p A q Hd Hv) as (i & Hi & Hn & Hp & Hq). exists i. split; [|split; [done|split; [done|split; [done|apply Hd]]]].
  unfold map_goto. apply (map_goto_loop_spec p A i (var_range A q p Hd Hv) Hi Hp); lia.
Qed.

(** The goto of a number is found under it. *)
Lemma goto_unique i j p q : from_state G !! i = Some p -> to_state G !! i = Some q -> from_state G !! j = Some p -> to_state G !! j = Some q -> i = j.
Proof.
  intros Hi Hi' Hj Hj'. pose proof (lookup_lt_Some _ _ _ Hi) as Hl. rewrite (nb_from G NB) in Hl. destruct (nb_goto G NB i Hl) as (p0 & q0 & E1 & E2 & Hd & Hv).
  rewrite Hi in E1. rewrite Hi' in E2. injection E1 as <-. injection E2 as <-. pose proof (var_range _ _ _ Hd (proj1 Hv)) as Hr.
  assert (Hin : forall k, from_state G !! k = Some p -> to_state G !! k = Some q -> (map_at (goto_map G) (acc q) <= k < map_at (goto_map G) (acc q + 1))%nat).
  { intros k Hk Hk'. pose proof (lookup_lt_Some _ _ _ Hk) as Hkl. rewrite (nb_from G NB) in Hkl. destruct (nb_goto G NB k Hkl) as (p0 & q0 & E1 & E2 & _ & _ & H).
    rewrite Hk' in E2. by injection E2 as <-. }
  destruct (Nat.lt_total i j) as [Hc|[Hc|Hc]]; [exfalso|done|exfalso].
  - pose proof (nb_sorted G NB _ i j p p Hr (proj1 (Hin i Hi Hi')) (conj Hc (proj2 (Hin j Hj Hj'))) Hi Hj). lia.
  - pose proof (nb_sorted G NB _ j i p p Hr (proj1 (Hin j Hj Hj')) (conj Hc (proj2 (Hin i Hi Hi'))) Hj Hi). lia.
Qed.
End Search.
End Gotos.
