(* ===== verification/LalrSets.v ===== *)
(** * What the lookaheads are

    The sets that [Lalr.lalr] computes are those of the relations [reads], [includes]
    and [lookback] between the gotos of the automaton. *)

From stdpp Require Import sorting strings.
From S2P Require Import Prelude Warshall Closure Lr0 Digraph Lalr.

(** The arrays [pack_grammar] makes: rule 2 is the only one of [$accept], which no rule
    uses; the rules have their right sides, ended by their numbers, after an end. *)
Record laid_out (g : grammar) : Prop := {
  lo_rule A r : ISVAR g A = true -> r ∈ rules g A -> 2 <= r < nrules g /\ (A <> start_symbol g -> 3 <= r);
  lo_rrhs r : 2 <= r < nrules g -> 1 <= at_ (rrhs g) r;
  lo_lhs r : 2 <= r < nrules g -> ISVAR g (at_ (rlhs g) r) = true;
  lo_unused x : at_ (ritem g) x <> start_symbol g;
  lo_items r : 3 <= r < nrules g -> at_ (ritem g) (at_ (rrhs g) r - 1) < 0 /\
    exists l, drop (Z.to_nat (at_ (rrhs g) r)) (ritem g) = rhs g r ++ - r :: l;
  lo_positive r : 3 <= r < nrules g -> Forall (fun X => 0 < X) (rhs g r);
  lo_ends x y : 0 <= x -> 0 <= y -> at_ (ritem g) x < 0 -> at_ (ritem g) x = at_ (ritem g) y -> x = y;
  lo_symbols : 0 < start_symbol g
}.

Section Sets.
Context (g : grammar) (OK : grammar_ok g) (LO : laid_out g) (s : lr0) (AU : automaton g s).
Abbreviation acc := (accessing_symbol s).
Abbreviation delta := (delta s).

(** ** Items of the states *)

Definition has_item (p : nat) (x : Z) : Prop := exists b I, bodies s !! p = Some b /\ closure_of g b.2 I /\ x ∈ I.

Lemma state_items p : (p < nstates s)%nat -> exists b I, bodies s !! p = Some b /\ closure_of g b.2 I /\
  transitions g s I (shift_table s p) /\ reduction_table s p = redset g I.
Proof.
  intros Hp. destruct (au_rows _ _ AU) as (T & R & HT & HR & ES & ER & Hrow).
  destruct (lookup_lt_is_Some_2 T p ltac:(lia)) as [t Ht], (lookup_lt_is_Some_2 R p ltac:(lia)) as [r Hr].
  destruct (lookup_lt_is_Some_2 (bodies s) p ltac:(by rewrite length_bodies)) as [b Hb].
  destruct (Hrow p t r b Ht Hr Hb) as (I & HI & HT' & ->). exists b, I. split; [done|]. split; [done|].
  unfold shift_table, reduction_table. rewrite ES, ER, saved_shifts_table, saved_reductions_table, (list_lookup_total_correct _ _ _ Ht), (list_lookup_total_correct _ _ _ Hr). done.
Qed.

Lemma has_item_in p x b I : bodies s !! p = Some b -> closure_of g b.2 I -> has_item p x <-> x ∈ I.
Proof.
  intros Hb HI. split; [|intros Hx; by exists b, I]. intros (b' & I' & Hb' & HI' & Hx). rewrite Hb in Hb'. injection Hb' as <-.
  by rewrite (closure_of_unique g _ _ _ HI HI').
Qed.

Lemma transition_acc I X j : transition g s I X j -> acc j = X.
Proof.
  intros [_ Hj]. apply bodies_lookup in Hj as (c & Hc & Ec). unfold accessing_symbol. rewrite list_lookup_fmap, Hc. cbn. unfold body in Ec. by injection Ec.
Qed.

Lemma item_shift p x : has_item p x -> 0 < at_ (ritem g) x -> exists q, delta p (at_ (ritem g) x) q /\ has_item q (x + 1).
Proof.
  intros (b & I & Hb & HI & Hx) Hpos. pose proof (lookup_lt_Some _ _ _ Hb) as Hp. rewrite length_bodies in Hp.
  destruct (state_items p Hp) as (b' & I' & Hb' & HI' & (symbols & _ & Hsym & HF) & _). rewrite Hb in Hb'. injection Hb' as <-.
  rewrite <- (closure_of_unique g _ _ _ HI HI') in *. set (X := at_ (ritem g) x) in *. assert (HX : X ∈ symbols) by (apply Hsym; split; [done|by exists x]).
  apply list_elem_of_lookup in HX as [i Hi]. destruct (Forall2_lookup_l _ _ _ _ _ HF Hi) as (q & Hq & Htr). exists q. split.
  - split; [by eapply list_elem_of_lookup_2|by eapply transition_acc].
  - destruct Htr as [_ Hbq]. destruct (state_items q) as (b2 & I2 & Hb2 & HI2 & _); [apply lookup_lt_Some in Hbq; by rewrite length_bodies in Hbq|].
    rewrite Hbq in Hb2. injection Hb2 as <-. exists (X, goto_items g I X), I2. split; [done|]. split; [done|]. apply (proj2 HI2), closure_nucleus.
    cbn [snd]. apply list_elem_of_fmap. exists x. split; [done|]. by apply list_elem_of_filter.
Qed.

Lemma item_rule p x A r : has_item p x -> at_ (ritem g) x = A -> ISVAR g A = true -> r ∈ rules g A -> has_item p (at_ (rrhs g) r).
Proof.
  intros (b & I & Hb & HI & Hx) <- HA Hr. exists b, I. split; [done|]. split; [done|]. apply (proj2 HI). apply (closure_rule g b.2 x r); [by apply HI|done|done].
Qed.

Lemma item_reduce p x : has_item p x -> at_ (ritem g) x < 0 -> - at_ (ritem g) x ∈ reduction_table s p.
Proof.
  intros (b & I & Hb & HI & Hx) Hneg. pose proof (lookup_lt_Some _ _ _ Hb) as Hp. rewrite length_bodies in Hp.
  destruct (state_items p Hp) as (b' & I' & Hb' & HI' & _ & ->). rewrite Hb in Hb'. injection Hb' as <-. rewrite <- (closure_of_unique g _ _ _ HI HI').
  unfold redset. apply list_elem_of_fmap. exists x. split; [done|]. by apply list_elem_of_filter.
Qed.

Lemma delta_item p X q : delta p X q -> exists x, has_item p x /\ at_ (ritem g) x = X.
Proof.
  intros Hd. pose proof (delta_range g OK s AU _ _ _ Hd) as (Hp & _ & _). destruct Hd as [Hq Hacc].
  destruct (state_items p Hp) as (b & I & Hb & HI & (symbols & _ & Hsym & HF) & _). apply list_elem_of_lookup in Hq as [i Hi].
  destruct (Forall2_lookup_r _ _ _ _ _ HF Hi) as (Y & HY & Htr). apply transition_acc in Htr. subst. apply list_elem_of_lookup_2, Hsym in HY as (_ & x & Hx & Ex).
  exists x. split; [by exists b, I|done].
Qed.

(** ** Paths *)

(** [qs] are the states from [p] by the symbols [w]. *)
Fixpoint runs (p : nat) (w : list Z) (qs : list nat) : Prop :=
  match w, qs with
  | [], [] => True
  | X :: w, q :: qs => delta p X q /\ runs q w qs
  | _, _ => False
  end.
Fixpoint path (p : nat) (w : list Z) (q : nat) : Prop :=
  match w with [] => p = q | X :: w => exists p', delta p X p' /\ path p' w q end.

Lemma runs_length w : forall p qs, runs p w qs -> length qs = length w.
Proof. induction w as [|X w IH]; intros p [|q qs]; cbn; try done. intros [_ H]. f_equal. by eapply IH. Qed.

Lemma runs_path w : forall p qs k, runs p w qs -> (k <= length w)%nat -> path p (take k w) ((p :: qs) !!! k).
Proof.
  induction w as [|X w IH]; intros p [|q qs] k; cbn; try done; intros H Hk.
  - replace k with O by lia. done.
  - destruct H as [Hd H]. destruct k as [|k]; [done|]. cbn. exists q. split; [done|]. apply IH; [done|lia].
Qed.

Lemma path_det w : forall p q q', path p w q -> path p w q' -> q = q'.
Proof.
  induction w as [|X w IH]; intros p q q'; cbn; [by intros -> ->|]. intros (p1 & H1 & H2) (p2 & H3 & H4).
  rewrite (delta_det g OK s AU _ _ _ _ H1 H3) in H2. by eapply IH.
Qed.

Lemma last_start (q : nat) qs : forall p, List.last (q :: qs) p = List.last qs q.
Proof. revert q. induction qs as [|q' qs IH]; intros q p; [done|]. change (List.last (q :: q' :: qs) p) with (List.last (q' :: qs) p). by rewrite !IH. Qed.

(** From an item, the symbols up to the end of its rule. *)
Lemma item_runs w : forall x p r l, has_item p x -> 0 <= x -> drop (Z.to_nat x) (ritem g) = w ++ - r :: l -> Forall (fun X => 0 < X) w -> 0 < r ->
  exists qs, runs p w qs /\ r ∈ reduction_table s (List.last qs p).
Proof.
  induction w as [|X w IH]; intros x p r l Hx Hx0 E Hw Hr.
  - exists []. split; [done|]. cbn. assert (Ex : at_ (ritem g) x = - r).
    { unfold at_. rewrite <- (Nat.add_0_r (Z.to_nat x)), <- nth_skipn. change (@skipn) with (@drop). rewrite E. done. }
    rewrite <- (Z.opp_involutive r), <- Ex. apply item_reduce; [done|lia].
  - apply Forall_cons in Hw as [HX Hw]. assert (Ex : at_ (ritem g) x = X).
    { unfold at_. rewrite <- (Nat.add_0_r (Z.to_nat x)), <- nth_skipn. change (@skipn) with (@drop). rewrite E. done. }
    destruct (item_shift p x Hx ltac:(by rewrite Ex)) as (q & Hd & Hq). rewrite Ex in Hd.
    destruct (IH (x + 1) q r l Hq ltac:(lia)) as (qs & Hrun & Hred); [|done|done|].
    + replace (Z.to_nat (x + 1)) with (Z.to_nat x + 1)%nat by lia. rewrite <- drop_drop, E. done.
    + exists (q :: qs). split; [by split|]. by rewrite last_start.
Qed.

(** The rules of the symbol of a goto. *)
Lemma goto_rule p A q r : delta p A q -> ISVAR g A = true -> r ∈ rules g A ->
  3 <= r < nrules g /\ exists qs, runs p (rhs g r) qs /\ r ∈ reduction_table s (List.last qs p).
Proof.
  intros Hd HA Hr. destruct (delta_item p A q Hd) as (x & Hx & Ex). assert (HAs : A <> start_symbol g) by (intros ->; by apply (lo_unused g LO x)).
  destruct (lo_rule g LO A r HA Hr) as [Hr2 Hr3']. assert (Hr3 : 3 <= r < nrules g) by (specialize (Hr3' HAs); lia). split; [done|].
  destruct (lo_items g LO r Hr3) as (_ & l & E). pose proof (lo_rrhs g LO r Hr2) as H1.
  apply (item_runs (rhs g r) (at_ (rrhs g) r) p r l); [by apply (item_rule p x A)|lia|done|by apply lo_positive|lia].
Qed.

Lemma in_closure_nonneg K x : Forall (fun y => 0 <= y) K -> in_closure g K x -> 0 <= x.
Proof.
  intros HK. induction 1 as [x Hx|x r _ _ Hv Hr]; [exact (proj1 (Forall_forall _ _) HK x Hx)|].
  destruct (lo_rule g LO _ r Hv Hr) as [Hr2 _]. pose proof (lo_rrhs g LO r Hr2). lia.
Qed.

Lemma item_nonneg p x : has_item p x -> 0 <= x.
Proof.
  intros (b & I & Hb & HI & Hx). assert (Hr : reachable g b) by (apply (au_reachable _ _ AU); by exists p).
  assert (HK : Forall (fun y => 0 <= y) b.2).
  { clear Hb HI Hx. induction Hr as [|b b' _ IH (I' & X & HI' & _ & ->)].
    - cbn [snd]. unfold start_items. apply Forall_forall. intros y (r & -> & Hr)%list_elem_of_fmap.
      destruct (lo_rule g LO (start_symbol g) r) as [Hr2 _]; [by apply Z.leb_le|done|]. pose proof (lo_rrhs g LO r Hr2). lia.
    - cbn [snd]. apply Forall_forall. intros y (z & -> & [_ Hz]%list_elem_of_filter)%list_elem_of_fmap. apply (proj2 HI') in Hz. pose proof (in_closure_nonneg _ _ IH Hz). lia. }
  apply (proj2 HI) in Hx. by apply (in_closure_nonneg b.2).
Qed.

Lemma reductions_nodup p : (p < nstates s)%nat -> NoDup (reduction_table s p).
Proof.
  intros Hp. destruct (state_items p Hp) as (b & I & Hb & HI & _ & ->). unfold redset.
  assert (Hn : forall x, x ∈ I -> 0 <= x) by (intros x Hx; apply (item_nonneg p); by exists b, I).
  destruct HI as [HI _]. clear Hb. induction HI as [|x I _ IH Hx]; [constructor|]. rewrite filter_cons.
  assert (IH' : NoDup (map (fun i => - at_ (ritem g) i) (filter (fun i => at_ (ritem g) i < 0) I))) by (apply IH; intros y Hy; apply Hn; by right).
  case_decide as Hneg; [|done]. cbn [map]. constructor; [|done]. intros (y & Ey & [Hyneg Hy]%list_elem_of_filter)%list_elem_of_fmap.
  assert (x = y) by (apply (lo_ends g LO); [apply Hn, list_elem_of_here|apply Hn; by right|done|lia]). subst y. rewrite Forall_forall in Hx. specialize (Hx x Hy). lia.
Qed.

(** ** The numbers of the lookaheads *)

Lemma set_LAruleno_app n k : forall i, set_LAruleno s (n + k) i = set_LAruleno s n i ++ set_LAruleno s k (i + n).
Proof.
  induction n as [|n IH]; intros i; cbn [Nat.add set_LAruleno app]; [by rewrite Nat.add_0_r|]. rewrite IH, app_assoc. by replace (S i + n)%nat with (i + S n)%nat by lia.
Qed.
Lemma set_lookaheads_lookup n : forall i k j, (j <= n)%nat -> set_lookaheads s n i k !!! j = (k + length (set_LAruleno s j i))%nat.
Proof.
  induction n as [|n IH]; intros i k j Hj; cbn [set_lookaheads]; (destruct j as [|j]; [cbn; lia|]); [lia|].
  change ((k :: ?l) !!! S j) with (l !!! j). rewrite IH by lia. cbn [set_LAruleno]. rewrite length_app. lia.
Qed.

(** The numbers of the reductions of the state [p]. *)
Abbreviation first_la p := (lookaheads s !!! p).
Lemma lookaheads_at p : (p <= nstates s)%nat -> first_la p = length (set_LAruleno s p 0).
Proof. intros Hp. unfold lookaheads. by rewrite set_lookaheads_lookup. Qed.

Lemma lookaheads_next p : (p < nstates s)%nat -> first_la (S p) = (first_la p + length (reduction_table s p))%nat.
Proof.
  intros Hp. rewrite !lookaheads_at by lia. rewrite <- Nat.add_1_r, set_LAruleno_app, length_app. cbn [set_LAruleno]. by rewrite app_nil_r.
Qed.

Lemma LAruleno_at p j : (p < nstates s)%nat -> (j < length (reduction_table s p))%nat -> LAruleno s !! (first_la p + j)%nat = reduction_table s p !! j.
Proof.
  intros Hp Hj. unfold LAruleno. replace (nstates s) with (p + (1 + (nstates s - p - 1)))%nat at 1 by lia. rewrite set_LAruleno_app, lookaheads_at by lia.
  rewrite lookup_app_r by lia. replace (length _ + j - length _)%nat with j by lia. cbn [Nat.add set_LAruleno]. by rewrite lookup_app_l.
Qed.

Lemma lookaheads_total : first_la (nstates s) = length (LAruleno s).
Proof. by rewrite lookaheads_at. Qed.

Lemma lookaheads_mono p q : (p <= q <= nstates s)%nat -> (first_la p <= first_la q)%nat.
Proof.
  intros [Hpq Hq]. induction Hpq as [|q Hpq IH]; [done|]. specialize (IH ltac:(lia)). rewrite lookaheads_next by lia. lia.
Qed.

(** The reduction of a state by a rule has one number. *)
Lemma lookahead_number p r : (p < nstates s)%nat -> r ∈ reduction_table s p ->
  exists k, (first_la p <= k < first_la (S p))%nat /\ LAruleno s !!! k = r /\ forall k', (first_la p <= k' < first_la (S p))%nat -> LAruleno s !!! k' = r -> k' = k.
Proof.
  intros Hp [j Hj]%list_elem_of_lookup. pose proof (lookup_lt_Some _ _ _ Hj) as Hlt. exists (first_la p + j)%nat. rewrite lookaheads_next by done. split; [lia|]. split.
  - apply list_lookup_total_correct. by rewrite LAruleno_at.
  - intros k' Hk' E. destruct (lookup_lt_is_Some_2 (reduction_table s p) (k' - first_la p)%nat ltac:(lia)) as [r' Hr'].
    assert (E' : LAruleno s !!! k' = r') by (apply list_lookup_total_correct; rewrite <- Hr', <- LAruleno_at by lia; f_equal; lia). rewrite E in E'. subst r'.
    pose proof (NoDup_lookup _ _ _ _ (reductions_nodup p Hp) Hj Hr'). lia.
Qed.

Lemma find_lookahead_spec n i k r : (i <= k < i + n)%nat -> LAruleno s !!! k = r -> (forall k', (i <= k' < i + n)%nat -> LAruleno s !!! k' = r -> k' = k) -> find_lookahead s n i r = Some k.
Proof.
  revert i. induction n as [|n IH]; intros i Hk Er Hu; [lia|]. cbn [find_lookahead]. destruct (Z.eqb_spec (LAruleno s !!! i) r) as [E|E].
  - f_equal. apply Hu; [lia|done].
  - assert (i <> k) by congruence. apply IH; [lia|done|]. intros k' Hk' E'. apply Hu; [lia|done].
Qed.

(** ** The walks of [build_relations] *)

Lemma find_shift_in l X : forall st, (exists q, q ∈ l /\ acc q = X) -> find_shift s l X st ∈ l /\ acc (find_shift s l X st) = X.
Proof.
  induction l as [|k l IH]; intros st (q & Hq & E); [by apply not_elem_of_nil in Hq|]. cbn [find_shift]. destruct (Z.eqb_spec (acc k) X) as [Ek|Ek]; [split; [apply list_elem_of_here|done]|].
  apply elem_of_cons in Hq as [->|Hq]; [done|]. destruct (IH k) as [H1 H2]; [by exists q|]. split; [by right|done].
Qed.
Lemma find_shift_delta p X q st : delta p X q -> find_shift s (shift_table s p) X st = q.
Proof.
  intros Hd. destruct (find_shift_in (shift_table s p) X st) as [H1 H2]; [by exists q; destruct Hd|]. eapply (delta_det g OK s AU); [|exact Hd]. by split.
Qed.

Lemma follow_rule_spec w r l : 0 < r -> Forall (fun X => 0 < X) w -> forall p qs states rp, runs p w qs ->
  follow_rule s (w ++ - r :: l) states p rp = (states ++ qs, List.last qs p, rp + Z.of_nat (length w)).
Proof.
  intros Hr. induction 1 as [|X w HX _ IH]; intros p [|q qs] states rp; cbn [runs app follow_rule]; try done.
  - intros _. rewrite (proj2 (Z.leb_gt _ _)) by lia. rewrite app_nil_r. cbn [length]. by replace (rp + Z.of_nat 0) with rp by lia.
  - intros [Hd H]. rewrite (proj2 (Z.leb_le _ _)) by lia. rewrite (find_shift_delta p X q p Hd), (IH q qs) by done. rewrite <- app_assoc, last_start.
    cbn [app length]. f_equal. lia.
Qed.

(** ** The relations between the gotos *)

Section Gotos.
Context (N : gset Z) (HN : forall X, X ∈ N <-> derives_empty g X) (G : gotos) (NB : numbering g s G).

(** The goto [i] is that of [p] by [X]. *)
Definition is_goto (i p : nat) (X : Z) : Prop := exists q, from_state G !! i = Some p /\ to_state G !! i = Some q /\ acc q = X.

Lemma is_goto_lt i p X : is_goto i p X -> (i < ngotos G)%nat.
Proof. intros (q & H & _). apply lookup_lt_Some in H. by rewrite (nb_from _ _ _ NB) in H. Qed.

Lemma nullable_var X : X ∈ N -> ISVAR g X = true.
Proof. intros H%HN. destruct H as [r Hr _]. unfold all_rules in Hr. apply elem_of_seqZ in Hr. apply (lo_lhs g LO). lia. Qed.

(** *** [includes] *)

(** The places in [w] of the variables with only nullable symbols behind them, the last one first, up to [l]. *)
Fixpoint back_places (w : list Z) (l : nat) : list nat :=
  match l with
  | O => []
  | S k => if ISVAR g (w !!! k) then k :: (if bool_decide (w !!! k ∈ N) then back_places w k else []) else []
  end.

Lemma back_places_spec w l : forall k, k ∈ back_places w l <-> (k < l)%nat /\ ISVAR g (w !!! k) = true /\ forall j, (k < j < l)%nat -> w !!! j ∈ N.
Proof.
  induction l as [|l IH]; intros k; cbn [back_places]; [split; [intros H; by apply not_elem_of_nil in H|lia]|].
  destruct (ISVAR g (w !!! l)) eqn:Ev.
  - rewrite elem_of_cons. destruct (bool_decide_reflect (w !!! l ∈ N)) as [Hn|Hn].
    + rewrite IH. split.
      * intros [->|(H1 & H2 & H3)]; [split; [lia|split; [done|lia]]|]. split; [lia|]. split; [done|]. intros j Hj. destruct (decide (j = l)) as [->|]; [done|]. apply H3. lia.
      * intros (H1 & H2 & H3). destruct (decide (k = l)) as [->|]; [by left|right]. split; [lia|]. split; [done|]. intros j Hj. apply H3. lia.
    + split; [intros [->|H]; [split; [lia|split; [done|lia]]|by apply not_elem_of_nil in H]|]. intros (H1 & _ & H3).
      destruct (decide (k = l)) as [->|]; [by left|]. destruct Hn. apply H3. lia.
  - split; [intros H; by apply not_elem_of_nil in H|]. intros (H1 & H2 & H3). destruct (decide (k = l)) as [->|]; [congruence|].
    specialize (H3 l ltac:(lia)). apply nullable_var in H3. congruence.
Qed.

Lemma back_places_nodup w l : NoDup (back_places w l).
Proof.
  induction l as [|l IH]; cbn [back_places]; [constructor|]. destruct (ISVAR g (w !!! l)); [|constructor]. constructor.
  - destruct (bool_decide _); [|apply not_elem_of_nil]. intros H. apply back_places_spec in H. lia.
  - by destruct (bool_decide _); [|constructor].
Qed.

(** [add_edge] has room for one more than [ngotos]. *)
Definition room (edge : list nat) (n : nat) : Prop := (length edge + n <= S (ngotos G))%nat.

Lemma runs_delta w : forall p qs k, runs p w qs -> (k < length w)%nat -> delta ((p :: qs) !!! k) (w !!! k) ((p :: qs) !!! S k).
Proof.
  induction w as [|X w IH]; intros p [|q qs] k; cbn [runs length]; try done; try lia. intros [Hd H] Hk. destruct k as [|k]; [exact Hd|]. apply (IH q qs k); [done|lia].
Qed.

Lemma back_loop_spec p w qs rp0 : runs p w qs -> (forall k, (k < length w)%nat -> at_ (ritem g) (rp0 + Z.of_nat k) = w !!! k) -> at_ (ritem g) (rp0 - 1) < 0 ->
  forall l edge, (l <= length w)%nat -> room edge 0 ->
  match back_loop g N G l (rp0 + Z.of_nat l) (p :: qs) edge with
  | Ok edge' => room edge (length (back_places w l)) /\ exists new, edge' = edge ++ new /\ Forall2 (fun k y => is_goto y ((p :: qs) !!! k) (w !!! k)) (back_places w l) new
  | Overrun => ~ room edge (length (back_places w l))
  | _ => False
  end.
Proof.
  intros Hrun Hw Hend l. induction l as [|l IH]; intros edge Hl Hroom.
  - cbn [back_loop back_places length]. replace (rp0 + Z.of_nat 0 - 1) with (rp0 - 1) by lia. unfold ISVAR. pose proof (lo_symbols g LO).
    rewrite (proj2 (Z.leb_gt _ _)) by lia. split; [done|]. exists []. split; [by rewrite app_nil_r|constructor].
  - cbn [back_loop back_places]. replace (rp0 + Z.of_nat (S l) - 1) with (rp0 + Z.of_nat l) by lia. rewrite Hw by lia. destruct (ISVAR g (w !!! l)) eqn:Ev.
    2: { split; [done|]. exists []. split; [by rewrite app_nil_r|constructor]. }
    destruct (map_goto_spec g OK s AU G NB _ _ _ (runs_delta w p qs l Hrun ltac:(lia)) Ev) as (y & Ey & Hy & Hf & Ht & Ha).
    rewrite Ey. cbn [andthen]. assert (Hg : is_goto y ((p :: qs) !!! l) (w !!! l)) by (by exists ((p :: qs) !!! S l)). unfold add_edge, room in *.
    destruct (Nat.leb_spec (S (ngotos G)) (length edge)) as [Hfull|Hfree]; cbn [andthen length]; [lia|].
    destruct (bool_decide_reflect (w !!! l ∈ N)) as [Hn|Hn]; cbn [andb].
    2: { split; [cbn; lia|]. exists [y]. split; [done|]. repeat constructor. done. }
    destruct (Nat.ltb_spec 0 l) as [Hl0|Hl0].
    2: { assert (l = O) as -> by lia. cbn [back_places length]. split; [lia|]. exists [y]. split; [done|]. repeat constructor. done. }
    specialize (IH (edge ++ [y]) ltac:(lia) ltac:(rewrite length_app; cbn [length]; lia)). rewrite length_app in IH. cbn [length] in IH.
    destruct (back_loop g N G l (rp0 + Z.of_nat l) (p :: qs) (edge ++ [y])) as [edge'|msg| | |]; try done; [|lia].
    destruct IH as (IH1 & new & -> & IH2). split; [lia|]. exists (y :: new). split; [by rewrite <- app_assoc|]. by constructor.
Qed.

(** A rule of the symbol of a goto, and a place in its right side. *)
Definition places (r : Z) : list (Z * nat) := map (pair r) (back_places (rhs g r) (length (rhs g r))).
Definition all_places (rs : list Z) : list (Z * nat) := concat (map places rs).
Definition place_goto (p : nat) (x : Z * nat) (y : nat) : Prop := exists qs, runs p (rhs g x.1) qs /\ is_goto y ((p :: qs) !!! x.2) (rhs g x.1 !!! x.2).

(** *** [lookback] *)

(** The reduction by [r] after its right side from [p] has the number [k]. *)
Definition reduces_at (k : nat) (r : Z) (p : nat) : Prop :=
  exists q, path p (rhs g r) q /\ (first_la q <= k < first_la (S q))%nat /\ LAruleno s !!! k = r.
Definition looks (lb : gmap nat (list nat)) (k i : nat) : Prop := i ∈ default [] (lb !! k).

Lemma runs_last p w qs : runs p w qs -> path p w (List.last qs p).
Proof. revert p qs. induction w as [|X w IH]; intros p [|q qs]; cbn [runs path]; try done. intros [Hd H]. exists q. split; [done|]. rewrite last_start. by apply IH. Qed.
Lemma delta_path_range p w q : (p < nstates s)%nat -> path p w q -> (q < nstates s)%nat.
Proof. revert p. induction w as [|X w IH]; intros p Hp; cbn [path]; [congruence|]. intros (p' & Hd & H). apply (IH p'); [|done]. by apply (delta_range g OK s AU) in Hd as (_ & ? & _). Qed.

Lemma add_lookback_edge_spec p r qs i lb : (p < nstates s)%nat -> runs p (rhs g r) qs -> r ∈ reduction_table s (List.last qs p) ->
  exists lb', add_lookback_edge s (List.last qs p) r i lb = Ok lb' /\ forall k x, looks lb' k x <-> looks lb k x \/ (x = i /\ reduces_at k r p).
Proof.
  intros Hp Hrun Hr. pose proof (runs_last p _ _ Hrun) as Hpath. pose proof (delta_path_range _ _ _ Hp Hpath) as Hq. set (q := List.last qs p) in *.
  destruct (lookahead_number q r Hq Hr) as (k & Hk & Ek & Hu). unfold add_lookback_edge.
  rewrite (find_lookahead_spec _ _ k r); [|lia|done|intros k' Hk'; apply Hu; lia]. eexists. split; [reflexivity|]. intros k' x. unfold looks.
  assert (Hat : reduces_at k' r p <-> k' = k).
  { split; [|intros ->; by exists q]. intros (q' & Hq' & Hk' & Ek'). rewrite (path_det _ _ _ _ Hq' Hpath) in Hk'. by apply Hu. }
  destruct (decide (k' = k)) as [->|Hne]; [rewrite lookup_insert_eq; cbn; rewrite elem_of_cons|rewrite lookup_insert_ne by done]; tauto.
Qed.

(** *** The loops *)

Lemma rules_loop_spec i p A q0 rest : delta p A q0 -> ISVAR g A = true -> forall rs edge lb, (forall r, r ∈ rs -> r ∈ rules g A) -> room edge 0 ->
  match rules_loop g N s G (rs ++ -1 :: rest) i p edge lb with
  | Ok (edge', lb') => room edge (length (all_places rs)) /\ (exists new, edge' = edge ++ new /\ Forall2 (place_goto p) (all_places rs) new) /\
      forall k x, looks lb' k x <-> looks lb k x \/ (x = i /\ exists r, r ∈ rs /\ reduces_at k r p)
  | Overrun => ~ room edge (length (all_places rs))
  | _ => False
  end.
Proof.
  intros Hd HA rs. induction rs as [|r rs IH]; intros edge lb Hrs Hroom; cbn [app rules_loop].
  - change (0 <=? -1) with false. split; [done|]. split; [exists []; split; [by rewrite app_nil_r|constructor]|]. intros k x. split; [by left|]. intros [?|(_ & r & Hr & _)]; [done|by apply not_elem_of_nil in Hr].
  - destruct (goto_rule p A q0 r Hd HA (Hrs r (list_elem_of_here _ _))) as (Hr3 & qs & Hrun & Hred). rewrite (proj2 (Z.leb_le _ _)) by lia.
    destruct (lo_items g LO r Hr3) as (Hend & l & El). pose proof (lo_rrhs g LO r ltac:(lia)) as Hrr. rewrite El, (follow_rule_spec (rhs g r) r l ltac:(lia) (lo_positive g LO r Hr3) p qs _ _ Hrun).
    pose proof (delta_range g OK s AU _ _ _ Hd) as (Hp & _). destruct (add_lookback_edge_spec p r qs i lb Hp Hrun Hred) as (lb1 & -> & Hlb1). cbn [andthen].
    replace (length ([p] ++ qs) - 1)%nat with (length (rhs g r)) by (cbn; rewrite (runs_length _ _ _ Hrun); lia). change ([p] ++ qs) with (p :: qs).
    assert (Hcell : forall k, (k < length (rhs g r))%nat -> at_ (ritem g) (at_ (rrhs g) r + Z.of_nat k) = rhs g r !!! k).
    { intros k Hk. unfold at_ at 1. replace (Z.to_nat (at_ (rrhs g) r + Z.of_nat k)) with (Z.to_nat (at_ (rrhs g) r) + k)%nat by lia.
      rewrite <- nth_skipn. change (@skipn) with (@drop). rewrite El. rewrite app_nth1 by done. destruct (lookup_lt_is_Some_2 _ _ Hk) as [X HX].
      rewrite (list_lookup_total_correct _ _ _ HX). by apply nth_lookup_Some. }
    pose proof (back_loop_spec p (rhs g r) qs (at_ (rrhs g) r) Hrun Hcell Hend (length (rhs g r)) edge (le_n _) Hroom) as Hb.
    assert (Hlen : length (all_places (r :: rs)) = (length (back_places (rhs g r) (length (rhs g r))) + length (all_places rs))%nat).
    { unfold all_places. cbn [map concat]. rewrite length_app. unfold places at 1. by rewrite length_map. }
    destruct (back_loop g N G (length (rhs g r)) _ (p :: qs) edge) as [edge1|msg| | |]; cbn [andthen]; try done; [|unfold room in *; lia].
    destruct Hb as (Hroom1 & new1 & -> & Hnew1). assert (Hl1 : length new1 = length (back_places (rhs g r) (length (rhs g r)))) by (symmetry; by eapply Forall2_length).
    specialize (IH (edge ++ new1) lb1 (fun r' Hr' => Hrs r' (list_elem_of_further _ _ _ Hr'))). unfold room in *. rewrite length_app in IH. specialize (IH ltac:(lia)).
    destruct (rules_loop g N s G (rs ++ -1 :: rest) i p (edge ++ new1) lb1) as [[edge' lb']|msg| | |]; try done; [|lia].
    destruct IH as (IH1 & (new & -> & IH2) & IH3). split; [lia|]. split.
    + exists (new1 ++ new). split; [by rewrite app_assoc|]. unfold all_places. cbn [map concat]. apply Forall2_app; [|exact IH2]. unfold places. apply Forall2_fmap_l.
      eapply Forall2_impl; [exact Hnew1|]. intros k y Hy. by exists qs.
    + intros k x. rewrite IH3, Hlb1. split.
      * intros [[?|[-> H]]|(-> & r' & Hr' & H)]; [by left|right; split; [done|]; exists r; split; [apply list_elem_of_here|done]|right; split; [done|]; exists r'; split; [by right|done]].
      * intros [?|(-> & r' & [->|Hr']%elem_of_cons & H)]; [tauto|tauto|]. right. split; [done|]. by exists r'.
Qed.

Lemma derives_listed A : derives g A = rules g A ++ -1 :: [].
Proof. unfold derives, rules. rewrite rules_of_filter, Z2Nat.id; [done|apply (go_nrules g OK)]. Qed.

(** [i] is a goto of [p] by [A], [j] of [p'] by [B], and a rule of [A] has [B] after a path
    from [p] to [p'], followed by nullable symbols only: [j] includes [i]. *)
Definition includes (j i : nat) : Prop := exists p A p' B r u v, is_goto i p A /\ is_goto j p' B /\ ISVAR g B = true /\
  r ∈ rules g A /\ rhs g r = u ++ B :: v /\ path p u p' /\ Forall (derives_empty g) v.

Lemma is_goto_acc i p A : is_goto i p A -> from_state G !!! i = p /\ acc (to_state G !!! i) = A.
Proof. intros (q & Hf & Ht & Ha). by rewrite (list_lookup_total_correct _ _ _ Hf), (list_lookup_total_correct _ _ _ Ht). Qed.

Lemma places_includes i p A l : is_goto i p A -> Forall2 (place_goto p) (all_places (rules g A)) l -> forall j, j ∈ l <-> includes j i.
Proof.
  intros Hi HF j. split.
  - intros [n Hn]%list_elem_of_lookup. destruct (Forall2_lookup_r _ _ _ _ _ HF Hn) as ([r k] & Hrk & qs & Hrun & Hj). cbn [fst snd] in *.
    apply list_elem_of_lookup_2 in Hrk. unfold all_places in Hrk. apply list_elem_of_In, in_concat in Hrk as (pl & Hpl & Hin). apply in_map_iff in Hpl as (r' & <- & Hr).
    apply list_elem_of_In in Hin, Hr. unfold places in Hin. apply list_elem_of_fmap in Hin as (k' & [= -> ->] & Hk). apply back_places_spec in Hk as (Hk & Hv & Hnull).
    set (w := rhs g r') in *. destruct (lookup_lt_is_Some_2 w k' Hk) as [B HB]. rewrite (list_lookup_total_correct _ _ _ HB) in *.
    exists p, A, ((p :: qs) !!! k'), B, r', (take k' w), (drop (S k') w). split_and!; try done.
    + symmetry. by apply take_drop_middle.
    + apply runs_path; [done|lia].
    + apply Forall_lookup. intros n' X HX. rewrite lookup_drop in HX. apply HN. rewrite <- (list_lookup_total_correct _ _ _ HX). apply Hnull.
      apply lookup_lt_Some in HX. lia.
  - intros (p0 & A0 & p' & B & r & u & v & Hi' & Hj & HB & Hr & Ew & Hu & Hv). destruct (is_goto_acc _ _ _ Hi) as [E1 E2], (is_goto_acc _ _ _ Hi') as [E3 E4].
    assert (p0 = p) as -> by congruence. assert (A0 = A) as -> by congruence. clear E1 E2 E3 E4.
    assert (Hin : (r, length u) ∈ all_places (rules g A)).
    { unfold all_places. apply list_elem_of_In, in_concat. exists (places r). split; [apply in_map_iff; exists r; split; [done|by apply list_elem_of_In]|].
      apply list_elem_of_In. unfold places. apply list_elem_of_fmap. exists (length u). split; [done|]. apply back_places_spec. rewrite Ew, length_app. cbn [length].
      split; [lia|]. rewrite list_lookup_total_middle by done. split; [done|]. intros n Hn. apply HN. rewrite lookup_total_app_r by lia.
      replace (n - length u)%nat with (S (n - length u - 1)) by lia. change ((B :: v) !!! S ?m) with (v !!! m). destruct (lookup_lt_is_Some_2 v (n - length u - 1)%nat ltac:(lia)) as [X HX].
      rewrite (list_lookup_total_correct _ _ _ HX). rewrite Forall_forall in Hv. apply Hv. by eapply list_elem_of_lookup_2. }
    apply list_elem_of_lookup in Hin as [n Hn]. destruct (Forall2_lookup_l _ _ _ _ _ HF Hn) as (y & Hy & qs & Hrun & Hgy). cbn [fst snd] in *.
    replace j with y; [by eapply list_elem_of_lookup_2|]. rewrite Ew in Hgy. rewrite list_lookup_total_middle in Hgy by done.
    pose proof (runs_path _ _ _ (length u) Hrun) as Hp. rewrite Ew, take_app_length, length_app in Hp. cbn [length] in Hp. specialize (Hp ltac:(lia)).
    rewrite (path_det _ _ _ _ Hp Hu) in Hgy. destruct Hgy as (q & F1 & T1 & A1), Hj as (q' & F2 & T2 & A2).
    apply (goto_unique g OK s AU G NB y j p' q); [done|done|done|]. rewrite T2. f_equal. destruct (nb_goto _ _ _ NB y) as (p1 & q1 & F3 & T3 & D3 & _); [apply lookup_lt_Some in F1; by rewrite <- (nb_from _ _ _ NB)|].
    destruct (nb_goto _ _ _ NB j) as (p2 & q2 & F4 & T4 & D4 & _); [apply lookup_lt_Some in F2; by rewrite <- (nb_from _ _ _ NB)|].
    rewrite F1 in F3. rewrite T1 in T3. rewrite F2 in F4. rewrite T2 in T4. injection F3 as <-. injection T3 as <-. injection F4 as <-. injection T4 as <-.
    rewrite A1 in D3. rewrite A2 in D4. apply (delta_det g OK s AU p' B); done.
Qed.

(** A goto with more inclusions than [edge] has cells. *)
Definition many_includes : Prop := exists i p A, is_goto i p A /\ (S (ngotos G) < length (all_places (rules g A)))%nat.

Definition lookback_at (k i : nat) : Prop := exists p A r, is_goto i p A /\ r ∈ rules g A /\ reduces_at k r p.

Lemma relations_loop_spec n : forall i incl lb, (n + i = ngotos G)%nat -> length incl = i -> (forall x j, (x < i)%nat -> j ∈ incl !!! x <-> includes j x) ->
  (forall k x, looks lb k x <-> (x < i)%nat /\ lookback_at k x) ->
  match relations_loop g N s G n i incl lb with
  | Ok (incl', lb') => length incl' = ngotos G /\ (forall x j, (x < ngotos G)%nat -> j ∈ incl' !!! x <-> includes j x) /\ (forall k x, looks lb' k x <-> lookback_at k x)
  | Overrun => many_includes
  | _ => False
  end.
Proof.
  induction n as [|n IH]; intros i incl lb Hn Hlen Hincl Hlb; cbn [relations_loop].
  - split; [lia|]. split; [intros x j Hx; apply Hincl; lia|]. intros k x. rewrite Hlb. split; [tauto|]. intros H. split; [|done].
    destruct H as (p & A & r & Hg & _). apply is_goto_lt in Hg. lia.
  - destruct (nb_goto _ _ _ NB i ltac:(lia)) as (p & q & Hf & Ht & Hd & Hv & _). rewrite (list_lookup_total_correct _ _ _ Hf), (list_lookup_total_correct _ _ _ Ht), derives_listed.
    assert (Hg : is_goto i p (acc q)) by (by exists q). assert (Hall : forall p' A', is_goto i p' A' -> p' = p /\ A' = acc q).
    { intros p' A' H. destruct (is_goto_acc _ _ _ H), (is_goto_acc _ _ _ Hg). split; congruence. }
    pose proof (rules_loop_spec i p (acc q) q [] Hd Hv (rules g (acc q)) [] lb (fun r Hr => Hr) ltac:(unfold room; cbn; lia)) as H.
    destruct (rules_loop g N s G (rules g (acc q) ++ [-1]) i p [] lb) as [[edge lb1]|msg| | |]; cbn [andthen]; try done.
    + destruct H as (_ & (new & -> & HF) & Hlb1). apply IH; [lia|rewrite length_app, Hlen; cbn; lia| |].
      * intros x j Hx. destruct (decide (x = i)) as [->|Hne]; [|rewrite lookup_total_app_l by lia; apply Hincl; lia]. rewrite <- Hlen, list_lookup_total_middle by done. rewrite Hlen. by apply (places_includes i p (acc q)).
      * intros k x. rewrite Hlb1, Hlb. split.
        -- intros [[Hx H]|(-> & r & Hr & H)]; [split; [lia|done]|]. split; [lia|]. exists p, (acc q), r. done.
        -- intros [Hx H]. destruct (decide (x = i)) as [->|Hne]; [right|left; split; [lia|done]]. split; [done|]. destruct H as (p' & A' & r & Hg' & Hr & Hat). destruct (Hall _ _ Hg') as [-> ->]. by exists r.
    + exists i, p, (acc q). split; [done|]. unfold room in H. cbn [length] in H. lia.
Qed.

(** *** The transposed relation *)

Lemma transpose_row_spec sp i : forall M j x, looks (transpose_row sp i M) j x <-> looks M j x \/ (x = i /\ j ∈ sp).
Proof.
  induction sp as [|y sp IH]; intros M j x; cbn [transpose_row]; [split; [by left|]; intros [?|[_ H]]; [done|by apply not_elem_of_nil in H]|].
  rewrite IH, elem_of_cons. unfold looks. destruct (decide (y = j)) as [->|Hne].
  - rewrite lookup_insert_eq. cbn [default from_option id]. rewrite elem_of_app, list_elem_of_singleton. tauto.
  - rewrite lookup_insert_ne by done. intuition congruence.
Qed.
Lemma transpose_loop_spec R : forall i M j x, looks (transpose_loop R i M) j x <-> looks M j x \/ (exists k, x = (i + k)%nat /\ (k < length R)%nat /\ j ∈ R !!! k).
Proof.
  induction R as [|sp R IH]; intros i M j x; cbn [transpose_loop]; [split; [by left|]; intros [?|(k & _ & H & _)]; [done|cbn in H; lia]|].
  rewrite IH, transpose_row_spec. split.
  - intros [[?|[-> Hj]]|(k & -> & Hk & Hj)]; [by left|right; exists O; cbn; split; [lia|split; [lia|done]]|right; exists (S k); cbn; split; [lia|split; [lia|done]]].
  - intros [?|(k & -> & Hk & Hj)]; [tauto|]. destruct k as [|k]; [left; right; split; [lia|done]|right; exists k; cbn in Hk; split; [lia|split; [lia|done]]].
Qed.

Lemma transpose_spec R i x : (i < ngotos G)%nat -> x ∈ transpose G R !!! i <-> (x < length R)%nat /\ i ∈ R !!! x.
Proof.
  intros Hi. unfold transpose. assert (E : map (fun i => default [] (transpose_loop R 0 ∅ !! i)) (seq 0 (ngotos G)) !!! i = default [] (transpose_loop R 0 ∅ !! i)).
  { apply list_lookup_total_correct. rewrite list_lookup_fmap, lookup_seq_lt by done. done. }
  rewrite E. fold (looks (transpose_loop R 0 ∅) i x). rewrite transpose_loop_spec. unfold looks at 1. rewrite lookup_empty. cbn [default from_option]. split.
  - intros [H|(k & -> & Hk & Hj)]; [by apply not_elem_of_nil in H|done].
  - intros [Hx Hj]. right. by exists x.
Qed.

(** *** [reads] *)

(** After the goto [i], the token [t] can be shifted; [$end] comes after the first goto. *)
Definition directly_reads (i : nat) (t : Z) : Prop := (exists q r, to_state G !! i = Some q /\ delta q t r /\ ISTOKEN g t = true) \/ (i = O /\ t = 0).
(** The goto [j] is one of the state after [i], by a nullable variable. *)
Definition reads (i j : nat) : Prop := exists q X, to_state G !! i = Some q /\ is_goto j q X /\ derives_empty g X.

Lemma tokens_first l : StronglySorted Z.lt (map acc l) -> exists ts vs, l = ts ++ vs /\ Forall (fun q => ISVAR g (acc q) = false) ts /\ Forall (fun q => ISVAR g (acc q) = true) vs.
Proof.
  induction l as [|a l IH]; cbn [map]; intros Hs; [by exists [], []|]. pose proof Hs as Hs0. apply StronglySorted_inv in Hs as [Hs Ha]. destruct (ISVAR g (acc a)) eqn:E.
  - exists [], (a :: l). split; [done|]. split; [constructor|]. constructor; [done|]. apply Forall_forall. intros q Hq. rewrite Forall_forall in Ha.
    specialize (Ha (acc q) ltac:(apply list_elem_of_fmap; by exists q)). unfold ISVAR in *. apply Z.leb_le in E. apply Z.leb_le. lia.
  - destruct (IH Hs) as (ts & vs & -> & Ht & Hv). exists (a :: ts), vs. split; [done|]. split; [by constructor|done].
Qed.

Lemma read_tokens_spec ts vs rowp m : Forall (fun q => ISVAR g (acc q) = false) ts -> Forall (fun q => ISVAR g (acc q) = true) vs ->
  read_tokens g s (ts ++ vs) rowp m = (vs, set_bits rowp (map acc ts) m).
Proof.
  intros Ht Hv. revert m. induction Ht as [|q ts Hq _ IH]; intros m; cbn [app read_tokens map].
  - destruct Hv as [|q vs Hq _]; cbn [read_tokens]; [done|]. by rewrite Hq.
  - rewrite Hq. apply IH.
Qed.

Lemma shift_sorted p : (p < nstates s)%nat -> StronglySorted Z.lt (map acc (shift_table s p)).
Proof. intros Hp. destruct (shift_rows g OK s AU) as (T & _ & _ & E & H). rewrite E. by apply H. Qed.

Lemma distinct_gotos p ks edge : Forall2 (fun k y => from_state G !! y = Some p /\ to_state G !! y = Some k) ks edge -> NoDup ks -> NoDup edge /\ (length edge <= ngotos G)%nat.
Proof.
  intros HF Hnd. assert (Hn : NoDup edge).
  { induction HF as [|k y ks edge [_ Hy] HF IH]; [constructor|]. apply NoDup_cons in Hnd as [Hk Hnd]. constructor; [|by apply IH]. intros [n Hn]%list_elem_of_lookup.
    destruct (Forall2_lookup_r _ _ _ _ _ HF Hn) as (k' & Hk' & _ & Hy'). rewrite Hy in Hy'. injection Hy' as <-. apply Hk. by eapply list_elem_of_lookup_2. }
  split; [done|]. rewrite <- (length_seq (ngotos G) 0). apply submseteq_length, NoDup_submseteq; [done|]. intros y [n Hy]%list_elem_of_lookup.
  destruct (Forall2_lookup_r _ _ _ _ _ HF Hy) as (k & _ & Hf & _). apply lookup_lt_Some in Hf. rewrite (nb_from _ _ _ NB) in Hf. apply elem_of_seq. lia.
Qed.

Lemma read_nullables_spec p sp : (forall q, q ∈ sp -> delta p (acc q) q) -> forall ks edge, NoDup (ks ++ sp) ->
  Forall2 (fun k y => from_state G !! y = Some p /\ to_state G !! y = Some k) ks edge ->
  exists new, read_nullables N s G p sp edge = Ok (edge ++ new) /\
    Forall2 (fun k y => from_state G !! y = Some p /\ to_state G !! y = Some k) (filter (fun q => acc q ∈ N) sp) new.
Proof.
  induction sp as [|q sp IH]; intros Hd ks edge Hnd HF; cbn [read_nullables]; [exists []; by rewrite app_nil_r|]. rewrite filter_cons.
  assert (Hd' : forall q, q ∈ sp -> delta p (acc q) q) by (intros q' Hq'; apply Hd; by right). destruct (bool_decide_reflect (acc q ∈ N)) as [Hn|Hn].
  - rewrite decide_True by done. destruct (map_goto_spec g OK s AU G NB p (acc q) q (Hd q (list_elem_of_here _ _)) (nullable_var _ Hn)) as (y & -> & Hy & Hf & Ht & _). cbn [andthen].
    assert (HF' : Forall2 (fun k y => from_state G !! y = Some p /\ to_state G !! y = Some k) (ks ++ [q]) (edge ++ [y])) by (apply Forall2_app; [done|by repeat constructor]).
    replace (ks ++ q :: sp) with ((ks ++ [q]) ++ sp) in Hnd by (by rewrite <- app_assoc). pose proof Hnd as Hnd1. apply NoDup_app in Hnd1 as (Hnd1 & _).
    destruct (distinct_gotos p _ _ HF' Hnd1) as [_ Hlen]. rewrite length_app in Hlen. cbn [length] in Hlen. unfold add_edge. rewrite (proj2 (Nat.leb_gt _ _)) by lia. cbn [andthen].
    destruct (IH Hd' (ks ++ [q]) (edge ++ [y]) Hnd HF') as (new & -> & Hnew). exists (y :: new). rewrite <- app_assoc. split; [done|]. by constructor.
  - rewrite decide_False by done. apply (IH Hd' ks); [|done]. apply NoDup_app in Hnd as (H1 & H2 & H3). apply NoDup_app. split; [done|].
    split; [|by apply NoDup_cons in H3 as [_ H3]]. intros x Hx Hx'. apply (H2 x Hx). by right.
Qed.

Lemma nonneg_tokens : 0 <= ntokens g.
Proof. pose proof (lo_symbols g LO). rewrite (go_start g OK) in H. lia. Qed.
Abbreviation w := (WORDSIZE (ntokens g)).
Abbreviation hasF F := (has (ntokens g) F).

(** The rows of [F] up to [i] hold the tokens read, the others are clear. *)
Record F_filled (F : Z) (m0 : mem) (i : nat) (rd : list (list nat)) (m : mem) : Prop := {
  ff_length : length rd = i;
  ff_reads x j : (x < i)%nat -> j ∈ rd !!! x <-> reads x j;
  ff_bits x t : (x < ngotos G)%nat -> 0 <= t < ntokens g -> hasF F m x t <-> (x < i)%nat /\ exists q r, to_state G !! x = Some q /\ delta q t r /\ ISTOKEN g t = true;
  ff_outside : outside (ngotos G) (ntokens g) F m0 m
}.

Lemma set_bits_row F i l m : (i < ngotos G)%nat -> Forall (fun b => 0 <= b < ntokens g) l ->
  (forall x t, (x < ngotos G)%nat -> 0 <= t < ntokens g -> hasF F (set_bits (row_at w F i) l m) x t <-> hasF F m x t \/ (x = i /\ t ∈ l)) /\
  outside (ngotos G) (ntokens g) F m (set_bits (row_at w F i) l m).
Proof.
  intros Hi Hl. destruct (set_bits_spec (ntokens g) (row_at w F i) l nonneg_tokens Hl m) as [H1 H2]. split.
  - intros x t Hx Ht. unfold has. destruct (decide (x = i)) as [->|Hne]; [rewrite H2 by done; tauto|]. rewrite (row_word m _ _ (ntokens g)); [tauto|done|].
    intros a Ha. apply H1. pose proof (rows_order (ntokens g) F nonneg_tokens i x ltac:(done)) as Hr. pose proof (w_nonneg (ntokens g) nonneg_tokens). rewrite Z2Nat.id in Hr by done. lia.
  - intros a Ha. apply H1. pose proof (w_nonneg (ntokens g) nonneg_tokens). unfold row_at in *. destruct Ha; [left; nia|right; nia].
Qed.

Lemma F_loop_spec F m0 n : forall i rd m, (n + i = ngotos G)%nat -> F_filled F m0 i rd m ->
  exists rd' m', F_loop g N s G n i (row_at w F i) rd m = Ok (rd', m') /\ F_filled F m0 (ngotos G) rd' m'.
Proof.
  induction n as [|n IH]; intros i rd m Hn K; cbn [F_loop]; [exists rd, m; split; [done|]; by replace (ngotos G) with i by lia|].
  assert (Hi : (i < ngotos G)%nat) by lia. destruct (nb_goto _ _ _ NB i Hi) as (p & q & Hf & Ht & Hd & Hv & _). rewrite (list_lookup_total_correct _ _ _ Ht).
  pose proof (delta_range g OK s AU _ _ _ Hd) as (_ & Hq & _). destruct (tokens_first _ (shift_sorted q Hq)) as (ts & vs & Etv & Hts & Hvs).
  rewrite Etv, read_tokens_spec by done.
  assert (Hdelta : forall k, k ∈ ts ++ vs -> delta q (acc k) k) by (intros k Hk; split; [by rewrite Etv|done]).
  assert (Hnd : NoDup (ts ++ vs)) by (rewrite <- Etv; eapply sorted_nodup; by apply shift_sorted). apply NoDup_app in Hnd as (_ & _ & Hnd).
  destruct (read_nullables_spec q vs (fun k Hk => Hdelta k ltac:(apply elem_of_app; by right)) [] [] Hnd (List.Forall2_nil _)) as (new & -> & Hnew). cbn [andthen app].
  assert (Htok : Forall (fun b => 0 <= b < ntokens g) (map acc ts)).
  { apply Forall_forall. intros b (k & -> & Hk)%list_elem_of_fmap. rewrite Forall_forall in Hts. specialize (Hts k Hk). unfold ISVAR in Hts. apply Z.leb_gt in Hts.
    specialize (Hdelta k ltac:(apply elem_of_app; by left)). apply (delta_range g OK s AU) in Hdelta. rewrite <- (go_start g OK). lia. }
  destruct (set_bits_row F i (map acc ts) m Hi Htok) as [Hb Ho].
  replace (row_at w F i + w) with (row_at w F (S i)) by (unfold row_at; lia). apply IH; [lia|]. split.
  - rewrite length_app, (ff_length _ _ _ _ _ K). cbn. lia.
  - intros x j Hx. destruct (decide (x = i)) as [->|Hne]; [|rewrite lookup_total_app_l by (rewrite (ff_length _ _ _ _ _ K); lia); apply (ff_reads _ _ _ _ _ K); lia].
    rewrite <- (ff_length _ _ _ _ _ K) at 1. rewrite list_lookup_total_middle by done. split.
    + intros [n' Hn']%list_elem_of_lookup. destruct (Forall2_lookup_r _ _ _ _ _ Hnew Hn') as (k & Hk & Hfj & Htj). apply list_elem_of_lookup_2, list_elem_of_filter in Hk as [Hk _].
      exists q, (acc k). split; [done|]. split; [by exists k|by apply HN].
    + intros (q' & X & Hq' & (k & Hfj & Htj & Hk) & HX). rewrite Ht in Hq'. injection Hq' as <-. apply HN in HX.
      assert (Hkin : k ∈ filter (fun q => acc q ∈ N) vs).
      { apply list_elem_of_filter. rewrite Hk. split; [done|]. destruct (nb_goto _ _ _ NB j ltac:(apply lookup_lt_Some in Hfj; by rewrite (nb_from _ _ _ NB) in Hfj)) as (p1 & k1 & E1 & E2 & [Hd1 _] & Hv1 & _).
        rewrite Hfj in E1. rewrite Htj in E2. injection E1 as <-. injection E2 as <-. rewrite Etv in Hd1. apply elem_of_app in Hd1 as [Hd1|]; [|done].
        rewrite Forall_forall in Hts. specialize (Hts k Hd1). cbn beta in Hts. congruence. }
      apply list_elem_of_lookup in Hkin as [n' Hn']. destruct (Forall2_lookup_l _ _ _ _ _ Hnew Hn') as (y & Hy & Hfy & Hty).
      rewrite (goto_unique g OK s AU G NB j y q k Hfj Htj Hfy Hty). by eapply list_elem_of_lookup_2.
  - intros x t Hx Htr. rewrite Hb by done. rewrite (ff_bits _ _ _ _ _ K x t Hx Htr). split.
    + intros [[Hxi H]|[-> (k & -> & Hk)%list_elem_of_fmap]]; [split; [lia|done]|]. split; [lia|]. exists q, k. split; [done|]. split; [apply Hdelta; apply elem_of_app; by left|].
      unfold ISTOKEN. apply Z.ltb_lt. rewrite (go_start g OK). lia.
    + intros [Hxi (q' & r & Hq' & Hdr & Htk)]. destruct (decide (x = i)) as [->|Hne]; [right; split; [done|]|left; split; [lia|by exists q', r]].
      rewrite Ht in Hq'. injection Hq' as <-. destruct Hdr as [Hr <-]. apply list_elem_of_fmap. exists r. split; [done|]. rewrite Etv in Hr. apply elem_of_app in Hr as [|Hr]; [done|].
      rewrite Forall_forall in Hvs. specialize (Hvs r Hr). cbn beta in Hvs. unfold ISVAR in Hvs. unfold ISTOKEN in Htk. apply Z.leb_le in Hvs. apply Z.ltb_lt in Htk. lia.
  - intros a Ha. rewrite Ho by done. by apply (ff_outside _ _ _ _ _ K).
Qed.

(** The tokens that can come after a goto; [Read] counts what can be read without reducing
    more than empty words, [Follow] all. *)
Definition Read (i : nat) (t : Z) : Prop := exists j, rtc reads i j /\ directly_reads j t.
Definition Follow (i : nat) (t : Z) : Prop := exists j, rtc includes i j /\ Read j t.

Context (Hfew : Z.of_nat (ngotos G) <= 32765).

Lemma reads_range i j : reads i j -> (i < ngotos G)%nat /\ (j < ngotos G)%nat.
Proof.
  intros (q & X & Hq & Hj & _). split; [apply lookup_lt_Some in Hq; by rewrite (nb_to _ _ _ NB) in Hq|by apply is_goto_lt in Hj].
Qed.
Lemma includes_range i j : includes i j -> (i < ngotos G)%nat /\ (j < ngotos G)%nat.
Proof. intros (p & A & p' & B & r & u & v & Hi & Hj & _). split; by eapply is_goto_lt. Qed.

Lemma rtc_iff (Q Q' : nat -> nat -> Prop) x y : (forall a b, Q a b <-> Q' a b) -> rtc Q x y <-> rtc Q' x y.
Proof. intros H. split; induction 1 as [|a b c Hab _ IH]; try apply rtc_refl; eapply rtc_l; try done; by apply H. Qed.

(** [run_digraph] on a relation between gotos. *)
Lemma run_digraph_spec F (rel : list (list nat)) (Q : nat -> nat -> Prop) m : (forall i j, (i < ngotos G)%nat -> j ∈ rel !!! i <-> Q i j) ->
  (forall i j, Q i j -> (i < ngotos G)%nat /\ (j < ngotos G)%nat) ->
  exists m', run_digraph g G F rel m = Ok m' /\ outside (ngotos G) (ntokens g) F m m' /\
    forall i t, (i < ngotos G)%nat -> 0 <= t < ntokens g -> hasF F m' i t <-> exists j, rtc Q i j /\ hasF F m j t.
Proof.
  intros HQ Hr. destruct (digraph_spec (ngotos G) (ntokens g) F (fun i => rel !!! i) m nonneg_tokens Hfew) as (m' & E & H & Ho).
  { intros i j Hi Hj. apply HQ in Hj; [|done]. apply (Hr _ _ Hj). }
  unfold run_digraph. rewrite E. exists m'. split; [done|]. split; [done|]. intros i t Hi Ht. rewrite (H i t Hi Ht). unfold gathered, own.
  assert (HE : forall a b, arc (ngotos G) (fun i => rel !!! i) a b <-> Q a b).
  { intros a b. unfold arc. split; [intros [Ha Hb]; by apply HQ|]. intros Hab. destruct (Hr a b Hab). split; [done|]. by apply HQ. }
  split; intros (j & Hj & Hb); exists j; (split; [by apply (rtc_iff _ _ i j HE)|]); [by apply Hb|by split].
Qed.

Lemma initialize_F_spec F m : exists m', initialize_F g N s G F m = Ok m' /\
  (forall i t, (i < ngotos G)%nat -> 0 <= t < ntokens g -> hasF F m' i t <-> Read i t) /\
  (forall a, a < F \/ F + Z.max 1 (Z.of_nat (ngotos G) * w) <= a -> ld m' a = ld m a).
Proof.
  unfold initialize_F. set (m1 := clear _ F m). pose proof (w_nonneg (ntokens g) nonneg_tokens) as Hw0.
  assert (Hrows : row_at w F (ngotos G) = F + Z.of_nat (ngotos G) * w) by done.
  assert (K0 : F_filled F m1 0 [] m1).
  { split; [done|lia| |done]. intros x t Hx Ht. split; [|lia]. unfold has, m1. rewrite (bit_clear _ _ _ _ (ntokens g)); [done|done| |]; unfold row_at; nia. }
  destruct (F_loop_spec F m1 (ngotos G) 0 [] m1 ltac:(lia) K0) as (rd & m2 & E2 & K2). replace (row_at w F 0) with F in E2 by (unfold row_at; lia).
  rewrite E2. cbn [andthen]. destruct (run_digraph_spec F rd reads (SETBIT m2 F 0)) as (m' & -> & Ho & Hb); [intros i j Hi; by apply (ff_reads _ _ _ _ _ K2)|apply reads_range|].
  exists m'. split; [done|]. assert (Hset : forall a, a <> F -> ld (SETBIT m2 F 0) a = ld m2 a) by (intros a Ha; rewrite SETBIT_mask; apply ld_st_ne; change (0 / 32) with 0; lia).
  split.
  - intros i t Hi Ht. rewrite (Hb i t Hi Ht). unfold Read.
    assert (Hd : forall j, (j < ngotos G)%nat -> hasF F (SETBIT m2 F 0) j t <-> directly_reads j t).
    { intros j Hj. destruct (set_bits_row F 0 [0] m2 ltac:(lia)) as [Hs _]; [repeat constructor; pose proof (lo_symbols g LO) as H0; rewrite (go_start g OK) in H0; lia|].
      specialize (Hs j t Hj Ht). cbn in Hs. replace (row_at w F 0) with F in Hs by (unfold row_at; lia). rewrite Hs, (ff_bits _ _ _ _ _ K2 j t Hj Ht), list_elem_of_singleton.
      unfold directly_reads. split; [intros [[_ H]|[-> ->]]; auto|]. intros [H|[-> ->]]; auto. }
    split; intros (j & Hj & Hbj); exists j; (split; [done|]); apply (Hd j); try done; (destruct (rtc_inv_r _ _ Hj) as [<-|(y & _ & Hy)]; [done|apply (reads_range _ _ Hy)]).
  - intros a Ha. rewrite Ho by (rewrite Hrows; lia). rewrite Hset by lia. rewrite (ff_outside _ _ _ _ _ K2) by (rewrite Hrows; lia). unfold m1. apply clear_out. lia.
Qed.

(** *** The lookaheads *)

Lemma or_row_bit p q m t : 0 <= t < ntokens g -> q + w <= p \/ p + w <= q -> bit (or_row (Z.to_nat w) p q m) p t = bit m p t || bit m q t.
Proof.
  intros Ht Hpq. pose proof (word_in_row (ntokens g) t Ht) as Hw. unfold bit. rewrite or_row_spec by lia. rewrite (proj2 (Z.leb_le _ _)), (proj2 (Z.ltb_lt _ _)) by lia.
  cbn [andb]. rewrite Z.lor_spec. do 3 f_equal. lia.
Qed.
Lemma or_row_else p q m a : q + w <= p \/ p + w <= q -> a < p \/ p + w <= a -> ld (or_row (Z.to_nat w) p q m) a = ld m a.
Proof.
  intros Hpq Ha. pose proof (w_nonneg (ntokens g) nonneg_tokens). rewrite or_row_spec by lia. destruct (Z.leb_spec p a), (Z.ltb_spec a (p + Z.of_nat (Z.to_nat w))); cbn [andb]; try done. lia.
Qed.

Lemma add_follows_spec p F : p + w <= F \/ F + Z.of_nat (ngotos G) * w <= p -> forall sp m, (forall j, j ∈ sp -> (j < ngotos G)%nat) ->
  (forall t, 0 <= t < ntokens g -> bit (add_follows g sp p F m) p t = true <-> bit m p t = true \/ exists j, j ∈ sp /\ hasF F m j t) /\
  (forall a, a < p \/ p + w <= a -> ld (add_follows g sp p F m) a = ld m a).
Proof.
  intros Hd. pose proof (w_nonneg (ntokens g) nonneg_tokens) as Hw0. induction sp as [|j sp IH]; intros m Hsp; cbn [add_follows].
  - split; [|done]. intros t _. split; [by left|]. intros [?|(j & Hj & _)]; [done|by apply not_elem_of_nil in Hj].
  - assert (Hjn : (j < ngotos G)%nat) by (apply Hsp, list_elem_of_here). assert (Hdj : F + w * Z.of_nat j + w <= p \/ p + w <= F + w * Z.of_nat j) by nia.
    destruct (IH (or_row (Z.to_nat w) p (F + w * Z.of_nat j) m) (fun x Hx => Hsp x (list_elem_of_further _ _ _ Hx))) as [H1 H2]. split.
    + intros t Ht. rewrite (H1 t Ht), or_row_bit, orb_true_iff by done. setoid_rewrite elem_of_cons.
      assert (Hkeep : forall x, (x < ngotos G)%nat -> hasF F (or_row (Z.to_nat w) p (F + w * Z.of_nat j) m) x t <-> hasF F m x t).
      { intros x Hx. unfold has. rewrite (row_word m _ _ (ntokens g)); [done|done|]. intros a Ha. apply or_row_else; [done|]. unfold row_at in Ha. nia. }
      assert (Ej : bit m (F + w * Z.of_nat j) t = true <-> hasF F m j t) by (unfold has, row_at; by rewrite Z.mul_comm). rewrite Ej. split.
      * intros [[?|?]|(x & Hx & Hbx)]; [by left|right; exists j; auto|right; exists x; split; [by right|]]. apply Hkeep; [|done]. apply Hsp. by right.
      * intros [?|(x & [->|Hx] & Hbx)]; [tauto|tauto|]. right. exists x. split; [done|]. apply Hkeep; [|done]. apply Hsp. by right.
    + intros a Ha. rewrite H2 by done. by apply or_row_else.
Qed.

Lemma compute_lookaheads_spec LA F lb n : (forall k x, looks lb k x <-> lookback_at k x) -> LA + Z.of_nat n * w <= F \/ F + Z.of_nat (ngotos G) * w <= LA ->
  forall j i m, (j + i = n)%nat -> (forall k t, (i <= k < n)%nat -> 0 <= t < ntokens g -> bit m (LA + Z.of_nat k * w) t = false) ->
  let m' := compute_lookaheads g j i (LA + Z.of_nat i * w) F lb m in
  (forall k t, (k < n)%nat -> 0 <= t < ntokens g -> bit m' (LA + Z.of_nat k * w) t = true <->
     if (k <? i)%nat then bit m (LA + Z.of_nat k * w) t = true else exists x, lookback_at k x /\ hasF F m x t).
Proof.
  intros Hlb Hd. pose proof (w_nonneg (ntokens g) nonneg_tokens) as Hw0. induction j as [|j IH]; intros i m Hn Hz m' k t Hk Ht; unfold m'; cbn [compute_lookaheads].
  - by rewrite (proj2 (Nat.ltb_lt k i)) by lia.
  - replace (LA + Z.of_nat i * w + w) with (LA + Z.of_nat (S i) * w) by lia. set (m1 := add_follows g _ _ F m).
    assert (Hapart : LA + Z.of_nat i * w + w <= F \/ F + Z.of_nat (ngotos G) * w <= LA + Z.of_nat i * w) by nia.
    destruct (add_follows_spec (LA + Z.of_nat i * w) F Hapart (default [] (lb !! i)) m) as [H1 H2].
    { intros x Hx. apply Hlb in Hx as (p & A & r & Hg & _). by apply is_goto_lt in Hg. }
    fold m1 in H1, H2. assert (Hother : forall k', k' <> i -> bit m1 (LA + Z.of_nat k' * w) t = bit m (LA + Z.of_nat k' * w) t).
    { intros k' Hne. apply (row_word m m1 _ (ntokens g)); [done|]. intros a Ha. apply H2. destruct (Nat.lt_total k' i) as [?|[?|?]]; [left|done|right]; nia. }
    assert (HF : forall x, (x < ngotos G)%nat -> hasF F m1 x t <-> hasF F m x t).
    { intros x Hx. unfold has. rewrite (row_word m m1 _ (ntokens g)); [done|done|]. intros a Ha. apply H2. unfold row_at in Ha. nia. }
    assert (Hz1 : forall k t, (S i <= k < n)%nat -> 0 <= t < ntokens g -> bit m1 (LA + Z.of_nat k * w) t = false).
    { intros k' t' Hk' Ht'. rewrite (row_word m m1 _ (ntokens g)); [apply Hz; [lia|done]|done|]. intros a Ha. apply H2. right. nia. }
    rewrite (IH (S i) m1 ltac:(lia) Hz1 k t Hk Ht).
    destruct (Nat.ltb_spec k (S i)) as [Hki|Hki].
    + destruct (Nat.ltb_spec k i) as [Hki'|Hki']; [by rewrite Hother by lia|]. assert (k = i) as -> by lia. rewrite (H1 t Ht), (Hz i t) by (lia || done). split.
      * intros [?|(x & Hx & Hb)]; [done|]. exists x. split; [by apply Hlb|done].
      * intros (x & Hx & Hb). right. exists x. split; [by apply Hlb|done].
    + rewrite (proj2 (Nat.ltb_ge k i)) by lia. split; intros (x & Hx & Hb); exists x; (split; [done|]); apply HF; try done; destruct Hx as (p & A & r & Hg & _); by apply is_goto_lt in Hg.
Qed.

(** The states from which the reductions of a state go back. *)
Definition lookback (q : nat) (r : Z) (i : nat) : Prop := exists p A, is_goto i p A /\ r ∈ rules g A /\ path p (rhs g r) q.

Lemma la_state q q' k : (q < nstates s)%nat -> (q' < nstates s)%nat -> (first_la q <= k < first_la (S q))%nat -> (first_la q' <= k < first_la (S q'))%nat -> q = q'.
Proof.
  intros Hq Hq' Hk Hk'. destruct (Nat.lt_total q q') as [H|[H|H]]; [exfalso|done|exfalso].
  - pose proof (lookaheads_mono (S q) q' ltac:(lia)). lia.
  - pose proof (lookaheads_mono (S q') q ltac:(lia)). lia.
Qed.

Lemma lookback_number q k i : (q < nstates s)%nat -> (first_la q <= k < first_la (S q))%nat -> lookback_at k i <-> lookback q (LAruleno s !!! k) i.
Proof.
  intros Hq Hk. split.
  - intros (p & A & r & Hg & Hr & q' & Hp & Hk' & <-). assert (Hq' : (q' < nstates s)%nat).
    { apply (delta_path_range p (rhs g (LAruleno s !!! k))); [|done]. destruct Hg as (q0 & Hf & Ht & _).
      destruct (nb_goto _ _ _ NB i) as (p1 & q1 & E1 & _ & Hd & _); [apply lookup_lt_Some in Hf; by rewrite (nb_from _ _ _ NB) in Hf|].
      rewrite Hf in E1. injection E1 as <-. by apply (delta_range g OK s AU) in Hd as (? & _). }
    rewrite (la_state _ _ _ Hq Hq' Hk Hk') in *. by exists p, A.
  - intros (p & A & Hg & Hr & Hp). exists p, A, (LAruleno s !!! k). split; [done|]. split; [done|]. by exists q.
Qed.
End Gotos.

(** ** The whole of [lalr] *)

Definition few_gotos : Prop := forall G, set_goto_map g s = Ok G -> Z.of_nat (ngotos G) <= 32765.

Lemma lalr_spec N LA F m : (forall X, X ∈ N <-> derives_empty g X) -> few_gotos ->
  LA + Z.of_nat (length (LAruleno s)) * WORDSIZE (ntokens g) <= F \/ F + Z.of_nat MAXSHORT * WORDSIZE (ntokens g) <= LA ->
  match lalr g N s LA F m with
  | Ok (G, m') => numbering g s G /\
      forall q k t, (q < nstates s)%nat -> (lookaheads s !!! q <= k < lookaheads s !!! S q)%nat -> 0 <= t < ntokens g ->
        BIT m' (LA + Z.of_nat k * WORDSIZE (ntokens g)) t <> 0 <-> exists i, lookback G q (LAruleno s !!! k) i /\ Follow G i t
  | Fatal msg => msg = "too many gotos"%string /\ many_gotos g s
  | Overrun => exists G, set_goto_map g s = Ok G /\ many_includes N G
  | _ => False
  end.
Proof.
  intros HN Hfew Hd. unfold lalr. set (m1 := clear _ LA m). pose proof (set_goto_map_spec g OK s AU) as HG.
  pose proof nonneg_tokens as Hnt. pose proof (w_nonneg (ntokens g) Hnt) as Hw0.
  assert (Hw1 : 1 <= WORDSIZE (ntokens g)) by (pose proof (lo_symbols g LO) as H0; rewrite (go_start g OK) in H0; unfold WORDSIZE, BITS_PER_WORD; zlia).
  destruct (set_goto_map g s) as [G|msg| | |] eqn:EG; cbn [andthen]; try done. specialize (Hfew G EG). rename HG into NB.
  pose proof (nb_small _ _ _ NB) as Hsm.
  destruct (initialize_F_spec N HN G NB Hfew F m1) as (m2 & -> & Hb2 & Ho2). cbn [andthen].
  assert (Hlb0 : forall k x, looks ∅ k x <-> (x < 0)%nat /\ lookback_at G k x) by (intros k x; split; [intros H; by apply not_elem_of_nil in H|lia]).
  pose proof (relations_loop_spec N HN G NB (ngotos G) 0 [] ∅ ltac:(lia) eq_refl (fun x j H => False_ind _ (Nat.nlt_0_r x H)) Hlb0) as Hrel. unfold build_relations.
  destruct (relations_loop g N s G (ngotos G) 0 [] ∅) as [[incl lb]|msg| | |]; cbn [andthen]; try done; [|by exists G].
  destruct Hrel as (Hlen & Hincl & Hlb).
  destruct (run_digraph_spec G Hfew F (transpose G incl) (includes G) m2) as (m3 & -> & Ho3 & Hb3).
  { intros i j Hi. rewrite (transpose_spec G incl i j Hi). rewrite Hlen. split; [intros [Hj H]; by apply Hincl|]. intros H. pose proof (includes_range G NB _ _ H). split; [lia|]. apply Hincl; [lia|done]. }
  { apply (includes_range G NB). }
  cbn [andthen]. split; [done|]. intros q k t Hq Hk Ht. rewrite BIT_bit. assert (Hkn : (k < length (LAruleno s))%nat).
  { rewrite <- lookaheads_total. pose proof (lookaheads_mono (S q) (nstates s) ltac:(lia)). lia. }
  set (n := length (LAruleno s)) in *. assert (Hd' : LA + Z.of_nat n * WORDSIZE (ntokens g) <= F \/ F + Z.of_nat (ngotos G) * WORDSIZE (ntokens g) <= LA) by nia.
  assert (Hz : forall k t, (0 <= k < n)%nat -> 0 <= t < ntokens g -> bit m3 (LA + Z.of_nat k * WORDSIZE (ntokens g)) t = false).
  { intros k' t' Hk' Ht'. rewrite <- (bit_clear (Z.to_nat (Z.of_nat n * WORDSIZE (ntokens g))) LA m (LA + Z.of_nat k' * WORDSIZE (ntokens g)) (ntokens g) t' Ht') by nia.
    apply (row_word m1 m3 _ (ntokens g)); [done|]. intros a Ha. assert (Hout : a < F \/ F + Z.max 1 (Z.of_nat (ngotos G) * WORDSIZE (ntokens g)) <= a).
    { destruct Hd as [Hd|Hd]; [left; nia|right]. assert (Z.of_nat (ngotos G) * WORDSIZE (ntokens g) <= Z.of_nat MAXSHORT * WORDSIZE (ntokens g)) by nia.
      assert (1 <= Z.of_nat MAXSHORT * WORDSIZE (ntokens g)) by (unfold MAXSHORT; rewrite Z2Nat.id by lia; nia). assert (LA <= a) by nia. lia. }
    rewrite Ho3 by (unfold row_at; lia). by apply Ho2. }
  pose proof (compute_lookaheads_spec G NB Hfew LA F lb n Hlb Hd' n 0 m3 ltac:(lia) Hz k t Hkn Ht) as Hc. cbn zeta in Hc. replace (LA + Z.of_nat 0 * WORDSIZE (ntokens g)) with LA in Hc by lia.
  change (k <? 0)%nat with false in Hc. cbn match in Hc.
  set (b := bit (compute_lookaheads g n 0 LA F lb m3) (LA + Z.of_nat k * WORDSIZE (ntokens g)) t) in *.
  assert (Hb : Z.b2z b <> 0 <-> b = true) by (destruct b; cbn; split; intros; done). rewrite Hb, Hc.
  assert (Hfol : forall x, (x < ngotos G)%nat -> has (ntokens g) F m3 x t <-> Follow G x t).
  { intros x Hx. rewrite (Hb3 x t Hx Ht). unfold Follow. split; intros (j & Hj & Hr); exists j; (split; [done|]); apply (Hb2 j t); try done;
      (destruct (rtc_inv_r _ _ Hj) as [<-|(y & _ & Hy)]; [done|apply (includes_range G NB _ _ Hy)]). }
  split; intros (x & Hx & Hbx).
  - pose proof (proj1 (lookback_number G NB q k x Hq Hk) Hx) as Hx'. exists x. split; [done|]. apply Hfol; [|done]. destruct Hx' as (p & A & Hg & _). by eapply is_goto_lt.
  - exists x. split; [by apply (lookback_number G NB q k x Hq Hk)|]. apply Hfol; [|done]. destruct Hx as (p & A & Hg & _). by eapply is_goto_lt.
Qed.
End Sets.

(** ** The claims *)

(** C20: [lalr], on the LR(0) automaton of a grammar, ends, and numbers the gotos by symbol
    and state. Its lookahead set for a reduction of a state holds a token exactly if the
    token can follow one of the gotos the reduction goes back to: it is read after that
    goto, or after one that follows a nullable variable, or follows a goto included by it.
    Otherwise there are more gotos than a [short] can number, or a goto has more
    inclusions than the array [edge] has cells, and the function writes past its end.
    ([few_gotos]: 32765 gotos at most, beyond which the indexes of [digraph] wrap.) *)
Theorem lalr_correct g s N LA F m : grammar_ok g -> laid_out g -> automaton g s -> (forall X, X ∈ N <-> derives_empty g X) -> few_gotos g s ->
  LA + Z.of_nat (length (LAruleno s)) * WORDSIZE (ntokens g) <= F \/ F + Z.of_nat MAXSHORT * WORDSIZE (ntokens g) <= LA ->
  match lalr g N s LA F m with
  | Ok (G, m') => numbering g s G /\
      forall q j r t, (q < nstates s)%nat -> reduction_table s q !! j = Some r -> 0 <= t < ntokens g ->
        let k := (lookaheads s !!! q + j)%nat in
        LAruleno s !! k = Some r /\
        (BIT m' (LA + Z.of_nat k * WORDSIZE (ntokens g)) t <> 0 <-> exists i, lookback g s G q r i /\ Follow g s G i t)
  | Fatal msg => msg = "too many gotos"%string /\ many_gotos g s
  | Overrun => exists G, set_goto_map g s = Ok G /\ many_includes g s N G
  | _ => False
  end.
Proof.
  intros OK LO AU HN Hfew Hd. pose proof (lalr_spec g OK LO s AU N LA F m HN Hfew Hd) as H. destruct (lalr g N s LA F m) as [[G m']|msg| | |]; try done.
  destruct H as [NB H]. split; [done|]. intros q j r t Hq Hj Ht k. pose proof (lookup_lt_Some _ _ _ Hj) as Hlt.
  assert (Ek : LAruleno s !! k = Some r) by (unfold k; by rewrite (LAruleno_at s q j Hq Hlt)). split; [done|].
  rewrite <- (list_lookup_total_correct _ _ _ Ek). apply H; [done| |done]. rewrite (lookaheads_next s q Hq). unfold k. lia.
Qed.

(** *** The grammar of sums *)

Lemma sums_laid_out : laid_out sums.
Proof.
  assert (Hr : forall r, 2 <= r < 7 -> r = 2 \/ r = 3 \/ r = 4 \/ r = 5 \/ r = 6) by lia.
  assert (Hx : forall x, 0 <= x -> at_ (ritem sums) x < 0 -> x = 0 \/ x = 3 \/ x = 6 \/ x = 10 \/ x = 12 \/ x = 14).
  { intros x H0 Hx. assert (E : x = Z.of_nat (Z.to_nat x)) by lia. unfold at_ in Hx. revert Hx E. generalize (Z.to_nat x). intros k Hk ->. clear H0.
    do 15 (destruct k as [|k]; [cbn in Hk; lia|]). exfalso. destruct k; cbn in Hk; lia. }
  split.
  - intros A r HA Hr'. apply list_elem_of_filter in Hr' as [<- Hr']. apply elem_of_seqZ in Hr'. cbn [nrules sums] in Hr'.
    assert (H7 : r = 0 \/ r = 1 \/ 2 <= r < 7) by lia. destruct H7 as [->|[->|H7]]; [discriminate HA|discriminate HA|]. split; [done|].
    destruct (Hr r H7) as [->|[->|[->|[->| ->]]]]; [intros []; reflexivity|lia..].
  - intros r Hr2. destruct (Hr r Hr2) as [->|[->|[->|[->| ->]]]]; vm_compute; discriminate.
  - intros r Hr2. destruct (Hr r Hr2) as [->|[->|[->|[->| ->]]]]; reflexivity.
  - intros x. unfold at_. cbn [ritem sums]. generalize (Z.to_nat x). intros k. do 15 (destruct k as [|k]; [discriminate|]). cbn. destruct k; discriminate.
  - intros r Hr3. destruct (Hr r ltac:(cbn [nrules sums] in Hr3; lia)) as [->|[->|[->|[->| ->]]]]; [lia|..]; (split; [reflexivity|]; eexists; reflexivity).
  - intros r Hr3. destruct (Hr r ltac:(cbn [nrules sums] in Hr3; lia)) as [->|[->|[->|[->| ->]]]]; [lia|..]; repeat constructor.
  - intros x y H0 H1 H2 E. pose proof (Hx x H0 H2) as Cx. rewrite E in H2. pose proof (Hx y H1 H2) as Cy.
    destruct Cx as [->|[->|[->|[->|[->| ->]]]]], Cy as [->|[->|[->|[->|[->| ->]]]]]; try reflexivity; discriminate E.
  - reflexivity.
Qed.

Lemma lalr_correct_witness : exists s G m', generate_states sums (S MAXSHORT) 0 10 20 ∅ = Done s /\ lalr sums ∅ s 100 200 ∅ = Ok (G, m') /\
  map (ld m') [100; 101; 102; 103] = [9; 1; 9; 9] /\ exists i, lookback sums s G 3 6 i /\ Follow sums s G i 3.
Proof.
  pose proof (generate_states_spec sums (S MAXSHORT) 0 10 20 ∅ sums_ok (Nat.lt_succ_diag_r _)) as H. cbv zeta in H.
  specialize (H ltac:(left; vm_compute; discriminate) ltac:(right; vm_compute; discriminate)).
  destruct (generate_states sums (S MAXSHORT) 0 10 20 ∅) as [s|msg|] eqn:Es; [|vm_compute in Es; discriminate Es|destruct H].
  destruct (set_nullable_spec sums) with (fuel := 8%nat) as (N & EN & HN); [split; [vm_compute; discriminate|reflexivity]|vm_compute; repeat constructor|].
  assert (EN' : set_nullable sums 8 = Some ∅) by (vm_compute; reflexivity). rewrite EN' in EN. injection EN as <-.
  pose proof (lalr_correct sums s ∅ 100 200 ∅ sums_ok sums_laid_out H HN) as HL.
  vm_compute in Es. injection Es as Es.
  assert (Hfew : few_gotos sums s) by (intros G HG; subst s; vm_compute in HG; injection HG as <-; cbn; lia).
  specialize (HL Hfew ltac:(left; subst s; vm_compute; discriminate)).
  assert (EL : exists G m', lalr sums ∅ s 100 200 ∅ = Ok (G, m') /\ map (ld m') [100; 101; 102; 103] = [9; 1; 9; 9]) by (subst s; vm_compute; eexists _, _; split; reflexivity).
  destruct EL as (G & m' & EL & Em). rewrite EL in HL. exists s, G, m'. split; [reflexivity|]. split; [exact EL|]. split; [exact Em|].
  destruct HL as [_ HL]. destruct (HL 3%nat 0%nat 6 3) as [_ Hb]; [subst s; vm_compute; lia|subst s; vm_compute; reflexivity|vm_compute; split; [discriminate|reflexivity]|].
  apply Hb. replace (100 + _) with 100 by (subst s; vm_compute; reflexivity). unfold BIT. change (100 + 3 / BITS_PER_WORD) with 100. injection Em as E1 _ _ _. rewrite E1. vm_compute. discriminate.
Defined.

(** *** Too many inclusions *)

(** [A: B N1 | B N2 | B N3 | B N4 | B N5] with empty [Ni]; the symbols are [$end], [error],
    ['\001'], ['b'], then [$accept], [%entry%], [A], [B], [N1] to [N5]. *)
Definition wide : grammar :=
  MkGrammar 4 13 4 9 15
    [-1; 5; 0; -2; 2; 6; -3; 7; 8; -4; 7; 9; -5; 7; 10; -6; 7; 11; -7; 7; 12; -8; 3; -9; -10; -11; -12; -13; -14]
    [0; 0; 4; 5; 6; 6; 6; 6; 6; 7; 8; 9; 10; 11; 12] [0; 0; 1; 4; 7; 10; 13; 16; 19; 22; 24; 25; 26; 27; 28; 29].

(** The array [edge] of [build_relations] has one cell more than there are gotos, but a
    goto has an edge for each place of its rules that only nullable symbols follow: on a
    grammar of five rules [A: B N1 | ... | B N5] with empty [Ni], the goto of [A] has ten
    edges and the array nine cells, and [lalr] writes past its end. *)
Theorem edge_overrun :
  match set_nullable wide 15, generate_states wide (S MAXSHORT) 0 100 200 ∅ with
  | Some nullable, Done s =>
      (exists G, set_goto_map wide s = Ok G /\ ngotos G = 8%nat) /\
      length (all_places wide nullable (rules wide 6)) = 10%nat /\
      lalr wide nullable s 300 400 ∅ = Overrun
  | _, _ => False
  end.
Proof. vm_compute. split; [eexists; split; reflexivity|split; reflexivity]. Qed.
