(* ===== verification/Pack.v ===== *)
(** * The packing of the parser tables

    Models the part of [yacc/output.c] that sorts the vectors of actions and gotos,
    packs them into the arrays [table] and [check], and prints these as strings of
    16-bit integers, and shows that the engine finds in the strings exactly what is in
    the vectors. *)

From stdpp Require Import strings.
From S2P Require Import Prelude Warshall Closure Lr0 Lexing Parsing.

Definition MAXTABLE : Z := 32500.

(** The vectors: the rows of shifts and of reductions of the states, the columns of gotos
    of the nonterminals; [froms] and [tos] are empty where the pointers are null. *)
Record vectors := MkVectors {
  v_nstates : nat;
  nvectors : nat;
  froms : nat -> list Z;
  tos : nat -> list Z;
  tally : nat -> Z;
  width : nat -> Z
}.

(** The static variables that are filled by [pack_table]. *)
Record packing := MkPacking {
  base : gmap nat Z;          (* zero where it is not set *)
  pos : list Z;
  maxtable : Z;
  table : list Z;
  check : list Z;
  lowzero : Z;
  high : Z
}.

(** [a[i] = x] and [a[i]] for an index that is not negative. *)
Definition cell_set (i x : Z) (a : list Z) : list Z := <[Z.to_nat i := x]> a.
Definition base_of (s : packing) (v : nat) : Z := default 0 (base s !! v).

Section Pack.
Context (vs : vectors).

(** [while (j >= 0 && p(order[j])) j--;] with [j + 1] for [j]. *)
Fixpoint back (p : nat -> bool) (j : nat) (order : list nat) : nat :=
  match j with
  | O => O
  | S k => if p (order !!! k) then back p k order else j
  end.

(** The entry [i] goes after the place found; the ones behind it are moved by one. *)
Definition insert_entry (i : nat) (order : list nat) : list nat :=
  let t := tally vs i in
  let w := width vs i in
  let j := back (fun o => width vs o <? w) (length order) order in
  let j := back (fun o => (width vs o =? w) && (tally vs o <? t)) j order in
  take j order ++ i :: drop j order.

(** [for (i = i; i < nvectors; i++)], [n] turns. *)
Fixpoint sort_loop (n i : nat) (order : list nat) : list nat :=
  match n with
  | O => order
  | S n => sort_loop n (S i) (if 0 <? tally vs i then insert_entry i order else order)
  end.
Definition sort_actions : list nat := sort_loop (nvectors vs) 0 [].

(** [for (prev = prev - 1; prev >= 0; prev--)] *)
Fixpoint match_loop (i prev : nat) (order : list nat) : option nat :=
  match prev with
  | O => None
  | S prev =>
      let j := order !!! prev in
      if negb (width vs j =? width vs i) || negb (tally vs j =? tally vs i) then None
      else if bool_decide (take (Z.to_nat (tally vs i)) (tos vs j) = take (Z.to_nat (tally vs i)) (tos vs i) /\
                           take (Z.to_nat (tally vs i)) (froms vs j) = take (Z.to_nat (tally vs i)) (froms vs i)) then Some j
      else match_loop i prev order
  end.

(** [None] for [-1]. *)
Definition matching_vector (order : list nat) (vector : nat) : option nat :=
  let i := order !!! vector in
  if (2 * v_nstates vs <=? i)%nat then None else match_loop i vector order.

(** [do { newmax += 200; } while (newmax <= loc);], at most [n] turns. *)
Fixpoint new_max (n : nat) (newmax loc : Z) : Z :=
  match n with
  | O => newmax
  | S n => let newmax := newmax + 200 in if newmax <=? loc then new_max n newmax loc else newmax
  end.

Definition grow_table (loc : Z) (s : packing) : packing :=
  let newmax := new_max (Z.to_nat loc) (maxtable s) loc in
  let more := Z.to_nat (newmax - maxtable s) in
  MkPacking (base s) (pos s) newmax (table s ++ repeat 0 more) (check s ++ repeat (-1) more) (lowzero s) (high s).

(** [for (k = k; ok && k < t; k++)]: whether the places of the entries are free. *)
Fixpoint is_free (from : list Z) (j : Z) (s : packing) : outcome (bool * packing) :=
  match from with
  | [] => Done (true, s)
  | f :: from =>
      let loc := j + f in
      if maxtable s <=? loc then
        if MAXTABLE <=? loc then Fatal_error "maximum table size exceeded"
        else
          let s := grow_table loc s in
          if check s !!! Z.to_nat loc =? -1 then is_free from j s else Done (false, s)
      else if check s !!! Z.to_nat loc =? -1 then is_free from j s else Done (false, s)
  end.

(** The entries are written. *)
Fixpoint write_entries (from to : list Z) (j : Z) (s : packing) : packing :=
  match from, to with
  | f :: from, t :: to =>
      let loc := j + f in
      write_entries from to j
        (MkPacking (base s) (pos s) (maxtable s) (cell_set loc t (table s)) (cell_set loc f (check s)) (lowzero s) (if high s <? loc then loc else high s))
  | _, _ => s
  end.

(** [while (lowzero < maxtable && check[lowzero] != -1) ++lowzero;], at most [n] turns. *)
Fixpoint next_lowzero (n : nat) (low : Z) (s : packing) : Z :=
  match n with
  | O => low
  | S n => if (low <? maxtable s) && negb (check s !!! Z.to_nat low =? -1) then next_lowzero n (low + 1) s else low
  end.

(** The first offset that is tried. *)
Definition first_offset (from : list Z) (s : packing) : Z :=
  match from with
  | [] => 0
  | f :: from => fold_left (fun j f => if j <? lowzero s - f then lowzero s - f else j) from (lowzero s - f)
  end.

(** [for (;; ++j)], at most [fuel] turns. *)
Fixpoint pack_loop (fuel : nat) (from to : list Z) (j : Z) (s : packing) : outcome (Z * packing) :=
  match fuel with
  | O => Unfinished
  | S fuel =>
      if j =? 0 then pack_loop fuel from to (j + 1) s
      else match is_free from j s with
           | Done (ok, s) =>
               if ok && negb (bool_decide (j ∈ pos s)) then
                 let s := write_entries from to j s in
                 Done (j, MkPacking (base s) (pos s) (maxtable s) (table s) (check s) (next_lowzero (Z.to_nat (maxtable s)) (lowzero s) s) (high s))
               else pack_loop fuel from to (j + 1) s
           | Fatal_error msg => Fatal_error msg
           | Unfinished => Unfinished
           end
  end.

Definition pack_vector (fuel : nat) (order : list nat) (vector : nat) (s : packing) : outcome (Z * packing) :=
  let i := order !!! vector in
  let t := Z.to_nat (tally vs i) in
  let from := take t (froms vs i) in
  pack_loop fuel from (take t (tos vs i)) (first_offset from s) s.

Definition set_place (v : nat) (place : Z) (s : packing) : packing :=
  MkPacking (<[v := place]> (base s)) (pos s ++ [place]) (maxtable s) (table s) (check s) (lowzero s) (high s).

(** [for (i = i; i < nentries; i++)], [n] turns. *)
Fixpoint pack_entries (n : nat) (fuel : nat) (order : list nat) (i : nat) (s : packing) : outcome packing :=
  match n with
  | O => Done s
  | S n =>
      match matching_vector order i with
      | Some state => pack_entries n fuel order (S i) (set_place (order !!! i) (base_of s state) s)
      | None =>
          match pack_vector fuel order i s with
          | Done (place, s) => pack_entries n fuel order (S i) (set_place (order !!! i) place s)
          | Fatal_error msg => Fatal_error msg
          | Unfinished => Unfinished
          end
      end
  end.

Definition pack_table (fuel : nat) (order : list nat) : outcome packing :=
  pack_entries (length order) fuel order 0 (MkPacking ∅ [] 1000 (repeat 0 1000) (repeat (-1) 1000) 0 0).
End Pack.

(** ** The entries of a vector *)

(** The last entry for [c]. *)
Fixpoint assoc (c : Z) (from to : list Z) : option Z :=
  match from, to with
  | f :: from, t :: to => match assoc c from to with Some x => Some x | None => if f =? c then Some t else None end
  | _, _ => None
  end.
(** What the vector [v] gives for [c]. *)
Definition entry_of (vs : vectors) (v : nat) (c : Z) : option Z := assoc c (froms vs v) (tos vs v).

Lemma assoc_in c from to x : assoc c from to = Some x -> c ∈ from.
Proof.
  revert to. induction from as [|f from IH]; intros [|t to]; cbn [assoc]; [done..|]. destruct (assoc c from to) as [y|] eqn:E; intros H.
  - injection H as ->. apply list_elem_of_further. eauto.
  - destruct (Z.eqb_spec f c) as [->|]; [apply list_elem_of_here|done].
Qed.
Lemma in_assoc c from to : length from = length to -> c ∈ from -> exists x, assoc c from to = Some x.
Proof.
  revert to. induction from as [|f from IH]; intros [|t to] Hl Hc; cbn [assoc length] in *; [now apply not_elem_of_nil in Hc|done|done|].
  apply elem_of_cons in Hc. destruct (assoc c from to) as [y|] eqn:E; [eauto|]. destruct (Z.eqb_spec f c) as [->|Hne]; [eauto|]. destruct Hc as [->|Hc]; [done|].
  destruct (IH to ltac:(lia) Hc) as [x Hx]. congruence.
Qed.

(** ** Searching for a place *)

(** The table has grown. *)
Definition extends (s s' : packing) : Prop :=
  base s' = base s /\ pos s' = pos s /\ lowzero s' = lowzero s /\ high s' = high s /\
  exists k, table s' = table s ++ repeat 0 k /\ check s' = check s ++ repeat (-1) k /\ maxtable s' = maxtable s + Z.of_nat k.

Record arrays_ok (s : packing) : Prop := {
  ao_table : Z.of_nat (length (table s)) = maxtable s;
  ao_check : Z.of_nat (length (check s)) = maxtable s;
  ao_max : 0 < maxtable s <= MAXTABLE + 200;
  ao_low : 0 <= lowzero s <= maxtable s;
  ao_high : 0 <= high s < maxtable s
}.

Lemma extends_refl s : extends s s.
Proof. do 4 (split; [done|]). exists O. cbn [repeat]. rewrite !app_nil_r. split; [done|]. split; [done|lia]. Qed.
Lemma extends_trans s1 s2 s3 : extends s1 s2 -> extends s2 s3 -> extends s1 s3.
Proof.
  intros (A1 & A2 & A3 & A4 & k & A5 & A6 & A7) (B1 & B2 & B3 & B4 & k' & B5 & B6 & B7). do 4 (split; [congruence|]). exists (k + k')%nat.
  rewrite B5, B6, A5, A6, <- !app_assoc, !repeat_app. split; [done|]. split; [done|lia].
Qed.

Lemma extends_arrays s s' : extends s s' -> maxtable s' <= MAXTABLE + 200 -> arrays_ok s -> arrays_ok s'.
Proof.
  intros (_ & _ & El & Eh & k & Et & Ec & Em) Hm [H1 H2 H3 H4 H5]. constructor; rewrite ?Et, ?Ec, ?El, ?Eh, ?length_app, ?repeat_length; lia.
Qed.

Lemma extends_cell s s' i : extends s s' -> arrays_ok s -> 0 <= i ->
  (i < maxtable s -> table s' !!! Z.to_nat i = table s !!! Z.to_nat i /\ check s' !!! Z.to_nat i = check s !!! Z.to_nat i) /\
  (maxtable s <= i < maxtable s' -> check s' !!! Z.to_nat i = -1).
Proof.
  intros (_ & _ & _ & _ & k & Et & Ec & Em) [H1 H2 H3 H4 H5] Hi. rewrite Et, Ec. split; intros Hlt.
  - rewrite !lookup_total_app_l by lia. done.
  - rewrite lookup_total_app_r by lia. apply list_lookup_total_correct.
    destruct (lookup_lt_is_Some_2 (repeat (-1) k) (Z.to_nat i - length (check s))) as [x Hx]; [rewrite repeat_length in *; lia|].
    rewrite Hx. f_equal. apply list_elem_of_lookup_2, list_elem_of_In, repeat_spec in Hx. done.
Qed.

Lemma new_max_spec n : forall m loc, m <= loc -> 0 <= loc - m < 200 * Z.of_nat n ->
  m < new_max n m loc /\ loc < new_max n m loc <= loc + 200.
Proof.
  induction n as [|n IH]; intros m loc Hm Hn; [lia|]. cbn [new_max]. destruct (Z.leb_spec (m + 200) loc) as [Hle|Hgt]; [|lia].
  destruct (IH (m + 200) loc Hle ltac:(lia)). lia.
Qed.

Lemma grow_table_spec loc s : arrays_ok s -> maxtable s <= loc < MAXTABLE -> extends s (grow_table loc s) /\ loc < maxtable (grow_table loc s) <= MAXTABLE + 200.
Proof.
  intros [H1 H2 H3 H4 H5] Hloc. destruct (new_max_spec (Z.to_nat loc) (maxtable s) loc ltac:(lia) ltac:(unfold MAXTABLE in *; lia)) as [Ha Hb].
  split; [|cbn [maxtable grow_table]; lia]. do 4 (split; [done|]). exists (Z.to_nat (new_max (Z.to_nat loc) (maxtable s) loc - maxtable s)). split; [done|]. split; [done|].
  cbn [maxtable grow_table]. lia.
Qed.

(** [is_free] fails when the table cannot grow; else it tells whether the places are free. *)
Lemma is_free_spec from j : Forall (fun f => 0 <= j + f) from -> forall s, arrays_ok s ->
  (is_free from j s = Fatal_error "maximum table size exceeded" /\ Exists (fun f => MAXTABLE <= j + f) from) \/
  exists ok s', is_free from j s = Done (ok, s') /\ extends s s' /\ arrays_ok s' /\
    (ok = true -> Forall (fun f => j + f < maxtable s' /\ check s' !!! Z.to_nat (j + f) = -1) from).
Proof.
  induction 1 as [|f from Hf Hfrom IH]; intros s A; cbn [is_free].
  - right. exists true, s. split; [done|]. split; [apply extends_refl|]. split; [done|]. constructor.
  - destruct (Z.leb_spec (maxtable s) (j + f)) as [Hge|Hlt].
    + destruct (Z.leb_spec MAXTABLE (j + f)) as [Hm|Hm]; [left; split; [done|now constructor]|].
      destruct (grow_table_spec (j + f) s A ltac:(lia)) as [He Hb]. pose proof (extends_arrays _ _ He ltac:(lia) A) as A'.
      destruct (Z.eqb_spec (check (grow_table (j + f) s) !!! Z.to_nat (j + f)) (-1)) as [Ec|Ec].
      * destruct (IH _ A') as [[-> Hx]|(ok & s' & -> & He' & A2 & Hok)]; [left; split; [done|now constructor]|right].
        exists ok, s'. split; [done|]. split; [now apply (extends_trans _ (grow_table (j + f) s))|]. split; [done|]. intros ->. constructor; [|now apply Hok].
        pose proof He' as (_ & _ & _ & _ & k & _ & _ & Em). split; [lia|]. now rewrite (proj2 (proj1 (extends_cell _ _ (j + f) He' A' Hf) ltac:(lia))).
      * right. exists false, (grow_table (j + f) s). split; [done|]. split; [done|]. split; [done|]. done.
    + destruct (Z.eqb_spec (check s !!! Z.to_nat (j + f)) (-1)) as [Ec|Ec].
      * destruct (IH _ A) as [[-> Hx]|(ok & s' & -> & He' & A2 & Hok)]; [left; split; [done|now constructor]|right].
        exists ok, s'. split; [done|]. split; [done|]. split; [done|]. intros ->. constructor; [|now apply Hok].
        pose proof He' as (_ & _ & _ & _ & k & _ & _ & Em). split; [lia|]. now rewrite (proj2 (proj1 (extends_cell _ _ (j + f) He' A Hf) ltac:(lia))).
      * right. exists false, s. split; [done|]. split; [apply extends_refl|]. split; [done|]. done.
Qed.

(** ** Writing the entries *)

Lemma cell_set_lookup a i x j : 0 <= i < Z.of_nat (length a) -> 0 <= j -> cell_set i x a !!! Z.to_nat j = if i =? j then x else a !!! Z.to_nat j.
Proof.
  intros Hi Hj. unfold cell_set. destruct (Z.eqb_spec i j) as [->|Hne].
  - apply list_lookup_total_correct, list_lookup_insert_eq. lia.
  - apply list_lookup_total_insert_ne. lia.
Qed.

Lemma write_entries_spec from : forall to j s, length from = length to -> arrays_ok s -> Forall (fun f => 0 <= j + f < maxtable s) from ->
  let s' := write_entries from to j s in
  arrays_ok s' /\ base s' = base s /\ pos s' = pos s /\ maxtable s' = maxtable s /\ lowzero s' = lowzero s /\ high s <= high s' /\
  Forall (fun f => j + f <= high s') from /\
  forall i, 0 <= i < maxtable s ->
    match assoc (i - j) from to with
    | Some x => check s' !!! Z.to_nat i = i - j /\ table s' !!! Z.to_nat i = x
    | None => check s' !!! Z.to_nat i = check s !!! Z.to_nat i /\ table s' !!! Z.to_nat i = table s !!! Z.to_nat i
    end.
Proof.
  induction from as [|f from IH]; intros [|t to] j s Hl A Hb s'; cbn [length] in Hl; try lia; unfold s'; cbn [write_entries].
  - do 5 (split; [done|]). split; [lia|]. split; [constructor|]. intros i Hi. done.
  - apply Forall_cons in Hb as [Hf Hb]. pose proof A as [H1 H2 H3 H4 H5].
    set (s1 := MkPacking _ _ _ _ _ _ _). assert (A1 : arrays_ok s1).
    { constructor; cbn [table check maxtable lowzero high s1]; unfold cell_set; rewrite ?length_insert; try done. destruct (Z.ltb_spec (high s) (j + f)); lia. }
    destruct (IH to j s1 ltac:(lia) A1 Hb) as (B1 & B2 & B3 & B4 & B5 & B6 & B7 & B8).
    assert (Hh : high s <= high s1 /\ j + f <= high s1) by (cbn [high s1]; destruct (Z.ltb_spec (high s) (j + f)); lia).
    split; [done|]. split; [done|]. split; [done|]. split; [done|]. split; [done|]. split; [lia|]. split; [constructor; [lia|done]|].
    intros i Hi. specialize (B8 i Hi). cbn [assoc].
    assert (E1 : check s1 !!! Z.to_nat i = if j + f =? i then f else check s !!! Z.to_nat i) by (apply cell_set_lookup; lia).
    assert (E2 : table s1 !!! Z.to_nat i = if j + f =? i then t else table s !!! Z.to_nat i) by (apply cell_set_lookup; lia).
    destruct (assoc (i - j) from to) as [x|] eqn:Ea; [done|]. destruct B8 as [-> ->]. destruct (Z.eqb_spec f (i - j)) as [->|Hne].
    + rewrite (proj2 (Z.eqb_eq _ _)) in E1, E2 by lia. done.
    + rewrite (proj2 (Z.eqb_neq _ _)) in E1, E2 by lia. done.
Qed.

Lemma next_lowzero_spec n : forall low s, 0 <= low <= maxtable s -> 0 <= next_lowzero n low s <= maxtable s.
Proof.
  induction n as [|n IH]; intros low s Hl; cbn [next_lowzero]; [done|]. destruct (Z.ltb_spec low (maxtable s)); cbn [andb]; [|done].
  destruct (negb _); [|done]. apply IH. lia.
Qed.

Lemma first_offset_spec from s : Forall (fun f => 0 <= first_offset from s + f) from \/ lowzero s < 0.
Proof.
  destruct (Z.le_gt_cases 0 (lowzero s)) as [Hl|]; [left|now right]. destruct from as [|f from]; [constructor|]. cbn [first_offset].
  assert (H : forall l j, let j' := fold_left (fun j f => if j <? lowzero s - f then lowzero s - f else j) l j in j <= j' /\ Forall (fun f => 0 <= j' + f) l).
  { induction l as [|x l IH]; intros j j'; unfold j'; cbn [fold_left]; [split; [lia|constructor]|]. 
    destruct (IH (if j <? lowzero s - x then lowzero s - x else j)) as [H1 H2]. destruct (Z.ltb_spec j (lowzero s - x)); (split; [lia|constructor; [lia|done]]). }
  destruct (H from (lowzero s - f)) as [H1 H2]. constructor; [lia|done].
Qed.

(** A vector is placed where nothing is, or the table is too small. *)
Record placed_at (from to : list Z) (j : Z) (s s' : packing) : Prop := {
  pl_arrays : arrays_ok s';
  pl_base : base s' = base s;
  pl_pos : pos s' = pos s;
  pl_new : j <> 0 /\ j ∉ pos s;
  pl_high : Forall (fun f => 0 <= j + f <= high s') from;
  pl_grow : maxtable s <= maxtable s' /\ high s <= high s';
  pl_free i : 0 <= i < maxtable s -> is_Some (assoc (i - j) from to) -> check s !!! Z.to_nat i = -1;
  pl_cells i : 0 <= i < maxtable s' ->
    match assoc (i - j) from to with
    | Some x => check s' !!! Z.to_nat i = i - j /\ table s' !!! Z.to_nat i = x
    | None => if i <? maxtable s then check s' !!! Z.to_nat i = check s !!! Z.to_nat i /\ table s' !!! Z.to_nat i = table s !!! Z.to_nat i
              else check s' !!! Z.to_nat i = -1
    end
}.

Lemma place_spec from to j s s1 : length from = length to -> arrays_ok s -> extends s s1 -> arrays_ok s1 -> Forall (fun f => 0 <= j + f) from ->
  Forall (fun f => j + f < maxtable s1 /\ check s1 !!! Z.to_nat (j + f) = -1) from -> j <> 0 -> j ∉ pos s ->
  let s2 := write_entries from to j s1 in
  placed_at from to j s (MkPacking (base s2) (pos s2) (maxtable s2) (table s2) (check s2) (next_lowzero (Z.to_nat (maxtable s2)) (lowzero s2) s2) (high s2)).
Proof.
  intros Hl A He A1 Hpos Hfree Hj Hnin s2. pose proof He as (Eb & Ep & El & Eh & k & Et & Ec & Em).
  destruct (write_entries_spec from to j s1 Hl A1) as (B1 & B2 & B3 & B4 & B5 & B6 & B7 & B8).
  { apply Forall_forall. intros f Hf. rewrite Forall_forall in Hpos, Hfree. specialize (Hpos f Hf). destruct (Hfree f Hf). lia. }
  fold s2 in B1, B2, B3, B4, B5, B6, B7, B8.
  constructor; cbn [base pos maxtable table check lowzero high].
  - destruct B1. constructor; cbn [maxtable table check lowzero high]; try done. now apply next_lowzero_spec.
  - congruence.
  - congruence.
  - done.
  - apply Forall_forall. intros f Hf. rewrite Forall_forall in Hpos, B7. specialize (Hpos f Hf). specialize (B7 f Hf). lia.
  - lia.
  - intros i Hi [x Hx]. apply assoc_in in Hx. rewrite Forall_forall in Hfree. destruct (Hfree _ Hx) as [_ Hc]. replace (j + (i - j)) with i in Hc by lia.
    rewrite <- Hc. symmetry. now apply (extends_cell s s1 i He A).
  - intros i Hi. rewrite B4 in Hi. specialize (B8 i Hi). destruct (assoc (i - j) from to); [done|]. destruct B8 as [-> ->].
    destruct (extends_cell s s1 i He A ltac:(lia)) as [C1 C2]. destruct (Z.ltb_spec i (maxtable s)); [split; now apply C1|apply C2; lia].
Qed.

Lemma pack_loop_spec fuel : forall f0 from to j s, length (f0 :: from) = length to -> arrays_ok s ->
  Forall (fun f => 0 <= j + f) (f0 :: from) -> (1 < fuel)%nat \/ ((0 < fuel)%nat /\ j <> 0) -> MAXTABLE + 202 <= Z.of_nat fuel + j + f0 ->
  (pack_loop fuel (f0 :: from) to j s = Fatal_error "maximum table size exceeded") \/
  exists j' s0 s', pack_loop fuel (f0 :: from) to j s = Done (j', s') /\ extends s s0 /\ arrays_ok s0 /\ placed_at (f0 :: from) to j' s0 s'.
Proof.
  induction fuel as [|fuel IH]; intros f0 from to j s Hl A Hpos Hfuel Hsum; [lia|]. cbn [pack_loop].
  assert (Hpos' : Forall (fun f => 0 <= j + 1 + f) (f0 :: from)) by (eapply Forall_impl; [exact Hpos|]; cbn; lia).
  destruct (Z.eqb_spec j 0) as [Hj|Hj].
  - apply IH; try done; lia.
  - destruct (is_free_spec (f0 :: from) j Hpos s A) as [[-> _]|(ok & s0 & E & He & A0 & Hok)]; [now left|]. rewrite E.
    pose proof He as (_ & Ep & _). destruct (ok && negb (bool_decide (j ∈ pos s0))) eqn:Eok.
    + right. apply andb_true_iff in Eok as [-> Hn]. apply negb_true_iff, bool_decide_eq_false in Hn. exists j, s. eexists. split; [reflexivity|]. split; [apply extends_refl|]. split; [done|].
      rewrite Ep in Hn. apply (place_spec (f0 :: from) to j s s0); auto.
    + assert (Hj0 : j + f0 < MAXTABLE + 200).
      { destruct (Z.lt_ge_cases (j + f0) (MAXTABLE + 200)) as [|Hge]; [done|]. exfalso. cbn [is_free] in E. pose proof (ao_max s A).
        rewrite (proj2 (Z.leb_le (maxtable s) (j + f0))) in E by lia. rewrite (proj2 (Z.leb_le MAXTABLE (j + f0))) in E by (unfold MAXTABLE in *; lia). done. }
      destruct (IH f0 from to (j + 1) s0 Hl A0 Hpos' ltac:(unfold MAXTABLE in *; lia) ltac:(lia)) as [->|(j' & s1 & s' & E' & He' & A1 & P)]; [now left|right].
      exists j', s1, s'. split; [done|]. split; [now apply (extends_trans _ s0)|]. done.
Qed.

(** ** The invariant *)

Section Packed.
Context (vs : vectors).

(** The vectors are those [token_actions] and [save_column] fill. *)
Definition vector_ok (v : nat) : Prop :=
  Z.of_nat (length (froms vs v)) = tally vs v /\ Z.of_nat (length (tos vs v)) = tally vs v /\ Forall (fun f => 0 <= f <= 32767) (froms vs v).
(** The actions and the states are [short]s. *)
Definition shorts_ok (v : nat) : Prop := Forall (fun t => -32768 <= t < 32768) (tos vs v).
Definition vectors_ok : Prop := forall v, (v < nvectors vs)%nat -> 0 < tally vs v -> vector_ok v.

Record packed (placed : list nat) (s : packing) : Prop := {
  pk_arrays : arrays_ok s;
  pk_ok v : v ∈ placed -> vector_ok v;
  pk_nonzero v : v ∈ placed -> base_of s v <> 0;
  pk_pos v : v ∈ placed -> base_of s v ∈ pos s;
  pk_none v : v ∉ placed -> base s !! v = None;
  pk_same u v : u ∈ placed -> v ∈ placed -> base_of s u = base_of s v -> froms vs u = froms vs v /\ tos vs u = tos vs v;
  pk_cells i : 0 <= i < maxtable s -> check s !!! Z.to_nat i = -1 \/
    exists v, v ∈ placed /\ check s !!! Z.to_nat i = i - base_of s v /\ i - base_of s v ∈ froms vs v;
  pk_entries v c x : v ∈ placed -> entry_of vs v c = Some x ->
    0 <= base_of s v + c <= high s /\ check s !!! Z.to_nat (base_of s v + c) = c /\ table s !!! Z.to_nat (base_of s v + c) = x
}.

Lemma base_of_insert s v p u m l c t k h : base_of (MkPacking (<[v := p]> (base s)) m l c t k h) u = if decide (u = v) then p else base_of s u.
Proof.
  unfold base_of. cbn [base]. destruct (decide (u = v)) as [->|Hne]; [now rewrite lookup_insert_eq|now rewrite lookup_insert_ne].
Qed.

Lemma base_of_place v p s u : base_of (set_place v p s) u = if decide (u = v) then p else base_of s u.
Proof. apply base_of_insert. Qed.

(** The table grows. *)
Lemma packed_extends placed s s' : packed placed s -> extends s s' -> arrays_ok s' -> packed placed s'.
Proof.
  intros [A1 A2 A3 A4 A5 A6 A7 A8] He A'. pose proof He as (Eb & Ep & El & Eh & k & _ & _ & Em).
  assert (Ebo : forall v, base_of s' v = base_of s v) by (intros v; unfold base_of; now rewrite Eb).
  constructor; [done|done|intros v; rewrite Ebo; auto|intros v; rewrite Ebo, Ep; auto|intros v; rewrite Eb; auto|intros u v; rewrite !Ebo; auto|..].
  - intros i Hi. destruct (extends_cell s s' i He A1 ltac:(lia)) as [C1 C2]. destruct (Z.lt_ge_cases i (maxtable s)) as [Hlt|Hge]; [|left; apply C2; lia].
    destruct (C1 Hlt) as [_ ->]. destruct (A7 i ltac:(lia)) as [H|(v & H1 & H2 & H3)]; [now left|right]. exists v. now rewrite Ebo.
  - intros v c x Hv Hx. rewrite Ebo, Eh. destruct (A8 v c x Hv Hx) as (H1 & H2 & H3). split; [done|]. pose proof (ao_high s A1).
    destruct (proj1 (extends_cell s s' _ He A1 (proj1 H1)) ltac:(lia)) as [-> ->]. done.
Qed.

Lemma pos_snoc {A} (l : list A) x y : x ∈ l ++ [y] <-> x ∈ l \/ x = y.
Proof. now rewrite elem_of_app, list_elem_of_singleton. Qed.

(** A vector is written. *)
Lemma packed_place placed v j s s' : packed placed s -> vector_ok v -> v ∉ placed -> placed_at (froms vs v) (tos vs v) j s s' ->
  packed (placed ++ [v]) (set_place v j s').
Proof.
  intros [A1 A2 A3 A4 A5 A6 A7 A8] Hv Hnin [P1 P2 P3 [P4 P5] P6 [P7 P7'] P8 P9].
  assert (Ebo : forall u, u ∈ placed -> base_of (set_place v j s') u = base_of s u).
  { intros u Hu. rewrite base_of_place. destruct (decide (u = v)) as [->|]; [done|]. unfold base_of. now rewrite P2. }
  assert (Ebv : base_of (set_place v j s') v = j) by (rewrite base_of_place; now rewrite decide_True).
  assert (Hne : forall u, u ∈ placed -> base_of s u <> j) by (intros u Hu E; apply P5; rewrite <- E; auto).
  assert (Epos : pos (set_place v j s') = pos s' ++ [j]) by done. assert (Eb : base (set_place v j s') = <[v := j]> (base s')) by done.
  change (high s') with (high (set_place v j s')) in *. change (check s') with (check (set_place v j s')) in *. change (table s') with (table (set_place v j s')) in *.
  change (maxtable s') with (maxtable (set_place v j s')) in *. assert (P1' : arrays_ok (set_place v j s')) by (destruct P1; now constructor).
  constructor.
  - exact P1'.
  - intros u [Hu| ->]%pos_snoc; auto.
  - intros u [Hu| ->]%pos_snoc; [rewrite Ebo by done; auto|now rewrite Ebv].
  - intros u [Hu| ->]%pos_snoc; rewrite Epos; apply pos_snoc; [left; rewrite Ebo, P3 by done; auto|right; now rewrite Ebv].
  - intros u [Hu Huv]%not_elem_of_app. rewrite Eb, lookup_insert_ne by (intros ->; apply Huv, list_elem_of_here). rewrite P2. auto.
  - intros u w [Hu| ->]%pos_snoc [Hw| ->]%pos_snoc; [rewrite !Ebo by done; auto|rewrite Ebo, Ebv by done; intros E; now destruct (Hne u Hu)|
      rewrite Ebv, Ebo by done; intros E; destruct (Hne w Hw); congruence|done].
  - intros i Hi. specialize (P9 i Hi). destruct (assoc (i - j) (froms vs v) (tos vs v)) as [x|] eqn:Ea.
    + right. exists v. rewrite Ebv. split; [apply pos_snoc; now right|]. split; [apply P9|]. now apply assoc_in in Ea.
    + destruct (Z.ltb_spec i (maxtable s)) as [Hlt|Hge]; [|left; exact P9]. destruct P9 as [-> _].
      destruct (A7 i ltac:(lia)) as [H|(u & H1 & H2 & H3)]; [now left|right]. exists u. rewrite Ebo by done. split; [apply pos_snoc; now left|done].
  - intros u c x [Hu| ->]%pos_snoc Hx.
    + rewrite Ebo by done. destruct (A8 u c x Hu Hx) as (H1 & H2 & H3). split; [lia|]. pose proof (ao_high s A1).
      specialize (P9 (base_of s u + c) ltac:(lia)). destruct (assoc (base_of s u + c - j) (froms vs v) (tos vs v)) as [y|] eqn:Ea.
      * exfalso. specialize (P8 (base_of s u + c) ltac:(lia) ltac:(rewrite Ea; eauto)). rewrite H2 in P8. destruct (A2 u Hu) as (_ & _ & Hf). rewrite Forall_forall in Hf.
        apply assoc_in in Hx. specialize (Hf _ Hx). lia.
      * rewrite (proj2 (Z.ltb_lt _ _)) in P9 by lia. destruct P9 as [-> ->]. done.
    + rewrite Ebv. pose proof (assoc_in _ _ _ _ Hx) as Hc. rewrite Forall_forall in P6. specialize (P6 c Hc). split; [done|].
      pose proof (ao_high _ P1'). specialize (P9 (j + c) ltac:(lia)). replace (j + c - j) with c in P9 by lia. unfold entry_of in Hx. now rewrite Hx in P9.
Qed.

(** A vector shares the place of an equal one. *)
Lemma packed_match placed v u s : packed placed s -> vector_ok v -> v ∉ placed -> u ∈ placed -> froms vs u = froms vs v -> tos vs u = tos vs v ->
  packed (placed ++ [v]) (set_place v (base_of s u) s).
Proof.
  intros [A1 A2 A3 A4 A5 A6 A7 A8] Hv Hnin Hu Ef Et.
  assert (Ebo : forall w, w ∈ placed -> base_of (set_place v (base_of s u) s) w = base_of s w).
  { intros w Hw. rewrite base_of_place. now destruct (decide (w = v)) as [->|]. }
  assert (Ebv : base_of (set_place v (base_of s u) s) v = base_of s u) by (rewrite base_of_place; now rewrite decide_True).
  assert (Epos : pos (set_place v (base_of s u) s) = pos s ++ [base_of s u]) by done.
  assert (Eb : base (set_place v (base_of s u) s) = <[v := base_of s u]> (base s)) by done.
  change (high s) with (high (set_place v (base_of s u) s)) in A8. change (check s) with (check (set_place v (base_of s u) s)) in A7, A8.
  change (table s) with (table (set_place v (base_of s u) s)) in A8. change (maxtable s) with (maxtable (set_place v (base_of s u) s)) in A7.
  constructor.
  - destruct A1. now constructor.
  - intros w [Hw| ->]%pos_snoc; auto.
  - intros w [Hw| ->]%pos_snoc; [rewrite Ebo by done; auto|rewrite Ebv; auto].
  - intros w [Hw| ->]%pos_snoc; rewrite Epos; apply pos_snoc; [left; rewrite Ebo by done; auto|right; exact Ebv].
  - intros w [Hw Hwv]%not_elem_of_app. rewrite Eb, lookup_insert_ne by (intros ->; apply Hwv, list_elem_of_here). auto.
  - intros w w' [Hw| ->]%pos_snoc [Hw'| ->]%pos_snoc; [rewrite !Ebo by done; auto|rewrite Ebo, Ebv, <- Ef, <- Et by done; auto|
      rewrite Ebv, Ebo, <- Ef, <- Et by done; auto|done].
  - intros i Hi. destruct (A7 i Hi) as [H|(w & H1 & H2 & H3)]; [now left|right]. exists w. rewrite Ebo by done. split; [apply pos_snoc; now left|done].
  - intros w c x [Hw| ->]%pos_snoc Hx; [rewrite Ebo by done; auto|]. rewrite Ebv. apply A8; [done|]. unfold entry_of in *. now rewrite Ef, Et.
Qed.

(** ** The order of the vectors *)

Lemma insert_entry_perm i order : insert_entry vs i order ≡ₚ i :: order.
Proof. unfold insert_entry. cbn zeta. set (j := back _ _ _). rewrite <- Permutation_middle. now rewrite take_drop. Qed.

Lemma sort_loop_perm n : forall i order, sort_loop vs n i order ≡ₚ filter (fun v => 0 < tally vs v) (seq i n) ++ order.
Proof.
  induction n as [|n IH]; intros i order; cbn [sort_loop seq]; [done|]. rewrite IH, filter_cons. destruct (Z.ltb_spec 0 (tally vs i)) as [Ht|Ht].
  - rewrite decide_True by done. rewrite insert_entry_perm. cbn [app]. now rewrite <- Permutation_middle.
  - rewrite decide_False by lia. done.
Qed.

Lemma sort_actions_spec : NoDup (sort_actions vs) /\ forall v, v ∈ sort_actions vs <-> (v < nvectors vs)%nat /\ 0 < tally vs v.
Proof.
  unfold sort_actions. pose proof (sort_loop_perm (nvectors vs) 0 []) as H. rewrite app_nil_r in H. split.
  - rewrite H. apply NoDup_filter, NoDup_seq.
  - intros v. rewrite H, list_elem_of_filter, elem_of_seq. lia.
Qed.

(** ** The loop *)

Lemma match_loop_spec i order prev u : match_loop vs i prev order = Some u -> (prev <= length order)%nat ->
  u ∈ take prev order /\ tally vs u = tally vs i /\ take (Z.to_nat (tally vs i)) (tos vs u) = take (Z.to_nat (tally vs i)) (tos vs i) /\
  take (Z.to_nat (tally vs i)) (froms vs u) = take (Z.to_nat (tally vs i)) (froms vs i).
Proof.
  induction prev as [|prev IH]; cbn [match_loop]; [done|]. intros H Hp. destruct (lookup_lt_is_Some_2 order prev ltac:(lia)) as [x Hx].
  rewrite (list_lookup_total_correct _ _ _ Hx) in H. rewrite (take_S_r _ _ _ Hx), pos_snoc. destruct (_ || _) eqn:E; [done|].
  apply orb_false_iff in E as [_ E]. apply negb_false_iff, Z.eqb_eq in E. destruct (bool_decide_reflect (take (Z.to_nat (tally vs i)) (tos vs x) = take (Z.to_nat (tally vs i)) (tos vs i) /\
    take (Z.to_nat (tally vs i)) (froms vs x) = take (Z.to_nat (tally vs i)) (froms vs i))) as [Hd|Hd].
  - injection H as <-. split; [now right|]. split; [done|exact Hd].
  - destruct (IH H ltac:(lia)) as [H1 H2]. split; [now left|done].
Qed.

Lemma take_all {A} (l : list A) t : Z.of_nat (length l) = t -> take (Z.to_nat t) l = l.
Proof. intros <-. rewrite Nat2Z.id. now apply take_ge. Qed.

(** Turns that suffice for a vector. *)
Definition pack_fuel : nat := Z.to_nat (MAXTABLE + 203).

Lemma pack_entry order placed i v s : packed placed s -> NoDup order -> (forall u, u ∈ order -> vector_ok u /\ 0 < tally vs u) -> order !! i = Some v -> placed = take i order ->
  forall fuel, (pack_fuel <= fuel)%nat ->
  match matching_vector vs order i with
  | Some u => packed (placed ++ [v]) (set_place v (base_of s u) s)
  | None =>
      match pack_vector vs fuel order i s with
      | Done (place, s') => packed (placed ++ [v]) (set_place v place s')
      | Fatal_error msg => msg = "maximum table size exceeded"%string
      | Unfinished => False
      end
  end.
Proof.
  intros P Hnd Hok Hi -> fuel Hfuel. destruct (Hok v (list_elem_of_lookup_2 _ _ _ Hi)) as [Hv Ht]. pose proof Hv as (L1 & L2 & L4).
  assert (Hnin : v ∉ take i order).
  { intros [k Hk]%list_elem_of_lookup. pose proof (lookup_lt_Some _ _ _ Hk) as Hlt. rewrite length_take in Hlt. rewrite lookup_take_lt in Hk by lia.
    pose proof (NoDup_lookup _ _ _ _ Hnd Hk Hi). lia. }
  destruct (matching_vector vs order i) as [u|] eqn:Em.
  - unfold matching_vector in Em. rewrite (list_lookup_total_correct _ _ _ Hi) in Em. destruct (_ <=? _)%nat; [done|].
    apply match_loop_spec in Em as (Hu & Etal & Eto & Efr); [|apply lookup_lt_Some in Hi; lia]. 
    destruct (Hok u) as [(U1 & U2 & _) _]; [rewrite <- (take_drop i order); apply elem_of_app; now left|].
    rewrite <- Etal in Eto, Efr at 1. rewrite !take_all in Eto, Efr by congruence. now apply packed_match.
  - unfold pack_vector. rewrite (list_lookup_total_correct _ _ _ Hi). rewrite !take_all by done. destruct (froms vs v) as [|f0 from] eqn:Ef; [cbn [length] in L1; lia|].
    pose proof (pk_arrays _ _ P) as A. pose proof (ao_low s A) as Hlow. destruct (first_offset_spec (f0 :: from) s) as [Hoff|]; [|lia].
    destruct (pack_loop_spec fuel f0 from (tos vs v) (first_offset (f0 :: from) s) s ltac:(lia) A Hoff) as [->|(j & s0 & s' & -> & He & A0 & Pl)]; [| |done|].
    + unfold pack_fuel, MAXTABLE in *. lia.
    + unfold pack_fuel, MAXTABLE in *. apply Forall_cons in Hoff as [Hoff _]. lia.
    + apply (packed_place _ v j s0 s'); [now apply (packed_extends _ s)|done|done|now rewrite Ef].
Qed.

Lemma pack_entries_spec order fuel n : NoDup order -> (forall u, u ∈ order -> vector_ok u /\ 0 < tally vs u) -> (pack_fuel <= fuel)%nat ->
  forall i s, (i + n = length order)%nat -> packed (take i order) s ->
  pack_entries vs n fuel order i s = Fatal_error "maximum table size exceeded" \/ exists s', pack_entries vs n fuel order i s = Done s' /\ packed order s'.
Proof.
  intros Hnd Hok Hf. induction n as [|n IH]; intros i s Hi P; cbn [pack_entries].
  - right. exists s. rewrite take_ge in P by lia. done.
  - destruct (lookup_lt_is_Some_2 order i ltac:(lia)) as [v Hv]. pose proof (pack_entry order _ i v s P Hnd Hok Hv eq_refl fuel Hf) as H.
    rewrite (list_lookup_total_correct _ _ _ Hv). rewrite <- (take_S_r _ _ _ Hv) in H. destruct (matching_vector vs order i) as [u|].
    + apply IH; [lia|done].
    + destruct (pack_vector vs fuel order i s) as [[p s']|msg|]; [apply IH; [lia|done]|left; now rewrite H|done].
Qed.

Lemma packed_start : packed [] (MkPacking ∅ [] 1000 (repeat 0 1000) (repeat (-1) 1000) 0 0).
Proof.
  assert (H0 : forall v : nat, v ∈ [] -> False) by (intros v Hv; now apply not_elem_of_nil in Hv).
  constructor; [|intros v Hv; destruct (H0 v Hv)..|intros v _; done|intros u v Hu; destruct (H0 u Hu)| |intros v c x Hv; destruct (H0 v Hv)].
  - constructor; cbn [table check maxtable lowzero high]; rewrite ?repeat_length; unfold MAXTABLE; lia.
  - cbn [maxtable check]. intros i Hi. left. destruct (lookup_lt_is_Some_2 (repeat (-1) 1000) (Z.to_nat i)) as [x Hx]; [rewrite repeat_length; lia|].
    rewrite (list_lookup_total_correct _ _ _ Hx). apply list_elem_of_lookup_2, list_elem_of_In, repeat_spec in Hx. done.
Qed.

(** What the tables give for [c] in the row of the vector [v]. *)
Definition found (s : packing) (v : nat) (c : Z) : option Z :=
  let b := base_of s v in
  if negb (b =? 0) && (0 <=? b + c) && (b + c <=? high s) && (check s !!! Z.to_nat (b + c) =? c) then Some (table s !!! Z.to_nat (b + c)) else None.

Lemma found_entry placed s v c : packed placed s -> 0 <= c -> v ∈ placed -> found s v c = entry_of vs v c.
Proof.
  intros P Hc Hv. unfold found. pose proof (pk_nonzero _ _ P v Hv) as Hb. rewrite (proj2 (Z.eqb_neq _ _) Hb). cbn [negb andb]. pose proof (pk_arrays _ _ P) as A.
  destruct (entry_of vs v c) as [x|] eqn:Ex.
  - destruct (pk_entries _ _ P v c x Hv Ex) as ([H1 H2] & H3 & H4). rewrite (proj2 (Z.leb_le _ _) H1), (proj2 (Z.leb_le _ _) H2), H3, H4, Z.eqb_refl. done.
  - destruct (Z.leb_spec 0 (base_of s v + c)) as [H1|]; [|done]. destruct (Z.leb_spec (base_of s v + c) (high s)) as [H2|]; [|done]. cbn [andb].
    destruct (Z.eqb_spec (check s !!! Z.to_nat (base_of s v + c)) c) as [H3|]; [|done]. exfalso. pose proof (ao_high s A) as Hh.
    destruct (pk_cells _ _ P (base_of s v + c) ltac:(lia)) as [H6|(u & Hu & H4 & H5)]; [lia|]. rewrite H3 in H4.
    destruct (pk_same _ _ P u v Hu Hv ltac:(lia)) as [Ef Et]. replace (base_of s v + c - base_of s u) with c in H5 by lia. rewrite Ef in H5.
    destruct (pk_ok _ _ P v Hv) as (L1 & L2 & _). destruct (in_assoc c (froms vs v) (tos vs v) ltac:(lia) H5) as [x Hx]. unfold entry_of in Ex. congruence.
Qed.

Lemma found_none placed s v c : packed placed s -> v ∉ placed -> found s v c = None.
Proof. intros P Hv. unfold found, base_of. now rewrite (pk_none _ _ P v Hv). Qed.

Lemma pack_table_spec fuel : vectors_ok -> (pack_fuel <= fuel)%nat ->
  match pack_table vs fuel (sort_actions vs) with
  | Done s => packed (sort_actions vs) s /\ forall v c, (v < nvectors vs)%nat -> 0 <= c -> found s v c = if 0 <? tally vs v then entry_of vs v c else None
  | Fatal_error msg => msg = "maximum table size exceeded"%string
  | Unfinished => False
  end.
Proof.
  intros Hok Hf. destruct sort_actions_spec as [Hnd Hin]. unfold pack_table.
  destruct (pack_entries_spec (sort_actions vs) fuel (length (sort_actions vs)) Hnd) with (i := O) (s := MkPacking ∅ [] 1000 (repeat 0 1000) (repeat (-1) 1000) 0 0)
    as [->|(s & -> & P)]; [intros u [Hu Ht]%Hin; split; [now apply Hok|done]|done|done|apply packed_start|done|].
  split; [done|]. intros v c Hv Hc. destruct (Z.ltb_spec 0 (tally vs v)) as [Ht|Ht].
  - apply (found_entry (sort_actions vs)); [done|done|]. apply Hin. done.
  - apply (found_none (sort_actions vs)); [done|]. rewrite Hin. lia.
Qed.
End Packed.
