(* ===== verification/Output.v ===== *)
(** * The tables as the engine reads them

    Models the functions of [yacc/output.c] that print the arrays as strings of an OCaml
    program, and the part of the OCaml lexer that reads them back, and shows that the
    parser engine finds in the strings the entries of the vectors that were packed. *)

From stdpp Require Import strings.
From S2P Require Import Prelude Warshall Closure Lr0 Lexing Parsing Pack.

(** ** Printing *)

(** The characters written. *)
Definition output_char (n : Z) : list Z := let n := Z.land n 255 in [92; 48 + n / 100; 48 + n / 10 mod 10; 48 + n mod 10].
Definition output_short (n : Z) : list Z := output_char (u32 n) ++ output_char (u32 (Z.shiftr n 8)).

(** A backslash and a newline before every eighth number; [j] counts them. *)
Fixpoint output_rest (j : nat) (l : list Z) : list Z :=
  match l with
  | [] => []
  | x :: l => if (8 <=? j)%nat then [92; 10] ++ output_short x ++ output_rest 1 l else output_short x ++ output_rest (S j) l
  end.
(** What is between the quotes. *)
Definition output_array (l : list Z) : list Z :=
  match l with [] => [] | x :: l => output_short x ++ output_rest 8 l end.

(** The arrays of [output_base], [output_table] and [output_check]. *)
Section Printed.
Context (vs : vectors) (s : packing).
Definition bases (i n : nat) : list Z := map (base_of s) (seq i n).
Definition yysindex : list Z := output_array (bases 0 (v_nstates vs)).
Definition yyrindex : list Z := output_array (bases (v_nstates vs) (v_nstates vs)).
Definition yygindex : list Z := output_array (bases (2 * v_nstates vs) (nvectors vs - 1 - 2 * v_nstates vs)).
Definition yytablesize : Z := high s.
Definition yytable : list Z := output_array (take (S (Z.to_nat (high s))) (Pack.table s)).
Definition yycheck : list Z := output_array (take (S (Z.to_nat (high s))) (Pack.check s)).
End Printed.

(** ** Reading *)

(** The digits of [char_for_decimal_code]. *)
Definition is_digit (c : Z) : bool := (48 <=? c) && (c <=? 57).
Definition char_for_decimal_code (a b c : Z) : Z := 100 * (a - 48) + 10 * (b - 48) + (c - 48).

(** The rule [string] on what these functions write: an escape of three digits, or a
    backslash at the end of a line; the blanks that follow it are skipped, [skip] says. *)
Fixpoint read_string (fuel : nat) (skip : bool) (l : list Z) : option (list Z) :=
  match fuel with
  | O => None
  | S fuel =>
      match l with
      | [] => Some []
      | 92 :: 10 :: l => read_string fuel true l
      | 92 :: a :: b :: c :: l =>
          if is_digit a && is_digit b && is_digit c && (char_for_decimal_code a b c <=? 255) then
            option_map (cons (char_for_decimal_code a b c)) (read_string fuel false l)
          else None
      | c :: l => if skip && ((c =? 32) || (c =? 9)) then read_string fuel true l else None
      end
  end.

Definition short_bytes (n : Z) : list Z := [Z.land n 255; Z.land (Z.shiftr n 8) 255].

Lemma land_u32 n : Z.land (u32 n) 255 = Z.land n 255.
Proof. change 255 with (Z.ones 8). unfold u32. rewrite !Z.land_ones by lia. change B32 with (2 ^ 32). rewrite Z.mod_mod_divide; [done|]. now exists (2 ^ 24). Qed.

Lemma read_char fuel skip n l : read_string (S fuel) skip (output_char (u32 n) ++ l) = option_map (cons (Z.land n 255)) (read_string fuel false l).
Proof.
  unfold output_char. rewrite land_u32. set (m := Z.land n 255). assert (Hm : 0 <= m < 256) by (unfold m; change 255 with (Z.ones 8); rewrite Z.land_ones by lia; apply Z.mod_pos_bound; lia).
  assert (Ha : 48 <= 48 + m / 100 <= 57) by zlia. assert (Hb : 48 <= 48 + m / 10 mod 10 <= 57) by zlia. assert (Hc : 48 <= 48 + m mod 10 <= 57) by zlia.
  assert (Hd : char_for_decimal_code (48 + m / 100) (48 + m / 10 mod 10) (48 + m mod 10) = m) by (unfold char_for_decimal_code; zlia).
  revert Ha Hb Hc Hd. generalize (48 + m / 100) (48 + m / 10 mod 10) (48 + m mod 10). intros a b c Ha Hb Hc Hd.
  assert (Hdig : is_digit a && is_digit b && is_digit c && (char_for_decimal_code a b c <=? 255) = true).
  { unfold is_digit. rewrite Hd. rewrite !(proj2 (Z.leb_le _ _)) by lia. done. }
  assert (E : read_string (S fuel) skip (92 :: a :: b :: c :: l) = if is_digit a && is_digit b && is_digit c && (char_for_decimal_code a b c <=? 255) then
            option_map (cons (char_for_decimal_code a b c)) (read_string fuel false l) else None).
  { assert (Ha10 : a <> 10) by lia. clear -Ha10. cbn [read_string]. destruct a as [|p|p]; try done. do 4 (destruct p as [p|p|]; try done). }
  cbn [app]. rewrite E, Hdig, Hd. done.
Qed.

Lemma read_short fuel skip n l : read_string (S (S fuel)) skip (output_short n ++ l) = option_map (app (short_bytes n)) (read_string fuel false l).
Proof.
  unfold output_short. rewrite <- app_assoc, read_char, read_char. unfold short_bytes. now destruct (read_string fuel false l).
Qed.

Lemma read_newline fuel skip l : read_string (S fuel) skip ([92; 10] ++ l) = read_string fuel true l.
Proof. done. Qed.

Lemma read_rest l : forall fuel skip j, (3 * length l < fuel)%nat -> read_string fuel skip (output_rest j l) = Some (concat (map short_bytes l)).
Proof.
  induction l as [|x l IH]; intros fuel skip j Hf; cbn [length] in Hf; destruct fuel as [|fuel]; try lia; [done|].
  assert (H : forall fuel skip j, (3 * length l + 2 < fuel)%nat -> read_string fuel skip (output_short x ++ output_rest j l) = Some (concat (map short_bytes (x :: l)))).
  { intros fu sk k Hfu. destruct fu as [|[|fu]]; [lia|lia|]. rewrite read_short, IH by lia. done. }
  cbn [output_rest]. destruct (8 <=? j)%nat; [rewrite read_newline|]; apply H; lia.
Qed.

Lemma read_array l fuel : (3 * length l < fuel)%nat -> read_string fuel false (output_array l) = Some (concat (map short_bytes l)).
Proof.
  destruct l as [|x l]; cbn [output_array length map concat]; intros Hf; [destruct fuel; [lia|done]|].
  destruct fuel as [|[|fuel]]; [lia|lia|]. rewrite read_short, read_rest by lia. done.
Qed.

Lemma short_bytes_shorts l : concat (map short_bytes l) = shorts_of l.
Proof.
  induction l as [|x l IH]; [done|]. unfold shorts_of. cbn [map concat]. rewrite IH. unfold short_bytes. change 255 with (Z.ones 8).
  rewrite !Z.land_ones, Z.shiftr_div_pow2 by lia. done.
Qed.

(** The engine reads what was written. *)
Lemma Short_shorts_of l : forall i x, l !! i = Some x -> -32768 <= x < 32768 -> Short (shorts_of l) (Z.of_nat i) = x.
Proof.
  induction l as [|y l IH]; intros i x Hi Hx; [done|]. unfold Short in *. destruct i as [|i].
  - injection Hi as ->. change (shorts_of (x :: l)) with (x mod 256 :: (x / 256) mod 256 :: shorts_of l).
    change (Z.to_nat (2 * Z.of_nat 0 + 0)) with 0%nat. change (Z.to_nat (2 * Z.of_nat 0 + 1)) with 1%nat. cbn [nth]. cbv zeta.
    destruct (Z.ltb_spec (x mod 256 + 256 * ((x / 256) mod 256)) 32768); zlia.
  - specialize (IH i x Hi Hx). change (shorts_of (y :: l)) with (y mod 256 :: (y / 256) mod 256 :: shorts_of l).
    replace (Z.to_nat (2 * Z.of_nat (S i) + 0)) with (S (S (Z.to_nat (2 * Z.of_nat i + 0)))) by lia.
    replace (Z.to_nat (2 * Z.of_nat (S i) + 1)) with (S (S (Z.to_nat (2 * Z.of_nat i + 1)))) by lia. exact IH.
Qed.

(** ** The engine on the tables printed *)

(** The tables are what the OCaml lexer makes of the strings. *)
Definition reads_as (l : list Z) (text : list Z) : Prop := exists fuel, read_string fuel false text = Some l.
Record printed (vs : vectors) (s : packing) (T : parser_tables) : Prop := {
  pr_sindex : reads_as (sindex T) (yysindex vs s);
  pr_rindex : reads_as (rindex T) (yyrindex vs s);
  pr_gindex : reads_as (gindex T) (yygindex vs s);
  pr_table : reads_as (Parsing.table T) (yytable s);
  pr_check : reads_as (Parsing.check T) (yycheck s);
  pr_size : tablesize T = yytablesize s
}.

Lemma read_string_more fuel : forall skip l r, read_string fuel skip l = Some r -> forall fuel', (fuel <= fuel')%nat -> read_string fuel' skip l = Some r.
Proof.
  induction fuel as [|fuel IH]; intros skip l r H fuel' Hf; [done|]. destruct fuel' as [|fuel']; [lia|]. cbn [read_string] in *.
  repeat match goal with
  | |- context [match ?x with _ => _ end] => is_var x; destruct x
  end; try done; try (eapply IH; [exact H|lia]).
  all: repeat match goal with |- context [if ?b then _ else _] => destruct b end; try done; try (eapply IH; [exact H|lia]).
  all: destruct (read_string fuel false _) as [r'|] eqn:E; [|done]; rewrite (IH _ _ _ E fuel') by lia; done.
Qed.

Lemma reads_array l text : reads_as l (output_array text) -> l = shorts_of text.
Proof.
  intros [fuel H]. pose proof (read_string_more _ _ _ _ H (fuel + S (3 * length text)) ltac:(lia)) as H'.
  rewrite read_array in H' by lia. injection H' as <-. apply short_bytes_shorts.
Qed.

Section Found.
Context (vs : vectors) (s : packing) (T : parser_tables) (placed : list nat).
Context (P : packed vs placed s) (PR : printed vs s T).
Context (Hne : forall v, v ∈ placed -> froms vs v <> []) (Hsh : forall v, v ∈ placed -> shorts_ok vs v).

Lemma base_range v : -32768 <= base_of s v < 32768.
Proof.
  destruct (decide (v ∈ placed)) as [Hv|Hv]; [|unfold base_of; rewrite (pk_none _ _ _ P v Hv); cbn; lia].
  destruct (pk_ok _ _ _ P v Hv) as (L1 & L2 & L4). specialize (Hne v Hv). destruct (froms vs v) as [|f from] eqn:Ef; [done|].
  destruct (in_assoc f (froms vs v) (tos vs v)) as [x Hx]; [rewrite Ef; lia|rewrite Ef; apply list_elem_of_here|].
  destruct (pk_entries _ _ _ P v f x Hv Hx) as ([H1 H2] & _). pose proof (ao_high s (pk_arrays _ _ _ P)). pose proof (ao_max s (pk_arrays _ _ _ P)).
  apply Forall_cons in L4 as [L4 _]. unfold MAXTABLE in *. lia.
Qed.

Lemma high_range : 0 <= high s < 32768.
Proof. pose proof (ao_high s (pk_arrays _ _ _ P)). pose proof (ao_max s (pk_arrays _ _ _ P)). unfold MAXTABLE in *. lia. Qed.

Lemma lookup_printed (l : list Z) i : 0 <= i <= high s -> (Z.to_nat (high s) < length l)%nat -> take (S (Z.to_nat (high s))) l !! Z.to_nat i = Some (l !!! Z.to_nat i).
Proof.
  intros Hi Hl. rewrite lookup_take_lt by lia. destruct (lookup_lt_is_Some_2 l (Z.to_nat i) ltac:(lia)) as [x Hx]. now rewrite (list_lookup_total_correct _ _ _ Hx).
Qed.

Lemma check_read i : 0 <= i <= high s -> Short (Parsing.check T) i = Pack.check s !!! Z.to_nat i.
Proof.
  intros Hi. pose proof (pk_arrays _ _ _ P) as A. pose proof (ao_high s A) as Hh. rewrite (reads_array _ _ (pr_check _ _ _ PR)).
  rewrite <- (Z2Nat.id i) by lia. apply Short_shorts_of; rewrite Z2Nat.id by lia; [apply lookup_printed; [done|pose proof (ao_check s A); lia]|].
  destruct (pk_cells _ _ _ P i ltac:(lia)) as [->|(v & Hv & -> & Hf)]; [lia|]. destruct (pk_ok _ _ _ P v Hv) as (_ & _ & L4).
  rewrite Forall_forall in L4. specialize (L4 _ Hf). lia.
Qed.

Lemma table_read v c x : v ∈ placed -> entry_of vs v c = Some x -> Short (Parsing.table T) (base_of s v + c) = x.
Proof.
  intros Hv Hx. destruct (pk_entries _ _ _ P v c x Hv Hx) as (H1 & _ & H3). pose proof (pk_arrays _ _ _ P) as A. pose proof (ao_high s A) as Hh.
  rewrite (reads_array _ _ (pr_table _ _ _ PR)). rewrite <- (Z2Nat.id (base_of s v + c)) by lia. apply Short_shorts_of.
  - rewrite lookup_printed; [now rewrite H3|done|]. pose proof (ao_table s A). lia.
  - specialize (Hsh v Hv). unfold shorts_ok in Hsh. rewrite Forall_forall in Hsh. apply Hsh. clear -Hx. unfold entry_of in Hx. revert Hx. generalize (froms vs v), (tos vs v).
    intros l. induction l as [|f l IH]; intros [|t k]; cbn [assoc]; try done. destruct (assoc c l k) eqn:E; [intros [= ->]; apply list_elem_of_further; auto|]. destruct (_ =? _); [intros [= ->]; apply list_elem_of_here|done].
Qed.

(** The engine finds the entries of the vector. *)
Lemma lookup_found index n v c : Short index n = base_of s v -> 0 <= c ->
  option_map (Short (Parsing.table T)) (entry T index n c) = if decide (v ∈ placed) then entry_of vs v c else None.
Proof.
  intros Hb Hc. pose proof high_range as Hh. assert (E : entry T index n c =
    if negb (base_of s v =? 0) && (0 <=? base_of s v + c) && (base_of s v + c <=? high s) && (Pack.check s !!! Z.to_nat (base_of s v + c) =? c) then Some (base_of s v + c) else None).
  { unfold entry. rewrite Hb, (pr_size _ _ _ PR). unfold yytablesize, int_of. rewrite s32_id by (unfold iss32; lia).
    destruct (Z.leb_spec 0 (base_of s v + c)); [|now rewrite !andb_false_r]. destruct (Z.leb_spec (base_of s v + c) (high s)); [|now rewrite !andb_false_r].
    now rewrite check_read by lia. }
  rewrite E. clear E. destruct (decide (v ∈ placed)) as [Hv|Hv].
  - pose proof (found_entry vs placed s v c P Hc Hv) as Hf. unfold found in Hf. destruct (_ && _) eqn:Eb; cbn [option_map]; [|exact Hf].
    destruct (entry_of vs v c) as [x|] eqn:Ex; [|done]. now rewrite (table_read v c x Hv Ex).
  - assert (Hz : base_of s v = 0) by (unfold base_of; now rewrite (pk_none _ _ _ P v Hv)). now rewrite Hz.
Qed.
End Found.

(** The index of a row in an array of bases. *)
Lemma bases_read vs s placed i n k : packed vs placed s -> (forall v, v ∈ placed -> froms vs v <> []) -> (k < n)%nat ->
  Short (shorts_of (bases s i n)) (Z.of_nat k) = base_of s (i + k).
Proof.
  intros P Hne Hk. apply Short_shorts_of; [|now apply (base_range vs s placed)]. unfold bases. rewrite list_lookup_fmap, lookup_seq_lt by done. done.
Qed.

Lemma pack_table_found vs fuel : vectors_ok vs -> (forall v, (v < nvectors vs)%nat -> shorts_ok vs v) -> (2 * v_nstates vs <= nvectors vs)%nat -> (pack_fuel <= fuel)%nat ->
  match pack_table vs fuel (sort_actions vs) with
  | Done s => forall T, printed vs s T ->
      let row v c := if 0 <? tally vs v then entry_of vs v c else None in
      (forall i c, (i < v_nstates vs)%nat -> 0 <= c -> shift_of T (Z.of_nat i) c = row i c /\ reduce_of T (Z.of_nat i) c = row (v_nstates vs + i)%nat c) /\
      (forall m i, (2 * v_nstates vs + m < nvectors vs - 1)%nat -> 0 <= i ->
        goto_of T (Z.of_nat m) i = match row (2 * v_nstates vs + m)%nat i with Some s' => s' | None => Short (dgoto T) (Z.of_nat m) end)
  | Fatal_error msg => msg = "maximum table size exceeded"%string
  | Unfinished => False
  end.
Proof.
  intros Hok Hsh Hn Hf. pose proof (pack_table_spec vs fuel Hok Hf) as H. destruct (sort_actions_spec vs) as [_ Hin].
  destruct (pack_table vs fuel (sort_actions vs)) as [s|msg|]; [|done|done]. destruct H as [P _]. intros T PR row.
  assert (Hne : forall v, v ∈ sort_actions vs -> froms vs v <> []).
  { intros v Hv E. pose proof (pk_ok _ _ _ P v Hv) as (L1 & _). apply Hin in Hv as [_ Hv]. rewrite E in L1. cbn [length] in L1. lia. }
  assert (Hs2 : forall v, v ∈ sort_actions vs -> shorts_ok vs v) by (intros v Hv; apply Hsh, Hin, Hv).
  assert (Hrow : forall index n v c, (v < nvectors vs)%nat -> 0 <= c -> Short index n = base_of s v ->
    option_map (Short (Parsing.table T)) (entry T index n c) = row v c).
  { intros index n v c Hv Hc Hb. rewrite (lookup_found vs s T (sort_actions vs) P PR Hs2 index n v c Hb Hc). unfold row.
    destruct (Z.ltb_spec 0 (tally vs v)); [rewrite decide_True by (now apply Hin)|rewrite decide_False by (rewrite Hin; lia)]; done. }
  split.
  - intros i c Hi Hc. split; apply Hrow; try done; try lia.
    + rewrite (reads_array _ _ (pr_sindex _ _ _ PR)). apply (bases_read vs s (sort_actions vs)); done.
    + rewrite (reads_array _ _ (pr_rindex _ _ _ PR)). apply (bases_read vs s (sort_actions vs)); done.
  - intros m i Hm Hi. unfold goto_of. rewrite <- (Hrow (gindex T) (Z.of_nat m) _ i); [destruct (entry T _ _ _); done|lia|done|].
    rewrite (reads_array _ _ (pr_gindex _ _ _ PR)). apply (bases_read vs s (sort_actions vs)); [done|done|lia].
Qed.

(** C23: the sorting and packing of the vectors of actions always ends: with tables in which
    the engine, through the text that is printed and read back, finds for every state
    exactly the shifts and the reductions of its rows, and for every nonterminal exactly
    the gotos of its column, although all rows overlap; or with the error that the table
    would be too large. *)
Theorem pack_table_correct vs fuel : vectors_ok vs -> (forall v, (v < nvectors vs)%nat -> shorts_ok vs v) -> (2 * v_nstates vs <= nvectors vs)%nat -> (pack_fuel <= fuel)%nat ->
  match pack_table vs fuel (sort_actions vs) with
  | Done s => forall T, printed vs s T ->
      let row v c := if 0 <? tally vs v then entry_of vs v c else None in
      (forall i c, (i < v_nstates vs)%nat -> 0 <= c -> shift_of T (Z.of_nat i) c = row i c /\ reduce_of T (Z.of_nat i) c = row (v_nstates vs + i)%nat c) /\
      (forall m i, (2 * v_nstates vs + m < nvectors vs - 1)%nat -> 0 <= i ->
        goto_of T (Z.of_nat m) i = match row (2 * v_nstates vs + m)%nat i with Some s' => s' | None => Short (dgoto T) (Z.of_nat m) end)
  | Fatal_error msg => msg = "maximum table size exceeded"%string
  | Unfinished => False
  end.
Proof. exact (pack_table_found vs fuel). Qed.

(** ** Witness *)

(** The tables made of the strings. *)
Definition tables_of (vs : vectors) (s : packing) (T : parser_tables) : parser_tables :=
  MkTables (transl_const T) (transl_block T) (lhs T) (len T) (defred T) (dgoto T)
    (shorts_of (bases s 0 (v_nstates vs))) (shorts_of (bases s (v_nstates vs) (v_nstates vs)))
    (shorts_of (bases s (2 * v_nstates vs) (nvectors vs - 1 - 2 * v_nstates vs))) (yytablesize s)
    (shorts_of (take (S (Z.to_nat (high s))) (Pack.table s))) (shorts_of (take (S (Z.to_nat (high s))) (Pack.check s))).

Lemma reads_shorts l : reads_as (shorts_of l) (output_array l).
Proof. exists (S (3 * length l)). rewrite read_array by lia. now rewrite short_bytes_shorts. Qed.
Lemma tables_of_printed vs s T : printed vs s (tables_of vs s T).
Proof. constructor; try apply reads_shorts. done. Qed.

(** The vectors of the grammar of [Parsing.tiny]: the states 0 and 1 shift. *)
Definition tiny_vectors : vectors :=
  MkVectors 4 10 (fun v => match v with 0%nat => [1] | 1%nat => [257] | _ => [] end) (fun v => match v with 0%nat => [1] | 1%nat => [2] | _ => [] end)
    (fun v => if (v <? 2)%nat then 1 else 0) (fun v => if (v <? 2)%nat then 1 else 0).

Lemma pack_table_correct_witness : exists s, pack_table tiny_vectors pack_fuel (sort_actions tiny_vectors) = Done s /\
  shift_of (tables_of tiny_vectors s tiny) 0 1 = Some 1 /\ shift_of (tables_of tiny_vectors s tiny) 1 257 = Some 2 /\ shift_of (tables_of tiny_vectors s tiny) 1 1 = None.
Proof.
  pose proof (pack_table_correct tiny_vectors pack_fuel) as H.
  assert (H1 : vectors_ok tiny_vectors).
  { intros [|[|v]] _ Ht; [..|cbn in Ht; lia]; (split; [reflexivity|]; split; [reflexivity|]; repeat constructor; lia). }
  assert (H2 : forall v, (v < nvectors tiny_vectors)%nat -> shorts_ok tiny_vectors v) by (intros [|[|v]] _; repeat constructor; lia).
  specialize (H H1 H2 ltac:(vm_compute; lia) (le_n _)).
  destruct (pack_table tiny_vectors pack_fuel (sort_actions tiny_vectors)) as [s|msg|] eqn:E; [|vm_compute in E; discriminate E|destruct H].
  destruct (H _ (tables_of_printed tiny_vectors s tiny)) as [Hs _]. exists s. split; [reflexivity|].
  split; [exact (proj1 (Hs 0%nat 1 ltac:(vm_compute; lia) ltac:(lia)))|]. split; [exact (proj1 (Hs 1%nat 257 ltac:(vm_compute; lia) ltac:(lia)))|].
  exact (proj1 (Hs 1%nat 1 ltac:(vm_compute; lia) ltac:(lia))).
Defined.
