(* ===== verification/Mkpar.v ===== *)
(** * The actions of the parser

    Models [yacc/mkpar.c]: the rows of actions made from the states and the lookaheads,
    the resolution of the conflicts by precedences, and the default reductions.  A row
    is the list its [next] pointers chain; a pointer to an action is its place. *)

From stdpp Require Import sorting.
From S2P Require Import Prelude Warshall Closure Lr0.

Definition TOKEN : Z := 0.
Definition LEFT : Z := 1.
Definition RIGHT : Z := 2.
Definition NONASSOC : Z := 3.
Definition SHIFT : Z := 1.
Definition REDUCE : Z := 2.

Record action := MkAction { symbol : Z; number : Z; prec : Z; action_code : Z; assoc : Z; suppressed : Z }.
Definition suppress (x : Z) (a : action) : action := MkAction (symbol a) (number a) (prec a) (action_code a) (assoc a) x.

Section Mkpar.
(** The grammar, with the precedences of its symbols and rules. *)
Context (g : grammar) (symbol_prec symbol_assoc rprec rassoc : Z -> Z).
(** The tables of [lalr.c]; a null pointer of [shift_table] is the empty list, and the
    rows of [LA] are in the memory [m]. *)
Context (accessing_symbol : nat -> Z) (shift_table : nat -> list nat) (lookaheads : nat -> nat) (LAruleno : nat -> Z) (LA : Z) (m : mem).

(** ** Rows *)

(** [for (i = sp->nshifts - 1; i >= 0; i--)]: the states left, the last one first. *)
Fixpoint shift_loop (to_state : list nat) (actions : list action) : list action :=
  match to_state with
  | [] => actions
  | k :: to_state =>
      let x := accessing_symbol k in
      shift_loop to_state (if ISTOKEN g x then MkAction x (Z.of_nat k) (symbol_prec x) SHIFT (symbol_assoc x) 0 :: actions else actions)
  end.
Definition get_shifts (stateno : nat) : list action := shift_loop (rev (shift_table stateno)) [].

(** [while (next && next->symbol == symbol && next->action_code == REDUCE && next->number < ruleno)] *)
Fixpoint after_reductions (x ruleno : Z) (temp : action) (next : list action) : list action :=
  match next with
  | a :: next' =>
      if (symbol a =? x) && (action_code a =? REDUCE) && (number a <? ruleno) then a :: after_reductions x ruleno temp next' else temp :: next
  | [] => [temp]
  end.
(** [while (next && next->symbol == symbol && next->action_code == SHIFT)] *)
Fixpoint after_shifts (x ruleno : Z) (temp : action) (next : list action) : list action :=
  match next with
  | a :: next' => if (symbol a =? x) && (action_code a =? SHIFT) then a :: after_shifts x ruleno temp next' else after_reductions x ruleno temp next
  | [] => [temp]
  end.
(** [for (next = actions; next && next->symbol < symbol; next = next->next)] *)
Fixpoint after_symbols (x ruleno : Z) (temp : action) (next : list action) : list action :=
  match next with
  | a :: next' => if symbol a <? x then a :: after_symbols x ruleno temp next' else after_shifts x ruleno temp next
  | [] => [temp]
  end.
Definition add_reduce (actions : list action) (ruleno x : Z) : list action :=
  after_symbols x ruleno (MkAction x ruleno (rprec ruleno) REDUCE (rassoc ruleno) 0) actions.

(** [for (j = j; j >= 0; j--)] with [j + 1] for [j]. *)
Fixpoint reduce_tokens (j : nat) (rowp ruleno : Z) (actions : list action) : list action :=
  match j with
  | O => actions
  | S j => reduce_tokens j rowp ruleno (if BIT m rowp (Z.of_nat j) =? 0 then actions else add_reduce actions ruleno (Z.of_nat j))
  end.
(** [for (i = i; i < n; i++)], [n] turns. *)
Fixpoint reduce_rows (n i : nat) (actions : list action) : list action :=
  match n with
  | O => actions
  | S n => reduce_rows n (S i) (reduce_tokens (Z.to_nat (ntokens g)) (LA + Z.of_nat i * WORDSIZE (ntokens g)) (LAruleno i) actions)
  end.
Definition add_reductions (stateno : nat) (actions : list action) : list action :=
  reduce_rows (lookaheads (S stateno) - lookaheads stateno) (lookaheads stateno) actions.

Definition parse_actions (stateno : nat) : list action := add_reductions stateno (get_shifts stateno).

(** ** Conflicts *)

(** [for (i = p->nshifts - 1; i >= 0; --i)]: the states left, the last one first. *)
Fixpoint final_loop (goal : Z) (to_state : list nat) (final_state : nat) : nat :=
  match to_state with
  | [] => final_state
  | k :: to_state => if accessing_symbol k =? goal then k else final_loop goal to_state k
  end.
Definition find_final_state : nat := final_loop (at_ (ritem g) 1) (rev (shift_table 0)) 0.

Definition no_action : action := MkAction 0 0 0 0 0 0.
Definition act (row : list action) (p : nat) : action := nth p row no_action.

(** [for (p = parser[i]; p; p = p->next)], [n] turns; [final] is [i == final_state]. *)
Fixpoint conflict_loop (n p pref : nat) (x : Z) (final : bool) (row : list action) (SRcount RRcount : Z) : list action * Z * Z :=
  match n with
  | O => (row, SRcount, RRcount)
  | S n =>
      let a := act row p in
      let b := act row pref in
      if negb (symbol a =? x) then conflict_loop n (S p) p (symbol a) final row SRcount RRcount
      else if final && (x =? 0) then conflict_loop n (S p) pref x final (alter (suppress 1) p row) (SRcount + 1) RRcount
      else if action_code b =? SHIFT then
        if (0 <? prec b) && (0 <? prec a) then
          if prec b <? prec a then conflict_loop n (S p) p x final (alter (suppress 2) pref row) SRcount RRcount
          else if prec a <? prec b then conflict_loop n (S p) pref x final (alter (suppress 2) p row) SRcount RRcount
          else if assoc b =? LEFT then conflict_loop n (S p) p x final (alter (suppress 2) pref row) SRcount RRcount
          else if assoc b =? RIGHT then conflict_loop n (S p) pref x final (alter (suppress 2) p row) SRcount RRcount
          else conflict_loop n (S p) pref x final (alter (suppress 2) p (alter (suppress 2) pref row)) SRcount RRcount
        else conflict_loop n (S p) pref x final (alter (suppress 1) p row) (SRcount + 1) RRcount
      else conflict_loop n (S p) pref x final (alter (suppress 1) p row) SRcount (RRcount + 1)
  end.
(** The body of [remove_conflicts] for one row; [pref] is left from the row before, and not used. *)
Definition row_conflicts (final : bool) (row : list action) : list action * Z * Z := conflict_loop (length row) 0 0 (-1) final row 0 0.

(** [for (i = i; i < nstates; i++)] on the rows left. *)
Fixpoint conflict_rows (rows : list (list action)) (i final_state : nat) : list (list action) * list Z * list Z :=
  match rows with
  | [] => ([], [], [])
  | row :: rows =>
      let '(row, SR, RR) := row_conflicts (i =? final_state)%nat row in
      let '(rows, SRs, RRs) := conflict_rows rows (S i) final_state in
      (row :: rows, SR :: SRs, RR :: RRs)
  end.
(** The rows, [SRconflicts], [RRconflicts] and their totals. *)
Definition remove_conflicts (rows : list (list action)) : list (list action) * list Z * list Z * Z * Z :=
  let '(rows, SRs, RRs) := conflict_rows rows 0 find_final_state in
  (rows, SRs, RRs, fold_left Z.add SRs 0, fold_left Z.add RRs 0).

(** ** Rules *)

Fixpoint use_rules (row : list action) (rules_used : gset Z) : gset Z :=
  match row with
  | [] => rules_used
  | p :: row => use_rules row (if (action_code p =? REDUCE) && (suppressed p =? 0) then {[number p]} ∪ rules_used else rules_used)
  end.
(** [for (i = i; i < nrules; ++i)], [n] turns. *)
Fixpoint count_unused (n : nat) (i : Z) (rules_used : gset Z) (nunused : Z) : Z :=
  match n with
  | O => nunused
  | S n => count_unused n (i + 1) rules_used (if bool_decide (i ∈ rules_used) then nunused else nunused + 1)
  end.
Definition unused_rules (rows : list (list action)) : gset Z * Z :=
  let rules_used := fold_left (fun u row => use_rules row u) rows ∅ in
  (rules_used, count_unused (Z.to_nat (nrules g - 3)) 3 rules_used 0).

Fixpoint sole_loop (row : list action) (count ruleno : Z) : Z :=
  match row with
  | [] => if count =? 0 then 0 else ruleno
  | p :: row =>
      if (action_code p =? SHIFT) && (suppressed p =? 0) then 0
      else if (action_code p =? REDUCE) && (suppressed p =? 0) then
        if (0 <? ruleno) && negb (number p =? ruleno) then 0
        else sole_loop row (if symbol p =? 1 then count else count + 1) (number p)
      else sole_loop row count ruleno
  end.
Definition sole_reduction (row : list action) : Z := sole_loop row 0 0.
Definition defreds (rows : list (list action)) : list Z := map sole_reduction rows.

(** [make_parser] for [nstates] states: the rows, [defred], the unused rules. *)
Definition make_parser (nstates : nat) : list (list action) * list Z * gset Z :=
  let '(rows, _, _, _, _) := remove_conflicts (map parse_actions (seq 0 nstates)) in
  (rows, defreds rows, (unused_rules rows).1).
End Mkpar.

(** ** The rows made from the states *)

(** The order of a row: by symbol, the shift before the reductions, these by rule. *)
Definition before (a b : action) : Prop :=
  symbol a < symbol b \/ (symbol a = symbol b /\ (action_code a < action_code b \/ (action_code a = action_code b /\ number a < number b))).
#[export] Instance before_dec a b : Decision (before a b).
Proof. unfold before. apply _. Defined.
Definition coded (a : action) : Prop := action_code a = SHIFT \/ action_code a = REDUCE.

Lemma before_trans a b c : before a b -> before b c -> before a c.
Proof. unfold before. lia. Qed.

(** Insertion before the first element not smaller. *)
Fixpoint place (t : action) (row : list action) : list action :=
  match row with
  | b :: row' => if decide (before b t) then b :: place t row' else t :: row
  | [] => [t]
  end.

Lemma place_perm t row : place t row ≡ₚ t :: row.
Proof. induction row as [|b row IH]; cbn [place]; [done|]. case_decide; [|done]. rewrite IH. apply Permutation_swap. Qed.

Lemma place_sorted t row : StronglySorted before row -> (forall b, b ∈ row -> before b t \/ before t b) -> StronglySorted before (place t row).
Proof.
  induction 1 as [|b row Hrow IH Hb]; intros Hk; cbn [place]; [repeat constructor|].
  assert (IH' : StronglySorted before (place t row)) by (apply IH; intros c Hc; apply Hk; set_solver).
  case_decide as D.
  - constructor; [done|]. rewrite place_perm. constructor; done.
  - destruct (Hk b) as [?|Htb]; [set_solver|done|]. constructor; [by constructor|].
    constructor; [done|]. eapply Forall_impl; [exact Hb|]. intros c Hc. exact (before_trans _ _ _ Htb Hc).
Qed.

Section Rows.
Context (g : grammar) (symbol_prec symbol_assoc rprec rassoc : Z -> Z).
Context (accessing_symbol : nat -> Z) (shift_table : nat -> list nat) (lookaheads : nat -> nat) (LAruleno : nat -> Z) (LA : Z) (m : mem).

Definition shift_action (k : nat) : action :=
  let x := accessing_symbol k in MkAction x (Z.of_nat k) (symbol_prec x) SHIFT (symbol_assoc x) 0.
Definition reduce_action (ruleno x : Z) : action := MkAction x ruleno (rprec ruleno) REDUCE (rassoc ruleno) 0.

Lemma after_reductions_place x r row : Forall (fun b => x <= symbol b /\ (symbol b = x -> action_code b = REDUCE)) row ->
  after_reductions x r (reduce_action r x) row = place (reduce_action r x) row.
Proof.
  induction 1 as [|b row [Hx Hc] _ IH]; cbn [after_reductions place]; [done|]. rewrite IH.
  case_decide as D; unfold before in D; cbn in D.
  - rewrite (proj2 (Z.eqb_eq (symbol b) x)), (proj2 (Z.eqb_eq (action_code b) REDUCE)), (proj2 (Z.ltb_lt (number b) r)) by lia. done.
  - destruct (Z.eqb_spec (symbol b) x) as [E|]; [|done]. destruct (Z.eqb_spec (action_code b) REDUCE) as [E'|]; [|done].
    destruct (Z.ltb_spec (number b) r); [|done]. lia.
Qed.

Lemma before_symbol a b : before a b -> symbol a <= symbol b.
Proof. unfold before. lia. Qed.
Lemma before_code a b : before a b -> symbol a = symbol b -> action_code a <= action_code b.
Proof. unfold before. lia. Qed.

Lemma after_shifts_place x r row : StronglySorted before row -> Forall coded row -> Forall (fun b => x <= symbol b) row ->
  after_shifts x r (reduce_action r x) row = place (reduce_action r x) row.
Proof.
  induction 1 as [|b row Hrow IH Hb]; intros Hc Hx; cbn [after_shifts place]; [done|].
  apply Forall_cons in Hc as [Hcb Hc]. apply Forall_cons in Hx as [Hxb Hx]. specialize (IH Hc Hx).
  destruct ((symbol b =? x) && (action_code b =? SHIFT)) eqn:E.
  - apply andb_true_iff in E as [E1 E2]. apply Z.eqb_eq in E1, E2. rewrite decide_True by (unfold before; cbn; unfold SHIFT, REDUCE in *; lia). by rewrite IH.
  - rewrite after_reductions_place; [done|]. apply andb_false_iff in E. rewrite !Z.eqb_neq in E.
    assert (Hb' : symbol b = x -> action_code b = REDUCE) by (destruct Hcb; tauto).
    constructor; [done|]. rewrite Forall_forall in Hb, Hx, Hc |- *. intros c Hin. split; [by apply Hx|]. intros <-.
    specialize (Hb c Hin). pose proof (before_symbol _ _ Hb). pose proof (before_code _ _ Hb ltac:(lia)).
    specialize (Hb' ltac:(lia)). destruct (Hc c Hin) as [Hs|]; [|done]. unfold SHIFT, REDUCE in *. lia.
Qed.

Lemma add_reduce_place row r x : StronglySorted before row -> Forall coded row ->
  add_reduce rprec rassoc row r x = place (reduce_action r x) row.
Proof.
  unfold add_reduce. change (MkAction x r _ _ _ _) with (reduce_action r x).
  induction 1 as [|b row Hrow IH Hb]; intros Hc; cbn [after_symbols]; [done|]. destruct (Z.ltb_spec (symbol b) x) as [L|L].
  - apply Forall_cons in Hc as [_ Hc]. cbn [place]. rewrite decide_True by (left; exact L). by rewrite IH.
  - apply after_shifts_place; [by constructor|done|]. constructor; [done|]. eapply Forall_impl; [exact Hb|].
    intros c Hbc%before_symbol. cbn in *. lia.
Qed.

(** What a row holds after some of the reductions: the shifts, and the reductions of the rules of [P]. *)
Record row_of (shifts : list action) (P : Z -> Z -> Prop) (row : list action) : Prop := {
  ro_sorted : StronglySorted before row;
  ro_elem a : a ∈ row <-> a ∈ shifts \/ exists r x, P r x /\ a = reduce_action r x
}.

Lemma row_of_coded shifts P row : Forall (fun a => action_code a = SHIFT) shifts -> row_of shifts P row -> Forall coded row.
Proof.
  intros Hs [_ He]. apply Forall_forall. intros a [Ha|(r & x & _ & ->)]%He; [|by right].
  left. exact (proj1 (Forall_forall _ _) Hs a Ha).
Qed.

Lemma row_of_ext shifts P Q row : (forall r x, P r x <-> Q r x) -> row_of shifts P row -> row_of shifts Q row.
Proof. intros E [Hs He]. split; [done|]. intros a. rewrite He. by setoid_rewrite E. Qed.

Lemma add_reduce_row shifts P row r x : Forall (fun a => action_code a = SHIFT) shifts -> row_of shifts P row -> ~ P r x ->
  row_of shifts (fun r' x' => P r' x' \/ (r' = r /\ x' = x)) (add_reduce rprec rassoc row r x).
Proof.
  intros Hsh Hrow Hn. pose proof (row_of_coded _ _ _ Hsh Hrow) as Hc. destruct Hrow as [Hs He].
  rewrite add_reduce_place by done. split.
  - apply place_sorted; [done|]. intros b [Hb|(r' & x' & Hp & ->)]%He.
    + rewrite Forall_forall in Hsh. specialize (Hsh b Hb). unfold before. cbn. unfold SHIFT, REDUCE in *. lia.
    + assert (r' <> r \/ x' <> x) by (destruct (decide (r' = r)) as [->|]; destruct (decide (x' = x)) as [->|]; tauto).
      unfold before; cbn. lia.
  - intros a. rewrite place_perm, elem_of_cons, He. split.
    + intros [->|[?|(r' & x' & ? & ->)]]; [right; by exists r, x; auto|tauto|right; exists r', x'; tauto].
    + intros [?|(r' & x' & [?|(-> & ->)] & ->)]; [tauto|right; right; by exists r', x'|by left].
Qed.

Lemma reduce_tokens_row shifts r rowp : Forall (fun a => action_code a = SHIFT) shifts -> forall j P row, row_of shifts P row ->
  (forall x, ~ P r x \/ Z.of_nat j <= x) ->
  row_of shifts (fun r' x' => P r' x' \/ (r' = r /\ 0 <= x' < Z.of_nat j /\ BIT m rowp x' <> 0)) (reduce_tokens rprec rassoc m j rowp r row).
Proof.
  intros Hsh. induction j as [|j IH]; intros P row Hrow Hn; cbn [reduce_tokens].
  - revert Hrow. apply row_of_ext. intros r' x'. split; [tauto|]. intros [?|(? & ? & ?)]; [done|lia].
  - destruct (Z.eqb_spec (BIT m rowp (Z.of_nat j)) 0) as [E|E].
    + eapply row_of_ext, IH; [|exact Hrow|]; [|intros x; destruct (Hn x); [tauto|lia]].
      intros r' x'. cbn beta. split; [intros [?|(? & ? & ?)]; [tauto|]; right; split_and!; try done; lia|].
      intros [?|(? & ? & ?)]; [tauto|]. right. split_and!; try done; [lia|]. destruct (decide (x' = Z.of_nat j)) as [->|]; [done|lia].
    + eapply row_of_ext, IH; [|apply add_reduce_row; [done|exact Hrow|destruct (Hn (Z.of_nat j)); [done|lia]]|].
      * intros r' x'. cbn beta. split.
        -- intros [[?|(-> & ->)]|(? & ? & ?)]; [tauto| |]; right; split_and!; try done; lia.
        -- intros [?|(-> & ? & ?)]; [tauto|]. destruct (decide (x' = Z.of_nat j)) as [->|]; [tauto|]. right. split_and!; try done; lia.
      * intros x. cbn beta. destruct (decide (Z.of_nat j <= x)); [tauto|]. left. intros [?|(_ & ->)]; [destruct (Hn x); [done|lia]|lia].
Qed.

(** The reductions of the lookaheads from [i] on, [n] of them. *)
Definition reduces (i n : nat) (r x : Z) : Prop :=
  exists k, (i <= k < i + n)%nat /\ r = LAruleno k /\ 0 <= x < ntokens g /\ BIT m (LA + Z.of_nat k * WORDSIZE (ntokens g)) x <> 0.

Lemma reduce_rows_row shifts : Forall (fun a => action_code a = SHIFT) shifts -> 0 <= ntokens g -> forall n i P row, row_of shifts P row ->
  (forall k k', (i <= k < i + n)%nat -> (i <= k' < i + n)%nat -> LAruleno k = LAruleno k' -> k = k') ->
  (forall k x, (i <= k < i + n)%nat -> ~ P (LAruleno k) x) ->
  row_of shifts (fun r x => P r x \/ reduces i n r x) (reduce_rows g rprec rassoc LAruleno LA m n i row).
Proof.
  intros Hsh Ht. induction n as [|n IH]; intros i P row Hrow Hinj Hn; cbn [reduce_rows].
  - revert Hrow. apply row_of_ext. intros r x. split; [tauto|]. intros [?|(k & ? & _)]; [done|lia].
  - eapply row_of_ext, IH; [|apply reduce_tokens_row; [done|exact Hrow|]| |].
    + intros r x. cbn beta. rewrite Z2Nat.id by done. split.
      * intros [[?|(-> & ? & ?)]|(k & ? & ?)]; [tauto| |]; right; [exists i|exists k]; split_and!; try tauto; lia.
      * intros [?|(k & Hk & -> & Hx)]; [tauto|]. destruct (decide (k = i)) as [->|]; [tauto|]. right. exists k. split_and!; try tauto; lia.
    + intros x. left. apply Hn. lia.
    + intros k k' ? ?. apply Hinj; lia.
    + intros k x Hk [Hp|(E & _)]; [revert Hp; apply Hn; lia|]. apply Hinj in E; lia.
Qed.

Lemma shift_loop_app ks : forall row, shift_loop g symbol_prec symbol_assoc accessing_symbol ks row =
  map shift_action (filter (fun k => ISTOKEN g (accessing_symbol k) = true) (rev ks)) ++ row.
Proof.
  induction ks as [|k ks IH]; intros row; cbn [shift_loop rev]; [done|]. rewrite IH, filter_app, map_app, <- app_assoc. f_equal.
  rewrite filter_cons, filter_nil. destruct (ISTOKEN g (accessing_symbol k)); [by rewrite decide_True|by rewrite decide_False].
Qed.

(** What [parse_actions] asks of the tables of a state: the shifts in the order of
    their symbols, and no rule twice among its lookaheads. *)
Record state_tables (stateno : nat) : Prop := {
  sb_ntokens : 0 <= ntokens g;
  sb_shifts : StronglySorted (fun k k' => accessing_symbol k < accessing_symbol k') (shift_table stateno);
  sb_rules k k' : (lookaheads stateno <= k < lookaheads (S stateno))%nat -> (lookaheads stateno <= k' < lookaheads (S stateno))%nat ->
    LAruleno k = LAruleno k' -> k = k'
}.

Lemma get_shifts_row stateno : state_tables stateno ->
  let shifts := get_shifts g symbol_prec symbol_assoc accessing_symbol shift_table stateno in
  Forall (fun a => action_code a = SHIFT) shifts /\ row_of shifts (fun _ _ => False) shifts /\
  (forall a, a ∈ shifts <-> exists k, k ∈ shift_table stateno /\ ISTOKEN g (accessing_symbol k) = true /\ a = shift_action k).
Proof.
  intros [_ Hsort _]. cbn zeta. unfold get_shifts. rewrite shift_loop_app, rev_involutive, app_nil_r.
  split; [|split; [split|]].
  - apply Forall_forall. intros a (k & -> & _)%list_elem_of_fmap. done.
  - induction Hsort as [|k l _ IH Hk]; [constructor|]. rewrite filter_cons. case_decide; [|done]. cbn [map]. constructor; [done|].
    apply Forall_forall. intros a (k' & -> & Hk')%list_elem_of_fmap. apply list_elem_of_filter in Hk' as [_ Hk'].
    left. cbn. exact (proj1 (Forall_forall _ _) Hk k' Hk').
  - intros a. split; [tauto|]. intros [?|(? & ? & [] & _)]. done.
  - intros a. split.
    + intros (k & -> & [? ?]%list_elem_of_filter)%list_elem_of_fmap. by exists k.
    + intros (k & ? & ? & ->). apply list_elem_of_fmap. exists k. split; [done|]. by apply list_elem_of_filter.
Qed.

Lemma parse_actions_row stateno : state_tables stateno ->
  let row := parse_actions g symbol_prec symbol_assoc rprec rassoc accessing_symbol shift_table lookaheads LAruleno LA m stateno in
  StronglySorted before row /\
  (forall a, a ∈ row <->
     (exists k, k ∈ shift_table stateno /\ ISTOKEN g (accessing_symbol k) = true /\ a = shift_action k) \/
     (exists k x, (lookaheads stateno <= k < lookaheads (S stateno))%nat /\ 0 <= x < ntokens g /\
        BIT m (LA + Z.of_nat k * WORDSIZE (ntokens g)) x <> 0 /\ a = reduce_action (LAruleno k) x)).
Proof.
  intros Hst. cbn zeta. unfold parse_actions, add_reductions. destruct (get_shifts_row stateno Hst) as (Hsh & Hrow & He).
  pose proof (reduce_rows_row _ Hsh (sb_ntokens _ Hst) (lookaheads (S stateno) - lookaheads stateno) (lookaheads stateno) _ _ Hrow) as [Hs Hel].
  - intros k k' ? ?. apply (sb_rules _ Hst); lia.
  - intros k x _ [].
  - split; [exact Hs|]. intros a. rewrite Hel, He. f_equiv. unfold reduces. split.
    + intros (r & x & [[]|(k & ? & -> & ? & ?)] & ->). exists k, x. split_and!; try done; lia.
    + intros (k & x & ? & ? & ? & ->). exists (LAruleno k), x. split; [right|done]. exists k. split_and!; try done; lia.
Qed.
End Rows.

(** ** The conflicts of a row *)

(** What becomes of the preferred action [b] and the next action [a] of its symbol. *)
Inductive verdict := Keep (x : Z) | Switch | Neither.
Definition judge (final : bool) (b a : action) : verdict :=
  if final && (symbol b =? 0) then Keep 1
  else if negb (action_code b =? SHIFT) then Keep 1
  else if negb ((0 <? prec b) && (0 <? prec a)) then Keep 1
  else if prec b <? prec a then Switch
  else if prec a <? prec b then Keep 2
  else if assoc b =? LEFT then Switch
  else if assoc b =? RIGHT then Keep 2
  else Neither.

(** The row from the preferred action [b] on: [mid] are the actions of its symbol already done. *)
Fixpoint resolve (final : bool) (b : action) (mid row : list action) : list action :=
  match row with
  | [] => b :: mid
  | a :: row =>
      if symbol a =? symbol b then
        match judge final b a with
        | Keep x => resolve final b (mid ++ [suppress x a]) row
        | Switch => suppress 2 b :: mid ++ resolve final a [] row
        | Neither => resolve final (suppress 2 b) (mid ++ [suppress 2 a]) row
        end
      else b :: mid ++ resolve final a [] row
  end.
Definition resolved (final : bool) (row : list action) : list action :=
  match row with [] => [] | b :: row => resolve final b [] row end.

Definition reported (row : list action) : Z := Z.of_nat (length (filter (fun a => suppressed a = 1) row)).

Lemma reported_app l1 l2 : reported (l1 ++ l2) = reported l1 + reported l2.
Proof. unfold reported. rewrite filter_app, length_app. lia. Qed.
Lemma reported_cons a l : reported (a :: l) = (if decide (suppressed a = 1) then 1 else 0) + reported l.
Proof. unfold reported. rewrite filter_cons. case_decide; cbn [length]; lia. Qed.

Lemma act_mid pre b l : act (pre ++ b :: l) (length pre) = b.
Proof. unfold act. by rewrite nth_middle. Qed.
Lemma alter_mid (f : action -> action) pre b l : alter f (length pre) (pre ++ b :: l) = pre ++ f b :: l.
Proof. rewrite alter_app_r_alt by lia. by rewrite Nat.sub_diag. Qed.

(** The place of the next action. *)
Lemma mid_split (pre : list action) b mid l : pre ++ b :: mid ++ l = (pre ++ b :: mid) ++ l.
Proof. by rewrite <- app_assoc. Qed.
Lemma mid_length (pre : list action) b mid : length (pre ++ b :: mid) = (length pre + S (length mid))%nat.
Proof. rewrite length_app. done. Qed.

(** [conflict_loop] with the preferred action after [pre], then [mid], then the rest. *)
Definition at_pref (final : bool) (pre : list action) (b : action) (mid rest : list action) (SR RR : Z) :=
  conflict_loop (length rest) (length pre + S (length mid)) (length pre) (symbol b) final (pre ++ b :: mid ++ rest) SR RR.

Lemma at_pref_next final pre b mid a rest SR RR :
  conflict_loop (length rest) (S (length pre + S (length mid))) (length pre + S (length mid)) (symbol a) final (pre ++ b :: mid ++ a :: rest) SR RR =
  at_pref final (pre ++ b :: mid) a [] rest SR RR.
Proof. unfold at_pref. cbn [length app]. rewrite mid_length, <- mid_split. f_equal. lia. Qed.

Lemma at_pref_stay final pre b mid (f : action -> action) a rest SR RR :
  conflict_loop (length rest) (S (length pre + S (length mid))) (length pre) (symbol b) final (pre ++ b :: (mid ++ [f a]) ++ rest) SR RR =
  at_pref final pre b (mid ++ [f a]) rest SR RR.
Proof. unfold at_pref. f_equal. rewrite length_app. cbn [length]. lia. Qed.

Lemma at_pref_step final pre b mid a rest SR RR : exists SR' RR',
  at_pref final pre b mid (a :: rest) SR RR =
    (if symbol a =? symbol b then
       match judge final b a with
       | Keep x => at_pref final pre b (mid ++ [suppress x a]) rest SR' RR'
       | Switch => at_pref final (pre ++ suppress 2 b :: mid) a [] rest SR RR
       | Neither => at_pref final pre (suppress 2 b) (mid ++ [suppress 2 a]) rest SR RR
       end
     else at_pref final (pre ++ b :: mid) a [] rest SR RR) /\
  SR' + RR' = SR + RR + match judge final b a with Keep x => if decide (x = 1) then 1 else 0 | _ => 0 end.
Proof.
  assert (Ea : act (pre ++ b :: mid ++ a :: rest) (length pre + S (length mid)) = a) by (rewrite mid_split, <- (mid_length pre b mid); apply act_mid).
  assert (Eb : act (pre ++ b :: mid ++ a :: rest) (length pre) = b) by apply act_mid.
  assert (Aa : forall f b', alter f (length pre + S (length mid))%nat (pre ++ b' :: mid ++ a :: rest) = pre ++ b' :: (mid ++ [f a]) ++ rest).
  { intros f b'. rewrite mid_split, <- (mid_length pre b' mid), alter_mid, <- !app_assoc. done. }
  assert (Ab : forall f, alter f (length pre) (pre ++ b :: mid ++ a :: rest) = pre ++ f b :: mid ++ a :: rest) by (intros f; apply (alter_mid f pre b)).
  unfold at_pref at 1. cbn [length conflict_loop]. rewrite Ea, Eb, !Ab, !Aa. unfold judge. destruct (Z.eqb_spec (symbol a) (symbol b)) as [E|E]; cbn [negb].
  2: { exists SR, (RR + match judge final b a with Keep x => if decide (x = 1) then 1 else 0 | _ => 0 end). rewrite at_pref_next. split; [done|unfold judge; lia]. }
  destruct (final && (symbol b =? 0)); [exists (SR + 1), RR; rewrite at_pref_stay; split; [done|case_decide; lia]|].
  destruct (action_code b =? SHIFT); cbn [negb]; [|exists SR, (RR + 1); rewrite at_pref_stay; split; [done|case_decide; lia]].
  destruct ((0 <? prec b) && (0 <? prec a)); cbn [negb]; [|exists (SR + 1), RR; rewrite at_pref_stay; split; [done|case_decide; lia]].
  exists SR, RR.
  destruct (prec b <? prec a); [rewrite <- E, at_pref_next; split; [done|lia]|].
  destruct (prec a <? prec b); [rewrite at_pref_stay; split; [done|case_decide; lia]|].
  destruct (assoc b =? LEFT); [rewrite <- E, at_pref_next; split; [done|lia]|].
  destruct (assoc b =? RIGHT); [rewrite at_pref_stay; split; [done|case_decide; lia]|].
  split; [|lia]. exact (at_pref_stay final pre (suppress 2 b) mid (suppress 2) a rest SR RR).
Qed.

Lemma at_pref_resolve final rest : forall pre b mid SR RR, Forall (fun a => suppressed a = 0) rest -> suppressed b <> 1 ->
  exists SR' RR', at_pref final pre b mid rest SR RR = (pre ++ resolve final b mid rest, SR', RR') /\
    SR' + RR' = SR + RR + reported (resolve final b mid rest) - reported mid.
Proof.
  induction rest as [|a rest IH]; intros pre b mid SR RR Hz Hb.
  - exists SR, RR. unfold at_pref. cbn [length conflict_loop resolve]. rewrite app_nil_r, reported_cons, decide_False by done. split; [done|lia].
  - apply Forall_cons in Hz as [Ha Hz]. destruct (at_pref_step final pre b mid a rest SR RR) as (SR1 & RR1 & E & Ec). rewrite E.
    cbn [resolve]. destruct (symbol a =? symbol b).
    + destruct (judge final b a) as [x| |].
      * destruct (IH pre b (mid ++ [suppress x a]) SR1 RR1) as (SR' & RR' & -> & Es); [done|done|]. exists SR', RR'. split; [done|].
        rewrite Es, Ec, reported_app, reported_cons. change (suppressed (suppress x a)) with x. change (reported []) with 0. lia.
      * destruct (IH (pre ++ suppress 2 b :: mid) a [] SR RR) as (SR' & RR' & -> & Es); [done|congruence|]. exists SR', RR'.
        rewrite <- app_assoc. split; [done|]. cbn [app]. rewrite reported_cons, reported_app, decide_False by done. change (reported []) with 0 in Es. lia.
      * destruct (IH pre (suppress 2 b) (mid ++ [suppress 2 a]) SR RR) as (SR' & RR' & -> & Es); [done|done|]. exists SR', RR'. split; [done|].
        rewrite Es, reported_app, reported_cons, decide_False by done. change (reported []) with 0. lia.
    + destruct (IH (pre ++ b :: mid) a [] SR RR) as (SR' & RR' & -> & Es); [done|congruence|]. exists SR', RR'.
      rewrite <- app_assoc. split; [done|]. cbn [app]. rewrite reported_cons, reported_app, decide_False by done. change (reported []) with 0 in Es. lia.
Qed.

Lemma row_conflicts_resolved final row : Forall (fun a => suppressed a = 0) row -> Forall (fun a => symbol a <> -1) row ->
  exists SR RR, row_conflicts final row = (resolved final row, SR, RR) /\ SR + RR = reported (resolved final row).
Proof.
  destruct row as [|b row]; intros Hz Hs; [by exists 0, 0|]. unfold row_conflicts. cbn [length conflict_loop resolved].
  apply Forall_cons in Hz as [Hb Hz]. apply Forall_cons in Hs as [Hsb _].
  change (act (b :: row) 0) with b. rewrite (proj2 (Z.eqb_neq (symbol b) (-1))) by done. cbn [negb].
  destruct (at_pref_resolve final row [] b [] 0 0 Hz) as (SR & RR & E & Es); [congruence|]. exists SR, RR.
  split; [exact E|]. change (reported []) with 0 in Es. lia.
Qed.

Definition marked (a a' : action) : Prop := a' = suppress (suppressed a') a.

Lemma marked_suppress x a a' : marked a a' -> marked a (suppress x a').
Proof. unfold marked, suppress. intros ->. done. Qed.
Lemma marked_refl a : marked a a.
Proof. by destruct a. Qed.
Lemma marked_symbol a a' : marked a a' -> symbol a' = symbol a.
Proof. unfold marked. intros ->. done. Qed.

Lemma resolve_marked final rest : forall b b0 mid mid0, marked b0 b -> Forall2 marked mid0 mid ->
  Forall2 marked (b0 :: mid0 ++ rest) (resolve final b mid rest).
Proof.
  induction rest as [|a rest IH]; intros b b0 mid mid0 Hb Hm; cbn [resolve]; [rewrite app_nil_r; by constructor|].
  assert (Hl : forall x, Forall2 marked (mid0 ++ [a]) (mid ++ [suppress x a])) by (intros x; apply Forall2_app; [done|]; repeat constructor).
  assert (Ha : forall b', marked b0 b' -> Forall2 marked (b0 :: mid0 ++ a :: rest) (b' :: mid ++ resolve final a [] rest)).
  { intros b' Hb'. constructor; [done|]. apply Forall2_app; [done|]. apply (IH a a [] []); [apply marked_refl|constructor]. }
  assert (Hc : forall x b', marked b0 b' -> Forall2 marked (b0 :: mid0 ++ a :: rest) (resolve final b' (mid ++ [suppress x a]) rest)).
  { intros x b' Hb'. replace (mid0 ++ a :: rest) with ((mid0 ++ [a]) ++ rest) by (by rewrite <- app_assoc). by apply IH. }
  destruct (symbol a =? symbol b); [|by apply Ha].
  destruct (judge final b a); [by apply Hc|apply Ha; by apply marked_suppress|apply Hc; by apply marked_suppress].
Qed.

Lemma resolved_marked final row : Forall2 marked row (resolved final row).
Proof. destruct row as [|b row]; [constructor|]. apply (resolve_marked final row b b [] []); [apply marked_refl|constructor]. Qed.

(** The actions of the symbol [x] that are left. *)
Definition survivors (x : Z) (row : list action) : list action := filter (fun a => symbol a = x /\ suppressed a = 0) row.

Lemma survivors_app x l1 l2 : survivors x (l1 ++ l2) = survivors x l1 ++ survivors x l2.
Proof. apply filter_app. Qed.
Lemma survivors_none x l : Forall (fun a => symbol a <> x \/ suppressed a <> 0) l -> survivors x l = [].
Proof. induction 1; unfold survivors; [done|]. rewrite filter_cons, decide_False by tauto. done. Qed.
Lemma survivors_suppressed x l : Forall (fun a => suppressed a <> 0) l -> survivors x l = [].
Proof. intros H. apply survivors_none. eapply Forall_impl; [exact H|]. intros a Ha. by right. Qed.
Lemma survivors_other x l l' : Forall2 marked l' l -> Forall (fun a => symbol a <> x) l' -> survivors x l = [].
Proof.
  intros Hm Hx. apply survivors_none. revert Hx. induction Hm as [|a a' l1 l2 Ha _ IH]; [constructor|].
  intros [? ?]%Forall_cons. constructor; [rewrite (marked_symbol _ _ Ha); tauto|auto].
Qed.

Lemma survivors_cons_le x b l : (length (survivors x (b :: l)) <= 1 + length (survivors x l))%nat.
Proof. unfold survivors. rewrite filter_cons. case_decide; cbn [length]; lia. Qed.

Lemma judge_keep final b a x : judge final b a = Keep x -> x <> 0.
Proof. unfold judge. repeat case_match; congruence. Qed.

Lemma resolve_unique final x rest : forall b mid, StronglySorted before (b :: rest) -> Forall (fun a => suppressed a <> 0) mid ->
  (length (survivors x (resolve final b mid rest)) <= 1)%nat.
Proof.
  induction rest as [|a rest IH]; intros b mid Hs Hm; cbn [resolve].
  - pose proof (survivors_cons_le x b mid). rewrite (survivors_suppressed x mid) in * by done. cbn [length] in *. lia.
  - apply StronglySorted_inv in Hs as [Hs Hb]. apply Forall_cons in Hb as [Hab Hb].
    assert (Hmid : forall l, survivors x (mid ++ l) = survivors x l) by (intros l; by rewrite survivors_app, survivors_suppressed).
    assert (Hm' : forall y, y <> 0 -> Forall (fun a => suppressed a <> 0) (mid ++ [suppress y a])).
    { intros y Hy. apply Forall_app_2; [done|]. repeat constructor. exact Hy. }
    assert (Hs' : forall y, StronglySorted before (suppress y b :: rest)).
    { intros y. apply StronglySorted_inv in Hs as [Hs _]. by constructor. }
    assert (Hs0 : StronglySorted before (b :: rest)) by (apply StronglySorted_inv in Hs as [Hs _]; by constructor).
    destruct (Z.eqb_spec (symbol a) (symbol b)) as [E|E].
    + assert (Hk : forall y, y <> 0 -> (length (survivors x (resolve final b (mid ++ [suppress y a]) rest)) <= 1)%nat) by (intros; apply IH; auto).
      assert (Hw : (length (survivors x (suppress 2 b :: mid ++ resolve final a [] rest)) <= 1)%nat).
      { change (suppress 2 b :: ?l) with ([suppress 2 b] ++ l). rewrite survivors_app, (survivors_suppressed x [_]), app_nil_l, Hmid by (by repeat constructor).
        apply IH; [done|constructor]. }
      destruct (judge final b a) as [y| |] eqn:J; [apply Hk; exact (judge_keep _ _ _ _ J)|exact Hw|]. apply IH; [apply Hs'|by apply Hm'].
    + destruct (Z.eq_dec (symbol b) x) as [Ex|Ex].
      * pose proof (survivors_cons_le x b (mid ++ resolve final a [] rest)) as H. rewrite Hmid in H.
        rewrite (survivors_other x (resolve final a [] rest) (a :: rest)) in H; [exact H| |].
        -- apply (resolve_marked final rest a a [] []); [apply marked_refl|constructor].
        -- apply StronglySorted_inv in Hs as [_ Ha]. pose proof (before_symbol _ _ Hab). constructor; [lia|].
           eapply Forall_impl; [exact Ha|]. intros c Hc%before_symbol. cbn beta. lia.
      * change (b :: ?l) with ([b] ++ l). rewrite survivors_app, (survivors_none x [b]), app_nil_l, Hmid by (constructor; auto).
        apply IH; [done|constructor].
Qed.

Lemma resolve_app final c post rest : forall b mid, Forall (fun a => symbol a <> symbol c) (b :: rest) ->
  resolve final b mid (rest ++ c :: post) = resolve final b mid rest ++ resolve final c [] post.
Proof.
  induction rest as [|a rest IH]; intros b mid Hf; cbn [app resolve].
  - apply Forall_cons in Hf as [Hb _]. by rewrite (proj2 (Z.eqb_neq (symbol c) (symbol b))) by auto.
  - apply Forall_cons in Hf as [Hb Hf]. assert (Hf' : forall b', symbol b' = symbol b -> Forall (fun a => symbol a <> symbol c) (b' :: rest)).
    { intros b' E. apply Forall_cons in Hf as [_ Hf]. constructor; [congruence|done]. }
    assert (Hl : forall b', (b' :: mid ++ resolve final a [] (rest ++ c :: post)) = (b' :: mid ++ resolve final a [] rest) ++ resolve final c [] post).
    { intros b'. rewrite IH by done. by rewrite <- app_comm_cons, <- app_assoc. }
    destruct (symbol a =? symbol b); [destruct (judge final b a)|]; auto using IH.
Qed.

Lemma resolved_app final l1 l2 : (forall a b, a ∈ l1 -> b ∈ l2 -> symbol a <> symbol b) ->
  resolved final (l1 ++ l2) = resolved final l1 ++ resolved final l2.
Proof.
  intros H. destruct l1 as [|b l1]; [done|]. destruct l2 as [|c l2]; [cbn [resolved]; by rewrite !app_nil_r|].
  cbn [resolved app]. apply resolve_app. apply Forall_forall. intros a Ha. apply H; [exact Ha|set_solver].
Qed.

(** The marks of the actions of one symbol: the documented rules for a shift and a
    reduction; the first of several reductions is left. *)
Definition group_rule (final : bool) (x : Z) (grp grp' : list action) : Prop :=
  match grp with
  | [a] => grp' = [a]
  | a :: rest =>
      if final && (x =? 0) then grp' = a :: map (suppress 1) rest
      else if negb (action_code a =? SHIFT) then grp' = a :: map (suppress 1) rest
      else match rest with
           | [r] =>
               (prec a <= 0 \/ prec r <= 0 -> grp' = [a; suppress 1 r]) /\
               (0 < prec r < prec a -> grp' = [a; suppress 2 r]) /\
               (0 < prec a < prec r -> grp' = [suppress 2 a; r]) /\
               (0 < prec a -> prec r = prec a ->
                  (assoc a = LEFT -> grp' = [suppress 2 a; r]) /\ (assoc a = RIGHT -> grp' = [a; suppress 2 r]) /\
                  (assoc a = NONASSOC -> grp' = [suppress 2 a; suppress 2 r]))
           | _ => True
           end
  | [] => True
  end.

Lemma resolve_keep final x b rest : (forall a, judge final b a = Keep 1) -> symbol b = x -> Forall (fun a => symbol a = x) rest ->
  forall mid, resolve final b mid rest = b :: mid ++ map (suppress 1) rest.
Proof.
  intros Hj Hb. induction 1 as [|a rest Ha _ IH]; intros mid; cbn [resolve map]; [by rewrite app_nil_r|].
  rewrite (proj2 (Z.eqb_eq (symbol a) (symbol b))), Hj, IH, <- app_assoc by congruence. done.
Qed.

(** Without two actions on a symbol nothing changes. *)
Lemma resolved_distinct final row : StronglySorted (fun a b => symbol a < symbol b) row -> resolved final row = row.
Proof.
  destruct row as [|b row]; [done|]. cbn [resolved]. revert b. induction row as [|a row IH]; intros b [Hs Hb]%StronglySorted_inv; [done|].
  cbn [resolve app]. apply Forall_cons in Hb as [Hb _]. destruct (Z.eqb_spec (symbol a) (symbol b)); [lia|]. by rewrite IH.
Qed.

Lemma resolved_group final x grp : Forall (fun a => symbol a = x) grp -> group_rule final x grp (resolved final grp).
Proof.
  intros H. destruct grp as [|a [|r rest]]; [done|done|]. apply Forall_cons in H as [Ha H]. unfold group_rule.
  destruct (final && (x =? 0)) eqn:F.
  { cbn [resolved]. apply (resolve_keep final x a (r :: rest)); [|done|done]. intros c. unfold judge. by rewrite Ha, F. }
  destruct (action_code a =? SHIFT) eqn:E; cbn [negb].
  2: { cbn [resolved]. apply (resolve_keep final x a (r :: rest)); [|done|done]. intros c. unfold judge. by rewrite Ha, F, E. }
  destruct rest as [|]; [|done]. apply Forall_cons in H as [Hr _]. cbn [resolved resolve app]. rewrite Ha, Hr, Z.eqb_refl. unfold judge. rewrite Ha, F, E.
  cbn [negb]. destruct (Z.ltb_spec 0 (prec a)), (Z.ltb_spec 0 (prec r)); cbn [andb negb]; try (split_and!; intros; lia || done).
  destruct (Z.ltb_spec (prec a) (prec r)); [split_and!; intros; lia || done|].
  destruct (Z.ltb_spec (prec r) (prec a)); [split_and!; intros; lia || done|].
  split; [lia|]. split; [lia|]. split; [lia|]. intros _ _. split_and!; intros ->; done.
Qed.

(** What [remove_conflicts] makes of a row: only marks change, at most one action of a
    symbol is left, and the actions of a symbol are marked by [group_rule]. *)
Record conflicts_resolved (final : bool) (row row' : list action) : Prop := {
  cr_marked : Forall2 marked row row';
  cr_unique x : (length (survivors x row') <= 1)%nat;
  cr_group x pre grp post : row = pre ++ grp ++ post -> Forall (fun a => symbol a <> x) (pre ++ post) -> Forall (fun a => symbol a = x) grp ->
    exists pre' grp' post', row' = pre' ++ grp' ++ post' /\ length pre' = length pre /\ group_rule final x grp grp'
}.

Lemma sorted_ends pre g grp post a c : StronglySorted before (pre ++ (g :: grp) ++ post) -> a ∈ pre -> c ∈ post -> symbol a <= symbol g <= symbol c.
Proof.
  intros Hs Ha Hc. rewrite !StronglySorted_app in Hs. destruct Hs as (H1 & _ & H2 & _ & _). 
  split; apply before_symbol; [apply (H1 a g)|apply (H2 g c)]; set_solver.
Qed.

Lemma resolved_resolved final row : StronglySorted before row -> conflicts_resolved final row (resolved final row).
Proof.
  intros Hs. split.
  - apply resolved_marked.
  - intros x. destruct row as [|b row]; [cbn; lia|]. by apply resolve_unique.
  - intros x pre grp post -> Ho Hg. destruct grp as [|g grp].
    + exists (take (length pre) (resolved final (pre ++ [] ++ post))), [], (drop (length pre) (resolved final (pre ++ [] ++ post))).
      cbn [app]. rewrite take_drop. split_and!; [done| |done]. rewrite length_take, <- (Forall2_length _ _ _ (resolved_marked final (pre ++ post))), length_app. lia.
    + rewrite Forall_forall in Hg. apply Forall_app in Ho as [Hpre Hpost]. rewrite Forall_forall in Hpre, Hpost.
      assert (Hgx : symbol g = x) by (apply Hg; set_solver).
      rewrite !resolved_app.
      * exists (resolved final pre), (resolved final (g :: grp)), (resolved final post). split_and!; [done| |apply resolved_group; by apply Forall_forall].
        symmetry. apply (Forall2_length _ _ _ (resolved_marked final pre)).
      * intros a b Ha Hb. specialize (Hg a Ha). specialize (Hpost b Hb). congruence.
      * intros a b Ha [Hb|Hb]%elem_of_app; [specialize (Hg b Hb); specialize (Hpre a Ha); congruence|].
        pose proof (sorted_ends _ _ _ _ _ _ Hs Ha Hb). specialize (Hpre a Ha). specialize (Hpost b Hb). cbn beta in *. lia.
Qed.

Lemma conflict_rows_spec final_state rows : Forall (fun row => Forall (fun a => suppressed a = 0) row /\ Forall (fun a => symbol a <> -1) row) rows -> forall i,
  exists SRs RRs, conflict_rows rows i final_state = (imap (fun k row => resolved (i + k =? final_state)%nat row) rows, SRs, RRs) /\
    fold_right Z.add 0 SRs + fold_right Z.add 0 RRs = fold_right Z.add 0 (map reported (imap (fun k row => resolved (i + k =? final_state)%nat row) rows)).
Proof.
  induction 1 as [|row rows [Hz Hx] _ IH]; intros i; cbn [conflict_rows]; [by exists [], []|].
  destruct (row_conflicts_resolved (i =? final_state)%nat row Hz Hx) as (SR & RR & -> & E).
  destruct (IH (S i)) as (SRs & RRs & -> & Es). exists (SR :: SRs), (RR :: RRs). rewrite imap_cons, Nat.add_0_r.
  assert (Ei : imap (fun k row => resolved (S i + k =? final_state)%nat row) rows = imap ((fun k row => resolved (i + k =? final_state)%nat row) ∘ S) rows).
  { apply imap_ext. intros k row' _. cbn. by rewrite Nat.add_succ_r. }
  rewrite Ei in *. split; [done|]. cbn [map fold_right]. lia.
Qed.

Lemma fold_add l : forall z, fold_left Z.add l z = z + fold_right Z.add 0 l.
Proof. induction l as [|a l IH]; intros z; cbn [fold_left fold_right]; [lia|]. rewrite IH. lia. Qed.

(** ** Default reductions and rules used *)

Definition left_in (row : list action) (a : action) : Prop := a ∈ row /\ suppressed a = 0.

Lemma left_cons a row b : left_in (a :: row) b <-> (b = a /\ suppressed a = 0) \/ left_in row b.
Proof. unfold left_in. rewrite elem_of_cons. naive_solver. Qed.

(** [r] is the default reduction: the actions left are reductions by [r], one at least on another symbol than [error]. *)
Definition is_default (row : list action) (r : Z) : Prop :=
  (forall a, left_in row a -> action_code a = REDUCE /\ number a = r) /\ (exists a, left_in row a /\ symbol a <> 1).

Lemma sole_loop_spec row r : 0 < r -> Forall coded row -> Forall (fun a => action_code a = REDUCE -> 0 < number a) row -> forall count ruleno,
  0 <= count -> 0 <= ruleno -> (0 < count -> 0 < ruleno) ->
  (sole_loop row count ruleno = r <->
     (ruleno = 0 \/ ruleno = r) /\ (forall a, left_in row a -> action_code a = REDUCE /\ number a = r) /\ (0 < count \/ exists a, left_in row a /\ symbol a <> 1)).
Proof.
  intros Hr. induction row as [|p row IH]; intros Hc Hn count ruleno H1 H2 H3; cbn [sole_loop].
  - unfold left_in. destruct (Z.eqb_spec count 0) as [->|E].
    + split; [lia|]. intros (_ & _ & [?|(a & [[]%not_elem_of_nil _] & _)]). lia.
    + split; [intros ->; split_and!; [tauto| |lia]; intros a [[]%not_elem_of_nil _]|]. lia.
  - apply Forall_cons in Hc as [Hcp Hc]. apply Forall_cons in Hn as [Hnp Hn]. specialize (IH Hc Hn). setoid_rewrite left_cons.
    destruct (Z.eqb_spec (suppressed p) 0) as [Hs|Hs].
    2: { rewrite !andb_false_r, IH by done. naive_solver. }
    rewrite !andb_true_r. destruct (Z.eqb_spec (action_code p) SHIFT) as [E|E].
    { split; [lia|]. intros (_ & H & _). destruct (H p) as [E' _]; [auto|]. rewrite E in E'. discriminate. }
    assert (Er : action_code p = REDUCE) by (destruct Hcp; done). rewrite Er, Z.eqb_refl. specialize (Hnp Er).
    destruct ((0 <? ruleno) && negb (number p =? ruleno)) eqn:F.
    { apply andb_true_iff in F as [F1%Z.ltb_lt F2]. apply negb_true_iff, Z.eqb_neq in F2. split; [lia|]. intros (? & H & _).
      destruct (H p) as [_ E']; [auto|]. lia. }
    assert (F' : ruleno = 0 \/ ruleno = number p).
    { apply andb_false_iff in F as [F%Z.ltb_ge|F%negb_false_iff%Z.eqb_eq]; lia. }
    rewrite IH by (try case_match; lia). split.
    + intros ([?|Hp] & Ha & He); [lia|]. split_and!; [lia|intros a [[-> _]|?]; auto|].
      destruct (Z.eqb_spec (symbol p) 1); [|right; exists p; auto]. destruct He as [?|(a & ? & ?)]; [tauto|]. right. exists a. auto.
    + intros (_ & Ha & He). split_and!; [right; apply Ha; auto|intros a ?; apply Ha; auto|].
      destruct (Z.eqb_spec (symbol p) 1); [|left; lia]. destruct He as [?|(a & [[-> _]|?] & ?)]; [tauto|lia|]. right. exists a. auto.
Qed.

Lemma sole_reduction_default row r : 0 < r -> Forall coded row -> Forall (fun a => action_code a = REDUCE -> 0 < number a) row ->
  sole_reduction row = r <-> is_default row r.
Proof.
  intros Hr Hc Hn. unfold sole_reduction. rewrite sole_loop_spec by (done || lia). unfold is_default.
  split; [intros (_ & ? & [?|?]); [lia|auto]|]. intros [? ?]. auto.
Qed.

Lemma sole_loop_nonneg row : Forall coded row -> Forall (fun a => action_code a = REDUCE -> 0 < number a) row ->
  forall count ruleno, 0 <= ruleno -> 0 <= sole_loop row count ruleno.
Proof.
  induction 1 as [|a row Ha _ IH]; intros Hn count ruleno H0; cbn [sole_loop]; [destruct (_ =? _); lia|].
  apply Forall_cons in Hn as [Hna Hn]. destruct (_ && _); [lia|]. destruct (Z.eqb_spec (action_code a) REDUCE) as [E|E]; cbn [andb]; [|by apply IH].
  specialize (Hna E). destruct (_ =? 0); [|by apply IH]. destruct (_ && _); [lia|]. apply IH; [done|lia].
Qed.
Lemma sole_reduction_nonneg row : Forall coded row -> Forall (fun a => action_code a = REDUCE -> 0 < number a) row -> 0 <= sole_reduction row.
Proof. intros Hc Hn. by apply sole_loop_nonneg. Qed.

Lemma use_rules_elem row r : forall u, r ∈ use_rules row u <-> r ∈ u \/ exists a, left_in row a /\ action_code a = REDUCE /\ number a = r.
Proof.
  induction row as [|p row IH]; intros u; cbn [use_rules].
  - unfold left_in. split; [auto|]. intros [?|(a & [[]%not_elem_of_nil _] & _)]. done.
  - rewrite IH. setoid_rewrite left_cons. destruct (Z.eqb_spec (action_code p) REDUCE), (Z.eqb_spec (suppressed p) 0); cbn [andb]; set_solver.
Qed.

Lemma used_elem rows r : forall u, r ∈ fold_left (fun u row => use_rules row u) rows u <->
  r ∈ u \/ exists row a, row ∈ rows /\ left_in row a /\ action_code a = REDUCE /\ number a = r.
Proof.
  induction rows as [|row rows IH]; intros u; cbn [fold_left]; [set_solver|]. rewrite IH, use_rules_elem. setoid_rewrite elem_of_cons. naive_solver.
Qed.

(** ** The two claims *)

Section Claims.
Context (g : grammar) (symbol_prec symbol_assoc rprec rassoc : Z -> Z).
Context (accessing_symbol : nat -> Z) (shift_table : nat -> list nat) (lookaheads : nat -> nat) (LAruleno : nat -> Z) (LA : Z) (m : mem).

(** C25: The row [parse_actions] makes for a state is in the order of its symbols, the
    shift before the reductions and these in the order of the rules, and it holds
    exactly the shifts of the state on tokens, with the precedences of the tokens, and
    for each lookahead of the state the reductions on the tokens whose bits are set,
    with the precedences of the rules. *)
Theorem parse_actions_correct stateno (Hst : state_tables g accessing_symbol shift_table lookaheads LAruleno stateno) :
  let row := parse_actions g symbol_prec symbol_assoc rprec rassoc accessing_symbol shift_table lookaheads LAruleno LA m stateno in
  StronglySorted before row /\
  (forall a, a ∈ row <->
     (exists k, k ∈ shift_table stateno /\ ISTOKEN g (accessing_symbol k) = true /\ a = shift_action symbol_prec symbol_assoc accessing_symbol k) \/
     (exists k x, (lookaheads stateno <= k < lookaheads (S stateno))%nat /\ 0 <= x < ntokens g /\
        BIT m (LA + Z.of_nat k * WORDSIZE (ntokens g)) x <> 0 /\ a = reduce_action rprec rassoc (LAruleno k) x)).
Proof. exact (parse_actions_row g symbol_prec symbol_assoc rprec rassoc accessing_symbol shift_table lookaheads LAruleno LA m stateno Hst). Qed.

Record tables_of (nstates : nat) : Prop := {
  to_state i : (i < nstates)%nat -> state_tables g accessing_symbol shift_table lookaheads LAruleno i;
  to_symbol i k : (i < nstates)%nat -> k ∈ shift_table i -> 0 <= accessing_symbol k;
  to_rule i k : (i < nstates)%nat -> (lookaheads i <= k < lookaheads (S i))%nat -> 0 < LAruleno k
}.

Lemma parse_actions_plain nstates i : tables_of nstates -> (i < nstates)%nat ->
  let row := parse_actions g symbol_prec symbol_assoc rprec rassoc accessing_symbol shift_table lookaheads LAruleno LA m i in
  Forall (fun a => suppressed a = 0 /\ symbol a <> -1 /\ coded a /\ (action_code a = REDUCE -> 0 < number a)) row.
Proof.
  intros Ht Hi. cbn zeta. apply Forall_forall. intros a Ha. apply parse_actions_row in Ha; [|by apply (to_state _ Ht)].
  destruct Ha as [(k & Hk & _ & ->)|(k & x & Hk & ? & _ & ->)].
  - pose proof (to_symbol _ Ht i k Hi Hk). split_and!; cbn; [done|lia|by left|done].
  - pose proof (to_rule _ Ht i k Hi Hk). split_and!; cbn; [done|lia|by right|done].
Qed.

Lemma marked_coded row row' : Forall2 marked row row' -> Forall (fun a => suppressed a = 0 /\ symbol a <> -1 /\ coded a /\ (action_code a = REDUCE -> 0 < number a)) row ->
  Forall coded row' /\ Forall (fun a => action_code a = REDUCE -> 0 < number a) row'.
Proof.
  induction 1 as [|a a' l l' Ha _ IH]; [by split|]. intros [(_ & _ & ? & ?) Hl]%Forall_cons. destruct (IH Hl).
  unfold marked in Ha. assert (Ec : action_code a' = action_code a) by (by rewrite Ha). assert (En : number a' = number a) by (by rewrite Ha).
  split; constructor; unfold coded; rewrite ?Ec, ?En; done.
Qed.

Lemma resolved_plain nstates i final : tables_of nstates -> (i < nstates)%nat ->
  let row := resolved final (parse_actions g symbol_prec symbol_assoc rprec rassoc accessing_symbol shift_table lookaheads LAruleno LA m i) in
  Forall coded row /\ Forall (fun a => action_code a = REDUCE -> 0 < number a) row.
Proof. intros Ht Hi. exact (marked_coded _ _ (resolved_marked _ _) (parse_actions_plain nstates i Ht Hi)). Qed.

(** What [make_parser] returns: the rows resolved, and their default reductions. *)
Lemma make_parser_rows nstates : tables_of nstates ->
  let final := find_final_state g accessing_symbol shift_table in
  let rows := imap (fun i row => resolved (i =? final)%nat row)
    (map (parse_actions g symbol_prec symbol_assoc rprec rassoc accessing_symbol shift_table lookaheads LAruleno LA m) (seq 0 nstates)) in
  make_parser g symbol_prec symbol_assoc rprec rassoc accessing_symbol shift_table lookaheads LAruleno LA m nstates =
  (rows, map sole_reduction rows, (unused_rules g rows).1).
Proof.
  intros Ht. cbn zeta. set (pa := parse_actions _ _ _ _ _ _ _ _ _ _ _).
  assert (Hp : Forall (fun row => Forall (fun a => suppressed a = 0) row /\ Forall (fun a => symbol a <> -1) row) (map pa (seq 0 nstates))).
  { apply Forall_forall. intros row (i & -> & [_ Hi]%elem_of_seq)%list_elem_of_fmap. pose proof (parse_actions_plain nstates i Ht Hi) as H.
    split; (eapply Forall_impl; [exact H|]); cbn; tauto. }
  unfold make_parser. fold pa. unfold remove_conflicts. by destruct (conflict_rows_spec (find_final_state g accessing_symbol shift_table) _ Hp 0) as (SRs & RRs & -> & _).
Qed.

(** C24: The tables [make_parser] gives for the rows of [parse_actions]: in each row only
    marks change, at most one action is left for a symbol, and the choice is the one of
    the precedences and associativities (of the shift and the reduction), of the first
    rule (of several reductions), or of the final state (on the end of the input); as
    many conflicts are counted as actions are suppressed by them; the default
    reduction of a state is the only action left in its row, if that is a
    reduction on some symbol other than [error]; and the rules used are those of the reductions left. *)
Theorem make_parser_correct nstates (Ht : tables_of nstates) :
  let rows := map (parse_actions g symbol_prec symbol_assoc rprec rassoc accessing_symbol shift_table lookaheads LAruleno LA m) (seq 0 nstates) in
  let final_state := find_final_state g accessing_symbol shift_table in
  exists rows' SRconflicts RRconflicts SRtotal RRtotal defred rules_used,
    remove_conflicts g accessing_symbol shift_table rows = (rows', SRconflicts, RRconflicts, SRtotal, RRtotal) /\
    SRtotal + RRtotal = fold_right Z.add 0 (map reported rows') /\
    make_parser g symbol_prec symbol_assoc rprec rassoc accessing_symbol shift_table lookaheads LAruleno LA m nstates = (rows', defred, rules_used) /\
    (forall i, (i < nstates)%nat -> exists row row' d, rows !! i = Some row /\ rows' !! i = Some row' /\ defred !! i = Some d /\
       conflicts_resolved (i =? final_state)%nat row row' /\ (forall r, 0 < r -> d = r <-> is_default row' r)) /\
    (forall r, r ∈ rules_used <-> exists row a, row ∈ rows' /\ left_in row a /\ action_code a = REDUCE /\ number a = r).
Proof.
  cbn zeta. set (pa := parse_actions _ _ _ _ _ _ _ _ _ _ _).
  assert (Hp : Forall (fun row => Forall (fun a => suppressed a = 0) row /\ Forall (fun a => symbol a <> -1) row) (map pa (seq 0 nstates))).
  { apply Forall_forall. intros row (i & -> & [_ Hi]%elem_of_seq)%list_elem_of_fmap. pose proof (parse_actions_plain nstates i Ht Hi) as H.
    split; (eapply Forall_impl; [exact H|]); cbn; tauto. }
  unfold make_parser. fold pa. unfold remove_conflicts. set (fs := find_final_state _ _ _).
  destruct (conflict_rows_spec fs _ Hp 0) as (SRs & RRs & -> & E). eexists _, _, _, _, _, _, _.
  split; [reflexivity|]. split; [rewrite !fold_add; lia|]. split; [reflexivity|]. split.
  - intros i Hi. exists (pa i), (resolved (i =? fs)%nat (pa i)), (sole_reduction (resolved (i =? fs)%nat (pa i))).
    assert (El : (map pa (seq 0 nstates)) !! i = Some (pa i)) by (rewrite list_lookup_fmap, lookup_seq_lt by done; done).
    assert (Er : imap (fun k row => resolved (0 + k =? fs)%nat row) (map pa (seq 0 nstates)) !! i = Some (resolved (i =? fs)%nat (pa i))) by
      (rewrite list_lookup_imap, El; done).
    split; [exact El|]. split; [exact Er|]. split; [unfold defreds; rewrite list_lookup_fmap, Er; done|]. split.
    + apply resolved_resolved. apply parse_actions_row. by apply (to_state _ Ht).
    + intros r Hr. destruct (resolved_plain nstates i (i =? fs)%nat Ht Hi). by apply sole_reduction_default.
  - intros r. cbn [fst snd unused_rules]. unfold unused_rules. cbn [fst]. rewrite used_elem. set_solver.
Qed.
End Claims.

(** *** A state with a conflict: [E: E '+' E] after its right side, with ['+'] left associative *)

Definition sum_grammar : grammar := MkGrammar 4 6 4 2 4 [0; 4] [] [].
Definition sum_prec (x : Z) : Z := if x =? 3 then 1 else 0.
Definition sum_assoc (x : Z) : Z := if x =? 3 then LEFT else TOKEN.
Definition sum_accessing (k : nat) : Z := Z.of_nat k + 1.
Definition sum_shifts (i : nat) : list nat := [S i].
Definition sum_lookaheads (i : nat) : nat := (i - 1)%nat.
Definition sum_LA : mem := {[100 := 9]}.
Definition sum_make_parser := make_parser sum_grammar sum_prec sum_assoc sum_prec sum_assoc sum_accessing sum_shifts sum_lookaheads (fun _ => 3) 100 sum_LA 2.

Lemma sum_tables : tables_of sum_grammar sum_accessing sum_shifts sum_lookaheads (fun _ => 3) 2.
Proof.
  split; [|intros i k _ _; unfold sum_accessing; lia|intros i k _ _; lia]. intros i Hi. split; [done|repeat constructor|].
  unfold sum_lookaheads. intros. lia.
Qed.

Lemma parse_actions_correct_witness :
  parse_actions sum_grammar sum_prec sum_assoc sum_prec sum_assoc sum_accessing sum_shifts sum_lookaheads (fun _ => 3) 100 sum_LA 1 =
    [MkAction 0 3 1 REDUCE LEFT 0; MkAction 3 2 1 SHIFT LEFT 0; MkAction 3 3 1 REDUCE LEFT 0] /\
  StronglySorted before (parse_actions sum_grammar sum_prec sum_assoc sum_prec sum_assoc sum_accessing sum_shifts sum_lookaheads (fun _ => 3) 100 sum_LA 1).
Proof.
  split; [vm_compute; reflexivity|].
  exact (proj1 (parse_actions_correct sum_grammar sum_prec sum_assoc sum_prec sum_assoc sum_accessing sum_shifts sum_lookaheads (fun _ => 3) 100 sum_LA 1
    (to_state _ _ _ _ _ _ sum_tables 1 (le_n 2)))).
Defined.

Lemma make_parser_correct_witness : exists row',
  sum_make_parser.1.1 !! 1%nat = Some row' /\ map suppressed row' = [0; 2; 0] /\ is_default row' 3 /\ 3 ∈ sum_make_parser.2.
Proof.
  assert (Hd : sum_make_parser.1.2 !! 1%nat = Some 3) by (vm_compute; reflexivity).
  assert (Hm : option_map (map suppressed) (sum_make_parser.1.1 !! 1%nat) = Some [0; 2; 0]) by (vm_compute; reflexivity).
  destruct (make_parser_correct sum_grammar sum_prec sum_assoc sum_prec sum_assoc sum_accessing sum_shifts sum_lookaheads (fun _ => 3) 100 sum_LA 2 sum_tables)
    as (rows & SRs & RRs & SR & RR & defred & used & _ & _ & E & Hrow & Hused).
  change (sum_make_parser = (rows, defred, used)) in E. rewrite E in *. cbn [fst snd] in *.
  destruct (Hrow 1%nat (le_n 2)) as (row & row' & d & _ & Er & Ed & _ & Hdef). rewrite Ed in Hd. injection Hd as ->. rewrite Er in Hm. injection Hm as Hm.
  assert (Hdf : is_default row' 3) by (apply Hdef; done).
  exists row'. split; [exact Er|]. split; [exact Hm|]. split; [exact Hdf|]. apply Hused.
  destruct Hdf as [Ha (a & Hl & _)]. exists row', a. split; [by eapply list_elem_of_lookup_2|]. split; [exact Hl|exact (Ha a Hl)].
Defined.
