(* ===== verification/Vectors.v ===== *)
(** * The vectors of the parser tables

    Models the part of [yacc/output.c] that makes the vectors from the rows of actions and
    the gotos, and the arrays printed without packing, and shows what the engine finds
    in the printed tables: the actions that [make_parser] left and the gotos. *)

From stdpp Require Import functions sorting strings.
From S2P Require Import Prelude Mlvalues Warshall Closure Lr0 Lexing Parsing LalrSets Mkpar Pack Output Digraph Lalr.

(** A C [short]. *)
Definition short (x : Z) : Z := (x + 32768) mod 65536 - 32768.

(** Cells of the arrays that hold the vectors. *)
Definition set_count (v : nat) (n : Z) (vs : vectors) : vectors :=
  MkVectors (v_nstates vs) (nvectors vs) (froms vs) (tos vs) (<[v := short n]> (tally vs)) (width vs).
Definition set_width (v : nat) (w : Z) (vs : vectors) : vectors :=
  MkVectors (v_nstates vs) (nvectors vs) (froms vs) (tos vs) (tally vs) (<[v := short w]> (width vs)).
Definition set_entries (v : nat) (from to : list Z) (vs : vectors) : vectors :=
  MkVectors (v_nstates vs) (nvectors vs) (<[v := from]> (froms vs)) (<[v := to]> (tos vs)) (tally vs) (width vs).

(** What is written to an array of [count] cells, the others being zero. *)
Definition padded (count : Z) (l : list Z) : list Z := l ++ repeat 0 (Z.to_nat count - length l).

Section Vectors.
(** The grammar, its values of symbols, the rows of [parser], [defred], and the gotos. *)
Context (g : grammar) (symbol_value : Z -> Z) (parser : list (list action)) (defred : list Z) (G : gotos).
Definition n_states : nat := length parser.

(** ** The rows of actions *)

(** [for (p = parser[i]; p; p = p->next)]: [actionrow], [shiftcount], [reducecount]. *)
Fixpoint row_loop (row : list action) (default : Z) (actionrow : list Z) (shiftcount reducecount : Z) : list Z * Z * Z :=
  match row with
  | [] => (actionrow, shiftcount, reducecount)
  | p :: row =>
      if suppressed p =? 0 then
        if action_code p =? SHIFT then row_loop row default (cell_set (symbol p) (number p) actionrow) (shiftcount + 1) reducecount
        else if (action_code p =? REDUCE) && negb (number p =? default) then
          row_loop row default (cell_set (symbol p + ntokens g) (number p) actionrow) shiftcount (reducecount + 1)
        else row_loop row default actionrow shiftcount reducecount
      else row_loop row default actionrow shiftcount reducecount
  end.

(** [for (j = j; j < ntokens; ++j)] on the cells of [actionrow], of the shifts or the
    reductions, with [j] the token: [min], [max], and what is written to [r] and [s]; [less]
    is subtracted from the numbers. *)
Fixpoint entries_loop (cells : list Z) (j less min max : Z) (r s : list Z) : Z * Z * list Z * list Z :=
  match cells with
  | [] => (min, max, r, s)
  | x :: cells =>
      if negb (x =? 0) then
        let v := symbol_value j in
        entries_loop cells (j + 1) less (if v <? min then v else min) (if max <? v then v else max) (r ++ [v]) (s ++ [short (x - less)])
      else entries_loop cells (j + 1) less min max r s
  end.
Definition fill_vector (v : nat) (cells : list Z) (count less : Z) (vs : vectors) : vectors :=
  let '(min, max, r, s) := entries_loop cells 0 less (Z.of_nat MAXSHORT) 0 [] [] in
  set_width v (max - min + 1) (set_entries v (padded count r) (padded count s) vs).

(** The body of [token_actions] for the state [i]; a null pointer of [parser] is the empty row. *)
Definition token_state (i : nat) (row : list action) (default : Z) (vs : vectors) : vectors :=
  match row with
  | [] => vs
  | _ =>
      let n := Z.to_nat (ntokens g) in
      let '(actionrow, shiftcount, reducecount) := row_loop row default (repeat 0 (2 * n)) 0 0 in
      let vs := set_width (n_states + i) 0 (set_width i 0 (set_count (n_states + i) reducecount (set_count i shiftcount vs))) in
      let vs := if 0 <? shiftcount then fill_vector i (take n actionrow) shiftcount 0 vs else vs in
      if 0 <? reducecount then fill_vector (n_states + i) (drop n actionrow) reducecount 2 vs else vs
  end.
(** [for (i = i; i < nstates; ++i)] on the rows left. *)
Fixpoint token_loop (rows : list (list action)) (i : nat) (vs : vectors) : vectors :=
  match rows with
  | [] => vs
  | row :: rows => token_loop rows (S i) (token_state i row (defred !!! i) vs)
  end.
Definition token_actions (vs : vectors) : vectors := token_loop parser 0 vs.

(** ** The gotos *)

(** [for (i = m; i < n; i++)] on the gotos left. *)
Fixpoint count_states (to : list nat) (state_count : list Z) : list Z :=
  match to with
  | [] => state_count
  | q :: to => count_states to (<[q := state_count !!! q + 1]> state_count)
  end.
(** [for (i = i; i < nstates; i++)] on the counts left. *)
Fixpoint most_frequent (state_count : list Z) (i : nat) (max : Z) (default_state : nat) : nat :=
  match state_count with
  | [] => default_state
  | c :: state_count => if max <? c then most_frequent state_count (S i) c i else most_frequent state_count (S i) max default_state
  end.
(** The gotos of a symbol in [from_state] and [to_state]. *)
Definition between (m n : nat) (l : list nat) : list nat := take (n - m) (drop m l).
Definition default_goto (symbol : Z) : nat :=
  let m := map_at (goto_map G) symbol in
  let n := map_at (goto_map G) (symbol + 1) in
  if (m =? n)%nat then 0%nat
  else most_frequent (count_states (between m n (to_state G)) (repeat 0 n_states)) 0 0 0.

(** The gotos written, those not to [default_state]. *)
Fixpoint column (from to : list nat) (default_state : nat) : list (nat * nat) :=
  match from, to with
  | p :: from, q :: to => if negb (q =? default_state)%nat then (p, q) :: column from to default_state else column from to default_state
  | _, _ => []
  end.
Definition save_column (symbol : Z) (default_state : nat) (vs : vectors) : vectors :=
  let m := map_at (goto_map G) symbol in
  let n := map_at (goto_map G) (symbol + 1) in
  let c := column (between m n (from_state G)) (between m n (to_state G)) default_state in
  let count := Z.of_nat (length c) in
  if count =? 0 then vs
  else
    let symno := Z.to_nat (symbol_value symbol + 2 * Z.of_nat n_states) in
    let sp := map (fun x => Z.of_nat x.1) c in
    set_width symno (List.last sp 0 - List.hd 0 sp + 1) (set_count symno count (set_entries symno sp (map (fun x => Z.of_nat x.2) c) vs)).

(** [for (i = i; i < nsyms; i++)], [n] turns: what is printed as [yydgoto], and the vectors. *)
Fixpoint goto_loop (n : nat) (i : Z) (dgoto : list Z) (vs : vectors) : list Z * vectors :=
  match n with
  | O => (dgoto, vs)
  | S n => let k := default_goto i in goto_loop n (i + 1) (dgoto ++ [Z.of_nat k]) (save_column i k vs)
  end.
Definition goto_actions (vs : vectors) : list Z * vectors :=
  let k := default_goto (start_symbol g + 1) in
  goto_loop (Z.to_nat (nsyms g - (start_symbol g + 2))) (start_symbol g + 2) [Z.of_nat k] (save_column (start_symbol g + 1) k vs).

(** [output_actions] up to the packing. *)
Definition no_vectors : vectors :=
  MkVectors n_states (2 * n_states + Z.to_nat (nvars g)) (fun _ => []) (fun _ => []) (fun _ => 0) (fun _ => 0).
Definition all_vectors : list Z * vectors := goto_actions (token_actions no_vectors).
Definition output_actions (fuel : nat) : outcome packing :=
  let vs := all_vectors.2 in pack_table vs fuel (sort_actions vs).

(** ** The arrays printed *)

(** [for (i = i; i < nrules; i++)], [n] turns. *)
Fixpoint lhs_loop (n : nat) (i : Z) : list Z := match n with O => [] | S n => symbol_value (at_ (rlhs g) i) :: lhs_loop n (i + 1) end.
Fixpoint len_loop (n : nat) (i : Z) : list Z := match n with O => [] | S n => at_ (rrhs g) (i + 1) - at_ (rrhs g) i - 1 :: len_loop n (i + 1) end.
(** What [output_rule_data] and [output_yydefred] print, and [goto_actions] as [yydgoto]. *)
Definition rule_lhs : list Z := symbol_value (start_symbol g) :: lhs_loop (Z.to_nat (nrules g - 3)) 3.
Definition rule_len : list Z := 2 :: len_loop (Z.to_nat (nrules g - 3)) 3.
Definition defreds_printed : list Z := map (fun d => if negb (d =? 0) then d - 2 else 0) defred.
Definition yylhs : list Z := output_array rule_lhs.
Definition yylen : list Z := output_array rule_len.
Definition yydefred : list Z := output_array defreds_printed.
Definition yydgoto : list Z := output_array all_vectors.1.
End Vectors.

(** ** What a vector holds *)

Lemma short_small x : -32768 <= x < 32768 -> short x = x.
Proof. intros Hx. unfold short. rewrite Z.mod_small; lia. Qed.

(** The vector [v] holds the entries [es]: where, and what. *)
Definition vector_of (vs : vectors) (v : nat) (es : list (Z * Z)) : Prop :=
  tally vs v = Z.of_nat (length es) /\ froms vs v = map fst es /\ tos vs v = map snd es.

Lemma assoc_pairs (es : list (Z * Z)) c x : NoDup (map fst es) -> Pack.assoc c (map fst es) (map snd es) = Some x <-> (c, x) ∈ es.
Proof.
  induction es as [|[c0 x0] es IH]; cbn [map fst snd Pack.assoc]; intros Hn.
  - split; [done|]. by intros []%not_elem_of_nil.
  - apply NoDup_cons in Hn as [Hc Hn]. specialize (IH Hn). rewrite elem_of_cons. destruct (Pack.assoc c (map fst es) (map snd es)) as [y|] eqn:E.
    + rewrite IH. split; [by right|]. intros [[= -> ->]|Hin]; [|done]. destruct Hc. by apply assoc_in in E.
    + destruct (Z.eqb_spec c0 c) as [->|Hne]; (split; [intros [= ->]; by left|intros [[= ->]|Hin%IH]; done]).
Qed.

(** Among entries in the order of their tokens the last one for [c] counts. *)
Lemma assoc_ordered (key f : Z * Z -> Z) (cells : list (Z * Z)) c x : StronglySorted (fun e e' => e.1 < e'.1) cells ->
  Pack.assoc c (map key cells) (map f cells) = Some x <-> exists e, e ∈ cells /\ key e = c /\ f e = x /\ forall e', e' ∈ cells -> key e' = c -> e'.1 <= e.1.
Proof.
  induction 1 as [|e0 cells _ IH He0]; cbn [map Pack.assoc]; [split; [done|by intros (e & []%not_elem_of_nil & _)]|]. rewrite Forall_forall in He0.
  destruct (Pack.assoc c (map key cells) (map f cells)) as [y|] eqn:E.
  - rewrite IH. split; intros (e & Hin & Hk & Hf & Hmax).
    + exists e. split; [by right|]. split; [done|]. split; [done|]. intros e' [->|He']%elem_of_cons Hk'; [|by apply Hmax]. specialize (He0 e Hin). lia.
    + apply elem_of_cons in Hin as [->|Hin].
      * exfalso. apply assoc_in, list_elem_of_fmap in E as (e' & E & He'). specialize (Hmax e' ltac:(by right) (eq_sym E)). specialize (He0 e' He'). lia.
      * exists e. split; [done|]. split; [done|]. split; [done|]. intros e' He'. apply Hmax. by right.
  - assert (Hno : forall e', e' ∈ cells -> key e' <> c).
    { intros e' He' Hk. destruct (in_assoc c (map key cells) (map f cells)) as [y Hy]; [by rewrite !length_map|apply list_elem_of_fmap; by exists e'|congruence]. }
    destruct (Z.eqb_spec (key e0) c) as [Hk|Hk]; split.
    + intros [= <-]. exists e0. split; [apply list_elem_of_here|]. split; [done|]. split; [done|]. intros e' [->|He']%elem_of_cons Hk'; [lia|by destruct (Hno e' He')].
    + intros (e & [->|Hin]%elem_of_cons & Hk' & Hf & _); [by f_equal|by destruct (Hno e Hin)].
    + done.
    + intros (e & [->|Hin]%elem_of_cons & Hk' & Hf & _); [done|by destruct (Hno e Hin)].
Qed.

Section Full.
Context (vs : vectors) (v : nat) (es : list (Z * Z)) (V : vector_of vs v es).

Lemma vector_of_assoc c : (if 0 <? tally vs v then entry_of vs v c else None) = Pack.assoc c (map fst es) (map snd es).
Proof.
  destruct V as (Et & E1 & E2). unfold entry_of. rewrite Et, E1, E2. destruct (Z.ltb_spec 0 (Z.of_nat (length es))) as [Hl|Hl]; [done|].
  destruct es as [|e l]; [done|cbn [length] in Hl; lia].
Qed.

Lemma vector_of_ok : Forall (fun e => 0 <= e.1 <= 32767) es -> vector_ok vs v.
Proof. destruct V as (Et & E1 & E2). intros Hk. unfold vector_ok. rewrite E1, E2, !length_map, Et. split; [done|]. split; [done|]. by apply Forall_map. Qed.

Lemma vector_of_shorts : Forall (fun e => -32768 <= e.2 < 32768) es -> shorts_ok vs v.
Proof. destruct V as (_ & _ & E2). intros Hf. unfold shorts_ok. rewrite E2. by apply Forall_map. Qed.
End Full.

(** ** Rows *)

(** The shifts, and the reductions other than the default one, that are left in a row. *)
Definition left_shifts (row : list action) : list action := filter (fun a => suppressed a = 0 /\ action_code a = SHIFT) row.
Definition left_reductions (default : Z) (row : list action) : list action :=
  filter (fun a => suppressed a = 0 /\ action_code a = REDUCE /\ number a <> default) row.

Lemma lookup_zeros n i : (i < n)%nat -> repeat 0 n !!! i = 0.
Proof.
  intros Hi. destruct (lookup_lt_is_Some_2 (repeat 0 n) i) as [x E]; [by rewrite repeat_length|].
  rewrite (list_lookup_total_correct _ _ _ E). by apply list_elem_of_lookup_2, list_elem_of_In, repeat_spec in E.
Qed.

Section Row.
Context (g : grammar).

(** The cells that are written. *)
Definition written (default : Z) (a : action) : option (Z * Z) :=
  if suppressed a =? 0 then
    if action_code a =? SHIFT then Some (symbol a, number a)
    else if (action_code a =? REDUCE) && negb (number a =? default) then Some (symbol a + ntokens g, number a) else None
  else None.

Lemma row_loop_writes row default : forall cells sc rc, row_loop g row default cells sc rc =
  (fold_left (fun l w => cell_set w.1 w.2 l) (omap (written default) row) cells, sc + Z.of_nat (length (left_shifts row)), rc + Z.of_nat (length (left_reductions default row))).
Proof.
  induction row as [|a row IH]; intros cells sc rc; cbn [row_loop]; [by rewrite !Z.add_0_r|]. unfold left_shifts, left_reductions. cbn [omap list_omap]. unfold written at 1.
  rewrite !filter_cons. destruct (Z.eqb_spec (suppressed a) 0) as [Hs|Hs].
  - destruct (Z.eqb_spec (action_code a) SHIFT) as [Hc|Hc].
    + rewrite IH, decide_True, decide_False by (rewrite ?Hc; done || (intros (_ & ? & _); discriminate)). cbn [fold_left length fst snd]. unfold left_shifts, left_reductions; repeat (apply pair_equal_spec; split); done || lia.
    + rewrite decide_False by tauto. destruct (Z.eqb_spec (action_code a) REDUCE) as [Hr|Hr]; cbn [andb]; [|rewrite IH, decide_False by tauto; done].
      destruct (Z.eqb_spec (number a) default) as [Hd|Hd]; cbn [negb]; [rewrite IH, decide_False by tauto; done|].
      rewrite IH, decide_True by done. cbn [fold_left length fst snd]. unfold left_shifts, left_reductions; repeat (apply pair_equal_spec; split); done || lia.
  - rewrite IH, !decide_False by tauto. done.
Qed.

Lemma writes_lookup ws : forall cells, NoDup (map fst ws) -> Forall (fun w => 0 <= w.1 < Z.of_nat (length cells)) ws ->
  let cells' := fold_left (fun l w => cell_set w.1 w.2 l) ws cells in
  length cells' = length cells /\
  (forall i x, (i, x) ∈ ws -> cells' !!! Z.to_nat i = x) /\
  (forall i, 0 <= i -> i ∉ map fst ws -> cells' !!! Z.to_nat i = cells !!! Z.to_nat i).
Proof.
  induction ws as [|[i0 x0] ws IH]; intros cells Hn Hb; cbn [fold_left map fst snd] in *; [split; [done|]; split; [intros ? ? []%not_elem_of_nil|done]|].
  apply NoDup_cons in Hn as [Hi Hn]. apply Forall_cons in Hb as [Hb0 Hb]. cbn [fst] in Hb0.
  assert (El : length (cell_set i0 x0 cells) = length cells) by apply length_insert.
  destruct (IH (cell_set i0 x0 cells) Hn) as (H1 & H2 & H3); [by rewrite El|]. split; [congruence|]. split.
  - intros i x [[= -> ->]|Hx]%elem_of_cons; [|by apply H2]. rewrite H3 by (done || lia). rewrite cell_set_lookup by lia. by rewrite Z.eqb_refl.
  - intros i H0 [Hne Hx]%not_elem_of_cons. rewrite H3 by done. rewrite cell_set_lookup by lia. by rewrite (proj2 (Z.eqb_neq i0 i)) by congruence.
Qed.

(** The rows as [make_parser] leaves them. *)
Record row_ok (row : list action) : Prop := {
  rk_unique x : (length (survivors x row) <= 1)%nat;
  rk_left a : left_in row a -> 0 <= symbol a < ntokens g /\ 0 < number a <= 32767
}.

Lemma row_ok_cons a row : row_ok (a :: row) -> row_ok row /\ (suppressed a = 0 -> forall b, left_in row b -> symbol b <> symbol a).
Proof.
  intros [Hu Hl]. split.
  - split; [|intros b Hb; apply Hl, left_cons; by right]. intros x. specialize (Hu x). unfold survivors in *. rewrite filter_cons in Hu. case_decide; cbn [length] in Hu; lia.
  - intros Ha b [Hb Hs] E. specialize (Hu (symbol a)). unfold survivors in Hu. rewrite filter_cons, decide_True in Hu by done. cbn [length] in Hu.
    assert (Hin : b ∈ filter (fun a' => symbol a' = symbol a /\ suppressed a' = 0) row) by (by apply list_elem_of_filter). destruct (filter _ row); [by apply not_elem_of_nil in Hin|cbn [length] in Hu; lia].
Qed.

Lemma written_some default a i x : written default a = Some (i, x) <->
  suppressed a = 0 /\ x = number a /\ ((action_code a = SHIFT /\ i = symbol a) \/ (action_code a = REDUCE /\ number a <> default /\ i = symbol a + ntokens g)).
Proof.
  unfold written. destruct (Z.eqb_spec (suppressed a) 0) as [Hs|Hs]; [|split; [done|tauto]].
  destruct (Z.eqb_spec (action_code a) SHIFT) as [Hc|Hc].
  - split; [intros [= <- <-]; by intuition|]. intros (_ & -> & [[_ ->]|(H & _)]); [done|]. rewrite Hc in H. discriminate.
  - destruct (Z.eqb_spec (action_code a) REDUCE) as [Hr|Hr]; cbn [andb]; [|split; [done|tauto]].
    destruct (Z.eqb_spec (number a) default) as [Hd|Hd]; cbn [negb]; [split; [done|tauto]|]. split; [intros [= <- <-]; by intuition|]. intros (_ & -> & [[? _]|(_ & _ & ->)]); done.
Qed.

Lemma written_in default row i x : (i, x) ∈ omap (written default) row <-> exists a, left_in row a /\ written default a = Some (i, x).
Proof.
  rewrite list_elem_of_omap. unfold left_in. split; intros (a & H1 & H2); exists a; [|tauto]. split; [|done]. split; [done|]. apply written_some in H2. tauto.
Qed.

Lemma written_nodup default row : row_ok row -> NoDup (map fst (omap (written default) row)).
Proof.
  induction row as [|a row IH]; intros Hok; [constructor|]. cbn [omap list_omap]. destruct (row_ok_cons _ _ Hok) as [Hrow Hne]. specialize (IH Hrow).
  destruct (written default a) as [[i x]|] eqn:E; [|done]. cbn [map fst]. constructor; [|done]. intros ([i' x'] & Ei & Hin)%list_elem_of_fmap. cbn in Ei. subst i'.
  apply written_in in Hin as (b & Hb & Ew). apply written_some in E as (Hs & _ & E), Ew as (_ & _ & Ew). specialize (Hne Hs b Hb).
  destruct (rk_left _ Hok a) as [Ra _]; [apply left_cons; by left|]. destruct (rk_left _ Hok b) as [Rb _]; [apply left_cons; by right|].
  destruct E as [[_ ->]|(_ & _ & ->)], Ew as [[_ Ew]|(_ & _ & Ew)]; lia.
Qed.

Lemma row_loop_spec default row sc rc : row_ok row -> 0 <= ntokens g ->
  exists cells, row_loop g row default (repeat 0 (2 * Z.to_nat (ntokens g))) sc rc = (cells, sc + Z.of_nat (length (left_shifts row)), rc + Z.of_nat (length (left_reductions default row))) /\
    length cells = (2 * Z.to_nat (ntokens g))%nat /\
    (forall i x, 0 <= i < 2 * ntokens g -> x <> 0 -> cells !!! Z.to_nat i = x <-> exists a, left_in row a /\ written default a = Some (i, x)).
Proof.
  intros Hok H0. rewrite row_loop_writes. eexists. split; [reflexivity|].
  destruct (writes_lookup (omap (written default) row) (repeat 0 (2 * Z.to_nat (ntokens g)))) as (H1 & H2 & H3).
  - by apply written_nodup.
  - apply Forall_forall. intros [i x] Hin. apply written_in in Hin as (a & Ha & E). apply written_some in E as (_ & _ & E). destruct (rk_left _ Hok a Ha) as [R _].
    rewrite repeat_length. cbn [fst]. destruct E as [[_ ->]|(_ & _ & ->)]; lia.
  - rewrite repeat_length in H1. split; [done|]. intros i x Hi Hx. rewrite <- written_in. split; [|by apply H2]. intros E.
    destruct (decide (i ∈ map fst (omap (written default) row))) as [Hin|Hin].
    + apply list_elem_of_fmap in Hin as ([i' x'] & Ei & Hin). cbn in Ei. subst i'. specialize (H2 i x' Hin). by rewrite <- E, H2.
    + rewrite H3 in E by (done || lia). exfalso. apply Hx. rewrite <- E.
      apply lookup_zeros. lia.
Qed.
End Row.

(** ** Filling *)

Definition same_vector (vs vs' : vectors) (v : nat) : Prop := tally vs' v = tally vs v /\ froms vs' v = froms vs v /\ tos vs' v = tos vs v.
Definition same_sizes (vs vs' : vectors) : Prop := v_nstates vs' = v_nstates vs /\ nvectors vs' = nvectors vs.

Lemma same_vector_of vs vs' v es : same_vector vs vs' v -> vector_of vs v es -> vector_of vs' v es.
Proof. intros (E1 & E2 & E3) V. unfold vector_of. by rewrite E1, E2, E3. Qed.

Lemma same_vector_trans vs1 vs2 vs3 v : same_vector vs1 vs2 v -> same_vector vs2 vs3 v -> same_vector vs1 vs3 v.
Proof. intros (A1 & A2 & A3) (B1 & B2 & B3). unfold same_vector. by rewrite B1, B2, B3. Qed.

Section Fill.
Context (g : grammar) (symbol_value : Z -> Z).

(** The cells that are not zero, with their tokens. *)
Definition full_cells (cells : list Z) (j : Z) : list (Z * Z) := filter (fun e => e.2 <> 0) (zip (seqZ j (Z.of_nat (length cells))) cells).

Lemma full_cells_cons x cells j : full_cells (x :: cells) j = if decide (x <> 0) then (j, x) :: full_cells cells (j + 1) else full_cells cells (j + 1).
Proof.
  unfold full_cells. cbn [length]. rewrite seqZ_cons by lia. replace (Z.pred (Z.of_nat (S (length cells)))) with (Z.of_nat (length cells)) by lia.
  cbn [zip zip_with]. rewrite filter_cons. cbn [snd]. replace (Z.succ j) with (j + 1) by lia. by case_decide.
Qed.

Lemma full_cells_in cells : forall j i x, (i, x) ∈ full_cells cells j <-> j <= i < j + Z.of_nat (length cells) /\ x <> 0 /\ cells !!! Z.to_nat (i - j) = x.
Proof.
  induction cells as [|y cells IH]; intros j i x.
  - cbn. split; [by intros []%not_elem_of_nil|lia].
  - rewrite full_cells_cons. cbn [length]. assert (Hz : cells !!! Z.to_nat (i - (j + 1)) = (y :: cells) !!! Z.to_nat (i - j) \/ i <= j).
    { destruct (Z.le_gt_cases i j); [by right|left]. replace (Z.to_nat (i - j)) with (S (Z.to_nat (i - (j + 1)))) by lia. done. }
    assert (H0 : i = j -> (y :: cells) !!! Z.to_nat (i - j) = y) by (intros ->; by rewrite Z.sub_diag).
    case_decide as Hy; rewrite ?elem_of_cons, IH.
    + split.
      * intros [[= -> ->]|(H1 & H2 & H3)]; [split; [lia|]; split; [done|by apply H0]|]. split; [lia|]. split; [done|]. destruct Hz as [<-|]; [done|lia].
      * intros (H1 & H2 & H3). destruct (decide (i = j)) as [E|E]; [left; subst i; rewrite <- H3; by rewrite H0|right]. split; [lia|]. split; [done|]. destruct Hz as [->|]; [done|lia].
    + split.
      * intros (H1 & H2 & H3). split; [lia|]. split; [done|]. destruct Hz as [<-|]; [done|lia].
      * intros (H1 & H2 & H3). destruct (decide (i = j)) as [E|E]; [rewrite (H0 E) in H3; subst x; tauto|]. split; [lia|]. split; [done|]. destruct Hz as [->|]; [done|lia].
Qed.

Lemma full_cells_nodup cells : forall j, NoDup (map fst (full_cells cells j)).
Proof.
  induction cells as [|y cells IH]; intros j; [constructor|]. rewrite full_cells_cons. case_decide; [|done]. cbn [map fst]. constructor; [|done].
  intros ([i x] & -> & Hi%full_cells_in)%list_elem_of_fmap. cbn in Hi. lia.
Qed.

Lemma full_cells_sorted cells : forall j, StronglySorted (fun e e' => e.1 < e'.1) (full_cells cells j).
Proof.
  induction cells as [|y cells IH]; intros j; [constructor|]. rewrite full_cells_cons. case_decide; [|done]. constructor; [done|].
  apply Forall_forall. intros [i x] Hi%full_cells_in. cbn. lia.
Qed.

Lemma entries_loop_spec less cells : forall j min max r s, exists min' max',
  entries_loop symbol_value cells j less min max r s =
    (min', max', r ++ map (fun e => symbol_value e.1) (full_cells cells j), s ++ map (fun e => short (e.2 - less)) (full_cells cells j)).
Proof.
  induction cells as [|x cells IH]; intros j min max r s; cbn [entries_loop]; [exists min, max; by rewrite !app_nil_r|]. rewrite full_cells_cons.
  destruct (Z.eqb_spec x 0) as [Hx|Hx]; cbn [negb]; [rewrite decide_False by tauto; apply IH|]. rewrite decide_True by done. cbn [map fst snd].
  destruct (IH (j + 1) (if symbol_value j <? min then symbol_value j else min) (if max <? symbol_value j then symbol_value j else max) (r ++ [symbol_value j]) (s ++ [short (x - less)])) as (min' & max' & ->).
  exists min', max'. by rewrite <- !app_assoc.
Qed.

(** The vector [v] holds the entries of the actions [l] in the order of their tokens:
    the code of the token, and the state or the rule printed. *)
Definition action_vector (vs : vectors) (v : nat) (less : Z) (l : list action) : Prop :=
  exists cells, cells ≡ₚ map (fun a => (symbol a, number a)) l /\ StronglySorted (fun e e' => e.1 < e'.1) cells /\
    vector_of vs v (map (fun e => (symbol_value e.1, e.2 - less)) cells).

(** A vector is filled from the cells that hold the numbers of the actions [l]; [count]
    is their number. *)
Lemma fill_vector_spec v cells (l : list action) less vs : NoDup (map Mkpar.symbol l) -> (forall a, a ∈ l -> -32768 <= number a - less < 32768) ->
  tally vs v = Z.of_nat (length l) ->
  (forall i x, 0 <= i < Z.of_nat (length cells) -> x <> 0 -> cells !!! Z.to_nat i = x <-> exists a, a ∈ l /\ symbol a = i /\ number a = x) ->
  (forall a, a ∈ l -> 0 <= symbol a < Z.of_nat (length cells) /\ number a <> 0) ->
  let vs' := fill_vector symbol_value v cells (Z.of_nat (length l)) less vs in
  action_vector vs' v less l /\ (forall u, u <> v -> same_vector vs vs' u) /\ same_sizes vs vs'.
Proof.
  intros Hn Hs Ht Hc Hl vs'. unfold vs', fill_vector. destruct (entries_loop_spec less cells 0 (Z.of_nat MAXSHORT) 0 [] []) as (min & max & ->). cbn [app].
  assert (Hp : full_cells cells 0 ≡ₚ map (fun a => (symbol a, number a)) l).
  { apply NoDup_Permutation.
    - apply (NoDup_fmap_1 fst). apply full_cells_nodup.
    - apply (NoDup_fmap_1 fst). change (fmap fst (map ?f l)) with (map fst (map f l)). by rewrite map_map.
    - intros [i x]. rewrite full_cells_in, list_elem_of_fmap, Z.sub_0_r. split.
      + intros (H1 & H2 & H3). apply Hc in H3 as (a & Ha & <- & <-); [by exists a|lia|done].
      + intros (a & [= -> ->] & Ha). destruct (Hl a Ha) as [H1 H2]. split; [lia|]. split; [done|]. apply Hc; [done|done|by exists a]. }
  assert (Elen : length (full_cells cells 0) = length l) by (by rewrite Hp, length_map).
  unfold padded. rewrite !length_map, Elen, Nat2Z.id, Nat.sub_diag. cbn [repeat]. rewrite !app_nil_r.
  cbn [tally froms tos set_width set_entries v_nstates nvectors]. split; [|split; [|done]].
  2: { intros u Hu. unfold same_vector. cbn [tally froms tos set_width set_entries]. by rewrite !fn_lookup_insert_ne by done. }
  exists (full_cells cells 0). split; [done|]. split; [apply full_cells_sorted|]. unfold vector_of. cbn [tally froms tos set_width set_entries].
  rewrite length_map, Elen, !fn_lookup_insert, !map_map. split; [done|]. split; [done|]. cbn [snd]. apply map_ext_in.
  intros [i x] Hin%list_elem_of_In. rewrite Hp in Hin. apply list_elem_of_fmap in Hin as (a & [= -> ->] & Ha).
    apply short_small. by apply Hs.
Qed.

(** The vector is not filled when there are no actions. *)
Lemma fill_if_spec v cells (l : list action) less vs : NoDup (map Mkpar.symbol l) -> (forall a, a ∈ l -> -32768 <= number a - less < 32768) ->
  tally vs v = Z.of_nat (length l) -> froms vs v = [] -> tos vs v = [] ->
  (forall i x, 0 <= i < Z.of_nat (length cells) -> x <> 0 -> cells !!! Z.to_nat i = x <-> exists a, a ∈ l /\ symbol a = i /\ number a = x) ->
  (forall a, a ∈ l -> 0 <= symbol a < Z.of_nat (length cells) /\ number a <> 0) ->
  let vs' := if 0 <? Z.of_nat (length l) then fill_vector symbol_value v cells (Z.of_nat (length l)) less vs else vs in
  action_vector vs' v less l /\ (forall u, u <> v -> same_vector vs vs' u) /\ same_sizes vs vs'.
Proof.
  intros Hn Hs Ht Hf Ho Hc Hl. destruct (Z.ltb_spec 0 (Z.of_nat (length l))) as [H|H]; [by apply fill_vector_spec|].
  destruct l as [|b l]; [|cbn [length] in H; lia]. split; [|done]. exists []. split; [done|]. split; [constructor|]. done.
Qed.
End Fill.

(** ** The vectors of the actions *)

Lemma left_shifts_in row a : a ∈ left_shifts row <-> left_in row a /\ action_code a = SHIFT.
Proof. unfold left_shifts, left_in. rewrite list_elem_of_filter. tauto. Qed.
Lemma left_reductions_in d row a : a ∈ left_reductions d row <-> left_in row a /\ action_code a = REDUCE /\ number a <> d.
Proof. unfold left_reductions, left_in. rewrite list_elem_of_filter. tauto. Qed.

Section Tokens.
Context (g : grammar) (symbol_value : Z -> Z) (parser : list (list action)) (defred : list Z).
Context (Ht : 0 <= ntokens g <= 32767).
Abbreviation n := (n_states parser).

(** The vectors of a row. *)
Abbreviation shift_vector vs v row := (action_vector symbol_value vs v 0 (left_shifts row)).
Abbreviation reduce_vector vs v d row := (action_vector symbol_value vs v 2 (left_reductions d row)).

Lemma no_actions vs v less : vector_of vs v [] -> action_vector symbol_value vs v less [].
Proof. intros V. exists []. split; [done|]. split; [constructor|done]. Qed.

Lemma same_action_vector vs vs' v less l : same_vector vs vs' v -> action_vector symbol_value vs v less l -> action_vector symbol_value vs' v less l.
Proof. intros E (cells & Hp & Hs & V). exists cells. split; [done|]. split; [done|]. by eapply same_vector_of. Qed.

Lemma left_nodup (P : action -> Prop) `{!forall a, Decision (P a)} row : row_ok g row -> (forall a, P a -> suppressed a = 0) -> NoDup (map Mkpar.symbol (filter P row)).
Proof.
  intros Hok HP. induction row as [|a row IH]; [constructor|]. destruct (row_ok_cons _ _ _ Hok) as [Hrow Hne]. rewrite filter_cons. case_decide as Ha; [|by apply IH].
  cbn [map]. constructor; [|by apply IH]. intros (b & E & [Hb Hin]%list_elem_of_filter)%list_elem_of_fmap. apply (Hne (HP a Ha) b); [|done]. split; [done|by apply HP].
Qed.

Lemma left_length l row : NoDup (map Mkpar.symbol l) -> row_ok g row -> (forall a, a ∈ l -> left_in row a) -> (length l <= Z.to_nat (ntokens g))%nat.
Proof.
  intros Hn Hok Hl. rewrite <- (length_map Mkpar.symbol), <- (length_seqZ 0 (ntokens g)). apply submseteq_length, NoDup_submseteq; [done|].
  intros i (a & -> & Ha%Hl)%list_elem_of_fmap. apply elem_of_seqZ. destruct (rk_left _ _ Hok a Ha) as [R _]. lia.
Qed.

Lemma left_shifts_nodup row : row_ok g row -> NoDup (map Mkpar.symbol (left_shifts row)).
Proof. intros Hok. apply left_nodup; [done|]. by intros a [? _]. Qed.
Lemma left_reductions_nodup d row : row_ok g row -> NoDup (map Mkpar.symbol (left_reductions d row)).
Proof. intros Hok. apply left_nodup; [done|]. by intros a [? _]. Qed.
Lemma left_shifts_length row : row_ok g row -> (length (left_shifts row) <= Z.to_nat (ntokens g))%nat.
Proof. intros Hok. apply (left_length _ row); [by apply left_shifts_nodup|done|]. by intros a [? _]%left_shifts_in. Qed.
Lemma left_reductions_length d row : row_ok g row -> (length (left_reductions d row) <= Z.to_nat (ntokens g))%nat.
Proof. intros Hok. apply (left_length _ row); [by apply left_reductions_nodup|done|]. by intros a [? _]%left_reductions_in. Qed.
Lemma left_shifts_range row : row_ok g row -> forall a, a ∈ left_shifts row -> 0 <= symbol a < ntokens g /\ 0 < number a <= 32767.
Proof. intros Hok a [Ha _]%left_shifts_in. by apply (rk_left _ _ Hok). Qed.
Lemma left_reductions_range d row : row_ok g row -> forall a, a ∈ left_reductions d row -> 0 <= symbol a < ntokens g /\ 0 < number a <= 32767.
Proof. intros Hok a [Ha _]%left_reductions_in. by apply (rk_left _ _ Hok). Qed.

(** Which actions wrote the cells. *)
Lemma written_shift d row i x : row_ok g row -> i < ntokens g ->
  (exists a, left_in row a /\ written g d a = Some (i, x)) <-> exists a, a ∈ left_shifts row /\ symbol a = i /\ number a = x.
Proof.
  intros Hok Hi. split; intros (a & Ha & E); exists a.
  - apply written_some in E as (_ & -> & [[Hsh ->]|(_ & _ & ->)]); [by rewrite left_shifts_in|]. destruct (rk_left _ _ Hok a Ha). lia.
  - apply left_shifts_in in Ha as [Ha Hsh]. destruct E as [<- <-]. split; [done|]. apply written_some. split; [apply Ha|]. auto.
Qed.
Lemma written_reduction d row i x : row_ok g row -> 0 <= i ->
  (exists a, left_in row a /\ written g d a = Some (i + ntokens g, x)) <-> exists a, a ∈ left_reductions d row /\ symbol a = i /\ number a = x.
Proof.
  intros Hok Hi. split; intros (a & Ha & E); exists a.
  - apply written_some in E as (_ & -> & [[_ E]|(Hr & Hd & E)]); [destruct (rk_left _ _ Hok a Ha); lia|]. rewrite left_reductions_in. split; [done|]. split; [lia|done].
  - apply left_reductions_in in Ha as (Ha & Hr & Hd). destruct E as [<- <-]. split; [done|]. apply written_some. split; [apply Ha|]. auto.
Qed.

Lemma empty_vector vs v : vector_of vs v [] -> froms vs v = [] /\ tos vs v = [].
Proof. intros (_ & E1 & E2). done. Qed.

Lemma token_state_spec i row d vs : (i < n)%nat -> row_ok g row -> vector_of vs i [] -> vector_of vs (n + i) [] ->
  let vs' := token_state g symbol_value parser i row d vs in
  shift_vector vs' i row /\ reduce_vector vs' (n + i)%nat d row /\
  (forall u, u <> i -> u <> (n + i)%nat -> same_vector vs vs' u) /\ same_sizes vs vs'.
Proof.
  intros Hi Hok V1 V2 vs'. unfold vs', token_state. destruct row as [|a0 row']; [by split; [apply no_actions|split; [apply no_actions|]]|]. set (row := a0 :: row') in *. clearbody row. clear a0 row' vs'. cbv zeta.
  destruct (row_loop_spec g d row 0 0 Hok) as (cells & -> & El & Hc); [lia|]. rewrite !Z.add_0_l.
  apply empty_vector in V1 as [E1 E2], V2 as [E3 E4].
  set (vs0 := set_width (n + i) 0 _).
  assert (T0 : (tally vs0 i = Z.of_nat (length (left_shifts row)) /\ tally vs0 (n + i)%nat = Z.of_nat (length (left_reductions d row))) /\
    (forall u, u <> i -> u <> (n + i)%nat -> same_vector vs vs0 u) /\ (forall u, froms vs0 u = froms vs u /\ tos vs0 u = tos vs u) /\ same_sizes vs vs0).
  { pose proof (left_shifts_length row Hok). pose proof (left_reductions_length d row Hok). unfold vs0, same_vector. cbn [tally froms tos set_width set_count].
    rewrite fn_lookup_insert, (fn_lookup_insert_ne _ (n + i)%nat i), fn_lookup_insert, !short_small by lia. split; [done|]. split; [|done]. intros u Hu Hu'. by rewrite !fn_lookup_insert_ne by done. }
  clearbody vs0. destruct T0 as ((T1 & T2) & T3 & F0 & S0).
  destruct (fill_if_spec symbol_value i (take (Z.to_nat (ntokens g)) cells) (left_shifts row) 0 vs0) as (W1 & W2 & W3);
    [by apply left_shifts_nodup|intros a Ha%(left_shifts_range row Hok); lia|done|by rewrite (proj1 (F0 i))|by rewrite (proj2 (F0 i))|..].
  { intros j x Hj Hx. rewrite length_take in Hj. rewrite list_lookup_total_alt, lookup_take_lt, <- list_lookup_total_alt by lia. rewrite (Hc j x) by (done || lia). by apply written_shift; [|lia]. }
  { intros a Ha%(left_shifts_range row Hok). rewrite length_take. lia. }
  revert W1 W2 W3. cbv zeta. generalize (if 0 <? Z.of_nat (length (left_shifts row)) then fill_vector symbol_value i (take (Z.to_nat (ntokens g)) cells) (Z.of_nat (length (left_shifts row))) 0 vs0 else vs0).
  intros vs1 W1 W2 W3. destruct (W2 (n + i)%nat ltac:(lia)) as (Q1 & Q2 & Q3).
  destruct (fill_if_spec symbol_value (n + i) (drop (Z.to_nat (ntokens g)) cells) (left_reductions d row) 2 vs1) as (X1 & X2 & X3);
    [by apply left_reductions_nodup|intros a Ha%(left_reductions_range d row Hok); lia|congruence|by rewrite Q2, (proj1 (F0 _))|by rewrite Q3, (proj2 (F0 _))|..].
  { intros j x Hj Hx. rewrite length_drop in Hj. rewrite list_lookup_total_alt, lookup_drop, <- list_lookup_total_alt.
    replace (Z.to_nat (ntokens g) + Z.to_nat j)%nat with (Z.to_nat (j + ntokens g)) by lia. rewrite (Hc (j + ntokens g) x) by (done || lia). by apply written_reduction; [|lia]. }
  { intros a Ha%(left_reductions_range d row Hok). rewrite length_drop. lia. }
  split; [apply (same_action_vector vs1); [apply X2; lia|done]|]. split; [exact X1|]. split; [|destruct S0, W3, X3; split; congruence].
  intros u Hu Hu'. apply (same_vector_trans _ vs0); [by apply T3|]. apply (same_vector_trans _ vs1); [by apply W2|by apply X2].
Qed.

Definition empty_vectors (vs : vectors) (i k : nat) : Prop := forall j, (i <= j < k)%nat -> vector_of vs j [] /\ vector_of vs (n + j) [].

Lemma token_loop_spec rows : forall i vs, (i + length rows = n)%nat -> Forall (row_ok g) rows -> empty_vectors vs i n ->
  let vs' := token_loop g symbol_value parser defred rows i vs in
  (forall j row, rows !! j = Some row -> shift_vector vs' (i + j)%nat row /\ reduce_vector vs' (n + (i + j))%nat (defred !!! (i + j)%nat) row) /\
  (forall u, (u < i \/ n <= u < n + i \/ 2 * n <= u)%nat -> same_vector vs vs' u) /\ same_sizes vs vs'.
Proof.
  induction rows as [|row rows IH]; intros i vs Hi Hok He; cbn [token_loop length] in *; [split; [done|]; split; [|done]; done|].
  apply Forall_cons in Hok as [Hrow Hok]. destruct (He i ltac:(lia)) as [V1 V2]. destruct (token_state_spec i row (defred !!! i) vs ltac:(lia) Hrow V1 V2) as (W1 & W2 & W3 & W4).
  destruct (IH (S i) (token_state g symbol_value parser i row (defred !!! i) vs)) as (X1 & X2 & X3); [lia|done|..].
  - intros j Hj. destruct (He j ltac:(lia)). split; (apply (same_vector_of vs); [apply W3; lia|done]).
  - split; [|split; [|destruct W4, X3; split; congruence]].
    + intros [|j] row' Hj; [injection Hj as <-; rewrite Nat.add_0_r; split; (eapply same_action_vector; [apply X2; lia|done])|]. rewrite Nat.add_succ_r. by apply X1.
    + intros u Hu. apply (same_vector_trans _ (token_state g symbol_value parser i row (defred !!! i) vs)); [apply W3; lia|apply X2; lia].
Qed.
End Tokens.

(** ** The vectors of the gotos *)

(** What [pack_symbols] makes of the symbols: the values of the tokens are different, but
    for that of [$end], which a token [EOF] shares; the
    nonterminals behind [$accept] have their places as values. *)
Record symbols_ok (g : grammar) (symbol_value : Z -> Z) : Prop := {
  so_tokens : 0 <= ntokens g <= 32767;
  so_nvars : 2 <= nvars g;
  so_token t : 0 <= t < ntokens g -> 0 <= symbol_value t <= 32767;
  so_inj t t' : 0 < t < ntokens g -> 0 < t' < ntokens g -> symbol_value t = symbol_value t' -> t = t';
  so_var A : start_symbol g < A < nsyms g -> symbol_value A = A - start_symbol g - 1;
  so_start : symbol_value (start_symbol g) = -1
}.

Lemma column_filter from : forall to d, column from to d = filter (fun x => x.2 <> d) (zip from to).
Proof.
  induction from as [|p from IH]; intros [|q to] d; cbn [column zip zip_with]; [done..|]. rewrite filter_cons, IH. cbn [snd].
  destruct (Nat.eqb_spec q d); cbn [negb]; case_decide; tauto.
Qed.

Section Columns.
Context (g : grammar) (OK : grammar_ok g) (s : lr0) (AU : automaton g s) (G : gotos) (NB : numbering g s G).

(** The gotos of a symbol. *)
Definition gotos_on (A : Z) : list (nat * nat) :=
  let m := map_at (goto_map G) A in let k := map_at (goto_map G) (A + 1) in zip (between m k (from_state G)) (between m k (to_state G)).

Lemma between_lookup m k (l : list nat) i : (m + i < k)%nat -> between m k l !! i = l !! (m + i)%nat.
Proof. intros Hi. unfold between. rewrite lookup_take_lt by lia. apply lookup_drop. Qed.
Lemma between_length m k (l : list nat) : (m <= k <= length l)%nat -> length (between m k l) = (k - m)%nat.
Proof. intros H. unfold between. rewrite length_take, length_drop. lia. Qed.

Lemma gotos_lookup A i p q : ntokens g <= A < nsyms g -> gotos_on A !! i = Some (p, q) <->
  (map_at (goto_map G) A + i < map_at (goto_map G) (A + 1))%nat /\ from_state G !! (map_at (goto_map G) A + i)%nat = Some p /\ to_state G !! (map_at (goto_map G) A + i)%nat = Some q.
Proof.
  intros HA. pose proof (nb_range _ _ G NB A HA) as Hr. pose proof (nb_from _ _ G NB) as Lf. pose proof (nb_to _ _ G NB) as Lt. unfold gotos_on.
  rewrite lookup_zip_Some. destruct (decide (map_at (goto_map G) A + i < map_at (goto_map G) (A + 1))%nat) as [Hi|Hi]; [by rewrite !between_lookup by done; tauto|].
  split; [|tauto]. intros [H _]. apply lookup_lt_Some in H. rewrite between_length in H by lia. lia.
Qed.

Lemma gotos_in A p q : ntokens g <= A < nsyms g -> (p, q) ∈ gotos_on A <-> delta s p A q.
Proof.
  intros HA. split.
  - intros [i Hi]%list_elem_of_lookup. apply gotos_lookup in Hi as (Hi & Hp & Hq); [|done].
    pose proof (nb_range _ _ G NB A HA) as Hr. destruct (nb_goto _ _ G NB (map_at (goto_map G) A + i)%nat) as (p' & q' & Hp' & Hq' & Hd & _); [lia|].
    rewrite Hp in Hp'. rewrite Hq in Hq'. injection Hp' as <-. injection Hq' as <-.
    destruct (nb_symbol _ _ G NB A (map_at (goto_map G) A + i)%nat HA ltac:(lia)) as (q' & Hq' & E). rewrite Hq in Hq'. injection Hq' as <-. by rewrite E in Hd.
  - intros Hd. destruct (nb_find _ _ G NB p A q Hd) as (i & Hi & _ & Hp & Hq); [unfold ISVAR; rewrite (go_start g OK); apply Z.leb_le; lia|].
    apply (list_elem_of_lookup_2 _ (i - map_at (goto_map G) A)%nat). apply gotos_lookup; [done|]. replace (map_at (goto_map G) A + (i - map_at (goto_map G) A))%nat with i by lia. split; [lia|done].
Qed.

Lemma gotos_nodup A : ntokens g <= A < nsyms g -> NoDup (map fst (gotos_on A)).
Proof.
  intros HA. apply NoDup_alt. intros i j p Hi Hj. rewrite !list_lookup_fmap in *.
  destruct (gotos_on A !! i) as [[p1 q1]|] eqn:E1; [|done]. destruct (gotos_on A !! j) as [[p2 q2]|] eqn:E2; [|done]. cbn in Hi, Hj. injection Hi as ->. injection Hj as ->.
  apply gotos_lookup in E1 as (L1 & P1 & _), E2 as (L2 & P2 & _); [|done..]. destruct (Nat.lt_total i j) as [Hc|[Hc|Hc]]; [exfalso|done|exfalso].
  - pose proof (nb_sorted _ _ G NB A _ _ p p HA (Nat.le_add_r _ i) (conj (proj1 (Nat.add_lt_mono_l i j (map_at (goto_map G) A)) Hc) L2) P1 P2). lia.
  - pose proof (nb_sorted _ _ G NB A _ _ p p HA (Nat.le_add_r _ j) (conj (proj1 (Nat.add_lt_mono_l j i (map_at (goto_map G) A)) Hc) L1) P2 P1). lia.
Qed.

Lemma gotos_length A : ntokens g <= A < nsyms g -> (length (gotos_on A) <= MAXSHORT)%nat.
Proof.
  intros HA. pose proof (nb_range _ _ G NB A HA). pose proof (nb_small _ _ G NB). unfold gotos_on. rewrite length_zip, !between_length; [lia|..]; rewrite ?(nb_from _ _ G NB), ?(nb_to _ _ G NB); lia.
Qed.

Context (symbol_value : Z -> Z) (SO : symbols_ok g symbol_value) (parser : list (list action)).
Abbreviation n := (n_states parser).

(** The column of a symbol, where it is kept, and its default. *)
Abbreviation default_of A := (default_goto parser G A).
Definition column_of (A : Z) : list (Z * Z) := map (fun x => (Z.of_nat x.1, Z.of_nat x.2)) (filter (fun x => x.2 <> default_of A) (gotos_on A)).
Definition place_of (A : Z) : nat := (2 * n + Z.to_nat (A - start_symbol g - 1))%nat.

Lemma save_column_spec A vs : start_symbol g < A < nsyms g -> vector_of vs (place_of A) [] ->
  let vs' := save_column symbol_value parser G A (default_of A) vs in
  vector_of vs' (place_of A) (column_of A) /\ (forall u, u <> place_of A -> same_vector vs vs' u) /\ same_sizes vs vs'.
Proof.
  intros HA V vs'. unfold vs', save_column, column_of. rewrite column_filter. change (zip _ _) with (gotos_on A). set (c := filter _ (gotos_on A)).
  pose proof (so_var g _ SO A HA) as Ev. replace (Z.to_nat (symbol_value A + 2 * Z.of_nat n)) with (place_of A) by (unfold place_of; lia).
  destruct (Z.eqb_spec (Z.of_nat (length c)) 0) as [E|E].
  - destruct c as [|x c0]; [|cbn [length] in E; lia]. done.
  - assert (Hl : (length c <= MAXSHORT)%nat) by (unfold c; rewrite length_filter; apply gotos_length; rewrite <- (go_start g OK); lia). split; [|split; [|done]].
    + split; cbn [tally froms tos set_width set_count set_entries]; rewrite !fn_lookup_insert.
      * rewrite length_map. apply short_small. unfold MAXSHORT in Hl. lia.
      * rewrite !map_map. done.
    + intros u Hu. unfold same_vector. cbn [tally froms tos set_width set_count set_entries]. by rewrite !fn_lookup_insert_ne by done.
Qed.

Lemma goto_loop_spec k : forall A dg vs, start_symbol g < A -> A + Z.of_nat k = nsyms g -> (forall B, A <= B < nsyms g -> vector_of vs (place_of B) []) ->
  let '(dg', vs') := goto_loop symbol_value parser G k A dg vs in
  dg' = dg ++ map (fun B => Z.of_nat (default_of B)) (seqZ A (Z.of_nat k)) /\
  (forall B, A <= B < nsyms g -> vector_of vs' (place_of B) (column_of B)) /\
  (forall u, (forall B, A <= B < nsyms g -> u <> place_of B) -> same_vector vs vs' u) /\ same_sizes vs vs'.
Proof.
  induction k as [|k IH]; intros A dg vs H1 H2 He; cbn [goto_loop].
  - rewrite app_nil_r. split; [done|]. split; [lia|]. by split.
  - destruct (save_column_spec A vs ltac:(lia) (He A ltac:(lia))) as (W1 & W2 & W3). cbv zeta.
    assert (Hp : forall B, A < B -> place_of B <> place_of A) by (unfold place_of; lia).
    specialize (IH (A + 1) (dg ++ [Z.of_nat (default_of A)]) (save_column symbol_value parser G A (default_of A) vs) ltac:(lia) ltac:(lia)).
    destruct (goto_loop _ _ _ _ _ _ _) as [dg' vs']. destruct IH as (X1 & X2 & X3 & X4).
    { intros B HB. apply (same_vector_of vs); [apply W2, Hp; lia|apply He; lia]. }
    split; [|split; [|split; [|destruct W3, X4; split; congruence]]].
    + rewrite X1, <- app_assoc, (seqZ_cons A) by lia. replace (Z.succ A) with (A + 1) by lia. by replace (Z.pred (Z.of_nat (S k))) with (Z.of_nat k) by lia.
    + intros B HB. destruct (decide (B = A)) as [->|Hne]; [|apply X2; lia]. eapply same_vector_of; [|exact W1]. apply X3. intros B HB'. apply not_eq_sym, Hp. lia.
    + intros u Hu. apply (same_vector_trans _ (save_column symbol_value parser G A (default_of A) vs)); [apply W2, Hu; lia|]. apply X3. intros B HB'. apply Hu. lia.
Qed.

Lemma goto_actions_spec vs : (forall B, start_symbol g < B < nsyms g -> vector_of vs (place_of B) []) ->
  let '(dg, vs') := goto_actions g symbol_value parser G vs in
  dg = map (fun B => Z.of_nat (default_of B)) (seqZ (start_symbol g + 1) (nvars g - 1)) /\
  (forall B, start_symbol g < B < nsyms g -> vector_of vs' (place_of B) (column_of B)) /\
  (forall u, (forall B, start_symbol g < B < nsyms g -> u <> place_of B) -> same_vector vs vs' u) /\ same_sizes vs vs'.
Proof.
  intros He. pose proof (so_nvars g _ SO) as Hv. pose proof (go_start g OK) as Hs. pose proof (go_nsyms g OK) as Hn.
  pose proof (goto_loop_spec (Z.to_nat (nsyms g - (start_symbol g + 1))) (start_symbol g + 1) [] vs ltac:(lia) ltac:(lia)) as H.
  replace (Z.to_nat (nsyms g - (start_symbol g + 1))) with (S (Z.to_nat (nsyms g - (start_symbol g + 2)))) in H by lia. cbn [goto_loop app] in H. cbv zeta in H.
  replace (start_symbol g + 1 + 1) with (start_symbol g + 2) in H by lia. unfold goto_actions.
  destruct (goto_loop _ _ _ _ _ _ _) as [dg vs']. destruct H as (X1 & X2 & X3 & X4); [intros B HB; apply He; lia|].
  split; [rewrite X1; cbn [app]; do 2 f_equal; lia|]. split; [intros B HB; apply X2; lia|]. split; [|done]. intros u Hu. apply X3. intros B HB. apply Hu. lia.
Qed.
End Columns.

(** ** The printed tables *)

Lemma count_states_length to : forall l, length (count_states to l) = length l.
Proof. induction to as [|q to IH]; intros l; cbn [count_states]; [done|]. by rewrite IH, length_insert. Qed.

Lemma most_frequent_lt l k : forall i max d, (i + length l <= k)%nat -> (d < k)%nat -> (most_frequent l i max d < k)%nat.
Proof.
  induction l as [|c l IH]; intros i max d Hi Hd; cbn [most_frequent length] in *; [done|]. destruct (max <? c); apply IH; lia.
Qed.

Section Tables.
Context (g : grammar) (OK : grammar_ok g) (s : lr0) (AU : automaton g s) (G : gotos) (NB : numbering g s G).
Context (symbol_value : Z -> Z) (SO : symbols_ok g symbol_value) (parser : list (list action)) (defred : list Z).
Context (Hns : n_states parser = nstates s) (Hrows : Forall (row_ok g) parser).
Abbreviation n := (n_states parser).
Abbreviation vs := (all_vectors g symbol_value parser defred G).2.
Abbreviation place_of := (place_of g parser).
Abbreviation column_of := (column_of G parser).
Abbreviation shift_vector vs v row := (action_vector symbol_value vs v 0 (left_shifts row)).
Abbreviation reduce_vector vs v d row := (action_vector symbol_value vs v 2 (left_reductions d row)).

Lemma default_goto_lt A : (0 < n)%nat -> (default_goto parser G A < n)%nat.
Proof.
  intros Hn. unfold default_goto. destruct (_ =? _)%nat; [done|]. apply most_frequent_lt; [|done]. rewrite count_states_length, repeat_length. lia.
Qed.

Lemma all_vectors_spec :
  (all_vectors g symbol_value parser defred G).1 = map (fun B => Z.of_nat (default_goto parser G B)) (seqZ (start_symbol g + 1) (nvars g - 1)) /\
  (forall i row, parser !! i = Some row -> shift_vector vs i row /\ reduce_vector vs (n + i)%nat (defred !!! i) row) /\
  (forall B, start_symbol g < B < nsyms g -> vector_of vs (place_of B) (column_of B)) /\
  vector_of vs (2 * n + Z.to_nat (nvars g - 1)) [] /\ v_nstates vs = n /\ nvectors vs = (2 * n + Z.to_nat (nvars g))%nat.
Proof.
  pose proof (go_start g OK) as Hs. pose proof (go_nsyms g OK) as Hy. pose proof (so_nvars g _ SO) as Hv.
  assert (Hz : forall u, vector_of (no_vectors g parser) u []) by (intros u; split; [done|done]).
  destruct (token_loop_spec g symbol_value parser defred (so_tokens g _ SO) parser 0 (no_vectors g parser)) as (W1 & W2 & W3 & W4); [done|done|by split|].
  change (token_loop g symbol_value parser defred parser 0 (no_vectors g parser)) with (token_actions g symbol_value parser defred (no_vectors g parser)) in *.
  unfold all_vectors. revert W1 W2 W3 W4. cbv zeta. generalize (token_actions g symbol_value parser defred (no_vectors g parser)). intros vs1 W1 W2 W3 W4.
  assert (He : forall u, (2 * n <= u)%nat -> vector_of vs1 u []) by (intros u Hu; eapply same_vector_of; [apply W2; lia|done]).
  pose proof (goto_actions_spec g OK s G NB symbol_value SO parser vs1) as H. destruct (goto_actions g symbol_value parser G vs1) as [dg vs2].
  destruct H as (X1 & X2 & X3 & X4 & X5); [intros B _; apply He; unfold Vectors.place_of; lia|]. cbn [fst snd].
  assert (Hp : forall u, (u < 2 * n \/ u = 2 * n + Z.to_nat (nvars g - 1))%nat -> same_vector vs1 vs2 u) by (intros u Hu; apply X3; intros B HB; unfold Vectors.place_of; lia).
  split; [exact X1|]. split; [|split; [exact X2|split; [|rewrite X4, X5, W3, W4; done]]].
  - intros i row Hi. destruct (W1 i row Hi) as [V1 V2]. apply lookup_lt_Some in Hi. unfold n_states in *.
    split; (eapply same_action_vector; [apply Hp; lia|done]).
  - eapply same_vector_of; [apply Hp; by right|]. apply He. lia.
Qed.

(** The vector is what the packing asks for. *)
Definition vector_fits (v : nat) : Prop := vector_ok vs v /\ shorts_ok vs v.

Lemma action_vector_fits v less l : 0 <= less <= 2 -> (forall a, a ∈ l -> 0 <= symbol a < ntokens g /\ 0 < number a <= 32767) ->
  action_vector symbol_value vs v less l -> vector_fits v.
Proof.
  intros Hless Hl (cells & Hp & _ & V).
  assert (Hc : forall e, e ∈ cells -> 0 <= e.1 < ntokens g /\ 0 < e.2 <= 32767) by (intros e He; rewrite Hp in He; apply list_elem_of_fmap in He as (a & -> & Ha); by apply Hl).
  split; [apply (vector_of_ok _ _ _ V)|apply (vector_of_shorts _ _ _ V)]; apply Forall_map, Forall_forall; intros e [H1 H2]%Hc; cbn [fst snd]; [by apply (so_token g _ SO)|lia].
Qed.

Lemma column_nodup B : start_symbol g < B < nsyms g -> NoDup (map fst (column_of B)).
Proof.
  intros HB. pose proof (go_start g OK) as Hs. unfold Vectors.column_of. rewrite map_map. cbn [fst]. rewrite <- (map_map fst Z.of_nat). apply (NoDup_fmap_2 Z.of_nat).
  pose proof (gotos_nodup g s G NB B ltac:(lia)) as Hn. induction (gotos_on G B) as [|x l IH]; [constructor|]. apply NoDup_cons in Hn as [Hx Hn]. rewrite filter_cons. case_decide; [|by apply IH].
  cbn [map]. constructor; [|by apply IH]. intros (y & E & [_ Hy]%list_elem_of_filter)%list_elem_of_fmap. apply Hx, list_elem_of_fmap. by exists y.
Qed.

Lemma column_fits B v : start_symbol g < B < nsyms g -> vector_of vs v (column_of B) -> vector_fits v.
Proof.
  intros HB V. pose proof (go_start g OK) as Hs. pose proof (au_numbers _ _ AU) as Hm. unfold MAXSHORT in Hm.
  assert (Hc : forall e, e ∈ column_of B -> 0 <= e.1 <= 32767 /\ 0 <= e.2 <= 32767).
  { intros e ([p q] & -> & [_ H]%list_elem_of_filter)%list_elem_of_fmap. cbn [fst snd]. apply (gotos_in g OK s G NB) in H; [|lia]. apply (delta_range g OK s AU) in H as (H1 & H2 & _). lia. }
  split; [apply (vector_of_ok _ _ _ V)|apply (vector_of_shorts _ _ _ V)]; apply Forall_forall; intros e He%Hc; lia.
Qed.

Lemma row_fits i row : parser !! i = Some row -> row_ok g row.
Proof. exact (proj1 (Forall_lookup _ _) Hrows i row). Qed.

Lemma vectors_fit v : (v < nvectors vs)%nat -> vector_fits v.
Proof.
  destruct all_vectors_spec as (_ & H1 & H2 & H3 & _ & H4). intros Hv. rewrite H4 in Hv. pose proof (so_tokens g _ SO) as Ht.
  assert (Hrow : forall i, (i < n)%nat -> exists row, parser !! i = Some row) by (intros i Hi; by apply lookup_lt_is_Some_2).
  destruct (decide (v < n)%nat) as [L1|L1].
  { destruct (Hrow v L1) as [row Hr]. destruct (H1 v row Hr) as [V _]. refine (action_vector_fits v 0 _ _ _ V); [lia|]. apply left_shifts_range; by eapply row_fits. }
  destruct (decide (v < 2 * n)%nat) as [L2|L2].
  { destruct (Hrow (v - n)%nat ltac:(lia)) as [row Hr]. destruct (H1 _ row Hr) as [_ V]. replace (n + (v - n))%nat with v in V by lia.
    refine (action_vector_fits v 2 _ _ _ V); [lia|]. apply left_reductions_range; by eapply row_fits. }
  pose proof (go_start g OK) as Hs. pose proof (go_nsyms g OK) as Hy. destruct (decide (v = 2 * n + Z.to_nat (nvars g - 1))%nat) as [->|L3].
  - split; [apply (vector_of_ok _ _ [] H3)|apply (vector_of_shorts _ _ [] H3)]; constructor.
  - set (B := Z.of_nat (v - 2 * n) + start_symbol g + 1). assert (HB : start_symbol g < B < nsyms g) by (unfold B; lia).
    apply (column_fits B v HB). replace v with (place_of B) at 1 by (unfold Vectors.place_of, B; lia). by apply H2.
Qed.

(** Which action of [l] counts: the one of the last token with the code [c]. *)
Definition last_action (l : list action) (c less x : Z) : Prop :=
  exists a, a ∈ l /\ symbol_value (symbol a) = c /\ number a - less = x /\ forall b, b ∈ l -> symbol_value (symbol b) = c -> symbol b <= symbol a.

Lemma action_vector_row v less l c x : action_vector symbol_value vs v less l ->
  (if 0 <? tally vs v then entry_of vs v c else None) = Some x <-> last_action l c less x.
Proof.
  intros (cells & Hp & Hs & V). rewrite (vector_of_assoc _ _ _ V), !map_map. cbn [fst snd]. rewrite assoc_ordered by done. unfold last_action.
  split.
  - intros (e & He & Hk & Hf & Hmax). rewrite Hp in He. apply list_elem_of_fmap in He as (a & -> & Ha). exists a. split; [done|]. split; [done|]. split; [done|].
    intros b Hb Hkb. apply (Hmax (symbol b, number b)); [|done]. rewrite Hp. apply list_elem_of_fmap. by exists b.
  - intros (a & Ha & Hk & Hf & Hmax). exists (symbol a, number a). split; [rewrite Hp; apply list_elem_of_fmap; by exists a|]. split; [done|]. split; [done|].
    intros e' He'. rewrite Hp in He'. apply list_elem_of_fmap in He' as (b & -> & Hb). by apply Hmax.
Qed.

Lemma output_actions_spec fuel : (pack_fuel <= fuel)%nat ->
  match output_actions g symbol_value parser defred G fuel with
  | Done ps => forall T, printed vs ps T -> reads_as (dgoto T) (yydgoto g symbol_value parser defred G) ->
      (forall i row c x, parser !! i = Some row -> 0 <= c ->
        (shift_of T (Z.of_nat i) c = Some x <-> last_action (left_shifts row) c 0 x) /\
        (reduce_of T (Z.of_nat i) c = Some x <-> last_action (left_reductions (defred !!! i) row) c 2 x)) /\
      (forall A p q, start_symbol g < A -> delta s p A q -> goto_of T (symbol_value A) (Z.of_nat p) = Z.of_nat q)
  | Fatal_error msg => msg = "maximum table size exceeded"%string
  | Unfinished => False
  end.
Proof.
  intros Hf. destruct all_vectors_spec as (Hdg & Hrow & Hcol & _ & En & Ev). unfold output_actions. cbv zeta.
  pose proof (pack_table_found vs fuel (fun v Hv _ => proj1 (vectors_fit v Hv)) (fun v Hv => proj2 (vectors_fit v Hv)) ltac:(lia) Hf) as H.
  destruct (pack_table vs fuel (sort_actions vs)) as [ps|msg|]; [|done|done].
  intros T PR HD. destruct (H T PR) as [Hs Hg]. clear H. rewrite En, Ev in *. split.
  - intros i row c x Hi Hc. destruct (Hrow i row Hi) as [V1 V2]. pose proof (lookup_lt_Some _ _ _ Hi) as Hl. destruct (Hs i c Hl Hc) as [-> ->].
    split; by apply action_vector_row.
  - intros A p q HA Hd. pose proof (delta_range g OK s AU p A q Hd) as (Hp & Hq & HA'). pose proof (go_start g OK) as Hst. pose proof (go_nsyms g OK) as Hsy.
    rewrite (so_var g _ SO A) by lia. replace (A - start_symbol g - 1) with (Z.of_nat (Z.to_nat (A - start_symbol g - 1))) at 1 by lia.
    rewrite Hg by lia. specialize (Hcol A ltac:(lia)). pose proof (column_nodup A ltac:(lia)) as Hn.
    pose proof (vector_of_assoc _ _ _ Hcol (Z.of_nat p)) as Ea. change (place_of A) with (2 * n + Z.to_nat (A - start_symbol g - 1))%nat in Ea.
    pose proof (fun x => assoc_pairs _ (Z.of_nat p) x Hn) as Hrw. rewrite <- Ea in Hrw. clear Ea.
    assert (Hin : (p, q) ∈ gotos_on G A) by (apply (gotos_in g OK s G NB); [lia|done]).
    destruct (decide (q = default_goto parser G A)) as [E|E].
    + destruct (if 0 <? _ then _ else None) as [x|].
      * specialize (proj1 (Hrw x) eq_refl). intros ([p' q'] & [= Ep ->] & [_ Hx]%list_elem_of_filter)%list_elem_of_fmap. apply (gotos_in g OK s G NB) in Hx; [|lia].
        apply Nat2Z.inj in Ep as <-. f_equal. by apply (delta_det g OK s AU p A).
      * rewrite (reads_array _ _ HD), Hdg. apply Short_shorts_of.
        -- rewrite list_lookup_fmap, lookup_seqZ_lt by lia. cbn [fmap option_fmap option_map]. replace (start_symbol g + 1 + _) with A by lia. by rewrite E.
        -- pose proof (au_numbers _ _ AU) as Hm. unfold MAXSHORT in Hm. lia.
    + destruct (Hrw (Z.of_nat q)) as [_ Hrq]. rewrite Hrq; [done|]. apply list_elem_of_fmap. exists (p, q). split; [done|]. by apply list_elem_of_filter.
Qed.
End Tables.

(** ** The arrays without packing *)

Lemma lhs_loop_lookup g symbol_value n : forall i k, (k < n)%nat -> lhs_loop g symbol_value n i !! k = Some (symbol_value (at_ (rlhs g) (i + Z.of_nat k))).
Proof. induction n as [|n IH]; intros i [|k] Hk; [lia|lia|by rewrite Z.add_0_r|]. cbn [lhs_loop lookup list_lookup]. change (lhs_loop g symbol_value n (i + 1) !! k = Some (symbol_value (at_ (rlhs g) (i + Z.of_nat (S k))))). rewrite IH by lia. do 3 f_equal. lia. Qed.
Lemma len_loop_lookup g n : forall i k, (k < n)%nat -> len_loop g n i !! k = Some (at_ (rrhs g) (i + Z.of_nat k + 1) - at_ (rrhs g) (i + Z.of_nat k) - 1).
Proof. induction n as [|n IH]; intros i [|k] Hk; [lia|lia|by rewrite Z.add_0_r|]. change (len_loop g n (i + 1) !! k = Some (at_ (rrhs g) (i + Z.of_nat (S k) + 1) - at_ (rrhs g) (i + Z.of_nat (S k)) - 1)). rewrite IH by lia. replace (i + 1 + Z.of_nat k) with (i + Z.of_nat (S k)) by lia. done. Qed.

(** The engine finds the rule [r] at [r - 2]. *)
Lemma rule_data_found g symbol_value T r : reads_as (lhs T) (yylhs g symbol_value) -> reads_as (len T) (yylen g) -> 3 <= r < nrules g ->
  (-32768 <= symbol_value (at_ (rlhs g) r) < 32768 -> Short (lhs T) (r - 2) = symbol_value (at_ (rlhs g) r)) /\
  (-32768 <= at_ (rrhs g) (r + 1) - at_ (rrhs g) r - 1 < 32768 -> Short (len T) (r - 2) = at_ (rrhs g) (r + 1) - at_ (rrhs g) r - 1).
Proof.
  intros Hl Hn Hr. replace (r - 2) with (Z.of_nat (S (Z.to_nat (r - 3)))) by lia. split; intros Hx.
  - rewrite (reads_array _ _ Hl). apply Short_shorts_of; [|done]. unfold rule_lhs. change (lhs_loop g symbol_value (Z.to_nat (nrules g - 3)) 3 !! Z.to_nat (r - 3) = Some (symbol_value (at_ (rlhs g) r))).
    rewrite lhs_loop_lookup by lia. do 3 f_equal. lia.
  - rewrite (reads_array _ _ Hn). apply Short_shorts_of; [|done]. unfold rule_len. change (len_loop g (Z.to_nat (nrules g - 3)) 3 !! Z.to_nat (r - 3) = Some (at_ (rrhs g) (r + 1) - at_ (rrhs g) r - 1)).
    rewrite len_loop_lookup by lia. replace (3 + Z.of_nat (Z.to_nat (r - 3))) with r by lia. done.
Qed.

Lemma defred_found defred T i d : reads_as (Parsing.defred T) (yydefred defred) -> defred !! i = Some d -> -32766 <= d <= 32767 -> 
  Short (Parsing.defred T) (Z.of_nat i) = if d =? 0 then 0 else d - 2.
Proof.
  intros Hd Hi Hr. rewrite (reads_array _ _ Hd). apply Short_shorts_of; [|destruct (d =? 0); lia]. unfold defreds_printed. rewrite list_lookup_fmap, Hi. cbn. by destruct (d =? 0).
Qed.

(** ** From the automaton to the printed tables *)

Section Generator.
Context (g : grammar) (OK : grammar_ok g) (LO : laid_out g) (s : lr0) (AU : automaton g s) (G : gotos) (NB : numbering g s G).
Context (symbol_value : Z -> Z) (SO : symbols_ok g symbol_value) (symbol_prec symbol_assoc rprec rassoc : Z -> Z) (LA : Z) (m : mem).
(** [ritem] is an array of shorts. *)
Context (Hitems : forall x, -32767 <= at_ (ritem g) x).
Abbreviation acc := (Lalr.accessing_symbol s).
Abbreviation first_la := (fun i : nat => lookaheads s !!! i).
Abbreviation la_rule := (fun k : nat => LAruleno s !!! k).
Abbreviation actions_of := (parse_actions g symbol_prec symbol_assoc rprec rassoc acc (shift_table s) first_la la_rule LA m).

Lemma reduction_range p r : (p < nstates s)%nat -> r ∈ reduction_table s p -> 0 < r <= 32767.
Proof.
  intros Hp Hr. destruct (state_items g s AU p Hp) as (b & I & _ & _ & _ & E). rewrite E in Hr. unfold redset in Hr.
  apply list_elem_of_fmap in Hr as (x & -> & [Hx _]%list_elem_of_filter). specialize (Hitems x). lia.
Qed.

(** The reductions of a state, by their numbers. *)
Lemma rule_of_number p k : (p < nstates s)%nat -> (first_la p <= k < first_la (S p))%nat ->
  exists r, reduction_table s p !! (k - first_la p)%nat = Some r /\ la_rule k = r.
Proof.
  intros Hp Hk. cbv beta in *. rewrite (lookaheads_next s p Hp) in Hk.
  destruct (lookup_lt_is_Some_2 (reduction_table s p) (k - first_la p)%nat ltac:(lia)) as [r Hr]. exists r. split; [done|].
  apply list_lookup_total_correct. rewrite <- Hr, <- LAruleno_at by lia. f_equal. lia.
Qed.

Lemma generator_tables : Mkpar.tables_of g acc (shift_table s) first_la la_rule (nstates s).
Proof.
  split.
  - intros p Hp. split.
    + pose proof (so_tokens g _ SO). lia.
    + pose proof (shift_sorted g OK s AU p Hp) as Hs. revert Hs. generalize (shift_table s p). intros l.
      induction l as [|k l IH]; cbn [map]; intros Hs; [constructor|]. apply StronglySorted_inv in Hs as [Hs Hk]. constructor; [by apply IH|].
      rewrite Forall_forall in Hk. apply Forall_forall. intros x Hx. apply Hk, list_elem_of_fmap. by exists x.
    + intros k k' Hk Hk' E. destruct (rule_of_number p k Hp Hk) as (r & Hr & <-), (rule_of_number p k' Hp Hk') as (r' & Hr' & <-). rewrite E in Hr.
      pose proof (NoDup_lookup _ _ _ _ (reductions_nodup g LO s AU p Hp) Hr Hr'). lia.
  - intros p k _ Hk. assert (Hd : delta s p (acc k) k) by done. apply (delta_range g OK s AU) in Hd. lia.
  - intros p k Hp Hk. destruct (rule_of_number p k Hp Hk) as (r & Hr & ->). apply list_elem_of_lookup_2, (reduction_range p) in Hr; [lia|done].
Qed.

(** The first state is no target. *)
Lemma acc_first : acc 0 = 0.
Proof.
  pose proof (au_start _ _ AU) as H. apply bodies_lookup in H as (c & Hc & Ec). unfold Lalr.accessing_symbol.
  rewrite list_lookup_fmap, Hc. cbn. unfold body in Ec. by injection Ec.
Qed.

Lemma parse_action_range p a : (p < nstates s)%nat -> a ∈ actions_of p -> 0 <= symbol a < ntokens g /\ 0 < number a <= 32767.
Proof.
  intros Hp Ha. apply parse_actions_row in Ha; [|by apply (Mkpar.to_state _ _ _ _ _ _ generator_tables)].
  destruct Ha as [(k & Hk & Htok & ->)|(k & x & Hk & Hx & _ & ->)]; cbn [symbol number shift_action reduce_action].
  - assert (Hd : delta s p (acc k) k) by done. apply (delta_range g OK s AU) in Hd as (_ & Hkn & Hacc). unfold ISTOKEN in Htok.
    pose proof (au_numbers _ _ AU) as Hm. unfold MAXSHORT in Hm. pose proof (go_start g OK).
    destruct (decide (k = 0%nat)) as [->|Hk0]; [rewrite acc_first in Hacc; lia|]. split; [|lia].
    apply Z.ltb_lt in Htok. lia.
  - split; [done|]. destruct (rule_of_number p k Hp Hk) as (r & Hr & ->). apply list_elem_of_lookup_2 in Hr. by apply (reduction_range p).
Qed.

Lemma marked_in row row' a : Forall2 marked row row' -> a ∈ row' -> exists b, b ∈ row /\ symbol a = symbol b /\ number a = number b.
Proof.
  intros HF [i Hi]%list_elem_of_lookup. destruct (Forall2_lookup_r _ _ _ _ _ HF Hi) as (b & Hb & Hm). exists b. split; [by eapply list_elem_of_lookup_2|].
  unfold marked in Hm. by rewrite Hm.
Qed.

(** The rows of [make_parser] are what the vectors ask for. *)
Lemma generator_rows final :
  Forall (row_ok g) (imap (fun i row => resolved (i =? final)%nat row) (map actions_of (seq 0 (nstates s)))).
Proof.
  apply Forall_lookup. intros i row Hi. rewrite list_lookup_imap, list_lookup_fmap in Hi.
  destruct (seq 0 (nstates s) !! i) as [k|] eqn:Ek; [|done]. apply lookup_seq in Ek as [-> Hk]. cbn in Hi. injection Hi as <-.
  pose proof (resolved_resolved (i =? final)%nat (actions_of i)) as HR. destruct HR as [Hm Hu _].
  { apply parse_actions_row. by apply (Mkpar.to_state _ _ _ _ _ _ generator_tables). }
  split; [done|]. intros a [Ha _]. destruct (marked_in _ _ a Hm Ha) as (b & Hb & -> & ->). by apply (parse_action_range i).
Qed.

(** The default reduction of a row is a rule, or zero. *)
Lemma default_range row : Forall coded row -> Forall (fun a => action_code a = REDUCE -> 0 < number a) row -> row_ok g row ->
  0 <= sole_reduction row <= 32767.
Proof.
  intros Hc Hn Hr. pose proof (sole_reduction_nonneg row Hc Hn). split; [done|]. destruct (decide (sole_reduction row = 0)) as [E|E]; [lia|].
  destruct (proj1 (sole_reduction_default row (sole_reduction row) ltac:(lia) Hc Hn) eq_refl) as [Ha (a & Hl & _)].
  destruct (Ha a Hl) as [_ <-]. by apply (rk_left _ _ Hr).
Qed.

Abbreviation made := (make_parser g symbol_prec symbol_assoc rprec rassoc acc (shift_table s) first_la la_rule LA m (nstates s)).
Abbreviation final := (find_final_state g acc (shift_table s)).

(** The tables the generator prints, as the OCaml compiler reads them. *)
Record all_printed (ps : packing) (T : parser_tables) : Prop := {
  ap_packed : printed (all_vectors g symbol_value made.1.1 made.1.2 G).2 ps T;
  ap_dgoto : reads_as (dgoto T) (yydgoto g symbol_value made.1.1 made.1.2 G);
  ap_defred : reads_as (Parsing.defred T) (yydefred made.1.2);
  ap_lhs : reads_as (lhs T) (yylhs g symbol_value);
  ap_len : reads_as (len T) (yylen g)
}.

(** What the engine finds in the state [i]: the default reduction, the shifts, and the
    other reductions, of the actions of the state with the conflicts resolved. *)
Definition state_found (T : parser_tables) (i : nat) : Prop :=
  let row := resolved (i =? final)%nat (actions_of i) in
  let d := sole_reduction row in
  Short (Parsing.defred T) (Z.of_nat i) = (if d =? 0 then 0 else d - 2) /\
  (forall r, 0 < r -> d = r <-> is_default row r) /\
  (forall c x, 0 <= c ->
     (shift_of T (Z.of_nat i) c = Some x <-> last_action symbol_value (left_shifts row) c 0 x) /\
     (reduce_of T (Z.of_nat i) c = Some x <-> last_action symbol_value (left_reductions d row) c 2 x)).

Lemma output_tables_spec fuel : (pack_fuel <= fuel)%nat ->
  match output_actions g symbol_value made.1.1 made.1.2 G fuel with
  | Done ps => forall T, all_printed ps T ->
      (forall i, (i < nstates s)%nat -> state_found T i) /\
      (forall A p q, start_symbol g < A -> delta s p A q -> goto_of T (symbol_value A) (Z.of_nat p) = Z.of_nat q) /\
      (forall r, 3 <= r < nrules g ->
         (-32768 <= symbol_value (at_ (rlhs g) r) < 32768 -> Short (lhs T) (r - 2) = symbol_value (at_ (rlhs g) r)) /\
         (-32768 <= at_ (rrhs g) (r + 1) - at_ (rrhs g) r - 1 < 32768 -> Short (len T) (r - 2) = at_ (rrhs g) (r + 1) - at_ (rrhs g) r - 1))
  | Fatal_error msg => msg = "maximum table size exceeded"%string
  | Unfinished => False
  end.
Proof.
  intros Hf. pose proof (make_parser_rows g symbol_prec symbol_assoc rprec rassoc _ _ _ _ LA m _ generator_tables) as Emk. cbn zeta in Emk.
  pose proof (generator_rows final) as Hrows. set (rows := imap _ _) in *.
  assert (E1 : made.1.1 = rows) by (by rewrite Emk). assert (E2 : made.1.2 = map sole_reduction rows) by (by rewrite Emk).
  assert (Hat : forall i, (i < nstates s)%nat -> rows !! i = Some (resolved (i =? final)%nat (actions_of i))).
  { intros i Hi. unfold rows. by rewrite list_lookup_imap, list_lookup_fmap, lookup_seq_lt by done. }
  assert (Hn : n_states rows = nstates s) by (unfold n_states, rows; by rewrite length_imap, length_map, length_seq).
  pose proof (output_actions_spec g OK s AU G NB symbol_value SO rows (map sole_reduction rows) Hn Hrows fuel Hf) as H. rewrite E1, E2.
  destruct (output_actions g symbol_value rows _ G fuel) as [ps|msg|]; [|done|done].
  intros T [P1 P2 P3 P4 P5]. rewrite E1, E2 in P1, P2. rewrite E2 in P3. destruct (H T P1 P2) as [Hact Hgo]. split; [|split; [done|]].
  - intros i Hi. specialize (Hat i Hi). unfold state_found. cbv zeta. set (row := resolved _ _) in *.
    destruct (resolved_plain g symbol_prec symbol_assoc rprec rassoc _ _ _ _ LA m _ i (i =? final)%nat generator_tables Hi) as [Hc Hpos]. fold row in Hc, Hpos.
    assert (Hok : row_ok g row) by (apply (proj1 (Forall_lookup _ _) Hrows i); done).
    assert (Hd : map sole_reduction rows !! i = Some (sole_reduction row)) by (by rewrite list_lookup_fmap, Hat).
    split; [|split].
    + apply (defred_found _ _ _ _ P3 Hd). pose proof (default_range row Hc Hpos Hok). lia.
    + intros r Hr. by apply sole_reduction_default.
    + intros c x Hx. pose proof (Hact i row c x Hat Hx) as Ha. by rewrite (list_lookup_total_correct _ _ _ Hd) in Ha.
  - intros r Hr. by apply rule_data_found.
Qed.

(** C22: The vectors that [output_actions] makes of the rows [make_parser] left and of the
    gotos, packed, printed, read back by the OCaml compiler and looked up by the engine,
    are the automaton with its conflicts resolved: in each state the engine finds as
    default reduction the sole reduction of the state, by a token exactly the shift left
    on the token, and the reduction left on it if it is not the default one (of two
    tokens with one value, the last); it finds the goto of every transition by a
    nonterminal, also those left to the default column, and the left side and length of every
    rule (those that are shorts). The packing ends, perhaps with the error that the table
    would be too large. *)
Theorem output_tables_correct fuel : (pack_fuel <= fuel)%nat ->
  match output_actions g symbol_value made.1.1 made.1.2 G fuel with
  | Done ps => forall T, all_printed ps T ->
      (forall i, (i < nstates s)%nat -> state_found T i) /\
      (forall A p q, start_symbol g < A -> delta s p A q -> goto_of T (symbol_value A) (Z.of_nat p) = Z.of_nat q) /\
      (forall r, 3 <= r < nrules g ->
         (-32768 <= symbol_value (at_ (rlhs g) r) < 32768 -> Short (lhs T) (r - 2) = symbol_value (at_ (rlhs g) r)) /\
         (-32768 <= at_ (rrhs g) (r + 1) - at_ (rrhs g) r - 1 < 32768 -> Short (len T) (r - 2) = at_ (rrhs g) (r + 1) - at_ (rrhs g) r - 1))
  | Fatal_error msg => msg = "maximum table size exceeded"%string
  | Unfinished => False
  end.
Proof. apply output_tables_spec. Qed.
End Generator.

(** ** Witness *)

(** The tables made of the strings printed. *)
Definition tables_made (g : grammar) (symbol_value : Z -> Z) (made : list (list action) * list Z) (G : gotos) (ps : packing) (consts blocks : list Z) : parser_tables :=
  let av := all_vectors g symbol_value made.1 made.2 G in
  Output.tables_of av.2 ps (MkTables consts blocks (shorts_of (rule_lhs g symbol_value)) (shorts_of (rule_len g)) (shorts_of (defreds_printed made.2)) (shorts_of av.1) [] [] [] 0 [] []).

Definition none (x : Z) : Z := 0.
(** The sums, with the codes of their tokens. *)
Definition sums_value (X : Z) : Z := default 0 ([0; 256; 1; 257; 258; -1; 0; 1; 2] !! Z.to_nat X).
(** Their lookahead sets, as [lalr] computes them. *)
Definition sums_lookaheads : mem := {[100 := 9; 101 := 1; 102 := 9; 103 := 9]}.
Abbreviation sums_made s LA m := (make_parser sums none none none none (Lalr.accessing_symbol s) (shift_table s)
  (fun i : nat => lookaheads s !!! i) (fun k : nat => LAruleno s !!! k) LA m (nstates s)).

Lemma tables_made_printed g s G symbol_value symbol_prec symbol_assoc rprec rassoc LA m ps consts blocks :
  all_printed g s G symbol_value symbol_prec symbol_assoc rprec rassoc LA m ps
    (tables_made g symbol_value (make_parser g symbol_prec symbol_assoc rprec rassoc (Lalr.accessing_symbol s) (shift_table s)
      (fun i : nat => lookaheads s !!! i) (fun k : nat => LAruleno s !!! k) LA m (nstates s)).1 G ps consts blocks).
Proof. constructor; [apply tables_of_printed|apply reads_shorts..]. Qed.

Lemma sums_symbols : symbols_ok sums sums_value.
Proof.
  assert (H5 : forall t, 0 <= t < 5 -> t = 0 \/ t = 1 \/ t = 2 \/ t = 3 \/ t = 4) by lia. assert (H4 : forall A, 5 < A < 9 -> A = 6 \/ A = 7 \/ A = 8) by lia. constructor.
  - cbn; lia.
  - cbn; lia.
  - intros t Ht. destruct (H5 t Ht) as [->|[->|[->|[->| ->]]]]; vm_compute; (split; discriminate).
  - intros t t' Ht Ht'. destruct (H5 t ltac:(cbn in Ht; lia)) as [->|[->|[->|[->| ->]]]], (H5 t' ltac:(cbn in Ht'; lia)) as [->|[->|[->|[->| ->]]]]; vm_compute; congruence.
  - intros A HA. destruct (H4 A HA) as [->|[->| ->]]; reflexivity.
  - reflexivity.
Qed.

Lemma sums_items x : -32767 <= at_ (ritem sums) x.
Proof. unfold at_. cbn [ritem sums]. generalize (Z.to_nat x). intros k. do 15 (destruct k as [|k]; [discriminate|]). cbn. destruct k; discriminate. Qed.

Lemma output_tables_correct_witness : exists s G ps, generate_states sums (S MAXSHORT) 0 10 20 ∅ = Done s /\ set_goto_map sums s = Ok G /\
  output_actions sums sums_value (sums_made s 100 sums_lookaheads).1.1 (sums_made s 100 sums_lookaheads).1.2 G pack_fuel = Done ps /\
  let T := tables_made sums sums_value (sums_made s 100 sums_lookaheads).1 G ps [257; 0] [258] in
  goto_of T 1 1 = 4 /\ Short (len T) 2 = 3 /\ Short (Parsing.defred T) 5 = 3.
Proof.
  pose proof (generate_states_spec sums (S MAXSHORT) 0 10 20 ∅ sums_ok (Nat.lt_succ_diag_r _)) as AU. cbv zeta in AU.
  specialize (AU ltac:(left; vm_compute; discriminate) ltac:(right; vm_compute; discriminate)).
  destruct (generate_states sums (S MAXSHORT) 0 10 20 ∅) as [s|msg|] eqn:Es; [|vm_compute in Es; discriminate Es|destruct AU].
  vm_compute in Es. injection Es as Es. pose proof (set_goto_map_spec sums sums_ok s AU) as NB.
  destruct (set_goto_map sums s) as [G|msg| | |] eqn:EG; [|subst s; vm_compute in EG; discriminate EG|destruct NB..].
  pose proof (output_tables_correct sums sums_ok sums_laid_out s AU G NB sums_value sums_symbols none none none none 100 sums_lookaheads sums_items pack_fuel (le_n _)) as H.
  destruct (output_actions sums sums_value (sums_made s 100 sums_lookaheads).1.1 (sums_made s 100 sums_lookaheads).1.2 G pack_fuel) as [ps|msg|] eqn:Eo.
  2: { subst s. vm_compute in EG. injection EG as EG. subst G. vm_compute in Eo. discriminate Eo. }
  2: destruct H.
  destruct (H _ (tables_made_printed sums s G sums_value none none none none 100 sums_lookaheads ps [257; 0] [258])) as (Hs & Hg & Hr).
  exists s, G, ps. split; [reflexivity|]. split; [done|]. split; [done|]. cbv zeta. split; [|split].
  - apply (Hg 7 1%nat 4%nat); [reflexivity|]. subst s. split; vm_compute; [by right; left|reflexivity].
  - refine (proj2 (Hr 4 _) _); vm_compute; (split; [discriminate|reflexivity]).
  - destruct (Hs 5%nat ltac:(subst s; vm_compute; lia)) as (Hd & _). refine (eq_trans Hd _). subst s. vm_compute. reflexivity.
Defined.
