(* ===== verification/Generated.v ===== *)
(** * Parsers made by the generator

    The tables [ocamlyacc] prints for a grammar agree with the items of its LR(0)
    automaton, so that the parser engine, with these tables, returns values of
    derivations of the tokens read. *)

From stdpp Require Import functions sorting strings.
From S2P Require Import Prelude Mlvalues Warshall Closure Lr0 Lexing Parsing ParseSound LalrSets Mkpar Pack Output Digraph Lalr Vectors.

(** The rules [reader.c] adds for the entry points: [$accept: %entry% $end], and for each
    entry point [%entry%: T A], where [T] is its token; the rules lie one after the other. *)
Record entries_ok (g : grammar) : Prop := {
  en_start r : r ∈ rules g (start_symbol g) <-> r = 2;
  en_first : at_ (ritem g) (at_ (rrhs g) 2) = start_symbol g + 1 /\ at_ (ritem g) (at_ (rrhs g) 2 + 1) = 0;
  en_lhs r : 3 <= r < nrules g -> at_ (rlhs g) r < nsyms g;
  en_before : at_ (ritem g) (at_ (rrhs g) 2 - 1) < 0;
  en_only x : at_ (ritem g) x = start_symbol g + 1 -> x = at_ (rrhs g) 2;
  en_rule r : r ∈ rules g (start_symbol g + 1) -> exists t A, rhs g r = [t; A] /\ 0 < t < ntokens g /\ start_symbol g + 1 < A;
  en_token r r' : r ∈ rules g (start_symbol g + 1) -> r' ∈ rules g (start_symbol g + 1) -> rhs g r !! 0%nat = rhs g r' !! 0%nat -> r = r';
  en_next r : 3 <= r < nrules g -> at_ (rrhs g) (r + 1) = at_ (rrhs g) r + Z.of_nat (length (rhs g r)) + 1
}.

(** ** The items of the states *)

Section Items.
Context (g : grammar) (OK : grammar_ok g) (LO : laid_out g) (EN : entries_ok g) (s : lr0) (AU : automaton g s).
Abbreviation acc := (Lalr.accessing_symbol s).
Abbreviation has_item := (has_item g s).
Abbreviation position r k := (at_ (rrhs g) r + Z.of_nat k).

Lemma rhs_drop r : 3 <= r < nrules g -> exists l, drop (Z.to_nat (at_ (rrhs g) r)) (ritem g) = rhs g r ++ - r :: l.
Proof. intros Hr. by destruct (lo_items g LO r Hr) as [_ H]. Qed.

Lemma at_drop l x k : 0 <= x -> at_ l (x + Z.of_nat k) = nth k (drop (Z.to_nat x) l) 0.
Proof. intros Hx. unfold at_. change (@drop) with (@skipn). rewrite nth_skipn. f_equal. lia. Qed.

Lemma rrhs_pos r : 2 <= r < nrules g -> 1 <= at_ (rrhs g) r.
Proof. apply (lo_rrhs g LO). Qed.

(** What [ritem] holds in a rule, and at its end. *)
Lemma rhs_at r k : 3 <= r < nrules g -> (k < length (rhs g r))%nat -> rhs g r !! k = Some (at_ (ritem g) (position r k)) /\ 0 < at_ (ritem g) (position r k).
Proof.
  intros Hr Hk. destruct (rhs_drop r Hr) as [l E]. pose proof (rrhs_pos r ltac:(lia)). rewrite at_drop by lia. rewrite E, app_nth1 by done.
  destruct (lookup_lt_is_Some_2 _ _ Hk) as [X HX]. rewrite (nth_lookup_Some _ _ _ _ HX). split; [done|].
  exact (proj1 (Forall_lookup _ _) (lo_positive g LO r Hr) k X HX).
Qed.
Lemma rhs_end r : 3 <= r < nrules g -> at_ (ritem g) (position r (length (rhs g r))) = - r.
Proof.
  intros Hr. destruct (rhs_drop r Hr) as [l E]. pose proof (rrhs_pos r ltac:(lia)). rewrite at_drop by lia. rewrite E, app_nth2, Nat.sub_diag by lia. done.
Qed.

(** A place belongs to one rule. *)
Lemma place_le r k r' k' : 3 <= r < nrules g -> 3 <= r' < nrules g -> (k <= length (rhs g r))%nat -> (k' <= length (rhs g r'))%nat ->
  position r k = position r' k' -> (length (rhs g r) - k <= length (rhs g r') - k')%nat -> r = r'.
Proof.
  intros Hr Hr' Hk Hk' E Hle. pose proof (rhs_end r Hr) as He.
  replace (position r (length (rhs g r))) with (position r' (k' + (length (rhs g r) - k))) in He by lia.
  destruct (decide (k' + (length (rhs g r) - k) < length (rhs g r'))%nat) as [Hlt|Hge]; [destruct (rhs_at r' _ Hr' Hlt); lia|].
  replace (k' + (length (rhs g r) - k))%nat with (length (rhs g r')) in He by lia. rewrite rhs_end in He by done. lia.
Qed.
Lemma place_unique r k r' k' : 3 <= r < nrules g -> 3 <= r' < nrules g -> (k <= length (rhs g r))%nat -> (k' <= length (rhs g r'))%nat ->
  position r k = position r' k' -> r = r' /\ k = k'.
Proof.
  intros Hr Hr' Hk Hk' E. assert (r = r') as <-; [|split; [done|lia]].
  destruct (decide (length (rhs g r) - k <= length (rhs g r') - k')%nat); [by apply (place_le r k r' k')|].
  symmetry. apply (place_le r' k' r k); try done. lia.
Qed.

(** The places that are items: those of the first rule up to [$end], and those of the others. *)
Definition item_place (x : Z) : Prop :=
  x = at_ (rrhs g) 2 \/ x = at_ (rrhs g) 2 + 1 \/
  exists r k, 3 <= r < nrules g /\ (k <= length (rhs g r))%nat /\ x = position r k.

Lemma rule_place A r : ISVAR g A = true -> A <> start_symbol g -> r ∈ rules g A -> 3 <= r < nrules g.
Proof. intros HA Hne Hr. destruct (lo_rule g LO A r HA Hr) as [H1 H2]. specialize (H2 Hne). lia. Qed.

Lemma closure_place K x : Forall item_place K -> in_closure g K x -> item_place x.
Proof.
  intros HK. induction 1 as [x Hx|x r _ _ Hv Hr]; [exact (proj1 (Forall_forall _ _) HK x Hx)|].
  right; right. exists r, O. split; [|split; [lia|lia]]. apply (rule_place _ _ Hv); [apply (lo_unused g LO)|done].
Qed.

Lemma goto_place x : item_place x -> 0 < at_ (ritem g) x -> item_place (x + 1).
Proof.
  destruct (en_first g EN) as [E1 E2]. intros [->|[->|(r & k & Hr & Hk & ->)]] Hx; [right; by left|lia|].
  right; right. exists r, (S k). split; [done|]. split; [|lia].
  destruct (decide (k = length (rhs g r))) as [->|Hne]; [rewrite rhs_end in Hx by done; lia|lia].
Qed.

Lemma has_item_place p x : has_item p x -> item_place x.
Proof.
  intros (b & I & Hb & HI & Hx). assert (Hr : reachable g b) by (apply (au_reachable _ _ AU); by exists p).
  assert (HK : Forall item_place b.2).
  { clear Hb HI Hx. induction Hr as [|b b' _ IH (I' & X & HI' & [HX _] & ->)]; cbn [snd]; apply Forall_forall.
    - intros y (r & -> & Hr)%list_elem_of_fmap. left. by rewrite (proj1 (en_start g EN r) Hr).
    - intros y (z & -> & [Ez Hz]%list_elem_of_filter)%list_elem_of_fmap. apply goto_place; [|by rewrite Ez].
      apply (proj2 HI') in Hz. by apply (closure_place b.2). }
  apply (proj2 HI) in Hx. by apply (closure_place b.2).
Qed.

(** The nucleus of a state: that of the first one, or the items shifted. *)
Lemma nucleus_shifted p b x : bodies s !! p = Some b -> x ∈ b.2 ->
  (x = at_ (rrhs g) 2 /\ b.1 = 0) \/ 0 < at_ (ritem g) (x - 1).
Proof.
  intros Hb Hx. assert (Hr : reachable g b) by (apply (au_reachable _ _ AU); by exists p).
  destruct Hr as [|b b' _ (I & X & _ & [HX _] & ->)]; cbn [fst snd] in Hx |- *.
  - left. apply list_elem_of_fmap in Hx as (r & -> & Hr). by rewrite (proj1 (en_start g EN r) Hr).
  - right. apply list_elem_of_fmap in Hx as (z & -> & [Ez _]%list_elem_of_filter). replace (z + 1 - 1) with z by lia. by rewrite Ez.
Qed.

Lemma rrhs_order r : 3 <= r < nrules g -> at_ (rrhs g) 2 < at_ (rrhs g) r.
Proof. intros Hr. apply (go_order g OK); lia. Qed.

(** An item at the beginning of a rule comes from one that expects the left side. *)
Lemma item_origin p r : 3 <= r < nrules g -> has_item p (at_ (rrhs g) r) -> exists y, has_item p y /\ at_ (ritem g) y = at_ (rlhs g) r.
Proof.
  intros Hr (b & I & Hb & HI & Hx). destruct (lo_items g LO r Hr) as [Hneg _].
  assert (Hc := proj1 (proj2 HI _) Hx). inversion Hc as [x Hn|y r' Hy Hv Hr' E]; subst.
  - destruct (nucleus_shifted p b _ Hb Hn) as [[E _]|Hp]; [pose proof (rrhs_order r Hr); lia|lia].
  - assert (H3 : 3 <= r' < nrules g) by (apply (rule_place _ _ Hv); [apply (lo_unused g LO)|done]).
    destruct (place_unique r' O r O H3 Hr ltac:(lia) ltac:(lia) ltac:(lia)) as [-> _].
    exists y. split; [exists b, I; split; [done|split; [done|by apply (proj2 HI)]]|]. apply list_elem_of_filter in Hr' as [-> _]. done.
Qed.

(** An item further in a rule comes from the state before by the symbol. *)
Lemma item_back p X q r k : delta s p X q -> 3 <= r < nrules g -> (S k <= length (rhs g r))%nat -> has_item q (position r (S k)) ->
  rhs g r !! k = Some X /\ has_item p (position r k).
Proof.
  intros Hd Hr Hk (b & I & Hb & HI & Hx). pose proof (delta_range g OK s AU _ _ _ Hd) as (Hp & _ & HX). destruct (rhs_at r k Hr ltac:(lia)) as [Hat Hpos].
  destruct Hd as [Hq Hacc]. destruct (state_items g s AU p Hp) as (b0 & I0 & Hb0 & HI0 & (symbols & _ & _ & HF) & _).
  apply list_elem_of_lookup in Hq as [i Hi]. destruct (Forall2_lookup_r _ _ _ _ _ HF Hi) as (Y & _ & Htr).
  pose proof (transition_acc g s _ _ _ Htr) as EY. destruct Htr as [_ Hbq]. rewrite Hb in Hbq. injection Hbq as ->.
  assert (Hn : position r (S k) ∈ goto_items g I0 Y).
  { assert (Hc := proj1 (proj2 HI _) Hx). inversion Hc as [x Hn|y r' Hy Hv Hr' E]; subst; [done|].
    assert (H3 : 3 <= r' < nrules g) by (apply (rule_place _ _ Hv); [apply (lo_unused g LO)|done]).
    destruct (place_unique r' O r (S k) H3 Hr ltac:(lia) ltac:(lia) ltac:(lia)) as [_ ?]. lia. }
  apply list_elem_of_fmap in Hn as (z & Ez & [HzY Hz]%list_elem_of_filter). assert (z = position r k) as -> by lia.
  split; [by rewrite Hat, HzY; congruence|]. exists b0, I0. done.
Qed.

(** Only the first state has the items of the entry points. *)
Lemma item_entry p r : 3 <= r < nrules g -> at_ (rlhs g) r = start_symbol g + 1 -> has_item p (at_ (rrhs g) r) -> (p = 0%nat \/ 0 < acc p) -> p = 0%nat.
Proof.
  intros Hr El Hx Hp. destruct (item_origin p r Hr Hx) as (y & (b & I & Hb & HI & Hy) & Ey). rewrite El in Ey. apply (en_only g EN) in Ey as ->.
  destruct Hp as [?|Hp]; [done|]. exfalso.
  assert (Ha : acc p = b.1).
  { apply bodies_lookup in Hb as (c & Hc & Ec). unfold Lalr.accessing_symbol. rewrite list_lookup_fmap, Hc. cbn. unfold body in Ec. by subst b. }
  assert (Hc := proj1 (proj2 HI _) Hy). inversion Hc as [x Hn|y r' Hy' Hv Hr' E]; subst.
  - destruct (nucleus_shifted p b _ Hb Hn) as [[_ E]|Hpos]; [lia|].
    pose proof (en_before g EN). lia.
  - assert (H3 : 3 <= r' < nrules g) by (apply (rule_place _ _ Hv); [apply (lo_unused g LO)|done]). pose proof (rrhs_order r' H3). lia.
Qed.
End Items.

(** ** Derivations *)

(** The symbol, its value by the semantic actions (the engine numbers the rule [r] by
    [r - 2]), and the codes of the tokens with their values. *)
Inductive yields (g : grammar) (symbol_value : Z -> Z) {V : Type} (actions : Z -> list (attribute V) -> action_result V) : Z -> V -> list (Z * V) -> Prop :=
| yields_token t v : 0 < t < ntokens g -> yields g symbol_value actions t v [(symbol_value t, v)]
| yields_rule r args v w : 3 <= r < nrules g -> r ∉ rules g (start_symbol g + 1) -> yields_list g symbol_value actions (rhs g r) args w ->
    actions (r - 2) args = Value v -> yields g symbol_value actions (at_ (rlhs g) r) v w
with yields_list (g : grammar) (symbol_value : Z -> Z) {V : Type} (actions : Z -> list (attribute V) -> action_result V) : list Z -> list (attribute V) -> list (Z * V) -> Prop :=
| yields_nil : yields_list g symbol_value actions [] [] []
| yields_cons X a w Xs args w' : yields g symbol_value actions X (fst (fst a)) w -> yields_list g symbol_value actions Xs args w' ->
    yields_list g symbol_value actions (X :: Xs) (a :: args) (w ++ w').

Scheme derives_min := Minimality for derives Sort Prop
  with derives_list_min := Minimality for derives_list Sort Prop.
Combined Scheme derives_both from derives_min, derives_list_min.

(** ** The tables printed *)

Section Printed.
Context (g : grammar) (OK : grammar_ok g) (LO : laid_out g) (EN : entries_ok g) (s : lr0) (AU : automaton g s) (G : gotos) (NB : numbering g s G).
Context (symbol_value : Z -> Z) (SO : symbols_ok g symbol_value) (symbol_prec symbol_assoc rprec rassoc : Z -> Z) (LA : Z) (m : mem).
Context (Hitems : forall x, -32767 <= at_ (ritem g) x).
Abbreviation acc := (Lalr.accessing_symbol s).
Abbreviation has_item := (has_item g s).
Abbreviation position r k := (at_ (rrhs g) r + Z.of_nat k).
Abbreviation first_la := (fun i : nat => lookaheads s !!! i).
Abbreviation la_rule := (fun k : nat => LAruleno s !!! k).
Abbreviation actions_of := (parse_actions g symbol_prec symbol_assoc rprec rassoc acc (shift_table s) first_la la_rule LA m).
Abbreviation final := (find_final_state g acc (shift_table s)).
Abbreviation row_of p := (resolved (p =? final)%nat (actions_of p)).

Lemma row_marked p a : a ∈ row_of p -> exists b, b ∈ actions_of p /\ symbol a = symbol b /\ number a = number b /\ action_code a = action_code b.
Proof.
  intros [i Hi]%list_elem_of_lookup. destruct (Forall2_lookup_r _ _ _ _ _ (resolved_marked (p =? final)%nat (actions_of p)) Hi) as (b & Hb & Hm).
  exists b. split; [by eapply list_elem_of_lookup_2|]. unfold marked in Hm. by rewrite Hm.
Qed.

Lemma rows_tables : Mkpar.tables_of g acc (shift_table s) first_la la_rule (nstates s).
Proof. by eapply generator_tables. Qed.

(** A shift left in a row is a transition. *)
Lemma shift_delta p a : (p < nstates s)%nat -> a ∈ row_of p -> action_code a = SHIFT ->
  ISTOKEN g (symbol a) = true /\ exists q, number a = Z.of_nat q /\ delta s p (symbol a) q.
Proof.
  intros Hp Ha Hc. destruct (row_marked p a Ha) as (b & Hb & -> & -> & Ec). rewrite Hc in Ec.
  apply parse_actions_row in Hb; [|by apply (Mkpar.to_state _ _ _ _ _ _ rows_tables)].
  destruct Hb as [(k & Hk & Ht & ->)|(k & x & _ & _ & _ & ->)]; [|discriminate Ec]. split; [done|]. by exists k.
Qed.

(** A reduction left in a row is one of the state. *)
Lemma reduce_rule p a : (p < nstates s)%nat -> a ∈ row_of p -> action_code a = REDUCE -> number a ∈ reduction_table s p.
Proof.
  intros Hp Ha Hc. destruct (row_marked p a Ha) as (b & Hb & _ & -> & Ec). rewrite Hc in Ec.
  apply parse_actions_row in Hb; [|by apply (Mkpar.to_state _ _ _ _ _ _ rows_tables)].
  destruct Hb as [(k & _ & _ & ->)|(k & x & Hk & _ & _ & ->)]; [discriminate Ec|]. cbn [number reduce_action].
  destruct (rule_of_number s p k Hp Hk) as (r & Hr & ->). by eapply list_elem_of_lookup_2.
Qed.

(** A reduction of a state is by a rule at whose end an item is. *)
Lemma reduction_item p r : (p < nstates s)%nat -> r ∈ reduction_table s p -> 3 <= r < nrules g /\ has_item p (position r (length (rhs g r))).
Proof.
  intros Hp Hr. destruct (state_items g s AU p Hp) as (b & I & Hb & HI & _ & E). rewrite E in Hr. apply list_elem_of_fmap in Hr as (x & -> & [Hneg Hx]%list_elem_of_filter).
  assert (Hxi : has_item p x) by (by exists b, I). destruct (has_item_place g LO EN s AU p x Hxi) as [->|[->|(r & k & Hr & Hk & ->)]];
    [pose proof (en_first g EN) as [? _]; pose proof (lo_symbols g LO); lia|pose proof (en_first g EN) as [_ ?]; lia|].
  destruct (decide (k = length (rhs g r))) as [->|Hne]; [|destruct (rhs_at g LO r k Hr ltac:(lia)); lia].
  rewrite (rhs_end g LO r Hr), Z.opp_involutive. done.
Qed.

(** *** The first state *)

Lemma first_body b : bodies s !! 0%nat = Some b -> b = (0, start_items g).
Proof. rewrite (au_start _ _ AU). by intros [= <-]. Qed.

Lemma first_items x : has_item 0 x -> x = at_ (rrhs g) 2 \/ exists r, r ∈ rules g (start_symbol g + 1) /\ x = at_ (rrhs g) r.
Proof.
  intros (b & I & Hb%first_body & HI & Hx). subst b. apply (proj2 HI) in Hx. clear HI I. cbn [snd] in Hx. induction Hx as [x Hx|x r _ IH Hv Hr].
  - left. apply list_elem_of_fmap in Hx as (r & -> & Hr). by rewrite (proj1 (en_start g EN r) Hr).
  - right. exists r. split; [|done]. destruct IH as [->|(r' & Hr' & ->)]; [by rewrite <- (proj1 (en_first g EN))|]. exfalso.
    destruct (en_rule g EN r' Hr') as (t & A & E & Ht & _).
    assert (H3 : 3 <= r' < nrules g) by (apply (rule_place g LO (start_symbol g + 1)); [apply Z.leb_le; lia|lia|done]).
    destruct (rhs_at g LO r' 0 H3) as [Hat _]; [rewrite E; cbn; lia|]. rewrite E, Z.add_0_r in Hat. injection Hat as Hat.
    rewrite <- Hat in Hv. apply Z.leb_le in Hv. pose proof (go_start g OK). lia.
Qed.

Lemma entry_place r : r ∈ rules g (start_symbol g + 1) -> 3 <= r < nrules g.
Proof. apply (rule_place g LO); [apply Z.leb_le; lia|lia]. Qed.

Lemma first_item_start r k : 3 <= r < nrules g -> (k <= length (rhs g r))%nat -> has_item 0 (position r k) -> k = 0%nat /\ r ∈ rules g (start_symbol g + 1).
Proof.
  intros Hr Hk [E|(r' & Hr' & E)]%first_items; [pose proof (rrhs_order g OK r Hr); lia|].
  destruct (place_unique g LO r k r' 0 Hr (entry_place r' Hr') Hk ltac:(lia) ltac:(lia)) as [-> ->]. done.
Qed.

Lemma first_row_shifts a : a ∈ actions_of 0 -> action_code a = SHIFT.
Proof.
  intros Ha. pose proof (lookup_lt_Some _ _ _ (au_start _ _ AU)) as Hn. rewrite length_bodies in Hn.
  apply parse_actions_row in Ha; [|by apply (Mkpar.to_state _ _ _ _ _ _ rows_tables)].
  destruct Ha as [(k & _ & _ & ->)|(k & x & Hk & _ & _ & ->)]; [done|]. exfalso.
  destruct (rule_of_number s 0 k Hn Hk) as (r & Hr & _). apply list_elem_of_lookup_2, (reduction_item 0 r Hn) in Hr as [Hr Hx].
  destruct (first_item_start r _ Hr (le_n _) Hx) as [El Her]. destruct (en_rule g EN r Her) as (t & A & E & _). by rewrite E in El.
Qed.

Lemma first_row : row_of 0 = actions_of 0.
Proof.
  pose proof (lookup_lt_Some _ _ _ (au_start _ _ AU)) as Hn. rewrite length_bodies in Hn.
  apply resolved_distinct. destruct (parse_actions_row g symbol_prec symbol_assoc rprec rassoc acc (shift_table s) first_la la_rule LA m 0) as [Hs Hin];
    [by apply (Mkpar.to_state _ _ _ _ _ _ rows_tables)|].
  assert (Hc : forall a, a ∈ actions_of 0 -> action_code a = SHIFT /\ exists q, number a = Z.of_nat q /\ delta s 0 (symbol a) q).
  { intros a Ha. split; [by apply first_row_shifts|]. pose proof (first_row_shifts a Ha) as Hc. apply Hin in Ha as [(k & Hk & _ & ->)|(k & x & _ & _ & _ & ->)]; [|discriminate Hc].
    by exists k. }
  revert Hs Hc. generalize (actions_of 0). intros l. induction l as [|a l IH]; intros Hs Hc; [constructor|]. apply StronglySorted_inv in Hs as [Hs Ha].
  constructor; [apply IH; [done|]; intros b Hb; apply Hc; by right|]. apply Forall_forall. intros b Hb.
  pose proof (proj1 (Forall_forall _ _) Ha b Hb) as Hab. destruct (Hc a (list_elem_of_here _ _)) as [Ca (q & Eq & Da)], (Hc b (list_elem_of_further _ _ _ Hb)) as [Cb (q' & Eq' & Db)].
  destruct Hab as [?|(E & [?|(_ & Hlt)])]; [done|lia|]. rewrite E in Da. pose proof (delta_det g OK s AU _ _ _ _ Da Db) as ->. lia.
Qed.

(** *** The tables agree with the items *)

(** The symbols of the engine: the code of a token, the number of a nonterminal. *)
Definition sym (X : Z) : ParseSound.symbol := if ISVAR g X then Nonterm (symbol_value X) else Tok (symbol_value X).
(** The rules by the numbers of the engine; other numbers have no derivation. *)
Definition rhs_of (n : Z) : list ParseSound.symbol := if decide (3 <= n + 2 < nrules g) then map sym (rhs g (n + 2)) else [Tok (-1)].
Definition entry_rule (n : Z) : Prop := n + 2 ∈ rules g (start_symbol g + 1).
Definition is_st (x : Z) : Prop := exists p, x = Z.of_nat p /\ (p < nstates s)%nat /\ (p = 0%nat \/ 0 < acc p).
Definition items_of (x n : Z) (k : nat) : Prop :=
  exists p, x = Z.of_nat p /\ 3 <= n + 2 < nrules g /\ (k <= length (rhs g (n + 2)))%nat /\ has_item p (position (n + 2) k).

Lemma rhs_of_in n : 3 <= n + 2 < nrules g -> rhs_of n = map sym (rhs g (n + 2)).
Proof. intros Hn. unfold rhs_of. by rewrite decide_True. Qed.

Lemma items_at p n k : items_of (Z.of_nat p) n k -> 3 <= n + 2 < nrules g /\ (k <= length (rhs g (n + 2)))%nat /\ has_item p (position (n + 2) k).
Proof. intros (p' & E & H). by apply Nat2Z.inj in E as <-. Qed.

Lemma target_state p X q : delta s p X q -> is_st (Z.of_nat q) /\ (q <> 0)%nat.
Proof.
  intros Hd. pose proof (delta_range g OK s AU _ _ _ Hd) as (_ & Hq & HX). destruct Hd as [_ <-].
  split; [exists q; split; [done|split; [done|right; lia]]|]. intros ->. rewrite (acc_first g s AU) in HX. lia.
Qed.

(** A transition advances the items. *)
Lemma delta_advances p X q : delta s p X q -> advances rhs_of is_st items_of (Z.of_nat p) (sym X) (Z.of_nat q).
Proof.
  intros Hd. destruct (target_state p X q Hd) as [Hst Hq]. split; [done|]. split; [lia|]. intros n k (Hn & Hk & Hx)%items_at.
  destruct (item_back g OK LO s AU p X q (n + 2) k Hd Hn Hk Hx) as [Hat Hp]. split.
  - rewrite (rhs_of_in n Hn), list_lookup_fmap, Hat. done.
  - exists p. split; [done|]. split; [done|]. split; [lia|done].
Qed.

Section Tables.
Context (T : parser_tables) (Hvars : nvars g <= 32767) (Hlens : forall r, 3 <= r < nrules g -> Z.of_nat (length (rhs g r)) <= 32767).
Context (Hfound : forall i, (i < nstates s)%nat -> state_found g s symbol_value symbol_prec symbol_assoc rprec rassoc LA m T i).
Context (Hgoto : forall A p q, start_symbol g < A -> delta s p A q -> goto_of T (symbol_value A) (Z.of_nat p) = Z.of_nat q).
Context (Hrules : forall r, 3 <= r < nrules g ->
  (-32768 <= symbol_value (at_ (rlhs g) r) < 32768 -> Short (lhs T) (r - 2) = symbol_value (at_ (rlhs g) r)) /\
  (-32768 <= at_ (rrhs g) (r + 1) - at_ (rrhs g) r - 1 < 32768 -> Short (len T) (r - 2) = at_ (rrhs g) (r + 1) - at_ (rrhs g) r - 1)).

(** The left side and the length of a rule. *)
Lemma rule_lhs_var r : 3 <= r < nrules g -> start_symbol g < at_ (rlhs g) r < nsyms g.
Proof.
  intros Hr. pose proof (lo_lhs g LO r ltac:(lia)) as HA%Z.leb_le. split; [|by apply (en_lhs g EN)].
  destruct (decide (at_ (rlhs g) r = start_symbol g)) as [E|]; [|lia]. pose proof (proj1 (en_start g EN r) ltac:(apply elem_of_rules; split; [lia|done])). lia.
Qed.
Lemma lhs_found n : 3 <= n + 2 < nrules g -> lhs_of T n = symbol_value (at_ (rlhs g) (n + 2)).
Proof.
  intros Hn. unfold lhs_of. destruct (Hrules _ Hn) as [Hl _]. replace (n + 2 - 2) with n in Hl by lia. apply Hl.
  pose proof (rule_lhs_var _ Hn) as HA. rewrite (so_var g _ SO) by done. pose proof (go_start g OK). pose proof (go_nsyms g OK). lia.
Qed.
Lemma len_found n : 3 <= n + 2 < nrules g -> Short (len T) n = Z.of_nat (length (rhs g (n + 2))).
Proof.
  intros Hn. destruct (Hrules _ Hn) as [_ Hl]. replace (n + 2 - 2) with n in Hl by lia. rewrite (en_next g EN _ Hn) in Hl.
  specialize (Hlens _ Hn). rewrite Hl; lia.
Qed.

(** The shifts the engine finds are transitions. *)
Lemma shift_found p c x : (p < nstates s)%nat -> 0 <= c -> shift_of T (Z.of_nat p) c = Some x ->
  exists t q, ISTOKEN g t = true /\ symbol_value t = c /\ x = Z.of_nat q /\ delta s p t q.
Proof.
  intros Hp Hc Hx. destruct (Hfound p Hp) as (_ & _ & Hs). apply (proj1 (Hs c x Hc)) in Hx as (a & Ha & Hk & <- & _).
  apply left_shifts_in in Ha as [[Ha _] Hcode]. destruct (shift_delta p a Hp Ha Hcode) as (Ht & q & Eq & Hd).
  exists (symbol a), q. split; [done|]. split; [done|]. split; [lia|done].
Qed.

(** The reductions it finds are at the ends of rules. *)
Lemma reduce_found p n : (p < nstates s)%nat -> ParseSound.reduces T (Z.of_nat p) n -> 3 <= n + 2 < nrules g /\ has_item p (position (n + 2) (length (rhs g (n + 2)))).
Proof.
  intros Hp Hr. destruct (Hfound p Hp) as (Hd & Hdef & Hs). apply (reduction_item p (n + 2) Hp).
  destruct (resolved_plain g symbol_prec symbol_assoc rprec rassoc _ _ _ _ LA m _ p (p =? final)%nat rows_tables Hp) as [Hcod Hpos].
  destruct Hr as [[E Hn]|(c & H0 & Hc)].
  - unfold Parsing.defred in *. rewrite Hd in E. destruct (Z.eqb_spec (sole_reduction (row_of p)) 0) as [|Hne]; [congruence|].
    assert (Hpd : 0 < sole_reduction (row_of p)).
    { apply Z.le_neq. split; [exact (sole_reduction_nonneg _ Hcod Hpos)|]. intros E0. exact (Hne (eq_sym E0)). }
    destruct (proj1 (Hdef _ Hpd) eq_refl) as [Hall (a & Hl & _)]. destruct (Hall a Hl) as [Hc En].
    replace (n + 2) with (number a) by lia. apply reduce_rule; [done|apply Hl|done].
  - apply (proj2 (Hs c n H0)) in Hc as (a & Ha & _ & En & _). apply left_reductions_in in Ha as (Hl & Hc & _).
    replace (n + 2) with (number a) by lia. apply reduce_rule; [done|apply Hl|done].
Qed.

Lemma sym_token t : ISTOKEN g t = true -> sym t = Tok (symbol_value t).
Proof. unfold sym, ISTOKEN, ISVAR. intros Ht%Z.ltb_lt. by rewrite (proj2 (Z.leb_gt _ _)). Qed.
Lemma sym_var A : start_symbol g <= A -> sym A = Nonterm (symbol_value A).
Proof. intros HA. unfold sym, ISVAR. by rewrite (proj2 (Z.leb_le _ _)). Qed.

Lemma entry_rhs n : entry_rule n -> 3 <= n + 2 < nrules g /\ at_ (rlhs g) (n + 2) = start_symbol g + 1 /\
  exists t A, rhs g (n + 2) = [t; A] /\ 0 < t < ntokens g /\ start_symbol g + 1 < A.
Proof.
  intros Hn. split; [by apply entry_place|]. split; [|by apply (en_rule g EN)]. by apply elem_of_rules in Hn as [_ ->].
Qed.

(** The goto on the left side of a rule at whose beginning an item is. *)
Lemma goto_advances p n : items_of (Z.of_nat p) n 0 -> advances rhs_of is_st items_of (Z.of_nat p) (Nonterm (lhs_of T n)) (goto_of T (lhs_of T n) (Z.of_nat p)).
Proof.
  intros (Hn & _ & Hx)%items_at. rewrite Z.add_0_r in Hx. destruct (item_origin g OK LO EN s AU p (n + 2) Hn Hx) as (y & Hy & Ey).
  pose proof (rule_lhs_var _ Hn) as HA. pose proof (lo_symbols g LO). destruct (item_shift g s AU p y Hy ltac:(rewrite Ey; lia)) as (q & Hd & _). rewrite Ey in Hd.
  rewrite (lhs_found n Hn), (Hgoto _ p q (proj1 HA) Hd), <- sym_var by lia. by apply delta_advances.
Qed.

Section Engine.
Context {V : Type} (unit_ : V) {L : Type} (actions : Z -> list (attribute V) -> action_result V) (lexer : L -> token V * Z * Z * L).
(** The entry point, by its rule and its token. *)
Context (r0 t0 : Z) (Hr0 : r0 ∈ rules g (start_symbol g + 1)) (Ht0 : rhs g r0 !! 0%nat = Some t0).
(** The actions: those of the entry points call [YYexit], the others return. *)
Context (Hexit : forall n args, entry_rule n -> actions n args = match args with [_; a] => YYexit (fst (fst a)) | _ => Failed end).
Context (Hact : forall n args, 3 <= n + 2 < nrules g -> ~ entry_rule n -> length args = length (rhs g (n + 2)) -> exists v, actions n args = Value v).
Context (Hlex : forall l t b n l', lexer l = (t, b, n, l') -> exists x v, token_code unit_ T t = Some (x, v) /\ 0 <= int_of x).

(** The first state shifts the token of the entry point. *)
Lemma first_shift_found : Short (defred T) 0 = 0 /\ exists x, shift_of T 0 (symbol_value t0) = Some x.
Proof.
  pose proof (lookup_lt_Some _ _ _ (au_start _ _ AU)) as Hn. rewrite length_bodies in Hn.
  destruct (en_rule g EN r0 Hr0) as (t & A & E & Ht & _). rewrite E in Ht0. injection Ht0 as ->.
  assert (Hx : has_item 0 (at_ (rrhs g) r0)).
  { assert (Hv : ISVAR g (start_symbol g + 1) = true) by (apply Z.leb_le; lia). apply (item_rule g s 0 (at_ (rrhs g) 2) (start_symbol g + 1)); [|apply (en_first g EN)|done|done].
    destruct (state_items g s AU 0 Hn) as (b & I & Hb & HI & _). exists b, I. split; [done|]. split; [done|]. apply (proj2 HI), closure_nucleus.
    apply first_body in Hb as ->. apply list_elem_of_fmap. exists 2. split; [done|]. by apply (en_start g EN). }
  destruct (rhs_at g LO r0 0 (entry_place r0 Hr0)) as [Hat Hpos]; [rewrite E; cbn; lia|]. rewrite E, Z.add_0_r in Hat. injection Hat as Hat. rewrite Z.add_0_r in Hpos.
  destruct (item_shift g s AU 0 _ Hx Hpos) as (q & Hd & _). rewrite <- Hat in Hd. clear Hat Hpos Hx.
  assert (Ha : shift_action symbol_prec symbol_assoc acc q ∈ row_of 0).
  { rewrite first_row. apply parse_actions_row; [by apply (Mkpar.to_state _ _ _ _ _ _ rows_tables)|]. left. exists q. destruct Hd as [Hq Hacc].
    split; [done|]. split; [|done]. rewrite Hacc. apply Z.ltb_lt. pose proof (go_start g OK). lia. }
  assert (Hl : left_in (row_of 0) (shift_action symbol_prec symbol_assoc acc q)) by (by split).
  destruct (Hfound 0%nat Hn) as (Hdef & Hdd & Hs). split.
  - change (Z.of_nat 0) with 0 in Hdef. refine (eq_trans Hdef _). destruct (Z.eqb_spec (sole_reduction (row_of 0)) 0) as [|Hne]; [done|]. exfalso.
    destruct (resolved_plain g symbol_prec symbol_assoc rprec rassoc _ _ _ _ LA m _ 0%nat (0 =? final)%nat rows_tables Hn) as [Hcod Hpos].
    assert (Hpd : 0 < sole_reduction (row_of 0)).
    { apply Z.le_neq. split; [exact (sole_reduction_nonneg _ Hcod Hpos)|]. intros E0. exact (Hne (eq_sym E0)). }
    destruct (proj1 (Hdd _ Hpd) eq_refl) as [Hall _]. destruct (Hall _ Hl) as [Hc _]. discriminate Hc.
  - exists (Z.of_nat q). pose proof (so_token g _ SO t0 ltac:(lia)) as Hv. apply (proj1 (Hs (symbol_value t0) (Z.of_nat q) (proj1 Hv))).
    exists (shift_action symbol_prec symbol_assoc acc q). destruct Hd as [_ Hacc]. split; [by apply left_shifts_in|]. cbn [symbol number shift_action]. rewrite Hacc.
    split; [done|]. split; [lia|]. intros b Hb Hk. apply left_shifts_in in Hb as [[Hb _] Hc]. destruct (shift_delta 0 b Hn Hb Hc) as (Hbt & qb & _ & Hdb).
    pose proof (delta_range g OK s AU _ _ _ Hdb) as (_ & _ & Hb0). apply Z.ltb_lt in Hbt. pose proof (go_start g OK).
    rewrite (so_inj g _ SO (symbol b) t0 ltac:(lia) ltac:(lia) Hk). lia.
Qed.

(** The tables are those of the grammar. *)
Lemma generated_tables_ok : tables_ok unit_ T actions lexer rhs_of entry_rule is_st items_of (symbol_value t0).
Proof.
  pose proof (lookup_lt_Some _ _ _ (au_start _ _ AU)) as Hn0. rewrite length_bodies in Hn0. constructor.
  - exists 0%nat. split; [done|]. split; [done|by left].
  - intros n k Hi. destruct (items_at 0 n k Hi) as (Hn & Hk & Hx). destruct (first_item_start (n + 2) k Hn Hk Hx). done.
  - exact first_shift_found.
  - intros x c x' (p & -> & Hp & _) Hc Hs. destruct (shift_found p c x' Hp Hc Hs) as (t & q & Ht & <- & -> & Hd). rewrite <- sym_token by done. by apply delta_advances.
  - intros x n (p & -> & _) Hi _. by apply goto_advances.
  - intros x n (p & -> & Hp & _) Hr. destruct (reduce_found p n Hp Hr) as [Hn Hx]. rewrite (rhs_of_in n Hn), length_fmap.
    split; [exists p; split; [done|]; split; [done|]; split; [lia|done]|by apply len_found].
  - intros n (Hn & _ & t & A & E & Ht & HA)%entry_rhs. exists (symbol_value t), (symbol_value A). rewrite (rhs_of_in n Hn), E. cbn [map].
    rewrite sym_token, sym_var; [done|lia|]. apply Z.ltb_lt. pose proof (go_start g OK). lia.
  - intros x n (p & -> & Hp & Hacc) Hi (Hn & El & _)%entry_rhs. destruct (items_at p n 0 Hi) as (_ & _ & Hx). rewrite Z.add_0_r in Hx.
    by rewrite (item_entry g OK LO EN s AU p (n + 2) Hn El Hx Hacc).
  - exact Hexit.
  - intros x n args (p & -> & Hp & _) Hr He Hl. destruct (reduce_found p n Hp Hr) as [Hn _]. rewrite (rhs_of_in n Hn), length_fmap in Hl. by apply Hact.
  - intros n. unfold entry_rule. destruct (decide (n + 2 ∈ rules g (start_symbol g + 1))); [by left|by right].
  - exact Hlex.
Qed.

(** What the engine derives is derived in the grammar. *)
Lemma derives_yields :
  (forall X v w, derives T actions rhs_of entry_rule X v w -> Forall (fun t => 0 <= t.1) w ->
    forall Y, sym Y = X -> 0 < Y < nsyms g -> yields g symbol_value actions Y v w) /\
  (forall Xs args w, derives_list T actions rhs_of entry_rule Xs args w -> Forall (fun t => 0 <= t.1) w ->
    forall Ys, map sym Ys = Xs -> Forall (fun Y => 0 < Y < nsyms g) Ys -> yields_list g symbol_value actions Ys args w).
Proof.
  pose proof (go_start g OK) as Hst. apply derives_both.
  - intros c v _ Y EY HY. unfold sym in EY. destruct (ISVAR g Y) eqn:Hv; [done|]. injection EY as <-. constructor. apply Z.leb_gt in Hv. lia.
  - intros n args v w He Hd IH Ha Hw Y EY HY. destruct (decide (3 <= n + 2 < nrules g)) as [Hn|Hn].
    + specialize (IH Hw _ (eq_sym (rhs_of_in n Hn))). rewrite (lhs_found n Hn) in EY. unfold sym in EY. destruct (ISVAR g Y) eqn:Hv; [|done]. injection EY as EY.
      apply Z.leb_le in Hv. pose proof (rule_lhs_var _ Hn) as HA. rewrite (so_var g _ SO (at_ (rlhs g) (n + 2))) in EY by done.
      assert (HYA : Y = at_ (rlhs g) (n + 2)).
      { destruct (decide (Y = start_symbol g)) as [->|Hne]; [rewrite (so_start g _ SO) in EY; lia|]. rewrite (so_var g _ SO) in EY; lia. }
      rewrite HYA. apply (yields_rule g symbol_value actions (n + 2) args); [done|done|apply IH|by replace (n + 2 - 2) with n by lia].
      apply Forall_lookup. intros i X HX. destruct (rhs_at g LO (n + 2) i Hn) as [HX' Hpos]; [by eapply lookup_lt_Some|]. rewrite HX' in HX. injection HX as <-.
      split; [done|apply (go_symbol g OK)].
    + exfalso. unfold rhs_of in Hd. rewrite decide_False in Hd by done. inversion Hd as [|X a u Xs args' w' H1 H2]; subst. inversion H1; subst.
      apply Forall_app in Hw as [Hw _]. apply Forall_cons in Hw as [Hw _]. cbn in Hw. lia.
  - intros _ [|Y Ys] EY _; [constructor|done].
  - intros X a w Xs args w' _ IH _ IH' [Hw Hw']%Forall_app [|Y Ys] EY HY; [done|]. cbn [map] in EY. injection EY as E1 E2. apply Forall_cons in HY as [HY HYs].
    constructor; [by apply IH|by apply IH'].
Qed.
End Engine.
End Tables.
End Printed.

(** ** From the grammar to the parser *)

(** [lr0(); lalr(); make_parser();] of [main], and the packing by [output()]; [bound]
    turns for each loop with fuel. *)
Definition generator (g : grammar) (symbol_value symbol_prec symbol_assoc rprec rassoc : Z -> Z) (bound : nat) (p EFF ruleset LA F : Z) (m : mem) :
    result (lr0 * gotos * mem * packing) :=
  match set_nullable g bound with
  | Some nullable =>
      match generate_states g bound p EFF ruleset m with
      | Done s =>
          do (G, m) <- lalr g nullable s LA F m;
          let '(parser, defred, _) := make_parser g symbol_prec symbol_assoc rprec rassoc (Lalr.accessing_symbol s) (shift_table s)
            (fun i : nat => lookaheads s !!! i) (fun k : nat => LAruleno s !!! k) LA m (nstates s) in
          match output_actions g symbol_value parser defred G bound with
          | Done ps => Ok (s, G, m, ps)
          | Fatal_error msg => Fatal msg
          | Unfinished => Out_of_turns
          end
      | Fatal_error msg => Fatal msg
      | Unfinished => Out_of_turns
      end
  | None => Out_of_turns
  end.

(** The codes of the tokens read, and of words that stand for them, are not negative. *)
Lemma reads_codes T {V : Type} (unit_ : V) {L : Type} (lexer : L -> token V * Z * Z * L) l r l' :
  (forall l t b k l', lexer l = (t, b, k, l') -> exists x v, token_code unit_ T t = Some (x, v) /\ 0 <= int_of x) ->
  ParseSound.reads unit_ T lexer l r l' -> Forall (fun t => 0 <= t.1) r.
Proof.
  intros Hlex. induction 1 as [|l r l1 t b k l2 x v Hr IH Hl Ht]; [constructor|]. apply Forall_app. split; [done|]. repeat constructor.
  destruct (Hlex _ _ _ _ _ Hl) as (x' & v' & Ht' & Hx). rewrite Ht in Ht'. by injection Ht' as <- <-.
Qed.
Lemma stands_codes {V : Type} (w q : list (Z * V)) : Forall (fun t => 0 <= t.1) q -> stands w q -> Forall (fun t => 0 <= t.1) w.
Proof.
  intros Hq (ds & -> & HF). induction HF as [|t d w ds H HF IH]; [constructor|]. cbn [concat] in Hq. apply Forall_app in Hq as [Hd Hq].
  constructor; [|by apply IH]. destruct H as [->| ->]; [by apply Forall_cons in Hd as [? _]|done].
Qed.

Section Parser.
Context (g : grammar) (OK : grammar_ok g) (LO : laid_out g) (EN : entries_ok g).
Context (symbol_value : Z -> Z) (SO : symbols_ok g symbol_value) (symbol_prec symbol_assoc rprec rassoc : Z -> Z).
(** The numbers are C shorts. *)
Context (Hitems : forall x, -32767 <= at_ (ritem g) x) (Hvars : nvars g <= 32767)
  (Hlens : forall r, 3 <= r < nrules g -> Z.of_nat (length (rhs g r)) <= 32767).
(** The places of the arrays of [closure.c]. *)
Context (p EFF ruleset : Z) (Hdisj1 : p + nvars g * WORDSIZE (nrules g) <= EFF \/ EFF + nvars g * WORDSIZE (nvars g) <= p)
  (Hdisj2 : ruleset + WORDSIZE (nrules g) <= p \/ p + nvars g * WORDSIZE (nrules g) <= ruleset).

(** A run that ends well made the tables from the automaton. *)
Lemma generator_run bound LA F m s G m' ps : (MAXSHORT < bound)%nat ->
  generator g symbol_value symbol_prec symbol_assoc rprec rassoc bound p EFF ruleset LA F m = Ok (s, G, m', ps) ->
  automaton g s /\ numbering g s G /\
  let made := make_parser g symbol_prec symbol_assoc rprec rassoc (Lalr.accessing_symbol s) (shift_table s)
    (fun i : nat => lookaheads s !!! i) (fun k : nat => LAruleno s !!! k) LA m' (nstates s) in
  output_actions g symbol_value made.1.1 made.1.2 G bound = Done ps.
Proof.
  intros Hb. unfold generator. destruct (set_nullable g bound) as [N|]; [|done].
  pose proof (generate_states_spec g bound p EFF ruleset m OK Hb Hdisj1 Hdisj2) as AU. destruct (generate_states g bound p EFF ruleset m) as [s0|msg|]; [|done|done].
  pose proof (set_goto_map_spec g OK s0 AU) as NB. unfold lalr. destruct (set_goto_map g s0) as [G0|msg| | |]; cbn [andthen]; try done.
  destruct (initialize_F _ _ _ _ _ _) as [m1|msg| | |]; cbn [andthen]; try done. destruct (build_relations _ _ _ _) as [[inc lb]|msg| | |]; cbn [andthen]; try done.
  destruct (run_digraph _ _ _ _ _) as [m2|msg| | |]; cbn [andthen]; try done. cbv zeta. set (m3 := compute_lookaheads _ _ _ _ _ _ _).
  destruct (make_parser _ _ _ _ _ _ _ _ _ LA m3 _) as [[parser defred] used] eqn:Em. destruct (output_actions g symbol_value parser defred G0 bound) as [ps0|msg|] eqn:Eo; try done.
  intros [= <- <- <- <-]. split; [done|]. split; [done|]. by rewrite Em.
Qed.

End Parser.

(** ** Witness *)

Lemma sums_entry r : r ∈ rules sums (start_symbol sums + 1) -> r = 3.
Proof.
  intros [Hr E]%elem_of_rules. assert (H7 : r = 0 \/ r = 1 \/ r = 2 \/ r = 3 \/ r = 4 \/ r = 5 \/ r = 6) by (cbn in Hr; lia).
  destruct H7 as [->|[->|[->|[->|[->|[->| ->]]]]]]; vm_compute in E; done.
Qed.
Lemma sums_entries : entries_ok sums.
Proof.
  assert (H7 : forall r, 0 <= r < 7 -> r = 0 \/ r = 1 \/ r = 2 \/ r = 3 \/ r = 4 \/ r = 5 \/ r = 6) by lia.
  assert (H4 : forall r, 3 <= r < 7 -> r = 3 \/ r = 4 \/ r = 5 \/ r = 6) by lia.
  constructor.
  - intros r. rewrite elem_of_rules. split; [|by intros ->].
    intros [Hr E]. destruct (H7 r Hr) as [->|[->|[->|[->|[->|[->| ->]]]]]]; vm_compute in E; done.
  - done.
  - intros r Hr. destruct (H4 r Hr) as [->|[->|[->| ->]]]; reflexivity.
  - reflexivity.
  - intros x. unfold at_ at 1. cbn [ritem sums start_symbol]. intros E. assert (Hx : Z.to_nat x = 1%nat); [|change (at_ (rrhs sums) 2) with 1; lia].
    revert E. generalize (Z.to_nat x). intros k. do 15 (destruct k as [|k]; [first [reflexivity|discriminate]|]). cbn. by destruct k.
  - intros r ->%sums_entry. exists 2, 7. done.
  - by intros r r' ->%sums_entry ->%sums_entry.
  - intros r Hr. destruct (H4 r Hr) as [->|[->|[->| ->]]]; reflexivity.
Qed.

(** The value of a sum is the sum; the entry point returns it. *)
Definition sums_actions (n : Z) (l : list (attribute Z)) : action_result Z :=
  if n =? 1 then match l with [_; a] => YYexit (fst (fst a)) | _ => Failed end
  else Value (fold_right (fun a x => fst (fst a) + x) 0 l).
(** ['x'] of value 20, ['+'], ['x'] of value 22, and the end of the input for ever. *)
Definition sums_lexer (l : nat) : token Z * Z * Z * nat :=
  (match l with 0%nat => Block_token 0 20 | 1%nat => Const_token 0 | 2%nat => Block_token 0 22 | _ => Const_token 1 end, 0, 0, S l).

Lemma sums_lengths r : 3 <= r < nrules sums -> Z.of_nat (length (rhs sums r)) <= 32767.
Proof.
  intros Hr. assert (H4 : r = 3 \/ r = 4 \/ r = 5 \/ r = 6) by (cbn in Hr; lia). destruct H4 as [->|[->|[->| ->]]]; vm_compute; discriminate.
Qed.

